(* ===== verification/_CoqProject ===== *)
-Q . S2P
Prelude.v
ForkTree.v
ForkTreeSpec.v
ForkTreeInv.v
ForkTreeOps.v
ForkTreeProps.v
Collections.v
PoolTypes.v
TrackedMap.v
FuturePool.v
ReadyPool.v
ReadyInv.v
ReadyImport.v
ReadyPrune.v
ReadyIter.v
BasePool.v
BaseInv.v
BaseOps.v
BasePrune.v
Rotator.v
Listener.v
ValidatedPool.v
VPoolInv.v
VPoolResubmit.v
OpPool.v
StfTypes.v
Author.v
FlatPool.v
AuthorInv.v
PoolProps.v
AuthorProps.v
SidechainDb.v
SidechainStorage.v
StorageInv.v
StorageProps.v
Durations.v
Externalities.v
SidechainState.v
SidechainBlocks.v
Dispatcher.v
StateFileIo.v
SgxFileIo.v
SnapshotRepository.v
StateHandler.v
StateHandlerProps.v
StfExecutor.v
Consensus.v
BlockComposer.v
ParentchainImport.v
BlockImport.v
BlockImportInv.v
ProposalInv.v
ConsensusSample.v
ConsensusProps.v
Slots.v
Aura.v
AuraProps.v
SidechainOCalls.v
PeerSync.v
PeerSyncProps.v
SidechainCycle.v
StateProps.v
OnChain.v
LightClient.v
LightClientInv.v
LightClientProps.v
Extrinsics.v
TrustedCalls.v
TrustedCallsProps.v
IndirectCalls.v
IndirectCallsProps.v
ParentchainClient.v
WsServer.v
DirectRpc.v
Keys.v
Provisioning.v
Attestation.v
OffchainWorker.v
ShardSetup.v
Broadcast.v
