(* ===== verification/Prelude.v ===== *)
(** * A verification of the Integritee worker

    The worker (src/) runs trusted calls of users inside an SGX enclave.  Calls
    reach the enclave over RPC and wait in the pool of trusted operations; in its
    slots of the sidechain a worker executes them on the state of their shard and
    broadcasts a signed sidechain block with the encrypted state diff; the other
    workers verify and apply the block.  The parentchain feeds the workers with
    its blocks, which are imported through a light client; they carry shielded
    funds and calls for the enclave, and the enclave answers with extrinsics.  This development
    models these parts as executable functions on explicit states and proves what
    they promise.  Fallible Rust functions return [result]; functions that may
    panic or loop return [outcome] ([Ret], [Panic], [OutOfFuel]), and the theorems
    show that they return.  Time, randomness and what the host answers are
    arguments.

    ** Map of the files

    _Common._ [Prelude]: outcomes, results, loops with a total-correctness rule,
    machine-width arithmetic, vectors, tactics, hints.  [Collections]: hash maps
    with an arbitrary iteration order ([IterOrder]), hash sets, [BTreeSet].
    [Durations]: [Duration] in nanoseconds and the [f32] arithmetic of [mul_f32].
    The SCALE codec, the hash and the encryption of states are classes with their
    laws at the top of [SidechainDb].

    _Fork tree_ (sidechain/fork-tree).  [ForkTree]: all operations, the loops over
    explicit stacks and queues included.  [ForkTreeSpec]: recursive
    specifications and the proof that the breadth-first loops implement them.
    [ForkTreeInv]: exactness of a tree with respect to the ancestry of blocks.
    [ForkTreeOps]: lemmas of each operation.  [ForkTreeProps]: the properties.

    _Pool of trusted operations_ (core-primitives/top-pool and
    top-pool-author).  [PoolTypes], [TrackedMap], [FuturePool], [ReadyPool] (the
    dependency graph and its iterator), [BasePool], [Rotator], [Listener],
    [ValidatedPool] (with the interface of the chain), [OpPool], [StfTypes], [Author] are the layers of
    the pool, from the queues to the author.  [ReadyInv], [ReadyImport],
    [ReadyPrune], [ReadyIter], [BaseInv], [BaseOps], [BasePrune], [VPoolInv],
    [VPoolResubmit] hold the invariants and lemmas; [FlatPool] and [AuthorInv]
    show that the operations of the STF, which provide one tag and require none,
    make the pool a first-in first-out queue; [PoolProps] and [AuthorProps] have
    concrete pools and the properties.

    _Block storage_ (sidechain/storage).  [SidechainDb]: the key-value store.
    [SidechainStorage]: blocks of the shards.  [StorageInv]: a chain of blocks per
    shard as the abstract state.  [StorageProps].

    _States_ (core-primitives/substrate-sgx, sidechain/state,
    core-primitives/stf-state-handler, stf-state-observer, stf-executor).
    [Externalities]: the state of a shard with its diff, and the storage functions
    of the runtime.  [SidechainState]: state updates and system values.
    [StateFileIo], [SgxFileIo]: the files of the states, in memory and encrypted
    on disk, behind the interface [StateFileIo] with its laws.
    [SnapshotRepository]: snapshots per shard.  [StateHandler]: the handler and the
    observer, behind the interface [HandleState] with its laws.  [StfExecutor]:
    execution of calls and getters and updates of the states upon parentchain
    blocks.  [StateHandlerProps], [StateProps].

    _Parentchain_ (core-primitives/import-queue, core/parentchain).
    [Dispatcher]: the import queue, and queues of parentchain blocks until an import
    is triggered.  [ParentchainImport]: the importer, over interfaces of the light
    client, the extrinsics factory and the executor of indirect calls.

    _Parentchain client_ (core/parentchain/light-client,
    core-primitives/storage, ocalls and loops of enclave-runtime and service).
    [OnChain]: storage keys, proofs and the reads of the enclave through the host.
    [LightClient]: headers, justifications, finality, the sealed state with its
    backup, access under the lock.  [LightClientInv], [LightClientProps]: the chain
    that is followed, routes of votes, restarts.  [ParentchainClient]: the light
    client behind the interface of the importer ([chain_importer]), the ecall
    that dispatches blocks ([following_enclave]), and the loops of the service that
    fetch them from a node; the theorems on the loops are proved against
    the interface [FollowingEnclave].

    _Trusted calls_ (app-libs/stf, app-libs/parentchain-interface,
    core/parentchain/indirect-calls-executor, core-primitives/extrinsics-factory,
    nonce-cache, stf-executor/src/enclave_signer.rs).  [Extrinsics]: nonces,
    metadata and the factory.  [TrustedCalls]: calls, getters, signatures, vault and
    first state over an interface of the pallets ([Pallets], with [PalletsLaws]); [trusted_stf]
    implements the interface [Stf] of the executor.  [IndirectCalls]: what the
    enclave takes out of a parentchain block.  [TrustedCallsProps],
    [IndirectCallsProps].

    _Sidechain consensus_ (sidechain/primitives, block-verification, consensus,
    block-composer, validateer-fetch, peer-fetch; enclave-runtime and service where
    they connect the parts).  [SidechainBlocks] (blocks and their
    verification), [Consensus] (validateers and the Aura verifier), [BlockComposer] (proposal of
    a block), [BlockImport] (import of a block), [Slots] (slot arithmetic, stream
    and scheduler), [Aura] (what a worker does in a slot), [SidechainOCalls] (from
    the enclave over the buffers of the ocalls to storage and peers), [PeerSync]
    (the queue of received blocks and catching up), [SidechainCycle] (one cycle of
    block production).  [BlockImportInv], [ProposalInv] hold the invariants;
    [ConsensusSample] a concrete enclave that runs all of it; [ConsensusProps],
    [AuraProps], [PeerSyncProps] and the end of [SidechainCycle] the properties.

    _Broadcast_ (service/src/worker.rs, core/rpc-server, core/rpc-client).
    [Broadcast]: the peers of a worker, the broadcast of blocks as tasks that run in
    any order, the untrusted server and its ecall, up to the import queue of the
    peer; [worker_network] implements the interface [Network] of [SidechainOCalls].

    _Web sockets and direct RPC_ (core/tls-websocket-server,
    core/direct-rpc-server, sidechain/rpc-handler, enclave-runtime/src/rpc).
    [WsServer]: the event loop, its connections and signals, over an interface of
    the handler of messages.  [DirectRpc]: the handler with its registry of
    watched connections, the responder, and the methods that clients and peers call.

    _Keys and provisioning_ (core-primitives/sgx/crypto, enclave-runtime/src/tls_ra,
    core-primitives/attestation-handler/src/cert.rs).  [Keys]: state, shielding and
    signing key, their files and repositories, and the encryption of states.
    [Provisioning]: the messages by which a worker gets keys and state of another
    one, both sides, over the byte streams of TLS; that a new state key is also the
    one with which the files of the states are read is [rekeyed_load] of [SgxFileIo].  [Attestation]: the checks of the
    certificate of the other side.

    _Set-up and off-chain mode_ (enclave-runtime/src/shard_vault.rs,
    shard_creation_info.rs, shard_config.rs, initialization/mod.rs, core/offchain-worker-executor).
    [ShardSetup]: initialisation, vault, creation block and configuration of a shard.
    [OffchainWorker]: the execution of the pool without a sidechain.

    ** What the theorems show

    - The sidechain: over any sequence of cycles the chains of the shards only grow
      by linked blocks of the validateers in turn, and an enclave broadcasts at
      most one block per slot ([cycles_are_safe]); imported blocks form a chain
      ([imports_build_a_chain]) and imports are atomic ([import_is_atomic]); what
      one worker proposes the others import with the same state
      ([proposed_block_imports]); blocks of a slot verify
      ([slot_block_verifies]); every validateer gets its turn
      ([every_validateer_gets_its_turn]); slots are yielded once and shared fairly;
      a worker that is behind imports exactly the missing blocks
      ([sync_imports_the_missing_blocks]), and the order of arrival does not matter.
    - The states: histories of writes, reads and restarts give the last write
      ([states_survive_restarts]); reverts are exact; the diff of a block is exact.
    - The storage refines one list of blocks per shard
      ([storage_history_refines]), survives reloading, and prunes exactly.
    - The author and its pool refine one queue per shard and a map of bans, replies
      included ([author_refines_queues]), and the pending calls are that queue with
      different nonces ([pending_calls_distinct]); import, limits, pruning and
      resubmission account for every operation; the iterator is greedy in the links
      it counts, while these match the requirements.
    - The light client follows one linked chain whatever is submitted
      ([light_client_follows_a_chain]), as long as no header of it announces an empty
      set of authorities ([empty_authorities_stop_the_client]), accepts a justification exactly under its
      conditions ([justification_is_exact]) and survives a torn write of its
      state; imports with it extend that chain ([batches_extend_the_chain]), the
      service catches up with its node ([sync_reaches_the_head],
      [await_reaches_the_header]), and what the enclave reads from the chain is
      what the chain holds ([storage_reads_are_authentic]).
    - The trusted calls: balances and the payouts in the calls for the parentchains
      stay covered by what was shielded ([shielded_funds_stay_backed]), a signed call
      runs once while the nonce of its sender is not set back
      ([signed_call_runs_once], [emptied_account_replays]), a shard keeps its
      vault, getters answer their owner; a parentchain block becomes the
      calls it holds, in order ([indirect_calls_follow_the_block]), with
      consecutive nonces, as do the extrinsics.  The executor of indirect calls needs room
      in the pool for its calls, so that its theorems take [in_order] and it is no instance of
      [SafeIndirectCalls].
    - The network: a broadcast reaches the import queue of each peer once
      ([broadcasts_are_delivered_once]), and proposals go to the workers that are
      registered for the shard ([proposals_go_to_the_registered_workers]); a message
      of the server reaches its connection only, up to a message on which the handler
      fails ([messages_stay_on_their_connection]), and a client that watches its call sees
      its events in order ([submission_is_watched]).
    - The keys: a repository keeps its key over restarts
      ([keys_outlive_the_enclave]); a provisioned worker has what the server has
      ([provisioned_worker_has_the_servers_parts]), and both accept attested peers
      only ([accepted_peers_are_attested]), unless attestation is skipped or DCAP is
      used, and up to the departures below.
    - Off-chain mode and set-up: a run executes the shards one after the other, each
      exactly ([offchain_run_is_exact]); the vault and the creation block of a shard
      are final unless the host initialises the shard again ([shard_setup_is_final],
      [init_shard_replaces_the_state]).
    - The fork tree stays exact; finalization, pruning and filtering keep exactly
      the blocks they should; the loops terminate.
    - Departures of the code from its intent or documentation, shown on concrete
      inputs: a stale link in the ready queue, waiting operations lost by a refused
      import, events that depend on a hash order, a gap after a failed write, a
      parentchain header in the wrong place; and as theorems: a block
      with a bad justification is lost ([unproven_block_is_lost]), a host chooses the
      validateers ([host_chooses_the_validateers]), forged calls defeat shielding
      ([forged_calls_defeat_shielding]), an unshield without a vault burns, two torn
      seals lose the light client, a change of authorities needs a delay of one; the
      report of an attested enclave can be replayed ([replayed_report_is_served]), a
      platform that asks for an update is served whatever it runs
      ([outdated_platform_is_served]), a request with no parameters stops the server
      ([empty_params_stop_the_server]), an enclave without a usable address stops the
      proposals of all others ([unusable_address_stops_proposals]).

    ** Fuel

    Loops take fuel; the functions that call them pass the number of nodes,
    operations or blocks at hand plus one, and the theorems show that this is
    enough ([loop_total] with the number of remaining elements as measure).

    ** Parameters

    The SCALE codec, blake2 and twox hashes, signatures, state encryption, base58,
    RocksDB, the file system calls, the network, the parentchain node, the pallets
    of the runtime and the hash-map order are parameters, with the laws the code
    relies on as classes ([Codec], [CollisionFree], [SignatureLaws],
    [StateCryptoLaws], [ReliableDb], [TrieLaws], [GrandpaLaws], [SgxFilesLaws],
    [PalletsLaws], [NodeCallsLaws], [ComposeLaws], [HexLaws], [JsonRpcLaws], [WebSocketsLaws],
    [OfbLaws], [KeyLaws], ...).  The samples instantiate each of them.

    ** Not modelled

    TLS, the web-socket and RPC libraries, the generation of quotes and certificates,
    the command line client, the start of the service, metrics and the oracle are network or
    SGX input and output around third-party code.  The evm feature of the STF, the
    subscriber of the service to parentchain events and the parsing of extrinsics
    are not modelled.  Locks are not modelled: each
    operation runs alone, as the enclave lock makes the cycles do. *)

From stdpp Require Import base list gmap sets strings numbers sorting.

(** ** This file

    The shared vocabulary: the outcome and result types that
    every component returns, the combinator that models Rust [while] loops with
    its total-correctness rule, machine-width arithmetic, the [Vec] helpers
    ([swap_remove], stable [sort_by_key], [position]) and the automation
    (tactic [outcome_simpl], hint database [worker]). *)

Declare Scope worker_scope.
Delimit Scope worker_scope with worker.

(** ** Fallible results and outcomes *)

(** Rust's [Result<T, E>]. *)
Inductive result (T E : Type) : Type :=
| Ok (t : T)
| Err (e : E).
Arguments Ok {T E} t.
Arguments Err {T E} e.

(** The [?] operator: go on with the value, or return the error. *)
Notation "'let?' x ':=' e 'in' k" :=
  (match e with Ok x => k | Err err => Err err end)
  (at level 200, x name, e at level 100, k at level 200) : worker_scope.

Definition is_ok {T E} (r : result T E) : bool :=
  match r with Ok _ => true | Err _ => false end.

(** What running a piece of Rust code amounts to: it returns, it panics
    ([unwrap], [expect], [assert!], an index out of range), or the fuel of a
    loop was too small.  Theorems about a component show which one it is. *)
Inductive outcome (A : Type) : Type :=
| Ret (a : A)
| Panic
| OutOfFuel.
Arguments Ret {A} a.
Arguments Panic {A}.
Arguments OutOfFuel {A}.

#[export] Instance outcome_ret : MRet outcome := fun A a => Ret a.
#[export] Instance outcome_bind : MBind outcome := fun A B f m =>
  match m with
  | Ret a => f a
  | Panic => Panic
  | OutOfFuel => OutOfFuel
  end.

(** [expect]/[unwrap] on an [Option]. *)
Definition unwrap {A} (o : option A) : outcome A :=
  match o with Some a => Ret a | None => Panic end.

(** [assert!]. *)
Definition assert_that (b : bool) : outcome unit :=
  if b then Ret tt else Panic.

(** ** Loops *)

(** [while let] loops: [step s] either continues with a new state or breaks
    with the value of the loop. *)
Fixpoint loop {St R : Type} (fuel : nat) (step : St → outcome (St + R))
    (s : St) : outcome R :=
  match fuel with
  | O => OutOfFuel
  | S fuel' =>
      match step s with
      | Ret (inl s') => loop fuel' step s'
      | Ret (inr r) => Ret r
      | Panic => Panic
      | OutOfFuel => OutOfFuel
      end
  end.

Section loops.
Context {St R : Type} (step : St → outcome (St + R)).

(** Total correctness: an invariant kept by every continuing iteration, a
    measure that decreases, a postcondition at every exit. *)
Lemma loop_total (I : St → Prop) (m : St → nat) (Q : R → Prop) :
  (∀ s, I s →
    (∃ s', step s = Ret (inl s') ∧ I s' ∧ m s' < m s) ∨
    (∃ r, step s = Ret (inr r) ∧ Q r)) →
  ∀ fuel s, I s → m s < fuel → ∃ r, loop fuel step s = Ret r ∧ Q r.
Proof.
  intros Hstep fuel. induction fuel as [|fuel IH]; intros s HI Hm; [lia|].
  simpl. destruct (Hstep s HI) as [(s' & -> & HI' & Hlt)|(r & -> & HQ)].
  - apply IH; [done|lia].
  - eauto.
Qed.

(** More fuel never changes the value of a loop that returns. *)
Lemma loop_fuel_mono fuel fuel' s r :
  loop fuel step s = Ret r → fuel ≤ fuel' → loop fuel' step s = Ret r.
Proof.
  revert fuel' s. induction fuel as [|fuel IH]; intros fuel' s; [done|].
  destruct fuel' as [|fuel']; [lia|]. simpl.
  destruct (step s) as [[s'|r']| |]; intros Hl Hle; try done.
  apply IH; [done|lia].
Qed.

Lemma loop_unfold fuel s :
  loop (S fuel) step s =
  match step s with
  | Ret (inl s') => loop fuel step s'
  | Ret (inr r) => Ret r
  | Panic => Panic
  | OutOfFuel => OutOfFuel
  end.
Proof. done. Qed.
End loops.

(** ** Machine-width integers *)

Definition u64_max : Z := 2 ^ 64 - 1.
Definition u64_wrap (z : Z) : Z := z `mod` 2 ^ 64.
Definition u64_saturating_add (a b : Z) : Z := Z.min (a + b) u64_max.
Definition is_u64 (z : Z) : Prop := (0 ≤ z ≤ u64_max)%Z.

Lemma is_u64_saturating_add a b :
  is_u64 a → is_u64 b → is_u64 (u64_saturating_add a b).
Proof. unfold is_u64, u64_saturating_add, u64_max. lia. Qed.

Lemma is_u64_wrap z : is_u64 (u64_wrap z).
Proof.
  unfold is_u64, u64_wrap, u64_max.
  pose proof (Z.mod_pos_bound z (2 ^ 64) ltac:(lia)). lia.
Qed.

Lemma u64_wrap_small z : is_u64 z → u64_wrap z = z.
Proof. unfold is_u64, u64_wrap, u64_max. intros. apply Z.mod_small. lia. Qed.

(** ** Vectors *)

(** [Iterator::position]. *)
Fixpoint position {A} (f : A → bool) (l : list A) : option nat :=
  match l with
  | [] => None
  | x :: l' => if f x then Some 0 else S <$> position f l'
  end.

(** [Vec::remove]: the element and the rest, shifted; [None] is the panic. *)
Definition vec_remove {A} (i : nat) (l : list A) : option (A * list A) :=
  match l !! i with
  | Some x => Some (x, delete i l)
  | None => None
  end.

(** [Vec::swap_remove]: the last element takes the place of the removed one. *)
Definition swap_remove {A} (i : nat) (l : list A) : option (A * list A) :=
  match l !! i, last l with
  | Some x, Some y => Some (x, take (length l - 1) (<[i:=y]> l))
  | _, _ => None
  end.

Lemma position_Some {A} (f : A → bool) l i :
  position f l = Some i → ∃ x, l !! i = Some x ∧ f x = true ∧
    ∀ j y, j < i → l !! j = Some y → f y = false.
Proof.
  revert i. induction l as [|x l IH]; intros i; simpl; [done|].
  destruct (f x) eqn:Hx.
  - intros [= <-]. exists x. repeat split; [done..|]. lia.
  - destruct (position f l) as [k|]; simpl; [|done]. intros [= <-].
    destruct (IH k eq_refl) as (y & Hy & Hfy & Hmin).
    exists y. repeat split; [done..|]. intros [|j] z ? Hz; simpl in *.
    + by simplify_eq.
    + apply (Hmin j z); [lia|done].
Qed.

Lemma position_None {A} (f : A → bool) l :
  position f l = None ↔ ∀ x, x ∈ l → f x = false.
Proof.
  induction l as [|x l IH]; simpl; [set_solver|].
  destruct (f x) eqn:Hx.
  - split; [done|]. intros Hall. specialize (Hall x ltac:(left)). congruence.
  - destruct (position f l) as [k|]; simpl.
    + split; [done|]. intros Hall. assert (Some k = None); [|done].
      apply IH. intros y Hy. apply Hall. by right.
    + split; [|done]. intros _ y [->|Hy]%elem_of_cons; [done|].
      by apply (proj1 IH).
Qed.

Lemma swap_remove_perm {A} i (l : list A) x l' :
  swap_remove i l = Some (x, l') → l !! i = Some x ∧ l ≡ₚ x :: l'.
Proof.
  unfold swap_remove. destruct (l !! i) as [x'|] eqn:Hi; [|done].
  destruct (last l) as [y|] eqn:Hl; [|done]. intros [= <- <-]. split; [done|].
  apply last_Some in Hl as [k ->].
  rewrite length_app, Nat.add_sub. simpl.
  destruct (decide (i < length k)) as [Hlt|Hge].
  - rewrite lookup_app_l in Hi by done.
    rewrite insert_app_l, take_app_le by (rewrite ?length_insert; lia).
    rewrite take_ge by (rewrite length_insert; lia).
    rewrite <-(take_drop_middle k i x' Hi) at 1.
    rewrite insert_take_drop by done.
    rewrite <-!app_assoc. simpl. rewrite <-Permutation_middle. constructor.
    f_equiv. rewrite Permutation_app_comm. done.
  - apply lookup_app_Some in Hi as [Hi|[_ Hi]].
    { apply lookup_lt_Some in Hi. lia. }
    apply list_lookup_singleton_Some in Hi as [? <-].
    assert (i = length k) as -> by lia.
    rewrite insert_app_r_alt, Nat.sub_diag by lia. simpl.
    rewrite take_app_length. by rewrite Permutation_app_comm.
Qed.

Lemma swap_remove_is_Some {A} i (l : list A) :
  i < length l → is_Some (swap_remove i l).
Proof.
  intros Hi. unfold swap_remove.
  destruct (l !! i) as [x|] eqn:Hx; [|apply lookup_ge_None in Hx; lia].
  destruct (last l) as [y|] eqn:Hy; [eauto|].
  apply last_None in Hy. subst. simpl in *. lia.
Qed.

(** Elements before the removed index keep their place. *)
Lemma swap_remove_take {A} i (l : list A) x l' :
  swap_remove i l = Some (x, l') → take i l' = take i l.
Proof.
  unfold swap_remove. destruct (l !! i) as [x'|] eqn:Hi; [|done].
  destruct (last l) as [y|]; [|done]. intros [= _ <-].
  apply lookup_lt_Some in Hi.
  rewrite take_take, Nat.min_l by lia. by rewrite take_insert_ge by lia.
Qed.

Lemma swap_remove_drop {A} i (l : list A) x l' :
  swap_remove i l = Some (x, l') → drop i l ≡ₚ x :: drop i l'.
Proof.
  intros Hs. pose proof (swap_remove_take _ _ _ _ Hs) as Ht.
  apply swap_remove_perm in Hs as [_ Hp].
  rewrite <-(take_drop i l), <-(take_drop i l'), Ht, Permutation_middle in Hp.
  by apply Permutation_app_inv_l in Hp.
Qed.

Lemma alter_split {A} (f : A → A) (i : nat) (l : list A) (x : A) :
  l !! i = Some x → ∃ l1 l2, l = l1 ++ x :: l2 ∧ alter f i l = l1 ++ f x :: l2.
Proof.
  intros Hi. exists (take i l), (drop (S i) l). split; [by rewrite take_drop_middle|].
  apply lookup_lt_Some in Hi as Hlt. rewrite <-(take_drop_middle l i x Hi) at 1.
  rewrite alter_app_r_alt by (rewrite length_take; lia).
  rewrite length_take, Nat.min_l, Nat.sub_diag by lia. done.
Qed.

(** ** Stable sort in decreasing key order *)

Section sort.
Context {A : Type} (key : A → nat).

Fixpoint insert_desc (x : A) (l : list A) : list A :=
  match l with
  | [] => [x]
  | y :: l' => if key y <=? key x then x :: y :: l' else y :: insert_desc x l'
  end.

(** [Vec::sort_by_key] with key [Reverse(key)]; Rust's sort is stable, so
    its result is determined. *)
Definition sort_by_key_desc (l : list A) : list A := foldr insert_desc [] l.

Lemma insert_desc_perm x l : insert_desc x l ≡ₚ x :: l.
Proof.
  induction l as [|y l IH]; simpl; [done|].
  destruct (_ <=? _); [done|]. rewrite IH. apply Permutation_swap.
Qed.

Lemma sort_by_key_desc_perm l : sort_by_key_desc l ≡ₚ l.
Proof.
  induction l as [|x l IH]; simpl; [done|]. by rewrite insert_desc_perm, IH.
Qed.

Lemma insert_desc_sorted x l :
  Sorted (λ a b, key b ≤ key a) l →
  Sorted (λ a b, key b ≤ key a) (insert_desc x l).
Proof.
  induction 1 as [|y l Hs IH Hd]; simpl; [by repeat constructor|].
  destruct (Nat.leb_spec (key y) (key x)).
  - repeat constructor; auto.
  - constructor; [done|]. destruct l as [|z l]; simpl in *.
    + constructor. lia.
    + inversion Hd; subst. destruct (_ <=? _); constructor; lia.
Qed.

Lemma sort_by_key_desc_sorted l :
  Sorted (λ a b, key b ≤ key a) (sort_by_key_desc l).
Proof. induction l; simpl; [constructor|by apply insert_desc_sorted]. Qed.

Lemma insert_desc_head x l :
  HdRel (λ a b, key b ≤ key a) x l → insert_desc x l = x :: l.
Proof.
  inversion 1; simpl; [done|].
  by rewrite (proj2 (Nat.leb_le _ _)).
Qed.

(** Stability shows as: sorting a sorted vector leaves it as it is. *)
Lemma sort_by_key_desc_id l :
  Sorted (λ a b, key b ≤ key a) l → sort_by_key_desc l = l.
Proof.
  induction 1 as [|x l Hs IH Hd]; simpl; [done|].
  rewrite IH. by apply insert_desc_head.
Qed.

(** Stability: elements of one key keep their relative order. *)
Lemma insert_desc_filter k x l :
  Sorted (λ a b, key b ≤ key a) l →
  filter (λ y, key y = k) (insert_desc x l) =
  filter (λ y, key y = k) (x :: l).
Proof.
  induction 1 as [|y l Hs IH Hd]; [done|]. simpl insert_desc.
  destruct (Nat.leb_spec (key y) (key x)) as [|Hlt]; [done|].
  rewrite !filter_cons in *. rewrite IH. repeat case_decide; lia || done.
Qed.

Lemma sort_by_key_desc_stable k l :
  filter (λ y, key y = k) (sort_by_key_desc l) = filter (λ y, key y = k) l.
Proof.
  induction l as [|x l IH]; [done|]. simpl.
  rewrite insert_desc_filter by apply sort_by_key_desc_sorted.
  rewrite !filter_cons. by rewrite IH.
Qed.
End sort.

(** ** Automation *)

Create HintDb worker.
#[export] Hint Resolve is_u64_saturating_add is_u64_wrap : worker.

(** Case analysis on the scrutinee of a [match] in a hypothesis [H], keeping
    the equation. *)
Ltac case_match_in H :=
  match type of H with
  | context [match ?x with _ => _ end] =>
      let E := fresh "E" in destruct x eqn:E; simplify_eq/=; try done
  end.

Ltac outcome_simpl :=
  repeat match goal with
  | H : Ret _ = Ret _ |- _ => injection H; clear H; intros
  | H : Panic = Ret _ |- _ => discriminate H
  | H : OutOfFuel = Ret _ |- _ => discriminate H
  | H : Ok _ = Ok _ |- _ => injection H; clear H; intros
  | H : Err _ = Err _ |- _ => injection H; clear H; intros
  | H : Ok _ = Err _ |- _ => discriminate H
  | H : Err _ = Ok _ |- _ => discriminate H
  end; subst.
