(* ===== verification/ForkTree.v ===== *)
(** The fork tree of [sidechain/fork-tree/src/lib.rs]: a forest of block
    headers with finality-driven pruning.  Definitions, reference
    specifications and the functional lemmas of every operation; the global
    invariant is in [ForkTreeInv]. *)

From stdpp Require Import base list numbers sorting sets.
From S2P Require Import Prelude.

Local Open Scope Z_scope.

(** ** Data *)

(** [Error<E>]. *)
Inductive Error (E : Type) : Type :=
| Duplicate
| UnfinalizedAncestor
| Revert
| Client (e : E).
Arguments Duplicate {E}.
Arguments UnfinalizedAncestor {E}.
Arguments Revert {E}.
Arguments Client {E} e.

(** [FinalizationResult<V>]. *)
Inductive FinalizationResult (V : Type) : Type :=
| Changed (v : option V)
| Unchanged.
Arguments Changed {V} v.
Arguments Unchanged {V}.

(** [FilterAction]. *)
Inductive FilterAction : Type :=
| Remove
| KeepNode
| KeepTree.

(** [Node<H, N, V>]; [N : Ord] is taken at the integers. *)
#[warnings="-register-all"]
Inductive Node (H V : Type) : Type :=
| MkNode (hash : H) (number : Z) (data : V) (children : list (Node H V)).
Arguments MkNode {H V} hash number data children.

Definition hash {H V} (n : Node H V) : H := let '(MkNode h _ _ _) := n in h.
Definition number {H V} (n : Node H V) : Z := let '(MkNode _ k _ _) := n in k.
Definition data {H V} (n : Node H V) : V := let '(MkNode _ _ d _) := n in d.
Definition children {H V} (n : Node H V) : list (Node H V) :=
  let '(MkNode _ _ _ cs) := n in cs.

Definition set_children {H V} (n : Node H V) (cs : list (Node H V)) : Node H V :=
  MkNode (hash n) (number n) (data n) cs.

(** [ForkTree<H, N, V>]. *)
Record ForkTree (H V : Type) : Type := MkForkTree {
  roots : list (Node H V);
  best_finalized_number : option Z
}.
Arguments MkForkTree {H V} roots best_finalized_number.
Arguments roots {H V} _.
Arguments best_finalized_number {H V} _.

Definition set_roots {H V} (t : ForkTree H V) (rs : list (Node H V)) : ForkTree H V :=
  MkForkTree rs (best_finalized_number t).

(** Induction over the nested type. *)
Lemma Node_ind' {H V} (P : Node H V → Prop) :
  (∀ h k d cs, Forall P cs → P (MkNode h k d cs)) → ∀ n, P n.
Proof.
  intros Hn. fix IH 1. intros [h k d cs]. apply Hn.
  induction cs as [|c cs IHcs]; constructor; [apply IH|apply IHcs].
Qed.

(** Number of nodes of a tree: the measure of the traversals. *)
Fixpoint node_size {H V} (n : Node H V) : nat :=
  match n with
  | MkNode _ _ _ cs => S (sum_list_with node_size cs)
  end.

(** Nodes of a tree in pre-order. *)
Fixpoint subtree {H V} (n : Node H V) : list (Node H V) :=
  n :: match n with MkNode _ _ _ cs => mjoin (map subtree cs) end.

Definition forest {H V} (ns : list (Node H V)) : list (Node H V) :=
  mjoin (map subtree ns).

Section operations.
Context {H V E : Type} `{EqDecision H}.
Implicit Types (n : Node H V) (t : ForkTree H V).

(** [ForkTree::new]. *)
Definition new : ForkTree H V := MkForkTree [] None.

(** ** Depth and rebalancing *)

(** Body of [Node::max_depth]: a stack (its head is the top) of nodes with
    their height, and the maximum so far. *)
Definition max_depth_step (st : list (Node H V * nat) * nat) :
    outcome (list (Node H V * nat) * nat + nat) :=
  match st with
  | ([], max) => Ret (inr max)
  | ((n, height) :: stack, max) =>
      let max := if (max <? height)%nat then height else max in
      Ret (inl (rev (map (λ c, (c, height + 1)%nat) (children n)) ++ stack, max))
  end.

Definition max_depth_loop n : outcome nat :=
  loop (S (node_size n)) max_depth_step ([(n, 0%nat)], 0%nat).

(** [Node::max_depth]. *)
Definition max_depth n : nat :=
  match max_depth_loop n with Ret m => m | _ => 0%nat end.

(** The visit of one node in [rebalance]: its children are sorted by
    decreasing depth, the depths being those before the visit, and then
    visited themselves. *)
Fixpoint rebalance_node n : Node H V :=
  match n with
  | MkNode h k d cs =>
      MkNode h k d
        (map snd (sort_by_key_desc fst
           (map (λ c, (max_depth c, rebalance_node c)) cs)))
  end.

(** [ForkTree::rebalance]. *)
Definition rebalance_roots (rs : list (Node H V)) : list (Node H V) :=
  map snd (sort_by_key_desc fst (map (λ c, (max_depth c, rebalance_node c)) rs)).

Definition rebalance t : ForkTree H V := set_roots t (rebalance_roots (roots t)).

(** ** Iterators *)

(** [ForkTreeIterator::next] and [RemovedIterator::next]: pop a node and push
    its children so that the first child is on top; the visited nodes are
    accumulated. *)
Definition iter_step (st : list (Node H V) * list (Node H V)) :
    outcome (list (Node H V) * list (Node H V) + list (Node H V)) :=
  match st with
  | ([], acc) => Ret (inr (rev acc))
  | (n :: stack, acc) => Ret (inl (children n ++ stack, n :: acc))
  end.

(** Draining the iterator whose stack is [stack] (its head is the top). *)
Definition iter_collect (stack : list (Node H V)) : outcome (list (Node H V)) :=
  loop (S (sum_list_with node_size stack)) iter_step (stack, []).

(** [ForkTree::node_iter], drained. *)
Definition node_iter t : outcome (list (Node H V)) := iter_collect (roots t).

(** [ForkTree::iter], drained. *)
Definition iter t : outcome (list (H * Z * V)) :=
  ns ← node_iter t; Ret (map (λ n, (hash n, number n, data n)) ns).

(** [RemovedIterator] over the vector [removed], drained. *)
Definition removed_iter (removed : list (Node H V)) : outcome (list (H * Z * V)) :=
  ns ← iter_collect (rev removed); Ret (map (λ n, (hash n, number n, data n)) ns).

(** [ForkTree::roots] and [ForkTree::roots_hash_and_number]. *)
Definition roots_iter t : list (H * Z * V) :=
  map (λ n, (hash n, number n, data n)) (roots t).
Definition roots_hash_and_number t : list (H * Z) :=
  map (λ n, (hash n, number n)) (roots t).

(** ** Searching *)

Section search.
Context (is_descendent_of : H → H → result bool E).

(** One iteration of the inner loop of [find_node_index_where]: a stack of
    nodes with the index of the next child to search, and whether an
    ancestor was met.  The loop breaks with the flags and the stack. *)
Definition find_step (target : H) (num : Z) (predicate : V → bool)
    (st : list (Node H V * nat) * bool) :
    outcome (list (Node H V * nat) * bool +
             result (bool * bool * list (Node H V * nat)) (Error E)) :=
  match st with
  | ([], is_descendent) => Ret (inr (Ok (false, is_descendent, [])))
  | ((n, i) :: stack, is_descendent) =>
      match children n !! i, is_descendent with
      | Some c, false =>
          Ret (inl (if number c <? num
                    then ((c, 0%nat) :: (n, S i) :: stack, false)
                    else ((n, S i) :: stack, false)))
      | _, _ =>
          match (if is_descendent then Ok true
                 else is_descendent_of (hash n) target) with
          | Err e => Ret (inr (Err (Client e)))
          | Ok true =>
              if predicate (data n) then Ret (inr (Ok (true, true, stack)))
              else Ret (inl (stack, true))
          | Ok false => Ret (inl (stack, false))
          end
      end
  end.

(** Iterations a stack entry can cause. *)
Fixpoint search_work n : nat :=
  match n with
  | MkNode _ _ _ cs => S (sum_list_with (λ c, S (search_work c)) cs)
  end.

(** The outer loop over the roots. *)
Fixpoint find_in_roots (target : H) (num : Z) (predicate : V → bool)
    (root_idx : nat) (rs : list (Node H V)) :
    outcome (result (option (list nat)) (Error E)) :=
  match rs with
  | [] => Ret (Ok None)
  | r :: rs' =>
      if num <=? number r then find_in_roots target num predicate (S root_idx) rs'
      else
        res ← loop (S (search_work r)) (find_step target num predicate)
                ([(r, 0%nat)], false);
        match res with
        | Err e => Ret (Err e)
        | Ok (found, is_descendent, stack) =>
            if (is_descendent : bool) then
              Ret (Ok (if (found : bool)
                       then Some (root_idx :: map (λ p : Node H V * nat, (p.2 - 1)%nat) (rev stack))
                       else None))
            else find_in_roots target num predicate (S root_idx) rs'
        end
  end.

(** [ForkTree::find_node_index_where]. *)
Definition find_node_index_where t (target : H) (num : Z) (predicate : V → bool) :
    outcome (result (option (list nat)) (Error E)) :=
  find_in_roots target num predicate 0 (roots t).

(** Following a path of indices: [curr[i].children] for all but the last
    index, then the element at the last one. *)
Fixpoint node_at (rs : list (Node H V)) (path : list nat) : option (Node H V) :=
  match path with
  | [] => None
  | i :: path' =>
      c ← rs !! i;
      match path' with
      | [] => Some c
      | _ => node_at (children c) path'
      end
  end.

Fixpoint alter_at (f : Node H V → Node H V) (rs : list (Node H V))
    (path : list nat) : list (Node H V) :=
  match path with
  | [] => rs
  | i :: path' =>
      alter (λ c, match path' with
                  | [] => f c
                  | _ => set_children c (alter_at f (children c) path')
                  end) i rs
  end.

(** [ForkTree::find_node_where]; [Panic] is an index out of range. *)
Definition find_node_where t (target : H) (num : Z) (predicate : V → bool) :
    outcome (result (option (Node H V)) (Error E)) :=
  r ← find_node_index_where t target num predicate;
  match r with
  | Err e => Ret (Err e)
  | Ok None => Ret (Ok None)
  | Ok (Some path) => c ← unwrap (node_at (roots t) path); Ret (Ok (Some c))
  end.

(** ** Import *)

(** The check shared by [import] and the [finalize] family. *)
Definition reverts t (num : Z) : bool :=
  match best_finalized_number t with
  | Some best => num <=? best
  | None => false
  end.

(** [ForkTree::import]. *)
Definition import t (h : H) (num : Z) (d : V) :
    outcome (ForkTree H V * result bool (Error E)) :=
  if reverts t num then Ret (t, Err Revert)
  else
    r ← find_node_index_where t h num (λ _, true);
    match r with
    | Err e => Ret (t, Err e)
    | Ok maybe_path =>
        siblings ← match maybe_path with
                   | None => Ret (roots t)
                   | Some path => p ← unwrap (node_at (roots t) path);
                                  Ret (children p)
                   end;
        if existsb (λ elem, bool_decide (hash elem = h)) siblings
        then Ret (t, Err Duplicate)
        else
          let leaf := MkNode h num d [] in
          let t' :=
            match maybe_path with
            | None => set_roots t (roots t ++ [leaf])
            | Some path =>
                set_roots t (alter_at (λ p, set_children p (children p ++ [leaf]))
                               (roots t) path)
            end in
          let t' := if bool_decide (length (siblings ++ [leaf]) = 1%nat)
                    then rebalance t' else t' in
          Ret (t', Ok (match maybe_path with None => true | Some _ => false end))
    end.
(** ** Pruning *)

(** [curr_children.remove(last)] at the end of a path: the removed node and
    the forest without it. *)
Fixpoint remove_at (rs : list (Node H V)) (path : list nat) :
    option (Node H V * list (Node H V)) :=
  match path with
  | [] => None
  | i :: path' =>
      match path' with
      | [] => vec_remove i rs
      | _ =>
          c ← rs !! i;
          '(r, cs) ← remove_at (children c) path';
          Some (r, <[i:=set_children c cs]> rs)
      end
  end.

(** The loop over the children of the new root in [prune]: the kept children,
    the vector of removed nodes, or the client's error. *)
Fixpoint prune_children (h : H) (num : Z) (cs : list (Node H V)) (is_first : bool)
    (kept removed : list (Node H V)) :
    result (list (Node H V) * list (Node H V)) (Error E) :=
  match cs with
  | [] => Ok (kept, removed)
  | c :: cs' =>
      match
        (if negb is_first then Ok false
         else if (number c =? num) && bool_decide (hash c = h) then Ok true
         else if number c <? num then is_descendent_of (hash c) h
         else Ok false)
      with
      | Err e => Err (Client e)
      | Ok true => prune_children h num cs' false (kept ++ [c]) removed
      | Ok false => prune_children h num cs' is_first kept (removed ++ [c])
      end
  end.

(** [ForkTree::prune]; the result is the drained iterator of removed nodes.
    [mem::take] has emptied the roots when the client's error is returned. *)
Definition prune t (h : H) (num : Z) (predicate : V → bool) :
    outcome (ForkTree H V * result (list (H * Z * V)) (Error E)) :=
  r ← find_node_index_where t h num predicate;
  match r with
  | Err e => Ret (t, Err e)
  | Ok None => Ret (t, Ok [])
  | Ok (Some path) =>
      '(root, removed) ← unwrap (remove_at (roots t) path);
      match prune_children h num (children root) true [] removed with
      | Err e => Ret (set_roots t [], Err e)
      | Ok (kept, removed) =>
          out ← removed_iter removed;
          Ret (rebalance (set_roots t [set_children root kept]), Ok out)
      end
  end.

(** ** Finalization *)

(** [ForkTree::finalize_root_at]. *)
Definition finalize_root_at t (position : nat) : outcome (ForkTree H V * V) :=
  '(n, _) ← unwrap (swap_remove position (roots t));
  Ret (MkForkTree (children n) (Some (number n)), data n).

(** [ForkTree::finalize_root]. *)
Definition finalize_root t (h : H) : outcome (ForkTree H V * option V) :=
  match position (λ n, bool_decide (hash n = h)) (roots t) with
  | None => Ret (t, None)
  | Some i => '(t', d) ← finalize_root_at t i; Ret (t', Some d)
  end.

(** The loop of [finalize] that refuses a descendent of a root. *)
Fixpoint check_not_descendent (h : H) (num : Z) (rs : list (Node H V)) :
    result unit (Error E) :=
  match rs with
  | [] => Ok tt
  | r :: rs' =>
      if number r <? num then
        match is_descendent_of (hash r) h with
        | Err e => Err (Client e)
        | Ok true => Err UnfinalizedAncestor
        | Ok false => check_not_descendent h num rs'
        end
      else check_not_descendent h num rs'
  end.

(** The loops that move the roots to keep back into [self.roots]: what has been
    moved so far, with whether a root was dropped or the client's error. *)
Fixpoint retain_roots (keep : Node H V → result bool E) (rs kept : list (Node H V))
    (changed : bool) : list (Node H V) * result bool (Error E) :=
  match rs with
  | [] => (kept, Ok changed)
  | r :: rs' =>
      match keep r with
      | Err e => (kept, Err (Client e))
      | Ok true => retain_roots keep rs' (kept ++ [r]) changed
      | Ok false => retain_roots keep rs' kept true
      end
  end.

Definition finalize_keep (h : H) (num : Z) (r : Node H V) : result bool E :=
  if num <? number r then is_descendent_of h (hash r) else Ok false.

(** [ForkTree::finalize]. *)
Definition finalize t (h : H) (num : Z) :
    outcome (ForkTree H V * result (FinalizationResult V) (Error E)) :=
  if reverts t num then Ret (t, Err Revert)
  else
    '(t1, root) ← finalize_root t h;
    match root with
    | Some d => Ret (t1, Ok (Changed (Some d)))
    | None =>
        match check_not_descendent h num (roots t) with
        | Err e => Ret (t, Err e)
        | Ok _ =>
            match retain_roots (finalize_keep h num) (roots t) [] false with
            | (kept, Err e) => Ret (set_roots t kept, Err e)
            | (kept, Ok changed) =>
                Ret (MkForkTree kept (Some num),
                     Ok (if changed then Changed None else Unchanged))
            end
        end
    end.

(** One iteration of the loop of [finalize_with_ancestors] over the state
    [(self.roots, idx, changed)]. *)
Definition fwa_step t (h : H) (num : Z) (st : list (Node H V) * nat * bool) :
    outcome (list (Node H V) * nat * bool +
             ForkTree H V * result (FinalizationResult V) (Error E)) :=
  let '(rs, idx, changed) := st in
  match rs !! idx with
  | None =>
      Ret (inr (MkForkTree rs (Some num),
                Ok (if changed then Changed None else Unchanged)))
  | Some root =>
      let is_finalized := bool_decide (hash root = h) in
      match (if negb is_finalized && (num <? number root)
             then is_descendent_of h (hash root) else Ok false) with
      | Err e => Ret (inr (set_roots t rs, Err (Client e)))
      | Ok is_descendant =>
          match (if negb is_finalized && negb is_descendant && (number root <? num)
                 then is_descendent_of (hash root) h else Ok false) with
          | Err e => Ret (inr (set_roots t rs, Err (Client e)))
          | Ok is_ancestor =>
              if is_finalized then
                '(t', d) ← finalize_root_at (set_roots t rs) idx;
                Ret (inr (t', Ok (Changed (Some d))))
              else if (is_descendant : bool) then Ret (inl (rs, S idx, changed))
              else
                '(root', rs') ← unwrap (swap_remove idx rs);
                if (is_ancestor : bool) then Ret (inl (rs' ++ children root', idx, true))
                else Ret (inl (rs', idx, true))
          end
      end
  end.

(** [ForkTree::finalize_with_ancestors]. *)
Definition finalize_with_ancestors t (h : H) (num : Z) :
    outcome (ForkTree H V * result (FinalizationResult V) (Error E)) :=
  if reverts t num then Ret (t, Err Revert)
  else
    '(t1, root) ← finalize_root t h;
    match root with
    | Some d => Ret (t1, Ok (Changed (Some d)))
    | None =>
        loop (S (sum_list_with node_size (roots t))) (fwa_step t h num)
          (roots t, 0%nat, false)
    end.

(** [node.hash == *hash || is_descendent_of(&node.hash, hash)?]. *)
Definition is_same_or_descends (n : Node H V) (h : H) : result bool E :=
  if bool_decide (hash n = h) then Ok true else is_descendent_of (hash n) h.

(** The loop over the children of the prospective finalized node. *)
Fixpoint check_children (h : H) (num : Z) (cs : list (Node H V)) :
    result unit (Error E) :=
  match cs with
  | [] => Ok tt
  | c :: cs' =>
      if number c <=? num then
        match is_same_or_descends c h with
        | Err e => Err (Client e)
        | Ok true => Err UnfinalizedAncestor
        | Ok false => check_children h num cs'
        end
      else check_children h num cs'
  end.

(** The search shared by the [_with_descendent_if] operations: the first node
    that passes the predicate and is [h] or an ancestor of it, with its index,
    provided that none of its children is finalized too. *)
Fixpoint first_finalized (h : H) (num : Z) (predicate : V → bool) (i : nat)
    (ns : list (Node H V)) : result (option (nat * Node H V)) (Error E) :=
  match ns with
  | [] => Ok None
  | n :: ns' =>
      if predicate (data n) then
        match is_same_or_descends n h with
        | Err e => Err (Client e)
        | Ok true =>
            match check_children h num (children n) with
            | Err e => Err e
            | Ok _ => Ok (Some (i, n))
            end
        | Ok false => first_finalized h num predicate (S i) ns'
        end
      else first_finalized h num predicate (S i) ns'
  end.

(** [ForkTree::finalizes_any_with_descendent_if]. *)
Definition finalizes_any_with_descendent_if t (h : H) (num : Z) (predicate : V → bool) :
    outcome (result (option bool) (Error E)) :=
  if reverts t num then Ret (Err Revert)
  else
    ns ← node_iter t;
    Ret (match first_finalized h num predicate 0 ns with
         | Err e => Err e
         | Ok None => Ok None
         | Ok (Some (_, n)) =>
             Ok (Some (existsb (λ root, bool_decide (hash root = hash n)) (roots t)))
         end).

Definition descendent_if_keep (h : H) (num : Z) (r : Node H V) : result bool E :=
  match (if num <? number r then is_descendent_of h (hash r) else Ok false) with
  | Err e => Err e
  | Ok true => Ok true
  | Ok false =>
      if (number r =? num) && bool_decide (hash r = h) then Ok true
      else is_descendent_of (hash r) h
  end.

(** [ForkTree::finalize_with_descendent_if]. *)
Definition finalize_with_descendent_if t (h : H) (num : Z) (predicate : V → bool) :
    outcome (ForkTree H V * result (FinalizationResult V) (Error E)) :=
  if reverts t num then Ret (t, Err Revert)
  else
    match first_finalized h num predicate 0 (roots t) with
    | Err e => Ret (t, Err e)
    | Ok position =>
        '(t1, node_data) ←
          match position with
          | None => Ret (t, None)
          | Some (i, _) => '(t', d) ← finalize_root_at t i; Ret (t', Some d)
          end;
        match retain_roots (descendent_if_keep h num) (roots t1) [] false with
        | (kept, Err e) => Ret (set_roots t1 kept, Err e)
        | (kept, Ok changed) =>
            Ret (MkForkTree kept (Some num),
                 Ok (match node_data with
                     | Some d => Changed (Some d)
                     | None => if changed then Changed None else Unchanged
                     end))
        end
    end.
End search.
End operations.

(** ** Breadth-first rebuilding: [map] and [drain_filter] *)

(** The vectors [output] and [retained]: nodes with the index of their parent
    in the same vector, [None] being the marker [usize::MAX] of a root. *)
Abbreviation indexed H V := (list (option nat * Node H V)).

(** The final loop of both operations: nodes are popped from the back and
    pushed to the children of their parent, or to the roots. *)
Definition rebuild_step {H V} (st : indexed H V * list (Node H V)) :
    outcome (indexed H V * list (Node H V) + list (Node H V)) :=
  let '(out, rs) := st in
  match last out with
  | None => Ret (inr rs)
  | Some (None, n) => Ret (inl (take (length out - 1) out, rs ++ [n]))
  | Some (Some p, n) =>
      let out' := take (length out - 1) out in
      match out' !! p with
      | None => Panic
      | Some _ =>
          Ret (inl (alter (λ qm : option nat * Node H V,
                 (qm.1, set_children qm.2 (children qm.2 ++ [n]))) p out', rs))
      end
  end.

Definition rebuild {H V} (out : indexed H V) : outcome (list (Node H V)) :=
  loop (S (length out)) rebuild_step (out, []).

Definition queue_size {H V} (q : indexed H V) : nat :=
  sum_list_with (λ p, node_size p.2) q.

Section bfs.
Context {H V W : Type}.

(** Body of the [for] loop of [map] over the drained queue. *)
Definition map_visit (f : H → Z → V → W) (st : indexed H V * indexed H W)
    (p : option nat * Node H V) : indexed H V * indexed H W :=
  let '(next_queue, output) := st in
  let n := p.2 in
  (next_queue ++ map (λ c, (Some (length output), c)) (rev (children n)),
   output ++ [(p.1, MkNode (hash n) (number n) (f (hash n) (number n) (data n)) [])]).

Definition map_level (f : H → Z → V → W) (st : indexed H V * indexed H W) :
    outcome (indexed H V * indexed H W + indexed H W) :=
  let '(queue, output) := st in
  match queue with
  | [] => Ret (inr output)
  | _ => Ret (inl (foldl (map_visit f) ([], output) queue))
  end.

(** [ForkTree::map]. *)
Definition tree_map (f : H → Z → V → W) (t : ForkTree H V) : outcome (ForkTree H W) :=
  let queue := map (λ n, (None, n)) (rev (roots t)) in
  output ← loop (S (queue_size queue)) (map_level f) (queue, []);
  rs ← rebuild output;
  Ret (MkForkTree rs (best_finalized_number t)).

(** Body of the [for] loop of [drain_filter]; the state is
    [(next_queue, retained, removed)]. *)
Definition filter_visit (filter : H → Z → V → FilterAction)
    (st : indexed H V * indexed H V * list (Node H V)) (p : option nat * Node H V) :
    indexed H V * indexed H V * list (Node H V) :=
  let '(next_queue, retained, removed) := st in
  let n := p.2 in
  match filter (hash n) (number n) (data n) with
  | KeepNode =>
      (next_queue ++ map (λ c, (Some (length retained), c)) (rev (children n)),
       retained ++ [(p.1, set_children n [])], removed)
  | KeepTree => (next_queue, retained ++ [(p.1, n)], removed)
  | Remove => (next_queue, retained, removed ++ [n])
  end.

Definition filter_level (filter : H → Z → V → FilterAction)
    (st : indexed H V * indexed H V * list (Node H V)) :
    outcome (indexed H V * indexed H V * list (Node H V) +
             indexed H V * list (Node H V)) :=
  let '(queue, retained, removed) := st in
  match queue with
  | [] => Ret (inr (retained, removed))
  | _ => Ret (inl (foldl (filter_visit filter) ([], retained, removed) queue))
  end.

(** [ForkTree::drain_filter]. *)
Definition drain_filter (filter : H → Z → V → FilterAction) (t : ForkTree H V) :
    outcome (ForkTree H V * list (H * Z * V)) :=
  let queue := map (λ n, (None, n)) (rev (roots t)) in
  '(retained, removed) ← loop (S (queue_size queue)) (filter_level filter)
                           (queue, [], []);
  rs ← rebuild retained;
  let t' := set_roots t rs in
  out ← removed_iter removed;
  Ret (match removed with [] => t' | _ => rebalance t' end, out).
End bfs.

