(* ===== verification/ForkTreeSpec.v ===== *)
(** Reference definitions for the traversals of [ForkTree] and the proofs that
    the stack- and queue-based loops of the code compute them: depth,
    pre-order iteration, the post-order ancestor search, the breadth-first
    [map] and [drain_filter]. *)

From stdpp Require Import base sets numbers sorting list.
From S2P Require Import Prelude ForkTree.

Local Open Scope Z_scope.

(** ** Depth *)

Fixpoint depth {H V} (n : Node H V) : nat :=
  match n with
  | MkNode _ _ _ cs => max_list_with (λ c, S (depth c)) cs
  end.

Lemma max_list_with_app {A} (f : A → nat) l1 l2 :
  max_list_with f (l1 ++ l2) = (max_list_with f l1 `max` max_list_with f l2)%nat.
Proof. induction l1 as [|x l1 IH]; simpl; [done|]. rewrite IH. lia. Qed.

Lemma max_list_with_perm {A} (f : A → nat) l1 l2 :
  l1 ≡ₚ l2 → max_list_with f l1 = max_list_with f l2.
Proof. induction 1; simpl; lia. Qed.

Lemma max_list_with_map {A B} (f : B → nat) (g : A → B) l :
  max_list_with f (map g l) = max_list_with (λ x, f (g x)) l.
Proof. induction l; simpl; congruence. Qed.

Lemma sum_list_with_perm {A} (f : A → nat) l1 l2 :
  l1 ≡ₚ l2 → sum_list_with f l1 = sum_list_with f l2.
Proof. induction 1; simpl; lia. Qed.

Lemma sum_list_with_map {A B} (f : B → nat) (g : A → B) l :
  sum_list_with f (map g l) = sum_list_with (λ x, f (g x)) l.
Proof. induction l; simpl; congruence. Qed.

Lemma node_size_unfold {H V} (n : Node H V) :
  node_size n = S (sum_list_with node_size (children n)).
Proof. by destruct n. Qed.

Lemma depth_unfold {H V} (n : Node H V) :
  depth n = max_list_with (λ c, S (depth c)) (children n).
Proof. by destruct n. Qed.

Lemma subtree_unfold {H V} (n : Node H V) :
  subtree n = n :: forest (children n).
Proof. by destruct n. Qed.

Lemma forest_cons {H V} (n : Node H V) ns :
  forest (n :: ns) = n :: forest (children n) ++ forest ns.
Proof. unfold forest at 1. simpl. by rewrite subtree_unfold. Qed.

Lemma forest_app {H V} (ns1 ns2 : list (Node H V)) :
  forest (ns1 ++ ns2) = forest ns1 ++ forest ns2.
Proof. unfold forest. by rewrite map_app, join_app. Qed.

Lemma elem_of_forest {H V} (x : Node H V) ns :
  x ∈ forest ns ↔ ∃ n, n ∈ ns ∧ x ∈ subtree n.
Proof.
  induction ns as [|n ns IH]; [set_solver|].
  rewrite forest_cons, app_comm_cons, <-subtree_unfold.
  rewrite elem_of_app, IH. set_solver.
Qed.

Section depth.
Context {H V : Type}.

Lemma max_depth_loop_depth (n : Node H V) : max_depth_loop n = Ret (depth n).
Proof.
  unfold max_depth_loop.
  destruct (loop_total (@max_depth_step H V)
    (λ st, (st.2 `max` max_list_with (λ p, p.2 + depth p.1) st.1)%nat = depth n)
    (λ st, sum_list_with (λ p, node_size p.1) st.1)
    (λ r, r = depth n)) with (fuel := S (node_size n)) (s := ([(n, 0%nat)], 0%nat))
    as (r & -> & ->); [|simpl; lia|simpl; lia|done].
  intros [[|[m h] stack] mx] HI; simpl in *; [right; eauto with lia|].
  left. eexists. split; [done|]. simpl.
  rewrite max_list_with_app, sum_list_with_app.
  rewrite (max_list_with_perm _ _ _ (Permutation_sym (Permutation_rev _))).
  rewrite (sum_list_with_perm _ _ _ (Permutation_sym (Permutation_rev _))).
  rewrite max_list_with_map, sum_list_with_map, node_size_unfold. simpl.
  change (sum_list_with (λ x, node_size x) (children m))
    with (sum_list_with node_size (children m)).
  split; [|lia]. rewrite <-HI, (depth_unfold m).
  assert (max_list_with (λ x, h + 1 + depth x) (children m) =
    match children m with
    | [] => 0
    | _ => h + max_list_with (λ c, S (depth c)) (children m)
    end)%nat as ->.
  { induction (children m) as [|c [|c' cs] IH]; simpl in *; lia. }
  destruct (Nat.ltb_spec mx h); destruct (children m); simpl; lia.
Qed.

Lemma max_depth_depth (n : Node H V) : max_depth n = depth n.
Proof. unfold max_depth. by rewrite max_depth_loop_depth. Qed.

(** ** Pre-order iteration *)

Lemma iter_collect_forest (ns : list (Node H V)) : iter_collect ns = Ret (forest ns).
Proof.
  unfold iter_collect.
  destruct (loop_total (@iter_step H V)
    (λ st, rev st.2 ++ forest st.1 = forest ns)
    (λ st, sum_list_with node_size st.1) (λ r, r = forest ns))
    with (fuel := S (sum_list_with node_size ns)) (s := (ns, @nil (Node H V)))
    as (r & -> & ->); [|done|simpl; lia|done].
  intros [[|m stack] acc] HI; simpl in *.
  - right. eexists. split; [done|]. by rewrite app_nil_r in HI.
  - left. eexists. split; [done|]. simpl.
    rewrite <-app_assoc, forest_app. rewrite forest_cons in HI. split; [done|].
    rewrite sum_list_with_app, node_size_unfold. lia.
Qed.

End depth.

(** ** The ancestor search *)

(** What the post-order search finds in one tree: no ancestor of the target,
    an ancestor none of which passes the predicate, or the path to the deepest
    ancestor that does. *)
Inductive verdict : Type :=
| NotAncestor
| NoMatch
| Found (path : list nat).

Section search_spec.
Context {H V E : Type} `{EqDecision H}.
Context (is_descendent_of : H → H → result bool E).
Context (target : H) (num : Z) (predicate : V → bool).

(** The verdict on a node one of whose descendants, or which itself, is an
    ancestor of the target. *)
Definition self_verdict (n : Node H V) : verdict :=
  if predicate (data n) then Found [] else NoMatch.

Section children.
Context (search : Node H V → result verdict (Error E)).

(** The children [cs] of [n], whose first has index [i]. *)
Fixpoint search_children (n : Node H V) (i : nat) (cs : list (Node H V)) :
    result verdict (Error E) :=
  match cs with
  | [] =>
      match is_descendent_of (hash n) target with
      | Err e => Err (Client e)
      | Ok true => Ok (self_verdict n)
      | Ok false => Ok NotAncestor
      end
  | c :: cs' =>
      if number c <? num then
        match search c with
        | Err e => Err e
        | Ok (Found p) => Ok (Found (i :: p))
        | Ok NoMatch => Ok (self_verdict n)
        | Ok NotAncestor => search_children n (S i) cs'
        end
      else search_children n (S i) cs'
  end.
End children.

(** Reference search: children first, only into children below [num]. *)
Fixpoint search (n : Node H V) : result verdict (Error E) :=
  match n with
  | MkNode _ _ _ cs => search_children search n 0 cs
  end.

Fixpoint search_roots (i : nat) (rs : list (Node H V)) :
    result (option (list nat)) (Error E) :=
  match rs with
  | [] => Ok None
  | r :: rs' =>
      if num <=? number r then search_roots (S i) rs'
      else
        match search r with
        | Err e => Err e
        | Ok (Found p) => Ok (Some (i :: p))
        | Ok NoMatch => Ok None
        | Ok NotAncestor => search_roots (S i) rs'
        end
  end.

Notation step := (find_step is_descendent_of target num predicate).
Notation indices stack := (map (λ p : Node H V * nat, (p.2 - 1)%nat) (rev stack)).

(** How the loop continues after the tree on top of [stack] was searched. *)
Definition resume (r : result verdict (Error E)) (stack : list (Node H V * nat))
    (fuel : nat) (o : outcome (result (bool * bool * list (Node H V * nat)) (Error E))) :
    Prop :=
  match r with
  | Err e => o = Ret (Err e)
  | Ok (Found p) =>
      ∃ extra, o = Ret (Ok (true, true, extra ++ stack)) ∧ indices extra = p
  | Ok NoMatch => o = loop fuel step (stack, true)
  | Ok NotAncestor => o = loop fuel step (stack, false)
  end.

Lemma search_unfold n : search n = search_children search n 0 (children n).
Proof. by destruct n. Qed.

Lemma search_work_unfold (n : Node H V) :
  search_work n = S (sum_list_with (λ c, S (search_work c)) (children n)).
Proof. by destruct n. Qed.

(** From [(n, i)] on top of the stack, the loop behaves as the reference
    search on the remaining children, within the iterations counted. *)
Lemma find_step_children n i cs stack :
  Forall (λ c, ∀ stack', ∃ k, (1 ≤ k ≤ search_work c)%nat ∧ ∀ fuel,
    resume (search c) stack' fuel (loop (k + fuel) step ((c, 0%nat) :: stack', false))) cs →
  drop i (children n) = cs →
  ∃ k, (1 ≤ k ≤ S (sum_list_with (λ c, S (search_work c)) cs))%nat ∧ ∀ fuel,
    resume (search_children search n i cs) stack fuel
      (loop (k + fuel) step ((n, i) :: stack, false)).
Proof.
  intros Hcs. revert i stack.
  induction Hcs as [|c cs Hc Hcs IH]; intros i stack Hdrop.
  - exists 1%nat. split; [simpl; lia|]. intros fuel. simpl.
    assert (children n !! i = None) as ->.
    { apply lookup_ge_None. assert (length (drop i (children n)) = 0%nat) by by rewrite Hdrop.
      rewrite length_drop in *. lia. }
    destruct (is_descendent_of (hash n) target) as [[]|e]; simpl; [|done..].
    unfold self_verdict. destruct (predicate (data n)); simpl; [|done].
    by exists [].
  - assert (children n !! i = Some c) as Hi.
    { rewrite <-(Nat.add_0_r i), <-lookup_drop, Hdrop. done. }
    assert (drop (S i) (children n) = cs) as Hdrop'.
    { rewrite <-Nat.add_1_r, <-drop_drop, Hdrop. done. }
    simpl search_children. destruct (number c <? num) eqn:Hnum.
    + destruct (Hc ((n, S i) :: stack)) as (k1 & Hk1 & Hres).
      destruct (search c) as [[| |p]|e] eqn:Hs; simpl in Hres.
      * destruct (IH (S i) stack Hdrop') as (k2 & Hk2 & Hres2).
        exists (S (k1 + k2)). split; [simpl; lia|]. intros fuel.
        simpl. rewrite Hi, Hnum, <-Nat.add_assoc, Hres. apply Hres2.
      * exists (S (k1 + 1)). split; [simpl; lia|]. intros fuel.
        simpl. rewrite Hi, Hnum, <-Nat.add_assoc, Hres. simpl.
        unfold self_verdict.
        destruct (children n !! S i), (predicate (data n)); simpl; try done;
          by exists [].
      * exists (S k1). split; [simpl; lia|]. intros fuel.
        simpl. rewrite Hi, Hnum. destruct (Hres fuel) as (extra & -> & Hp).
        exists (extra ++ [(n, S i)]). split; [by rewrite <-app_assoc|].
        rewrite rev_app_distr. simpl. by rewrite Nat.sub_0_r, Hp.
      * exists (S k1). split; [simpl; lia|]. intros fuel.
        simpl. by rewrite Hi, Hnum.
    + destruct (IH (S i) stack Hdrop') as (k2 & Hk2 & Hres2).
      exists (S k2). split; [simpl; lia|]. intros fuel.
      simpl. rewrite Hi, Hnum. apply Hres2.
Qed.

Lemma find_step_node n stack :
  ∃ k, (1 ≤ k ≤ search_work n)%nat ∧ ∀ fuel,
    resume (search n) stack fuel (loop (k + fuel) step ((n, 0%nat) :: stack, false)).
Proof.
  revert stack. induction n as [h k d cs IH] using Node_ind'. intros stack.
  destruct (find_step_children (MkNode h k d cs) 0 cs stack) as (j & Hj & Hres); [done..|].
  exists j. split; [done|]. intros fuel. rewrite search_unfold. apply Hres.
Qed.

(** The outer loop computes the reference search, and never runs out of
    fuel. *)
Lemma find_in_roots_spec i rs :
  find_in_roots is_descendent_of target num predicate i rs = Ret (search_roots i rs).
Proof.
  revert i. induction rs as [|r rs IH]; intros i; [done|].
  cbn [find_in_roots search_roots].
  destruct (num <=? number r); [apply IH|].
  destruct (find_step_node r []) as (k & Hk & Hres).
  replace (S (search_work r)) with (k + S (search_work r - k))%nat by lia.
  specialize (Hres (S (search_work r - k))). unfold resume in Hres.
  destruct (search r) as [[| |p]|e].
  - rewrite Hres. simpl. apply IH.
  - by rewrite Hres.
  - destruct Hres as (extra & -> & <-). simpl. by rewrite app_nil_r.
  - by rewrite Hres.
Qed.
End search_spec.

(** [ForkTree::map] and [ForkTree::drain_filter]: both flatten the forest
    breadth-first into a vector of nodes with parent indices and rebuild it
    from the back.  One argument about that scheme gives the recursive
    specification of each. *)

Local Open Scope Z_scope.

(** ** Generic breadth-first expansion *)

Section bfs_generic.
Context {H V W : Type}.

(** What visiting a node does: drop it, or output a node and enqueue some
    children below it. *)
Context (visit : Node H V → option (Node H W * list (Node H V))).

(** The queue and output after one node. *)
Definition visit_step (st : indexed H V * indexed H W) (p : option nat * Node H V) :
    indexed H V * indexed H W :=
  match visit p.2 with
  | None => st
  | Some (s, cs) =>
      (st.1 ++ map (λ c, (Some (length st.2), c)) (rev cs), st.2 ++ [(p.1, s)])
  end.

(** A recursive description of the visit. *)
Context (expand : Node H V → list (Node H W)).
Hypothesis expand_unfold : ∀ n, expand n =
  match visit n with
  | None => []
  | Some (s, cs) => [set_children s (children s ++ mjoin (map expand cs))]
  end.

(** The queue entries with each node expanded. *)
Definition expand_queue (q : indexed H V) : indexed H W :=
  mjoin (map (λ p, map (λ m, (p.1, m)) (expand p.2)) q).

Lemma expand_queue_app q1 q2 :
  expand_queue (q1 ++ q2) = expand_queue q1 ++ expand_queue q2.
Proof. unfold expand_queue. by rewrite map_app, join_app. Qed.

Lemma expand_queue_rev p cs :
  expand_queue (map (λ c, (p, c)) (rev cs)) =
  rev (map (λ m, (p, m)) (mjoin (map expand cs))).
Proof.
  induction cs as [|c cs IH]; [done|]. simpl.
  rewrite map_app, expand_queue_app, IH, map_app, rev_app_distr. f_equal.
  unfold expand_queue. simpl. rewrite app_nil_r, expand_unfold.
  by destruct (visit c) as [[s cs']|].
Qed.

(** Popping entries whose parent is at a known place. *)
Lemma rebuild_pop O p s M ms rs fuel :
  loop (length ms + fuel) rebuild_step
    (O ++ (p, s) :: M ++ rev (map (λ m, (Some (length O), m)) ms), rs) =
  loop fuel rebuild_step
    (O ++ (p, set_children s (children s ++ ms)) :: M, rs) (R := list (Node H W)).
Proof.
  revert s. induction ms as [|m ms IH]; intros s; simpl.
  - rewrite !app_nil_r. by destruct s.
  - rewrite app_comm_cons, !app_assoc, last_snoc, length_app, Nat.add_sub.
    simpl. rewrite take_app_length, <-!app_assoc, <-app_comm_cons.
    rewrite list_lookup_middle by done.
    rewrite alter_app_r_alt, Nat.sub_diag by done. simpl.
    rewrite IH. simpl. by rewrite <-app_assoc.
Qed.

Lemma visit_fold next O q :
  ∃ next', (foldl visit_step (next, O) q).1 = next ++ next' ∧
    ∃ sh, (foldl visit_step (next, O) q).2 = O ++ sh ∧
    length sh = length (expand_queue q) ∧
    ∀ M rs fuel,
      loop (length (expand_queue next') + fuel) rebuild_step
        (O ++ sh ++ M ++ expand_queue next', rs) =
      loop fuel rebuild_step (O ++ expand_queue q ++ M, rs).
Proof.
  revert next O. induction q as [|[p n] q IH]; intros next O; simpl.
  { exists []. split; [by rewrite app_nil_r|]. exists []. rewrite app_nil_r.
    split_and!; [done..|]. intros M rs fuel. simpl. by rewrite app_nil_r. }
  unfold visit_step at 2 4. simpl.
  change (expand_queue ((p, n) :: q)) with (map (λ m, (p, m)) (expand n) ++ expand_queue q).
  rewrite expand_unfold. destruct (visit n) as [[s cs]|]; simpl; [|apply IH].
  destruct (IH (next ++ map (λ c, (Some (length O), c)) (rev cs)) (O ++ [(p, s)]))
    as (next' & -> & sh & -> & Hlen & Hpop).
  exists (map (λ c, (Some (length O), c)) (rev cs) ++ next'). rewrite <-app_assoc.
  split; [done|]. exists ((p, s) :: sh). rewrite <-app_assoc. split; [done|].
  split; [simpl; lia|]. intros M rs fuel.
  rewrite expand_queue_app, length_app, expand_queue_rev, length_rev, length_map.
  rewrite (Nat.add_comm (length (mjoin _))), <-Nat.add_assoc.
  specialize (Hpop (M ++ rev (map (λ m, (Some (length O), m)) (mjoin (map expand cs)))) rs
    (length (mjoin (map expand cs)) + fuel)%nat).
  rewrite <-!app_assoc in Hpop. simpl in Hpop. simpl. rewrite Hpop.
  rewrite (app_assoc (expand_queue q)), rebuild_pop. done.
Qed.

(** The final loop on entries that are all roots. *)
Lemma rebuild_roots ms rs fuel :
  (length ms < fuel)%nat →
  loop fuel rebuild_step (rev (map (λ m : Node H W, (None, m)) ms), rs) = Ret (rs ++ ms).
Proof.
  revert rs fuel. induction ms as [|m ms IH]; intros rs [|fuel] Hf; simpl in *; try lia.
  - by rewrite app_nil_r.
  - rewrite last_snoc, length_app, Nat.add_sub, take_app_length. simpl.
    rewrite IH by lia. by rewrite <-app_assoc.
Qed.

(** ** The level loop *)

Definition level (st : indexed H V * indexed H W) :
    outcome (indexed H V * indexed H W + indexed H W) :=
  let '(queue, output) := st in
  match queue with
  | [] => Ret (inr output)
  | _ => Ret (inl (foldl visit_step ([], output) queue))
  end.

(** Enqueued children are children of the visited node. *)
Hypothesis visit_children : ∀ n s cs, visit n = Some (s, cs) → 
  (sum_list_with node_size cs ≤ sum_list_with node_size (children n))%nat.

Lemma visit_fold_size next O q :
  (queue_size (foldl visit_step (next, O) q).1 + length q ≤
   queue_size next + queue_size q)%nat.
Proof.
  revert next O. induction q as [|[p n] q IH]; intros next O; simpl; [lia|].
  unfold visit_step at 2. simpl. unfold queue_size in *.
  specialize (visit_children n). destruct (visit n) as [[s cs]|]; simpl.
  - specialize (visit_children _ _ eq_refl). rewrite (node_size_unfold n).
    specialize (IH (next ++ map (λ c, (Some (length O), c)) (rev cs)) (O ++ [(p, s)])).
    rewrite sum_list_with_app, sum_list_with_map in IH.
    rewrite (sum_list_with_perm _ _ _ (Permutation_sym (Permutation_rev _))) in IH.
    change (sum_list_with (λ x, node_size (_, x).2) cs)
      with (sum_list_with node_size cs) in IH.
    lia.
  - rewrite (node_size_unfold n). specialize (IH next O). lia.
Qed.

Lemma level_loop_aux fuel q O :
  (queue_size q < fuel)%nat →
  ∃ out, loop fuel level (q, O) = Ret out ∧
    ∀ rs fuel', ∃ k, loop (k + fuel') rebuild_step (out, rs) =
      loop fuel' rebuild_step (O ++ expand_queue q, rs).
Proof.
  revert q O. induction fuel as [|fuel IH]; intros q O Hf; [lia|].
  destruct q as [|p q].
  { exists O. split; [done|]. intros rs fuel'. exists 0%nat.
    by rewrite app_nil_r. }
  rewrite loop_unfold. cbn [level].
  pose proof (visit_fold_size [] O (p :: q)) as Hsize.
  destruct (visit_fold [] O (p :: q)) as (next' & Hn & sh & Ho & _ & Hpop).
  destruct (foldl visit_step ([], O) (p :: q)) as [next O'] eqn:Hfold.
  cbn [fst snd] in *. rewrite Hn in *. cbn [app] in *. subst O'.
  destruct (IH next' (O ++ sh)) as (out & Hout & Hre).
  { unfold queue_size in *. simpl in *. lia. }
  exists out. split; [done|]. intros rs fuel'.
  destruct (Hre rs (length (expand_queue next') + fuel')%nat) as [k Hk].
  exists (k + length (expand_queue next'))%nat. rewrite <-Nat.add_assoc, Hk.
  specialize (Hpop [] rs fuel'). rewrite app_nil_r in Hpop. simpl in Hpop.
  by rewrite <-app_assoc.
Qed.

(** Rebuilding does not depend on the fuel once it terminates, and it always
    does. *)
Lemma rebuild_length_le (out : indexed H W) rs r fuel :
  loop fuel rebuild_step (out, rs) = Ret r →
  loop (S (length out)) rebuild_step (out, rs) = Ret r.
Proof.
  revert out rs. induction fuel as [|fuel IH]; intros out rs; [done|].
  destruct (last out) as [[[p|] n]|] eqn:Hl.
  - apply last_Some in Hl as [out' ->].
    rewrite !(loop_unfold rebuild_step). unfold rebuild_step at 1 3.
    rewrite last_snoc, length_app, Nat.add_sub. cbn -[loop].
    rewrite take_app_length, Nat.add_1_r.
    destruct (out' !! p); [|done]. intros Hr. apply IH in Hr.
    by rewrite length_alter in Hr.
  - apply last_Some in Hl as [out' ->].
    rewrite !(loop_unfold rebuild_step). unfold rebuild_step at 1 3.
    rewrite last_snoc, length_app, Nat.add_sub. cbn -[loop].
    rewrite take_app_length, Nat.add_1_r. apply IH.
  - rewrite !(loop_unfold rebuild_step). unfold rebuild_step at 1 3.
    by rewrite Hl.
Qed.

(** Both phases together: the recursive expansion of the roots. *)
Lemma level_rebuild rs q :
  q = map (λ n, (None, n)) (rev rs) →
  ∃ out, loop (S (queue_size q)) level (q, []) = Ret out ∧
    rebuild out = Ret (mjoin (map expand rs)).
Proof.
  intros ->. destruct (level_loop_aux (S (queue_size (map (λ n, (None, n)) (rev rs))))
    (map (λ n, (None, n)) (rev rs)) []) as (out & Hout & Hre); [lia|].
  exists out. split; [done|].
  destruct (Hre [] (S (length (mjoin (map expand rs))))) as [k Hk].
  simpl app in Hk. rewrite expand_queue_rev, rebuild_roots in Hk by lia.
  by apply rebuild_length_le in Hk.
Qed.
End bfs_generic.

(** ** Instances *)

Definition label {H V} (n : Node H V) : H * Z * V := (hash n, number n, data n).
Definition labels {H V} (ns : list (Node H V)) : list (H * Z * V) :=
  map label (forest ns).

Lemma labels_cons {H V} (n : Node H V) ns :
  labels (n :: ns) = label n :: labels (children n) ++ labels ns.
Proof. unfold labels. rewrite forest_cons. simpl. by rewrite map_app. Qed.

Lemma labels_app {H V} (ns1 ns2 : list (Node H V)) :
  labels (ns1 ++ ns2) = labels ns1 ++ labels ns2.
Proof. unfold labels. by rewrite forest_app, map_app. Qed.

Lemma labels_nil {H V} : labels (@nil (Node H V)) = [].
Proof. done. Qed.

Lemma forest_perm {H V} (ns1 ns2 : list (Node H V)) :
  ns1 ≡ₚ ns2 → forest ns1 ≡ₚ forest ns2.
Proof.
  unfold forest. induction 1; simpl; [done|by f_equiv| |by etrans].
  rewrite !app_assoc. f_equiv. apply Permutation_app_comm.
Qed.

#[export] Instance labels_proper {H V} :
  Proper ((≡ₚ) ==> (≡ₚ)) (@labels H V).
Proof. intros ns1 ns2 Hp. unfold labels. by rewrite (forest_perm _ _ Hp). Qed.

Lemma removed_iter_labels {H V} (ns : list (Node H V)) :
  removed_iter ns = Ret (labels (rev ns)).
Proof. unfold removed_iter. by rewrite iter_collect_forest. Qed.

Section map_spec.
Context {H V W : Type} (f : H → Z → V → W).

(** Reference: mapping the data of every node. *)
Fixpoint map_node (n : Node H V) : Node H W :=
  match n with
  | MkNode h k d cs => MkNode h k (f h k d) (map map_node cs)
  end.

Definition map_spec_visit (n : Node H V) : option (Node H W * list (Node H V)) :=
  Some (MkNode (hash n) (number n) (f (hash n) (number n) (data n)) [], children n).

Lemma map_level_level st : map_level f st = level map_spec_visit st.
Proof.
  destruct st as [[|p q] O]; [done|]. unfold map_level, level. do 2 f_equal.
  generalize (p :: q). clear. intros q. generalize (@nil (option nat * Node H V)).
  revert O. induction q as [|p q IH]; intros O next; [done|]. apply IH.
Qed.

Lemma loop_ext {St R} (s1 s2 : St → outcome (St + R)) fuel st :
  (∀ s, s1 s = s2 s) → loop fuel s1 st = loop fuel s2 st.
Proof.
  intros Heq. revert st. induction fuel as [|fuel IH]; intros st; simpl; [done|].
  rewrite Heq. by destruct (s2 st) as [[?|?]| |].
Qed.

Lemma tree_map_spec (t : ForkTree H V) :
  tree_map f t = Ret (MkForkTree (map map_node (roots t)) (best_finalized_number t)).
Proof.
  unfold tree_map. set (q := map (λ n, (None, n)) (rev (roots t))).
  destruct (level_rebuild map_spec_visit (λ n, [map_node n])) with (rs := roots t) (q := q)
    as (out & Hout & Hre); [| |done|].
  - intros [h k d cs]. simpl. do 2 f_equal. clear.
    induction cs as [|c cs IH]; simpl; by f_equal.
  - intros n s cs [= <- <-]. done.
  - rewrite (loop_ext _ _ _ _ map_level_level), Hout. simpl. rewrite Hre. simpl.
    repeat f_equal. clear. induction (roots t) as [|r rs IH]; simpl; by f_equal.
Qed.
End map_spec.

Section filter_spec.
Context {H V : Type} (filter : H → Z → V → FilterAction).

(** Reference: what remains of a tree, and the nodes cut off it. *)
Fixpoint filter_node (n : Node H V) : list (Node H V) :=
  match n with
  | MkNode h k d cs =>
      match filter h k d with
      | Remove => []
      | KeepTree => [n]
      | KeepNode => [MkNode h k d (mjoin (map filter_node cs))]
      end
  end.

Fixpoint removed_nodes (n : Node H V) : list (Node H V) :=
  match n with
  | MkNode h k d cs =>
      match filter h k d with
      | Remove => [n]
      | KeepTree => []
      | KeepNode => mjoin (map removed_nodes cs)
      end
  end.

Definition filter_spec_visit (n : Node H V) : option (Node H V * list (Node H V)) :=
  match filter (hash n) (number n) (data n) with
  | Remove => None
  | KeepTree => Some (n, [])
  | KeepNode => Some (set_children n [], children n)
  end.

Definition removed_queue (q : indexed H V) : list (Node H V) :=
  mjoin (map (λ p, removed_nodes p.2) q).

Lemma removed_queue_app q1 q2 :
  removed_queue (q1 ++ q2) = removed_queue q1 ++ removed_queue q2.
Proof. unfold removed_queue. by rewrite map_app, join_app. Qed.

Lemma removed_queue_rev p cs :
  removed_queue (map (λ c, (p, c)) (rev cs)) ≡ₚ mjoin (map removed_nodes cs).
Proof.
  induction cs as [|c cs IH]; simpl; [done|].
  rewrite map_app, removed_queue_app, IH. unfold removed_queue. simpl.
  by rewrite app_nil_r, Permutation_app_comm.
Qed.

Lemma filter_visit_fold q next O rem :
  ∃ rem', foldl (filter_visit filter) (next, O, rem) q =
    ((foldl (visit_step filter_spec_visit) (next, O) q), rem') ∧
    rem' ++ removed_queue (foldl (visit_step filter_spec_visit) (next, O) q).1 ≡ₚ
    rem ++ removed_queue next ++ removed_queue q.
Proof.
  revert next O rem. induction q as [|[p n] q IH]; intros next O rem; simpl.
  { exists rem. split; [done|]. by rewrite app_nil_r. }
  change (removed_queue ((p, n) :: q)) with (removed_nodes n ++ removed_queue q).
  unfold visit_step at 2 4, filter_spec_visit at 2 4. simpl.
  destruct n as [h k d cs]; simpl. destruct (filter h k d); simpl.
  - destruct (IH next O (rem ++ [MkNode h k d cs])) as (rem' & -> & Hp).
    exists rem'. split; [done|]. rewrite Hp, <-app_assoc. simpl. f_equiv.
    by rewrite <-Permutation_middle.
  - edestruct IH as (rem' & -> & Hp). exists rem'. split; [done|]. rewrite Hp.
    f_equiv. rewrite removed_queue_app, <-app_assoc, removed_queue_rev. done.
  - rewrite app_nil_r. apply IH.
Qed.

Lemma filter_level_loop fuel q O rem out :
  loop fuel (level filter_spec_visit) (q, O) = Ret out →
  ∃ rem', loop fuel (filter_level filter) (q, O, rem) = Ret (out, rem') ∧
    rem' ≡ₚ rem ++ removed_queue q.
Proof.
  revert q O rem. induction fuel as [|fuel IH]; intros q O rem; [done|].
  rewrite !loop_unfold. destruct q as [|p q]; cbn [level filter_level].
  { intros [= <-]. exists rem. split; [done|]. by rewrite app_nil_r. }
  destruct (filter_visit_fold (p :: q) [] O rem) as (rem1 & -> & Hp).
  destruct (foldl (visit_step filter_spec_visit) ([], O) (p :: q)) as [next O'].
  intros Hl. destruct (IH _ _ rem1 Hl) as (rem' & -> & Hp').
  exists rem'. split; [done|]. by rewrite Hp', Hp.
Qed.

(** Every node is either kept or removed, once. *)
Lemma filter_node_labels (ns : list (Node H V)) :
  labels (mjoin (map filter_node ns)) ++ labels (mjoin (map removed_nodes ns)) ≡ₚ labels ns.
Proof.
  assert (∀ n : Node H V, labels (filter_node n) ++ labels (removed_nodes n) ≡ₚ labels [n]) as Hn.
  { induction n as [h k d cs IH] using Node_ind'. simpl.
    destruct (filter h k d); [by rewrite labels_nil| |by rewrite labels_nil, app_nil_r].
    rewrite !labels_cons. simpl. constructor. rewrite !app_nil_r.
    induction IH as [|c cs Hc Hcs IH]; [done|]. simpl.
    rewrite labels_cons, !labels_app. rewrite labels_cons, app_nil_r in Hc.
    rewrite app_comm_cons, <-Hc, <-IH. solve_Permutation. }
  induction ns as [|n ns IH]; [done|]. simpl. rewrite labels_cons, !labels_app.
  specialize (Hn n). rewrite labels_cons, app_nil_r in Hn.
  rewrite app_comm_cons, <-Hn, <-IH. solve_Permutation.
Qed.

Lemma drain_filter_spec (t : ForkTree H V) :
  ∃ removed,
    removed ≡ₚ mjoin (map removed_nodes (roots t)) ∧
    drain_filter filter t =
      Ret (let t' := set_roots t (mjoin (map filter_node (roots t))) in
           match removed with [] => t' | _ => rebalance t' end, labels (rev removed)).
Proof.
  unfold drain_filter. set (q := map (λ n, (None, n)) (rev (roots t))).
  destruct (level_rebuild filter_spec_visit filter_node) with (rs := roots t) (q := q)
    as (out & Hout & Hre); [| |done|].
  - intros [h k d cs]. unfold filter_spec_visit. simpl.
    destruct (filter h k d); simpl; [done..|]. by rewrite app_nil_r.
  - intros n s cs. unfold filter_spec_visit.
    destruct (filter _ _ _); intros; simplify_eq; simpl; lia.
  - destruct (filter_level_loop _ _ _ [] _ Hout) as (rem & -> & Hrem).
    exists rem. unfold q in Hrem. rewrite removed_queue_rev in Hrem. split; [done|].
    simpl. rewrite Hre. simpl. by rewrite removed_iter_labels.
Qed.
End filter_spec.
