(* ===== verification/ForkTreeInv.v ===== *)
(** The invariant of the fork tree: along the ancestry relation of the chain
    the tree is exact (a node is below another exactly when it descends from
    it), block numbers grow downwards, hashes are unique and everything lies
    above the last finalized number.  Every mutating operation keeps it. *)

From stdpp Require Import base list numbers sorting sets.
From S2P Require Import Prelude ForkTree ForkTreeSpec.

Local Open Scope Z_scope.

(** The ancestry of the chain the client answers about: [anc a b] when [b] is
    a proper descendant of [a]. *)
Class Ancestry {H : Type} (anc : H → H → bool) : Prop := {
  anc_irrefl : ∀ a, anc a a = false;
  anc_trans : ∀ a b c, anc a b = true → anc b c = true → anc a c = true;
  anc_linear : ∀ a b c, anc a c = true → anc b c = true →
    a = b ∨ anc a b = true ∨ anc b a = true
}.

(** ** Labels and the pairs (node, node below it) *)

Section pairs.
Context {H V : Type}.
Implicit Types (n m x y : Node H V) (rs : list (Node H V)).

Notation lhash l := (l.1.1) (only parsing).
Notation lnum l := (l.1.2) (only parsing).

Fixpoint node_pairs n : list ((H * Z * V) * (H * Z * V)) :=
  match n with
  | MkNode _ _ _ cs => map (λ b, (label n, b)) (labels cs) ++ mjoin (map node_pairs cs)
  end.

Definition pairs rs : list ((H * Z * V) * (H * Z * V)) := mjoin (map node_pairs rs).

Lemma pairs_cons n rs :
  pairs (n :: rs) =
  map (λ b, (label n, b)) (labels (children n)) ++ pairs (children n) ++ pairs rs.
Proof. unfold pairs. destruct n. simpl. by rewrite <-app_assoc. Qed.

Lemma pairs_app rs1 rs2 : pairs (rs1 ++ rs2) = pairs rs1 ++ pairs rs2.
Proof. unfold pairs. by rewrite map_app, join_app. Qed.

#[export] Instance pairs_proper : Proper ((≡ₚ) ==> (≡ₚ)) pairs.
Proof.
  intros rs1 rs2 Hp. unfold pairs. induction Hp; simpl; [done|by f_equiv| |by etrans].
  rewrite !app_assoc. f_equiv. apply Permutation_app_comm.
Qed.

Lemma elem_of_labels l rs : l ∈ labels rs ↔ ∃ n, n ∈ forest rs ∧ l = label n.
Proof. unfold labels. rewrite list_elem_of_fmap. naive_solver. Qed.


Lemma elem_of_forest_children n m rs :
  n ∈ forest rs → m ∈ forest (children n) → m ∈ forest rs.
Proof.
  intros Hn Hm. apply elem_of_forest in Hn as (r & Hr & Hn).
  apply elem_of_forest. exists r. split; [done|]. clear Hr rs.
  revert Hn. induction r as [h k d cs IH] using Node_ind'.
  rewrite !subtree_unfold, !elem_of_cons. intros [->|Hn]; [by right|]. right. simpl in *.
  apply elem_of_forest in Hn as (c & Hc & Hn). apply elem_of_forest.
  exists c. split; [done|]. rewrite Forall_forall in IH. by apply IH.
Qed.

Lemma elem_of_pairs a b rs :
  (a, b) ∈ pairs rs ↔ ∃ n, n ∈ forest rs ∧ a = label n ∧ b ∈ labels (children n).
Proof.
  assert (∀ r, (a, b) ∈ node_pairs r ↔
    ∃ n, n ∈ subtree r ∧ a = label n ∧ b ∈ labels (children n)) as Hr.
  { induction r as [h k d cs IH] using Node_ind'.
    rewrite subtree_unfold. simpl.
    rewrite elem_of_app, list_elem_of_fmap.
    setoid_rewrite elem_of_cons. split.
    - intros [(b' & [= -> ->] & Hb)|Hj]; [eauto|].
      apply list_elem_of_join in Hj as (ps & Hp & (c & -> & Hc)%list_elem_of_fmap).
      rewrite Forall_forall in IH. apply IH in Hp as (n & Hn & ? & ?); [|done].
      exists n. split; [|done]. right. apply elem_of_forest. eauto.
    - intros (n & [->|Hn] & -> & Hb); [left; eauto|right].
      apply elem_of_forest in Hn as (c & Hc & Hn).
      apply list_elem_of_join. exists (node_pairs c). split.
      + rewrite Forall_forall in IH. apply (IH c Hc). eauto.
      + apply list_elem_of_fmap. eauto. }
  unfold pairs. rewrite list_elem_of_join. split.
  - intros (ps & Hp & (r & -> & Hin)%list_elem_of_fmap). apply Hr in Hp as (n & Hn & Hab).
    exists n. split; [|exact Hab]. apply elem_of_forest. by eauto.
  - intros (n & Hn & Hab). apply elem_of_forest in Hn as (r & Hin & Hn).
    exists (node_pairs r). split; [apply Hr; by eauto|].
    apply list_elem_of_fmap. by eauto.
Qed.

(** Rebalancing permutes siblings only. *)
Lemma snd_sort_perm {A} (l : list (nat * A)) :
  map snd (sort_by_key_desc fst l) ≡ₚ map snd l.
Proof. by rewrite sort_by_key_desc_perm. Qed.

Lemma rebalance_roots_perm rs : rebalance_roots rs ≡ₚ map rebalance_node rs.
Proof. unfold rebalance_roots. rewrite snd_sort_perm, map_map. done. Qed.

Lemma rebalance_node_label n : label (rebalance_node n) = label n.
Proof. by destruct n. Qed.

Lemma rebalance_node_children n :
  children (rebalance_node n) ≡ₚ map rebalance_node (children n).
Proof. destruct n as [h k d cs]. simpl. rewrite snd_sort_perm, map_map. done. Qed.

Lemma rebalance_nodes_labels rs : labels (map rebalance_node rs) ≡ₚ labels rs.
Proof.
  induction rs as [|n rs IHrs]; [done|]. simpl.
  rewrite !labels_cons, rebalance_node_label, IHrs. f_equiv. f_equiv.
  rewrite rebalance_node_children. clear.
  induction n as [h k d cs IH] using Node_ind'. simpl.
  induction IH as [|c cs Hc _ IH]; [done|]. simpl.
  by rewrite !labels_cons, rebalance_node_label, IH, rebalance_node_children, Hc.
Qed.

Lemma rebalance_nodes_pairs rs : pairs (map rebalance_node rs) ≡ₚ pairs rs.
Proof.
  induction rs as [|n rs IHrs]; [done|]. simpl.
  rewrite !pairs_cons, rebalance_node_label, IHrs.
  rewrite rebalance_node_children, rebalance_nodes_labels. f_equiv. f_equiv.
  clear.
  induction n as [h k d cs IH] using Node_ind'. simpl.
  induction IH as [|c cs Hc _ IH]; [done|]. simpl.
  rewrite !pairs_cons, rebalance_node_label, IH.
  by rewrite rebalance_node_children, rebalance_nodes_labels, Hc.
Qed.

Lemma rebalance_labels rs : labels (rebalance_roots rs) ≡ₚ labels rs.
Proof. by rewrite rebalance_roots_perm, rebalance_nodes_labels. Qed.

Lemma rebalance_pairs rs : pairs (rebalance_roots rs) ≡ₚ pairs rs.
Proof. by rewrite rebalance_roots_perm, rebalance_nodes_pairs. Qed.
End pairs.

(** ** The invariant *)

Section invariant.
Context {H V : Type} (anc : H → H → bool).
Implicit Types (n m x y : Node H V) (rs : list (Node H V)) (t : ForkTree H V).

Record wf_forest rs : Prop := {
  wf_pairs : ∀ a b, (a, b) ∈ pairs rs → anc a.1.1 b.1.1 = true ∧ a.1.2 < b.1.2;
  wf_exact : ∀ a b, a ∈ labels rs → b ∈ labels rs →
    anc a.1.1 b.1.1 = true → (a, b) ∈ pairs rs;
  wf_unique : NoDup (map (λ l, l.1.1) (labels rs))
}.

Definition above_finalized t : Prop :=
  ∀ l best, l ∈ labels (roots t) → best_finalized_number t = Some best → best < l.1.2.

Definition wf_tree t : Prop := wf_forest (roots t) ∧ above_finalized t.

Lemma labels_hashes rs : map (λ l, l.1.1) (labels rs) = map hash (forest rs).
Proof. unfold labels. rewrite map_map. done. Qed.

Lemma NoDup_map_inj {A B} (f : A → B) (l : list A) (x y : A) :
  NoDup (map f l) → x ∈ l → y ∈ l → f x = f y → x = y.
Proof.
  intros Hnd [i Hi]%list_elem_of_lookup [j Hj]%list_elem_of_lookup Hf.
  assert (i = j) as ->; [|congruence].
  apply (NoDup_lookup (map f l) i j (f x)); [done|..].
  - apply (list_lookup_fmap_Some_2 f _ _ _ Hi).
  - rewrite Hf. apply (list_lookup_fmap_Some_2 f _ _ _ Hj).
Qed.

Lemma wf_hash_inj rs n m :
  wf_forest rs → n ∈ forest rs → m ∈ forest rs → hash n = hash m → n = m.
Proof. intros [_ _ Hu]. rewrite labels_hashes in Hu. by apply NoDup_map_inj. Qed.

Lemma wf_NoDup_forest rs : wf_forest rs → NoDup (forest rs).
Proof. intros [_ _ Hu]. rewrite labels_hashes in Hu. by apply NoDup_fmap_1 in Hu. Qed.

Lemma wf_below rs n m :
  wf_forest rs → n ∈ forest rs → m ∈ forest (children n) →
  anc (hash n) (hash m) = true ∧ number n < number m.
Proof.
  intros Hwf Hn Hm. apply (wf_pairs rs Hwf (label n) (label m)).
  apply elem_of_pairs. exists n. split_and!; [done..|]. apply elem_of_labels. eauto.
Qed.

Lemma wf_below_intro rs n m :
  wf_forest rs → n ∈ forest rs → m ∈ forest rs → anc (hash n) (hash m) = true →
  m ∈ forest (children n).
Proof.
  intros Hwf Hn Hm Ha.
  assert ((label n, label m) ∈ pairs rs) as Hp.
  { apply (wf_exact rs Hwf); [apply elem_of_labels; eauto..|done]. }
  apply elem_of_pairs in Hp as (n' & Hn' & Hnn & (m' & Hm' & Hmm)%elem_of_labels).
  assert (n = n') as <- by (apply (wf_hash_inj rs); [done..|]; by injection Hnn).
  assert (m = m') as <-; [|done].
  apply (wf_hash_inj rs); [done..| |by injection Hmm].
  by eapply elem_of_forest_children.
Qed.

(** A forest made of subtrees of a well-formed one. *)
Lemma wf_sub rs rs' :
  wf_forest rs → (∀ n, n ∈ forest rs' → n ∈ forest rs) →
  NoDup (forest rs') → wf_forest rs'.
Proof.
  intros Hwf Hsub Hnd. split.
  - intros a b (n & Hn & -> & Hb)%elem_of_pairs.
    apply (wf_pairs rs Hwf), elem_of_pairs. eauto.
  - intros a b (n & Hn & ->)%elem_of_labels (m & Hm & ->)%elem_of_labels Ha.
    apply elem_of_pairs. exists n. split_and!; [done..|]. apply elem_of_labels.
    exists m. split; [|done]. by apply (wf_below_intro rs); auto.
  - rewrite labels_hashes. apply NoDup_fmap_2_strong; [|done].
    intros n m Hn Hm Hh. by apply (wf_hash_inj rs); auto.
Qed.

Lemma wf_rebalance rs : wf_forest rs → wf_forest (rebalance_roots rs).
Proof.
  intros [Hp He Hu]. split.
  - intros a b. rewrite rebalance_pairs. apply Hp.
  - intros a b. rewrite rebalance_pairs, rebalance_labels. apply He.
  - by rewrite rebalance_labels.
Qed.

Lemma NoDup_forest_children rs n :
  NoDup (forest rs) → n ∈ forest rs → NoDup (forest (children n)).
Proof.
  assert (∀ r, NoDup (subtree r) → n ∈ subtree r → NoDup (forest (children n))) as Hr.
  { induction r as [h k d cs IH] using Node_ind'. rewrite subtree_unfold. simpl.
    intros [_ Hnd]%NoDup_cons [->|Hn]%elem_of_cons; [done|].
    apply elem_of_forest in Hn as (c & Hc & Hn). rewrite Forall_forall in IH.
    apply (IH c Hc); [|done]. apply list_elem_of_split in Hc as (l1 & l2 & ->).
    rewrite forest_app, forest_cons, app_comm_cons, <-subtree_unfold in Hnd.
    by apply NoDup_app in Hnd as (_ & _ & (? & _)%NoDup_app). }
  intros Hnd (r & Hin & Hn)%elem_of_forest. apply (Hr r); [|done].
  apply list_elem_of_split in Hin as (l1 & l2 & ->).
  rewrite forest_app, forest_cons, app_comm_cons, <-subtree_unfold in Hnd.
  by apply NoDup_app in Hnd as (_ & _ & (? & _)%NoDup_app).
Qed.

(** Trees at different places of a forest share no node. *)
Lemma NoDup_forest_split (l1 l2 : list (Node H V)) c z :
  NoDup (forest (l1 ++ c :: l2)) → z ∈ subtree c → z ∉ forest l1 ∧ z ∉ forest l2.
Proof.
  rewrite forest_app, forest_cons, app_comm_cons, <-subtree_unfold.
  intros (_ & H1 & (_ & H2 & _)%NoDup_app)%NoDup_app Hz. split.
  - intros Hz1. apply (H1 z Hz1), elem_of_app. by left.
  - by apply H2.
Qed.
End invariant.

(** ** What the ancestor search returns *)

Section search_meaning.
Context {H V E : Type} `{EqDecision H} (anc : H → H → bool) `{!Ancestry anc}.
Context (is_descendent_of : H → H → result bool E).
Hypothesis client_answers : ∀ a b, is_descendent_of a b = Ok (anc a b).
Context (rs : list (Node H V)) (wf : wf_forest anc rs).
Context (target : H) (num : Z) (predicate : V → bool).
Hypothesis ancestors_below :
  ∀ n, n ∈ forest rs → anc (hash n) target = true → number n < num.
Implicit Types (n x y : Node H V).

Definition follow n (p : list nat) : option (Node H V) :=
  match p with [] => Some n | _ => node_at (children n) p end.

Lemma node_at_cons ns i p : node_at ns (i :: p) = c ← ns !! i; follow c p.
Proof. simpl. destruct (ns !! i); simpl; [|done]. by destruct p. Qed.

(** No ancestor of the target in [ns] passes the predicate. *)
Definition no_match (ns : list (Node H V)) : Prop :=
  ∀ y, y ∈ forest ns → anc (hash y) target = true → predicate (data y) = false.

Definition no_ancestor (ns : list (Node H V)) : Prop :=
  ∀ y, y ∈ forest ns → anc (hash y) target = false.

(** [x] is the deepest ancestor of the target that passes the predicate. *)
Definition deepest_match x : Prop :=
  x ∈ forest rs ∧ anc (hash x) target = true ∧ predicate (data x) = true ∧
  no_match (children x).

Definition meaning n (v : verdict) : Prop :=
  match v with
  | NotAncestor => no_ancestor [n]
  | NoMatch => anc (hash n) target = true ∧ no_match [n]
  | Found p => ∃ x, follow n p = Some x ∧ deepest_match x
  end.

Lemma elem_of_forest_sub n y : n ∈ forest rs → y ∈ forest (children n) → y ∈ forest rs.
Proof. apply elem_of_forest_children. Qed.

Lemma elem_of_children_forest n c : c ∈ children n → c ∈ forest (children n).
Proof.
  intros Hc. apply elem_of_forest. exists c. rewrite subtree_unfold. set_solver.
Qed.

(** Two ancestors of the target lie on one branch. *)
Lemma ancestors_chain x y :
  x ∈ forest rs → y ∈ forest rs →
  anc (hash x) target = true → anc (hash y) target = true →
  x = y ∨ y ∈ forest (children x) ∨ x ∈ forest (children y).
Proof.
  intros Hx Hy Hax Hay. destruct (anc_linear _ _ _ Hax Hay) as [Hh|[Ha|Ha]].
  - left. by apply (wf_hash_inj anc rs).
  - right; left. by apply (wf_below_intro anc rs).
  - right; right. by apply (wf_below_intro anc rs).
Qed.

(** Once one sibling is an ancestor of the target, no other tree beside it
    holds one. *)
Lemma no_ancestor_beside ns l1 c l2 :
  NoDup (forest ns) → (∀ y, y ∈ forest ns → y ∈ forest rs) →
  ns = l1 ++ c :: l2 → anc (hash c) target = true → no_ancestor (l1 ++ l2).
Proof.
  intros Hnd Hsub -> Hc y Hy. destruct (anc (hash y) target) eqn:Ha; [|done].
  exfalso.
  assert (∀ z, z ∈ subtree c → z ∉ forest (l1 ++ l2)) as Hdis.
  { intros z Hz. rewrite forest_app, not_elem_of_app.
    by apply (NoDup_forest_split (H:=H) (V:=V) l1 l2 c). }
  assert (c ∈ subtree c) as Hcc by (rewrite subtree_unfold; left).
  assert (y ∈ forest rs) as Hyr.
  { apply Hsub. rewrite forest_app, forest_cons in *. set_solver. }
  assert (c ∈ forest rs) as Hcr.
  { apply Hsub. rewrite forest_app, forest_cons. set_solver. }
  destruct (ancestors_chain c y) as [->|[Hin|Hin]]; [done..| | |].
  - by apply (Hdis y).
  - apply (Hdis y); [|done]. rewrite subtree_unfold. by right.
  - apply (Hdis c Hcc). by apply (elem_of_forest_children y).
Qed.

Lemma no_ancestor_cons n ns :
  no_ancestor (n :: ns) ↔ anc (hash n) target = false ∧ no_ancestor (children n) ∧ no_ancestor ns.
Proof.
  unfold no_ancestor. setoid_rewrite forest_cons.
  setoid_rewrite elem_of_cons. setoid_rewrite elem_of_app. naive_solver.
Qed.

Lemma no_match_cons n ns :
  no_match (n :: ns) ↔
  (anc (hash n) target = true → predicate (data n) = false) ∧
  no_match (children n) ∧ no_match ns.
Proof.
  unfold no_match. setoid_rewrite forest_cons.
  setoid_rewrite elem_of_cons. setoid_rewrite elem_of_app. naive_solver.
Qed.

Lemma no_ancestor_app l1 l2 : no_ancestor (l1 ++ l2) ↔ no_ancestor l1 ∧ no_ancestor l2.
Proof.
  unfold no_ancestor. rewrite forest_app. setoid_rewrite elem_of_app. naive_solver.
Qed.

Lemma no_match_app l1 l2 : no_match (l1 ++ l2) ↔ no_match l1 ∧ no_match l2.
Proof.
  unfold no_match. rewrite forest_app. setoid_rewrite elem_of_app. naive_solver.
Qed.

Lemma no_ancestor_no_match ns : no_ancestor ns → no_match ns.
Proof. intros Hn y Hy Ha. specialize (Hn y Hy). congruence. Qed.

(** A tree whose root is not below [num] holds no ancestor. *)
Lemma skipped_no_ancestor n : n ∈ forest rs → num ≤ number n → no_ancestor [n].
Proof.
  intros Hn Hle y Hy. destruct (anc (hash y) target) eqn:Ha; [|done]. exfalso.
  rewrite forest_cons, app_nil_r in Hy. apply elem_of_cons in Hy as [->|Hy].
  - specialize (ancestors_below n Hn Ha). lia.
  - pose proof (elem_of_forest_sub _ _ Hn Hy) as Hyr.
    pose proof (ancestors_below y Hyr Ha).
    pose proof (wf_below anc rs n y wf Hn Hy). lia.
Qed.

(** The verdict on [n] itself, once an ancestor is known at or below it. *)
Lemma self_verdict_meaning n :
  n ∈ forest rs → anc (hash n) target = true → no_match (children n) →
  meaning n (self_verdict predicate n).
Proof.
  intros Hn Ha Hm. unfold self_verdict. destruct (predicate (data n)) eqn:Hp; simpl.
  - exists n. split; [done|]. by split_and!.
  - split; [done|]. apply no_match_cons. split_and!; [done..|].
    intros y Hy. by apply elem_of_nil in Hy.
Qed.

Lemma search_children_meaning n pre cs :
  n ∈ forest rs → children n = pre ++ cs → no_ancestor pre →
  Forall (λ c, c ∈ forest rs → ∃ v,
    search is_descendent_of target num predicate c = Ok v ∧ meaning c v) cs →
  ∃ v, search_children is_descendent_of target num predicate
         (search is_descendent_of target num predicate) n (length pre) cs = Ok v ∧
    meaning n v.
Proof.
  intros Hn Hcs Hpre Hall. revert pre Hcs Hpre.
  induction Hall as [|c cs Hc Hall IH]; intros pre Hcs Hpre; simpl.
  { rewrite app_nil_r in Hcs. rewrite client_answers.
    destruct (anc (hash n) target) eqn:Ha; eexists; (split; [done|]).
    - apply self_verdict_meaning; [done..|]. rewrite Hcs. by apply no_ancestor_no_match.
    - simpl. apply no_ancestor_cons. rewrite Hcs. split_and!; [done..|].
      intros y Hy. by apply elem_of_nil in Hy. }
  assert (c ∈ forest rs) as Hcr.
  { apply (elem_of_forest_sub n); [done|]. apply elem_of_children_forest.
    rewrite Hcs. set_solver. }
  assert (no_ancestor [c] → ∃ v, search_children is_descendent_of target num predicate
    (search is_descendent_of target num predicate) n (S (length pre)) cs = Ok v ∧
    meaning n v) as Hnext.
  { intros Hno. rewrite <-(Nat.add_1_r (length pre)).
    change 1%nat with (length [c]). rewrite <-length_app. apply IH.
    - by rewrite <-app_assoc.
    - apply no_ancestor_app. by split. }
  destruct (Z.ltb_spec (number c) num) as [Hlt|Hge].
  2:{ apply Hnext. by apply skipped_no_ancestor. }
  destruct (Hc Hcr) as (v & Hs & Hv). rewrite Hs. destruct v as [| |p]; simpl in Hv.
  - by apply Hnext.
  - destruct Hv as [Hac Hnm]. eexists. split; [done|].
    apply self_verdict_meaning; [done| |].
    + apply (anc_trans _ (hash c)); [|done].
      apply (wf_below anc rs n c wf Hn). apply elem_of_children_forest.
      rewrite Hcs. set_solver.
    + rewrite Hcs. assert (no_ancestor (pre ++ cs)) as Hno.
      { apply (no_ancestor_beside (children n) pre c cs); [|by eauto using elem_of_forest_sub|done..].
        apply (NoDup_forest_children rs); [|done]. by apply (wf_NoDup_forest anc). }
      apply no_ancestor_app in Hno as [H1 H2]. apply no_match_app.
      split; [by apply no_ancestor_no_match|].
      change (c :: cs) with ([c] ++ cs). apply no_match_app.
      split; [done|by apply no_ancestor_no_match].
  - destruct Hv as (x & Hx & Hd). eexists. split; [done|]. exists x.
    split; [|done]. cbn [follow]. rewrite node_at_cons, Hcs.
    by rewrite list_lookup_middle by done.
Qed.

Lemma search_meaning n :
  n ∈ forest rs → ∃ v, search is_descendent_of target num predicate n = Ok v ∧ meaning n v.
Proof.
  induction n as [h k d cs IH] using Node_ind'. intros Hn. rewrite search_unfold.
  apply (search_children_meaning (MkNode h k d cs) [] cs); [done..| |done].
  intros y Hy. by apply elem_of_nil in Hy.
Qed.

(** The search over the roots: nothing, or the path of the deepest match. *)
Lemma search_roots_meaning :
  (search_roots is_descendent_of target num predicate 0 rs = Ok None ∧ no_match rs) ∨
  (∃ p x, search_roots is_descendent_of target num predicate 0 rs = Ok (Some p) ∧
     node_at rs p = Some x ∧ deepest_match x).
Proof.
  assert (∀ pre ns, rs = pre ++ ns → no_ancestor pre →
    (search_roots is_descendent_of target num predicate (length pre) ns = Ok None ∧ no_match rs) ∨
    (∃ p x, search_roots is_descendent_of target num predicate (length pre) ns = Ok (Some p) ∧
       node_at rs p = Some x ∧ deepest_match x)) as Hgen.
  2:{ apply (Hgen [] rs); [done|]. intros y Hy. by apply elem_of_nil in Hy. }
  intros pre ns. revert pre. induction ns as [|r ns IH]; intros pre Hrs Hpre.
  { left. split; [done|]. rewrite app_nil_r in Hrs. rewrite Hrs.
    by apply no_ancestor_no_match. }
  assert (r ∈ forest rs) as Hr.
  { rewrite Hrs, forest_app, forest_cons. set_solver. }
  assert (no_ancestor [r] → 
    (search_roots is_descendent_of target num predicate (S (length pre)) ns = Ok None ∧ no_match rs) ∨
    (∃ p x, search_roots is_descendent_of target num predicate (S (length pre)) ns = Ok (Some p) ∧
       node_at rs p = Some x ∧ deepest_match x)) as Hnext.
  { intros Hno. rewrite <-(Nat.add_1_r (length pre)). change 1%nat with (length [r]).
    rewrite <-length_app. apply IH; [by rewrite <-app_assoc|]. by apply no_ancestor_app. }
  simpl. destruct (Z.leb_spec num (number r)) as [Hle|Hlt].
  { apply Hnext. by apply skipped_no_ancestor. }
  destruct (search_meaning r Hr) as (v & -> & Hv). destruct v as [| |p]; simpl in Hv.
  - by apply Hnext.
  - left. split; [done|]. destruct Hv as [Hac Hnm].
    assert (no_ancestor (pre ++ ns)) as Hno.
    { by apply (no_ancestor_beside rs pre r ns); [apply (wf_NoDup_forest anc)|..]. }
    apply no_ancestor_app in Hno as [H1 H2]. rewrite Hrs. apply no_match_app.
    split; [by apply no_ancestor_no_match|].
    change (r :: ns) with ([r] ++ ns). apply no_match_app.
    split; [done|by apply no_ancestor_no_match].
  - right. destruct Hv as (x & Hx & Hd). exists (length pre :: p), x.
    split_and!; [done| |done]. rewrite node_at_cons, Hrs.
    by rewrite list_lookup_middle by done.
Qed.
End search_meaning.
