(* ===== verification/ForkTreeOps.v ===== *)
(** The mutating operations of the fork tree against its invariant: [import],
    [finalize], [finalize_with_ancestors], [prune], [drain_filter] and [map],
    with the properties the callers rely on. *)

From stdpp Require Import base list numbers sorting sets.
From S2P Require Import Prelude ForkTree ForkTreeSpec ForkTreeInv.

Local Open Scope Z_scope.

(** ** Paths *)

Section paths.
Context {H V : Type}.
Implicit Types (n x c : Node H V) (rs : list (Node H V)).

Fixpoint path_nodes rs (p : list nat) : list (Node H V) :=
  match p with
  | [] => []
  | i :: p' => match rs !! i with
               | None => []
               | Some c => c :: path_nodes (children c) p'
               end
  end.

Lemma node_at_elem p rs x : node_at rs p = Some x → x ∈ forest rs.
Proof.
  revert rs. induction p as [|i p IH]; intros rs; [done|].
  rewrite node_at_cons. destruct (rs !! i) as [c|] eqn:Hi; [|done].
  cbn [mbind option_bind]. intros Hx. apply list_elem_of_lookup_2 in Hi.
  apply elem_of_forest. exists c. split; [done|]. rewrite subtree_unfold.
  destruct p as [|j p]; [simplify_eq/=; left|right]. by apply IH.
Qed.

(** The nodes of a path are its end and nodes above it. *)
Lemma path_nodes_above p rs x n :
  node_at rs p = Some x → n ∈ path_nodes rs p →
  n ∈ forest rs ∧ (n = x ∨ x ∈ forest (children n)).
Proof.
  revert rs. induction p as [|i p IH]; intros rs; [done|].
  rewrite node_at_cons. cbn [path_nodes]. destruct (rs !! i) as [c|] eqn:Hi; [|done].
  cbn [mbind option_bind]. apply list_elem_of_lookup_2 in Hi. intros Hx Hn.
  assert (c ∈ forest rs) as Hc.
  { apply elem_of_forest. exists c. split; [done|]. rewrite subtree_unfold. left. }
  apply elem_of_cons in Hn as [->|Hn].
  - split; [done|]. destruct p as [|j p]; [by simplify_eq/=; left|right].
    by eapply node_at_elem.
  - destruct p as [|j p]; [by apply elem_of_nil in Hn|].
    destruct (IH (children c) Hx Hn) as [Hin Hor]. split; [|done].
    by apply (elem_of_forest_children c).
Qed.

(** ... and all of them. *)
Lemma above_path_nodes p rs x n :
  NoDup (forest rs) → node_at rs p = Some x →
  n ∈ forest rs → n = x ∨ x ∈ forest (children n) → n ∈ path_nodes rs p.
Proof.
  revert rs. induction p as [|i p IH]; intros rs Hnd; [done|].
  rewrite node_at_cons. cbn [path_nodes]. destruct (rs !! i) as [c|] eqn:Hi; [|done].
  cbn [mbind option_bind]. intros Hx Hn Hor.
  rewrite <-(take_drop_middle rs i c Hi) in Hnd, Hn.
  assert (x ∈ subtree c) as Hxc.
  { rewrite subtree_unfold. destruct p; [simplify_eq/=; left|right].
    by eapply node_at_elem. }
  destruct (NoDup_forest_split _ _ _ _ Hnd Hxc) as [Hn1 Hn2].
  rewrite forest_app, forest_cons in Hn.
  assert (∀ ns, n ∈ forest ns → x ∈ forest ns) as Hup.
  { intros ns Hns. destruct Hor as [<-|Hb]; [done|]. by eapply elem_of_forest_children. }
  rewrite elem_of_app, elem_of_cons, elem_of_app in Hn.
  destruct Hn as [Hn|[->|[Hn|Hn]]]; [by apply Hup in Hn|by left| |by apply Hup in Hn].
  right. destruct p as [|j p].
  - simplify_eq/=. exfalso. apply Hup in Hn.
    rewrite forest_app, forest_cons in Hnd.
    apply NoDup_app in Hnd as (_ & _ & [Hc _]%NoDup_cons). set_solver.
  - apply IH; [|done..]. apply (NoDup_forest_children (take i rs ++ c :: drop (S i) rs)); [done|].
    rewrite forest_app, forest_cons. set_solver.
Qed.
End paths.

(** ** Pushing a leaf below the node at a path *)

Section push.
Context {H V : Type} (leaf : Node H V).
Hypothesis leaf_children : children leaf = [].
Implicit Types (n x c : Node H V) (rs : list (Node H V)).

Definition push_leaf n : Node H V := set_children n (children n ++ [leaf]).

Lemma labels_leaf : labels [leaf] = [label leaf].
Proof. rewrite labels_cons, leaf_children. done. Qed.

(** The node at index [i] after [alter_at] along [i :: p]. *)
Definition alter_child (f : Node H V → Node H V) (p : list nat) c : Node H V :=
  match p with
  | [] => f c
  | _ => set_children c (alter_at f (children c) p)
  end.

Lemma alter_at_cons (f : Node H V → Node H V) rs i p :
  alter_at f rs (i :: p) = alter (alter_child f p) i rs.
Proof. done. Qed.

Lemma push_leaf_labels p rs x :
  node_at rs p = Some x →
  labels (alter_at push_leaf rs p) ≡ₚ label leaf :: labels rs.
Proof.
  revert rs. induction p as [|i p IH]; intros rs; [done|].
  rewrite node_at_cons, alter_at_cons. destruct (rs !! i) as [c|] eqn:Hi; [|done].
  cbn [mbind option_bind]. intros Hx.
  destruct (alter_split (alter_child push_leaf p) i rs c Hi) as (l1 & l2 & -> & ->).
  assert (label (alter_child push_leaf p c) = label c ∧
    labels (children (alter_child push_leaf p c)) ≡ₚ label leaf :: labels (children c))
    as [Hl Hc].
  { destruct p as [|j p]; simpl; split; try by destruct c.
    - rewrite labels_app, labels_leaf. solve_Permutation.
    - by apply IH. }
  rewrite !labels_app, !labels_cons, Hl, Hc. solve_Permutation.
Qed.

Lemma push_leaf_pairs p rs x :
  node_at rs p = Some x →
  pairs (alter_at push_leaf rs p) ≡ₚ
  map (λ n, (label n, label leaf)) (path_nodes rs p) ++ pairs rs.
Proof.
  revert rs. induction p as [|i p IH]; intros rs; [done|].
  rewrite node_at_cons, alter_at_cons. cbn [path_nodes].
  destruct (rs !! i) as [c|] eqn:Hi; [|done].
  cbn [mbind option_bind]. intros Hx.
  destruct (alter_split (alter_child push_leaf p) i rs c Hi) as (l1 & l2 & -> & ->).
  assert (label (alter_child push_leaf p c) = label c ∧
    labels (children (alter_child push_leaf p c)) ≡ₚ label leaf :: labels (children c) ∧
    pairs (children (alter_child push_leaf p c)) ≡ₚ
      map (λ n, (label n, label leaf)) (path_nodes (children c) p) ++ pairs (children c))
    as (Hl & Hc & Hp).
  { destruct p as [|j p]; simpl.
    - split_and!; [by destruct c|rewrite labels_app, labels_leaf; solve_Permutation|].
      rewrite pairs_app, pairs_cons, leaf_children. simpl. by rewrite app_nil_r.
    - split_and!; [by destruct c| |by apply IH].
      by apply (push_leaf_labels (j :: p) _ x). }
  rewrite !pairs_app, !pairs_cons, Hl, Hc, Hp. simpl. solve_Permutation.
Qed.

End push.

(** ** Import *)

Section import.
Context {H V E : Type} `{EqDecision H} (anc : H → H → bool) `{!Ancestry anc}.
Context (is_descendent_of : H → H → result bool E).
Hypothesis client_answers : ∀ a b, is_descendent_of a b = Ok (anc a b).
Implicit Types (n x y : Node H V) (rs : list (Node H V)) (t : ForkTree H V).

(** Block numbers of the chain agree with its ancestry around block
    [(h, num)]. *)
Definition coherent t (h : H) (num : Z) : Prop :=
  ∀ l, l ∈ labels (roots t) →
    (anc l.1.1 h = true → l.1.2 < num) ∧
    (anc h l.1.1 = true → num < l.1.2) ∧
    (l.1.1 = h → l.1.2 = num).

Lemma coherent_below t h num n :
  coherent t h num → n ∈ forest (roots t) → anc (hash n) h = true → number n < num.
Proof.
  intros Hc Hn. apply (Hc (label n)). apply elem_of_labels. eauto.
Qed.

(** The search of [import]: no node is an ancestor of [h], or the deepest
    ancestor is found. *)
Lemma find_parent t h num :
  wf_forest anc (roots t) → coherent t h num →
  (find_node_index_where is_descendent_of t h num (λ _, true) = Ret (Ok None) ∧
     ∀ y, y ∈ forest (roots t) → anc (hash y) h = false) ∨
  (∃ p x, find_node_index_where is_descendent_of t h num (λ _, true) = Ret (Ok (Some p)) ∧
     node_at (roots t) p = Some x ∧ x ∈ forest (roots t) ∧ anc (hash x) h = true ∧
     ∀ y, y ∈ forest (children x) → anc (hash y) h = false).
Proof.
  intros Hwf Hc. unfold find_node_index_where. rewrite find_in_roots_spec.
  destruct (search_roots_meaning anc is_descendent_of client_answers (roots t) Hwf h num
    (λ _, true)) as [[-> Hnm]|(p & x & -> & Hx & Hin & Ha & _ & Hnm)].
  - intros n. by apply coherent_below.
  - left. split; [done|]. intros y Hy. specialize (Hnm y Hy).
    destruct (anc (hash y) h); [|done]. by specialize (Hnm eq_refl).
  - right. exists p, x. split_and!; [done..|]. intros y Hy. specialize (Hnm y Hy).
    destruct (anc (hash y) h); [|done]. by specialize (Hnm eq_refl).
Qed.

Lemma existsb_hash h rs :
  existsb (λ elem, bool_decide (hash elem = h)) rs = true ↔
  ∃ e, e ∈ rs ∧ hash e = h.
Proof.
  rewrite existsb_exists. setoid_rewrite <-list_elem_of_In.
  setoid_rewrite bool_decide_eq_true. done.
Qed.

Lemma children_in_forest rs x e : x ∈ forest rs → e ∈ children x → e ∈ forest rs.
Proof.
  intros Hx He. apply (elem_of_forest_children x); [done|].
  apply elem_of_forest. exists e. split; [done|]. rewrite subtree_unfold. left.
Qed.

Lemma root_in_forest rs e : e ∈ rs → e ∈ forest rs.
Proof.
  intros He. apply elem_of_forest. exists e. split; [done|]. rewrite subtree_unfold. left.
Qed.

(** The forest after a leaf was added below every ancestor of its hash. *)
Lemma wf_add_leaf rs rs' l :
  wf_forest anc rs → labels rs' ≡ₚ l :: labels rs →
  (∀ a b, (a, b) ∈ pairs rs' ↔
     (a, b) ∈ pairs rs ∨ (b = l ∧ a ∈ labels rs ∧ anc a.1.1 l.1.1 = true)) →
  (∀ a, a ∈ labels rs → anc a.1.1 l.1.1 = true → a.1.2 < l.1.2) →
  (∀ a, a ∈ labels rs → anc l.1.1 a.1.1 = false ∧ a.1.1 ≠ l.1.1) →
  wf_forest anc rs'.
Proof.
  intros Hwf Hl Hp Hnum Hfresh. split.
  - intros a b [Hab|(-> & Ha & Hanc)]%Hp; [by apply (wf_pairs anc rs)|]. eauto.
  - intros a b. rewrite Hl, !elem_of_cons. intros [->|Ha] [->|Hb] Hanc; apply Hp.
    + by rewrite anc_irrefl in Hanc.
    + destruct (Hfresh b Hb). congruence.
    + by right.
    + left. by apply (wf_exact anc rs).
  - rewrite Hl. simpl. constructor; [|apply (wf_unique anc rs Hwf)].
    intros (a & Heq & Ha)%list_elem_of_fmap. by destruct (Hfresh a Ha).
Qed.

(** The forest with a new root, or a new leaf below its deepest ancestor. *)
Definition fresh rs (h : H) : Prop :=
  ∀ l, l ∈ labels rs → anc h l.1.1 = false ∧ l.1.1 ≠ h.

Lemma wf_add_root t h num d :
  wf_forest anc (roots t) → coherent t h num → fresh (roots t) h →
  (∀ y, y ∈ forest (roots t) → anc (hash y) h = false) →
  wf_forest anc (roots t ++ [MkNode h num d []]).
Proof.
  intros Hwf Hc Hfresh Hno. apply (wf_add_leaf (roots t) _ (h, num, d)); [done|..|done].
  - rewrite labels_app, labels_leaf by done. by rewrite Permutation_app_comm.
  - intros a b. rewrite pairs_app, pairs_cons. simpl. rewrite app_nil_r. split; [by left|].
    intros [?|(-> & (n & Hn & ->)%elem_of_labels & Hanc)]; [done|].
    specialize (Hno n Hn). simpl in *. congruence.
  - intros a Ha. apply (Hc a Ha).
Qed.

Lemma wf_add_child t h num d p x :
  wf_forest anc (roots t) → coherent t h num → fresh (roots t) h →
  node_at (roots t) p = Some x → anc (hash x) h = true →
  (∀ y, y ∈ forest (children x) → anc (hash y) h = false) →
  wf_forest anc (alter_at (push_leaf (MkNode h num d [])) (roots t) p).
Proof.
  intros Hwf Hc Hfresh Hx Ha Hdeep. set (leaf := MkNode h num d []).
  pose proof (node_at_elem p (roots t) x Hx) as Hin.
  apply (wf_add_leaf (roots t) _ (label leaf)); [done|..|done].
  - by apply (push_leaf_labels leaf eq_refl p _ x).
  - intros a b. rewrite (push_leaf_pairs leaf eq_refl p _ x Hx).
    rewrite elem_of_app, list_elem_of_fmap. split.
    + intros [(n & [= -> ->] & Hn)|?]; [|by left]. right.
      destruct (path_nodes_above p _ x n Hx Hn) as [Hnf Hor].
      split_and!; [done|apply elem_of_labels; eauto|]. simpl.
      destruct Hor as [->|Hxn]; [done|]. apply (anc_trans _ (hash x)); [|done].
      by apply (wf_below anc (roots t)).
    + intros [?|(-> & (n & Hn & ->)%elem_of_labels & Hanc)]; [by right|left].
      exists n. split; [done|].
      apply (above_path_nodes p (roots t) x); [by apply (wf_NoDup_forest anc)|done..|].
      destruct (ancestors_chain anc (roots t) Hwf h x n) as [->|[Hb|Hb]];
        [done..|by left| |by right].
      specialize (Hdeep n Hb). simpl in *. congruence.
  - intros a Ha'. apply (Hc a Ha').
Qed.

(** The tree that [import] leaves after the push, rebalanced or not. *)
Lemma import_finish t h num d rs' (b : bool) :
  wf_tree anc t → reverts t num = false →
  labels rs' ≡ₚ (h, num, d) :: labels (roots t) → wf_forest anc rs' →
  let t' := if b then rebalance (set_roots t rs') else set_roots t rs' in
  wf_tree anc t' ∧ labels (roots t') ≡ₚ (h, num, d) :: labels (roots t) ∧
  best_finalized_number t' = best_finalized_number t.
Proof.
  intros [Hwf Hbest] Hrev Hl Hw t'.
  assert (labels (roots t') ≡ₚ (h, num, d) :: labels (roots t)) as Hl'.
  { unfold t'. destruct b; simpl; [|done]. by rewrite rebalance_labels. }
  assert (best_finalized_number t' = best_finalized_number t) as Hb by by destruct b.
  split_and!; [|done..]. split.
  - unfold t'. destruct b; simpl; [by apply wf_rebalance|done].
  - intros l best. rewrite Hl', Hb. intros [->|Hin]%elem_of_cons Hbst; [|by apply (Hbest l best)].
    unfold reverts in Hrev. rewrite Hbst in Hrev. simpl. lia.
Qed.

(** A block that is new to the tree is imported below its deepest ancestor. *)
Lemma import_new t h num d :
  wf_tree anc t → coherent t h num → reverts t num = false → fresh (roots t) h →
  ∃ t' is_root, import is_descendent_of t h num d = Ret (t', Ok is_root) ∧
    wf_tree anc t' ∧ labels (roots t') ≡ₚ (h, num, d) :: labels (roots t) ∧
    best_finalized_number t' = best_finalized_number t ∧
    (is_root = true ↔ ∀ l, l ∈ labels (roots t) → anc l.1.1 h = false).
Proof.
  intros Hwt Hc Hrev Hfresh. pose proof Hwt as [Hwf _]. unfold import. rewrite Hrev.
  assert (∀ n, n ∈ forest (roots t) → hash n ≠ h) as Hne.
  { intros n Hn. apply (Hfresh (label n)), elem_of_labels. eauto. }
  destruct (find_parent t h num Hwf Hc) as [[-> Hno]|(p & x & -> & Hx & Hin & Ha & Hdeep)];
    cbn [mbind outcome_bind]; [|rewrite Hx; cbn [unwrap mbind outcome_bind]].
  - destruct (existsb _ (roots t)) eqn:Hex.
    { apply existsb_hash in Hex as (e & He & Heh). by destruct (Hne e (root_in_forest _ _ He)). }
    eexists _, true. split; [done|].
    destruct (import_finish t h num d (roots t ++ [MkNode h num d []])
      (bool_decide (length (roots t ++ [MkNode h num d []]) = 1%nat))) as (? & ? & ?);
      [done..| |by apply wf_add_root|].
    { rewrite labels_app, labels_leaf by done. by rewrite Permutation_app_comm. }
    split_and!; [done..|]. split; [|done].
    intros _ l (n & Hn & ->)%elem_of_labels. by apply Hno.
  - destruct (existsb _ (children x)) eqn:Hex.
    { apply existsb_hash in Hex as (e & He & Heh).
      by destruct (Hne e (children_in_forest _ _ _ Hin He)). }
    eexists _, false. split; [done|].
    destruct (import_finish t h num d (alter_at (push_leaf (MkNode h num d [])) (roots t) p)
      (bool_decide (length (children x ++ [MkNode h num d []]) = 1%nat))) as (? & ? & ?);
      [done..| |by eapply wf_add_child|].
    { by apply (push_leaf_labels (MkNode h num d []) eq_refl p _ x). }
    split_and!; [done..|]. split; [done|].
    intros Hall. assert (label x ∈ labels (roots t)) as Hlx by (apply elem_of_labels; eauto).
    specialize (Hall _ Hlx). simpl in *. congruence.
Qed.

(** A block that is in the tree already is refused. *)
Lemma import_known t h num d e :
  wf_tree anc t → coherent t h num → e ∈ forest (roots t) → hash e = h →
  import is_descendent_of t h num d = Ret (t, Err Duplicate).
Proof.
  intros [Hwf Hbest] Hc He Heh.
  assert (label e ∈ labels (roots t)) as Hle by (apply elem_of_labels; eauto).
  assert (number e = num) as Hnum by (by apply (Hc _ Hle)).
  assert (reverts t num = false) as Hrev.
  { unfold reverts. destruct (best_finalized_number t) as [b|] eqn:Hb; [|done].
    specialize (Hbest _ b Hle Hb). simpl in Hbest. lia. }
  unfold import. rewrite Hrev.
  destruct (find_parent t h num Hwf Hc) as [[-> Hno]|(p & x & -> & Hx & Hin & Ha & Hdeep)];
    cbn [mbind outcome_bind]; [|rewrite Hx; cbn [unwrap mbind outcome_bind]].
  - assert (existsb (λ elem, bool_decide (hash elem = h)) (roots t) = true) as ->; [|done].
    apply existsb_hash. exists e. split; [|done].
    apply elem_of_forest in He as (r & Hr & He). rewrite subtree_unfold in He.
    apply elem_of_cons in He as [->|He]; [done|].
    pose proof (wf_below anc _ r e Hwf (root_in_forest _ _ Hr) He) as [Hre _].
    specialize (Hno r (root_in_forest _ _ Hr)). congruence.
  - assert (existsb (λ elem, bool_decide (hash elem = h)) (children x) = true) as ->; [|done].
    apply existsb_hash. exists e. split; [|done].
    assert (e ∈ forest (children x)) as Hex.
    { apply (wf_below_intro anc (roots t)); [done..|congruence]. }
    apply elem_of_forest in Hex as (r & Hr & Her). rewrite subtree_unfold in Her.
    apply elem_of_cons in Her as [->|Her]; [done|].
    assert (r ∈ forest (children x)) as Hrx by by apply root_in_forest.
    pose proof (wf_below anc _ r e Hwf (elem_of_forest_children _ _ _ Hin Hrx) Her) as [Hre _].
    specialize (Hdeep r Hrx). congruence.
Qed.
End import.

(** ** Finalization *)

Section finalize.
Context {H V E : Type} `{EqDecision H} (anc : H → H → bool) `{!Ancestry anc}.
Context (is_descendent_of : H → H → result bool E).
Implicit Types (n x y r : Node H V) (rs : list (Node H V)) (t : ForkTree H V).

Lemma finalize_root_at_spec t i r :
  roots t !! i = Some r →
  finalize_root_at t i = Ret (MkForkTree (children r) (Some (number r)), data r).
Proof.
  intros Hi. unfold finalize_root_at.
  destruct (swap_remove_is_Some i (roots t)) as [[r' rs'] Hs]; [by eapply lookup_lt_Some|].
  rewrite Hs. simpl. apply swap_remove_perm in Hs as [Hi' _]. by simplify_eq.
Qed.

Lemma finalize_root_spec t h :
  (∃ r, r ∈ roots t ∧ hash r = h ∧
     finalize_root t h = Ret (MkForkTree (children r) (Some (number r)), Some (data r))) ∨
  ((∀ r, r ∈ roots t → hash r ≠ h) ∧ finalize_root t h = Ret (t, None)).
Proof.
  unfold finalize_root. destruct (position _ _) as [i|] eqn:Hp.
  - left. apply position_Some in Hp as (r & Hi & Hr & _). exists r.
    apply bool_decide_eq_true in Hr. split_and!; [by eapply list_elem_of_lookup_2|done|].
    by rewrite (finalize_root_at_spec t i r).
  - right. split; [|done]. intros r Hr. rewrite position_None in Hp.
    specialize (Hp r Hr). by apply bool_decide_eq_false in Hp.
Qed.

(** The loop that keeps roots only ever keeps some of them, in order. *)
Lemma retain_roots_sublist keep rs kept changed ks res :
  retain_roots keep rs kept changed = (ks, res : result bool (Error E)) →
  ∃ ks', ks = kept ++ ks' ∧ ks' `sublist_of` rs ∧
    (∀ r, r ∈ ks' → keep r = Ok true) ∧
    (∀ b, res = Ok b → ∀ r, r ∈ rs → r ∈ ks' ∨ keep r = Ok false).
Proof.
  revert kept changed. induction rs as [|r rs IH]; intros kept changed; simpl.
  { intros [= <- <-]. exists []. rewrite app_nil_r.
    split_and!; [done|constructor|set_solver..]. }
  destruct (keep r) as [[]|e] eqn:Hk.
  - intros (ks' & -> & Hsub & Hkept & Hall)%IH. exists (r :: ks').
    rewrite <-app_assoc. split_and!; [done|by constructor|set_solver|set_solver].
  - intros (ks' & -> & Hsub & Hkept & Hall)%IH. exists ks'.
    split_and!; [done|by constructor|done|]. intros b -> r' [->|Hr]%elem_of_cons; [by right|].
    by eapply Hall.
  - intros [= <- <-]. exists []. rewrite app_nil_r.
    split_and!; [done|apply sublist_nil_l|set_solver|done].
Qed.

Lemma sublist_forest rs rs' : rs' `sublist_of` rs → forest rs' `sublist_of` forest rs.
Proof.
  induction 1 as [|r l1 l2 _ IH|r l1 l2 _ IH]; [done|..]; rewrite ?forest_cons.
  - by apply sublist_skip, sublist_app.
  - apply sublist_cons, sublist_inserts_l. done.
Qed.

Lemma wf_sublist rs rs' : wf_forest anc rs → rs' `sublist_of` rs → wf_forest anc rs'.
Proof.
  intros Hwf Hsub. apply sublist_forest in Hsub. apply (wf_sub anc rs); [done|..].
  - intros n Hn. by eapply elem_of_sublist.
  - eapply sublist_NoDup; [|done]. by apply (wf_NoDup_forest anc).
Qed.

Lemma wf_children rs r : wf_forest anc rs → r ∈ forest rs → wf_forest anc (children r).
Proof.
  intros Hwf Hr. apply (wf_sub anc rs); [done|..].
  - intros n. by apply elem_of_forest_children.
  - eapply NoDup_forest_children; [|done]. by apply (wf_NoDup_forest anc).
Qed.

(** What is left below a finalized root lies above it. *)
Lemma wf_tree_children t r :
  wf_tree anc t → r ∈ forest (roots t) →
  wf_tree anc (MkForkTree (children r) (Some (number r))).
Proof.
  intros [Hwf _] Hr. split; [by apply (wf_children (roots t))|].
  intros l best (n & Hn & ->)%elem_of_labels [= <-].
  by apply (wf_below anc (roots t) r n).
Qed.

Lemma wf_tree_kept t rs' best :
  wf_tree anc t → rs' `sublist_of` roots t →
  (∀ r b, r ∈ rs' → best = Some b → best_finalized_number t = Some b ∨ b < number r) →
  wf_tree anc (MkForkTree rs' best).
Proof.
  intros [Hwf Hbest] Hsub Hkept. split; [by apply (wf_sublist (roots t))|].
  intros l b Hl Hb. simpl in *.
  apply elem_of_labels in Hl as (n & Hn & ->).
  apply elem_of_forest in Hn as (r & Hr & Hn).
  assert (r ∈ roots t) as Hrt by by eapply elem_of_sublist.
  assert (number r ≤ number n) as Hle.
  { rewrite subtree_unfold in Hn. apply elem_of_cons in Hn as [->|Hn]; [lia|].
    pose proof (wf_below anc _ r n Hwf (root_in_forest _ _ Hrt) Hn). lia. }
  destruct (Hkept r b Hr Hb) as [Hold|Hlt]; [|simpl; lia].
  assert (label r ∈ labels (roots t)) as Hlr.
  { apply elem_of_labels. eauto using root_in_forest. }
  specialize (Hbest _ b Hlr Hold). simpl in *. lia.
Qed.

(** [finalize] keeps the invariant whatever the client answers, errors
    included. *)
Lemma finalize_keeps_wf t h num t' res :
  wf_tree anc t → finalize is_descendent_of t h num = Ret (t', res) → wf_tree anc t'.
Proof.
  intros Hwf. unfold finalize. destruct (reverts t num); [by intros [= <- _]|].
  destruct (finalize_root_spec t h) as [(r & Hr & Hh & ->)|[Hno ->]]; simpl.
  { intros [= <- _]. by apply (wf_tree_children t), root_in_forest. }
  destruct (check_not_descendent _ _ _ _) as [u|e]; [|by intros [= <- _]].
  destruct (retain_roots _ _ _ _) as [ks rr] eqn:Hret.
  apply retain_roots_sublist in Hret as (ks' & -> & Hsub & Hkept & Hall). simpl.
  destruct rr as [ch|e]; intros [= <- _].
  - apply (wf_tree_kept t); [done..|]. intros r b Hr [= <-]. right.
    specialize (Hkept r Hr). unfold finalize_keep in Hkept.
    destruct (Z.ltb_spec num (number r)); [done|congruence].
  - apply (wf_tree_kept t); [done..|]. intros r b Hr Hb. by left.
Qed.

(** From here on the client knows the ancestry. *)
Hypothesis client_answers : ∀ a b, is_descendent_of a b = Ok (anc a b).

(** The forest [rs'] holds exactly the descendants of [h] among [rs]. *)
Definition descendants_of (h : H) rs rs' : Prop :=
  ∀ n, n ∈ forest rs' ↔ n ∈ forest rs ∧ anc h (hash n) = true.

Lemma children_descendants rs r :
  wf_forest anc rs → r ∈ forest rs → descendants_of (hash r) rs (children r).
Proof.
  intros Hwf Hr n. split.
  - intros Hn. split; [by apply (elem_of_forest_children r)|].
    by apply (wf_below anc rs r n).
  - intros [Hn Ha]. by apply (wf_below_intro anc rs).
Qed.

(** Above a node that descends from [h], in the tree: a descendant of [h],
    [h] itself, or an ancestor of it. *)
Lemma root_of_descendant rs r n h :
  wf_forest anc rs → r ∈ forest rs → n ∈ subtree r → anc h (hash n) = true →
  hash r = h ∨ anc h (hash r) = true ∨ anc (hash r) h = true.
Proof.
  intros Hwf Hr. rewrite subtree_unfold. intros [->|Hn]%elem_of_cons Ha; [eauto|].
  pose proof (wf_below anc rs r n Hwf Hr Hn) as [Hrn _].
  destruct (anc_linear _ _ _ Ha Hrn) as [->|[?|?]]; eauto.
Qed.

Lemma check_not_descendent_spec t h num rs :
  coherent anc t h num → (∀ r, r ∈ rs → r ∈ roots t) →
  check_not_descendent is_descendent_of h num rs =
  if existsb (λ r, anc (hash r) h) rs then Err UnfinalizedAncestor else Ok tt.
Proof.
  intros Hc. induction rs as [|r rs IH]; intros Hsub; simpl; [done|].
  rewrite client_answers, IH by set_solver.
  destruct (anc (hash r) h) eqn:Ha; simpl; destruct (Z.ltb_spec (number r) num); try done.
  pose proof (coherent_below anc t h num r Hc) as Hlt.
  specialize (Hlt ltac:(apply root_in_forest; set_solver) Ha). lia.
Qed.

(** A finalization that went through: the invariant holds, [num] is the last
    finalized number and exactly the descendants of the block remain. *)
Definition finalized t (h : H) (num : Z) t' : Prop :=
  wf_tree anc t' ∧ best_finalized_number t' = Some num ∧
  descendants_of h (roots t) (roots t').

Lemma finalized_root t h num r :
  wf_tree anc t → coherent anc t h num → r ∈ forest (roots t) → hash r = h →
  finalized t h num (MkForkTree (children r) (Some (number r))).
Proof.
  intros Hwf Hc Hr Hh. split_and!.
  - by apply (wf_tree_children t).
  - simpl. f_equal. assert (label r ∈ labels (roots t)) as Hl by (apply elem_of_labels; eauto).
    by apply (Hc (label r)).
  - subst h. apply children_descendants; [apply Hwf|done].
Qed.

(** [coherent] for a descendant of the block. *)
Lemma coherent_above t h num n :
  coherent anc t h num → n ∈ forest (roots t) → anc h (hash n) = true → num < number n.
Proof. intros Hc Hn. apply (Hc (label n)). apply elem_of_labels. eauto. Qed.

(** No root is above another one. *)
Lemma roots_incomparable rs r r' :
  wf_forest anc rs → r ∈ rs → r' ∈ rs → anc (hash r') (hash r) = false.
Proof.
  intros Hwf Hr Hr'. destruct (anc (hash r') (hash r)) eqn:Ha; [exfalso|done].
  assert (r ∈ forest (children r')) as Hin.
  { apply (wf_below_intro anc rs); [done|by apply root_in_forest..|done]. }
  apply list_elem_of_split in Hr as (l1 & l2 & Hsplit).
  pose proof (wf_NoDup_forest anc _ Hwf) as Hnd. rewrite Hsplit in Hnd, Hr'.
  assert (r ∈ subtree r) as Hrr by (rewrite subtree_unfold; left).
  destruct (NoDup_forest_split _ _ _ _ Hnd Hrr) as [H1 H2].
  apply elem_of_app in Hr' as [Hr'|[->|Hr']%elem_of_cons].
  - apply H1. apply (elem_of_forest_children r'); [by apply root_in_forest|done].
  - by rewrite anc_irrefl in Ha.
  - apply H2. apply (elem_of_forest_children r'); [by apply root_in_forest|done].
Qed.

Lemma retain_roots_ok h num rs kept changed :
  ∃ ks ch, retain_roots (finalize_keep is_descendent_of h num) rs kept changed =
    (ks, Ok ch : result bool (Error E)).
Proof.
  revert kept changed. induction rs as [|r rs IH]; intros kept changed; simpl; [eauto|].
  unfold finalize_keep at 1. rewrite client_answers.
  destruct (num <? number r), (anc h (hash r)); apply IH.
Qed.

Lemma finalize_keep_spec t h num r :
  coherent anc t h num → r ∈ roots t →
  finalize_keep is_descendent_of h num r = Ok (anc h (hash r)).
Proof.
  intros Hc Hr. unfold finalize_keep. rewrite client_answers.
  destruct (Z.ltb_spec num (number r)); [done|].
  destruct (anc h (hash r)) eqn:Ha; [|done].
  pose proof (coherent_above t h num r Hc (root_in_forest _ _ Hr) Ha). lia.
Qed.

(** Keeping the roots that descend from [h] keeps all its descendants, when
    no root is [h] or above it. *)
Lemma kept_descendants rs rs' h :
  wf_forest anc rs → (∀ r, r ∈ rs → hash r ≠ h ∧ anc (hash r) h = false) →
  rs' `sublist_of` rs → (∀ r, r ∈ rs' → anc h (hash r) = true) →
  (∀ r, r ∈ rs → r ∈ rs' ∨ anc h (hash r) = false) →
  descendants_of h rs rs'.
Proof.
  intros Hwf Hno Hsub Hkept Hall n. split.
  - intros Hn. split; [by eapply elem_of_sublist; [|apply sublist_forest]|].
    apply elem_of_forest in Hn as (r & Hr & Hn). specialize (Hkept r Hr).
    rewrite subtree_unfold in Hn. apply elem_of_cons in Hn as [->|Hn]; [done|].
    apply (anc_trans _ (hash r)); [done|]. apply (wf_below anc rs r n); [done| |done].
    apply root_in_forest. by eapply elem_of_sublist.
  - intros [(r & Hr & Hn)%elem_of_forest Ha]. apply elem_of_forest. exists r.
    split; [|done]. destruct (Hall r Hr) as [|Hd]; [done|]. exfalso.
    destruct (Hno r Hr).
    destruct (root_of_descendant rs r n h) as [|[|]]; try done; [|congruence..].
    by apply root_in_forest.
Qed.

Lemma finalize_cases t h num :
  wf_tree anc t → coherent anc t h num → reverts t num = false →
  if existsb (λ r, anc (hash r) h) (roots t)
  then finalize is_descendent_of t h num = Ret (t, Err UnfinalizedAncestor)
  else ∃ t' res, finalize is_descendent_of t h num = Ret (t', Ok res) ∧ finalized t h num t'.
Proof.
  intros Hwt Hc Hrev. pose proof Hwt as [Hwf _].
  pose proof (finalize_keeps_wf t h num) as Hkeep. revert Hkeep.
  unfold finalize. rewrite Hrev. intros Hkeep.
  destruct (finalize_root_spec t h) as [(r & Hr & Hh & Hfin)|[Hno Hfin]];
    rewrite Hfin in *; cbn [mbind outcome_bind] in *.
  { assert (existsb (λ r, anc (hash r) h) (roots t) = false) as ->.
    { apply not_true_iff_false. intros (r' & Hr' & Ha)%existsb_exists.
      apply list_elem_of_In in Hr'. subst h.
      pose proof (roots_incomparable _ r r' Hwf Hr Hr'). congruence. }
    eexists _, _. split; [done|]. by apply finalized_root; [..|apply root_in_forest|]. }
  rewrite (check_not_descendent_spec t) in * by done.
  destruct (existsb _ (roots t)) eqn:Hex; [done|].
  destruct (retain_roots_ok h num (roots t) [] false) as (ks & ch & Hret). rewrite Hret in *.
  eexists _, _. split; [done|]. split_and!; [by eapply Hkeep|done|]. simpl.
  apply retain_roots_sublist in Hret as (ks' & -> & Hsub & Hkept & Hall). simpl in *.
  apply kept_descendants; [done| |done|..].
  - intros r Hr. split; [by apply Hno|]. apply not_true_iff_false. intros Ha.
    apply not_true_iff_false in Hex. apply Hex, existsb_exists. exists r.
    by rewrite <-list_elem_of_In.
  - intros r Hr. specialize (Hkept r Hr). rewrite (finalize_keep_spec t) in Hkept; [congruence|done|].
    by eapply elem_of_sublist.
  - intros r Hr. destruct (Hall ch eq_refl r Hr) as [|Hk]; [by left|right].
    rewrite (finalize_keep_spec t) in Hk by done. congruence.
Qed.

(** The loop of [finalize_with_ancestors]: what it has opened or dropped so far
    holds no descendant of [h]; the roots before [idx] descend from it. *)
Definition fwa_inv t (h : H) (st : list (Node H V) * nat * bool) : Prop :=
  let '(rs, idx, _) := st in
  wf_forest anc rs ∧ (idx ≤ length rs)%nat ∧
  (∀ n, n ∈ forest rs → n ∈ forest (roots t)) ∧
  (∀ n, n ∈ forest (roots t) → hash n = h ∨ anc h (hash n) = true → n ∈ forest rs) ∧
  (∀ r, r ∈ take idx rs → anc h (hash r) = true).

Definition fwa_measure (st : list (Node H V) * nat * bool) : nat :=
  let '(rs, idx, _) := st in sum_list_with node_size (drop idx rs).

Lemma forest_elem_perm rs rs' n : rs ≡ₚ rs' → n ∈ forest rs ↔ n ∈ forest rs'.
Proof. intros Hp. by rewrite (forest_perm _ _ Hp). Qed.

Lemma wf_perm rs rs' : rs ≡ₚ rs' → wf_forest anc rs → wf_forest anc rs'.
Proof.
  intros Hp Hwf. apply (wf_sub anc rs); [done|..].
  - intros n. by rewrite (forest_perm _ _ Hp).
  - rewrite <-(forest_perm _ _ Hp). by apply (wf_NoDup_forest anc).
Qed.

(** Opening the root [root]: its children take its place. *)
Lemma wf_open_root root rs : wf_forest anc (root :: rs) → wf_forest anc (rs ++ children root).
Proof.
  intros Hwf. pose proof (wf_NoDup_forest anc _ Hwf) as Hnd.
  rewrite forest_cons in Hnd. apply NoDup_cons in Hnd as [_ Hnd].
  apply (wf_sub anc (root :: rs)); [done|..].
  - intros n. rewrite forest_app, forest_cons. set_solver.
  - rewrite forest_app, Permutation_app_comm. done.
Qed.

Lemma fwa_remove_inv t h num rs idx ch root rs' (open : bool) :
  coherent anc t h num → fwa_inv t h (rs, idx, ch) →
  swap_remove idx rs = Some (root, rs') →
  hash root ≠ h → anc h (hash root) = false → anc (hash root) h = open →
  fwa_inv t h (if open then rs' ++ children root else rs', idx, true).
Proof.
  intros Hc (Hwf & Hidx & Hsub & Hall & Htake) Hs Hne Hnd Hanc.
  pose proof (swap_remove_take _ _ _ _ Hs) as Ht.
  pose proof (swap_remove_drop _ _ _ _ Hs) as Hd.
  apply swap_remove_perm in Hs as [Hi Hp].
  assert (idx ≤ length rs')%nat as Hidx'.
  { apply lookup_lt_Some in Hi. apply Permutation_length in Hp. simpl in Hp. lia. }
  assert (take idx (if open then rs' ++ children root else rs') = take idx rs) as Htk.
  { destruct open; [rewrite take_app_le by done|]; done. }
  assert (∀ n, n ∈ forest rs ↔ n = root ∨ n ∈ forest (children root) ∨ n ∈ forest rs') as Hin.
  { intros n. rewrite (forest_elem_perm _ _ _ Hp), forest_cons.
    rewrite elem_of_cons, elem_of_app. done. }
  split_and!.
  - apply (wf_perm _ _ Hp) in Hwf. destruct open; [by apply wf_open_root|].
    apply (wf_sublist (root :: rs')); [done|]. by constructor.
  - destruct open; [rewrite length_app|]; lia.
  - intros n Hn. apply Hsub, Hin. destruct open; [rewrite forest_app in Hn|]; set_solver.
  - intros n Hn Hor. apply (Hall n Hn) in Hor as Hrs. apply Hin in Hrs.
    destruct Hrs as [->|[Hb|Hr]]; [by destruct Hor; congruence| |].
    + destruct open; [rewrite forest_app; set_solver|]. exfalso.
      assert (root ∈ forest rs) as Hroot by (apply Hin; by left).
      destruct Hor as [<-|Ha].
      * pose proof (wf_below anc rs root n Hwf Hroot Hb). naive_solver congruence.
      * destruct (root_of_descendant rs root n h) as [|[|]]; try done; [|congruence..].
        rewrite subtree_unfold. by right.
    + destruct open; [rewrite forest_app; set_solver|done].
  - rewrite Htk. done.
Qed.

(** Everything below the roots that are left descends from [h]. *)
Lemma below_descends rs h r n :
  wf_forest anc rs → (∀ r, r ∈ rs → anc h (hash r) = true) →
  r ∈ rs → n ∈ subtree r → anc h (hash n) = true.
Proof.
  intros Hwf Hrs Hr. rewrite subtree_unfold. intros [->|Hn]%elem_of_cons; [by apply Hrs|].
  apply (anc_trans _ (hash r)); [by apply Hrs|].
  by apply (wf_below anc rs r n); [|apply root_in_forest|].
Qed.

Lemma fwa_exit t h num rs idx ch :
  coherent anc t h num → fwa_inv t h (rs, idx, ch) → rs !! idx = None →
  finalized t h num (MkForkTree rs (Some num)).
Proof.
  intros Hc (Hwf & Hidx & Hsub & Hall & Htake) Hi.
  rewrite take_ge in Htake by (by apply lookup_ge_None).
  split_and!; simpl; [split; [done|]|done|].
  - intros l best (n & Hn & ->)%elem_of_labels [= <-]. simpl.
    apply (coherent_above t h num); [done|by apply Hsub|].
    apply elem_of_forest in Hn as (r & Hr & Hn). by eapply below_descends.
  - intros n. split.
    + intros Hn. split; [by apply Hsub|].
      apply elem_of_forest in Hn as (r & Hr & Hn). by eapply below_descends.
    + intros [Hn Ha]. apply Hall; eauto.
Qed.

(** An iteration on a root that is not [h] moves on, opens it or drops it. *)
Lemma fwa_step_root t h num rs idx ch root :
  coherent anc t h num → fwa_inv t h (rs, idx, ch) →
  rs !! idx = Some root → hash root ≠ h →
  ∃ st, fwa_step is_descendent_of t h num (rs, idx, ch) = Ret (inl st) ∧
    fwa_inv t h st ∧ (fwa_measure st < fwa_measure (rs, idx, ch))%nat.
Proof.
  intros Hc Hinv Hi Hh. pose proof Hinv as (Hwf & Hidx & Hsub & Hall & Htake).
  assert (root ∈ forest (roots t)) as Hroot.
  { apply Hsub, root_in_forest. by eapply list_elem_of_lookup_2. }
  unfold fwa_step. rewrite Hi, (bool_decide_eq_false_2 _ Hh). simpl. rewrite !client_answers.
  rewrite (drop_S _ _ _ Hi). simpl. rewrite node_size_unfold.
  destruct (anc h (hash root)) eqn:Hd.
  { rewrite (proj2 (Z.ltb_lt _ _) (coherent_above t h num root Hc Hroot Hd)). simpl.
    eexists. split; [done|]. split; [|simpl; lia].
    split_and!; [done|by apply lookup_lt_Some in Hi|done..|].
    intros r. rewrite (take_S_r _ _ _ Hi). set_solver. }
  assert ((if num <? number root then Ok false else Ok false) = Ok false :> result bool E)
    as -> by by destruct (num <? number root). simpl.
  destruct (swap_remove_is_Some idx rs) as [[root' rs'] Hs]; [by eapply lookup_lt_Some|].
  pose proof (swap_remove_perm _ _ _ _ Hs) as [Hi' Hp]. simplify_eq.
  pose proof (swap_remove_drop _ _ _ _ Hs) as Hdrop. rewrite (drop_S _ _ _ Hi) in Hdrop.
  apply Permutation_cons_inv in Hdrop. apply (sum_list_with_perm node_size) in Hdrop.
  pose proof (fwa_remove_inv t h num rs idx ch root rs' (anc (hash root) h)
    Hc Hinv Hs Hh Hd eq_refl) as Hinv'.
  rewrite Hs. simpl. destruct (anc (hash root) h) eqn:Ha.
  - rewrite (proj2 (Z.ltb_lt _ _) (coherent_below anc t h num root Hc Hroot Ha)).
    eexists. split; [done|]. split; [done|]. simpl.
    apply lookup_lt_Some in Hi. apply Permutation_length in Hp. simpl in Hp.
    rewrite drop_app_le, sum_list_with_app by lia. lia.
  - assert ((if number root <? num then Ok false else Ok false) = Ok false :> result bool E)
      as -> by by destruct (number root <? num).
    eexists. split; [done|]. split; [done|]. simpl. lia.
Qed.

Lemma fwa_loop_spec t h num :
  wf_tree anc t → coherent anc t h num →
  ∃ t' res, loop (S (sum_list_with node_size (roots t))) (fwa_step is_descendent_of t h num)
    (roots t, 0%nat, false) = Ret (t', Ok res) ∧ finalized t h num t'.
Proof.
  intros Hwt Hc.
  destruct (loop_total (fwa_step is_descendent_of t h num) (fwa_inv t h) fwa_measure
    (λ out, ∃ res, out.2 = Ok res ∧ finalized t h num out.1))
    with (fuel := S (sum_list_with node_size (roots t)))
         (s := (roots t, 0%nat, false)) as ([t' out] & -> & res & Hres & Hfin).
  - intros [[rs idx] ch] Hinv. destruct (rs !! idx) as [root|] eqn:Hi.
    + destruct (decide (hash root = h)) as [Hh|Hh]; [right|left; by eapply fwa_step_root].
      unfold fwa_step. rewrite Hi, (bool_decide_eq_true_2 _ Hh). simpl.
      rewrite (finalize_root_at_spec (set_roots t rs) idx root) by done. simpl.
      eexists. split; [done|]. simpl. eexists. split; [done|].
      destruct Hinv as (_ & _ & Hsub & _). apply finalized_root; [done..| |done].
      apply Hsub, root_in_forest. by eapply list_elem_of_lookup_2.
    + right. unfold fwa_step. rewrite Hi. eexists. split; [done|]. simpl.
      eexists. split; [done|]. by eapply fwa_exit.
  - split_and!; [apply Hwt|lia|done..|set_solver].
  - unfold fwa_measure. rewrite drop_0. apply Nat.lt_succ_diag_r.
  - simpl in *. subst out. eauto.
Qed.
End finalize.

(** ** Pruning *)

Section prune.
Context {H V E : Type} `{EqDecision H} (anc : H → H → bool) `{!Ancestry anc}.
Context (is_descendent_of : H → H → result bool E).
Implicit Types (n x y r : Node H V) (rs : list (Node H V)) (t : ForkTree H V).

Lemma remove_at_cons rs i p :
  remove_at rs (i :: p) =
  match p with
  | [] => vec_remove i rs
  | _ => c ← rs !! i; '(r, cs) ← remove_at (children c) p;
         Some (r, <[i:=set_children c cs]> rs)
  end.
Proof. done. Qed.

Lemma label_set_children n cs : label (set_children n cs) = label n.
Proof. by destruct n. Qed.

Lemma children_set_children n cs : children (set_children n cs) = cs.
Proof. by destruct n. Qed.

(** Cutting out the node at a path leaves all the other nodes. *)
Lemma remove_at_labels p rs x :
  node_at rs p = Some x →
  ∃ rs', remove_at rs p = Some (x, rs') ∧ labels rs ≡ₚ labels [x] ++ labels rs'.
Proof.
  revert rs. induction p as [|i p IH]; intros rs; [done|].
  rewrite node_at_cons, remove_at_cons. destruct (rs !! i) as [c|] eqn:Hi; [|done].
  cbn [mbind option_bind]. destruct p as [|j p].
  - intros [= ->]. unfold vec_remove. rewrite Hi. eexists. split; [done|].
    rewrite <-labels_app. simpl. by rewrite <-(delete_Permutation _ _ _ Hi).
  - intros Hx. destruct (IH (children c) Hx) as (cs' & Hrem & Hl). rewrite Hrem. simpl.
    eexists. split; [done|].
    rewrite <-(take_drop_middle rs i c Hi) at 1.
    rewrite insert_take_drop by (by eapply lookup_lt_Some).
    rewrite !labels_app, !labels_cons, label_set_children, children_set_children, Hl.
    rewrite !labels_cons. simpl. solve_Permutation.
Qed.

Lemma prune_children_split h num (cs : list (Node H V)) is_first kept removed kept' removed' :
  prune_children is_descendent_of h num cs is_first kept removed =
    Ok (kept', removed') →
  ∃ ks, kept' = kept ++ ks ∧ ks `sublist_of` cs ∧
    (length ks ≤ if is_first then 1 else 0)%nat ∧
    kept' ++ removed' ≡ₚ kept ++ removed ++ cs.
Proof.
  revert is_first kept removed.
  induction cs as [|c cs IH]; intros is_first kept removed; simpl.
  { intros [= <- <-]. exists []. rewrite !app_nil_r.
    split_and!; [done|constructor|simpl; lia|done]. }
  destruct (if negb is_first then _ else _) as [[]|e] eqn:Hc; [| |done].
  - destruct is_first; [|done]. intros (ks & -> & Hsub & Hlen & Hp)%IH.
    exists (c :: ks). simpl in Hlen.
    split_and!; [by rewrite <-app_assoc|by constructor|simpl; lia|].
    rewrite Hp. solve_Permutation.
  - intros (ks & -> & Hsub & Hlen & Hp)%IH. exists ks.
    split_and!; [done|by constructor|done|]. rewrite Hp. solve_Permutation.
Qed.

Lemma wf_set_children rs x ks :
  wf_forest anc rs → x ∈ forest rs → ks `sublist_of` children x →
  wf_forest anc [set_children x ks].
Proof.
  intros Hwf Hx Hsub.
  pose proof (wf_sublist anc _ _ (wf_children anc rs x Hwf Hx) Hsub) as Hks.
  assert (∀ l, l ∈ labels ks → anc (hash x) l.1.1 = true ∧ number x < l.1.2) as Hb.
  { intros l (n & Hn & ->)%elem_of_labels. apply (wf_below anc rs x n); [done..|].
    by eapply elem_of_sublist; [|apply sublist_forest]. }
  split.
  - intros a b. rewrite pairs_cons, label_set_children, children_set_children.
    rewrite !elem_of_app, list_elem_of_fmap.
    intros [(l & [= -> ->] & Hl)|[Hp|Hp]]; [by apply Hb|by apply (wf_pairs anc ks)|].
    by apply elem_of_nil in Hp.
  - intros a b. rewrite pairs_cons, labels_cons, label_set_children, children_set_children.
    rewrite !app_nil_r, !elem_of_cons, !elem_of_app, list_elem_of_fmap.
    intros [->|Ha] [->|Hb'] Hanc; simpl in *.
    + by rewrite anc_irrefl in Hanc.
    + left. eauto.
    + destruct (Hb a Ha) as [Ha' _].
      pose proof (anc_trans _ _ _ Hanc Ha') as Hl. by rewrite anc_irrefl in Hl.
    + right. by apply (wf_exact anc ks).
  - rewrite labels_cons, label_set_children, children_set_children, app_nil_r. simpl.
    constructor; [|apply (wf_unique anc ks Hks)].
    intros (l & Heq & Hl)%list_elem_of_fmap. destruct (Hb l Hl) as [Ha _].
    by rewrite <-Heq, anc_irrefl in Ha.
Qed.

Hypothesis client_answers : ∀ a b, is_descendent_of a b = Ok (anc a b).

Lemma prune_children_ok h num (cs : list (Node H V)) is_first kept removed :
  ∃ out, prune_children is_descendent_of h num cs is_first kept removed = Ok out.
Proof.
  revert is_first kept removed. induction cs as [|c cs IH]; intros is_first kept removed; simpl.
  { eauto. }
  rewrite client_answers.
  destruct is_first, (number c =? num), (bool_decide (hash c = h)), (number c <? num),
    (anc (hash c) h); apply IH.
Qed.

(** [prune] re-roots the tree at the deepest ancestor that passes the
    predicate; nothing is lost between the tree and the iterator. *)
Lemma prune_cases t h num predicate :
  wf_tree anc t → coherent anc t h num →
  (no_match anc h predicate (roots t) ∧
     prune is_descendent_of t h num predicate = Ret (t, Ok [])) ∨
  (∃ x ks t' out, deepest_match anc (roots t) h predicate x ∧
     prune is_descendent_of t h num predicate = Ret (t', Ok out) ∧
     t' = rebalance (set_roots t [set_children x ks]) ∧
     ks `sublist_of` children x ∧ (length ks ≤ 1)%nat ∧ wf_tree anc t' ∧
     labels (roots t') ++ out ≡ₚ labels (roots t)).
Proof.
  intros [Hwf Hbest] Hc. unfold prune, find_node_index_where. rewrite find_in_roots_spec.
  destruct (search_roots_meaning anc is_descendent_of client_answers (roots t) Hwf h num
    predicate) as [[-> Hnm]|(p & x & -> & Hx & Hd)].
  { intros n. by apply coherent_below. }
  { by left. }
  right. destruct (remove_at_labels p (roots t) x Hx) as (rs' & Hrem & Hl).
  cbn [mbind outcome_bind]. rewrite Hrem. cbn [unwrap mbind outcome_bind].
  destruct (prune_children_ok h num (children x) true [] rs') as [[kept removed] Hpc].
  rewrite Hpc, removed_iter_labels. cbn [mbind outcome_bind].
  apply prune_children_split in Hpc as (ks & -> & Hsub & Hlen & Hp). simpl in *.
  assert (labels [set_children x ks] ++ labels removed ≡ₚ labels (roots t)) as Hcons.
  { rewrite Hl, !labels_cons, label_set_children, children_set_children, !app_nil_r.
    simpl. f_equiv. rewrite <-!labels_app, Hp. by rewrite Permutation_app_comm. }
  exists x, ks. do 2 eexists. split_and!; [done..| |].
  - split; simpl.
    + apply wf_rebalance. apply (wf_set_children (roots t)); [done|apply Hd|done].
    + intros l best. simpl. rewrite rebalance_labels. intros Hin Hb.
      apply (Hbest l best); [|done]. rewrite <-Hcons. apply elem_of_app. by left.
  - unfold rebalance, set_roots. cbn [roots].
    by rewrite rebalance_labels, <-Permutation_rev.
Qed.
End prune.
