(* ===== verification/ForkTreeProps.v ===== *)
(** The properties of the fork tree, with a concrete chain (blocks named by
    the path from genesis) on which each of them is exercised. *)

From stdpp Require Import base list numbers sorting sets.
From S2P Require Import Prelude ForkTree ForkTreeSpec ForkTreeInv ForkTreeOps.

Local Open Scope Z_scope.

(** ** A concrete chain *)

(** A block is named by the forks taken from genesis; its ancestors are the
    strict prefixes of its name. *)
Definition path_anc (a b : list nat) : bool :=
  bool_decide (a `prefix_of` b) && negb (bool_decide (a = b)).

#[export] Instance path_ancestry : Ancestry path_anc.
Proof.
  split; unfold path_anc.
  - intros a. rewrite !bool_decide_eq_true_2 by done. done.
  - intros a b c. rewrite !andb_true_iff, !negb_true_iff, !bool_decide_eq_true,
      !bool_decide_eq_false.
    intros [Hab Hne] [Hbc _]. split; [by etrans|]. intros ->.
    apply Hne. by apply (anti_symm prefix).
  - intros a b c. rewrite !andb_true_iff, !negb_true_iff, !bool_decide_eq_true,
      !bool_decide_eq_false.
    intros [Ha _] [Hb _]. destruct (decide (a = b)) as [|Hne]; [by left|right].
    destruct (prefix_weak_total a b c Ha Hb); [left|right]; by split.
Qed.

Definition path_client (a b : list nat) : result bool unit := Ok (path_anc a b).

Lemma path_client_answers a b : path_client a b = Ok (path_anc a b).
Proof. done. Qed.

(** One root and, below it, two competing children. *)
Definition sample_root : Node (list nat) nat := MkNode [] 0 10%nat [].
Definition sample_tree : ForkTree (list nat) nat := MkForkTree [sample_root] None.

Lemma sample_wf : wf_tree path_anc sample_tree.
Proof.
  split; [|done]. split; simpl.
  - intros a b Hab. by apply elem_of_nil in Hab.
  - intros a b Ha Hb. apply list_elem_of_singleton in Ha, Hb. subst. done.
  - apply NoDup_singleton.
Qed.

Lemma sample_coherent h : coherent path_anc sample_tree (1%nat :: h) (1 + Z.of_nat (length h)).
Proof.
  intros l Hl. apply list_elem_of_singleton in Hl. subst. simpl. split_and!; [lia|done|done].
Qed.

(** ** Traversals *)

(** The stack loop of [Node::max_depth] returns the depth of the node, the
    length of the longest branch below it. *)
Theorem max_depth_is_depth {H V} (n : Node H V) :
  max_depth_loop n = Ret (depth n) ∧ max_depth n = depth n.
Proof. split; [apply max_depth_loop_depth|apply max_depth_depth]. Qed.

Lemma rebalance_node_depth {H V} (n : Node H V) : depth (rebalance_node n) = depth n.
Proof.
  induction n as [h k d cs IH] using Node_ind'. rewrite depth_unfold.
  rewrite (max_list_with_perm _ _ _ (rebalance_node_children _)), max_list_with_map. simpl.
  induction IH as [|c cs Hc _ IH]; simpl; [done|]. by rewrite Hc, IH.
Qed.

Lemma rebalance_roots_sorted {H V} (rs : list (Node H V)) :
  Sorted (λ a b, (depth b ≤ depth a)%nat) (rebalance_roots rs).
Proof.
  unfold rebalance_roots.
  assert (∀ p : nat * Node H V,
    p ∈ sort_by_key_desc fst (map (λ c, (max_depth c, rebalance_node c)) rs) →
    depth p.2 = p.1) as Hkey.
  { intros p. rewrite sort_by_key_desc_perm. intros (c & -> & _)%list_elem_of_fmap. simpl.
    by rewrite rebalance_node_depth, max_depth_depth. }
  pose proof (sort_by_key_desc_sorted fst
    (map (λ c, (max_depth c, rebalance_node c)) rs)) as Hs.
  induction Hs as [|p l Hs IH Hd]; simpl; constructor.
  - apply IH. intros q Hq. apply Hkey. by right.
  - destruct Hd as [|q l Hq]; simpl; constructor.
    rewrite !Hkey by set_solver. done.
Qed.

Lemma rebalance_node_sorted {H V} (n m : Node H V) :
  m ∈ subtree (rebalance_node n) →
  Sorted (λ a b, (depth b ≤ depth a)%nat) (children m).
Proof.
  induction n as [h k d cs IH] using Node_ind'. rewrite subtree_unfold.
  intros [->|Hm]%elem_of_cons; [apply (rebalance_roots_sorted cs)|].
  rewrite (forest_perm _ _ (rebalance_node_children _)) in Hm. simpl in Hm.
  apply elem_of_forest in Hm as (c' & (c & -> & Hc)%list_elem_of_fmap & Hm).
  rewrite Forall_forall in IH. by apply (IH c Hc).
Qed.

(** [ForkTree::rebalance] moves siblings only (the nodes and the relation
    between a node and the nodes below it stay the same) and afterwards the
    roots and the children of every node are ordered by decreasing depth. *)
Theorem rebalance_spec {H V} (t : ForkTree H V) :
  labels (roots (rebalance t)) ≡ₚ labels (roots t) ∧
  pairs (roots (rebalance t)) ≡ₚ pairs (roots t) ∧
  Sorted (λ a b, (depth b ≤ depth a)%nat) (roots (rebalance t)) ∧
  ∀ n, n ∈ forest (roots (rebalance t)) →
    Sorted (λ a b, (depth b ≤ depth a)%nat) (children n).
Proof.
  unfold rebalance, set_roots. cbn [roots].
  split_and!; [apply rebalance_labels|apply rebalance_pairs|apply rebalance_roots_sorted|].
  intros n. rewrite (forest_perm _ _ (rebalance_roots_perm _)).
  intros (c' & (c & -> & _)%list_elem_of_fmap & Hn)%elem_of_forest.
  by apply (rebalance_node_sorted c).
Qed.

(** [ForkTree::find_node_index_where] always returns, and its two nested
    loops over an explicit stack compute the recursive post-order search, for
    every answer of the client, errors included. *)
Theorem find_node_index_where_refines {H V E} (is_descendent_of : H → H → result bool E)
    (t : ForkTree H V) (target : H) (num : Z) (predicate : V → bool) :
  find_node_index_where is_descendent_of t target num predicate =
  Ret (search_roots is_descendent_of target num predicate 0 (roots t)).
Proof. apply find_in_roots_spec. Qed.

(** on a well-formed tree [ForkTree::find_node_where] returns, without a
    panic, the deepest ancestor of the target that passes the predicate, and
    [None] exactly when no ancestor of the target in the tree passes it. *)
Theorem find_node_where_deepest {H V E} `{EqDecision H} (anc : H → H → bool)
    `{!Ancestry anc} (is_descendent_of : H → H → result bool E)
    (t : ForkTree H V) (target : H) (num : Z) (predicate : V → bool) :
  (∀ a b, is_descendent_of a b = Ok (anc a b)) →
  wf_tree anc t → coherent anc t target num →
  (find_node_where is_descendent_of t target num predicate = Ret (Ok None) ∧
     no_match anc target predicate (roots t)) ∨
  (∃ x, find_node_where is_descendent_of t target num predicate = Ret (Ok (Some x)) ∧
     deepest_match anc (roots t) target predicate x).
Proof.
  intros Hans [Hwf _] Hc. unfold find_node_where, find_node_index_where.
  rewrite find_in_roots_spec.
  destruct (search_roots_meaning anc is_descendent_of Hans (roots t) Hwf target num
    predicate) as [[-> Hnm]|(p & x & -> & Hx & Hd)].
  - intros n. by apply coherent_below.
  - by left.
  - right. exists x. split; [|done]. simpl. by rewrite Hx.
Qed.

Lemma find_node_where_deepest_witness :
  (find_node_where path_client sample_tree [1%nat] 1 (λ _, true) = Ret (Ok None) ∧
     no_match path_anc [1%nat] (λ _, true) (roots sample_tree)) ∨
  (∃ x, find_node_where path_client sample_tree [1%nat] 1 (λ _, true) = Ret (Ok (Some x)) ∧
     deepest_match path_anc (roots sample_tree) [1%nat] (λ _, true) x).
Proof.
  apply (find_node_where_deepest path_anc path_client sample_tree [1%nat] 1 (λ _, true)).
  - exact path_client_answers.
  - exact sample_wf.
  - exact (sample_coherent []).
Defined.

(** ** Import *)

(** C33: importing a block that is new to a well-formed tree, after its
    ancestors and before its descendants, succeeds: the tree stays well formed
    and gains exactly that block, and the result says whether the block became
    a root, i.e. has no ancestor in the tree. *)
Theorem import_preserves_wf {H V E} `{EqDecision H} (anc : H → H → bool)
    `{!Ancestry anc} (is_descendent_of : H → H → result bool E)
    (t : ForkTree H V) (h : H) (num : Z) (d : V) :
  (∀ a b, is_descendent_of a b = Ok (anc a b)) →
  wf_tree anc t → coherent anc t h num → reverts t num = false → fresh anc (roots t) h →
  ∃ t' is_root, import is_descendent_of t h num d = Ret (t', Ok is_root) ∧
    wf_tree anc t' ∧ labels (roots t') ≡ₚ (h, num, d) :: labels (roots t) ∧
    best_finalized_number t' = best_finalized_number t ∧
    (is_root = true ↔ ∀ l, l ∈ labels (roots t) → anc l.1.1 h = false).
Proof. intros Hans. by apply import_new. Qed.

Lemma import_preserves_wf_witness :
  ∃ t' is_root, import path_client sample_tree [1%nat] 1 11%nat = Ret (t', Ok is_root) ∧
    wf_tree path_anc t' ∧
    labels (roots t') ≡ₚ ([1%nat], 1, 11%nat) :: labels (roots sample_tree) ∧
    best_finalized_number t' = best_finalized_number sample_tree ∧
    (is_root = true ↔
      ∀ l, l ∈ labels (roots sample_tree) → path_anc l.1.1 [1%nat] = false).
Proof.
  apply (import_preserves_wf path_anc path_client sample_tree [1%nat] 1 11%nat).
  - exact path_client_answers.
  - exact sample_wf.
  - exact (sample_coherent []).
  - reflexivity.
  - intros l Hl. apply list_elem_of_singleton in Hl. subst. split; done.
Defined.

(** importing a block the tree holds already, anywhere in it, is refused
    with [Duplicate] and changes nothing. *)
Theorem import_rejects_duplicate {H V E} `{EqDecision H} (anc : H → H → bool)
    `{!Ancestry anc} (is_descendent_of : H → H → result bool E)
    (t : ForkTree H V) (h : H) (num : Z) (d : V) :
  (∀ a b, is_descendent_of a b = Ok (anc a b)) →
  wf_tree anc t → coherent anc t h num → h ∈ map (λ l, l.1.1) (labels (roots t)) →
  import is_descendent_of t h num d = Ret (t, Err Duplicate).
Proof.
  intros Hans Hwf Hc Hin. rewrite labels_hashes in Hin.
  apply list_elem_of_fmap in Hin as (e & -> & He). by apply (import_known anc _ Hans) with e.
Qed.

Lemma import_rejects_duplicate_witness :
  import path_client sample_tree [] 0 99%nat = Ret (sample_tree, Err Duplicate).
Proof.
  apply (import_rejects_duplicate path_anc path_client sample_tree [] 0 99%nat).
  - exact path_client_answers.
  - exact sample_wf.
  - intros l Hl. apply list_elem_of_singleton in Hl. subst. simpl. split_and!; done.
  - left.
Defined.

(** ** Finalization *)

(** [ForkTree::finalize] of a block beyond the last finalized number is
    refused with [UnfinalizedAncestor], the tree unchanged, when a root is a
    proper ancestor of the block; otherwise it succeeds, exactly the
    descendants of the block remain, the block's number is the last finalized
    one and the tree stays well formed. *)
Theorem finalize_spec {H V E} `{EqDecision H} (anc : H → H → bool)
    `{!Ancestry anc} (is_descendent_of : H → H → result bool E)
    (t : ForkTree H V) (h : H) (num : Z) :
  (∀ a b, is_descendent_of a b = Ok (anc a b)) →
  wf_tree anc t → coherent anc t h num → reverts t num = false →
  if existsb (λ r, anc (hash r) h) (roots t)
  then finalize is_descendent_of t h num = Ret (t, Err UnfinalizedAncestor)
  else ∃ t' res, finalize is_descendent_of t h num = Ret (t', Ok res) ∧
    wf_tree anc t' ∧ best_finalized_number t' = Some num ∧
    ∀ n, n ∈ forest (roots t') ↔ n ∈ forest (roots t) ∧ anc h (hash n) = true.
Proof. intros Hans. by apply finalize_cases. Qed.

(** A tree with two roots, one of them with a child. *)
Definition fork_tree2 : ForkTree (list nat) nat :=
  MkForkTree [MkNode [1%nat] 1 11%nat [MkNode [1%nat; 1%nat] 2 21%nat []];
              MkNode [2%nat] 1 12%nat []] None.

Lemma fork_tree2_wf : wf_tree path_anc fork_tree2.
Proof.
  split; [|done]. split; simpl.
  - intros a b Hab. cbn in Hab. apply list_elem_of_singleton in Hab.
    injection Hab as -> ->. split; [done|simpl; lia].
  - intros a b Ha Hb. cbn in Ha, Hb |- *.
    rewrite !elem_of_cons in Ha, Hb. intros Hanc.
    destruct Ha as [->|[->|[->|Ha]]]; [..|by apply elem_of_nil in Ha];
      (destruct Hb as [->|[->|[->|Hb]]]; [..|by apply elem_of_nil in Hb]);
      first [discriminate Hanc | apply list_elem_of_singleton; reflexivity].
  - cbn. apply (bool_decide_unpack _). reflexivity.
Qed.

Lemma fork_tree2_coherent : coherent path_anc fork_tree2 [1%nat] 1.
Proof.
  intros l Hl. cbn in Hl. rewrite !elem_of_cons in Hl.
  destruct Hl as [->|[->|[->|Hl]]]; [..|by apply elem_of_nil in Hl];
    cbn; split_and!; done || lia.
Qed.

Lemma finalize_spec_witness :
  if existsb (λ r, path_anc (hash r) [1%nat]) (roots fork_tree2)
  then finalize path_client fork_tree2 [1%nat] 1 = Ret (fork_tree2, Err UnfinalizedAncestor)
  else ∃ t' res, finalize path_client fork_tree2 [1%nat] 1 = Ret (t', Ok res) ∧
    wf_tree path_anc t' ∧ best_finalized_number t' = Some 1 ∧
    ∀ n, n ∈ forest (roots t') ↔ n ∈ forest (roots fork_tree2) ∧ path_anc [1%nat] (hash n) = true.
Proof.
  apply (finalize_spec path_anc path_client fork_tree2 [1%nat] 1).
  - exact path_client_answers.
  - exact fork_tree2_wf.
  - exact fork_tree2_coherent.
  - reflexivity.
Defined.

(** C34: [ForkTree::finalize_with_ancestors] of a block beyond the last
    finalized number always returns [Ok]: its loop, which opens the ancestors
    of the block and drops competing roots in place, ends without a panic with
    exactly the descendants of the block, in a well-formed tree. *)
Theorem finalize_with_ancestors_spec {H V E} `{EqDecision H} (anc : H → H → bool)
    `{!Ancestry anc} (is_descendent_of : H → H → result bool E)
    (t : ForkTree H V) (h : H) (num : Z) :
  (∀ a b, is_descendent_of a b = Ok (anc a b)) →
  wf_tree anc t → coherent anc t h num → reverts t num = false →
  ∃ t' res, finalize_with_ancestors is_descendent_of t h num = Ret (t', Ok res) ∧
    wf_tree anc t' ∧ best_finalized_number t' = Some num ∧
    ∀ n, n ∈ forest (roots t') ↔ n ∈ forest (roots t) ∧ anc h (hash n) = true.
Proof.
  intros Hans Hwf Hc Hrev. unfold finalize_with_ancestors. rewrite Hrev.
  destruct (finalize_root_spec t h) as [(r & Hr & Hh & ->)|[Hno ->]]; cbn [mbind outcome_bind].
  - eexists _, _. split; [done|].
    by apply (finalized_root anc t h num r); [..|apply root_in_forest|].
  - by apply (fwa_loop_spec anc).
Qed.

Lemma finalize_with_ancestors_spec_witness :
  ∃ t' res, finalize_with_ancestors path_client fork_tree2 [1%nat; 1%nat] 2 = Ret (t', Ok res) ∧
    wf_tree path_anc t' ∧ best_finalized_number t' = Some 2 ∧
    ∀ n, n ∈ forest (roots t') ↔
      n ∈ forest (roots fork_tree2) ∧ path_anc [1%nat; 1%nat] (hash n) = true.
Proof.
  apply (finalize_with_ancestors_spec path_anc path_client fork_tree2 [1%nat; 1%nat] 2).
  - exact path_client_answers.
  - exact fork_tree2_wf.
  - intros l Hl. cbn in Hl. rewrite !elem_of_cons in Hl.
    destruct Hl as [->|[->|[->|Hl]]]; [..|by apply elem_of_nil in Hl];
      cbn; split_and!; done || lia.
  - reflexivity.
Defined.

(** ** Pruning, filtering and mapping *)

(** [ForkTree::prune] on a well-formed tree either finds no ancestor of the
    block that passes the predicate and leaves the tree alone, or re-roots the
    tree at the deepest such ancestor with at most one of its children; the
    tree stays well formed and the returned iterator yields exactly the nodes
    that left it. *)
Theorem prune_spec {H V E} `{EqDecision H} (anc : H → H → bool)
    `{!Ancestry anc} (is_descendent_of : H → H → result bool E)
    (t : ForkTree H V) (h : H) (num : Z) (predicate : V → bool) :
  (∀ a b, is_descendent_of a b = Ok (anc a b)) →
  wf_tree anc t → coherent anc t h num →
  (no_match anc h predicate (roots t) ∧
     prune is_descendent_of t h num predicate = Ret (t, Ok [])) ∨
  (∃ x ks t' out, deepest_match anc (roots t) h predicate x ∧
     prune is_descendent_of t h num predicate = Ret (t', Ok out) ∧
     t' = rebalance (set_roots t [set_children x ks]) ∧
     ks `sublist_of` children x ∧ (length ks ≤ 1)%nat ∧ wf_tree anc t' ∧
     labels (roots t') ++ out ≡ₚ labels (roots t)).
Proof. intros Hans. by apply prune_cases. Qed.

Lemma prune_spec_witness :
  (no_match path_anc [1%nat; 1%nat] (λ _, true) (roots fork_tree2) ∧
     prune path_client fork_tree2 [1%nat; 1%nat] 2 (λ _, true) = Ret (fork_tree2, Ok [])) ∨
  (∃ x ks t' out, deepest_match path_anc (roots fork_tree2) [1%nat; 1%nat] (λ _, true) x ∧
     prune path_client fork_tree2 [1%nat; 1%nat] 2 (λ _, true) = Ret (t', Ok out) ∧
     t' = rebalance (set_roots fork_tree2 [set_children x ks]) ∧
     ks `sublist_of` children x ∧ (length ks ≤ 1)%nat ∧ wf_tree path_anc t' ∧
     labels (roots t') ++ out ≡ₚ labels (roots fork_tree2)).
Proof.
  apply (prune_spec path_anc path_client fork_tree2 [1%nat; 1%nat] 2 (λ _, true)).
  - exact path_client_answers.
  - exact fork_tree2_wf.
  - intros l Hl. cbn in Hl. rewrite !elem_of_cons in Hl.
    destruct Hl as [->|[->|[->|Hl]]]; [..|by apply elem_of_nil in Hl];
      cbn; split_and!; done || lia.
Defined.

(** A client that has no answer about one block, as when its header is no
    longer stored. *)
Definition forgetful_client (a b : list nat) : result bool unit :=
  if bool_decide (a = [1%nat; 1%nat]) then Err tt else path_client a b.

Definition one_branch : ForkTree (list nat) nat :=
  MkForkTree [MkNode [1%nat] 1 11%nat
                [MkNode [1%nat; 1%nat] 2 21%nat
                   [MkNode [1%nat; 1%nat; 1%nat] 3 31%nat []]]] None.

(** the search of [prune] never asks about a node below which an ancestor
    was found, the loop over the new root's children does.  When the client fails
    there the whole tree is lost: the roots were moved out before. *)
Example prune_client_error_loses_tree :
  prune forgetful_client one_branch [1%nat; 1%nat; 1%nat; 1%nat] 4
    (λ d, bool_decide (d = 11%nat)) =
  Ret (MkForkTree [] None, Err (Client tt)).
Proof. reflexivity. Qed.

(** [ForkTree::drain_filter], which flattens the forest breadth-first into
    an indexed vector and rebuilds it from the back, keeps exactly what the
    recursive filter keeps (rebalanced when something was removed), and yields
    every removed node once: kept and removed nodes together are the nodes of
    the tree before. *)
Theorem drain_filter_refines {H V} (filter : H → Z → V → FilterAction) (t : ForkTree H V) :
  ∃ t' out, drain_filter filter t = Ret (t', out) ∧
    best_finalized_number t' = best_finalized_number t ∧
    (roots t' = mjoin (map (filter_node filter) (roots t)) ∨
     roots t' = rebalance_roots (mjoin (map (filter_node filter) (roots t)))) ∧
    out ≡ₚ labels (mjoin (map (removed_nodes filter) (roots t))) ∧
    labels (roots t') ++ out ≡ₚ labels (roots t).
Proof.
  destruct (drain_filter_spec filter t) as (rem & Hrem & ->).
  pose proof (filter_node_labels filter (roots t)) as Hl.
  eexists _, _. split; [done|].
  assert (labels (rev rem) ≡ₚ labels (mjoin (map (removed_nodes filter) (roots t)))) as Ho.
  { by rewrite <-Hrem, <-Permutation_rev. }
  destruct rem as [|r rem]; cbn [roots set_roots rebalance]; split_and!;
    [done|by left|done|by rewrite Ho|done|by right|done|].
  by rewrite rebalance_labels, Ho.
Qed.

(** C10: [ForkTree::map], built on the same breadth-first scheme, always
    returns the tree of the same shape with the function applied to the data
    of every node. *)
Theorem tree_map_refines {H V W} (f : H → Z → V → W) (t : ForkTree H V) :
  tree_map f t = Ret (MkForkTree (map (map_node f) (roots t)) (best_finalized_number t)).
Proof. apply tree_map_spec. Qed.

(** C12: [ForkTree::iter] always ends and yields every node of the forest, in
    pre-order. *)
Theorem iter_preorder {H V} (t : ForkTree H V) :
  iter t = Ret (labels (roots t)).
Proof. unfold iter, node_iter. by rewrite iter_collect_forest. Qed.
