(* ===== verification/Collections.v ===== *)
(** Rust collections used by more than one component: [for] loops with effects,
    the iteration order of [HashMap]/[HashSet], [Vec] helpers, the [BTreeSet]
    as a strictly sorted list, and [isize] arithmetic. *)

From stdpp Require Import base gmap sets numbers sorting list.
From S2P Require Import Prelude.

(** ** Loops over a collection *)

(** A [for] loop whose body updates a state and may panic. *)
Fixpoint for_each {St A} (f : St → A → outcome St) (s : St) (l : list A) : outcome St :=
  match l with
  | [] => Ret s
  | x :: l' => f s x ≫= λ s', for_each f s' l'
  end.

Section for_each.
Context {St A : Type} (f : St → A → outcome St).

Lemma for_each_cons s s' x l :
  f s x = Ret s' → for_each f s (x :: l) = for_each f s' l.
Proof. intros E. simpl. by rewrite E. Qed.

Lemma for_each_app s l1 l2 :
  for_each f s (l1 ++ l2) = for_each f s l1 ≫= λ s', for_each f s' l2.
Proof.
  revert s. induction l1 as [|x l1 IH]; intros s; simpl; [done|].
  destruct (f s x) as [s'| |]; simpl; [apply IH|done..].
Qed.

(** Total correctness of a [for] loop: [P done s] relates the state to the
    elements already visited. *)
Lemma for_each_total (P : list A → St → Prop) l s :
  P [] s →
  (∀ pre x post s', l = pre ++ x :: post → P pre s' →
    ∃ s'', f s' x = Ret s'' ∧ P (pre ++ [x]) s'') →
  ∃ s', for_each f s l = Ret s' ∧ P l s'.
Proof.
  intros H0 Hstep.
  assert (∀ post pre s', l = pre ++ post → P pre s' →
    ∃ s'', for_each f s' post = Ret s'' ∧ P l s'') as Hgen; [|by apply (Hgen l [])].
  induction post as [|x post IH]; intros pre s' Hl HP; simpl.
  { rewrite app_nil_r in Hl. subst. eauto. }
  destruct (Hstep pre x post s' Hl HP) as (s'' & -> & HP''). simpl.
  apply (IH (pre ++ [x])); [by rewrite <-app_assoc|done].
Qed.

(** The same with an invariant that does not mention the visited elements. *)
Lemma for_each_inv (P : St → Prop) l s :
  P s → (∀ x s', x ∈ l → P s' → ∃ s'', f s' x = Ret s'' ∧ P s'') →
  ∃ s', for_each f s l = Ret s' ∧ P s'.
Proof.
  intros H0 Hstep. apply (for_each_total (λ _, P)); [done|].
  intros pre x post s' -> HP. apply Hstep; [|done].
  apply elem_of_app. right. apply elem_of_cons. by left.
Qed.
End for_each.

(** A loop whose body never panics is a [foldl]. *)
Lemma for_each_ret {St A} (g : St → A → St) (f : St → A → outcome St) s l :
  (∀ s x, x ∈ l → f s x = Ret (g s x)) → for_each f s l = Ret (foldl g s l).
Proof.
  revert s. induction l as [|x l IH]; intros s Hf; simpl; [done|].
  rewrite Hf by (apply elem_of_cons; by left). simpl. apply IH.
  intros s' y Hy. apply Hf. apply elem_of_cons. by right.
Qed.

(** ** Hash iteration order *)

(** [HashMap] and [HashSet] iterate in an unspecified order: some permutation
    of the content. *)
Class IterOrder := {
  iter_order : ∀ A : Type, list A → list A;
  iter_order_perm : ∀ (A : Type) (l : list A), iter_order A l ≡ₚ l;
}.
Arguments iter_order {_} {A} l.

Definition set_iter `{IterOrder, Countable A} (X : gset A) : list A :=
  iter_order (elements X).

Definition map_values `{IterOrder, Countable K} {V} (m : gmap K V) : list V :=
  iter_order (map_to_list m).*2.

Definition map_keys `{IterOrder, Countable K} {V} (m : gmap K V) : list K :=
  iter_order (map_to_list m).*1.

Definition map_iter `{IterOrder, Countable K} {V} (m : gmap K V) : list (K * V) :=
  iter_order (map_to_list m).

(** The order in which the elements are listed, one admissible order. *)
Definition listed_order : IterOrder :=
  {| iter_order := λ A l, l; iter_order_perm := λ A l, reflexivity l |}.

(** The opposite order, another one. *)
Definition reversed_order : IterOrder :=
  {| iter_order := λ A l, reverse l; iter_order_perm := λ A l, reverse_Permutation l |}.

Section iteration.
Context `{IterOrder, Countable K}.

Lemma elem_of_set_iter (X : gset K) x : x ∈ set_iter X ↔ x ∈ X.
Proof. unfold set_iter. by rewrite iter_order_perm, elem_of_elements. Qed.

Lemma NoDup_set_iter (X : gset K) : NoDup (set_iter X).
Proof. unfold set_iter. rewrite iter_order_perm. apply NoDup_elements. Qed.

Lemma set_iter_empty : set_iter (∅ : gset K) = [].
Proof. apply Permutation_nil_r. unfold set_iter. by rewrite iter_order_perm. Qed.

Lemma list_to_set_set_iter (X : gset K) : list_to_set (set_iter X) = X.
Proof. apply set_eq. intros x. by rewrite elem_of_list_to_set, elem_of_set_iter. Qed.

Lemma elem_of_map_values {V} (m : gmap K V) v :
  v ∈ map_values m ↔ ∃ k, m !! k = Some v.
Proof.
  unfold map_values. rewrite iter_order_perm, list_elem_of_fmap. split.
  - intros ([k v'] & -> & Hin). exists k. by apply elem_of_map_to_list.
  - intros [k Hk]. exists (k, v). split; [done|]. by apply elem_of_map_to_list.
Qed.

Lemma map_values_perm {V} (m : gmap K V) : map_values m ≡ₚ (map_to_list m).*2.
Proof. apply iter_order_perm. Qed.

Lemma map_keys_dom {V} (m : gmap K V) : map_keys m ≡ₚ elements (dom m).
Proof.
  unfold map_keys. rewrite iter_order_perm. apply NoDup_Permutation.
  - apply NoDup_fst_map_to_list.
  - apply NoDup_elements.
  - intros k. rewrite elem_of_elements, elem_of_dom, list_elem_of_fmap. split.
    + intros ([k' v] & -> & Hin%elem_of_map_to_list). eauto.
    + intros [v Hv]. exists (k, v). split; [done|]. by apply elem_of_map_to_list.
Qed.

Lemma NoDup_map_iter {V} (m : gmap K V) : NoDup (map_iter m).*1.
Proof. unfold map_iter. rewrite iter_order_perm. apply NoDup_fst_map_to_list. Qed.

Lemma elem_of_map_iter {V} (m : gmap K V) x : x ∈ map_iter m ↔ m !! x.1 = Some x.2.
Proof. unfold map_iter. rewrite iter_order_perm. destruct x. apply elem_of_map_to_list. Qed.

(** Insertions of the entries of a map, in any order. *)
Lemma foldl_insert_lookup {V} (l : list (K * V)) (m : gmap K V) k :
  NoDup l.*1 →
  foldl (λ m x, <[x.1 := x.2]> m) m l !! k =
  match list_to_map (M := gmap K V) l !! k with Some v => Some v | None => m !! k end.
Proof.
  revert m. induction l as [|[k' v] l IH]; intros m Hnd; simpl; [by rewrite lookup_empty|].
  apply NoDup_cons in Hnd as [Hk' Hnd]. rewrite IH by done.
  destruct (decide (k = k')) as [->|Hne].
  - rewrite not_elem_of_list_to_map_1 by done. by rewrite !lookup_insert_eq.
  - by rewrite !lookup_insert_ne.
Qed.

Lemma foldl_insert_map_iter {V} (q m : gmap K V) :
  foldl (λ m x, <[x.1 := x.2]> m) m (map_iter q) = q ∪ m.
Proof.
  apply map_eq. intros k. rewrite foldl_insert_lookup by apply NoDup_map_iter.
  rewrite lookup_union, (list_to_map_proper _ (map_to_list q)), list_to_map_to_list.
  - by destruct (q !! k), (m !! k).
  - apply NoDup_map_iter.
  - apply iter_order_perm.
Qed.

Lemma map_values_empty {V} : map_values (∅ : gmap K V) = [].
Proof. apply Permutation_nil_r. by rewrite map_values_perm, map_to_list_empty. Qed.

Lemma length_map_values {V} (m : gmap K V) : length (map_values m) = size m.
Proof. by rewrite map_values_perm, length_fmap, length_map_to_list. Qed.
End iteration.

(** [Iterator::take_while]. *)
Fixpoint take_while {A} (f : A → bool) (l : list A) : list A :=
  match l with
  | [] => []
  | x :: l' => if f x then x :: take_while f l' else []
  end.

(** ** Filters *)

Lemma filter_ext_in {A} (P Q : A → Prop) `{!∀ x, Decision (P x)} `{!∀ x, Decision (Q x)} (l : list A) :
  (∀ x, x ∈ l → P x ↔ Q x) → filter P l = filter Q l.
Proof.
  induction l as [|x l IH]; intros Hl; [done|]. rewrite !filter_cons, IH by (intros; apply Hl; by right).
  rewrite (decide_ext (P x) (Q x)) by (apply Hl; left). done.
Qed.

Lemma filter_all {A} (P : A → Prop) `{!∀ x, Decision (P x)} (l : list A) : (∀ x, x ∈ l → P x) → filter P l = l.
Proof.
  induction l as [|x l IH]; intros Hl; [done|]. rewrite filter_cons, decide_True by (apply Hl; left).
  f_equal. apply IH. intros y Hy. apply Hl. by right.
Qed.

Lemma filter_fmap_list {A B} (f : A → B) (P : B → Prop) `{!∀ x, Decision (P x)} (l : list A) :
  filter P (f <$> l) = f <$> filter (λ x, P (f x)) l.
Proof.
  induction l as [|x l IH]; [done|]. rewrite fmap_cons, !filter_cons, IH. by case_decide.
Qed.

(** ** Updates in place *)

Lemma alter_insert_eq `{Countable K} {V} (f : V → V) (m : gmap K V) k v :
  m !! k = Some v → alter f k m = <[k := f v]> m.
Proof.
  intros Hk. apply map_eq. intros j. destruct (decide (k = j)) as [->|].
  - by rewrite lookup_alter_eq, lookup_insert_eq, Hk.
  - by rewrite lookup_alter_ne, lookup_insert_ne.
Qed.

Lemma alter_absent `{Countable K} {V} (f : V → V) (m : gmap K V) k :
  m !! k = None → alter f k m = m.
Proof.
  intros Hk. apply map_eq. intros j. destruct (decide (k = j)) as [->|].
  - by rewrite lookup_alter_eq, Hk.
  - by rewrite lookup_alter_ne.
Qed.

(** ** [Vec] helpers *)

(** [remove_item]: [swap_remove] the first occurrence. *)
Definition remove_item `{EqDecision A} (l : list A) (x : A) : list A :=
  match position (λ y, bool_decide (y = x)) l with
  | Some i => match swap_remove i l with Some (_, l') => l' | None => l end
  | None => l
  end.

Lemma remove_item_perm `{EqDecision A} (l : list A) (x : A) :
  x ∈ l → l ≡ₚ x :: remove_item l x.
Proof.
  intros Hx. unfold remove_item.
  destruct (position _ l) as [i|] eqn:Hp.
  - apply position_Some in Hp as (y & Hy & Heq & _). apply bool_decide_eq_true in Heq. subst.
    destruct (swap_remove_is_Some i l) as [[z l'] Hs]; [by eapply lookup_lt_Some|].
    rewrite Hs. apply swap_remove_perm in Hs as [Hz Hl]. by simplify_eq.
  - rewrite position_None in Hp. specialize (Hp x Hx). by apply bool_decide_eq_false in Hp.
Qed.

Lemma remove_item_absent `{EqDecision A} (l : list A) (x : A) :
  x ∉ l → remove_item l x = l.
Proof.
  intros Hx. unfold remove_item. destruct (position _ l) as [i|] eqn:Hp; [|done].
  apply position_Some in Hp as (y & Hy & Heq & _). apply bool_decide_eq_true in Heq. subst.
  by apply list_elem_of_lookup_2 in Hy.
Qed.

Lemma elem_of_remove_item `{EqDecision A} (l : list A) (x y : A) :
  y ≠ x → y ∈ remove_item l x ↔ y ∈ l.
Proof.
  intros Hne. destruct (decide (x ∈ l)) as [Hx|Hx].
  - rewrite (remove_item_perm l x Hx) at 2. set_solver.
  - by rewrite remove_item_absent.
Qed.

Lemma remove_item_subset `{EqDecision A} (l : list A) (x : A) : remove_item l x ⊆ l.
Proof.
  intros y. destruct (decide (x ∈ l)) as [Hx|Hx].
  - rewrite (remove_item_perm l x Hx) at 2. set_solver.
  - by rewrite remove_item_absent.
Qed.

Lemma length_remove_item `{EqDecision A} (l : list A) (x : A) :
  length (remove_item l x) ≤ length l.
Proof.
  destruct (decide (x ∈ l)) as [Hx|Hx].
  - rewrite (remove_item_perm l x Hx) at 2. simpl. lia.
  - by rewrite remove_item_absent.
Qed.

(** ** [isize] *)

Definition isize_wrap (z : Z) : Z := ((z + 2 ^ 63) `mod` 2 ^ 64 - 2 ^ 63)%Z.

Lemma isize_wrap_small z : (-2 ^ 63 ≤ z < 2 ^ 63)%Z → isize_wrap z = z.
Proof. intros. unfold isize_wrap. rewrite Z.mod_small by lia. lia. Qed.

Lemma isize_wrap_mod z : (isize_wrap z `mod` 2 ^ 64 = z `mod` 2 ^ 64)%Z.
Proof.
  unfold isize_wrap. rewrite Zminus_mod_idemp_l. f_equal. lia.
Qed.

Lemma isize_wrap_eq a b : (a `mod` 2 ^ 64 = b `mod` 2 ^ 64)%Z → isize_wrap a = isize_wrap b.
Proof.
  intros Hab. unfold isize_wrap. f_equal.
  by rewrite Zplus_mod, Hab, <-Zplus_mod.
Qed.

Lemma isize_wrap_add a b : isize_wrap (isize_wrap a + b) = isize_wrap (a + b).
Proof. apply isize_wrap_eq. by rewrite Zplus_mod, isize_wrap_mod, <-Zplus_mod. Qed.

Lemma isize_wrap_add_r a b : isize_wrap (a + isize_wrap b) = isize_wrap (a + b).
Proof. rewrite Z.add_comm, isize_wrap_add. f_equal. lia. Qed.

Lemma isize_wrap_sub a b : isize_wrap (isize_wrap a - b) = isize_wrap (a - b).
Proof. apply isize_wrap_add. Qed.

Lemma isize_wrap_sub_r a b : isize_wrap (a - isize_wrap b) = isize_wrap (a - b).
Proof. apply isize_wrap_eq. by rewrite Zminus_mod, isize_wrap_mod, <-Zminus_mod. Qed.

(** [BTreeSet] of a type with a total order [cmp] that may identify distinct
    values: a strictly ascending list.  [insert] keeps the element that is
    already there, [remove]/[take] act on the element that compares equal. *)

(** What the code relies on in an [Ord] implementation. *)
Class OrderLaws {A} (cmp : A → A → comparison) : Prop := {
  cmp_refl : ∀ x, cmp x x = Eq;
  cmp_opp : ∀ x y, cmp y x = CompOpp (cmp x y);
  cmp_lt_trans : ∀ x y z, cmp x y = Lt → cmp y z = Lt → cmp x z = Lt;
  cmp_eq_l : ∀ x y z, cmp x y = Eq → cmp x z = cmp y z;
}.

Section ordered_set.
Context {A : Type} (cmp : A → A → comparison).

Fixpoint bt_insert (x : A) (l : list A) : list A :=
  match l with
  | [] => [x]
  | y :: l' =>
      match cmp x y with
      | Lt => x :: l
      | Eq => l
      | Gt => y :: bt_insert x l'
      end
  end.

Fixpoint bt_remove (x : A) (l : list A) : list A :=
  match l with
  | [] => []
  | y :: l' =>
      match cmp x y with
      | Lt => l
      | Eq => l'
      | Gt => y :: bt_remove x l'
      end
  end.

(** [iter().next_back()]. *)
Definition bt_last (l : list A) : option A := last l.

(** [take]: the stored element that compares equal, removed. *)
Definition bt_take (x : A) (l : list A) : option (A * list A) :=
  match position (λ y, match cmp x y with Eq => true | _ => false end) l with
  | Some i => match l !! i with Some y => Some (y, bt_remove x l) | None => None end
  | None => None
  end.

Definition bt_sorted (l : list A) : Prop := StronglySorted (λ x y, cmp x y = Lt) l.

Lemma elem_of_bt_insert x l z : z ∈ bt_insert x l → z = x ∨ z ∈ l.
Proof.
  induction l as [|y l IH]; simpl; [set_solver|].
  destruct (cmp x y); set_solver.
Qed.

Lemma bt_insert_old x l z : z ∈ l → z ∈ bt_insert x l.
Proof. induction l as [|y l IH]; simpl; [set_solver|]. destruct (cmp x y); set_solver. Qed.

Lemma bt_insert_new x l : (∀ z, z ∈ l → cmp x z ≠ Eq) → x ∈ bt_insert x l.
Proof.
  induction l as [|y l IH]; simpl; intros Hne; [set_solver|].
  destruct (cmp x y) eqn:E; [|set_solver..].
  by destruct (Hne y ltac:(left)).
Qed.

Lemma bt_remove_sublist x l : bt_remove x l `sublist_of` l.
Proof.
  induction l as [|y l IH]; simpl; [done|].
  destruct (cmp x y); [by constructor|done|by constructor].
Qed.

Lemma StronglySorted_sublist (R : relation A) l k :
  l `sublist_of` k → StronglySorted R k → StronglySorted R l.
Proof.
  induction 1 as [|x l k Hlk IH|x l k Hlk IH]; intros Hs; [done|..];
    apply StronglySorted_inv in Hs as [Hs Hall]; [|by apply IH].
  constructor; [by apply IH|]. rewrite Forall_forall in *. intros y Hy.
  apply Hall. by eapply elem_of_sublist.
Qed.

Context `{!OrderLaws cmp}.

Lemma cmp_gt_lt x y : cmp x y = Gt → cmp y x = Lt.
Proof. intros E. by rewrite cmp_opp, E. Qed.

Lemma cmp_eq_sym x y : cmp x y = Eq → cmp y x = Eq.
Proof. intros E. by rewrite cmp_opp, E. Qed.

Lemma cmp_eq_r x y z : cmp x y = Eq → cmp z x = cmp z y.
Proof. intros E. rewrite (cmp_opp x z), (cmp_opp y z). by rewrite (cmp_eq_l x y z). Qed.

Lemma bt_insert_sorted x l : bt_sorted l → bt_sorted (bt_insert x l).
Proof.
  unfold bt_sorted. induction 1 as [|y l Hs IH Hy]; simpl; [repeat constructor|].
  destruct (cmp x y) eqn:E.
  - by constructor.
  - constructor; [by constructor|]. constructor; [done|].
    eapply Forall_impl; [done|]. intros z Hz. by eapply cmp_lt_trans.
  - constructor; [done|]. rewrite Forall_forall in *. intros z Hz.
    apply elem_of_bt_insert in Hz as [->|Hz]; [by apply cmp_gt_lt|auto].
Qed.

Lemma elem_of_bt_remove x l z :
  bt_sorted l → z ∈ bt_remove x l ↔ z ∈ l ∧ cmp x z ≠ Eq.
Proof.
  unfold bt_sorted. induction 1 as [|y l Hs IH Hy]; simpl; [set_solver|].
  rewrite Forall_forall in Hy. destruct (cmp x y) eqn:E.
  - split.
    + intros Hz. split; [by right|]. rewrite (cmp_eq_l x y z E), (Hy z Hz). done.
    + intros [[->|Hz]%elem_of_cons Hne]; congruence.
  - split; [|tauto]. intros Hz. split; [done|].
    apply elem_of_cons in Hz as [->|Hz]; [congruence|].
    rewrite (cmp_lt_trans x y z E (Hy z Hz)). done.
  - rewrite !elem_of_cons, IH. split; [|naive_solver].
    intros [->|[Hz Hne]]; [|naive_solver]. split; [by left|congruence].
Qed.

Lemma bt_remove_sorted x l : bt_sorted l → bt_sorted (bt_remove x l).
Proof. apply StronglySorted_sublist, bt_remove_sublist. Qed.

Lemma bt_sorted_cmp_inj l x y :
  bt_sorted l → x ∈ l → y ∈ l → cmp x y = Eq → x = y.
Proof.
  unfold bt_sorted. induction 1 as [|z l Hs IH Hz]; [set_solver|].
  rewrite Forall_forall in Hz.
  intros [->|Hx]%elem_of_cons [->|Hy]%elem_of_cons E; [done|..].
  - by rewrite (Hz y Hy) in E.
  - apply cmp_eq_sym in E. by rewrite (Hz x Hx) in E.
  - by apply IH.
Qed.

Lemma bt_sorted_NoDup l : bt_sorted l → NoDup l.
Proof.
  unfold bt_sorted. induction 1 as [|z l Hs IH Hz]; constructor; [|done].
  rewrite Forall_forall in Hz. intros Hin. specialize (Hz z Hin).
  by rewrite cmp_refl in Hz.
Qed.

(** The last element is the greatest. *)
Lemma bt_last_max l x y :
  bt_sorted l → bt_last l = Some x → y ∈ l → y = x ∨ cmp y x = Lt.
Proof.
  unfold bt_sorted, bt_last. induction 1 as [|z l Hs IH Hz]; [done|].
  rewrite Forall_forall in Hz. intros Hl [->|Hy]%elem_of_cons.
  - destruct l as [|w l]; simpl in *; [left; congruence|right].
    apply Hz. by apply last_Some_elem_of.
  - destruct l as [|w l]; [set_solver|]. by apply IH.
Qed.

(** A set has one representation. *)
Lemma bt_sorted_unique l1 l2 :
  bt_sorted l1 → bt_sorted l2 → (∀ x, x ∈ l1 ↔ x ∈ l2) → l1 = l2.
Proof.
  unfold bt_sorted. intros Hs1. revert l2. induction Hs1 as [|x l1 Hs1 IH Hx]; intros l2 Hs2 Heq.
  - destruct l2 as [|y l2]; [done|]. specialize (Heq y). set_solver.
  - destruct Hs2 as [|y l2 Hs2 Hy]; [specialize (Heq x); set_solver|].
    rewrite Forall_forall in Hx, Hy.
    assert (x = y) as ->.
    { pose proof (proj1 (Heq x) ltac:(left)) as [?|Hxy]%elem_of_cons; [done|].
      pose proof (proj2 (Heq y) ltac:(left)) as [?|Hyx]%elem_of_cons; [done|].
      specialize (Hy x Hxy). specialize (Hx y Hyx). rewrite cmp_opp, Hy in Hx. done. }
    f_equal. apply IH; [done|]. intros z. specialize (Heq z). rewrite !elem_of_cons in Heq.
    assert (∀ k, Forall (λ w, cmp y w = Lt) k → y ∉ k) as Hno.
    { intros k Hk Hin. rewrite Forall_forall in Hk. specialize (Hk y Hin). by rewrite cmp_refl in Hk. }
    rewrite <-Forall_forall in Hx, Hy. apply Hno in Hx, Hy.
    split; intros Hz; destruct Heq as [H1 H2].
    + destruct H1 as [->|?]; [by right|done|done].
    + destruct H2 as [->|?]; [by right|done|done].
Qed.

(** What [BestIterator::next] does: [take] of the last element. *)
Lemma bt_take_last l x :
  bt_sorted l → bt_last l = Some x →
  ∃ l', l = l' ++ [x] ∧ bt_take x l = Some (x, l').
Proof.
  intros Hs Hl. apply last_Some in Hl as [l' ->]. exists l'. split; [done|].
  assert (∀ y, y ∈ l' → cmp x y = Gt) as Hgt.
  { intros y Hy. destruct (bt_last_max (l' ++ [x]) x y Hs) as [->|Hlt].
    - apply last_snoc.
    - set_solver.
    - apply bt_sorted_NoDup, NoDup_app in Hs as (_ & Hd & _).
      by destruct (Hd x Hy ltac:(by apply list_elem_of_singleton)).
    - by rewrite cmp_opp, Hlt. }
  clear Hs. unfold bt_take.
  assert (position (λ y, match cmp x y with Eq => true | _ => false end) (l' ++ [x])
    = Some (length l') ∧ bt_remove x (l' ++ [x]) = l') as [-> ->].
  { induction l' as [|y l' IH]; simpl; [by rewrite cmp_refl|].
    rewrite Hgt by left. destruct IH as [-> ->]; [|done].
    intros z Hz. apply Hgt. by right. }
  by rewrite list_lookup_middle.
Qed.
End ordered_set.

#[export] Hint Resolve bt_insert_sorted bt_remove_sorted : worker.
