(* ===== verification/PoolTypes.v ===== *)
(** Data shared by the parts of the trusted operation pool
    (core-primitives/top-pool): the in-pool operation, the results and the
    errors of the pool, its limits and status. *)

From stdpp Require Import base list gmap numbers strings.
From S2P Require Import Prelude Collections.

Local Open Scope Z_scope.

(** [H256] values, used as keys only. *)
Abbreviation TxHash := N (only parsing).
Abbreviation ShardIdentifier := N (only parsing).
Abbreviation BlockHash := N (only parsing).

(** [TransactionTag], a byte vector. *)
Abbreviation Tag := (list N) (only parsing).

Inductive TrustedOperationSource :=
| SourceInBlock
| SourceLocal
| SourceExternal.

#[export] Instance source_eq_dec : EqDecision TrustedOperationSource.
Proof. solve_decision. Defined.

(** [base_pool::TrustedOperation]; sizes, priority and longevity are machine
    integers kept in [Z]. *)
Record TrustedOperation (Ex : Type) := MkOperation {
  data : Ex;
  op_bytes : Z;
  op_hash : TxHash;
  priority : Z;
  valid_till : Z;
  requires : list Tag;
  provides : list Tag;
  propagate : bool;
  source : TrustedOperationSource;
}.
Arguments MkOperation {Ex} _ _ _ _ _ _ _ _ _.
Arguments data {Ex} _.
Arguments op_bytes {Ex} _.
Arguments op_hash {Ex} _.
Arguments priority {Ex} _.
Arguments valid_till {Ex} _.
Arguments requires {Ex} _.
Arguments provides {Ex} _.
Arguments propagate {Ex} _.
Arguments source {Ex} _.

(** [error::Error]. *)
Inductive PoolError :=
| UnknownTrustedOperation
| InvalidTrustedOperation
| NoTagsProvided
| TemporarilyBanned
| AlreadyImported
| TooLowPriority (p : Z)
| CycleDetected
| ImmediatelyDropped
| InvalidBlockId (msg : string)
| RejectedFutureTrustedOperation
| Verification
| FailedToSendUpdateToRpcClient (msg : string)
| UnlockError.

(** [base_pool::Imported]. *)
Inductive Imported (Ex : Type) :=
| ImportedReady (hash : TxHash) (promoted failed : list TxHash)
    (removed : list (TrustedOperation Ex))
| ImportedFuture (hash : TxHash).
Arguments ImportedReady {Ex} _ _ _ _.
Arguments ImportedFuture {Ex} _.

Definition imported_hash {Ex} (i : Imported Ex) : TxHash :=
  match i with
  | ImportedReady h _ _ _ => h
  | ImportedFuture h => h
  end.

(** [base_pool::PruneStatus]. *)
Record PruneStatus (Ex : Type) := MkPruneStatus {
  promoted : list (Imported Ex);
  failed : list TxHash;
  pruned : list (TrustedOperation Ex);
}.
Arguments MkPruneStatus {Ex} _ _ _.
Arguments promoted {Ex} _.
Arguments failed {Ex} _.
Arguments pruned {Ex} _.

(** [base_pool::Limit]. *)
Record Limit := MkLimit { limit_count : Z; total_bytes : Z }.

Definition is_exceeded (l : Limit) (count bytes : Z) : bool :=
  (limit_count l <? count) || (total_bytes l <? bytes).

(** [primitives::PoolStatus]. *)
Record PoolStatus := MkPoolStatus {
  st_ready : Z;
  st_ready_bytes : Z;
  st_future : Z;
  st_future_bytes : Z;
}.

Definition pool_status_is_empty (s : PoolStatus) : bool :=
  (st_ready s =? 0) && (st_future s =? 0).

(** [itp_types::TrustedOperationStatus] (core-primitives/types): the events a
    watcher receives. *)
Inductive TrustedOperationStatus :=
| StSubmitted
| StFuture
| StReady
| StBroadcast
| StInSidechainBlock (block : BlockHash)
| StRetracted
| StFinalityTimeout
| StFinalized
| StUsurped
| StDropped
| StInvalid.

#[export] Instance status_eq_dec : EqDecision TrustedOperationStatus.
Proof. solve_decision. Defined.

(** What every operation the validation of the pool lets through satisfies:
    the tags it provides are listed once, and it does not require a tag it
    provides itself.  Sizes and priorities are [usize] and [u64]. *)
Record operation_ok {Ex} (op : TrustedOperation Ex) : Prop := {
  ok_provides : NoDup (provides op);
  ok_disjoint : ∀ t, t ∈ requires op → t ∉ provides op;
  ok_bytes : is_u64 (op_bytes op);
  ok_priority : is_u64 (priority op);
}.
