(* ===== verification/TrackedMap.v ===== *)
(** [tracked_map::TrackedMap]: a map with a running count of its entries and of
    the sum of their sizes, in atomic [isize] counters that wrap around. *)

From stdpp Require Import base list gmap fin_maps numbers.
From S2P Require Import Prelude Collections.

Local Open Scope Z_scope.

Module Tracked.

(** The trait [Size]. *)
Class Size (V : Type) := size_of : V → Z.

Record TrackedMap (K V : Type) `{Countable K} := MkTrackedMap {
  index : gmap K V;
  bytes_counter : Z;
  length_counter : Z;
}.
Arguments MkTrackedMap {K V _ _} _ _ _.
Arguments index {K V _ _} _.
Arguments bytes_counter {K V _ _} _.
Arguments length_counter {K V _ _} _.

Section tracked_map.
Context `{Countable K} {V : Type} `{!Size V}.
Implicit Types (m : TrackedMap K V) (k : K) (v : V).

Definition empty : TrackedMap K V := MkTrackedMap ∅ 0 0.

Definition len m : Z := Z.max (length_counter m) 0.

Definition is_empty m : bool := length_counter m =? 0.

Definition bytes m : Z := Z.max (bytes_counter m) 0.

Definition contains_key m k : bool := bool_decide (is_Some (index m !! k)).

Definition get m k : option V := index m !! k.

Definition values `{IterOrder} m : list V := map_values (index m).

(** [insert]: the counters are increased first and decreased again when a
    previous value was there. *)
Definition insert m k v : TrackedMap K V * option V :=
  let b := isize_wrap (bytes_counter m + isize_wrap (size_of v)) in
  let l := isize_wrap (length_counter m + 1) in
  let index' := <[k := v]> (index m) in
  match index m !! k with
  | Some old =>
      (MkTrackedMap index' (isize_wrap (b - isize_wrap (size_of old))) (isize_wrap (l - 1)),
       Some old)
  | None => (MkTrackedMap index' b l, None)
  end.

Definition remove m k : TrackedMap K V * option V :=
  match index m !! k with
  | Some v =>
      (MkTrackedMap (delete k (index m))
         (isize_wrap (bytes_counter m - isize_wrap (size_of v)))
         (isize_wrap (length_counter m - 1)), Some v)
  | None => (m, None)
  end.

(** An update through [get_mut]: the counters are not touched. *)
Definition get_mut m k (f : V → V) : TrackedMap K V :=
  MkTrackedMap (alter f k (index m)) (bytes_counter m) (length_counter m).

(** The sum of the sizes of the values. *)
Definition total_size (mm : gmap K V) : Z := map_fold (λ _ v acc, size_of v + acc) 0 mm.

(** The counters are the true figures, up to the width of [isize]. *)
Record tracked m : Prop := {
  tracked_len : length_counter m = isize_wrap (Z.of_nat (size (index m)));
  tracked_bytes : bytes_counter m = isize_wrap (total_size (index m));
}.

Lemma total_size_insert (mm : gmap K V) k v :
  mm !! k = None → total_size (<[k := v]> mm) = size_of v + total_size mm.
Proof.
  intros Hk. unfold total_size. rewrite map_fold_insert_L; [done|lia|done].
Qed.

Lemma total_size_delete (mm : gmap K V) k v :
  mm !! k = Some v → total_size (delete k mm) = total_size mm - size_of v.
Proof.
  intros Hk. unfold total_size.
  rewrite (map_fold_delete_L _ _ k v mm) by (done || lia). lia.
Qed.

Lemma total_size_replace (mm : gmap K V) k v old :
  mm !! k = Some old → total_size (<[k := v]> mm) = total_size mm - size_of old + size_of v.
Proof.
  intros Hk. rewrite <-insert_delete_eq, total_size_insert by apply lookup_delete_eq.
  rewrite (total_size_delete mm k old Hk). lia.
Qed.

Lemma total_size_nonneg (mm : gmap K V) :
  (∀ k v, mm !! k = Some v → 0 ≤ size_of v) → 0 ≤ total_size mm.
Proof.
  induction mm as [|k v mm Hk IH] using map_ind; intros Hpos; [done|].
  rewrite total_size_insert by done.
  assert (0 ≤ size_of v) by (apply (Hpos k); by rewrite lookup_insert_eq).
  assert (0 ≤ total_size mm); [|lia]. apply IH. intros k' v' Hk'. apply (Hpos k').
  rewrite lookup_insert_ne by (intros ->; congruence). done.
Qed.

Lemma insert_index m k v : index (insert m k v).1 = <[k := v]> (index m).
Proof. unfold insert. by destruct (index m !! k). Qed.

Lemma insert_result m k v : (insert m k v).2 = index m !! k.
Proof. unfold insert. by destruct (index m !! k). Qed.

Lemma remove_index m k : index (remove m k).1 = delete k (index m).
Proof.
  unfold remove. destruct (index m !! k) eqn:Hk; simpl; [done|].
  by rewrite delete_id.
Qed.

Lemma remove_result m k : (remove m k).2 = index m !! k.
Proof. unfold remove. by destruct (index m !! k). Qed.

Lemma tracked_empty : tracked empty.
Proof. split; simpl; by rewrite ?map_size_empty. Qed.

Lemma tracked_insert m k v : tracked m → tracked (insert m k v).1.
Proof.
  intros [Hl Hb]. unfold insert. destruct (index m !! k) as [old|] eqn:Hk; split; simpl.
  - rewrite Hl, map_size_insert_Some by done. rewrite isize_wrap_add, isize_wrap_sub. f_equal. lia.
  - rewrite Hb, (total_size_replace _ _ _ old) by done.
    rewrite isize_wrap_add, isize_wrap_add_r, isize_wrap_sub, isize_wrap_sub_r. f_equal. lia.
  - rewrite Hl, map_size_insert_None by done. rewrite isize_wrap_add. f_equal. lia.
  - rewrite Hb, total_size_insert by done. rewrite isize_wrap_add, isize_wrap_add_r. f_equal. lia.
Qed.

Lemma tracked_remove m k : tracked m → tracked (remove m k).1.
Proof.
  intros [Hl Hb]. unfold remove. destruct (index m !! k) as [v|] eqn:Hk; [|done]. split; simpl.
  - assert (size (index m) ≠ 0%nat) by (eapply map_size_ne_0_lookup_2; eauto).
    rewrite Hl, map_size_delete_Some by eauto. rewrite isize_wrap_sub. f_equal. lia.
  - rewrite Hb, (total_size_delete _ _ v) by done.
    rewrite isize_wrap_sub, isize_wrap_sub_r. done.
Qed.

(** An in-place update that does not change the size of the value. *)
Lemma tracked_get_mut m k f :
  (∀ v, index m !! k = Some v → size_of (f v) = size_of v) → tracked m → tracked (get_mut m k f).
Proof.
  intros Hf [Hl Hb]. unfold get_mut. destruct (index m !! k) as [v|] eqn:Hk.
  - split; simpl; rewrite (alter_insert_eq f _ _ v) by done.
    + by rewrite map_size_insert_Some.
    + rewrite Hb, (total_size_replace _ _ _ v) by done. rewrite Hf by done. f_equal. lia.
  - split; simpl; by rewrite alter_absent.
Qed.

(** While the true figures fit the width, the reported ones are exact. *)
Lemma tracked_len_exact m :
  tracked m → Z.of_nat (size (index m)) < 2 ^ 63 → len m = Z.of_nat (size (index m)).
Proof. intros [Hl _] Hs. unfold len. rewrite Hl, isize_wrap_small by lia. lia. Qed.

Lemma tracked_bytes_exact m :
  tracked m → 0 ≤ total_size (index m) < 2 ^ 63 → bytes m = total_size (index m).
Proof. intros [_ Hb] Hs. unfold bytes. rewrite Hb, isize_wrap_small by lia. lia. Qed.
End tracked_map.
End Tracked.

#[export] Hint Resolve Tracked.tracked_empty Tracked.tracked_insert Tracked.tracked_remove : worker.
