(* ===== verification/FuturePool.v ===== *)
(** The Future queue (core-primitives/top-pool/src/future.rs): operations that
    wait for tags, with the index [wanted_tags] from a tag to the operations
    that miss it.  [future_inv] is what the comment [WAITING_PROOF] of the
    source argues in words; under it no [expect] of the queue fails, and each
    operation refines an update of the plain map of waiting operations. *)

From stdpp Require Import base gmap fin_maps sets numbers list.
From S2P Require Import Prelude Collections PoolTypes.

Module Future.

Record WaitingTrustedOperations (Ex : Type) := MkWaiting {
  operation : TrustedOperation Ex;
  missing_tags : gset Tag;
  imported_at : Z;
}.
Arguments MkWaiting {Ex} _ _ _.
Arguments operation {Ex} _.
Arguments missing_tags {Ex} _.
Arguments imported_at {Ex} _.

Record FutureTrustedOperations (Ex : Type) := MkFuture {
  wanted_tags : gmap ShardIdentifier (gmap Tag (gset TxHash));
  waiting : gmap ShardIdentifier (gmap TxHash (WaitingTrustedOperations Ex));
}.
Arguments MkFuture {Ex} _ _.
Arguments wanted_tags {Ex} _.
Arguments waiting {Ex} _.

Section future.
Context `{Ord : IterOrder} {Ex : Type}.
Implicit Types (tx w : WaitingTrustedOperations Ex) (f : FutureTrustedOperations Ex).

Definition default_future : FutureTrustedOperations Ex := MkFuture ∅ ∅.

(** Is the tag satisfied by an operation in the pool or by one that was
    recently included? *)
Definition is_provided (provided : option (gmap Tag TxHash))
    (recently_pruned : list (gset Tag)) (tag : Tag) : bool :=
  existsb (λ x, bool_decide (tag ∈ x)) recently_pruned ||
  match provided with
  | Some tags => bool_decide (is_Some (tags !! tag))
  | None => false
  end.

(** [WaitingTrustedOperations::new]; [now] is [Instant::now()]. *)
Definition new_waiting (now : Z) (op : TrustedOperation Ex)
    (provided : option (gmap Tag TxHash)) (recently_pruned : list (gset Tag)) :
    WaitingTrustedOperations Ex :=
  MkWaiting op
    (list_to_set (filter (λ tag, negb (is_provided provided recently_pruned tag)) (requires op)))
    now.

Definition satisfy_tag w (tag : Tag) : WaitingTrustedOperations Ex :=
  MkWaiting (operation w) (missing_tags w ∖ {[tag]}) (imported_at w).

Definition is_ready w : bool := bool_decide (missing_tags w = ∅).

(** The loop of [import] over the missing tags. *)
Definition add_wanted (h : TxHash) (m : gmap Tag (gset TxHash)) (tags : list Tag) :
    gmap Tag (gset TxHash) :=
  foldl (λ m tag, <[tag := {[h]} ∪ default ∅ (m !! tag)]> m) m tags.

Definition import f tx (shard : ShardIdentifier) : outcome (FutureTrustedOperations Ex) :=
  let h := op_hash (operation tx) in
  assert_that (negb (is_ready tx)) ≫= λ _,
  match waiting f !! shard with
  | Some pool => assert_that (negb (bool_decide (is_Some (pool !! h))))
  | None => Ret tt
  end ≫= λ _,
  let waiting_map := default ∅ (waiting f !! shard) in
  let wanted_map := default ∅ (wanted_tags f !! shard) in
  Ret (MkFuture
    (<[shard := add_wanted h wanted_map (set_iter (missing_tags tx))]> (wanted_tags f))
    (<[shard := <[h := tx]> waiting_map]> (waiting f))).

Definition contains f (h : TxHash) (shard : ShardIdentifier) : bool :=
  match waiting f !! shard with
  | Some pool => bool_decide (is_Some (pool !! h))
  | None => false
  end.

Definition by_hashes f (hashes : list TxHash) (shard : ShardIdentifier) :
    list (option (TrustedOperation Ex)) :=
  match waiting f !! shard with
  | Some pool => (λ h, operation <$> pool !! h) <$> hashes
  | None => []
  end.

(** The body of the loop over the hashes that wanted one tag. *)
Definition satisfy_hash (tag : Tag)
    (st : gmap TxHash (WaitingTrustedOperations Ex) * list (WaitingTrustedOperations Ex))
    (h : TxHash) :
    outcome (gmap TxHash (WaitingTrustedOperations Ex) * list (WaitingTrustedOperations Ex)) :=
  let '(pool, became_ready) := st in
  unwrap (pool !! h) ≫= λ tx,
  let tx := satisfy_tag tx tag in
  let pool := <[h := tx]> pool in
  if is_ready tx then
    unwrap (pool !! h) ≫= λ tx, Ret (delete h pool, became_ready ++ [tx])
  else Ret (pool, became_ready).

(** The body of the loop of [satisfy_tags] over the tags. *)
Definition satisfy_one (shard : ShardIdentifier)
    (st : FutureTrustedOperations Ex * list (WaitingTrustedOperations Ex)) (tag : Tag) :
    outcome (FutureTrustedOperations Ex * list (WaitingTrustedOperations Ex)) :=
  let '(f, became_ready) := st in
  match wanted_tags f !! shard with
  | None => Ret (f, became_ready)
  | Some wanted =>
      match wanted !! tag with
      | None => Ret (f, became_ready)
      | Some hashes =>
          let wanted_tags' := <[shard := delete tag wanted]> (wanted_tags f) in
          match waiting f !! shard with
          | None => Ret (MkFuture wanted_tags' (waiting f), became_ready)
          | Some pool =>
              for_each (satisfy_hash tag) (pool, became_ready) (set_iter hashes)
                ≫= λ '(pool', became_ready'),
              Ret (MkFuture wanted_tags' (<[shard := pool']> (waiting f)), became_ready')
          end
      end
  end.

Definition satisfy_tags f (tags : list Tag) (shard : ShardIdentifier) :
    outcome (FutureTrustedOperations Ex * list (WaitingTrustedOperations Ex)) :=
  for_each (satisfy_one shard) (f, []) tags.

(** The loop of [remove] over the missing tags of a removed operation. *)
Definition drop_wanted (h : TxHash) (wanted : gmap Tag (gset TxHash)) (tag : Tag) :
    gmap Tag (gset TxHash) :=
  match wanted !! tag with
  | Some hs =>
      let hs' := hs ∖ {[h]} in
      if bool_decide (hs' = ∅) then delete tag wanted else <[tag := hs']> wanted
  | None => wanted
  end.

Definition remove_hash
    (st : gmap TxHash (WaitingTrustedOperations Ex) * gmap Tag (gset TxHash) *
          list (TrustedOperation Ex)) (h : TxHash) :=
  let '(pool, wanted, removed) := st in
  match pool !! h with
  | Some tx =>
      (delete h pool, foldl (drop_wanted h) wanted (set_iter (missing_tags tx)),
       removed ++ [operation tx])
  | None => (pool, wanted, removed)
  end.

Definition remove f (hashes : list TxHash) (shard : ShardIdentifier) :
    FutureTrustedOperations Ex * list (TrustedOperation Ex) :=
  match waiting f !! shard, wanted_tags f !! shard with
  | Some pool, Some wanted =>
      let '(pool', wanted', removed) := foldl remove_hash (pool, wanted, []) hashes in
      (MkFuture (<[shard := wanted']> (wanted_tags f)) (<[shard := pool']> (waiting f)), removed)
  | _, _ => (f, [])
  end.

(** [fold] over the waiting operations of a shard. *)
Definition fold {R} (g : option R → WaitingTrustedOperations Ex → option R) f
    (shard : ShardIdentifier) : option R :=
  match waiting f !! shard with
  | Some pool => foldl g None (map_values pool)
  | None => None
  end.

Definition all f (shard : ShardIdentifier) : list (TrustedOperation Ex) :=
  match waiting f !! shard with
  | Some pool => operation <$> map_values pool
  | None => []
  end.

Definition clear f (shard : ShardIdentifier) :
    outcome (FutureTrustedOperations Ex * list (TrustedOperation Ex)) :=
  match wanted_tags f !! shard with
  | Some _ =>
      unwrap (waiting f !! shard) ≫= λ pool,
      Ret (MkFuture (<[shard := ∅]> (wanted_tags f)) (<[shard := ∅]> (waiting f)),
           operation <$> map_values pool)
  | None => Ret (f, [])
  end.

Definition len f (shard : ShardIdentifier) : Z :=
  match waiting f !! shard with Some pool => Z.of_nat (size pool) | None => 0%Z end.

(** [usize] addition, wrapping in a release build. *)
Definition bytes f (shard : ShardIdentifier) : Z :=
  match waiting f !! shard with
  | Some pool => foldl (λ acc w, u64_wrap (acc + op_bytes (operation w))) 0%Z (map_values pool)
  | None => 0%Z
  end.
End future.
End Future.

(** The Future queue keeps its index exact.  Lemmas: each operation of the
    queue, against the plain map of waiting operations of the shard. *)

Module FutureInv.
Import Future.

Section invariant.
Context `{Ord : IterOrder} {Ex : Type}.
Implicit Types (tx w : WaitingTrustedOperations Ex) (f : FutureTrustedOperations Ex).
Implicit Types (pool : gmap TxHash (WaitingTrustedOperations Ex)).
Implicit Types (wanted : gmap Tag (gset TxHash)).

Definition w_hash w : TxHash := op_hash (operation w).

(** The index of a shard lists exactly the missing tags of its operations. *)
Record shard_inv wanted pool : Prop := {
  inv_wanted : ∀ t h,
    h ∈ default ∅ (wanted !! t) ↔ ∃ w, pool !! h = Some w ∧ t ∈ missing_tags w;
  inv_nonempty : ∀ t hs, wanted !! t = Some hs → hs ≠ ∅;
  inv_hash : ∀ h w, pool !! h = Some w → w_hash w = h;
  inv_missing : ∀ h w, pool !! h = Some w → missing_tags w ≠ ∅;
}.

(** The two maps have the same shards, and every shard is exact. *)
Definition future_inv f : Prop :=
  ∀ s, match wanted_tags f !! s, waiting f !! s with
       | Some wanted, Some pool => shard_inv wanted pool
       | None, None => True
       | _, _ => False
       end.

(** The waiting operations of a shard: the abstraction of the queue. *)
Definition waiting_at f (s : ShardIdentifier) : gmap TxHash (WaitingTrustedOperations Ex) :=
  default ∅ (waiting f !! s).

(** An operation on one shard leaves the others as they are. *)
Definition only_shard (s : ShardIdentifier) f f' : Prop :=
  ∀ s', s' ≠ s → wanted_tags f' !! s' = wanted_tags f !! s' ∧ waiting f' !! s' = waiting f !! s'.

Lemma future_only_shard_refl s f : only_shard s f f.
Proof. done. Qed.

Lemma future_only_shard_trans s f1 f2 f3 : only_shard s f1 f2 → only_shard s f2 f3 → only_shard s f1 f3.
Proof.
  intros H12 H23 s' Hs. destruct (H23 s' Hs) as [-> ->]. apply (H12 s' Hs).
Qed.

Lemma only_shard_waiting_at s f f' s' :
  only_shard s f f' → s' ≠ s → waiting_at f' s' = waiting_at f s'.
Proof. intros Ho Hs. unfold waiting_at. by destruct (Ho s' Hs) as [_ ->]. Qed.

Lemma future_inv_default : future_inv (default_future (Ex := Ex)).
Proof. intros s. simpl. by rewrite !lookup_empty. Qed.

Lemma future_shard_inv_empty : shard_inv ∅ ∅.
Proof.
  split; intros *; rewrite ?lookup_empty; [|done..]. simpl. split; [set_solver|].
  by intros (w & Hw & _).
Qed.

Lemma future_inv_at f s :
  future_inv f → shard_inv (default ∅ (wanted_tags f !! s)) (waiting_at f s).
Proof.
  intros Hf. specialize (Hf s). unfold waiting_at.
  destruct (wanted_tags f !! s), (waiting f !! s); try done. apply future_shard_inv_empty.
Qed.

Lemma future_inv_put f s wanted pool :
  future_inv f → shard_inv wanted pool →
  future_inv (MkFuture (<[s := wanted]> (wanted_tags f)) (<[s := pool]> (waiting f))).
Proof.
  intros Hf Hs s'. simpl. destruct (decide (s = s')) as [<-|Hne].
  - by rewrite !lookup_insert_eq.
  - rewrite !lookup_insert_ne by done. apply Hf.
Qed.

Lemma future_only_shard_put f s wanted pool :
  only_shard s f (MkFuture (<[s := wanted]> (wanted_tags f)) (<[s := pool]> (waiting f))).
Proof. intros s' Hs. simpl. by rewrite !lookup_insert_ne by done. Qed.

Lemma waiting_at_put f s wanted pool :
  waiting_at (MkFuture (<[s := wanted]> (wanted_tags f)) (<[s := pool]> (waiting f))) s = pool.
Proof. unfold waiting_at. simpl. by rewrite lookup_insert_eq. Qed.

Lemma contains_spec f h s : contains f h s = bool_decide (is_Some (waiting_at f s !! h)).
Proof.
  unfold contains, waiting_at. destruct (waiting f !! s); [done|]. simpl.
  rewrite bool_decide_eq_false_2; [done|]. rewrite lookup_empty. by intros [? ?].
Qed.

(** *** [import] *)

Lemma add_wanted_lookup h wanted tags t h' :
  h' ∈ default ∅ (add_wanted h wanted tags !! t) ↔
  h' ∈ default ∅ (wanted !! t) ∨ (h' = h ∧ t ∈ tags).
Proof.
  unfold add_wanted. revert wanted. induction tags as [|t' tags IH]; intros wanted; simpl; [set_solver|].
  rewrite IH. destruct (decide (t' = t)) as [->|Hne].
  - rewrite lookup_insert_eq. simpl. set_solver.
  - rewrite lookup_insert_ne by done. set_solver.
Qed.

Lemma add_wanted_nonempty h wanted tags :
  (∀ t hs, wanted !! t = Some hs → hs ≠ ∅) →
  ∀ t hs, add_wanted h wanted tags !! t = Some hs → hs ≠ ∅.
Proof.
  unfold add_wanted. revert wanted. induction tags as [|t' tags IH]; intros wanted Hw; simpl; [done|].
  apply IH. intros t hs. destruct (decide (t' = t)) as [->|Hne].
  - rewrite lookup_insert_eq. intros [= <-]. set_solver.
  - rewrite lookup_insert_ne by done. apply Hw.
Qed.

Lemma shard_inv_import wanted pool tx :
  shard_inv wanted pool → missing_tags tx ≠ ∅ → pool !! w_hash tx = None →
  shard_inv (add_wanted (w_hash tx) wanted (set_iter (missing_tags tx)))
    (<[w_hash tx := tx]> pool).
Proof.
  intros [Hw Hne Hh Hm] Htx Hnew. split.
  - intros t h. rewrite add_wanted_lookup, Hw, elem_of_set_iter.
    destruct (decide (w_hash tx = h)) as [<-|Hdiff].
    + rewrite lookup_insert_eq, Hnew. naive_solver.
    + rewrite lookup_insert_ne by done. naive_solver.
  - by apply add_wanted_nonempty.
  - intros h w. rewrite lookup_insert_Some. naive_solver.
  - intros h w. rewrite lookup_insert_Some. naive_solver.
Qed.

Lemma future_import_spec f tx s :
  future_inv f → missing_tags tx ≠ ∅ → waiting_at f s !! w_hash tx = None →
  ∃ f', import f tx s = Ret f' ∧ future_inv f' ∧ only_shard s f f' ∧
    waiting_at f' s = <[w_hash tx := tx]> (waiting_at f s).
Proof.
  intros Hf Hm Hnew. unfold import, is_ready.
  rewrite bool_decide_eq_false_2 by done. simpl.
  assert (match waiting f !! s with
    | Some pool => assert_that (negb (bool_decide (is_Some (pool !! op_hash (operation tx)))))
    | None => Ret tt end = Ret tt) as ->.
  { unfold waiting_at, w_hash in Hnew. destruct (waiting f !! s) as [pool|]; [|done]. simpl in *.
    rewrite Hnew, bool_decide_eq_false_2; [done|]. by intros [? ?]. }
  simpl. eexists. split; [done|]. fold (waiting_at f s). fold (w_hash tx).
  split_and!; [|apply future_only_shard_put|apply waiting_at_put].
  apply future_inv_put; [done|]. apply shard_inv_import; [by apply future_inv_at|done..].
Qed.

(** *** [satisfy_tags] *)

Definition satisfied (X : gset Tag) w : WaitingTrustedOperations Ex :=
  MkWaiting (operation w) (missing_tags w ∖ X) (imported_at w).

(** What is left of an entry once the tags [X] are there. *)
Definition still_waiting (X : gset Tag) w : option (WaitingTrustedOperations Ex) :=
  if decide (missing_tags w ∖ X = ∅) then None else Some (satisfied X w).

(** Providing the tags [X] turns [pool] into [pool'] and makes [out] ready. *)
Record satisfies (X : gset Tag) pool pool' (out : list (WaitingTrustedOperations Ex)) : Prop := {
  sat_pool : ∀ h, pool' !! h = pool !! h ≫= still_waiting X;
  sat_out : ∀ w, w ∈ out ↔
    ∃ h w0, pool !! h = Some w0 ∧ missing_tags w0 ∖ X = ∅ ∧ w = satisfied X w0;
  sat_nodup : NoDup (w_hash <$> out);
}.

Lemma satisfied_eq X Y w :
  missing_tags w ∖ X = missing_tags w ∖ Y → satisfied X w = satisfied Y w.
Proof. intros E. unfold satisfied. by rewrite E. Qed.

Lemma satisfied_empty w : satisfied ∅ w = w.
Proof. destruct w. unfold satisfied. simpl. f_equal. set_solver. Qed.

Lemma satisfied_satisfied X Y w : satisfied Y (satisfied X w) = satisfied (X ∪ Y) w.
Proof. unfold satisfied. simpl. f_equal. set_solver. Qed.

Lemma still_waiting_compose X Y w :
  still_waiting X w ≫= still_waiting Y = still_waiting (X ∪ Y) w.
Proof.
  unfold still_waiting. case_decide as H1; simpl.
  - rewrite decide_True by set_solver. done.
  - assert (missing_tags w ∖ X ∖ Y = missing_tags w ∖ (X ∪ Y)) as -> by set_solver.
    case_decide; [done|]. by rewrite satisfied_satisfied.
Qed.

Lemma satisfies_nil pool :
  (∀ h w, pool !! h = Some w → missing_tags w ≠ ∅) → satisfies ∅ pool pool [].
Proof.
  intros Hm. split; [| |constructor].
  - intros h. destruct (pool !! h) as [w|] eqn:Hw; [|done]. simpl. unfold still_waiting.
    rewrite decide_False; [by rewrite satisfied_empty|].
    rewrite difference_empty_L. by eapply Hm.
  - intros w. split; [set_solver|]. intros (h & w0 & Hw & He & _).
    rewrite difference_empty_L in He. by destruct (Hm h w0 Hw).
Qed.

Lemma satisfies_trans X Y pool1 pool2 pool3 out1 out2 :
  (∀ h w, pool1 !! h = Some w → w_hash w = h) →
  satisfies X pool1 pool2 out1 → satisfies Y pool2 pool3 out2 →
  satisfies (X ∪ Y) pool1 pool3 (out1 ++ out2).
Proof.
  intros Hh [Hp1 Ho1 Hn1] [Hp2 Ho2 Hn2].
  assert (∀ h w, pool2 !! h = Some w → w_hash w = h) as Hh2.
  { intros h w. rewrite Hp1. destruct (pool1 !! h) as [w0|] eqn:Hw; [|done]. simpl.
    unfold still_waiting. case_decide; [done|]. intros [= <-]. exact (Hh h w0 Hw). }
  split.
  - intros h. rewrite Hp2, Hp1. destruct (pool1 !! h) as [w|]; [|done]. simpl.
    apply still_waiting_compose.
  - intros w. rewrite elem_of_app, Ho1, Ho2. split.
    + intros [(h & w0 & Hw & He & ->)|(h & w0 & Hw & He & ->)].
      * exists h, w0. split_and!; [done|set_solver|]. apply satisfied_eq. set_solver.
      * rewrite Hp1 in Hw. destruct (pool1 !! h) as [w1|] eqn:Hw1; [|done]. simpl in Hw.
        unfold still_waiting in Hw. case_decide; [done|]. injection Hw as <-. simpl in He.
        exists h, w1. split_and!; [done|set_solver|]. by rewrite satisfied_satisfied.
    + intros (h & w0 & Hw & He & ->). destruct (decide (missing_tags w0 ∖ X = ∅)) as [E|E].
      * left. exists h, w0. split_and!; [done..|]. apply satisfied_eq. set_solver.
      * right. exists h, (satisfied X w0). rewrite Hp1, Hw. simpl. unfold still_waiting.
        rewrite decide_False by done. split_and!; [done|simpl; set_solver|].
        by rewrite satisfied_satisfied.
  - rewrite fmap_app. apply NoDup_app. split_and!; [done| |done].
    intros h (w1 & -> & Hw1)%list_elem_of_fmap (w2 & Heq & Hw2)%list_elem_of_fmap.
    apply Ho1 in Hw1 as (h1 & w0 & Hw0 & He & ->). apply Ho2 in Hw2 as (h2 & w3 & Hw3 & _ & ->).
    assert (h1 = h2) as <-.
    { rewrite <-(Hh _ _ Hw0), <-(Hh2 _ _ Hw3). exact Heq. }
    rewrite Hp1, Hw0 in Hw3. simpl in Hw3. unfold still_waiting in Hw3.
    by rewrite decide_True in Hw3.
Qed.

(** One hash of the loop over the operations that want a tag. *)
Lemma satisfy_hash_spec tag pool out h w :
  pool !! h = Some w →
  satisfy_hash tag (pool, out) h =
  Ret (partial_alter (λ _, still_waiting {[tag]} w) h pool,
       out ++ (if decide (missing_tags w ∖ {[tag]} = ∅) then [satisfied {[tag]} w] else [])).
Proof.
  intros Hw. unfold satisfy_hash. rewrite Hw. simpl.
  unfold is_ready, satisfy_tag, still_waiting. simpl.
  destruct (decide (missing_tags w ∖ {[tag]} = ∅)) as [E|E].
  - rewrite bool_decide_eq_true_2 by done. rewrite lookup_insert_eq. simpl.
    by rewrite delete_insert_eq.
  - rewrite bool_decide_eq_false_2 by done. by rewrite app_nil_r.
Qed.

Lemma lookup_partial_alter_const {A} (m : gmap TxHash A) (o : option A) h h' :
  partial_alter (λ _, o) h m !! h' = if decide (h = h') then o else m !! h'.
Proof.
  case_decide as E; [subst; apply lookup_partial_alter_eq|by apply lookup_partial_alter_ne].
Qed.

(** The loop over the operations [hs] that want [tag]. *)
Lemma satisfy_hashes_spec tag pool out0 hs :
  NoDup hs → (∀ h w, pool !! h = Some w → w_hash w = h) →
  (∀ h, h ∈ hs → ∃ w, pool !! h = Some w) →
  ∃ pool' out, for_each (satisfy_hash tag) (pool, out0) hs = Ret (pool', out0 ++ out) ∧
    (∀ h, pool' !! h =
       if decide (h ∈ hs) then pool !! h ≫= still_waiting {[tag]} else pool !! h) ∧
    (∀ w, w ∈ out ↔ ∃ h w0, h ∈ hs ∧ pool !! h = Some w0 ∧ missing_tags w0 ∖ {[tag]} = ∅ ∧
       w = satisfied {[tag]} w0) ∧
    NoDup (w_hash <$> out).
Proof.
  revert pool out0. induction hs as [|h hs IH]; intros pool out0 Hnd Hh Hin.
  { exists pool, []. split_and!; simpl; [by rewrite app_nil_r|done| |constructor].
    intros w. split; [set_solver|]. intros (h & w0 & Hn & _). set_solver. }
  apply NoDup_cons in Hnd as [Hnot Hnd].
  destruct (Hin h ltac:(left)) as [w Hw].
  cbn [for_each]. rewrite (satisfy_hash_spec tag pool out0 h w Hw). simpl.
  set (pool1 := partial_alter _ h pool). set (o1 := if decide _ then _ else _ : list _).
  assert (∀ h', h' ≠ h → pool1 !! h' = pool !! h') as Hother.
  { intros h' Hne. unfold pool1. rewrite lookup_partial_alter_const. by rewrite decide_False. }
  destruct (IH pool1 (out0 ++ o1)) as (pool' & out & -> & Hp' & Ho & Hnd'); [done|..].
  { intros h' w'. unfold pool1. rewrite lookup_partial_alter_const. case_decide; [|apply Hh].
    subst. unfold still_waiting. case_decide; [done|]. intros [= <-]. exact (Hh _ w Hw). }
  { intros h' Hh'. rewrite Hother by (intros ->; done). apply Hin. by right. }
  exists pool', (o1 ++ out). rewrite app_assoc. split_and!; [done|..].
  - intros h'. rewrite Hp'. destruct (decide (h' = h)) as [->|Hne].
    + rewrite decide_False by done. rewrite decide_True by left. unfold pool1.
      rewrite lookup_partial_alter_const, decide_True by done. by rewrite Hw.
    + rewrite Hother by done. assert (h' ∈ h :: hs ↔ h' ∈ hs) by set_solver.
      repeat case_decide; tauto || done.
  - intros w'. rewrite elem_of_app, Ho. split.
    + intros [Ho1|(h' & w0 & Hh' & Hw0 & He & ->)].
      * unfold o1 in Ho1. case_decide; [|set_solver]. apply list_elem_of_singleton in Ho1.
        subst. exists h, w. split_and!; [by left|done..].
      * exists h', w0. rewrite Hother in Hw0 by (intros ->; done). split_and!; [by right|done..].
    + intros (h' & w0 & Hh' & Hw0 & He & ->). apply elem_of_cons in Hh' as [->|Hh'].
      * left. simplify_eq. unfold o1. rewrite decide_True by done. by left.
      * right. exists h', w0. by rewrite Hother by (intros ->; done).
  - rewrite fmap_app. apply NoDup_app. split_and!; [|..|done].
    { unfold o1. case_decide; simpl; [apply NoDup_singleton|constructor]. }
    intros x Hx (w' & -> & Hw')%list_elem_of_fmap. apply Ho in Hw' as (h' & w0 & Hh' & Hw0 & _ & ->).
    rewrite Hother in Hw0 by (intros ->; done). apply Hh in Hw0 as Hhash.
    unfold o1 in Hx. case_decide; [|set_solver]. simpl in Hx.
    apply list_elem_of_singleton in Hx. change (w_hash w0 = w_hash w) in Hx.
    rewrite Hhash, (Hh h w Hw) in Hx. congruence.
Qed.

Lemma still_waiting_unwanted X w :
  missing_tags w ∩ X = ∅ → missing_tags w ≠ ∅ → still_waiting X w = Some w.
Proof.
  intros Hd Hm. unfold still_waiting.
  assert (missing_tags w ∖ X = missing_tags w) as E by set_solver.
  rewrite E, decide_False by done. f_equal.
  rewrite <-(satisfied_empty w) at 2. apply satisfied_eq. set_solver.
Qed.

(** The index after a tag was satisfied. *)
Lemma shard_inv_satisfied wanted pool pool' out tag :
  shard_inv wanted pool → satisfies {[tag]} pool pool' out →
  shard_inv (delete tag wanted) pool'.
Proof.
  intros [Hw Hne Hh Hm] [Hp _ _]. split.
  - intros t h. rewrite Hp. destruct (decide (tag = t)) as [<-|Ht].
    + rewrite lookup_delete_eq. simpl. split; [set_solver|].
      intros (w & Hw' & Hin). destruct (pool !! h) as [w0|]; [|done]. simpl in Hw'.
      unfold still_waiting in Hw'. case_decide; [done|]. injection Hw' as <-. simpl in Hin. set_solver.
    + rewrite lookup_delete_ne, Hw by done. destruct (pool !! h) as [w0|]; simpl; [|naive_solver].
      unfold still_waiting. case_decide as He.
      * split; [|naive_solver]. intros (w & [= ->] & Hin). set_solver.
      * split; [intros (w & [= ->] & Hin)|intros (w & [= <-] & Hin)]; eexists;
          (split; [done|]); simpl in *; set_solver.
  - intros t hs. rewrite lookup_delete_Some. intros [_ Ht]. by eapply Hne.
  - intros h w. rewrite Hp. destruct (pool !! h) as [w0|] eqn:Hw0; [|done]. simpl.
    unfold still_waiting. case_decide; [done|]. intros [= <-]. by apply (Hh h w0).
  - intros h w. rewrite Hp. destruct (pool !! h) as [w0|] eqn:Hw0; [|done]. simpl.
    unfold still_waiting. case_decide; [done|]. by intros [= <-].
Qed.

Lemma satisfy_one_spec f out0 tag s :
  future_inv f →
  ∃ f' out, satisfy_one s (f, out0) tag = Ret (f', out0 ++ out) ∧ future_inv f' ∧
    only_shard s f f' ∧ satisfies {[tag]} (waiting_at f s) (waiting_at f' s) out.
Proof.
  intros Hf. pose proof (future_inv_at f s Hf) as Hs. unfold satisfy_one.
  assert (default ∅ (wanted_tags f !! s) !! tag = None →
    satisfies {[tag]} (waiting_at f s) (waiting_at f s) []) as Hnone.
  { intros Hn. destruct Hs as [Hw _ _ Hm].
    assert (∀ h w, waiting_at f s !! h = Some w → tag ∉ missing_tags w) as Hno.
    { intros h w Hh Hin. assert (h ∈ default ∅ (default ∅ (wanted_tags f !! s) !! tag)) as Hx.
      { apply Hw. eauto. } rewrite Hn in Hx. simpl in Hx. set_solver. }
    split; [| |constructor].
    - intros h. destruct (waiting_at f s !! h) as [w|] eqn:Hh; [|done]. simpl.
      rewrite still_waiting_unwanted; [done| |by eapply Hm]. specialize (Hno h w Hh). set_solver.
    - intros w. split; [set_solver|]. intros (h & w0 & Hh & He & _).
      specialize (Hno h w0 Hh). specialize (Hm h w0 Hh). set_solver. }
  specialize (Hf s) as Hfs.
  destruct (wanted_tags f !! s) as [wanted|] eqn:Hwant; simpl in *.
  2:{ exists f, []. rewrite app_nil_r. split_and!; [done..|]. apply Hnone. by rewrite lookup_empty. }
  destruct (waiting f !! s) as [pool|] eqn:Hpool; [|done].
  assert (waiting_at f s = pool) as Hat by (unfold waiting_at; by rewrite Hpool).
  destruct (wanted !! tag) as [hs|] eqn:Htag.
  2:{ exists f, []. rewrite app_nil_r. by split_and!; [| | |apply Hnone]. }
  clear Hnone. rewrite Hat in Hs. destruct Hfs as [Hw Hne Hh Hm].
  assert (∀ h, h ∈ hs ↔ ∃ w, pool !! h = Some w ∧ tag ∈ missing_tags w) as Hhs.
  { intros h. rewrite <-Hw, Htag. done. }
  destruct (satisfy_hashes_spec tag pool out0 (set_iter hs)) as (pool' & out & -> & Hp & Ho & Hnd).
  - apply NoDup_set_iter.
  - done.
  - intros h Hin. apply elem_of_set_iter, Hhs in Hin as (w & ? & _). eauto.
  - assert (satisfies {[tag]} pool pool' out) as Hsat.
    { split; [| |done].
      - intros h. rewrite Hp. case_decide as Hin; [done|]. rewrite elem_of_set_iter, Hhs in Hin.
        destruct (pool !! h) as [w|] eqn:Hpw; [|done]. simpl.
        rewrite still_waiting_unwanted; [done| |by eapply Hm].
        assert (tag ∉ missing_tags w) by naive_solver. set_solver.
      - intros w. rewrite Ho. split; [naive_solver|]. intros (h & w0 & Hpw & He & ->).
        exists h, w0. split_and!; [|done..]. rewrite elem_of_set_iter, Hhs. exists w0. split; [done|].
        specialize (Hm h w0 Hpw). destruct (set_choose_L _ Hm) as [t Ht]. set_solver. }
    simpl. eexists _, out. split; [done|]. rewrite waiting_at_put, Hat.
    split_and!; [|apply future_only_shard_put|done].
    apply future_inv_put; [done|]. by eapply shard_inv_satisfied.
Qed.

Lemma satisfy_tags_spec f tags s :
  future_inv f →
  ∃ f' out, satisfy_tags f tags s = Ret (f', out) ∧ future_inv f' ∧ only_shard s f f' ∧
    satisfies (list_to_set tags) (waiting_at f s) (waiting_at f' s) out.
Proof.
  intros Hf. unfold satisfy_tags.
  destruct (for_each_total (satisfy_one s)
    (λ pre st, future_inv st.1 ∧ only_shard s f st.1 ∧
       satisfies (list_to_set pre) (waiting_at f s) (waiting_at st.1 s) st.2) tags (f, []))
    as ([f' out] & Heq & Hf' & Ho & Hsat).
  - simpl. split_and!; [done..|]. apply satisfies_nil. apply future_inv_at, Hf.
  - intros pre tag post [f1 out1] _ (Hf1 & Ho1 & Hsat1). simpl in *.
    destruct (satisfy_one_spec f1 out1 tag s Hf1) as (f2 & out2 & Heq & Hf2 & Ho2 & Hsat2).
    exists (f2, out1 ++ out2). split; [done|]. simpl. split_and!; [done|by eapply future_only_shard_trans|].
    rewrite list_to_set_app_L. simpl. rewrite union_empty_r_L.
    eapply satisfies_trans; [|done..]. apply future_inv_at, Hf.
  - exists f', out. eauto.
Qed.

(** *** [remove] and [clear] *)

Lemma drop_wanted_lookup h wanted tags t h' :
  h' ∈ default ∅ (foldl (drop_wanted h) wanted tags !! t) ↔
  h' ∈ default ∅ (wanted !! t) ∧ ¬ (h' = h ∧ t ∈ tags).
Proof.
  revert wanted. induction tags as [|t' tags IH]; intros wanted; simpl; [set_solver|].
  rewrite IH. unfold drop_wanted. destruct (wanted !! t') as [hs|] eqn:Ht'.
  - case_bool_decide as He.
    + destruct (decide (t' = t)) as [->|Hne].
      * rewrite lookup_delete_eq, Ht'. simpl. set_solver.
      * rewrite lookup_delete_ne by done. set_solver.
    + destruct (decide (t' = t)) as [->|Hne].
      * rewrite lookup_insert_eq, Ht'. simpl. set_solver.
      * rewrite lookup_insert_ne by done. set_solver.
  - destruct (decide (t' = t)) as [->|Hne]; [rewrite Ht'|]; simpl; set_solver.
Qed.

Lemma drop_wanted_nonempty h wanted tags :
  (∀ t hs, wanted !! t = Some hs → hs ≠ ∅) →
  ∀ t hs, foldl (drop_wanted h) wanted tags !! t = Some hs → hs ≠ ∅.
Proof.
  revert wanted. induction tags as [|t' tags IH]; intros wanted Hw; simpl; [done|].
  apply IH. intros t hs. unfold drop_wanted. destruct (wanted !! t') as [hs'|]; [|apply Hw].
  case_bool_decide.
  - rewrite lookup_delete_Some. intros [_ ?]. by eapply Hw.
  - rewrite lookup_insert_Some. intros [[_ <-]|[_ ?]]; [done|by eapply Hw].
Qed.

Lemma shard_inv_remove wanted pool h w :
  shard_inv wanted pool → pool !! h = Some w →
  shard_inv (foldl (drop_wanted h) wanted (set_iter (missing_tags w))) (delete h pool).
Proof.
  intros [Hw Hne Hh Hm] Hpw. split.
  - intros t h'. rewrite drop_wanted_lookup, Hw, elem_of_set_iter.
    destruct (decide (h = h')) as [<-|Hd].
    + rewrite lookup_delete_eq. naive_solver.
    + rewrite lookup_delete_ne by done. naive_solver.
  - by apply drop_wanted_nonempty.
  - intros h' w'. rewrite lookup_delete_Some. intros [_ ?]. by apply Hh.
  - intros h' w'. rewrite lookup_delete_Some. intros [_ ?]. by eapply Hm.
Qed.

Lemma remove_hashes_spec wanted pool removed hashes pool' wanted' removed' :
  shard_inv wanted pool →
  foldl remove_hash (pool, wanted, removed) hashes = (pool', wanted', removed') →
  shard_inv wanted' pool' ∧
  (∀ h, pool' !! h = if decide (h ∈ hashes) then None else pool !! h) ∧
  ∃ out, removed' = removed ++ out ∧ NoDup (op_hash <$> out) ∧
    ∀ op, op ∈ out ↔ ∃ h w, h ∈ hashes ∧ pool !! h = Some w ∧ operation w = op.
Proof.
  revert wanted pool removed. induction hashes as [|h hashes IH]; intros wanted pool removed Hs; simpl.
  { intros [= <- <- <-]. split_and!; [done..|]. exists []. rewrite app_nil_r. split_and!; [done|constructor|].
    intros op. split; [set_solver|]. intros (h & w & Hn & _). set_solver. }
  destruct (pool !! h) as [w|] eqn:Hw.
  - intros (Hs' & Hp & out & -> & Hnd & Ho)%IH; [|by apply shard_inv_remove]. split_and!; [done| |].
    + intros h'. rewrite Hp. destruct (decide (h = h')) as [<-|Hne].
      * rewrite lookup_delete_eq. by repeat case_decide; set_solver.
      * rewrite lookup_delete_ne by done. repeat case_decide; set_solver.
    + exists (operation w :: out). rewrite <-app_assoc. split_and!; [done|..].
      * simpl. constructor; [|done]. intros (op & Heq & Hop)%list_elem_of_fmap.
        apply Ho in Hop as (h' & w' & _ & Hw' & <-). apply lookup_delete_Some in Hw' as [Hne Hw'].
        destruct Hs as [_ _ Hh _]. apply Hne. rewrite <-(Hh h w Hw), <-(Hh h' w' Hw'). exact Heq.
      * intros op. rewrite elem_of_cons, Ho. split.
        -- intros [->|(h' & w' & Hin & Hw' & <-)]; [exists h, w; set_solver|].
           apply lookup_delete_Some in Hw' as [_ Hw']. exists h', w'. set_solver.
        -- intros (h' & w' & [->|Hin]%elem_of_cons & Hw' & <-); [left; congruence|].
           destruct (decide (h = h')) as [<-|Hne]; [left; congruence|right].
           exists h', w'. by rewrite lookup_delete_ne.
  - intros (Hs' & Hp & out & -> & Hnd & Ho)%IH; [|done]. split_and!; [done| |].
    + intros h'. rewrite Hp. destruct (decide (h = h')) as [<-|Hne].
      * rewrite Hw. by repeat case_decide.
      * repeat case_decide; set_solver.
    + exists out. split_and!; [done..|]. intros op. rewrite Ho. split.
      * intros (h' & w' & Hin & Hw' & Heq). exists h', w'. set_solver.
      * intros (h' & w' & [->|Hin]%elem_of_cons & Hw' & Heq); [congruence|]. eauto.
Qed.

Lemma remove_spec f hashes s f' removed :
  future_inv f → remove f hashes s = (f', removed) →
  future_inv f' ∧ only_shard s f f' ∧
  (∀ h, waiting_at f' s !! h = if decide (h ∈ hashes) then None else waiting_at f s !! h) ∧
  NoDup (op_hash <$> removed) ∧
  ∀ op, op ∈ removed ↔ ∃ h w, h ∈ hashes ∧ waiting_at f s !! h = Some w ∧ operation w = op.
Proof.
  intros Hf. unfold remove. specialize (Hf s) as Hs. unfold waiting_at at 2 3.
  destruct (waiting f !! s) as [pool|] eqn:Hpool.
  - destruct (wanted_tags f !! s) as [wanted|]; [|done].
    destruct (foldl remove_hash (pool, wanted, []) hashes) as [[pool' wanted'] removed'] eqn:Hfold.
    intros [= <- <-]. apply (remove_hashes_spec _ _ _ _ _ _ _ Hs) in Hfold as (Hs' & Hp & out & -> & Hnd & Ho).
    rewrite waiting_at_put. split_and!; [by apply future_inv_put|apply future_only_shard_put|done..].
  - destruct (wanted_tags f !! s); [done|]. intros [= <- <-]. unfold waiting_at. rewrite Hpool. simpl.
    split_and!; [done|done| |constructor|].
    + intros h. rewrite lookup_empty. by case_decide.
    + intros op. split; [set_solver|]. intros (h & w & _ & Hw & _). by rewrite lookup_empty in Hw.
Qed.

Lemma clear_spec f s :
  future_inv f → ∃ f' removed, clear f s = Ret (f', removed) ∧ future_inv f' ∧
    only_shard s f f' ∧ waiting_at f' s = ∅ ∧
    removed ≡ₚ operation <$> (map_to_list (waiting_at f s)).*2.
Proof.
  intros Hf. unfold clear. specialize (Hf s) as Hs. unfold waiting_at at 2.
  destruct (wanted_tags f !! s) as [wanted|].
  - destruct (waiting f !! s) as [pool|] eqn:Hpool; [|done]. simpl. eexists _, _. split; [done|].
    rewrite waiting_at_put. split_and!; [|apply future_only_shard_put|done|by rewrite map_values_perm].
    apply future_inv_put; [done|apply future_shard_inv_empty].
  - destruct (waiting f !! s) eqn:Hpool; [done|]. exists f, []. unfold waiting_at.
    rewrite Hpool. simpl. by rewrite map_to_list_empty.
Qed.
End invariant.
End FutureInv.
