(* ===== verification/ReadyPool.v ===== *)
(** The Ready queue (core-primitives/top-pool/src/ready.rs): operations whose
    requirements are met, with the index [provided_tags], the dependency links
    [unlocks] and the set [best] of operations that wait for nothing.  A [Vec]
    used as a stack is a list with its top at the head. *)

From stdpp Require Import base gmap fin_maps sets numbers list.
From S2P Require Import Prelude Collections PoolTypes TrackedMap FuturePool.

Module Ready.
Import Future(WaitingTrustedOperations).

Record OperationRef (Ex : Type) := MkRef {
  ref_operation : TrustedOperation Ex;
  insertion_id : Z;
}.
Arguments MkRef {Ex} _ _.
Arguments ref_operation {Ex} _.
Arguments insertion_id {Ex} _.

Record ReadyTx (Ex : Type) := MkReadyTx {
  tx_ref : OperationRef Ex;
  unlocks : list TxHash;
  requires_offset : nat;
}.
Arguments MkReadyTx {Ex} _ _ _.
Arguments tx_ref {Ex} _.
Arguments unlocks {Ex} _.
Arguments requires_offset {Ex} _.

Definition tx_op {Ex} (tx : ReadyTx Ex) : TrustedOperation Ex := ref_operation (tx_ref tx).

(** [impl Size for ReadyTx]. *)
#[export] Instance ready_tx_size {Ex} : Tracked.Size (ReadyTx Ex) := λ tx, op_bytes (tx_op tx).

Abbreviation ReadyMap Ex := (Tracked.TrackedMap TxHash (ReadyTx Ex)).

Record ReadyOperations (Ex : Type) := MkReady {
  insertion_ids : gmap ShardIdentifier Z;
  provided_tags : gmap ShardIdentifier (gmap Tag TxHash);
  ready : gmap ShardIdentifier (ReadyMap Ex);
  best : gmap ShardIdentifier (list (OperationRef Ex));
}.
Arguments MkReady {Ex} _ _ _ _.
Arguments insertion_ids {Ex} _.
Arguments provided_tags {Ex} _.
Arguments ready {Ex} _.
Arguments best {Ex} _.

Section ready.
Context `{Ord : IterOrder} {Ex : Type}.
Implicit Types (r : ReadyOperations Ex) (tx : ReadyTx Ex) (rm : ReadyMap Ex).
Implicit Types (shard : ShardIdentifier) (op : TrustedOperation Ex).

(** [Ord for OperationRef]: higher priority, then shorter validity, then older
    insertion is greater. *)
Definition ref_cmp (a b : OperationRef Ex) : comparison :=
  match (priority (ref_operation a) ?= priority (ref_operation b))%Z with
  | Eq =>
      match (valid_till (ref_operation b) ?= valid_till (ref_operation a))%Z with
      | Eq => (insertion_id b ?= insertion_id a)%Z
      | c => c
      end
  | c => c
  end.

Definition default_ready : ReadyOperations Ex := MkReady ∅ ∅ ∅ ∅.

Definition set_unlocks (u : list TxHash) tx : ReadyTx Ex :=
  MkReadyTx (tx_ref tx) u (requires_offset tx).

Definition set_offset (n : nat) tx : ReadyTx Ex := MkReadyTx (tx_ref tx) (unlocks tx) n.

Definition provided_tags_of r shard : option (gmap Tag TxHash) := provided_tags r !! shard.

Definition get_shards r : list ShardIdentifier := map_keys (ready r).

(** *** Removing a subtree *)

(** State of the removal loop: what [self.provided_tags] and [self.best] hold
    for the shard ([None]: no entry, an [unwrap] on it panics), the borrowed
    ready map, the stack and the result. *)
Definition removal_state : Type :=
  ReadyMap Ex * option (gmap Tag TxHash) * option (list (OperationRef Ex)) *
  list TxHash * list (TrustedOperation Ex).

(** Not in the filter: the tag goes away with its provider. *)
Definition invalidated (tag_filter : option (gset Tag)) (tag : Tag) : bool :=
  match tag_filter with
  | Some F => negb (bool_decide (tag ∈ F))
  | None => true
  end.

(** The loop "remove entries from provided_tags". *)
Definition forget_tags (tags : option (gmap Tag TxHash)) (l : list Tag) :
    outcome (option (gmap Tag TxHash)) :=
  for_each (λ tags tag, unwrap tags ≫= λ m, Ret (Some (delete tag m))) tags l.

(** The loop "remove from unlocks".  In the source the inner [hash] is the
    provider of the tag and shadows the hash of the removed operation, so it is
    the provider's own hash that is taken out of the provider's [unlocks]. *)
Definition unlink_providers (tags : option (gmap Tag TxHash)) rm (l : list Tag) :
    outcome (ReadyMap Ex) :=
  for_each (λ rm tag,
    unwrap tags ≫= λ m,
    Ret match m !! tag with
        | Some hash =>
            Tracked.get_mut rm hash (λ tx, set_unlocks (remove_item (unlocks tx) hash) tx)
        | None => rm
        end) rm l.

Definition removal_step (tag_filter : option (gset Tag)) (st : removal_state) :
    outcome (removal_state + removal_state) :=
  let '(rm, tags, bst, to_remove, removed) := st in
  match to_remove with
  | [] => Ret (inr st)
  | hash :: to_remove =>
      match Tracked.remove rm hash with
      | (rm, None) => Ret (inl (rm, tags, bst, to_remove, removed))
      | (rm, Some tx) =>
          let invalid := filter (λ tag, invalidated tag_filter tag) (provides (tx_op tx)) in
          let removed_some_tags := negb (bool_decide (invalid = [])) in
          forget_tags tags invalid ≫= λ tags,
          unlink_providers tags rm (requires (tx_op tx)) ≫= λ rm,
          unwrap bst ≫= λ b,
          let to_remove :=
            if removed_some_tags then reverse (unlocks tx) ++ to_remove else to_remove in
          Ret (inl (rm, tags, Some (bt_remove ref_cmp (tx_ref tx) b), to_remove,
                    removed ++ [tx_op tx]))
      end
  end.

(** All links of a ready map: every iteration pops one entry of the stack, and
    a removed operation adds its links once. *)
Definition total_unlocks (m : gmap TxHash (ReadyTx Ex)) : nat :=
  map_fold (λ _ tx acc, length (unlocks tx) + acc) 0 m.

Definition remove_subtree_with_tag_filter r (to_remove : list TxHash)
    (tag_filter : option (gset Tag)) shard :
    outcome (ReadyOperations Ex * list (TrustedOperation Ex)) :=
  match ready r !! shard with
  | None => Ret (r, [])
  | Some rm =>
      loop (S (length to_remove + total_unlocks (Tracked.index rm)))
        (removal_step tag_filter)
        (rm, provided_tags r !! shard, best r !! shard, reverse to_remove, [])
        ≫= λ '(rm, tags, bst, _, removed),
      Ret (MkReady (insertion_ids r)
             (partial_alter (λ _, tags) shard (provided_tags r))
             (<[shard := rm]> (ready r))
             (partial_alter (λ _, bst) shard (best r)), removed)
  end.

Definition remove_subtree r (hashes : list TxHash) shard :
    outcome (ReadyOperations Ex * list (TrustedOperation Ex)) :=
  remove_subtree_with_tag_filter r hashes None shard.

(** *** Import *)

Definition replaced_hashes (tag_map : gmap Tag TxHash) op : gset TxHash :=
  list_to_set (omap (λ tag, tag_map !! tag) (provides op)).

Definition replace_previous r op shard :
    outcome (ReadyOperations Ex *
             result (list (TrustedOperation Ex) * list TxHash) PoolError) :=
  match provided_tags r !! shard with
  | None => Ret (r, Ok ([], []))
  | Some tag_map =>
      let hashes := replaced_hashes tag_map op in
      if bool_decide (hashes = ∅) then Ret (r, Ok ([], []))
      else
        unwrap (ready r !! shard) ≫= λ rm,
        let old := omap (Tracked.get rm) (set_iter hashes) in
        let old_priority :=
          foldl (λ total tx, u64_saturating_add total (priority (tx_op tx))) 0%Z old in
        if (priority op <=? old_priority)%Z then Ret (r, Err (TooLowPriority (priority op)))
        else
          let unlocked := foldl (λ l tx, l ++ unlocks tx) [] old in
          remove_subtree_with_tag_filter r (set_iter hashes)
            (Some (list_to_set (provides op))) shard ≫= λ '(r', removed),
          Ret (r', Ok (removed, unlocked))
  end.

(** The loop "Add links to operations that unlock the current one". *)
Definition link_step (tag_map : gmap Tag TxHash) (hash : TxHash)
    (st : ReadyMap Ex * bool * nat) (tag : Tag) : outcome (ReadyMap Ex * bool * nat) :=
  let '(rm, goes_to_best, offset) := st in
  match tag_map !! tag with
  | Some other =>
      unwrap (Tracked.get rm other) ≫= λ _,
      Ret (Tracked.get_mut rm other (λ tx, set_unlocks (unlocks tx ++ [hash]) tx), false, offset)
  | None => Ret (rm, goes_to_best, S offset)
  end.

Definition provide_tags (hash : TxHash) (tag_map : gmap Tag TxHash) (tags : list Tag) :
    gmap Tag TxHash :=
  foldl (λ m tag, <[tag := hash]> m) tag_map tags.

Definition import r (w : WaitingTrustedOperations Ex) shard :
    outcome (ReadyOperations Ex * result (list (TrustedOperation Ex)) PoolError) :=
  let op := Future.operation w in
  let hash := op_hash op in
  assert_that (Future.is_ready w) ≫= λ _,
  match ready r !! shard with
  | Some rm => assert_that (negb (Tracked.contains_key rm hash))
  | None => Ret tt
  end ≫= λ _,
  let id := u64_wrap (default 0%Z (insertion_ids r !! shard) + 1) in
  let r := MkReady (<[shard := id]> (insertion_ids r)) (provided_tags r) (ready r) (best r) in
  replace_previous r op shard ≫= λ '(r, res),
  match res with
  | Err e => Ret (r, Err e)
  | Ok (replaced, unlocked) =>
      let rm := default Tracked.empty (ready r !! shard) in
      let tag_map := default ∅ (provided_tags r !! shard) in
      for_each (link_step tag_map hash) (rm, true, 0) (requires op)
        ≫= λ '(rm, goes_to_best, offset),
      let ref := MkRef op id in
      let best_set := default [] (best r !! shard) in
      let best_set := if goes_to_best : bool then bt_insert ref_cmp ref best_set else best_set in
      Ret (MkReady (insertion_ids r)
             (<[shard := provide_tags hash tag_map (provides op)]> (provided_tags r))
             (<[shard := (Tracked.insert rm hash (MkReadyTx ref unlocked offset)).1]> (ready r))
             (<[shard := best_set]> (best r)), Ok replaced)
  end.

(** *** Queries *)

Definition fold {R} (g : option R → ReadyTx Ex → option R) r shard : option R :=
  match ready r !! shard with
  | Some rm => foldl g None (Tracked.values rm)
  | None => None
  end.

Definition contains r (hash : TxHash) shard : bool :=
  match ready r !! shard with
  | Some rm => Tracked.contains_key rm hash
  | None => false
  end.

Definition by_hashes r (hashes : list TxHash) shard : list (option (TrustedOperation Ex)) :=
  match ready r !! shard with
  | Some rm => (λ hash, tx_op <$> Tracked.get rm hash) <$> hashes
  | None => []
  end.

Definition by_hash r (hash : TxHash) shard : option (TrustedOperation Ex) :=
  default None (head (by_hashes r [hash] shard)).

Definition len r shard : Z :=
  match ready r !! shard with Some rm => Tracked.len rm | None => 0%Z end.

Definition bytes r shard : Z :=
  match ready r !! shard with Some rm => Tracked.bytes rm | None => 0%Z end.

(** *** Pruning *)

(** The closure [find_previous]: unlink the pruned operation from the provider
    of a tag it required; a provider that unlocks nothing else is pruned too. *)
Definition find_previous (tags : gmap Tag TxHash) (hash : TxHash) rm (tag : Tag) :
    ReadyMap Ex * option (list Tag) :=
  match tags !! tag with
  | None => (rm, None)
  | Some prev_hash =>
      match Tracked.get rm prev_hash with
      | None => (rm, None)
      | Some tx2 =>
          let u := remove_item (unlocks tx2) hash in
          (Tracked.get_mut rm prev_hash (set_unlocks u),
           if bool_decide (u = []) then Some (provides (tx_op tx2)) else None)
      end
  end.

(** "find previous operations"; the stack grows by their tags. *)
Definition prune_previous (tags : gmap Tag TxHash) (hash : TxHash)
    (st : ReadyMap Ex * list Tag) (tag : Tag) : ReadyMap Ex * list Tag :=
  let '(rm, to_remove) := st in
  let '(rm, res) := find_previous tags hash rm tag in
  match res with
  | Some l => (rm, reverse l ++ to_remove)
  | None => (rm, to_remove)
  end.

(** "add the operations that just got unlocked to `best`". *)
Definition unlock_step (st : ReadyMap Ex * list (OperationRef Ex)) (hash : TxHash) :
    ReadyMap Ex * list (OperationRef Ex) :=
  let '(rm, b) := st in
  match Tracked.get rm hash with
  | None => (rm, b)
  | Some tx =>
      let tx' := set_offset (S (requires_offset tx)) tx in
      (Tracked.get_mut rm hash (λ _, tx'),
       if decide (requires_offset tx' = length (requires (tx_op tx')))
       then bt_insert ref_cmp (tx_ref tx') b else b)
  end.

(** The loop that clears the other tags of the pruned operation, with its
    [assert_eq!]. *)
Definition clear_tag (current_tag : Tag) (hash : TxHash) (tags : gmap Tag TxHash) (tag : Tag) :
    outcome (gmap Tag TxHash) :=
  assert_that (bool_decide (tags !! tag = if decide (current_tag = tag) then None else Some hash))
    ≫= λ _, Ret (delete tag tags).

Definition prune_state : Type :=
  option (gmap Tag TxHash) * option (ReadyMap Ex) * option (list (OperationRef Ex)) *
  list Tag * list (TrustedOperation Ex).

Definition prune_step (st : prune_state) : outcome (prune_state + prune_state) :=
  let '(tags, rm, b, to_remove, removed) := st in
  match to_remove with
  | [] => Ret (inr st)
  | tag :: to_remove =>
      unwrap tags ≫= λ tags,
      match tags !! tag with
      | None => Ret (inl (Some tags, rm, b, to_remove, removed))
      | Some found =>
          let tags := delete tag tags in
          unwrap rm ≫= λ rm,
          match Tracked.remove rm found with
          | (rm, None) => Ret (inl (Some tags, Some rm, b, to_remove, removed))
          | (rm, Some tx) =>
              unwrap b ≫= λ b,
              let b := bt_remove ref_cmp (tx_ref tx) b in
              let op := tx_op tx in
              let '(rm, to_remove) :=
                foldl (prune_previous tags (op_hash op)) (rm, to_remove) (requires op) in
              let '(rm, b) := foldl unlock_step (rm, b) (unlocks tx) in
              for_each (clear_tag tag (op_hash op)) tags (provides op) ≫= λ tags,
              Ret (inl (Some tags, Some rm, Some b, to_remove, removed ++ [op]))
          end
      end
  end.

(** Every removed operation pushes at most [width] tags per tag it requires,
    [width] the largest number of tags an operation provides. *)
Definition prune_width (m : gmap TxHash (ReadyTx Ex)) : nat :=
  map_fold (λ _ tx acc, Nat.max (length (provides (tx_op tx))) acc) 0 m.

Definition prune_work (width : nat) (m : gmap TxHash (ReadyTx Ex)) : nat :=
  map_fold (λ _ tx acc, length (requires (tx_op tx)) * width + acc) 0 m.

Definition prune_fuel (o : option (ReadyMap Ex)) : nat :=
  match o with
  | Some rm => 2 + prune_work (prune_width (Tracked.index rm)) (Tracked.index rm)
  | None => 2
  end.

Definition prune_tags r (tag : Tag) shard :
    outcome (ReadyOperations Ex * list (TrustedOperation Ex)) :=
  match provided_tags r !! shard with
  | None => Ret (r, [])
  | Some tags =>
      loop (prune_fuel (ready r !! shard)) prune_step
        (Some tags, ready r !! shard, best r !! shard, [tag], [])
        ≫= λ '(tags, rm, b, _, removed),
      Ret (MkReady (insertion_ids r)
             (partial_alter (λ _, tags) shard (provided_tags r))
             (partial_alter (λ _, rm) shard (ready r))
             (partial_alter (λ _, b) shard (best r)), removed)
  end.

(** *** The iterator over ready operations *)

Record BestIterator := MkBestIterator {
  it_all : gmap TxHash (ReadyTx Ex);
  it_awaiting : gmap TxHash (nat * OperationRef Ex);
  it_best : list (OperationRef Ex);
}.

(** [ReadyOperations::get]. *)
Definition get r shard : outcome BestIterator :=
  match ready r !! shard with
  | Some rm => unwrap (best r !! shard) ≫= λ b, Ret (MkBestIterator (Tracked.index rm) ∅ b)
  | None => Ret (MkBestIterator ∅ ∅ [])
  end.

Definition best_or_awaiting (it : BestIterator) (satisfied : nat) (ref : OperationRef Ex) :
    BestIterator :=
  if length (requires (ref_operation ref)) <=? satisfied then
    MkBestIterator (it_all it) (it_awaiting it) (bt_insert ref_cmp ref (it_best it))
  else
    MkBestIterator (it_all it)
      (<[op_hash (ref_operation ref) := (satisfied, ref)]> (it_awaiting it)) (it_best it).

(** The body of the loop over the operations that just got unlocked. *)
Definition unlock_next (it : BestIterator) (hash : TxHash) : BestIterator :=
  match it_awaiting it !! hash with
  | Some (satisfied, ref) =>
      best_or_awaiting
        (MkBestIterator (it_all it) (delete hash (it_awaiting it)) (it_best it)) (S satisfied) ref
  | None =>
      match it_all it !! hash with
      | Some tx => best_or_awaiting it (S (requires_offset tx)) (tx_ref tx)
      | None => it
      end
  end.

Definition next_step (it : BestIterator) :
    outcome (BestIterator + (option (TrustedOperation Ex) * BestIterator)) :=
  match bt_last (it_best it) with
  | None => Ret (inr (None, it))
  | Some b =>
      match bt_take ref_cmp b (it_best it) with
      | None => Ret (inr (None, it))
      | Some (b, rest) =>
          let it := MkBestIterator (it_all it) (it_awaiting it) rest in
          match it_all it !! op_hash (ref_operation b) with
          | None => Ret (inl it)
          | Some tx => Ret (inr (Some (ref_operation b), foldl unlock_next it (unlocks tx)))
          end
      end
  end.

(** [Iterator::next]; an iteration that continues has shrunk [best]. *)
Definition next (it : BestIterator) : outcome (option (TrustedOperation Ex) * BestIterator) :=
  loop (S (length (it_best it))) next_step it.

Definition collect_step (st : BestIterator * list (TrustedOperation Ex)) :
    outcome ((BestIterator * list (TrustedOperation Ex)) + list (TrustedOperation Ex)) :=
  let '(it, out) := st in
  next it ≫= λ '(o, it'),
  match o with
  | Some op => Ret (inl (it', out ++ [op]))
  | None => Ret (inr out)
  end.

(** Everything the iterator yields, when it yields fewer than [fuel] items. *)
Definition collect (fuel : nat) (it : BestIterator) : outcome (list (TrustedOperation Ex)) :=
  loop fuel collect_step (it, []).
End ready.
End Ready.
