(* ===== verification/ReadyInv.v ===== *)
(** The invariant of the Ready queue and the removal of a subtree.  The
    invariant is what the comment [HASH_READY] of the source argues in words,
    with the exact content of [best]; it is stated relative to a set of tags
    that are about to be overwritten, which is what [replace_previous] leaves
    behind for [import] to repair. *)

From stdpp Require Import base gmap fin_maps sets numbers relations list.
From S2P Require Import Prelude Collections PoolTypes TrackedMap FuturePool ReadyPool.

Module ReadyInv.
Import Ready.

(** *** The order of [best] *)

#[export] Instance ref_order {Ex} : OrderLaws (ref_cmp (Ex := Ex)).
Proof.
  split; unfold ref_cmp.
  - intros x. by rewrite !Z.compare_refl.
  - intros x y.
    rewrite (Z.compare_antisym (priority (ref_operation x)) (priority (ref_operation y))),
      (Z.compare_antisym (valid_till (ref_operation y)) (valid_till (ref_operation x))),
      (Z.compare_antisym (insertion_id y) (insertion_id x)).
    destruct (priority _ ?= priority _)%Z, (valid_till _ ?= valid_till _)%Z; done.
  - intros x y z.
    destruct (Z.compare_spec (priority (ref_operation x)) (priority (ref_operation y))),
      (Z.compare_spec (priority (ref_operation y)) (priority (ref_operation z))),
      (Z.compare_spec (priority (ref_operation x)) (priority (ref_operation z)));
      try (done || lia);
    destruct (Z.compare_spec (valid_till (ref_operation y)) (valid_till (ref_operation x))),
      (Z.compare_spec (valid_till (ref_operation z)) (valid_till (ref_operation y))),
      (Z.compare_spec (valid_till (ref_operation z)) (valid_till (ref_operation x)));
      try (done || lia); rewrite !Z.compare_lt_iff; lia.
  - intros x y z.
    destruct (Z.compare_spec (priority (ref_operation x)) (priority (ref_operation y))) as [->| |];
      try done.
    destruct (Z.compare_spec (valid_till (ref_operation y)) (valid_till (ref_operation x))) as [->| |];
      try done.
    destruct (Z.compare_spec (insertion_id y) (insertion_id x)) as [->| |]; done.
Qed.

Lemma ref_cmp_eq_id {Ex} (a b : OperationRef Ex) :
  ref_cmp a b = Eq → insertion_id a = insertion_id b.
Proof.
  unfold ref_cmp.
  destruct (Z.compare_spec (priority (ref_operation a)) (priority (ref_operation b))); try done.
  destruct (Z.compare_spec (valid_till (ref_operation b)) (valid_till (ref_operation a))); try done.
  destruct (Z.compare_spec (insertion_id b) (insertion_id a)); done.
Qed.

Section invariant.
Context `{Ord : IterOrder} {Ex : Type}.
Implicit Types (r : ReadyOperations Ex) (tx : ReadyTx Ex) (rm : ReadyMap Ex).
Implicit Types (m : gmap TxHash (ReadyTx Ex)) (tags : gmap Tag TxHash).
Implicit Types (b : list (OperationRef Ex)) (F : gset Tag).

(** What the invariant sees of an entry: everything but its links. *)
Definition core tx : OperationRef Ex * nat := (tx_ref tx, requires_offset tx).

(** Waits for no operation of the queue. *)
Definition unblocked tx : Prop := length (requires (tx_op tx)) ≤ requires_offset tx.

#[export] Instance unblocked_dec tx : Decision (unblocked tx).
Proof. unfold unblocked. apply _. Defined.

Record shard_inv F tags m b (id : Z) : Prop := {
  inv_tag : ∀ t h, tags !! t = Some h → t ∉ F →
    ∃ tx, m !! h = Some tx ∧ t ∈ provides (tx_op tx);
  inv_provides : ∀ h tx t, m !! h = Some tx → t ∈ provides (tx_op tx) → tags !! t = Some h;
  inv_hash : ∀ h tx, m !! h = Some tx → op_hash (tx_op tx) = h;
  inv_ok : ∀ h tx, m !! h = Some tx → operation_ok (tx_op tx);
  inv_id : ∀ h tx, m !! h = Some tx → (insertion_id (tx_ref tx) ≤ id)%Z;
  inv_inj : ∀ h1 h2 tx1 tx2, m !! h1 = Some tx1 → m !! h2 = Some tx2 →
    insertion_id (tx_ref tx1) = insertion_id (tx_ref tx2) → h1 = h2;
  inv_best : ∀ x, x ∈ b ↔ ∃ h tx, m !! h = Some tx ∧ tx_ref tx = x ∧ unblocked tx;
  inv_sorted : bt_sorted ref_cmp b;
}.

Definition ready_at r (s : ShardIdentifier) : gmap TxHash (ReadyTx Ex) :=
  match ready r !! s with Some rm => Tracked.index rm | None => ∅ end.
Definition tags_at r (s : ShardIdentifier) : gmap Tag TxHash := default ∅ (provided_tags r !! s).
Definition best_at r (s : ShardIdentifier) : list (OperationRef Ex) := default [] (best r !! s).
Definition id_at r (s : ShardIdentifier) : Z := default 0%Z (insertion_ids r !! s).

Definition ready_inv r : Prop :=
  ∀ s, match provided_tags r !! s, ready r !! s, best r !! s with
       | Some tags, Some rm, Some b =>
           Tracked.tracked rm ∧ shard_inv ∅ tags (Tracked.index rm) b (id_at r s)
       | None, None, None => True
       | _, _, _ => False
       end.

(** An operation on one shard leaves the others as they are. *)
Definition only_shard (s : ShardIdentifier) r r' : Prop :=
  ∀ s', s' ≠ s → provided_tags r' !! s' = provided_tags r !! s' ∧ ready r' !! s' = ready r !! s' ∧
    best r' !! s' = best r !! s' ∧ insertion_ids r' !! s' = insertion_ids r !! s'.

Lemma ready_only_shard_refl s r : only_shard s r r.
Proof. done. Qed.

Lemma ready_only_shard_trans s r1 r2 r3 : only_shard s r1 r2 → only_shard s r2 r3 → only_shard s r1 r3.
Proof.
  intros H12 H23 s' Hs. destruct (H23 s' Hs) as (-> & -> & -> & ->). apply (H12 s' Hs).
Qed.

Lemma only_shard_at s r r' s' : only_shard s r r' → s' ≠ s →
  ready_at r' s' = ready_at r s' ∧ tags_at r' s' = tags_at r s' ∧ best_at r' s' = best_at r s'.
Proof.
  intros Ho Hs. unfold ready_at, tags_at, best_at. by destruct (Ho s' Hs) as (-> & -> & -> & _).
Qed.

Lemma ready_shard_inv_empty F id : shard_inv F ∅ ∅ [] id.
Proof.
  split; intros *; rewrite ?lookup_empty; try done; [|constructor].
  split; [set_solver|]. by intros (h & tx & Hn & _).
Qed.

Lemma ready_inv_default : ready_inv (default_ready (Ex := Ex)).
Proof. intros s. simpl. by rewrite !lookup_empty. Qed.

Lemma ready_inv_at r s :
  ready_inv r → shard_inv ∅ (tags_at r s) (ready_at r s) (best_at r s) (id_at r s).
Proof.
  intros Hr. specialize (Hr s). unfold tags_at, ready_at, best_at.
  destruct (provided_tags r !! s), (ready r !! s), (best r !! s); try done.
  - apply Hr.
  - apply ready_shard_inv_empty.
Qed.

(** The state with what it holds for one shard replaced. *)
Definition put r (s : ShardIdentifier) tags rm b : ReadyOperations Ex :=
  MkReady (insertion_ids r) (<[s := tags]> (provided_tags r)) (<[s := rm]> (ready r))
    (<[s := b]> (best r)).

Lemma ready_inv_put r s tags rm b :
  ready_inv r → Tracked.tracked rm → shard_inv ∅ tags (Tracked.index rm) b (id_at r s) →
  ready_inv (put r s tags rm b).
Proof.
  intros Hr Ht Hs s'. unfold put. simpl. destruct (decide (s = s')) as [<-|Hne].
  - by rewrite !lookup_insert_eq.
  - rewrite !lookup_insert_ne by done. apply Hr.
Qed.

Lemma put_at r s tags rm b :
  ready_at (put r s tags rm b) s = Tracked.index rm ∧ tags_at (put r s tags rm b) s = tags ∧
  best_at (put r s tags rm b) s = b ∧ id_at (put r s tags rm b) s = id_at r s.
Proof. unfold ready_at, tags_at, best_at, id_at. simpl. by rewrite !lookup_insert_eq. Qed.

Lemma ready_only_shard_put r s tags rm b : only_shard s r (put r s tags rm b).
Proof. intros s' Hs. simpl. by rewrite !lookup_insert_ne by done. Qed.

(** *** Entries and their links *)

Lemma core_lookup m m' h tx :
  core <$> m = core <$> m' → m !! h = Some tx →
  ∃ tx', m' !! h = Some tx' ∧ tx_ref tx' = tx_ref tx ∧ requires_offset tx' = requires_offset tx.
Proof.
  intros Heq Hh. assert (core <$> m' !! h = Some (core tx)) as Hc.
  { rewrite <-lookup_fmap, <-Heq, lookup_fmap, Hh. done. }
  destruct (m' !! h) as [tx'|]; [|done]. simpl in Hc. unfold core in Hc. simplify_eq. eauto.
Qed.

(** The invariant does not depend on the links. *)
Lemma shard_inv_core F tags m m' b id :
  core <$> m = core <$> m' → shard_inv F tags m b id → shard_inv F tags m' b id.
Proof.
  intros Heq [Ht Hp Hh Hok Hid Hinj Hb Hs].
  assert (∀ h tx, m' !! h = Some tx → ∃ tx', m !! h = Some tx' ∧ tx_ref tx = tx_ref tx' ∧
    requires_offset tx = requires_offset tx' ∧ tx_op tx = tx_op tx') as Hback.
  { intros h tx Htx. destruct (core_lookup m' m h tx) as (tx' & ? & E & E'); [done..|].
    exists tx'. unfold tx_op. rewrite E. done. }
  split; [..|done].
  - intros t h Htag HF. destruct (Ht t h Htag HF) as (tx & Htx & Hin).
    destruct (core_lookup m m' h tx) as (tx' & ? & E & E'); [done..|].
    exists tx'. split; [done|]. unfold tx_op in *. by rewrite E.
  - intros h tx t (tx' & ? & _ & _ & ->)%Hback. by eapply Hp.
  - intros h tx (tx' & ? & _ & _ & ->)%Hback. by apply Hh.
  - intros h tx (tx' & ? & _ & _ & ->)%Hback. by eapply Hok.
  - intros h tx (tx' & ? & -> & _ & _)%Hback. by eapply Hid.
  - intros h1 h2 tx1 tx2 (tx1' & ? & -> & _)%Hback (tx2' & ? & -> & _)%Hback. by eapply Hinj.
  - intros x. rewrite Hb. unfold unblocked. split; intros (h & tx & Htx & Href & Hu).
    + destruct (core_lookup m m' h tx) as (tx' & ? & E & E'); [done..|].
      exists h, tx'. unfold tx_op in *. by rewrite E, E'.
    + apply Hback in Htx as (tx' & ? & E & E' & E''). exists h, tx'.
      rewrite <-E, <-E', <-E''. done.
Qed.

Lemma alter_core (f : ReadyTx Ex → ReadyTx Ex) m h :
  (∀ tx, core (f tx) = core tx) → core <$> alter f h m = core <$> m.
Proof.
  intros Hf. apply map_eq. intros h'. rewrite !lookup_fmap.
  destruct (decide (h = h')) as [<-|Hne].
  - rewrite lookup_alter_eq. destruct (m !! h); simpl; by rewrite ?Hf.
  - by rewrite lookup_alter_ne.
Qed.

Lemma alter_lookup_Some (f : ReadyTx Ex → ReadyTx Ex) m h h' tx :
  alter f h m !! h' = Some tx →
  ∃ tx0, m !! h' = Some tx0 ∧ tx = (if decide (h = h') then f tx0 else tx0).
Proof.
  destruct (decide (h = h')) as [<-|Hne].
  - rewrite lookup_alter_eq. intros (tx0 & -> & ?)%fmap_Some. eauto.
  - rewrite lookup_alter_ne by done. eauto.
Qed.

(** Deleting an operation with its tags outside [F]. *)
Lemma shard_inv_delete F tags tags' m b id h tx :
  shard_inv F tags m b id → m !! h = Some tx →
  (∀ t, tags' !! t = if decide (t ∈ provides (tx_op tx) ∧ t ∉ F) then None else tags !! t) →
  shard_inv F tags' (delete h m) (bt_remove ref_cmp (tx_ref tx) b) id.
Proof.
  intros [Ht Hp Hh Hok Hid Hinj Hb Hs] Htx Htags.
  split.
  - intros t h'. rewrite Htags. case_decide as Hd; [done|]. intros Htag HF.
    destruct (Ht t h' Htag HF) as (tx' & Htx' & Hin).
    assert (h ≠ h') by naive_solver. exists tx'. by rewrite lookup_delete_ne.
  - intros h' tx' t [Hne Htx']%lookup_delete_Some Hin. rewrite Htags.
    rewrite decide_False; [by eapply Hp|]. intros [Hin' _].
    pose proof (Hp h tx t Htx Hin'). pose proof (Hp h' tx' t Htx' Hin). congruence.
  - intros h' tx' [_ ?]%lookup_delete_Some. by apply Hh.
  - intros h' tx' [_ ?]%lookup_delete_Some. by eapply Hok.
  - intros h' tx' [_ ?]%lookup_delete_Some. by eapply Hid.
  - intros h1 h2 tx1 tx2 [_ ?]%lookup_delete_Some [_ ?]%lookup_delete_Some. by eapply Hinj.
  - intros x. rewrite (elem_of_bt_remove ref_cmp (tx_ref tx) b x Hs), Hb. split.
    + intros [(h' & tx' & Htx' & <- & Hu) Hne]. exists h', tx'. split_and!; [|done..].
      rewrite lookup_delete_ne; [done|]. intros ->. simplify_eq. by rewrite cmp_refl in Hne.
    + intros (h' & tx' & [Hne Htx']%lookup_delete_Some & <- & Hu). split; [by eauto|].
      intros Heq%ref_cmp_eq_id. apply Hne. by eapply Hinj.
  - by apply bt_remove_sorted.
Qed.

(** *** The graph of links *)

(** The removal of an entry goes on to the operations it unlocks when one of
    its tags is not in the filter. *)
Definition propagates (tag_filter : option (gset Tag)) tx : Prop :=
  filter (λ tag, invalidated tag_filter tag) (provides (tx_op tx)) ≠ [].

Definition unlock_edge (tag_filter : option (gset Tag)) m (u v : TxHash) : Prop :=
  ∃ tx, m !! u = Some tx ∧ propagates tag_filter tx ∧ v ∈ unlocks tx.

(** Reached from one of the roots over links. *)
Definition reached (tag_filter : option (gset Tag)) m (roots : list TxHash) (h : TxHash) : Prop :=
  ∃ root, root ∈ roots ∧ rtc (unlock_edge tag_filter m) root h.

(** Entries differ from the original ones at most in links to themselves. *)
Definition same_links m0 m : Prop :=
  ∀ h tx, m !! h = Some tx → ∃ tx0, m0 !! h = Some tx0 ∧ core tx = core tx0 ∧
    (∀ v, v ≠ h → v ∈ unlocks tx ↔ v ∈ unlocks tx0) ∧ unlocks tx ⊆ unlocks tx0.

(** State of the removal: [m] is left of [m0], [removed] is what is gone. *)
Record removal_inv (tag_filter : option (gset Tag)) m0 roots m (stack : list TxHash)
    (removed : list (TrustedOperation Ex)) : Prop := {
  rem_same : same_links m0 m;
  rem_stack : ∀ h, h ∈ stack → reached tag_filter m0 roots h;
  rem_roots : ∀ h, h ∈ roots → h ∈ stack ∨ m !! h = None;
  rem_gone : ∀ h tx, m0 !! h = Some tx → m !! h = None → reached tag_filter m0 roots h;
  rem_closed : ∀ u v, unlock_edge tag_filter m0 u v → m !! u = None → v ∈ stack ∨ m !! v = None;
  rem_removed : ∀ op, op ∈ removed ↔
    ∃ h tx, m0 !! h = Some tx ∧ m !! h = None ∧ tx_op tx = op;
  rem_nodup : NoDup (op_hash <$> removed);
}.

Lemma removal_inv_init tag_filter m0 roots :
  removal_inv tag_filter m0 roots m0 (reverse roots) [].
Proof.
  split.
  - intros h tx Htx. exists tx. done.
  - intros h Hh. rewrite elem_of_reverse in Hh. exists h. split; [done|apply rtc_refl].
  - intros h Hh. left. by apply elem_of_reverse.
  - intros h tx Htx. congruence.
  - intros u v (tx & Htx & _) Hu. congruence.
  - intros op. split; [set_solver|]. intros (h & tx & Htx & Hn & _). congruence.
  - constructor.
Qed.

(** The stack pops a hash that is not in the map any more. *)
Lemma removal_inv_skip tag_filter m0 roots m h stack removed :
  removal_inv tag_filter m0 roots m (h :: stack) removed → m !! h = None →
  removal_inv tag_filter m0 roots m stack removed.
Proof.
  intros [Hsame Hst Hro Hgone Hcl Hrem Hnd] Hn. split; try done.
  - intros h' Hh'. apply Hst. by right.
  - intros h' [[->|?]%elem_of_cons|?]%Hro; auto.
  - intros u v He Hu. destruct (Hcl u v He Hu) as [[->|?]%elem_of_cons|?]; auto.
Qed.

(** The stack pops an entry, which is removed. *)
Lemma removal_inv_remove tag_filter m0 roots m m' h tx stack stack' removed :
  (∀ h tx, m0 !! h = Some tx → op_hash (tx_op tx) = h) →
  removal_inv tag_filter m0 roots m (h :: stack) removed → m !! h = Some tx →
  same_links (delete h m) m' → core <$> m' = core <$> delete h m →
  stack' = (if decide (propagates tag_filter tx) then reverse (unlocks tx) ++ stack else stack) →
  removal_inv tag_filter m0 roots m' stack' (removed ++ [tx_op tx]).
Proof.
  intros Hhash [Hsame Hst Hro Hgone Hcl Hrem Hnd] Htx Hsame' Hcore ->.
  destruct (Hsame h tx Htx) as (tx0 & Htx0 & Hc & Hlinks & _). injection Hc as Href Hoff.
  assert (tx_op tx = tx_op tx0) as Hop by (unfold tx_op; by rewrite Href).
  assert (propagates tag_filter tx ↔ propagates tag_filter tx0) as Hpr
    by (unfold propagates; by rewrite Hop).
  assert (reached tag_filter m0 roots h) as Hreach by (apply Hst; left).
  assert (∀ h', m' !! h' = None ↔ h' = h ∨ m !! h' = None) as Hdom.
  { intros h'. rewrite <-(fmap_None core (m' !! h')), <-lookup_fmap, Hcore, lookup_fmap, fmap_None,
      lookup_delete_None. naive_solver. }
  split.
  - intros h' tx' Htx'. destruct (Hsame' h' tx' Htx') as (tx1 & [Hne Htx1]%lookup_delete_Some & Hc1 & Hl1 & Hs1).
    destruct (Hsame h' tx1 Htx1) as (tx2 & Htx2 & Hc2 & Hl2 & Hs2).
    exists tx2. split_and!; [done|congruence| |by etrans]. intros v Hv. by rewrite Hl1, Hl2.
  - intros v Hv. case_decide as Hprop; [|apply Hst; by right].
    apply elem_of_app in Hv as [Hv|Hv]; [|apply Hst; by right]. rewrite elem_of_reverse in Hv.
    destruct (decide (v = h)) as [->|Hne]; [done|].
    destruct Hreach as (root & Hroot & Hpath). exists root. split; [done|].
    eapply rtc_r; [done|]. exists tx0. split_and!; [done|by apply Hpr|by apply Hlinks].
  - intros h' Hh'. rewrite Hdom. destruct (Hro h' Hh') as [[->|?]%elem_of_cons|?]; [auto|left|auto].
    case_decide; [apply elem_of_app; by right|done].
  - intros h' tx' Htx' [->|Hn]%Hdom; [done|by eapply Hgone].
  - intros u v He [->|Hu]%Hdom.
    + destruct He as (tx' & Htx' & Hpr' & Hv). simplify_eq.
      rewrite decide_True by (by apply Hpr). destruct (decide (v = h)) as [->|Hne]; [right; apply Hdom; auto|].
      left. apply elem_of_app. left. apply elem_of_reverse. by apply Hlinks.
    + rewrite Hdom. destruct (Hcl u v He Hu) as [[->|?]%elem_of_cons|?]; [auto|left|auto].
      case_decide; [apply elem_of_app; by right|done].
  - intros op. rewrite elem_of_app, Hrem, list_elem_of_singleton. split.
    + intros [(h' & tx' & ? & ? & ?)| ->].
      * exists h', tx'. rewrite Hdom. eauto.
      * exists h, tx0. rewrite Hdom. eauto.
    + intros (h' & tx' & Htx' & [->|Hn]%Hdom & <-); [right; congruence|left; eauto].
  - rewrite fmap_app. apply NoDup_app. split_and!; [done| |apply NoDup_singleton].
    intros x (op & -> & Hin)%list_elem_of_fmap Hx. apply Hrem in Hin as (h' & tx' & Htx' & Hn & <-).
    apply list_elem_of_singleton in Hx. rewrite Hop, (Hhash _ _ Htx'), (Hhash _ _ Htx0) in Hx. congruence.
Qed.

(** When the stack is empty exactly the reached entries are gone. *)
Lemma removal_inv_done tag_filter m0 roots m removed :
  removal_inv tag_filter m0 roots m [] removed →
  ∀ h, m !! h = None ↔ m0 !! h = None ∨ reached tag_filter m0 roots h.
Proof.
  intros [Hsame Hst Hro Hgone Hcl Hrem Hnd] h. split.
  - intros Hn. destruct (m0 !! h) as [tx|] eqn:Htx; [right; by eapply Hgone|by left].
  - intros [Hn|(root & Hroot & Hpath)].
    + destruct (m !! h) as [tx|] eqn:Htx; [|done].
      destruct (Hsame h tx Htx) as (? & ? & _). congruence.
    + assert (m !! root = None) as Hr by (destruct (Hro root Hroot); [set_solver|done]).
      clear Hroot. induction Hpath as [|u v w Huv _ IH]; [done|].
      apply IH. destruct (Hcl u v Huv Hr); [set_solver|done].
Qed.
End invariant.
End ReadyInv.

(** [remove_subtree_with_tag_filter] terminates, panics never and removes
    exactly what is reached over links. *)

Module ReadyRemove.
Import Ready ReadyInv.

Section removal.
Context `{Ord : IterOrder} {Ex : Type}.
Implicit Types (r : ReadyOperations Ex) (tx : ReadyTx Ex) (rm : ReadyMap Ex).
Implicit Types (m : gmap TxHash (ReadyTx Ex)) (tags : gmap Tag TxHash).
Implicit Types (b : list (OperationRef Ex)) (F : gset Tag) (tag_filter : option (gset Tag)).

(** *** Links as a resource *)

Lemma total_unlocks_delete m h tx :
  m !! h = Some tx → total_unlocks m = length (unlocks tx) + total_unlocks (delete h m).
Proof.
  intros Htx. unfold total_unlocks.
  rewrite (map_fold_delete_L _ _ h tx m) by (done || lia). done.
Qed.

Lemma total_unlocks_alter (f : ReadyTx Ex → ReadyTx Ex) m h :
  (∀ tx, length (unlocks (f tx)) ≤ length (unlocks tx)) →
  total_unlocks (alter f h m) ≤ total_unlocks m.
Proof.
  intros Hf. destruct (m !! h) as [tx|] eqn:Htx.
  - rewrite (total_unlocks_delete (alter f h m) h (f tx)) by (by rewrite lookup_alter_eq, Htx).
    rewrite (total_unlocks_delete m h tx) by done.
    assert (delete h (alter f h m) = delete h m) as ->.
    { apply map_eq. intros h'. destruct (decide (h = h')) as [<-|Hne].
      - by rewrite !lookup_delete_eq.
      - by rewrite !lookup_delete_ne, lookup_alter_ne by done. }
    specialize (Hf tx). lia.
  - by rewrite alter_absent.
Qed.

(** *** The loops of one removal step *)

Lemma forget_tags_spec tags l :
  ∃ tags', forget_tags (Some tags) l = Ret (Some tags') ∧
    ∀ t, tags' !! t = if decide (t ∈ l) then None else tags !! t.
Proof.
  unfold forget_tags. revert tags. induction l as [|t l IH]; intros tags; cbn [for_each].
  - exists tags. split; [done|]. intros t. by rewrite decide_False by set_solver.
  - change (unwrap (Some tags) ≫= _) with (Ret (Some (delete t tags))). cbn [mbind outcome_bind].
    destruct (IH (delete t tags)) as (tags' & -> & Hl). exists tags'. split; [done|].
    intros t'. rewrite Hl. destruct (decide (t = t')) as [<-|Hne].
    + rewrite lookup_delete_eq. repeat case_decide; set_solver.
    + rewrite lookup_delete_ne by done. repeat case_decide; set_solver.
Qed.

Lemma same_links_refl m : same_links m m.
Proof. intros h tx Htx. exists tx. done. Qed.

Lemma same_links_trans m1 m2 m3 : same_links m1 m2 → same_links m2 m3 → same_links m1 m3.
Proof.
  intros H12 H23 h tx Htx. destruct (H23 h tx Htx) as (tx2 & Htx2 & Hc2 & Hl2 & Hs2).
  destruct (H12 h tx2 Htx2) as (tx1 & Htx1 & Hc1 & Hl1 & Hs1).
  exists tx1. split_and!; [done|congruence| |by etrans]. intros v Hv. by rewrite Hl2, Hl1.
Qed.

Lemma set_unlocks_core u tx : core (set_unlocks u tx) = core tx.
Proof. done. Qed.

(** Taking its own hash out of an entry's links. *)
Lemma unlink_self_same_links m h :
  same_links m (alter (λ tx, set_unlocks (remove_item (unlocks tx) h) tx) h m).
Proof.
  intros h' tx Htx. apply alter_lookup_Some in Htx as (tx0 & Htx0 & ->).
  exists tx0. split; [done|]. case_decide; [subst|done]. split; [done|].
  simpl. split; [intros v Hv; by apply elem_of_remove_item|]. apply remove_item_subset.
Qed.

Lemma unlink_providers_spec tags rm l :
  Tracked.tracked rm →
  ∃ rm', unlink_providers (Some tags) rm l = Ret rm' ∧ Tracked.tracked rm' ∧
    core <$> Tracked.index rm' = core <$> Tracked.index rm ∧
    same_links (Tracked.index rm) (Tracked.index rm') ∧
    total_unlocks (Tracked.index rm') ≤ total_unlocks (Tracked.index rm).
Proof.
  intros Ht. unfold unlink_providers.
  apply (for_each_inv _ (λ rm', Tracked.tracked rm' ∧
    core <$> Tracked.index rm' = core <$> Tracked.index rm ∧
    same_links (Tracked.index rm) (Tracked.index rm') ∧
    total_unlocks (Tracked.index rm') ≤ total_unlocks (Tracked.index rm))).
  { split_and!; [done|done|apply same_links_refl|done]. }
  intros t rm1 _ (Ht1 & Hc1 & Hl1 & Hu1). simpl. eexists. split; [done|].
  destruct (tags !! t) as [h|]; [|done]. split_and!.
  - by apply Tracked.tracked_get_mut.
  - simpl. by rewrite alter_core.
  - simpl. eapply same_links_trans; [done|apply unlink_self_same_links].
  - simpl. etrans; [|done]. apply total_unlocks_alter. intros tx. apply length_remove_item.
Qed.

Definition filter_set tag_filter : gset Tag := default ∅ tag_filter.

Lemma invalidated_spec tag_filter t : invalidated tag_filter t ↔ t ∉ filter_set tag_filter.
Proof.
  unfold invalidated, filter_set. destruct tag_filter as [F|]; simpl; [|set_solver].
  case_bool_decide; simpl; set_solver.
Qed.

(** *** One step and the whole loop *)

(** The invariant of the removal loop, with the map and the tags it began with. *)
Definition removal_good tag_filter id tags0 m0 roots (st : removal_state) : Prop :=
  ∃ rm tags b stack removed, st = (rm, Some tags, Some b, stack, removed) ∧
    Tracked.tracked rm ∧
    shard_inv (filter_set tag_filter) tags (Tracked.index rm) b id ∧
    removal_inv tag_filter m0 roots (Tracked.index rm) stack removed ∧
    (∀ t, t ∈ filter_set tag_filter → tags !! t = tags0 !! t).

Definition removal_measure (st : removal_state (Ex := Ex)) : nat :=
  let '(rm, _, _, stack, _) := st in length stack + total_unlocks (Tracked.index rm).

Lemma removal_step_spec tag_filter id tags0 m0 roots st :
  (∀ h tx, m0 !! h = Some tx → op_hash (tx_op tx) = h) →
  removal_good tag_filter id tags0 m0 roots st →
  (∃ st', removal_step tag_filter st = Ret (inl st') ∧
     removal_good tag_filter id tags0 m0 roots st' ∧ removal_measure st' < removal_measure st) ∨
  (∃ st', removal_step tag_filter st = Ret (inr st') ∧
     removal_good tag_filter id tags0 m0 roots st' ∧ st'.1.2 = []).
Proof.
  intros Hhash (rm & tags & b & stack & removed & -> & Ht & Hs & Hr & HF).
  destruct stack as [|h stack]; simpl.
  { right. eexists. split; [done|]. split; [|done]. exists rm, tags, b, [], removed. done. }
  left. destruct (Tracked.remove rm h) as [rm1 o] eqn:Hrem.
  pose proof (Tracked.remove_index rm h) as Hidx. pose proof (Tracked.remove_result rm h) as Hres.
  pose proof (Tracked.tracked_remove rm h Ht) as Ht1. rewrite Hrem in Hidx, Hres, Ht1. simpl in *.
  destruct o as [tx|].
  - destruct (forget_tags_spec tags
      (filter (λ tag, invalidated tag_filter tag) (provides (tx_op tx)))) as (tags' & -> & Htags').
    simpl. destruct (unlink_providers_spec tags' rm1 (requires (tx_op tx)) Ht1)
      as (rm' & -> & Ht' & Hc' & Hl' & Hu'). simpl. eexists. split; [done|].
    rewrite Hidx in Hc', Hl', Hu'. split.
    + eexists rm', tags', _, _, _. split; [done|]. split_and!; [done|..].
      * eapply shard_inv_core; [symmetry; exact Hc'|]. eapply shard_inv_delete; [done..|].
        intros t. rewrite Htags'.
        assert (t ∈ filter (λ tag, invalidated tag_filter tag) (provides (tx_op tx)) ↔
          t ∈ provides (tx_op tx) ∧ t ∉ filter_set tag_filter) as Hiff
          by (rewrite list_elem_of_filter, invalidated_spec; tauto).
        repeat case_decide; tauto || done.
      * eapply (removal_inv_remove _ _ _ _ _ h tx stack); [done..|].
        unfold propagates. by repeat case_bool_decide; case_decide; simpl; try done.
      * intros t HtF. rewrite Htags', decide_False; [by apply HF|].
        intros [Hinv _]%list_elem_of_filter. by apply invalidated_spec in Hinv.
    + rewrite (total_unlocks_delete (Tracked.index rm) h tx) by done.
      case_bool_decide; simpl; rewrite ?length_app, ?length_reverse; lia.
  - eexists. split; [done|]. assert (delete h (Tracked.index rm) = Tracked.index rm) as Hid.
    { by apply delete_id. } rewrite Hid in Hidx. split.
    + exists rm1, tags, b, stack, removed. rewrite Hidx. split_and!; [done..| |done].
      by eapply removal_inv_skip.
    + simpl. rewrite Hidx. lia.
Qed.

(** Termination and total correctness of the removal. *)
Lemma removal_loop_spec tag_filter id tags rm b roots :
  Tracked.tracked rm → shard_inv (filter_set tag_filter) tags (Tracked.index rm) b id →
  ∃ rm' tags' b' removed,
    loop (S (length roots + total_unlocks (Tracked.index rm))) (removal_step tag_filter)
      (rm, Some tags, Some b, reverse roots, []) = Ret (rm', Some tags', Some b', [], removed) ∧
    Tracked.tracked rm' ∧ shard_inv (filter_set tag_filter) tags' (Tracked.index rm') b' id ∧
    removal_inv tag_filter (Tracked.index rm) roots (Tracked.index rm') [] removed ∧
    (∀ t, t ∈ filter_set tag_filter → tags' !! t = tags !! t).
Proof.
  intros Ht Hs.
  destruct (loop_total (removal_step tag_filter)
    (removal_good tag_filter id tags (Tracked.index rm) roots) removal_measure
    (λ st, removal_good tag_filter id tags (Tracked.index rm) roots st ∧ st.1.2 = [])
    (λ st, removal_step_spec tag_filter id tags (Tracked.index rm) roots st (inv_hash _ _ _ _ _ Hs))
    (S (length roots + total_unlocks (Tracked.index rm)))
    (rm, Some tags, Some b, reverse roots, []))
    as (st & Heq & (rm' & tags' & b' & stack & removed & -> & Ht' & Hs' & Hr' & HF') & Hnil).
  - exists rm, tags, b, (reverse roots), []. split_and!; [done..|apply removal_inv_init|done].
  - simpl. rewrite length_reverse. lia.
  - simpl in Hnil. subst stack. by eauto 10.
Qed.

(** *** On the whole state *)

(** [ready_inv], but in shard [s] the tags [F] may be stale. *)
Definition ready_inv_rel F (s : ShardIdentifier) r : Prop :=
  ∀ s', match provided_tags r !! s', ready r !! s', best r !! s' with
        | Some tags, Some rm, Some b =>
            Tracked.tracked rm ∧
            shard_inv (if decide (s' = s) then F else ∅) tags (Tracked.index rm) b (id_at r s')
        | None, None, None => True
        | _, _, _ => False
        end.

Lemma ready_inv_rel_empty s r : ready_inv_rel ∅ s r ↔ ready_inv r.
Proof.
  split; intros Hr s'; specialize (Hr s');
    destruct (provided_tags r !! s'), (ready r !! s'), (best r !! s'); try done;
    by destruct (decide (s' = s)).
Qed.

Lemma shard_inv_weaken F F' tags m b id :
  F ⊆ F' → shard_inv F tags m b id → shard_inv F' tags m b id.
Proof. intros HF [Ht Hp Hh Hok Hid Hinj Hb Hs]. split; [|done..]. intros t h ??. apply Ht; set_solver. Qed.

Lemma ready_inv_rel_put F r s tags rm b :
  ready_inv r → Tracked.tracked rm → shard_inv F tags (Tracked.index rm) b (id_at r s) →
  ready_inv_rel F s (put r s tags rm b).
Proof.
  intros Hr Ht Hs s'. unfold put. simpl. destruct (decide (s' = s)) as [->|Hne].
  - by rewrite !lookup_insert_eq.
  - rewrite !lookup_insert_ne by done. apply Hr.
Qed.

Lemma ready_inv_rel_at F s r :
  ready_inv_rel F s r → shard_inv F (tags_at r s) (ready_at r s) (best_at r s) (id_at r s).
Proof.
  intros Hr. specialize (Hr s). unfold tags_at, ready_at, best_at. rewrite decide_True in Hr by done.
  destruct (provided_tags r !! s), (ready r !! s), (best r !! s); try done.
  - apply Hr.
  - apply ready_shard_inv_empty.
Qed.

Lemma partial_alter_const_insert {A} (m : gmap ShardIdentifier A) (s : ShardIdentifier) (x : A) :
  partial_alter (λ _, Some x) s m = <[s := x]> m.
Proof. done. Qed.

Lemma remove_filter_spec r roots tag_filter s :
  ready_inv r →
  ∃ r' removed, remove_subtree_with_tag_filter r roots tag_filter s = Ret (r', removed) ∧
    ready_inv_rel (filter_set tag_filter) s r' ∧ only_shard s r r' ∧
    insertion_ids r' = insertion_ids r ∧
    removal_inv tag_filter (ready_at r s) roots (ready_at r' s) [] removed ∧
    (∀ t, t ∈ filter_set tag_filter → tags_at r' s !! t = tags_at r s !! t).
Proof.
  intros Hr. specialize (Hr s) as Hs. unfold remove_subtree_with_tag_filter.
  destruct (ready r !! s) as [rm|] eqn:Hrm.
  - destruct (provided_tags r !! s) as [tags|] eqn:Htags; [|done].
    destruct (best r !! s) as [b|] eqn:Hb; [|done]. destruct Hs as [Ht Hs].
    destruct (removal_loop_spec tag_filter (id_at r s) tags rm b roots Ht)
      as (rm' & tags' & b' & removed & -> & Ht' & Hs' & Hrem & HF).
    { eapply shard_inv_weaken; [|done]. set_solver. }
    simpl. rewrite !partial_alter_const_insert. fold (put r s tags' rm' b').
    eexists _, removed. split; [done|]. destruct (put_at r s tags' rm' b') as (-> & -> & _ & _).
    unfold ready_at, tags_at. rewrite Hrm, Htags.
    split_and!; [by apply ready_inv_rel_put|apply ready_only_shard_put|done..].
  - destruct (provided_tags r !! s) eqn:Htags; [done|]. destruct (best r !! s) eqn:Hb; [done|].
    exists r, []. assert (ready_at r s = ∅) as -> by (unfold ready_at; by rewrite Hrm).
    split_and!; [done| |done|done| |done].
    + intros s'. specialize (Hr s'). destruct (decide (s' = s)) as [->|]; [|done].
      by rewrite Htags, Hrm, Hb.
    + split; try done.
      * intros h Hh. set_solver.
      * intros h _. right. apply lookup_empty.
      * intros u v (tx & Htx & _). by rewrite lookup_empty in Htx.
      * intros op. split; [set_solver|]. intros (h & tx & Htx & _). by rewrite lookup_empty in Htx.
      * constructor.
Qed.

(** What a removal of the subtrees of [roots] does to the entries [m] of a
    shard: the reached ones go, the others keep everything but links to
    themselves. *)
Record removes tag_filter m roots m' (removed : list (TrustedOperation Ex)) : Prop := {
  rms_gone : ∀ h, m' !! h = None ↔ m !! h = None ∨ reached tag_filter m roots h;
  rms_kept : same_links m m';
  rms_removed : ∀ op, op ∈ removed ↔
    ∃ h tx, m !! h = Some tx ∧ reached tag_filter m roots h ∧ tx_op tx = op;
  rms_nodup : NoDup (op_hash <$> removed);
}.

Lemma removal_inv_removes tag_filter m roots m' removed :
  removal_inv tag_filter m roots m' [] removed → removes tag_filter m roots m' removed.
Proof.
  intros Hinv. pose proof (removal_inv_done _ _ _ _ _ Hinv) as Hgone.
  destruct Hinv as [Hsame _ _ Hg _ Hrem Hnd]. split; [done|done| |done].
  intros op. rewrite Hrem. split; intros (h & tx & Htx & Hx & Hop); exists h, tx.
  - split_and!; [done|by eapply Hg|done].
  - split_and!; [done| |done]. apply Hgone. by right.
Qed.

Lemma ready_remove_spec r hashes s :
  ready_inv r →
  ∃ r' removed, remove_subtree r hashes s = Ret (r', removed) ∧ ready_inv r' ∧ only_shard s r r' ∧
    insertion_ids r' = insertion_ids r ∧
    removes None (ready_at r s) hashes (ready_at r' s) removed.
Proof.
  intros Hr. destruct (remove_filter_spec r hashes None s Hr)
    as (r' & removed & Heq & Hr' & Ho & Hid & Hrem & _).
  exists r', removed. split_and!; [done| |done..|].
  - by apply (ready_inv_rel_empty s).
  - by apply removal_inv_removes.
Qed.
End removal.
End ReadyRemove.
