(* ===== verification/ReadyImport.v ===== *)
(** [import] and [replace_previous] of the Ready queue: the invariant is
    kept, no [expect] fails, and the outcome is determined by the collective
    priority of the operations that provide the same tags. *)

From stdpp Require Import base gmap fin_maps sets numbers relations list.
From S2P Require Import Prelude Collections PoolTypes TrackedMap FuturePool ReadyPool ReadyInv.

Module ReadyImport.
Import Ready ReadyInv ReadyRemove.

Section import.
Context `{Ord : IterOrder} {Ex : Type}.
Implicit Types (r : ReadyOperations Ex) (tx : ReadyTx Ex) (rm : ReadyMap Ex).
Implicit Types (m : gmap TxHash (ReadyTx Ex)) (tags : gmap Tag TxHash).
Implicit Types (b : list (OperationRef Ex)) (F : gset Tag) (op : TrustedOperation Ex).

(** *** The links of the new operation *)

(** How many of the tags [l] are provided by [h]. *)
Definition provided_by tags (h : TxHash) (l : list Tag) : nat :=
  length (filter (λ t, tags !! t = Some h) l).

Definition unprovided tags (l : list Tag) : nat := length (filter (λ t, tags !! t = None) l).

Lemma unprovided_le tags l : unprovided tags l ≤ length l.
Proof. apply length_filter. Qed.

Lemma unprovided_all tags l : unprovided tags l = length l ↔ ∀ t, t ∈ l → tags !! t = None.
Proof.
  unfold unprovided. induction l as [|t l IH]; simpl; [set_solver|].
  pose proof (unprovided_le tags l) as Hle. unfold unprovided in Hle.
  rewrite filter_cons. case_decide as Ht; simpl.
  - rewrite <-Nat.succ_inj_wd in IH. rewrite IH. set_solver.
  - split; [lia|]. intros Hall. destruct Ht. apply Hall. left.
Qed.

(** The entries after the new operation was linked to its providers. *)
Record linked tags (hash : TxHash) (l : list Tag) m m' : Prop := {
  lk_lookup : ∀ h, m' !! h =
    (λ tx, set_unlocks (unlocks tx ++ replicate (provided_by tags h l) hash) tx) <$> m !! h;
}.

Lemma linked_nil tags hash m : linked tags hash [] m m.
Proof.
  split. intros h. destruct (m !! h) as [[rf u o]|]; [|done]. simpl. unfold set_unlocks. simpl.
  by rewrite app_nil_r.
Qed.

Lemma linked_core tags hash l m m' : linked tags hash l m m' → core <$> m' = core <$> m.
Proof.
  intros [Hl]. apply map_eq. intros h. rewrite !lookup_fmap, Hl. by destruct (m !! h).
Qed.

Lemma linked_provided tags hash t other l m m' :
  tags !! t = Some other →
  linked tags hash l
    (alter (λ tx, set_unlocks (unlocks tx ++ [hash]) tx) other m) m' →
  linked tags hash (t :: l) m m'.
Proof.
  intros Ht [Hl]. split. intros h. rewrite Hl. unfold provided_by. rewrite filter_cons.
  destruct (decide (other = h)) as [<-|Hne].
  - rewrite lookup_alter_eq, decide_True by done. destruct (m !! other) as [tx|]; [|done].
    simpl. unfold set_unlocks. simpl. by rewrite <-app_assoc.
  - rewrite lookup_alter_ne, decide_False by (done || congruence). done.
Qed.

Lemma linked_unprovided tags hash t l m m' :
  tags !! t = None → linked tags hash l m m' → linked tags hash (t :: l) m m'.
Proof.
  intros Ht [Hl]. split. intros h. rewrite Hl. unfold provided_by.
  rewrite filter_cons, decide_False by (rewrite Ht; done). done.
Qed.

Lemma link_loop_spec tags hash l rm g n :
  Tracked.tracked rm →
  (∀ t h, t ∈ l → tags !! t = Some h → is_Some (Tracked.index rm !! h)) →
  ∃ rm', for_each (link_step tags hash) (rm, g, n) l =
      Ret (rm', g && bool_decide (unprovided tags l = length l), n + unprovided tags l) ∧
    Tracked.tracked rm' ∧ linked tags hash l (Tracked.index rm) (Tracked.index rm').
Proof.
  revert rm g n. induction l as [|t l IH]; intros rm g n Ht Hin.
  { exists rm. cbn. rewrite andb_true_r, Nat.add_0_r. split_and!; [done..|apply linked_nil]. }
  destruct (tags !! t) as [other|] eqn:Hot.
  - destruct (Hin t other ltac:(left) Hot) as [tx Htx].
    erewrite for_each_cons by (unfold link_step, Tracked.get; by rewrite Hot, Htx).
    destruct (IH (Tracked.get_mut rm other (λ tx, set_unlocks (unlocks tx ++ [hash]) tx)) false n)
      as (rm' & -> & Ht' & Hl').
    { by apply Tracked.tracked_get_mut. }
    { intros t' h' Ht' Hh'. simpl. apply lookup_alter_is_Some. apply (Hin t' h'); [by right|done]. }
    exists rm'. split_and!; [|done|by eapply linked_provided].
    unfold unprovided. rewrite filter_cons, decide_False by (rewrite Hot; done).
    rewrite (bool_decide_eq_false_2 (_ = length (t :: l))).
    { by rewrite andb_false_r. }
    pose proof (unprovided_le tags l). unfold unprovided in *. simpl. lia.
  - erewrite for_each_cons by (unfold link_step; by rewrite Hot).
    destruct (IH rm g (S n) Ht) as (rm' & -> & Ht' & Hl').
    { intros t' h' ?. apply Hin. by right. }
    exists rm'. split_and!; [|done|by apply linked_unprovided].
    unfold unprovided. rewrite filter_cons, decide_True by done. simpl. f_equal. f_equal; [|lia].
    f_equal. f_equal. apply bool_decide_ext. lia.
Qed.

Lemma provide_tags_lookup hash tags l t :
  provide_tags hash tags l !! t = if decide (t ∈ l) then Some hash else tags !! t.
Proof.
  unfold provide_tags. revert tags. induction l as [|t' l IH]; intros tags; cbn [foldl].
  { by rewrite decide_False by set_solver. }
  rewrite IH. destruct (decide (t' = t)) as [<-|Hne].
  - rewrite lookup_insert_eq. repeat case_decide; set_solver.
  - rewrite lookup_insert_ne by done. repeat case_decide; set_solver.
Qed.

(** *** Adding an entry *)

Lemma shard_inv_insert tags m b id tx hash :
  let op := tx_op tx in
  shard_inv (list_to_set (provides op)) tags m b id →
  m !! hash = None → op_hash op = hash → operation_ok op →
  (∀ h tx' t, m !! h = Some tx' → t ∈ provides op → t ∉ provides (tx_op tx')) →
  (id < insertion_id (tx_ref tx))%Z →
  shard_inv ∅ (provide_tags hash tags (provides op)) (<[hash := tx]> m)
    (if decide (unblocked tx) then bt_insert ref_cmp (tx_ref tx) b else b) (insertion_id (tx_ref tx)).
Proof.
  intros op [Ht Hp Hh Hok Hid Hinj Hb Hs] Hnew Hhash Hopok Hdisj Hlt.
  assert (∀ h tx', m !! h = Some tx' → h ≠ hash) as Hne by naive_solver.
  split.
  - intros t h. rewrite provide_tags_lookup. case_decide as Hin.
    + intros [= <-] _. exists tx. by rewrite lookup_insert_eq.
    + intros Htag _. destruct (Ht t h Htag) as (tx' & Htx' & Hin').
      { by rewrite elem_of_list_to_set. }
      exists tx'. rewrite lookup_insert_ne; [done|]. intros ->. by apply (Hne h tx').
  - intros h tx' t. rewrite lookup_insert_Some, provide_tags_lookup.
    intros [[<- <-]|[Hn Htx']] Hin; [by rewrite decide_True|].
    rewrite decide_False; [by eapply Hp|]. intros Hin'. by eapply Hdisj.
  - intros h tx'. rewrite lookup_insert_Some. intros [[<- <-]|[_ ?]]; [done|by apply Hh].
  - intros h tx'. rewrite lookup_insert_Some. intros [[<- <-]|[_ ?]]; [done|by eapply Hok].
  - intros h tx'. rewrite lookup_insert_Some. intros [[<- <-]|[_ Htx']]; [lia|].
    specialize (Hid h tx' Htx'). lia.
  - intros h1 h2 tx1 tx2. rewrite !lookup_insert_Some.
    intros [[<- <-]|[_ H1]] [[<- <-]|[_ H2]] Heq; [done|..|by eapply Hinj].
    + specialize (Hid _ _ H2). lia.
    + specialize (Hid _ _ H1). lia.
  - intros x. assert (x ∈ b ↔ ∃ h tx', <[hash:=tx]> m !! h = Some tx' ∧ h ≠ hash ∧
      tx_ref tx' = x ∧ unblocked tx') as Hb'.
    { rewrite Hb. split; intros (h & tx' & Hl & Hx); exists h, tx'.
      - rewrite lookup_insert_ne; [naive_solver|]. intros ->. by eapply Hne.
      - rewrite lookup_insert_ne in Hl; naive_solver. }
    case_decide as Hu.
    + split.
      * intros [Heq|Hin]%elem_of_bt_insert.
        { exists hash, tx. rewrite lookup_insert_eq. by subst. }
        apply Hb' in Hin as (h & tx' & ? & _ & ? & ?). eauto.
      * intros (h & tx' & Hl & <- & Hu'). destruct (decide (h = hash)) as [->|Hd].
        -- rewrite lookup_insert_eq in Hl. injection Hl as <-. apply bt_insert_new.
           intros z (h' & tx'' & Htx'' & <- & _)%Hb Heq%ref_cmp_eq_id.
           specialize (Hid h' tx'' Htx''). lia.
        -- apply bt_insert_old, Hb'. eauto 10.
    + rewrite Hb'. split; intros (h & tx' & Hl & Hx); exists h, tx'; [naive_solver|].
      split_and!; [done| |naive_solver..]. intros ->. rewrite lookup_insert_eq in Hl. naive_solver.
  - case_decide; [|done]. by apply (bt_insert_sorted ref_cmp).
Qed.

(** *** Replacement *)

(** The combined priority of the entries of [m] among [hashes]. *)
Definition collective_priority m (hashes : list TxHash) : Z :=
  foldl (λ total tx, u64_saturating_add total (priority (tx_op tx))) 0%Z
    (omap (λ h, m !! h) hashes).

(** The providers of the tags of [op], in the order in which they are visited. *)
Definition competitors r op (s : ShardIdentifier) : list TxHash :=
  set_iter (replaced_hashes (tags_at r s) op).

Lemma elem_of_competitors r op s h :
  h ∈ competitors r op s ↔ ∃ t, t ∈ provides op ∧ tags_at r s !! t = Some h.
Proof.
  unfold competitors, replaced_hashes. rewrite elem_of_set_iter, elem_of_list_to_set.
  rewrite list_elem_of_omap. naive_solver.
Qed.

Definition provided_set op : gset Tag := list_to_set (provides op).

(** The state after the operations that compete with [op] made room. *)
Record replaced_by r op (s : ShardIdentifier) r' (removed : list (TrustedOperation Ex))
    (unlocked : list TxHash) : Prop := {
  rep_inv : ready_inv_rel (provided_set op) s r';
  rep_shard : only_shard s r r';
  rep_ids : insertion_ids r' = insertion_ids r;
  rep_removes : removes (Some (provided_set op)) (ready_at r s) (competitors r op s)
    (ready_at r' s) removed;
  rep_free : ∀ h tx t, ready_at r' s !! h = Some tx → t ∈ provides op → t ∉ provides (tx_op tx);
  rep_unlocked : unlocked = mjoin (unlocks <$> omap (λ h, ready_at r s !! h) (competitors r op s));
}.

Lemma foldl_app_join {A B} (f : A → list B) (l : list A) acc :
  foldl (λ k x, k ++ f x) acc l = acc ++ mjoin (f <$> l).
Proof.
  revert acc. induction l as [|x l IH]; intros acc; simpl; [by rewrite app_nil_r|].
  by rewrite IH, app_assoc.
Qed.

Lemma removes_nothing m tag_filter : removes tag_filter m [] m [].
Proof.
  split; [|apply same_links_refl| |constructor].
  - intros h. split; [by left|]. intros [?|(root & Hr & _)]; [done|set_solver].
  - intros op. split; [set_solver|]. intros (h & tx & _ & (root & Hr & _) & _). set_solver.
Qed.

Lemma replaced_by_none r op s :
  ready_inv r → competitors r op s = [] → replaced_by r op s r [] [].
Proof.
  intros Hr Hc. assert (∀ t, t ∈ provides op → tags_at r s !! t = None) as Hfree.
  { intros t Ht. destruct (tags_at r s !! t) as [h|] eqn:E; [|done].
    assert (h ∈ competitors r op s) by (apply elem_of_competitors; eauto).
    rewrite Hc in *. set_solver. }
  split; [| |done|rewrite Hc; apply removes_nothing| |by rewrite Hc].
  - intros s'. specialize (Hr s'). destruct (provided_tags r !! s'), (ready r !! s'), (best r !! s');
      try done. destruct Hr as [Ht Hs]. split; [done|]. eapply shard_inv_weaken; [|done]. set_solver.
  - apply ready_only_shard_refl.
  - intros h tx t Htx Hin Hin'.
    pose proof (inv_provides _ _ _ _ _ (ready_inv_at r s Hr) h tx t Htx Hin').
    rewrite Hfree in * by done. done.
Qed.

Lemma replaced_by_removal r op s r' removed unlocked :
  ready_inv r → ready_inv_rel (provided_set op) s r' → only_shard s r r' →
  insertion_ids r' = insertion_ids r →
  removal_inv (Some (provided_set op)) (ready_at r s) (competitors r op s) (ready_at r' s) [] removed →
  unlocked = mjoin (unlocks <$> omap (λ h, ready_at r s !! h) (competitors r op s)) →
  replaced_by r op s r' removed unlocked.
Proof.
  intros Hr Hr' Ho Hid Hrem%removal_inv_removes Hun. split; try done.
  intros h tx t Htx Hin Hin'. destruct Hrem as [Hgone Hkept _ _].
  destruct (Hkept h tx Htx) as (tx0 & Htx0 & Hc & _). injection Hc as Href _.
  assert (t ∈ provides (tx_op tx0)) as Hin0 by (unfold tx_op in *; by rewrite <-Href).
  pose proof (inv_provides _ _ _ _ _ (ready_inv_at r s Hr) h tx0 t Htx0 Hin0) as Htag.
  assert (ready_at r' s !! h = None) as Hn; [|congruence].
  apply Hgone. right. exists h. split; [|apply rtc_refl]. apply elem_of_competitors. eauto.
Qed.

Lemma set_iter_nil_inv (X : gset TxHash) : set_iter X = [] ↔ X = ∅.
Proof.
  split; [|intros ->; apply set_iter_empty]. intros Hnil. apply set_eq. intros x.
  rewrite <-elem_of_set_iter, Hnil. set_solver.
Qed.

(** [replace_previous], on every branch. *)
Lemma replace_previous_spec r op s :
  ready_inv r →
  let prio := collective_priority (ready_at r s) (competitors r op s) in
  ∃ r' res, replace_previous r op s = Ret (r', res) ∧
    match res with
    | Ok (removed, unlocked) =>
        (competitors r op s = [] ∨ (prio < priority op)%Z) ∧
        replaced_by r op s r' removed unlocked
    | Err e =>
        e = TooLowPriority (priority op) ∧ r' = r ∧
        competitors r op s ≠ [] ∧ (priority op ≤ prio)%Z
    end.
Proof.
  intros Hr prio. unfold replace_previous. specialize (Hr s) as Hs.
  destruct (provided_tags r !! s) as [tags|] eqn:Htags.
  - assert (tags_at r s = tags) as Htag by (unfold tags_at; by rewrite Htags).
    assert (prio = collective_priority (ready_at r s) (set_iter (replaced_hashes tags op))) as Hprio
      by (unfold prio, competitors; by rewrite Htag).
    clearbody prio. unfold competitors. rewrite Htag.
    case_bool_decide as Hempty.
    { exists r, (Ok ([], [])). split; [done|]. rewrite (proj2 (set_iter_nil_inv _) Hempty).
      split; [by left|]. apply replaced_by_none; [done|]. unfold competitors. rewrite Htag.
      by apply set_iter_nil_inv. }
    destruct (ready r !! s) as [rm|] eqn:Hrm; [|done]. cbn [unwrap mbind outcome_bind].
    assert (ready_at r s = Tracked.index rm) as Hat by (unfold ready_at; by rewrite Hrm).
    unfold Tracked.get. rewrite <-Hat. fold (collective_priority (ready_at r s)
      (set_iter (replaced_hashes tags op))). rewrite <-Hprio.
    destruct (Z.leb_spec (priority op) prio) as [Hle|Hgt].
    { exists r, (Err (TooLowPriority (priority op))). split; [done|]. by rewrite set_iter_nil_inv. }
    destruct (remove_filter_spec r (set_iter (replaced_hashes tags op)) (Some (provided_set op)) s Hr)
      as (r' & removed & Heq & Hr' & Ho & Hid & Hrem & _).
    unfold provided_set in Heq. rewrite Heq. cbn [mbind outcome_bind].
    eexists r', (Ok (removed, _)). split; [done|]. split; [by right|].
    apply replaced_by_removal; try done; unfold competitors; rewrite Htag; [done|].
    rewrite foldl_app_join. done.
  - exists r, (Ok ([], [])). split; [done|]. assert (competitors r op s = []) as Hc.
    { unfold competitors, tags_at. rewrite Htags. apply set_iter_nil_inv. apply set_eq. intros h.
      unfold replaced_hashes. rewrite elem_of_list_to_set, list_elem_of_omap. simpl.
      split; [|set_solver]. intros (t & _ & Ht). by rewrite lookup_empty in Ht. }
    split; [by left|]. by apply replaced_by_none.
Qed.

(** *** [import] *)

Definition with_id r (s : ShardIdentifier) (id : Z) : ReadyOperations Ex :=
  MkReady (<[s := id]> (insertion_ids r)) (provided_tags r) (ready r) (best r).

Lemma with_id_inv r s id : ready_inv r → (id_at r s ≤ id)%Z → ready_inv (with_id r s id).
Proof.
  intros Hr Hle s'. specialize (Hr s'). simpl.
  destruct (provided_tags r !! s'), (ready r !! s'), (best r !! s'); try done.
  destruct Hr as [Ht [Ht1 Hp Hh Hok Hid Hinj Hb Hs]]. split; [done|]. split; try done.
  intros h tx Htx. specialize (Hid h tx Htx). unfold id_at in *. simpl.
  destruct (decide (s = s')) as [<-|Hne]; [rewrite lookup_insert_eq; simpl; lia|].
  by rewrite lookup_insert_ne.
Qed.

Lemma with_id_at r s id :
  ready_at (with_id r s id) s = ready_at r s ∧ tags_at (with_id r s id) s = tags_at r s ∧
  best_at (with_id r s id) s = best_at r s ∧ id_at (with_id r s id) s = id.
Proof. unfold ready_at, tags_at, best_at, id_at. simpl. by rewrite lookup_insert_eq. Qed.

Lemma ready_inv_put_rel F r s tags rm b :
  ready_inv_rel F s r → Tracked.tracked rm → shard_inv ∅ tags (Tracked.index rm) b (id_at r s) →
  ready_inv (put r s tags rm b).
Proof.
  intros Hr Ht Hs s'. unfold put. simpl. specialize (Hr s'). destruct (decide (s' = s)) as [->|Hne].
  - by rewrite !lookup_insert_eq.
  - by rewrite !lookup_insert_ne.
Qed.

Lemma shard_inv_set_id F tags m b id id' :
  shard_inv F tags m b id' → (∀ h tx, m !! h = Some tx → insertion_id (tx_ref tx) ≤ id)%Z →
  shard_inv F tags m b id.
Proof. intros [Ht Hp Hh Hok Hid Hinj Hb Hs] Hle. by split. Qed.

(** The new entry and the links to it, in the state [r1] the replacement left. *)
Record entered op (s : ShardIdentifier) (id : Z) r1 r' (unlocked : list TxHash) : Prop := {
  ent_tags : tags_at r' s = provide_tags (op_hash op) (tags_at r1 s) (provides op);
  ent_ready : ∃ m, linked (tags_at r1 s) (op_hash op) (requires op) (ready_at r1 s) m ∧
    ready_at r' s = <[op_hash op :=
      MkReadyTx (MkRef op id) unlocked (unprovided (tags_at r1 s) (requires op))]> m;
}.

(** The second half of [import]: from the state after the replacement. *)
Lemma import_enter r1 s op id unlocked :
  ready_inv_rel (provided_set op) s r1 → operation_ok op → ready_at r1 s !! op_hash op = None →
  (∀ h tx t, ready_at r1 s !! h = Some tx → t ∈ provides op → t ∉ provides (tx_op tx)) →
  (∀ h tx, ready_at r1 s !! h = Some tx → insertion_id (tx_ref tx) < id)%Z → id_at r1 s = id →
  ∃ rm g n,
    for_each (link_step (tags_at r1 s) (op_hash op))
      (default Tracked.empty (ready r1 !! s), true, 0) (requires op) = Ret (rm, g, n) ∧
    let r' := put r1 s (provide_tags (op_hash op) (tags_at r1 s) (provides op))
      (Tracked.insert rm (op_hash op) (MkReadyTx (MkRef op id) unlocked n)).1
      (if g : bool then bt_insert ref_cmp (MkRef op id) (best_at r1 s) else best_at r1 s) in
    ready_inv r' ∧ entered op s id r1 r' unlocked.
Proof.
  intros Hr Hok Hnew Hfree Hid Hat.
  pose proof (ready_inv_rel_at _ _ _ Hr) as Hs.
  assert (Tracked.tracked (default Tracked.empty (ready r1 !! s)) ∧
    Tracked.index (default Tracked.empty (ready r1 !! s)) = ready_at r1 s) as [Ht Hidx].
  { specialize (Hr s). unfold ready_at. destruct (provided_tags r1 !! s), (ready r1 !! s), (best r1 !! s);
      try done; by destruct Hr. }
  destruct (link_loop_spec (tags_at r1 s) (op_hash op) (requires op)
    (default Tracked.empty (ready r1 !! s)) true 0 Ht) as (rm & -> & Htr & Hl).
  { intros t h Hin Htag. rewrite Hidx.
    destruct (inv_tag _ _ _ _ _ Hs t h Htag) as (tx & Htx & _); [|by eauto].
    unfold provided_set. rewrite elem_of_list_to_set. by apply (ok_disjoint _ Hok). }
  rewrite Hidx in Hl. eexists rm, _, _. split; [done|]. cbn zeta. simpl andb. rewrite Nat.add_0_l.
  set (tx := MkReadyTx (MkRef op id) unlocked (unprovided (tags_at r1 s) (requires op))).
  pose proof (linked_core _ _ _ _ _ Hl) as Hcore. split.
  - eapply ready_inv_put_rel; [done|by apply Tracked.tracked_insert|].
    rewrite Tracked.insert_index, Hat.
    assert (bool_decide (unprovided (tags_at r1 s) (requires op) = length (requires op)) =
      bool_decide (unblocked tx)) as ->.
    { apply bool_decide_ext. unfold unblocked. simpl.
      pose proof (unprovided_le (tags_at r1 s) (requires op)). unfold tx_op. simpl. lia. }
    assert ((if bool_decide (unblocked tx) then bt_insert ref_cmp (MkRef op id) (best_at r1 s)
      else best_at r1 s) = (if decide (unblocked tx) then bt_insert ref_cmp (tx_ref tx) (best_at r1 s)
      else best_at r1 s)) as -> by (by case_bool_decide; case_decide).
    apply (shard_inv_insert _ _ _ (id - 1) tx (op_hash op)); [| |done|done| |simpl; lia].
    + eapply shard_inv_core; [symmetry; exact Hcore|]. eapply shard_inv_set_id; [done|].
      intros h tx' Htx'. specialize (Hid h tx' Htx'). lia.
    + apply (fmap_None core). rewrite <-lookup_fmap, Hcore, lookup_fmap, Hnew. done.
    + intros h tx' t Htx' Hin. destruct (core_lookup _ _ h tx' Hcore Htx') as (tx1 & Htx1 & Href & _).
      unfold tx_op. rewrite <-Href. by eapply Hfree.
  - destruct (put_at r1 s (provide_tags (op_hash op) (tags_at r1 s) (provides op))
      (Tracked.insert rm (op_hash op) tx).1
      (if bool_decide (unprovided (tags_at r1 s) (requires op) = length (requires op))
       then bt_insert ref_cmp (MkRef op id) (best_at r1 s) else best_at r1 s)) as (Hp1 & Hp2 & _).
    split; [exact Hp2|]. exists (Tracked.index rm). split; [done|].
    rewrite <-Tracked.insert_index. exact Hp1.
Qed.

(** [import], on every branch. *)
Lemma ready_import_spec r w s :
  let op := Future.operation w in
  let id := (id_at r s + 1)%Z in
  let prio := collective_priority (ready_at r s) (competitors r op s) in
  ready_inv r → operation_ok op → Future.missing_tags w = ∅ →
  ready_at r s !! op_hash op = None → is_u64 id →
  ∃ r' res, import r w s = Ret (r', res) ∧ ready_inv r' ∧ only_shard s r r' ∧ id_at r' s = id ∧
    match res with
    | Ok removed =>
        (competitors r op s = [] ∨ (prio < priority op)%Z) ∧
        ∃ r1 unlocked,
          removes (Some (provided_set op)) (ready_at r s) (competitors r op s) (ready_at r1 s) removed ∧
          unlocked = mjoin (unlocks <$> omap (λ h, ready_at r s !! h) (competitors r op s)) ∧
          entered op s id r1 r' unlocked
    | Err e =>
        e = TooLowPriority (priority op) ∧ competitors r op s ≠ [] ∧ (priority op ≤ prio)%Z ∧
        ready_at r' s = ready_at r s ∧ tags_at r' s = tags_at r s ∧ best_at r' s = best_at r s
    end.
Proof.
  intros op id prio Hr Hok Hmiss Hnew Hid. unfold import.
  fold op. unfold Future.is_ready. rewrite Hmiss, bool_decide_eq_true_2 by done.
  cbn [assert_that mbind outcome_bind].
  assert (match ready r !! s with
    | Some rm => assert_that (negb (Tracked.contains_key rm (op_hash op)))
    | None => Ret tt end = Ret tt) as ->.
  { unfold ready_at in Hnew. destruct (ready r !! s) as [rm|]; [|done].
    unfold Tracked.contains_key. rewrite Hnew, bool_decide_eq_false_2; [done|]. by intros [? ?]. }
  cbn [mbind outcome_bind]. fold (id_at r s). fold id. rewrite u64_wrap_small by done.
  fold (with_id r s id). set (r0 := with_id r s id).
  assert (ready_inv r0) as Hr0 by (apply with_id_inv; [done|unfold id; lia]).
  destruct (with_id_at r s id) as (Hra & Hta & Hba & Hia). fold r0 in Hra, Hta, Hba, Hia.
  assert (competitors r0 op s = competitors r op s) as Hcomp by (unfold competitors; by rewrite Hta).
  assert (only_shard s r r0) as Ho0.
  { intros s' Hs'. simpl. by rewrite lookup_insert_ne. }
  destruct (replace_previous_spec r0 op s Hr0) as (r1 & res & -> & Hres).
  rewrite Hcomp, Hra in Hres. fold prio in Hres. cbn [mbind outcome_bind].
  destruct res as [[removed unlocked]|e].
  - destruct Hres as [Hprio [Hr1 Ho1 Hids Hrem Hfree Hun]].
    rewrite Hcomp, Hra in Hrem. rewrite Hcomp, Hra in Hun.
    assert (id_at r1 s = id) as Hat by (unfold id_at in *; by rewrite Hids).
    destruct (import_enter r1 s op id unlocked) as (rm & g & n & Hloop & Hinv & Hent); try done.
    { apply (rms_gone _ _ _ _ _ Hrem). by left. }
    { intros h tx Htx. destruct (rms_kept _ _ _ _ _ Hrem h tx Htx) as (tx0 & Htx0 & Hc & _).
      injection Hc as -> _. pose proof (inv_id _ _ _ _ _ (ready_inv_at r s Hr) h tx0 Htx0).
      unfold id. lia. }
    fold (tags_at r1 s). rewrite Hloop. cbn [mbind outcome_bind]. fold (best_at r1 s).
    eexists _, (Ok removed). split; [done|]. split_and!; [exact Hinv|..].
    + eapply ready_only_shard_trans; [done|]. eapply ready_only_shard_trans; [done|]. apply ready_only_shard_put.
    + rewrite <-Hat. done.
    + done.
    + exists r1, unlocked. done.
  - destruct Hres as (-> & -> & Hne & Hle). eexists r0, (Err _). split; [done|].
    rewrite Hra, Hta, Hba. done.
Qed.

(** The effect of a successful import on the entries and the tags of the
    shard, without the intermediate state. *)
Record import_effect r op (s : ShardIdentifier) r' (removed : list (TrustedOperation Ex)) : Prop := {
  ie_new : ∃ tx, ready_at r' s !! op_hash op = Some tx ∧ tx_op tx = op ∧
    insertion_id (tx_ref tx) = (id_at r s + 1)%Z;
  ie_old : ∀ h tx, h ≠ op_hash op → ready_at r' s !! h = Some tx →
    ∃ tx0, ready_at r s !! h = Some tx0 ∧ core tx = core tx0;
  ie_removed : ∀ o, o ∈ removed ↔
    ∃ h tx, ready_at r s !! h = Some tx ∧ ready_at r' s !! h = None ∧ tx_op tx = o;
  ie_nodup : NoDup (op_hash <$> removed);
  ie_tags : ∀ t h, tags_at r' s !! t = Some h → t ∈ provides op ∨ tags_at r s !! t = Some h;
}.

Lemma entered_effect r op s r1 r' removed unlocked id :
  ready_inv r → ready_inv r' → ready_at r s !! op_hash op = None → id = (id_at r s + 1)%Z →
  removes (Some (provided_set op)) (ready_at r s) (competitors r op s) (ready_at r1 s) removed →
  entered op s id r1 r' unlocked → import_effect r op s r' removed.
Proof.
  intros Hr Hr' Hnew -> [Hgone Hkept Hrem Hnd] [Htags (m & Hl & Hm)].
  pose proof (linked_core _ _ _ _ _ Hl) as Hcore.
  assert (∀ h, h ≠ op_hash op → ready_at r' s !! h = None ↔ ready_at r1 s !! h = None) as Hdom.
  { intros h Hne. rewrite Hm, lookup_insert_ne by done. rewrite (lk_lookup _ _ _ _ _ Hl).
    apply fmap_None. }
  assert (∀ h tx, h ≠ op_hash op → ready_at r' s !! h = Some tx →
    ∃ tx0, ready_at r s !! h = Some tx0 ∧ core tx = core tx0) as Hold.
  { intros h tx Hne. rewrite Hm, lookup_insert_ne by done. intros Htx.
    destruct (core_lookup m (ready_at r1 s) h tx Hcore Htx) as (tx1 & Htx1 & E1 & E2).
    destruct (Hkept h tx1 Htx1) as (tx0 & Htx0 & Hc & _). exists tx0. split; [done|].
    rewrite <-Hc. unfold core. by rewrite E1, E2. }
  split; [| exact Hold | |done|].
  - rewrite Hm, lookup_insert_eq. by eexists.
  - intros o. rewrite Hrem. split; intros (h & tx & Htx & Hx & <-); exists h, tx.
    + split_and!; [done| |done]. apply Hdom; [intros ->; congruence|]. apply Hgone. by right.
    + split_and!; [done| |done]. apply Hdom, Hgone in Hx; [|intros ->; congruence].
      destruct Hx; [congruence|done].
  - intros t h Htag. destruct (decide (t ∈ provides op)) as [|Hnot]; [by left|right].
    pose proof (ready_inv_at r' s Hr') as Hs'. pose proof (ready_inv_at r s Hr) as Hs.
    destruct (inv_tag _ _ _ _ _ Hs' t h Htag) as (tx & Htx & Hin); [set_solver|].
    destruct (decide (h = op_hash op)) as [->|Hne].
    { rewrite Hm, lookup_insert_eq in Htx. injection Htx as <-. done. }
    destruct (Hold h tx Hne Htx) as (tx0 & Htx0 & Hc). injection Hc as Href _.
    eapply (inv_provides _ _ _ _ _ Hs); [done|]. unfold tx_op in *. by rewrite <-Href.
Qed.

(** What the pool above needs to know of [import]. *)
Lemma import_digest r w s :
  let op := Future.operation w in
  ready_inv r → operation_ok op → Future.missing_tags w = ∅ →
  ready_at r s !! op_hash op = None → is_u64 (id_at r s + 1) →
  ∃ r' res, import r w s = Ret (r', res) ∧ ready_inv r' ∧ only_shard s r r' ∧
    id_at r' s = (id_at r s + 1)%Z ∧
    match res with
    | Ok removed => import_effect r op s r' removed
    | Err e => e = TooLowPriority (priority op) ∧
        ready_at r' s = ready_at r s ∧ tags_at r' s = tags_at r s ∧ best_at r' s = best_at r s
    end.
Proof.
  intros op Hr Hok Hm Hnew Hid.
  destruct (ready_import_spec r w s Hr Hok Hm Hnew Hid) as (r' & res & Heq & Hr' & Ho & Hid' & Hres).
  exists r', res. split_and!; try done. destruct res as [removed|e].
  - destruct Hres as (_ & r1 & unlocked & Hrem & _ & Hent). eapply entered_effect; [exact Hr|exact Hr'|exact Hnew|reflexivity|exact Hrem|exact Hent].
  - destruct Hres as (? & _ & _ & ?). done.
Qed.
End import.
End ReadyImport.
