(* ===== verification/ReadyPrune.v ===== *)
(** [prune_tags] of the Ready queue: it terminates, its [assert_eq!] holds, the
    invariant is kept, and only the provider of the tag and operations it
    depends on are removed. *)

From stdpp Require Import base gmap fin_maps sets numbers relations list.
From S2P Require Import Prelude Collections PoolTypes TrackedMap FuturePool ReadyPool ReadyInv.

Module ReadyPrune.
Import Ready ReadyInv.

Section prune.
Context `{Ord : IterOrder} {Ex : Type}.
Implicit Types (r : ReadyOperations Ex) (tx : ReadyTx Ex) (rm : ReadyMap Ex).
Implicit Types (m : gmap TxHash (ReadyTx Ex)) (tags : gmap Tag TxHash).
Implicit Types (b : list (OperationRef Ex)) (F : gset Tag) (op : TrustedOperation Ex).

(** *** The loop over the tags the pruned operation required *)

Definition width_le (K : nat) m : Prop :=
  ∀ h tx, m !! h = Some tx → length (provides (tx_op tx)) ≤ K.

Lemma width_le_core K m m' : core <$> m = core <$> m' → width_le K m → width_le K m'.
Proof.
  intros Heq HK h tx Htx. destruct (core_lookup m' m h tx) as (tx' & Htx' & Href & _); [done..|].
  unfold tx_op. rewrite <-Href. by eapply HK.
Qed.

(** The tags pushed are those of providers of required tags. *)
Definition pushed tags m (l : list Tag) (t : Tag) : Prop :=
  ∃ t0 h tx, t0 ∈ l ∧ tags !! t0 = Some h ∧ m !! h = Some tx ∧ t ∈ provides (tx_op tx).

Lemma pushed_core tags m m' l t : core <$> m = core <$> m' → pushed tags m' l t → pushed tags m l t.
Proof.
  intros Heq (t0 & h & tx & Hin & Htag & Htx & Ht).
  destruct (core_lookup m' m h tx) as (tx' & Htx' & Href & _); [done..|].
  exists t0, h, tx'. unfold tx_op in *. by rewrite Href.
Qed.

Lemma prune_previous_spec tags hash K l rm stack rm' stack' :
  Tracked.tracked rm → width_le K (Tracked.index rm) →
  foldl (prune_previous tags hash) (rm, stack) l = (rm', stack') →
  Tracked.tracked rm' ∧ core <$> Tracked.index rm' = core <$> Tracked.index rm ∧
  length stack' ≤ length stack + length l * K ∧ stack ⊆ stack' ∧
  ∀ t, t ∈ stack' → t ∈ stack ∨ pushed tags (Tracked.index rm) l t.
Proof.
  revert rm stack. induction l as [|t0 l IH]; intros rm stack Ht HK; cbn [foldl].
  { intros [= <- <-]. split_and!; [done..|simpl; lia|done|]. by left. }
  unfold prune_previous at 2, find_previous, Tracked.get.
  assert (∀ t, pushed tags (Tracked.index rm) l t → pushed tags (Tracked.index rm) (t0 :: l) t) as Hmono.
  { intros t (t1 & h & tx & ? & ?). exists t1, h, tx. split; [by right|done]. }
  destruct (tags !! t0) as [prev|] eqn:Htag.
  2:{ intros (? & ? & Hlen & Hsub & Hin)%IH; [|done..]. split_and!; [done..|simpl; lia|done|].
      intros t [?|?]%Hin; auto. }
  destruct (Tracked.index rm !! prev) as [tx2|] eqn:Htx2.
  2:{ intros (? & ? & Hlen & Hsub & Hin)%IH; [|done..]. split_and!; [done..|simpl; lia|done|].
      intros t [?|?]%Hin; auto. }
  set (rm1 := Tracked.get_mut rm prev _).
  assert (core <$> Tracked.index rm1 = core <$> Tracked.index rm) as Hc1.
  { simpl. rewrite (alter_insert_eq _ _ _ tx2) by done. apply map_eq. intros h.
    rewrite !lookup_fmap. destruct (decide (prev = h)) as [<-|Hne].
    - by rewrite lookup_insert_eq, Htx2.
    - by rewrite lookup_insert_ne. }
  assert (Tracked.tracked rm1) as Ht1.
  { apply Tracked.tracked_get_mut; [|done]. done. }
  assert (width_le K (Tracked.index rm1)) as HK1 by (eapply width_le_core; [symmetry|]; done).
  pose proof (HK prev tx2 Htx2) as Hw.
  case_bool_decide; intros Hf; apply IH in Hf as (Ht' & Hc' & Hlen & Hsub & Hin); try done;
    (split_and!; [done|congruence| | |]).
  - rewrite length_app, length_reverse in Hlen. simpl. lia.
  - intros t Hin'. apply Hsub. apply elem_of_app. by right.
  - intros t [Hst|Hp]%Hin.
    + apply elem_of_app in Hst as [Hst|?]; [|by left]. rewrite elem_of_reverse in Hst.
      right. exists t0, prev, tx2. split_and!; [by left|done..].
    + right. apply Hmono. by eapply pushed_core.
  - simpl. lia.
  - done.
  - intros t [?|Hp]%Hin; [by left|]. right. apply Hmono. by eapply pushed_core.
Qed.

(** *** The loop over the operations the pruned one unlocked *)

Lemma shard_inv_bump F tags m b id h tx :
  shard_inv F tags m b id → m !! h = Some tx →
  let tx' := set_offset (S (requires_offset tx)) tx in
  shard_inv F tags (<[h := tx']> m)
    (if decide (requires_offset tx' = length (requires (tx_op tx')))
     then bt_insert ref_cmp (tx_ref tx') b else b) id.
Proof.
  intros [Ht Hp Hh Hok Hid Hinj Hb Hs] Htx tx'.
  assert (∀ h' tx1, <[h := tx']> m !! h' = Some tx1 → ∃ tx0, m !! h' = Some tx0 ∧
    tx_ref tx1 = tx_ref tx0 ∧ tx_op tx1 = tx_op tx0) as Hback.
  { intros h' tx1. rewrite lookup_insert_Some. intros [[<- <-]|[_ ?]]; eauto. }
  assert (∀ h' tx0, m !! h' = Some tx0 → ∃ tx1, <[h := tx']> m !! h' = Some tx1 ∧
    tx_ref tx1 = tx_ref tx0 ∧ tx_op tx1 = tx_op tx0) as Hfwd.
  { intros h' tx0 Htx0. destruct (decide (h = h')) as [<-|Hne].
    - exists tx'. rewrite lookup_insert_eq. by simplify_eq.
    - exists tx0. by rewrite lookup_insert_ne. }
  split.
  - intros t h' Htag HF. destruct (Ht t h' Htag HF) as (tx0 & (tx1 & ? & _ & Hop)%Hfwd & ?).
    exists tx1. by rewrite Hop.
  - intros h' tx1 t (tx0 & ? & _ & ->)%Hback. by eapply Hp.
  - intros h' tx1 (tx0 & ? & _ & ->)%Hback. by apply Hh.
  - intros h' tx1 (tx0 & ? & _ & ->)%Hback. by eapply Hok.
  - intros h' tx1 (tx0 & ? & -> & _)%Hback. by eapply Hid.
  - intros h1 h2 tx1 tx2 (? & ? & -> & _)%Hback (? & ? & -> & _)%Hback. by eapply Hinj.
  - assert (∀ x, (∃ h' tx1, m !! h' = Some tx1 ∧ h' ≠ h ∧ tx_ref tx1 = x ∧ unblocked tx1) ↔
      ∃ h' tx1, <[h := tx']> m !! h' = Some tx1 ∧ h' ≠ h ∧ tx_ref tx1 = x ∧ unblocked tx1) as Hother.
    { intros x. split; intros (h' & tx1 & Hl & Hne & Hx); exists h', tx1.
      - by rewrite lookup_insert_ne.
      - by rewrite lookup_insert_ne in Hl. }
    assert (unblocked tx → unblocked tx') as Hmono.
    { unfold unblocked. unfold tx_op. simpl. lia. }
    intros x. transitivity (x ∈ b ∨ (x = tx_ref tx ∧ unblocked tx' ∧ ¬ unblocked tx)).
    + unfold unblocked. unfold tx_op. simpl. case_decide as Hd.
      * split.
        -- intros [->|?]%elem_of_bt_insert; [right|by left]. split_and!; [done|lia..].
        -- intros [?|(-> & _ & Hnu)]; [by apply bt_insert_old|]. apply bt_insert_new.
           intros z (h' & tx1 & Htx1 & <- & Hu)%Hb Heq%ref_cmp_eq_id.
           assert (h' = h) as -> by (by eapply Hinj). simplify_eq. done.
      * split; [by left|]. intros [?|(_ & ? & ?)]; [done|lia].
    + rewrite Hb. split.
      * intros [(h' & tx1 & Htx1 & Hx & Hu)|(-> & Hu & _)].
        -- destruct (decide (h' = h)) as [->|Hne].
           ++ simplify_eq. exists h, tx'. rewrite lookup_insert_eq. auto.
           ++ destruct (proj1 (Hother x)) as (h2 & tx2 & ? & _ & ? & ?); eauto 10.
        -- exists h, tx'. by rewrite lookup_insert_eq.
      * intros (h' & tx1 & Htx1 & Hx & Hu). destruct (decide (h' = h)) as [->|Hne].
        -- rewrite lookup_insert_eq in Htx1. injection Htx1 as <-.
           destruct (decide (unblocked tx)); [left; eauto|right; by subst].
        -- left. rewrite lookup_insert_ne in Htx1 by done. eauto.
  - case_decide; [|done]. by apply (bt_insert_sorted ref_cmp).
Qed.

(** Entries only move towards being ready. *)
Definition evolved m0 m : Prop :=
  ∀ h tx, m !! h = Some tx → ∃ tx0, m0 !! h = Some tx0 ∧ tx_ref tx = tx_ref tx0 ∧
    requires_offset tx0 ≤ requires_offset tx.

Lemma evolved_refl m : evolved m m.
Proof. intros h tx Htx. exists tx. done. Qed.

Lemma evolved_trans m1 m2 m3 : evolved m1 m2 → evolved m2 m3 → evolved m1 m3.
Proof.
  intros H12 H23 h tx Htx. destruct (H23 h tx Htx) as (tx2 & Htx2 & E2 & L2).
  destruct (H12 h tx2 Htx2) as (tx1 & Htx1 & E1 & L1). exists tx1. split_and!; [done|congruence|lia].
Qed.

Lemma evolved_core m m' : core <$> m' = core <$> m → evolved m m'.
Proof.
  intros Heq h tx Htx. destruct (core_lookup m' m h tx) as (tx' & Htx' & Href & Hoff); [done..|].
  exists tx'. split_and!; [done|done|lia].
Qed.

Lemma evolved_delete m h : evolved m (delete h m).
Proof. intros h' tx [_ Htx]%lookup_delete_Some. exists tx. done. Qed.

Lemma unlock_step_spec F tags rm b id hash rm' b' :
  Tracked.tracked rm → shard_inv F tags (Tracked.index rm) b id →
  unlock_step (rm, b) hash = (rm', b') →
  Tracked.tracked rm' ∧ shard_inv F tags (Tracked.index rm') b' id ∧
  dom (Tracked.index rm') = dom (Tracked.index rm) ∧
  evolved (Tracked.index rm) (Tracked.index rm').
Proof.
  intros Ht Hs. unfold unlock_step, Tracked.get.
  destruct (Tracked.index rm !! hash) as [tx|] eqn:Htx.
  2:{ intros [= <- <-]. split_and!; [done..|apply evolved_refl]. }
  intros [= <- <-]. split_and!.
  - apply Tracked.tracked_get_mut; [|done]. intros v Hv. simplify_eq. done.
  - simpl. rewrite (alter_insert_eq _ _ _ tx) by done. by apply (shard_inv_bump F tags _ b id hash tx).
  - simpl. by rewrite dom_alter_L.
  - simpl. rewrite (alter_insert_eq _ _ _ tx) by done. intros h tx1.
    rewrite lookup_insert_Some. intros [[<- <-]|[_ ?]]; [|by eauto].
    exists tx. split_and!; [done..|simpl; lia].
Qed.

Lemma unlock_fold_spec F tags id l rm b rm' b' :
  Tracked.tracked rm → shard_inv F tags (Tracked.index rm) b id →
  foldl unlock_step (rm, b) l = (rm', b') →
  Tracked.tracked rm' ∧ shard_inv F tags (Tracked.index rm') b' id ∧
  dom (Tracked.index rm') = dom (Tracked.index rm) ∧
  evolved (Tracked.index rm) (Tracked.index rm').
Proof.
  revert rm b. induction l as [|h l IH]; intros rm b Ht Hs; cbn [foldl].
  { intros [= <- <-]. split_and!; [done..|apply evolved_refl]. }
  destruct (unlock_step (rm, b) h) as [rm1 b1] eqn:Hstep.
  destruct (unlock_step_spec _ _ _ _ _ _ _ _ Ht Hs Hstep) as (Ht1 & Hs1 & Hd1 & He1).
  intros (Ht' & Hs' & Hd' & He')%IH; [|done..].
  split_and!; [done|done|congruence|by eapply evolved_trans].
Qed.

(** *** The loop with the assertion *)

Lemma clear_tags_spec tag hash l tags :
  NoDup l → tags !! tag = None → (∀ t, t ∈ l → t ≠ tag → tags !! t = Some hash) →
  ∃ tags', for_each (clear_tag tag hash) tags l = Ret tags' ∧
    ∀ t, tags' !! t = if decide (t ∈ l) then None else tags !! t.
Proof.
  revert tags. induction l as [|t l IH]; intros tags Hnd Htag Hall.
  { exists tags. split; [done|]. intros t. by rewrite decide_False by set_solver. }
  apply NoDup_cons in Hnd as [Hnot Hnd].
  erewrite for_each_cons.
  2:{ unfold clear_tag. rewrite bool_decide_eq_true_2; [done|].
      case_decide as Heq; [by subst|]. apply Hall; [left|done]. }
  destruct (IH (delete t tags)) as (tags' & -> & Hl); [done| |..].
  - rewrite lookup_delete_None. auto.
  - intros t' Hin Hne. rewrite lookup_delete_ne; [apply Hall; [by right|done]|].
    intros ->. done.
  - exists tags'. split; [done|]. intros t'. rewrite Hl. destruct (decide (t = t')) as [<-|Hne].
    + rewrite lookup_delete_eq. repeat case_decide; set_solver.
    + rewrite lookup_delete_ne by done. repeat case_decide; set_solver.
Qed.

(** *** The fuel *)

Lemma prune_work_ext K m m' : tx_op <$> m = tx_op <$> m' → prune_work K m = prune_work K m'.
Proof.
  intros Heq. unfold prune_work.
  pose proof (map_fold_fmap (λ _ op acc, length (requires op) * K + acc) tx_op 0 m) as E1.
  pose proof (map_fold_fmap (λ _ op acc, length (requires op) * K + acc) tx_op 0 m') as E2.
  etrans; [symmetry; exact E1|]. rewrite Heq. exact E2.
Qed.

Lemma prune_work_delete K m h tx :
  m !! h = Some tx → prune_work K m = length (requires (tx_op tx)) * K + prune_work K (delete h m).
Proof.
  intros Htx. unfold prune_work. rewrite (map_fold_delete_L _ _ h tx m) by (done || lia). done.
Qed.

Lemma prune_width_le m : width_le (prune_width m) m.
Proof.
  intros h tx Htx. unfold prune_width.
  rewrite (map_fold_delete_L _ _ h tx m) by (done || lia). lia.
Qed.

Lemma core_tx_op m m' : core <$> m = core <$> m' → tx_op <$> m = tx_op <$> m'.
Proof.
  intros Heq. assert (∀ n : gmap TxHash (ReadyTx Ex), tx_op <$> n = (λ c, ref_operation c.1) <$> (core <$> n)) as E.
  { intros n. by rewrite <-map_fmap_compose. }
  by rewrite !E, Heq.
Qed.

Lemma evolved_tx_op m m' : evolved m m' → dom m' = dom m → tx_op <$> m' = tx_op <$> m.
Proof.
  intros He Hd. apply map_eq. intros h. rewrite !lookup_fmap.
  destruct (m' !! h) as [tx|] eqn:Htx.
  - destruct (He h tx Htx) as (tx0 & -> & Href & _). simpl. unfold tx_op. by rewrite Href.
  - apply not_elem_of_dom in Htx. rewrite Hd in Htx. apply not_elem_of_dom in Htx. by rewrite Htx.
Qed.

Lemma evolved_width K m m' : evolved m m' → width_le K m → width_le K m'.
Proof.
  intros He HK h tx Htx. destruct (He h tx Htx) as (tx0 & Htx0 & Href & _).
  unfold tx_op. rewrite Href. by eapply HK.
Qed.

(** *** What may be pruned *)

(** [u] requires a tag that [v] provides. *)
Definition depends m (u v : TxHash) : Prop :=
  ∃ txu txv t, m !! u = Some txu ∧ m !! v = Some txv ∧
    t ∈ requires (tx_op txu) ∧ t ∈ provides (tx_op txv).

(** The provider of the tag and what it depends on. *)
Definition prunable tags m (tag : Tag) (h : TxHash) : Prop :=
  ∃ h0, tags !! tag = Some h0 ∧ rtc (depends m) h0 h.

(** State of the pruning of [tag0], which began with [tags0] and [m0]. *)
Record pruning tags0 m0 (tag0 : Tag) tags m (stack : list Tag)
    (removed : list (TrustedOperation Ex)) : Prop := {
  pr_evolved : evolved m0 m;
  pr_tag : tag0 ∈ stack ∨ tags !! tag0 = None;
  pr_stack : ∀ t h tx, t ∈ stack → m0 !! h = Some tx → t ∈ provides (tx_op tx) →
    prunable tags0 m0 tag0 h;
  pr_gone : ∀ h tx, m0 !! h = Some tx → m !! h = None → prunable tags0 m0 tag0 h;
  pr_removed : ∀ op, op ∈ removed ↔ ∃ h tx, m0 !! h = Some tx ∧ m !! h = None ∧ tx_op tx = op;
  pr_nodup : NoDup (op_hash <$> removed);
}.

Lemma pruning_init tags m b id tag : shard_inv ∅ tags m b id → pruning tags m tag tags m [tag] [].
Proof.
  intros Hs. split.
  - apply evolved_refl.
  - left. by left.
  - intros t h tx ->%list_elem_of_singleton Htx Hin. exists h. split; [|apply rtc_refl].
    by eapply inv_provides.
  - intros h tx Htx. congruence.
  - intros op. split; [set_solver|]. intros (h & tx & Htx & Hn & _). congruence.
  - constructor.
Qed.

(** A tag nobody provides any more is skipped. *)
Lemma pruning_skip tags0 m0 tag0 tags m t stack removed :
  pruning tags0 m0 tag0 tags m (t :: stack) removed → tags !! t = None →
  pruning tags0 m0 tag0 tags m stack removed.
Proof.
  intros [He Htag Hst Hg Hr Hnd] Hn. split; [done| |..|done|done|done].
  - destruct Htag as [[->|?]%elem_of_cons|?]; auto.
  - intros t' h tx Hin. apply Hst. by right.
Qed.

(** The operation [h] that provides [t] is removed. *)
Lemma pruning_remove tags0 m0 tag0 b0 id0 tags tags' m m' t h tx stack stack' removed :
  shard_inv ∅ tags0 m0 b0 id0 →
  pruning tags0 m0 tag0 tags m (t :: stack) removed →
  m !! h = Some tx → t ∈ provides (tx_op tx) →
  (∀ t' h' tx', tags !! t' = Some h' → m !! h' = Some tx' → tags0 !! t' = Some h') →
  evolved (delete h m) m' → dom m' = dom (delete h m) →
  (∀ t', tags' !! t' = if decide (t' ∈ provides (tx_op tx)) then None else tags !! t') →
  stack ⊆ stack' →
  (∀ t', t' ∈ stack' → t' ∈ stack ∨ pushed (delete t tags) (delete h m) (requires (tx_op tx)) t') →
  pruning tags0 m0 tag0 tags' m' stack' (removed ++ [tx_op tx]).
Proof.
  intros Hs0 [He Htag Hst Hg Hr Hnd] Htx Hprov Horig He' Hd Htags' Hsub Hpush.
  destruct (He h tx Htx) as (tx0 & Htx0 & Href & _).
  assert (tx_op tx = tx_op tx0) as Hop by (unfold tx_op; by rewrite Href).
  assert (prunable tags0 m0 tag0 h) as Hpr by (eapply (Hst t h tx0); [left|done|by rewrite <-Hop]).
  assert (∀ h', m' !! h' = None ↔ h' = h ∨ m !! h' = None) as Hdom.
  { intros h'. rewrite <-!not_elem_of_dom, Hd, dom_delete_L, not_elem_of_difference,
      elem_of_singleton. tauto. }
  split.
  - eapply evolved_trans; [done|]. eapply evolved_trans; [apply evolved_delete|done].
  - destruct (decide (tag0 ∈ provides (tx_op tx))) as [Hin|Hin].
    { right. by rewrite Htags', decide_True. }
    destruct Htag as [[->|?]%elem_of_cons|Hn]; [done|left; by apply Hsub|right].
    by rewrite Htags', decide_False.
  - intros t' h' tx' Hin Htx' Hp'. destruct (Hpush t' Hin) as [Hin'|Hpu].
    { eapply (Hst t' h' tx'); [by right|done..]. }
    destruct Hpu as (t0 & v & txv & Hreq & Htagv & Htxv & Hpv).
    apply lookup_delete_Some in Htagv as [_ Htagv]. apply lookup_delete_Some in Htxv as [_ Htxv].
    destruct (He v txv Htxv) as (txv0 & Htxv0 & Hrefv & _).
    assert (tx_op txv = tx_op txv0) as Hopv by (unfold tx_op; by rewrite Hrefv).
    pose proof (Horig t0 v txv Htagv Htxv) as Htag0.
    destruct (inv_tag _ _ _ _ _ Hs0 t0 v Htag0) as (txv1 & Htxv1 & Hpv1); [set_solver|].
    assert (h' = v) as ->.
    { rewrite Hopv in Hpv. pose proof (inv_provides _ _ _ _ _ Hs0 h' tx' t' Htx' Hp').
      pose proof (inv_provides _ _ _ _ _ Hs0 v txv0 t' Htxv0 Hpv). congruence. }
    destruct Hpr as (h0 & Hh0 & Hpath). exists h0. split; [done|]. eapply rtc_r; [done|].
    exists tx0, txv1, t0. by rewrite <-Hop.
  - intros h' tx' Htx' [->|Hn]%Hdom; [done|by eapply Hg].
  - intros op. rewrite elem_of_app, Hr, list_elem_of_singleton. split.
    + intros [(h' & tx' & ? & ? & ?)| ->]; [exists h', tx'|exists h, tx0]; rewrite Hdom; auto.
    + intros (h' & tx' & Htx' & [->|Hn]%Hdom & <-); [right; congruence|left; eauto].
  - rewrite fmap_app. apply NoDup_app. split_and!; [done| |apply NoDup_singleton].
    intros x (op & -> & Hin)%list_elem_of_fmap Hx. apply Hr in Hin as (h' & tx' & Htx' & Hn & <-).
    apply list_elem_of_singleton in Hx.
    rewrite Hop, (inv_hash _ _ _ _ _ Hs0 _ _ Htx'), (inv_hash _ _ _ _ _ Hs0 _ _ Htx0) in Hx. congruence.
Qed.

(** *** One step and the whole loop *)

Definition prune_good tags0 m0 b0 id K (tag0 : Tag) (st : prune_state) : Prop :=
  ∃ tags rm b stack removed, st = (Some tags, Some rm, Some b, stack, removed) ∧
    Tracked.tracked rm ∧ shard_inv ∅ tags (Tracked.index rm) b id ∧
    shard_inv ∅ tags0 m0 b0 id ∧ width_le K (Tracked.index rm) ∧
    pruning tags0 m0 tag0 tags (Tracked.index rm) stack removed.

Definition prune_measure (K : nat) (st : prune_state (Ex := Ex)) : nat :=
  let '(_, rm, _, stack, _) := st in
  length stack + match rm with Some rm => prune_work K (Tracked.index rm) | None => 0 end.

(** The removal of the provider [h] of the tag [t] on top of the stack. *)
Lemma prune_found tags rm b id K (t : Tag) h tx stack removed :
  Tracked.tracked rm → shard_inv ∅ tags (Tracked.index rm) b id → width_le K (Tracked.index rm) →
  tags !! t = Some h → Tracked.index rm !! h = Some tx → t ∈ provides (tx_op tx) →
  ∃ tags' rm' b' stack',
    prune_step (Some tags, Some rm, Some b, t :: stack, removed) =
      Ret (inl (Some tags', Some rm', Some b', stack', removed ++ [tx_op tx])) ∧
    Tracked.tracked rm' ∧ shard_inv ∅ tags' (Tracked.index rm') b' id ∧
    evolved (delete h (Tracked.index rm)) (Tracked.index rm') ∧
    dom (Tracked.index rm') = dom (delete h (Tracked.index rm)) ∧
    (∀ t', tags' !! t' = if decide (t' ∈ provides (tx_op tx)) then None else tags !! t') ∧
    stack ⊆ stack' ∧
    (∀ t', t' ∈ stack' → t' ∈ stack ∨
       pushed (delete t tags) (delete h (Tracked.index rm)) (requires (tx_op tx)) t') ∧
    length stack' ≤ length stack + length (requires (tx_op tx)) * K.
Proof.
  intros Ht Hs HK Htag Htx Hprov. cbn [prune_step unwrap mbind outcome_bind]. rewrite Htag.
  destruct (Tracked.remove rm h) as [rm1 o] eqn:Hrem.
  pose proof (Tracked.remove_index rm h) as Hidx. pose proof (Tracked.remove_result rm h) as Hres.
  pose proof (Tracked.tracked_remove rm h Ht) as Ht1. rewrite Hrem in Hidx, Hres, Ht1. simpl in Hidx, Hres, Ht1.
  rewrite Htx in Hres. subst o.
  destruct (foldl (prune_previous (delete t tags) (op_hash (tx_op tx))) (rm1, stack) (requires (tx_op tx)))
    as [rm2 stack'] eqn:Hprev.
  assert (width_le K (Tracked.index rm1)) as HK1.
  { rewrite Hidx. eapply evolved_width; [apply evolved_delete|done]. }
  destruct (prune_previous_spec _ _ _ _ _ _ _ _ Ht1 HK1 Hprev) as (Ht2 & Hc2 & Hlen & Hsub & Hpush).
  rewrite Hidx in Hpush, Hc2.
  destruct (foldl unlock_step (rm2, bt_remove ref_cmp (tx_ref tx) b) (unlocks tx)) as [rm3 b3] eqn:Hunl.
  destruct (clear_tags_spec t (op_hash (tx_op tx)) (provides (tx_op tx)) (delete t tags))
    as (tags' & -> & Htags').
  { by eapply (ok_provides _ (inv_ok _ _ _ _ _ Hs h tx Htx)). }
  { apply lookup_delete_eq. }
  { intros t' Hin Hne. rewrite lookup_delete_ne by done.
    rewrite (inv_hash _ _ _ _ _ Hs h tx Htx). by eapply inv_provides. }
  assert (∀ t', tags' !! t' = if decide (t' ∈ provides (tx_op tx)) then None else tags !! t') as Htags2.
  { intros t'. rewrite Htags'. case_decide; [done|]. apply lookup_delete_ne. naive_solver. }
  assert (shard_inv ∅ tags' (Tracked.index rm2) (bt_remove ref_cmp (tx_ref tx) b) id) as Hs2.
  { eapply shard_inv_core; [symmetry; exact Hc2|]. eapply shard_inv_delete; [done..|].
    intros t'. rewrite Htags2. repeat case_decide; set_solver. }
  destruct (unlock_fold_spec _ _ _ _ _ _ _ _ Ht2 Hs2 Hunl) as (Ht3 & Hs3 & Hd3 & He3).
  exists tags', rm3, b3, stack'. cbn [mbind outcome_bind]. split; [done|]. split_and!; try done.
  - eapply evolved_trans; [|done]. by apply evolved_core.
  - rewrite Hd3, <-(dom_fmap_L core (Tracked.index rm2)), Hc2. apply dom_fmap_L.
Qed.

Lemma prune_step_spec tags0 m0 b0 id K tag0 st :
  prune_good tags0 m0 b0 id K tag0 st →
  (∃ st', prune_step st = Ret (inl st') ∧ prune_good tags0 m0 b0 id K tag0 st' ∧
     prune_measure K st' < prune_measure K st) ∨
  (∃ st', prune_step st = Ret (inr st') ∧ prune_good tags0 m0 b0 id K tag0 st' ∧ st'.1.2 = []).
Proof.
  intros (tags & rm & b & stack & removed & -> & Ht & Hs & Hs0 & HK & Hp).
  destruct stack as [|t stack].
  { right. eexists. split; [done|]. split; [|done]. exists tags, rm, b, [], removed. done. }
  left. destruct (tags !! t) as [h|] eqn:Htag.
  2:{ cbn [prune_step unwrap mbind outcome_bind]. rewrite Htag. eexists. split; [done|]. split; [|simpl; lia].
      exists tags, rm, b, stack, removed. split_and!; try done. by eapply pruning_skip. }
  destruct (inv_tag _ _ _ _ _ Hs t h Htag) as (tx & Htx & Hprov); [set_solver|].
  destruct (prune_found tags rm b id K t h tx stack removed)
    as (tags' & rm' & b' & stack' & -> & Ht' & Hs' & He' & Hd' & Htags' & Hsub & Hpush & Hlen); try done.
  eexists. split; [done|]. split.
  - eexists tags', rm', b', stack', _. split; [done|]. split_and!; try done.
    + eapply evolved_width; [done|]. eapply evolved_width; [apply evolved_delete|done].
    + eapply (pruning_remove tags0 m0 tag0 b0 id tags tags' _ _ t h tx); try done.
      intros t' h' tx' Htag' Htx'. destruct (inv_tag _ _ _ _ _ Hs t' h' Htag') as (tx2 & Htx2 & Hin2); [set_solver|].
      destruct (pr_evolved _ _ _ _ _ _ _ Hp h' tx2 Htx2) as (tx0 & Htx0 & Href & _).
      eapply inv_provides; [done..|]. unfold tx_op in *. by rewrite <-Href.
  - simpl. rewrite (prune_work_delete K (Tracked.index rm) h tx) by done.
    rewrite (prune_work_ext K (Tracked.index rm') (delete h (Tracked.index rm)))
      by (by apply evolved_tx_op). lia.
Qed.

(** What [prune_tags] does to the entries and the tags of a shard. *)
Record prunes tags m (tag : Tag) tags' m' (removed : list (TrustedOperation Ex)) : Prop := {
  prs_tag : tags' !! tag = None;
  prs_kept : evolved m m';
  prs_gone : ∀ h tx, m !! h = Some tx → m' !! h = None → prunable tags m tag h;
  prs_removed : ∀ op, op ∈ removed ↔ ∃ h tx, m !! h = Some tx ∧ m' !! h = None ∧ tx_op tx = op;
  prs_nodup : NoDup (op_hash <$> removed);
}.

Lemma prune_loop_spec tags rm b id (tag : Tag) :
  Tracked.tracked rm → shard_inv ∅ tags (Tracked.index rm) b id →
  ∃ tags' rm' b' removed,
    loop (prune_fuel (Some rm)) prune_step (Some tags, Some rm, Some b, [tag], []) =
      Ret (Some tags', Some rm', Some b', [], removed) ∧
    Tracked.tracked rm' ∧ shard_inv ∅ tags' (Tracked.index rm') b' id ∧
    prunes tags (Tracked.index rm) tag tags' (Tracked.index rm') removed.
Proof.
  intros Ht Hs. set (K := prune_width (Tracked.index rm)).
  destruct (loop_total prune_step (prune_good tags (Tracked.index rm) b id K tag) (prune_measure K)
    (λ st, prune_good tags (Tracked.index rm) b id K tag st ∧ st.1.2 = [])
    (prune_step_spec tags (Tracked.index rm) b id K tag)
    (prune_fuel (Some rm)) (Some tags, Some rm, Some b, [tag], []))
    as (st & Heq & (tags' & rm' & b' & stack & removed & -> & Ht' & Hs' & _ & _ & Hp) & Hnil).
  - exists tags, rm, b, [tag], []. split_and!; try done; [apply prune_width_le|by eapply pruning_init].
  - unfold prune_measure, prune_fuel, K. simpl. lia.
  - simpl in Hnil. subst stack. exists tags', rm', b', removed. split_and!; try done.
    destruct Hp as [He Htag _ Hg Hr Hnd]. split; try done. destruct Htag; [set_solver|done].
Qed.

(** [prune_tags], total and with the invariant. *)
Lemma ready_prune_spec r tag s :
  ready_inv r →
  ∃ r' removed, prune_tags r tag s = Ret (r', removed) ∧ ready_inv r' ∧ only_shard s r r' ∧
    insertion_ids r' = insertion_ids r ∧
    prunes (tags_at r s) (ready_at r s) tag (tags_at r' s) (ready_at r' s) removed.
Proof.
  intros Hr. specialize (Hr s) as Hs. unfold prune_tags.
  destruct (provided_tags r !! s) as [tags|] eqn:Htags.
  - destruct (ready r !! s) as [rm|] eqn:Hrm; [|done]. destruct (best r !! s) as [b|] eqn:Hb; [|done].
    destruct Hs as [Ht Hs].
    destruct (prune_loop_spec tags rm b (id_at r s) tag Ht Hs)
      as (tags' & rm' & b' & removed & -> & Ht' & Hs' & Hp).
    cbn [mbind outcome_bind]. exists (put r s tags' rm' b'), removed. split; [done|].
    destruct (put_at r s tags' rm' b') as (-> & -> & _). unfold tags_at, ready_at.
    rewrite Htags, Hrm. split_and!; try done; [by apply ready_inv_put|apply ready_only_shard_put].
  - destruct (ready r !! s) eqn:Hrm; [done|]. exists r, []. unfold tags_at, ready_at.
    rewrite Htags, Hrm. simpl. split_and!; try done. split.
    + apply lookup_empty.
    + apply evolved_refl.
    + intros h tx Htx. by rewrite lookup_empty in Htx.
    + intros op. split; [set_solver|]. intros (h & tx & Htx & _). by rewrite lookup_empty in Htx.
    + constructor.
Qed.
End prune.
End ReadyPrune.
