(* ===== verification/ReadyIter.v ===== *)
(** The iterator over ready operations ([BestIterator]).  When no operation has
    more incoming links than unmet requirements, the iterator ends and yields,
    each time, the greatest operation (by priority, then shorter validity, then
    age) among those all of whose predecessors were yielded. *)

From stdpp Require Import base gmap fin_maps sets numbers relations list.
From S2P Require Import Prelude Collections PoolTypes TrackedMap FuturePool ReadyPool ReadyInv.

Module ReadyIter.
Import Ready ReadyInv.

(** Number of occurrences. *)
Definition occ (h : TxHash) (l : list TxHash) : nat := length (filter (λ x, x = h) l).

Lemma occ_cons h x l : occ h (x :: l) = (if decide (x = h) then 1 else 0) + occ h l.
Proof. unfold occ. rewrite filter_cons. by case_decide. Qed.

Lemma occ_app h l1 l2 : occ h (l1 ++ l2) = occ h l1 + occ h l2.
Proof. unfold occ. by rewrite filter_app, length_app. Qed.

Lemma occ_pos h l : h ∈ l → 0 < occ h l.
Proof.
  induction l as [|x l IH]; [set_solver|]. rewrite occ_cons.
  intros [->|?]%elem_of_cons; [rewrite decide_True by done; lia|]. specialize (IH ltac:(done)). lia.
Qed.

Section iterator.
Context `{Ord : IterOrder} {Ex : Type}.
Implicit Types (tx : ReadyTx Ex) (m : gmap TxHash (ReadyTx Ex)) (tags : gmap Tag TxHash).
Implicit Types (b : list (OperationRef Ex)) (it : BestIterator (Ex := Ex)) (D : list TxHash).

(** Links from the operations [D] to [h]. *)
Definition links_from m D (h : TxHash) : nat :=
  sum_list_with (λ u, match m !! u with Some tx => occ h (unlocks tx) | None => 0 end) D.

(** All links to [h]. *)
Definition links_to m (h : TxHash) : nat := links_from m (map_to_list m).*1 h.

(** No operation has more incoming links than requirements still open. *)
Definition links_bounded m : Prop :=
  ∀ h tx, m !! h = Some tx → requires_offset tx + links_to m h ≤ length (requires (tx_op tx)).

(** After the operations [D] were yielded, [h] can be. *)
Definition available m D (h : TxHash) : Prop :=
  ∃ tx, m !! h = Some tx ∧ h ∉ D ∧
    length (requires (tx_op tx)) ≤ requires_offset tx + links_from m D h.

Lemma links_from_perm m D D' h : D ≡ₚ D' → links_from m D h = links_from m D' h.
Proof. induction 1; simpl; lia. Qed.

Lemma links_from_snoc m D x h tx :
  m !! x = Some tx → links_from m (D ++ [x]) h = links_from m D h + occ h (unlocks tx).
Proof.
  intros Htx. unfold links_from. rewrite sum_list_with_app. simpl. rewrite Htx. lia.
Qed.

Lemma links_from_le m D h :
  NoDup D → (∀ u, u ∈ D → is_Some (m !! u)) → links_from m D h ≤ links_to m h.
Proof.
  intros Hnd Hin. unfold links_to.
  assert (D ⊆+ (map_to_list m).*1) as [E HE]%submseteq_Permutation.
  { apply NoDup_submseteq; [done|]. intros u [tx Htx]%Hin. apply list_elem_of_fmap.
    exists (u, tx). split; [done|]. by apply elem_of_map_to_list. }
  rewrite (links_from_perm _ _ _ _ HE). unfold links_from. rewrite sum_list_with_app. lia.
Qed.

(** With bounded links, what is available has no predecessor left. *)
Lemma available_predecessors m D h u tx :
  links_bounded m → NoDup D → (∀ u, u ∈ D → is_Some (m !! u)) → available m D h →
  m !! u = Some tx → h ∈ unlocks tx → u ∈ D.
Proof.
  intros Hb Hnd Hin (txh & Htxh & _ & Hle) Htx Hlink.
  destruct (decide (u ∈ D)) as [|Hu]; [done|].
  assert (links_from m (D ++ [u]) h ≤ links_to m h) as Hle'.
  { apply links_from_le.
    - apply NoDup_app. split_and!; [done| |apply NoDup_singleton]. set_solver.
    - intros v [?|Hv]%elem_of_app; [by apply Hin|]. apply list_elem_of_singleton in Hv. subst. eauto. }
  rewrite (links_from_snoc _ _ _ _ tx) in Hle' by done.
  specialize (Hb h txh Htxh). pose proof (occ_pos _ _ Hlink). lia.
Qed.

(** *** State of the iterator after [D] was yielded and [cnt h] links to [h]
    were followed *)
Record iter_inv m D (cnt : TxHash → nat) it : Prop := {
  ii_all : it_all it = m;
  ii_best : ∀ x, x ∈ it_best it ↔ ∃ h tx, m !! h = Some tx ∧ tx_ref tx = x ∧ h ∉ D ∧
    length (requires (tx_op tx)) ≤ requires_offset tx + cnt h;
  ii_sorted : bt_sorted ref_cmp (it_best it);
  ii_awaiting : ∀ h n ref, it_awaiting it !! h = Some (n, ref) ↔ ∃ tx, m !! h = Some tx ∧
    tx_ref tx = ref ∧ h ∉ D ∧ 0 < cnt h ∧ n = requires_offset tx + cnt h ∧
    n < length (requires (tx_op tx));
  ii_done : ∀ h tx, h ∈ D → m !! h = Some tx →
    length (requires (tx_op tx)) ≤ requires_offset tx + cnt h;
}.

(** Keys and insertion ids identify the entries. *)
Record keyed m : Prop := {
  key_hash : ∀ h tx, m !! h = Some tx → op_hash (tx_op tx) = h;
  key_inj : ∀ h1 h2 tx1 tx2, m !! h1 = Some tx1 → m !! h2 = Some tx2 →
    insertion_id (tx_ref tx1) = insertion_id (tx_ref tx2) → h1 = h2;
}.

Definition bump (cnt : TxHash → nat) (v h : TxHash) : nat :=
  (if decide (v = h) then 1 else 0) + cnt h.

Lemma iter_inv_ext m D cnt cnt' it :
  (∀ h, cnt h = cnt' h) → iter_inv m D cnt it → iter_inv m D cnt' it.
Proof.
  intros Hc [Ha Hb Hs Hw Hd]. split; [done| |done|..].
  - intros x. rewrite Hb. by setoid_rewrite Hc.
  - intros h n ref. rewrite Hw. by setoid_rewrite Hc.
  - intros h tx. rewrite <-Hc. apply Hd.
Qed.

(** One followed link to [v], which is still waiting for it. *)
Lemma best_or_awaiting_spec m D cnt it v tx aw :
  keyed m → m !! v = Some tx → v ∉ D →
  S (requires_offset tx + cnt v) ≤ length (requires (tx_op tx)) →
  iter_inv m D cnt it → aw = delete v (it_awaiting it) →
  iter_inv m D (bump cnt v)
    (best_or_awaiting (MkBestIterator (it_all it) aw (it_best it))
       (S (requires_offset tx + cnt v)) (tx_ref tx)).
Proof.
  intros [Hkh Hki] Htx HvD Hle [Ha Hb Hs Hw Hd] ->. unfold best_or_awaiting. simpl.
  assert (∀ h, h ≠ v → bump cnt v h = cnt h) as Hother.
  { intros h Hne. unfold bump. by rewrite decide_False. }
  assert (bump cnt v v = S (cnt v)) as Hself by (unfold bump; by rewrite decide_True).
  assert (∀ h tx', m !! h = Some tx' → length (requires (tx_op tx')) ≤ requires_offset tx' + cnt h →
    length (requires (tx_op tx')) ≤ requires_offset tx' + bump cnt v h) as Hmono.
  { intros h tx' _ ?. unfold bump. lia. }
  assert (∀ x, x ∈ it_best it → ∃ h tx', m !! h = Some tx' ∧ tx_ref tx' = x ∧ h ∉ D ∧
    length (requires (tx_op tx')) ≤ requires_offset tx' + bump cnt v h) as Hold.
  { intros x (h & tx' & ? & ? & ? & ?)%Hb. exists h, tx'. auto. }
  assert (∀ h tx', m !! h = Some tx' → h ≠ v → h ∉ D →
    length (requires (tx_op tx')) ≤ requires_offset tx' + bump cnt v h → tx_ref tx' ∈ it_best it) as Hnew.
  { intros h tx' Htx' Hne HD Hlen. rewrite Hother in Hlen by done. apply Hb. eauto 10. }
  assert (∀ h n ref, h ≠ v → it_awaiting it !! h = Some (n, ref) ↔ ∃ tx', m !! h = Some tx' ∧
    tx_ref tx' = ref ∧ h ∉ D ∧ 0 < bump cnt v h ∧ n = requires_offset tx' + bump cnt v h ∧
    n < length (requires (tx_op tx'))) as Hwo.
  { intros h n ref Hne. rewrite Hw. by setoid_rewrite (Hother h Hne). }
  change (length (requires (ref_operation (tx_ref tx)))) with (length (requires (tx_op tx))).
  destruct (Nat.leb_spec (length (requires (tx_op tx))) (S (requires_offset tx + cnt v))) as [Hfull|Hpart];
    split; simpl; try done.
  - intros x. split.
    + intros [->|?]%elem_of_bt_insert; [|auto]. exists v, tx. split_and!; [done..|]. rewrite Hself. lia.
    + intros (h & tx' & Htx' & <- & HD & Hlen). destruct (decide (h = v)) as [->|Hne].
      * simplify_eq. apply bt_insert_new. intros z (h' & tx1 & Htx1 & <- & _ & Hl1)%Hb Heq%ref_cmp_eq_id.
        assert (h' = v) as -> by (by eapply Hki). simplify_eq. lia.
      * apply bt_insert_old. by eapply Hnew.
  - by apply (bt_insert_sorted ref_cmp).
  - intros h n ref. destruct (decide (h = v)) as [->|Hne].
    + rewrite lookup_delete_eq. split; [done|]. intros (tx' & ? & _ & _ & _ & -> & ?). simplify_eq. lia.
    + rewrite lookup_delete_ne by done. by apply Hwo.
  - intros h tx' HD Htx'. apply Hmono; [done|]. by apply Hd.
  - intros x. split; [auto|]. intros (h & tx' & Htx' & <- & HD & Hlen).
    destruct (decide (h = v)) as [->|Hne]; [|by eapply Hnew]. simplify_eq. lia.
  - intros h n ref. change (op_hash (ref_operation (tx_ref tx))) with (op_hash (tx_op tx)).
    rewrite (Hkh v tx Htx). destruct (decide (h = v)) as [->|Hne].
    + rewrite lookup_insert_eq. split.
      * intros [= <- <-]. exists tx. split_and!; [done..|lia|lia|lia].
      * intros (tx' & ? & <- & _ & _ & -> & ?). simplify_eq. f_equal. f_equal. lia.
    + rewrite lookup_insert_ne, lookup_delete_ne by done. by apply Hwo.
  - intros h tx' HD Htx'. apply Hmono; [done|]. by apply Hd.
Qed.

Lemma unlock_next_spec m D cnt it v :
  keyed m → iter_inv m D cnt it →
  (∀ tx, m !! v = Some tx → S (requires_offset tx + cnt v) ≤ length (requires (tx_op tx))) →
  iter_inv m D (bump cnt v) (unlock_next it v).
Proof.
  intros Hk Hinv Hle. pose proof Hinv as [Ha Hb Hs Hw Hd]. unfold unlock_next.
  destruct (it_awaiting it !! v) as [[n ref]|] eqn:Haw.
  - apply Hw in Haw as (tx & Htx & <- & HD & Hpos & -> & Hlt).
    eapply best_or_awaiting_spec; [done..|by apply Hle|done|done].
  - rewrite Ha. destruct (m !! v) as [tx|] eqn:Htx.
    + specialize (Hle tx eq_refl).
      assert (v ∉ D) as HD by (intros Hin; specialize (Hd v tx Hin Htx); lia).
      assert (cnt v = 0) as Hc.
      { destruct (cnt v) eqn:Hc; [done|]. exfalso.
        assert (it_awaiting it !! v = Some (requires_offset tx + cnt v, tx_ref tx)) as E.
        { apply Hw. exists tx. split_and!; [done..|lia|done|lia]. } congruence. }
      destruct it as [al aw bs]. simpl in *. subst al.
      pose proof (best_or_awaiting_spec m D cnt (MkBestIterator m aw bs) v tx aw Hk Htx HD Hle Hinv) as Hspec.
      rewrite Hc, Nat.add_0_r in Hspec. apply Hspec. simpl. symmetry. by apply delete_id.
    + assert (∀ h tx, m !! h = Some tx → bump cnt v h = cnt h) as Hother.
      { intros h tx Hh. unfold bump. rewrite decide_False; [done|]. congruence. }
      split; [done| |done|..].
      * intros x. rewrite Hb. split; intros (h & tx & Hh & Hx); exists h, tx; by rewrite (Hother h tx Hh) in *.
      * intros h n ref. rewrite Hw. split; intros (tx & Hh & Hx); exists tx; by rewrite (Hother h tx Hh) in *.
      * intros h tx HD Hh. rewrite (Hother h tx Hh). by apply Hd.
Qed.

Lemma unlock_list_spec m D l cnt it :
  keyed m → iter_inv m D cnt it →
  (∀ h tx, m !! h = Some tx → requires_offset tx + (cnt h + occ h l) ≤ length (requires (tx_op tx)) ∨
     occ h l = 0) →
  iter_inv m D (λ h, cnt h + occ h l) (foldl unlock_next it l).
Proof.
  intros Hk. revert cnt it. induction l as [|v l IH]; intros cnt it Hinv Hle; cbn [foldl].
  { eapply iter_inv_ext; [|done]. intros h. unfold occ. simpl. lia. }
  eapply (iter_inv_ext _ _ (λ h, bump cnt v h + occ h l)).
  { intros h. rewrite occ_cons. unfold bump. lia. }
  apply IH.
  - apply unlock_next_spec; [done..|]. intros tx Htx. specialize (Hle v tx Htx).
    rewrite occ_cons, decide_True in Hle by done. lia.
  - intros h tx Htx. specialize (Hle h tx Htx). rewrite occ_cons in Hle. unfold bump. lia.
Qed.

(** *** [next] *)

(** [tx] is the greatest of the operations available after [D]. *)
Definition greatest m D (h : TxHash) tx : Prop :=
  m !! h = Some tx ∧ available m D h ∧
  ∀ h' tx', available m D h' → m !! h' = Some tx' → h' = h ∨ ref_cmp (tx_ref tx') (tx_ref tx) = Lt.

Definition yielded m D : Prop := NoDup D ∧ ∀ u, u ∈ D → is_Some (m !! u).

Lemma iter_inv_init tags m b id F :
  shard_inv F tags m b id → iter_inv m [] (links_from m []) (MkBestIterator m ∅ b).
Proof.
  intros Hs. split; simpl; [done| |by eapply inv_sorted| |set_solver].
  - intros x. rewrite (inv_best _ _ _ _ _ Hs). unfold unblocked. setoid_rewrite Nat.add_0_r. set_solver.
  - intros h n ref. rewrite lookup_empty. split; [done|]. intros (tx & _ & _ & _ & Hn & _).
    unfold links_from in Hn. simpl in Hn. lia.
Qed.

(** The greatest element of [best] is taken out. *)
Lemma iter_inv_take m D it rest h tx :
  keyed m → iter_inv m D (links_from m D) it → it_best it = rest ++ [tx_ref tx] →
  m !! h = Some tx → available m D h →
  iter_inv m (D ++ [h]) (links_from m D) (MkBestIterator m (it_awaiting it) rest).
Proof.
  intros [Hkh Hki] [Ha Hb Hs Hw Hd] Hbest Htx (tx' & ? & HD & Hle). simplify_eq.
  assert (bt_sorted ref_cmp rest) as Hsr.
  { eapply StronglySorted_sublist; [|exact Hs]. rewrite Hbest. by apply sublist_inserts_r. }
  assert (tx_ref tx ∉ rest) as Hnot.
  { apply bt_sorted_NoDup in Hs; [|apply _]. rewrite Hbest in Hs.
    apply NoDup_app in Hs as (_ & Hx & _). intros Hin. apply (Hx _ Hin). by apply list_elem_of_singleton. }
  split; simpl; [done| |done|..].
  - intros x. transitivity (x ∈ it_best it ∧ x ≠ tx_ref tx).
    { rewrite Hbest, elem_of_app, list_elem_of_singleton. split; [|tauto].
      intros Hx. split; [by left|]. by intros ->. }
    rewrite Hb. split.
    + intros [(h' & tx' & Htx' & <- & HD' & Hl') Hne]. exists h', tx'. split_and!; [done..| |done].
      rewrite elem_of_app, list_elem_of_singleton. intros [?| ->]; [done|]. simplify_eq.
    + intros (h' & tx' & Htx' & <- & HD' & Hl'). rewrite elem_of_app, list_elem_of_singleton in HD'.
      split; [by eauto 10|]. intros Heq. apply HD'. right. eapply Hki; [done..|]. by rewrite Heq.
  - intros h' n ref. rewrite Hw. split; intros (tx' & Htx' & Hr & HD' & Hx); exists tx'; split_and!; try tauto.
    + rewrite elem_of_app, list_elem_of_singleton. intros [?| ->]; [done|]. simplify_eq. lia.
    + intros ?. apply HD'. apply elem_of_app. by left.
  - intros h' tx' [?|Hh]%elem_of_app Htx'; [by apply Hd|].
    apply list_elem_of_singleton in Hh. subst. by simplify_eq.
Qed.

Lemma next_spec m D it :
  keyed m → links_bounded m → yielded m D → iter_inv m D (links_from m D) it →
  (next it = Ret (None, it) ∧ ∀ h, ¬ available m D h) ∨
  (∃ h tx it', next it = Ret (Some (tx_op tx), it') ∧ greatest m D h tx ∧
     yielded m (D ++ [h]) ∧ iter_inv m (D ++ [h]) (links_from m (D ++ [h])) it').
Proof.
  intros Hk Hbd [Hnd HD] Hinv. pose proof Hinv as [Ha Hb Hs Hw Hd].
  unfold next. rewrite loop_unfold.
  destruct (bt_last (it_best it)) as [x|] eqn:Hlast.
  2:{ left. split; [unfold next_step; by rewrite Hlast|]. intros h (tx & Htx & HhD & Hle). unfold bt_last in Hlast.
      apply last_None in Hlast. assert (tx_ref tx ∈ it_best it) as Hin by (apply Hb; eauto 10).
      rewrite Hlast in Hin. set_solver. }
  right. destruct (bt_take_last ref_cmp (it_best it) x Hs Hlast) as (rest & Hbest & Htake).
  assert (x ∈ it_best it) as (h & tx & Htx & <- & HhD & Hle)%Hb.
  { rewrite Hbest. apply elem_of_app. right. by apply list_elem_of_singleton. }
  assert (available m D h) as Hav by (exists tx; done).
  assert (yielded m (D ++ [h])) as [Hnd' HD'].
  { split.
    - apply NoDup_app. split_and!; [done| |apply NoDup_singleton]. set_solver.
    - intros u [?|Hu]%elem_of_app; [by apply HD|]. apply list_elem_of_singleton in Hu. subst. eauto. }
  assert (next_step it = Ret (inr (Some (tx_op tx),
    foldl unlock_next (MkBestIterator m (it_awaiting it) rest) (unlocks tx)))) as ->.
  { unfold next_step. rewrite Hlast, Htake.
    change (op_hash (ref_operation (tx_ref tx))) with (op_hash (tx_op tx)).
    rewrite (key_hash _ Hk h tx Htx). cbn [it_all]. by rewrite Ha, Htx. }
  exists h, tx. eexists. split; [done|]. split_and!; [|done|].
  - split_and!; [done..|]. intros h' tx' (tx2 & Htx2 & HhD' & Hle') Htx'. rewrite Htx' in Htx2. injection Htx2 as <-.
    assert (tx_ref tx' ∈ it_best it) as Hin by (apply Hb; eauto 10).
    destruct (bt_last_max ref_cmp _ _ _ Hs Hlast Hin) as [Heq|]; [left|by right].
    eapply (key_inj _ Hk); [done..|]. by rewrite Heq.
  - eapply (iter_inv_ext _ _ (λ h', links_from m D h' + occ h' (unlocks tx))).
    { intros h'. by rewrite (links_from_snoc _ _ _ _ tx). }
    apply unlock_list_spec; [done|by eapply iter_inv_take|].
    intros h' tx' Htx'. left. rewrite <-(links_from_snoc _ _ _ _ tx) by done.
    pose proof (links_from_le m (D ++ [h]) h' Hnd' HD'). specialize (Hbd h' tx' Htx'). lia.
Qed.

(** *** Everything the iterator yields *)

(** At every point of [l] the greatest available operation comes next. *)
Definition greedy m (l : list (TrustedOperation Ex)) : Prop :=
  ∀ pre x post, l = pre ++ x :: post →
    ∃ tx, greatest m (op_hash <$> pre) (op_hash x) tx ∧ tx_op tx = x.

Record enumerates m (l : list (TrustedOperation Ex)) : Prop := {
  en_nodup : NoDup (op_hash <$> l);
  en_greedy : greedy m l;
  en_exhausted : ∀ h, ¬ available m (op_hash <$> l) h;
}.

Definition collect_good m (st : BestIterator (Ex := Ex) * list (TrustedOperation Ex)) : Prop :=
  let '(it, out) := st in
  let D := op_hash <$> out in
  yielded m D ∧ iter_inv m D (links_from m D) it ∧ greedy m out.

Lemma greedy_snoc m l x tx :
  greedy m l → greatest m (op_hash <$> l) (op_hash x) tx → tx_op tx = x → greedy m (l ++ [x]).
Proof.
  intros Hg Hx Hop pre y post Heq.
  destruct post as [|z post _] using rev_ind.
  - apply app_inj_tail in Heq as [-> ->]. eauto.
  - rewrite app_comm_cons, app_assoc in Heq. apply app_inj_tail in Heq as [-> _].
    by apply (Hg pre y post).
Qed.

Lemma collect_step_spec m st :
  keyed m → links_bounded m → collect_good m st →
  (∃ st', collect_step st = Ret (inl st') ∧ collect_good m st' ∧
     size m - length st'.2 < size m - length st.2) ∨
  (∃ l, collect_step st = Ret (inr l) ∧ enumerates m l).
Proof.
  intros Hk Hb. destruct st as [it out]. intros (Hy & Hinv & Hg).
  destruct (next_spec m (op_hash <$> out) it Hk Hb Hy Hinv)
    as [[Heq Hex]|(h & tx & it' & Heq & Hgr & Hy' & Hinv')];
    cbn [collect_step]; rewrite Heq; cbn [mbind outcome_bind].
  - right. exists out. split; [done|]. destruct Hy as [Hnd _]. by split.
  - left. eexists. split; [done|]. pose proof Hgr as [Htx _].
    assert (op_hash (tx_op tx) = h) as Hh by (by apply (key_hash _ Hk)).
    assert (op_hash <$> out ++ [tx_op tx] = (op_hash <$> out) ++ [h]) as Hmap.
    { rewrite fmap_app. simpl. by rewrite Hh. }
    split.
    + cbn [collect_good]. rewrite Hmap. split_and!; [apply Hy'|done..|].
      eapply greedy_snoc; [done| |done]. by rewrite Hh.
    + simpl. rewrite length_app. simpl. destruct Hy' as [Hnd' HD'].
      assert (length ((op_hash <$> out) ++ [h]) ≤ size m) as Hlen.
      { rewrite <-length_map_to_list, <-(length_fmap fst (map_to_list m)).
        apply submseteq_length, NoDup_submseteq; [done|]. intros u [tx' Htx']%HD'.
        apply list_elem_of_fmap. exists (u, tx'). split; [done|]. by apply elem_of_map_to_list. }
      rewrite length_app, length_fmap in Hlen. simpl in Hlen. lia.
Qed.

(** The iteration ends within the size of the pool and is greedy. *)
Lemma collect_spec F tags m b id :
  shard_inv F tags m b id → links_bounded m →
  ∃ l, collect (S (size m)) (MkBestIterator m ∅ b) = Ret l ∧ enumerates m l.
Proof.
  intros Hs Hb. assert (keyed m) as Hk by (split; [by eapply inv_hash|by eapply inv_inj]).
  unfold collect. apply (loop_total collect_step (collect_good m) (λ st, size m - length st.2)).
  - intros st. by apply collect_step_spec.
  - cbn [collect_good]. simpl. split_and!.
    + split; [constructor|set_solver].
    + by eapply iter_inv_init.
    + intros pre x post Heq. by destruct pre.
  - simpl. lia.
Qed.
End iterator.
End ReadyIter.
