(* ===== verification/BasePool.v ===== *)
(** The dependency-graph pool (core-primitives/top-pool/src/base_pool.rs): the
    Future and the Ready queue together, with promotion from one to the other,
    limits and pruning. *)

From stdpp Require Import base gmap fin_maps sets numbers list.
From S2P Require Import Prelude Collections PoolTypes TrackedMap FuturePool ReadyPool.

Module Base.
Import Future(WaitingTrustedOperations, FutureTrustedOperations).
Import Ready(ReadyOperations, ReadyTx, OperationRef).

(** How many invocations of [prune_tags] the pruned tags are remembered for. *)
Definition RECENTLY_PRUNED_TAGS : nat := 2.

Record BasePool (Ex : Type) := MkBasePool {
  reject_future_operations : bool;
  future : FutureTrustedOperations Ex;
  ready : ReadyOperations Ex;
  recently_pruned : list (gset Tag);
  recently_pruned_index : nat;
}.
Arguments MkBasePool {Ex} _ _ _ _ _.
Arguments reject_future_operations {Ex} _.
Arguments future {Ex} _.
Arguments ready {Ex} _.
Arguments recently_pruned {Ex} _.
Arguments recently_pruned_index {Ex} _.

Section base_pool.
Context `{Ord : IterOrder} {Ex : Type}.
Implicit Types (p : BasePool Ex) (shard : ShardIdentifier) (w : WaitingTrustedOperations Ex).

Definition new (reject : bool) : BasePool Ex :=
  MkBasePool reject Future.default_future Ready.default_ready
    (replicate RECENTLY_PRUNED_TAGS ∅) 0.

Definition set_reject p (reject : bool) : BasePool Ex :=
  MkBasePool reject (future p) (ready p) (recently_pruned p) (recently_pruned_index p).

Definition set_future p (f : FutureTrustedOperations Ex) : BasePool Ex :=
  MkBasePool (reject_future_operations p) f (ready p) (recently_pruned p) (recently_pruned_index p).

Definition set_ready p (r : ReadyOperations Ex) : BasePool Ex :=
  MkBasePool (reject_future_operations p) (future p) r (recently_pruned p) (recently_pruned_index p).

(** The closure gets the pool and the original flag. *)
Definition with_futures_enabled {T} p (closure : BasePool Ex → bool → outcome (BasePool Ex * T)) :
    outcome (BasePool Ex * T) :=
  let previous := reject_future_operations p in
  closure (set_reject p false) previous ≫= λ '(p', v), Ret (set_reject p' previous, v).

Definition is_imported p (hash : TxHash) shard : bool :=
  Future.contains (future p) hash shard || Ready.contains (ready p) hash shard.

(** *** Import to the Ready queue *)

Record promotion := MkPromotion {
  pm_future : FutureTrustedOperations Ex;
  pm_ready : ReadyOperations Ex;
  pm_promoted : list TxHash;
  pm_failed : list TxHash;
  pm_removed : list (TrustedOperation Ex);
  pm_first : bool;
  pm_stack : list (WaitingTrustedOperations Ex);
}.

(** The body of the loop of [import_to_ready]; it leaves the loop with the
    error of the first import, or when the stack is empty. *)
Definition promotion_step shard (st : promotion) :
    outcome (promotion + (promotion * option PoolError)) :=
  match pm_stack st with
  | [] => Ret (inr (st, None))
  | tx :: to_import =>
      Future.satisfy_tags (pm_future st) (provides (Future.operation tx)) shard
        ≫= λ '(f, unlocked),
      let to_import := reverse unlocked ++ to_import in
      let current_hash := op_hash (Future.operation tx) in
      Ready.import (pm_ready st) tx shard ≫= λ '(r, res),
      match res with
      | Ok replaced =>
          let promoted :=
            if pm_first st then pm_promoted st else pm_promoted st ++ [current_hash] in
          Ret (inl (MkPromotion f r promoted (pm_failed st) (pm_removed st ++ replaced) false to_import))
      | Err e =>
          if pm_first st then
            Ret (inr (MkPromotion f r (pm_promoted st) (pm_failed st) (pm_removed st) true to_import,
                      Some e))
          else
            Ret (inl (MkPromotion f r (pm_promoted st) (pm_failed st ++ [current_hash])
                        (pm_removed st) false to_import))
      end
  end.

(** Every iteration imports one operation; what it pushes left the Future queue. *)
Definition promotion_fuel p shard : nat :=
  match Future.waiting (future p) !! shard with Some pool => 2 + size pool | None => 2 end.

Definition import_to_ready p w shard : outcome (BasePool Ex * result (Imported Ex) PoolError) :=
  let hash := op_hash (Future.operation w) in
  loop (promotion_fuel p shard) (promotion_step shard)
    (MkPromotion (future p) (ready p) [] [] [] true [w]) ≫= λ '(st, err),
  let p' := set_ready (set_future p (pm_future st)) (pm_ready st) in
  match err with
  | Some e => Ret (p', Err e)
  | None =>
      if existsb (λ op, bool_decide (op_hash op = hash)) (pm_removed st) then
        Ready.remove_subtree (pm_ready st) (pm_promoted st) shard ≫= λ '(r, _),
        Ret (set_ready p' r, Err CycleDetected)
      else
        Ret (p', Ok (ImportedReady hash (pm_promoted st) (pm_failed st) (pm_removed st)))
  end.

(** *** Import *)

Definition import (now : Z) p (tx : TrustedOperation Ex) shard :
    outcome (BasePool Ex * result (Imported Ex) PoolError) :=
  if is_imported p (op_hash tx) shard then Ret (p, Err AlreadyImported)
  else
    let w := Future.new_waiting now tx (Ready.provided_tags_of (ready p) shard) (recently_pruned p) in
    if negb (Future.is_ready w) then
      if reject_future_operations p then Ret (p, Err RejectedFutureTrustedOperation)
      else
        Future.import (future p) w shard ≫= λ f,
        Ret (set_future p f, Ok (ImportedFuture (op_hash tx)))
    else import_to_ready p w shard.

(** *** Queries *)

Definition get_ready p shard : outcome Ready.BestIterator := Ready.get (ready p) shard.

Definition get_shards p : list ShardIdentifier := Ready.get_shards (ready p).

Definition futures p shard : list (TrustedOperation Ex) := Future.all (future p) shard.

(** [zip] stops at the shorter list. *)
Definition by_hashes p (hashes : list TxHash) shard : list (option (TrustedOperation Ex)) :=
  zip_with (λ a b, match a with Some x => Some x | None => b end)
    (Ready.by_hashes (ready p) hashes shard) (Future.by_hashes (future p) hashes shard).

Definition ready_by_hash p (hash : TxHash) shard : option (TrustedOperation Ex) :=
  Ready.by_hash (ready p) hash shard.

Definition status p shard : PoolStatus :=
  MkPoolStatus (Ready.len (ready p) shard) (Ready.bytes (ready p) shard)
    (Future.len (future p) shard) (Future.bytes (future p) shard).

(** *** Removal and limits *)

Definition remove_subtree p (hashes : list TxHash) shard :
    outcome (BasePool Ex * list (TrustedOperation Ex)) :=
  Ready.remove_subtree (ready p) hashes shard ≫= λ '(r, removed),
  let '(f, removed') := Future.remove (future p) hashes shard in
  Ret (set_ready (set_future p f) r, removed ++ removed').

(** The oldest ready operation. *)
Definition older (minimal : option (OperationRef Ex)) (current : ReadyTx Ex) :
    option (OperationRef Ex) :=
  match minimal with
  | None => Some (Ready.tx_ref current)
  | Some ref =>
      if (Ready.insertion_id (Ready.tx_ref current) <? Ready.insertion_id ref)%Z
      then Some (Ready.tx_ref current) else minimal
  end.

(** The comparison of import times is commented out in the source, so the
    first visited operation stays. *)
Definition first_visited (minimal : option (WaitingTrustedOperations Ex))
    (current : WaitingTrustedOperations Ex) : option (WaitingTrustedOperations Ex) :=
  match minimal with None => Some current | Some _ => minimal end.

Definition limit_ready_step (limit : Limit) shard (st : BasePool Ex * list (TrustedOperation Ex)) :
    outcome ((BasePool Ex * list (TrustedOperation Ex)) + (BasePool Ex * list (TrustedOperation Ex))) :=
  let '(p, removed) := st in
  if is_exceeded limit (Ready.len (ready p) shard) (Ready.bytes (ready p) shard) then
    match Ready.fold older (ready p) shard with
    | Some minimal =>
        remove_subtree p [op_hash (Ready.ref_operation minimal)] shard ≫= λ '(p', l),
        Ret (inl (p', removed ++ l))
    | None => Ret (inr (p, removed))
    end
  else Ret (inr (p, removed)).

Definition limit_future_step (limit : Limit) shard (st : BasePool Ex * list (TrustedOperation Ex)) :
    outcome ((BasePool Ex * list (TrustedOperation Ex)) + (BasePool Ex * list (TrustedOperation Ex))) :=
  let '(p, removed) := st in
  if is_exceeded limit (Future.len (future p) shard) (Future.bytes (future p) shard) then
    match Future.fold first_visited (future p) shard with
    | Some minimal =>
        remove_subtree p [op_hash (Future.operation minimal)] shard ≫= λ '(p', l),
        Ret (inl (p', removed ++ l))
    | None => Ret (inr (p, removed))
    end
  else Ret (inr (p, removed)).

(** Each iteration removes an operation of the queue it looks at. *)
Definition ready_size p shard : nat :=
  match Ready.ready (ready p) !! shard with Some rm => size (Tracked.index rm) | None => 0 end.

Definition future_size p shard : nat :=
  match Future.waiting (future p) !! shard with Some pool => size pool | None => 0 end.

Definition enforce_limits p (ready_limit future_limit : Limit) shard :
    outcome (BasePool Ex * list (TrustedOperation Ex)) :=
  loop (S (ready_size p shard)) (limit_ready_step ready_limit shard) (p, []) ≫= λ '(p, removed),
  loop (S (future_size p shard)) (limit_future_step future_limit shard) (p, removed).

Definition clear_future p shard : outcome (BasePool Ex * list (TrustedOperation Ex)) :=
  Future.clear (future p) shard ≫= λ '(f, l), Ret (set_future p f, l).

(** *** Pruning *)

Record prune_acc := MkPruneAcc {
  pa_future : FutureTrustedOperations Ex;
  pa_ready : ReadyOperations Ex;
  pa_import : list (WaitingTrustedOperations Ex);
  pa_pruned : list (TrustedOperation Ex);
  pa_tags : gset Tag;
}.

(** The loop over the tags. *)
Definition prune_one shard (st : prune_acc) (tag : Tag) : outcome prune_acc :=
  Future.satisfy_tags (pa_future st) [tag] shard ≫= λ '(f, unlocked),
  Ready.prune_tags (pa_ready st) tag shard ≫= λ '(r, pruned),
  Ret (MkPruneAcc f r (pa_import st ++ unlocked) (pa_pruned st ++ pruned) ({[tag]} ∪ pa_tags st)).

(** The loop over the operations that became ready. *)
Definition promote_one shard (st : BasePool Ex * list (Imported Ex) * list TxHash) w :
    outcome (BasePool Ex * list (Imported Ex) * list TxHash) :=
  let '(p, promoted, failed) := st in
  import_to_ready p w shard ≫= λ '(p', res),
  match res with
  | Ok i => Ret (p', promoted ++ [i], failed)
  | Err _ => Ret (p', promoted, failed ++ [op_hash (Future.operation w)])
  end.

Definition prune_tags p (tags : list Tag) shard : outcome (BasePool Ex * PruneStatus Ex) :=
  let idx := recently_pruned_index p in
  unwrap (recently_pruned p !! idx) ≫= λ _,
  for_each (prune_one shard) (MkPruneAcc (future p) (ready p) [] [] ∅) tags ≫= λ acc,
  let p' := MkBasePool (reject_future_operations p) (pa_future acc) (pa_ready acc)
              (<[idx := pa_tags acc]> (recently_pruned p)) ((idx + 1) mod RECENTLY_PRUNED_TAGS) in
  for_each (promote_one shard) (p', [], []) (pa_import acc) ≫= λ '(p'', promoted, failed),
  Ret (p'', MkPruneStatus promoted failed (pa_pruned acc)).
End base_pool.
End Base.
