(* ===== verification/BaseInv.v ===== *)
(** The invariant of the pool and the promotion of operations from Future to
    Ready: both queues are exact and disjoint, and no operation waits for a tag
    that a ready operation provides. *)

From stdpp Require Import base gmap fin_maps sets numbers list.
From S2P Require Import Prelude Collections PoolTypes TrackedMap FuturePool ReadyPool ReadyInv ReadyImport ReadyPrune BasePool.

Module BaseInv.
Import Base.

Abbreviation waiting_at := FutureInv.waiting_at.
Abbreviation ready_at := ReadyInv.ready_at.
Abbreviation tags_at := ReadyInv.tags_at.
Abbreviation id_at := ReadyInv.id_at.
Abbreviation w_hash := FutureInv.w_hash.

Section base_inv.
Context `{Ord : IterOrder} {Ex : Type}.
Implicit Types (p : BasePool Ex) (s : ShardIdentifier) (w : Future.WaitingTrustedOperations Ex).
Implicit Types (f : Future.FutureTrustedOperations Ex) (r : Ready.ReadyOperations Ex).


Record pool_inv f r : Prop := {
  pi_future : FutureInv.future_inv f;
  pi_ready : ReadyInv.ready_inv r;
  pi_disjoint : ∀ s h w, waiting_at f s !! h = Some w → ready_at r s !! h = None;
  pi_ok : ∀ s h w, waiting_at f s !! h = Some w → operation_ok (Future.operation w);
  pi_wanted : ∀ s h w t, waiting_at f s !! h = Some w → t ∈ Future.missing_tags w →
    tags_at r s !! t = None;
}.

Record base_inv p : Prop := {
  bi_pool : pool_inv (future p) (ready p);
  bi_pruned : length (recently_pruned p) = RECENTLY_PRUNED_TAGS;
  bi_index : recently_pruned_index p < RECENTLY_PRUNED_TAGS;
}.

Lemma base_inv_new reject : base_inv (new reject).
Proof.
  split; simpl; [|done|unfold RECENTLY_PRUNED_TAGS; lia].
  split; [apply FutureInv.future_inv_default|apply ReadyInv.ready_inv_default|..];
    intros s h w; unfold FutureInv.waiting_at; simpl; by rewrite ?lookup_empty.
Qed.

(** *** Framing *)

(** The entries of a shard after an operation that only removes. *)
Definition ready_shrinks r r' s : Prop :=
  ∀ h tx, ready_at r' s !! h = Some tx →
    ∃ tx0, ready_at r s !! h = Some tx0 ∧ Ready.tx_op tx = Ready.tx_op tx0.

Definition future_shrinks f f' s : Prop :=
  ∀ h w, waiting_at f' s !! h = Some w → ∃ w0, waiting_at f s !! h = Some w0 ∧
    Future.operation w = Future.operation w0 ∧ Future.missing_tags w ⊆ Future.missing_tags w0.

Lemma tags_mono r r' s t h :
  ReadyInv.ready_inv r → ReadyInv.ready_inv r' → ready_shrinks r r' s →
  tags_at r' s !! t = Some h → tags_at r s !! t = Some h.
Proof.
  intros Hr Hr' Hsub Htag.
  pose proof (ReadyInv.ready_inv_at r s Hr) as Hs. pose proof (ReadyInv.ready_inv_at r' s Hr') as Hs'.
  destruct (ReadyInv.inv_tag _ _ _ _ _ Hs' t h Htag) as (tx & Htx & Hin); [set_solver|].
  destruct (Hsub h tx Htx) as (tx0 & Htx0 & Hop). rewrite Hop in Hin.
  by eapply (ReadyInv.inv_provides _ _ _ _ _ Hs).
Qed.

Lemma pool_inv_ready f r r' s :
  pool_inv f r → ReadyInv.ready_inv r' → ReadyInv.only_shard s r r' → ready_shrinks r r' s →
  pool_inv f r'.
Proof.
  intros [Hf Hr Hd Hok Hw] Hr' Ho Hsub. split; [done|done| |done|].
  - intros s' h w Hwait. destruct (decide (s' = s)) as [->|Hne].
    + destruct (ready_at r' s !! h) as [tx|] eqn:Htx; [|done].
      destruct (Hsub h tx Htx) as (tx0 & Htx0 & _). rewrite (Hd s h w Hwait) in Htx0. done.
    + destruct (ReadyInv.only_shard_at s r r' s' Ho Hne) as (-> & _). by eapply Hd.
  - intros s' h w t Hwait Hin. destruct (decide (s' = s)) as [->|Hne].
    + destruct (tags_at r' s !! t) as [h'|] eqn:Htag; [|done].
      apply (tags_mono r r' s) in Htag; [|done..]. rewrite (Hw s h w t Hwait Hin) in Htag. done.
    + destruct (ReadyInv.only_shard_at s r r' s' Ho Hne) as (_ & -> & _). by eapply Hw.
Qed.

Lemma pool_inv_future f f' r s :
  pool_inv f r → FutureInv.future_inv f' → FutureInv.only_shard s f f' → future_shrinks f f' s →
  pool_inv f' r.
Proof.
  intros [Hf Hr Hd Hok Hw] Hf' Ho Hsub.
  assert (∀ s' h w, waiting_at f' s' !! h = Some w → ∃ w0, waiting_at f s' !! h = Some w0 ∧
    Future.operation w = Future.operation w0 ∧ Future.missing_tags w ⊆ Future.missing_tags w0) as Hall.
  { intros s' h w Hw'. destruct (decide (s' = s)) as [->|Hne]; [by apply Hsub|].
    rewrite (FutureInv.only_shard_waiting_at s f f' s' Ho Hne) in Hw'. eauto. }
  split; [done|done|..].
  - intros s' h w (w0 & ? & _)%Hall. by eapply Hd.
  - intros s' h w (w0 & ? & -> & _)%Hall. by eapply Hok.
  - intros s' h w t (w0 & ? & _ & Hsubm)%Hall Hin. eapply Hw; [done|]. by apply Hsubm.
Qed.

Lemma satisfies_shrinks X f f' s out :
  FutureInv.satisfies X (waiting_at f s) (waiting_at f' s) out → future_shrinks f f' s.
Proof.
  intros [Hp _ _] h w. rewrite Hp. destruct (waiting_at f s !! h) as [w0|]; [|done]. simpl.
  unfold FutureInv.still_waiting. case_decide; [done|]. intros [= <-]. exists w0.
  split_and!; [done..|]. simpl. set_solver.
Qed.

Lemma future_shrinks_refl f s : future_shrinks f f s.
Proof. intros h w Hw. exists w. done. Qed.

Lemma future_shrinks_trans f1 f2 f3 s :
  future_shrinks f1 f2 s → future_shrinks f2 f3 s → future_shrinks f1 f3 s.
Proof.
  intros H12 H23 h w Hw. destruct (H23 h w Hw) as (w2 & Hw2 & E2 & S2).
  destruct (H12 h w2 Hw2) as (w1 & Hw1 & E1 & S1). exists w1. split_and!; [done|congruence|by etrans].
Qed.

Lemma future_shrinks_dom f f' s :
  future_shrinks f f' s → dom (waiting_at f' s) ⊆ dom (waiting_at f s).
Proof.
  intros Hs h [w Hw]%elem_of_dom. destruct (Hs h w Hw) as (w0 & Hw0 & _). by apply elem_of_dom_2 in Hw0.
Qed.

(** *** The promotion loop *)

(** The operations on the stack of [import_to_ready]. *)
Record stack_ok f r s (stack : list (Future.WaitingTrustedOperations Ex)) : Prop := {
  so_nodup : NoDup (w_hash <$> stack);
  so_entry : ∀ w, w ∈ stack → Future.missing_tags w = ∅ ∧ operation_ok (Future.operation w) ∧
    waiting_at f s !! w_hash w = None ∧ ready_at r s !! w_hash w = None;
}.

(** Operations that became ready leave the Future queue and join the stack. *)
Lemma stack_ok_satisfied f f' r s X out stack :
  pool_inv f r → FutureInv.satisfies X (waiting_at f s) (waiting_at f' s) out →
  stack_ok f r s stack → stack_ok f' r s (reverse out ++ stack).
Proof.
  intros [Hf Hr Hd Hok Hw] [Hp Ho Hnd] [Hsnd Hse].
  pose proof (FutureInv.inv_hash _ _ (FutureInv.future_inv_at f s Hf)) as Hhash.
  assert (∀ w, w ∈ out → ∃ w0, waiting_at f s !! w_hash w = Some w0 ∧
    Future.missing_tags w0 ∖ X = ∅ ∧ w = FutureInv.satisfied X w0) as Hout.
  { intros w Hin. apply Ho in Hin as (h & w0 & Hh & He & ->). exists w0.
    pose proof (Hhash h w0 Hh) as Hw0. unfold w_hash in *. simpl. by rewrite Hw0. }
  split.
  - rewrite fmap_app, fmap_reverse. apply NoDup_app. split_and!; [by rewrite reverse_Permutation| |done].
    intros h Hin1 (w2 & -> & Hin2)%list_elem_of_fmap. rewrite elem_of_reverse in Hin1.
    apply list_elem_of_fmap in Hin1 as (w1 & Heq & Hin1). apply Hout in Hin1 as (w0 & Hw0 & _).
    destruct (Hse w2 Hin2) as (_ & _ & Hn & _). rewrite <-Heq in Hw0. congruence.
  - intros w [Hin|Hin]%elem_of_app.
    + rewrite elem_of_reverse in Hin. apply Hout in Hin as (w0 & Hw0 & He & ->).
      change (w_hash (FutureInv.satisfied X w0)) with (w_hash w0) in *. split_and!; [done|exact (Hok s _ w0 Hw0)| |by eapply Hd].
      rewrite Hp, Hw0. simpl. unfold FutureInv.still_waiting. by rewrite decide_True.
    + destruct (Hse w Hin) as (? & ? & Hn & ?). split_and!; try done. by rewrite Hp, Hn.
Qed.

(** The stack after its top was imported. *)
Lemma stack_ok_imported f r r' s w stack :
  stack_ok f r s (w :: stack) →
  (∀ h, h ≠ w_hash w → ready_at r s !! h = None → ready_at r' s !! h = None) →
  stack_ok f r' s stack.
Proof.
  intros [Hnd Hse] Hkeep. cbn [fmap list_fmap] in Hnd. apply NoDup_cons in Hnd as [Hnot Hnd]. split; [done|].
  intros w' Hin. destruct (Hse w' ltac:(by right)) as (? & ? & ? & ?). split_and!; try done.
  apply Hkeep; [|done]. intros Heq. apply Hnot. rewrite <-Heq. by apply list_elem_of_fmap_2.
Qed.

(** Importing the operation [op] into Ready keeps the pool exact when nothing
    waits for its tags. *)
Lemma pool_inv_import f r r' s op removed :
  pool_inv f r → ReadyInv.ready_inv r' → ReadyInv.only_shard s r r' →
  ReadyImport.import_effect r op s r' removed →
  waiting_at f s !! op_hash op = None →
  (∀ h w t, waiting_at f s !! h = Some w → t ∈ Future.missing_tags w → t ∉ provides op) →
  pool_inv f r'.
Proof.
  intros [Hf Hr Hd Hok Hw] Hr' Ho [Hnew Hold _ _ Htags] Hnot Hunw. split; [done|done| |done|].
  - intros s' h w Hwait. destruct (decide (s' = s)) as [->|Hne].
    + destruct (ready_at r' s !! h) as [tx|] eqn:Htx; [|done].
      assert (h ≠ op_hash op) as Hneq by (intros ->; congruence).
      destruct (Hold h tx Hneq Htx) as (tx0 & Htx0 & _). rewrite (Hd s h w Hwait) in Htx0. done.
    + destruct (ReadyInv.only_shard_at s r r' s' Ho Hne) as (-> & _). by eapply Hd.
  - intros s' h w t Hwait Hin. destruct (decide (s' = s)) as [->|Hne].
    + destruct (tags_at r' s !! t) as [h'|] eqn:Htag; [|done].
      destruct (Htags t h' Htag) as [Hprov|Hold']; [by destruct (Hunw h w t Hwait Hin)|].
      rewrite (Hw s h w t Hwait Hin) in Hold'. done.
    + destruct (ReadyInv.only_shard_at s r r' s' Ho Hne) as (_ & -> & _). by eapply Hw.
Qed.

(** All hashes of a shard. *)
Definition known f r s : gset TxHash := dom (waiting_at f s) ∪ dom (ready_at r s).

(** The number of operations that may still be imported. *)
Definition pending f s (stack : list (Future.WaitingTrustedOperations Ex)) : nat :=
  length stack + size (waiting_at f s).

Lemma satisfies_size X f f' s out :
  FutureInv.future_inv f → FutureInv.satisfies X (waiting_at f s) (waiting_at f' s) out →
  dom (waiting_at f s) = dom (waiting_at f' s) ∪ list_to_set (w_hash <$> out) ∧
  length out + size (waiting_at f' s) = size (waiting_at f s).
Proof.
  intros Hf [Hp Ho Hnd].
  pose proof (FutureInv.inv_hash _ _ (FutureInv.future_inv_at f s Hf)) as Hhash.
  assert (∀ h, h ∈ (w_hash <$> out) ↔
    ∃ w0, waiting_at f s !! h = Some w0 ∧ Future.missing_tags w0 ∖ X = ∅) as Hout.
  { intros h. rewrite list_elem_of_fmap. split.
    - intros (w & -> & Hin). apply Ho in Hin as (h' & w0 & Hh' & He & ->).
      change (w_hash (FutureInv.satisfied X w0)) with (w_hash w0). rewrite (Hhash h' w0 Hh'). eauto.
    - intros (w0 & Hw0 & He). exists (FutureInv.satisfied X w0). split; [symmetry; exact (Hhash h w0 Hw0)|].
      apply Ho. eauto. }
  assert (∀ h, h ∈ dom (waiting_at f' s) ↔
    ∃ w0, waiting_at f s !! h = Some w0 ∧ Future.missing_tags w0 ∖ X ≠ ∅) as Hrest.
  { intros h. rewrite elem_of_dom, Hp. destruct (waiting_at f s !! h) as [w0|]; simpl.
    - unfold FutureInv.still_waiting. case_decide; split; try naive_solver.
    - split; [by intros [? ?]|naive_solver]. }
  assert (dom (waiting_at f s) = dom (waiting_at f' s) ∪ list_to_set (w_hash <$> out)) as Hdom.
  { apply set_eq. intros h. rewrite elem_of_union, elem_of_list_to_set, Hout, Hrest, elem_of_dom. split.
    - intros [w0 Hw0]. destruct (decide (Future.missing_tags w0 ∖ X = ∅)); eauto.
    - intros [(w0 & Hw0 & _)|(w0 & Hw0 & _)]; by eexists. }
  split; [done|]. rewrite <-!size_dom, Hdom. rewrite size_union.
  - rewrite size_list_to_set by done. rewrite length_fmap. lia.
  - intros h Hin Hin'. apply Hrest in Hin as (w0 & Hw0 & Hne). apply elem_of_list_to_set, Hout in Hin'
      as (w1 & Hw1 & He). simplify_eq.
Qed.

Definition op_hashes (l : list (TrustedOperation Ex)) : gset TxHash := list_to_set (op_hash <$> l).
Definition w_hashes (l : list (Future.WaitingTrustedOperations Ex)) : gset TxHash :=
  list_to_set (w_hash <$> l).

(** State of the promotion that began with [f0] and [r0]: no operation gets
    lost, the new one is ready or was pushed out again. *)
Record promoting f0 r0 s w0 (st : promotion (Ex := Ex)) : Prop := {
  po_inv : pool_inv (pm_future st) (pm_ready st);
  po_stack : stack_ok (pm_future st) (pm_ready st) s (pm_stack st);
  po_future : FutureInv.only_shard s f0 (pm_future st);
  po_ready : ReadyInv.only_shard s r0 (pm_ready st);
  po_ids : (id_at (pm_ready st) s + Z.of_nat (pending (pm_future st) s (pm_stack st)) ≤
      id_at r0 s + Z.of_nat (pending f0 s [w0]))%Z ∧ (0 ≤ id_at (pm_ready st) s)%Z;
  po_account : known (pm_future st) (pm_ready st) s ∪ w_hashes (pm_stack st) ∪
    list_to_set (pm_failed st) ∪ op_hashes (pm_removed st) = known f0 r0 s ∪ {[w_hash w0]};
  po_first : pm_first st = true → pm_stack st = [w0] ∧ pm_promoted st = [] ∧ pm_failed st = [] ∧
    pm_removed st = [] ∧ pm_future st = f0 ∧ pm_ready st = r0;
  po_new : pm_first st = false →
    w_hash w0 ∈ dom (ready_at (pm_ready st) s) ∪ op_hashes (pm_removed st);
  po_promoted : ∀ h, h ∈ pm_promoted st ++ pm_failed st → h ∈ dom (waiting_at f0 s);
  po_stack_from : ∀ w, w ∈ pm_stack st → pm_first st = false → w_hash w ∈ dom (waiting_at f0 s);
  po_sub : future_shrinks f0 (pm_future st) s;
  po_out : ∀ h, h ∈ pm_failed st ∨ h ∈ op_hashes (pm_removed st) →
    waiting_at (pm_future st) s !! h = None ∧ ready_at (pm_ready st) s !! h = None ∧
    h ∉ w_hash <$> pm_stack st;
}.

(** The effect of a successful import on the hashes of the Ready queue. *)
Lemma import_effect_dom r op s r' removed :
  ReadyInv.ready_inv r → ready_at r s !! op_hash op = None →
  ReadyImport.import_effect r op s r' removed →
  dom (ready_at r' s) ∪ op_hashes removed = dom (ready_at r s) ∪ {[op_hash op]}.
Proof.
  intros Hr Hn [(tx & Htx & _) Hold Hrem _ _].
  pose proof (ReadyInv.inv_hash _ _ _ _ _ (ReadyInv.ready_inv_at r s Hr)) as Hhash.
  assert (∀ h, h ∈ op_hashes removed ↔ h ∈ dom (ready_at r s) ∧ h ∉ dom (ready_at r' s)) as Hremh.
  { intros h. unfold op_hashes. rewrite elem_of_list_to_set, list_elem_of_fmap, elem_of_dom, not_elem_of_dom.
    split.
    - intros (o & -> & Ho). apply Hrem in Ho as (h' & tx' & Htx' & Hn' & <-).
      rewrite (Hhash h' tx' Htx'). eauto.
    - intros [[tx' Htx'] Hn']. exists (Ready.tx_op tx'). split; [symmetry; by apply Hhash|].
      apply Hrem. eauto. }
  apply set_eq. intros h. rewrite !elem_of_union, Hremh, elem_of_singleton, not_elem_of_dom, !elem_of_dom.
  split.
  - intros [[tx' Htx']|[? _]]; [|by left]. destruct (decide (h = op_hash op)) as [->|Hne]; [by right|].
    destruct (Hold h tx' Hne Htx') as (tx0 & ? & _). left. by eexists.
  - intros [[tx0 Htx0]| ->]; [|left; by eexists].
    destruct (ready_at r' s !! h) as [tx'|] eqn:E; [left; by eexists|right]. by eauto.
Qed.

Lemma promoting_init f r s w :
  pool_inv f r → stack_ok f r s [w] → (0 ≤ id_at r s)%Z →
  promoting f r s w (MkPromotion f r [] [] [] true [w]).
Proof.
  intros Hp Hs Hpos. split; simpl; try done.
  - unfold w_hashes, op_hashes. simpl. set_solver.
  - set_solver.
  - apply future_shrinks_refl.
  - unfold op_hashes. simpl. set_solver.
Qed.

(** The part of a promotion step that moves operations out of Future: the
    tags of [w] are satisfied, [out] became ready. *)
Record unlocked f r s w stack f' (out : list (Future.WaitingTrustedOperations Ex)) : Prop := {
  ul_inv : pool_inv f' r;
  ul_shard : FutureInv.only_shard s f f';
  ul_shrinks : future_shrinks f f' s;
  ul_stack : stack_ok f' r s (w :: reverse out ++ stack);
  ul_dom : dom (waiting_at f s) = dom (waiting_at f' s) ∪ w_hashes out;
  ul_pending : pending f' s (reverse out ++ stack) = pending f s stack;
  ul_unwanted : ∀ h w' t, waiting_at f' s !! h = Some w' → t ∈ Future.missing_tags w' →
    t ∉ provides (Future.operation w);
}.

Lemma promotion_unlock f r s w stack :
  pool_inv f r → stack_ok f r s (w :: stack) →
  ∃ f' out, Future.satisfy_tags f (provides (Future.operation w)) s = Ret (f', out) ∧
    unlocked f r s w stack f' out.
Proof.
  intros Hp Hs. pose proof (pi_future _ _ Hp) as Hf.
  destruct (FutureInv.satisfy_tags_spec f (provides (Future.operation w)) s Hf)
    as (f' & out & Heq & Hf' & Ho & Hsat).
  pose proof (satisfies_size _ _ _ _ _ Hf Hsat) as [Hdom Hsize].
  pose proof (stack_ok_satisfied _ _ _ _ _ _ _ Hp Hsat Hs) as [Hnd Hse].
  exists f', out. split; [done|]. split; try done.
  - eapply pool_inv_future; [done..|by eapply satisfies_shrinks].
  - by eapply satisfies_shrinks.
  - split.
    + by assert (w :: reverse out ++ stack ≡ₚ reverse out ++ w :: stack) as -> by apply Permutation_middle.
    + intros w' Hin. apply Hse. rewrite elem_of_app, elem_of_cons. rewrite elem_of_cons, elem_of_app in Hin. tauto.
  - unfold pending. rewrite length_app, length_reverse. lia.
  - intros h w' t Hw' Hin Hprov. rewrite (FutureInv.sat_pool _ _ _ _ Hsat) in Hw'.
    destruct (waiting_at f s !! h) as [w0|]; [|done]. simpl in Hw'. unfold FutureInv.still_waiting in Hw'.
    case_decide; [done|]. injection Hw' as <-. simpl in Hin. set_solver.
Qed.

Lemma w_hashes_cons w stack : w_hashes (w :: stack) = {[w_hash w]} ∪ w_hashes stack.
Proof. done. Qed.

Lemma w_hashes_app l1 l2 : w_hashes (l1 ++ l2) = w_hashes l1 ∪ w_hashes l2.
Proof. unfold w_hashes. by rewrite fmap_app, list_to_set_app_L. Qed.

Lemma w_hashes_reverse l : w_hashes (reverse l) = w_hashes l.
Proof. unfold w_hashes. rewrite fmap_reverse. apply set_eq. intros h. by rewrite !elem_of_list_to_set, elem_of_reverse. Qed.

Lemma op_hashes_app l1 l2 : op_hashes (l1 ++ l2) = op_hashes l1 ∪ op_hashes l2.
Proof. unfold op_hashes. by rewrite fmap_app, list_to_set_app_L. Qed.

(** Moving the top of the stack into Ready and the unlocked operations onto
    the stack keeps the account. *)
Lemma account_moves (W W' U R R' S F G N H : gset TxHash) (h : TxHash) :
  W = W' ∪ U → R' ∪ N = R ∪ {[h]} →
  W ∪ R ∪ ({[h]} ∪ S) ∪ F ∪ G = H → W' ∪ R' ∪ (U ∪ S) ∪ F ∪ (G ∪ N) = H.
Proof.
  intros -> HR <-. transitivity (W' ∪ U ∪ (R' ∪ N) ∪ S ∪ F ∪ G); [set_solver|].
  rewrite HR. set_solver.
Qed.

Lemma account_fails (W' U R S F G : gset TxHash) (h : TxHash) :
  W' ∪ R ∪ (U ∪ S) ∪ (F ∪ {[h]}) ∪ G = W' ∪ U ∪ R ∪ ({[h]} ∪ S) ∪ F ∪ G.
Proof. set_solver. Qed.

(** What an import whose priority is too low leaves behind. *)
Record rejected f0 r0 s f' r' : Prop := {
  rj_inv : pool_inv f' r';
  rj_future : FutureInv.only_shard s f0 f';
  rj_ready : ReadyInv.only_shard s r0 r';
  rj_same : ready_at r' s = ready_at r0 s;
  rj_waiting : future_shrinks f0 f' s;
  rj_ids : (0 ≤ id_at r' s ∧ id_at r' s + Z.of_nat (size (waiting_at f' s)) ≤
    id_at r0 s + Z.of_nat (S (size (waiting_at f0 s))))%Z;
}.

(** The Ready queue of the shard did not change, the counter apart. *)
Lemma pool_inv_same f r r' s :
  pool_inv f r → ReadyInv.ready_inv r' → ReadyInv.only_shard s r r' →
  ready_at r' s = ready_at r s → pool_inv f r'.
Proof.
  intros Hp Hr' Ho Heq. eapply pool_inv_ready; [done..|].
  intros h tx Htx. exists tx. by rewrite <-Heq.
Qed.

Section step.
Variables (f0 f f' : Future.FutureTrustedOperations Ex) (r0 r r' : Ready.ReadyOperations Ex).
Variables (s : ShardIdentifier) (w0 w : Future.WaitingTrustedOperations Ex).
Variables (promoted failed : list TxHash) (removed : list (TrustedOperation Ex)) (first : bool).
Variables (stack out : list (Future.WaitingTrustedOperations Ex)).
Hypothesis Hpo : promoting f0 r0 s w0 (MkPromotion f r promoted failed removed first (w :: stack)).
Hypothesis Hul : unlocked f r s w stack f' out.

Lemma step_waiting : future_shrinks f0 f' s.
Proof. eapply future_shrinks_trans; [exact (po_sub _ _ _ _ _ Hpo)|by apply Hul]. Qed.

Lemma step_stack w' : w' ∈ reverse out ++ stack → w_hash w' ∈ dom (waiting_at f0 s).
Proof.
  intros [Hin|Hin]%elem_of_app.
  - apply (future_shrinks_dom _ _ _ (po_sub _ _ _ _ _ Hpo)). simpl.
    rewrite (ul_dom _ _ _ _ _ _ _ Hul). apply elem_of_union_r.
    unfold w_hashes. rewrite elem_of_list_to_set. apply list_elem_of_fmap_2.
    by rewrite elem_of_reverse in Hin.
  - pose proof (po_first _ _ _ _ _ Hpo) as Hfirst. pose proof (po_stack_from _ _ _ _ _ Hpo w') as Hfrom.
    simpl in *. destruct first; [|apply Hfrom; [by right|done]].
    destruct (Hfirst eq_refl) as ([= _ ->] & _). by apply elem_of_nil in Hin.
Qed.

(** What is neither waiting nor on the stack stays so. *)
Lemma step_gone h :
  waiting_at f s !! h = None → h ∉ w_hash <$> w :: stack →
  waiting_at f' s !! h = None ∧ h ≠ w_hash w ∧ h ∉ w_hash <$> reverse out ++ stack.
Proof.
  intros Hn Hns. rewrite fmap_cons, not_elem_of_cons in Hns. destruct Hns as [Hne Hns].
  assert (h ∉ dom (waiting_at f' s) ∪ w_hashes out) as Hu
    by (rewrite <-(ul_dom _ _ _ _ _ _ _ Hul); by apply not_elem_of_dom).
  apply not_elem_of_union in Hu as [Hu1 Hu2]. split_and!; [by apply not_elem_of_dom|done|].
  rewrite fmap_app, fmap_reverse, not_elem_of_app, elem_of_reverse. split; [|done].
  unfold w_hashes in Hu2. by rewrite elem_of_list_to_set in Hu2.
Qed.

Lemma step_promoted h :
  h ∈ promoted ++ failed ∨ (h = w_hash w ∧ first = false) → h ∈ dom (waiting_at f0 s).
Proof.
  intros [Hin|[-> Hf]]; [by apply (po_promoted _ _ _ _ _ Hpo)|].
  apply (po_stack_from _ _ _ _ _ Hpo); [by left|done].
Qed.

Hypothesis Hr' : ReadyInv.ready_inv r'.
Hypothesis Hor' : ReadyInv.only_shard s r r'.
Hypothesis Hid' : id_at r' s = (id_at r s + 1)%Z.

Lemma step_ids :
  (id_at r' s + Z.of_nat (pending f' s (reverse out ++ stack)) ≤
     id_at r0 s + Z.of_nat (pending f0 s [w0]))%Z ∧ (0 ≤ id_at r' s)%Z.
Proof.
  destruct (po_ids _ _ _ _ _ Hpo) as [Hid Hpos]. simpl in *.
  rewrite Hid', (ul_pending _ _ _ _ _ _ _ Hul). unfold pending in *. simpl in *. lia.
Qed.

Lemma step_shards : FutureInv.only_shard s f0 f' ∧ ReadyInv.only_shard s r0 r'.
Proof.
  split.
  - eapply FutureInv.future_only_shard_trans; [exact (po_future _ _ _ _ _ Hpo)|by apply Hul].
  - eapply ReadyInv.ready_only_shard_trans; [exact (po_ready _ _ _ _ _ Hpo)|done].
Qed.

Lemma step_out_replaced replaced h :
  ReadyImport.import_effect r (Future.operation w) s r' replaced →
  h ∈ failed ∨ h ∈ op_hashes (removed ++ replaced) →
  waiting_at f' s !! h = None ∧ ready_at r' s !! h = None ∧ h ∉ w_hash <$> reverse out ++ stack.
Proof.
  intros Hres Hout'. rewrite op_hashes_app, elem_of_union in Hout'.
  pose proof (po_inv _ _ _ _ _ Hpo) as Hinv. simpl in Hinv.
  assert ((h ∈ failed ∨ h ∈ op_hashes removed) ∨ h ∈ op_hashes replaced) as [Hin|Hin] by tauto.
  - destruct (po_out _ _ _ _ _ Hpo h Hin) as (Hn1 & Hn2 & Hn3).
    destruct (step_gone h Hn1 Hn3) as (? & Hne & ?).
    split_and!; [done| |done]. destruct (ready_at r' s !! h) as [tx|] eqn:Htx; [|done].
    destruct (ReadyImport.ie_old _ _ _ _ _ Hres h tx Hne Htx) as (tx0 & Htx0 & _).
    simpl in Hn2. congruence.
  - unfold op_hashes in Hin. rewrite elem_of_list_to_set in Hin.
    apply list_elem_of_fmap in Hin as (o & -> & Hin).
    apply (ReadyImport.ie_removed _ _ _ _ _ Hres) in Hin as (h' & tx & Htx & Hn & <-).
    rewrite (ReadyInv.inv_hash _ _ _ _ _ (ReadyInv.ready_inv_at r s (pi_ready _ _ Hinv)) h' tx Htx).
    split_and!; [|done|].
    + destruct (waiting_at f' s !! h') as [w'|] eqn:Hw'; [|done].
      pose proof (pi_disjoint _ _ (ul_inv _ _ _ _ _ _ _ Hul) s h' w' Hw'). congruence.
    + intros (w' & -> & Hin')%list_elem_of_fmap.
      destruct (so_entry _ _ _ _ (ul_stack _ _ _ _ _ _ _ Hul) w' ltac:(by right)) as (_ & _ & _ & ?).
      congruence.
Qed.

(** The import of [w] succeeded. *)
Lemma promoting_imported replaced :
  ReadyImport.import_effect r (Future.operation w) s r' replaced →
  promoting f0 r0 s w0 (MkPromotion f' r' (if first then promoted else promoted ++ [w_hash w]) failed
    (removed ++ replaced) false (reverse out ++ stack)).
Proof.
  intros Hres. pose proof Hul as [Hinv' _ _ Hst' Hdom _ Hunw].
  destruct (so_entry _ _ _ _ Hst' w ltac:(left)) as (_ & _ & Hwn & Hrn).
  pose proof (import_effect_dom _ _ _ _ _ (pi_ready _ _ Hinv') Hrn Hres) as Hrdom.
  destruct step_shards as [Hof Hor]. split; simpl; try done.
  - by eapply pool_inv_import.
  - eapply stack_ok_imported; [done|]. intros h Hne Hn.
    destruct (ready_at r' s !! h) as [tx|] eqn:Htx; [|done].
    destruct (ReadyImport.ie_old _ _ _ _ _ Hres h tx Hne Htx) as (tx0 & ? & _). congruence.
  - apply step_ids.
  - pose proof (po_account _ _ _ _ _ Hpo) as Hacc. simpl in Hacc. unfold known in *.
    rewrite w_hashes_app, w_hashes_reverse, op_hashes_app.
    eapply (account_moves _ _ _ _ _ _ _ _ _ _ (w_hash w)); [done|done|]. by rewrite w_hashes_cons in Hacc.
  - intros _. pose proof (po_first _ _ _ _ _ Hpo) as Hfirst. pose proof (po_new _ _ _ _ _ Hpo) as Hnew.
    simpl in *. rewrite op_hashes_app, !elem_of_union. destruct first.
    + destruct (Hfirst eq_refl) as ([= -> _] & _). left. apply elem_of_dom.
      destruct (ReadyImport.ie_new _ _ _ _ _ Hres) as (tx & Htx & _). by eexists.
    + assert (w_hash w0 ∈ dom (ready_at r s) → w_hash w0 ∈ dom (ready_at r' s) ∪ op_hashes replaced) as Hx
        by (rewrite Hrdom; apply elem_of_union_l).
      rewrite elem_of_union in Hx. specialize (Hnew eq_refl). apply elem_of_union in Hnew. tauto.
  - intros h Hin. apply step_promoted. rewrite elem_of_app in *. destruct first; [by left|].
    rewrite elem_of_app, list_elem_of_singleton in Hin. tauto.
  - intros w' Hin _. by apply step_stack.
  - apply step_waiting.
  - intros h. by apply step_out_replaced.
Qed.

(** The import of a promoted operation [w] failed. *)
Lemma promoting_failed :
  ready_at r' s = ready_at r s → first = false →
  promoting f0 r0 s w0 (MkPromotion f' r' promoted (failed ++ [w_hash w]) removed false
    (reverse out ++ stack)).
Proof.
  intros Hsame Hfirst. pose proof Hul as [Hinv' _ _ Hst' Hdom _ _].
  destruct (so_entry _ _ _ _ Hst' w ltac:(left)) as (_ & _ & Hwn & Hrn).
  destruct step_shards as [Hof Hor]. split; simpl; try done.
  - by eapply pool_inv_same.
  - eapply stack_ok_imported; [done|]. intros h _. by rewrite Hsame.
  - apply step_ids.
  - pose proof (po_account _ _ _ _ _ Hpo) as Hacc. simpl in Hacc. unfold known in *.
    rewrite w_hashes_app, w_hashes_reverse, list_to_set_app_L, Hsame. simpl. rewrite union_empty_r_L.
    rewrite w_hashes_cons, Hdom in Hacc. rewrite <-Hacc. apply account_fails.
  - intros _. rewrite Hsame. by apply (po_new _ _ _ _ _ Hpo).
  - intros h Hin. apply step_promoted. rewrite !elem_of_app, list_elem_of_singleton in Hin.
    rewrite elem_of_app. tauto.
  - intros w' Hin _. by apply step_stack.
  - apply step_waiting.
  - intros h Hin. rewrite elem_of_app, list_elem_of_singleton in Hin. rewrite Hsame.
    assert ((h ∈ failed ∨ h ∈ op_hashes removed) ∨ h = w_hash w) as [Hin'| ->] by tauto.
    + destruct (po_out _ _ _ _ _ Hpo h Hin') as (Hn1 & Hn2 & Hn3).
      destruct (step_gone h Hn1 Hn3) as (? & _ & ?). done.
    + split_and!; [done..|]. pose proof (so_nodup _ _ _ _ Hst') as Hnd.
      rewrite fmap_cons in Hnd. by apply NoDup_cons in Hnd as [? _].
Qed.
End step.

Lemma promotion_step_spec f0 r0 s w0 st :
  (id_at r0 s + Z.of_nat (pending f0 s [w0]) ≤ u64_max)%Z →
  promoting f0 r0 s w0 st →
  (∃ st', promotion_step s st = Ret (inl st') ∧ promoting f0 r0 s w0 st' ∧
     pending (pm_future st') s (pm_stack st') < pending (pm_future st) s (pm_stack st)) ∨
  (∃ out, promotion_step s st = Ret (inr out) ∧
     match out.2 with
     | None => promoting f0 r0 s w0 out.1 ∧ pm_stack out.1 = [] ∧ pm_first out.1 = false
     | Some e => e = TooLowPriority (priority (Future.operation w0)) ∧
         rejected f0 r0 s (pm_future out.1) (pm_ready out.1)
     end).
Proof.
  intros Hmax Hpo. destruct st as [f r promoted failed removed first stack].
  pose proof Hpo as [Hinv Hst _ _ [Hid Hpos] _ Hfirst _ _ _ _ _]; simpl in *.
  unfold promotion_step. cbn [pm_stack pm_future pm_ready pm_first pm_promoted pm_failed pm_removed].
  destruct stack as [|w stack].
  { right. eexists (_, None). split; [done|]. simpl. split_and!; [done..|].
    destruct first; [|done]. by destruct Hfirst. }
  destruct (promotion_unlock f r s w stack Hinv Hst) as (f' & out & -> & Hul). cbn [mbind outcome_bind].
  destruct (so_entry _ _ _ _ Hst w ltac:(left)) as (Hmiss & Hok & _ & Hrn).
  destruct (ReadyImport.import_digest r w s (pi_ready _ _ Hinv) Hok Hmiss Hrn)
    as (r' & res & -> & Hr' & Hor' & Hid' & Hres).
  { unfold pending in *. simpl in *. unfold is_u64. lia. }
  cbn [mbind outcome_bind].
  assert (pending f' s (reverse out ++ stack) < pending f s (w :: stack)) as Hlt.
  { rewrite (ul_pending _ _ _ _ _ _ _ Hul). unfold pending. simpl. lia. }
  destruct res as [replaced|e].
  - left. eexists. split; [done|]. split; [by eapply promoting_imported|done].
  - destruct Hres as (-> & Hsame & _). destruct first.
    + right. destruct (step_shards _ _ _ _ _ _ _ _ _ _ _ _ _ _ _ Hpo Hul Hor') as [Hof Hor].
      pose proof (step_waiting _ _ _ _ _ _ _ _ _ _ _ _ _ _ Hpo Hul) as Hsub.
      pose proof (step_ids _ _ _ _ _ _ _ _ _ _ _ _ _ _ _ Hpo Hul Hid') as [Hids Hids0].
      destruct (Hfirst eq_refl) as ([= -> ->] & _ & _ & _ & -> & ->).
      eexists (_, Some _). split; [done|]. simpl. split; [done|]. split; try done.
      { eapply pool_inv_same; [by apply Hul|done..]. }
      unfold pending in Hids. rewrite length_app in Hids. simpl in Hids. lia.
    + left. eexists. split; [done|]. split; [by eapply promoting_failed|done].
Qed.
End base_inv.
End BaseInv.
