(* ===== verification/BaseOps.v ===== *)
(** The operations of the pool keep its invariant, never panic, terminate, and
    lose no operation without reporting it. *)

From stdpp Require Import base gmap fin_maps sets numbers list.
From S2P Require Import Prelude Collections PoolTypes TrackedMap FuturePool ReadyPool ReadyInv ReadyImport ReadyPrune BasePool BaseInv.

Module BaseOps.
Import Base BaseInv.

Section base_ops.
Context `{Ord : IterOrder} {Ex : Type}.
Implicit Types (p : BasePool Ex) (s : ShardIdentifier) (w : Future.WaitingTrustedOperations Ex).

(** The hashes of a shard that the pool knows, in either queue. *)
Definition pool_hashes p s : gset TxHash := known (future p) (ready p) s.

(** Nothing but one shard changed, and no setting. *)
Record same_elsewhere s p p' : Prop := {
  se_future : FutureInv.only_shard s (future p) (future p');
  se_ready : ReadyInv.only_shard s (ready p) (ready p');
  se_reject : reject_future_operations p' = reject_future_operations p;
  se_pruned : recently_pruned p' = recently_pruned p;
  se_index : recently_pruned_index p' = recently_pruned_index p;
}.

Lemma same_elsewhere_refl s p : same_elsewhere s p p.
Proof. done. Qed.

Lemma same_elsewhere_trans s p1 p2 p3 :
  same_elsewhere s p1 p2 → same_elsewhere s p2 p3 → same_elsewhere s p1 p3.
Proof.
  intros [? ? E1 E2 E3] [? ? E4 E5 E6]. split; [by eapply FutureInv.future_only_shard_trans|
    by eapply ReadyInv.ready_only_shard_trans|congruence..].
Qed.

Lemma base_inv_set p f r :
  base_inv p → pool_inv f r → base_inv (set_ready (set_future p f) r).
Proof. intros [_ Hl Hi] Hp. by split. Qed.

(** Room for the insertion ids of [n] imports. *)
Definition ids_left p s (n : nat) : Prop :=
  (0 ≤ id_at (ready p) s ∧ id_at (ready p) s + Z.of_nat n ≤ u64_max)%Z.

Lemma promotion_fuel_pending p s w : pending (future p) s [w] < promotion_fuel p s.
Proof.
  unfold pending, promotion_fuel, waiting_at. simpl.
  destruct (Future.waiting (future p) !! s); simpl; [lia|]. rewrite map_size_empty. lia.
Qed.

(** The outcome of an import into the Ready queue. *)
Definition import_to_ready_post p w s p' (res : result (Imported Ex) PoolError) : Prop :=
  match res with
  | Ok (ImportedReady hash promoted failed removed) =>
      hash = w_hash w ∧ hash ∈ dom (ready_at (ready p') s) ∧
      pool_hashes p' s ∪ list_to_set failed ∪ op_hashes removed = pool_hashes p s ∪ {[hash]} ∧
      (∀ h, h ∈ failed ∨ h ∈ op_hashes removed → h ∉ pool_hashes p' s) ∧
      (∀ h, h ∈ promoted ++ failed → h ∈ dom (waiting_at (future p) s))
  | Ok (ImportedFuture _) => False
  | Err e =>
      (e = TooLowPriority (priority (Future.operation w)) ∨ e = CycleDetected) ∧
      w_hash w ∉ dom (ready_at (ready p') s) ∧ pool_hashes p' s ⊆ pool_hashes p s
  end.

Lemma removed_contains (l : list (TrustedOperation Ex)) (h : TxHash) :
  existsb (λ op, bool_decide (op_hash op = h)) l = bool_decide (h ∈ op_hashes l).
Proof.
  unfold op_hashes. apply Bool.eq_iff_eq_true. rewrite existsb_exists, bool_decide_eq_true.
  rewrite elem_of_list_to_set, list_elem_of_fmap. split.
  - intros (o & Hin & Heq%bool_decide_eq_true). exists o. by rewrite list_elem_of_In.
  - intros (o & -> & Hin). exists o. rewrite <-list_elem_of_In. by rewrite bool_decide_eq_true_2.
Qed.

Lemma removes_shrinks r r' s hashes removed :
  ReadyRemove.removes None (ready_at r s) hashes (ready_at r' s) removed → ready_shrinks (Ex := Ex) r r' s.
Proof.
  intros [_ Hk _ _] h tx Htx. destruct (Hk h tx Htx) as (tx0 & ? & Hc & _). injection Hc as Href _.
  exists tx0. unfold Ready.tx_op. by rewrite Href.
Qed.

Lemma ready_shrinks_dom (r r' : Ready.ReadyOperations Ex) s :
  ready_shrinks r r' s → dom (ready_at r' s) ⊆ dom (ready_at r s).
Proof.
  intros Hs h [tx Htx]%elem_of_dom. destruct (Hs h tx Htx) as (tx0 & Htx0 & _).
  by apply elem_of_dom_2 in Htx0.
Qed.

(** Each promotion uses up at most one id per operation that leaves Future. *)
Definition ids_used p s p' (n : nat) : Prop :=
  (0 ≤ id_at (ready p') s ∧
   id_at (ready p') s + Z.of_nat (size (waiting_at (future p') s)) ≤
     id_at (ready p) s + Z.of_nat (n + size (waiting_at (future p) s)))%Z.

Lemma promotion_loop_spec p w s :
  base_inv p → stack_ok (future p) (ready p) s [w] →
  ids_left p s (1 + size (waiting_at (future p) s)) →
  ∃ out, loop (promotion_fuel p s) (promotion_step s)
      (MkPromotion (future p) (ready p) [] [] [] true [w]) = Ret out ∧
    match out.2 with
    | None => promoting (future p) (ready p) s w out.1 ∧ pm_stack out.1 = [] ∧ pm_first out.1 = false
    | Some e => e = TooLowPriority (priority (Future.operation w)) ∧
        rejected (future p) (ready p) s (pm_future out.1) (pm_ready out.1)
    end.
Proof.
  intros Hp Hst [Hpos Hid].
  apply (loop_total (promotion_step s) (promoting (future p) (ready p) s w)
    (λ st, pending (pm_future st) s (pm_stack st))).
  - intros st. apply promotion_step_spec. unfold pending. simpl in *. lia.
  - apply promoting_init; [by apply Hp|done..].
  - apply promotion_fuel_pending.
Qed.

(** A promotion in which the new operation was pushed out again. *)
Lemma promotion_cycle p w s (st : promotion (Ex := Ex)) :
  base_inv p → promoting (future p) (ready p) s w st → pm_stack st = [] →
  w_hash w ∈ op_hashes (pm_removed st) →
  ∃ r' removed, Ready.remove_subtree (pm_ready st) (pm_promoted st) s = Ret (r', removed) ∧
    let p' := set_ready (set_ready (set_future p (pm_future st)) (pm_ready st)) r' in
    base_inv p' ∧ same_elsewhere s p p' ∧ future_shrinks (future p) (future p') s ∧
    ids_used p s p' 1 ∧ import_to_ready_post p w s p' (Err CycleDetected).
Proof.
  intros Hp [Hinv _ Hof Hor [Hid Hpos] Hacc _ Hnew Hprom _ Hsub Hout] Hnil Hcyc.
  rewrite Hnil in Hacc, Hout, Hid. unfold w_hashes in Hacc. simpl in Hacc. rewrite union_empty_r_L in Hacc.
  destruct (ReadyRemove.ready_remove_spec (pm_ready st) (pm_promoted st) s (pi_ready _ _ Hinv))
    as (r' & removed & -> & Hr' & Hor' & Hids & Hrem).
  apply removes_shrinks in Hrem. pose proof (ready_shrinks_dom _ _ _ Hrem) as Hdom.
  destruct (Hout (w_hash w) ltac:(by right)) as (Hn1 & Hn2 & _).
  apply not_elem_of_dom in Hn1, Hn2.
  exists r', removed. split; [done|]. cbn zeta. split_and!.
  - apply (base_inv_set _ _ _ Hp). by eapply pool_inv_ready.
  - split; [done|by eapply ReadyInv.ready_only_shard_trans|done..].
  - done.
  - unfold ids_used, pending in *. simpl in *. unfold ReadyInv.id_at in *. rewrite Hids. lia.
  - simpl. split_and!; [by right|intros Hin; by apply Hn2, Hdom|].
    unfold pool_hashes, known in *. simpl. intros h Hin.
    assert (h ∈ dom (waiting_at (pm_future st) s) ∪ dom (ready_at (pm_ready st) s)) as Hin2.
    { rewrite elem_of_union in *. destruct Hin; [by left|right; by apply Hdom]. }
    assert (h ≠ w_hash w) by (intros ->; apply elem_of_union in Hin2; tauto).
    assert (h ∈ dom (waiting_at (future p) s) ∪ dom (ready_at (ready p) s) ∪ {[w_hash w]}) as Hin3
      by (rewrite <-Hacc, !elem_of_union in *; tauto).
    rewrite !elem_of_union, elem_of_singleton in *. tauto.
Qed.

Lemma import_to_ready_spec p w s :
  base_inv p → stack_ok (future p) (ready p) s [w] →
  ids_left p s (1 + size (waiting_at (future p) s)) →
  ∃ p' res, import_to_ready p w s = Ret (p', res) ∧ base_inv p' ∧ same_elsewhere s p p' ∧
    future_shrinks (future p) (future p') s ∧ ids_used p s p' 1 ∧ import_to_ready_post p w s p' res.
Proof.
  intros Hp Hst Hid. unfold import_to_ready.
  destruct (promotion_loop_spec p w s Hp Hst Hid) as ([st err] & -> & Hout).
  destruct (so_entry _ _ _ _ Hst w ltac:(left)) as (_ & _ & Hwn & Hrn).
  cbn [mbind outcome_bind]. destruct err as [e|]; simpl in Hout.
  - destruct Hout as (-> & [Hinv Hof Hor Hsame Hsub Hids]). eexists _, (Err _). split; [done|].
    split_and!; [by apply base_inv_set|by split|done|done|]. simpl. split_and!; [by left|..].
    + rewrite Hsame. by apply not_elem_of_dom.
    + apply future_shrinks_dom in Hsub. unfold pool_hashes, known. simpl. rewrite Hsame. set_solver.
  - destruct Hout as (Hpo & Hnil & Hfirst). rewrite removed_contains. case_bool_decide as Hcyc.
    + destruct (promotion_cycle p w s st Hp Hpo Hnil Hcyc) as (r' & removed & -> & Hpost).
      cbn [mbind outcome_bind]. eexists _, (Err _). split; [done|]. apply Hpost.
    + destruct Hpo as [Hinv _ Hof Hor [Hids Hpos] Hacc _ Hnew Hprom _ Hsub Hout].
      rewrite Hnil in Hacc, Hout, Hids. unfold w_hashes in Hacc. simpl in Hacc. rewrite union_empty_r_L in Hacc.
      eexists _, (Ok _). split; [done|].
      split_and!; [by apply base_inv_set|by split|done|unfold ids_used, pending in *; simpl in *; lia|].
      simpl. split_and!; try done.
      * specialize (Hnew Hfirst). apply elem_of_union in Hnew as [?|?]; done.
      * intros h Hh. destruct (Hout h Hh) as (Hn1 & Hn2 & _). unfold pool_hashes, known. simpl.
        apply not_elem_of_dom in Hn1, Hn2. by apply not_elem_of_union.
Qed.

(** *** [import] *)

Lemma is_imported_spec p h s : is_imported p h s = bool_decide (h ∈ pool_hashes p s).
Proof.
  unfold is_imported, pool_hashes, known. rewrite FutureInv.contains_spec.
  assert (Ready.contains (ready p) h s = bool_decide (h ∈ dom (ready_at (ready p) s))) as ->.
  { unfold Ready.contains, ReadyInv.ready_at. destruct (Ready.ready (ready p) !! s) as [rm|].
    - unfold Tracked.contains_key. apply bool_decide_ext. by rewrite elem_of_dom.
    - rewrite dom_empty_L, bool_decide_eq_false_2; [done|]. apply not_elem_of_empty. }
  rewrite <-bool_decide_or. apply bool_decide_ext. by rewrite elem_of_union, !elem_of_dom.
Qed.

(** The requirements of [op] that the pool does not know to be met. *)
Definition open_requirements p (op : TrustedOperation Ex) s : gset Tag :=
  list_to_set (filter (λ t, tags_at (ready p) s !! t = None ∧ Forall (λ X, t ∉ X) (recently_pruned p))
    (requires op)).

Lemma is_provided_spec p s t :
  Future.is_provided (Ready.provided_tags_of (ready p) s) (recently_pruned p) t = false ↔
  tags_at (ready p) s !! t = None ∧ Forall (λ X, t ∉ X) (recently_pruned p).
Proof.
  unfold Future.is_provided, Ready.provided_tags_of, ReadyInv.tags_at. rewrite orb_false_iff.
  rewrite (Logic.and_comm (existsb _ _ = false)). f_equiv.
  - destruct (Ready.provided_tags (ready p) !! s) as [tags|]; simpl; [|by rewrite lookup_empty].
    rewrite bool_decide_eq_false. symmetry. apply eq_None_not_Some.
  - rewrite Forall_forall. split.
    + intros Hex X Hin HX. assert (existsb (λ x, bool_decide (t ∈ x)) (recently_pruned p) = true) as Ht.
      { apply existsb_exists. exists X. rewrite <-list_elem_of_In. by rewrite bool_decide_eq_true_2. }
      congruence.
    + intros Hall. apply not_true_iff_false. rewrite existsb_exists.
      intros (X & Hin%list_elem_of_In & HX%bool_decide_eq_true). by apply (Hall X).
Qed.

Lemma new_waiting_missing now p op s :
  Future.missing_tags (Future.new_waiting now op (Ready.provided_tags_of (ready p) s) (recently_pruned p)) =
  open_requirements p op s.
Proof.
  unfold Future.new_waiting, open_requirements. simpl. apply set_eq. intros t.
  rewrite !elem_of_list_to_set, !list_elem_of_filter, <-is_provided_spec.
  destruct (Future.is_provided _ _ t); simpl; naive_solver.
Qed.

Lemma pool_inv_wait p w s f' :
  pool_inv (future p) (ready p) → FutureInv.future_inv f' →
  FutureInv.only_shard s (future p) f' → waiting_at f' s = <[w_hash w := w]> (waiting_at (future p) s) →
  operation_ok (Future.operation w) → w_hash w ∉ pool_hashes p s →
  (∀ t, t ∈ Future.missing_tags w → tags_at (ready p) s !! t = None) →
  pool_inv f' (ready p).
Proof.
  intros [Hf Hr Hd Hok Hw] Hf' Ho Hat Hwok Hnew Hmiss.
  assert (∀ s' h w', waiting_at f' s' !! h = Some w' →
    (s' = s ∧ h = w_hash w ∧ w' = w) ∨ waiting_at (future p) s' !! h = Some w') as Hcase.
  { intros s' h w'. destruct (decide (s' = s)) as [->|Hne].
    - rewrite Hat, lookup_insert_Some. intros [[<- <-]|[_ ?]]; auto.
    - rewrite (FutureInv.only_shard_waiting_at s _ f' s' Ho Hne). auto. }
  split; [done|done|..].
  - intros s' h w' [(-> & -> & ->)|?]%Hcase; [|by eapply Hd]. unfold pool_hashes, known in Hnew.
    apply not_elem_of_union in Hnew as [_ ?]. by apply not_elem_of_dom.
  - intros s' h w' [(-> & -> & ->)|?]%Hcase; [done|by eapply Hok].
  - intros s' h w' t [(-> & -> & ->)|?]%Hcase; [by apply Hmiss|by eapply Hw].
Qed.

Lemma not_known p h s :
  h ∉ pool_hashes p s ↔ waiting_at (future p) s !! h = None ∧ ready_at (ready p) s !! h = None.
Proof. unfold pool_hashes, known. by rewrite not_elem_of_union, !not_elem_of_dom. Qed.

(** What [import] returns, on every branch. *)
Definition import_post now p op s p' (res : result (Imported Ex) PoolError) : Prop :=
  let w := Future.new_waiting now op (Ready.provided_tags_of (ready p) s) (recently_pruned p) in
  if decide (op_hash op ∈ pool_hashes p s) then res = Err AlreadyImported ∧ p' = p
  else if decide (open_requirements p op s = ∅) then import_to_ready_post p w s p' res
  else if reject_future_operations p then res = Err RejectedFutureTrustedOperation ∧ p' = p
  else res = Ok (ImportedFuture (op_hash op)) ∧ ready p' = ready p ∧
    waiting_at (future p') s = <[op_hash op := w]> (waiting_at (future p) s).

Lemma base_import_spec now p op s :
  base_inv p → operation_ok op → ids_left p s (1 + size (waiting_at (future p) s)) →
  ∃ p' res, import now p op s = Ret (p', res) ∧ base_inv p' ∧ same_elsewhere s p p' ∧
    ids_used p s p' 1 ∧ import_post now p op s p' res.
Proof.
  intros Hp Hok Hid. assert (ids_used p s p 1) as Hused by (unfold ids_used, ids_left in *; lia).
  unfold import, import_post. rewrite is_imported_spec.
  set (w := Future.new_waiting _ _ _ _).
  pose proof (new_waiting_missing now p op s) as Hmiss. fold w in Hmiss.
  case_bool_decide as Hin.
  { exists p, (Err AlreadyImported). split_and!; try done. by rewrite decide_True. }
  unfold Future.is_ready. rewrite Hmiss. case_bool_decide as He; simpl negb; cbn iota.
  - pose proof Hin as [Hn1 Hn2]%not_known.
    destruct (import_to_ready_spec p w s Hp) as (p' & res & Heq & Hp' & Hse & _ & Hu & Hpost); [|done|].
    { split; [apply NoDup_singleton|]. intros w' ->%list_elem_of_singleton. rewrite Hmiss. done. }
    exists p', res. split_and!; try done. by rewrite decide_False, decide_True by done.
  - destruct (reject_future_operations p) eqn:Hrej.
    { exists p, (Err RejectedFutureTrustedOperation). split_and!; try done. by rewrite !decide_False by done. }
    pose proof (bi_pool _ Hp) as Hpi. pose proof Hin as [Hn _]%not_known.
    destruct (FutureInv.future_import_spec (future p) w s (pi_future _ _ Hpi)) as (f' & -> & Hf' & Ho & Hat);
      [by rewrite Hmiss|done|]. cbn [mbind outcome_bind].
    eexists _, (Ok _). split; [done|]. split_and!; [|by split| |by rewrite !decide_False by done].
    2:{ unfold ids_used, ids_left in *. simpl. rewrite Hat, map_size_insert_None by done. lia. }
    destruct Hp as [_ Hl Hi]. split; [|done..]. simpl.
    eapply (pool_inv_wait p w s); try done. intros t. rewrite Hmiss. unfold open_requirements.
    rewrite elem_of_list_to_set, list_elem_of_filter. tauto.
Qed.
End base_ops.
End BaseOps.

(** Removal, limits and the clearing of the Future queue of the pool. *)

Module BaseLimits.
Import Base BaseInv BaseOps.
#[local] Existing Instance Ready.ready_tx_size.

Section base_limits.
Context `{Ord : IterOrder} {Ex : Type}.
Implicit Types (p : BasePool Ex) (s : ShardIdentifier) (w : Future.WaitingTrustedOperations Ex).

(** [removed] went from [p] to [p'], each operation once. *)
Record reports p s p' (removed : list (TrustedOperation Ex)) : Prop := {
  rp_account : pool_hashes p' s ∪ op_hashes removed = pool_hashes p s;
  rp_gone : ∀ h, h ∈ op_hashes removed → h ∉ pool_hashes p' s;
  rp_nodup : NoDup (op_hash <$> removed);
}.

Lemma reports_nil p s : reports p s p [].
Proof. split; [set_solver|set_solver|constructor]. Qed.

Lemma reports_trans p1 p2 p3 s l1 l2 :
  reports p1 s p2 l1 → reports p2 s p3 l2 → reports p1 s p3 (l1 ++ l2).
Proof.
  intros [A1 G1 N1] [A2 G2 N2]. split.
  - rewrite op_hashes_app, <-A1, <-A2. set_solver.
  - intros h. rewrite op_hashes_app, elem_of_union. intros [Hin|Hin]; [|by apply G2].
    specialize (G1 h Hin). rewrite <-A2 in G1. set_solver.
  - rewrite fmap_app. apply NoDup_app. split_and!; [done| |done]. intros h Hin1 Hin2.
    assert (h ∉ pool_hashes p2 s) as Hn by (apply G1; unfold op_hashes; by rewrite elem_of_list_to_set).
    apply Hn. rewrite <-A2. apply elem_of_union_r. unfold op_hashes. by rewrite elem_of_list_to_set.
Qed.

(** *** [remove_subtree] *)

(** What goes from the two queues. *)
Record subtree_gone p s hashes p' : Prop := {
  sg_ready : ∀ h, ready_at (ready p') s !! h = None ↔
    ready_at (ready p) s !! h = None ∨ ReadyInv.reached None (ready_at (ready p) s) hashes h;
  sg_future : ∀ h, waiting_at (future p') s !! h =
    if decide (h ∈ hashes) then None else waiting_at (future p) s !! h;
}.

Lemma subtree_gone_roots p s hashes p' h : subtree_gone p s hashes p' → h ∈ hashes → h ∉ pool_hashes p' s.
Proof.
  intros [Hr Hf] Hin. apply not_known. rewrite Hf, decide_True by done. split; [done|].
  apply Hr. right. exists h. split; [done|]. apply rtc_refl.
Qed.

Lemma base_remove_spec p hashes s :
  base_inv p →
  ∃ p' removed, remove_subtree p hashes s = Ret (p', removed) ∧ base_inv p' ∧ same_elsewhere s p p' ∧
    subtree_gone p s hashes p' ∧ reports p s p' removed.
Proof.
  intros Hp. pose proof (bi_pool _ Hp) as Hpi. unfold remove_subtree.
  destruct (ReadyRemove.ready_remove_spec (ready p) hashes s (pi_ready _ _ Hpi))
    as (r' & l1 & -> & Hr' & Hor & Hids & Hrem). cbn [mbind outcome_bind].
  destruct (Future.remove (future p) hashes s) as [f' l2] eqn:Heq.
  destruct (FutureInv.remove_spec _ _ _ _ _ (pi_future _ _ Hpi) Heq) as (Hf' & Hof & Hwait & Hnd2 & Hl2).
  pose proof (removes_shrinks _ _ _ _ _ Hrem) as Hshr. destruct Hrem as [Hgone _ Hl1 Hnd1].
  pose proof (ReadyInv.inv_hash _ _ _ _ _ (ReadyInv.ready_inv_at _ s (pi_ready _ _ Hpi))) as Hrh.
  pose proof (FutureInv.inv_hash _ _ (FutureInv.future_inv_at _ s (pi_future _ _ Hpi))) as Hfh.
  eexists _, _. split; [done|]. assert (pool_inv f' r') as Hpi'.
  { eapply pool_inv_ready; [|done..]. eapply pool_inv_future; [done..|].
    intros h w. rewrite Hwait. case_decide; [done|]. eauto. }
  assert (∀ h, h ∈ op_hashes l1 ↔ is_Some (ready_at (ready p) s !! h) ∧ ready_at r' s !! h = None) as H1.
  { intros h. unfold op_hashes. rewrite elem_of_list_to_set, list_elem_of_fmap. split.
    - intros (o & -> & (h' & tx & Htx & Hre & <-)%Hl1). rewrite (Hrh h' tx Htx).
      split; [by eexists|]. apply Hgone. by right.
    - intros [[tx Htx] Hn]. exists (Ready.tx_op tx). split; [symmetry; by apply Hrh|]. apply Hl1.
      exists h, tx. split_and!; try done. apply Hgone in Hn as [?|?]; [congruence|done]. }
  assert (∀ h, h ∈ op_hashes l2 ↔ is_Some (waiting_at (future p) s !! h) ∧ waiting_at f' s !! h = None) as H2.
  { intros h. unfold op_hashes. rewrite elem_of_list_to_set, list_elem_of_fmap. split.
    - intros (o & -> & (h' & w & Hin & Hw & <-)%Hl2).
      change (op_hash (Future.operation w)) with (w_hash w). rewrite (Hfh h' w Hw).
      split; [by eexists|]. by rewrite Hwait, decide_True.
    - intros [[w Hw] Hn]. exists (Future.operation w). split; [symmetry; by apply Hfh|]. apply Hl2.
      exists h, w. split_and!; try done. rewrite Hwait in Hn. case_decide; [done|congruence]. }
  split_and!; [by apply base_inv_set|by split|by split|]. split.
  - apply set_eq. intros h. rewrite op_hashes_app. unfold pool_hashes, known. simpl.
    rewrite !elem_of_union, H1, H2, !elem_of_dom. split.
    + intros [[[w Hw]|[tx Htx]]|[[? _]|[? _]]]; auto.
      * left. rewrite Hwait in Hw. case_decide; [done|by eexists].
      * right. destruct (Hshr h tx Htx) as (tx0 & ? & _). by eexists.
    + destruct (waiting_at f' s !! h) as [w'|] eqn:E1; [left; left; by eexists|].
      destruct (ready_at r' s !! h) as [tx'|] eqn:E2; [left; right; by eexists|]. tauto.
  - intros h. rewrite op_hashes_app, elem_of_union, H1, H2. rewrite not_known. simpl.
    intros [[[tx Htx] Hn]|[[w Hw] Hn]]; (split; [|]); try done.
    + rewrite Hwait. case_decide; [done|]. destruct (waiting_at (future p) s !! h) as [w|] eqn:E; [|done].
      rewrite (pi_disjoint _ _ Hpi s h w E) in Htx. done.
    + apply Hgone. left. by eapply pi_disjoint.
  - rewrite fmap_app. apply NoDup_app. split_and!; [done| |done]. intros h Hin1 Hin2.
    destruct (proj1 (H1 h)) as [[tx Htx] _]; [unfold op_hashes; by rewrite elem_of_list_to_set|].
    destruct (proj1 (H2 h)) as [[w Hw] _]; [unfold op_hashes; by rewrite elem_of_list_to_set|].
    rewrite (pi_disjoint _ _ Hpi s h w Hw) in Htx. done.
Qed.

(** Removing hashes that are not ready leaves the Ready queue as it is. *)
Lemma ready_remove_absent (r : Ready.ReadyOperations Ex) s h :
  ready_at r s !! h = None → Ready.remove_subtree r [h] s = Ret (r, []).
Proof.
  unfold Ready.remove_subtree, Ready.remove_subtree_with_tag_filter, ReadyInv.ready_at.
  destruct (Ready.ready r !! s) as [rm|] eqn:Hrm; [|done]. intros Hn.
  assert (Tracked.remove rm h = (rm, None)) as Hrem by (unfold Tracked.remove; by rewrite Hn).
  cbn [length reverse rev_append Nat.add]. rewrite loop_unfold. cbn [Ready.removal_step].
  change (reverse [h]) with [h]. rewrite Hrem. rewrite loop_unfold. simpl.
  destruct r as [ids tags rdy bst]. simpl in *. f_equal. f_equal. f_equal.
  - apply map_eq. intros s'. destruct (decide (s = s')) as [<-|].
    + by rewrite lookup_partial_alter_eq. + by rewrite lookup_partial_alter_ne.
  - by apply insert_id.
  - apply map_eq. intros s'. destruct (decide (s = s')) as [<-|].
    + by rewrite lookup_partial_alter_eq. + by rewrite lookup_partial_alter_ne.
Qed.

(** *** [enforce_limits] *)

Lemma ready_size_at p s : ready_size p s = size (ready_at (ready p) s).
Proof. unfold ready_size, ReadyInv.ready_at. destruct (_ !! s); [done|]. by rewrite map_size_empty. Qed.

Lemma future_size_at p s : future_size p s = size (waiting_at (future p) s).
Proof. unfold future_size, FutureInv.waiting_at. destruct (_ !! s); [done|]. simpl. by rewrite map_size_empty. Qed.

Lemma size_decreases {A B} (m : gmap TxHash A) (m' : gmap TxHash B) (h : TxHash) :
  dom m' ⊆ dom m → h ∈ dom m → h ∉ dom m' → size m' < size m.
Proof.
  intros Hsub Hin Hn. rewrite <-!size_dom. apply subset_size. split; [done|]. set_solver.
Qed.

Lemma subtree_gone_subset p s hashes p' :
  subtree_gone p s hashes p' →
  dom (ready_at (ready p') s) ⊆ dom (ready_at (ready p) s) ∧
  dom (waiting_at (future p') s) ⊆ dom (waiting_at (future p) s).
Proof.
  intros [Hr Hf]. split; intros h.
  - intros Hin. destruct (decide (h ∈ dom (ready_at (ready p) s))) as [|Hn]; [done|].
    apply not_elem_of_dom in Hn. assert (ready_at (ready p') s !! h = None) as Hn'%not_elem_of_dom
      by (apply Hr; by left). done.
  - rewrite !elem_of_dom, Hf. case_decide; [by intros [? ?]|done].
Qed.

Lemma older_fold (l : list (Ready.ReadyTx Ex)) (acc : option (Ready.OperationRef Ex)) :
  match foldl older acc l with
  | Some ref => (acc = Some ref ∨ ∃ tx, tx ∈ l ∧ Ready.tx_ref tx = ref) ∧
      (∀ tx, tx ∈ l → (Ready.insertion_id ref ≤ Ready.insertion_id (Ready.tx_ref tx))%Z) ∧
      (∀ ref0, acc = Some ref0 → (Ready.insertion_id ref ≤ Ready.insertion_id ref0)%Z)
  | None => acc = None ∧ l = []
  end.
Proof.
  revert acc. induction l as [|tx l IH]; intros acc; cbn [foldl].
  { destruct acc; [|done]. split_and!; [by left|set_solver|]. intros ref0 [= ->]. lia. }
  specialize (IH (older acc tx)).
  assert (older acc tx = acc ∨ older acc tx = Some (Ready.tx_ref tx)) as Hcase.
  { unfold older. destruct acc; [destruct (_ <? _)%Z|]; auto. }
  assert (∃ ref1, older acc tx = Some ref1 ∧
    (Ready.insertion_id ref1 ≤ Ready.insertion_id (Ready.tx_ref tx))%Z ∧
    (∀ ref0, acc = Some ref0 → (Ready.insertion_id ref1 ≤ Ready.insertion_id ref0)%Z))
    as (ref1 & Hold & Hle1 & Hle0).
  { unfold older. destruct acc as [ref0|].
    - destruct (Z.ltb_spec (Ready.insertion_id (Ready.tx_ref tx)) (Ready.insertion_id ref0)).
      + exists (Ready.tx_ref tx). split_and!; [done|lia|]. intros ? [= <-]. lia.
      + exists ref0. split_and!; [done|lia|]. intros ? [= <-]. lia.
    - exists (Ready.tx_ref tx). split_and!; [done|lia|done]. }
  rewrite Hold in *. destruct (foldl older (Some ref1) l) as [ref|]; [|by destruct IH].
  destruct IH as (Hsrc & Hmin & Hacc). specialize (Hacc ref1 eq_refl). split_and!.
  - destruct Hsrc as [[= <-]|(tx' & ? & ?)]; [|right; exists tx'; split; [by right|done]].
    destruct Hcase as [<-|[= ->]]; [by left|right; exists tx; split; [by left|done]].
  - intros tx' [->|?]%elem_of_cons; [lia|by apply Hmin].
  - intros ref0 Hr0. specialize (Hle0 ref0 Hr0). lia.
Qed.

(** The fold finds the oldest operation of the queue when there is one. *)
Lemma oldest_spec p s :
  match Ready.fold older (ready p) s with
  | Some ref => ∃ h tx, ready_at (ready p) s !! h = Some tx ∧ Ready.tx_ref tx = ref ∧
      ∀ h' tx', ready_at (ready p) s !! h' = Some tx' →
        (Ready.insertion_id ref ≤ Ready.insertion_id (Ready.tx_ref tx'))%Z
  | None => ready_at (ready p) s = ∅
  end.
Proof.
  unfold Ready.fold, ReadyInv.ready_at. destruct (Ready.ready (ready p) !! s) as [rm|]; [|done].
  unfold Tracked.values. pose proof (older_fold (map_values (Tracked.index rm)) None) as Hgen.
  destruct (foldl older None (map_values (Tracked.index rm))) as [ref|].
  - destruct Hgen as ([?|(tx & Hin & Href)] & Hmin & _); [done|].
    apply elem_of_map_values in Hin as [h Hh]. exists h, tx. split_and!; try done.
    intros h' tx' Htx'. apply Hmin. apply elem_of_map_values. eauto.
  - destruct Hgen as [_ Hnil]. apply map_size_empty_inv. by rewrite <-length_map_values, Hnil.
Qed.

Lemma first_visited_spec p s :
  match Future.fold first_visited (future p) s with
  | Some w => ∃ h, waiting_at (future p) s !! h = Some w
  | None => waiting_at (future p) s = ∅
  end.
Proof.
  unfold Future.fold, FutureInv.waiting_at. destruct (Future.waiting (future p) !! s) as [pool|]; [|done].
  simpl. assert (∀ l (w : Future.WaitingTrustedOperations Ex), foldl first_visited (Some w) l = Some w) as Hkeep.
  { induction l; simpl; auto. }
  destruct (map_values pool) as [|w l] eqn:Hv.
  - simpl. apply map_size_empty_inv. by rewrite <-length_map_values, Hv.
  - simpl. rewrite Hkeep. apply elem_of_map_values. rewrite Hv. by left.
Qed.

(** Limits are [usize]. *)
Definition limit_ok (l : Limit) : Prop := is_u64 (limit_count l) ∧ is_u64 (total_bytes l).

Lemma limit_ok_zero l : limit_ok l → is_exceeded l 0 0 = false.
Proof.
  intros [Hc Hb]. unfold is_exceeded, is_u64 in *. apply orb_false_iff. split; apply Z.ltb_ge; lia.
Qed.

Lemma ready_empty_status (r : Ready.ReadyOperations Ex) s :
  ReadyInv.ready_inv r → ready_at r s = ∅ → Ready.len r s = 0%Z ∧ Ready.bytes r s = 0%Z.
Proof.
  intros Hr. specialize (Hr s). unfold ReadyInv.ready_at, Ready.len, Ready.bytes.
  destruct (Ready.ready r !! s) as [rm|]; [|done]. intros He.
  destruct (Ready.provided_tags r !! s); [|done]. destruct (Ready.best r !! s); [|done].
  destruct Hr as [[Hl Hb] _]. unfold Tracked.len, Tracked.bytes. rewrite Hl, Hb, He. done.
Qed.

Lemma future_empty_status (f : Future.FutureTrustedOperations Ex) s :
  waiting_at f s = ∅ → Future.len f s = 0%Z ∧ Future.bytes f s = 0%Z.
Proof.
  unfold FutureInv.waiting_at, Future.len, Future.bytes. destruct (_ !! s) as [pool|]; [|done].
  simpl. intros ->. by rewrite map_values_empty, map_size_empty.
Qed.

(** The state of a limiting loop that began with [p]. *)
Record limiting p s (st : BasePool Ex * list (TrustedOperation Ex)) : Prop := {
  lm_inv : base_inv st.1;
  lm_same : same_elsewhere s p st.1;
  lm_reports : reports p s st.1 st.2;
}.

Lemma limiting_remove p s p1 l1 h :
  limiting p s (p1, l1) →
  ∃ p2 l2, remove_subtree p1 [h] s = Ret (p2, l2) ∧ limiting p s (p2, l1 ++ l2) ∧
    subtree_gone p1 s [h] p2.
Proof.
  intros [Hinv Hse Hrp]. simpl in *. destruct (base_remove_spec p1 [h] s Hinv)
    as (p2 & l2 & Heq & Hinv2 & Hse2 & Hg & Hrp2).
  exists p2, l2. split; [done|]. split; [|done].
  split; simpl; [done|by eapply same_elsewhere_trans|by eapply reports_trans].
Qed.

Lemma limit_ready_step_spec limit p s st :
  limit_ok limit → limiting p s st →
  (∃ st', limit_ready_step limit s st = Ret (inl st') ∧ limiting p s st' ∧
     ready_size st'.1 s < ready_size st.1 s) ∨
  (∃ st', limit_ready_step limit s st = Ret (inr st') ∧ limiting p s st' ∧
     is_exceeded limit (Ready.len (ready st'.1) s) (Ready.bytes (ready st'.1) s) = false).
Proof.
  intros Hl Hlm. destruct st as [p1 l1]. unfold limit_ready_step.
  pose proof (pi_ready _ _ (bi_pool _ (lm_inv _ _ _ Hlm))) as Hr. simpl in Hr.
  destruct (is_exceeded _ _ _) eqn:Hex; [|right; by exists (p1, l1)]. left.
  pose proof (oldest_spec p1 s) as Hold. destruct (Ready.fold older (ready p1) s) as [ref|].
  - destruct Hold as (h & tx & Htx & <- & _).
    destruct (limiting_remove p s p1 l1 (op_hash (Ready.tx_op tx)) Hlm) as (p2 & l2 & Heq & Hlm2 & Hg).
    unfold Ready.tx_op in Heq. rewrite Heq. cbn [mbind outcome_bind]. eexists. split; [done|]. split; [done|].
    simpl. rewrite !ready_size_at. destruct (subtree_gone_subset _ _ _ _ Hg) as [Hsub _].
    apply (size_decreases _ _ h); [done|by apply elem_of_dom|]. apply not_elem_of_dom.
    apply (sg_ready _ _ _ _ Hg). right. exists h. split; [|apply rtc_refl].
    apply list_elem_of_singleton. symmetry.
    by apply (ReadyInv.inv_hash _ _ _ _ _ (ReadyInv.ready_inv_at _ s Hr)).
  - destruct (ready_empty_status _ _ Hr Hold) as [E1 E2]. rewrite E1, E2, limit_ok_zero in Hex by done. done.
Qed.

Lemma limit_future_step_spec limit p s (r : Ready.ReadyOperations Ex) st :
  limit_ok limit → limiting p s st ∧ ready st.1 = r →
  (∃ st', limit_future_step limit s st = Ret (inl st') ∧ (limiting p s st' ∧ ready st'.1 = r) ∧
     future_size st'.1 s < future_size st.1 s) ∨
  (∃ st', limit_future_step limit s st = Ret (inr st') ∧ (limiting p s st' ∧ ready st'.1 = r) ∧
     is_exceeded limit (Future.len (future st'.1) s) (Future.bytes (future st'.1) s) = false).
Proof.
  intros Hl [Hlm Hr]. destruct st as [p1 l1]. unfold limit_future_step.
  pose proof (bi_pool _ (lm_inv _ _ _ Hlm)) as Hpi. simpl in *.
  destruct (is_exceeded _ _ _) eqn:Hex; [|right; by exists (p1, l1)]. left.
  pose proof (first_visited_spec p1 s) as Hfv. destruct (Future.fold first_visited (future p1) s) as [w|].
  - destruct Hfv as [h Hw].
    pose proof (FutureInv.inv_hash _ _ (FutureInv.future_inv_at _ s (pi_future _ _ Hpi)) h w Hw) as Hh.
    unfold w_hash in Hh. rewrite Hh.
    destruct (limiting_remove p s p1 l1 h Hlm) as (p2 & l2 & Heq & Hlm2 & Hg).
    rewrite Heq. cbn [mbind outcome_bind]. eexists. split; [done|]. split; [split; [done|]|].
    + simpl. unfold remove_subtree in Heq. rewrite ready_remove_absent in Heq by (by eapply pi_disjoint).
      cbn [mbind outcome_bind] in Heq. destruct (Future.remove (future p1) [h] s). by simplify_eq.
    + simpl. rewrite !future_size_at. destruct (subtree_gone_subset _ _ _ _ Hg) as [_ Hsub].
      apply (size_decreases _ _ h); [done|by apply elem_of_dom|]. apply not_elem_of_dom.
      rewrite (sg_future _ _ _ _ Hg). by rewrite decide_True by (by apply list_elem_of_singleton).
  - destruct (future_empty_status _ _ Hfv) as [E1 E2]. rewrite E1, E2, limit_ok_zero in Hex by done. done.
Qed.

Lemma base_limits_spec p rl fl s :
  base_inv p → limit_ok rl → limit_ok fl →
  ∃ p' removed, enforce_limits p rl fl s = Ret (p', removed) ∧ limiting p s (p', removed) ∧
    is_exceeded rl (st_ready (status p' s)) (st_ready_bytes (status p' s)) = false ∧
    is_exceeded fl (st_future (status p' s)) (st_future_bytes (status p' s)) = false.
Proof.
  intros Hp Hrl Hfl. unfold enforce_limits.
  destruct (loop_total (limit_ready_step rl s) (limiting p s) (λ st, ready_size st.1 s)
    (λ st, limiting p s st ∧
       is_exceeded rl (Ready.len (ready st.1) s) (Ready.bytes (ready st.1) s) = false)
    (λ st, limit_ready_step_spec rl p s st Hrl) (S (ready_size p s)) (p, []))
    as ([p1 l1] & -> & Hlm1 & Hex1).
  { split; [done|apply same_elsewhere_refl|apply reports_nil]. }
  { simpl. lia. }
  cbn [mbind outcome_bind].
  destruct (loop_total (limit_future_step fl s) (λ st, limiting p s st ∧ ready st.1 = ready p1)
    (λ st, future_size st.1 s)
    (λ st, (limiting p s st ∧ ready st.1 = ready p1) ∧
       is_exceeded fl (Future.len (future st.1) s) (Future.bytes (future st.1) s) = false)
    (λ st, limit_future_step_spec fl p s (ready p1) st Hfl) (S (future_size p1 s)) (p1, l1))
    as ([p2 l2] & -> & [Hlm2 Hr2] & Hex2).
  { done. }
  { simpl. lia. }
  exists p2, l2. simpl in *. rewrite Hr2. done.
Qed.

(** *** [clear_future] *)

Lemma clear_future_spec p s :
  base_inv p →
  ∃ p' removed, clear_future p s = Ret (p', removed) ∧ base_inv p' ∧ same_elsewhere s p p' ∧
    ready p' = ready p ∧ waiting_at (future p') s = ∅ ∧
    removed ≡ₚ Future.operation <$> (map_to_list (waiting_at (future p) s)).*2.
Proof.
  intros Hp. pose proof (bi_pool _ Hp) as Hpi. unfold clear_future.
  destruct (FutureInv.clear_spec (future p) s (pi_future _ _ Hpi)) as (f' & l & -> & Hf' & Ho & He & Hl).
  cbn [mbind outcome_bind]. eexists _, _. split; [done|]. split_and!; try done.
  destruct Hp as [_ Hlen Hidx]. split; [|done..]. simpl. eapply pool_inv_future; [done..|].
  intros h w. rewrite He, lookup_empty. done.
Qed.
End base_limits.
End BaseLimits.
