(* ===== verification/BasePrune.v ===== *)
(** [prune_tags] of the pool: the tags of a block are satisfied for the waiting
    operations and pruned from the Ready queue, then what became ready is
    promoted. *)

From stdpp Require Import base gmap fin_maps sets numbers list.
From S2P Require Import Prelude Collections PoolTypes TrackedMap FuturePool ReadyPool ReadyInv ReadyImport ReadyPrune BasePool BaseInv BaseOps.

Module BasePrune.
Import Base BaseInv BaseOps.

Section base_prune.
Context `{Ord : IterOrder} {Ex : Type}.
Implicit Types (p : BasePool Ex) (s : ShardIdentifier) (w : Future.WaitingTrustedOperations Ex).
Implicit Types (f : Future.FutureTrustedOperations Ex) (r : Ready.ReadyOperations Ex).

Lemma stack_ok_perm f r s l l' : l ≡ₚ l' → stack_ok f r s l → stack_ok f r s l'.
Proof.
  intros Hl [Hnd He]. split; [by rewrite <-Hl|]. intros w. rewrite <-Hl. apply He.
Qed.

Lemma prunes_shrinks r r' s tag removed :
  ReadyPrune.prunes (tags_at r s) (ready_at r s) tag (tags_at r' s) (ready_at r' s) removed →
  ready_shrinks r r' s.
Proof.
  intros Hp h tx Htx. destruct (ReadyPrune.prs_kept _ _ _ _ _ _ Hp h tx Htx) as (tx0 & ? & Href & _).
  exists tx0. unfold Ready.tx_op. by rewrite Href.
Qed.

Lemma prunes_dom r r' s tag removed :
  ReadyInv.ready_inv r →
  ReadyPrune.prunes (tags_at r s) (ready_at r s) tag (tags_at r' s) (ready_at r' s) removed →
  dom (ready_at r s) = dom (ready_at r' s) ∪ op_hashes removed ∧
  (∀ h, h ∈ op_hashes removed → ready_at r' s !! h = None).
Proof.
  intros Hr Hp. pose proof (ready_shrinks_dom _ _ _ (prunes_shrinks _ _ _ _ _ Hp)) as Hsub.
  pose proof (ReadyInv.inv_hash _ _ _ _ _ (ReadyInv.ready_inv_at r s Hr)) as Hhash.
  assert (∀ h, h ∈ op_hashes removed ↔ h ∈ dom (ready_at r s) ∧ ready_at r' s !! h = None) as Hrem.
  { intros h. unfold op_hashes. rewrite elem_of_list_to_set, list_elem_of_fmap, elem_of_dom. split.
    - intros (o & -> & Ho). apply (ReadyPrune.prs_removed _ _ _ _ _ _ Hp) in Ho as (h' & tx & Htx & Hn & <-).
      rewrite (Hhash h' tx Htx). split; [by eexists|done].
    - intros [[tx Htx] Hn]. exists (Ready.tx_op tx). split; [symmetry; by apply Hhash|].
      apply (ReadyPrune.prs_removed _ _ _ _ _ _ Hp). eauto. }
  split; [|intros h; rewrite Hrem; tauto].
  apply set_eq. intros h. rewrite elem_of_union, Hrem. split.
  - intros Hin. destruct (ready_at r' s !! h) as [tx|] eqn:E; [left; by apply elem_of_dom|by right].
  - intros [Hin|[Hin _]]; [by apply Hsub|done].
Qed.

(** *** The loop over the tags *)

Record prune_good p s (visited : list Tag) (acc : prune_acc (Ex := Ex)) : Prop := {
  pg_inv : pool_inv (pa_future acc) (pa_ready acc);
  pg_stack : stack_ok (pa_future acc) (pa_ready acc) s (pa_import acc);
  pg_future : FutureInv.only_shard s (future p) (pa_future acc);
  pg_ready : ReadyInv.only_shard s (ready p) (pa_ready acc);
  pg_ids : Ready.insertion_ids (pa_ready acc) = Ready.insertion_ids (ready p);
  pg_size : length (pa_import acc) + size (waiting_at (pa_future acc) s) = size (waiting_at (future p) s);
  pg_tags : pa_tags acc = list_to_set visited;
  pg_account : known (pa_future acc) (pa_ready acc) s ∪ w_hashes (pa_import acc) ∪
    op_hashes (pa_pruned acc) = pool_hashes p s;
  pg_gone : ∀ h, h ∈ op_hashes (pa_pruned acc) → waiting_at (pa_future acc) s !! h = None ∧
    ready_at (pa_ready acc) s !! h = None ∧ h ∉ w_hashes (pa_import acc);
  pg_wait : FutureInv.satisfies (list_to_set visited) (waiting_at (future p) s)
    (waiting_at (pa_future acc) s) (pa_import acc);
}.

Lemma prune_good_init p s : base_inv p → prune_good p s [] (MkPruneAcc (future p) (ready p) [] [] ∅).
Proof.
  intros Hp. pose proof (bi_pool _ Hp) as Hpi. split; simpl; try done.
  - split; [constructor|]. intros w Hw. by apply elem_of_nil in Hw.
  - unfold w_hashes, op_hashes, pool_hashes. simpl. set_solver.
  - apply FutureInv.satisfies_nil. apply FutureInv.future_inv_at, Hpi.
Qed.

Lemma account_prunes (W W' U R R' S G N H : gset TxHash) :
  W = W' ∪ U → R = R' ∪ N → W ∪ R ∪ S ∪ G = H → W' ∪ R' ∪ (S ∪ U) ∪ (G ∪ N) = H.
Proof. intros -> -> <-. set_solver. Qed.

Lemma prune_one_spec p s pre tag acc :
  base_inv p → prune_good p s pre acc →
  ∃ acc', prune_one s acc tag = Ret acc' ∧ prune_good p s (pre ++ [tag]) acc'.
Proof.
  intros Hp [Hinv Hst Hof Hor Hids Hsize Htags Hacc Hgone Hwait]. unfold prune_one.
  destruct (FutureInv.satisfy_tags_spec (pa_future acc) [tag] s (pi_future _ _ Hinv))
    as (f' & out & -> & Hf' & Hof' & Hsat). cbn [mbind outcome_bind].
  pose proof (satisfies_size _ _ _ _ _ (pi_future _ _ Hinv) Hsat) as [Hdom Hsz].
  pose proof (stack_ok_satisfied _ _ _ _ _ _ _ Hinv Hsat Hst) as Hst1.
  assert (pool_inv f' (pa_ready acc)) as Hinv1.
  { eapply pool_inv_future; [done..|by eapply satisfies_shrinks]. }
  destruct (ReadyPrune.ready_prune_spec (pa_ready acc) tag s (pi_ready _ _ Hinv))
    as (r' & pruned & -> & Hr' & Hor' & Hids' & Hpr). cbn [mbind outcome_bind].
  pose proof (prunes_shrinks _ _ _ _ _ Hpr) as Hshr.
  destruct (prunes_dom _ _ _ _ _ (pi_ready _ _ Hinv) Hpr) as [Hrdom Hrgone].
  assert (∀ h, ready_at (pa_ready acc) s !! h = None → ready_at r' s !! h = None) as Hmono.
  { intros h Hn. destruct (ready_at r' s !! h) as [tx|] eqn:E; [|done].
    destruct (Hshr h tx E) as (? & ? & _). congruence. }
  eexists. split; [done|]. split; simpl.
  - by eapply pool_inv_ready.
  - apply (stack_ok_perm _ _ _ (reverse out ++ pa_import acc)).
    { rewrite reverse_Permutation. apply Permutation_app_comm. }
    destruct Hst1 as [Hnd He]. split; [done|]. intros w Hw. destruct (He w Hw) as (? & ? & ? & ?).
    split_and!; try done. by apply Hmono.
  - by eapply FutureInv.future_only_shard_trans.
  - by eapply ReadyInv.ready_only_shard_trans.
  - congruence.
  - rewrite length_app. lia.
  - rewrite Htags, list_to_set_app_L. simpl. set_solver.
  - rewrite w_hashes_app, op_hashes_app. unfold known in *.
    by eapply (account_prunes _ _ _ _ _ _ _ _ _ Hdom Hrdom).
  - assert (∀ h, waiting_at (pa_future acc) s !! h = None → waiting_at f' s !! h = None ∧ h ∉ w_hashes out)
      as Hn'.
    { intros h Hn%not_elem_of_dom. rewrite Hdom in Hn. apply not_elem_of_union in Hn as [? ?].
      split; [by apply not_elem_of_dom|done]. }
    intros h. rewrite op_hashes_app, w_hashes_app, elem_of_union. intros [Hin|Hin].
    + destruct (Hgone h Hin) as (Hn1 & Hn2 & Hn3). destruct (Hn' h Hn1) as [? ?].
      split_and!; [done|by apply Hmono|]. by apply not_elem_of_union.
    + assert (h ∈ dom (ready_at (pa_ready acc) s)) as [tx Htx]%elem_of_dom
        by (rewrite Hrdom; by apply elem_of_union_r).
      assert (waiting_at (pa_future acc) s !! h = None) as Hn1.
      { destruct (waiting_at (pa_future acc) s !! h) as [w|] eqn:E; [|done].
        pose proof (pi_disjoint _ _ Hinv s h w E). congruence. }
      destruct (Hn' h Hn1) as [? ?]. split_and!; [done|by apply Hrgone|].
      apply not_elem_of_union. split; [|done]. intros Hin'. unfold w_hashes in Hin'.
      rewrite elem_of_list_to_set, list_elem_of_fmap in Hin'. destruct Hin' as (w & -> & Hw).
      destruct (so_entry _ _ _ _ Hst w Hw) as (_ & _ & _ & ?). congruence.
  - rewrite list_to_set_app_L.
    eapply FutureInv.satisfies_trans; [|done|].
    { apply (FutureInv.inv_hash _ _ (FutureInv.future_inv_at _ s (pi_future _ _ (bi_pool _ Hp)))). }
    done.
Qed.

(** *** The loop over the operations that became ready *)

Record promote_good p1 s (todo : list (Future.WaitingTrustedOperations Ex))
    (l : list (Future.WaitingTrustedOperations Ex)) p : Prop := {
  pg2_inv : base_inv p;
  pg2_same : same_elsewhere s p1 p;
  pg2_stack : stack_ok (future p) (ready p) s todo;
  pg2_ids : ids_left p s (length todo + size (waiting_at (future p) s));
  pg2_sub : pool_hashes p s ⊆ pool_hashes p1 s ∪ w_hashes l;
  pg2_shrinks : future_shrinks (future p1) (future p) s;
}.

Lemma import_to_ready_subset p w s p' res :
  import_to_ready_post p w s p' res → pool_hashes p' s ⊆ pool_hashes p s ∪ {[w_hash w]}.
Proof.
  unfold import_to_ready_post. destruct res as [[hash pr fl rm|]|e]; [|done|].
  - intros (-> & _ & <- & _). set_solver.
  - intros (_ & _ & ?). set_solver.
Qed.

Lemma promote_one_spec p1 s w todo l p pr fl :
  promote_good p1 s (w :: todo) l p → w ∈ l →
  ∃ p' pr' fl', promote_one s (p, pr, fl) w = Ret (p', pr', fl') ∧ promote_good p1 s todo l p'.
Proof.
  intros [Hinv Hse Hst [Hpos Hid] Hsub Hshr] Hl. unfold promote_one.
  pose proof Hst as [Hnd He]. rewrite fmap_cons in Hnd. apply NoDup_cons in Hnd as [Hnot Hnd].
  destruct (import_to_ready_spec p w s Hinv) as (p' & res & -> & Hinv' & Hse' & Hshr' & [Hpos' Hid'] & Hpost).
  { split; [apply NoDup_singleton|]. intros w' ->%list_elem_of_singleton. apply He. by left. }
  { unfold ids_left in *. simpl in *. lia. }
  cbn [mbind outcome_bind]. pose proof (import_to_ready_subset _ _ _ _ _ Hpost) as Hks.
  assert (promote_good p1 s todo l p') as Hgood.
  { split; [done|by eapply same_elsewhere_trans| | | |by eapply future_shrinks_trans].
    - split; [done|]. intros w' Hw'. destruct (He w' ltac:(by right)) as (? & ? & Hn1 & Hn2).
      split_and!; try done; apply (not_known p' (w_hash w') s); intros Hin%Hks;
        apply elem_of_union in Hin as [Hin|Heq%elem_of_singleton];
        try (by apply (proj2 (not_known p (w_hash w') s) (conj Hn1 Hn2)));
        apply Hnot; rewrite <-Heq; by apply list_elem_of_fmap_2.
    - unfold ids_left in *. simpl in *. lia.
    - etrans; [exact Hks|]. apply union_subseteq. split; [done|]. apply singleton_subseteq_l.
      apply elem_of_union_r. unfold w_hashes. rewrite elem_of_list_to_set. by apply list_elem_of_fmap_2. }
  destruct res as [i|e]; eauto 10.
Qed.

Lemma promote_all_spec p1 s l p pr fl :
  promote_good p1 s l l p →
  ∃ p' pr' fl', for_each (promote_one s) (p, pr, fl) l = Ret (p', pr', fl') ∧ promote_good p1 s [] l p'.
Proof.
  intros Hg. destruct (for_each_total (promote_one s)
    (λ pre st, ∀ todo, l = pre ++ todo → promote_good p1 s todo l st.1.1) l (p, pr, fl))
    as ([[p' pr'] fl'] & Heq & Hgood).
  - intros todo ->. done.
  - intros pre w post [[p2 pr2] fl2] Hl HP. specialize (HP (w :: post) Hl). simpl in HP.
    destruct (promote_one_spec p1 s w post l p2 pr2 fl2 HP) as (p3 & pr3 & fl3 & Heq3 & Hg3).
    { rewrite Hl. apply elem_of_app. right. by left. }
    eexists. split; [done|]. intros todo Htodo. rewrite Hl, <-app_assoc in Htodo. simpl in Htodo.
    apply app_inv_head in Htodo. by injection Htodo as <-.
  - exists p', pr', fl'. split; [done|]. apply (Hgood []). by rewrite app_nil_r.
Qed.

(** *** [prune_tags] *)

Record prune_post p (tags : list Tag) s p' (status : PruneStatus Ex) : Prop := {
  pp_recent : recently_pruned p' = <[recently_pruned_index p := list_to_set tags]> (recently_pruned p);
  pp_index : recently_pruned_index p' = (recently_pruned_index p + 1) mod RECENTLY_PRUNED_TAGS;
  pp_known : pool_hashes p' s ∪ op_hashes (pruned status) ⊆ pool_hashes p s;
  pp_gone : ∀ h, h ∈ op_hashes (pruned status) → h ∉ pool_hashes p' s;
  pp_waiting : ∀ h w t, waiting_at (future p') s !! h = Some w → t ∈ tags → t ∉ Future.missing_tags w;
}.

Lemma base_prune_spec p tags s :
  base_inv p → ids_left p s (size (waiting_at (future p) s)) →
  ∃ p' status, prune_tags p tags s = Ret (p', status) ∧ base_inv p' ∧
    FutureInv.only_shard s (future p) (future p') ∧ ReadyInv.only_shard s (ready p) (ready p') ∧
    prune_post p tags s p' status.
Proof.
  intros Hp [Hpos Hid]. unfold prune_tags. pose proof Hp as [_ Hlen Hidx].
  destruct (recently_pruned p !! recently_pruned_index p) as [X|] eqn:HX.
  2:{ apply lookup_ge_None in HX. lia. }
  cbn [unwrap mbind outcome_bind].
  destruct (for_each_total (prune_one s) (prune_good p s) tags (MkPruneAcc (future p) (ready p) [] [] ∅))
    as (acc & -> & [Hinv Hst Hof Hor Hids Hsize Htags Hacc Hgone Hwait]).
  { by apply prune_good_init. }
  { intros pre tag post acc' _ Hg. by apply prune_one_spec. }
  cbn [mbind outcome_bind]. set (p1 := MkBasePool _ _ _ _ _).
  assert (base_inv p1) as Hp1.
  { split; [done|unfold p1; cbn [recently_pruned]; by rewrite length_insert|].
    apply Nat.mod_upper_bound. unfold RECENTLY_PRUNED_TAGS. lia. }
  destruct (promote_all_spec p1 s (pa_import acc) p1 [] [])
    as (p' & pr & fl & -> & [Hinv' Hse Hst' _ Hsub Hshr]).
  { split; [done|apply same_elsewhere_refl|done| |apply union_subseteq_l|apply future_shrinks_refl].
    unfold ids_left, ReadyInv.id_at in *. simpl. rewrite Hids. simpl in *. lia. }
  cbn [mbind outcome_bind]. eexists _, _. split; [done|].
  destruct Hse as [Hof' Hor' _ Hrp Hri]. split_and!.
  - done.
  - by eapply FutureInv.future_only_shard_trans.
  - by eapply ReadyInv.ready_only_shard_trans.
  - split; simpl.
    + by rewrite Hrp, <-Htags.
    + done.
    + rewrite <-Hacc. apply union_subseteq. split; [|apply union_subseteq_r].
      etrans; [exact Hsub|]. apply union_subseteq_l.
    + intros h Hin Hk%Hsub. destruct (Hgone h Hin) as (Hn1 & Hn2 & Hn3).
      apply elem_of_union in Hk as [Hk|Hk]; [|done].
      by apply (proj2 (not_known p1 h s) (conj Hn1 Hn2)).
    + intros h w t Hw Hin Hm. destruct (Hshr h w Hw) as (w1 & Hw1 & _ & Hms). apply Hms in Hm.
      simpl in Hw1. rewrite (FutureInv.sat_pool _ _ _ _ Hwait) in Hw1.
      destruct (waiting_at (future p) s !! h) as [w0|]; [|done]. simpl in Hw1.
      unfold FutureInv.still_waiting in Hw1. case_decide; [done|]. injection Hw1 as <-. simpl in Hm.
      apply elem_of_difference in Hm as [_ Hm]. apply Hm. by apply elem_of_list_to_set.
Qed.
End base_prune.
End BasePrune.
