(* ===== verification/Rotator.v ===== *)
(** The pool rotator (core-primitives/top-pool/src/rotator.rs): temporary bans of
    operation hashes.  Instants are seconds on the monotonic clock. *)

From stdpp Require Import base gmap fin_maps sets numbers list.
From S2P Require Import Prelude Collections PoolTypes.

Module Rotate.

(** Expected size of the cache of bans. *)
Definition EXPECTED_SIZE : nat := 2048.

Record PoolRotator := MkRotator { ban_time : Z; banned_until : gmap TxHash Z }.

Definition default_rotator : PoolRotator := MkRotator (60 * 30) ∅.

Section rotator.
Context `{Ord : IterOrder}.
Implicit Types (r : PoolRotator) (now : Z).

Definition is_banned r (hash : TxHash) : bool := bool_decide (is_Some (banned_until r !! hash)).

(** The loop that drops the bans that come first in the map. *)
Definition evict_step (m : gmap TxHash Z) : outcome (gmap TxHash Z + gmap TxHash Z) :=
  if EXPECTED_SIZE <? size m then
    match map_keys m with
    | key :: _ => Ret (inl (delete key m))
    | [] => Ret (inl m)
    end
  else Ret (inr m).

Definition ban r now (hashes : list TxHash) : outcome PoolRotator :=
  let banned := foldl (λ m h, <[h := (now + ban_time r)%Z]> m) (banned_until r) hashes in
  if 2 * EXPECTED_SIZE <? size banned then
    loop (S (size banned)) evict_step banned ≫= λ m, Ret (MkRotator (ban_time r) m)
  else Ret (MkRotator (ban_time r) banned).

Definition ban_if_stale {Ex} r now (current_block : Z) (xt : TrustedOperation Ex) :
    outcome (PoolRotator * bool) :=
  if (current_block <? valid_till xt)%Z then Ret (r, false)
  else ban r now [op_hash xt] ≫= λ r', Ret (r', true).

Definition clear_timeouts r now : PoolRotator :=
  MkRotator (ban_time r) (filter (λ e, now ≤ e.2)%Z (banned_until r)).

(** *** Properties *)

Definition rotator_inv r : Prop := size (banned_until r) ≤ 2 * EXPECTED_SIZE.

(** The bans after some hashes are banned until an instant.  Beyond twice the expected
    size all but [EXPECTED_SIZE] of them are dropped; which ones depends on the order of
    the hash map and is left open. *)
Definition rebanned (until : Z) (hashes : gset TxHash) (m m' : gmap TxHash Z) : Prop :=
  let all := gset_to_gmap until hashes ∪ m in
  if decide (size all ≤ 2 * EXPECTED_SIZE) then m' = all else m' ⊆ all ∧ size m' = EXPECTED_SIZE.

(** The same for the rotator: its clock reads [now]. *)
Definition rebans r now (hashes : gset TxHash) r' : Prop :=
  ban_time r' = ban_time r ∧ rebanned (now + ban_time r) hashes (banned_until r) (banned_until r').

Lemma evict_spec m :
  EXPECTED_SIZE ≤ size m →
  ∃ m', loop (S (size m)) evict_step m = Ret m' ∧ m' ⊆ m ∧ size m' = EXPECTED_SIZE.
Proof.
  intros Hsize. apply (loop_total evict_step (λ m', m' ⊆ m ∧ EXPECTED_SIZE ≤ size m') size); [|done|lia].
  intros m1 [Hsub Hge1]. unfold evict_step.
  destruct (Nat.ltb_spec EXPECTED_SIZE (size m1)) as [Hlt|Hge]; [left|right; eexists; split; [done|]; split; [done|lia]].
  destruct (map_keys m1) as [|key ks] eqn:Hk.
  - assert (length (map_keys m1) = size m1) as Hlen.
    { unfold map_keys. by rewrite iter_order_perm, length_fmap, length_map_to_list. }
    rewrite Hk in Hlen. simpl in Hlen. unfold EXPECTED_SIZE in Hlt. lia.
  - assert (is_Some (m1 !! key)) as [v Hv].
    { assert (key ∈ map_keys m1) as Hin by (rewrite Hk; left). unfold map_keys in Hin.
      rewrite iter_order_perm in Hin. apply list_elem_of_fmap in Hin as ([k v] & -> & Hin).
      exists v. by apply elem_of_map_to_list. }
    eexists. split; [done|]. rewrite map_size_delete_Some by eauto.
    split; [split; [etrans; [apply delete_subseteq|done]|lia]|]. unfold EXPECTED_SIZE in Hlt. lia.
Qed.

Lemma ban_insert_lookup (t : Z) (hs : list TxHash) (m : gmap TxHash Z) h :
  foldl (λ m h, <[h := t]> m) m hs !! h = if decide (h ∈ hs) then Some t else m !! h.
Proof.
  revert m. induction hs as [|h0 hs IH]; intros m; simpl; [done|]. rewrite IH.
  destruct (decide (h ∈ hs)); [by rewrite decide_True by (by right)|].
  destruct (decide (h = h0)) as [->|Hne].
  - by rewrite lookup_insert_eq, decide_True by left.
  - rewrite lookup_insert_ne, decide_False by set_solver. done.
Qed.

(** What a ban does: nothing but the listed hashes is added, the ban lasts
    [ban_time], and unless the cache overflows nothing is forgotten. *)
Record bans r now (hashes : list TxHash) r' : Prop := {
  bn_time : ban_time r' = ban_time r;
  bn_new : ∀ h t, banned_until r' !! h = Some t →
    (h ∈ hashes ∧ t = now + ban_time r)%Z ∨ banned_until r !! h = Some t;
  bn_kept : size (banned_until r) + length hashes ≤ 2 * EXPECTED_SIZE → ∀ h,
    banned_until r' !! h =
      if decide (h ∈ hashes) then Some (now + ban_time r)%Z else banned_until r !! h;
  bn_exact : rebanned (now + ban_time r) (list_to_set hashes) (banned_until r) (banned_until r');
}.

Lemma ban_insert_union (t : Z) (hs : list TxHash) (m : gmap TxHash Z) :
  foldl (λ m h, <[h := t]> m) m hs = gset_to_gmap t (list_to_set hs) ∪ m.
Proof.
  apply map_eq. intros h. rewrite ban_insert_lookup, lookup_union, lookup_gset_to_gmap. case_decide as Hin.
  - rewrite option_guard_True by (by apply elem_of_list_to_set). by destruct (m !! h).
  - rewrite option_guard_False by (by rewrite elem_of_list_to_set). by destruct (m !! h).
Qed.

(** Nothing is banned. *)
Lemma rebanned_none (t : Z) (m : gmap TxHash Z) : size m ≤ 2 * EXPECTED_SIZE → rebanned t ∅ m m.
Proof. intros Hs. unfold rebanned. rewrite gset_to_gmap_empty, map_empty_union. by rewrite decide_True. Qed.

Lemma bans_rebans r now hashes r' : bans r now hashes r' → rebans r now (list_to_set hashes) r'.
Proof. intros [Ht _ _ He]. by split. Qed.

Lemma ban_insert_size (t : Z) (hs : list TxHash) (m : gmap TxHash Z) :
  size (foldl (λ m h, <[h := t]> m) m hs) ≤ size m + length hs.
Proof.
  revert m. induction hs as [|h hs IH]; intros m; simpl; [lia|].
  etrans; [apply IH|]. destruct (m !! h) eqn:Hm.
  - rewrite map_size_insert_Some by eauto. lia.
  - rewrite map_size_insert_None by done. lia.
Qed.

Lemma rotator_ban_spec r now hashes : ∃ r', ban r now hashes = Ret r' ∧ rotator_inv r' ∧ bans r now hashes r'.
Proof.
  unfold ban. set (m := foldl _ _ hashes).
  assert (∀ h, m !! h = if decide (h ∈ hashes) then Some (now + ban_time r)%Z else banned_until r !! h)
    as Hm by (intros h; apply ban_insert_lookup).
  assert (size m ≤ size (banned_until r) + length hashes) as Hsize by apply ban_insert_size.
  destruct (Nat.ltb_spec (2 * EXPECTED_SIZE) (size m)) as [Hlt|Hge].
  - destruct (evict_spec m) as (m' & -> & Hsub & Hle); [lia|]. eexists. split; [done|].
    split; [unfold rotator_inv; cbn [banned_until]; lia|]. split; cbn [banned_until ban_time]; [done| |lia|].
    2: { unfold rebanned. rewrite <-ban_insert_union. fold m. by rewrite decide_False by lia. }
    intros h t Ht. eapply lookup_weaken in Ht; [|exact Hsub]. rewrite Hm in Ht.
    case_decide; [left; by injection Ht as <-|by right].
  - eexists. split; [done|]. split; [done|]. split; cbn [banned_until ban_time]; [done| |done|].
    2: { unfold rebanned. rewrite <-ban_insert_union. fold m. by rewrite decide_True by lia. }
    intros h t Ht. rewrite Hm in Ht. case_decide; [left; by injection Ht as <-|by right].
Qed.

Lemma ban_if_stale_spec {Ex} r now block (xt : TrustedOperation Ex) :
  rotator_inv r →
  ∃ r', ban_if_stale r now block xt = Ret (r', bool_decide (valid_till xt ≤ block)%Z) ∧ rotator_inv r' ∧
    bans r now (if decide (valid_till xt ≤ block)%Z then [op_hash xt] else []) r'.
Proof.
  intros Hr. unfold ban_if_stale. destruct (Z.ltb_spec block (valid_till xt)) as [Hlt|Hge].
  - exists r. rewrite bool_decide_eq_false_2, decide_False by lia. split_and!; [done..|].
    split; [done|by right| |by apply rebanned_none]. intros _ h. by rewrite decide_False by set_solver.
  - destruct (rotator_ban_spec r now [op_hash xt]) as (r' & -> & Hr' & Hb).
    exists r'. by rewrite bool_decide_eq_true_2, decide_True by done.
Qed.

Lemma clear_timeouts_inv r now : rotator_inv r → rotator_inv (clear_timeouts r now).
Proof.
  unfold rotator_inv, clear_timeouts. cbn [banned_until]. intros Hr. etrans; [|exact Hr].
  apply map_subseteq_size, map_filter_subseteq.
Qed.

(** A ban outlasts [clear_timeouts] exactly while its time is not over. *)
Lemma clear_timeouts_spec r now h :
  is_banned (clear_timeouts r now) h =
  match banned_until r !! h with Some t => (now <=? t)%Z | None => false end.
Proof.
  unfold is_banned, clear_timeouts. simpl. rewrite map_lookup_filter.
  destruct (banned_until r !! h) as [t|]; simpl; [|done].
  destruct (Z.leb_spec now t) as [Hle|Hgt].
  - apply bool_decide_eq_true. rewrite option_guard_True by done. eauto.
  - apply bool_decide_eq_false. rewrite option_guard_False by lia. intros [? ?]. done.
Qed.
End rotator.
End Rotate.
