(* ===== verification/Listener.v ===== *)
(** Watchers and the listener that drives them
    (core-primitives/top-pool/src/watcher.rs and listener.rs).  The events handed
    to the RPC responder are kept in order in [sent]; the responder's errors are
    only logged by the code.  [LinkedHashMap] is an association list in
    insertion order. *)

From stdpp Require Import base gmap fin_maps sets numbers strings list.
From S2P Require Import Prelude Collections PoolTypes.

Module Listen.

(** [watcher::Watcher]; the responder it points to is the one of the listener. *)
Record Watcher := MkWatcher { w_hash : TxHash; is_in_block : bool }.

Definition new_watcher (hash : TxHash) : Watcher := MkWatcher hash false.

(** A method of [Watcher]: the event it sends and the watcher it leaves. *)
Definition action : Type := Watcher → TrustedOperationStatus * Watcher.

Definition keep (st : TrustedOperationStatus) : action := λ w, (st, w).
Definition finish (st : TrustedOperationStatus) : action := λ w, (st, MkWatcher (w_hash w) true).

Definition w_ready : action := keep StReady.
Definition w_future : action := keep StFuture.
Definition w_usurped : action := finish StUsurped.
Definition w_in_block (block : BlockHash) : action := finish (StInSidechainBlock block).
Definition w_finalized : action := finish StFinalized.
Definition w_finality_timeout : action := finish StFinalityTimeout.
Definition w_retracted : action := keep StRetracted.
Definition w_invalid : action := finish StInvalid.
Definition w_dropped : action := finish StDropped.
Definition w_broadcast (peers : list string) : action := keep StBroadcast.

Definition is_done (w : Watcher) : bool := is_in_block w.

Record Listener := MkListener {
  watchers : gmap TxHash Watcher;
  finality_watchers : list (BlockHash * list TxHash);
  sent : list (TxHash * TrustedOperationStatus);
}.

Definition new : Listener := MkListener ∅ [] [].

Definition MAX_FINALITY_WATCHERS : nat := 512.

Definition fire (l : Listener) (hash : TxHash) (fn : action) : Listener :=
  match watchers l !! hash with
  | Some w =>
      let '(st, w') := fn w in
      MkListener
        (if is_done w' then delete hash (watchers l) else <[hash := w']> (watchers l))
        (finality_watchers l) (sent l ++ [(w_hash w, st)])
  | None => l
  end.

Definition create_watcher (l : Listener) (hash : TxHash) : Listener :=
  MkListener (<[hash := new_watcher hash]> (watchers l)) (finality_watchers l) (sent l).

Definition broadcasted (l : Listener) (hash : TxHash) (peers : list string) : Listener :=
  fire l hash (w_broadcast peers).

Definition ready (l : Listener) (tx : TxHash) (old : option TxHash) : Listener :=
  let l := fire l tx w_ready in
  match old with Some old => fire l old w_usurped | None => l end.

Definition future (l : Listener) (tx : TxHash) : Listener := fire l tx w_future.

Definition dropped (l : Listener) (tx : TxHash) (by_hash : option TxHash) : Listener :=
  fire l tx (match by_hash with Some _ => w_usurped | None => w_dropped end).

Definition invalid (l : Listener) (tx : TxHash) : Listener := fire l tx w_invalid.

(** [entry(block_hash).or_insert(vec![]).push(tx)] of a [LinkedHashMap]: a new
    key goes to the back. *)
Fixpoint push_entry (m : list (BlockHash * list TxHash)) (block : BlockHash) (tx : TxHash) :
    list (BlockHash * list TxHash) :=
  match m with
  | [] => [(block, [tx])]
  | (b, txs) :: m' =>
      if decide (b = block) then (b, txs ++ [tx]) :: m' else (b, txs) :: push_entry m' block tx
  end.

Definition set_finality (l : Listener) (m : list (BlockHash * list TxHash)) : Listener :=
  MkListener (watchers l) m (sent l).

(** The loop of [pruned] over the oldest blocks. *)
Definition timeout_step (l : Listener) : outcome (Listener + Listener) :=
  if MAX_FINALITY_WATCHERS <? length (finality_watchers l) then
    match finality_watchers l with
    | (_, txs) :: m =>
        Ret (inl (foldl (λ l tx, fire l tx w_finality_timeout) (set_finality l m) txs))
    | [] => Ret (inl l)
    end
  else Ret (inr l).

Definition pruned (l : Listener) (block : BlockHash) (tx : TxHash) : outcome Listener :=
  let l := fire l tx (w_in_block block) in
  let l := set_finality l (push_entry (finality_watchers l) block tx) in
  loop (S (length (finality_watchers l))) timeout_step l.

Definition in_block (l : Listener) (tx : TxHash) (block : BlockHash) : Listener :=
  fire l tx (w_in_block block).

(** [LinkedHashMap::remove]. *)
Definition take_entry (m : list (BlockHash * list TxHash)) (block : BlockHash) :
    option (list TxHash) * list (BlockHash * list TxHash) :=
  (snd <$> head (filter (λ e, e.1 = block) m), filter (λ e, e.1 ≠ block) m).

Definition retracted (l : Listener) (block : BlockHash) : Listener :=
  match take_entry (finality_watchers l) block with
  | (Some hashes, m) => foldl (λ l h, fire l h w_retracted) (set_finality l m) hashes
  | (None, _) => l
  end.

Definition finalized (l : Listener) (block : BlockHash) : Listener :=
  match take_entry (finality_watchers l) block with
  | (Some hashes, m) => foldl (λ l h, fire l h w_finalized) (set_finality l m) hashes
  | (None, _) => l
  end.

(** *** Properties *)

(** An event after which the code sends nothing more for the operation. *)
Definition terminal (st : TrustedOperationStatus) : bool :=
  match st with
  | StSubmitted | StFuture | StReady | StBroadcast | StRetracted => false
  | _ => true
  end.

(** The watchers are live, know their hash, blocks are listed once. *)
Record listener_inv (l : Listener) : Prop := {
  li_hash : ∀ h w, watchers l !! h = Some w → w_hash w = h;
  li_live : ∀ h w, watchers l !! h = Some w → is_in_block w = false;
  li_blocks : NoDup (finality_watchers l).*1;
  li_bound : length (finality_watchers l) ≤ MAX_FINALITY_WATCHERS;
}.

(** The methods of a watcher are of two kinds. *)
Definition proper (fn : action) : Prop :=
  ∃ st, fn = (if terminal st then finish st else keep st).

Lemma proper_ready : proper w_ready. Proof. by exists StReady. Qed.
Lemma proper_future : proper w_future. Proof. by exists StFuture. Qed.
Lemma proper_usurped : proper w_usurped. Proof. by exists StUsurped. Qed.
Lemma proper_in_block b : proper (w_in_block b). Proof. by exists (StInSidechainBlock b). Qed.
Lemma proper_finalized : proper w_finalized. Proof. by exists StFinalized. Qed.
Lemma proper_timeout : proper w_finality_timeout. Proof. by exists StFinalityTimeout. Qed.
Lemma proper_retracted : proper w_retracted. Proof. by exists StRetracted. Qed.
Lemma proper_invalid : proper w_invalid. Proof. by exists StInvalid. Qed.
Lemma proper_dropped : proper w_dropped. Proof. by exists StDropped. Qed.
Lemma proper_broadcast p : proper (w_broadcast p). Proof. by exists StBroadcast. Qed.

#[export] Hint Resolve proper_ready proper_future proper_usurped proper_in_block proper_finalized
  proper_timeout proper_retracted proper_invalid proper_dropped proper_broadcast : worker.

(** What a watched hash gets from [fire], and what its watcher becomes. *)
Definition fires (l : Listener) (hash : TxHash) (st : TrustedOperationStatus) (l' : Listener) : Prop :=
  finality_watchers l' = finality_watchers l ∧
  (∀ h, h ≠ hash → watchers l' !! h = watchers l !! h) ∧
  match watchers l !! hash with
  | Some w => sent l' = sent l ++ [(hash, st)] ∧
      watchers l' !! hash = (if terminal st then None else Some w)
  | None => l' = l
  end.

Lemma fire_spec l hash st :
  (∀ h w, watchers l !! h = Some w → w_hash w = h ∧ is_in_block w = false) →
  fires l hash st (fire l hash (if terminal st then finish st else keep st)).
Proof.
  intros Hinv. unfold fires, fire. destruct (watchers l !! hash) as [w|] eqn:Hw; [|done].
  destruct (Hinv hash w Hw) as [Hh Hb]. destruct (terminal st); simpl.
  - rewrite Hh. split_and!; [done| |done|by rewrite lookup_delete_eq].
    intros h Hne. by rewrite lookup_delete_ne.
  - unfold is_done. rewrite Hb, Hh. simpl. split_and!; [done| |done|by rewrite lookup_insert_eq].
    intros h Hne. by rewrite lookup_insert_ne.
Qed.

(** The part of the invariant that [fire] needs. *)
Definition live (l : Listener) : Prop :=
  ∀ h w, watchers l !! h = Some w → w_hash w = h ∧ is_in_block w = false.

Lemma fire_live l hash fn : live l → proper fn → live (fire l hash fn).
Proof.
  intros Hl [st ->] h w. pose proof (fire_spec l hash st Hl) as (_ & Ho & Hs).
  destruct (decide (h = hash)) as [->|Hne]; [|rewrite (Ho h Hne); apply Hl].
  destruct (watchers l !! hash) as [w0|] eqn:Hw0.
  - destruct Hs as [_ ->]. destruct (terminal st); [done|]. intros [= <-]. by apply Hl.
  - rewrite Hs, Hw0. done.
Qed.

Lemma fire_finality l hash fn : finality_watchers (fire l hash fn) = finality_watchers l.
Proof. unfold fire. destruct (watchers l !! hash) as [w|]; [|done]. by destruct (fn w). Qed.

Lemma fire_all_live l (hs : list TxHash) fn :
  live l → proper fn →
  live (foldl (λ l h, fire l h fn) l hs) ∧
  finality_watchers (foldl (λ l h, fire l h fn) l hs) = finality_watchers l.
Proof.
  intros Hl Hp. revert l Hl. induction hs as [|h hs IH]; intros l Hl; simpl; [done|].
  destruct (IH (fire l h fn) (fire_live l h fn Hl Hp)) as [? ->]. by rewrite fire_finality.
Qed.

Lemma listener_inv_live l : listener_inv l → live l.
Proof. intros [Hh Hl _ _] h w Hw. split; [by apply Hh|by eapply Hl]. Qed.

Lemma live_inv l : live l → NoDup (finality_watchers l).*1 →
  length (finality_watchers l) ≤ MAX_FINALITY_WATCHERS → listener_inv l.
Proof. intros Hl Hnd Hb. split; [intros h w Hw; apply (Hl h w Hw)..|done|done]. Qed.

Lemma listener_inv_new : listener_inv new.
Proof. split; simpl; [done..|constructor|unfold MAX_FINALITY_WATCHERS; lia]. Qed.

Lemma fire_inv l hash fn : listener_inv l → proper fn → listener_inv (fire l hash fn).
Proof.
  intros Hi Hp. apply live_inv; [apply fire_live; [by apply listener_inv_live|done]|..];
    rewrite fire_finality; apply Hi.
Qed.

Lemma create_watcher_inv l hash : listener_inv l → listener_inv (create_watcher l hash).
Proof.
  intros [Hh Hl Hnd Hb]. split; simpl; [..|done|done].
  - intros h w. rewrite lookup_insert_Some. intros [[<- <-]|[_ ?]]; [done|by apply Hh].
  - intros h w. rewrite lookup_insert_Some. intros [[<- <-]|[_ ?]]; [done|by eapply Hl].
Qed.

(** *** The finality queue *)

Lemma push_entry_keys m block tx :
  (push_entry m block tx).*1 = (if decide (block ∈ m.*1) then m.*1 else m.*1 ++ [block]).
Proof.
  induction m as [|[b txs] m IH]; [done|]. cbn [push_entry].
  destruct (decide (b = block)) as [->|Hne].
  - rewrite decide_True by (cbn; left). done.
  - rewrite !fmap_cons, IH. simpl fst.
    destruct (decide (block ∈ m.*1)); destruct (decide (block ∈ b :: m.*1)); set_solver.
Qed.

Lemma push_entry_nodup m block tx : NoDup m.*1 → NoDup (push_entry m block tx).*1.
Proof.
  intros Hnd. rewrite push_entry_keys. case_decide; [done|].
  apply NoDup_app. split_and!; [done|set_solver|apply NoDup_singleton].
Qed.

Lemma push_entry_length m block tx : length (push_entry m block tx) ≤ S (length m).
Proof.
  induction m as [|[b txs] m IH]; simpl; [lia|]. case_decide; simpl; lia.
Qed.

Lemma timeout_loop_spec l :
  live l → NoDup (finality_watchers l).*1 →
  ∃ l', loop (S (length (finality_watchers l))) timeout_step l = Ret l' ∧ listener_inv l'.
Proof.
  intros Hl Hnd. apply (loop_total timeout_step (λ l, live l ∧ NoDup (finality_watchers l).*1)
    (λ l, length (finality_watchers l))); [|done|lia].
  intros l1 [Hl1 Hnd1]. unfold timeout_step.
  destruct (Nat.ltb_spec MAX_FINALITY_WATCHERS (length (finality_watchers l1))) as [Hlt|Hge].
  - left. destruct (finality_watchers l1) as [|[b txs] m] eqn:Hm; [simpl in Hlt; lia|].
    eexists. split; [done|].
    destruct (fire_all_live (set_finality l1 m) txs w_finality_timeout) as [Hl2 Hf2]; [done|auto with worker|].
    rewrite Hf2. simpl in *. apply NoDup_cons in Hnd1 as [_ ?]. split_and!; [done|done|lia].
  - right. eexists. split; [done|]. by apply live_inv.
Qed.

(** [pruned] ends and keeps at most [MAX_FINALITY_WATCHERS] blocks. *)
Lemma pruned_spec l block tx : listener_inv l → ∃ l', pruned l block tx = Ret l' ∧ listener_inv l'.
Proof.
  intros Hi. unfold pruned. apply timeout_loop_spec.
  - intros h w Hw. simpl in Hw.
    by apply (fire_live l tx (w_in_block block) (listener_inv_live l Hi) (proper_in_block block)).
  - simpl. rewrite fire_finality. apply push_entry_nodup, Hi.
Qed.

Lemma settle_inv l block hs fn :
  listener_inv l → proper fn →
  listener_inv (foldl (λ l h, fire l h fn)
    (set_finality l (filter (λ e, e.1 ≠ block) (finality_watchers l))) hs).
Proof.
  intros Hi Hp. pose proof Hi as [_ _ Hnd Hb].
  destruct (fire_all_live (set_finality l (filter (λ e, e.1 ≠ block) (finality_watchers l))) hs fn)
    as [Hl Hf]; [by apply listener_inv_live in Hi|done|].
  apply live_inv; [done|..]; rewrite Hf; simpl.
  - eapply sublist_NoDup; [exact Hnd|apply fmap_sublist, sublist_filter].
  - etrans; [apply length_filter|done].
Qed.

Lemma retracted_inv l block : listener_inv l → listener_inv (retracted l block).
Proof.
  intros Hi. unfold retracted, take_entry. destruct (head _) as [[b hs]|]; simpl; [|done].
  apply settle_inv; auto with worker.
Qed.

Lemma finalized_inv l block : listener_inv l → listener_inv (finalized l block).
Proof.
  intros Hi. unfold finalized, take_entry. destruct (head _) as [[b hs]|]; simpl; [|done].
  apply settle_inv; auto with worker.
Qed.

(** *** Histories of the listener *)

Inductive listener_op :=
| OpCreate (h : TxHash)
| OpBroadcasted (h : TxHash) (peers : list string)
| OpReady (h : TxHash) (old : option TxHash)
| OpFuture (h : TxHash)
| OpDropped (h : TxHash) (by_hash : option TxHash)
| OpInvalid (h : TxHash)
| OpPruned (block : BlockHash) (h : TxHash)
| OpInBlock (h : TxHash) (block : BlockHash)
| OpRetracted (block : BlockHash)
| OpFinalized (block : BlockHash).

Definition run_op (l : Listener) (op : listener_op) : outcome Listener :=
  match op with
  | OpCreate h => Ret (create_watcher l h)
  | OpBroadcasted h peers => Ret (broadcasted l h peers)
  | OpReady h old => Ret (ready l h old)
  | OpFuture h => Ret (future l h)
  | OpDropped h b => Ret (dropped l h b)
  | OpInvalid h => Ret (invalid l h)
  | OpPruned b h => pruned l b h
  | OpInBlock h b => Ret (in_block l h b)
  | OpRetracted b => Ret (retracted l b)
  | OpFinalized b => Ret (finalized l b)
  end.

(** The events the owner of [h] received. *)
Definition events (l : Listener) (h : TxHash) : list TrustedOperationStatus :=
  (filter (λ e, e.1 = h) (sent l)).*2.

(** A property of what [h] sees that every [fire] keeps is kept by every
    operation but the creation of a watcher. *)
Section fire_induction.
Variable P : Listener → Prop.
Hypothesis P_finality : ∀ l m, P l → P (set_finality l m).
Hypothesis P_live : ∀ l hash fn, live l → P l → proper fn → P (fire l hash fn).

Lemma fire_all_keeps l hs fn :
  live l → proper fn → P l → P (foldl (λ l h, fire l h fn) l hs).
Proof.
  intros Hl Hp. revert l Hl. induction hs as [|h hs IH]; intros l Hl HP; simpl; [done|].
  apply IH; [by apply fire_live|by apply P_live].
Qed.

Lemma pruned_keeps l b h l' : listener_inv l → P l → pruned l b h = Ret l' → P l'.
Proof.
  intros Hi HP Hrun. unfold pruned in Hrun. set (l1 := set_finality _ _) in Hrun.
  assert (live l1 ∧ P l1) as [Hl1 HP1].
  { split; [intros h' w Hw; by apply (fire_live l h (w_in_block b) (listener_inv_live l Hi) (proper_in_block b))|].
    apply P_finality, P_live; [by apply listener_inv_live|done|auto with worker]. }
  destruct (loop_total timeout_step (λ l, live l ∧ P l) (λ l, length (finality_watchers l)) P)
    with (fuel := S (length (finality_watchers l1))) (s := l1) as (r & Hr & HPr); [|done|lia|].
  2:{ rewrite Hr in Hrun. by injection Hrun as <-. }
  intros l2 [Hl2 HP2]. unfold timeout_step.
  destruct (Nat.ltb_spec MAX_FINALITY_WATCHERS (length (finality_watchers l2))) as [Hlt|Hge]; [left|right; eauto].
  destruct (finality_watchers l2) as [|[b' txs] m] eqn:Hm; [simpl in Hlt; lia|].
  eexists. split; [done|].
  destruct (fire_all_live (set_finality l2 m) txs w_finality_timeout) as [Hl3 Hf3]; [done|auto with worker|].
  split; [split; [done|]|rewrite Hf3; simpl; lia].
  apply fire_all_keeps; [done|auto with worker|by apply P_finality].
Qed.

Lemma settle_keeps l block (st : action) :
  listener_inv l → proper st → P l →
  P match take_entry (finality_watchers l) block with
    | (Some hashes, m) => foldl (λ l h, fire l h st) (set_finality l m) hashes
    | (None, _) => l
    end.
Proof.
  intros Hi Hp HP. unfold take_entry. destruct (head _) as [[b hs]|]; simpl; [|done].
  apply fire_all_keeps; [by apply listener_inv_live in Hi|done|by apply P_finality].
Qed.

Lemma run_op_keeps l op l' :
  listener_inv l → P l → (∀ h, op ≠ OpCreate h) → run_op l op = Ret l' → P l'.
Proof.
  intros Hi HP Hne Hrun.
  assert (∀ l hash fn, listener_inv l → P l → proper fn → P (fire l hash fn)) as Hfire.
  { intros l1 hash fn Hi1. by apply P_live, listener_inv_live. }
  destruct op as [h|h ps|h o|h|h o|h|b h|h b|b|b]; cbn [run_op] in Hrun;
    [by edestruct Hne| | | | | |by eapply pruned_keeps| | |]; injection Hrun as <-.
  - apply Hfire; auto with worker.
  - unfold ready. destruct o; auto 6 using fire_inv with worker.
  - apply Hfire; auto with worker.
  - unfold dropped. destruct o; auto with worker.
  - apply Hfire; auto with worker.
  - apply Hfire; auto with worker.
  - apply settle_keeps; auto with worker.
  - apply settle_keeps; auto with worker.
Qed.
End fire_induction.

Lemma run_op_inv l op : listener_inv l → ∃ l', run_op l op = Ret l' ∧ listener_inv l'.
Proof.
  intros Hi. destruct op as [h|h ps|h o|h|h o|h|b h|h b|b|b]; cbn [run_op];
    try (eexists; split; [done|]; apply fire_inv; auto with worker; fail).
  - eexists. split; [done|]. by apply create_watcher_inv.
  - eexists. split; [done|]. unfold ready. destruct o; auto 6 using fire_inv with worker.
  - eexists. split; [done|]. unfold dropped. destruct o; auto using fire_inv with worker.
  - by apply pruned_spec.
  - eexists. split; [done|]. by apply retracted_inv.
  - eexists. split; [done|]. by apply finalized_inv.
Qed.

(** The events of [h] since some point: either it is still watched and none was
    terminal, or the last one was. *)
Definition session (h : TxHash) (old : list TrustedOperationStatus) (l : Listener) : Prop :=
  ∃ new, events l h = old ++ new ∧
    ((is_Some (watchers l !! h) ∧ Forall (λ st, terminal st = false) new) ∨
     (watchers l !! h = None ∧ ∃ pre st, new = pre ++ [st] ∧ Forall (λ st, terminal st = false) pre ∧
        terminal st = true)).

Lemma events_snoc l h h' st m w :
  events (MkListener w m (sent l ++ [(h', st)])) h =
  if decide (h' = h) then events l h ++ [st] else events l h.
Proof.
  unfold events. simpl. rewrite filter_app, filter_cons, filter_nil. simpl.
  case_decide; simpl; [by rewrite fmap_app|by rewrite app_nil_r].
Qed.

Lemma session_live l hash fn h old :
  live l → session h old l → proper fn → session h old (fire l hash fn).
Proof.
  intros Hl (new & He & Hcase) [st ->]. unfold fire. destruct (watchers l !! hash) as [w|] eqn:Hw.
  2:{ exists new. done. }
  destruct (Hl hash w Hw) as [Hh Hb]. destruct (decide (hash = h)) as [->|Hne].
  - destruct Hcase as [[_ Hall]|[Hn _]]; [|congruence]. exists (new ++ [st]).
    destruct (terminal st) eqn:Ht; unfold is_done; simpl; rewrite ?Hb; rewrite events_snoc, Hh, decide_True by done; rewrite He.
    + split; [by rewrite app_assoc|]. right. split; [by rewrite lookup_delete_eq|]. by exists new, st.
    + split; [by rewrite app_assoc|]. left. split; [by rewrite lookup_insert_eq|].
      apply Forall_app. split; [done|]. by apply Forall_singleton.
  - exists new. destruct (terminal st) eqn:Ht; unfold is_done; simpl; rewrite ?Hb;
      rewrite events_snoc, Hh, decide_False by done; (split; [done|]).
    + rewrite lookup_delete_ne by done. done.
    + rewrite lookup_insert_ne by done. done.
Qed.

(** Nothing reaches an operation that is not watched. *)
Definition silent (h : TxHash) (old : list TrustedOperationStatus) (l : Listener) : Prop :=
  watchers l !! h = None ∧ events l h = old.

Lemma silent_live l hash fn h old :
  live l → silent h old l → proper fn → silent h old (fire l hash fn).
Proof.
  intros Hl [Hn He] [st ->]. unfold fire. destruct (watchers l !! hash) as [w|] eqn:Hw; [|done].
  destruct (Hl hash w Hw) as [Hh Hb]. assert (hash ≠ h) as Hne by (intros ->; congruence).
  split; destruct (terminal st); unfold is_done; simpl; rewrite ?Hb; simpl; rewrite ?events_snoc, ?Hh, ?decide_False by done; try done.
  - by rewrite lookup_delete_ne.
  - by rewrite lookup_insert_ne.
Qed.

Lemma session_run h old l ops :
  listener_inv l → session h old l → OpCreate h ∉ ops →
  ∃ l', for_each run_op l ops = Ret l' ∧ listener_inv l' ∧ session h old l'.
Proof.
  intros Hi Hs Hno.
  destruct (for_each_inv run_op (λ l, listener_inv l ∧ session h old l) ops l) as (l' & ? & ? & ?); [done| |by eauto].
  intros op l1 Hin [Hi1 Hs1]. destruct (run_op_inv l1 op Hi1) as (l2 & Heq & Hi2). exists l2. split; [done|].
  split; [done|].
  assert ((∀ h', op ≠ OpCreate h') → session h old l2) as Hkeep.
  { intros Hne. eapply run_op_keeps with (l := l1); [| |exact Hi1|exact Hs1|exact Hne|exact Heq];
      [intros ? ? Hx; exact Hx|intros; by apply session_live]. }
  destruct op as [h'| | | | | | | | |]; [|by apply Hkeep..]. clear Hkeep.
  simpl in Heq. injection Heq as <-. assert (h' ≠ h) as Hne by (intros ->; done).
  destruct Hs1 as (new & He & Hcase). exists new. split; [done|]. simpl. by rewrite lookup_insert_ne.
Qed.

Lemma silent_run h old l op :
  listener_inv l → silent h old l → (∀ h, op ≠ OpCreate h) →
  ∃ l', run_op l op = Ret l' ∧ silent h old l'.
Proof.
  intros Hi Hs Hne. destruct (run_op_inv l op Hi) as (l' & Heq & _). exists l'. split; [done|].
  eapply run_op_keeps with (l := l); [| |exact Hi|exact Hs|done|exact Heq]; [intros ? ? Hx; exact Hx|intros; by apply silent_live].
Qed.

(** After [pruned] its operation is not watched any more. *)
Lemma pruned_unwatched l b h l' : listener_inv l → pruned l b h = Ret l' → watchers l' !! h = None.
Proof.
  intros Hi Hrun. unfold pruned in Hrun. set (l1 := set_finality _ _) in Hrun.
  assert (live l1 ∧ watchers l1 !! h = None) as [Hl1 HP1].
  { split; [intros h' w Hw; by apply (fire_live l h (w_in_block b) (listener_inv_live l Hi) (proper_in_block b))|].
    simpl. unfold fire. destruct (watchers l !! h) eqn:Hw; [|done]. simpl. by rewrite lookup_delete_eq. }
  assert (silent h (events l1 h) l1) as Hs by done.
  destruct (loop_total timeout_step (λ l, live l ∧ silent h (events l1 h) l) (λ l, length (finality_watchers l))
    (silent h (events l1 h))) with (fuel := S (length (finality_watchers l1))) (s := l1) as (r & Hr & [Hn _]); [|done|lia|].
  2:{ rewrite Hr in Hrun. by injection Hrun as <-. }
  intros l2 [Hl2 HP2]. unfold timeout_step.
  destruct (Nat.ltb_spec MAX_FINALITY_WATCHERS (length (finality_watchers l2))) as [Hlt|Hge]; [left|right; eauto].
  destruct (finality_watchers l2) as [|[b' txs] m] eqn:Hm; [simpl in Hlt; lia|].
  eexists. split; [done|].
  destruct (fire_all_live (set_finality l2 m) txs w_finality_timeout) as [Hl3 Hf3]; [done|auto with worker|].
  split; [split; [done|]|rewrite Hf3; simpl; lia].
  apply (fire_all_keeps (silent h (events l1 h))); [intros; by apply silent_live|done|auto with worker|done].
Qed.
End Listen.
