(* ===== verification/ValidatedPool.v ===== *)
(** The interface between the pool and the chain logic
    (core-primitives/top-pool/src/pool.rs, trait [ChainApi], and
    validated_pool.rs, [ValidatedOperation]): validity results, block ids, the
    error conversions and the pool options; and the pool of validated operations. *)

From stdpp Require Import base gmap fin_maps sets numbers strings list.
From S2P Require Import Prelude Collections PoolTypes TrackedMap FuturePool ReadyPool BasePool Rotator Listener.

Local Open Scope Z_scope.

(** [sp_runtime::generic::BlockId]. *)
Inductive BlockId :=
| BlockIdHash (h : BlockHash)
| BlockIdNumber (n : Z).

(** [sp_runtime::transaction_validity::ValidTransaction]. *)
Record ValidTransaction := MkValidTransaction {
  vt_priority : Z;
  vt_requires : list Tag;
  vt_provides : list Tag;
  vt_longevity : Z;
  vt_propagate : bool;
}.

(** [TransactionValidityError]; the pool does not look at its payload. *)
Inductive TransactionValidityError :=
| InvalidTransaction
| UnknownTransaction.

Definition TransactionValidity : Type := result ValidTransaction TransactionValidityError.

(** [From<error::Error>] and [IntoPoolError] of the error type of the chain. *)
Class ApiError (E : Type) := {
  from_pool_error : PoolError → E;
  into_pool_error : E → result PoolError E;
}.

(** [impl IntoPoolError for Error]. *)
#[export] Instance pool_api_error : ApiError PoolError :=
  {| from_pool_error := id; into_pool_error := Ok |}.

(** [ChainApi]; [debug_block_id] is the [Debug] output of a block id. *)
Record ChainApi (Ex E : Type) := MkChainApi {
  validate_transaction :
    TrustedOperationSource → Ex → ShardIdentifier → result TransactionValidity E;
  block_id_to_number : BlockId → result (option Z) E;
  block_id_to_hash : BlockId → result (option BlockHash) E;
  hash_and_length : Ex → TxHash * Z;
  block_body : BlockId → result (option bool) E;
  debug_block_id : BlockId → string;
}.
Arguments MkChainApi {Ex E} _ _ _ _ _ _.
Arguments validate_transaction {Ex E} _ _ _ _.
Arguments block_id_to_number {Ex E} _ _.
Arguments block_id_to_hash {Ex E} _ _.
Arguments hash_and_length {Ex E} _ _.
Arguments block_body {Ex E} _ _.
Arguments debug_block_id {Ex E} _ _.

(** [pool::Options]. *)
Record Options := MkOptions {
  opt_ready : Limit;
  opt_future : Limit;
  opt_reject_future_operations : bool;
}.

Definition default_options : Options :=
  MkOptions (MkLimit 8192 (20 * 1024 * 1024)) (MkLimit 512 (1024 * 1024)) false.

(** [validated_pool::ValidatedOperation]. *)
Inductive ValidatedOperation (Ex E : Type) :=
| Valid (op : TrustedOperation Ex)
| Invalid (hash : TxHash) (err : E)
| Unknown (hash : TxHash) (err : E).
Arguments Valid {Ex E} _.
Arguments Invalid {Ex E} _ _.
Arguments Unknown {Ex E} _ _.

Definition valid_at {Ex E} (at_ : Z) (hash : TxHash) (source : TrustedOperationSource) (data : Ex)
    (bytes : Z) (validity : ValidTransaction) : ValidatedOperation Ex E :=
  Valid (MkOperation data bytes hash (vt_priority validity)
    (u64_saturating_add at_ (vt_longevity validity))
    (vt_requires validity) (vt_provides validity) (vt_propagate validity) source).

Local Close Scope Z_scope.

(** The pool of validated operations
    (core-primitives/top-pool/src/validated_pool.rs): the dependency-graph pool
    with the listener, the rotator and the import notification sinks.  Each
    method is a function on the state behind the locks; it reads the clock once
    ([now]).  A channel of the sinks is external: [try_send] is its answer.  The
    iterator over the ready operations is drained with the fuel given to the
    methods that use it. *)

Module VPool.

(** What [Sender::try_send] answers. *)
Inductive send_result := SendOk | SendFull | SendDisconnected.

Record ValidatedPool (Ex Sink : Type) := MkValidatedPool {
  options : Options;
  listener : Listen.Listener;
  pool : Base.BasePool Ex;
  import_notification_sinks : list Sink;
  rotator : Rotate.PoolRotator;
}.
Arguments MkValidatedPool {Ex Sink} _ _ _ _ _.
Arguments options {Ex Sink} _.
Arguments listener {Ex Sink} _.
Arguments pool {Ex Sink} _.
Arguments import_notification_sinks {Ex Sink} _.
Arguments rotator {Ex Sink} _.

(** The status of an operation in [resubmit]. *)
Inductive ResubmitStatus := RsFuture | RsReady | RsFailed | RsDropped.

#[export] Instance resubmit_status_eq_dec : EqDecision ResubmitStatus.
Proof. solve_decision. Defined.

(** The events of an import. *)
Definition fire_events {Ex} (l : Listen.Listener) (imported : Imported Ex) : Listen.Listener :=
  match imported with
  | ImportedReady hash promoted failed removed =>
      let l := Listen.ready l hash None in
      let l := foldl Listen.invalid l failed in
      let l := foldl (λ l r, Listen.dropped l (op_hash r) (Some hash)) l removed in
      foldl (λ l p, Listen.ready l p None) l promoted
  | ImportedFuture hash => Listen.future l hash
  end.

Section validated_pool.
Context `{Ord : IterOrder} {Ex E Sink : Type} `{!ApiError E}.
Context (api : ChainApi Ex E) (try_send : Sink → TxHash → send_result * Sink).
Implicit Types (v : ValidatedPool Ex Sink) (shard : ShardIdentifier) (now : Z).

Definition new (opts : Options) : ValidatedPool Ex Sink :=
  MkValidatedPool opts Listen.new (Base.new (opt_reject_future_operations opts)) []
    Rotate.default_rotator.

Definition set_listener v l : ValidatedPool Ex Sink :=
  MkValidatedPool (options v) l (pool v) (import_notification_sinks v) (rotator v).

Definition set_pool v p : ValidatedPool Ex Sink :=
  MkValidatedPool (options v) (listener v) p (import_notification_sinks v) (rotator v).

Definition set_sinks v sinks : ValidatedPool Ex Sink :=
  MkValidatedPool (options v) (listener v) (pool v) sinks (rotator v).

Definition set_rotator v r : ValidatedPool Ex Sink :=
  MkValidatedPool (options v) (listener v) (pool v) (import_notification_sinks v) r.

Definition ban now v (hashes : list TxHash) : outcome (ValidatedPool Ex Sink) :=
  Rotate.ban (rotator v) now hashes ≫= λ r, Ret (set_rotator v r).

Definition is_banned v (hash : TxHash) : bool := Rotate.is_banned (rotator v) hash.

Definition check_is_known v (tx_hash : TxHash) (ignore_banned : bool) shard : result unit E :=
  if negb ignore_banned && is_banned v tx_hash then Err (from_pool_error TemporarilyBanned)
  else if Base.is_imported (pool v) tx_hash shard then Err (from_pool_error AlreadyImported)
  else Ok tt.

(** [retain_mut] over the sinks. *)
Definition notify_sinks (sinks : list Sink) (hash : TxHash) : list Sink :=
  omap (λ sink,
    match try_send sink hash with
    | (SendOk, sink') => Some sink'
    | (SendFull, sink') => Some sink'
    | (SendDisconnected, _) => None
    end) sinks.

Definition submit_one now v (tx : ValidatedOperation Ex E) shard :
    outcome (ValidatedPool Ex Sink * result TxHash E) :=
  match tx with
  | Valid tx =>
      Base.import now (pool v) tx shard ≫= λ '(p, res),
      let v := set_pool v p in
      match res with
      | Err e => Ret (v, Err (from_pool_error e))
      | Ok imported =>
          let v :=
            match imported with
            | ImportedReady hash _ _ _ =>
                set_sinks v (notify_sinks (import_notification_sinks v) hash)
            | ImportedFuture _ => v
            end in
          Ret (set_listener v (fire_events (listener v) imported), Ok (imported_hash imported))
      end
  | Invalid hash err => ban now v [hash] ≫= λ v, Ret (v, Err err)
  | Unknown hash err => Ret (set_listener v (Listen.invalid (listener v) hash), Err err)
  end.

Definition enforce_limits now v shard : outcome (ValidatedPool Ex Sink * gset TxHash) :=
  let status := Base.status (pool v) shard in
  let ready_limit := opt_ready (options v) in
  let future_limit := opt_future (options v) in
  if is_exceeded ready_limit (st_ready status) (st_ready_bytes status)
     || is_exceeded future_limit (st_future status) (st_future_bytes status) then
    Base.enforce_limits (pool v) ready_limit future_limit shard ≫= λ '(p, ops),
    let removed : gset TxHash := list_to_set (op_hash <$> ops) in
    ban now (set_pool v p) (set_iter removed) ≫= λ v,
    Ret (set_listener v (foldl (λ l h, Listen.dropped l h None) (listener v) (set_iter removed)),
         removed)
  else Ret (v, ∅).

(** The loop over the operations of [submit]. *)
Definition submit_step now shard (st : ValidatedPool Ex Sink * list (result TxHash E))
    (tx : ValidatedOperation Ex E) : outcome (ValidatedPool Ex Sink * list (result TxHash E)) :=
  submit_one now st.1 tx shard ≫= λ '(v, r), Ret (v, st.2 ++ [r]).

Definition submit now v (txs : list (ValidatedOperation Ex E)) shard :
    outcome (ValidatedPool Ex Sink * list (result TxHash E)) :=
  for_each (submit_step now shard) (v, []) txs ≫= λ '(v, results),
  (if existsb is_ok results then enforce_limits now v shard else Ret (v, ∅)) ≫= λ '(v, removed),
  Ret (v, (λ res,
    match res with
    | Ok hash => if decide (hash ∈ removed) then Err (from_pool_error ImmediatelyDropped) else Ok hash
    | Err e => Err e
    end) <$> results).

Definition submit_and_watch now v (tx : ValidatedOperation Ex E) shard :
    outcome (ValidatedPool Ex Sink * result TxHash E) :=
  match tx with
  | Valid tx =>
      submit now v [Valid tx] shard ≫= λ '(v, results),
      unwrap (last results) ≫= λ hash_result,
      let v :=
        match hash_result with
        | Ok hash => set_listener v (Listen.create_watcher (listener v) hash)
        | Err _ => v
        end in
      Ret (v, hash_result)
  | Invalid hash err => ban now v [hash] ≫= λ v, Ret (v, Err err)
  | Unknown _ err => Ret (v, Err err)
  end.

(** *** Resubmission *)

Record resubmit_acc := MkResubmitAcc {
  ra_pool : Base.BasePool Ex;
  ra_updated : gmap TxHash (ValidatedOperation Ex E);
  ra_initial : gmap TxHash ResubmitStatus;
  ra_txs : list (TxHash * ValidatedOperation Ex E);
}.

(** What to resubmit for an operation that left the pool. *)
Definition resubmit_removed (acc : resubmit_acc) (removed_tx : TrustedOperation Ex) : resubmit_acc :=
  let removed_hash := op_hash removed_tx in
  let tx_to_resubmit := default (Valid removed_tx) (ra_updated acc !! removed_hash) in
  MkResubmitAcc (ra_pool acc) (delete removed_hash (ra_updated acc))
    (<[removed_hash := RsReady]> (ra_initial acc)) (ra_txs acc ++ [(removed_hash, tx_to_resubmit)]).

Definition resubmit_remove_step shard (acc : resubmit_acc) : outcome (resubmit_acc + resubmit_acc) :=
  match map_keys (ra_updated acc) with
  | [] => Ret (inr acc)
  | hash :: _ =>
      Base.remove_subtree (ra_pool acc) [hash] shard ≫= λ '(p, removed),
      let acc := foldl resubmit_removed
        (MkResubmitAcc p (ra_updated acc) (ra_initial acc) (ra_txs acc)) removed in
      Ret (inl (MkResubmitAcc (ra_pool acc) (delete hash (ra_updated acc)) (ra_initial acc) (ra_txs acc)))
  end.

(** The import of one operation of [resubmit], with the statuses it sets. *)
Definition resubmit_import now shard (st : Base.BasePool Ex * gmap TxHash ResubmitStatus)
    (tx : TxHash * ValidatedOperation Ex E) : outcome (Base.BasePool Ex * gmap TxHash ResubmitStatus) :=
  let '(p, statuses) := st in
  let '(hash, tx_to_resubmit) := tx in
  match tx_to_resubmit with
  | Valid tx =>
      Base.import now p tx shard ≫= λ '(p, res),
      match res with
      | Ok (ImportedReady _ promoted failed removed) =>
          let statuses := <[hash := RsReady]> statuses in
          let statuses := foldl (λ m h, <[h := RsReady]> m) statuses promoted in
          let statuses := foldl (λ m h, <[h := RsFailed]> m) statuses failed in
          let statuses := foldl (λ m op, <[op_hash op := RsDropped]> m) statuses removed in
          Ret (p, statuses)
      | Ok (ImportedFuture _) => Ret (p, <[hash := RsFuture]> statuses)
      | Err _ => Ret (p, <[hash := RsFailed]> statuses)
      end
  | Invalid _ _ | Unknown _ _ => Ret (p, <[hash := RsFailed]> statuses)
  end.

Definition resubmit_all now shard (txs : list (TxHash * ValidatedOperation Ex E))
    (p : Base.BasePool Ex) (reject_future_operations : bool) :
    outcome (Base.BasePool Ex * gmap TxHash ResubmitStatus) :=
  for_each (resubmit_import now shard) (p, ∅) txs ≫= λ '(p, statuses),
  if reject_future_operations then
    Base.clear_future p shard ≫= λ '(p, cleared),
    Ret (p, foldl (λ m op, <[op_hash op := RsDropped]> m) statuses cleared)
  else Ret (p, statuses).

Definition resubmit_event (st : Listen.Listener * gmap TxHash ResubmitStatus)
    (e : TxHash * ResubmitStatus) : Listen.Listener * gmap TxHash ResubmitStatus :=
  let '(l, initial) := st in
  let '(hash, final_status) := e in
  let initial_status := initial !! hash in
  (if decide (Some final_status = initial_status) then l
   else
     match final_status with
     | RsFuture => Listen.future l hash
     | RsReady => Listen.ready l hash None
     | RsDropped => Listen.dropped l hash None
     | RsFailed => Listen.invalid l hash
     end,
   delete hash initial).

Definition resubmit now v (updated_transactions : gmap TxHash (ValidatedOperation Ex E)) shard :
    outcome (ValidatedPool Ex Sink) :=
  loop (S (size updated_transactions)) (resubmit_remove_step shard)
    (MkResubmitAcc (pool v) updated_transactions ∅ []) ≫= λ acc,
  Base.with_futures_enabled (ra_pool acc) (resubmit_all now shard (ra_txs acc))
    ≫= λ '(p, final_statuses),
  let '(l, _) := foldl resubmit_event (listener v, ra_initial acc)
    (iter_order (map_to_list final_statuses)) in
  Ret (set_listener (set_pool v p) l).

(** *** Queries, removal and pruning *)

Definition extrinsics_tags v (hashes : list TxHash) shard : list (option (list Tag)) :=
  fmap (M := option) provides <$> Base.by_hashes (pool v) hashes shard.

Definition ready_by_hash v (hash : TxHash) shard : option (TrustedOperation Ex) :=
  Base.ready_by_hash (pool v) hash shard.

(** The operations the iterator over the ready queue yields. *)
Definition ready (fuel : nat) v shard : outcome (list (TrustedOperation Ex)) :=
  Base.get_ready (pool v) shard ≫= Ready.collect fuel.

Definition shards v : list ShardIdentifier := Base.get_shards (pool v).

Definition status v shard : PoolStatus := Base.status (pool v) shard.

Definition prune_tags v (tags : list Tag) shard :
    outcome (ValidatedPool Ex Sink * result (PruneStatus Ex) E) :=
  Base.prune_tags (pool v) tags shard ≫= λ '(p, st),
  let l := foldl fire_events (listener v) (promoted st) in
  let l := foldl (λ l f, Listen.dropped l f None) l (failed st) in
  Ret (set_listener (set_pool v p) l, Ok st).

Definition remove_invalid now v (hashes : list TxHash) shard (inblock : bool) :
    outcome (ValidatedPool Ex Sink * list (TrustedOperation Ex)) :=
  match hashes with
  | [] => Ret (v, [])
  | _ =>
      Base.remove_subtree (pool v) hashes shard ≫= λ '(p, invalid),
      let v := set_pool v p in
      if inblock then Ret (v, invalid)
      else
        ban now v hashes ≫= λ v,
        Ret (set_listener v (foldl (λ l tx, Listen.invalid l (op_hash tx)) (listener v) invalid),
             invalid)
  end.

(** One notification of [fire_pruned]; [set] holds the hashes seen. *)
Definition fire_pruned_step (header_hash : BlockHash) (st : Listen.Listener * gset TxHash)
    (h : TxHash) : outcome (Listen.Listener * gset TxHash) :=
  let '(l, set) := st in
  if decide (h ∈ set) then Ret (l, set)
  else Listen.pruned l header_hash h ≫= λ l, Ret (l, {[h]} ∪ set).

(** [hashes] is an iterator: it is run only once the block is known. *)
Definition fire_pruned v (at_ : BlockId) (hashes : outcome (list TxHash)) :
    outcome (ValidatedPool Ex Sink * result unit E) :=
  match block_id_to_hash api at_ with
  | Err e => Ret (v, Err e)
  | Ok None => Ret (v, Err (from_pool_error (InvalidBlockId (debug_block_id api at_))))
  | Ok (Some header_hash) =>
      hashes ≫= λ hashes,
      for_each (fire_pruned_step header_hash) (listener v, ∅) hashes ≫= λ '(l, _),
      Ret (set_listener v l, Ok tt)
  end.

(** [ban_if_stale] on each operation, with the hashes of the stale ones. *)
Definition stale_step now (block_number : Z) (st : Rotate.PoolRotator * list TxHash)
    (tx : TrustedOperation Ex) : outcome (Rotate.PoolRotator * list TxHash) :=
  Rotate.ban_if_stale st.1 now block_number tx ≫= λ '(r, stale),
  Ret (r, if stale : bool then st.2 ++ [op_hash tx] else st.2).

Definition clear_stale (fuel : nat) now v (at_ : BlockId) shard :
    outcome (ValidatedPool Ex Sink * result unit E) :=
  match block_id_to_number api at_ with
  | Err e => Ret (v, Err e)
  | Ok None => Ret (v, Err (from_pool_error (InvalidBlockId (debug_block_id api at_))))
  | Ok (Some block_number) =>
      ready fuel v shard ≫= λ ops,
      for_each (stale_step now block_number) (rotator v, []) ops ≫= λ '(r, to_remove),
      for_each (stale_step now block_number) (r, []) (Base.futures (pool v) shard)
        ≫= λ '(r, futures_to_remove),
      remove_invalid now (set_rotator v r) to_remove shard false ≫= λ '(v, _),
      remove_invalid now v futures_to_remove shard false ≫= λ '(v, _),
      Ret (set_rotator v (Rotate.clear_timeouts (rotator v) now), Ok tt)
  end.

(** The hashes whose resubmission answered [InvalidTrustedOperation]: result
    number [idx] stands for [pruned_hashes[idx]]. *)
Definition invalid_pruned_step (pruned_hashes : list TxHash) (st : nat * list TxHash)
    (r : result TxHash E) : outcome (nat * list TxHash) :=
  let '(idx, out) := st in
  match r with
  | Err e =>
      match into_pool_error e with
      | Ok InvalidTrustedOperation =>
          unwrap (pruned_hashes !! idx) ≫= λ h, Ret (S idx, out ++ [h])
      | _ => Ret (S idx, out)
      end
  | Ok _ => Ret (S idx, out)
  end.

Definition resubmit_pruned (fuel : nat) now v (at_ : BlockId) (known_imported_hashes pruned_hashes : list TxHash)
    (pruned_xts : list (ValidatedOperation Ex E)) shard :
    outcome (ValidatedPool Ex Sink * result unit E) :=
  submit now v pruned_xts shard ≫= λ '(v, results),
  let hashes :=
    for_each (invalid_pruned_step pruned_hashes) (0, []) results ≫= λ '(_, hashes),
    Ret (hashes ++ known_imported_hashes) in
  fire_pruned v at_ hashes ≫= λ '(v, res),
  match res with
  | Err e => Ret (v, Err e)
  | Ok _ => clear_stale fuel now v at_ shard
  end.

(** *** Notifications *)

Definition import_notification_stream v (sink : Sink) : ValidatedPool Ex Sink :=
  set_sinks v (import_notification_sinks v ++ [sink]).

Definition on_broadcasted v (propagated : gmap TxHash (list string)) : ValidatedPool Ex Sink :=
  set_listener v (foldl (λ l '(h, peers), Listen.broadcasted l h peers) (listener v)
    (iter_order (map_to_list propagated))).

Definition on_block_finalized v (block : BlockHash) : ValidatedPool Ex Sink :=
  set_listener v (Listen.finalized (listener v) block).

Definition on_block_retracted v (block : BlockHash) : ValidatedPool Ex Sink :=
  set_listener v (Listen.retracted (listener v) block).

Definition on_block_imported v (hashes : list TxHash) (block : BlockHash) : ValidatedPool Ex Sink :=
  set_listener v (foldl (λ l h, Listen.in_block l h block) (listener v) hashes).
End validated_pool.
End VPool.
