(* ===== verification/VPoolInv.v ===== *)
(** The invariant of the validated pool and what its methods do. *)

From stdpp Require Import base gmap fin_maps sets numbers strings list.
From S2P Require Import Prelude Collections PoolTypes TrackedMap FuturePool ReadyPool ReadyInv BasePool BaseInv BaseOps BasePrune Rotator Listener.
From S2P Require Import ValidatedPool.

Module VPoolInv.
Import VPool BaseInv BaseOps BaseLimits.
Import (hints) Listen.

Section vpool_inv.
Context `{Ord : IterOrder} {Ex E Sink : Type} `{!ApiError E}.
Context (api : ChainApi Ex E) (try_send : Sink → TxHash → send_result * Sink).
Implicit Types (v : ValidatedPool Ex Sink) (s : ShardIdentifier) (now : Z).
Implicit Types (tx : ValidatedOperation Ex E).

Record vpool_inv v : Prop := {
  vi_pool : base_inv (pool v);
  vi_listener : Listen.listener_inv (listener v);
  vi_rotator : Rotate.rotator_inv (rotator v);
  vi_limits : limit_ok (opt_ready (options v)) ∧ limit_ok (opt_future (options v));
}.

Lemma vpool_inv_new opts :
  limit_ok (opt_ready opts) → limit_ok (opt_future opts) → vpool_inv (new opts).
Proof.
  intros Hr Hf. split; simpl; [apply base_inv_new|apply Listen.listener_inv_new| |done].
  unfold Rotate.rotator_inv. cbn [Rotate.banned_until Rotate.default_rotator].
  rewrite map_size_empty. lia.
Qed.

Lemma default_options_ok :
  limit_ok (opt_ready default_options) ∧ limit_ok (opt_future default_options).
Proof. unfold limit_ok, is_u64, u64_max. simpl. lia. Qed.

(** Room for [n] more imports before the insertion ids of the shard run out. *)
Definition room v s (n : nat) : Prop :=
  ids_left (pool v) s (n + size (waiting_at (Base.future (pool v)) s)).

Definition within_limits v s : Prop :=
  is_exceeded (opt_ready (options v)) (st_ready (status v s)) (st_ready_bytes (status v s)) = false ∧
  is_exceeded (opt_future (options v)) (st_future (status v s)) (st_future_bytes (status v s)) = false.

(** Everything but the queues of the shard stays. *)
Record frame s v v' : Prop := {
  fr_options : options v' = options v;
  fr_future : FutureInv.only_shard s (Base.future (pool v)) (Base.future (pool v'));
  fr_ready : ReadyInv.only_shard s (Base.ready (pool v)) (Base.ready (pool v'));
}.

Lemma frame_refl s v : frame s v v.
Proof. split; [done|apply FutureInv.future_only_shard_refl|apply ReadyInv.ready_only_shard_refl]. Qed.

Lemma frame_trans s v1 v2 v3 : frame s v1 v2 → frame s v2 v3 → frame s v1 v3.
Proof.
  intros [O1 F1 R1] [O2 F2 R2].
  split; [congruence|by eapply FutureInv.future_only_shard_trans|by eapply ReadyInv.ready_only_shard_trans].
Qed.

(** *** Events *)

Lemma fold_listener_inv {A} (f : Listen.Listener → A → Listen.Listener) (l : Listen.Listener) xs :
  (∀ l x, Listen.listener_inv l → Listen.listener_inv (f l x)) →
  Listen.listener_inv l → Listen.listener_inv (foldl f l xs).
Proof. intros Hf. revert l. induction xs as [|x xs IH]; intros l Hl; simpl; auto. Qed.

Lemma listener_ready_inv l h o : Listen.listener_inv l → Listen.listener_inv (Listen.ready l h o).
Proof. intros Hl. unfold Listen.ready. destruct o; auto 6 using Listen.fire_inv with worker. Qed.

Lemma listener_dropped_inv l h o : Listen.listener_inv l → Listen.listener_inv (Listen.dropped l h o).
Proof. intros Hl. unfold Listen.dropped. destruct o; auto using Listen.fire_inv with worker. Qed.

Lemma listener_invalid_inv l h : Listen.listener_inv l → Listen.listener_inv (Listen.invalid l h).
Proof. intros Hl. apply Listen.fire_inv; [done|auto with worker]. Qed.

Lemma listener_future_inv l h : Listen.listener_inv l → Listen.listener_inv (Listen.future l h).
Proof. intros Hl. apply Listen.fire_inv; [done|auto with worker]. Qed.

Lemma fire_events_inv l (i : Imported Ex) :
  Listen.listener_inv l → Listen.listener_inv (fire_events l i).
Proof.
  intros Hl. destruct i as [h promoted failed removed|h]; cbn [fire_events]; [|by apply listener_future_inv].
  apply fold_listener_inv; [intros; by apply listener_ready_inv|].
  apply fold_listener_inv; [intros; by apply listener_dropped_inv|].
  apply fold_listener_inv; [intros; by apply listener_invalid_inv|]. by apply listener_ready_inv.
Qed.

(** *** Bans *)

Lemma vpool_ban_spec now v hashes :
  vpool_inv v →
  ∃ v', ban now v hashes = Ret v' ∧ vpool_inv v' ∧
    v' = set_rotator v (rotator v') ∧ Rotate.bans (rotator v) now hashes (rotator v').
Proof.
  intros [Hp Hl Hr Hlim]. unfold ban. destruct (Rotate.rotator_ban_spec (rotator v) now hashes) as (r & -> & Hr' & Hb).
  eexists. split; [done|]. split; [by split|done].
Qed.

(** *** [submit_one] *)

Definition op_good tx : Prop := match tx with Valid op => operation_ok op | _ => True end.

Definition submit_one_post now v tx s v' (r : result TxHash E) : Prop :=
  match tx with
  | Valid op => ∃ res, import_post now (pool v) op s (pool v') res ∧ rotator v' = rotator v ∧
      r = match res with Ok _ => Ok (op_hash op) | Err e => Err (from_pool_error e) end
  | Invalid h err => r = Err err ∧ pool v' = pool v ∧ Rotate.bans (rotator v) now [h] (rotator v')
  | Unknown h err => r = Err err ∧ pool v' = pool v ∧ rotator v' = rotator v
  end.

Lemma import_post_hash now (p : Base.BasePool Ex) op s p' i :
  import_post now p op s p' (Ok i) → imported_hash i = op_hash op.
Proof.
  unfold import_post. case_decide; [by intros [? _]|]. case_decide.
  - unfold import_to_ready_post. destruct i; [|done]. by intros [-> _].
  - destruct (Base.reject_future_operations p); [by intros [? _]|]. by intros [[= ->] _].
Qed.

Lemma room_used v s n v' :
  ids_used (pool v) s (pool v') 1 → room v s (S n) → room v' s n.
Proof. unfold room, ids_used, ids_left. lia. Qed.

Lemma submit_one_spec now v tx s n :
  vpool_inv v → op_good tx → room v s (S n) →
  ∃ v' r, submit_one try_send now v tx s = Ret (v', r) ∧ vpool_inv v' ∧ frame s v v' ∧ room v' s n ∧
    submit_one_post now v tx s v' r.
Proof.
  intros Hv Hg Hroom. pose proof Hv as [Hp Hl Hr Hlim]. destruct tx as [op|h err|h err]; simpl in Hg.
  - destruct (base_import_spec now (pool v) op s Hp Hg) as (p' & res & Heq & Hp' & [Hf Hrd _ _ _] & Hu & Hpost).
    { unfold room, ids_left in *. lia. }
    cbn [submit_one]. rewrite Heq. cbn [mbind outcome_bind]. destruct res as [i|e].
    + eexists _, (Ok (imported_hash i)). split; [done|].
      pose proof (import_post_hash _ _ _ _ _ _ Hpost) as Hh.
      destruct i as [h promoted failed removed|h]; simpl in *.
      * split_and!; [|by split|by eapply room_used|by exists (Ok (ImportedReady h promoted failed removed)); subst].
        split; simpl; [done|by apply (fire_events_inv _ (ImportedReady h promoted failed removed))|done|done].
      * split_and!; [|by split|by eapply room_used|by exists (Ok (ImportedFuture h)); subst].
        split; simpl; [done|by apply listener_future_inv|done|done].
    + eexists _, _. split; [done|]. split_and!; [by split|by split|by eapply room_used|by exists (Err e)].
  - cbn [submit_one]. destruct (vpool_ban_spec now v [h] Hv) as (v' & -> & Hv' & Heq & Hb).
    eexists _, _. split; [done|]. rewrite Heq. split_and!; [by rewrite <-Heq|by split|unfold room, ids_left in *; simpl; lia|].
    simpl. done.
  - cbn [submit_one]. eexists _, _. split; [done|].
    split_and!; [|by split|unfold room, ids_left in *; simpl; lia|done].
    split; simpl; [done|by apply listener_invalid_inv|done..].
Qed.

(** *** [enforce_limits] *)

Record drops now v s v' (removed : gset TxHash) : Prop := {
  dr_ops : ∃ ops, reports (pool v) s (pool v') ops ∧ removed = op_hashes ops;
  dr_bans : Rotate.bans (rotator v) now (set_iter removed) (rotator v');
}.

Lemma drops_none now v s : Rotate.rotator_inv (rotator v) → drops now v s v ∅.
Proof.
  intros Hr. split; [exists []; split; [apply reports_nil|done]|]. rewrite set_iter_empty.
  split; [done|by right| |by apply Rotate.rebanned_none]. intros _ h. by rewrite decide_False by set_solver.
Qed.

Lemma vpool_limits_spec now v s :
  vpool_inv v →
  ∃ v' removed, enforce_limits now v s = Ret (v', removed) ∧ vpool_inv v' ∧ frame s v v' ∧
    within_limits v' s ∧ drops now v s v' removed.
Proof.
  intros Hv. pose proof Hv as [Hp Hl Hr [Hrl Hfl]]. unfold enforce_limits.
  destruct (is_exceeded _ _ _ || is_exceeded _ _ _) eqn:Hex.
  - destruct (BaseLimits.base_limits_spec (pool v) _ _ s Hp Hrl Hfl)
      as (p' & ops & -> & [Hp' [Hf Hrd _ _ _] Hrep] & He1 & He2). cbn [mbind outcome_bind].
    destruct (vpool_ban_spec now (set_pool v p') (set_iter (op_hashes ops))) as (v1 & Heq & Hv1 & Hv1eq & Hb).
    { by split. }
    unfold op_hashes in Heq. rewrite Heq. cbn [mbind outcome_bind]. eexists _, _. split; [done|].
    rewrite Hv1eq. split_and!.
    + destruct Hv1 as [_ _ Hr1 _]. split; simpl; [done| |done|done].
      apply fold_listener_inv; [|done]. intros. by apply listener_dropped_inv.
    + by split.
    + done.
    + split; simpl; [by exists ops|done].
  - apply orb_false_iff in Hex as [He1 He2]. eexists _, _. split; [done|].
    split_and!; [done|apply frame_refl|done|by apply drops_none].
Qed.

(** *** [submit] *)

Lemma room_zero v s n : room v s n → room v s 0.
Proof. unfold room, ids_left. lia. Qed.

Lemma submit_loop_spec now txs v s n :
  vpool_inv v → Forall op_good txs → room v s (length txs + n) →
  ∃ v' results, for_each (submit_step try_send now s) (v, []) txs = Ret (v', results) ∧
    vpool_inv v' ∧ frame s v v' ∧ room v' s n ∧ length results = length txs.
Proof.
  intros Hv Hg Hroom.
  destruct (for_each_total (submit_step try_send now s)
    (λ pre st, vpool_inv st.1 ∧ frame s v st.1 ∧ room st.1 s (length txs - length pre + n) ∧
       length st.2 = length pre) txs (v, [])) as ([v' results] & Heq & Hv' & Hfr & Hroom' & Hlen).
  { simpl. rewrite Nat.sub_0_r. split_and!; [done|apply frame_refl|done|done]. }
  { intros pre tx post [v1 rs] Htxs (Hv1 & Hfr1 & Hroom1 & Hlen1). simpl in *.
    assert (op_good tx) as Hgt. { rewrite Htxs in Hg. apply Forall_app in Hg as [_ Hg]. by apply Forall_cons in Hg as [? _]. }
    assert (length txs - length pre + n = S (length txs - length (pre ++ [tx]) + n)) as Hn.
    { rewrite Htxs, !length_app. simpl. lia. }
    rewrite Hn in Hroom1.
    destruct (submit_one_spec now v1 tx s _ Hv1 Hgt Hroom1) as (v2 & r & Heq & Hv2 & Hfr2 & Hroom2 & _).
    unfold submit_step. simpl. rewrite Heq. eexists. split; [done|]. simpl.
    split_and!; [done|by eapply frame_trans|done|rewrite !length_app; simpl; lia]. }
  exists v', results. rewrite Nat.sub_diag in Hroom'. done.
Qed.

Lemma submit_spec now txs v s :
  vpool_inv v → Forall op_good txs → room v s (length txs) →
  ∃ v' results, submit try_send now v txs s = Ret (v', results) ∧ vpool_inv v' ∧ frame s v v' ∧
    length results = length txs ∧ (within_limits v' s ∨ ∀ r, r ∈ results → is_ok r = false).
Proof.
  intros Hv Hg Hroom. unfold submit.
  destruct (submit_loop_spec now txs v s 0 Hv Hg) as (v1 & rs & -> & Hv1 & Hfr1 & _ & Hlen);
    [by rewrite Nat.add_0_r|]. cbn [mbind outcome_bind].
  destruct (existsb is_ok rs) eqn:Hok.
  - destruct (vpool_limits_spec now v1 s Hv1) as (v2 & removed & -> & Hv2 & Hfr2 & Hin & _).
    cbn [mbind outcome_bind]. eexists _, _. split; [done|].
    split_and!; [done|by eapply frame_trans|by rewrite length_fmap|by left].
  - cbn [mbind outcome_bind]. eexists _, _. split; [done|].
    split_and!; [done|done|by rewrite length_fmap|right].
    intros r (r0 & -> & Hin)%list_elem_of_fmap. assert (is_ok r0 = false) as Hr0.
    { apply not_true_iff_false. intros Ht. assert (existsb is_ok rs = true); [|congruence].
      apply existsb_exists. exists r0. by rewrite <-list_elem_of_In. }
    by destruct r0.
Qed.
End vpool_inv.
End VPoolInv.

(** Removal, pruning and resubmission in the validated pool. *)

Module VPoolOps.
Import VPool BaseInv BaseOps BaseLimits VPoolInv.
Import (hints) Listen.

Section vpool_ops.
Context `{Ord : IterOrder} {Ex E Sink : Type} `{!ApiError E}.
Context (api : ChainApi Ex E) (try_send : Sink → TxHash → send_result * Sink).
Implicit Types (v : ValidatedPool Ex Sink) (s : ShardIdentifier) (now : Z).
Implicit Types (tx : ValidatedOperation Ex E).

(** *** [remove_invalid] *)

Lemma invalid_all_watchers (l : Listen.Listener) (ops : list (TrustedOperation Ex)) (h : TxHash) :
  Listen.watchers (foldl (λ l o, Listen.invalid l (op_hash o)) l ops) !! h =
  if decide (h ∈ op_hashes ops) then None else Listen.watchers l !! h.
Proof.
  revert l. induction ops as [|o ops IH]; intros l; cbn [foldl]; [done|]. rewrite IH.
  assert (op_hashes (o :: ops) = {[op_hash o]} ∪ op_hashes ops) as -> by done.
  destruct (decide (h ∈ op_hashes ops)); [by rewrite decide_True by set_solver|].
  unfold Listen.invalid, Listen.fire. destruct (decide (h = op_hash o)) as [->|Hne].
  - rewrite decide_True by set_solver. destruct (Listen.watchers l !! op_hash o) eqn:Hw; simpl; [|done].
    by rewrite lookup_delete_eq.
  - rewrite decide_False by set_solver. destruct (Listen.watchers l !! op_hash o); simpl; [|done].
    by rewrite lookup_delete_ne.
Qed.

Record invalidates now v hashes s (inblock : bool) v' (removed : list (TrustedOperation Ex)) : Prop := {
  iv_gone : subtree_gone (pool v) s hashes (pool v');
  iv_reports : reports (pool v) s (pool v') removed;
  iv_bans : if inblock then rotator v' = rotator v
    else Rotate.bans (rotator v) now hashes (rotator v');
  iv_watchers : ∀ h, Listen.watchers (listener v') !! h =
    if negb inblock && bool_decide (h ∈ op_hashes removed) then None
    else Listen.watchers (listener v) !! h;
}.

Lemma bans_nil r now : Rotate.rotator_inv r → Rotate.bans r now [] r.
Proof. intros Hr. split; [done|by right| |by apply Rotate.rebanned_none]. intros _ h. by rewrite decide_False by set_solver. Qed.

Lemma remove_invalid_spec now v hashes s inblock :
  vpool_inv v →
  ∃ v' removed, remove_invalid now v hashes s inblock = Ret (v', removed) ∧ vpool_inv v' ∧
    frame s v v' ∧ invalidates now v hashes s inblock v' removed.
Proof.
  intros Hv. pose proof Hv as [Hp Hl Hr Hlim]. destruct hashes as [|h0 hs].
  { cbn [remove_invalid]. exists v, []. split_and!; [done|done|apply frame_refl|]. split.
    - split; [|done]. intros h. split; [by left|]. intros [?|(u & Hu & _)]; [done|set_solver].
    - apply reports_nil.
    - destruct inblock; [done|by apply bans_nil].
    - intros h. rewrite bool_decide_eq_false_2 by (unfold op_hashes; set_solver). by rewrite andb_false_r. }
  cbn [remove_invalid]. set (hashes := h0 :: hs).
  destruct (base_remove_spec (pool v) hashes s Hp) as (p' & ops & -> & Hp' & [Hf Hrd _ _ _] & Hg & Hrep).
  cbn [mbind outcome_bind]. destruct inblock.
  - eexists _, _. split; [done|]. split_and!; [by split|by split|]. by split.
  - destruct (vpool_ban_spec now (set_pool v p') hashes) as (v1 & -> & Hv1 & Heq & Hb); [by split|].
    cbn [mbind outcome_bind]. eexists _, _. split; [done|]. rewrite Heq. destruct Hv1 as [_ _ Hr1 _].
    split_and!; [|by split|].
    + split; simpl; [done| |done|done]. apply fold_listener_inv; [|done]. intros. by apply listener_invalid_inv.
    + split; simpl; [done|done|done|]. intros h. rewrite invalid_all_watchers. by case_bool_decide; case_decide.
Qed.

(** *** [prune_tags] and [fire_pruned] *)

Lemma vpool_prune_spec v tags s :
  vpool_inv v → room v s 0 →
  ∃ v' st, prune_tags (E := E) v tags s = Ret (v', Ok st) ∧ vpool_inv v' ∧ frame s v v' ∧
    rotator v' = rotator v ∧ BasePrune.prune_post (pool v) tags s (pool v') st.
Proof.
  intros [Hp Hl Hr Hlim] Hroom. unfold prune_tags.
  destruct (BasePrune.base_prune_spec (pool v) tags s Hp Hroom) as (p' & st & -> & Hp' & Hf & Hrd & Hpost).
  cbn [mbind outcome_bind]. eexists _, _. split; [done|]. split_and!; [|by split|done|done].
  split; simpl; [done| |done|done].
  apply fold_listener_inv; [intros; by apply listener_dropped_inv|].
  apply fold_listener_inv; [intros; by apply fire_events_inv|done].
Qed.

Lemma fire_pruned_spec v at_ hashes :
  vpool_inv v →
  ∃ v' res, fire_pruned api v at_ (Ret hashes) = Ret (v', res) ∧ vpool_inv v' ∧
    v' = set_listener v (listener v') ∧
    (is_ok res = true ↔ ∃ b, block_id_to_hash api at_ = Ok (Some b)).
Proof.
  intros Hv. pose proof Hv as [Hp Hl Hr Hlim]. unfold fire_pruned.
  destruct (block_id_to_hash api at_) as [[b|]|e] eqn:Hb.
  - cbn [mbind outcome_bind].
    destruct (for_each_inv (fire_pruned_step b) (λ st, Listen.listener_inv st.1) hashes (listener v, ∅))
      as ([l seen] & -> & Hl'); [done| |].
    { intros h [l seen] _ Hl1. unfold fire_pruned_step. case_decide; [eauto|].
      destruct (Listen.pruned_spec l b h Hl1) as (l' & -> & Hl'). cbn [mbind outcome_bind]. eauto. }
    cbn [mbind outcome_bind]. eexists _, _. split; [done|]. split_and!; [by split|done|]. split; eauto.
  - eexists _, _. split; [done|]. split_and!; [done|by destruct v|]. simpl. split; [done|]. intros [? ?]. done.
  - eexists _, _. split; [done|]. split_and!; [done|by destruct v|]. simpl. split; [done|]. intros [? ?]. done.
Qed.

(** *** [resubmit] *)

Lemma import_post_subset now (p : Base.BasePool Ex) op s p' res :
  import_post now p op s p' res → pool_hashes p' s ⊆ pool_hashes p s ∪ {[op_hash op]}.
Proof.
  unfold import_post. case_decide; [intros [_ ->]; set_solver|]. case_decide.
  - unfold import_to_ready_post. destruct res as [[h pr fl rm|h]|e].
    + intros (-> & _ & Hacc & _). unfold w_hash in Hacc. simpl in Hacc. rewrite <-Hacc.
      rewrite <-union_assoc_L. apply union_subseteq_l.
    + done.
    + intros (_ & _ & Hsub). etrans; [exact Hsub|apply union_subseteq_l].
  - destruct (Base.reject_future_operations p); [intros [_ ->]; set_solver|].
    intros (_ & Hr & Hw). unfold pool_hashes, known. rewrite Hr, Hw, dom_insert_L. set_solver.
Qed.

Lemma import_post_absent now (p : Base.BasePool Ex) op s p' res h :
  import_post now p op s p' res → h ∉ pool_hashes p s → h ≠ op_hash op → h ∉ pool_hashes p' s.
Proof. intros Hi Hn Hne Hin. apply (import_post_subset _ _ _ _ _ _ Hi) in Hin. set_solver. Qed.

Lemma remove_subtree_ids (p : Base.BasePool Ex) hashes s p' removed :
  base_inv p → Base.remove_subtree p hashes s = Ret (p', removed) →
  id_at (Base.ready p') s = id_at (Base.ready p) s ∧
  size (waiting_at (Base.future p') s) ≤ size (waiting_at (Base.future p) s).
Proof.
  intros Hp Heq. destruct (base_remove_spec p hashes s Hp) as (p1 & r1 & Heq1 & _ & _ & [_ Hf] & _).
  rewrite Heq1 in Heq. injection Heq as -> ->. split.
  - unfold Base.remove_subtree in Heq1.
    destruct (ReadyRemove.ready_remove_spec (Base.ready p) hashes s (pi_ready _ _ (bi_pool _ Hp)))
      as (r' & l & Hr & _ & _ & Hids & _). rewrite Hr in Heq1. cbn [mbind outcome_bind] in Heq1.
    destruct (Future.remove _ _ _). injection Heq1 as <- _. simpl. unfold id_at, ReadyInv.id_at. by rewrite Hids.
  - apply map_subseteq_size. apply map_subseteq_spec. intros h w Hw. rewrite Hf in Hw. by case_decide.
Qed.
End vpool_ops.
End VPoolOps.
