(* ===== verification/VPoolResubmit.v ===== *)
(** Resubmission of revalidated operations: [resubmit] ends, re-enters only
    operations that were in the pool, and leaves out those found invalid. *)

From stdpp Require Import base gmap fin_maps sets numbers strings list.
From S2P Require Import Prelude Collections PoolTypes TrackedMap FuturePool ReadyPool ReadyInv BasePool BaseInv BaseOps Rotator Listener ValidatedPool VPoolInv.

Module VPoolResubmit.
Import VPool BaseInv BaseOps BaseLimits VPoolInv VPoolOps.

Section resubmit.
Context `{Ord : IterOrder} {Ex E Sink : Type}.
Implicit Types (v : ValidatedPool Ex Sink) (s : ShardIdentifier) (now : Z) (p : Base.BasePool Ex).
Implicit Types (updated : gmap TxHash (ValidatedOperation Ex E)) (acc : resubmit_acc (Ex := Ex) (E := E)).

(** The operations of the pool are well-formed, so the removed ones are. *)
Lemma remove_subtree_ok p hashes s p' removed o :
  base_inv p → Base.remove_subtree p hashes s = Ret (p', removed) → o ∈ removed → operation_ok o.
Proof.
  intros Hp Heq Hin. pose proof (bi_pool _ Hp) as Hpi. unfold Base.remove_subtree in Heq.
  destruct (ReadyRemove.ready_remove_spec (Base.ready p) hashes s (pi_ready _ _ Hpi))
    as (r' & l & Hr & _ & _ & _ & Hrem). rewrite Hr in Heq. cbn [mbind outcome_bind] in Heq.
  destruct (Future.remove _ _ _) as [f' l2] eqn:Hf. injection Heq as _ <-.
  apply (FutureInv.remove_spec _ _ _ _ _ (pi_future _ _ Hpi)) in Hf as (_ & _ & _ & _ & Hl2).
  apply elem_of_app in Hin as [Hin|Hin].
  - apply (ReadyRemove.rms_removed _ _ _ _ _ Hrem) in Hin as (h & tx & Htx & _ & <-).
    by eapply ReadyInv.inv_ok; [apply ReadyInv.ready_inv_at, Hpi|].
  - apply Hl2 in Hin as (h & w & _ & Hw & <-). by eapply pi_ok.
Qed.

(** Every entry stands for the operation of its key. *)
Definition updated_ok updated : Prop :=
  ∀ h op, updated !! h = Some (Valid op) → op_hash op = h ∧ operation_ok op.

(** The operations queued for resubmission. *)
Definition tx_ok updated (e : TxHash * ValidatedOperation Ex E) : Prop :=
  match e.2 with Valid op => op_hash op = e.1 ∧ operation_ok op | _ => True end ∧
  (updated !! e.1 = Some e.2 ∨ updated !! e.1 = None).

Record removing p0 s updated0 acc : Prop := {
  rv_inv : base_inv (ra_pool acc);
  rv_frame : same_elsewhere s p0 (ra_pool acc);
  rv_ids : id_at (Base.ready (ra_pool acc)) s = id_at (Base.ready p0) s ∧
    size (waiting_at (Base.future (ra_pool acc)) s) ≤ size (waiting_at (Base.future p0) s);
  rv_updated : ra_updated acc ⊆ updated0;
  rv_nodup : NoDup (ra_txs acc).*1;
  rv_txs : ∀ e, e ∈ ra_txs acc → tx_ok updated0 e;
  rv_from : ∀ h, h ∈ (ra_txs acc).*1 → h ∈ pool_hashes p0 s ∧ h ∉ pool_hashes (ra_pool acc) s ∧
    ra_updated acc !! h = None;
  rv_pool : pool_hashes (ra_pool acc) s ⊆ pool_hashes p0 s;
  rv_done : ∀ h, is_Some (updated0 !! h) → ra_updated acc !! h = None → h ∉ pool_hashes (ra_pool acc) s;
}.

(** The accumulator over the operations one removal returned. *)
Lemma resubmit_removed_spec updated0 p' removed acc :
  let acc' := foldl resubmit_removed (MkResubmitAcc p' (ra_updated acc) (ra_initial acc) (ra_txs acc)) removed in
  (∀ o, o ∈ removed → operation_ok o) → NoDup (op_hash <$> removed) →
  updated_ok updated0 → ra_updated acc ⊆ updated0 →
  (∀ h, h ∈ op_hash <$> removed → is_Some (updated0 !! h) → is_Some (ra_updated acc !! h)) →
  ra_pool acc' = p' ∧
  (∀ h, ra_updated acc' !! h = if decide (h ∈ op_hash <$> removed) then None else ra_updated acc !! h) ∧
  (ra_txs acc').*1 = (ra_txs acc).*1 ++ (op_hash <$> removed) ∧
  (∀ e, e ∈ ra_txs acc' → e ∈ ra_txs acc ∨ tx_ok updated0 e).
Proof.
  intros acc' Hok Hnd Hu0 Hsub Hstill. subst acc'. revert acc Hsub Hstill.
  induction removed as [|o removed IH]; intros acc Hsub Hstill; cbn [foldl].
  { rewrite fmap_nil, app_nil_r. split_and!; [done| |done|by left].
    intros h. by rewrite decide_False by set_solver. }
  rewrite fmap_cons in Hnd. apply NoDup_cons in Hnd as [Hno Hnd].
  set (acc1 := resubmit_removed _ o).
  destruct (IH ltac:(intros; apply Hok; by right) Hnd acc1) as (Hp & Hup & Hk & Htx).
  { simpl. etrans; [apply delete_subseteq|done]. }
  { intros h Hin Hs. simpl. rewrite lookup_delete_ne by (intros <-; done). apply Hstill; [by right|done]. }
  split_and!; [exact Hp|..].
  - intros h. change (foldl resubmit_removed _ removed) with
      (foldl resubmit_removed (MkResubmitAcc p' (ra_updated acc1) (ra_initial acc1) (ra_txs acc1)) removed).
    rewrite Hup. simpl. destruct (decide (h ∈ op_hash <$> removed)).
    { by rewrite decide_True by (by right). }
    destruct (decide (h = op_hash o)) as [->|Hne].
    + by rewrite lookup_delete_eq, decide_True by left.
    + rewrite lookup_delete_ne, decide_False by set_solver. done.
  - change (foldl resubmit_removed _ removed) with
      (foldl resubmit_removed (MkResubmitAcc p' (ra_updated acc1) (ra_initial acc1) (ra_txs acc1)) removed).
    rewrite Hk. simpl. rewrite fmap_app. simpl. by rewrite <-app_assoc.
  - intros e He. destruct (Htx e He) as [Hin|?]; [|by right]. simpl in Hin.
    apply elem_of_app in Hin as [?| ->%list_elem_of_singleton]; [by left|right].
    unfold tx_ok. simpl. destruct (ra_updated acc !! op_hash o) as [t|] eqn:Hl; simpl.
    + pose proof (lookup_weaken _ _ _ _ Hl Hsub) as Hl0. split; [|by left].
      destruct t; [by apply Hu0|done..].
    + split; [split; [done|apply Hok; left]|right]. apply eq_None_not_Some. intros Hs.
      apply Hstill in Hs; [|left]. rewrite Hl in Hs. by destruct Hs.
Qed.

Lemma map_keys_nil updated : map_keys updated = [] → updated = ∅.
Proof.
  unfold map_keys. intros Hk. apply map_to_list_empty_iff.
  assert ((map_to_list updated).*1 ≡ₚ []) as Hp by (rewrite <-Hk; symmetry; apply iter_order_perm).
  apply Permutation_nil_r in Hp. by apply fmap_nil_inv in Hp.
Qed.

Lemma map_keys_elem updated h ks : map_keys updated = h :: ks → is_Some (updated !! h).
Proof.
  intros Hk. assert (h ∈ map_keys updated) as Hin by (rewrite Hk; left).
  unfold map_keys in Hin. rewrite iter_order_perm in Hin. apply list_elem_of_fmap in Hin as ([k t] & -> & Hin).
  exists t. by apply elem_of_map_to_list.
Qed.

(** One iteration of the removal loop on a key [h]. *)
Lemma removing_step p0 s updated0 acc h p' removed :
  updated_ok updated0 → removing p0 s updated0 acc → is_Some (ra_updated acc !! h) →
  Base.remove_subtree (ra_pool acc) [h] s = Ret (p', removed) →
  let acc' := foldl resubmit_removed (MkResubmitAcc p' (ra_updated acc) (ra_initial acc) (ra_txs acc)) removed in
  removing p0 s updated0
    (MkResubmitAcc (ra_pool acc') (delete h (ra_updated acc')) (ra_initial acc') (ra_txs acc')).
Proof.
  intros Hu0 Hrv Hh Heq acc'. pose proof Hrv as [Hinv Hfr [Hid Hwt] Hsub Hnd Htxs Hfrom Hpool Hdone].
  pose proof (remove_subtree_ids _ _ _ _ _ Hinv Heq) as [Hid' Hwt'].
  pose proof (λ o, remove_subtree_ok _ _ _ _ _ o Hinv Heq) as Hok.
  destruct (base_remove_spec (ra_pool acc) [h] s Hinv) as (p1 & r1 & Heq1 & Hinv' & Hfr' & Hg & [Hacc Hgone Hrnd]).
  rewrite Heq1 in Heq. injection Heq as -> ->.
  assert (∀ x, x ∈ op_hash <$> removed → x ∈ pool_hashes (ra_pool acc) s ∧ x ∉ pool_hashes p' s) as Hremoved.
  { intros x Hx. assert (x ∈ op_hashes removed) as Hx' by (unfold op_hashes; by rewrite elem_of_list_to_set).
    split; [rewrite <-Hacc; by apply elem_of_union_r|by apply Hgone]. }
  assert (pool_hashes p' s ⊆ pool_hashes (ra_pool acc) s) as Hshrink by (rewrite <-Hacc; apply union_subseteq_l).
  destruct (resubmit_removed_spec updated0 p' removed acc Hok Hrnd Hu0 Hsub) as (Hp & Hup & Hk & Htx).
  { intros x Hx Hs. apply not_eq_None_Some. intros Hn. by apply (Hdone x Hs Hn), Hremoved. }
  fold acc' in Hp, Hup, Hk, Htx. split; cbn [ra_pool ra_updated ra_txs]; rewrite ?Hp.
  - done.
  - by eapply same_elsewhere_trans.
  - split; [congruence|lia].
  - apply map_subseteq_spec. intros x t. rewrite lookup_delete_Some, Hup. intros [_ Hx]. case_decide; [done|].
    by eapply lookup_weaken.
  - rewrite Hk. apply NoDup_app. split_and!; [done| |done]. intros x Hx1 Hx2.
    by apply (Hfrom x Hx1), Hremoved.
  - intros e He. destruct (Htx e He) as [?|?]; [by apply Htxs|done].
  - intros x. rewrite Hk, elem_of_app. intros [Hx|Hx].
    + destruct (Hfrom x Hx) as (? & Hnp & Hn). split_and!; [done|set_solver|]. apply lookup_delete_None. right.
      rewrite Hup, Hn. by case_decide.
    + destruct (Hremoved x Hx). split_and!; [set_solver|done|]. apply lookup_delete_None. right.
      by rewrite Hup, decide_True.
  - set_solver.
  - intros x Hs. rewrite lookup_delete_None, Hup. intros [<-|Hx].
    + eapply subtree_gone_roots; [exact Hg|left].
    + case_decide as Hin; [by apply Hremoved|]. pose proof (Hdone x Hs Hx). set_solver.
Qed.
Lemma removing_init p0 s updated0 :
  base_inv p0 → removing p0 s updated0 (MkResubmitAcc p0 updated0 ∅ []).
Proof.
  intros Hp. split; simpl; [done|apply same_elsewhere_refl|done|done|apply NoDup_nil_2|..].
  - set_solver.
  - set_solver.
  - done.
  - intros h [t Ht]. by rewrite Ht.
Qed.

Lemma foldl_removed_updated removed (acc : resubmit_acc (Ex := Ex) (E := E)) :
  ra_updated (foldl resubmit_removed acc removed) ⊆ ra_updated acc.
Proof.
  revert acc. induction removed as [|o removed IH]; intros acc; cbn [foldl]; [done|].
  etrans; [apply IH|]. simpl. apply delete_subseteq.
Qed.

Lemma remove_loop_spec p0 s updated0 :
  base_inv p0 → updated_ok updated0 →
  ∃ acc, loop (S (size updated0)) (resubmit_remove_step s) (MkResubmitAcc p0 updated0 ∅ []) = Ret acc ∧
    removing p0 s updated0 acc ∧ ra_updated acc = ∅.
Proof.
  intros Hp Hu. apply (loop_total (resubmit_remove_step s) (removing p0 s updated0) (λ acc, size (ra_updated acc)));
    [|by apply removing_init|simpl; lia].
  intros acc Hrv. unfold resubmit_remove_step. destruct (map_keys (ra_updated acc)) as [|h ks] eqn:Hk.
  - right. eexists. split; [done|]. split; [done|]. by apply map_keys_nil.
  - left. apply map_keys_elem in Hk as Hh.
    destruct (base_remove_spec (ra_pool acc) [h] s (rv_inv _ _ _ _ Hrv)) as (p' & removed & Heq & _).
    rewrite Heq. cbn [mbind outcome_bind]. eexists. split; [done|].
    pose proof (removing_step _ _ _ _ _ _ _ Hu Hrv Hh Heq) as Hstep. split; [exact Hstep|].
    cbn [ra_updated]. set (acc' := foldl _ _ _). fold acc' in Hstep.
    pose proof (foldl_removed_updated removed
      (MkResubmitAcc p' (ra_updated acc) (ra_initial acc) (ra_txs acc))) as Hsub.
    fold acc' in Hsub. cbn [ra_updated] in Hsub.
    assert (size (delete h (ra_updated acc)) < size (ra_updated acc)) as Hlt.
    { rewrite map_size_delete_Some by done. assert (size (ra_updated acc) ≠ 0); [|lia].
      rewrite map_size_ne_0_lookup. by exists h. }
    eapply Nat.le_lt_trans; [|exact Hlt]. apply map_subseteq_size. by apply delete_mono.
Qed.

(** *** The imports *)

Record importing p0 s updated0 p : Prop := {
  im_inv : base_inv p;
  im_future : FutureInv.only_shard s (Base.future p0) (Base.future p);
  im_ready : ReadyInv.only_shard s (Base.ready p0) (Base.ready p);
  im_pool : pool_hashes p s ⊆ pool_hashes p0 s;
  im_bad : ∀ h t, updated0 !! h = Some t → (∀ op, t ≠ Valid op) → h ∉ pool_hashes p s;
}.

Lemma resubmit_import_spec now p0 s updated0 p statuses e n :
  importing p0 s updated0 p → tx_ok updated0 e → e.1 ∈ pool_hashes p0 s →
  ids_left p s (S n + size (waiting_at (Base.future p) s)) →
  ∃ p' statuses', resubmit_import now s (p, statuses) e = Ret (p', statuses') ∧
    importing p0 s updated0 p' ∧ ids_left p' s (n + size (waiting_at (Base.future p') s)).
Proof.
  intros [Hinv Hf Hr Hsub Hbad] [Hok Hu] Hin Hid. destruct e as [h t]. simpl in *.
  destruct t as [op|? ?|? ?].
  2,3: eexists _, _; split; [done|]; split; [by split|unfold ids_left in *; lia].
  destruct Hok as [<- Hok].
  destruct (base_import_spec now p op s Hinv Hok) as (p' & res & Heq & Hinv' & [Hf' Hr' _ _ _] & Hused & Hpost).
  { unfold ids_left in *. lia. }
  rewrite Heq. cbn [mbind outcome_bind].
  assert (importing p0 s updated0 p' ∧ ids_left p' s (n + size (waiting_at (Base.future p') s))) as Hgood.
  { split; [split|unfold ids_left, ids_used in *; lia].
    - done.
    - by eapply FutureInv.future_only_shard_trans.
    - by eapply ReadyInv.ready_only_shard_trans.
    - etrans; [by eapply import_post_subset|]. set_solver.
    - intros h t Ht Hb. eapply import_post_absent; [done|by eapply Hbad|]. intros ->.
      destruct Hu as [Hu|Hu]; rewrite Hu in Ht; [|done]. injection Ht as <-. by eapply Hb. }
  destruct res as [[]|]; eexists _, _; (split; [done|exact Hgood]).
Qed.

Lemma resubmit_imports_spec now p0 s updated0 txs p statuses :
  importing p0 s updated0 p → (∀ e, e ∈ txs → tx_ok updated0 e ∧ e.1 ∈ pool_hashes p0 s) →
  ids_left p s (length txs + size (waiting_at (Base.future p) s)) →
  ∃ p' statuses', for_each (resubmit_import now s) (p, statuses) txs = Ret (p', statuses') ∧
    importing p0 s updated0 p'.
Proof.
  revert p statuses. induction txs as [|e txs IH]; intros p statuses Him Htxs Hid; [by eexists _, _|].
  destruct (Htxs e ltac:(left)) as [Hok Hin].
  destruct (resubmit_import_spec now p0 s updated0 p statuses e (length txs) Him Hok Hin Hid)
    as (p' & st' & Heq & Him' & Hid'). rewrite (for_each_cons _ _ _ _ _ Heq).
  apply IH; [done| |done]. intros e' He'. apply Htxs. by right.
Qed.

(** The statuses of the resubmitted operations reach the listener. *)
Lemma resubmit_events_inv (l : Listen.Listener) (initial : gmap TxHash ResubmitStatus) es :
  Listen.listener_inv l → Listen.listener_inv (foldl resubmit_event (l, initial) es).1.
Proof.
  revert l initial. induction es as [|[h st] es IH]; intros l initial Hl; cbn [foldl]; [done|].
  apply IH. unfold resubmit_event. case_decide; [done|].
  destruct st; auto using listener_future_inv, listener_ready_inv, listener_dropped_inv, listener_invalid_inv.
Qed.

Record resubmits v s updated v' : Prop := {
  rs_rotator : rotator v' = rotator v;
  rs_reject : Base.reject_future_operations (pool v') = Base.reject_future_operations (pool v);
  rs_pool : pool_hashes (pool v') s ⊆ pool_hashes (pool v) s;
  rs_invalid : ∀ h t, updated !! h = Some t → (∀ op, t ≠ Valid op) → h ∉ pool_hashes (pool v') s;
  rs_future : Base.reject_future_operations (pool v) = true → waiting_at (Base.future (pool v')) s = ∅;
}.

Lemma resubmit_all_spec now p0 s updated0 acc :
  removing p0 s updated0 acc → ra_updated acc = ∅ →
  ids_left p0 s (size (pool_hashes p0 s) + size (waiting_at (Base.future p0) s)) →
  ∃ p' statuses, resubmit_all now s (ra_txs acc) (Base.set_reject (ra_pool acc) false)
      (Base.reject_future_operations p0) = Ret (p', statuses) ∧ importing p0 s updated0 p' ∧
    (Base.reject_future_operations p0 = true → waiting_at (Base.future p') s = ∅).
Proof.
  intros Hrv He Hids. pose proof Hrv as [Hinv Hfr [Hid Hwt] _ Hnd Htxs Hfrom Hpool Hdone].
  assert (length (ra_txs acc) ≤ size (pool_hashes p0 s)) as Hlen.
  { rewrite <-(length_fmap fst), <-(size_list_to_set (C := gset TxHash)) by done.
    apply subseteq_size. intros h. rewrite elem_of_list_to_set. intros Hh. by apply Hfrom. }
  unfold resubmit_all.
  destruct (resubmit_imports_spec now p0 s updated0 (ra_txs acc) (Base.set_reject (ra_pool acc) false) ∅)
    as (p' & st & -> & [Hinv' Hf' Hr' Hp' Hb']).
  { destruct Hfr as [Hf Hr _ _ _]. split; simpl; [|done|done|done|].
    - destruct Hinv. by split.
    - intros h t Ht _. apply Hdone; [by eexists|]. by rewrite He. }
  { intros e Hin. split; [by apply Htxs|]. apply Hfrom. apply list_elem_of_fmap. eauto. }
  { unfold ids_left in *. simpl. rewrite Hid. lia. }
  cbn [mbind outcome_bind]. destruct (Base.reject_future_operations p0) eqn:Hrej.
  - destruct (clear_future_spec p' s Hinv') as (p2 & cleared & -> & Hp2 & [Hf2 Hr2 _ _ _] & Hrd & Hw & _).
    cbn [mbind outcome_bind]. eexists _, _. split; [done|]. split; [|done].
    assert (pool_hashes p2 s ⊆ pool_hashes p' s) as Hsub.
    { unfold pool_hashes, known. rewrite Hw, Hrd. set_solver. }
    split; [done|by eapply FutureInv.future_only_shard_trans|by eapply ReadyInv.ready_only_shard_trans|by etrans|].
    intros h t Ht Hn Hin. by apply (Hb' h t Ht Hn), Hsub.
  - eexists _, _. split; [done|]. split; [by split|done].
Qed.

Lemma resubmit_spec now v updated s :
  vpool_inv v → updated_ok updated → room v s (size (pool_hashes (pool v) s)) →
  ∃ v', resubmit now v updated s = Ret v' ∧ vpool_inv v' ∧ frame s v v' ∧ resubmits v s updated v'.
Proof.
  intros [Hp Hl Hr Hlim] Hu Hroom. unfold resubmit.
  destruct (remove_loop_spec (pool v) s updated Hp Hu) as (acc & -> & Hrv & He). cbn [mbind outcome_bind].
  destruct (resubmit_all_spec now (pool v) s updated acc Hrv He Hroom) as (p' & st & Heq & [Hinv Hf Hrd Hsub Hbad] & Hfut).
  unfold Base.with_futures_enabled. rewrite (se_reject _ _ _ (rv_frame _ _ _ _ Hrv)), Heq.
  cbn [mbind outcome_bind].
  pose proof (resubmit_events_inv (listener v) (ra_initial acc) (iter_order (map_to_list st)) Hl) as Hl'.
  destruct (foldl resubmit_event _ _) as [l' rest]. eexists. split; [done|]. split_and!; [|by split|].
  - destruct Hinv. by split.
  - by split.
Qed.
End resubmit.
End VPoolResubmit.
