(* ===== verification/OpPool.v ===== *)
(** The pool that validates (core-primitives/top-pool/src/pool.rs) and the
    polling queue of core-primitives/top-pool/src/basic_pool.rs.  [BasicPool]
    itself only forwards to [Pool] and [ValidatedPool]; futures that the code
    awaits at once are plain values. *)

From stdpp Require Import base gmap fin_maps sets numbers strings list.
From S2P Require Import Prelude Collections PoolTypes TrackedMap FuturePool ReadyPool BasePool Rotator Listener ValidatedPool.

Module OpPool.
Import VPool(ValidatedPool, send_result).

Inductive CheckBannedBeforeVerify := CheckYes | CheckNo.

Section pool.
Context `{Ord : IterOrder} {Ex E Sink : Type} `{!ApiError E}.
Context (api : ChainApi Ex E) (try_send : Sink → TxHash → send_result * Sink).
Implicit Types (v : ValidatedPool Ex Sink) (shard : ShardIdentifier) (now : Z).

Definition hash_of (xt : Ex) : TxHash := (hash_and_length api xt).1.

Definition _resolve_block_number (at_ : BlockId) : result Z E :=
  match block_id_to_number api at_ with
  | Err e => Err e
  | Ok (Some n) => Ok n
  | Ok None => Err (from_pool_error (InvalidBlockId (debug_block_id api at_)))
  end.

Definition verify_one v (block_number : Z) (source : TrustedOperationSource) (xt : Ex)
    (check : CheckBannedBeforeVerify) shard : TxHash * ValidatedOperation Ex E :=
  let '(hash, bytes) := hash_and_length api xt in
  let ignore_banned := match check with CheckNo => true | CheckYes => false end in
  match VPool.check_is_known (E := E) v hash ignore_banned shard with
  | Err err => (hash, Invalid hash err)
  | Ok _ =>
      match validate_transaction api source xt shard with
      | Err e => (hash, Invalid hash e)
      | Ok (Ok validity) =>
          (hash,
           match vt_provides validity with
           | [] => Invalid hash (from_pool_error NoTagsProvided)
           | _ => valid_at block_number hash source xt bytes validity
           end)
      | Ok (Err InvalidTransaction) => (hash, Invalid hash (from_pool_error InvalidTrustedOperation))
      | Ok (Err UnknownTransaction) => (hash, Unknown hash (from_pool_error UnknownTrustedOperation))
      end
  end.

(** [collect::<HashMap<_, _>>]: a later pair replaces an earlier one.  The block
    number is the dummy value of the source. *)
Definition verify v (xts : list (TrustedOperationSource * Ex)) (check : CheckBannedBeforeVerify)
    shard : gmap TxHash (ValidatedOperation Ex E) :=
  foldl (λ m '(h, op), <[h := op]> m) ∅
    ((λ '(source, xt), verify_one v 0 source xt check shard) <$> xts).

Definition submit_at now v (source : TrustedOperationSource) (xts : list Ex) shard :
    outcome (ValidatedPool Ex Sink * list (result TxHash E)) :=
  VPool.submit try_send now v
    (map_values (verify v ((λ xt, (source, xt)) <$> xts) CheckYes shard)) shard.

Definition resubmit_at now v (source : TrustedOperationSource) (xts : list Ex) shard :
    outcome (ValidatedPool Ex Sink * list (result TxHash E)) :=
  VPool.submit try_send now v
    (map_values (verify v ((λ xt, (source, xt)) <$> xts) CheckNo shard)) shard.

Definition submit_one now v (source : TrustedOperationSource) (xt : Ex) shard :
    outcome (ValidatedPool Ex Sink * result TxHash E) :=
  submit_at now v source [xt] shard ≫= λ '(v, results),
  unwrap (last results) ≫= λ res, Ret (v, res).

Definition submit_and_watch now v (source : TrustedOperationSource) (xt : Ex) shard :
    outcome (ValidatedPool Ex Sink * result TxHash E) :=
  VPool.submit_and_watch try_send now v (verify_one v 0 source xt CheckYes shard).2 shard.

Definition resubmit now v (revalidated : gmap TxHash (ValidatedOperation Ex E)) shard :
    outcome (ValidatedPool Ex Sink) :=
  VPool.resubmit now v revalidated shard.

Definition prune_known v (at_ : BlockId) (hashes : list TxHash) shard :
    outcome (ValidatedPool Ex Sink * result unit E) :=
  let in_pool_tags := mjoin (omap id (VPool.extrinsics_tags v hashes shard)) in
  VPool.prune_tags (E := E) v in_pool_tags shard ≫= λ '(v, res),
  match res with
  | Err e => Ret (v, Err e)
  | Ok prune_status => VPool.fire_pruned api v at_ (Ret (hashes ++ (op_hash <$> pruned prune_status)))
  end.

Definition prune_tags (fuel : nat) now v (at_ : BlockId) (tags : list Tag)
    (known_imported_hashes : list TxHash) shard :
    outcome (ValidatedPool Ex Sink * result unit E) :=
  VPool.prune_tags (E := E) v tags shard ≫= λ '(v, res),
  match res with
  | Err e => Ret (v, Err e)
  | Ok prune_status =>
      VPool.ban now v known_imported_hashes ≫= λ v,
      let pruned_hashes := op_hash <$> pruned prune_status in
      let pruned_transactions := (λ tx, (source tx, data tx)) <$> pruned prune_status in
      let reverified := verify v pruned_transactions CheckYes shard in
      VPool.resubmit_pruned api try_send fuel now v at_ known_imported_hashes pruned_hashes
        (map_values reverified) shard
  end.

(** The tags an extrinsic of the block provides. *)
Definition tags_of_extrinsic shard (e : Ex * option (list Tag)) : list Tag :=
  match e.2 with
  | Some tags => tags
  | None =>
      match validate_transaction api SourceInBlock e.1 shard with
      | Ok (Ok validity) => vt_provides validity
      | _ => []
      end
  end.

Definition prune (fuel : nat) now v (at_ : BlockId) (extrinsics : list Ex) shard :
    outcome (ValidatedPool Ex Sink * result unit E) :=
  let in_pool_hashes := hash_of <$> extrinsics in
  let in_pool_tags := VPool.extrinsics_tags v in_pool_hashes shard in
  let future_tags := mjoin (tags_of_extrinsic shard <$> zip extrinsics in_pool_tags) in
  prune_tags fuel now v at_ future_tags in_pool_hashes shard.
End pool.

(** *** [ReadyPoll] *)

(** Pollers waiting for a block number; [poller] is the sending half of the
    one-shot channel. *)
Record ReadyPoll (poller : Type) := MkReadyPoll {
  updated_at : Z;
  pollers : list (Z * poller);
}.
Arguments MkReadyPoll {poller} _ _.
Arguments updated_at {poller} _.
Arguments pollers {poller} _.

Section ready_poll.
Context {poller : Type}.
Implicit Types r : ReadyPoll poller.

Definition default_poll : ReadyPoll poller := MkReadyPoll 0 [].

(** The loop of [trigger]: the pollers answered, in order, and those left. *)
Definition trigger_step (number : Z) (st : nat * list (Z * poller) * list poller) :
    outcome ((nat * list (Z * poller) * list poller) + (list (Z * poller) * list poller)) :=
  let '(idx, ps, answered) := st in
  match ps !! idx with
  | None => Ret (inr (ps, answered))
  | Some p =>
      if (p.1 <=? number)%Z then
        unwrap (swap_remove idx ps) ≫= λ '(p, ps'), Ret (inl (idx, ps', answered ++ [p.2]))
      else Ret (inl (S idx, ps, answered))
  end.

Definition trigger r (number : Z) : outcome (ReadyPoll poller * list poller) :=
  loop (S (length (pollers r))) (trigger_step number) (0, pollers r, []) ≫= λ '(ps, answered),
  Ret (MkReadyPoll number ps, answered).

Definition add r (number : Z) (p : poller) : ReadyPoll poller :=
  MkReadyPoll (updated_at r) (pollers r ++ [(number, p)]).
End ready_poll.
End OpPool.
