(* ===== verification/StfTypes.v ===== *)
(** Trusted operations of the STF and their validation for the pool
    (core-primitives/stf-primitives/src/types.rs and traits.rs, getters from
    app-libs/stf/src/getter.rs).  The SCALE codec is external: [SlotCodec] is
    the encoding of a (sender, nonce) pair and of a signature. *)

From stdpp Require Import base list gmap numbers strings.
From S2P Require Import Prelude Collections PoolTypes ValidatedPool.

(** [AccountId32], used as a key only; [Index] is a [u32]. *)
Abbreviation AccountId := N (only parsing).
Abbreviation Signature := (list N) (only parsing).

(** [TrustedCallVerification]. *)
Class TrustedCallVerification (TCS : Type) := {
  sender_account : TCS → AccountId;
  call_nonce : TCS → Z;
}.

(** [PoolTransactionValidation]. *)
Class PoolTransactionValidation (G : Type) := {
  validate : G → TransactionValidity;
}.

(** The SCALE encodings that become tags; encoding loses nothing. *)
Class SlotCodec := {
  encode_slot : AccountId → Z → Tag;
  encode_signature : Signature → Tag;
  encode_slot_inj : ∀ a n a' n', encode_slot a n = encode_slot a' n' → a = a' ∧ n = n';
}.

(** [TrustedOperation<TCS, G>]. *)
Inductive StfTrustedOperation (TCS G : Type) :=
| indirect_call (c : TCS)
| direct_call (c : TCS)
| get (g : G).
Arguments indirect_call {TCS G} _.
Arguments direct_call {TCS G} _.
Arguments get {TCS G} _.

Inductive TrustedOperationOrHash (TCS G : Type) :=
| TopHash (h : TxHash)
| TopEncoded (bytes : list N)
| TopOperation (op : StfTrustedOperation TCS G).
Arguments TopHash {TCS G} _.
Arguments TopEncoded {TCS G} _.
Arguments TopOperation {TCS G} _.

Definition from_top {TCS G} (top : StfTrustedOperation TCS G) : TrustedOperationOrHash TCS G :=
  TopOperation top.

Section stf.
Context `{!SlotCodec} {TCS G : Type} `{!TrustedCallVerification TCS} `{!PoolTransactionValidation G}.

Definition to_call (op : StfTrustedOperation TCS G) : option TCS :=
  match op with
  | direct_call c => Some c
  | indirect_call c => Some c
  | get _ => None
  end.

Definition signed_caller_account (op : StfTrustedOperation TCS G) : option AccountId :=
  match op with
  | direct_call c => Some (sender_account c)
  | indirect_call c => Some (sender_account c)
  | get _ => None
  end.

Definition validate_trusted_call (c : TCS) : ValidTransaction :=
  MkValidTransaction (Z.shiftl 1 20) [] [encode_slot (sender_account c) (call_nonce c)] 64 true.

(** [impl PoolTransactionValidation for TrustedOperation]. *)
#[export] Instance validate_trusted_operation : PoolTransactionValidation (StfTrustedOperation TCS G) :=
  {| validate op :=
       match op with
       | direct_call c => Ok (validate_trusted_call c)
       | indirect_call c => Ok (validate_trusted_call c)
       | get g => validate g
       end |}.
End stf.

(** [Getter] of the STF; what a getter asks for plays no role here. *)
Inductive Getter (PG TG : Type) :=
| public_getter (g : PG)
| trusted_getter (g : TG) (signature : Signature).
Arguments public_getter {PG TG} _.
Arguments trusted_getter {PG TG} _ _.

#[export] Instance validate_getter `{!SlotCodec} {PG TG} : PoolTransactionValidation (Getter PG TG) :=
  {| validate g :=
       match g with
       | public_getter _ => Err UnknownTransaction
       | trusted_getter _ signature =>
           Ok (MkValidTransaction (Z.shiftl 1 20) [] [encode_signature signature] 64 true)
       end |}.
