(* ===== verification/Author.v ===== *)
(** The author (core-primitives/top-pool-author): the RPC entry point that
    decrypts, decodes and filters trusted operations and hands them to the pool,
    with the chain api the pool uses ([SidechainApi], api.rs), the filters
    (top_filter.rs) and the errors (error.rs, client_error.rs).

    External: the state facade, the shielding key, the SCALE codec, BLAKE2. *)

From stdpp Require Import base gmap fin_maps sets numbers strings list.
From S2P Require Import Prelude Collections PoolTypes TrackedMap FuturePool ReadyPool BasePool Rotator Listener ValidatedPool OpPool StfTypes.

Module Author.
Import VPool(ValidatedPool, send_result).

(** *** Errors *)

(** [client_error::Error]. *)
Inductive ClientError :=
| CeClient (msg : string)
| CePool (e : PoolError)
| CeVerification
| CeBadFormat
| CeBadFormatDecipher
| CeBadSeedPhrase
| CeBadKeyType
| CeUnsupportedKeyType
| CeKeyStoreUnavailable
| CeInvalidSessionKeys
| CeInvalidShard
| CeUnsupportedOperation.

(** [error::Error]. *)
Inductive StateRpcError :=
| SeClient (msg : string)
| SeInvalidBlockRange (from to details : string)
| SeInvalidCount (value max : Z)
| SePoolError (e : PoolError)
| SeClientError (e : ClientError)
| SeCodecError.

(** [jsonrpc_core::ErrorCode], the part in use. *)
Inductive ErrorCode := ServerError (code : Z) | InternalError.

Definition BASE_ERROR : Z := 1000.
Definition BAD_FORMAT : Z := BASE_ERROR + 1.
Definition VERIFICATION_ERROR : Z := BASE_ERROR + 2.
Definition POOL_INVALID_TX : Z := BASE_ERROR + 10.
Definition POOL_UNKNOWN_VALIDITY : Z := POOL_INVALID_TX + 1.
Definition POOL_TEMPORARILY_BANNED : Z := POOL_INVALID_TX + 2.
Definition POOL_ALREADY_IMPORTED : Z := POOL_INVALID_TX + 3.
Definition POOL_TOO_LOW_PRIORITY : Z := POOL_INVALID_TX + 4.
Definition POOL_CYCLE_DETECTED : Z := POOL_INVALID_TX + 5.
Definition POOL_IMMEDIATELY_DROPPED : Z := POOL_INVALID_TX + 6.
Definition UNSUPPORTED_KEY_TYPE : Z := POOL_INVALID_TX + 7.
Definition STATE_BASE_ERROR : Z := 4000.

(** [From<client_error::Error> for rpc::Error], its code. *)
Definition client_error_code (e : ClientError) : ErrorCode :=
  match e with
  | CeBadFormat => ServerError BAD_FORMAT
  | CeBadFormatDecipher => ServerError BAD_FORMAT
  | CeVerification => ServerError VERIFICATION_ERROR
  | CeInvalidShard => ServerError VERIFICATION_ERROR
  | CePool InvalidTrustedOperation => ServerError POOL_INVALID_TX
  | CePool UnknownTrustedOperation => ServerError POOL_UNKNOWN_VALIDITY
  | CePool TemporarilyBanned => ServerError POOL_TEMPORARILY_BANNED
  | CePool AlreadyImported => ServerError POOL_ALREADY_IMPORTED
  | CePool (TooLowPriority _) => ServerError POOL_TOO_LOW_PRIORITY
  | CePool CycleDetected => ServerError POOL_CYCLE_DETECTED
  | CePool ImmediatelyDropped => ServerError POOL_IMMEDIATELY_DROPPED
  | CeUnsupportedKeyType => ServerError UNSUPPORTED_KEY_TYPE
  | _ => InternalError
  end.

(** [From<error::Error> for rpc::Error], its code. *)
Definition state_error_code (e : StateRpcError) : ErrorCode :=
  match e with
  | SeInvalidBlockRange _ _ _ => ServerError (STATE_BASE_ERROR + 1)
  | SeInvalidCount _ _ => ServerError (STATE_BASE_ERROR + 2)
  | _ => ServerError (STATE_BASE_ERROR + 4)
  end.

(** [impl IntoPoolError for Error] and [From<PoolError>]. *)
#[export] Instance state_api_error : ApiError StateRpcError :=
  {| from_pool_error := SePoolError;
     into_pool_error e := match e with SePoolError e => Ok e | e => Err e end |}.

(** An [RpcError], before its conversion to JSON. *)
Inductive RpcError :=
| RpcClientError (e : ClientError)
| RpcStateError (e : StateRpcError).

Definition rpc_code (e : RpcError) : ErrorCode :=
  match e with RpcClientError e => client_error_code e | RpcStateError e => state_error_code e end.

Definition map_top_error (e : StateRpcError) : RpcError :=
  RpcStateError (SePoolError
    match into_pool_error e with Ok e => e | Err _ => Verification end).

(** *** Filters *)

Section filters.
Context {TCS G : Type}.
Implicit Types value : StfTrustedOperation TCS G.

Definition calls_only_filter value : bool :=
  match value with direct_call _ => true | indirect_call _ => true | get _ => false end.
Definition allow_all_tops_filter value : bool := true.
Definition getters_only_filter value : bool :=
  match value with get _ => true | _ => false end.
Definition indirect_calls_only_filter value : bool :=
  match value with indirect_call _ => true | _ => false end.
Definition no_direct_calls_filter value : bool :=
  negb match value with direct_call _ => true | _ => false end.
Definition deny_all_filter value : bool := false.
End filters.

(** *** [SidechainApi] *)

Section sidechain_api.
Context {TOP : Type} `{!PoolTransactionValidation TOP}.

Definition sidechain_validate (_source : TrustedOperationSource) (uxt : TOP)
    (_shard : ShardIdentifier) : result TransactionValidity StateRpcError :=
  Ok (validate uxt).

Definition sidechain_id_to_number (at_ : BlockId) : result (option Z) StateRpcError :=
  Ok match at_ with BlockIdNumber num => Some num | BlockIdHash _ => None end.

Definition sidechain_id_to_hash (at_ : BlockId) : result (option BlockHash) StateRpcError :=
  Ok match at_ with BlockIdHash _ => None | BlockIdNumber _ => None end.

Definition sidechain_api (hash_len : TOP → TxHash * Z) (dbg : BlockId → string) :
    ChainApi TOP StateRpcError :=
  MkChainApi sidechain_validate sidechain_id_to_number sidechain_id_to_hash hash_len
    (λ _, Ok None) dbg.
End sidechain_api.

(** *** The author *)

(** [EnclaveMetric], the part in use: the calls the author makes. *)
Inductive EnclaveMetric := TopPoolSizeIncrement | TopPoolSizeDecrement.

(** All RPC operations are external ones. *)
Definition TX_SOURCE : TrustedOperationSource := SourceExternal.

Inductive TopSubmissionMode := Submit | SubmitWatch.

Record AuthorState (TOP Sink : Type) := MkAuthor {
  top_pool : ValidatedPool TOP Sink;
  metrics : list EnclaveMetric;
}.
Arguments MkAuthor {TOP Sink} _ _.
Arguments top_pool {TOP Sink} _.
Arguments metrics {TOP Sink} _.

(** The parts of the enclave the author calls. *)
Record Enclave (Key TOP : Type) := MkEnclave {
  shard_exists : ShardIdentifier → option bool;
  list_shards : option (list ShardIdentifier);
  retrieve_key : option Key;
  decrypt : Key → list N → option (list N);
  decode_top : list N → option TOP;
  encode_top : TOP → list N;
  hash_len : TOP → TxHash * Z;
  dbg_block_id : BlockId → string;
}.
Arguments MkEnclave {Key TOP} _ _ _ _ _ _ _ _.
Arguments shard_exists {Key TOP} _ _.
Arguments list_shards {Key TOP} _.
Arguments retrieve_key {Key TOP} _.
Arguments decrypt {Key TOP} _ _ _.
Arguments decode_top {Key TOP} _ _.
Arguments encode_top {Key TOP} _ _.
Arguments hash_len {Key TOP} _ _.
Arguments dbg_block_id {Key TOP} _ _.

Section author.
Context `{Ord : IterOrder} `{!SlotCodec} {TCS G Key Sink : Type}.
Context `{!TrustedCallVerification TCS} `{!PoolTransactionValidation G}.
Context (env : Enclave Key (StfTrustedOperation TCS G)).
Context (top_filter : StfTrustedOperation TCS G → bool).
Context (try_send : Sink → TxHash → send_result * Sink).
Implicit Types (a : AuthorState (StfTrustedOperation TCS G) Sink) (shard : ShardIdentifier) (now : Z).

Definition api : ChainApi (StfTrustedOperation TCS G) StateRpcError :=
  sidechain_api (hash_len env) (dbg_block_id env).

Definition hash_of (xt : StfTrustedOperation TCS G) : TxHash := OpPool.hash_of api xt.

Definition update_metric a (m : EnclaveMetric) : AuthorState (StfTrustedOperation TCS G) Sink :=
  MkAuthor (top_pool a) (metrics a ++ [m]).

Definition set_pool a v : AuthorState (StfTrustedOperation TCS G) Sink := MkAuthor v (metrics a).

(** From the bytes of a request to the operation, or the error it gets. *)
Definition open_request (ext : list N) shard : result (StfTrustedOperation TCS G) ClientError :=
  match shard_exists env shard with
  | None | Some false => Err CeInvalidShard
  | Some true =>
      match retrieve_key env with
      | None => Err CeBadFormatDecipher
      | Some shielding_key =>
          match decrypt env shielding_key ext with
          | None => Err CeBadFormatDecipher
          | Some request_vec =>
              match decode_top env request_vec with
              | None => Err CeBadFormat
              | Some trusted_operation =>
                  if top_filter trusted_operation then Ok trusted_operation
                  else Err CeUnsupportedOperation
              end
          end
      end
  end.

Definition process_top now a (ext : list N) shard (submission_mode : TopSubmissionMode) :
    outcome (AuthorState (StfTrustedOperation TCS G) Sink * result TxHash RpcError) :=
  match open_request ext shard with
  | Err e => Ret (a, Err (RpcClientError e))
  | Ok trusted_operation =>
      let a := update_metric a TopPoolSizeIncrement in
      match submission_mode with
      | Submit => OpPool.submit_one api try_send now (top_pool a) TX_SOURCE trusted_operation shard
      | SubmitWatch =>
          OpPool.submit_and_watch api try_send now (top_pool a) TX_SOURCE trusted_operation shard
      end ≫= λ '(v, res),
      Ret (set_pool a v, match res with Ok h => Ok h | Err e => Err (map_top_error e) end)
  end.

Definition submit_top now a (ext : list N) shard := process_top now a ext shard Submit.
Definition watch_top now a (ext : list N) shard := process_top now a ext shard SubmitWatch.

Definition remove_top now a (bytes_or_hash : TrustedOperationOrHash TCS G) shard (inblock : bool) :
    outcome (AuthorState (StfTrustedOperation TCS G) Sink * result TxHash StateRpcError) :=
  match
    match bytes_or_hash with
    | TopHash h => Ok h
    | TopEncoded bytes =>
        match decode_top env bytes with
        | Some op => Ok (hash_of op)
        | None => Err SeCodecError
        end
    | TopOperation op => Ok (hash_of op)
    end
  with
  | Err e => Ret (a, Err e)
  | Ok hash =>
      let a := update_metric a TopPoolSizeDecrement in
      VPool.remove_invalid now (top_pool a) [hash] shard inblock ≫= λ '(v, removed),
      Ret (set_pool a v,
        match head removed with
        | Some o => Ok (op_hash o)
        | None => Err (SePoolError InvalidTrustedOperation)
        end)
  end.

Definition remove_step now shard
    (st : AuthorState (StfTrustedOperation TCS G) Sink * list (TrustedOperationOrHash TCS G))
    (call : TrustedOperationOrHash TCS G * bool) :
    outcome (AuthorState (StfTrustedOperation TCS G) Sink * list (TrustedOperationOrHash TCS G)) :=
  remove_top now st.1 call.1 shard call.2 ≫= λ '(a, res),
  Ret (a, match res with Ok _ => st.2 | Err _ => st.2 ++ [call.1] end).

Definition remove_calls_from_pool now a shard
    (executed_calls : list (TrustedOperationOrHash TCS G * bool)) :
    outcome (AuthorState (StfTrustedOperation TCS G) Sink * list (TrustedOperationOrHash TCS G)) :=
  for_each (remove_step now shard) (a, []) executed_calls.

(** The queries; [fuel] bounds the iterator over the ready operations. *)
Definition pending (fuel : nat) a shard : outcome (list (StfTrustedOperation TCS G)) :=
  VPool.ready fuel (top_pool a) shard ≫= λ ops : list (TrustedOperation _),
  Ret (data <$> ops).

Definition pending_tops (fuel : nat) a shard : outcome (list (list N)) :=
  pending fuel a shard ≫= λ tops : list _, Ret (encode_top env <$> tops).

Definition get_pending_getters (fuel : nat) a shard : outcome (list (StfTrustedOperation TCS G)) :=
  pending fuel a shard ≫= λ tops, Ret (List.filter getters_only_filter tops).

Definition get_pending_trusted_calls (fuel : nat) a shard :
    outcome (list (StfTrustedOperation TCS G)) :=
  pending fuel a shard ≫= λ tops, Ret (List.filter calls_only_filter tops).

Definition get_pending_trusted_calls_for (fuel : nat) a shard (account : AccountId) :
    outcome (list (StfTrustedOperation TCS G)) :=
  get_pending_trusted_calls fuel a shard ≫= λ tops,
  Ret (List.filter (λ o, bool_decide (signed_caller_account o = Some account)) tops).

Definition get_status a shard : PoolStatus := VPool.status (top_pool a) shard.
Definition get_shards a : list ShardIdentifier := VPool.shards (top_pool a).
Definition list_handled_shards : list ShardIdentifier := default [] (list_shards env).

Definition on_block_imported a (hashes : list TxHash) (block : BlockHash) :
    AuthorState (StfTrustedOperation TCS G) Sink :=
  set_pool a (VPool.on_block_imported (top_pool a) hashes block).
End author.
End Author.
