(* ===== verification/FlatPool.v ===== *)
(** The pool as the enclave uses it.  Every operation that passes the
    validation requires nothing, provides one tag (its slot), and all have one
    priority and one longevity.  On such operations the dependency graph is a
    FIFO queue per shard with distinct hashes and distinct slots. *)

From stdpp Require Import base gmap fin_maps sets numbers relations strings list.
From S2P Require Import Prelude Collections PoolTypes TrackedMap FuturePool ReadyPool ReadyInv ReadyImport BasePool BaseInv BaseOps Rotator Listener.
From S2P Require Import ValidatedPool VPoolInv.

Module Flat.
Import Base BaseInv BaseOps BaseLimits.
Abbreviation best_at := ReadyInv.best_at.
#[local] Existing Instance Ready.ready_tx_size.
#[local] Existing Instance ReadyInv.ref_order.

Section flat.
Context `{Ord : IterOrder} {Ex : Type} (prio till : Z).
Implicit Types (p : BasePool Ex) (s : ShardIdentifier) (op : TrustedOperation Ex).

Record uniform op : Prop := {
  un_requires : requires op = [];
  un_slot : ∃ slot, provides op = [slot];
  un_priority : priority op = prio;
  un_till : valid_till op = till;
  un_bytes : is_u64 (op_bytes op);
}.

Lemma uniform_ok op : is_u64 prio → uniform op → operation_ok op.
Proof.
  intros Hpu [Hr [slot Hs] Hp _ Hb]. split; [rewrite Hs; apply NoDup_singleton| |done|by rewrite Hp].
  intros t. rewrite Hr. set_solver.
Qed.

Record flat p s : Prop := {
  fl_waiting : waiting_at (future p) s = ∅;
  fl_ready : ∀ h tx, ready_at (ready p) s !! h = Some tx →
    uniform (Ready.tx_op tx) ∧ Ready.unlocks tx = [];
}.

(** The queue the pool stands for: what the iterator yields, first come first. *)
Definition queue p s : list (TrustedOperation Ex) :=
  reverse (Ready.ref_operation <$> best_at (ready p) s).

Lemma elem_of_best p s x :
  base_inv p → flat p s →
  x ∈ best_at (ready p) s ↔ ∃ h tx, ready_at (ready p) s !! h = Some tx ∧ Ready.tx_ref tx = x.
Proof.
  intros Hp Hfl. rewrite (ReadyInv.inv_best _ _ _ _ _ (ReadyInv.ready_inv_at _ s (pi_ready _ _ (bi_pool _ Hp)))).
  split; [naive_solver|]. intros (h & tx & Htx & Hx). exists h, tx. split_and!; [done..|].
  unfold ReadyInv.unblocked. destruct (fl_ready _ _ Hfl h tx Htx) as [Hu _].
  rewrite (un_requires _ Hu). simpl. lia.
Qed.

Lemma elem_of_queue p s op :
  base_inv p → flat p s →
  op ∈ queue p s ↔ ∃ tx, ready_at (ready p) s !! op_hash op = Some tx ∧ Ready.tx_op tx = op.
Proof.
  intros Hp Hfl. unfold queue. rewrite elem_of_reverse, list_elem_of_fmap.
  pose proof (ReadyInv.inv_hash _ _ _ _ _ (ReadyInv.ready_inv_at _ s (pi_ready _ _ (bi_pool _ Hp)))) as Hh.
  split.
  - intros (x & -> & Hx). apply (elem_of_best p s x Hp Hfl) in Hx as (h & tx & Htx & <-).
    exists tx. pose proof (Hh h tx Htx) as E. unfold Ready.tx_op in E. by rewrite E.
  - intros (tx & Htx & <-). exists (Ready.tx_ref tx). split; [done|].
    apply (elem_of_best p s _ Hp Hfl). eauto.
Qed.

Lemma queue_uniform p s op : base_inv p → flat p s → op ∈ queue p s → uniform op.
Proof.
  intros Hp Hfl (tx & Htx & <-)%(elem_of_queue p s op Hp Hfl). by apply (fl_ready _ _ Hfl _ _ Htx).
Qed.

Lemma queue_nodup p s : base_inv p → flat p s → NoDup (op_hash <$> queue p s).
Proof.
  intros Hp Hfl. unfold queue. pose proof (ReadyInv.ready_inv_at _ s (pi_ready _ _ (bi_pool _ Hp))) as Hs.
  rewrite fmap_reverse, reverse_Permutation, <-list_fmap_compose.
  pose proof (bt_sorted_NoDup _ _ (ReadyInv.inv_sorted _ _ _ _ _ Hs)) as Hnd.
  apply NoDup_fmap_2_strong; [|done]. intros x y Hx Hy Heq. simpl in Heq.
  apply (elem_of_best p s x Hp Hfl) in Hx as (h & tx & Htx & <-).
  apply (elem_of_best p s y Hp Hfl) in Hy as (h' & tx' & Htx' & <-).
  pose proof (ReadyInv.inv_hash _ _ _ _ _ Hs) as Hh.
  pose proof (Hh h tx Htx) as E. pose proof (Hh h' tx' Htx') as E'. unfold Ready.tx_op in *. congruence.
Qed.

Lemma queue_hashes p s : base_inv p → flat p s → pool_hashes p s = op_hashes (queue p s).
Proof.
  intros Hp Hfl. apply set_eq. intros h. unfold pool_hashes, known, op_hashes.
  rewrite (fl_waiting _ _ Hfl), dom_empty_L, union_empty_l_L, elem_of_dom, elem_of_list_to_set, list_elem_of_fmap.
  pose proof (ReadyInv.inv_hash _ _ _ _ _ (ReadyInv.ready_inv_at _ s (pi_ready _ _ (bi_pool _ Hp)))) as Hh.
  split.
  - intros [tx Htx]. exists (Ready.tx_op tx). split; [symmetry; by apply Hh|].
    apply (elem_of_queue p s _ Hp Hfl). exists tx. by rewrite (Hh h tx Htx).
  - intros (op & -> & (tx & Htx & _)%(elem_of_queue p s op Hp Hfl)). by eexists.
Qed.

(** No two operations of the queue occupy one slot. *)
Lemma queue_slots p s op1 op2 :
  base_inv p → flat p s → op1 ∈ queue p s → op2 ∈ queue p s → provides op1 = provides op2 → op1 = op2.
Proof.
  intros Hp Hfl H1 H2 Heq. destruct (un_slot _ (queue_uniform p s op1 Hp Hfl H1)) as [t Ht].
  apply (elem_of_queue p s _ Hp Hfl) in H1 as (tx1 & Htx1 & E1).
  apply (elem_of_queue p s _ Hp Hfl) in H2 as (tx2 & Htx2 & E2).
  pose proof (ReadyInv.ready_inv_at _ s (pi_ready _ _ (bi_pool _ Hp))) as Hs.
  assert (tags_at (ready p) s !! t = Some (op_hash op1)) as Ht1.
  { eapply (ReadyInv.inv_provides _ _ _ _ _ Hs); [exact Htx1|]. rewrite E1, Ht. left. }
  assert (tags_at (ready p) s !! t = Some (op_hash op2)) as Ht2.
  { eapply (ReadyInv.inv_provides _ _ _ _ _ Hs); [exact Htx2|]. rewrite E2, <-Heq, Ht. left. }
  congruence.
Qed.

(** The tag map points to the occupant of a slot. *)
Lemma slot_occupied p s slot :
  base_inv p → flat p s →
  is_Some (tags_at (ready p) s !! slot) ↔ ∃ op, op ∈ queue p s ∧ provides op = [slot].
Proof.
  intros Hp Hfl. pose proof (ReadyInv.ready_inv_at _ s (pi_ready _ _ (bi_pool _ Hp))) as Hs. split.
  - intros [h Hh]. destruct (ReadyInv.inv_tag _ _ _ _ _ Hs slot h Hh) as (tx & Htx & Hin); [set_solver|].
    exists (Ready.tx_op tx). destruct (fl_ready _ _ Hfl h tx Htx) as [[_ [t Ht] _ _ _] _].
    rewrite Ht in *. apply list_elem_of_singleton in Hin as ->. split; [|done].
    apply (elem_of_queue p s _ Hp Hfl). exists tx. by rewrite (ReadyInv.inv_hash _ _ _ _ _ Hs h tx Htx).
  - intros (op & (tx & Htx & E)%(elem_of_queue p s op Hp Hfl) & Hslot). exists (op_hash op).
    eapply (ReadyInv.inv_provides _ _ _ _ _ Hs); [exact Htx|]. rewrite E, Hslot. left.
Qed.

(** *** Iteration *)

(** A step of the iterator over entries without links pops the last of [best]. *)
Lemma next_flat m b x tx aw :
  bt_sorted Ready.ref_cmp (b ++ [x]) → m !! op_hash (Ready.ref_operation x) = Some tx →
  Ready.unlocks tx = [] →
  Ready.next (Ex := Ex) (Ready.MkBestIterator m aw (b ++ [x])) =
    Ret (Some (Ready.ref_operation x), Ready.MkBestIterator m aw b).
Proof.
  intros Hs Htx Hu. unfold Ready.next. rewrite loop_unfold. unfold Ready.next_step.
  cbn [Ready.it_best Ready.it_all Ready.it_awaiting]. unfold bt_last. rewrite last_snoc.
  destruct (bt_take_last Ready.ref_cmp (b ++ [x]) x Hs) as (l' & Hl & ->); [by unfold bt_last; rewrite last_snoc|].
  apply app_inj_tail in Hl as [<- _]. by rewrite Htx, Hu.
Qed.

Lemma collect_flat m b out aw fuel :
  bt_sorted Ready.ref_cmp b →
  (∀ x, x ∈ b → ∃ tx, m !! op_hash (Ready.ref_operation x) = Some tx ∧ Ready.unlocks tx = []) →
  length b < fuel →
  loop fuel Ready.collect_step (Ready.MkBestIterator m aw b, out) =
    Ret (out ++ reverse (Ready.ref_operation <$> b) : list (TrustedOperation Ex)).
Proof.
  revert out fuel. induction b as [|x b IH] using rev_ind; intros out fuel Hs Hm Hf;
    (destruct fuel as [|fuel]; [lia|]); rewrite loop_unfold; unfold Ready.collect_step.
  - cbn. by rewrite app_nil_r.
  - destruct (Hm x ltac:(set_solver)) as (tx & Htx & Hu). rewrite (next_flat m b x tx) by done.
    cbn [mbind outcome_bind]. rewrite IH.
    + rewrite fmap_app, reverse_app. simpl. by rewrite <-app_assoc.
    + eapply StronglySorted_sublist; [|exact Hs]. by apply sublist_inserts_r.
    + intros y Hy. apply Hm. set_solver.
    + rewrite length_app in Hf. simpl in Hf. lia.
Qed.

Lemma length_queue p s : length (queue p s) = length (best_at (ready p) s).
Proof. unfold queue. by rewrite length_reverse, length_fmap. Qed.

(** The iterator of the ready operations yields the queue. *)
Lemma ready_yields_queue p s fuel :
  base_inv p → flat p s → length (queue p s) < fuel →
  (get_ready p s ≫= Ready.collect fuel) = Ret (queue p s).
Proof.
  intros Hp Hfl Hf. pose proof (pi_ready _ _ (bi_pool _ Hp)) as Hr.
  pose proof (ReadyInv.ready_inv_at _ s Hr) as Hs. rewrite length_queue in Hf.
  assert (∀ x, x ∈ best_at (ready p) s → ∃ tx,
    ready_at (ready p) s !! op_hash (Ready.ref_operation x) = Some tx ∧ Ready.unlocks tx = []) as Hall.
  { intros x (h & tx & Htx & <-)%(elem_of_best p s x Hp Hfl). exists tx.
    pose proof (ReadyInv.inv_hash _ _ _ _ _ Hs h tx Htx) as E. unfold Ready.tx_op in E. rewrite E.
    split; [done|]. by apply (fl_ready _ _ Hfl h tx). }
  pose proof (ReadyInv.inv_sorted _ _ _ _ _ Hs) as Hsort. specialize (Hr s).
  unfold get_ready, Ready.get, queue, best_at, ReadyInv.best_at, ReadyInv.ready_at in *.
  destruct (Ready.provided_tags (ready p) !! s), (Ready.ready (ready p) !! s) as [rm|],
    (Ready.best (ready p) !! s) as [b|]; try done; cbn [unwrap mbind outcome_bind]; unfold Ready.collect.
  - by apply (collect_flat _ _ []).
  - by apply (collect_flat ∅ [] []).
Qed.
End flat.
End Flat.

(** Import, removal and limits on a pool of uniform operations: each is the
    obvious operation on the queue. *)

Module FlatOps.
Import Base BaseInv BaseOps BaseLimits Flat.
#[local] Existing Instance Ready.ready_tx_size.
#[local] Existing Instance ReadyInv.ref_order.

Section flat_ops.
Context `{Ord : IterOrder} {Ex : Type} (prio till : Z).
Implicit Types (p : BasePool Ex) (s : ShardIdentifier) (op : TrustedOperation Ex).
Implicit Types (r : Ready.ReadyOperations Ex) (f : Future.FutureTrustedOperations Ex).

(** *** Removal *)

Lemma reached_flat (m : gmap TxHash (Ready.ReadyTx Ex)) hashes h :
  (∀ h tx, m !! h = Some tx → Ready.unlocks tx = []) →
  ReadyInv.reached None m hashes h ↔ h ∈ hashes.
Proof.
  intros Hm. split; [|intros Hin; exists h; split; [done|apply rtc_refl]].
  intros (u & Hu & Hpath). destruct Hpath as [|u v w (tx & Htx & _ & Hin) _]; [done|].
  rewrite (Hm _ _ Htx) in Hin. set_solver.
Qed.

(** The best set after a change that keeps the references of the entries. *)
Lemma best_filter p p' s (P : TxHash → Prop) `{!∀ h, Decision (P h)} :
  base_inv p → base_inv p' → flat prio till p s → flat prio till p' s →
  (∀ h tx', ready_at (ready p') s !! h = Some tx' → ∃ tx, ready_at (ready p) s !! h = Some tx ∧
    ReadyInv.core tx' = ReadyInv.core tx) →
  (∀ h, ready_at (ready p') s !! h = None ↔ ready_at (ready p) s !! h = None ∨ ¬ P h) →
  queue p' s = filter (λ o, P (op_hash o)) (queue p s).
Proof.
  intros Hp Hp' Hfl Hfl' Hold Hdom. unfold queue.
  pose proof (ReadyInv.ready_inv_at _ s (pi_ready _ _ (bi_pool _ Hp))) as Hs.
  pose proof (ReadyInv.ready_inv_at _ s (pi_ready _ _ (bi_pool _ Hp'))) as Hs'.
  assert (best_at (ready p') s = filter (λ x, P (op_hash (Ready.ref_operation x))) (best_at (ready p) s)) as ->.
  { apply (bt_sorted_unique Ready.ref_cmp); [by eapply ReadyInv.inv_sorted|..].
    { eapply StronglySorted_sublist; [apply sublist_filter|by eapply ReadyInv.inv_sorted]. }
    intros x. rewrite list_elem_of_filter, (elem_of_best _ _ p s x Hp Hfl), (elem_of_best _ _ p' s x Hp' Hfl').
    pose proof (ReadyInv.inv_hash _ _ _ _ _ Hs) as Hh. unfold Ready.tx_op in Hh. split.
    - intros (h & tx' & Htx' & <-). destruct (Hold h tx' Htx') as (tx & Htx & [= Href _]). rewrite Href.
      rewrite (Hh h tx Htx). split; [|eauto]. destruct (decide (P h)) as [|Hn]; [done|].
      rewrite (proj2 (Hdom h) (or_intror Hn)) in Htx'. done.
    - intros [HP (h & tx & Htx & <-)]. rewrite (Hh h tx Htx) in HP. exists h.
      destruct (ready_at (ready p') s !! h) as [tx'|] eqn:E.
      + exists tx'. split; [done|]. destruct (Hold h tx' E) as (tx0 & ? & [= Href _]). congruence.
      + apply Hdom in E as [?|?]; [congruence|done]. }
  by rewrite filter_reverse, filter_fmap_list.
Qed.

Lemma remove_flat p hashes s :
  base_inv p → flat prio till p s →
  ∃ p' removed, remove_subtree p hashes s = Ret (p', removed) ∧ base_inv p' ∧ same_elsewhere s p p' ∧
    flat prio till p' s ∧ queue p' s = filter (λ o, op_hash o ∉ hashes) (queue p s) ∧
    removed ≡ₚ filter (λ o, op_hash o ∈ hashes) (queue p s) ∧
    id_at (ready p') s = id_at (ready p) s.
Proof.
  intros Hp Hfl. pose proof (bi_pool _ Hp) as Hpi.
  destruct (base_remove_spec p hashes s Hp) as (p' & removed & Heq & Hp' & Hse & Hg & Hrep).
  exists p', removed. assert (∀ h tx, ready_at (ready p) s !! h = Some tx → Ready.unlocks tx = []) as Hnl
    by (intros h tx Htx; by apply (fl_ready _ _ _ _ Hfl h tx)).
  split; [done|]. unfold remove_subtree in Heq.
  destruct (ReadyRemove.ready_remove_spec (ready p) hashes s (pi_ready _ _ Hpi))
    as (r' & l1 & Hr & _ & _ & Hids & [_ Hkept Hl1 Hnd1]). rewrite Hr in Heq. cbn [mbind outcome_bind] in Heq.
  destruct (Future.remove (future p) hashes s) as [f' l2] eqn:Hf. injection Heq as <- <-.
  apply (FutureInv.remove_spec _ _ _ _ _ (pi_future _ _ Hpi)) in Hf as (_ & _ & Hw & _ & Hl2).
  assert (l2 = []) as ->.
  { destruct l2 as [|o l2]; [done|]. destruct (proj1 (Hl2 o) ltac:(left)) as (h & w & _ & Hh & _).
    rewrite (fl_waiting _ _ _ _ Hfl) in Hh. by rewrite lookup_empty in Hh. }
  rewrite app_nil_r in *. set (p' := set_ready (set_future p f') r') in *.
  assert (flat prio till p' s) as Hfl'.
  { split.
    - simpl. apply map_eq. intros h. rewrite Hw. rewrite (fl_waiting _ _ _ _ Hfl), lookup_empty. by case_decide.
    - intros h tx Htx. destruct (Hkept h tx Htx) as (tx0 & Htx0 & [= Href _] & _ & Hsub).
      destruct (fl_ready _ _ _ _ Hfl h tx0 Htx0) as [Hu Hl]. unfold Ready.tx_op in *. rewrite Href.
      split; [done|]. rewrite Hl in Hsub. by apply list_nil_subseteq. }
  split_and!; try done.
  - refine (best_filter p p' s (λ h, h ∉ hashes) Hp Hp' Hfl Hfl' _ _).
    + intros h tx Htx. destruct (Hkept h tx Htx) as (tx0 & ? & ? & _). eauto.
    + intros h. rewrite (sg_ready _ _ _ _ Hg), (reached_flat _ _ _ Hnl).
      destruct (decide (h ∈ hashes)); naive_solver.
  - apply NoDup_Permutation.
    + by eapply NoDup_fmap_1.
    + apply NoDup_filter. by eapply NoDup_fmap_1, queue_nodup.
    + intros o. rewrite list_elem_of_filter, (elem_of_queue prio till p s o Hp Hfl), Hl1.
      pose proof (ReadyInv.inv_hash _ _ _ _ _ (ReadyInv.ready_inv_at _ s (pi_ready _ _ Hpi))) as Hh. split.
      * intros (h & tx & Htx & Hre%(reached_flat _ _ _ Hnl) & <-). rewrite (Hh h tx Htx). eauto.
      * intros [Hin (tx & Htx & <-)]. exists (op_hash (Ready.tx_op tx)), tx.
        rewrite (reached_flat _ _ _ Hnl). done.
  - unfold id_at, ReadyInv.id_at, p'. simpl. by rewrite Hids.
Qed.
(** *** Import *)

Hypothesis prio_u64 : is_u64 prio.

Lemma satisfy_flat f tags s :
  FutureInv.future_inv f → waiting_at f s = ∅ →
  ∃ f', Future.satisfy_tags f tags s = Ret (f', []) ∧ waiting_at f' s = ∅.
Proof.
  intros Hf He. destruct (FutureInv.satisfy_tags_spec f tags s Hf) as (f' & out & -> & _ & _ & [Hp Ho _]).
  rewrite He in Hp, Ho. exists f'. split.
  - destruct out as [|w out]; [done|]. destruct (proj1 (Ho w) ltac:(left)) as (h & w0 & Hh & _).
    by rewrite lookup_empty in Hh.
  - apply map_eq. intros h. by rewrite Hp, lookup_empty.
Qed.

Lemma competitors_flat r op s slot :
  provides op = [slot] →
  ReadyImport.competitors r op s = match tags_at r s !! slot with Some h => [h] | None => [] end.
Proof.
  intros Hp. unfold ReadyImport.competitors, Ready.replaced_hashes. rewrite Hp. simpl.
  destruct (tags_at r s !! slot) as [h|]; simpl; [|apply set_iter_empty].
  apply Permutation_singleton_r. unfold set_iter. rewrite iter_order_perm, union_empty_r_L.
  by rewrite elements_singleton.
Qed.

(** What an import leaves in the Ready queue when the slot is free. *)
Record enqueued r op s r' : Prop := {
  eq_new : ∃ tx, ready_at r' s !! op_hash op = Some tx ∧
    Ready.tx_ref tx = Ready.MkRef op (id_at r s + 1) ∧ Ready.unlocks tx = [];
  eq_old : ∀ h tx, h ≠ op_hash op → ready_at r' s !! h = Some tx →
    ∃ tx0, ready_at r s !! h = Some tx0 ∧ ReadyInv.core tx = ReadyInv.core tx0 ∧ Ready.unlocks tx = [];
  eq_dom : ∀ h, h ≠ op_hash op → is_Some (ready_at r s !! h) → is_Some (ready_at r' s !! h);
}.

Lemma ready_import_flat r w s slot :
  let op := Future.operation w in
  ReadyInv.ready_inv r → uniform prio till op → provides op = [slot] → Future.missing_tags w = ∅ →
  (∀ h tx, ready_at r s !! h = Some tx → uniform prio till (Ready.tx_op tx) ∧ Ready.unlocks tx = []) →
  ready_at r s !! op_hash op = None → is_u64 (id_at r s + 1) →
  ∃ r', match tags_at r s !! slot with
        | Some _ => Ready.import r w s = Ret (r', Err (TooLowPriority prio)) ∧
            ready_at r' s = ready_at r s ∧ best_at r' s = best_at r s
        | None => Ready.import r w s = Ret (r', Ok []) ∧ enqueued r op s r'
        end.
Proof.
  intros op Hr Hu Hslot Hm Hfl Hnew Hid. fold op in Hnew.
  destruct (ReadyImport.ready_import_spec r w s Hr (uniform_ok prio till _ prio_u64 Hu) Hm Hnew Hid)
    as (r' & res & Heq & Hr' & _ & Hid' & Hres). fold op in Hres. exists r'.
  rewrite (competitors_flat r op s slot Hslot) in Hres.
  destruct (tags_at r s !! slot) as [h|] eqn:Ht.
  - destruct (ReadyInv.inv_tag _ _ _ _ _ (ReadyInv.ready_inv_at r s Hr) slot h Ht) as (tx & Htx & _); [set_solver|].
    assert (ReadyImport.collective_priority (ready_at r s) [h] = prio) as Hc.
    { unfold ReadyImport.collective_priority. cbn [omap list_omap]. rewrite Htx. cbn [foldl].
      rewrite (un_priority _ _ _ (proj1 (Hfl h tx Htx))). unfold u64_saturating_add, is_u64 in *. lia. }
    destruct res as [removed|e].
    + destruct Hres as ([?|Hlt] & _); [done|]. rewrite Hc, (un_priority _ _ _ Hu) in Hlt. lia.
    + destruct Hres as (-> & _ & _ & ? & _ & ?). rewrite (un_priority _ _ _ Hu) in Heq. done.
  - destruct res as [removed|e]; [|by destruct Hres as (_ & ? & _)].
    destruct Hres as (_ & r1 & unlocked & [Hgone Hkept Hrem _] & -> & [_ (m & [Hl] & Hat)]). simpl in Hat.
    assert (∀ h, ReadyInv.reached (Some (ReadyImport.provided_set op)) (ready_at r s) [] h → False) as Hno.
    { intros h (u & Hu' & _). set_solver. }
    assert (removed = []) as ->.
    { destruct removed as [|o l]; [done|]. destruct (proj1 (Hrem o) ltac:(left)) as (h & tx & _ & Hre & _).
      by apply Hno in Hre. }
    split; [done|].
    assert (∀ h, ready_at r1 s !! h = m !! h) as Hm1.
    { intros h. rewrite Hl, (un_requires _ _ _ Hu). unfold ReadyImport.provided_by. simpl.
      destruct (ready_at r1 s !! h) as [[rf ul off]|]; simpl; [|done].
      unfold Ready.set_unlocks. simpl. by rewrite app_nil_r. }
    split.
    + rewrite Hat, lookup_insert_eq. by eexists.
    + intros h tx Hne. rewrite Hat, lookup_insert_ne, <-Hm1 by done. intros Htx.
      destruct (Hkept h tx Htx) as (tx0 & Htx0 & Hc & _ & Hsub). exists tx0. split_and!; [done..|].
      rewrite (proj2 (Hfl h tx0 Htx0)) in Hsub. by apply list_nil_subseteq.
    + intros h Hne [tx Htx]. rewrite Hat, lookup_insert_ne, <-Hm1 by done. apply not_eq_None_Some.
      rewrite Hgone. intros [?|?%Hno]; [congruence|done].
Qed.
(** [import] on a queue. *)
Definition q_import (q : list (TrustedOperation Ex)) op :
    list (TrustedOperation Ex) * result (Imported Ex) PoolError :=
  if decide (op_hash op ∈ op_hash <$> q) then (q, Err AlreadyImported)
  else if decide (Exists (λ o, provides o = provides op) q) then (q, Err (TooLowPriority prio))
  else (q ++ [op], Ok (ImportedReady (op_hash op) [] [] [])).

Lemma enqueued_queue p p' op s :
  base_inv p → base_inv p' → flat prio till p s → uniform prio till op →
  ready_at (ready p) s !! op_hash op = None →
  waiting_at (future p') s = ∅ → enqueued (ready p) op s (ready p') →
  flat prio till p' s ∧ queue p' s = queue p s ++ [op].
Proof.
  intros Hp Hp' Hfl Hu Hnew Hw [(tx & Htx & Href & Hul) Hold Hdom].
  pose proof (ReadyInv.ready_inv_at _ s (pi_ready _ _ (bi_pool _ Hp))) as Hs.
  pose proof (ReadyInv.ready_inv_at _ s (pi_ready _ _ (bi_pool _ Hp'))) as Hs'.
  assert (flat prio till p' s) as Hfl'.
  { split; [done|]. intros h tx' Htx'. destruct (decide (h = op_hash op)) as [->|Hne].
    - rewrite Htx in Htx'. injection Htx' as <-. unfold Ready.tx_op. by rewrite Href.
    - destruct (Hold h tx' Hne Htx') as (tx0 & Htx0 & [= Hr _] & ?). unfold Ready.tx_op. rewrite Hr.
      split; [by apply (fl_ready _ _ _ _ Hfl h tx0)|done]. }
  split; [done|]. set (x := Ready.MkRef op (id_at (ready p) s + 1)) in *.
  assert (best_at (ready p') s = x :: best_at (ready p) s) as Hb.
  { apply (bt_sorted_unique Ready.ref_cmp); [by eapply ReadyInv.inv_sorted|..].
    - constructor; [by eapply ReadyInv.inv_sorted|]. apply Forall_forall.
      intros y (h & tx' & Htx' & <-)%(elem_of_best prio till p s y Hp Hfl).
      destruct (fl_ready _ _ _ _ Hfl h tx' Htx') as [[_ _ Hpr Htl _] _]. unfold Ready.tx_op in *.
      unfold Ready.ref_cmp, x. simpl. rewrite (un_priority _ _ _ Hu), (un_till _ _ _ Hu), Hpr, Htl, !Z.compare_refl.
      pose proof (ReadyInv.inv_id _ _ _ _ _ Hs h tx' Htx'). apply Z.compare_lt_iff. lia.
    - intros y. rewrite elem_of_cons, (elem_of_best prio till p s y Hp Hfl), (elem_of_best prio till p' s y Hp' Hfl').
      split.
      + intros (h & tx' & Htx' & <-). destruct (decide (h = op_hash op)) as [->|Hne]; [left; congruence|right].
        destruct (Hold h tx' Hne Htx') as (tx0 & Htx0 & [= Hr _] & _). eauto.
      + intros [->|(h & tx0 & Htx0 & <-)]; [by eauto|].
        assert (h ≠ op_hash op) as Hne by (intros ->; congruence).
        destruct (Hdom h Hne ltac:(by eexists)) as [tx' Htx'].
        destruct (Hold h tx' Hne Htx') as (tx1 & Htx1 & [= Hr _] & _). exists h, tx'. split; [done|congruence]. }
  unfold queue. rewrite Hb. simpl. by rewrite reverse_cons.
Qed.

Lemma import_to_ready_flat p w s slot :
  let op := Future.operation w in
  base_inv p → flat prio till p s → uniform prio till op → provides op = [slot] →
  Future.missing_tags w = ∅ → ready_at (ready p) s !! op_hash op = None → is_u64 (id_at (ready p) s + 1) →
  ∃ p', waiting_at (future p') s = ∅ ∧
    match tags_at (ready p) s !! slot with
    | Some _ => import_to_ready p w s = Ret (p', Err (TooLowPriority prio)) ∧
        ready_at (ready p') s = ready_at (ready p) s ∧ best_at (ready p') s = best_at (ready p) s
    | None => import_to_ready p w s = Ret (p', Ok (ImportedReady (op_hash op) [] [] [])) ∧
        enqueued (ready p) op s (ready p')
    end.
Proof.
  intros op Hp Hfl Hu Hslot Hm Hnew Hid. pose proof (bi_pool _ Hp) as Hpi.
  destruct (satisfy_flat (future p) (provides op) s (pi_future _ _ Hpi) (fl_waiting _ _ _ _ Hfl)) as (f' & Hsat & Hw).
  destruct (ready_import_flat (ready p) w s slot (pi_ready _ _ Hpi) Hu Hslot Hm (fl_ready _ _ _ _ Hfl) Hnew Hid)
    as (r' & Hr). exists (set_ready (set_future p f') r'). split; [done|]. unfold import_to_ready.
  assert (∃ n, promotion_fuel p s = S (S n)) as [n ->].
  { unfold promotion_fuel. destruct (Future.waiting (future p) !! s); eauto. }
  destruct (tags_at (ready p) s !! slot) as [h|]; destruct Hr as [Hr Hpost]; (split; [|exact Hpost]);
    rewrite loop_unfold; unfold promotion_step at 1; cbn [pm_stack pm_future pm_ready]; fold op;
    rewrite Hsat; cbn [mbind outcome_bind]; rewrite Hr; cbn [mbind outcome_bind pm_first].
  - done.
  - rewrite loop_unfold. unfold promotion_step. cbn [pm_stack]. done.
Qed.

Lemma import_flat now p op s :
  base_inv p → flat prio till p s → uniform prio till op → ids_left p s 1 →
  ∃ p', import now p op s = Ret (p', (q_import (queue p s) op).2) ∧ base_inv p' ∧ same_elsewhere s p p' ∧
    ids_used p s p' 1 ∧ flat prio till p' s ∧ queue p' s = (q_import (queue p s) op).1.
Proof.
  intros Hp Hfl Hu Hid. pose proof (fl_waiting _ _ _ _ Hfl) as Hw.
  destruct (base_import_spec now p op s Hp (uniform_ok prio till _ prio_u64 Hu)) as (p' & res & Heq & Hp' & Hse & Hids & _).
  { rewrite Hw, map_size_empty. done. }
  exists p'. unfold q_import. unfold import in Heq. rewrite is_imported_spec, (queue_hashes _ _ p s Hp Hfl) in Heq.
  unfold import. rewrite is_imported_spec, (queue_hashes _ _ p s Hp Hfl).
  assert (op_hash op ∈ op_hashes (queue p s) ↔ op_hash op ∈ op_hash <$> queue p s) as Hin
    by (unfold op_hashes; by rewrite elem_of_list_to_set).
  destruct (decide (op_hash op ∈ op_hash <$> queue p s)) as [Hk|Hk].
  { rewrite bool_decide_eq_true_2 in * by (by apply Hin). injection Heq as <- <-. done. }
  rewrite bool_decide_eq_false_2 in * by (by rewrite Hin). set (w := Future.new_waiting _ _ _ _) in *.
  assert (Future.missing_tags w = ∅) as Hm.
  { unfold w. rewrite new_waiting_missing. unfold open_requirements. by rewrite (un_requires _ _ _ Hu). }
  unfold Future.is_ready in *. rewrite bool_decide_eq_true_2 in * by done. cbn [negb] in *.
  destruct (un_slot _ _ _ Hu) as [slot Hslot].
  assert (ready_at (ready p) s !! op_hash op = None) as Hnew.
  { apply not_elem_of_dom. intros Hd. apply Hk, Hin. rewrite <-(queue_hashes prio till p s Hp Hfl).
    unfold pool_hashes, known. by apply elem_of_union_r. }
  destruct (import_to_ready_flat p w s slot Hp Hfl Hu Hslot Hm Hnew) as (p1 & Hw1 & Hres).
  { unfold ids_left, is_u64 in *. lia. }
  pose proof (slot_occupied prio till p s slot Hp Hfl) as Hocc.
  assert (Exists (λ o, provides o = provides op) (queue p s) ↔ is_Some (tags_at (ready p) s !! slot)) as Hex.
  { rewrite Hocc, Exists_exists, Hslot. done. }
  destruct (tags_at (ready p) s !! slot) as [h|]; destruct Hres as [Hres Hst];
    rewrite Hres in Heq |- *; injection Heq as <- <-.
  - rewrite decide_True by (apply Hex; by eexists). destruct Hst as [Hst Hb].
    split_and!; [done..| |unfold queue; by rewrite Hb]. split; [done|]. rewrite Hst. apply Hfl.
  - rewrite decide_False by (rewrite Hex; by intros [? ?]). 
    destruct (enqueued_queue p p1 op s Hp Hp' Hfl Hu Hnew Hw1 Hst). done.
Qed.
End flat_ops.
End FlatOps.

(** Limits on a pool of uniform operations: the oldest operations go until the
    rest fits. *)

Module FlatLimits.
Import Base BaseInv BaseOps BaseLimits Flat FlatOps.
#[local] Existing Instance Ready.ready_tx_size.
#[local] Existing Instance ReadyInv.ref_order.

(** The number of bytes of a queue. *)
Definition q_bytes {Ex} (q : list (TrustedOperation Ex)) : Z := foldr (λ o n, (op_bytes o + n)%Z) 0%Z q.

(** [enforce_limits] on a queue. *)
Fixpoint q_shrink {Ex} (limit : Limit) (q : list (TrustedOperation Ex)) : list (TrustedOperation Ex) :=
  match q with
  | [] => []
  | _ :: q' =>
      if is_exceeded limit (Z.of_nat (length q)) (q_bytes q) then q_shrink limit q' else q
  end.

(** The part that [enforce_limits] drops. *)
Fixpoint q_dropped {Ex} (limit : Limit) (q : list (TrustedOperation Ex)) : list (TrustedOperation Ex) :=
  match q with
  | [] => []
  | o :: q' =>
      if is_exceeded limit (Z.of_nat (length q)) (q_bytes q) then o :: q_dropped limit q' else []
  end.

(** The figures of the queue fit the counters. *)
Definition measured {Ex} (q : list (TrustedOperation Ex)) : Prop :=
  (Z.of_nat (length q) < 2 ^ 63 ∧ q_bytes q < 2 ^ 63)%Z.

Lemma q_dropped_shrink {Ex} limit (q : list (TrustedOperation Ex)) :
  q_dropped limit q ++ q_shrink limit q = q.
Proof. induction q as [|o q IH]; [done|]. cbn [q_dropped q_shrink]. destruct (is_exceeded _ _ _); [|done]. simpl. by rewrite IH. Qed.

Section flat_limits.
Context `{Ord : IterOrder} {Ex : Type} (prio till : Z).
Implicit Types (p : BasePool Ex) (s : ShardIdentifier) (q : list (TrustedOperation Ex)).

Lemma q_bytes_nonneg q : (∀ o, o ∈ q → is_u64 (op_bytes o)) → (0 ≤ q_bytes q)%Z.
Proof.
  induction q as [|o q IH]; intros Hq; simpl; [lia|].
  pose proof (Hq o ltac:(left)) as Ho. specialize (IH ltac:(intros; apply Hq; by right)).
  unfold is_u64 in Ho. lia.
Qed.

Lemma measured_tail o q : is_u64 (op_bytes o) → measured (o :: q) → measured q.
Proof. unfold measured, is_u64. simpl. lia. Qed.

Lemma total_size_list (m : gmap TxHash (Ready.ReadyTx Ex)) l :
  l ≡ₚ Ready.tx_op <$> (map_to_list m).*2 → Tracked.total_size m = q_bytes l.
Proof.
  unfold Tracked.total_size. revert l. induction m as [|k v mm Hk IH] using map_ind; intros l Hl.
  - rewrite map_to_list_empty in Hl. apply Permutation_nil_r in Hl as ->. by rewrite map_fold_empty.
  - rewrite map_to_list_insert in Hl by done. simpl in Hl.
    rewrite map_fold_insert_L by (done || lia). rewrite (IH _ (reflexivity _)).
    assert (∀ l1 l2 : list (TrustedOperation Ex), l1 ≡ₚ l2 → q_bytes l1 = q_bytes l2) as Hperm.
    { induction 1; simpl; lia. }
    by rewrite (Hperm _ _ Hl).
Qed.

Lemma queue_entries p s :
  base_inv p → flat prio till p s → queue p s ≡ₚ Ready.tx_op <$> (map_to_list (ready_at (ready p) s)).*2.
Proof.
  intros Hp Hfl. pose proof (ReadyInv.inv_hash _ _ _ _ _ (ReadyInv.ready_inv_at _ s (pi_ready _ _ (bi_pool _ Hp)))) as Hh.
  apply NoDup_Permutation; [by eapply NoDup_fmap_1, queue_nodup|..].
  - apply (NoDup_fmap_1 op_hash). rewrite <-!list_fmap_compose.
    assert ((op_hash ∘ Ready.tx_op ∘ snd) <$> map_to_list (ready_at (ready p) s) =
      (map_to_list (ready_at (ready p) s)).*1) as ->; [|apply NoDup_fst_map_to_list].
    apply list_fmap_ext. intros i [h tx] Hin%list_elem_of_lookup_2. simpl.
    apply elem_of_map_to_list in Hin. by apply Hh.
  - intros o. rewrite (elem_of_queue prio till p s o Hp Hfl), <-list_fmap_compose, list_elem_of_fmap. split.
    + intros (tx & Htx & <-). exists (op_hash (Ready.tx_op tx), tx). split; [done|]. by apply elem_of_map_to_list.
    + intros ([h tx] & -> & Htx%elem_of_map_to_list). simpl. exists tx. by rewrite (Hh h tx Htx).
Qed.

(** The counters the limits look at are those of the queue. *)
Lemma flat_status p s :
  base_inv p → flat prio till p s → measured (queue p s) →
  status p s = MkPoolStatus (Z.of_nat (length (queue p s))) (q_bytes (queue p s)) 0 0.
Proof.
  intros Hp Hfl [Hlen Hbytes]. unfold status.
  destruct (future_empty_status (future p) s (fl_waiting _ _ _ _ Hfl)) as [-> ->].
  pose proof (queue_entries p s Hp Hfl) as Hperm.
  assert (length (queue p s) = size (ready_at (ready p) s)) as Hsize
    by (rewrite Hperm, !length_fmap; by rewrite length_map_to_list).
  pose proof (total_size_list _ _ Hperm) as Htot.
  assert (0 ≤ q_bytes (queue p s))%Z as Hpos.
  { apply q_bytes_nonneg. intros o Ho. by apply (un_bytes prio till), (queue_uniform prio till p s o Hp Hfl). }
  pose proof (pi_ready _ _ (bi_pool _ Hp) s) as Hr. unfold ReadyInv.ready_at, Ready.len, Ready.bytes in *.
  destruct (Ready.provided_tags (ready p) !! s), (Ready.ready (ready p) !! s) as [rm|],
    (Ready.best (ready p) !! s); try done.
  - destruct Hr as [Ht _]. rewrite Tracked.tracked_len_exact, Tracked.tracked_bytes_exact by (done || lia).
    f_equal; lia.
  - rewrite map_size_empty in Hsize. rewrite <-Htot. unfold Tracked.total_size. rewrite map_fold_empty.
    f_equal; lia.
Qed.

(** The oldest operation is the head of the queue. *)
Lemma oldest_head p s o q :
  base_inv p → flat prio till p s → queue p s = o :: q →
  ∃ ref, Ready.fold older (ready p) s = Some ref ∧ Ready.ref_operation ref = o.
Proof.
  intros Hp Hfl Hq. pose proof (ReadyInv.ready_inv_at _ s (pi_ready _ _ (bi_pool _ Hp))) as Hs.
  unfold queue in Hq. destruct (best_at (ready p) s) as [|x b _] eqn:Hb using rev_ind; [done|].
  rewrite fmap_app, reverse_app in Hq. simpl in Hq. injection Hq as Ho _.
  assert (∀ y, y ∈ best_at (ready p) s → priority (Ready.ref_operation y) = prio ∧
    valid_till (Ready.ref_operation y) = till) as Huni.
  { intros y (h & tx & Htx & <-)%(elem_of_best prio till p s y Hp Hfl).
    destruct (fl_ready _ _ _ _ Hfl h tx Htx) as [[_ _ ? ? _] _]. done. }
  assert (x ∈ best_at (ready p) s) as Hx by (rewrite Hb; set_solver).
  pose proof (oldest_spec p s) as Hold. destruct (Ready.fold older (ready p) s) as [ref|].
  - exists ref. split; [done|]. destruct Hold as (h & tx & Htx & <- & Hmin).
    assert (Ready.tx_ref tx ∈ best_at (ready p) s) as Hin by (apply (elem_of_best prio till p s _ Hp Hfl); eauto).
    assert (bt_last (best_at (ready p) s) = Some x) as Hlast by (unfold bt_last; by rewrite Hb, last_snoc).
    rewrite <-Hb in Hs. destruct (bt_last_max Ready.ref_cmp _ x _ (ReadyInv.inv_sorted _ _ _ _ _ Hs) Hlast Hin) as [->|Hlt]; [done|].
    exfalso. unfold Ready.ref_cmp in Hlt. destruct (Huni _ Hx) as [Hp1 Ht1]. destruct (Huni _ Hin) as [Hp2 Ht2].
    rewrite Hp1, Ht1, Hp2, Ht2, !Z.compare_refl in Hlt. rewrite Z.compare_lt_iff in Hlt.
    apply (elem_of_best prio till p s x Hp Hfl) in Hx as (h' & tx' & Htx' & <-). specialize (Hmin h' tx' Htx'). lia.
  - apply (elem_of_best prio till p s x Hp Hfl) in Hx as (h & tx & Htx & _). rewrite Hold in Htx. done.
Qed.

(** Removing the head. *)
Lemma remove_head p s o q :
  base_inv p → flat prio till p s → queue p s = o :: q →
  ∃ p', remove_subtree p [op_hash o] s = Ret (p', [o]) ∧ base_inv p' ∧ same_elsewhere s p p' ∧
    flat prio till p' s ∧ queue p' s = q ∧ id_at (ready p') s = id_at (ready p) s.
Proof.
  intros Hp Hfl Hq. pose proof (queue_nodup prio till p s Hp Hfl) as Hnd. rewrite Hq in Hnd.
  rewrite fmap_cons in Hnd. apply NoDup_cons in Hnd as [Hno _].
  assert (∀ x, x ∈ q → op_hash x ∉ [op_hash o]) as Hne.
  { intros x Hx Hin%list_elem_of_singleton. apply Hno, list_elem_of_fmap. eauto. }
  destruct (remove_flat prio till p [op_hash o] s Hp Hfl) as (p' & removed & Heq & Hp' & Hse & Hfl' & Hq' & Hrem & Hid).
  exists p'. rewrite Hq in Hq', Hrem. rewrite filter_cons_False in Hq' by (intros Hn; apply Hn; left).
  rewrite filter_cons_True in Hrem by left.
  assert (filter (λ x, op_hash x ∉ [op_hash o]) q = q) as Hf.
  { clear -Hne. induction q as [|x q IH]; [done|]. rewrite filter_cons_True by (apply Hne; left).
    f_equal. apply IH. intros y Hy. apply Hne. by right. }
  assert (filter (λ x, op_hash x ∈ [op_hash o]) q = []) as Hf'.
  { clear -Hne. induction q as [|x q IH]; [done|]. rewrite filter_cons_False by (apply Hne; left).
    apply IH. intros y Hy. apply Hne. by right. }
  rewrite Hf' in Hrem. apply Permutation_singleton_r in Hrem as ->. rewrite Hf in Hq'. done.
Qed.

Lemma limit_loop_flat limit p s q acc fuel :
  limit_ok limit → base_inv p → flat prio till p s → queue p s = q → measured q → length q < fuel →
  ∃ p', loop fuel (limit_ready_step limit s) (p, acc) = Ret (p', acc ++ q_dropped limit q) ∧ base_inv p' ∧
    same_elsewhere s p p' ∧ flat prio till p' s ∧ queue p' s = q_shrink limit q ∧
    id_at (ready p') s = id_at (ready p) s.
Proof.
  intros Hl. revert p acc fuel. induction q as [|o q IH]; intros p acc fuel Hp Hfl Hq Hm Hf;
    (destruct fuel as [|fuel]; [lia|]); rewrite loop_unfold; unfold limit_ready_step at 1;
    pose proof (flat_status p s Hp Hfl ltac:(by rewrite Hq)) as Hst; injection Hst as Hlen Hbytes _ _;
    rewrite Hlen, Hbytes, Hq.
  - change (is_exceeded limit _ _) with (is_exceeded limit 0 0). rewrite (limit_ok_zero limit Hl). exists p. rewrite app_nil_r. done.
  - cbn [q_dropped q_shrink]. destruct (is_exceeded _ _ _) eqn:Hex.
    + destruct (oldest_head p s o q Hp Hfl Hq) as (ref & -> & ->).
      destruct (remove_head p s o q Hp Hfl Hq) as (p1 & -> & Hp1 & Hse1 & Hfl1 & Hq1 & Hid1).
      cbn [mbind outcome_bind].
      assert (is_u64 (op_bytes o)) as Ho.
      { apply (un_bytes prio till), (queue_uniform prio till p s o Hp Hfl). rewrite Hq. left. }
      destruct (IH p1 (acc ++ [o]) fuel Hp1 Hfl1 Hq1 (measured_tail o q Ho Hm)) as (p' & -> & ? & Hse & ? & ? & Hid);
        [simpl in Hf; lia|].
      exists p'. rewrite <-app_assoc. split_and!; try done; [by eapply same_elsewhere_trans|congruence].
    + exists p. rewrite app_nil_r. done.
Qed.

Lemma enforce_limits_flat p rl fl s :
  base_inv p → flat prio till p s → limit_ok rl → limit_ok fl → measured (queue p s) →
  ∃ p', enforce_limits p rl fl s = Ret (p', q_dropped rl (queue p s)) ∧ base_inv p' ∧
    same_elsewhere s p p' ∧ flat prio till p' s ∧ queue p' s = q_shrink rl (queue p s) ∧
    id_at (ready p') s = id_at (ready p) s.
Proof.
  intros Hp Hfl Hrl Hfl' Hm. unfold enforce_limits.
  destruct (limit_loop_flat rl p s (queue p s) [] (S (ready_size p s)) Hrl Hp Hfl eq_refl Hm)
    as (p1 & -> & Hp1 & Hse & Hfl1 & Hq1 & Hid).
  { rewrite ready_size_at, (queue_entries p s Hp Hfl), !length_fmap, length_map_to_list. lia. }
  cbn [mbind outcome_bind]. exists p1. rewrite loop_unfold. unfold limit_future_step.
  destruct (future_empty_status (future p1) s (fl_waiting _ _ _ _ Hfl1)) as [-> ->].
  by rewrite (limit_ok_zero fl Hfl').
Qed.
End flat_limits.
End FlatLimits.

(** The validated pool on uniform operations: submission and removal are
    operations on the queue of the shard. *)

Module FlatVPool.
Import VPool BaseInv BaseOps BaseLimits VPoolInv VPoolOps Flat FlatOps FlatLimits.

(** A limit under which the counters cannot wrap. *)
Definition small_limit (l : Limit) : Prop := (0 ≤ limit_count l ≤ 2 ^ 62 ∧ 0 ≤ total_bytes l ≤ 2 ^ 62)%Z.

(** A queue within its limit. *)
Definition fits {Ex} (l : Limit) (q : list (TrustedOperation Ex)) : Prop :=
  is_exceeded l (Z.of_nat (length q)) (q_bytes q) = false.

(** [submit] on a queue: one operation, then the limits. *)
Definition q_submit {Ex} (prio : Z) (limit : Limit) (q : list (TrustedOperation Ex)) (op : TrustedOperation Ex) :
    list (TrustedOperation Ex) * result TxHash PoolError :=
  match q_import prio q op with
  | (q1, Err e) => (q1, Err e)
  | (q1, Ok _) =>
      (q_shrink limit q1,
       if decide (op_hash op ∈ op_hash <$> q_dropped limit q1) then Err ImmediatelyDropped
       else Ok (op_hash op))
  end.

(** The hashes it bans: those of the operations that the limits drop. *)
Definition q_submit_bans {Ex} (prio : Z) (limit : Limit) (q : list (TrustedOperation Ex)) (op : TrustedOperation Ex) : gset TxHash :=
  match q_import prio q op with
  | (_, Err _) => ∅
  | (q1, Ok _) => list_to_set (op_hash <$> q_dropped limit q1)
  end.

Section queues.
Context {Ex : Type}.
Implicit Types (q : list (TrustedOperation Ex)) (l : Limit).

Lemma q_bytes_app q1 q2 : q_bytes (q1 ++ q2) = (q_bytes q1 + q_bytes q2)%Z.
Proof. induction q1 as [|o q1 IH]; simpl; lia. Qed.

Lemma fits_bounds l q :
  fits l q ↔ (Z.of_nat (length q) ≤ limit_count l ∧ q_bytes q ≤ total_bytes l)%Z.
Proof. unfold fits, is_exceeded. rewrite orb_false_iff, !Z.ltb_ge. done. Qed.

Lemma fits_measured l q op :
  small_limit l → fits l q → (op_bytes op < 2 ^ 62)%Z → measured (q ++ [op]).
Proof.
  intros Hs Hf Hb. apply fits_bounds in Hf. unfold small_limit, measured in *.
  rewrite length_app, q_bytes_app. simpl. lia.
Qed.

Lemma q_shrink_fits l q : small_limit l → fits l (q_shrink l q).
Proof.
  intros Hs. induction q as [|o q IH]; [apply fits_bounds; unfold small_limit in Hs; simpl; lia|].
  cbn [q_shrink]. destruct (is_exceeded l (Z.of_nat (length (o :: q))) (q_bytes (o :: q))) eqn:E; done.
Qed.

Lemma filter_fits l q (P : TrustedOperation Ex → Prop) `{!∀ x, Decision (P x)} :
  (∀ o, o ∈ q → is_u64 (op_bytes o)) → fits l q → fits l (filter P q).
Proof.
  intros Hu. rewrite !fits_bounds. intros [Hl Hb]. split.
  - pose proof (length_filter P q). lia.
  - etrans; [|exact Hb]. clear Hl Hb. induction q as [|o q IH]; [done|].
    pose proof (Hu o ltac:(left)) as Ho. specialize (IH ltac:(intros; apply Hu; by right)).
    rewrite filter_cons. unfold is_u64 in Ho. case_decide; simpl; lia.
Qed.

Lemma q_import_cases prio q op q1 res :
  q_import prio q op = (q1, res) →
  (∃ e, res = Err e ∧ q1 = q) ∨ (res = Ok (ImportedReady (op_hash op) [] [] []) ∧ q1 = q ++ [op]).
Proof. unfold q_import. repeat case_decide; intros [= <- <-]; eauto. Qed.

Lemma q_submit_fits prio l q op : small_limit l → fits l q → fits l (q_submit prio l q op).1.
Proof.
  intros Hs Hf. unfold q_submit. destruct (q_import prio q op) as [q1 [i|e]] eqn:E; cbn [fst].
  - by apply q_shrink_fits.
  - apply q_import_cases in E as [(? & _ & ->)|[? _]]; done.
Qed.

Lemma q_fits_id l q : fits l q → q_dropped l q = [] ∧ q_shrink l q = q.
Proof. unfold fits. destruct q as [|o q]; [done|]. cbn [q_dropped q_shrink]. by intros ->. Qed.
End queues.

Section flat_vpool.
Context `{Ord : IterOrder} {Ex E Sink : Type} `{!ApiError E} (prio till : Z).
Context (try_send : Sink → TxHash → send_result * Sink).
Implicit Types (v : ValidatedPool Ex Sink) (s : ShardIdentifier) (now : Z) (op : TrustedOperation Ex).

Abbreviation queue_of v s := (queue (pool v) s).

(** The pool holds uniform operations only, within the limits. *)
Record flat_inv v : Prop := {
  fi_inv : vpool_inv v;
  fi_flat : ∀ s, flat prio till (pool v) s;
  fi_fits : ∀ s, fits (opt_ready (options v)) (queue_of v s);
  fi_small : small_limit (opt_ready (options v));
}.

Lemma flat_elsewhere s (p p' : Base.BasePool Ex) s' :
  FutureInv.only_shard s (Base.future p) (Base.future p') →
  ReadyInv.only_shard s (Base.ready p) (Base.ready p') → s' ≠ s →
  queue p' s' = queue p s' ∧ (flat prio till p s' → flat prio till p' s').
Proof.
  intros Hf Hr Hne. destruct (ReadyInv.only_shard_at s _ _ s' Hr Hne) as (Hat & _ & Hb).
  split; [unfold queue; by rewrite Hb|]. intros [Hw Hfl].
  split; [by rewrite (FutureInv.only_shard_waiting_at s _ _ s' Hf Hne)|]. by rewrite Hat.
Qed.

(** A handler changed the queue of one shard. *)
Lemma flat_inv_step s v v' q :
  flat_inv v → vpool_inv v' → frame s v v' → flat prio till (pool v') s → queue_of v' s = q →
  fits (opt_ready (options v)) q → flat_inv v' ∧ ∀ s', s' ≠ s → queue_of v' s' = queue_of v s'.
Proof.
  intros [Hi Hfl Hfit Hsm] Hi' [Ho Hf Hr] Hfl' Hq Hq'.
  pose proof (λ s' Hne, flat_elsewhere s _ _ s' Hf Hr Hne) as Hel.
  split; [|intros s' Hne; by apply Hel]. split; [done|..]; rewrite ?Ho; try done; intros s';
    destruct (decide (s' = s)) as [->|Hne]; try done; try by rewrite Hq.
  - by apply Hel.
  - rewrite (proj1 (Hel s' Hne)). done.
Qed.

(** *** Submission of one valid operation *)

Lemma submit_one_flat now v op s n :
  is_u64 prio → vpool_inv v → flat prio till (pool v) s → uniform prio till op → room v s (S n) →
  ∃ v', submit_one (E := E) try_send now v (Valid op) s =
      Ret (v', match (q_import prio (queue_of v s) op).2 with
               | Ok _ => Ok (op_hash op) | Err e => Err (from_pool_error e) end) ∧
    vpool_inv v' ∧ frame s v v' ∧ room v' s n ∧ rotator v' = rotator v ∧ flat prio till (pool v') s ∧
    queue_of v' s = (q_import prio (queue_of v s) op).1.
Proof.
  intros Hpu Hv Hfl Hu Hroom. pose proof (uniform_ok prio till _ Hpu Hu) as Hok.
  destruct (submit_one_spec (E := E) try_send now v (Valid op) s n Hv Hok Hroom)
    as (v' & r & Heq & Hv' & Hfr & Hroom' & res & Hpost & Hrot & Hr).
  destruct (import_flat prio till Hpu now (pool v) op s (vi_pool _ Hv) Hfl Hu) as (p' & Himp & _ & _ & _ & Hfl' & Hq').
  { unfold room, ids_left in *. lia. }
  exists v'. cbn [submit_one] in Heq |- *. rewrite Himp in Heq |- *. cbn [mbind outcome_bind] in Heq |- *.
  destruct (q_import prio (queue_of v s) op) as [q1 [i|e]] eqn:Hqi; cbn [fst snd] in *.
  - assert (pool v' = p' ∧ r = Ok (imported_hash i)) as [Hp' ->].
    { destruct i; injection Heq as <- <-; done. }
    assert (imported_hash i = op_hash op) as Hh.
    { unfold q_import in Hqi. repeat case_decide; simplify_eq. done. }
    rewrite Heq, Hh, Hp'. done.
  - injection Heq as <- <-. done.
Qed.

Lemma enforce_flat now v s :
  vpool_inv v → flat prio till (pool v) s → measured (queue_of v s) →
  ∃ v', enforce_limits now v s =
      Ret (v', list_to_set (op_hash <$> q_dropped (opt_ready (options v)) (queue_of v s))) ∧
    vpool_inv v' ∧ frame s v v' ∧ flat prio till (pool v') s ∧
    queue_of v' s = q_shrink (opt_ready (options v)) (queue_of v s) ∧
    id_at (Base.ready (pool v')) s = id_at (Base.ready (pool v)) s ∧
    Rotate.rebans (rotator v) now (list_to_set (op_hash <$> q_dropped (opt_ready (options v)) (queue_of v s))) (rotator v').
Proof.
  intros Hv Hfl Hm. pose proof (vi_limits _ Hv) as [Hrl Hflm].
  destruct (vpool_limits_spec now v s Hv) as (v' & removed & Heq & Hv' & Hfr & _ & [_ Hbans]).
  apply Rotate.bans_rebans in Hbans. rewrite list_to_set_set_iter in Hbans. exists v'. rewrite Heq. unfold enforce_limits in Heq.
  rewrite (flat_status prio till (pool v) s (vi_pool _ Hv) Hfl Hm) in Heq.
  cbn [st_ready st_ready_bytes st_future st_future_bytes] in Heq.
  rewrite (limit_ok_zero _ Hflm), orb_false_r in Heq. destruct (is_exceeded _ _ _) eqn:Hex.
  - destruct (enforce_limits_flat prio till (pool v) _ _ s (vi_pool _ Hv) Hfl Hrl Hflm Hm)
      as (p2 & Hel & Hp2 & _ & Hfl2 & Hq2 & Hid2).
    rewrite Hel in Heq. cbn [mbind outcome_bind] in Heq.
    match type of Heq with context [ban now ?v1 ?hs] => destruct (vpool_ban_spec now v1 hs) as (v3 & Hban & _ & Hv3 & _) end.
    { destruct Hv. by split. }
    rewrite Hban in Heq. cbn [mbind outcome_bind] in Heq. injection Heq as Hv'eq <-.
    assert (pool v' = p2) as Hpool by (rewrite <-Hv'eq, Hv3; done).
    rewrite Hpool. by split_and!.
  - injection Heq as <- <-. destruct (q_fits_id _ _ Hex) as [-> ->]. done.
Qed.

(** The room left for imports on a shard without waiting operations. *)
Lemma room_flat v s n :
  flat prio till (pool v) s → room v s n ↔ ids_left (pool v) s n.
Proof. intros Hfl. unfold room. by rewrite (fl_waiting _ _ _ _ Hfl), map_size_empty, Nat.add_0_r. Qed.

Lemma room_same v v' s n :
  flat prio till (pool v) s → flat prio till (pool v') s →
  id_at (Base.ready (pool v')) s = id_at (Base.ready (pool v)) s → room v s n → room v' s n.
Proof. intros Hfl Hfl' Hid. rewrite !room_flat by done. unfold ids_left. by rewrite Hid. Qed.

Lemma submit_flat now v op s n :
  is_u64 prio → flat_inv v → uniform prio till op → (op_bytes op < 2 ^ 62)%Z → room v s (S n) →
  ∃ v', submit (E := E) try_send now v [Valid op] s =
      Ret (v', [match (q_submit prio (opt_ready (options v)) (queue_of v s) op).2 with
                | Ok h => Ok h | Err e => Err (from_pool_error e) end]) ∧
    flat_inv v' ∧ frame s v v' ∧ room v' s n ∧
    queue_of v' s = (q_submit prio (opt_ready (options v)) (queue_of v s) op).1 ∧
    (∀ s', s' ≠ s → queue_of v' s' = queue_of v s') ∧
    Rotate.rebans (rotator v) now (q_submit_bans prio (opt_ready (options v)) (queue_of v s) op) (rotator v').
Proof.
  intros Hpu Hfi Hu Hb Hroom. pose proof Hfi as [Hv Hfl Hfit Hsm]. unfold submit.
  destruct (submit_one_flat now v op s n Hpu Hv (Hfl s) Hu Hroom)
    as (v1 & Heq & Hv1 & Hfr1 & Hroom1 & Hrot1 & Hfl1 & Hq1).
  assert (for_each (submit_step try_send now s) (v, []) [Valid op] =
    Ret (v1, [match (q_import prio (queue_of v s) op).2 with
      | Ok _ => Ok (op_hash op) | Err e => Err (from_pool_error e) end])) as ->.
  { cbn [for_each]. unfold submit_step. cbn [fst snd]. by rewrite Heq. }
  cbn [mbind outcome_bind]. pose proof (q_submit_fits prio _ (queue_of v s) op Hsm (Hfit s)) as Hfits.
  unfold q_submit, q_submit_bans in *. destruct (q_import prio (queue_of v s) op) as [q1 res] eqn:Hqi; cbn [fst snd] in *.
  apply q_import_cases in Hqi as [(e & -> & ->)|[-> ->]]; cbn [fst snd existsb is_ok orb] in *.
  - eexists. split; [done|].
    destruct (flat_inv_step s v v1 (queue_of v s) Hfi Hv1 Hfr1 Hfl1 Hq1 (Hfit s)). split_and!; try done.
    rewrite Hrot1. split; [done|]. apply Rotate.rebanned_none, (vi_rotator _ Hv).
  - destruct (enforce_flat now v1 s Hv1 Hfl1) as (v2 & -> & Hv2 & Hfr2 & Hfl2 & Hq2 & Hid2 & Hbans2).
    { rewrite Hq1. by eapply fits_measured. }
    rewrite (fr_options _ _ _ Hfr1), Hq1, ?Hrot1 in *. cbn [mbind outcome_bind]. eexists. split.
    { simpl. do 3 f_equal. repeat case_decide; set_solver. }
    pose proof (frame_trans s v v1 v2 Hfr1 Hfr2) as Hfr.
    destruct (flat_inv_step s v v2 _ Hfi Hv2 Hfr Hfl2 Hq2 Hfits).
    split_and!; try done. by apply (room_same v1 v2 s n).
Qed.
(** *** Removal *)

Lemma removed_one (q : list (TrustedOperation Ex)) (h : TxHash) removed :
  NoDup (op_hash <$> q) → removed ≡ₚ filter (λ o, op_hash o ∈ [h]) q →
  removed = filter (λ o, op_hash o = h) q ∧
  (h ∈ op_hash <$> q → ∃ o, removed = [o] ∧ o ∈ q ∧ op_hash o = h).
Proof.
  intros Hnd Hp.
  assert (filter (λ o, op_hash o ∈ [h]) q = filter (λ o, op_hash o = h) q) as Hf.
  { apply list_filter_iff. intros o. by rewrite list_elem_of_singleton. }
  rewrite Hf in Hp.
  assert (h ∉ op_hash <$> q → filter (λ o, op_hash o = h) q = []) as Hnone.
  { clear. intros Hn. induction q as [|o q IH]; [done|]. rewrite filter_cons_False; [apply IH; set_solver|].
    intros <-. apply Hn. left. }
  assert (h ∈ op_hash <$> q → ∃ o, filter (λ o, op_hash o = h) q = [o] ∧ o ∈ q ∧ op_hash o = h) as Hone.
  { clear -Hnd. induction q as [|o q IH]; [set_solver|]. rewrite fmap_cons in *. apply NoDup_cons in Hnd as [Hno Hnd].
    intros [->|Hin]%elem_of_cons.
    - exists o. rewrite filter_cons_True by done. split; [f_equal|split; [left|done]].
      clear -Hno. induction q as [|x q IH]; [done|]. rewrite filter_cons_False; [apply IH; set_solver|].
      intros E. apply Hno. rewrite <-E. left.
    - destruct (IH Hnd Hin) as (x & Hx & Hxin & Hh). exists x. rewrite filter_cons_False.
      + split_and!; [done|by right|done].
      + intros E. apply Hno. rewrite E, <-Hh. apply list_elem_of_fmap. eauto. }
  destruct (decide (h ∈ op_hash <$> q)) as [Hin|Hn].
  - destruct (Hone Hin) as (o & Ho & ? & ?). rewrite Ho in *. apply Permutation_singleton_r in Hp as ->. eauto.
  - rewrite (Hnone Hn) in *. apply Permutation_nil_r in Hp as ->. done.
Qed.

Lemma remove_invalid_flat now v h s inblock :
  flat_inv v →
  ∃ v', remove_invalid now v [h] s inblock = Ret (v', filter (λ o, op_hash o = h) (queue_of v s)) ∧
    flat_inv v' ∧ frame s v v' ∧ (∀ n, room v s n → room v' s n) ∧
    queue_of v' s = filter (λ o, op_hash o ≠ h) (queue_of v s) ∧
    (∀ s', s' ≠ s → queue_of v' s' = queue_of v s') ∧
    (if inblock then rotator v' = rotator v else Rotate.bans (rotator v) now [h] (rotator v')).
Proof.
  intros Hfi. pose proof Hfi as [Hv Hfl Hfit Hsm]. pose proof (vi_pool _ Hv) as Hp.
  destruct (remove_invalid_spec now v [h] s inblock Hv) as (v' & removed & Heq & Hv' & Hfr & [_ _ Hbans _]).
  destruct (remove_flat prio till (pool v) [h] s Hp (Hfl s)) as (p' & l & Hrm & Hp' & Hse & Hfl' & Hq' & Hl & Hid).
  assert (pool v' = p' ∧ removed = l) as [Hpool ->].
  { cbn [remove_invalid] in Heq. rewrite Hrm in Heq. cbn [mbind outcome_bind] in Heq. destruct inblock.
    - by injection Heq as <- <-.
    - destruct (vpool_ban_spec now (set_pool v p') [h]) as (v1 & Hb & _ & Hv1 & _); [destruct Hv; by split|].
      rewrite Hb in Heq. cbn [mbind outcome_bind] in Heq. injection Heq as <- <-. by rewrite Hv1. }
  exists v'. destruct (removed_one _ h l (queue_nodup prio till _ s Hp (Hfl s)) Hl) as [<- _].
  assert (filter (λ o, op_hash o ∉ [h]) (queue_of v s) = filter (λ o, op_hash o ≠ h) (queue_of v s)) as Hf.
  { apply list_filter_iff. intros o. by rewrite list_elem_of_singleton. }
  rewrite Hf, <-Hpool in Hq'. rewrite <-Hpool in Hfl', Hid.
  destruct (flat_inv_step s v v' _ Hfi Hv' Hfr Hfl' Hq') as [? ?].
  2:{ split_and!; try done. intros n. by apply room_same. }
  apply filter_fits; [|done]. intros o Ho. by apply (un_bytes prio till), (queue_uniform prio till _ s o Hp (Hfl s)).
Qed.
End flat_vpool.
End FlatVPool.
