(* ===== verification/AuthorInv.v ===== *)
(** The author refines a specification with a FIFO queue per shard and the hashes that
    are banned: a request that is accepted is appended, a removal takes the operation
    out, the queues and the bans decide what is answered, and the pending operations
    are the queue in order. *)

From stdpp Require Import base gmap fin_maps sets numbers strings list.
From S2P Require Import Prelude Collections PoolTypes TrackedMap FuturePool ReadyPool ReadyInv BasePool BaseInv BaseOps Rotator Listener ValidatedPool VPoolInv FlatPool OpPool StfTypes Author.

Module AuthorInv.
Import VPool BaseInv BaseOps VPoolInv Flat FlatOps FlatLimits FlatVPool Author.

(** What the pool relies on in the validity of an operation. *)
Definition PRIORITY : Z := Z.shiftl 1 20.
Definition LONGEVITY : Z := 64.

Record slot_validity (vt : ValidTransaction) : Prop := {
  sv_requires : vt_requires vt = [];
  sv_provides : ∃ slot, vt_provides vt = [slot];
  sv_priority : vt_priority vt = PRIORITY;
  sv_longevity : vt_longevity vt = LONGEVITY;
}.

(** The promise of a validation to the pool. *)
Class UniformValidation (G : Type) `{!PoolTransactionValidation G} : Prop := {
  uniform_validity : ∀ (g : G) vt, validate g = Ok vt → slot_validity vt;
}.

#[export] Instance uniform_getter `{!SlotCodec} {PG TG} : UniformValidation (Getter PG TG).
Proof. split. intros [g|g sg] vt; simpl; [done|]. intros [= <-]. split; simpl; eauto. Qed.

#[export] Instance uniform_operation `{!SlotCodec} {TCS G} `{!TrustedCallVerification TCS}
  `{!PoolTransactionValidation G} `{!UniformValidation G} : UniformValidation (StfTrustedOperation TCS G).
Proof.
  split. intros [c|c|g] vt; simpl; [intros [= <-]; split; simpl; eauto..|]. apply uniform_validity.
Qed.

Lemma priority_u64 : is_u64 PRIORITY.
Proof. split; by vm_compute. Qed.

Section author_inv.
Context `{Ord : IterOrder} `{!SlotCodec} {TCS G Key Sink : Type}.
Context `{!TrustedCallVerification TCS} `{!PoolTransactionValidation G} `{!UniformValidation G}.
Context (env : Enclave Key (StfTrustedOperation TCS G)).
Context (top_filter : StfTrustedOperation TCS G → bool).
Context (try_send : Sink → TxHash → send_result * Sink).
Abbreviation TOP := (StfTrustedOperation TCS G).
Implicit Types (a : AuthorState TOP Sink) (v : ValidatedPool TOP Sink) (s : ShardIdentifier) (now : Z).

(** Encodings are shorter than a quarter of the address space. *)
Hypothesis short_encodings : ∀ top : TOP, (0 ≤ (hash_len env top).2 < 2 ^ 62)%Z.

Definition author_inv a : Prop := flat_inv PRIORITY LONGEVITY (top_pool a).

Definition queue_at a s : list (TrustedOperation TOP) := queue (pool (top_pool a)) s.

Definition limit_of a : Limit := opt_ready (options (top_pool a)).

(** The operation the pool makes of a valid request. *)
Definition pool_operation (top : TOP) (vt : ValidTransaction) : TrustedOperation TOP :=
  MkOperation top (hash_len env top).2 (hash_of env top) PRIORITY LONGEVITY [] (vt_provides vt)
    (vt_propagate vt) TX_SOURCE.

Lemma pool_operation_uniform top vt :
  validate top = Ok vt → uniform PRIORITY LONGEVITY (pool_operation top vt).
Proof.
  intros Hv. destruct (uniform_validity top vt Hv) as [_ Hp _ _]. split; simpl; try done.
  specialize (short_encodings top). unfold is_u64, u64_max. lia.
Qed.

(** A request on the queue of its shard. *)
Definition q_process (limit : Limit) (banned : bool) (q : list (TrustedOperation TOP)) (top : TOP) :
    list (TrustedOperation TOP) * result TxHash PoolError :=
  if banned then (q, Err TemporarilyBanned)
  else if decide (hash_of env top ∈ op_hash <$> q) then (q, Err AlreadyImported)
  else
    match validate top with
    | Err InvalidTransaction => (q, Err InvalidTrustedOperation)
    | Err UnknownTransaction => (q, Err UnknownTrustedOperation)
    | Ok vt => q_submit PRIORITY limit q (pool_operation top vt)
    end.

(** The hashes that are banned over it: that of a request that is refused as banned, as
    known or as invalid, and those of the operations that the limits drop. *)
Definition q_process_bans (limit : Limit) (banned : bool) (q : list (TrustedOperation TOP)) (top : TOP) : gset TxHash :=
  if banned then {[hash_of env top]}
  else if decide (hash_of env top ∈ op_hash <$> q) then {[hash_of env top]}
  else
    match validate top with
    | Err InvalidTransaction => {[hash_of env top]}
    | Err UnknownTransaction => ∅
    | Ok vt => q_submit_bans PRIORITY limit q (pool_operation top vt)
    end.

(** What the verification hands to the pool. *)
Lemma verify_one_flat v top s :
  flat_inv PRIORITY LONGEVITY v →
  OpPool.verify_one (api env) v 0 TX_SOURCE top OpPool.CheckYes s =
  (hash_of env top,
   if is_banned v (hash_of env top) then Invalid (hash_of env top) (SePoolError TemporarilyBanned)
   else if decide (hash_of env top ∈ op_hash <$> queue (pool v) s)
     then Invalid (hash_of env top) (SePoolError AlreadyImported)
   else match validate top with
        | Err InvalidTransaction => Invalid (hash_of env top) (SePoolError InvalidTrustedOperation)
        | Err UnknownTransaction => Unknown (hash_of env top) (SePoolError UnknownTrustedOperation)
        | Ok vt => Valid (pool_operation top vt)
        end).
Proof.
  intros [Hv Hfl _ _]. unfold OpPool.verify_one, hash_of, OpPool.hash_of. cbn [hash_and_length api sidechain_api].
  destruct (hash_len env top) as [h len] eqn:Hhl. cbn [fst]. unfold check_is_known. cbn [negb andb].
  destruct (is_banned v h); [done|].
  rewrite is_imported_spec, (queue_hashes PRIORITY LONGEVITY (pool v) s (vi_pool _ Hv) (Hfl s)).
  case_bool_decide as Hin; unfold op_hashes in Hin; rewrite elem_of_list_to_set in Hin;
    [by rewrite decide_True|rewrite decide_False by done].
  cbn [validate_transaction api sidechain_api]. unfold sidechain_validate.
  destruct (validate top) as [vt|[]] eqn:Hval; [|done..].
  destruct (uniform_validity top vt Hval) as [Hr [slot Hp] Hpr Hlo].
  unfold valid_at, pool_operation, hash_of, OpPool.hash_of. cbn [hash_and_length api sidechain_api].
  rewrite Hhl, Hr, Hp, Hpr, Hlo. done.
Qed.

(** A submission of what the verification returned. *)
Lemma submit_verified now v top s n :
  flat_inv PRIORITY LONGEVITY v → room v s (S n) →
  let tx := (OpPool.verify_one (api env) v 0 TX_SOURCE top OpPool.CheckYes s).2 in
  let r := q_process (opt_ready (options v)) (is_banned v (hash_of env top)) (queue (pool v) s) top in
  ∃ v', submit (E := StateRpcError) try_send now v [tx] s =
      Ret (v', [match r.2 with Ok h => Ok h | Err e => Err (SePoolError e) end]) ∧
    flat_inv PRIORITY LONGEVITY v' ∧ frame s v v' ∧ room v' s n ∧ queue (pool v') s = r.1 ∧
    (∀ s', s' ≠ s → queue (pool v') s' = queue (pool v) s') ∧
    Rotate.rebans (rotator v) now
      (q_process_bans (opt_ready (options v)) (is_banned v (hash_of env top)) (queue (pool v) s) top) (rotator v').
Proof.
  intros Hfi Hroom tx r. subst tx r.
  assert (room v s n) as Hroom' by (unfold room, ids_left in *; lia). rewrite (verify_one_flat v top s Hfi). cbn [snd]. unfold q_process, q_process_bans.
  assert (∀ h e, ∃ v', submit (E := StateRpcError) try_send now v [Invalid h (SePoolError e)] s =
      Ret (v', [Err (SePoolError e)]) ∧ flat_inv PRIORITY LONGEVITY v' ∧ frame s v v' ∧
      room v' s n ∧ queue (pool v') s = queue (pool v) s ∧ (∀ s', s' ≠ s → queue (pool v') s' = queue (pool v) s') ∧
      Rotate.rebans (rotator v) now {[h]} (rotator v')) as Hinvalid.
  { intros h e. destruct (vpool_ban_spec now v [h] (fi_inv _ _ _ Hfi)) as (v1 & Hb & Hv1 & Hv1eq & Hbans).
    apply Rotate.bans_rebans in Hbans. rewrite list_to_set_singleton_L in Hbans. exists v1. unfold submit. cbn [for_each]. unfold submit_step. cbn [fst snd submit_one]. rewrite Hb.
    cbn. split; [done|]. destruct Hfi as [_ Hfl Hfit Hsm]. rewrite Hv1eq in Hv1, Hbans |- *. by split. }
  destruct (is_banned v (hash_of env top)); [apply Hinvalid|].
  case_decide; [apply Hinvalid|]. destruct (validate top) as [vt|[]] eqn:Hval; [|apply Hinvalid|].
  - refine (submit_flat (E := StateRpcError) PRIORITY LONGEVITY try_send now v (pool_operation top vt) s n
      priority_u64 Hfi (pool_operation_uniform top vt Hval) _ Hroom).
    simpl. specialize (short_encodings top). lia.
  - eexists. split; [done|]. destruct Hfi as [[Hp Hl Hr Hlim] Hfl Hfit Hsm]. split_and!; try done.
    + split; try done. split; simpl; try done. by apply listener_invalid_inv.
    + split; [done|]. by apply Rotate.rebanned_none.
Qed.
Lemma verify_singleton v top s :
  map_values (OpPool.verify (api env) v [(TX_SOURCE, top)] OpPool.CheckYes s) =
  [(OpPool.verify_one (api env) v 0 TX_SOURCE top OpPool.CheckYes s).2].
Proof.
  unfold OpPool.verify. cbn [fmap list_fmap foldl].
  destruct (OpPool.verify_one (api env) v 0 TX_SOURCE top OpPool.CheckYes s) as [h tx]. cbn [snd].
  apply Permutation_singleton_r. rewrite map_values_perm, insert_empty, map_to_list_singleton. done.
Qed.

(** Watching differs from submitting by the watcher only. *)
Lemma watch_submitted now v v' (tx : ValidatedOperation TOP StateRpcError) s res :
  flat_inv PRIORITY LONGEVITY v → flat_inv PRIORITY LONGEVITY v' → frame s v v' →
  submit try_send now v [tx] s = Ret (v', [res]) →
  ∃ v2, submit_and_watch try_send now v tx s = Ret (v2, res) ∧ flat_inv PRIORITY LONGEVITY v2 ∧
    frame s v v2 ∧ pool v2 = pool v' ∧ rotator v2 = rotator v' ∧
    (∀ h, res = Ok h → Listen.watchers (listener v2) !! h = Some (Listen.new_watcher h)).
Proof.
  intros Hfi Hfi' Hfr Hsub. destruct tx as [op|h e|h e].
  - cbn [submit_and_watch]. rewrite Hsub. cbn [mbind outcome_bind last unwrap]. eexists. split; [done|].
    destruct res as [h|e]; [|by split_and!]. destruct Hfi' as [[Hp Hl Hr Hlim] Hfl Hfit Hsm]. destruct Hfr.
    split_and!; [|by split|done|done|].
    + split; try done. split; simpl; try done. by apply Listen.create_watcher_inv.
    + intros h' [= <-]. simpl. by rewrite lookup_insert_eq.
  - unfold submit in Hsub. cbn [for_each] in Hsub. unfold submit_step in Hsub. cbn [fst snd submit_one] in Hsub.
    cbn [submit_and_watch]. destruct (vpool_ban_spec now v [h] (fi_inv _ _ _ Hfi)) as (v1 & Hb & _).
    rewrite Hb in Hsub |- *. cbn in Hsub |- *. injection Hsub as <- <-. by exists v1.
  - cbn in Hsub |- *. injection Hsub as <- <-. exists v. split_and!; [done|done|apply frame_refl|done|done|done].
Qed.

Definition process_post now a (top : TOP) s (mode : TopSubmissionMode) a' (res : result TxHash RpcError) : Prop :=
  let r := q_process (limit_of a) (is_banned (top_pool a) (hash_of env top)) (queue_at a s) top in
  res = match r.2 with Ok h => Ok h | Err e => Err (RpcStateError (SePoolError e)) end ∧
  queue_at a' s = r.1 ∧ (∀ s', s' ≠ s → queue_at a' s' = queue_at a s') ∧
  metrics a' = metrics a ++ [TopPoolSizeIncrement] ∧
  Rotate.rebans (rotator (top_pool a)) now
    (q_process_bans (limit_of a) (is_banned (top_pool a) (hash_of env top)) (queue_at a s) top) (rotator (top_pool a')) ∧
  (mode = SubmitWatch → ∀ h, res = Ok h → Listen.watchers (listener (top_pool a')) !! h = Some (Listen.new_watcher h)).

(** Processing a request that reaches the pool. *)
Lemma process_top_spec now a ext s mode top n :
  author_inv a → room (top_pool a) s (S n) → open_request env top_filter ext s = Ok top →
  ∃ a' res, process_top env top_filter try_send now a ext s mode = Ret (a', res) ∧ author_inv a' ∧
    frame s (top_pool a) (top_pool a') ∧ room (top_pool a') s n ∧ process_post now a top s mode a' res.
Proof.
  intros Hfi Hroom Hopen. unfold process_top. rewrite Hopen. destruct a as [v ms]. unfold author_inv in Hfi.
  cbn [update_metric top_pool metrics] in *.
  destruct (submit_verified now v top s n Hfi Hroom) as (v' & Hsub & Hfi' & Hfr & Hroom' & Hq & Hothers & Hbans).
  set (r := q_process _ _ _ _) in *. unfold process_post, queue_at, limit_of. cbn [top_pool metrics]. fold r.
  destruct mode.
  - unfold OpPool.submit_one, OpPool.submit_at. cbn [fmap list_fmap].
    rewrite verify_singleton, Hsub. cbn [mbind outcome_bind last unwrap]. eexists _, _. split; [done|].
    split_and!; try done. by destruct r.2.
  - unfold OpPool.submit_and_watch.
    destruct (watch_submitted now v v' _ s _ Hfi Hfi' Hfr Hsub) as (v2 & -> & Hfi2 & Hfr2 & Hp2 & Hrot2 & Hw).
    cbn [mbind outcome_bind]. eexists _, _. split; [done|]. cbn [set_pool top_pool metrics]. rewrite Hp2, Hrot2.
    split_and!; try done; [unfold room in *; by rewrite Hp2|by destruct r.2|]. intros _ h. destruct r.2; [|done]. intros [= <-]. by apply Hw.
Qed.
(** *** Removal *)

(** The hash a removal refers to. *)
Definition target (call : TrustedOperationOrHash TCS G) : option TxHash :=
  match call with
  | TopHash h => Some h
  | TopEncoded bytes => hash_of env <$> decode_top env bytes
  | TopOperation op => Some (hash_of env op)
  end.

Lemma remove_top_spec now a call s inblock h :
  author_inv a → target call = Some h →
  ∃ a', remove_top env now a call s inblock =
      Ret (a', if decide (h ∈ op_hash <$> queue_at a s) then Ok h
               else Err (SePoolError InvalidTrustedOperation)) ∧
    author_inv a' ∧ frame s (top_pool a) (top_pool a') ∧
    (∀ n, room (top_pool a) s n → room (top_pool a') s n) ∧
    queue_at a' s = filter (λ o, op_hash o ≠ h) (queue_at a s) ∧
    (∀ s', s' ≠ s → queue_at a' s' = queue_at a s') ∧
    Rotate.rebans (rotator (top_pool a)) now (if inblock then ∅ else {[h]}) (rotator (top_pool a')).
Proof.
  intros Hfi Ht. unfold author_inv in *.
  destruct (remove_invalid_flat PRIORITY LONGEVITY now (top_pool a) h s inblock Hfi)
    as (v' & Hrm & Hfi' & Hfr & Hroom & Hq & Hothers & Hbans).
  assert (Rotate.rebans (rotator (top_pool a)) now (if inblock then ∅ else {[h]}) (rotator v')) as Hbans'.
  { destruct inblock; [rewrite Hbans; split; [done|]; apply Rotate.rebanned_none, (vi_rotator _ (fi_inv _ _ _ Hfi))|].
    apply Rotate.bans_rebans in Hbans. by rewrite list_to_set_singleton_L in Hbans. }
  pose proof (queue_nodup PRIORITY LONGEVITY _ s (vi_pool _ (fi_inv _ _ _ Hfi)) (fi_flat _ _ _ Hfi s)) as Hnd.
  destruct (removed_one _ h _ Hnd (reflexivity _)) as [E Hone]. exists (MkAuthor v' (metrics a ++ [TopPoolSizeDecrement])).
  split; [|done]. unfold remove_top.
  assert (match call with
    | TopHash h => Ok h
    | TopEncoded bytes => match decode_top env bytes with Some op => Ok (hash_of env op) | None => Err SeCodecError end
    | TopOperation op => Ok (hash_of env op) end = Ok h) as ->.
  { destruct call as [h'|bytes|op]; simpl in Ht; [by simplify_eq| |by simplify_eq].
    destruct (decode_top env bytes); by simplify_eq/=. }
  cbn [update_metric top_pool]. rewrite Hrm. cbn [mbind outcome_bind]. unfold set_pool. cbn [metrics].
  do 2 f_equal. rewrite <-E. unfold queue_at. case_decide as Hin.
  - destruct (Hone Hin) as (o & -> & _ & <-). done.
  - destruct (filter (λ o, op_hash o ∈ [h]) (queue (pool (top_pool a)) s)) as [|o l] eqn:Hf; [done|].
    assert (o ∈ filter (λ o, op_hash o ∈ [h]) (queue (pool (top_pool a)) s)) as Ho by (rewrite Hf; left).
    apply list_elem_of_filter in Ho as [Hh%list_elem_of_singleton Ho]. destruct Hin. rewrite <-Hh.
    apply list_elem_of_fmap. eauto.
Qed.

(** *** Pending operations *)

Lemma pending_spec a s fuel :
  author_inv a → length (queue_at a s) < fuel → pending fuel a s = Ret (data <$> queue_at a s).
Proof.
  intros Hfi Hf. unfold pending, VPool.ready.
  rewrite (ready_yields_queue PRIORITY LONGEVITY); [done|by apply Hfi|by apply Hfi|done].
Qed.
(** *** Histories *)

(** Every operation of a queue is the one the pool makes of its request. *)
Definition made (o : TrustedOperation TOP) : Prop :=
  ∃ vt, validate (data o) = Ok vt ∧ o = pool_operation (data o) vt.

Definition all_made a : Prop := ∀ s o, o ∈ queue_at a s → made o.

Lemma q_process_made limit banned q top o :
  o ∈ (q_process limit banned q top).1 → o ∈ q ∨ made o.
Proof.
  unfold q_process. destruct banned; [by left|]. case_decide; [by left|].
  destruct (validate top) as [vt|[]] eqn:Hv; [|by left..]. unfold q_submit.
  destruct (q_import _ _ _) as [q1 res] eqn:Hq. apply q_import_cases in Hq as [(e & -> & ->)|[-> ->]]; cbn [fst].
  - by left.
  - intros Ho. assert (o ∈ q ++ [pool_operation top vt]) as Hin.
    { rewrite <-(q_dropped_shrink limit (q ++ [pool_operation top vt])). apply elem_of_app. by right. }
    apply elem_of_app in Hin as [?| ->%list_elem_of_singleton]; [by left|right]. by exists vt.
Qed.

Inductive Command :=
| CmdSubmit (ext : list N) (s : ShardIdentifier) (mode : TopSubmissionMode)
| CmdRemove (call : TrustedOperationOrHash TCS G) (s : ShardIdentifier) (inblock : bool).

(** What a command is answered. *)
Inductive Reply :=
| Submitted (r : result TxHash RpcError)
| Removed (r : result TxHash StateRpcError).

Definition run_one now a (c : Command) : outcome (AuthorState TOP Sink * Reply) :=
  match c with
  | CmdSubmit ext s mode => process_top env top_filter try_send now a ext s mode ≫= λ '(a, r), Ret (a, Submitted r)
  | CmdRemove call s inblock => remove_top env now a call s inblock ≫= λ '(a, r), Ret (a, Removed r)
  end.

(** A history of requests, each with the time it arrives at, and the replies. *)
Fixpoint run a (cs : list (Z * Command)) : outcome (AuthorState TOP Sink * list Reply) :=
  match cs with
  | [] => Ret (a, [])
  | (now, c) :: cs => run_one now a c ≫= λ '(a, r), run a cs ≫= λ '(a, rs), Ret (a, r :: rs)
  end.

(** The specification: the queues of the shards, and until when hashes are banned. *)
Record AuthorSpec := MkSpec {
  sp_queue : ShardIdentifier → list (TrustedOperation TOP);
  sp_bans : gmap TxHash Z;
}.

Definition spec_of a : AuthorSpec := MkSpec (queue_at a) (Rotate.banned_until (rotator (top_pool a))).
Definition ban_time_of a : Z := Rotate.ban_time (rotator (top_pool a)).

(** An operation is offered to the queue of a shard; whether its hash is banned is read
    from the bans. *)
Definition q_offer (limit : Limit) (ban_time now : Z) (A : AuthorSpec) s (top : TOP) (A' : AuthorSpec) (r : Reply) : Prop :=
  let banned := bool_decide (is_Some (sp_bans A !! hash_of env top)) in
  let res := q_process limit banned (sp_queue A s) top in
  r = Submitted (match res.2 with Ok h => Ok h | Err e => Err (RpcStateError (SePoolError e)) end) ∧
  sp_queue A' s = res.1 ∧ (∀ s', s' ≠ s → sp_queue A' s' = sp_queue A s') ∧
  Rotate.rebanned (now + ban_time) (q_process_bans limit banned (sp_queue A s) top) (sp_bans A) (sp_bans A').

(** One command. *)
Definition q_step (limit : Limit) (ban_time now : Z) (A : AuthorSpec) (c : Command) (A' : AuthorSpec) (r : Reply) : Prop :=
  match c with
  | CmdSubmit ext s _ =>
      match open_request env top_filter ext s with
      | Ok top => q_offer limit ban_time now A s top A' r
      | Err e => A' = A ∧ r = Submitted (Err (RpcClientError e))
      end
  | CmdRemove call s inblock =>
      match target call with
      | Some h =>
          r = Removed (if decide (h ∈ op_hash <$> sp_queue A s) then Ok h else Err (SePoolError InvalidTrustedOperation)) ∧
          sp_queue A' s = filter (λ o, op_hash o ≠ h) (sp_queue A s) ∧ (∀ s', s' ≠ s → sp_queue A' s' = sp_queue A s') ∧
          Rotate.rebanned (now + ban_time) (if inblock then ∅ else {[h]}) (sp_bans A) (sp_bans A')
      | None => A' = A ∧ r = Removed (Err SeCodecError)
      end
  end.

Inductive q_steps (limit : Limit) (ban_time : Z) : AuthorSpec → list (Z * Command) → AuthorSpec → list Reply → Prop :=
| q_steps_nil A : q_steps limit ban_time A [] A []
| q_steps_cons A now c A1 r cs A2 rs :
    q_step limit ban_time now A c A1 r → q_steps limit ban_time A1 cs A2 rs → q_steps limit ban_time A ((now, c) :: cs) A2 (r :: rs).

(** Room for [n] imports on every shard. *)
Definition room_all a (n : nat) : Prop := ∀ s, room (top_pool a) s n.

Lemma room_elsewhere s v v' s' n :
  frame s v v' → s' ≠ s → room v s' n → room v' s' n.
Proof.
  intros [_ Hf Hr] Hne. unfold room, ids_left.
  rewrite (FutureInv.only_shard_waiting_at s _ _ s' Hf Hne). unfold id_at, ReadyInv.id_at.
  by destruct (Hr s' Hne) as (_ & _ & _ & ->).
Qed.

Lemma run_one_spec now a c n :
  author_inv a → all_made a → room_all a (S n) →
  ∃ a' r, run_one now a c = Ret (a', r) ∧ author_inv a' ∧ all_made a' ∧ room_all a' n ∧ limit_of a' = limit_of a ∧
    ban_time_of a' = ban_time_of a ∧ q_step (limit_of a) (ban_time_of a) now (spec_of a) c (spec_of a') r.
Proof.
  intros Hfi Hmade Hroom. assert (room_all a n) as Hroom0.
  { intros s. specialize (Hroom s). unfold room, ids_left in *. lia. }
  destruct c as [ext s mode|call s inblock]; cbn [run_one q_step].
  - destruct (open_request env top_filter ext s) as [top|e] eqn:Hopen.
    + destruct (process_top_spec now a ext s mode top n Hfi (Hroom s) Hopen)
        as (a' & res & -> & Hfi' & Hfr & Hroom' & (Hres & Hq & Hothers & _ & [Htime Hbans] & _)).
      cbn [mbind outcome_bind]. exists a', (Submitted res). split_and!; try done.
      * intros s' o. destruct (decide (s' = s)) as [->|Hne]; [|rewrite Hothers by done; apply Hmade].
        rewrite Hq. intros [?|?]%q_process_made; [by eapply Hmade|done].
      * intros s'. destruct (decide (s' = s)) as [->|Hne]; [done|]. by eapply room_elsewhere.
      * unfold limit_of. by rewrite (fr_options _ _ _ Hfr).
      * split_and!; [by f_equal|done..].
    + unfold process_top. rewrite Hopen. cbn [mbind outcome_bind]. by eexists a, _.
  - destruct (target call) as [h|] eqn:Ht.
    + destruct (remove_top_spec now a call s inblock h Hfi Ht) as (a' & -> & Hfi' & Hfr & Hroom' & Hq & Hothers & [Htime Hbans]).
      cbn [mbind outcome_bind]. eexists a', _. split; [done|]. split_and!; try done.
      * intros s' o. destruct (decide (s' = s)) as [->|Hne]; [|rewrite Hothers by done; apply Hmade].
        rewrite Hq. intros [_ Ho]%list_elem_of_filter. by eapply Hmade.
      * intros s'. destruct (decide (s' = s)) as [->|Hne]; [by apply Hroom'|]. by eapply room_elsewhere.
      * unfold limit_of. by rewrite (fr_options _ _ _ Hfr).
    + destruct call as [|bytes|]; try done. unfold remove_top. simpl in Ht.
      destruct (decode_top env bytes); [done|]. cbn [mbind outcome_bind]. by eexists a, _.
Qed.

Lemma run_spec cs a :
  author_inv a → all_made a → room_all a (length cs) →
  ∃ a' rs, run a cs = Ret (a', rs) ∧ author_inv a' ∧ all_made a' ∧
    q_steps (limit_of a) (ban_time_of a) (spec_of a) cs (spec_of a') rs.
Proof.
  revert a. induction cs as [|[now c] cs IH]; intros a Hfi Hmade Hroom.
  { exists a, []. split_and!; try done. constructor. }
  destruct (run_one_spec now a c (length cs) Hfi Hmade Hroom) as (a1 & r & Heq & Hfi1 & Hmade1 & Hroom1 & Hlim & Htime & Hstep).
  destruct (IH a1 Hfi1 Hmade1 Hroom1) as (a' & rs & Hrun & ? & ? & Hsteps). exists a', (r :: rs). split_and!; try done.
  - cbn [run]. rewrite Heq. cbn [mbind outcome_bind]. by rewrite Hrun.
  - econstructor; [done|]. by rewrite <-Hlim, <-Htime.
Qed.

(** The empty author. *)
Definition new_author (opts : Options) : AuthorState TOP Sink := MkAuthor (new opts) [].

Lemma queue_new opts s : queue_at (new_author opts) s = [].
Proof. done. Qed.

Lemma author_inv_new opts :
  small_limit (opt_ready opts) → small_limit (opt_future opts) →
  author_inv (new_author opts) ∧ all_made (new_author opts).
Proof.
  intros Hr Hf. split; [|intros s o; by rewrite queue_new, elem_of_nil].
  assert (∀ l, small_limit l → BaseLimits.limit_ok l) as Hok.
  { intros l. unfold small_limit, BaseLimits.limit_ok, is_u64, u64_max. lia. }
  split; simpl; [by apply vpool_inv_new; apply Hok| | |done].
  - intros s. by split.
  - intros s. apply fits_bounds. change (queue _ s) with (@nil (TrustedOperation TOP)).
    unfold small_limit in Hr. simpl. lia.
Qed.

Lemma room_new opts n : (Z.of_nat n ≤ u64_max)%Z → room_all (new_author opts) n.
Proof.
  intros Hn s. unfold room, ids_left. cbn [new_author top_pool new pool Base.new Base.ready Base.future].
  unfold id_at, ReadyInv.id_at, FutureInv.waiting_at. simpl. rewrite !lookup_empty. simpl. rewrite map_size_empty. lia.
Qed.
End author_inv.
End AuthorInv.
