(* ===== verification/PoolProps.v ===== *)
(** The properties of the pool of trusted operations, and a concrete pool on which
    their witnesses evaluate: operations that depend on each other, imported into an
    empty pool. *)

From stdpp Require Import base gmap fin_maps sets numbers strings list.
From S2P Require Import Prelude Collections PoolTypes TrackedMap FuturePool ReadyPool ReadyInv ReadyImport ReadyPrune ReadyIter BasePool BaseInv.
From S2P Require Import BaseOps BasePrune Rotator Listener ValidatedPool VPoolInv VPoolResubmit OpPool.

Module Sample.
Import Base BaseInv BaseOps.

#[export] Existing Instance listed_order.

Definition mk (h : TxHash) (reqs provs : list Tag) (p : Z) : TrustedOperation nat :=
  MkOperation 0 1%Z h p 64%Z reqs provs true SourceExternal.

Definition shard : ShardIdentifier := 0%N.

Definition op_a : TrustedOperation nat := mk 1 [] [[1%N]] 10.
Definition op_b : TrustedOperation nat := mk 2 [] [[2%N]] 1.
Definition op_x : TrustedOperation nat := mk 3 [[1%N]; [2%N]] [[3%N]] 5.
Definition op_f : TrustedOperation nat := mk 4 [[9%N]] [[4%N]] 7.
(** Competes with [op_a] for its tag. *)
Definition op_a' : TrustedOperation nat := mk 5 [] [[1%N]] 20.

Lemma mk_ok h reqs provs p :
  NoDup provs → Forall (λ t, t ∉ provs) reqs → is_u64 p → operation_ok (mk h reqs provs p).
Proof.
  intros Hn Hd Hp. split; simpl; [done| |unfold is_u64, u64_max; lia|done]. by apply Forall_forall.
Qed.

Ltac sample_ok := apply mk_ok; [apply (bool_decide_unpack _); vm_compute; exact I
  |apply (bool_decide_unpack _); vm_compute; exact I|unfold is_u64, u64_max; lia].

Lemma op_a_ok : operation_ok op_a. Proof. sample_ok. Qed.
Lemma op_b_ok : operation_ok op_b. Proof. sample_ok. Qed.
Lemma op_x_ok : operation_ok op_x. Proof. sample_ok. Qed.
Lemma op_f_ok : operation_ok op_f. Proof. sample_ok. Qed.
Lemma op_a'_ok : operation_ok op_a'. Proof. sample_ok. Qed.

Definition import_all (p : BasePool nat) (ops : list (TrustedOperation nat)) : outcome (BasePool nat) :=
  for_each (λ p op, import 0 p op shard ≫= λ '(p, _), Ret p) p ops.

Lemma import_all_inv ops p p' :
  base_inv p → Forall operation_ok ops →
  ids_left p shard (length ops + size (waiting_at (future p) shard)) →
  import_all p ops = Ret p' → base_inv p'.
Proof.
  revert p. induction ops as [|op ops IH]; intros p Hp Hok Hid Hrun; [by injection Hrun as <-|].
  apply Forall_cons in Hok as [Hop Hok].
  destruct (base_import_spec 0 p op shard Hp Hop) as (p1 & res & Heq & Hp1 & _ & Hu & _).
  { unfold ids_left in *. simpl in *. lia. }
  apply (IH p1); [done|done|unfold ids_left, ids_used in *; simpl in *; lia|].
  unfold import_all in *. cbn [for_each] in Hrun. rewrite Heq in Hrun. exact Hrun.
Qed.

Definition or_else (o : outcome (BasePool nat)) : BasePool nat :=
  match o with Ret p => p | _ => new false end.

(** Two roots, one operation on both, one that waits. *)
Definition pool4 : BasePool nat := Eval vm_compute in or_else (import_all (new false) [op_a; op_b; op_x; op_f]).

Lemma pool4_run : import_all (new false) [op_a; op_b; op_x; op_f] = Ret pool4.
Proof. vm_compute. reflexivity. Qed.

Lemma pool4_inv : base_inv pool4.
Proof.
  eapply import_all_inv; [apply base_inv_new| | |apply pool4_run].
  - repeat (apply Forall_cons_2; [eauto using op_a_ok, op_b_ok, op_x_ok, op_f_ok|]). apply Forall_nil_2.
  - split; vm_compute; discriminate.
Qed.

Lemma pool4_ids n : n ≤ 1000 → ids_left pool4 shard n.
Proof. intros Hn. unfold ids_left. assert (id_at (ready pool4) shard = 3%Z) as -> by (vm_compute; reflexivity). unfold u64_max. lia. Qed.

Definition limits2 : Options := MkOptions (MkLimit 2 100) (MkLimit 1 100) false.

(** The pool above with a listener and a rotator. *)
Definition vpool4 : VPool.ValidatedPool nat unit :=
  VPool.MkValidatedPool limits2 (Listen.create_watcher Listen.new 1) pool4 [tt] Rotate.default_rotator.

Lemma vpool4_inv : VPoolInv.vpool_inv vpool4.
Proof.
  split; simpl; [apply pool4_inv|apply Listen.create_watcher_inv, Listen.listener_inv_new| |].
  - unfold Rotate.rotator_inv. cbn [Rotate.banned_until Rotate.default_rotator]. rewrite map_size_empty. lia.
  - unfold BaseLimits.limit_ok, is_u64, u64_max. simpl. lia.
Qed.

Definition always_sent (sink : unit) (h : TxHash) : VPool.send_result * unit := (VPool.SendOk, sink).
End Sample.

(** The properties of the trusted operation pool, each with a witness on the
    concrete pool of [PoolSample]. *)

Import Sample.

(** ** The queues *)

(** [TrackedMap] under [insert], [remove] and in-place updates keeps its
    counters equal to the number of entries and to their total size, modulo
    [isize]; while the true figures fit, [len] and [bytes] report them. *)
Theorem tracked_map_counts {K V} `{Countable K, Tracked.Size V} (m : Tracked.TrackedMap K V) (k : K) (v : V) :
  Tracked.tracked m →
  Tracked.tracked (Tracked.insert m k v).1 ∧ Tracked.tracked (Tracked.remove m k).1 ∧
  ((Z.of_nat (size (Tracked.index m)) < 2 ^ 63)%Z → Tracked.len m = Z.of_nat (size (Tracked.index m))) ∧
  ((0 ≤ Tracked.total_size (Tracked.index m) < 2 ^ 63)%Z →
    Tracked.bytes m = Tracked.total_size (Tracked.index m)).
Proof.
  intros Ht. split_and!; [by apply Tracked.tracked_insert|by apply Tracked.tracked_remove|..].
  - by apply Tracked.tracked_len_exact.
  - by apply Tracked.tracked_bytes_exact.
Qed.

#[local] Existing Instance Ready.ready_tx_size.

Definition tracked_sample : Tracked.TrackedMap TxHash (Ready.ReadyTx nat) :=
  (Tracked.insert Tracked.empty 1%N (Ready.MkReadyTx (Ready.MkRef op_a 1) [] 0)).1.

Lemma tracked_map_counts_witness : Tracked.len tracked_sample = 1%Z.
Proof.
  apply (tracked_map_counts tracked_sample 2%N (Ready.MkReadyTx (Ready.MkRef op_b 1) [] 0)).
  - apply Tracked.tracked_insert, Tracked.tracked_empty.
  - vm_compute. reflexivity.
Defined.

(** [satisfy_tags] of the Future queue takes the tags out of what every
    operation of the shard misses, returns exactly the operations that miss
    nothing any more, and touches no other shard. *)
Theorem future_satisfy_tags `{IterOrder} {Ex} (f : Future.FutureTrustedOperations Ex) tags s :
  FutureInv.future_inv f →
  ∃ f' out, Future.satisfy_tags f tags s = Ret (f', out) ∧ FutureInv.future_inv f' ∧
    FutureInv.only_shard s f f' ∧
    (∀ h, FutureInv.waiting_at f' s !! h =
       FutureInv.waiting_at f s !! h ≫= FutureInv.still_waiting (list_to_set tags)) ∧
    (∀ w, w ∈ out ↔ ∃ h w0, FutureInv.waiting_at f s !! h = Some w0 ∧
       Future.missing_tags w0 ∖ list_to_set tags = ∅ ∧ w = FutureInv.satisfied (list_to_set tags) w0) ∧
    NoDup (FutureInv.w_hash <$> out).
Proof.
  intros Hf. destruct (FutureInv.satisfy_tags_spec f tags s Hf) as (f' & out & Heq & Hf' & Ho & [Hp Hout Hnd]).
  by exists f', out.
Qed.

Lemma future_satisfy_tags_witness :
  ∃ f' out, Future.satisfy_tags (Base.future pool4) [[9%N]] shard = Ret (f', out) ∧
    FutureInv.future_inv f'.
Proof.
  destruct (future_satisfy_tags (Base.future pool4) [[9%N]] shard) as (f' & out & Heq & Hf & _).
  - apply (BaseInv.pi_future _ _ (BaseInv.bi_pool _ pool4_inv)).
  - eauto.
Defined.

(** [import] of the Ready queue accepts an operation exactly when nothing
    provides its tags or its priority exceeds the combined priority of those
    that do; then exactly they and what depends on them (through other tags)
    leave, the operation enters with the next insertion id and is linked to the
    providers of its requirements.  Otherwise the answer is [TooLowPriority] and
    the queue is as before.  It never panics. *)
Theorem ready_import_exact `{IterOrder} {Ex} (r : Ready.ReadyOperations Ex) w s :
  let op := Future.operation w in
  let id := (ReadyInv.id_at r s + 1)%Z in
  let prio := ReadyImport.collective_priority (ReadyInv.ready_at r s) (ReadyImport.competitors r op s) in
  ReadyInv.ready_inv r → operation_ok op → Future.missing_tags w = ∅ →
  ReadyInv.ready_at r s !! op_hash op = None → is_u64 id →
  ∃ r' res, Ready.import r w s = Ret (r', res) ∧ ReadyInv.ready_inv r' ∧
    ReadyInv.only_shard s r r' ∧ ReadyInv.id_at r' s = id ∧
    match res with
    | Ok removed =>
        (ReadyImport.competitors r op s = [] ∨ (prio < priority op)%Z) ∧
        ∃ r1 unlocked,
          ReadyRemove.removes (Some (ReadyImport.provided_set op)) (ReadyInv.ready_at r s)
            (ReadyImport.competitors r op s) (ReadyInv.ready_at r1 s) removed ∧
          unlocked = mjoin (Ready.unlocks <$> omap (λ h, ReadyInv.ready_at r s !! h)
            (ReadyImport.competitors r op s)) ∧
          ReadyImport.entered op s id r1 r' unlocked
    | Err e =>
        e = TooLowPriority (priority op) ∧ ReadyImport.competitors r op s ≠ [] ∧ (priority op ≤ prio)%Z ∧
        ReadyInv.ready_at r' s = ReadyInv.ready_at r s ∧ ReadyInv.tags_at r' s = ReadyInv.tags_at r s ∧
        ReadyInv.best_at r' s = ReadyInv.best_at r s
    end.
Proof. intros op id prio. by apply ReadyImport.ready_import_spec. Qed.

Lemma ready_import_exact_witness :
  ∃ r' res, Ready.import (Base.ready pool4) (Future.MkWaiting op_a' ∅ 0) shard = Ret (r', res) ∧
    ReadyInv.ready_inv r'.
Proof.
  destruct (ready_import_exact (Base.ready pool4) (Future.MkWaiting op_a' ∅ 0) shard)
    as (r' & res & Heq & Hr & _).
  - apply (BaseInv.pi_ready _ _ (BaseInv.bi_pool _ pool4_inv)).
  - apply op_a'_ok.
  - reflexivity.
  - vm_compute. reflexivity.
  - split; vm_compute; discriminate.
  - eauto.
Defined.

(** [remove_subtree] of the Ready queue ends without panic, removes exactly
    the given operations and everything reached from them over links, and
    returns each removed operation once. *)
Theorem ready_remove_subtree_exact `{IterOrder} {Ex} (r : Ready.ReadyOperations Ex) hashes s :
  ReadyInv.ready_inv r →
  ∃ r' removed, Ready.remove_subtree r hashes s = Ret (r', removed) ∧ ReadyInv.ready_inv r' ∧
    ReadyInv.only_shard s r r' ∧
    (∀ h, ReadyInv.ready_at r' s !! h = None ↔
       ReadyInv.ready_at r s !! h = None ∨ ReadyInv.reached None (ReadyInv.ready_at r s) hashes h) ∧
    (∀ op, op ∈ removed ↔ ∃ h tx, ReadyInv.ready_at r s !! h = Some tx ∧
       ReadyInv.reached None (ReadyInv.ready_at r s) hashes h ∧ Ready.tx_op tx = op) ∧
    NoDup (op_hash <$> removed).
Proof.
  intros Hr. destruct (ReadyRemove.ready_remove_spec r hashes s Hr)
    as (r' & removed & Heq & Hr' & Ho & _ & [Hg _ Hrem Hnd]). by exists r', removed.
Qed.

Lemma ready_remove_subtree_exact_witness :
  ∃ r' removed, Ready.remove_subtree (Base.ready pool4) [1%N] shard = Ret (r', removed) ∧
    ReadyInv.ready_inv r'.
Proof.
  destruct (ready_remove_subtree_exact (Base.ready pool4) [1%N] shard) as (r' & removed & Heq & Hr & _).
  - apply (BaseInv.pi_ready _ _ (BaseInv.bi_pool _ pool4_inv)).
  - eauto.
Defined.

(** [prune_tags] of the Ready queue ends without panic; the tag is no longer
    provided, every operation it removes is the provider of the tag or one
    that provider depends on, and it returns exactly what it removed. *)
Theorem ready_prune_tags_sound `{IterOrder} {Ex} (r : Ready.ReadyOperations Ex) tag s :
  ReadyInv.ready_inv r →
  ∃ r' removed, Ready.prune_tags r tag s = Ret (r', removed) ∧ ReadyInv.ready_inv r' ∧
    ReadyInv.only_shard s r r' ∧ ReadyInv.tags_at r' s !! tag = None ∧
    (∀ h tx, ReadyInv.ready_at r s !! h = Some tx → ReadyInv.ready_at r' s !! h = None →
       ReadyPrune.prunable (ReadyInv.tags_at r s) (ReadyInv.ready_at r s) tag h) ∧
    (∀ op, op ∈ removed ↔ ∃ h tx, ReadyInv.ready_at r s !! h = Some tx ∧
       ReadyInv.ready_at r' s !! h = None ∧ Ready.tx_op tx = op) ∧
    NoDup (op_hash <$> removed).
Proof.
  intros Hr. destruct (ReadyPrune.ready_prune_spec r tag s Hr)
    as (r' & removed & Heq & Hr' & Ho & _ & [Ht _ Hg Hrem Hnd]). by exists r', removed.
Qed.

Lemma ready_prune_tags_sound_witness :
  ∃ r' removed, Ready.prune_tags (Base.ready pool4) [3%N] shard = Ret (r', removed) ∧
    ReadyInv.ready_inv r'.
Proof.
  destruct (ready_prune_tags_sound (Base.ready pool4) [3%N] shard) as (r' & removed & Heq & Hr & _).
  - apply (BaseInv.pi_ready _ _ (BaseInv.bi_pool _ pool4_inv)).
  - eauto.
Defined.

(** The iterator over the ready operations ends; at every point it yields
    the greatest operation (priority, then longevity, then age) whose
    requirements were all yielded before, no operation twice, and it stops only
    when nothing is available.  Availability is counted in links, and this holds while
    no operation has more incoming links than open requirements, which a removal and
    a second import can break ([reimported_operation_yielded_twice]). *)
Theorem ready_iterator_greedy `{IterOrder} {Ex} (r : Ready.ReadyOperations Ex) s :
  ReadyInv.ready_inv r → ReadyIter.links_bounded (ReadyInv.ready_at r s) →
  ∃ l, (Ready.get r s ≫= Ready.collect (S (size (ReadyInv.ready_at r s)))) = Ret l ∧
    NoDup (op_hash <$> l) ∧ ReadyIter.greedy (ReadyInv.ready_at r s) l ∧
    ∀ h, ¬ ReadyIter.available (ReadyInv.ready_at r s) (op_hash <$> l) h.
Proof.
  intros Hr Hb. pose proof (ReadyInv.ready_inv_at r s Hr) as Hs. specialize (Hr s).
  destruct (ReadyIter.collect_spec ∅ _ _ _ _ Hs Hb) as (l & Hl & [Hnd Hg He]). exists l. split; [|done].
  rewrite <-Hl. unfold Ready.get, ReadyInv.ready_at, ReadyInv.best_at in *.
  destruct (Ready.provided_tags r !! s), (Ready.ready r !! s), (Ready.best r !! s); done.
Qed.

Lemma pool4_links : ReadyIter.links_bounded (ReadyInv.ready_at (Base.ready pool4) shard).
Proof.
  assert (map_Forall (λ h tx, Ready.requires_offset tx + ReadyIter.links_to (ReadyInv.ready_at (Base.ready pool4) shard) h
    ≤ length (requires (Ready.tx_op tx))) (ReadyInv.ready_at (Base.ready pool4) shard)) as Hm.
  { apply (bool_decide_unpack _). vm_compute. exact I. }
  intros h tx Htx. by apply Hm.
Qed.

Lemma ready_iterator_greedy_witness :
  ∃ l, (Ready.get (Base.ready pool4) shard ≫= Ready.collect 4) = Ret l ∧ NoDup (op_hash <$> l).
Proof.
  destruct (ready_iterator_greedy (Base.ready pool4) shard) as (l & Hl & Hnd & _).
  - apply (BaseInv.pi_ready _ _ (BaseInv.bi_pool _ pool4_inv)).
  - apply pool4_links.
  - exists l. split; [exact Hl|exact Hnd].
Defined.

(** ** The pool *)

(** [BasePool::import] never panics and keeps the pool invariant (both
    queues exact and disjoint, no operation waits for a tag that is provided).
    A known hash is refused, an operation with open requirements waits or is
    refused, any other is handed to the Ready queue together with what it
    unlocks; on success no operation gets lost: the hashes of the pool, the
    failed and the removed ones make up the old ones and the new one. *)
Theorem base_import_exact `{IterOrder} {Ex} now (p : Base.BasePool Ex) op s :
  BaseInv.base_inv p → operation_ok op →
  BaseOps.ids_left p s (1 + size (FutureInv.waiting_at (Base.future p) s)) →
  ∃ p' res, Base.import now p op s = Ret (p', res) ∧ BaseInv.base_inv p' ∧
    BaseOps.same_elsewhere s p p' ∧ BaseOps.import_post now p op s p' res.
Proof.
  intros Hp Hok Hid. destruct (BaseOps.base_import_spec now p op s Hp Hok Hid) as (p' & res & ? & ? & ? & _ & ?).
  by exists p', res.
Qed.

Lemma base_import_exact_witness :
  ∃ p' res, Base.import 0 pool4 op_a' shard = Ret (p', res) ∧ BaseInv.base_inv p'.
Proof.
  destruct (base_import_exact 0 pool4 op_a' shard) as (p' & res & Heq & Hp & _).
  - apply pool4_inv.
  - apply op_a'_ok.
  - apply pool4_ids. vm_compute. repeat constructor.
  - eauto.
Defined.

(** [BasePool::enforce_limits] ends, brings both queues of the shard within
    their limits, and reports every operation it removed exactly once. *)
Theorem base_enforce_limits_exact `{IterOrder} {Ex} (p : Base.BasePool Ex) rl fl s :
  BaseInv.base_inv p → BaseLimits.limit_ok rl → BaseLimits.limit_ok fl →
  ∃ p' removed, Base.enforce_limits p rl fl s = Ret (p', removed) ∧ BaseInv.base_inv p' ∧
    BaseOps.same_elsewhere s p p' ∧ BaseLimits.reports p s p' removed ∧
    is_exceeded rl (st_ready (Base.status p' s)) (st_ready_bytes (Base.status p' s)) = false ∧
    is_exceeded fl (st_future (Base.status p' s)) (st_future_bytes (Base.status p' s)) = false.
Proof.
  intros Hp Hrl Hfl. destruct (BaseLimits.base_limits_spec p rl fl s Hp Hrl Hfl)
    as (p' & removed & Heq & [? ? ?] & ? & ?). by exists p', removed.
Qed.

Lemma base_enforce_limits_exact_witness :
  ∃ p' removed, Base.enforce_limits pool4 (MkLimit 1 100) (MkLimit 0 100) shard = Ret (p', removed) ∧
    BaseInv.base_inv p'.
Proof.
  destruct (base_enforce_limits_exact pool4 (MkLimit 1 100) (MkLimit 0 100) shard)
    as (p' & removed & Heq & Hp & _).
  - apply pool4_inv.
  - split; split; vm_compute; discriminate.
  - split; split; vm_compute; discriminate.
  - eauto.
Defined.

(** [BasePool::prune_tags] ends without panic and keeps the invariant; the
    tags count as recently pruned, no waiting operation misses them any more,
    and what it reports as pruned is gone from the pool. *)
Theorem base_prune_tags_exact `{IterOrder} {Ex} (p : Base.BasePool Ex) tags s :
  BaseInv.base_inv p → BaseOps.ids_left p s (size (FutureInv.waiting_at (Base.future p) s)) →
  ∃ p' status, Base.prune_tags p tags s = Ret (p', status) ∧ BaseInv.base_inv p' ∧
    FutureInv.only_shard s (Base.future p) (Base.future p') ∧
    ReadyInv.only_shard s (Base.ready p) (Base.ready p') ∧
    BasePrune.prune_post p tags s p' status.
Proof. apply BasePrune.base_prune_spec. Qed.

Lemma base_prune_tags_exact_witness :
  ∃ p' status, Base.prune_tags pool4 [[3%N]; [9%N]] shard = Ret (p', status) ∧ BaseInv.base_inv p'.
Proof.
  destruct (base_prune_tags_exact pool4 [[3%N]; [9%N]] shard) as (p' & status & Heq & Hp & _).
  - apply pool4_inv.
  - apply pool4_ids. vm_compute. repeat constructor.
  - eauto.
Defined.

(** ** The validated pool *)

(** [ValidatedPool::submit] never panics, keeps the invariants of the pool,
    the listener and the rotator, answers every operation, and whenever one of
    them got in the shard is within its limits afterwards; other shards and the
    options do not change. *)
Theorem vpool_submit_sound `{IterOrder} {Ex E Sink} `{!ApiError E}
    (try_send : Sink → TxHash → VPool.send_result * Sink) now (v : VPool.ValidatedPool Ex Sink)
    (txs : list (ValidatedOperation Ex E)) s :
  VPoolInv.vpool_inv v → Forall VPoolInv.op_good txs → VPoolInv.room v s (length txs) →
  ∃ v' results, VPool.submit try_send now v txs s = Ret (v', results) ∧ VPoolInv.vpool_inv v' ∧
    VPoolInv.frame s v v' ∧ length results = length txs ∧
    (VPoolInv.within_limits v' s ∨ ∀ r, r ∈ results → is_ok r = false).
Proof. by apply VPoolInv.submit_spec. Qed.

Lemma vpool_submit_sound_witness :
  ∃ v' results, VPool.submit (E := PoolError) always_sent 0 vpool4 [Valid op_a'; Invalid 7%N AlreadyImported] shard =
    Ret (v', results) ∧ VPoolInv.vpool_inv v'.
Proof.
  destruct (vpool_submit_sound (E := PoolError) always_sent 0 vpool4 [Valid op_a'; Invalid 7%N AlreadyImported] shard)
    as (v' & results & Heq & Hv & _).
  - apply vpool4_inv.
  - apply Forall_cons_2; [apply op_a'_ok|apply Forall_cons_2; [exact I|apply Forall_nil_2]].
  - apply pool4_ids. vm_compute. repeat constructor.
  - eauto.
Defined.

(** [ValidatedPool::resubmit] ends without panic and keeps all invariants;
    only operations that were in the pool are in it afterwards, none whose
    revalidation failed, and no operation waits when the pool rejects future
    operations. *)
Theorem vpool_resubmit_sound `{IterOrder} {Ex E Sink} now (v : VPool.ValidatedPool Ex Sink)
    (updated : gmap TxHash (ValidatedOperation Ex E)) s :
  VPoolInv.vpool_inv v → VPoolResubmit.updated_ok updated →
  VPoolInv.room v s (size (BaseOps.pool_hashes (VPool.pool v) s)) →
  ∃ v', VPool.resubmit now v updated s = Ret v' ∧ VPoolInv.vpool_inv v' ∧ VPoolInv.frame s v v' ∧
    BaseOps.pool_hashes (VPool.pool v') s ⊆ BaseOps.pool_hashes (VPool.pool v) s ∧
    (∀ h t, updated !! h = Some t → (∀ op, t ≠ Valid op) → h ∉ BaseOps.pool_hashes (VPool.pool v') s) ∧
    (Base.reject_future_operations (VPool.pool v) = true →
       FutureInv.waiting_at (Base.future (VPool.pool v')) s = ∅).
Proof.
  intros Hv Hu Hroom. destruct (VPoolResubmit.resubmit_spec now v updated s Hv Hu Hroom)
    as (v' & ? & ? & ? & [_ _ ? ? ?]). by exists v'.
Qed.

Definition updated4 : gmap TxHash (ValidatedOperation nat PoolError) :=
  {[ 1%N := Valid op_a; 4%N := Invalid 4%N InvalidTrustedOperation ]}.

Lemma updated4_ok : VPoolResubmit.updated_ok updated4.
Proof.
  intros h op. unfold updated4. rewrite lookup_insert_Some, lookup_singleton_Some.
  intros [[<- [= <-]]|[_ [_ ?]]]; [split; [done|apply op_a_ok]|done].
Qed.

Lemma vpool_resubmit_sound_witness :
  ∃ v', VPool.resubmit 0 vpool4 updated4 shard = Ret v' ∧ VPoolInv.vpool_inv v'.
Proof.
  destruct (vpool_resubmit_sound 0 vpool4 updated4 shard) as (v' & Heq & Hv & _).
  - apply vpool4_inv.
  - apply updated4_ok.
  - apply pool4_ids. vm_compute. repeat constructor.
  - eauto.
Defined.

(** [ValidatedPool::remove_invalid] never panics; the given operations and
    all that depend on them leave the pool and are reported once.  Unless they
    are in a block, the given hashes are banned and every removed operation
    gets an [Invalid] event, after which it is not watched. *)
Theorem vpool_remove_invalid_exact `{IterOrder} {Ex Sink} now (v : VPool.ValidatedPool Ex Sink) hashes s inblock :
  VPoolInv.vpool_inv v →
  ∃ v' removed, VPool.remove_invalid now v hashes s inblock = Ret (v', removed) ∧
    VPoolInv.vpool_inv v' ∧ VPoolInv.frame s v v' ∧
    BaseLimits.subtree_gone (VPool.pool v) s hashes (VPool.pool v') ∧
    BaseLimits.reports (VPool.pool v) s (VPool.pool v') removed ∧
    (if inblock then VPool.rotator v' = VPool.rotator v
     else Rotate.bans (VPool.rotator v) now hashes (VPool.rotator v')) ∧
    (∀ h, Listen.watchers (VPool.listener v') !! h =
       if negb inblock && bool_decide (h ∈ BaseInv.op_hashes removed) then None
       else Listen.watchers (VPool.listener v) !! h).
Proof.
  intros Hv. destruct (VPoolOps.remove_invalid_spec now v hashes s inblock Hv)
    as (v' & removed & ? & ? & ? & [? ? ? ?]). by exists v', removed.
Qed.

Lemma vpool_remove_invalid_exact_witness :
  ∃ v' removed, VPool.remove_invalid 0 vpool4 [1%N] shard false = Ret (v', removed) ∧
    VPoolInv.vpool_inv v'.
Proof.
  destruct (vpool_remove_invalid_exact 0 vpool4 [1%N] shard false) as (v' & removed & Heq & Hv & _).
  - apply vpool4_inv.
  - eauto.
Defined.

(** ** Notifications and bans *)

(** in any history of the listener after a watcher for [h] was created (and
    not created again), the events sent for [h] contain at most one terminal
    event, it is the last one, and [h] is not watched after it. *)
Theorem terminal_event_is_last (l : Listen.Listener) (h : TxHash) (ops : list Listen.listener_op) :
  Listen.listener_inv l → Listen.OpCreate h ∉ ops →
  ∃ l' new, for_each Listen.run_op (Listen.create_watcher l h) ops = Ret l' ∧ Listen.listener_inv l' ∧
    Listen.events l' h = Listen.events l h ++ new ∧
    ((is_Some (Listen.watchers l' !! h) ∧ Forall (λ st, Listen.terminal st = false) new) ∨
     (Listen.watchers l' !! h = None ∧ ∃ pre st, new = pre ++ [st] ∧
        Forall (λ st, Listen.terminal st = false) pre ∧ Listen.terminal st = true)).
Proof.
  intros Hi Hno.
  destruct (Listen.session_run h (Listen.events l h) (Listen.create_watcher l h) ops)
    as (l' & Heq & Hi' & new & He & Hcase); [by apply Listen.create_watcher_inv| |done|by exists l', new].
  exists []. rewrite app_nil_r. split; [done|]. left. simpl. by rewrite lookup_insert_eq.
Qed.

Lemma terminal_event_is_last_witness :
  ∃ l', for_each Listen.run_op (Listen.create_watcher Listen.new 1%N)
      [Listen.OpFuture 1%N; Listen.OpReady 1%N None; Listen.OpInvalid 1%N; Listen.OpReady 1%N None] = Ret l' ∧
    Listen.listener_inv l'.
Proof.
  destruct (terminal_event_is_last Listen.new 1%N
    [Listen.OpFuture 1%N; Listen.OpReady 1%N None; Listen.OpInvalid 1%N; Listen.OpReady 1%N None])
    as (l' & new & Heq & Hi & _).
  - apply Listen.listener_inv_new.
  - set_solver.
  - eauto.
Defined.

(** an operation that was pruned into a block gets neither a [Finalized] nor
    a [Retracted] event when that block is finalized or retracted: the event
    [InSidechainBlock] removed its watcher. *)
Theorem in_block_ends_notifications (l : Listen.Listener) (b : BlockHash) (h : TxHash) :
  Listen.listener_inv l →
  ∃ l1, Listen.pruned l b h = Ret l1 ∧ Listen.watchers l1 !! h = None ∧
    Listen.events (Listen.finalized l1 b) h = Listen.events l1 h ∧
    Listen.events (Listen.retracted l1 b) h = Listen.events l1 h.
Proof.
  intros Hi. destruct (Listen.pruned_spec l b h Hi) as (l1 & Heq & Hi1). exists l1. split; [done|].
  pose proof (Listen.pruned_unwatched l b h l1 Hi Heq) as Hn. split; [done|].
  assert (Listen.silent h (Listen.events l1 h) l1) as Hs by done. split.
  - destruct (Listen.silent_run h _ l1 (Listen.OpFinalized b) Hi1 Hs ltac:(done)) as (l2 & [= <-] & [_ ?]). done.
  - destruct (Listen.silent_run h _ l1 (Listen.OpRetracted b) Hi1 Hs ltac:(done)) as (l2 & [= <-] & [_ ?]). done.
Qed.

Lemma in_block_ends_notifications_witness :
  ∃ l1, Listen.pruned (Listen.create_watcher Listen.new 1%N) 77%N 1%N = Ret l1 ∧
    Listen.events (Listen.finalized l1 77%N) 1%N = Listen.events l1 1%N.
Proof.
  destruct (in_block_ends_notifications (Listen.create_watcher Listen.new 1%N) 77%N 1%N)
    as (l1 & Heq & _ & Hf & _).
  - apply Listen.create_watcher_inv, Listen.listener_inv_new.
  - eauto.
Defined.

(** a ban never fails, the cache of bans never holds more than twice its
    expected size, nothing but the given hashes is added, each for the ban time
    from now; and while the cache does not overflow, the given hashes are banned
    and no other ban is lost. *)
Theorem rotator_ban_exact `{IterOrder} (r : Rotate.PoolRotator) now (hashes : list TxHash) :
  ∃ r', Rotate.ban r now hashes = Ret r' ∧
    size (Rotate.banned_until r') ≤ 2 * Rotate.EXPECTED_SIZE ∧
    (∀ h t, Rotate.banned_until r' !! h = Some t →
       (h ∈ hashes ∧ t = (now + Rotate.ban_time r)%Z) ∨ Rotate.banned_until r !! h = Some t) ∧
    (size (Rotate.banned_until r) + length hashes ≤ 2 * Rotate.EXPECTED_SIZE → ∀ h,
       Rotate.banned_until r' !! h =
       if decide (h ∈ hashes) then Some (now + Rotate.ban_time r)%Z else Rotate.banned_until r !! h).
Proof.
  destruct (Rotate.rotator_ban_spec r now hashes) as (r' & Heq & Hi & [_ Hn Hk]). by exists r'.
Qed.

(** Behaviour of the pool that departs from what its comments promise, on
    concrete pools. *)

Import Sample.

(** [remove_subtree_with_tag_filter] leaves the link of a removed operation
    in its providers.  When the operation comes back, its providers link to it
    twice: the iterator yields it before one of its requirements and a second
    time. *)
Example reimported_operation_yielded_twice :
  (import_all (Base.new false) [op_a; op_b; op_x] ≫= λ p,
   Base.get_ready p shard ≫= Ready.collect 10) = Ret [op_a; op_b; op_x] ∧
  (import_all (Base.new false) [op_a; op_b; op_x] ≫= λ p,
   Base.remove_subtree p [3%N] shard ≫= λ '(p, _),
   Base.import 0 p op_x shard ≫= λ '(p, _),
   Base.get_ready p shard ≫= Ready.collect 10) = Ret [op_a; op_x; op_b; op_x].
Proof. split; vm_compute; reflexivity. Qed.

(** Provides the tag [op_f] waits for, and competes with [op_a]. *)
Definition op_g : TrustedOperation nat := mk 6 [] [[1%N]; [9%N]] 2.

(** an import that fails with [TooLowPriority] has already taken the
    operations it would have unlocked out of the Future queue; they are dropped
    without being reported. *)
Example rejected_import_loses_waiting_operation :
  ∃ p', Base.import 0 pool4 op_g shard = Ret (p', Err (TooLowPriority 2)) ∧
    Base.is_imported pool4 4%N shard = true ∧ Base.is_imported p' 4%N shard = false.
Proof.
  eexists. split; [vm_compute; reflexivity|]. split; vm_compute; reflexivity.
Qed.

(** *** Which hash is reported as pruned *)

Definition op_n (n : nat) (reqs provs : list Tag) : TrustedOperation nat :=
  MkOperation n 1%Z (N.of_nat n) 5%Z 64%Z reqs provs true SourceExternal.

(** Operation 1 is not valid any more, every other one is. *)
Definition api_n : ChainApi nat PoolError :=
  MkChainApi
    (λ _ n _, Ok (if n =? 1 then Err InvalidTransaction
                  else Ok (MkValidTransaction 5 [] [[N.of_nat n]] 64 true)))
    (λ at_, Ok match at_ with BlockIdNumber n => Some n | _ => None end)
    (λ _, Ok (Some 77%N)) (λ n, (N.of_nat n, 1%Z)) (λ _, Ok None) (λ _, "b"%string).

(** Operation 2 depends on operation 1; both are watched. *)
Definition vpool_n : VPool.ValidatedPool nat unit :=
  VPool.MkValidatedPool default_options
    (Listen.create_watcher (Listen.create_watcher Listen.new 1) 2)
    (or_else (import_all (Base.new false) [op_n 1 [] [[1%N]]; op_n 2 [[1%N]] [[2%N]]]))
    [] Rotate.default_rotator.

(** The events after block 77 pruned the tag of operation 2. *)
Definition pruned_events (ord : IterOrder) : outcome (list TrustedOperationStatus * list TrustedOperationStatus) :=
  OpPool.prune_tags (Ord := ord) api_n always_sent 10 0 vpool_n (BlockIdNumber 1) [[2%N]] [] shard ≫= λ '(v, _),
  Ret (Listen.events (VPool.listener v) 1, Listen.events (VPool.listener v) 2).

(** after [prune_tags] the results of the revalidated operations are matched
    with the pruned hashes by index, although they come in the iteration order
    of a hash map.  Operation 1 turned out invalid and operation 2 is back in
    the pool; in one order operation 1 is reported as included in the block, in
    another order operation 2 is. *)
Example pruned_event_depends_on_hash_order :
  pruned_events listed_order = Ret ([StInSidechainBlock 77%N], [StReady]) ∧
  pruned_events reversed_order = Ret ([], [StReady; StInSidechainBlock 77%N]).
Proof. split; vm_compute; reflexivity. Qed.
