(* ===== verification/AuthorProps.v ===== *)
(** The properties of the author, with a concrete enclave on which they are
    exercised. *)

From stdpp Require Import base gmap fin_maps sets numbers strings list.
From S2P Require Import Prelude Collections PoolTypes TrackedMap FuturePool ReadyPool ReadyInv BasePool BaseInv BaseOps Rotator Listener ValidatedPool VPoolInv OpPool FlatPool StfTypes Author AuthorInv.

Import FlatVPool Author AuthorInv.

(** ** A concrete enclave *)

(** A call is a pair of sender and nonce, a getter is the signature of a
    trusted getter or nothing for a public one. *)
Definition demo_call : Type := N * N.
Definition demo_getter : Type := Getter unit unit.

#[export] Instance demo_codec : SlotCodec.
Proof.
  refine {| encode_slot := λ a n, [a; Z.to_N (2 * Z.abs n + (if n <? 0 then 1 else 0))%Z]; encode_signature := λ s, 0%N :: 0%N :: s |}.
  intros a n a' n' [= -> Hn]. split; [done|].
  destruct (Z.ltb_spec n 0), (Z.ltb_spec n' 0); lia.
Defined.

#[export] Instance demo_verification : TrustedCallVerification demo_call :=
  {| sender_account := fst; call_nonce c := Z.of_N c.2 |}.

(** Requests are decoded from three numbers: kind, sender and nonce. *)
Definition demo_decode (bytes : list N) : option (StfTrustedOperation demo_call demo_getter) :=
  match bytes with
  | [0; a; n]%N => Some (direct_call (a, n))
  | [1; a; n]%N => Some (indirect_call (a, n))
  | [2; _; _]%N => Some (get (public_getter tt))
  | _ => None
  end.

Definition demo_hash (top : StfTrustedOperation demo_call demo_getter) : TxHash * Z :=
  match top with
  | direct_call (a, n) => (1000 * a + 10 * n, 3%Z)%N
  | indirect_call (a, n) => (1000 * a + 10 * n + 1, 3%Z)%N
  | get _ => (5%N, 3%Z)
  end.

Definition demo_env : Enclave unit (StfTrustedOperation demo_call demo_getter) :=
  MkEnclave (λ s, Some (bool_decide (s = 0%N))) (Some [0%N]) (Some tt) (λ _ b, Some b) demo_decode
    (λ _, []) demo_hash (λ _, "b"%string).

Lemma demo_short top : (0 ≤ (hash_len demo_env top).2 < 2 ^ 62)%Z.
Proof. destruct top as [[a n]|[a n]|g]; simpl; lia. Qed.

Definition demo_send (sink : unit) (h : TxHash) : VPool.send_result * unit := (VPool.SendOk, sink).

Lemma default_small :
  small_limit (opt_ready default_options) ∧ small_limit (opt_future default_options).
Proof. unfold small_limit. simpl. lia. Qed.

#[local] Existing Instance listed_order.

Definition demo_run : list (Z * Command (TCS := demo_call) (G := demo_getter)) :=
  [(1%Z, CmdSubmit [0; 7; 1]%N 0%N Submit);
   (2%Z, CmdSubmit [1; 7; 2]%N 0%N SubmitWatch);
   (3%Z, CmdRemove (TopHash 7010%N) 0%N true);
   (4%Z, CmdRemove (TopHash 7021%N) 0%N false);
   (5%Z, CmdSubmit [1; 7; 2]%N 0%N Submit);
   (6%Z, CmdSubmit [0; 7; 1]%N 0%N Submit);
   (7%Z, CmdSubmit [0; 7; 1]%N 0%N Submit)].

(** ** Properties *)

Section author_props.
Context `{Ord : IterOrder} `{!SlotCodec} {TCS G Key Sink : Type}.
Context `{!TrustedCallVerification TCS} `{!PoolTransactionValidation G} `{!UniformValidation G}.
Context (env : Enclave Key (StfTrustedOperation TCS G)).
Context (top_filter : StfTrustedOperation TCS G → bool).
Context (try_send : Sink → TxHash → VPool.send_result * Sink).

(** C4: from the empty author, any history of submissions and removals runs
    without panic, and answers and leaves what the specification does on the
    same history: its state is a first-in first-out queue per shard and the
    hashes that are banned, with the end of their ban.  An operation is refused
    if its hash is banned, is in the queue, is not valid or has a slot that is
    taken, and is appended otherwise, dropping the oldest ones beyond the limit;
    a removal takes one operation out.  What is banned, and for how long, is
    exact, but for the choice of the bans that are forgotten when there are
    more than twice the expected number of them. *)
Theorem author_refines_queues (opts : Options) (cs : list (Z * Command)) :
  (∀ top, 0 ≤ (hash_len env top).2 < 2 ^ 62)%Z →
  small_limit (opt_ready opts) → small_limit (opt_future opts) → (Z.of_nat (length cs) ≤ u64_max)%Z →
  ∃ a rs, run env top_filter try_send (new_author opts) cs = Ret (a, rs) ∧ author_inv a ∧
    q_steps env top_filter (opt_ready opts) 1800 (MkSpec (λ _, []) ∅) cs (spec_of a) rs.
Proof.
  intros Hlen Hr Hf Hn. destruct (author_inv_new (Sink := Sink) env opts Hr Hf) as [Hi Hm].
  destruct (run_spec env top_filter try_send Hlen cs (new_author opts) Hi Hm (room_new opts _ Hn))
    as (a & rs & Hrun & Hi' & _ & Hsteps). by exists a, rs.
Qed.


(** what a request gets from the author, on every path.  A request for an
    unknown shard, or one that cannot be decrypted, decoded or passes no filter,
    changes nothing.  Otherwise: a banned hash, a hash in the queue, an invalid
    or unverifiable operation and a taken (sender, nonce) slot are refused; any
    other operation is appended and reported with its hash, or dropped at once
    when the limits leave no room.  A watched request has a watcher when it was
    accepted.  The size metric is incremented whatever the pool answers. *)
Theorem process_top_exact now (a : AuthorState (StfTrustedOperation TCS G) Sink) ext s mode :
  (∀ top, 0 ≤ (hash_len env top).2 < 2 ^ 62)%Z →
  author_inv a → VPoolInv.room (top_pool a) s 1 →
  ∃ a' res, process_top env top_filter try_send now a ext s mode = Ret (a', res) ∧
    match open_request env top_filter ext s with
    | Err e => a' = a ∧ res = Err (RpcClientError e)
    | Ok top => author_inv a' ∧ process_post env now a top s mode a' res
    end.
Proof.
  intros Hlen Hi Hroom. destruct (open_request env top_filter ext s) as [top|e] eqn:Hopen.
  - destruct (process_top_spec env top_filter try_send Hlen now a ext s mode top 0 Hi Hroom Hopen)
      as (a' & res & ? & ? & _ & _ & ?). by exists a', res.
  - exists a, (Err (RpcClientError e)). unfold process_top. by rewrite Hopen.
Qed.

(** the block hash of the chain api the enclave uses is never known, so
    [Pool::prune_known] prunes the tags of the given operations and then fails
    with [InvalidBlockId] before any notification. *)
Theorem prune_known_always_fails (v : VPool.ValidatedPool (StfTrustedOperation TCS G) Sink) at_ hashes s :
  VPoolInv.vpool_inv v → VPoolInv.room v s 0 →
  ∃ v', OpPool.prune_known (api env) v at_ hashes s =
      Ret (v', Err (SePoolError (InvalidBlockId (dbg_block_id env at_)))) ∧ VPoolInv.vpool_inv v' ∧
    Base.recently_pruned_index (VPool.pool v') ≠ Base.recently_pruned_index (VPool.pool v).
Proof.
  intros Hv Hroom. unfold OpPool.prune_known.
  destruct (VPoolOps.vpool_prune_spec (E := StateRpcError) v (mjoin (omap id (VPool.extrinsics_tags v hashes s))) s Hv Hroom)
    as (v1 & st & -> & Hv1 & _ & _ & [_ Hidx _ _ _]). cbn [mbind outcome_bind]. exists v1.
  split_and!; [|done|].
  - unfold VPool.fire_pruned. cbn [block_id_to_hash api sidechain_api sidechain_id_to_hash]. by destruct at_.
  - rewrite Hidx. pose proof (BaseInv.bi_index _ (VPoolInv.vi_pool _ Hv)) as Hlt.
    unfold Base.RECENTLY_PRUNED_TAGS in *.
    destruct (Base.recently_pruned_index (VPool.pool v)) as [|[|n]]; [done|done|lia].
Qed.
End author_props.

(** whatever the reason the pool refused an operation for, the client gets
    one error code: the codes that [client_error.rs] reserves for pool errors
    are not used. *)
Theorem pool_errors_share_a_code (e : StateRpcError) :
  rpc_code (map_top_error e) = ServerError 4004 ∧
  ∀ p, client_error_code (CePool p) ≠ ServerError 4004.
Proof.
  split.
  - unfold map_top_error. destruct (into_pool_error e); done.
  - intros []; done.
Qed.

Lemma author_refines_queues_witness :
  ∃ a rs, run demo_env calls_only_filter demo_send (new_author default_options) demo_run = Ret (a, rs) ∧ author_inv a ∧
    rs = [Submitted (Ok 7010%N); Submitted (Ok 7021%N); Removed (Ok 7010%N); Removed (Ok 7021%N);
          Submitted (Err (RpcStateError (SePoolError TemporarilyBanned))); Submitted (Ok 7010%N);
          Submitted (Err (RpcStateError (SePoolError AlreadyImported)))] ∧
    data <$> queue_at a 0%N = [direct_call (7, 1)%N] ∧
    sp_bans (spec_of a) = {[ 7010%N := 1807%Z; 7021%N := 1805%Z ]} ∧
    q_steps demo_env calls_only_filter (opt_ready default_options) 1800 (MkSpec (λ _, []) ∅) demo_run (spec_of a) rs.
Proof.
  destruct (author_refines_queues demo_env calls_only_filter demo_send default_options demo_run)
    as (a & rs & Hrun & Hi & Hq).
  - exact demo_short.
  - apply default_small.
  - apply default_small.
  - vm_compute. discriminate.
  - exists a, rs. split; [exact Hrun|]. split; [exact Hi|].
    assert (match run demo_env calls_only_filter demo_send (new_author default_options) demo_run with
      | Ret (a, rs) => (rs, data <$> queue_at a 0%N, sp_bans (spec_of a)) | _ => ([], [], ∅) end =
      ([Submitted (Ok 7010%N); Submitted (Ok 7021%N); Removed (Ok 7010%N); Removed (Ok 7021%N);
        Submitted (Err (RpcStateError (SePoolError TemporarilyBanned))); Submitted (Ok 7010%N);
        Submitted (Err (RpcStateError (SePoolError AlreadyImported)))],
       [direct_call (7, 1)%N], {[ 7010%N := 1807%Z; 7021%N := 1805%Z ]})) as Hc by (vm_compute; reflexivity).
    rewrite Hrun in Hc. apply pair_equal_spec in Hc as [[Hrs Hqueue]%pair_equal_spec Hbans]. split_and!; [exact Hrs|exact Hqueue|exact Hbans|exact Hq].
Defined.


Lemma process_top_exact_witness :
  ∃ a' res, process_top demo_env calls_only_filter demo_send 0 (new_author default_options) [0; 7; 1]%N 0%N Submit =
    Ret (a', res).
Proof.
  destruct (process_top_exact demo_env calls_only_filter demo_send 0 (new_author default_options) [0; 7; 1]%N 0%N Submit)
    as (a' & res & Heq & _).
  - exact demo_short.
  - apply (author_inv_new demo_env default_options); apply default_small.
  - apply (room_new default_options 1). vm_compute. discriminate.
  - eauto.
Defined.

Lemma prune_known_always_fails_witness :
  ∃ v', OpPool.prune_known (Sink := unit) (api demo_env) (VPool.new default_options) (BlockIdNumber 3) [1%N] 0%N =
    Ret (v', Err (SePoolError (InvalidBlockId "b"%string))).
Proof.
  destruct (prune_known_always_fails (Sink := unit) demo_env (VPool.new default_options) (BlockIdNumber 3) [1%N] 0%N)
    as (v' & Heq & _).
  - apply VPoolInv.vpool_inv_new; apply VPoolInv.default_options_ok.
  - apply (room_new (TCS := demo_call) (G := demo_getter) default_options 0). vm_compute. discriminate.
  - eauto.
Defined.
