(* ===== verification/SidechainDb.v ===== *)
(** The codec, the hash function and the encryption of the state, all third-party
    code: classes of operations with their documented behaviour as separate
    classes of laws; and the database of the sidechain. *)

From stdpp Require Import base gmap numbers strings list.
From S2P Require Import Prelude PoolTypes.

(** [Encode] and [Decode] of parity-scale-codec. *)
Class Encode (A : Type) := encode : A → list N.
Class Decode (A : Type) := decode : list N → result A string.

Class Codec (A : Type) `{Encode A, Decode A} := {
  decode_encode : ∀ a : A, decode (encode a) = Ok a;
}.

Lemma encode_inj `{Codec A} (a b : A) : encode a = encode b → a = b.
Proof. intros Hab. pose proof (decode_encode a) as Ha. rewrite Hab, decode_encode in Ha. congruence. Qed.

(** Decoding reads a prefix of its input. *)
Class PrefixCodec (A : Type) `{Encode A, Decode A} := {
  decode_prefix : ∀ (a : A) rest, decode (encode a ++ rest) = Ok a;
}.

#[export] Instance prefix_codec `{PrefixCodec A} : Codec A.
Proof. split. intros a. rewrite <-(app_nil_r (encode a)). apply decode_prefix. Qed.

(** [blake2_256]; a digest is used as a key only. *)
Class Blake2 := blake2_256 : list N → N.

Class CollisionFree `{Blake2} := {
  blake2_inj : ∀ x y, blake2_256 x = blake2_256 y → x = y;
}.

(** [StateCrypto]: the encryption with the state key. *)
Class StateCrypto (Key : Type) := {
  encrypt : Key → list N → result (list N) string;
  decrypt : Key → list N → result (list N) string;
}.

Class StateCryptoLaws (Key : Type) `{StateCrypto Key} : Prop := {
  encrypt_total : ∀ k b, ∃ c, encrypt k b = Ok c;
  decrypt_encrypt : ∀ k b c, encrypt k b = Ok c → decrypt k c = Ok b;
  encrypt_nonempty : ∀ k b, encrypt k b = Ok [] → b = [];
}.

(** The key-value store of the sidechain (src/sidechain/storage/src/db.rs) and
    the traits of sidechain blocks (src/sidechain/primitives/src/traits/mod.rs).
    RocksDB and the SCALE codec are parameters: classes of operations, with
    their documented behaviour as separate classes of laws. *)

Open Scope worker_scope.

(** [BlockNumber] is [u64]. *)
Abbreviation BlockNumber := Z.

(** [BlockHash::default()]. *)
Definition default_hash : BlockHash := 0%N.

(** What the storage uses of [SignedBlock], [Block] and [Header]; a block and a
    signed block have the hash of the header. *)
Class SignedBlock (SB : Type) := {
  hash : SB → BlockHash;
  parent_hash : SB → BlockHash;
  block_number : SB → BlockNumber;
  shard_id : SB → ShardIdentifier;
}.

(** The hash is collision free on headers. *)
Class HeaderHash (SB : Type) `{SignedBlock SB} := {
  hash_inj : ∀ b1 b2 : SB, hash b1 = hash b2 →
    parent_hash b1 = parent_hash b2 ∧ block_number b1 = block_number b2 ∧ shard_id b1 = shard_id b2;
}.

(** The four kinds of keys. *)
Inductive DbKey :=
| StoredShardsKey
| LastBlockKey (shard : ShardIdentifier)
| NumberKey (shard : ShardIdentifier) (number : BlockNumber)
| BlockKey (hash : BlockHash).

#[export] Instance db_key_eq_dec : EqDecision DbKey.
Proof. solve_decision. Defined.

Class KeyCodec `{Encode DbKey} := {
  encode_key_inj : ∀ k1 k2 : DbKey, encode k1 = encode k2 → k1 = k2;
}.

(** A [WriteBatch] is a list of commands, first one first. *)
Inductive batch_op :=
| Put (key value : list N)
| Delete (key : list N).

Abbreviation WriteBatch := (list batch_op).

(** RocksDB. *)
Class RocksDb (Db : Type) := {
  db_get : Db → list N → result (option (list N)) string;
  db_write : Db → WriteBatch → Db * result unit string;
}.

Definition apply_op (view : gmap (list N) (list N)) (op : batch_op) : gmap (list N) (list N) :=
  match op with
  | Put key value => <[key := value]> view
  | Delete key => delete key view
  end.

Definition apply_batch (view : gmap (list N) (list N)) (batch : WriteBatch) : gmap (list N) (list N) :=
  foldl apply_op view batch.

(** A store without I/O errors: reads see the content, a batch is applied in
    its order. *)
Class ReliableDb (Db : Type) `{RocksDb Db} := {
  db_view : Db → gmap (list N) (list N);
  db_get_view : ∀ d key, db_get d key = Ok (db_view d !! key);
  db_write_view : ∀ d batch,
    (db_write d batch).2 = Ok tt ∧ db_view (db_write d batch).1 = apply_batch (db_view d) batch;
}.

(** [Error]. *)
Inductive StorageError :=
| Operational (e : string)
| LastBlockNotFound (what : string)
| FailedToFindParentBlock
| DecodeError (e : string)
| HeaderAncestryMismatch.

Module SidechainDB.
Section sidechain_db.
Context {Db : Type} `{RocksDb Db} `{Encode DbKey}.

Definition get {V} `{Decode V} (d : Db) (key : DbKey) : result (option V) StorageError :=
  match db_get d (encode key) with
  | Err e => Err (Operational e)
  | Ok None => Ok None
  | Ok (Some bytes) =>
      match decode bytes with
      | Ok v => Ok (Some v)
      | Err e => Err (DecodeError e)
      end
  end.

Definition write (d : Db) (batch : WriteBatch) : Db * result unit StorageError :=
  let '(d, r) := db_write d batch in
  (d, match r with Ok _ => Ok tt | Err e => Err (Operational e) end).

Definition add_to_batch {V} `{Encode V} (batch : WriteBatch) (key : DbKey) (value : V) : WriteBatch :=
  batch ++ [Put (encode key) (encode value)].

Definition delete_to_batch (batch : WriteBatch) (key : DbKey) : WriteBatch :=
  batch ++ [Delete (encode key)].
End sidechain_db.
End SidechainDB.
