(* ===== verification/SidechainStorage.v ===== *)
(** The block storage of the sidechain (src/sidechain/storage/src/storage.rs):
    the blocks of every shard in the key-value store, with the list of shards
    and the last block of every shard kept in memory as well.  Loops over the
    blocks of a shard take fuel, more than the number of its blocks. *)

From stdpp Require Import base list gmap strings numbers.
From S2P Require Import Prelude Collections PoolTypes SidechainDb.

Open Scope worker_scope.

Module Storage.

Record LastSidechainBlock := MkLast {
  lb_hash : BlockHash;
  lb_number : BlockNumber;
}.

Record SidechainStorage (Db : Type) := MkStorage {
  db : Db;
  shards : list ShardIdentifier;
  last_blocks : gmap ShardIdentifier LastSidechainBlock;
}.
Arguments MkStorage {Db} _ _ _.
Arguments db {Db} _.
Arguments shards {Db} _.
Arguments last_blocks {Db} _.

Section storage.
Context {Db SB : Type} `{RocksDb Db} `{SignedBlock SB}.
Context `{Encode DbKey} `{Encode (list ShardIdentifier)} `{Decode (list ShardIdentifier)}.
Context `{Encode LastSidechainBlock} `{Decode LastSidechainBlock}.
Context `{Encode BlockHash} `{Decode BlockHash} `{Encode SB} `{Decode SB}.
(** The [Debug] text of a shard. *)
Context (dbg_shard : ShardIdentifier → string).
Implicit Types (st : SidechainStorage Db) (batch : WriteBatch) (s : ShardIdentifier) (n : BlockNumber).

Definition set_db st (d : Db) : SidechainStorage Db := MkStorage d (shards st) (last_blocks st).
Definition set_shards st l : SidechainStorage Db := MkStorage (db st) l (last_blocks st).
Definition set_last st m : SidechainStorage Db := MkStorage (db st) (shards st) m.

(** *** Queries *)

Definition last_block_of_shard st s : option LastSidechainBlock := last_blocks st !! s.

Definition get_block_hash st s n : result (option BlockHash) StorageError :=
  SidechainDB.get (db st) (NumberKey s n).

Definition get_block st (h : BlockHash) : result (option SB) StorageError :=
  SidechainDB.get (db st) (BlockKey h).

(** One turn of the walk from the newest block to the oldest: the current block
    and the blocks passed so far. *)
Definition after_step st (block_hash : BlockHash) (x : SB * list SB) :
    outcome (SB * list SB + result (list SB) StorageError) :=
  let '(current_block, blocks_to_return) := x in
  if decide (hash current_block = block_hash) then Ret (inr (Ok blocks_to_return)) else
  let parent_block_hash := parent_hash current_block in
  let blocks_to_return := blocks_to_return ++ [current_block] in
  if decide (parent_block_hash = default_hash) then Ret (inr (Ok blocks_to_return)) else
  match get_block st parent_block_hash with
  | Err e => Ret (inr (Err e))
  | Ok None => Ret (inr (Err FailedToFindParentBlock))
  | Ok (Some block) => Ret (inl (block, blocks_to_return))
  end.

(** Whether the start of the walk is known; the default hash stands for block 0. *)
Definition start_known st (block_hash : BlockHash) : result bool StorageError :=
  if decide (block_hash = default_hash) then Ok true
  else let? found := get_block st block_hash in Ok (match found with Some _ => true | None => false end).

Definition latest_block st s : result SB StorageError :=
  match last_block_of_shard st s with
  | None => Err (LastBlockNotFound "Failed to find last block information")
  | Some last_block =>
      let? found := get_block st (lb_hash last_block) in
      match found with
      | Some block => Ok block
      | None => Err (LastBlockNotFound "Failed to retrieve last block from storage")
      end
  end.

Definition get_blocks_after (fuel : nat) st (block_hash : BlockHash) s :
    outcome (result (list SB) StorageError) :=
  match start_known st block_hash with
  | Err e => Ret (Err e)
  | Ok false => Ret (Ok [])
  | Ok true =>
      match latest_block st s with
      | Err e => Ret (Err e)
      | Ok latest =>
          loop fuel (after_step st block_hash) (latest, []) ≫= λ res,
          Ret (let? blocks := res in Ok (reverse blocks))
      end
  end.

Definition get_blocks_in_range (fuel : nat) st (block_hash_from block_hash_until : BlockHash) s :
    outcome (result (list SB) StorageError) :=
  get_blocks_after fuel st block_hash_from s ≫= λ res,
  Ret (let? blocks := res in Ok (take_while (λ b, bool_decide (hash b ≠ block_hash_until)) blocks)).

Definition load_shards_from_db (d : Db) : result (list ShardIdentifier) StorageError :=
  let? found := SidechainDB.get d StoredShardsKey in Ok (default [] found).

Definition load_last_block_from_db (d : Db) s : result (option LastSidechainBlock) StorageError :=
  SidechainDB.get d (LastBlockKey s).

Definition get_last_block_of_shard st s : result LastSidechainBlock StorageError :=
  match last_blocks st !! s with
  | Some last_block => Ok last_block
  | None =>
      let? found := load_last_block_from_db (db st) s in
      match found with
      | Some last_block => Ok last_block
      | None => Err (LastBlockNotFound (dbg_shard s))
      end
  end.

Definition get_previous_block st s (current_block_number : BlockNumber) :
    result (option LastSidechainBlock) StorageError :=
  let prev_block_number := u64_wrap (current_block_number - 1) in
  let? found := get_block_hash st s prev_block_number in
  Ok ((λ h, MkLast h prev_block_number) <$> found).

(** *** Loading *)

Definition load_step (acc : result (gmap ShardIdentifier LastSidechainBlock) StorageError) (d : Db) s :
    result (gmap ShardIdentifier LastSidechainBlock) StorageError :=
  let? m := acc in
  let? found := load_last_block_from_db d s in
  Ok (match found with Some last_block => <[s := last_block]> m | None => m end).

(** [opened] is what opening the database at the path gave. *)
Definition load_from_base_path (opened : result Db string) : result (SidechainStorage Db) StorageError :=
  match opened with
  | Err e => Err (Operational e)
  | Ok d =>
      let? l := load_shards_from_db d in
      let? m := foldl (λ acc s, load_step acc d s) (Ok ∅) l in
      Ok (MkStorage d l m)
  end.

(** *** Storing *)

Definition add_last_block st batch (b : SB) : SidechainStorage Db * WriteBatch :=
  let h := hash b in
  let n := block_number b in
  let s := shard_id b in
  let batch := SidechainDB.add_to_batch batch (BlockKey h) b in
  let batch := SidechainDB.add_to_batch batch (NumberKey s n) h in
  let last_block := MkLast h n in
  (set_last st (<[s := last_block]> (last_blocks st)),
   SidechainDB.add_to_batch batch (LastBlockKey s) last_block).

Definition verify_block_ancestry st (b : SB) : bool :=
  match last_block_of_shard st (shard_id b) with
  | Some last_block => bool_decide (lb_number last_block = u64_wrap (block_number b - 1))
  | None => false
  end.

Definition add_block_to_batch st (b : SB) (new_shard : bool) batch :
    SidechainStorage Db * bool * WriteBatch * result unit StorageError :=
  let s := shard_id b in
  if decide (s ∈ shards st) then
    if verify_block_ancestry st b then
      let '(st, batch) := add_last_block st batch b in (st, new_shard, batch, Ok tt)
    else (st, new_shard, batch, Err HeaderAncestryMismatch)
  else
    let st := set_shards st (shards st ++ [s]) in
    let '(st, batch) := add_last_block st batch b in (st, true, batch, Ok tt).

(** A block that cannot be added is logged and skipped. *)
Definition store_step (acc : SidechainStorage Db * bool * WriteBatch) (b : SB) :
    SidechainStorage Db * bool * WriteBatch :=
  let '(st, new_shard, batch) := acc in (add_block_to_batch st b new_shard batch).1.

Definition write st batch : SidechainStorage Db * result unit StorageError :=
  let '(d, r) := SidechainDB.write (db st) batch in (set_db st d, r).

Definition store_blocks st (blocks_to_store : list SB) : SidechainStorage Db * result unit StorageError :=
  let '(st, new_shard, batch) := foldl store_step (st, false, []) blocks_to_store in
  let batch := if new_shard : bool then SidechainDB.add_to_batch batch StoredShardsKey (shards st) else batch in
  write st batch.

(** *** Deleting *)

Definition delete_block batch (h : BlockHash) n s : WriteBatch :=
  let batch := SidechainDB.delete_to_batch batch (BlockKey h) in
  SidechainDB.delete_to_batch batch (NumberKey s n).

Definition delete_last_block st batch (last_block : LastSidechainBlock) s : SidechainStorage Db * WriteBatch :=
  let batch := SidechainDB.delete_to_batch batch (LastBlockKey s) in
  let batch := delete_block batch (lb_hash last_block) (lb_number last_block) s in
  (set_last st (delete s (last_blocks st)), batch).

Definition purge_step st s (x : BlockNumber * WriteBatch) :
    outcome (BlockNumber * WriteBatch + result WriteBatch StorageError) :=
  let '(current_block_number, batch) := x in
  match get_previous_block st s current_block_number with
  | Err e => Ret (inr (Err e))
  | Ok None => Ret (inr (Ok batch))
  | Ok (Some previous_block) =>
      Ret (inl (lb_number previous_block,
                delete_block batch (lb_hash previous_block) (lb_number previous_block) s))
  end.

Definition purge_shard (fuel : nat) st s : outcome (SidechainStorage Db * result unit StorageError) :=
  match get_last_block_of_shard st s with
  | Err e => Ret (st, Err e)
  | Ok last_block =>
      let '(st, batch) := delete_last_block st [] last_block s in
      loop fuel (purge_step st s) (lb_number last_block, batch) ≫= λ res,
      match res with
      | Err e => Ret (st, Err e)
      | Ok batch =>
          let st := set_shards st (filter (λ x, x ≠ s) (shards st)) in
          Ret (write st (SidechainDB.add_to_batch batch StoredShardsKey (shards st)))
      end
  end.

Definition prune_step st s (x : BlockNumber * WriteBatch) :
    outcome (BlockNumber * WriteBatch + result WriteBatch StorageError) :=
  let '(current_block_number, batch) := x in
  match get_block_hash st s current_block_number with
  | Err e => Ret (inr (Err e))
  | Ok None => Ret (inr (Ok batch))
  | Ok (Some block_hash) =>
      Ret (inl (u64_wrap (current_block_number - 1), delete_block batch block_hash current_block_number s))
  end.

Definition prune_shard_from_block_number (fuel : nat) st s n :
    outcome (SidechainStorage Db * result unit StorageError) :=
  match get_last_block_of_shard st s with
  | Err e => Ret (st, Err e)
  | Ok last_block =>
      if decide (lb_number last_block = n) then purge_shard fuel st s
      else
        loop fuel (prune_step st s) (n, []) ≫= λ res,
        match res with
        | Err e => Ret (st, Err e)
        | Ok batch => Ret (write st batch)
        end
  end.

(** Errors are logged. *)
Definition prune_one (fuel : nat) (number_of_blocks_to_keep : BlockNumber) st s : outcome (SidechainStorage Db) :=
  match last_block_of_shard st s with
  | Some last_block =>
      let threshold_block := u64_wrap (lb_number last_block - number_of_blocks_to_keep) in
      prune_shard_from_block_number fuel st s threshold_block ≫= λ '(st, _), Ret st
  | None => Ret st
  end.

Definition prune_shards (fuel : nat) st (number_of_blocks_to_keep : BlockNumber) : outcome (SidechainStorage Db) :=
  for_each (prune_one fuel number_of_blocks_to_keep) st (shards st).
End storage.
End Storage.
