(* ===== verification/StorageInv.v ===== *)
(** The sidechain storage as a map from shards to chains of blocks: the
    representation invariant and its preservation when a block is added to a
    batch or blocks are deleted by one. *)

From stdpp Require Import base gmap sets numbers strings list.
From S2P Require Import Prelude Collections PoolTypes SidechainDb SidechainStorage.

Module StorageInv.
Import Storage.

(** ** Content of the store by key *)

Section view.
Context `{Encode DbKey} `{!KeyCodec}.
Implicit Types (v : gmap (list N) (list N)) (k : DbKey).

Definition vlook v k : option (list N) := v !! encode k.

Definition deletes (ks : list DbKey) : WriteBatch := (λ k, Delete (encode k)) <$> ks.

Lemma vlook_put v k k' x :
  vlook (<[encode k := x]> v) k' = if decide (k = k') then Some x else vlook v k'.
Proof.
  unfold vlook. case_decide as Hk; [subst; apply lookup_insert_eq|].
  apply lookup_insert_ne. intros E%encode_key_inj. done.
Qed.

Lemma vlook_delete v k k' :
  vlook (delete (encode k) v) k' = if decide (k = k') then None else vlook v k'.
Proof.
  unfold vlook. case_decide as Hk; [subst; apply lookup_delete_eq|].
  apply lookup_delete_ne. intros E%encode_key_inj. done.
Qed.

Lemma apply_batch_app v b1 b2 : apply_batch v (b1 ++ b2) = apply_batch (apply_batch v b1) b2.
Proof. apply foldl_app. Qed.

Lemma vlook_deletes v ks k :
  vlook (apply_batch v (deletes ks)) k = if decide (k ∈ ks) then None else vlook v k.
Proof.
  revert v. induction ks as [|k0 ks IH]; intros v; [done|].
  cbn [deletes fmap list_fmap apply_batch foldl apply_op]. fold (deletes ks) (apply_batch (delete (encode k0) v) (deletes ks)).
  rewrite IH, vlook_delete. repeat case_decide; set_solver.
Qed.

Lemma deletes_app ks1 ks2 : deletes (ks1 ++ ks2) = deletes ks1 ++ deletes ks2.
Proof. apply fmap_app. Qed.
End view.

(** ** Chains *)

Section chain.
Context {SB : Type} `{SignedBlock SB} `{!HeaderHash SB}.
Implicit Types (b : SB) (c : list SB) (s : ShardIdentifier).

(** A block number the storage can hold; 0 is the start of the chain, which is
    no block. *)
Definition block_ok b : Prop := (1 ≤ block_number b ≤ u64_max)%Z.

(** Consecutive numbers from [k] on. *)
Definition numbered (k : Z) s c : Prop :=
  ∀ i b, c !! i = Some b → shard_id b = s ∧ block_number b = (k + Z.of_nat i)%Z ∧ block_ok b.

Definition chain_ok s c : Prop := c ≠ [] ∧ ∃ k, numbered k s c.

(** Every block names its predecessor as parent. *)
Definition linked c : Prop :=
  ∀ i a b, c !! i = Some a → c !! S i = Some b → parent_hash b = hash a.

Definition mk_last b : LastSidechainBlock := MkLast (hash b) (block_number b).

(** The blocks of a shard. *)
Definition chain (m : gmap ShardIdentifier (list SB)) s : list SB := default [] (m !! s).

Lemma numbered_unique k s c b1 b2 :
  numbered k s c → b1 ∈ c → b2 ∈ c → block_number b1 = block_number b2 → b1 = b2.
Proof.
  intros Hn [i Hi]%list_elem_of_lookup [j Hj]%list_elem_of_lookup He.
  destruct (Hn _ _ Hi) as (_ & E1 & _), (Hn _ _ Hj) as (_ & E2 & _).
  assert (i = j) as -> by lia. congruence.
Qed.

Lemma numbered_elem k s c b : numbered k s c → b ∈ c → shard_id b = s ∧ block_ok b.
Proof. intros Hn [i Hi]%list_elem_of_lookup. destruct (Hn _ _ Hi) as (? & _ & ?). done. Qed.

Lemma numbered_app k s c1 c2 :
  numbered k s (c1 ++ c2) → numbered k s c1 ∧ numbered (k + Z.of_nat (length c1)) s c2.
Proof.
  intros Hn. split; intros i b Hi.
  - apply Hn, lookup_app_l_Some, Hi.
  - destruct (Hn (length c1 + i) b) as (? & E & ?); [by rewrite lookup_app_r, Nat.add_sub' by lia|].
    split_and!; [done|lia|done].
Qed.

Lemma numbered_snoc k s c b a :
  numbered k s c → last c = Some a → shard_id b = s → block_ok b →
  block_number a = (block_number b - 1)%Z → numbered k s (c ++ [b]).
Proof.
  intros Hn Hl Hs Hb He i x [Hi|[Hlen Hx]]%lookup_app_Some; [by apply Hn|].
  apply list_lookup_singleton_Some in Hx as [Hx ->].
  rewrite last_lookup in Hl. destruct (Hn _ _ Hl) as (_ & E & _).
  destruct c as [|a0 c]; [done|]. simpl in *. split_and!; [done|lia|done].
Qed.

Lemma chain_ok_snoc s c b a :
  chain_ok s c → last c = Some a → shard_id b = s → block_ok b →
  block_number a = (block_number b - 1)%Z → chain_ok s (c ++ [b]).
Proof.
  intros [_ [k Hn]] ????. split; [by destruct c|]. exists k. by eapply numbered_snoc.
Qed.

Lemma chain_ok_singleton b : block_ok b → chain_ok (shard_id b) [b].
Proof.
  intros Hb. split; [done|]. exists (block_number b). intros i x [-> ->]%list_lookup_singleton_Some.
  split_and!; [done|lia|done].
Qed.

Lemma chain_ok_suffix s c1 c2 : c2 ≠ [] → chain_ok s (c1 ++ c2) → chain_ok s c2.
Proof. intros Hne [_ [k Hn]]. split; [done|]. apply numbered_app in Hn as [_ ?]. eauto. Qed.

(** Blocks with one hash are one block of the chain. *)
Lemma chain_hash_inj s c b1 b2 : chain_ok s c → b1 ∈ c → b2 ∈ c → hash b1 = hash b2 → b1 = b2.
Proof.
  intros [_ [k Hn]] H1 H2 He. apply hash_inj in He as (_ & He & _). by eapply numbered_unique.
Qed.

Lemma wrap_pred (n : Z) : (1 ≤ n ≤ u64_max)%Z → u64_wrap (n - 1) = (n - 1)%Z.
Proof. intros. apply u64_wrap_small. unfold is_u64. lia. Qed.
End chain.

(** ** The representation invariant *)

Section represents.
Context {SB : Type} `{SignedBlock SB} `{!HeaderHash SB}.
Context `{Encode DbKey} `{!KeyCodec} `{Encode (list ShardIdentifier)}.
Context `{Encode LastSidechainBlock} `{Encode BlockHash} `{Encode SB}.
Implicit Types (b : SB) (c : list SB) (s : ShardIdentifier) (m : gmap ShardIdentifier (list SB)).
Implicit Types (v : gmap (list N) (list N)) (lb : gmap ShardIdentifier LastSidechainBlock).

(** Blocks and numbers in the store are those of the chains. *)
Record blocks_stored v m : Prop := {
  bs_number : ∀ s n x, vlook v (NumberKey s n) = Some x ↔
    ∃ b, b ∈ chain m s ∧ block_number b = n ∧ x = encode (hash b);
  bs_block : ∀ h x, vlook v (BlockKey h) = Some x ↔
    ∃ s b, b ∈ chain m s ∧ hash b = h ∧ x = encode b;
}.

Record represents (sh : list ShardIdentifier) lb v m : Prop := {
  rp_nodup : NoDup sh;
  rp_dom : ∀ s, s ∈ sh ↔ is_Some (m !! s);
  rp_chain : ∀ s c, m !! s = Some c → chain_ok s c;
  rp_last : ∀ s, lb !! s = m !! s ≫= λ c, mk_last <$> last c;
  rp_last_db : ∀ s, vlook v (LastBlockKey s) = encode <$> lb !! s;
  rp_blocks : blocks_stored v m;
}.

(** The list of shards in the store is the one in memory. *)
Definition shards_saved (sh : list ShardIdentifier) v : Prop :=
  vlook v StoredShardsKey = Some (encode sh) ∨ (vlook v StoredShardsKey = None ∧ sh = []).

Lemma elem_of_chain m s b : b ∈ chain m s ↔ ∃ c, m !! s = Some c ∧ b ∈ c.
Proof. unfold chain. destruct (m !! s); simpl; set_solver. Qed.

Lemma chain_block m s b :
  (∀ s c, m !! s = Some c → chain_ok s c) → b ∈ chain m s → shard_id b = s ∧ block_ok b.
Proof.
  intros Hc (c & Hm & Hb)%elem_of_chain. destruct (Hc s c Hm) as [_ [k Hn]]. by eapply numbered_elem.
Qed.

Lemma chains_hash_inj m s1 s2 b1 b2 :
  (∀ s c, m !! s = Some c → chain_ok s c) →
  b1 ∈ chain m s1 → b2 ∈ chain m s2 → hash b1 = hash b2 → b1 = b2 ∧ s1 = s2.
Proof.
  intros Hc Hx1 Hx2 He. pose proof (hash_inj _ _ He) as (_ & _ & Hs).
  destruct (chain_block _ _ _ Hc Hx1) as [E1 _], (chain_block _ _ _ Hc Hx2) as [E2 _].
  assert (s1 = s2) as -> by congruence. split; [|done].
  apply elem_of_chain in Hx1 as (c & Hm & Hx1), Hx2 as (c' & Hm' & Hx2). simplify_eq.
  by eapply chain_hash_inj; [apply Hc| | |].
Qed.

Lemma represents_last sh lb v m s c :
  represents sh lb v m → m !! s = Some c →
  ∃ b, last c = Some b ∧ b ∈ c ∧ shard_id b = s ∧ block_ok b ∧ lb !! s = Some (mk_last b).
Proof.
  intros Hr Hm. destruct (rp_chain _ _ _ _ Hr _ _ Hm) as [Hne [k Hn]].
  destruct (last c) as [b|] eqn:Hl; [|by apply last_None in Hl].
  assert (b ∈ c) as Hb. { apply last_Some in Hl as [c' ->]. set_solver. }
  exists b. destruct (numbered_elem _ _ _ _ Hn Hb) as [??]. rewrite (rp_last _ _ _ _ Hr), Hm.
  simpl. by rewrite Hl.
Qed.

(** Adding a block at the end of its chain. *)
Lemma blocks_stored_add v m b x :
  let s := shard_id b in
  let m' := <[s := chain m s ++ [b]]> m in
  (∀ s c, m' !! s = Some c → chain_ok s c) → blocks_stored v m →
  blocks_stored (<[encode (LastBlockKey s) := x]> (<[encode (NumberKey s (block_number b)) := encode (hash b)]>
    (<[encode (BlockKey (hash b)) := encode b]> v))) m'.
Proof.
  intros s m' Hc [Hn Hb].
  assert (∀ s' b', b' ∈ chain m' s' ↔ b' ∈ chain m s' ∨ (s' = s ∧ b' = b)) as Hel.
  { intros s' b'. unfold chain, m'. destruct (decide (s' = s)) as [->|Hne].
    - rewrite lookup_insert_eq. simpl. set_solver.
    - rewrite lookup_insert_ne by done. naive_solver. }
  assert (b ∈ chain m' s) as Hin by (apply Hel; by right).
  split; intros.
  - rewrite !vlook_put. repeat case_decide; simplify_eq.
    + split; [intros [= <-]; by exists b|]. intros (b' & Hb' & He & ->).
      assert (b' = b) as ->; [|done]. apply elem_of_chain in Hb' as (c' & Hc' & Hb'), Hin as (c & Hc1 & Hin).
      simplify_eq. destruct (Hc _ _ Hc1) as [_ [k Hk]]. by eapply numbered_unique.
    + rewrite Hn. split; intros (b' & Hb' & He & ->); exists b'; (split_and!; [|done..]); rewrite Hel in *; naive_solver.
  - rewrite !vlook_put. repeat case_decide; simplify_eq.
    + split; [intros [= <-]; by exists s, b|]. intros (s' & b' & Hb' & He & ->).
      by destruct (chains_hash_inj m' _ _ _ _ Hc Hb' Hin He) as [-> _].
    + rewrite Hb. split; intros (s' & b' & Hb' & He & ->); exists s', b'; (split_and!; [|done..]); rewrite Hel in *; naive_solver.
Qed.

Lemma represents_add sh sh' lb v m b :
  let s := shard_id b in
  let m' := <[s := chain m s ++ [b]]> m in
  represents sh lb v m → chain_ok s (chain m s ++ [b]) →
  NoDup sh' → (∀ s', s' ∈ sh' ↔ s' = s ∨ s' ∈ sh) →
  represents sh' (<[s := mk_last b]> lb) (<[encode (LastBlockKey s) := encode (mk_last b)]>
    (<[encode (NumberKey s (block_number b)) := encode (hash b)]> (<[encode (BlockKey (hash b)) := encode b]> v))) m'.
Proof.
  intros s m' [Hnd Hdom Hc Hl Hld Hbs] Hok Hnd' Hsh'.
  assert (∀ s0 c, m' !! s0 = Some c → chain_ok s0 c) as Hc'.
  { intros s0 c [[<- <-]|[Hne Hm]]%lookup_insert_Some; [done|by apply Hc]. }
  split; try done.
  - intros s0. rewrite Hsh', Hdom. unfold m'. destruct (decide (s0 = s)) as [->|Hne].
    + rewrite lookup_insert_eq. split; [eauto|by left].
    + rewrite lookup_insert_ne by done. naive_solver.
  - intros s0. unfold m'. destruct (decide (s0 = s)) as [->|Hne].
    + rewrite !lookup_insert_eq. simpl. by rewrite last_snoc.
    + rewrite !lookup_insert_ne by done. apply Hl.
  - intros s0. rewrite !vlook_put. destruct (decide (s0 = s)) as [->|Hne].
    + rewrite decide_True, lookup_insert_eq by done. done.
    + rewrite !decide_False, lookup_insert_ne by congruence. apply Hld.
  - by apply blocks_stored_add.
Qed.

(** Deleting the older part [c1] of a chain, and perhaps more. *)
Definition block_keys s c : list DbKey := c ≫= λ b, [BlockKey (hash b); NumberKey s (block_number b)].

Lemma elem_of_block_keys s c key :
  key ∈ block_keys s c ↔ ∃ b, b ∈ c ∧ (key = BlockKey (hash b) ∨ key = NumberKey s (block_number b)).
Proof. unfold block_keys. rewrite list_elem_of_bind. set_solver. Qed.

Lemma blocks_stored_delete v v' m m' s c1 c2 :
  (∀ s c, m !! s = Some c → chain_ok s c) → blocks_stored v m → m !! s = Some (c1 ++ c2) →
  (∀ s', chain m' s' = if decide (s' = s) then c2 else chain m s') →
  (∀ h, vlook v' (BlockKey h) = if decide (BlockKey h ∈ block_keys s c1) then None else vlook v (BlockKey h)) →
  (∀ s' n, vlook v' (NumberKey s' n) =
    if decide (NumberKey s' n ∈ block_keys s c1) then None else vlook v (NumberKey s' n)) →
  blocks_stored v' m'.
Proof.
  intros Hc [Hn Hb] Hm Hm' Hvb Hvn. destruct (Hc _ _ Hm) as [_ [k Hk]].
  assert (∀ b1 b2, b1 ∈ c1 → b2 ∈ c2 → block_number b1 ≠ block_number b2) as Hne.
  { intros b1 b2 [i Hi]%list_elem_of_lookup [j Hj]%list_elem_of_lookup.
    destruct (numbered_app _ _ _ _ Hk) as [Hx1 Hx2].
    destruct (Hx1 _ _ Hi) as (_ & -> & _), (Hx2 _ _ Hj) as (_ & -> & _). apply lookup_lt_Some in Hi. lia. }
  assert (chain m s = c1 ++ c2) as Hcs by (unfold chain; by rewrite Hm).
  split; intros.
  - rewrite Hvn, Hm'. case_decide as Hin; rewrite elem_of_block_keys in Hin.
    + destruct Hin as (b & Hb1 & [?|[= -> ->]]); [done|]. split; [done|]. rewrite decide_True by done.
      intros (b' & Hb' & He & _). by destruct (Hne b b').
    + rewrite Hn. case_decide; subst; [|done]. rewrite Hcs. split; intros (b & Hb' & He & ->); exists b; set_solver.
  - rewrite Hvb. case_decide as Hin; rewrite elem_of_block_keys in Hin.
    + destruct Hin as (b & Hb1 & [[= ->]|?]); [|done]. split; [done|].
      intros (s' & b' & Hb' & He & _). rewrite Hm' in Hb'.
      assert (b ∈ chain m s) as Hbs by (rewrite Hcs; set_solver).
      destruct (chains_hash_inj m s' s b' b) as [-> ->]; [done| |done..|].
      { case_decide; subst; [rewrite Hcs; set_solver|done]. }
      rewrite decide_True in Hb' by done. by destruct (Hne b b).
    + rewrite Hb. split; intros (s' & b & Hb' & He & ->); exists s', b; rewrite Hm' in *; case_decide; subst;
        (split_and!; [|done..]); try rewrite Hcs in *; set_solver.
Qed.
End represents.
End StorageInv.

(** The operations of the sidechain storage against the map of chains: storing,
    purging and pruning shards, and loading the storage again. *)

Module StorageOps.
Import Storage StorageInv.

(** ** The abstract storage: a chain of blocks per shard *)

Section spec.
Context {SB : Type} `{SignedBlock SB}.
Implicit Types (m : gmap ShardIdentifier (list SB)) (b : SB) (s : ShardIdentifier) (n : BlockNumber).

(** A block starts a shard, or is appended when it follows the last one. *)
Definition q_store m b : gmap ShardIdentifier (list SB) :=
  let s := shard_id b in
  match m !! s with
  | None => <[s := [b]]> m
  | Some c =>
      if decide (block_number <$> last c = Some (block_number b - 1)%Z) then <[s := c ++ [b]]> m else m
  end.

(** The blocks newer than [n]. *)
Definition newer_than n (c : list SB) : list SB := filter (λ b, (n < block_number b)%Z) c.

Definition set_chain m s (c : list SB) : gmap ShardIdentifier (list SB) :=
  match c with [] => delete s m | _ => <[s := c]> m end.

(** Drop the blocks up to a block of the chain; any other number changes
    nothing. *)
Definition q_prune m s n : gmap ShardIdentifier (list SB) :=
  let c := chain m s in
  if decide (n ∈ (block_number <$> c)) then set_chain m s (newer_than n c) else m.

(** Keep the newest [k] blocks. *)
Definition newest (k : Z) (c : list SB) : list SB := drop (length c - Z.to_nat k) c.

Definition q_prune_all m (k : Z) : gmap ShardIdentifier (list SB) :=
  omap (λ c, match newest k c with [] => None | c' => Some c' end) m.
End spec.

Section ops.
Context {Db SB : Type} `{RocksDb Db} `{!ReliableDb Db} `{SignedBlock SB} `{!HeaderHash SB}.
Context `{Encode DbKey} `{!KeyCodec}.
Context `{Encode (list ShardIdentifier)} `{Decode (list ShardIdentifier)} `{!Codec (list ShardIdentifier)}.
Context `{Encode LastSidechainBlock} `{Decode LastSidechainBlock} `{!Codec LastSidechainBlock}.
Context `{Encode BlockHash} `{Decode BlockHash} `{!Codec BlockHash} `{Encode SB} `{Decode SB} `{!Codec SB}.
Implicit Types (st : SidechainStorage Db) (batch : WriteBatch) (s : ShardIdentifier) (n : BlockNumber).
Implicit Types (m : gmap ShardIdentifier (list SB)) (b : SB) (c : list SB).

Record storage_inv st m : Prop := {
  si_rep : represents (shards st) (last_blocks st) (db_view (db st)) m;
  si_saved : shards_saved (shards st) (db_view (db st));
}.

(** ** Reading *)

Lemma get_some {V} `{Encode V, Decode V, !Codec V} (d : Db) k (x : V) :
  vlook (db_view d) k = Some (encode x) → SidechainDB.get d k = Ok (Some x).
Proof.
  intros E. unfold SidechainDB.get. rewrite db_get_view. unfold vlook in E. rewrite E.
  by rewrite decode_encode.
Qed.

Lemma get_none {V} `{Decode V} (d : Db) k :
  vlook (db_view d) k = None → SidechainDB.get (V := V) d k = Ok None.
Proof. intros E. unfold SidechainDB.get. rewrite db_get_view. unfold vlook in E. by rewrite E. Qed.

Section reading.
Context st m (Hbs : blocks_stored (db_view (db st)) m).

Lemma get_block_hash_in s b : b ∈ chain m s → get_block_hash st s (block_number b) = Ok (Some (hash b)).
Proof. intros Hb. apply get_some. apply (bs_number _ _ Hbs). eauto. Qed.

Lemma get_block_hash_out s n : n ∉ (block_number <$> chain m s) → get_block_hash st s n = Ok None.
Proof.
  intros Hn. apply get_none. destruct (vlook _ _) as [x|] eqn:E; [|done].
  apply (bs_number _ _ Hbs) in E as (b & Hb & <- & _). destruct Hn. by apply list_elem_of_fmap_2.
Qed.

Lemma get_block_in s b : b ∈ chain m s → get_block st (hash b) = Ok (Some b).
Proof. intros Hb. apply get_some. apply (bs_block _ _ Hbs). eauto. Qed.

Lemma get_block_out h : (∀ s b, b ∈ chain m s → hash b ≠ h) → get_block (SB := SB) st h = Ok None.
Proof.
  intros Hn. apply get_none. destruct (vlook _ _) as [x|] eqn:E; [|done].
  apply (bs_block _ _ Hbs) in E as (s & b & Hb & Hh & _). by destruct (Hn s b).
Qed.
End reading.

Lemma last_of_shard_in dbg_shard st m s c b :
  storage_inv st m → m !! s = Some c → last c = Some b → get_last_block_of_shard dbg_shard st s = Ok (mk_last b).
Proof.
  intros [Hr _] Hm Hl. unfold get_last_block_of_shard. rewrite (rp_last _ _ _ _ Hr), Hm. simpl. by rewrite Hl.
Qed.

Lemma last_of_shard_out dbg_shard st m s :
  storage_inv st m → m !! s = None →
  get_last_block_of_shard dbg_shard st s = Err (LastBlockNotFound (dbg_shard s)).
Proof.
  intros [Hr _] Hm. unfold get_last_block_of_shard, load_last_block_from_db.
  assert (last_blocks st !! s = None) as Hl by (by rewrite (rp_last _ _ _ _ Hr), Hm).
  rewrite Hl, get_none; [done|]. by rewrite (rp_last_db _ _ _ _ Hr), Hl.
Qed.

Lemma write_spec st batch :
  ∃ d, write st batch = (set_db st d, Ok tt) ∧ db_view d = apply_batch (db_view (db st)) batch.
Proof.
  unfold write, SidechainDB.write. destruct (db_write_view (db st) batch) as [Hr Hv].
  destruct (db_write (db st) batch) as [d r]. simpl in *. subst r. eauto.
Qed.

(** ** Loading *)

Lemma load_last_view st m s :
  storage_inv st m → load_last_block_from_db (db st) s = Ok (last_blocks st !! s).
Proof.
  intros [Hr _]. pose proof (rp_last_db _ _ _ _ Hr s) as E. destruct (last_blocks st !! s) as [x|].
  - by apply get_some. - by apply get_none.
Qed.

Lemma load_loop st m l acc :
  storage_inv st m →
  foldl (λ a s, load_step a (db st) s) (Ok acc) l =
    Ok (foldl (λ a s, match last_blocks st !! s with Some x => <[s := x]> a | None => a end) acc l).
Proof.
  intros Hi. revert acc. induction l as [|s l IH]; intros acc; [done|]. cbn [foldl].
  unfold load_step at 2. erewrite load_last_view by done. apply IH.
Qed.

Lemma load_fold_lookup (lb acc : gmap ShardIdentifier LastSidechainBlock) l s :
  foldl (λ a s, match lb !! s with Some x => <[s := x]> a | None => a end) acc l !! s =
    if decide (s ∈ l) then lb !! s ∪ acc !! s else acc !! s.
Proof.
  revert acc. induction l as [|s0 l IH]; intros acc; [done|]. cbn [foldl]. rewrite IH.
  destruct (decide (s0 = s)) as [->|Hne].
  - rewrite (decide_True (P := s ∈ s :: l)) by set_solver.
    destruct (lb !! s) eqn:E; [rewrite lookup_insert_eq|]; case_decide; by destruct (acc !! s).
  - assert (s ∈ s0 :: l ↔ s ∈ l) as Hiff by set_solver. rewrite (decide_ext _ _ _ _ Hiff).
    destruct (lb !! s0); [|done]. by rewrite lookup_insert_ne.
Qed.

Lemma reload_spec st m : storage_inv st m → load_from_base_path (Ok (db st)) = Ok st.
Proof.
  intros Hi. pose proof Hi as [Hr Hs]. unfold load_from_base_path, load_shards_from_db.
  assert ((match SidechainDB.get (db st) StoredShardsKey with
    Ok found => Ok (default [] found) | Err err => Err err end) = Ok (E := StorageError) (shards st)) as ->.
  { destruct Hs as [Hs|[Hs Hnil]]; [by rewrite (get_some _ _ _ Hs)|by rewrite (get_none _ _ Hs), Hnil]. }
  erewrite load_loop by done. destruct st as [d sh lb]. simpl in *. do 2 f_equal.
  apply map_eq. intros s. rewrite load_fold_lookup, lookup_empty.
  case_decide as Hin; [by destruct (lb !! s)|].
  rewrite (rp_dom _ _ _ _ Hr) in Hin. rewrite (rp_last _ _ _ _ Hr). simpl. destruct (m !! s); [|done].
  destruct Hin. eauto.
Qed.

(** ** Storing *)

(** The loop of [store_blocks]: memory and the store with the batch applied
    represent the abstract storage. *)
Definition storing (d : Db) (acc : SidechainStorage Db * bool * WriteBatch) m : Prop :=
  let '(st, new_shard, batch) := acc in
  db st = d ∧ represents (shards st) (last_blocks st) (apply_batch (db_view d) batch) m ∧
  (new_shard = false → shards_saved (shards st) (apply_batch (db_view d) batch)).

Lemma add_last_block_spec st batch b v :
  ∃ st' batch', add_last_block st batch b = (st', batch') ∧
    db st' = db st ∧ shards st' = shards st ∧
    last_blocks st' = <[shard_id b := mk_last b]> (last_blocks st) ∧
    apply_batch v batch' = <[encode (LastBlockKey (shard_id b)) := encode (mk_last b)]>
      (<[encode (NumberKey (shard_id b) (block_number b)) := encode (hash b)]>
        (<[encode (BlockKey (hash b)) := encode b]> (apply_batch v batch))).
Proof.
  unfold add_last_block, SidechainDB.add_to_batch. eexists _, _. split_and!; [done..|].
  by rewrite !apply_batch_app.
Qed.

Lemma verify_spec st m b c a v :
  represents (shards st) (last_blocks st) v m → m !! shard_id b = Some c → last c = Some a → block_ok b →
  verify_block_ancestry st b = bool_decide (block_number a = block_number b - 1)%Z.
Proof.
  intros Hr Hm Hl Hb. unfold verify_block_ancestry, last_block_of_shard. rewrite (rp_last _ _ _ _ Hr), Hm.
  simpl. rewrite Hl. simpl. by rewrite wrap_pred.
Qed.

Lemma saved_other sh v s n h x y z :
  shards_saved sh v →
  shards_saved sh (<[encode (LastBlockKey s) := x]> (<[encode (NumberKey s n) := y]> (<[encode (BlockKey h) := z]> v))).
Proof. intros Hs. unfold shards_saved. by rewrite !vlook_put. Qed.

Lemma store_step_spec d acc m b :
  storing d acc m → block_ok b → storing d (store_step acc b) (q_store m b).
Proof.
  destruct acc as [[st new] batch]. intros (Hd & Hr & Hs) Hb. unfold store_step, add_block_to_batch, q_store.
  pose proof (rp_dom _ _ _ _ Hr (shard_id b)) as Hdom. destruct (m !! shard_id b) as [c|] eqn:Hm.
  - rewrite decide_True by (apply Hdom; eauto).
    destruct (represents_last _ _ _ _ _ _ Hr Hm) as (a & Hl & _ & _ & _ & _).
    rewrite (verify_spec _ _ _ _ _ _ Hr Hm Hl Hb), Hl. cbn [fmap option_fmap option_map].
    case_bool_decide as He; [|by rewrite decide_False by congruence]. rewrite decide_True by congruence.
    destruct (add_last_block_spec st batch b (db_view d)) as (st' & batch' & -> & Hd' & Hsh & Hlb & Hv).
    cbn [fst]. unfold storing. rewrite Hsh, Hlb, Hv. split_and!; [congruence| |].
    + assert (c = chain m (shard_id b)) as Hc by (unfold chain; by rewrite Hm). rewrite Hc.
      eapply (represents_add (shards st)); [done| |by apply Hr|].
      * rewrite <-Hc. eapply chain_ok_snoc; [by apply Hr|done..].
      * intros s'. split; [by right|]. intros [->|?]; [apply Hdom; eauto|done].
    + intros Hn. by apply saved_other, Hs.
  - rewrite decide_False by (rewrite Hdom; by intros [? ?]).
    destruct (add_last_block_spec (set_shards st (shards st ++ [shard_id b])) batch b (db_view d))
      as (st' & batch' & -> & Hd' & Hsh & Hlb & Hv).
    cbn [fst]. unfold storing. rewrite Hsh, Hlb, Hv. split_and!; [by rewrite Hd'| |done]. simpl.
    assert ([b] = chain m (shard_id b) ++ [b]) as Hc by (unfold chain; by rewrite Hm). rewrite Hc.
    eapply (represents_add (shards st)); [done| | |].
    + rewrite <-Hc. by apply chain_ok_singleton.
    + apply NoDup_app. split_and!; [apply Hr| |apply NoDup_singleton].
      intros s' Hs' ->%list_elem_of_singleton. by apply Hdom in Hs' as [??].
    + intros s'. set_solver.
Qed.

Lemma store_loop d acc m bs :
  storing d acc m → Forall block_ok bs → storing d (foldl store_step acc bs) (foldl q_store m bs).
Proof.
  intros Hacc Hbs. revert acc m Hacc. induction Hbs as [|b bs Hb Hbs IH]; intros acc m Hacc; [done|].
  cbn [foldl]. apply IH. by apply store_step_spec.
Qed.

Lemma store_blocks_spec st m bs :
  storage_inv st m → Forall block_ok bs →
  ∃ st', store_blocks st bs = (st', Ok tt) ∧ storage_inv st' (foldl q_store m bs).
Proof.
  intros [Hr Hs] Hbs. unfold store_blocks.
  pose proof (store_loop (db st) (st, false, []) m bs (conj eq_refl (conj Hr (λ _, Hs))) Hbs) as Hst.
  destruct (foldl store_step _ bs) as [[st1 new] batch]. destruct Hst as (Hd & Hr1 & Hs1).
  destruct (write_spec st1 (if new then SidechainDB.add_to_batch batch StoredShardsKey (shards st1) else batch))
    as (d & -> & Hv). exists (set_db st1 d). split; [done|]. rewrite Hd in Hv.
  destruct new; split; simpl; rewrite Hv; try by auto.
  - unfold SidechainDB.add_to_batch. rewrite apply_batch_app. cbn.
    destruct Hr1 as [? ? ? ? Hld [Hbn Hbb]]. split; try done.
    + intros s. by rewrite vlook_put, decide_False.
    + split; intros; rewrite vlook_put, decide_False by done; auto.
  - left. unfold SidechainDB.add_to_batch. rewrite apply_batch_app. cbn. by rewrite vlook_put, decide_True.
Qed.

(** ** Deleting *)

Lemma numbers_from k s c n : numbered k s c → n ∈ (block_number <$> c) ↔ (k ≤ n < k + Z.of_nat (length c))%Z.
Proof.
  intros Hn. rewrite list_elem_of_fmap. split.
  - intros (b & -> & [i Hi]%list_elem_of_lookup). destruct (Hn _ _ Hi) as (_ & -> & _).
    apply lookup_lt_Some in Hi. lia.
  - intros Hr. destruct (lookup_lt_is_Some_2 c (Z.to_nat (n - k))) as [b Hb]; [lia|].
    exists b. split; [|by eapply list_elem_of_lookup_2]. destruct (Hn _ _ Hb) as (_ & -> & _). lia.
Qed.

Lemma newer_than_all n c : (∀ b, b ∈ c → (n < block_number b)%Z) → newer_than n c = c.
Proof.
  induction c as [|b c IH]; intros Hc; [done|]. unfold newer_than. rewrite filter_cons, decide_True.
  - f_equal. apply IH. set_solver.
  - apply Hc. set_solver.
Qed.

Lemma newer_than_drop k s c i :
  numbered k s c → i ≤ length c → newer_than (k + Z.of_nat i - 1) c = drop i c.
Proof.
  revert k i. induction c as [|b c IH]; intros k i Hn Hi; [by destruct i|].
  destruct (numbered_app _ _ [b] c Hn) as [_ Hc]. destruct (Hn 0 b eq_refl) as (_ & Hb & _). simpl in Hc, Hi.
  unfold newer_than. rewrite filter_cons. destruct i as [|i].
  - rewrite decide_True by lia. simpl. f_equal. apply newer_than_all. intros b' Hb'.
    assert (block_number b' ∈ (block_number <$> c)) as Hx by (by apply list_elem_of_fmap_2).
    apply (numbers_from _ _ _ _ Hc) in Hx. lia.
  - rewrite decide_False by lia. simpl. rewrite <-(IH (k + 1)%Z i) by (done || lia).
    by replace (k + 1 + Z.of_nat i - 1)%Z with (k + Z.of_nat (S i) - 1)%Z by lia.
Qed.

Lemma delete_block_batch batch s b bs :
  delete_block batch (hash b) (block_number b) s ++ deletes (block_keys s bs) =
    batch ++ deletes (block_keys s (b :: bs)).
Proof. unfold delete_block, SidechainDB.delete_to_batch, deletes. simpl. by rewrite <-!app_assoc. Qed.

Section walking.
Context st m (Hbs : blocks_stored (db_view (db st)) m).

(** Walking down deletes exactly the blocks of the chain that are left. *)
Lemma prune_loop s k c1 c2 batch fuel :
  m !! s = Some (c1 ++ c2) → numbered k s (c1 ++ c2) → (1 ≤ k)%Z → length c1 < fuel →
  loop fuel (prune_step st s) ((k + Z.of_nat (length c1) - 1)%Z, batch) =
    Ret (Ok (batch ++ deletes (block_keys s (reverse c1)))).
Proof.
  revert c2 batch fuel. induction c1 as [|b c1 IH] using rev_ind; intros c2 batch fuel Hm Hn Hk Hf.
  - destruct fuel as [|fuel]; [simpl in Hf; lia|]. rewrite loop_unfold. unfold prune_step at 1.
    rewrite (get_block_hash_out st m Hbs); [by rewrite app_nil_r|].
    unfold chain. rewrite Hm. simpl. rewrite (numbers_from _ _ _ _ Hn). simpl. lia.
  - destruct fuel as [|fuel]; [lia|]. rewrite length_app in *. simpl in Hf.
    assert (b ∈ chain m s) as Hb by (unfold chain; rewrite Hm; set_solver).
    destruct (Hn (length c1) b) as (_ & Hnb & Hok).
    { by rewrite lookup_app_l, list_lookup_middle by (rewrite ?length_app; simpl; lia). }
    replace (k + Z.of_nat (length c1 + length [b]) - 1)%Z with (block_number b) by (simpl; lia).
    rewrite loop_unfold. unfold prune_step at 1. rewrite (get_block_hash_in st m Hbs s b Hb), wrap_pred by done.
    rewrite Hnb, <-app_assoc in *. rewrite (IH ([b] ++ c2)) by (done || lia).
    by rewrite <-Hnb, delete_block_batch, reverse_snoc.
Qed.

Lemma purge_loop s k c1 c2 batch fuel :
  m !! s = Some (c1 ++ c2) → numbered k s (c1 ++ c2) → c2 ≠ [] → (1 ≤ k)%Z → length c1 < fuel →
  loop fuel (purge_step st s) ((k + Z.of_nat (length c1))%Z, batch) =
    Ret (Ok (batch ++ deletes (block_keys s (reverse c1)))).
Proof.
  revert c2 batch fuel. induction c1 as [|b c1 IH] using rev_ind; intros c2 batch fuel Hm Hn Hne Hk Hf;
    (destruct fuel as [|fuel]; [lia|]); rewrite loop_unfold; unfold purge_step at 1, get_previous_block.
  - destruct c2 as [|b c2]; [done|]. destruct (Hn 0 b eq_refl) as (_ & Hnb & Hok). simpl in *.
    rewrite wrap_pred by (unfold block_ok in Hok; lia).
    rewrite (get_block_hash_out st m Hbs); [by rewrite app_nil_r|].
    unfold chain. rewrite Hm. simpl. rewrite <-fmap_cons, (numbers_from _ _ _ _ Hn). simpl. lia.
  - rewrite length_app in *. simpl in Hf.
    assert (b ∈ chain m s) as Hb by (unfold chain; rewrite Hm; set_solver).
    destruct (Hn (length c1) b) as (_ & Hnb & Hok).
    { by rewrite lookup_app_l, list_lookup_middle by (rewrite ?length_app; simpl; lia). }
    destruct c2 as [|b2 c2]; [done|]. destruct (Hn (length (c1 ++ [b])) b2) as (_ & Hnb2 & Hok2).
    { by rewrite list_lookup_middle. }
    rewrite length_app in Hnb2. simpl in Hnb2 |- *. unfold block_ok in Hok2. rewrite wrap_pred by lia.
    replace (k + Z.of_nat (length c1 + 1) - 1)%Z with (block_number b) by lia.
    rewrite (get_block_hash_in st m Hbs s b Hb). cbn.
    rewrite Hnb, <-app_assoc in *. rewrite (IH ([b] ++ b2 :: c2)) by (done || lia).
    by rewrite <-Hnb, delete_block_batch, reverse_snoc.
Qed.
End walking.

Lemma block_keys_reverse s c key : key ∈ block_keys s (reverse c) ↔ key ∈ block_keys s c.
Proof. rewrite !elem_of_block_keys. set_solver. Qed.

Lemma last_key_not_block s s' c : LastBlockKey s' ∉ block_keys s c.
Proof. rewrite elem_of_block_keys. intros (b & _ & [?|?]); done. Qed.

Lemma shards_key_not_block s c : StoredShardsKey ∉ block_keys s c.
Proof. rewrite elem_of_block_keys. intros (b & _ & [?|?]); done. Qed.

Lemma decide_block_keys {A} s c key (x y : A) :
  (if decide (key ∈ block_keys s (reverse c)) then x else y) = (if decide (key ∈ block_keys s c) then x else y).
Proof. apply decide_ext, block_keys_reverse. Qed.

Lemma chain_set_chain m s c s' : chain (set_chain m s c) s' = if decide (s' = s) then c else chain m s'.
Proof.
  unfold chain, set_chain. case_decide; subst.
  - destruct c; [by rewrite lookup_delete_eq|by rewrite lookup_insert_eq].
  - destruct c; [by rewrite lookup_delete_ne|by rewrite lookup_insert_ne].
Qed.

(** The batch of a partial prune. *)
Lemma prune_effect st d m s c1 c2 :
  storage_inv st m → m !! s = Some (c1 ++ c2) → c2 ≠ [] →
  db_view d = apply_batch (db_view (db st)) (deletes (block_keys s (reverse c1))) →
  storage_inv (set_db st d) (<[s := c2]> m).
Proof.
  intros [Hr Hs] Hm Hne Hv. split; simpl; rewrite Hv.
  - pose proof Hr as [Hnd Hdom Hc Hl Hld Hbs]. split; try done.
    + intros s'. rewrite Hdom. destruct (decide (s' = s)) as [->|?];
        [rewrite lookup_insert_eq, Hm; split; eauto|by rewrite lookup_insert_ne].
    + intros s' c [[<- <-]|[_ Hm']]%lookup_insert_Some; [|by apply Hc]. eapply chain_ok_suffix, Hc; done.
    + intros s'. rewrite Hl. destruct (decide (s' = s)) as [->|?]; [|by rewrite lookup_insert_ne].
      rewrite lookup_insert_eq, Hm. simpl. destruct c2; [done|]. by rewrite last_app_cons.
    + intros s'. rewrite vlook_deletes, decide_False; [done|apply last_key_not_block].
    + eapply (blocks_stored_delete _ _ m _ s c1 c2); [done..| | |].
      * intros s'. unfold chain. destruct (decide (s' = s)) as [->|?];
          [by rewrite lookup_insert_eq|by rewrite lookup_insert_ne].
      * intros h. by rewrite vlook_deletes, decide_block_keys.
      * intros s' n. by rewrite vlook_deletes, decide_block_keys.
  - unfold shards_saved. rewrite vlook_deletes, decide_False; [done|apply shards_key_not_block].
Qed.
End ops.
End StorageOps.

(** Purging and pruning of the sidechain storage, and histories of all its
    operations, against the map of chains. *)

Module StoragePrune.
Import Storage StorageInv StorageOps.

Section prune.
Context {Db SB : Type} `{RocksDb Db} `{!ReliableDb Db} `{SignedBlock SB} `{!HeaderHash SB}.
Context `{Encode DbKey} `{!KeyCodec}.
Context `{Encode (list ShardIdentifier)} `{Decode (list ShardIdentifier)} `{!Codec (list ShardIdentifier)}.
Context `{Encode LastSidechainBlock} `{Decode LastSidechainBlock} `{!Codec LastSidechainBlock}.
Context `{Encode BlockHash} `{Decode BlockHash} `{!Codec BlockHash} `{Encode SB} `{Decode SB} `{!Codec SB}.
Implicit Types (st : SidechainStorage Db) (s : ShardIdentifier) (n : BlockNumber).
Implicit Types (m : gmap ShardIdentifier (list SB)) (b : SB) (c : list SB).

(** The batch and the memory of a purge. *)
Lemma purge_effect st d m s c :
  storage_inv st m → m !! s = Some c →
  db_view d = apply_batch (db_view (db st)) (deletes (LastBlockKey s :: block_keys s (reverse c)) ++
    [Put (encode StoredShardsKey) (encode (filter (λ x, x ≠ s) (shards st)))]) →
  storage_inv (MkStorage d (filter (λ x, x ≠ s) (shards st)) (delete s (last_blocks st))) (delete s m).
Proof.
  intros [[Hnd Hdom Hc Hl Hld Hbs] Hs] Hm Hv. rewrite apply_batch_app in Hv. cbn in Hv.
  change (foldl apply_op ?v ?b) with (apply_batch v b) in Hv.
  assert (∀ key, vlook (db_view d) key = if decide (StoredShardsKey = key)
    then Some (encode (filter (λ x, x ≠ s) (shards st)))
    else if decide (key ∈ LastBlockKey s :: block_keys s (reverse c)) then None else vlook (db_view (db st)) key) as Hlk.
  { intros key. rewrite Hv, vlook_put. case_decide; [done|].
    by rewrite <-(vlook_deletes (db_view (db st)) (LastBlockKey s :: block_keys s (reverse c))). }
  split; simpl; [split|].
  - by apply NoDup_filter.
  - intros s'. rewrite list_elem_of_filter, Hdom. destruct (decide (s' = s)) as [->|?].
    + rewrite lookup_delete_eq. split; [by intros [? _]|by intros [??]].
    + rewrite lookup_delete_ne by done. naive_solver.
  - intros s' c' [_ Hm']%lookup_delete_Some. by apply Hc.
  - intros s'. destruct (decide (s' = s)) as [->|?]; [by rewrite !lookup_delete_eq|].
    by rewrite !lookup_delete_ne.
  - intros s'. rewrite Hlk, decide_False by done. destruct (decide (s' = s)) as [->|?].
    + by rewrite decide_True, lookup_delete_eq by set_solver.
    + rewrite decide_False, lookup_delete_ne by first [done | rewrite elem_of_cons; intros [?|Hk];
        [congruence|by apply last_key_not_block in Hk]]. apply Hld.
  - eapply (blocks_stored_delete _ _ m _ s c []); [done|done|by rewrite app_nil_r|..].
    + intros s'. unfold chain. destruct (decide (s' = s)) as [->|?];
        [by rewrite lookup_delete_eq|by rewrite lookup_delete_ne].
    + intros h. rewrite Hlk, decide_False by done. apply decide_ext. rewrite elem_of_cons, block_keys_reverse. naive_solver.
    + intros s' n. rewrite Hlk, decide_False by done. apply decide_ext. rewrite elem_of_cons, block_keys_reverse. naive_solver.
  - left. by rewrite Hlk, decide_True.
Qed.

Lemma chain_start k s c : c ≠ [] → numbered k s c → (1 ≤ k)%Z.
Proof. destruct c as [|b c]; [done|]. intros _ Hn. destruct (Hn 0 b eq_refl) as (_ & ? & ?). unfold block_ok in *. lia. Qed.

Context (dbg_shard : ShardIdentifier → string).

Lemma purge_spec fuel st m s c :
  storage_inv st m → m !! s = Some c → length c ≤ fuel →
  ∃ st', purge_shard dbg_shard fuel st s = Ret (st', Ok tt) ∧ storage_inv st' (delete s m).
Proof.
  intros Hi Hm Hf. pose proof Hi as [Hr _]. unfold purge_shard.
  destruct (represents_last _ _ _ _ _ _ Hr Hm) as (b & Hl & _).
  rewrite (last_of_shard_in dbg_shard _ _ _ _ _ Hi Hm Hl). apply last_Some in Hl as [c1 ->].
  destruct (rp_chain _ _ _ _ Hr _ _ Hm) as [Hne [k Hn]]. pose proof (chain_start _ _ _ Hne Hn) as Hk.
  destruct (Hn (length c1) b) as (_ & Hnb & _); [by apply list_lookup_middle|].
  unfold delete_last_block. cbn [lb_number mk_last lb_hash]. rewrite length_app in Hf. simpl in Hf.
  epose proof (purge_loop (set_last st (delete s (last_blocks st))) m (rp_blocks _ _ _ _ Hr) s k c1 [b] _ fuel
    Hm Hn ltac:(done) Hk ltac:(lia)) as Hloop. rewrite <-Hnb in Hloop. rewrite Hloop. clear Hloop. cbn [mbind outcome_bind].
  edestruct (write_spec (set_shards (set_last st (delete s (last_blocks st))) (filter (λ x, x ≠ s) (shards st))))
    as (d & -> & Hv). eexists. split; [done|].
  apply (purge_effect st d m s (c1 ++ [b])); [done..|]. rewrite Hv. f_equal. unfold SidechainDB.add_to_batch.
  by rewrite delete_block_batch, reverse_snoc.
Qed.

Lemma purge_absent fuel st m s :
  storage_inv st m → m !! s = None →
  purge_shard dbg_shard fuel st s = Ret (st, Err (LastBlockNotFound (dbg_shard s))).
Proof. intros Hi Hm. unfold purge_shard. by erewrite last_of_shard_out by done. Qed.

(** What a number cuts off. *)
Lemma q_prune_split m s c k n :
  m !! s = Some c → numbered k s c →
  (n ∉ (block_number <$> c) ∧ q_prune m s n = m) ∨
  ∃ i, n = (k + Z.of_nat i - 1)%Z ∧ 1 ≤ i ≤ length c ∧ q_prune m s n = set_chain m s (drop i c).
Proof.
  intros Hm Hn. unfold q_prune, chain. rewrite Hm. simpl. case_decide as Hin; [right|by left].
  pose proof (proj1 (numbers_from _ _ _ _ Hn) Hin). exists (S (Z.to_nat (n - k))). split_and!; [lia..|].
  rewrite <-(newer_than_drop k s c) by (done || lia). do 2 f_equal. lia.
Qed.

Lemma same_content st m d :
  storage_inv st m → db_view d = db_view (db st) → storage_inv (set_db st d) m.
Proof. intros [Hr Hs] Hv. split; simpl; by rewrite Hv. Qed.

Lemma prune_number_spec fuel st m s c n :
  storage_inv st m → m !! s = Some c → length c < fuel →
  ∃ st', prune_shard_from_block_number dbg_shard fuel st s n = Ret (st', Ok tt) ∧ storage_inv st' (q_prune m s n).
Proof.
  intros Hi Hm Hf. pose proof Hi as [Hr _]. unfold prune_shard_from_block_number.
  destruct (represents_last _ _ _ _ _ _ Hr Hm) as (b & Hl & _).
  rewrite (last_of_shard_in dbg_shard _ _ _ _ _ Hi Hm Hl).
  destruct (rp_chain _ _ _ _ Hr _ _ Hm) as [Hne [k Hn]]. pose proof (chain_start _ _ _ Hne Hn) as Hk.
  rewrite last_lookup in Hl. destruct (Hn _ _ Hl) as (_ & Hnb & _). apply lookup_lt_Some in Hl. simpl.
  destruct (q_prune_split m s c k n Hm Hn) as [[Hout ->]|(i & -> & Hi1 & ->)].
  - rewrite decide_False by (intros <-; apply Hout, (numbers_from _ _ _ _ Hn); lia).
    destruct fuel as [|fuel]; [lia|]. rewrite loop_unfold. unfold prune_step at 1.
    rewrite (get_block_hash_out st m (rp_blocks _ _ _ _ Hr)) by (unfold chain; by rewrite Hm). simpl.
    destruct (write_spec st []) as (d & -> & Hv). eexists. split; [done|]. by apply same_content.
  - case_decide as Hlast.
    + assert (drop i c = []) as -> by (apply drop_ge; lia). simpl. eapply purge_spec; [done..|lia].
    + rewrite <-(take_drop i c) in Hm, Hn.
      assert (length (take i c) = i) as Hli by (rewrite length_take; lia).
      epose proof (prune_loop st m (rp_blocks _ _ _ _ Hr) s k (take i c) (drop i c) ([] : WriteBatch) fuel Hm Hn Hk ltac:(lia)) as Hloop.
      rewrite Hli in Hloop. rewrite Hloop. clear Hloop. cbn [mbind outcome_bind].
      edestruct (write_spec st) as (d & -> & Hv). eexists. split; [done|].
      assert (drop i c ≠ []) as Hd by (intros E%(f_equal length); rewrite length_drop in E; simpl in E; lia).
      replace (set_chain m s (drop i c)) with (<[s := drop i c]> m) by (by destruct (drop i c)).
      by apply (prune_effect st d m s (take i c)).
Qed.

Lemma prune_absent fuel st m s n :
  storage_inv st m → m !! s = None →
  prune_shard_from_block_number dbg_shard fuel st s n = Ret (st, Err (LastBlockNotFound (dbg_shard s))).
Proof. intros Hi Hm. unfold prune_shard_from_block_number. by erewrite last_of_shard_out by done. Qed.

(** The threshold of [prune_shards], computed at [u64], cuts off all but the
    newest blocks. *)
Lemma threshold_newest m s c b k keep :
  m !! s = Some c → numbered k s c → c ≠ [] → last c = Some b → (0 ≤ keep ≤ u64_max)%Z →
  q_prune m s (u64_wrap (block_number b - keep)) = set_chain m s (newest keep c).
Proof.
  intros Hm Hn Hne Hl Hkeep. pose proof (chain_start _ _ _ Hne Hn) as Hk.
  rewrite last_lookup in Hl. destruct (Hn _ _ Hl) as (_ & Hnb & Hok). apply lookup_lt_Some in Hl.
  unfold block_ok in Hok. unfold newest.
  destruct (q_prune_split m s c k (u64_wrap (block_number b - keep)) Hm Hn) as [[Hout ->]|(i & Hi & Hir & ->)].
  - assert (Z.of_nat (length c) ≤ keep)%Z as Hle.
    { destruct (decide (Z.of_nat (length c) ≤ keep)%Z); [done|]. destruct Hout. apply (numbers_from _ _ _ _ Hn).
      rewrite u64_wrap_small by (unfold is_u64; lia). lia. }
    replace (length c - Z.to_nat keep) with 0 by lia. rewrite drop_0. destruct c; [done|]. simpl.
    by rewrite insert_id.
  - do 2 f_equal. destruct (decide (keep ≤ block_number b)%Z).
    + rewrite u64_wrap_small in Hi by (unfold is_u64; lia). lia.
    + exfalso. unfold u64_wrap, u64_max in *.
      rewrite <-(Z_mod_plus_full _ 1), Z.mod_small in Hi by lia. lia.
Qed.

Lemma storage_prune_one_spec fuel st m s c keep :
  storage_inv st m → m !! s = Some c → length c < fuel → (0 ≤ keep ≤ u64_max)%Z →
  ∃ st', prune_one dbg_shard fuel keep st s = Ret st' ∧ storage_inv st' (set_chain m s (newest keep c)).
Proof.
  intros Hi Hm Hf Hkeep. pose proof Hi as [Hr _]. unfold prune_one, last_block_of_shard.
  destruct (represents_last _ _ _ _ _ _ Hr Hm) as (b & Hl & _ & _ & _ & ->). simpl.
  destruct (rp_chain _ _ _ _ Hr _ _ Hm) as [Hne [k Hn]].
  destruct (prune_number_spec fuel st m s c (u64_wrap (block_number b - keep)) Hi Hm Hf) as (st' & -> & Hi').
  exists st'. split; [done|]. by erewrite <-threshold_newest by done.
Qed.

Lemma lookup_set_chain m s c s' :
  set_chain m s c !! s' = if decide (s' = s) then match c with [] => None | _ => Some c end else m !! s'.
Proof.
  unfold set_chain. case_decide; subst; destruct c;
    by rewrite ?lookup_delete_eq, ?lookup_insert_eq, ?lookup_delete_ne, ?lookup_insert_ne by done.
Qed.

Lemma prune_shards_spec fuel st m keep :
  storage_inv st m → (∀ s c, m !! s = Some c → length c < fuel) → (0 ≤ keep ≤ u64_max)%Z →
  ∃ st', prune_shards dbg_shard fuel st keep = Ret st' ∧ storage_inv st' (q_prune_all m keep).
Proof.
  intros Hi Hf Hkeep. unfold prune_shards. pose proof Hi as [Hr _].
  pose (cut c := match newest keep c with [] => None | c' => Some c' end).
  destruct (for_each_total (prune_one dbg_shard fuel keep) (λ pre st', ∃ m', storage_inv st' m' ∧
    ∀ s, m' !! s = if decide (s ∈ pre) then m !! s ≫= cut else m !! s) (shards st) st) as (st' & Heq & m' & Hi' & Hm').
  - by exists m.
  - intros pre s post st1 Hsh (m1 & Hi1 & Hm1).
    pose proof (rp_nodup _ _ _ _ Hr) as Hnd. rewrite Hsh in Hnd. apply NoDup_app in Hnd as (_ & Hnd & _).
    assert (s ∉ pre) as Hs. { intros Hs. apply (Hnd s Hs). set_solver. }
    destruct (proj1 (rp_dom _ _ _ _ Hr s)) as [c Hc]; [rewrite Hsh; set_solver|].
    assert (m1 !! s = Some c) as Hc1 by (by rewrite Hm1, decide_False).
    destruct (storage_prune_one_spec fuel st1 m1 s c keep Hi1 Hc1 (Hf _ _ Hc) Hkeep) as (st2 & -> & Hi2).
    eexists. split; [done|]. eexists. split; [done|]. intros s'. rewrite lookup_set_chain, Hm1.
    destruct (decide (s' = s)) as [->|Hne].
    + rewrite decide_True, Hc by set_solver. unfold cut. simpl. by destruct (newest keep c).
    + apply decide_ext. set_solver.
  - exists st'. split; [done|]. replace (q_prune_all m keep) with m'; [done|]. apply map_eq. intros s.
    unfold q_prune_all. rewrite Hm', lookup_omap. case_decide as Hin; [done|].
    rewrite (rp_dom _ _ _ _ Hr) in Hin. destruct (m !! s); [|done]. destruct Hin. eauto.
Qed.
End prune.
End StoragePrune.

(** Fetching blocks from the sidechain storage: the walk from the newest block
    over the parent hashes yields the end of the chain. *)

Module StorageFetch.
Import Storage StorageInv StorageOps.

Section fetch.
Context {Db SB : Type} `{RocksDb Db} `{!ReliableDb Db} `{SignedBlock SB} `{!HeaderHash SB}.
Context `{Encode DbKey} `{!KeyCodec} `{Encode (list ShardIdentifier)} `{Encode LastSidechainBlock}.
Context `{Encode BlockHash} `{Encode SB} `{Decode SB} `{!Codec SB}.
Implicit Types (st : SidechainStorage Db) (s : ShardIdentifier) (h : BlockHash).
Implicit Types (m : gmap ShardIdentifier (list SB)) (b : SB) (c : list SB).

(** A chain of blocks as the sidechain produces it: linked by parent hashes,
    and no block has the default hash. *)
Record good_chain c : Prop := {
  gc_linked : linked c;
  gc_hash : ∀ b, b ∈ c → hash b ≠ default_hash;
}.

(** The stored blocks of all shards. *)
Definition known m h : Prop := ∃ s b, b ∈ chain m s ∧ hash b = h.

Lemma chain_index_inj s c i j a b :
  chain_ok s c → c !! i = Some a → c !! j = Some b → hash a = hash b → i = j.
Proof.
  intros [_ [k Hn]] Hi Hj Hh. apply hash_inj in Hh as (_ & He & _).
  destruct (Hn _ _ Hi) as (_ & ? & _), (Hn _ _ Hj) as (_ & ? & _). lia.
Qed.

Section walk.
Context st m s c h (Hi : storage_inv st m) (Hm : m !! s = Some c) (Hg : good_chain c).

Lemma walk_up j a b :
  c !! j = Some a → c !! S j = Some b → hash b ≠ h →
  after_step st h (b, reverse (drop (S (S j)) c)) = Ret (inl (a, reverse (drop (S j) c))).
Proof.
  intros Ha Hb Hne. unfold after_step. rewrite decide_False by done.
  rewrite (gc_linked _ Hg _ _ _ Ha Hb), decide_False by (by eapply gc_hash, list_elem_of_lookup_2).
  rewrite (get_block_in st m (rp_blocks _ _ _ _ (si_rep _ _ Hi)) s)
    by (unfold chain; rewrite Hm; by eapply list_elem_of_lookup_2).
  by rewrite (drop_S c b (S j)), reverse_cons by done.
Qed.

Lemma walk_to i a j b fuel :
  c !! i = Some a → hash a = h → c !! j = Some b → i ≤ j → j < fuel →
  loop fuel (after_step st h) (b, reverse (drop (S j) c)) = Ret (Ok (reverse (drop (S i) c))).
Proof.
  pose proof (rp_chain _ _ _ _ (si_rep _ _ Hi) _ _ Hm) as Hc.
  intros Ha Hh. revert b fuel. induction j as [|j IH]; intros b fuel Hb Hij Hf;
    (destruct fuel as [|fuel]; [lia|]); rewrite loop_unfold.
  - assert (i = 0) as -> by lia. simplify_eq. unfold after_step. by rewrite decide_True.
  - destruct (decide (i = S j)) as [->|Hne].
    + simplify_eq. unfold after_step. by rewrite decide_True.
    + destruct (lookup_lt_is_Some_2 c j) as [a' Ha']; [apply lookup_lt_Some in Hb; lia|].
      rewrite (walk_up j a' b Ha' Hb); [apply IH; [done|lia..]|].
      intros Hbh. apply Hne, (chain_index_inj s c i (S j) a b Hc Ha Hb). congruence.
Qed.

Lemma walk_off j b fuel b0 :
  (∀ b, b ∈ c → hash b ≠ h) → c !! j = Some b → c !! 0 = Some b0 → j < fuel →
  loop fuel (after_step st h) (b, reverse (drop (S j) c)) =
    loop (fuel - j) (after_step st h) (b0, reverse (drop 1 c)).
Proof.
  intros Hh. revert b fuel. induction j as [|j IH]; intros b fuel Hb Hb0 Hf.
  - simplify_eq. by rewrite Nat.sub_0_r.
  - destruct fuel as [|fuel]; [lia|]. rewrite loop_unfold.
    destruct (lookup_lt_is_Some_2 c j) as [a Ha]; [apply lookup_lt_Some in Hb; lia|].
    rewrite (walk_up j a b Ha Hb) by (by eapply Hh, list_elem_of_lookup_2).
    apply IH; [done|done|lia].
Qed.

(** A walk that does not meet its start ends at the oldest block. *)
Lemma walk_all j b fuel b0 :
  (∀ b, b ∈ c → hash b ≠ h) → c !! j = Some b → c !! 0 = Some b0 → j < fuel →
  (parent_hash b0 = default_hash →
    loop fuel (after_step st h) (b, reverse (drop (S j) c)) = Ret (Ok (reverse c))) ∧
  (parent_hash b0 ≠ default_hash → ¬ known m (parent_hash b0) →
    loop fuel (after_step st h) (b, reverse (drop (S j) c)) = Ret (Err FailedToFindParentBlock)).
Proof.
  intros Hh Hb Hb0 Hf. rewrite (walk_off j b fuel b0) by done.
  destruct (fuel - j) as [|f] eqn:E; [lia|]. rewrite loop_unfold. unfold after_step at 1 3.
  rewrite decide_False by (by eapply Hh, list_elem_of_lookup_2).
  split.
  - intros Hp. rewrite decide_True by done. destruct c as [|b1 c']; [done|]. simpl in *. simplify_eq.
    by rewrite drop_0, reverse_cons.
  - intros Hp Hk. rewrite decide_False by done.
    rewrite (get_block_out st m (rp_blocks _ _ _ _ (si_rep _ _ Hi))); [done|].
    intros s' b' Hb' Heq. apply Hk. by exists s', b'.
Qed.

Lemma latest_spec : ∃ j b, length c = S j ∧ c !! j = Some b ∧ latest_block st s = Ok b.
Proof.
  destruct (represents_last _ _ _ _ _ _ (si_rep _ _ Hi) Hm) as (b & Hl & Hb & _ & _ & Hlb).
  rewrite last_lookup in Hl. exists (pred (length c)), b. split_and!; [|done|].
  - apply lookup_lt_Some in Hl. lia.
  - unfold latest_block, last_block_of_shard. rewrite Hlb. cbn [lb_hash mk_last].
    by rewrite (get_block_in st m (rp_blocks _ _ _ _ (si_rep _ _ Hi)) s) by (unfold chain; by rewrite Hm).
Qed.

Lemma start_known_yes : known m h → start_known (SB := SB) st h = Ok true.
Proof.
  intros (s' & b & Hb & <-). unfold start_known. case_decide; [done|].
  by rewrite (get_block_in st m (rp_blocks _ _ _ _ (si_rep _ _ Hi)) s').
Qed.

Lemma after_known i a fuel :
  c !! i = Some a → hash a = h → length c ≤ fuel →
  get_blocks_after fuel st h s = Ret (Ok (drop (S i) c)).
Proof.
  intros Ha Hh Hf. unfold get_blocks_after. rewrite start_known_yes.
  - destruct latest_spec as (j & b & Hlen & Hj & ->).
    pose proof (walk_to i a j b fuel Ha Hh Hj) as Hw. rewrite drop_ge, reverse_nil in Hw by lia.
    rewrite Hw by (apply lookup_lt_Some in Ha; lia). cbn. by rewrite reverse_involutive.
  - exists s, a. split; [|done]. unfold chain. rewrite Hm. by eapply list_elem_of_lookup_2.
Qed.

Lemma after_start b0 fuel :
  h = default_hash → c !! 0 = Some b0 → length c ≤ fuel →
  (parent_hash b0 = default_hash → get_blocks_after fuel st h s = Ret (Ok c)) ∧
  (parent_hash b0 ≠ default_hash → ¬ known m (parent_hash b0) →
    get_blocks_after (SB := SB) fuel st h s = Ret (Err FailedToFindParentBlock)).
Proof.
  intros Hh Hb0 Hf. unfold get_blocks_after, start_known. rewrite decide_True by done.
  destruct latest_spec as (j & b & Hlen & Hj & ->).
  destruct (walk_all j b fuel b0) as [Hw1 Hw2]; [|done|done|lia|].
  { intros b' Hb'. rewrite Hh. by apply (gc_hash _ Hg). }
  rewrite drop_ge, reverse_nil in Hw1, Hw2 by lia. split.
  - intros Hp. rewrite Hw1 by done. cbn. by rewrite reverse_involutive.
  - intros Hp Hk. by rewrite Hw2.
Qed.
End walk.

Lemma after_unknown fuel st m s h :
  storage_inv st m → h ≠ default_hash → ¬ known m h → get_blocks_after (SB := SB) fuel st h s = Ret (Ok []).
Proof.
  intros Hi Hne Hk. unfold get_blocks_after, start_known. rewrite decide_False by done.
  rewrite (get_block_out st m (rp_blocks _ _ _ _ (si_rep _ _ Hi))); [done|].
  intros s' b Hb Heq. apply Hk. by exists s', b.
Qed.

(** ** Ranges *)

Lemma take_while_all {A} (f : A → bool) l : Forall (λ x, f x = true) l → take_while f l = l.
Proof. induction 1 as [|x l Hx _ IH]; [done|]. simpl. by rewrite Hx, IH. Qed.

Lemma take_while_stop {A} (f : A → bool) l1 x l2 :
  Forall (λ x, f x = true) l1 → f x = false → take_while f (l1 ++ x :: l2) = l1.
Proof. intros Hl Hx. induction Hl as [|y l Hy _ IH]; simpl; [by rewrite Hx|]. by rewrite Hy, IH. Qed.

Lemma range_known st m s c i a h2 fuel :
  storage_inv st m → m !! s = Some c → good_chain c → c !! i = Some a → length c ≤ fuel →
  get_blocks_in_range fuel st (hash a) h2 s = Ret (Ok (take_while (λ b, bool_decide (hash b ≠ h2)) (drop (S i) c))).
Proof.
  intros Hi Hm Hg Ha Hf. unfold get_blocks_in_range.
  by rewrite (after_known st m s c (hash a) Hi Hm Hg i a) by done.
Qed.

Lemma range_between s c k j b :
  chain_ok s c → k ≤ j → c !! j = Some b →
  take_while (λ x, bool_decide (hash x ≠ hash b)) (drop k c) = take (j - k) (drop k c).
Proof.
  intros Hc Hkj Hb. assert (drop k c !! (j - k) = Some b) as Hd.
  { rewrite lookup_drop. by replace (k + (j - k)) with j by lia. }
  rewrite <-(take_drop_middle _ _ _ Hd) at 1. apply take_while_stop.
  - apply Forall_forall. intros x [n [Hn Hlt]%lookup_take_Some]%list_elem_of_lookup.
    apply bool_decide_eq_true. intros Hh. rewrite lookup_drop in Hn.
    pose proof (chain_index_inj s c _ _ _ _ Hc Hn Hb Hh). lia.
  - apply bool_decide_eq_false_2. intros Hne. by apply Hne.
Qed.
End fetch.
End StorageFetch.
