(* ===== verification/StorageProps.v ===== *)
(** The properties of the sidechain storage: histories of operations, pruning,
    fetching, loading, and what a failed write leaves behind. *)

From stdpp Require Import base gmap sets strings numbers list.
From S2P Require Import Prelude Collections PoolTypes SidechainDb SidechainStorage StorageInv.
Import Storage StorageInv StorageOps StorageFetch.

(** ** Histories *)

Inductive storage_op (SB : Type) :=
| OpStore (blocks : list SB)
| OpPurge (s : ShardIdentifier)
| OpPrune (s : ShardIdentifier) (n : BlockNumber)
| OpPruneAll (keep : BlockNumber)
| OpReload.
Arguments OpStore {SB} _.
Arguments OpPurge {SB} _.
Arguments OpPrune {SB} _ _.
Arguments OpPruneAll {SB} _.
Arguments OpReload {SB}.

Section history.
Context {Db SB : Type} `{RocksDb Db} `{SignedBlock SB}.
Context `{Encode DbKey} `{Encode (list ShardIdentifier)} `{Decode (list ShardIdentifier)}.
Context `{Encode LastSidechainBlock} `{Decode LastSidechainBlock}.
Context `{Encode BlockHash} `{Decode BlockHash} `{Encode SB}.
Context (dbg_shard : ShardIdentifier → string) (fuel : nat).

(** A storage that cannot be opened ends the service. *)
Definition run_storage_op (st : SidechainStorage Db) (op : storage_op SB) : outcome (SidechainStorage Db) :=
  match op with
  | OpStore bs => Ret (store_blocks st bs).1
  | OpPurge s => purge_shard dbg_shard fuel st s ≫= λ r, Ret r.1
  | OpPrune s n => prune_shard_from_block_number dbg_shard fuel st s n ≫= λ r, Ret r.1
  | OpPruneAll keep => prune_shards dbg_shard fuel st keep
  | OpReload => match load_from_base_path (Ok (db st)) with Ok st' => Ret st' | Err _ => Panic end
  end.

(** The same on chains. *)
Definition q_storage_op (m : gmap ShardIdentifier (list SB)) (op : storage_op SB) : gmap ShardIdentifier (list SB) :=
  match op with
  | OpStore bs => foldl q_store m bs
  | OpPurge s => delete s m
  | OpPrune s n => q_prune m s n
  | OpPruneAll keep => q_prune_all m keep
  | OpReload => m
  end.

Definition storage_op_ok (op : storage_op SB) : Prop :=
  match op with
  | OpStore bs => Forall block_ok bs
  | OpPruneAll keep => is_u64 keep
  | _ => True
  end.

Definition blocks_of (op : storage_op SB) : nat := match op with OpStore bs => length bs | _ => 0 end.
End history.

Section lengths.
Context {SB : Type} `{SignedBlock SB}.
Implicit Types (m : gmap ShardIdentifier (list SB)) (s : ShardIdentifier).

Lemma q_store_length m b s : length (chain (q_store m b) s) ≤ S (length (chain m s)).
Proof.
  unfold q_store, chain. destruct (m !! shard_id b) as [c|] eqn:Hm; [case_decide; [|lia]|];
    destruct (decide (s = shard_id b)) as [->|Hne];
    rewrite ?lookup_insert_eq, ?lookup_insert_ne, ?Hm by done; simpl; rewrite ?length_app; simpl; lia.
Qed.

Lemma q_stores_length m bs s : length (chain (foldl q_store m bs) s) ≤ length bs + length (chain m s).
Proof.
  revert m. induction bs as [|b bs IH]; intros m; simpl; [lia|].
  specialize (IH (q_store m b)). pose proof (q_store_length m b s). lia.
Qed.

Lemma q_storage_op_length m op s : length (chain (q_storage_op m op) s) ≤ blocks_of op + length (chain m s).
Proof.
  destruct op as [bs|s'|s' n|keep|]; simpl; [apply q_stores_length|..|lia].
  - unfold chain. destruct (decide (s = s')) as [->|?];
      [rewrite lookup_delete_eq; simpl; lia|by rewrite lookup_delete_ne].
  - unfold q_prune. case_decide; [|lia]. rewrite chain_set_chain. case_decide; [|lia]. subst.
    unfold newer_than. apply length_filter.
  - unfold chain, q_prune_all. rewrite lookup_omap. destruct (m !! s) as [c|]; simpl; [|lia].
    assert (length (newest keep c) ≤ length c) by (unfold newest; rewrite length_drop; lia).
    by destruct (newest keep c).
Qed.
End lengths.

Section storage_props.
Context {Db SB : Type} `{RocksDb Db} `{!ReliableDb Db} `{SignedBlock SB} `{!HeaderHash SB}.
Context `{Encode DbKey} `{!KeyCodec}.
Context `{Encode (list ShardIdentifier)} `{Decode (list ShardIdentifier)} `{!Codec (list ShardIdentifier)}.
Context `{Encode LastSidechainBlock} `{Decode LastSidechainBlock} `{!Codec LastSidechainBlock}.
Context `{Encode BlockHash} `{Decode BlockHash} `{!Codec BlockHash} `{Encode SB} `{Decode SB} `{!Codec SB}.
Implicit Types (st : SidechainStorage Db) (m : gmap ShardIdentifier (list SB)) (s : ShardIdentifier) (c : list SB).

Lemma storage_inv_empty (d : Db) :
  db_view d = ∅ → storage_inv (MkStorage d [] ∅) (∅ : gmap ShardIdentifier (list SB)).
Proof.
  intros Hv. split; simpl; rewrite Hv; [|by right].
  assert (∀ k, vlook ∅ k = None) as Hk by (intros k; apply lookup_empty).
  split; [constructor|..|split]; intros; rewrite ?Hk, ?lookup_empty in *; try done.
  - split; [by intros ?%elem_of_nil|by intros [??]].
  - split; [done|]. by intros (b & ?%elem_of_nil & _).
  - split; [done|]. by intros (s & b & ?%elem_of_nil & _).
Qed.

Lemma run_storage_op_spec dbg_shard fuel st m op :
  storage_inv st m → storage_op_ok op → (∀ s, length (chain m s) < fuel) →
  ∃ st', run_storage_op dbg_shard fuel st op = Ret st' ∧ storage_inv st' (q_storage_op m op).
Proof.
  intros Hi Hok Hf.
  assert (∀ s c, m !! s = Some c → length c < fuel) as Hf'.
  { intros s c Hm. specialize (Hf s). unfold chain in Hf. by rewrite Hm in Hf. }
  destruct op as [bs|s|s n|keep|]; cbn [run_storage_op q_storage_op].
  - destruct (store_blocks_spec st m bs Hi Hok) as (st' & -> & ?). eauto.
  - destruct (m !! s) as [c|] eqn:Hm.
    + destruct (StoragePrune.purge_spec dbg_shard fuel st m s c Hi Hm) as (st' & -> & ?);
        [specialize (Hf' _ _ Hm); lia|]. simpl. eauto.
    + rewrite (StoragePrune.purge_absent _ _ _ _ _ Hi Hm). simpl. rewrite delete_id by done. eauto.
  - destruct (m !! s) as [c|] eqn:Hm.
    + destruct (StoragePrune.prune_number_spec dbg_shard fuel st m s c n Hi Hm) as (st' & -> & ?); [by eauto|].
      simpl. eauto.
    + rewrite (StoragePrune.prune_absent _ _ _ _ _ _ Hi Hm). simpl. exists st. split; [done|].
      unfold q_prune, chain. rewrite Hm. by rewrite decide_False by apply not_elem_of_nil.
  - apply StoragePrune.prune_shards_spec; done.
  - rewrite (reload_spec _ _ Hi). eauto.
Qed.

Lemma run_storage_spec dbg_shard fuel ops st m :
  storage_inv st m → Forall storage_op_ok ops →
  (∀ s, length (chain m s) + sum_list (blocks_of <$> ops) < fuel) →
  ∃ st', for_each (run_storage_op dbg_shard fuel) st ops = Ret st' ∧ storage_inv st' (foldl q_storage_op m ops).
Proof.
  intros Hi Hok. revert st m Hi. induction Hok as [|op ops Hop Hok IH]; intros st m Hi Hf; [by exists st|].
  simpl in Hf. destruct (run_storage_op_spec dbg_shard fuel st m op Hi Hop) as (st1 & Heq & Hi1).
  { intros s. specialize (Hf s). lia. }
  rewrite (for_each_cons _ _ _ _ _ Heq). cbn [foldl]. apply IH; [done|].
  intros s. specialize (Hf s). pose proof (q_storage_op_length m op s). unfold fmap. lia.
Qed.

(** C5: from an empty database, any history of storing, purging, pruning and
    reopening runs to its end, and the storage it leaves is the map of chains
    that the same history produces when a block is appended to the chain of its
    shard if its number follows, and ignored otherwise.  Every block of a chain
    is found by hash and by number, and the last block of a shard is the last
    of its chain. *)
Theorem storage_history_refines dbg_shard fuel (d : Db) (ops : list (storage_op SB)) :
  db_view d = ∅ → Forall storage_op_ok ops → sum_list (blocks_of <$> ops) < fuel →
  let m := foldl q_storage_op ∅ ops in
  ∃ st0 st, load_from_base_path (Ok d) = Ok st0 ∧
    for_each (run_storage_op dbg_shard fuel) st0 ops = Ret st ∧ storage_inv st m ∧
    (∀ s, last_block_of_shard st s = mk_last <$> last (chain m s)) ∧
    ∀ s b, b ∈ chain m s → get_block st (hash b) = Ok (Some b) ∧
      get_block_hash st s (block_number b) = Ok (Some (hash b)).
Proof.
  intros Hd Hok Hf m. pose proof (storage_inv_empty d Hd) as Hi.
  destruct (run_storage_spec dbg_shard fuel ops _ _ Hi Hok) as (st & Heq & Hi'); [done|].
  exists (MkStorage d [] ∅), st. split_and!; [by apply (reload_spec _ _ Hi)|done|done|..].
  - intros s. unfold last_block_of_shard, chain, m. rewrite (rp_last _ _ _ _ (si_rep _ _ Hi')).
    by destruct (foldl q_storage_op ∅ ops !! s).
  - intros s b Hb. pose proof (rp_blocks _ _ _ _ (si_rep _ _ Hi')) as Hbs.
    split; [by eapply get_block_in|by eapply get_block_hash_in].
Qed.

(** [prune_shards] ends and leaves exactly the newest [keep] blocks of
    every shard; a shard with none left is gone.  This holds for every [u64],
    also when the subtraction that computes the threshold wraps around. *)
Theorem prune_shards_keeps_newest dbg_shard fuel st m keep :
  storage_inv st m → is_u64 keep → (∀ s c, m !! s = Some c → length c < fuel) →
  ∃ st', prune_shards dbg_shard fuel st keep = Ret st' ∧
    ∃ m', storage_inv st' m' ∧
      (∀ s, chain m' s = drop (length (chain m s) - Z.to_nat keep) (chain m s)) ∧
      (∀ s, s ∈ shards st' ↔ s ∈ shards st ∧ keep ≠ 0%Z).
Proof.
  intros Hi Hk Hf. destruct (StoragePrune.prune_shards_spec dbg_shard fuel st m keep Hi Hf Hk) as (st' & Heq & Hi').
  exists st'. split; [done|]. exists (q_prune_all m keep). split; [done|].
  assert (∀ s, q_prune_all m keep !! s = m !! s ≫= λ c, match newest keep c with [] => None | c' => Some c' end) as Hq.
  { intros s. apply lookup_omap. }
  split.
  - intros s. unfold chain. rewrite Hq. destruct (m !! s) as [c|]; [|done]. simpl. fold (newest keep c).
    by destruct (newest keep c).
  - intros s. rewrite (rp_dom _ _ _ _ (si_rep _ _ Hi')), (rp_dom _ _ _ _ (si_rep _ _ Hi)), Hq.
    destruct (m !! s) as [c|] eqn:Hm; simpl; [|split; [by intros [??]|by intros [[??] _]]].
    destruct (rp_chain _ _ _ _ (si_rep _ _ Hi) _ _ Hm) as [Hne _].
    assert (length (newest keep c) = length c - (length c - Z.to_nat keep)) as Hlen by apply length_drop.
    unfold is_u64 in Hk. destruct c as [|b c]; [done|]. simpl in Hlen.
    destruct (newest keep (b :: c)) eqn:E; simpl in Hlen.
    + split; [by intros [??]|]. intros [_ ?]. lia.
    + split; [|by eauto]. intros _. split; [by eauto|]. lia.
Qed.

(** [get_blocks_after] answers with exactly the blocks that follow the given
    one in the chain of the shard, oldest first; the default hash stands for the
    start of the chain.  An unknown hash gives no blocks and an unknown shard an
    error.  Once the oldest blocks are pruned, the walk from the start of the
    chain fails, although there are blocks to return. *)
Theorem get_blocks_after_exact fuel st m s c :
  storage_inv st m → m !! s = Some c → good_chain c → length c ≤ fuel →
  (∀ i b, c !! i = Some b → get_blocks_after fuel st (hash b) s = Ret (Ok (drop (S i) c))) ∧
  (∀ h, h ≠ default_hash → ¬ known m h → get_blocks_after (SB := SB) fuel st h s = Ret (Ok [])) ∧
  (∀ b, head c = Some b → parent_hash b = default_hash →
    get_blocks_after fuel st default_hash s = Ret (Ok c)) ∧
  (∀ b, head c = Some b → parent_hash b ≠ default_hash → ¬ known m (parent_hash b) →
    get_blocks_after (SB := SB) fuel st default_hash s = Ret (Err FailedToFindParentBlock)).
Proof.
  intros Hi Hm Hg Hf. split_and!.
  - intros i b Hb. by eapply after_known.
  - intros h Hne Hk. by eapply after_unknown.
  - intros b Hb. rewrite head_lookup in Hb. by eapply after_start.
  - intros b Hb. rewrite head_lookup in Hb. by eapply after_start.
Qed.

(** [get_blocks_in_range] answers with exactly the blocks strictly between
    the two given ones; when the upper bound does not come after the lower one
    it answers like [get_blocks_after]. *)
Theorem get_blocks_in_range_exact fuel st m s c i j a b :
  storage_inv st m → m !! s = Some c → good_chain c → length c ≤ fuel →
  c !! i = Some a → c !! j = Some b →
  get_blocks_in_range fuel st (hash a) (hash b) s =
    Ret (Ok (if decide (i < j) then take (j - S i) (drop (S i) c) else drop (S i) c)).
Proof.
  intros Hi Hm Hg Hf Ha Hb. pose proof (rp_chain _ _ _ _ (si_rep _ _ Hi) _ _ Hm) as Hc.
  rewrite (range_known st m s c i a) by done. do 2 f_equal. case_decide as Hij; [by eapply range_between|].
  apply take_while_all, Forall_forall. intros x [k Hk]%list_elem_of_lookup. rewrite lookup_drop in Hk.
  apply bool_decide_eq_true. intros Hh. pose proof (chain_index_inj s c _ _ _ _ Hc Hk Hb Hh). lia.
Qed.

(** opening the database again gives the storage that was closed: the list
    of shards and the last blocks in memory are those of the database. *)
Theorem storage_reload st m : storage_inv st m → load_from_base_path (Ok (db st)) = Ok st.
Proof. apply reload_spec. Qed.
End storage_props.

(** ** A sample: blocks that are their own headers, and a store in memory *)

Module StorageSample.

(** Parent hash, number and shard. *)
Definition Blk : Type := (N * Z * N).

#[export] Instance blk_block : SignedBlock Blk := {|
  hash b := Npos (countable.encode b);
  parent_hash b := b.1.1;
  block_number b := b.1.2;
  shard_id b := b.2;
|}.

#[export] Instance blk_header_hash : HeaderHash Blk.
Proof. split. intros b1 b2 [= ->%(inj countable.encode)]. done. Qed.

#[export] Instance enc_key : Encode DbKey := λ k,
  match k with
  | StoredShardsKey => [0]
  | LastBlockKey s => [1; s]
  | NumberKey s n => [2; s; Npos (countable.encode n)]
  | BlockKey h => [3; h]
  end%N.

#[export] Instance enc_key_codec : KeyCodec.
Proof. split. intros [] []; try done; intros [=]; simplify_eq; done. Qed.

#[export] Instance enc_shards : Encode (list ShardIdentifier) := λ l, l.
#[export] Instance dec_shards : Decode (list ShardIdentifier) := λ l, Ok l.
#[export] Instance codec_shards : Codec (list ShardIdentifier).
Proof. by split. Qed.

#[export] Instance enc_hash : Encode BlockHash := λ h, [h].
#[export] Instance dec_hash : Decode BlockHash := λ l, match l with [h] => Ok h | _ => Err "length"%string end.
#[export] Instance codec_hash : Codec BlockHash.
Proof. by split. Qed.

(** Any countable type in one word. *)
Definition word {A} `{Countable A} (a : A) : list N := [Npos (countable.encode a)].
Definition unword {A} `{Countable A} (l : list N) : result A string :=
  match l with
  | [Npos p] => match countable.decode p with Some a => Ok a | None => Err "value"%string end
  | _ => Err "length"%string
  end.

Lemma unword_word {A} `{Countable A} (a : A) : unword (word a) = Ok a.
Proof. unfold unword, word. by rewrite countable.decode_encode. Qed.

#[export] Instance enc_last : Encode LastSidechainBlock := λ lb, word (lb_hash lb, lb_number lb).
#[export] Instance dec_last : Decode LastSidechainBlock := λ l,
  match unword l with Ok (h, n) => Ok (MkLast h n) | Err e => Err e end.
#[export] Instance codec_last : Codec LastSidechainBlock.
Proof. split. intros []. unfold decode, dec_last, encode, enc_last. by rewrite unword_word. Qed.

#[export] Instance enc_blk : Encode Blk := word.
#[export] Instance dec_blk : Decode Blk := unword.
#[export] Instance codec_blk : Codec Blk.
Proof. split. intros b. apply (unword_word (A := Blk)). Qed.

Definition MemDb : Type := gmap (list N) (list N).
#[export] Instance mem_db : RocksDb MemDb := {|
  db_get d k := Ok (d !! k);
  db_write d b := (apply_batch d b, Ok tt);
|}.
#[export] Instance mem_reliable : ReliableDb MemDb.
Proof. refine {| db_view := λ d : MemDb, d |}; done. Defined.

(** A store whose next writes succeed or fail as the list says. *)
Definition FlakyDb : Type := MemDb * list bool.
#[export] Instance flaky_db : RocksDb FlakyDb := {|
  db_get d k := Ok (d.1 !! k);
  db_write d b :=
    match d.2 with
    | false :: l => ((d.1, l), Err "no space left"%string)
    | l => ((apply_batch d.1 b, tail l), Ok tt)
    end;
|}.

Definition dbg (s : ShardIdentifier) : string := "shard".

(** Three blocks of one shard, one of another. *)
Definition blk1 : Blk := (default_hash, 1%Z, 7%N).
Definition blk2 : Blk := (hash blk1, 2%Z, 7%N).
Definition blk3 : Blk := (hash blk2, 3%Z, 7%N).
Definition blkx : Blk := (default_hash, 5%Z, 8%N).
Definition blks : list Blk := [blk1; blk2; blk3].

Definition storage3 : SidechainStorage MemDb := (store_blocks (MkStorage ∅ [] ∅) blks).1.
Definition chains3 : gmap ShardIdentifier (list Blk) := {[7%N := blks]}.

Lemma storage3_inv : storage_inv storage3 chains3.
Proof.
  destruct (store_blocks_spec (Db := MemDb) (MkStorage ∅ [] ∅) ∅ blks) as (st & Heq & Hi).
  - by apply (storage_inv_empty (Db := MemDb) ∅).
  - repeat constructor; vm_compute; done.
  - unfold storage3. rewrite Heq. replace chains3 with (foldl q_store ∅ blks); [done|].
    unfold chains3, blks, blk3, blk2, blk1. by vm_compute.
Qed.

Lemma blks_good : good_chain blks.
Proof.
  split.
  - intros [|[|[|i]]] a b Ha Hb; simpl in *; simplify_eq; done.
  - intros b Hb. repeat (apply elem_of_cons in Hb as [->|Hb]; [by vm_compute|]). by apply elem_of_nil in Hb.
Qed.
End StorageSample.
Import StorageSample.

Lemma storage_history_refines_witness :
  ∃ st0 st, load_from_base_path (Ok (∅ : MemDb)) = Ok st0 ∧
    for_each (run_storage_op dbg 10) st0 [OpStore [blk1; blkx; blk2]; OpReload; OpPruneAll 1; OpPurge 8%N] = Ret st.
Proof.
  destruct (storage_history_refines (Db := MemDb) dbg 10 ∅
    [OpStore [blk1; blkx; blk2]; OpReload; OpPruneAll 1; OpPurge 8%N]) as (st0 & st & H0 & H1 & _).
  - done.
  - repeat constructor; vm_compute; done.
  - vm_compute; lia.
  - by exists st0, st.
Defined.

Lemma prune_shards_keeps_newest_witness :
  ∃ st', prune_shards dbg 10 storage3 2 = Ret st'.
Proof.
  destruct (prune_shards_keeps_newest dbg 10 storage3 chains3 2) as (st' & Heq & _).
  - apply storage3_inv.
  - by vm_compute.
  - unfold chains3. intros s c Hm. apply lookup_singleton_Some in Hm as [_ <-]. simpl. lia.
  - by exists st'.
Defined.

Lemma get_blocks_after_exact_witness :
  get_blocks_after 3 storage3 (hash blk1) 7%N = Ret (Ok [blk2; blk3]).
Proof.
  destruct (get_blocks_after_exact 3 storage3 chains3 7%N blks) as [Hk _].
  - apply storage3_inv.
  - done.
  - apply blks_good.
  - done.
  - exact (Hk 0 blk1 eq_refl).
Defined.

Lemma get_blocks_in_range_exact_witness :
  get_blocks_in_range 3 storage3 (hash blk1) (hash blk3) 7%N = Ret (Ok [blk2]).
Proof.
  apply (get_blocks_in_range_exact 3 storage3 chains3 7%N blks 0 2 blk1 blk3);
    [apply storage3_inv|done|apply blks_good|done..].
Defined.

Lemma storage_reload_witness : load_from_base_path (Ok (db storage3)) = Ok storage3.
Proof. apply (storage_reload storage3 chains3), storage3_inv. Defined.

(** when the write of a batch fails, the block counts as stored in memory
    but is not in the database; the next block is accepted on top of it, and
    from then on the blocks of the shard cannot be fetched. *)
Example failed_write_leaves_gap :
  let st0 : SidechainStorage FlakyDb := MkStorage (∅, [true; false; true]) [] ∅ in
  let '(st1, r1) := store_blocks st0 [blk1] in
  let '(st2, r2) := store_blocks st1 [blk2] in
  let '(st3, r3) := store_blocks st2 [blk3] in
  r1 = Ok tt ∧ r2 = Err (Operational "no space left"%string) ∧ r3 = Ok tt ∧
  get_blocks_after (SB := Blk) 10 st1 default_hash 7%N = Ret (Ok [blk1]) ∧
  get_blocks_after (SB := Blk) 10 st3 default_hash 7%N = Ret (Err FailedToFindParentBlock).
Proof. vm_compute. repeat split. Qed.
