(* ===== verification/Durations.v ===== *)
(** Durations ([std::time::Duration]) and the clock helpers of
    core-primitives/time-utils/src/lib.rs.  A duration is a number of
    nanoseconds; [as_millis] is a [u128], so it never wraps.  The clock itself is
    an input of the operations that read it. *)

From stdpp Require Import base numbers option.
From S2P Require Import Prelude.

Open Scope Z_scope.

Abbreviation Duration := Z.

Definition NANOS_PER_SEC : Z := 10 ^ 9.
Definition NANOS_PER_MILLI : Z := 10 ^ 6.

(** The seconds are a [u64]. *)
Definition duration_max : Duration := 2 ^ 64 * NANOS_PER_SEC - 1.
Definition is_duration (d : Duration) : Prop := 0 ≤ d ≤ duration_max.

Definition as_millis (d : Duration) : Z := d `div` NANOS_PER_MILLI.
Definition from_millis (ms : Z) : Duration := ms * NANOS_PER_MILLI.

(** [Duration + Duration] panics on overflow. *)
Definition duration_add (a b : Duration) : outcome Duration :=
  if a + b <=? duration_max then Ret (a + b) else Panic.

Definition checked_sub (a b : Duration) : option Duration :=
  if b <=? a then Some (a - b) else None.

(** [Duration::checked_div] divides seconds and nanoseconds one after the other. *)
Definition checked_div (d : Duration) (rhs : Z) : option Duration :=
  if rhs =? 0 then None else
  let secs := d `div` NANOS_PER_SEC in
  let nanos := d `mod` NANOS_PER_SEC in
  let extra_nanos := (secs `mod` rhs * NANOS_PER_SEC) `div` rhs in
  Some (secs `div` rhs * NANOS_PER_SEC + (nanos `div` rhs + extra_nanos)).

(** [now_as_millis] of a reading of the clock, truncated to [u64]. *)
Definition millis_u64 (now : Duration) : Z := u64_wrap (as_millis now).

Definition duration_difference (from to : Duration) : option Duration := checked_sub to from.

Lemma as_millis_from_millis ms : as_millis (from_millis ms) = ms.
Proof. unfold as_millis, from_millis, NANOS_PER_MILLI. by apply Z.div_mul. Qed.

Lemma as_millis_mono a b : a ≤ b → as_millis a ≤ as_millis b.
Proof. intros. by apply Z.div_le_mono. Qed.

Lemma checked_div_bound d rhs q :
  0 ≤ d → 0 < rhs → checked_div d rhs = Some q → 0 ≤ q ∧ rhs * q ≤ d ∧ d < rhs * (q + 2).
Proof.
  unfold checked_div, NANOS_PER_SEC. intros Hd Hr.
  destruct (Z.eqb_spec rhs 0) as [|_]; [lia|]. intros [= <-].
  pose proof (Z.div_mod d (10 ^ 9) ltac:(lia)) as Ed.
  pose proof (Z.mod_pos_bound d (10 ^ 9) ltac:(lia)) as Bn.
  pose proof (Z.div_pos d (10 ^ 9) ltac:(lia) ltac:(lia)) as Bs.
  set (s := d `div` 10 ^ 9) in *. set (n := d `mod` 10 ^ 9) in *.
  pose proof (Z.div_mod s rhs ltac:(lia)) as Es. pose proof (Z.mod_pos_bound s rhs Hr) as Bsm.
  pose proof (Z.div_mod n rhs ltac:(lia)) as En. pose proof (Z.mod_pos_bound n rhs Hr) as Bnm.
  pose proof (Z.div_pos s rhs ltac:(lia) Hr). pose proof (Z.div_pos n rhs ltac:(lia) Hr).
  set (c := s `mod` rhs) in *.
  pose proof (Z.div_mod (c * 10 ^ 9) rhs ltac:(lia)) as Ec.
  pose proof (Z.mod_pos_bound (c * 10 ^ 9) rhs Hr) as Bcm.
  pose proof (Z.div_pos (c * 10 ^ 9) rhs ltac:(lia) Hr). nia.
Qed.

Lemma checked_div_is_Some d rhs : 0 < rhs → is_Some (checked_div d rhs).
Proof. intros. unfold checked_div. destruct (Z.eqb_spec rhs 0); [lia|]. eauto. Qed.

Lemma checked_sub_Some a b d : checked_sub a b = Some d ↔ b ≤ a ∧ d = a - b.
Proof. unfold checked_sub. destruct (Z.leb_spec b a); naive_solver lia. Qed.

(** [Duration::mul_f32] of the standard library: the arithmetic of [f32], with its
    rounding to the nearest even, on non-negative numbers.

    An [f32] value is a multiple of [2 ^ -149], the smallest positive one; it is
    represented by the factor.  Durations stay far below the largest value. *)

Open Scope Z_scope.

Definition F32_UNIT : Z := 2 ^ 149.

(** The integer nearest to [n / d], the even one of two. *)
Definition round_half_even (n d : Z) : Z :=
  let q := n `div` d in
  let r := n `mod` d in
  if 2 * r <? d then q
  else if d <? 2 * r then q + 1
  else if Z.even q then q else q + 1.

(** The value nearest to [n / d] with a mantissa of 24 bits. *)
Definition round_f32 (n d : Z) : Z :=
  let k := Z.max 0 (Z.log2 (n `div` d) - 23) in
  round_half_even n (d * 2 ^ k) * 2 ^ k.

Definition f32_of_Z (x : Z) : Z := round_f32 (x * F32_UNIT) 1.
Definition f32_add (a b : Z) : Z := round_f32 (a + b) 1.
Definition f32_mul (a b : Z) : Z := round_f32 (a * b) F32_UNIT.
Definition f32_div (a b : Z) : Z := round_f32 (a * F32_UNIT) b.

Definition as_secs_f32 (d : Duration) : Z :=
  f32_add (f32_of_Z (d `div` NANOS_PER_SEC)) (f32_div (f32_of_Z (d `mod` NANOS_PER_SEC)) (f32_of_Z NANOS_PER_SEC)).

(** The nearest number of nanoseconds. *)
Definition from_secs_f32 (x : Z) : Duration := round_half_even (x * NANOS_PER_SEC) F32_UNIT.

Definition mul_f32 (d : Duration) (rhs : Z) : Duration := from_secs_f32 (f32_mul rhs (as_secs_f32 d)).

(** The literal [0.7]. *)
Definition F32_0_7 : Z := round_f32 (7 * F32_UNIT) 10.

(** ** Bounds *)

Lemma round_half_even_bound n d :
  0 < d → 2 * n - d ≤ 2 * (round_half_even n d * d) ≤ 2 * n + d.
Proof.
  intros Hd. unfold round_half_even. pose proof (Z.div_mod n d ltac:(lia)) as E.
  pose proof (Z.mod_pos_bound n d Hd) as B. set (q := n `div` d) in *. set (r := n `mod` d) in *.
  destruct (Z.ltb_spec (2 * r) d); [nia|]. destruct (Z.ltb_spec d (2 * r)); [nia|]. destruct (Z.even q); nia.
Qed.

(** Half a unit of the last of 24 bits, or of the smallest value. *)
Lemma round_f32_bound n d :
  0 ≤ n → 0 < d →
  n * (2 ^ 24 - 1) - d * 2 ^ 23 ≤ round_f32 n d * d * 2 ^ 24 ≤ n * (2 ^ 24 + 1) + d * 2 ^ 23.
Proof.
  intros Hn Hd. unfold round_f32. set (k := Z.max 0 (Z.log2 (n `div` d) - 23)).
  assert (0 ≤ k) as Hk by lia. pose proof (Z.pow_pos_nonneg 2 k ltac:(lia) Hk) as Hp.
  pose proof (round_half_even_bound n (d * 2 ^ k) ltac:(nia)) as B. set (q := round_half_even n (d * 2 ^ k)) in *.
  replace (q * 2 ^ k * d) with (q * (d * 2 ^ k)) by lia.
  destruct (decide (k = 0)) as [E|Hk0].
  - rewrite E in *. change (2 ^ 0) with 1 in *. lia.
  - assert (d * 2 ^ k * 2 ^ 23 ≤ n) as Hlow.
    { assert (0 < n `div` d) as Hq by (destruct (Z.le_gt_cases (n `div` d) 0) as [Hle|]; [|done];
        pose proof (Z.log2_nonpos _ Hle); lia).
      destruct (Z.log2_spec (n `div` d) Hq) as [Hs _]. pose proof (Z.mul_div_le n d Hd) as Hm.
      replace (Z.log2 (n `div` d)) with (k + 23) in Hs by lia. rewrite Z.pow_add_r in Hs by lia. nia. }
    lia.
Qed.

Lemma round_f32_nonneg n d : 0 ≤ n → 0 < d → 0 ≤ round_f32 n d.
Proof.
  intros Hn Hd. unfold round_f32. set (k := Z.max 0 _). pose proof (Z.pow_pos_nonneg 2 k ltac:(lia) ltac:(lia)) as Hp.
  apply Z.mul_nonneg_nonneg; [|lia]. unfold round_half_even.
  pose proof (Z.div_pos n (d * 2 ^ k) Hn ltac:(nia)). repeat case_match; lia.
Qed.

Lemma f32_0_7_value : F32_0_7 = 11744051 * 2 ^ 125.
Proof. by vm_compute. Qed.

Lemma f32_nanos_per_sec : f32_of_Z NANOS_PER_SEC = NANOS_PER_SEC * F32_UNIT.
Proof. by vm_compute. Qed.

(** Seven tenths of a duration, up to half a nanosecond and a millionth. *)
Lemma mul_f32_0_7_bound d :
  0 ≤ d → 6999990 * d - 5000010 ≤ 10000000 * mul_f32 d F32_0_7 ≤ 7000010 * d + 5000010.
Proof.
  intros Hd. unfold mul_f32, from_secs_f32, f32_mul, as_secs_f32, f32_add, f32_div. rewrite f32_0_7_value, f32_nanos_per_sec.
  pose proof (Z.div_mod d NANOS_PER_SEC ltac:(done)) as E. pose proof (Z.mod_pos_bound d NANOS_PER_SEC ltac:(done)) as Bn.
  pose proof (Z.div_pos d NANOS_PER_SEC Hd ltac:(done)) as Bs. unfold f32_of_Z.
  set (s := d `div` NANOS_PER_SEC) in *. set (n := d `mod` NANOS_PER_SEC) in *.
  change F32_UNIT with (2 ^ 149) in *. change NANOS_PER_SEC with 1000000000 in *.
  pose proof (round_f32_bound (s * 2 ^ 149) 1 ltac:(lia) ltac:(lia)) as B1.
  pose proof (round_f32_nonneg (s * 2 ^ 149) 1 ltac:(lia) ltac:(lia)) as N1. set (a1 := round_f32 (s * 2 ^ 149) 1) in *.
  pose proof (round_f32_bound (n * 2 ^ 149) 1 ltac:(lia) ltac:(lia)) as B2.
  pose proof (round_f32_nonneg (n * 2 ^ 149) 1 ltac:(lia) ltac:(lia)) as N2. set (a2 := round_f32 (n * 2 ^ 149) 1) in *.
  pose proof (round_f32_bound (a2 * 2 ^ 149) (1000000000 * 2 ^ 149) ltac:(lia) ltac:(lia)) as B3.
  pose proof (round_f32_nonneg (a2 * 2 ^ 149) (1000000000 * 2 ^ 149) ltac:(lia) ltac:(lia)) as N3.
  set (a3 := round_f32 (a2 * 2 ^ 149) (1000000000 * 2 ^ 149)) in *.
  pose proof (round_f32_bound (a1 + a3) 1 ltac:(lia) ltac:(lia)) as B4.
  pose proof (round_f32_nonneg (a1 + a3) 1 ltac:(lia) ltac:(lia)) as N4. set (a4 := round_f32 (a1 + a3) 1) in *.
  pose proof (round_f32_bound (11744051 * 2 ^ 125 * a4) (2 ^ 149) ltac:(lia) ltac:(lia)) as B5.
  set (a5 := round_f32 (11744051 * 2 ^ 125 * a4) (2 ^ 149)) in *.
  pose proof (round_half_even_bound (a5 * 1000000000) (2 ^ 149) ltac:(lia)) as B6.
  set (r := round_half_even (a5 * 1000000000) (2 ^ 149)) in *. clearbody a1 a2 a3 a4 a5 r s n. lia.
Qed.
