(* ===== verification/Externalities.v ===== *)
(** [BTreeMap<Vec<u8>, V>]: a finite map that is iterated in the lexicographic
    order of its keys, with the range queries the externalities use. *)

From stdpp Require Import base gmap fin_maps numbers relations sorting list.
From S2P Require Import Prelude Collections SidechainDb.

(** [Vec<u8>]. *)
Abbreviation Bytes := (list N) (only parsing).

(** [Ord] of byte slices. *)
Fixpoint bytes_leb (a b : Bytes) : bool :=
  match a, b with
  | [], _ => true
  | _ :: _, [] => false
  | x :: a', y :: b' => (x <? y)%N || ((x =? y)%N && bytes_leb a' b')
  end.

Definition bytes_le (a b : Bytes) : Prop := bytes_leb a b = true.

(** [slice::starts_with]. *)
Fixpoint starts_with (k p : Bytes) {struct p} : bool :=
  match p, k with
  | [], _ => true
  | _ :: _, [] => false
  | y :: p', x :: k' => (x =? y)%N && starts_with k' p'
  end.

#[export] Instance bytes_le_dec : RelDecision bytes_le.
Proof. intros a b. unfold bytes_le. apply _. Defined.

Lemma bytes_le_cons x a y b :
  bytes_le (x :: a) (y :: b) ↔ (x < y)%N ∨ x = y ∧ bytes_le a b.
Proof.
  unfold bytes_le. simpl. rewrite orb_true_iff, andb_true_iff, N.ltb_lt, N.eqb_eq. done.
Qed.

#[export] Instance bytes_le_total : Total bytes_le.
Proof.
  intros a. induction a as [|x a IH]; intros [|y b]; [by left..|by right|].
  rewrite !bytes_le_cons. destruct (N.lt_trichotomy x y) as [|[->|]]; [by do 2 left| |by right; left].
  destruct (IH b); [left|right]; by right.
Qed.

#[export] Instance bytes_le_trans : Transitive bytes_le.
Proof.
  intros a. induction a as [|x a IH]; intros [|y b] [|z c]; try done.
  rewrite !bytes_le_cons. intros [?|[-> ?]] [?|[-> ?]]; [left; lia|by left..|right; eauto].
Qed.

#[export] Instance bytes_le_antisymm : AntiSymm (=) bytes_le.
Proof.
  intros a. induction a as [|x a IH]; intros [|y b]; try done.
  rewrite !bytes_le_cons. intros [?|[-> ?]] [?|[? ?]]; [lia..|]. f_equal. by apply IH.
Qed.

Lemma starts_with_le k p : starts_with k p = true → bytes_le p k.
Proof.
  revert k. induction p as [|y p IH]; intros [|x k]; simpl; try done.
  rewrite andb_true_iff, N.eqb_eq. intros [-> ?]. apply bytes_le_cons. auto.
Qed.

(** The keys with a prefix lie next to each other. *)
Lemma starts_with_between p a b :
  bytes_le p a → bytes_le a b → starts_with b p = true → starts_with a p = true.
Proof.
  revert a b. induction p as [|y p IH]; intros a b; [done|].
  destruct a as [|x a]; [done|]. destruct b as [|z b]; [done|]. simpl.
  rewrite !bytes_le_cons, !andb_true_iff, !N.eqb_eq.
  intros Hpa Hab [-> Hb]. destruct Hpa as [?|[? Hpa]], Hab as [?|[? Hab]]; [lia..|].
  split; [done|]. by apply (IH a b).
Qed.

Section btree.
Context {V : Type}.
Implicit Types (m : gmap Bytes V) (p k : Bytes).

Definition key_le (x y : Bytes * V) : Prop := bytes_le x.1 y.1.

#[export] Instance key_le_dec : RelDecision key_le.
Proof. intros x y. unfold key_le. apply _. Defined.
#[export] Instance key_le_total : Total key_le.
Proof. intros x y. apply bytes_le_total. Qed.
#[export] Instance key_le_trans : Transitive key_le.
Proof. intros x y z. apply bytes_le_trans. Qed.

(** [BTreeMap::iter]. *)
Definition btree_iter m : list (Bytes * V) := merge_sort key_le (map_to_list m).

(** [BTreeMap::range] from a key on, and after a key. *)
Definition range_from m p : list (Bytes * V) := filter (λ x, bytes_le p x.1) (btree_iter m).
Definition range_after m p : list (Bytes * V) := filter (λ x, ¬ bytes_le x.1 p) (btree_iter m).

Lemma btree_iter_perm m : btree_iter m ≡ₚ map_to_list m.
Proof. apply merge_sort_Permutation. Qed.

Lemma btree_iter_sorted m : StronglySorted key_le (btree_iter m).
Proof. apply StronglySorted_merge_sort; apply _. Qed.

Lemma elem_of_btree_iter m k v : (k, v) ∈ btree_iter m ↔ m !! k = Some v.
Proof. by rewrite btree_iter_perm, elem_of_map_to_list. Qed.

Lemma NoDup_btree_keys m : NoDup (btree_iter m).*1.
Proof. rewrite btree_iter_perm. apply NoDup_fst_map_to_list. Qed.

Lemma StronglySorted_filter_list {A} (R : A → A → Prop) (P : A → Prop) `{!∀ x, Decision (P x)} l :
  StronglySorted R l → StronglySorted R (filter P l).
Proof.
  induction 1 as [|x l Hs IH Hx]; [constructor|]. rewrite filter_cons. case_decide; [|done].
  constructor; [done|]. rewrite Forall_forall in Hx |- *. intros y [_ Hy]%list_elem_of_filter. by apply Hx.
Qed.

(** On a sorted range the keys with the prefix come first. *)
Lemma take_while_prefix p (l : list (Bytes * V)) :
  StronglySorted key_le l → Forall (λ x, bytes_le p x.1) l →
  take_while (λ x, starts_with x.1 p) l = filter (λ x, starts_with x.1 p = true) l.
Proof.
  induction 1 as [|x l Hs IH Hx]; intros Hp; [done|]. simpl. rewrite filter_cons.
  inversion Hp as [|? ? Hpx Hpl]; subst.
  destruct (starts_with x.1 p) eqn:Hst; [rewrite decide_True by done; by rewrite IH|].
  rewrite decide_False by done. symmetry. apply elem_of_nil_inv. intros y [Hy Hin]%list_elem_of_filter.
  rewrite Forall_forall in Hx. specialize (Hx y Hin).
  rewrite (starts_with_between p x.1 y.1 Hpx Hx Hy) in Hst. done.
Qed.

Lemma range_from_prefix m p :
  take_while (λ x, starts_with x.1 p) (range_from m p) =
  filter (λ x, starts_with x.1 p = true) (btree_iter m).
Proof.
  unfold range_from. rewrite take_while_prefix.
  - rewrite list_filter_filter. apply list_filter_iff. intros x. split; [by intros []|].
    intros Hs. split; [done|]. by apply starts_with_le.
  - apply StronglySorted_filter_list, btree_iter_sorted.
  - apply Forall_forall. intros x [??]%list_elem_of_filter. done.
Qed.

(** The first key of a range is the least one of the map after the given key. *)
Lemma range_after_head m p :
  match head (range_after m p) with
  | Some (k, v) => m !! k = Some v ∧ ¬ bytes_le k p ∧
      ∀ k', is_Some (m !! k') → ¬ bytes_le k' p → bytes_le k k'
  | None => ∀ k', is_Some (m !! k') → bytes_le k' p
  end.
Proof.
  assert (∀ k v, (k, v) ∈ range_after m p ↔ m !! k = Some v ∧ ¬ bytes_le k p) as Hin.
  { intros k v. unfold range_after. rewrite list_elem_of_filter, elem_of_btree_iter. naive_solver. }
  pose proof (StronglySorted_filter_list key_le (λ x, ¬ bytes_le x.1 p) _ (btree_iter_sorted m)) as Hs.
  fold (range_after m p) in Hs. destruct (range_after m p) as [|[k v] l]; simpl.
  - intros k' [v' Hk']. destruct (decide (bytes_le k' p)) as [|Hn]; [done|].
    pose proof (proj2 (Hin k' v') (conj Hk' Hn)) as Hno. by apply elem_of_nil in Hno.
  - destruct (proj1 (Hin k v) ltac:(by left)) as [Hk Hn]. split_and!; [done..|].
    intros k' [v' Hk'] Hn'. apply StronglySorted_inv in Hs as [_ Hall].
    destruct (proj1 (elem_of_cons _ _ _) (proj2 (Hin k' v') (conj Hk' Hn'))) as [[= -> ->]|Hl].
    + destruct (bytes_le_total k k); done.
    + rewrite Forall_forall in Hall. apply (Hall _ Hl).
Qed.
End btree.

(** The state of a shard as the runtime sees it
    (core-primitives/substrate-sgx/externalities/src/lib.rs) and the storage
    functions of the runtime interface that work on it
    (core-primitives/substrate-sgx/sp-io/src/lib.rs, module [storage]).

    The environment that passes the externalities to the storage functions is
    the argument [ext]: every storage function runs inside [execute_with].  The
    encoding of the state, its hash and [EncodeAppend] are parameters. *)

Open Scope worker_scope.

Abbreviation InternalMap V := (gmap Bytes V).
Abbreviation SgxExternalitiesType := (gmap Bytes Bytes).
Abbreviation SgxExternalitiesDiffType := (gmap Bytes (option Bytes)).

(** [EncodeAppend::append_or_new] for one more item, and the encoding of a
    vector with one item. *)
Class EncodeAppend := {
  append_or_new : Bytes → Bytes → option Bytes;
  encode_single : Bytes → Bytes;
}.

Definition u32_wrap (z : Z) : Z := z `mod` 2 ^ 32.

Module Ext.

Record SgxExternalities := MkExt {
  state : SgxExternalitiesType;
  state_diff : SgxExternalitiesDiffType;
}.

#[export] Instance externalities_eq_dec : EqDecision SgxExternalities.
Proof. solve_decision. Defined.

Definition default_externalities : SgxExternalities := MkExt ∅ ∅.

Section externalities.
Context `{Encode SgxExternalitiesType} `{Blake2} `{EncodeAppend}.
Implicit Types (ext : SgxExternalities) (k v : Bytes).

Definition hash ext : N := blake2_256 (encode (state ext)).

Definition new (st : SgxExternalitiesType) : SgxExternalities := MkExt st ∅.

Definition insert ext k v : SgxExternalities * option Bytes :=
  (MkExt (<[k := v]> (state ext)) (<[k := Some v]> (state_diff ext)), state ext !! k).

(** [StorageAppend::append] on the current value of the item. *)
Definition storage_append (current value : Bytes) : Bytes :=
  match append_or_new current value with
  | Some item => item
  | None => encode_single value
  end.

Definition append ext k v : SgxExternalities :=
  let updated_value := storage_append (default [] (state ext !! k)) v in
  MkExt (<[k := updated_value]> (state ext)) (<[k := Some updated_value]> (state_diff ext)).

Definition remove ext k : SgxExternalities * option Bytes :=
  (MkExt (delete k (state ext)) (<[k := None]> (state_diff ext)), state ext !! k).

Definition get ext k : option Bytes := state ext !! k.

Definition contains_key ext k : bool := bool_decide (is_Some (state ext !! k)).

Definition next_storage_key ext k : option Bytes := fst <$> head (range_after (state ext) k).

Definition prune_state_diff ext : SgxExternalities := MkExt (state ext) ∅.

(** The limit is ignored. *)
Definition clear_prefix ext (key_prefix : Bytes) (_maybe_limit : option Z) : SgxExternalities * Z :=
  let to_remove :=
    (take_while (λ x, starts_with x.1 key_prefix) (range_from (state ext) key_prefix)).*1 in
  (foldl (λ e key, (remove e key).1) ext to_remove, u32_wrap (Z.of_nat (length to_remove))).
End externalities.
End Ext.

(** [KillStorageResult]. *)
Inductive KillStorageResult :=
| AllRemoved (n : Z)
| SomeRemaining (n : Z).

(** The storage functions. *)
Module SpIo.
Import Ext(SgxExternalities).
Section storage.
Context `{EncodeAppend}.
Implicit Types (ext : SgxExternalities) (key value : Bytes).

Definition get ext key : option Bytes := Ext.get ext key.

(** The part of [value_out] that is written, and the length that is returned;
    an offset beyond the value is an index out of range. *)
Definition read ext key (out_len value_offset : Z) : outcome (option (Bytes * Z)) :=
  match Ext.get ext key with
  | None => Ret None
  | Some value =>
      if Z.of_nat (length value) <? value_offset then Panic else
      let value := drop (Z.to_nat value_offset) value in
      let written := Z.min (Z.of_nat (length value)) out_len in
      Ret (Some (take (Z.to_nat written) value, Z.min (Z.of_nat (length value)) (2 ^ 32 - 1)))
  end%Z.

Definition set ext key value : SgxExternalities := (Ext.insert ext key value).1.

Definition clear ext key : SgxExternalities := (Ext.remove ext key).1.

Definition exists_key ext key : bool := Ext.contains_key ext key.

Definition clear_prefix ext (prefix : Bytes) (maybe_limit : option Z) : SgxExternalities * KillStorageResult :=
  let '(ext, number_of_removed_values) := Ext.clear_prefix ext prefix maybe_limit in
  (ext, AllRemoved number_of_removed_values).

Definition append ext key value : SgxExternalities := Ext.append ext key value.

Definition next_key ext key : option Bytes := Ext.next_storage_key ext key.

(** Storage transactions are not implemented. *)
Definition start_transaction ext : SgxExternalities := ext.
Definition rollback_transaction ext : SgxExternalities := ext.
Definition commit_transaction ext : SgxExternalities := ext.
End storage.
End SpIo.

(** ** What the diff records *)

Module ExtInv.
Import Ext.

(** The state that a diff leads to. *)
Definition apply_diff (d : SgxExternalitiesDiffType) (m : SgxExternalitiesType) : SgxExternalitiesType :=
  merge (λ od ov, match od with Some o => o | None => ov end) d m.

(** The diff leads from [base] to the state. *)
Definition tracks (base : SgxExternalitiesType) (ext : SgxExternalities) : Prop :=
  state ext = apply_diff (state_diff ext) base.

(** The storage operations. *)
Inductive storage_op :=
| OpSet (k v : Bytes)
| OpClear (k : Bytes)
| OpAppend (k v : Bytes)
| OpClearPrefix (p : Bytes).

Section ext_inv.
Context `{Encode SgxExternalitiesType} `{Blake2} `{EncodeAppend}.
Implicit Types (ext : SgxExternalities) (k v p : Bytes).

Definition run_op ext (op : storage_op) : SgxExternalities :=
  match op with
  | OpSet k v => SpIo.set ext k v
  | OpClear k => SpIo.clear ext k
  | OpAppend k v => SpIo.append ext k v
  | OpClearPrefix p => (SpIo.clear_prefix ext p None).1
  end.

Definition run_ops ext (ops : list storage_op) : SgxExternalities := foldl run_op ext ops.

(** [ext'] comes from [ext] by storage operations. *)
Definition reaches ext ext' : Prop := rtc (λ e e', ∃ op, e' = run_op e op) ext ext'.

Lemma lookup_apply_diff (d : SgxExternalitiesDiffType) (m : SgxExternalitiesType) k :
  apply_diff d m !! k = match d !! k with Some o => o | None => m !! k end.
Proof. unfold apply_diff. rewrite lookup_merge. by destruct (d !! k), (m !! k). Qed.

Lemma apply_diff_empty (m : SgxExternalitiesType) : apply_diff ∅ m = m.
Proof. apply map_eq. intros k. by rewrite lookup_apply_diff, lookup_empty. Qed.

Lemma apply_diff_insert (d : SgxExternalitiesDiffType) (m : SgxExternalitiesType) k (o : option Bytes) :
  apply_diff (<[k := o]> d) m = partial_alter (λ _, o) k (apply_diff d m).
Proof.
  apply map_eq. intros k'. rewrite lookup_apply_diff, lookup_insert. case_decide as Hk.
  - subst. by rewrite lookup_partial_alter_eq.
  - by rewrite lookup_partial_alter_ne, lookup_apply_diff.
Qed.

Lemma tracks_refl ext : state_diff ext = ∅ → tracks (state ext) ext.
Proof. unfold tracks. intros ->. by rewrite apply_diff_empty. Qed.

Lemma tracks_set base ext k v : tracks base ext → tracks base (SpIo.set ext k v).
Proof. unfold tracks. simpl. intros ->. by rewrite apply_diff_insert. Qed.

Lemma tracks_clear base ext k : tracks base ext → tracks base (SpIo.clear ext k).
Proof. unfold tracks. simpl. intros ->. by rewrite apply_diff_insert. Qed.

Lemma tracks_append base ext k v : tracks base ext → tracks base (SpIo.append ext k v).
Proof. unfold tracks. simpl. intros ->. by rewrite apply_diff_insert. Qed.

(** A removal of many keys is that many removals. *)
Lemma clear_prefix_foldl ext p limit :
  (Ext.clear_prefix ext p limit).1 =
  foldl SpIo.clear ext (take_while (λ x, starts_with x.1 p) (range_from (state ext) p)).*1.
Proof. done. Qed.

Lemma foldl_clear_state ext ks :
  state (foldl SpIo.clear ext ks) = filter (λ x, x.1 ∉ ks) (state ext).
Proof.
  revert ext. induction ks as [|k ks IH]; intros ext; simpl.
  - symmetry. apply map_filter_id. intros ???. apply not_elem_of_nil.
  - rewrite IH. simpl. apply map_eq. intros k'. rewrite !map_lookup_filter, lookup_delete.
    case_decide as Hk; [subst|].
    + destruct (state ext !! k'); simpl; [|done]. rewrite option_guard_False by set_solver. done.
    + destruct (state ext !! k'); simpl; [|done]. destruct (decide (k' ∉ ks)).
      * rewrite !option_guard_True by set_solver. done.
      * rewrite !option_guard_False by set_solver. done.
Qed.

Lemma clear_prefix_state ext p limit :
  state (Ext.clear_prefix ext p limit).1 = filter (λ x, starts_with x.1 p = false) (state ext).
Proof.
  rewrite clear_prefix_foldl, foldl_clear_state, range_from_prefix.
  apply map_eq. intros k. rewrite !map_lookup_filter. destruct (state ext !! k) as [v|] eqn:Hk; [simpl|done].
  assert (k ∉ (filter (λ x, starts_with x.1 p = true) (btree_iter (state ext))).*1 ↔ starts_with k p = false) as Hiff.
  { rewrite <-not_true_iff_false. apply not_iff_compat. rewrite list_elem_of_fmap. split.
    - intros ([k' v'] & -> & [? _]%list_elem_of_filter). done.
    - intros Hs. exists (k, v). by rewrite list_elem_of_filter, elem_of_btree_iter. }
  destruct (decide (starts_with k p = false)) as [Hd|Hd].
  - rewrite !option_guard_True by tauto. done.
  - rewrite !option_guard_False by tauto. done.
Qed.

Lemma tracks_run_op base ext op : tracks base ext → tracks base (run_op ext op).
Proof.
  destruct op as [k v|k|k v|p]; simpl; [apply tracks_set|apply tracks_clear|apply tracks_append|].
  intros Ht. change (tracks base (Ext.clear_prefix ext p None).1). rewrite clear_prefix_foldl.
  generalize (take_while (λ x, starts_with x.1 p) (range_from (state ext) p)).*1.
  intros ks. revert ext Ht. induction ks as [|k ks IH]; intros ext Ht; simpl; [done|].
  apply IH. by apply tracks_clear.
Qed.

Lemma tracks_run_ops base ext ops : tracks base ext → tracks base (run_ops ext ops).
Proof. revert ext. induction ops as [|op ops IH]; intros ext Ht; simpl; [done|]. by apply IH, tracks_run_op. Qed.

Lemma reaches_run_ops ext ext' : reaches ext ext' ↔ ∃ ops, ext' = run_ops ext ops.
Proof.
  split.
  - induction 1 as [|e e1 e2 [op ->] _ [ops ->]]; [by exists []|]. by exists (op :: ops).
  - intros [ops ->]. revert ext. induction ops as [|op ops IH]; intros ext; simpl; [constructor|].
    eapply rtc_l; [by eexists|apply IH].
Qed.

Lemma tracks_reaches base ext ext' : tracks base ext → reaches ext ext' → tracks base ext'.
Proof. intros Ht [ops ->]%reaches_run_ops. by apply tracks_run_ops. Qed.

Lemma reaches_refl ext : reaches ext ext.
Proof. constructor. Qed.

Lemma reaches_trans ext1 ext2 ext3 : reaches ext1 ext2 → reaches ext2 ext3 → reaches ext1 ext3.
Proof. unfold reaches. intros ??. by etrans. Qed.

Lemma reaches_op ext op : reaches ext (run_op ext op).
Proof. apply rtc_once. by exists op. Qed.

Lemma state_hash_inj `{!Decode SgxExternalitiesType} `{!Codec SgxExternalitiesType} `{!CollisionFree} ext1 ext2 :
  hash ext1 = hash ext2 → state ext1 = state ext2.
Proof. unfold hash. intros Hh%blake2_inj. by apply encode_inj. Qed.
End ext_inv.
End ExtInv.
