(* ===== verification/SidechainState.v ===== *)
(** The state of the sidechain (src/sidechain/state/src/{lib,impls,error}.rs):
    state updates, values stored under a name, and the last block and system
    values that are kept in the state itself. *)

From stdpp Require Import base gmap fin_maps numbers strings list.
From S2P Require Import Prelude Collections Externalities SidechainDb.

Import Ext(SgxExternalities).
Open Scope worker_scope.

(** [twox_128] of substrate, third-party code. *)
Class Twox := twox_128 : string → Bytes.

(** itp_storage::keys. *)
Definition storage_value_key `{Twox} (module_prefix storage_prefix : string) : Bytes :=
  twox_128 module_prefix ++ twox_128 storage_prefix.

(** [StateUpdate]. *)
Record StateUpdate := MkStateUpdate {
  state_hash_apriori : N;
  state_hash_aposteriori : N;
  state_update : SgxExternalitiesDiffType;
}.

(** The errors of the sidechain state. *)
Inductive StateError :=
| InvalidAprioriHash
| InvalidStorageDiff
| DB (error module_prefix storage_prefix : string).

#[export] Instance state_error_eq_dec : EqDecision StateError.
Proof. solve_decision. Defined.

Module ScState.
Section sidechain_state.
Context `{Encode SgxExternalitiesType} `{Blake2} `{EncodeAppend} `{Twox}.
Implicit Types (ext : SgxExternalities) (key value : Bytes).

Definition apply_entry ext (entry : Bytes * option Bytes) : SgxExternalities :=
  match entry.2 with
  | Some value => SpIo.set ext entry.1 value
  | None => SpIo.clear ext entry.1
  end.

(** On an error the state is left as it is then. *)
Definition apply_state_update ext (state_payload : StateUpdate) : SgxExternalities * result unit StateError :=
  if decide (Ext.hash ext = state_hash_apriori state_payload) then
    let ext := foldl apply_entry ext (btree_iter (state_update state_payload)) in
    if decide (Ext.hash ext = state_hash_aposteriori state_payload) then (Ext.prune_state_diff ext, Ok tt)
    else (ext, Err InvalidStorageDiff)
  else (ext, Err InvalidAprioriHash).

(** A value that does not decode is logged and counts as missing. *)
Definition get_with_name {V} `{Decode V} ext (module_prefix storage_prefix : string) : option V :=
  match Ext.get ext (storage_value_key module_prefix storage_prefix) with
  | None => None
  | Some v => match decode v with Ok res => Some res | Err _ => None end
  end.

Definition set ext key value : SgxExternalities := SpIo.set ext key value.
Definition clear ext key : SgxExternalities := SpIo.clear ext key.
Definition clear_sidechain_prefix ext (prefix : Bytes) : SgxExternalities * KillStorageResult :=
  SpIo.clear_prefix ext prefix None.

Definition set_with_name {V} `{Encode V} ext (module_prefix storage_prefix : string) (value : V) : SgxExternalities :=
  set ext (storage_value_key module_prefix storage_prefix) (encode value).

Definition clear_with_name ext (module_prefix storage_prefix : string) : SgxExternalities :=
  clear ext (storage_value_key module_prefix storage_prefix).

Definition clear_prefix_with_name ext (module_prefix storage_prefix : string) :
    SgxExternalities * KillStorageResult :=
  clear_sidechain_prefix ext (storage_value_key module_prefix storage_prefix).

(** *** [SidechainSystemExt]: block numbers and timestamps are [u64], hashes [H256] *)

Context `{Encode Z, Decode Z} `{Encode N, Decode N}.

Definition get_block_number ext : option Z := get_with_name ext "System" "Number".
Definition set_block_number ext (number : Z) : SgxExternalities := set_with_name ext "System" "Number" number.
Definition get_last_block_hash ext : option N := get_with_name ext "System" "LastHash".
Definition set_last_block_hash ext (h : N) : SgxExternalities := set_with_name ext "System" "LastHash" h.
Definition get_timestamp ext : option Z := get_with_name ext "System" "Timestamp".
Definition set_timestamp ext (timestamp : Z) : SgxExternalities := set_with_name ext "System" "Timestamp" timestamp.

Definition reset_events ext : SgxExternalities :=
  let ext := clear_with_name ext "System" "Events" in
  let ext := clear_with_name ext "System" "EventCount" in
  (clear_prefix_with_name ext "System" "EventTopics").1.

(** *** [LastBlockExt] *)

Context {SidechainBlock : Type} `{Encode SidechainBlock, Decode SidechainBlock}.

Definition get_last_block ext : option SidechainBlock := get_with_name ext "System" "LastBlock".

Definition set_last_block ext (block_hash : N) (block : SidechainBlock) : SgxExternalities :=
  set_with_name (set_last_block_hash ext block_hash) "System" "LastBlock" block.
End sidechain_state.
End ScState.

(** ** Lemmas *)

Module ScStateInv.
Import Ext ExtInv ScState.

(** The names of the system values. *)
Definition system_names : list string :=
  ["Number"; "LastHash"; "LastBlock"; "Timestamp"; "Events"; "EventCount"; "EventTopics"].

(** The digests of the names in use are different and sixteen bytes long. *)
Class TwoxLaws `{Twox} : Prop := {
  twox_len : ∀ s, length (twox_128 s) = 16;
  twox_names : NoDup (twox_128 <$> system_names);
}.

Section state_updates.
Context `{Encode SgxExternalitiesType} `{Blake2}.
Implicit Types (ext : SgxExternalities) (key value : Bytes).

(** *** State updates *)

Lemma apply_entry_state ext e :
  state (apply_entry ext e) = partial_alter (λ _, e.2) e.1 (state ext).
Proof. by destruct e as [k [v|]]. Qed.

Lemma foldl_apply_entry_other ext l k :
  k ∉ l.*1 → state (foldl apply_entry ext l) !! k = state ext !! k.
Proof.
  revert ext. induction l as [|e l IH]; intros ext Hk; simpl; [done|].
  rewrite IH by set_solver. rewrite apply_entry_state, lookup_partial_alter_ne; [done|]. set_solver.
Qed.

Lemma foldl_apply_entry_in ext l k o :
  NoDup l.*1 → (k, o) ∈ l → state (foldl apply_entry ext l) !! k = o.
Proof.
  revert ext. induction l as [|e l IH]; intros ext Hnd Hin; simpl; [set_solver|].
  apply NoDup_cons in Hnd as [Hne Hnd]. apply elem_of_cons in Hin as [<-|Hin]; [|by apply IH].
  rewrite foldl_apply_entry_other by done. simpl. rewrite apply_entry_state. simpl. by rewrite lookup_partial_alter_eq.
Qed.

(** The entries lead to the state of the diff, whatever their order. *)
Lemma apply_entries_state ext d :
  state (foldl apply_entry ext (btree_iter d)) = apply_diff d (state ext).
Proof.
  apply map_eq. intros k. rewrite lookup_apply_diff. destruct (d !! k) as [o|] eqn:Hk.
  - apply foldl_apply_entry_in; [apply NoDup_btree_keys|by apply elem_of_btree_iter].
  - apply foldl_apply_entry_other. rewrite list_elem_of_fmap. intros ([k' o] & -> & Hin).
    apply elem_of_btree_iter in Hin. simpl in Hk. congruence.
Qed.

Lemma hash_state ext1 ext2 : state ext1 = state ext2 → hash ext1 = hash ext2.
Proof. unfold hash. by intros ->. Qed.

(** What a state update does, on every path. *)
Lemma apply_state_update_spec ext u :
  apply_state_update ext u =
  let ext' := foldl apply_entry ext (btree_iter (state_update u)) in
  if decide (hash ext = state_hash_apriori u) then
    if decide (hash (Ext.new (apply_diff (state_update u) (state ext))) = state_hash_aposteriori u)
    then (Ext.new (apply_diff (state_update u) (state ext)), Ok tt)
    else (ext', Err InvalidStorageDiff)
  else (ext, Err InvalidAprioriHash).
Proof.
  unfold apply_state_update. cbv zeta. case_decide; [|done].
  rewrite (hash_state (foldl apply_entry ext (btree_iter (state_update u)))
             (Ext.new (apply_diff (state_update u) (state ext)))) by apply apply_entries_state.
  case_decide; [|done]. unfold prune_state_diff, Ext.new. by rewrite apply_entries_state.
Qed.

(** The update made of a tracked state leads any state with the same content to
    it. *)
Lemma apply_state_update_roundtrip base ext ext' :
  tracks base ext' → state ext = base →
  apply_state_update ext (MkStateUpdate (hash (Ext.new base)) (hash ext') (state_diff ext')) =
    (Ext.new (state ext'), Ok tt).
Proof.
  intros Ht Hb. rewrite apply_state_update_spec. simpl. rewrite Hb.
  rewrite decide_True by (by apply hash_state). rewrite <-Ht. by rewrite decide_True by (by apply hash_state).
Qed.

End state_updates.

Section sidechain_state_inv.
Context `{Encode SgxExternalitiesType} `{Blake2} `{EncodeAppend} `{TwoxLaws}.
Implicit Types (ext : SgxExternalities) (key value : Bytes).

(** *** Named values *)

Lemma name_key_inj a b :
  a ∈ system_names → b ∈ system_names →
  storage_value_key "System" a = storage_value_key "System" b → a = b.
Proof.
  intros Ha Hb Heq. unfold storage_value_key in Heq. apply app_inv_head in Heq.
  apply list_elem_of_lookup in Ha as [i Hi]. apply list_elem_of_lookup in Hb as [j Hj].
  assert (i = j) as ->; [|congruence].
  apply (NoDup_lookup (twox_128 <$> system_names) i j (twox_128 a)); [apply twox_names|..].
  - by rewrite list_lookup_fmap, Hi.
  - by rewrite list_lookup_fmap, Hj, Heq.
Qed.

Lemma starts_with_app p q k : length p = length q → starts_with (p ++ k) q = true → p = q.
Proof.
  revert q. induction p as [|x p IH]; intros [|y q]; simpl; try done.
  intros [= Hl] [<-%N.eqb_eq Hs]%andb_true_iff. f_equal. by apply IH.
Qed.

(** Clearing the event topics touches no other named value. *)
Lemma name_not_topics a :
  a ∈ system_names → a ≠ "EventTopics"%string →
  starts_with (storage_value_key "System" a) (storage_value_key "System" "EventTopics") = false.
Proof.
  intros Ha Hne. destruct (starts_with _ _) eqn:Hs; [|done]. exfalso. apply Hne.
  apply name_key_inj; [done|set_solver|].
  rewrite <-(app_nil_r (storage_value_key "System" a)) in Hs. apply starts_with_app in Hs; [done|].
  unfold storage_value_key. by rewrite !length_app, !twox_len.
Qed.

Lemma get_set_with_name `{Codec V} ext a (v : V) :
  get_with_name (set_with_name ext "System" a v) "System" a = Some v.
Proof.
  unfold get_with_name, set_with_name, get. simpl. by rewrite lookup_insert_eq, decode_encode.
Qed.

Lemma get_set_with_name_ne `{Decode V} `{Encode W} ext a b (w : W) :
  a ∈ system_names → b ∈ system_names → a ≠ b →
  get_with_name (V := V) (set_with_name ext "System" b w) "System" a = get_with_name ext "System" a.
Proof.
  intros Ha Hb Hab. unfold get_with_name, set_with_name, get. simpl.
  rewrite lookup_insert_ne; [done|]. intros Heq%name_key_inj; congruence.
Qed.

Lemma get_reset_events `{Decode V} ext a :
  a ∈ ["Number"; "LastHash"; "LastBlock"; "Timestamp"]%string →
  get_with_name (V := V) (reset_events ext) "System" a = get_with_name ext "System" a.
Proof.
  intros Ha. assert (a ∈ system_names) as Hs by (unfold system_names; set_solver).
  unfold get_with_name, get, reset_events, clear_prefix_with_name, clear_sidechain_prefix, SpIo.clear_prefix.
  destruct (Ext.clear_prefix _ _ None) as [e n] eqn:He. simpl.
  replace e with (Ext.clear_prefix (clear_with_name (clear_with_name ext "System" "Events") "System" "EventCount")
    (storage_value_key "System" "EventTopics") None).1 by (by rewrite He).
  rewrite clear_prefix_state, map_lookup_filter. simpl.
  rewrite !lookup_delete_ne.
  - destruct (state ext !! _); simpl; [|done].
    rewrite option_guard_True; [done|]. apply name_not_topics; [done|]. set_solver.
  - intros Heq%name_key_inj; [|unfold system_names; set_solver..]. subst. set_solver.
  - intros Heq%name_key_inj; [|unfold system_names; set_solver..]. subst. set_solver.
Qed.

(** *** The operations of the system work through the storage functions *)

Lemma reaches_set_with_name `{Encode V} ext m a (v : V) : reaches ext (set_with_name ext m a v).
Proof. apply (reaches_op ext (OpSet _ _)). Qed.

Lemma reaches_reset_events ext : reaches ext (reset_events ext).
Proof.
  eapply reaches_trans; [apply (reaches_op ext (OpClear (storage_value_key "System" "Events")))|].
  eapply reaches_trans; [apply (reaches_op _ (OpClear (storage_value_key "System" "EventCount")))|].
  apply (reaches_op _ (OpClearPrefix (storage_value_key "System" "EventTopics"))).
Qed.
End sidechain_state_inv.
End ScStateInv.
