(* ===== verification/SidechainBlocks.v ===== *)
(** The blocks of the sidechain (src/sidechain/primitives/src/types/{header,
    block_data,block}.rs), the signing of a block (traits/mod.rs), and the
    verification of a block (src/sidechain/block-verification/src).  Ed25519, the
    codec and the hash are parameters. *)

From stdpp Require Import base gmap numbers strings pretty list.
From S2P Require Import Prelude PoolTypes SidechainDb Durations.

(** [ed25519::Public], used as a key only. *)
Abbreviation Public := N (only parsing).

(** A signature scheme: [Pair] and [MultiSignature] of substrate. *)
Class SignatureScheme (Pair : Type) := {
  public : Pair → Public;
  sign : Pair → list N → list N;
  verify : list N → list N → Public → bool;
}.

(** What was signed verifies. *)
Class SignatureLaws (Pair : Type) `{SignatureScheme Pair} : Prop := {
  verify_sign : ∀ p msg, verify (sign p msg) msg (public p) = true;
}.

Module Sc.

Record SidechainHeader := MkHeader {
  parent_hash : N;
  block_number : Z;
  shard_id : ShardIdentifier;
  block_data_hash : N;
  next_finalization_block_number : Z;
}.

Record BlockData := MkBlockData {
  timestamp : Z;
  layer_one_head : N;
  block_author : Public;
  signed_top_hashes : list TxHash;
  encrypted_state_diff : list N;
}.

Record Block := MkBlock {
  header : SidechainHeader;
  block_data : BlockData;
}.

Record SignedBlock := MkSignedBlock {
  block : Block;
  signature : list N;
}.

#[export] Instance header_eq_dec : EqDecision SidechainHeader.
Proof. solve_decision. Defined.
#[export] Instance block_data_eq_dec : EqDecision BlockData.
Proof. solve_decision. Defined.
#[export] Instance block_eq_dec : EqDecision Block.
Proof. solve_decision. Defined.
#[export] Instance signed_block_eq_dec : EqDecision SignedBlock.
Proof. solve_decision. Defined.

Section blocks.
Context `{Blake2} `{Encode SidechainHeader} `{Encode BlockData} `{Encode Block}.

Definition header_hash (h : SidechainHeader) : N := blake2_256 (encode h).
Definition data_hash (d : BlockData) : N := blake2_256 (encode d).
Definition hash (b : Block) : N := header_hash (header b).

Context {Pair : Type} `{SignatureScheme Pair}.

Definition verify_signature (b : SignedBlock) : bool :=
  verify (signature b) (encode (block b)) (block_author (block_data (block b))).

Definition sign_block (b : Block) (signer : Pair) : SignedBlock :=
  MkSignedBlock b (sign signer (encode b)).

Lemma verify_sign_block `{!SignatureLaws Pair} b signer :
  block_author (block_data b) = public signer → verify_signature (sign_block b signer) = true.
Proof. intros Ha. unfold verify_signature. simpl. rewrite Ha. apply verify_sign. Qed.
End blocks.

(** The blocks as the storage sees them. *)
#[export] Instance sidechain_signed_block `{Blake2} `{Encode SidechainHeader} : SidechainDb.SignedBlock SignedBlock :=
  {| SidechainDb.hash b := hash (block b);
     SidechainDb.parent_hash b := parent_hash (header (block b));
     SidechainDb.block_number b := block_number (header (block b));
     SidechainDb.shard_id b := shard_id (header (block b)) |}.

Lemma block_hash_header `{CollisionFree} `{Codec SidechainHeader} (b1 b2 : Block) :
  hash b1 = hash b2 → header b1 = header b2.
Proof. unfold hash, header_hash. intros Hh%blake2_inj. by apply encode_inj. Qed.

#[export] Instance sidechain_header_hash `{CollisionFree} `{Codec SidechainHeader} : SidechainDb.HeaderHash SignedBlock.
Proof. split. intros b1 b2 Hh%block_hash_header. simpl. by rewrite Hh. Qed.
End Sc.

(** The verification of a sidechain block before its import
    (src/sidechain/block-verification/src/{lib,slot,error}.rs). *)

Import Sc.
Open Scope Z_scope.
Open Scope worker_scope.

(** [Slot] is a [u64]. *)
Abbreviation Slot := Z.

(** The header of a parentchain block. *)
Class ParentchainHeader (PH : Type) := {
  pc_hash : PH → N;
  pc_number : PH → Z;
}.

(** [error::Error]; a text that is formatted from keys carries the keys. *)
Inductive VerificationError :=
| InvalidAuthority (expected found : Public)
| CouldNotGetAuthorities (msg : string)
| BadParentchainBlock (h : N) (msg : string)
| BadSidechainBlock (h : N) (msg : string)
| BlockAncestryMismatch (last_number : Z) (last_hash : N) (msg : string)
| InvalidFirstBlock (number : Z) (msg : string)
| BlockAlreadyImported (number last_number : Z).

#[export] Instance verification_error_eq_dec : EqDecision VerificationError.
Proof. solve_decision. Defined.

Module Verify.

(** *** Slots *)

(** The index is in range; [expect] says so. *)
Definition slot_author (slot : Slot) (authorities : list Public) : outcome (option Public) :=
  match authorities with
  | [] => Ret None
  | _ =>
      let idx := slot `mod` Z.of_nat (length authorities) in
      unwrap (authorities !! Z.to_nat idx) ≫= λ current_author, Ret (Some current_author)
  end.

(** Panics when the duration is shorter than a millisecond. *)
Definition slot_from_timestamp_and_duration (timestamp duration : Duration) : outcome Slot :=
  if as_millis duration =? 0 then Panic
  else Ret (u64_wrap (as_millis timestamp `div` as_millis duration)).

Section verification.
Context `{Blake2} `{Encode SidechainHeader} `{Encode BlockData} `{Encode Block}.
Context {Pair : Type} `{SignatureScheme Pair} {PH : Type} `{ParentchainHeader PH}.

Definition verify_author (slot : Slot) (b : Block) (parentchain_head : PH) (authorities : list Public) :
    outcome (result unit VerificationError) :=
  if decide (pc_hash parentchain_head = layer_one_head (block_data b)) then
    slot_author slot authorities ≫= λ found,
    Ret match found with
        | None => Err (CouldNotGetAuthorities "No authorities found")
        | Some expected_author =>
            if decide (expected_author = block_author (block_data b)) then Ok tt
            else Err (InvalidAuthority expected_author (block_author (block_data b)))
        end
  else Ret (Err (BadParentchainBlock (pc_hash parentchain_head) "Invalid parentchain head")).

Definition verify_block_ancestry (b last_block : Block) : result unit VerificationError :=
  let number := block_number (header b) in
  let last_number := block_number (header last_block) in
  if number <=? last_number then Err (BlockAlreadyImported number last_number)
  else if negb (u64_wrap (last_number + 1) =? number) then
    Err (BlockAncestryMismatch last_number (hash last_block)
           ("Invalid block number, " +:+ pretty number +:+ " does not succeed " +:+ pretty last_number))
  else if decide (hash last_block = parent_hash (header b)) then Ok tt
  else Err (BlockAncestryMismatch last_number (hash last_block) "Parent hash does not match").

Definition ensure_first_block (b : Block) : result unit VerificationError :=
  let number := block_number (header b) in
  if negb (number =? 1) then
    Err (InvalidFirstBlock number
           "No last block found, expecting first block. But block to import has number != 1")
  else if decide (parent_hash (header b) = default_hash) then Ok tt
  else Err (InvalidFirstBlock number
              "No last block found, excepting first block. But block to import has parent_hash != 0").

Definition verify_sidechain_block (signed_block : SignedBlock) (slot_duration : Duration)
    (last_block : option Block) (parentchain_header : PH) (authorities : list Public) :
    outcome (result SignedBlock VerificationError) :=
  let b := block signed_block in
  if verify_signature signed_block then
    slot_from_timestamp_and_duration (from_millis (timestamp (block_data b))) slot_duration ≫= λ slot,
    match
      match last_block with
      | Some last_block => verify_block_ancestry b last_block
      | None => ensure_first_block b
      end
    with
    | Err e => Ret (Err e)
    | Ok _ =>
        verify_author slot b parentchain_header authorities ≫= λ res,
        Ret (let? x := res in Ok signed_block)
    end
  else Ret (Err (BadSidechainBlock (hash b) "bad signature")).
End verification.
End Verify.

(** ** Lemmas *)

Module VerifyInv.
Import Verify.

Lemma slot_from_timestamp_spec (ts d : Duration) :
  0 < as_millis d →
  slot_from_timestamp_and_duration ts d = Ret (u64_wrap (as_millis ts `div` as_millis d)).
Proof. intros Hd. unfold slot_from_timestamp_and_duration. destruct (Z.eqb_spec (as_millis d) 0); [lia|done]. Qed.

(** Round robin. *)
Definition round_robin (slot : Slot) (authorities : list Public) : option Public :=
  authorities !! Z.to_nat (slot `mod` Z.of_nat (length authorities)).

Lemma slot_author_spec slot authorities :
  slot_author slot authorities = Ret (round_robin slot authorities).
Proof.
  destruct authorities as [|a l] eqn:Hl; [done|]. rewrite <-Hl. unfold slot_author, round_robin.
  assert (0 < Z.of_nat (length authorities)) as Hlen by (subst; simpl; lia).
  destruct (lookup_lt_is_Some_2 authorities (Z.to_nat (slot `mod` Z.of_nat (length authorities)))) as [x Hx].
  { pose proof (Z.mod_pos_bound slot _ Hlen). lia. }
  rewrite Hl at 1. by rewrite Hx.
Qed.

Lemma round_robin_is_Some slot authorities : authorities ≠ [] → is_Some (round_robin slot authorities).
Proof.
  intros Hne. apply lookup_lt_is_Some_2. destruct authorities as [|a l]; [done|].
  pose proof (Z.mod_pos_bound slot (Z.of_nat (length (a :: l))) ltac:(simpl; lia)). lia.
Qed.

Section verify_inv.
Context `{Blake2} `{Encode SidechainHeader} `{Encode BlockData} `{Encode Block}.
Context {Pair : Type} `{SignatureScheme Pair} {PH : Type} `{ParentchainHeader PH}.

(** [b] is the next block after [last]. *)
Definition succeeds (last : option Block) (b : Block) : Prop :=
  match last with
  | Some l => block_number (header b) = u64_wrap (block_number (header l) + 1) ∧
      block_number (header l) < block_number (header b) ∧ parent_hash (header b) = hash l
  | None => block_number (header b) = 1 ∧ parent_hash (header b) = default_hash
  end.

Definition ancestry (last : option Block) (b : Block) : result unit VerificationError :=
  match last with Some l => verify_block_ancestry b l | None => ensure_first_block b end.

Lemma ancestry_ok last b : ancestry last b = Ok tt ↔ succeeds last b.
Proof.
  unfold ancestry, succeeds. destruct last as [l|].
  - unfold verify_block_ancestry. destruct (Z.leb_spec (block_number (header b)) (block_number (header l))).
    { split; [done|lia]. }
    destruct (Z.eqb_spec (u64_wrap (block_number (header l) + 1)) (block_number (header b))); simpl.
    + case_decide; naive_solver.
    + naive_solver.
  - unfold ensure_first_block. destruct (Z.eqb_spec (block_number (header b)) 1); simpl; [|naive_solver].
    case_decide; naive_solver.
Qed.

Lemma ancestry_cases last b : ancestry last b = Ok tt ∨ ∃ e, ancestry last b = Err e.
Proof. destruct (ancestry last b) as [[]|e]; eauto. Qed.

(** The slot of a block. *)
Definition block_slot (d : Duration) (b : Block) : Slot :=
  u64_wrap (timestamp (block_data b) `div` as_millis d).

Lemma verify_sidechain_block_unfold (sb : SignedBlock) (d : Duration) last (head : PH) authorities :
  0 < as_millis d →
  verify_sidechain_block sb d last head authorities = Ret (
    if verify_signature sb then
      let? x := ancestry last (block sb) in
      if decide (pc_hash head = layer_one_head (block_data (block sb))) then
        match round_robin (block_slot d (block sb)) authorities with
        | None => Err (CouldNotGetAuthorities "No authorities found")
        | Some expected =>
            if decide (expected = block_author (block_data (block sb))) then Ok sb
            else Err (InvalidAuthority expected (block_author (block_data (block sb))))
        end
      else Err (BadParentchainBlock (pc_hash head) "Invalid parentchain head")
    else Err (BadSidechainBlock (hash (block sb)) "bad signature")).
Proof.
  intros Hd. unfold verify_sidechain_block. destruct (verify_signature sb); [|done].
  rewrite slot_from_timestamp_spec by done. cbn [mbind outcome_bind].
  rewrite as_millis_from_millis. fold (block_slot d (block sb)).
  fold (ancestry last (block sb)). destruct (ancestry last (block sb)); [|done].
  unfold verify_author. case_decide; [|done]. rewrite slot_author_spec. cbn [mbind outcome_bind].
  destruct (round_robin _ _); [|done]. by case_decide.
Qed.

(** A block is accepted exactly when its signature, its place in the chain, its
    parentchain head and the author of its slot are right. *)
Lemma verify_accepts (sb : SignedBlock) (d : Duration) last (head : PH) authorities :
  0 < as_millis d →
  (∃ r, verify_sidechain_block sb d last head authorities = Ret (Ok r)) ↔
  verify_signature sb = true ∧ succeeds last (block sb) ∧
    pc_hash head = layer_one_head (block_data (block sb)) ∧
    round_robin (block_slot d (block sb)) authorities = Some (block_author (block_data (block sb))).
Proof.
  intros Hd. rewrite verify_sidechain_block_unfold by done. rewrite <-ancestry_ok.
  destruct (verify_signature sb); [|naive_solver].
  destruct (ancestry last (block sb)) as [[]|e]; [|naive_solver].
  case_decide; [|naive_solver]. destruct (round_robin _ _); [|naive_solver]. case_decide; naive_solver.
Qed.

Lemma verify_returns_block (sb r : SignedBlock) (d : Duration) last (head : PH) authorities :
  0 < as_millis d → verify_sidechain_block sb d last head authorities = Ret (Ok r) → r = sb.
Proof.
  intros Hd. rewrite verify_sidechain_block_unfold by done.
  destruct (verify_signature sb); [|done]. destruct (ancestry last (block sb)); [|done].
  case_decide; [|done]. destruct (round_robin _ _); [|done]. case_decide; naive_solver.
Qed.
End verify_inv.
End VerifyInv.
