(* ===== verification/Dispatcher.v ===== *)
(** The import queue (core-primitives/import-queue/src/import_queue.rs), and below
    the dispatchers of parentchain blocks that use it.  The queue is a [VecDeque]
    behind a lock.  Every operation takes the lock, so it is one step;
    a lock is never poisoned, as no operation panics while it holds it. *)

From stdpp Require Import base numbers strings list.
From S2P Require Import Prelude Collections.

(** [error::Error], the part in use. *)
Inductive QueueError := QueueOther (msg : string).

Module Queue.
Section queue.
Context {Item : Type}.
Implicit Types (queue : list Item) (item : Item).

(** [Default]. *)
Definition empty_queue : list Item := [].

Definition is_empty queue : bool := match queue with [] => true | _ => false end.

Definition push_multiple queue (items : list Item) : list Item := queue ++ items.
Definition push_single queue item : list Item := queue ++ [item].

Definition pop_all_but_last queue : list Item * list Item :=
  let queue_length := length queue in
  if decide (queue_length < 2) then (queue, [])
  else (drop (queue_length - 1) queue, take (queue_length - 1) queue).

Definition pop_all queue : list Item * list Item := ([], queue).

Definition pop_until queue (predicate : Item → bool) : list Item * list Item :=
  match position predicate queue with
  | None => (queue, [])
  | Some p => (drop (p + 1) queue, take (p + 1) queue)
  end.

Definition pop_front queue : list Item * option Item :=
  match queue with
  | [] => ([], None)
  | item :: queue => (queue, Some item)
  end.

Definition pop_from_front_until queue (amount : nat) : list Item * result (list Item) QueueError :=
  if decide (length queue < amount) then
    (queue, Err (QueueOther "Cannot Pop more items from the queue than are available"))
  else (drop amount queue, Ok (take amount queue)).

Definition peek_find queue (predicate : Item → bool) : option Item := List.find predicate queue.
Definition peek_last queue : option Item := last queue.
Definition peek_queue_size queue : nat := length queue.

Lemma pop_until_split queue predicate :
  let '(rest, popped) := pop_until queue predicate in
  queue = popped ++ rest ∧
  match last popped with
  | Some x => predicate x = true ∧ Forall (λ y, predicate y = false) (take (length popped - 1) popped)
  | None => popped = [] ∧ Forall (λ y, predicate y = false) queue
  end.
Proof.
  unfold pop_until. destruct (position predicate queue) as [p|] eqn:Hp.
  - apply position_Some in Hp as (x & Hx & Hpx & Hmin). apply lookup_lt_Some in Hx as Hlt.
    split; [by rewrite take_drop|].
    rewrite Nat.add_1_r, (take_S_r _ _ _ Hx), last_snoc. split; [done|].
    rewrite length_app, length_take, Nat.min_l, Nat.add_sub by lia.
    rewrite take_app_le by (rewrite length_take; lia). rewrite take_take, Nat.min_l by lia.
    apply Forall_lookup. intros i y Hi. apply lookup_take_Some in Hi as [Hy Hi]. by apply (Hmin i y).
  - split; [done|]. simpl. split; [done|]. apply Forall_forall. by apply position_None.
Qed.

Lemma pop_all_but_last_split queue :
  let '(rest, popped) := pop_all_but_last queue in
  queue = popped ++ rest ∧ length rest = Nat.min 1 (length queue).
Proof.
  unfold pop_all_but_last. case_decide.
  - split; [done|]. lia.
  - split; [by rewrite take_drop|]. rewrite length_drop. lia.
Qed.
End queue.
End Queue.

(** The dispatchers of parentchain blocks
    (src/core/parentchain/block-import-dispatcher/src): blocks and their events
    are imported at once, or wait in two queues until an import is triggered.

    The queues are used through what the import queue promises; the importer is
    an interface, [ImportParentchainBlocks]. *)

Open Scope worker_scope.

Abbreviation RawEventsPerBlock := (list N) (only parsing).

(** [ImportParentchainBlocks]: [Imp] is everything an import may change. *)
Class ImportParentchainBlocks (Imp SB IE : Type) :=
  import_parentchain_blocks : Imp → list SB → list RawEventsPerBlock → outcome (Imp * result unit IE).

(** [error::Error]. *)
Inductive DispatchError (IE : Type) :=
| DeNoDispatcherAssigned
| DeImportQueue (e : QueueError)
| DeBlockImport (e : IE).
Arguments DeNoDispatcherAssigned {IE}.
Arguments DeImportQueue {IE} e.
Arguments DeBlockImport {IE} e.

Module Dispatch.

Record TriggeredDispatcher (Imp SB : Type) := MkTriggered {
  block_importer : Imp;
  import_queue : list SB;
  events_queue : list RawEventsPerBlock;
}.
Arguments MkTriggered {Imp SB} _ _ _.
Arguments block_importer {Imp SB} _.
Arguments import_queue {Imp SB} _.
Arguments events_queue {Imp SB} _.

(** The observers are callbacks; the ones that were called are recorded. *)
Record ImmediateDispatcher (Imp : Type) := MkImmediate {
  imm_importer : Imp;
  import_event_observers : nat;
  notified : nat;
}.
Arguments MkImmediate {Imp} _ _ _.
Arguments imm_importer {Imp} _.
Arguments import_event_observers {Imp} _.
Arguments notified {Imp} _.

(** [BlockImportDispatcher]. *)
Inductive BlockImportDispatcher (Imp SB : Type) :=
| Triggered (d : TriggeredDispatcher Imp SB)
| Immediate (d : ImmediateDispatcher Imp)
| EmptyDispatcher.
Arguments Triggered {Imp SB} d.
Arguments Immediate {Imp SB} d.
Arguments EmptyDispatcher {Imp SB}.

Section dispatcher.
Context {Imp SB IE : Type} `{ImportParentchainBlocks Imp SB IE}.
Implicit Types (d : TriggeredDispatcher Imp SB) (i : ImmediateDispatcher Imp).

Definition run_import d (blocks : list SB) (events : list RawEventsPerBlock) :
    outcome (TriggeredDispatcher Imp SB * result unit (DispatchError IE)) :=
  import_parentchain_blocks (block_importer d) blocks events ≫= λ '(imp, res),
  Ret (MkTriggered imp (import_queue d) (events_queue d),
       match res with Ok _ => Ok tt | Err e => Err (DeBlockImport e) end).

Definition dispatch_import d (blocks : list SB) (events : list RawEventsPerBlock) (immediate_import : bool) :
    outcome (TriggeredDispatcher Imp SB * result unit (DispatchError IE)) :=
  if immediate_import then run_import d blocks events
  else Ret (MkTriggered (block_importer d) (Queue.push_multiple (import_queue d) blocks)
              (Queue.push_multiple (events_queue d) events), Ok tt).

Definition import_all d : outcome (TriggeredDispatcher Imp SB * result (option SB) (DispatchError IE)) :=
  let '(q, blocks_to_import) := Queue.pop_all (import_queue d) in
  let '(eq, events_to_import) := Queue.pop_all (events_queue d) in
  let latest_imported_block := last blocks_to_import in
  run_import (MkTriggered (block_importer d) q eq) blocks_to_import events_to_import ≫= λ '(d, res),
  Ret (d, let? x := res in Ok latest_imported_block).

Definition import_all_but_latest d : outcome (TriggeredDispatcher Imp SB * result unit (DispatchError IE)) :=
  let '(q, blocks_to_import) := Queue.pop_all_but_last (import_queue d) in
  let '(eq, events_to_import) := Queue.pop_all_but_last (events_queue d) in
  run_import (MkTriggered (block_importer d) q eq) blocks_to_import events_to_import.

Definition import_until d (predicate : SB → bool) :
    outcome (TriggeredDispatcher Imp SB * result (option SB) (DispatchError IE)) :=
  let '(q, blocks_to_import) := Queue.pop_until (import_queue d) predicate in
  match Queue.pop_from_front_until (events_queue d) (length blocks_to_import) with
  | (eq, Err e) => Ret (MkTriggered (block_importer d) q eq, Err (DeImportQueue e))
  | (eq, Ok events_to_import) =>
      let latest_imported_block := last blocks_to_import in
      run_import (MkTriggered (block_importer d) q eq) blocks_to_import events_to_import ≫= λ '(d, res),
      Ret (d, let? x := res in Ok latest_imported_block)
  end.

Definition peek d (predicate : SB → bool) : option SB := Queue.peek_find (import_queue d) predicate.
Definition peek_latest d : option SB := Queue.peek_last (import_queue d).

(** *** The immediate dispatcher *)

Definition new_immediate (imp : Imp) : ImmediateDispatcher Imp := MkImmediate imp 0 0.
Definition with_observer i : ImmediateDispatcher Imp :=
  MkImmediate (imm_importer i) (S (import_event_observers i)) (notified i).

Definition dispatch_immediate i (blocks : list SB) (events : list RawEventsPerBlock) (_immediate_import : bool) :
    outcome (ImmediateDispatcher Imp * result unit (DispatchError IE)) :=
  import_parentchain_blocks (imm_importer i) blocks events ≫= λ '(imp, res),
  Ret match res with
      | Ok _ => (MkImmediate imp (import_event_observers i) (notified i + import_event_observers i), Ok tt)
      | Err e => (MkImmediate imp (import_event_observers i) (notified i), Err (DeBlockImport e))
      end.

Definition dispatch_any (b : BlockImportDispatcher Imp SB) (blocks : list SB)
    (events : list RawEventsPerBlock) (immediate_import : bool) :
    outcome (BlockImportDispatcher Imp SB * result unit (DispatchError IE)) :=
  match b with
  | Triggered d =>
      dispatch_import d blocks events immediate_import ≫= λ '(d, res), Ret (Triggered d, res)
  | Immediate i =>
      dispatch_immediate i blocks events immediate_import ≫= λ '(i, res), Ret (Immediate i, res)
  | EmptyDispatcher => Ret (EmptyDispatcher, Err DeNoDispatcherAssigned)
  end.
End dispatcher.
End Dispatch.

(** ** One queue of pairs *)

Module DispatchSpec.
Import Dispatch.

Section spec.
Context {Imp SB IE : Type} `{ImportParentchainBlocks Imp SB IE}.
Implicit Types (d : TriggeredDispatcher Imp SB) (q : list (SB * RawEventsPerBlock)).

(** The operations of the dispatcher; a dispatch passes one event entry per
    block. *)
Inductive dispatch_op :=
| DoDispatch (pairs : list (SB * RawEventsPerBlock))
| DoImportAll
| DoImportAllButLatest
| DoImportUntil (predicate : SB → bool).

Definition run_dispatch d (op : dispatch_op) : outcome (TriggeredDispatcher Imp SB) :=
  match op with
  | DoDispatch pairs => dispatch_import d pairs.*1 pairs.*2 false ≫= λ r, Ret r.1
  | DoImportAll => import_all d ≫= λ r, Ret r.1
  | DoImportAllButLatest => import_all_but_latest d ≫= λ r, Ret r.1
  | DoImportUntil predicate => import_until d predicate ≫= λ r, Ret r.1
  end.

(** The same on one queue of pairs: what is handed to the importer, and what
    stays. *)
Definition q_take q (op : dispatch_op) : list (SB * RawEventsPerBlock) * list (SB * RawEventsPerBlock) :=
  match op with
  | DoDispatch pairs => ([], q ++ pairs)
  | DoImportAll => (q, [])
  | DoImportAllButLatest => (take (length q - 1) q, drop (length q - 1) q)
  | DoImportUntil predicate =>
      match position (predicate ∘ fst) q with
      | None => ([], q)
      | Some p => (take (S p) q, drop (S p) q)
      end
  end.

(** Blocks and events of a dispatcher are paired. *)
Definition paired (imp : Imp) q : TriggeredDispatcher Imp SB := MkTriggered imp q.*1 q.*2.

Definition import_batch (imp : Imp) (batch : list (SB * RawEventsPerBlock)) : outcome Imp :=
  import_parentchain_blocks imp batch.*1 batch.*2 ≫= λ r, Ret r.1.

Lemma position_fmap {A B} (f : A → B) (g : B → bool) l : position g (f <$> l) = position (g ∘ f) l.
Proof. induction l as [|x l IH]; [done|]. rewrite fmap_cons. cbn [position]. by rewrite IH. Qed.

Definition is_dispatch (op : dispatch_op) : bool :=
  match op with DoDispatch _ => true | _ => false end.

(** What [import_until] does on paired queues. *)
Lemma import_until_spec imp q predicate :
  import_until (paired imp q) predicate =
  let '(batch, rest) := q_take q (DoImportUntil predicate) in
  import_parentchain_blocks imp batch.*1 batch.*2 ≫= λ '(imp, res),
  Ret (paired imp rest, match res with Ok _ => Ok (last batch.*1) | Err e => Err (DeBlockImport e) end).
Proof.
  unfold import_until, Queue.pop_until, Queue.pop_from_front_until, run_import, paired. simpl.
  rewrite position_fmap. destruct (position (predicate ∘ fst) q) as [p|] eqn:Hp; simpl.
  - apply position_Some in Hp as (x & Hx & _). apply lookup_lt_Some in Hx.
    rewrite Nat.add_1_r, length_take, !length_fmap, Nat.min_l by lia.
    rewrite decide_False by lia. rewrite <-!fmap_take, <-!fmap_drop.
    by destruct (import_parentchain_blocks _ _ _) as [[? []]| |].
  - by destruct (import_parentchain_blocks _ _ _) as [[? []]| |].
Qed.

(** One operation hands the importer the pairs that the queue of pairs gives. *)
Lemma run_dispatch_spec imp q op :
  run_dispatch (paired imp q) op =
  (if is_dispatch op then Ret imp else import_batch imp (q_take q op).1) ≫= λ imp, Ret (paired imp (q_take q op).2).
Proof.
  destruct op as [pairs| | |predicate]; unfold run_dispatch, import_batch.
  - unfold dispatch_import, Queue.push_multiple, paired. simpl. by rewrite !fmap_app.
  - unfold import_all, Queue.pop_all, run_import, paired. simpl.
    by destruct (import_parentchain_blocks _ _ _) as [[]| |].
  - unfold import_all_but_latest, Queue.pop_all_but_last, run_import, paired. simpl. rewrite !length_fmap.
    case_decide as Hl.
    + replace (length q - 1) with 0 by lia. rewrite take_0, drop_0. simpl.
      by destruct (import_parentchain_blocks _ _ _) as [[]| |].
    + rewrite <-!fmap_take, <-!fmap_drop. simpl. by destruct (import_parentchain_blocks _ _ _) as [[]| |].
  - rewrite import_until_spec. cbn [is_dispatch]. destruct (q_take q (DoImportUntil predicate)) as [batch rest].
    simpl. by destruct (import_parentchain_blocks _ _ _) as [[]| |].
Qed.

(** What a history hands over, batch by batch, and what it leaves. *)
Fixpoint q_run q (ops : list dispatch_op) : list (list (SB * RawEventsPerBlock)) * list (SB * RawEventsPerBlock) :=
  match ops with
  | [] => ([], q)
  | op :: ops =>
      let '(batches, rest) := q_run (q_take q op).2 ops in
      (if is_dispatch op then batches else (q_take q op).1 :: batches, rest)
  end.

Definition dispatched (ops : list dispatch_op) : list (SB * RawEventsPerBlock) :=
  mjoin ((λ op, match op with DoDispatch pairs => pairs | _ => [] end) <$> ops).

Lemma run_dispatches_spec imp q ops :
  for_each run_dispatch (paired imp q) ops =
  for_each import_batch imp (q_run q ops).1 ≫= λ imp, Ret (paired imp (q_run q ops).2).
Proof.
  revert imp q. induction ops as [|op ops IH]; intros imp q; [done|]. cbn [for_each q_run].
  rewrite run_dispatch_spec. specialize (λ imp, IH imp (q_take q op).2).
  destruct (q_run (q_take q op).2 ops) as [batches rest]. simpl in *. destruct (is_dispatch op); simpl; [apply IH|].
  destruct (import_batch imp _); simpl; [apply IH|done|done].
Qed.

(** Nothing is lost, repeated or reordered. *)
Lemma q_run_fifo q ops : mjoin (q_run q ops).1 ++ (q_run q ops).2 = q ++ dispatched ops.
Proof.
  revert q. induction ops as [|op ops IH]; intros q; simpl; [by rewrite app_nil_r|].
  specialize (IH (q_take q op).2). destruct (q_run (q_take q op).2 ops) as [batches rest]. simpl in *.
  unfold dispatched in *. destruct op as [pairs| | |predicate]; simpl in *.
  - by rewrite IH, <-app_assoc.
  - rewrite <-app_assoc. by rewrite IH.
  - rewrite <-app_assoc, IH, app_assoc. by rewrite take_drop.
  - destruct (position _ q); simpl in *; [|done]. rewrite <-app_assoc, IH, app_assoc. by rewrite take_drop.
Qed.
End spec.
End DispatchSpec.

(** The triggered dispatcher is one queue of blocks with their events.  After
    any history of dispatched blocks and triggered imports the importer was run on
    the batches that this queue gives, block and events side by side, and the two
    queues hold what is left of it; batches and rest together are the dispatched
    blocks in their order, none lost, repeated or reordered, whether or not an
    import failed. *)
Theorem dispatch_is_fifo {Imp SB IE : Type} `{ImportParentchainBlocks Imp SB IE} (imp : Imp)
    (ops : list (DispatchSpec.dispatch_op (SB := SB))) :
  let '(batches, rest) := DispatchSpec.q_run [] ops in
  for_each DispatchSpec.run_dispatch (DispatchSpec.paired imp []) ops =
    for_each DispatchSpec.import_batch imp batches ≫= (λ imp, Ret (DispatchSpec.paired imp rest)) ∧
  mjoin batches ++ rest = DispatchSpec.dispatched ops.
Proof.
  pose proof (DispatchSpec.run_dispatches_spec imp [] ops) as Hrun. pose proof (DispatchSpec.q_run_fifo [] ops) as Hfifo.
  by destruct (DispatchSpec.q_run [] ops) as [batches rest].
Qed.
