(* ===== verification/StateFileIo.v ===== *)
(** File I/O of the states of the shards
    (core-primitives/stf-state-handler/src/file_io.rs,
    in_memory_state_file_io.rs and error.rs): the interface [StateFileIo] with
    what the snapshots rely on, and the files in memory. *)

From stdpp Require Import base gmap fin_maps numbers pretty strings list.
From S2P Require Import Prelude Collections PoolTypes Externalities SidechainDb.

Import Ext(SgxExternalities).
Open Scope worker_scope.

(** [StateId] is a [u128]. *)
Abbreviation StateId := N (only parsing).

(** [error::Error], the part in use; texts made of values carry the values. *)
Inductive StateHandlerError :=
| EmptyRepository
| InvalidStateId (id : StateId)
| InvalidShard (shard : ShardIdentifier)
| StateNotFoundInRepository (state_hash : N)
| StateObserverError (msg : string)
| ZeroCacheSize
| CryptoError (msg : string)
| IoError (msg : string)
| ShOther (msg : string).

#[export] Instance state_handler_error_eq_dec : EqDecision StateHandlerError.
Proof. solve_decision. Defined.

(** The trait [StateFileIo]; [F] is the content of the disk. *)
Class StateFileIo (F St : Type) := {
  io_load : F → ShardIdentifier → StateId → result St StateHandlerError;
  io_compute_hash : F → ShardIdentifier → StateId → result N StateHandlerError;
  io_initialize_shard : F → ShardIdentifier → StateId → St → F * result N StateHandlerError;
  io_write : F → ShardIdentifier → StateId → St → F * result N StateHandlerError;
  io_remove : F → ShardIdentifier → StateId → F * result unit StateHandlerError;
  io_shard_exists : F → ShardIdentifier → bool;
  io_list_shards : F → result (list ShardIdentifier) StateHandlerError;
  io_list_state_ids_for_shard : F → ShardIdentifier → result (list StateId) StateHandlerError;
}.

(** What the snapshots rely on: the disk is a map from shards and ids to states,
    and operations on what exists succeed.  [stored] is what a file keeps of a
    state. *)
Class ReliableStateIo (F St : Type) `{StateFileIo F St} (state_hash : St → N) (stored : St → St) := {
  io_ok : F → Prop;
  io_view : F → gmap ShardIdentifier (gmap StateId St);
  hash_stored : ∀ st, state_hash (stored st) = state_hash st;
  load_present : ∀ f s m i st, io_ok f → io_view f !! s = Some m → m !! i = Some st →
    io_load f s i = Ok st ∧ io_compute_hash f s i = Ok (state_hash st);
  write_present : ∀ f s m i st, io_ok f → (i < 2 ^ 128)%N → io_view f !! s = Some m →
    ∃ f', io_write f s i st = (f', Ok (state_hash st)) ∧ io_ok f' ∧
      io_view f' = <[s := <[i := stored st]> m]> (io_view f);
  initialize_fresh : ∀ f s i st, io_ok f → (i < 2 ^ 128)%N → default ∅ (io_view f !! s) !! i = None →
    ∃ f', io_initialize_shard f s i st = (f', Ok (state_hash st)) ∧ io_ok f' ∧
      io_view f' = <[s := <[i := stored st]> (default ∅ (io_view f !! s))]> (io_view f);
  remove_present : ∀ f s m i, io_ok f → io_view f !! s = Some m → is_Some (m !! i) →
    ∃ f', io_remove f s i = (f', Ok tt) ∧ io_ok f' ∧ io_view f' = <[s := delete i m]> (io_view f);
  list_shards_ok : ∀ f, io_ok f → ∃ l, io_list_shards f = Ok l ∧ l ≡ₚ elements (dom (io_view f));
  list_ids_ok : ∀ f s m, io_ok f → io_view f !! s = Some m →
    ∃ l, io_list_state_ids_for_shard f s = Ok l ∧ l ≡ₚ elements (dom m);
}.

(** ** Files in memory *)

Module MemoryIo.

(** The directory of every shard: ids to the hash and the state. *)
Abbreviation ShardDirectory State := (gmap StateId (N * State)).

Section memory.
Context `{IterOrder} {State External : Type} (compute_state_hash : State → N).
(** [state_selector] and [external_state_generator]. *)
Context (state_selector : External → State) (external_state_generator : State → External).
Implicit Types (f : gmap ShardIdentifier (ShardDirectory State)) (s : ShardIdentifier) (i : StateId).

Definition generate_state_entry (st : State) : N * State := (compute_state_hash st, st).

Definition load f s i : result External StateHandlerError :=
  match f !! s with
  | None => Err (InvalidShard s)
  | Some states_for_shard =>
      match states_for_shard !! i with
      | None => Err (InvalidStateId i)
      | Some (_, inner_state) => Ok (external_state_generator inner_state)
      end
  end.

Definition compute_hash f s i : result N StateHandlerError :=
  let? st := load f s i in Ok (compute_state_hash (state_selector st)).

(** An entry that is there stays. *)
Definition initialize_shard f s i (external_state : External) :
    gmap ShardIdentifier (ShardDirectory State) * result N StateHandlerError :=
  let states_for_shard := default ∅ (f !! s) in
  let state_entry := default (generate_state_entry (state_selector external_state)) (states_for_shard !! i) in
  (<[s := <[i := state_entry]> states_for_shard]> f, Ok state_entry.1).

Definition write f s i (external_state : External) :
    gmap ShardIdentifier (ShardDirectory State) * result N StateHandlerError :=
  let states_for_shard := default ∅ (f !! s) in
  let inner_state := state_selector external_state in
  let state_hash := compute_state_hash inner_state in
  (<[s := <[i := (state_hash, inner_state)]> states_for_shard]> f, Ok state_hash).

Definition remove f s i : gmap ShardIdentifier (ShardDirectory State) * result unit StateHandlerError :=
  match f !! s with
  | None => (f, Err (InvalidShard s))
  | Some states_for_shard =>
      (<[s := delete i states_for_shard]> f,
       match states_for_shard !! i with Some _ => Ok tt | None => Err (InvalidStateId i) end)
  end.

Definition shard_exists f s : bool := bool_decide (is_Some (f !! s)).

Definition list_shards f : result (list ShardIdentifier) StateHandlerError := Ok (map_keys f).

Definition list_state_ids_for_shard f s : result (list StateId) StateHandlerError :=
  match f !! s with
  | None => Err (InvalidShard s)
  | Some shard_directory => Ok (map_keys shard_directory)
  end.

Definition memory_io : StateFileIo (gmap ShardIdentifier (ShardDirectory State)) External :=
  {| io_load := load; io_compute_hash := compute_hash; io_initialize_shard := initialize_shard;
     io_write := write; io_remove := remove; io_shard_exists := shard_exists;
     io_list_shards := list_shards; io_list_state_ids_for_shard := list_state_ids_for_shard |}.

Definition view f : gmap ShardIdentifier (gmap StateId External) :=
  (λ d : ShardDirectory State, (λ e : N * State, external_state_generator e.2) <$> d) <$> f.

Hypothesis select_generate : ∀ st, state_selector (external_state_generator st) = st.

(** Files in memory behave as the snapshots expect. *)
Definition memory_reliable :
  @ReliableStateIo (gmap ShardIdentifier (ShardDirectory State)) External memory_io
    (λ e, compute_state_hash (state_selector e)) (λ e, external_state_generator (state_selector e)).
Proof.
  unshelve refine {| io_ok := λ f, map_Forall (λ _ m, map_Forall (λ _ e, e = generate_state_entry e.2) m) f;
                     io_view := view |}; unfold view; simpl.
  - intros st. by rewrite select_generate.
  - intros f s m i st Hok Hs Hi. rewrite lookup_fmap in Hs. unfold compute_hash, load.
    destruct (f !! s) as [d|]; simplify_eq/=. rewrite lookup_fmap in Hi.
    destruct (d !! i) as [[h x]|]; simplify_eq/=. done.
  - intros f s m i st Hok _ Hs. rewrite lookup_fmap in Hs. destruct (f !! s) as [d|] eqn:Hd; simplify_eq/=.
    eexists. unfold write. rewrite Hd. simpl. split_and!; [done| |by rewrite fmap_insert, fmap_insert].
    apply map_Forall_insert_2; [|done]. apply map_Forall_insert_2; [done|]. by apply (Hok s).
  - intros f s i st Hok _ Hi. unfold initialize_shard. rewrite lookup_fmap in Hi.
    assert (default ∅ (f !! s) !! i = None) as Hn.
    { destruct (f !! s) as [d|]; simpl in *; [|done]. rewrite lookup_fmap in Hi. by destruct (d !! i). }
    rewrite Hn. simpl. eexists. split_and!; [done| |].
    + apply map_Forall_insert_2; [|done]. apply map_Forall_insert_2; [done|].
      destruct (f !! s) as [d|] eqn:Hd; simpl; [by apply (Hok s)|apply map_Forall_empty].
    + rewrite fmap_insert, fmap_insert, lookup_fmap. simpl. destruct (f !! s); simpl; [done|]. by rewrite fmap_empty.
  - intros f s m i Hok Hs Hi. unfold remove. rewrite lookup_fmap in Hs.
    destruct (f !! s) as [d|] eqn:Hd; simplify_eq/=. rewrite lookup_fmap, fmap_is_Some in Hi.
    destruct Hi as [e He]. rewrite He. eexists. split_and!; [done| |by rewrite fmap_insert, fmap_delete].
    apply map_Forall_insert_2; [|done]. apply map_Forall_delete. by apply (Hok s).
  - intros f _. eexists. split; [done|]. by rewrite map_keys_dom, dom_fmap_L.
  - intros f s m _ Hs. rewrite lookup_fmap in Hs. unfold list_state_ids_for_shard.
    destruct (f !! s) as [d|]; simplify_eq/=. eexists. split; [done|].
    by rewrite map_keys_dom, dom_fmap_L.
Defined.
End memory.
End MemoryIo.
