(* ===== verification/SgxFileIo.v ===== *)
(** The encrypted state files of the enclave
    (core-primitives/stf-state-handler/src/file_io.rs, [StateDir] and
    [sgx::SgxStateFileIo]) and their names.

    The disk is the content of the shards directory: file names and bytes by
    directory.  Base58, the state encryption and the codec are external. *)

From Stdlib Require Import Ascii.
From stdpp Require Import base gmap fin_maps numbers pretty strings list.
From S2P Require Import Prelude Collections PoolTypes Externalities SidechainDb StateFileIo.

Import Ext(SgxExternalities).
Open Scope worker_scope.

(** ** The name of a snapshot *)

Module FileName.

Definition ENCRYPTED_STATE_FILE : string := "state.bin".

(** [str::strip_suffix]. *)
Fixpoint strip_suffix (suffix s : string) : option string :=
  if String.eqb s suffix then Some EmptyString else
  match s with
  | EmptyString => None
  | String c s' => String c <$> strip_suffix suffix s'
  end.

Definition digit_of (c : Ascii.ascii) : option N :=
  let n := Ascii.N_of_ascii c in
  if (48 <=? n)%N && (n <=? 57)%N then Some (n - 48)%N else None.

Fixpoint parse_digits (acc : N) (s : string) : option N :=
  match s with
  | EmptyString => Some acc
  | String c s' =>
      match digit_of c with
      | None => None
      | Some d =>
          let acc := (10 * acc + d)%N in
          if (acc <? 2 ^ 128)%N then parse_digits acc s' else None
      end
  end.

(** [str::parse::<u128>]: one leading plus sign is accepted. *)
Definition parse_u128 (s : string) : option N :=
  match s with
  | EmptyString => None
  | String c s' =>
      if decide (c = "+"%char) then match s' with EmptyString => None | _ => parse_digits 0 s' end
      else parse_digits 0 s
  end.

Definition to_file_name (state_id : StateId) : string := pretty state_id +:+ "_" +:+ ENCRYPTED_STATE_FILE.

Definition extract_state_id_from_file_name (file_name : string) : option StateId :=
  strip_suffix ("_" +:+ ENCRYPTED_STATE_FILE) file_name ≫= parse_u128.

Lemma strip_suffix_cons suffix c s :
  strip_suffix suffix (String c s) =
  if String.eqb (String c s) suffix then Some EmptyString else String c <$> strip_suffix suffix s.
Proof. done. Qed.

Lemma strip_suffix_app a suffix : strip_suffix suffix (a +:+ suffix) = Some a.
Proof.
  assert (∀ x y, String.length (x +:+ y) = String.length x + String.length y) as Hlen.
  { induction x as [|c x IH]; intros y; simpl; [done|]. by rewrite IH. }
  induction a as [|c a IH].
  - destruct suffix; simpl; [done|]. by rewrite Ascii.eqb_refl, String.eqb_refl.
  - change (String c a +:+ suffix) with (String c (a +:+ suffix)). rewrite strip_suffix_cons.
    destruct (String.eqb_spec (String c (a +:+ suffix)) suffix) as [Heq|_]; [|by rewrite IH].
    apply (f_equal String.length) in Heq. simpl in Heq. rewrite Hlen in Heq. lia.
Qed.

Lemma digit_of_pretty (n : N) : (n < 10)%N → digit_of (pretty_N_char n) = Some n.
Proof.
  intros Hn. assert (n ∈ [0; 1; 2; 3; 4; 5; 6; 7; 8; 9]%N) as Hin.
  { rewrite !elem_of_cons. lia. }
  rewrite !elem_of_cons, elem_of_nil in Hin. by destruct_or!; subst.
Qed.

Lemma parse_pretty_go x s :
  (x < 2 ^ 128)%N → parse_digits 0 (pretty_N_go x s) = parse_digits x s.
Proof.
  revert s. induction (N.lt_wf_0 x) as [x _ IH]. intros s Hx.
  destruct (decide (0 < x)%N) as [Hpos|]; [|by assert (x = 0)%N as -> by lia].
  rewrite pretty_N_go_step by done.
  assert (x `div` 10 < x)%N by (by apply N.div_lt).
  rewrite IH by lia. simpl. rewrite digit_of_pretty by (by apply N.mod_lt).
  rewrite <-N.div_mod by done. by rewrite (proj2 (N.ltb_lt _ _)).
Qed.

Lemma parse_pretty (x : N) : (x < 2 ^ 128)%N → parse_u128 (pretty x) = Some x.
Proof.
  intros Hx. destruct (decide (x = 0)%N) as [->|Hne]; [done|].
  assert (parse_digits 0 (pretty x) = Some x) as Hp.
  { unfold pretty, pretty_N. rewrite decide_False by done. by rewrite parse_pretty_go. }
  unfold parse_u128. destruct (pretty x) as [|c s] eqn:Hs.
  { simpl in Hp. congruence. }
  rewrite decide_False; [done|]. intros ->. done.
Qed.

Lemma extract_to_file_name (i : StateId) :
  (i < 2 ^ 128)%N → extract_state_id_from_file_name (to_file_name i) = Some i.
Proof.
  intros Hi. unfold extract_state_id_from_file_name, to_file_name. rewrite strip_suffix_app. simpl.
  by apply parse_pretty.
Qed.

Lemma to_file_name_inj (i j : StateId) :
  (i < 2 ^ 128)%N → (j < 2 ^ 128)%N → to_file_name i = to_file_name j → i = j.
Proof.
  intros Hi Hj Heq. apply (f_equal extract_state_id_from_file_name) in Heq.
  rewrite !extract_to_file_name in Heq by done. congruence.
Qed.
End FileName.

(** ** The files *)

(** The base58 name of the directory of a shard. *)
Class Base58 := {
  shard_dir : ShardIdentifier → string;
  shard_from_base58 : string → option ShardIdentifier;
}.

Class Base58Laws `{Base58} : Prop := {
  shard_from_dir : ∀ s, shard_from_base58 (shard_dir s) = Some s;
}.

Module SgxIo.
Import FileName.

(** The shards directory: the files of every directory in it. *)
Abbreviation Disk := (gmap string (gmap string Bytes)).

Section sgx.
Context `{IterOrder} `{Base58} {Key : Type} `{StateCrypto Key}.
Context `{Encode SgxExternalitiesType, Decode SgxExternalitiesType} `{Blake2}.
(** The state key repository. *)
Context (retrieve_key : result Key string).
Implicit Types (d : Disk) (s : ShardIdentifier) (i : StateId) (st : SgxExternalities).

(** *** [StateDir] *)

Definition items_in_directory d (dir : string) : result (list string) StateHandlerError :=
  match d !! dir with
  | Some files => Ok (map_keys files)
  | None => Err (IoError "No such file or directory")
  end.

Definition list_shards d : result (list ShardIdentifier) StateHandlerError :=
  Ok (omap shard_from_base58 (map_keys d)).

Definition list_state_ids_for_shard d s : result (list StateId) StateHandlerError :=
  let? items := items_in_directory d (shard_dir s) in
  Ok (omap extract_state_id_from_file_name items).

Definition shard_exists d s : bool :=
  match list_state_ids_for_shard d s with Ok (_ :: _) => true | _ => false end.

Definition create_shard d s : Disk := <[shard_dir s := default ∅ (d !! shard_dir s)]> d.

Definition purge_shard_dir d s : Disk := delete (shard_dir s) d.

Definition file_for_state_exists d s i : bool :=
  bool_decide (is_Some (d !! shard_dir s ≫= (.!! to_file_name i))).

(** *** [SgxStateFileIo] *)

(** [std::fs::read] of the file of a state, and decryption; an empty file stays
    empty. *)
Definition read d s i : result Bytes StateHandlerError :=
  match d !! shard_dir s ≫= (.!! to_file_name i) with
  | None => Err (IoError "No such file or directory")
  | Some [] => Ok []
  | Some bytes =>
      match retrieve_key with
      | Err e => Err (CryptoError e)
      | Ok state_key =>
          match decrypt state_key bytes with
          | Ok bytes => Ok bytes
          | Err e => Err (ShOther e)
          end
      end
  end.

Definition encrypt_state (state : Bytes) : result Bytes StateHandlerError :=
  match retrieve_key with
  | Err e => Err (CryptoError e)
  | Ok state_key => match encrypt state_key state with Ok c => Ok c | Err e => Err (ShOther e) end
  end.

Definition load d s i : result SgxExternalities StateHandlerError :=
  if file_for_state_exists d s i then
    let? state_encoded := read d s i in
    match decode state_encoded with
    | Err e => Err (ShOther e)
    | Ok state => Ok (Ext.new state)
    end
  else Err (InvalidStateId i).

Definition compute_hash d s i : result N StateHandlerError :=
  let? state := load d s i in Ok (Ext.hash state).

(** [std::fs::write] needs the directory. *)
Definition write d s i st : Disk * result N StateHandlerError :=
  match encrypt_state (encode (Ext.state st)) with
  | Err e => (d, Err e)
  | Ok cyphertext =>
      match d !! shard_dir s with
      | None => (d, Err (IoError "No such file or directory"))
      | Some files =>
          (<[shard_dir s := <[to_file_name i := cyphertext]> files]> d, Ok (Ext.hash st))
      end
  end.

Definition initialize_shard d s i st : Disk * result N StateHandlerError := write (create_shard d s) s i st.

Definition remove d s i : Disk * result unit StateHandlerError :=
  match d !! shard_dir s with
  | Some files =>
      match files !! to_file_name i with
      | Some _ => (<[shard_dir s := delete (to_file_name i) files]> d, Ok tt)
      | None => (d, Err (IoError "No such file or directory"))
      end
  | None => (d, Err (IoError "No such file or directory"))
  end.

#[export] Instance sgx_io : StateFileIo Disk SgxExternalities :=
  {| io_load := load; io_compute_hash := compute_hash; io_initialize_shard := initialize_shard;
     io_write := write; io_remove := remove; io_shard_exists := shard_exists;
     io_list_shards := list_shards; io_list_state_ids_for_shard := list_state_ids_for_shard |}.
End sgx.
End SgxIo.

(** ** The files implement the interface *)

(** A map under other keys. *)
Section rekey.
Context `{Countable K1} `{Countable K2} {V1 V2 : Type} (f : K1 → option K2) (g : V1 → option V2).

Definition rekey (m : gmap K1 V1) : gmap K2 V2 :=
  list_to_map (omap (λ x, k ← f x.1; v ← g x.2; Some (k, v)) (map_to_list m)).

(** No two keys of [m] become the same one. *)
Definition rekeyable (m : gmap K1 V1) : Prop :=
  ∀ k k' k2, is_Some (m !! k) → is_Some (m !! k') → f k = Some k2 → f k' = Some k2 → k = k'.

Lemma rekey_NoDup (l : list (K1 * V1)) :
  NoDup l.*1 → (∀ k k' k2, k ∈ l.*1 → k' ∈ l.*1 → f k = Some k2 → f k' = Some k2 → k = k') →
  NoDup (omap (λ x, k ← f x.1; v ← g x.2; Some (k, v)) l).*1.
Proof.
  induction l as [|[k v] l IH]; intros Hnd Hinj; [constructor|].
  apply NoDup_cons in Hnd as [Hk Hnd]. assert (NoDup (omap (λ x, k ← f x.1; v ← g x.2; Some (k, v)) l).*1) as IH'.
  { apply IH; [done|]. intros a b c Ha Hb. apply Hinj; by right. }
  simpl. destruct (f k) as [k2|] eqn:Hfk; simpl; [|done]. destruct (g v) as [v2|]; simpl; [|done].
  apply NoDup_cons. split; [|done]. rewrite list_elem_of_fmap. intros ([k3 v3] & Heq & Hin). simpl in Heq. subst k3.
  apply list_elem_of_omap in Hin as ([k' v'] & Hin & Hsome). simpl in Hsome.
  destruct (f k') as [k4|] eqn:Hfk'; simpl in Hsome; [|done]. destruct (g v'); simplify_eq/=.
  apply Hk. assert (k = k') as ->; [|apply list_elem_of_fmap; by exists (k', v')].
  apply (Hinj k k' k2); [by left| |done..]. right. apply list_elem_of_fmap. by exists (k', v').
Qed.

Lemma lookup_rekey m k2 v2 :
  rekeyable m →
  rekey m !! k2 = Some v2 ↔ ∃ k v, m !! k = Some v ∧ f k = Some k2 ∧ g v = Some v2.
Proof.
  intros Hinj. unfold rekey. rewrite <-elem_of_list_to_map.
  - rewrite list_elem_of_omap. split.
    + intros ([k v] & Hin%elem_of_map_to_list & Hs). simpl in Hs. exists k, v.
      destruct (f k); simpl in Hs; [|done]. by destruct (g v); simplify_eq/=.
    + intros (k & v & Hm & Hf & Hg). exists (k, v). rewrite elem_of_map_to_list. split; [done|].
      simpl. by rewrite Hf, Hg.
  - apply rekey_NoDup; [apply NoDup_fst_map_to_list|].
    intros k k' k3 Hk Hk'. apply Hinj.
    + apply list_elem_of_fmap in Hk as ([k1 v] & -> & Hin%elem_of_map_to_list). eauto.
    + apply list_elem_of_fmap in Hk' as ([k1 v] & -> & Hin%elem_of_map_to_list). eauto.
Qed.

(** A write under a key that comes back. *)
Lemma rekey_insert m k v k2 v2 :
  rekeyable (<[k := v]> m) → rekeyable m → f k = Some k2 → g v = Some v2 →
  rekey (<[k := v]> m) = <[k2 := v2]> (rekey m).
Proof.
  intros Hinj' Hinj Hf Hg. apply map_eq. intros k3. apply option_eq. intros v3.
  rewrite lookup_rekey by done. destruct (decide (k3 = k2)) as [->|Hne].
  - rewrite lookup_insert_eq. split.
    + intros (k' & v' & Hm & Hf' & Hg'). assert (k' = k) as ->.
      { eapply Hinj'; [by eexists|rewrite lookup_insert_eq; by eexists|done..]. }
      rewrite lookup_insert_eq in Hm. simplify_eq. congruence.
    + intros [= <-]. exists k, v. by rewrite lookup_insert_eq.
  - rewrite lookup_insert_ne, lookup_rekey by done. split.
    + intros (k' & v' & Hm & Hf' & Hg'). exists k', v'. rewrite lookup_insert_ne in Hm by congruence. done.
    + intros (k' & v' & Hm & Hf' & Hg'). exists k', v'. rewrite lookup_insert_ne by congruence. done.
Qed.

Lemma rekey_delete m k k2 :
  rekeyable m → is_Some (m !! k) → f k = Some k2 → rekey (delete k m) = delete k2 (rekey m).
Proof.
  intros Hinj Hk Hf. assert (rekeyable (delete k m)) as Hinj'.
  { intros a b c [x Ha] [y Hb]. apply lookup_delete_Some in Ha as [_ Ha], Hb as [_ Hb]. eapply Hinj; eauto. }
  apply map_eq. intros k3. apply option_eq. intros v3. rewrite lookup_rekey, lookup_delete_Some by done.
  rewrite lookup_rekey by done. split.
  - intros (k' & v' & [Hne Hm]%lookup_delete_Some & Hf' & Hg'). split; [|by eauto].
    intros <-. apply Hne. eapply Hinj; eauto.
  - intros (Hne & k' & v' & Hm & Hf' & Hg'). exists k', v'. split_and!; [|done..].
    rewrite lookup_delete_ne; [done|]. intros <-. congruence.
Qed.

Lemma lookup_rekey_eq m k k2 :
  rekeyable m → (∀ k', is_Some (m !! k') → f k' = Some k2 → k' = k) → f k = Some k2 →
  rekey m !! k2 = m !! k ≫= g.
Proof.
  intros Hinj Hback Hf. apply option_eq. intros v2. rewrite lookup_rekey by done. split.
  - intros (k' & v' & Hm & Hf' & Hg'). rewrite <-(Hback k'), Hm by eauto. done.
  - destruct (m !! k) as [v|] eqn:Hm; simpl; [|done]. intros Hg. eauto.
Qed.

Lemma NoDup_omap_inj (l : list K1) :
  NoDup l → (∀ k k' k2, k ∈ l → k' ∈ l → f k = Some k2 → f k' = Some k2 → k = k') → NoDup (omap f l).
Proof.
  induction l as [|k l IH]; intros Hnd Hinj; [constructor|]. apply NoDup_cons in Hnd as [Hk Hnd].
  assert (NoDup (omap f l)) as IH'.
  { apply IH; [done|]. intros a b c Ha Hb. apply Hinj; by right. }
  simpl. destruct (f k) as [k2|] eqn:Hfk; [|done]. apply NoDup_cons. split; [|done].
  intros (k' & Hin & Hf)%list_elem_of_omap. apply Hk.
  by rewrite (Hinj k k' k2 ltac:(by left) ltac:(by right) Hfk Hf).
Qed.

(** The keys that are read back are the keys of the map. *)
Lemma rekey_keys `{IterOrder} m :
  rekeyable m → (∀ k v, m !! k = Some v → is_Some (g v)) → omap f (map_keys m) ≡ₚ elements (dom (rekey m)).
Proof.
  intros Hinj Hg. apply NoDup_Permutation.
  - apply NoDup_omap_inj; [rewrite map_keys_dom; apply NoDup_elements|].
    intros k k' k2. rewrite map_keys_dom, !elem_of_elements, !elem_of_dom. apply Hinj.
  - apply NoDup_elements.
  - intros k2. rewrite elem_of_elements, elem_of_dom, list_elem_of_omap. split.
    + intros (k & Hk & Hf). rewrite map_keys_dom, elem_of_elements, elem_of_dom in Hk. destruct Hk as [v Hv].
      destruct (Hg k v Hv) as [v2 Hv2]. exists v2. apply lookup_rekey; eauto.
    + intros [v2 (k & v & Hm & Hf & _)%lookup_rekey]; [|done]. exists k. split; [|done].
      rewrite map_keys_dom, elem_of_elements, elem_of_dom. eauto.
Qed.
End rekey.

Module SgxIoInv.
Import FileName SgxIo.

Section reliable.
Context `{IterOrder} `{Base58Laws} {Key : Type} `{StateCryptoLaws Key}.
Context `{Codec SgxExternalitiesType} `{Blake2}.
Context (retrieve_key : result Key string) (key : Key).
Hypothesis key_found : retrieve_key = Ok key.
Implicit Types (d : Disk) (s : ShardIdentifier) (i : StateId) (files : gmap string Bytes).

(** The state in a file. *)
Definition content (c : Bytes) : option SgxExternalities :=
  match match c with [] => Ok [] | _ => decrypt key c end with
  | Ok b => match decode b with Ok st => Some (Ext.new st) | Err _ => None end
  | Err _ => None
  end.

Definition files_ok files : Prop :=
  ∀ name c, files !! name = Some c → is_Some (content c) ∧ ∃ i, (i < 2 ^ 128)%N ∧ name = to_file_name i.

Definition disk_ok d : Prop :=
  ∀ dir files, d !! dir = Some files → (∃ s, dir = shard_dir s) ∧ files_ok files.

Definition files_view files : gmap StateId SgxExternalities :=
  rekey extract_state_id_from_file_name content files.

Definition disk_view d : gmap ShardIdentifier (gmap StateId SgxExternalities) :=
  rekey shard_from_base58 (λ files, Some (files_view files)) d.

Lemma files_rekeyable files : files_ok files → rekeyable extract_state_id_from_file_name files.
Proof.
  intros Hok k k' i [c Hc] [c' Hc']. destruct (Hok k c Hc) as (_ & j & Hj & ->).
  destruct (Hok k' c' Hc') as (_ & j' & Hj' & ->). rewrite !extract_to_file_name by done. congruence.
Qed.

Lemma disk_rekeyable d : disk_ok d → rekeyable shard_from_base58 d.
Proof.
  intros Hok k k' s [c Hc] [c' Hc']. destruct (Hok k c Hc) as [[x ->] _].
  destruct (Hok k' c' Hc') as [[x' ->] _]. rewrite !shard_from_dir. congruence.
Qed.

Lemma disk_view_lookup d s : disk_ok d → disk_view d !! s = files_view <$> d !! shard_dir s.
Proof.
  intros Hok. unfold disk_view. rewrite (lookup_rekey_eq _ _ d (shard_dir s) s).
  - by destruct (d !! shard_dir s).
  - by apply disk_rekeyable.
  - intros k' [c Hc]. destruct (Hok k' c Hc) as [[x ->] _]. rewrite shard_from_dir. congruence.
  - apply shard_from_dir.
Qed.

Lemma disk_view_Some d s m :
  disk_ok d → disk_view d !! s = Some m → ∃ files, d !! shard_dir s = Some files ∧ files_ok files ∧ m = files_view files.
Proof.
  intros Hok. rewrite disk_view_lookup by done. destruct (d !! shard_dir s) as [files|] eqn:Hd; simpl; [|done].
  intros [= <-]. exists files. split_and!; [done| |done]. by apply (Hok (shard_dir s)).
Qed.

Lemma files_view_Some files i st :
  files_ok files → files_view files !! i = Some st →
  (i < 2 ^ 128)%N ∧ ∃ c, files !! to_file_name i = Some c ∧ content c = Some st.
Proof.
  intros Hok (k & c & Hc & Hf & Hct)%lookup_rekey; [|by apply files_rekeyable].
  destruct (Hok k c Hc) as (_ & j & Hj & ->). rewrite extract_to_file_name in Hf by done. simplify_eq. eauto.
Qed.

Lemma disk_ok_insert d s files : disk_ok d → files_ok files → disk_ok (<[shard_dir s := files]> d).
Proof. intros Hok Hf dir fs [[<- <-]|[_ Hd]]%lookup_insert_Some; [by eauto|]. by apply Hok. Qed.

Lemma files_ok_insert files i c :
  files_ok files → (i < 2 ^ 128)%N → is_Some (content c) → files_ok (<[to_file_name i := c]> files).
Proof. intros Hok Hi Hc name c' [[<- <-]|[_ Hd]]%lookup_insert_Some; [by eauto|]. by apply Hok. Qed.

Lemma content_encrypted st c :
  encrypt key (encode st) = Ok c → content c = Some (Ext.new st).
Proof.
  intros Hc. unfold content. destruct c as [|x c].
  - apply encrypt_nonempty in Hc as Hb. by rewrite <-Hb, decode_encode.
  - rewrite (decrypt_encrypt _ _ _ Hc). by rewrite decode_encode.
Qed.

Lemma disk_view_insert d s files :
  disk_ok d → files_ok files → disk_view (<[shard_dir s := files]> d) = <[s := files_view files]> (disk_view d).
Proof.
  intros Hok Hf. apply rekey_insert; [by apply disk_rekeyable, disk_ok_insert|by apply disk_rekeyable|apply shard_from_dir|done].
Qed.

Lemma files_view_insert files i c st :
  files_ok files → (i < 2 ^ 128)%N → content c = Some st →
  files_view (<[to_file_name i := c]> files) = <[i := st]> (files_view files).
Proof.
  intros Hok Hi Hc. apply rekey_insert; [|by apply files_rekeyable|by apply extract_to_file_name|done].
  apply files_rekeyable, files_ok_insert; eauto.
Qed.

(** Writing into a directory that is there. *)
Lemma sgx_write_spec d s files i st :
  disk_ok d → (i < 2 ^ 128)%N → d !! shard_dir s = Some files → files_ok files →
  ∃ d', write retrieve_key d s i st = (d', Ok (Ext.hash st)) ∧ disk_ok d' ∧
    disk_view d' = <[s := <[i := Ext.prune_state_diff st]> (files_view files)]> (disk_view d).
Proof.
  intros Hok Hi Hd Hf. unfold write, encrypt_state. rewrite key_found.
  destruct (encrypt_total key (encode (Ext.state st))) as [c Hc]. rewrite Hc, Hd.
  apply content_encrypted in Hc. eexists. split; [done|].
  assert (files_ok (<[to_file_name i := c]> files)) by (apply files_ok_insert; eauto).
  split; [by apply disk_ok_insert|]. rewrite disk_view_insert by done. by erewrite files_view_insert.
Qed.

(** A file is read with the key of the repository at that time, whatever the key was
    that it was written with. *)
Lemma rekeyed_load d s i st d' r k' :
  write retrieve_key d s i st = (d', Ok r) →
  ∃ c, encrypt key (encode (Ext.state st)) = Ok c ∧
    (c ≠ [] → load (Ok k') d' s i =
      match decrypt k' c with
      | Err e => Err (ShOther e)
      | Ok b => match decode b with Ok st' => Ok (Ext.new st') | Err e => Err (ShOther e) end
      end).
Proof.
  unfold write, encrypt_state. rewrite key_found. destruct (encrypt key _) as [c|e] eqn:Hc; [|done].
  destruct (d !! shard_dir s) as [files|]; [|done]. intros [= <- _]. exists c. split; [done|]. intros Hn.
  unfold load, file_for_state_exists, read. rewrite lookup_insert_eq. cbn [mbind option_bind]. rewrite lookup_insert_eq.
  rewrite bool_decide_true by done. destruct c as [|x c]; [done|]. by destruct (decrypt k' (x :: c)).
Qed.

(** Encrypted files behave as the snapshots expect. *)
Definition sgx_reliable :
  @ReliableStateIo Disk SgxExternalities (sgx_io retrieve_key) Ext.hash Ext.prune_state_diff.
Proof.
  unshelve refine {| io_ok := disk_ok; io_view := disk_view |}; simpl.
  - done.
  - intros d s m i st Hok Hs Hi. apply disk_view_Some in Hs as (files & Hd & Hf & ->); [|done].
    apply files_view_Some in Hi as (Hi & c & Hc & Hct); [|done].
    assert (load retrieve_key d s i = Ok st) as Hl; [|by unfold compute_hash; rewrite Hl].
    unfold load, file_for_state_exists, read. rewrite Hd. simpl. rewrite Hc. rewrite bool_decide_true by eauto.
    unfold content in Hct. rewrite key_found. destruct c as [|x c].
    + destruct (decode []) as [st'|]; [congruence|done].
    + destruct (decrypt key (x :: c)) as [b|]; [|done]. destruct (decode b); [congruence|done].
  - intros d s m i st Hok Hi Hs. apply disk_view_Some in Hs as (files & Hd & Hf & ->); [|done].
    by apply sgx_write_spec.
  - intros d s i st Hok Hi Hfresh. rewrite disk_view_lookup in Hfresh |- * by done.
    assert (files_ok (default ∅ (d !! shard_dir s))) as Hf.
    { destruct (d !! shard_dir s) as [files|] eqn:Hd; simpl; [by apply (Hok (shard_dir s))|done]. }
    unfold initialize_shard, create_shard.
    destruct (sgx_write_spec (<[shard_dir s := default ∅ (d !! shard_dir s)]> d) s (default ∅ (d !! shard_dir s)) i st)
      as (d' & Hw & Hok' & Hv); [by apply disk_ok_insert|done|by rewrite lookup_insert_eq|done|].
    exists d'. split_and!; [done..|]. rewrite Hv, disk_view_insert, insert_insert_eq by done.
    by destruct (d !! shard_dir s).
  - intros d s m i Hok Hs [st Hi]. apply disk_view_Some in Hs as (files & Hd & Hf & ->); [|done].
    apply files_view_Some in Hi as (Hi & c & Hc & Hct); [|done]. unfold remove. rewrite Hd, Hc.
    eexists. split; [done|]. assert (files_ok (delete (to_file_name i) files)) as Hf'.
    { intros name c' [_ Hd']%lookup_delete_Some. by apply Hf. }
    split; [by apply disk_ok_insert|]. rewrite disk_view_insert by done. f_equal.
    apply rekey_delete; [by apply files_rekeyable|by eauto|by apply extract_to_file_name].
  - intros d Hok. eexists. split; [done|]. apply rekey_keys; [by apply disk_rekeyable|by eauto].
  - intros d s m Hok Hs. apply disk_view_Some in Hs as (files & Hd & Hf & ->); [|done].
    unfold list_state_ids_for_shard, items_in_directory. rewrite Hd. eexists. split; [done|].
    apply rekey_keys; [by apply files_rekeyable|]. intros name c Hc. by apply (Hf name).
Defined.
End reliable.
End SgxIoInv.
