(* ===== verification/SnapshotRepository.v ===== *)
(** The snapshots of the states of the shards
    (core-primitives/stf-state-handler/src/state_snapshot_repository.rs,
    state_snapshot_repository_loader.rs and state_snapshot_primitives.rs): a
    bounded history of states per shard, newest first, each in a file of its own.

    The id of a snapshot is the time of its creation; [now] is the reading of the
    clock. *)

From stdpp Require Import base gmap fin_maps fin_map_dom numbers sorting strings list.
From S2P Require Import Prelude Collections PoolTypes StateFileIo.

Open Scope worker_scope.

Module Snapshots.

Record StateSnapshotMetaData := MkMeta {
  sm_hash : N;
  sm_id : StateId;
}.

Abbreviation SnapshotHistory := (gmap ShardIdentifier (list StateSnapshotMetaData)).

Record StateSnapshotRepository (F : Type) := MkRepository {
  file_io : F;
  snapshot_history_cache_size : nat;
  snapshot_history : SnapshotHistory;
}.
Arguments MkRepository {F} _ _ _.
Arguments file_io {F} _.
Arguments snapshot_history_cache_size {F} _.
Arguments snapshot_history {F} _.

Section repository.
Context `{IterOrder} {F St : Type} `{StateFileIo F St}.
Implicit Types (r : StateSnapshotRepository F) (f : F) (s : ShardIdentifier) (now : StateId) (state : St).

Definition set_io r f : StateSnapshotRepository F :=
  MkRepository f (snapshot_history_cache_size r) (snapshot_history r).
Definition set_history r h : StateSnapshotRepository F :=
  MkRepository (file_io r) (snapshot_history_cache_size r) h.

(** state_snapshot_primitives.rs *)
Definition initialize_file now f s state : F * result StateSnapshotMetaData StateHandlerError :=
  match io_initialize_shard f s now state with
  | (f, Ok state_hash) => (f, Ok (MkMeta state_hash now))
  | (f, Err e) => (f, Err e)
  end.

Definition new f (cache_size : nat) (history : SnapshotHistory) :
    result (StateSnapshotRepository F) StateHandlerError :=
  if decide (cache_size = 0) then Err ZeroCacheSize else Ok (MkRepository f cache_size history).

Definition empty f (cache_size : nat) : result (StateSnapshotRepository F) StateHandlerError :=
  new f cache_size ∅.

Definition get_snapshot_history r s : result (list StateSnapshotMetaData) StateHandlerError :=
  match snapshot_history r !! s with Some h => Ok h | None => Err (InvalidShard s) end.

Definition get_latest_snapshot_metadata r s : result StateSnapshotMetaData StateHandlerError :=
  let? h := get_snapshot_history r s in
  match h with m :: _ => Ok m | [] => Err EmptyRepository end.

(** A failure to remove a file is logged. *)
Definition remove_snapshots f s (snapshots_metadata : list StateSnapshotMetaData) : F :=
  foldl (λ f m, (io_remove f s (sm_id m)).1) f snapshots_metadata.

(** [drain] of the entries from [lo] up to [hi]. *)
Definition prune_snapshot_history_by_range r s (lo hi : nat) :
    outcome (StateSnapshotRepository F * result unit StateHandlerError) :=
  match get_snapshot_history r s with
  | Err e => Ret (r, Err e)
  | Ok h =>
      if decide (lo ≤ hi ∧ hi ≤ length h) then
        let r := set_history r (<[s := take lo h ++ drop hi h]> (snapshot_history r)) in
        Ret (set_io r (remove_snapshots (file_io r) s (take (hi - lo) (drop lo h))), Ok tt)
      else Panic
  end.

Definition write_new_state now r s state : StateSnapshotRepository F * result (N * StateId) StateHandlerError :=
  match io_write (file_io r) s now state with
  | (f, Ok state_hash) => (set_io r f, Ok (state_hash, now))
  | (f, Err e) => (set_io r f, Err e)
  end.

Definition initialize_shard_with_snapshot now r s state :
    StateSnapshotRepository F * result N StateHandlerError :=
  match initialize_file now (file_io r) s state with
  | (f, Err e) => (set_io r f, Err e)
  | (f, Ok m) => (set_history (set_io r f) (<[s := [m]]> (snapshot_history r)), Ok (sm_hash m))
  end.

Definition load_latest r s : result St StateHandlerError :=
  let? m := get_latest_snapshot_metadata r s in io_load (file_io r) s (sm_id m).

Definition shard_exists r s : bool := bool_decide (is_Some (snapshot_history r !! s)).

Definition list_shards r : result (list ShardIdentifier) StateHandlerError := Ok (map_keys (snapshot_history r)).

Definition update now r s state (state_hash : N) :
    outcome (StateSnapshotRepository F * result unit StateHandlerError) :=
  if shard_exists r s then
    match write_new_state now r s state with
    | (r, Err e) => Ret (r, Err e)
    | (r, Ok (_, state_id)) =>
        let cache_size := snapshot_history_cache_size r in
        match get_snapshot_history r s with
        | Err e => Ret (r, Err e)
        | Ok h =>
            let h := MkMeta state_hash state_id :: h in
            let r := set_history r (<[s := h]> (snapshot_history r)) in
            if decide (cache_size < length h) then prune_snapshot_history_by_range r s cache_size (length h)
            else Ret (r, Ok tt)
        end
    end
  else
    match initialize_shard_with_snapshot now r s state with
    | (r, Err e) => Ret (r, Err e)
    | (r, Ok _) => Ret (r, Ok tt)
    end.

Definition revert_to r s (state_hash : N) : outcome (StateSnapshotRepository F * result St StateHandlerError) :=
  match get_snapshot_history r s with
  | Err e => Ret (r, Err e)
  | Ok h =>
      match position (λ m, bool_decide (sm_hash m = state_hash)) h with
      | None => Ret (r, Err (StateNotFoundInRepository state_hash))
      | Some index =>
          match h !! index with
          | None => Ret (r, Err (StateNotFoundInRepository state_hash))
          | Some m =>
              match io_load (file_io r) s (sm_id m) with
              | Err e => Ret (r, Err e)
              | Ok state =>
                  prune_snapshot_history_by_range r s 0 index ≫= λ '(r, res),
                  Ret (r, let? x := res in Ok state)
              end
          end
      end
  end.

Definition initialize_new_shard now r s state : StateSnapshotRepository F * result N StateHandlerError :=
  initialize_shard_with_snapshot now r s state.

(** *** The loader *)

(** [StateInitializer::initialize]. *)
Context (initialize : result St StateHandlerError).

(** Snapshots whose hash cannot be computed are ignored. *)
Definition map_to_snapshot_metadata f s (state_ids : list StateId) : list StateSnapshotMetaData :=
  omap (λ i, match io_compute_hash f s i with Ok h => Some (MkMeta h i) | Err _ => None end) state_ids.

Definition load_shard now f s : F * result (list StateSnapshotMetaData) StateHandlerError :=
  match io_list_state_ids_for_shard f s with
  | Err e => (f, Err e)
  | Ok ids =>
      let state_ids := reverse (merge_sort N.le ids) in
      match map_to_snapshot_metadata f s state_ids with
      | [] =>
          match initialize with
          | Err e => (f, Err e)
          | Ok initial_state =>
              match initialize_file now f s initial_state with
              | (f, Err e) => (f, Err e)
              | (f, Ok m) => (f, Ok [m])
              end
          end
      | snapshot_metadata => (f, Ok snapshot_metadata)
      end
  end.

(** The clock is read once per shard at most. *)
Fixpoint load_shards (clock : nat → StateId) f (repository : SnapshotHistory) (shards : list ShardIdentifier) :
    F * result SnapshotHistory StateHandlerError :=
  match shards with
  | [] => (f, Ok repository)
  | s :: shards =>
      match load_shard (clock (length shards)) f s with
      | (f, Err e) => (f, Err e)
      | (f, Ok h) => load_shards clock f (<[s := h]> repository) shards
      end
  end.

Definition load_and_initialize_state_snapshot_history (clock : nat → StateId) f :
    F * result SnapshotHistory StateHandlerError :=
  match io_list_shards f with
  | Err e => (f, Err e)
  | Ok shards => load_shards clock f ∅ shards
  end.

Definition load_snapshot_repository (clock : nat → StateId) f (cache_size : nat) :
    result (StateSnapshotRepository F) StateHandlerError :=
  let '(f, res) := load_and_initialize_state_snapshot_history clock f in
  let? history := res in new f cache_size history.
End repository.
End Snapshots.

(** The repository of snapshots refines a list of states per shard, newest first,
    and the files on disk are exactly the states in it. *)

Open Scope worker_scope.

(** Keys removed from the map of a list. *)
Lemma list_to_map_remove `{Countable K} {V} (l1 l2 : list (K * V)) :
  NoDup (l1 ++ l2).*1 →
  filter (λ x, x.1 ∉ l2.*1) (list_to_map (M := gmap K V) (l1 ++ l2)) = list_to_map l1.
Proof.
  intros Hnd. pose proof Hnd as Hnd'. rewrite fmap_app in Hnd'. apply NoDup_app in Hnd' as (Hnd1 & Hdis & _).
  apply map_eq. intros k. apply option_eq. intros v.
  rewrite map_lookup_filter_Some, <-!elem_of_list_to_map by done. simpl. rewrite elem_of_app. split.
  - intros [[?|Hin] Hk]; [done|]. destruct Hk. apply list_elem_of_fmap. by exists (k, v).
  - intros Hin. split; [by left|]. apply Hdis. apply list_elem_of_fmap. by exists (k, v).
Qed.

Module SnapshotInv.
Import Snapshots.

Section inv.
Context `{IterOrder} {F St : Type} (state_hash : St → N) (stored : St → St).
Context `{Reliable : ReliableStateIo F St state_hash stored}.
Implicit Types (r : StateSnapshotRepository F) (f : F) (s : ShardIdentifier) (now : StateId) (state : St).
Abbreviation Snaps := (gmap ShardIdentifier (list (StateId * St))).
Implicit Types (snaps : Snaps) (l : list (StateId * St)).

Definition meta_of (x : StateId * St) : StateSnapshotMetaData := MkMeta (state_hash x.2) x.1.

Record snaps_ok (size : nat) l : Prop := {
  so_nonempty : l ≠ [];
  so_length : length l ≤ size;
  so_sorted : StronglySorted (λ x y, y.1 < x.1)%N l;
  so_stored : Forall (λ x, (x.1 < 2 ^ 128)%N ∧ stored x.2 = x.2) l;
}.

Record repo_inv r snaps : Prop := {
  ri_io : io_ok (file_io r);
  ri_size : 0 < snapshot_history_cache_size r;
  ri_history : snapshot_history r = (λ l, meta_of <$> l) <$> snaps;
  ri_files : io_view (file_io r) = (λ l, list_to_map l) <$> snaps;
  ri_snaps : map_Forall (λ _ l, snaps_ok (snapshot_history_cache_size r) l) snaps;
}.

Lemma sorted_NoDup l : StronglySorted (λ x y, y.1 < x.1)%N l → NoDup l.*1.
Proof.
  induction 1 as [|x l Hs IH Hx]; [constructor|]. simpl. apply NoDup_cons. split; [|done].
  intros (y & Heq & Hy)%list_elem_of_fmap. rewrite Forall_forall in Hx. specialize (Hx y Hy). rewrite Heq in Hx. lia.
Qed.

Lemma sorted_app_inv l1 l2 :
  StronglySorted (λ x y, y.1 < x.1)%N (l1 ++ l2) →
  StronglySorted (λ x y, y.1 < x.1)%N l1 ∧ StronglySorted (λ x y, y.1 < x.1)%N l2.
Proof.
  induction l1 as [|x l1 IH]; simpl; [intros; split; [constructor|done]|].
  intros [Hs Hx]%StronglySorted_inv. destruct (IH Hs). split; [|done]. constructor; [done|].
  by apply Forall_app in Hx as [? _].
Qed.

Lemma inv_history r snaps s : repo_inv r snaps → snapshot_history r !! s = fmap meta_of <$> snaps !! s.
Proof. intros Hi. rewrite (ri_history _ _ Hi). apply lookup_fmap. Qed.

Lemma inv_files r snaps s : repo_inv r snaps → io_view (file_io r) !! s = list_to_map <$> snaps !! s.
Proof. intros Hi. rewrite (ri_files _ _ Hi). apply lookup_fmap. Qed.

Lemma history_of r snaps s l :
  repo_inv r snaps → snaps !! s = Some l → get_snapshot_history r s = Ok (meta_of <$> l).
Proof. intros Hi Hs. unfold get_snapshot_history. by rewrite (inv_history r snaps s Hi), Hs. Qed.

(** *** Reading *)

Lemma load_entry r snaps s l i st :
  repo_inv r snaps → snaps !! s = Some l → (i, st) ∈ l → io_load (file_io r) s i = Ok st.
Proof.
  intros Hi Hs Hin. apply (load_present (file_io r) s (list_to_map l) i st).
  - apply Hi.
  - by rewrite (inv_files r snaps s Hi), Hs.
  - apply elem_of_list_to_map; [|done]. apply sorted_NoDup. apply (ri_snaps _ _ Hi s l Hs).
Qed.

Lemma load_latest_spec r snaps s :
  repo_inv r snaps →
  load_latest r s = match snaps !! s ≫= head with Some (_, st) => Ok st | None => Err (InvalidShard s) end.
Proof.
  intros Hi. unfold load_latest, get_latest_snapshot_metadata. destruct (snaps !! s) as [l|] eqn:Hs; simpl.
  - rewrite (history_of r snaps s l Hi Hs). destruct l as [|[i st] l].
    { by destruct (so_nonempty _ _ (ri_snaps _ _ Hi s _ Hs)). }
    simpl. eapply load_entry; [done..|]. by left.
  - unfold get_snapshot_history. by rewrite (inv_history r snaps s Hi), Hs.
Qed.

Lemma list_shards_spec r snaps :
  repo_inv r snaps → ∃ shards, list_shards r = Ok shards ∧ shards ≡ₚ elements (dom snaps).
Proof.
  intros Hi. eexists. split; [done|]. by rewrite map_keys_dom, (ri_history _ _ Hi), dom_fmap_L.
Qed.

(** *** Removing files *)

Lemma remove_snapshots_spec f s m (gone : list StateSnapshotMetaData) :
  io_ok f → io_view f !! s = Some m → NoDup (sm_id <$> gone) → (∀ x, x ∈ gone → is_Some (m !! sm_id x)) →
  io_ok (remove_snapshots f s gone) ∧
  io_view (remove_snapshots f s gone) = <[s := filter (λ x, x.1 ∉ sm_id <$> gone) m]> (io_view f).
Proof.
  revert f m. induction gone as [|x gone IH]; intros f m Hok Hm Hnd Hin; simpl.
  { split; [done|]. rewrite map_filter_id, insert_id; [done|done|]. intros ???. apply not_elem_of_nil. }
  apply NoDup_cons in Hnd as [Hx Hnd].
  destruct (remove_present f s m (sm_id x) Hok Hm (Hin x ltac:(by left))) as (f' & Hr & Hok' & Hv). rewrite Hr. simpl.
  destruct (IH f' (delete (sm_id x) m)) as [IH1 IH2]; [done|by rewrite Hv, lookup_insert_eq|done| |].
  { intros y Hy. rewrite lookup_delete_ne; [apply Hin; by right|]. intros Heq. apply Hx. rewrite Heq. by apply list_elem_of_fmap_2. }
  split; [done|]. rewrite IH2, Hv, insert_insert_eq. f_equal.
  apply map_eq. intros k. apply option_eq. intros v.
  rewrite !map_lookup_filter_Some, lookup_delete_Some. simpl. rewrite not_elem_of_cons. naive_solver.
Qed.

Lemma ids_of_metas l : sm_id <$> (meta_of <$> l) = l.*1.
Proof. by rewrite <-list_fmap_compose. Qed.

Lemma metas_present (l : list (StateId * St)) x :
  NoDup l.*1 → x ∈ meta_of <$> l → is_Some (list_to_map (M := gmap StateId St) l !! sm_id x).
Proof.
  intros Hnd (y & -> & Hy)%list_elem_of_fmap. exists y.2. apply elem_of_list_to_map; [done|]. by destruct y.
Qed.

Lemma drain_perm {A} lo hi (l : list A) :
  lo ≤ hi → l ≡ₚ (take lo l ++ drop hi l) ++ take (hi - lo) (drop lo l).
Proof.
  intros Hle. rewrite <-(take_drop lo l) at 1. rewrite <-app_assoc. f_equiv.
  rewrite <-(take_drop (hi - lo) (drop lo l)) at 1. rewrite drop_drop, Permutation_app_comm.
  by replace (lo + (hi - lo)) with hi by lia.
Qed.

(** Draining entries of a shard removes their files. *)
Lemma prune_range_spec r s l lo hi :
  io_ok (file_io r) → snapshot_history r !! s = Some (meta_of <$> l) → lo ≤ hi → hi ≤ length l →
  io_view (file_io r) !! s = Some (list_to_map l) → NoDup l.*1 →
  ∃ f', prune_snapshot_history_by_range r s lo hi =
      Ret (MkRepository f' (snapshot_history_cache_size r)
        (<[s := meta_of <$> (take lo l ++ drop hi l)]> (snapshot_history r)), Ok tt) ∧
    io_ok f' ∧ io_view f' = <[s := list_to_map (take lo l ++ drop hi l)]> (io_view (file_io r)).
Proof.
  intros Hok Hh Hlo Hhi Hm Hnd. unfold prune_snapshot_history_by_range, get_snapshot_history.
  rewrite Hh, decide_True by (by rewrite length_fmap). eexists. rewrite fmap_app, fmap_take, fmap_drop.
  split; [done|]. simpl. rewrite <-fmap_drop, <-fmap_take.
  destruct (remove_snapshots_spec (file_io r) s (list_to_map l) (meta_of <$> take (hi - lo) (drop lo l))) as [Hok' Hv].
  - done.
  - done.
  - rewrite ids_of_metas, fmap_take, fmap_drop. apply (sublist_NoDup _ l.*1); [done|].
    etrans; [apply sublist_take|apply sublist_drop].
  - intros x Hx. apply metas_present; [done|]. apply list_elem_of_fmap in Hx as (y & -> & Hy).
    apply list_elem_of_fmap_2. by eapply subseteq_drop, subseteq_take.
  - split; [done|]. rewrite Hv. f_equal. rewrite ids_of_metas.
    rewrite (list_to_map_proper l _ Hnd (drain_perm lo hi l Hlo)).
    apply list_to_map_remove. by rewrite <-(drain_perm lo hi l Hlo).
Qed.

(** *** Writing *)

(** The time is later than every snapshot of the shard. *)
Definition later now (l : list (StateId * St)) : Prop :=
  (now < 2 ^ 128)%N ∧ Forall (λ x, x.1 < now)%N l.

Lemma inv_insert r snaps s l f' :
  repo_inv r snaps → snaps_ok (snapshot_history_cache_size r) l → io_ok f' →
  io_view f' = <[s := list_to_map l]> (io_view (file_io r)) →
  repo_inv (MkRepository f' (snapshot_history_cache_size r) (<[s := meta_of <$> l]> (snapshot_history r)))
    (<[s := l]> snaps).
Proof.
  intros Hi Hl Hok Hv. split; simpl.
  - done.
  - apply Hi.
  - by rewrite (ri_history _ _ Hi), fmap_insert.
  - by rewrite Hv, (ri_files _ _ Hi), fmap_insert.
  - apply map_Forall_insert_2; [done|apply Hi].
Qed.

Lemma snaps_ok_cons size now st l :
  0 < size → later now l → stored st = st →
  StronglySorted (λ x y, y.1 < x.1)%N l → Forall (λ x, (x.1 < 2 ^ 128)%N ∧ stored x.2 = x.2) l →
  snaps_ok size (take size ((now, st) :: l)).
Proof.
  intros Hsize [Hnow Hlate] Hst Hs Hf.
  assert (StronglySorted (λ x y, y.1 < x.1)%N ((now, st) :: l)) as Hs' by by constructor.
  split.
  - by destruct size; [lia|].
  - rewrite length_take. lia.
  - rewrite <-(take_drop size) in Hs'. by apply sorted_app_inv in Hs' as [? _].
  - apply Forall_take. by constructor.
Qed.

Lemma shard_exists_spec r snaps s : repo_inv r snaps → shard_exists r s = bool_decide (is_Some (snaps !! s)).
Proof.
  intros Hi. unfold shard_exists. apply bool_decide_ext. by rewrite (inv_history r snaps s Hi), fmap_is_Some.
Qed.

(** The state in front and nothing beyond the cache size. *)
Definition q_update (size : nat) snaps s now (st : St) : Snaps :=
  <[s := take size ((now, st) :: default [] (snaps !! s))]> snaps.

Lemma update_existing now r snaps s l st :
  repo_inv r snaps → snaps !! s = Some l → later now l → stored st = st →
  ∃ r', update now r s st (state_hash st) = Ret (r', Ok tt) ∧
    snapshot_history_cache_size r' = snapshot_history_cache_size r ∧
    repo_inv r' (<[s := take (snapshot_history_cache_size r) ((now, st) :: l)]> snaps).
Proof.
  intros Hi Hs Hlate Hst. pose proof (ri_snaps _ _ Hi s l Hs) as [Hne Hlen Hsort Hfor].
  pose proof (snaps_ok_cons (snapshot_history_cache_size r) now st l (ri_size _ _ Hi) Hlate Hst Hsort Hfor) as Hok'.
  assert (NoDup ((now, st) :: l).*1) as Hnd by (apply sorted_NoDup; constructor; [done|apply Hlate]).
  destruct (write_present (file_io r) s (list_to_map l) now st (ri_io _ _ Hi) (proj1 Hlate)) as (f' & Hw & Hiok & Hv).
  { by rewrite (inv_files r snaps s Hi), Hs. }
  unfold update. rewrite (shard_exists_spec r snaps s Hi), bool_decide_true by (by rewrite Hs).
  unfold write_new_state. rewrite Hw. unfold get_snapshot_history, set_history, set_io.
  cbn [snapshot_history snapshot_history_cache_size file_io].
  rewrite (inv_history r snaps s Hi), Hs. cbn [fmap option_fmap option_map]. rewrite Hst in Hv.
  change (MkMeta (state_hash st) now :: (meta_of <$> l)) with (meta_of <$> ((now, st) :: l)). rewrite length_fmap.
  case_decide as Hlt.
  - destruct (prune_range_spec (MkRepository f' (snapshot_history_cache_size r)
        (<[s := meta_of <$> ((now, st) :: l)]> (snapshot_history r))) s ((now, st) :: l)
        (snapshot_history_cache_size r) (length ((now, st) :: l))) as (f2 & Hp & Hok2 & Hv2);
      cbn [file_io snapshot_history snapshot_history_cache_size] in *.
    { done. } { by rewrite lookup_insert_eq. } { lia. } { done. } { by rewrite Hv, lookup_insert_eq. } { done. }
    rewrite insert_insert_eq, drop_all, app_nil_r in *. eexists. split; [exact Hp|]. split; [done|].
    apply inv_insert; [done..|]. by rewrite Hv2, Hv, insert_insert_eq.
  - eexists. split; [done|]. split; [done|]. rewrite take_ge in * by lia. by apply inv_insert.
Qed.

(** An update puts the state in front and drops what exceeds the cache size. *)
Lemma update_spec now r snaps s st :
  repo_inv r snaps → later now (default [] (snaps !! s)) → stored st = st →
  ∃ r', update now r s st (state_hash st) = Ret (r', Ok tt) ∧
    snapshot_history_cache_size r' = snapshot_history_cache_size r ∧
    repo_inv r' (q_update (snapshot_history_cache_size r) snaps s now st).
Proof.
  intros Hi Hlate Hst. unfold q_update. destruct (snaps !! s) as [l|] eqn:Hs; [by apply update_existing|].
  pose proof (snaps_ok_cons (snapshot_history_cache_size r) now st [] (ri_size _ _ Hi) Hlate Hst
    ltac:(constructor) ltac:(constructor)) as Hok'.
  unfold update. rewrite (shard_exists_spec r snaps s Hi), bool_decide_false by (rewrite Hs; apply is_Some_None).
  unfold initialize_shard_with_snapshot, initialize_file.
  destruct (initialize_fresh (file_io r) s now st (ri_io _ _ Hi) (proj1 Hlate)) as (f' & Hw & Hiok & Hv).
  { by rewrite (inv_files r snaps s Hi), Hs. }
  rewrite Hw. eexists. split; [done|]. split; [done|]. cbn [default].
  pose proof (ri_size _ _ Hi). rewrite take_ge in * by (simpl; lia). apply (inv_insert r snaps s [(now, st)] f'); [done..|].
  rewrite Hv, (inv_files r snaps s Hi), Hs, Hst. done.
Qed.

(** A revert finds the newest snapshot with the hash and drops the newer ones. *)
Lemma revert_spec r snaps s l h :
  repo_inv r snaps → snaps !! s = Some l →
  match position (λ x, bool_decide (state_hash x.2 = h)) l with
  | None => revert_to r s h = Ret (r, Err (StateNotFoundInRepository h))
  | Some i => ∃ x r', l !! i = Some x ∧ revert_to r s h = Ret (r', Ok x.2) ∧
      snapshot_history_cache_size r' = snapshot_history_cache_size r ∧ repo_inv r' (<[s := drop i l]> snaps)
  end.
Proof.
  intros Hi Hs. pose proof (ri_snaps _ _ Hi s l Hs) as [Hne Hlen Hsort Hfor].
  unfold revert_to. rewrite (history_of r snaps s l Hi Hs).
  assert (∀ l' : list (StateId * St), position (λ m, bool_decide (sm_hash m = h)) (meta_of <$> l') =
    position (λ x, bool_decide (state_hash x.2 = h)) l') as ->.
  { induction l' as [|x l' IH]; [done|]. rewrite fmap_cons. cbn [position]. rewrite IH. done. }
  destruct (position _ l) as [i|] eqn:Hp; [|done].
  apply position_Some in Hp as (x & Hx & _). exists x. rewrite list_lookup_fmap, Hx. cbn [fmap option_fmap option_map].
  apply lookup_lt_Some in Hx as Hlt. destruct x as [id st] eqn:Hxe. cbn [meta_of sm_id fst snd].
  rewrite (load_entry r snaps s l id st Hi Hs (list_elem_of_lookup_2 _ _ _ Hx)).
  destruct (prune_range_spec r s l 0 i) as (f' & -> & Hok & Hv).
  { apply Hi. } { by rewrite (inv_history r snaps s Hi), Hs. } { lia. } { lia. }
  { by rewrite (inv_files r snaps s Hi), Hs. } { by apply sorted_NoDup. }
  eexists. split_and!; [done..|]. rewrite take_0 in *. apply inv_insert; [done| |done|done].
  rewrite <-(take_drop i l) in Hsort, Hfor. apply sorted_app_inv in Hsort as [_ ?]. apply Forall_app in Hfor as [_ ?].
  split; [|rewrite length_drop; lia|done..]. intros Hnil. apply (f_equal length) in Hnil.
  rewrite length_drop in Hnil. simpl in Hnil. lia.
Qed.

(** *** Loading a repository from its files *)

Lemma sorted_reverse l : StronglySorted (λ x y, y.1 < x.1)%N l → StronglySorted N.le (reverse l.*1).
Proof.
  induction 1 as [|x l Hs IH Hx]; [constructor|]. rewrite fmap_cons, reverse_cons. apply StronglySorted_app_2; [|done|].
  - intros i j Hi Hj%list_elem_of_singleton. subst j. apply elem_of_reverse, list_elem_of_fmap in Hi as (y & -> & Hy).
    rewrite Forall_forall in Hx. specialize (Hx y Hy). lia.
  - constructor; constructor.
Qed.

Lemma sort_ids (ids : list StateId) l :
  StronglySorted (λ x y, y.1 < x.1)%N l → ids ≡ₚ l.*1 → reverse (merge_sort N.le ids) = l.*1.
Proof.
  intros Hs Hp. rewrite <-(reverse_involutive l.*1). f_equal. apply (StronglySorted_unique N.le).
  - apply StronglySorted_merge_sort; tc_solve.
  - by apply sorted_reverse.
  - by rewrite merge_sort_Permutation, reverse_Permutation.
Qed.

Lemma map_to_metadata r snaps s l l' :
  repo_inv r snaps → snaps !! s = Some l → l' ⊆ l →
  map_to_snapshot_metadata (file_io r) s l'.*1 = meta_of <$> l'.
Proof.
  intros Hi Hs. induction l' as [|[i st] l' IH]; [done|]. intros Hin. unfold map_to_snapshot_metadata in *. simpl.
  assert (Hst : (i, st) ∈ l) by (apply Hin; left).
  rewrite (proj2 (load_present (file_io r) s (list_to_map l) i st (ri_io _ _ Hi)
    ltac:(by rewrite (inv_files r snaps s Hi), Hs)
    ltac:(apply elem_of_list_to_map; [apply sorted_NoDup, (ri_snaps _ _ Hi s l Hs)|done]))).
  f_equal. apply IH. intros x Hx. apply Hin. by right.
Qed.

Context (initialize : result St StateHandlerError).

Lemma load_shard_spec now r snaps s l :
  repo_inv r snaps → snaps !! s = Some l →
  load_shard initialize now (file_io r) s = (file_io r, Ok (meta_of <$> l)).
Proof.
  intros Hi Hs. pose proof (ri_snaps _ _ Hi s l Hs) as [Hne Hlen Hsort Hfor]. unfold load_shard.
  destruct (list_ids_ok (file_io r) s (list_to_map l) (ri_io _ _ Hi)) as (ids & -> & Hp).
  { by rewrite (inv_files r snaps s Hi), Hs. }
  rewrite (sort_ids ids l Hsort).
  - rewrite (map_to_metadata r snaps s l l Hi Hs) by done. destruct l; [done|]. done.
  - rewrite Hp, dom_list_to_map_L, elements_list_to_set; [done|]. by apply sorted_NoDup.
Qed.

Lemma load_shards_spec clock r snaps shards h :
  repo_inv r snaps → Forall (λ s, is_Some (snaps !! s)) shards →
  ∃ h', load_shards initialize clock (file_io r) h shards = (file_io r, Ok h') ∧
    ∀ s, h' !! s = if decide (s ∈ shards) then fmap meta_of <$> snaps !! s else h !! s.
Proof.
  intros Hi. revert h. induction shards as [|s shards IH]; intros h Hall.
  { exists h. split; [done|]. intros s. rewrite decide_False by apply not_elem_of_nil. done. }
  apply Forall_cons in Hall as [[l Hs] Hall]. simpl. rewrite (load_shard_spec _ r snaps s l Hi Hs).
  destruct (IH (<[s := meta_of <$> l]> h) Hall) as (h' & -> & Hh'). exists h'. split; [done|]. intros s'. rewrite Hh'.
  destruct (decide (s' ∈ shards)); [rewrite decide_True by (by right); done|].
  destruct (decide (s' = s)) as [->|Hne].
  - by rewrite lookup_insert_eq, decide_True, Hs by left.
  - rewrite lookup_insert_ne, decide_False by (done || (by rewrite elem_of_cons; intros [?|?])). done.
Qed.

(** Loading from the files of a repository gives the same history. *)
Lemma load_repository_spec clock r snaps :
  repo_inv r snaps →
  load_snapshot_repository initialize clock (file_io r) (snapshot_history_cache_size r) = Ok r.
Proof.
  intros Hi. unfold load_snapshot_repository, load_and_initialize_state_snapshot_history.
  destruct (list_shards_ok (file_io r) (ri_io _ _ Hi)) as (shards & -> & Hp).
  assert (∀ s, s ∈ shards ↔ is_Some (snaps !! s)) as Hin.
  { intros s. by rewrite Hp, elem_of_elements, (ri_files _ _ Hi), dom_fmap, elem_of_dom. }
  destruct (load_shards_spec clock r snaps shards ∅ Hi) as (h & -> & Hh).
  { apply Forall_forall. intros s Hs. by apply Hin. }
  simpl. unfold new. rewrite decide_False by (pose proof (ri_size _ _ Hi); lia).
  destruct r as [f size hist]. simpl in *. do 2 f_equal. apply map_eq. intros s. rewrite Hh.
  rewrite (inv_history _ _ s Hi : hist !! s = _). case_decide as Hs; [done|].
  rewrite Hin in Hs. apply eq_None_not_Some in Hs. by rewrite Hs, lookup_empty.
Qed.
End inv.
End SnapshotInv.
