(* ===== verification/StateHandler.v ===== *)
(** The states of the shards in memory
    (core-primitives/stf-state-handler/src/state_handler.rs, handle_state.rs,
    query_shard_state.rs) and their observer
    (core-primitives/stf-state-observer/src/state_observer.rs).

    The write lock that [load_for_mutation] returns guards the map of the states;
    a mutation is the code between the two calls.  The locks are never poisoned. *)

From stdpp Require Import base gmap fin_maps fin_map_dom numbers sorting strings list.
From S2P Require Import Prelude Collections PoolTypes Externalities SidechainDb StateFileIo SnapshotRepository.

Import Ext(SgxExternalities).
Open Scope worker_scope.

(** ** The observer *)

Inductive ObserverError :=
| CurrentShardStateEmpty.

Module Observer.

Record StateObserver (St : Type) := MkObserver {
  queued_state_updates : gmap ShardIdentifier St;
  current_state : gmap ShardIdentifier St;
}.
Arguments MkObserver {St} _ _.
Arguments queued_state_updates {St} _.
Arguments current_state {St} _.

Section observer.
Context `{IterOrder} {St : Type}.
Implicit Types (o : StateObserver St) (s : ShardIdentifier) (st : St).

Definition new s st : StateObserver St := MkObserver ∅ {[ s := st ]}.

Definition from_map (states_map : gmap ShardIdentifier St) : StateObserver St := MkObserver ∅ states_map.

(** [drain] leaves the queue empty. *)
Definition apply_pending_update o : StateObserver St :=
  let state_updates := map_iter (queued_state_updates o) in
  MkObserver ∅ (foldl (λ m x, <[x.1 := x.2]> m) (current_state o) state_updates).

(** The observation may change the state it is given. *)
Definition observe_state {R} o s (observation_func : St → R * St) : StateObserver St * result R ObserverError :=
  let o := apply_pending_update o in
  match current_state o !! s with
  | Some st =>
      let '(x, st) := observation_func st in
      (MkObserver (queued_state_updates o) (<[s := st]> (current_state o)), Ok x)
  | None => (o, Err CurrentShardStateEmpty)
  end.

Definition queue_state_update o s st : StateObserver St :=
  MkObserver (<[s := st]> (queued_state_updates o)) (current_state o).
End observer.
End Observer.

(** ** The states in memory *)

Module Handler.
Import Observer Snapshots.

Abbreviation StatesMap := (gmap ShardIdentifier (SgxExternalities * N)).

Record StateHandler (F : Type) := MkHandler {
  state_snapshot_repository : StateSnapshotRepository F;
  states_map : StatesMap;
  state_observer : StateObserver SgxExternalities;
}.
Arguments MkHandler {F} _ _ _.
Arguments state_snapshot_repository {F} _.
Arguments states_map {F} _.
Arguments state_observer {F} _.

Section handler.
Context `{IterOrder} `{Encode SgxExternalitiesType} `{Blake2}.
Context {F : Type} `{StateFileIo F SgxExternalities}.
(** [StateInitializer::initialize]. *)
Context (initialize : result SgxExternalities StateHandlerError).
Implicit Types (h : StateHandler F) (s : ShardIdentifier) (st : SgxExternalities) (now : StateId).

Definition new_with_states_map (repository : StateSnapshotRepository F) (o : StateObserver SgxExternalities)
    (m : StatesMap) : StateHandler F :=
  MkHandler repository m o.

Definition new (repository : StateSnapshotRepository F) (o : StateObserver SgxExternalities) : StateHandler F :=
  new_with_states_map repository o ∅.

(** A state that cannot be loaded is logged. *)
Definition load_all_latest_snapshots (repository : StateSnapshotRepository F) : result StatesMap StateHandlerError :=
  let? shards := Snapshots.list_shards repository in
  Ok (foldl (λ m s,
        match load_latest repository s with
        | Ok st => <[s := (st, Ext.hash st)]> m
        | Err _ => m
        end) ∅ shards).

Definition load_from_repository (repository : StateSnapshotRepository F) (o : StateObserver SgxExternalities) :
    result (StateHandler F) StateHandlerError :=
  let? m := load_all_latest_snapshots repository in Ok (new_with_states_map repository o m).

Definition update_state_snapshot now h s st (state_hash : N) :
    outcome (StateHandler F * result unit StateHandlerError) :=
  update now (state_snapshot_repository h) s st state_hash ≫= λ '(r, res),
  Ret (MkHandler r (states_map h) (state_observer h), res).

Definition execute_on_current {R} h s (executing_function : SgxExternalities → N → R) : result R StateHandlerError :=
  match states_map h !! s with
  | Some (st, state_hash) => Ok (executing_function st state_hash)
  | None => Err (InvalidShard s)
  end.

Definition load_cloned h s : result (SgxExternalities * N) StateHandlerError :=
  match states_map h !! s with
  | Some x => Ok x
  | None => Err (InvalidShard s)
  end.

Definition load_for_mutation h s : result SgxExternalities StateHandlerError :=
  match states_map h !! s with
  | Some x => Ok x.1
  | None => Err (InvalidShard s)
  end.

Definition write_after_mutation now h st s : outcome (StateHandler F * result N StateHandlerError) :=
  let st := Ext.prune_state_diff st in
  let state_hash := Ext.hash st in
  let h := MkHandler (state_snapshot_repository h) (<[s := (st, state_hash)]> (states_map h)) (state_observer h) in
  update_state_snapshot now h s st state_hash ≫= λ '(h, res),
  match res with
  | Err e => Ret (h, Err e)
  | Ok _ =>
      Ret (MkHandler (state_snapshot_repository h) (states_map h) (queue_state_update (state_observer h) s st),
           Ok state_hash)
  end.

Definition reset now h st s : outcome (StateHandler F * result N StateHandlerError) :=
  write_after_mutation now h st s.

Definition initialize_shard now h s : outcome (StateHandler F * result N StateHandlerError) :=
  match initialize with
  | Err e => Ret (h, Err e)
  | Ok initialized_state => reset now h initialized_state s
  end.

Definition shard_exists h s : result bool StateHandlerError := Ok (bool_decide (is_Some (states_map h !! s))).

Definition list_shards h : result (list ShardIdentifier) StateHandlerError := Ok (map_keys (states_map h)).

(** *** Start of the enclave (enclave-runtime/src/initialization/mod.rs) *)

Fixpoint insert_latest (r : StateSnapshotRepository F) (m : gmap ShardIdentifier SgxExternalities)
    (shards : list ShardIdentifier) : result (gmap ShardIdentifier SgxExternalities) StateHandlerError :=
  match shards with
  | [] => Ok m
  | s :: shards => let? st := load_latest r s in insert_latest r (<[s := st]> m) shards
  end.

Definition initialize_state_observer (r : StateSnapshotRepository F) :
    result (StateObserver SgxExternalities) StateHandlerError :=
  let? shards := Snapshots.list_shards r in
  let? m := insert_latest r ∅ shards in Ok (from_map m).

Definition init_state_handler (clock : nat → StateId) (f : F) (cache_size : nat) :
    result (StateHandler F) StateHandlerError :=
  let? repository := load_snapshot_repository initialize clock f cache_size in
  let? o := initialize_state_observer repository in
  load_from_repository repository o.

(** An observation through the observer the handler updates. *)
Definition observe {R} h s (f : SgxExternalities → R * SgxExternalities) : StateHandler F * result R ObserverError :=
  let '(o, res) := observe_state (state_observer h) s f in
  (MkHandler (state_snapshot_repository h) (states_map h) o, res).
End handler.
End Handler.

(** ** The interface of the states *)

(** The traits [HandleState] and [QueryShardState] of the components that work on the states; [W] holds the states. *)
Class HandleState (W : Type) := {
  hs_load_cloned : W → ShardIdentifier → result (SgxExternalities * N) StateHandlerError;
  hs_load_for_mutation : W → ShardIdentifier → result SgxExternalities StateHandlerError;
  hs_write_after_mutation : StateId → W → SgxExternalities → ShardIdentifier →
    outcome (W * result N StateHandlerError);
  hs_initialize_shard : StateId → W → ShardIdentifier → outcome (W * result N StateHandlerError);
  hs_shard_exists : W → ShardIdentifier → result bool StateHandlerError;
  hs_list_shards : W → result (list ShardIdentifier) StateHandlerError;
}.

(** What the components rely on: the states are a map from shards to states, and
    a state is read as it was written but for its diff, whether or not the write
    of its snapshot failed.  It does not fail if [hs_writable]. *)
Class HandleStateLaws (W : Type) `{HandleState W} `{Encode SgxExternalitiesType} `{Blake2}
    (initialize : result SgxExternalities StateHandlerError) := {
  hs_ok : W → Prop;
  hs_view : W → gmap ShardIdentifier SgxExternalities;
  hs_writable : StateId → W → ShardIdentifier → Prop;
  load_cloned_ok : ∀ w s, hs_ok w →
    hs_load_cloned w s = match hs_view w !! s with Some st => Ok (st, Ext.hash st) | None => Err (InvalidShard s) end;
  load_for_mutation_ok : ∀ w s, hs_ok w →
    hs_load_for_mutation w s = match hs_view w !! s with Some st => Ok st | None => Err (InvalidShard s) end;
  view_no_diff : ∀ w s st, hs_ok w → hs_view w !! s = Some st → Ext.state_diff st = ∅;
  write_ok : ∀ now w st s, hs_ok w →
    ∃ w' res, hs_write_after_mutation now w st s = Ret (w', res) ∧ hs_ok w' ∧
      hs_view w' = <[s := Ext.prune_state_diff st]> (hs_view w) ∧ (hs_writable now w s → res = Ok (Ext.hash st));
  initialize_ok : ∀ now w st s, hs_ok w → initialize = Ok st →
    ∃ w' res, hs_initialize_shard now w s = Ret (w', res) ∧ hs_ok w' ∧
      hs_view w' = <[s := Ext.prune_state_diff st]> (hs_view w) ∧ (hs_writable now w s → res = Ok (Ext.hash st));
  initialize_fails : ∀ now w e s, hs_ok w → initialize = Err e → hs_initialize_shard now w s = Ret (w, Err e);
  shard_exists_ok : ∀ w s, hs_ok w → hs_shard_exists w s = Ok (bool_decide (is_Some (hs_view w !! s)));
  handler_shards_ok : ∀ w, hs_ok w → ∃ l, hs_list_shards w = Ok l ∧ l ≡ₚ elements (dom (hs_view w));
}.

(** ** The handler keeps the newest snapshot of every shard in memory *)

Module HandlerInv.
Import Observer Snapshots SnapshotInv Handler.

Section inv.
Context `{IterOrder} `{Encode SgxExternalitiesType} `{Blake2}.
Context {F : Type} `{Reliable : ReliableStateIo F SgxExternalities Ext.hash Ext.prune_state_diff}.
Context (initialize : result SgxExternalities StateHandlerError).
Implicit Types (h : StateHandler F) (s : ShardIdentifier) (st : SgxExternalities) (now : StateId).
Abbreviation Snaps := (gmap ShardIdentifier (list (StateId * SgxExternalities))).
Implicit Types (snaps : Snaps).

(** The newest state of every shard. *)
Definition latest snaps : gmap ShardIdentifier SgxExternalities := omap (λ l, snd <$> head l) snaps.

Definition with_hash st : SgxExternalities * N := (st, Ext.hash st).

Record handler_inv h snaps : Prop := {
  hi_repo : repo_inv Ext.hash Ext.prune_state_diff (state_snapshot_repository h) snaps;
  hi_map : states_map h = with_hash <$> latest snaps;
}.

Lemma latest_insert snaps s x l : latest (<[s := x :: l]> snaps) = <[s := x.2]> (latest snaps).
Proof. unfold latest. by rewrite omap_insert. Qed.

Lemma latest_q_update size snaps s now st :
  0 < size → latest (q_update size snaps s now st) = <[s := st]> (latest snaps).
Proof. intros Hs. unfold q_update. destruct size; [lia|]. simpl. by rewrite latest_insert. Qed.

Lemma hash_pruned st : Ext.hash (Ext.prune_state_diff st) = Ext.hash st.
Proof. done. Qed.

Lemma states_map_lookup h snaps s : handler_inv h snaps → states_map h !! s = with_hash <$> latest snaps !! s.
Proof. intros Hi. rewrite (hi_map _ _ Hi). apply lookup_fmap. Qed.

Lemma write_after_mutation_spec now h snaps st s :
  handler_inv h snaps → later now (default [] (snaps !! s)) →
  ∃ h', write_after_mutation now h st s = Ret (h', Ok (Ext.hash st)) ∧
    handler_inv h' (q_update (snapshot_history_cache_size (state_snapshot_repository h)) snaps s now (Ext.prune_state_diff st)) ∧
    snapshot_history_cache_size (state_snapshot_repository h') =
      snapshot_history_cache_size (state_snapshot_repository h) ∧
    state_observer h' = queue_state_update (state_observer h) s (Ext.prune_state_diff st).
Proof.
  intros Hi Hlate. unfold write_after_mutation, update_state_snapshot.
  destruct (update_spec Ext.hash Ext.prune_state_diff now (state_snapshot_repository h) snaps s
    (Ext.prune_state_diff st) (hi_repo _ _ Hi) Hlate) as (r & Hu & Hsize & Hr); [done|].
  cbn [state_snapshot_repository states_map state_observer]. rewrite Hu. simpl.
  eexists. split; [done|]. split; [|done]. split; simpl; [done|].
  rewrite latest_q_update by apply (ri_size _ _ _ _ (hi_repo _ _ Hi)). by rewrite (hi_map _ _ Hi), fmap_insert.
Qed.

Lemma load_cloned_spec h snaps s :
  handler_inv h snaps →
  load_cloned h s = match latest snaps !! s with Some st => Ok (st, Ext.hash st) | None => Err (InvalidShard s) end.
Proof.
  intros Hi. unfold load_cloned. rewrite (states_map_lookup h snaps s Hi). by destruct (latest snaps !! s).
Qed.

Lemma load_latest_latest r snaps s :
  repo_inv Ext.hash Ext.prune_state_diff r snaps →
  load_latest r s = match latest snaps !! s with Some st => Ok st | None => Err (InvalidShard s) end.
Proof.
  intros Hr. rewrite (load_latest_spec _ _ r snaps s Hr). unfold latest. rewrite lookup_omap.
  destruct (snaps !! s) as [[|[i st] l]|]; done.
Qed.

Lemma foldl_load_latest r snaps shards (m : StatesMap) s :
  repo_inv Ext.hash Ext.prune_state_diff r snaps →
  foldl (λ m s, match load_latest r s with Ok st => <[s := (st, Ext.hash st)]> m | Err _ => m end) m shards !! s =
  match (if decide (s ∈ shards) then with_hash <$> latest snaps !! s else None) with
  | Some x => Some x
  | None => m !! s
  end.
Proof.
  intros Hr. revert m. induction shards as [|s' shards IH]; intros m; cbn [foldl].
  { by rewrite decide_False by apply not_elem_of_nil. }
  rewrite IH, (load_latest_latest r snaps s' Hr). destruct (decide (s = s')) as [->|Hne].
  - rewrite (decide_True (P := s' ∈ s' :: shards)) by left.
    destruct (latest snaps !! s'); simpl; [rewrite lookup_insert_eq|]; by case_decide.
  - rewrite (decide_ext (s ∈ s' :: shards) (s ∈ shards)) by (rewrite elem_of_cons; naive_solver).
    destruct (latest snaps !! s') as [st'|]; [by rewrite lookup_insert_ne|done].
Qed.

(** Loading from a repository brings the newest states into memory. *)
Lemma load_from_repository_spec r snaps o :
  repo_inv Ext.hash Ext.prune_state_diff r snaps →
  ∃ h, load_from_repository r o = Ok h ∧ handler_inv h snaps ∧ state_snapshot_repository h = r.
Proof.
  intros Hr. unfold load_from_repository, load_all_latest_snapshots, Snapshots.list_shards.
  eexists. split; [done|]. split; [|done]. split; [done|]. simpl.
  apply map_eq. intros s. rewrite (foldl_load_latest r snaps) by done. rewrite lookup_fmap, lookup_empty.
  destruct (latest snaps !! s) as [st|] eqn:Hs; simpl; [|by case_decide].
  rewrite decide_True; [done|]. rewrite map_keys_dom, elem_of_elements, elem_of_dom.
  rewrite (inv_history _ _ r snaps s Hr). unfold latest in Hs. rewrite lookup_omap in Hs.
  destruct (snaps !! s); [by eexists|done].
Qed.

Lemma insert_latest_spec r snaps shards m :
  repo_inv Ext.hash Ext.prune_state_diff r snaps → Forall (λ s, is_Some (snaps !! s)) shards →
  ∃ m', insert_latest r m shards = Ok m' ∧
    ∀ s, m' !! s = if decide (s ∈ shards) then latest snaps !! s else m !! s.
Proof.
  intros Hr. revert m. induction shards as [|s' shards IH]; intros m Hall; cbn [insert_latest].
  { exists m. split; [done|]. intros s. by rewrite decide_False by apply not_elem_of_nil. }
  apply Forall_cons in Hall as [[l Hl] Hall].
  assert (is_Some (latest snaps !! s')) as [st Hst].
  { unfold latest. rewrite lookup_omap, Hl. destruct l as [|x l]; [|by eexists].
    by destruct (so_nonempty _ _ _ (ri_snaps _ _ _ _ Hr s' _ Hl)). }
  rewrite (load_latest_latest r snaps s' Hr), Hst. destruct (IH (<[s' := st]> m) Hall) as (m' & -> & Hm').
  exists m'. split; [done|]. intros s. rewrite Hm'. destruct (decide (s = s')) as [->|Hne].
  - rewrite (decide_True (P := s' ∈ s' :: shards)) by left. case_decide; [done|]. by rewrite lookup_insert_eq.
  - rewrite (decide_ext (s ∈ s' :: shards) (s ∈ shards)) by (rewrite elem_of_cons; naive_solver).
    by rewrite lookup_insert_ne.
Qed.

Lemma initialize_state_observer_spec r snaps :
  repo_inv Ext.hash Ext.prune_state_diff r snaps → initialize_state_observer r = Ok (from_map (latest snaps)).
Proof.
  intros Hr. unfold initialize_state_observer, Snapshots.list_shards.
  assert (∀ s, s ∈ map_keys (snapshot_history r) ↔ is_Some (snaps !! s)) as Hin.
  { intros s. by rewrite map_keys_dom, elem_of_elements, elem_of_dom, (inv_history _ _ r snaps s Hr), fmap_is_Some. }
  destruct (insert_latest_spec r snaps (map_keys (snapshot_history r)) ∅ Hr) as (m & -> & Hm).
  { apply Forall_forall. intros s. apply Hin. }
  do 2 f_equal. apply map_eq. intros s. rewrite Hm. case_decide as Hs; [done|].
  rewrite Hin in Hs. apply eq_None_not_Some in Hs. unfold latest. by rewrite lookup_omap, Hs, lookup_empty.
Qed.

(** A start on the files of a repository. *)
Lemma init_state_handler_spec clock r snaps :
  repo_inv Ext.hash Ext.prune_state_diff r snaps →
  ∃ h, init_state_handler initialize clock (file_io r) (snapshot_history_cache_size r) = Ok h ∧
    handler_inv h snaps ∧ state_snapshot_repository h = r ∧ state_observer h = from_map (latest snaps).
Proof.
  intros Hr. unfold init_state_handler.
  rewrite (load_repository_spec _ _ initialize clock r snaps Hr), (initialize_state_observer_spec r snaps Hr).
  destruct (load_from_repository_spec r snaps (from_map (latest snaps)) Hr) as (h & Hl & Hi & Hrepo).
  exists h. split_and!; [done..|]. revert Hl. unfold load_from_repository.
  destruct (load_all_latest_snapshots r); [|done]. by intros [= <-].
Qed.

(** *** The observer sees the state written last *)

Definition obs_view (o : StateObserver SgxExternalities) : gmap ShardIdentifier SgxExternalities :=
  queued_state_updates o ∪ current_state o.

Lemma queue_view o s st : obs_view (queue_state_update o s st) = <[s := st]> (obs_view o).
Proof. unfold obs_view. simpl. by rewrite insert_union_l. Qed.

(** What an observation sees, and what it leaves if it changes nothing. *)
Lemma observe_spec {R} o s (f : SgxExternalities → R) :
  ∃ o', observe_state o s (λ st, (f st, st)) =
    (o', match obs_view o !! s with Some st => Ok (f st) | None => Err CurrentShardStateEmpty end) ∧
  obs_view o' = obs_view o.
Proof.
  unfold observe_state, apply_pending_update. rewrite foldl_insert_map_iter. cbn [current_state queued_state_updates].
  fold (obs_view o). destruct (obs_view o !! s) as [st|] eqn:Hs; eexists; (split; [done|]); unfold obs_view; simpl.
  - rewrite (left_id_L ∅ (∪)). by rewrite insert_id.
  - by rewrite (left_id_L ∅ (∪)).
Qed.

(** *** The handler as the interface of the states *)

#[local] Instance handler_handle_state : HandleState (StateHandler F) := {|
  hs_load_cloned := load_cloned;
  hs_load_for_mutation := load_for_mutation;
  hs_write_after_mutation := write_after_mutation;
  hs_initialize_shard := Handler.initialize_shard initialize;
  hs_shard_exists := Handler.shard_exists;
  hs_list_shards := Handler.list_shards;
|}.

Definition h_view h : gmap ShardIdentifier SgxExternalities := fst <$> states_map h.

(** Every state in memory is without diff and with its hash. *)
Definition h_ok h : Prop := map_Forall (λ _ x, x.2 = Ext.hash x.1 ∧ Ext.state_diff x.1 = ∅) (states_map h).

(** The snapshots are as the handler left them and the clock is later. *)
Definition h_writable now h s : Prop :=
  ∃ snaps, handler_inv h snaps ∧ later now (default [] (snaps !! s)).

Lemma h_view_latest h snaps : handler_inv h snaps → h_view h = latest snaps.
Proof.
  intros Hi. unfold h_view. rewrite (hi_map _ _ Hi), <-map_fmap_compose. apply map_eq. intros s. rewrite lookup_fmap.
  by destruct (latest snaps !! s).
Qed.

(** An update of the snapshots returns, whatever the files do. *)
Lemma update_returns now (r : StateSnapshotRepository F) s st hash : ∃ r' res, update now r s st hash = Ret (r', res).
Proof.
  unfold update, write_new_state, initialize_shard_with_snapshot, initialize_file, prune_snapshot_history_by_range.
  destruct (Snapshots.shard_exists r s).
  - destruct (io_write (file_io r) s now st) as [f [h'|e]]; [|by eauto]. unfold get_snapshot_history. simpl.
    destruct (snapshot_history r !! s) as [l|]; [|by eauto]. case_decide; [|by eauto]. simpl.
    rewrite lookup_insert_eq. rewrite decide_True; [by eauto|]. simpl in *. lia.
  - destruct (io_initialize_shard (file_io r) s now st) as [f [h'|e]]; by eauto.
Qed.

Lemma h_write now h st s :
  h_ok h →
  ∃ h' res, write_after_mutation now h st s = Ret (h', res) ∧ h_ok h' ∧
    h_view h' = <[s := Ext.prune_state_diff st]> (h_view h) ∧ (h_writable now h s → res = Ok (Ext.hash st)).
Proof.
  intros Hok. unfold write_after_mutation, update_state_snapshot. cbn [state_snapshot_repository states_map state_observer].
  destruct (update_returns now (state_snapshot_repository h) s (Ext.prune_state_diff st) (Ext.hash (Ext.prune_state_diff st)))
    as (r' & res & Hu). rewrite Hu. cbn [mbind outcome_bind].
  assert (∀ o, h_ok (MkHandler r' (<[s := (Ext.prune_state_diff st, Ext.hash (Ext.prune_state_diff st))]> (states_map h)) o)) as Hok'.
  { intros o. by apply map_Forall_insert_2. }
  assert (∀ o, h_view (MkHandler r' (<[s := (Ext.prune_state_diff st, Ext.hash (Ext.prune_state_diff st))]> (states_map h)) o)
    = <[s := Ext.prune_state_diff st]> (h_view h)) as Hv.
  { intros o. unfold h_view. simpl. by rewrite fmap_insert. }
  destruct res as [[]|e]; eexists _, _; (split; [done|]); (split; [apply Hok'|]); (split; [apply Hv|]); [done|].
  intros (snaps & Hi & Hl). destruct (update_spec Ext.hash Ext.prune_state_diff now (state_snapshot_repository h) snaps s
    (Ext.prune_state_diff st) (hi_repo _ _ Hi) Hl) as (r & Hu' & _); [done|]. rewrite Hu in Hu'. by simplify_eq.
Qed.

#[local] Program Instance handler_handle_state_laws : HandleStateLaws (StateHandler F) initialize := {|
  hs_ok := h_ok;
  hs_view := h_view;
  hs_writable := h_writable;
|}.
Next Obligation.
  intros h s Hok. unfold h_view. rewrite lookup_fmap. simpl. unfold load_cloned.
  destruct (states_map h !! s) as [[st x]|] eqn:Hs; [|done]. destruct (Hok s _ Hs) as [Hx _]. simpl in *. by rewrite Hx.
Qed.
Next Obligation.
  intros h s _. unfold h_view. rewrite lookup_fmap. simpl. unfold load_for_mutation.
  by destruct (states_map h !! s).
Qed.
Next Obligation.
  intros h s st Hok. unfold h_view. rewrite lookup_fmap. destruct (states_map h !! s) as [[st' x]|] eqn:Hs; [|done].
  simpl. intros [= <-]. by destruct (Hok s _ Hs) as [_ ?].
Qed.
Next Obligation. intros now h st s. apply h_write. Qed.
Next Obligation.
  intros now h st s Hok Hinit. simpl. unfold Handler.initialize_shard. rewrite Hinit. by apply h_write.
Qed.
Next Obligation. intros now h e s _ Hinit. simpl. unfold Handler.initialize_shard. by rewrite Hinit. Qed.
Next Obligation.
  intros h s _. unfold h_view. rewrite lookup_fmap. simpl. unfold Handler.shard_exists.
  by destruct (states_map h !! s).
Qed.
Next Obligation.
  intros h _. eexists. split; [done|]. unfold h_view. by rewrite map_keys_dom, dom_fmap_L.
Qed.
End inv.
End HandlerInv.
