(* ===== verification/StateHandlerProps.v ===== *)
(** The properties of the states of the shards: what is read after any history of
    writes, observations and restarts, and what a revert finds. *)

From stdpp Require Import base gmap fin_maps numbers sorting strings list.
From S2P Require Import Prelude Collections PoolTypes Externalities SidechainDb StateFileIo SnapshotRepository.
From S2P Require Import StateHandler.

Import Ext(SgxExternalities).
Import Observer Snapshots SnapshotInv Handler HandlerInv.
Open Scope worker_scope.

(** What happens to the states of an enclave. *)
Inductive handler_op :=
| HWrite (now : StateId) (st : SgxExternalities) (s : ShardIdentifier)
| HObserve (s : ShardIdentifier)
| HRestart.

(** The states written for a shard without their diffs, newest first. *)
Fixpoint shard_writes (s : ShardIdentifier) (ops : list handler_op) : list (StateId * SgxExternalities) :=
  match ops with
  | [] => []
  | HWrite now st s' :: ops =>
      shard_writes s ops ++ (if decide (s = s') then [(now, Ext.prune_state_diff st)] else [])
  | _ :: ops => shard_writes s ops
  end.

Definition write_times (ops : list handler_op) : list StateId :=
  omap (λ op, match op with HWrite now _ _ => Some now | _ => None end) ops.

(** The clock goes forward from write to write. *)
Definition clock_ok (ops : list handler_op) : Prop :=
  StronglySorted N.lt (write_times ops) ∧ Forall (λ t, t < 2 ^ 128)%N (write_times ops).

Section history.
Context `{IterOrder} `{Encode SgxExternalitiesType} `{Blake2}.
Context {F : Type} `{StateFileIo F SgxExternalities}.
Context (initialize : result SgxExternalities StateHandlerError) (clock : nat → StateId) (size : nat).

(** A start that fails ends the enclave. *)
Definition run_handler_op (h : StateHandler F) (op : handler_op) : outcome (StateHandler F) :=
  match op with
  | HWrite now st s => write_after_mutation now h st s ≫= λ '(h, _), Ret h
  | HObserve s => Ret (observe h s (λ st, (st, st))).1
  | HRestart =>
      match init_state_handler initialize clock (file_io (state_snapshot_repository h)) size with
      | Ok h => Ret h
      | Err _ => Panic
      end
  end.

Definition run_handler (f : F) (ops : list handler_op) : outcome (StateHandler F) :=
  match init_state_handler initialize clock f size with
  | Ok h => for_each run_handler_op h ops
  | Err _ => Panic
  end.
End history.

Section proofs.
Context `{IterOrder} `{Encode SgxExternalitiesType} `{Blake2}.
Context {F : Type} `{Reliable : ReliableStateIo F SgxExternalities Ext.hash Ext.prune_state_diff}.
Context (initialize : result SgxExternalities StateHandlerError) (clock : nat → StateId) (size : nat).
Implicit Types (h : StateHandler F) (s : ShardIdentifier) (done_ops ops : list handler_op).

Definition writes_snaps done_ops s : option (list (StateId * SgxExternalities)) :=
  match shard_writes s done_ops with [] => None | l => Some (take size l) end.

Record history_inv (done_ops : list handler_op) h : Prop := {
  hy_handler : ∃ snaps, handler_inv h snaps ∧ ∀ s, snaps !! s = writes_snaps done_ops s;
  hy_size : snapshot_history_cache_size (state_snapshot_repository h) = size;
  hy_observer : obs_view (state_observer h) = h_view h;
}.

Lemma shard_writes_app s ops1 ops2 : shard_writes s (ops1 ++ ops2) = shard_writes s ops2 ++ shard_writes s ops1.
Proof.
  induction ops1 as [|[now st s'|s'|] ops1 IH]; simpl; [by rewrite app_nil_r| |done..].
  by rewrite IH, (assoc_L (++)).
Qed.

Lemma shard_writes_times s ops x : x ∈ shard_writes s ops → x.1 ∈ write_times ops.
Proof.
  unfold write_times. induction ops as [|[now st s'|s'|] ops IH]; simpl; [by intros ?%elem_of_nil| |done..].
  rewrite elem_of_app, elem_of_cons. intros [Hx|Hx]; [by right; apply IH|]. left.
  case_decide; [|by apply elem_of_nil in Hx]. apply list_elem_of_singleton in Hx. by subst.
Qed.

Lemma writes_snaps_write done_ops now st s s' :
  0 < size →
  writes_snaps (done_ops ++ [HWrite now st s]) s' =
  if decide (s' = s) then Some (take size ((now, Ext.prune_state_diff st) :: default [] (writes_snaps done_ops s)))
  else writes_snaps done_ops s'.
Proof.
  intros Hs. unfold writes_snaps. rewrite shard_writes_app. simpl. case_decide as Heq; [subst s'|done].
  destruct (shard_writes s done_ops) as [|x l]; [done|]. destruct size as [|n]; [lia|]. simpl. do 2 f_equal.
  rewrite <-(firstn_cons n x l), take_take. f_equal. lia.
Qed.

Lemma write_history now h done_ops st s :
  history_inv done_ops h → clock_ok (done_ops ++ [HWrite now st s]) →
  ∃ h', run_handler_op initialize clock size h (HWrite now st s) = Ret h' ∧
    history_inv (done_ops ++ [HWrite now st s]) h'.
Proof.
  intros [(snaps & Hi & Hsnaps) Hsize Hobs] [Hsort Hbound]. unfold write_times in *. rewrite omap_app in *.
  apply StronglySorted_app in Hsort as (Hlt & _ & _). apply Forall_app in Hbound as [_ Hb]. apply Forall_inv in Hb.
  destruct (write_after_mutation_spec now h snaps st s Hi) as (h' & Hw & Hi' & Hs' & Ho').
  { split; [done|]. rewrite Hsnaps. unfold writes_snaps. apply Forall_forall. intros x Hx.
    apply Hlt; [|by apply list_elem_of_singleton]. apply (shard_writes_times s). destruct (shard_writes s done_ops); [by apply elem_of_nil in Hx|].
    by apply subseteq_take in Hx. }
  simpl. rewrite Hw. exists h'. split; [done|]. pose proof (ri_size _ _ _ _ (hi_repo _ _ Hi)) as Hpos. rewrite Hsize in *.
  split; [|by rewrite Hs'|].
  - eexists. split; [exact Hi'|]. intros s'. rewrite writes_snaps_write by done. unfold q_update.
    rewrite lookup_insert, (Hsnaps s), (Hsnaps s'). case_decide; case_decide; by subst.
  - rewrite Ho', queue_view, Hobs, (h_view_latest _ _ Hi), (h_view_latest _ _ Hi').
    by rewrite latest_q_update.
Qed.

Lemma observe_history h done_ops s :
  history_inv done_ops h →
  ∃ h', run_handler_op initialize clock size h (HObserve s) = Ret h' ∧ history_inv (done_ops ++ [HObserve s]) h'.
Proof.
  intros [(snaps & [Hr Hm] & Hsnaps) Hsize Hobs]. simpl. unfold observe.
  destruct (observe_spec (state_observer h) s (λ st, st)) as (o & -> & Hv). eexists. split; [done|].
  split; [|done|by simpl; rewrite Hv]. exists snaps. split; [done|]. intros s'. rewrite Hsnaps.
  unfold writes_snaps. by rewrite shard_writes_app.
Qed.

Lemma restart_history h done_ops :
  history_inv done_ops h →
  ∃ h', run_handler_op initialize clock size h HRestart = Ret h' ∧ history_inv (done_ops ++ [HRestart]) h'.
Proof.
  intros [(snaps & Hi & Hsnaps) Hsize Hobs]. simpl. rewrite <-Hsize.
  destruct (init_state_handler_spec initialize clock _ snaps (hi_repo _ _ Hi)) as (h' & -> & Hi' & Hr & Ho).
  exists h'. split; [done|]. split.
  - exists snaps. split; [done|]. intros s'. rewrite Hsnaps. unfold writes_snaps. by rewrite shard_writes_app.
  - by rewrite Hr.
  - rewrite Ho, (h_view_latest _ _ Hi'). apply (left_id_L ∅ (∪)).
Qed.

Lemma clock_ok_prefix ops1 ops2 : clock_ok (ops1 ++ ops2) → clock_ok ops1.
Proof.
  unfold clock_ok, write_times. rewrite omap_app. intros [?%StronglySorted_app_1_l [? _]%Forall_app]. done.
Qed.

Lemma run_history h done_ops ops :
  history_inv done_ops h → clock_ok (done_ops ++ ops) →
  ∃ h', for_each (run_handler_op initialize clock size) h ops = Ret h' ∧ history_inv (done_ops ++ ops) h'.
Proof.
  revert h done_ops. induction ops as [|op ops IH]; intros h done_ops Hi Hc.
  { exists h. by rewrite app_nil_r. }
  rewrite cons_middle, (assoc_L (++)) in Hc |- *.
  assert (∃ h', run_handler_op initialize clock size h op = Ret h' ∧ history_inv (done_ops ++ [op]) h') as (h' & Hrun & Hi').
  { destruct op; [apply write_history; [done|by eapply clock_ok_prefix]|by apply observe_history|by apply restart_history]. }
  cbn [for_each]. rewrite Hrun. by apply IH.
Qed.

(** Every history starts on an empty disk and runs. *)
Lemma run_handler_inv f ops :
  0 < size → io_ok f → io_view f = ∅ → clock_ok ops →
  ∃ h, run_handler initialize clock size f ops = Ret h ∧ history_inv ops h.
Proof.
  intros Hsize Hok Hv Hc. unfold run_handler.
  assert (repo_inv Ext.hash Ext.prune_state_diff (MkRepository f size ∅) ∅) as Hr.
  { split; simpl; [done|done|by rewrite fmap_empty|by rewrite fmap_empty|apply map_Forall_empty]. }
  destruct (init_state_handler_spec initialize clock _ ∅ Hr) as (h & Hstart & Hi & Hrepo & Ho). cbn in Hstart. rewrite Hstart.
  apply (run_history h [] ops); [|done]. split.
  - exists ∅. split; [done|]. intros s. by rewrite lookup_empty.
  - by rewrite Hrepo.
  - by rewrite Ho, (h_view_latest _ _ Hi).
Qed.

Lemma history_view h ops s : history_inv ops h → 0 < size → h_view h !! s = snd <$> head (shard_writes s ops).
Proof.
  intros [(snaps & Hi & Hsnaps) _ _] Hpos. rewrite (h_view_latest _ _ Hi). unfold latest.
  rewrite lookup_omap, Hsnaps. unfold writes_snaps. destruct (shard_writes s ops); [done|]. by destruct size; [lia|].
Qed.

(** C8: The states of an enclave survive restarts and are never older than the
    last write: start on an empty disk, then write, observe and restart in any
    order, with the clock going forward.  Everything runs without a panic or an
    error; a shard is known exactly if it was written; a load of the shard gives
    the state of its last write, without its diff, and its hash, and an observer
    sees the same state. *)
Theorem states_survive_restarts f ops :
  0 < size → io_ok f → io_view f = ∅ → clock_ok ops →
  ∃ h, run_handler initialize clock size f ops = Ret h ∧ ∀ s,
    load_cloned h s =
      match head (shard_writes s ops) with
      | Some (_, st) => Ok (st, Ext.hash st)
      | None => Err (InvalidShard s)
      end ∧
    (observe h s (λ st, (st, st))).2 =
      match head (shard_writes s ops) with
      | Some (_, st) => Ok st
      | None => Err CurrentShardStateEmpty
      end.
Proof.
  intros Hsize Hok Hv Hc. destruct (run_handler_inv f ops Hsize Hok Hv Hc) as (h & -> & Hh).
  exists h. split; [done|]. intros s. pose proof (history_view h ops s Hh Hsize) as Hview.
  destruct Hh as [(snaps & Hi & Hsnaps) _ Hobs]. split.
  - rewrite (load_cloned_spec h snaps s Hi), <-(h_view_latest h snaps Hi), Hview.
    by destruct (head (shard_writes s ops)) as [[??]|].
  - unfold observe. destruct (observe_spec (state_observer h) s (λ st, st)) as (o & -> & _). simpl.
    rewrite Hobs, Hview. by destruct (head (shard_writes s ops)) as [[??]|].
Qed.

(** A revert is exact: after such a history, a shard that was written can be
    reverted to the newest of its last [size] writes whose hash is the one
    asked for; the snapshot of that write is the newest afterwards, also for a
    restart.  Any other hash is refused. *)
Theorem revert_is_exact f ops s st0 hash :
  0 < size → io_ok f → io_view f = ∅ → clock_ok ops → head (shard_writes s ops) = Some st0 →
  ∃ h, run_handler initialize clock size f ops = Ret h ∧
    match position (λ x, bool_decide (Ext.hash x.2 = hash)) (take size (shard_writes s ops)) with
    | None => revert_to (state_snapshot_repository h) s hash =
        Ret (state_snapshot_repository h, Err (StateNotFoundInRepository hash))
    | Some i => ∃ x r h', shard_writes s ops !! i = Some x ∧
        revert_to (state_snapshot_repository h) s hash = Ret (r, Ok x.2) ∧
        init_state_handler initialize clock (file_io r) size = Ok h' ∧
        load_cloned h' s = Ok (x.2, hash)
    end.
Proof.
  intros Hsize Hok Hv Hc Hhead. destruct (run_handler_inv f ops Hsize Hok Hv Hc) as (h & -> & Hh).
  exists h. split; [done|]. destruct Hh as [(snaps & Hi & Hsnaps) Hsz _].
  assert (snaps !! s = Some (take size (shard_writes s ops))) as Hs.
  { rewrite Hsnaps. unfold writes_snaps. by destruct (shard_writes s ops). }
  pose proof (revert_spec _ _ _ snaps s _ hash (hi_repo _ _ Hi) Hs) as Hrev.
  destruct (position _ _) as [i|] eqn:Hp; [|done]. destruct Hrev as (x & r & Hx & Hrev & Hszr & Hr).
  apply position_Some in Hp as (x' & Hx' & Hhash%bool_decide_eq_true & _). assert (x' = x) as -> by congruence.
  destruct (init_state_handler_spec initialize clock r _ Hr) as (h' & Hstart & Hi' & _).
  exists x, r, h'. split_and!; [|done|congruence|].
  - by apply lookup_take_Some in Hx as [? _].
  - rewrite (load_cloned_spec h' _ s Hi'). unfold latest. rewrite lookup_omap, lookup_insert_eq.
    rewrite (drop_S _ _ _ Hx). simpl. by rewrite Hhash.
Qed.
End proofs.

(** *** Witnesses *)

Section witness.
(** A map is encoded by its entries, the hash is the size of that. *)
#[local] Instance listed_encode : Encode SgxExternalitiesType :=
  λ m, mjoin ((λ x : Bytes * Bytes, x.1 ++ x.2) <$> map_to_list m).
#[local] Instance sum_hash : Blake2 := λ l, foldr N.add 0%N l.
#[local] Instance listed : IterOrder := listed_order.
Definition memory_files : StateFileIo _ SgxExternalities :=
  MemoryIo.memory_io (λ m, blake2_256 (encode m)) Ext.state Ext.new.
Definition memory_files_reliable :
  @ReliableStateIo _ SgxExternalities memory_files Ext.hash Ext.prune_state_diff :=
  MemoryIo.memory_reliable (λ m, blake2_256 (encode m)) Ext.state Ext.new (λ _, eq_refl).
#[local] Existing Instance memory_files.
#[local] Existing Instance memory_files_reliable.

Definition sample_state (n : N) : SgxExternalities := Ext.MkExt {[ [1%N] := [n] ]} {[ [1%N] := Some [n] ]}.
Definition sample_history : list handler_op :=
  [HWrite 5 (sample_state 1) 7; HObserve 7; HWrite 6 (sample_state 2) 7; HRestart; HWrite 9 (sample_state 3) 8].

Lemma sample_clock_ok : clock_ok sample_history.
Proof. split; simpl; repeat constructor; lia. Qed.

Lemma states_survive_restarts_witness :
  ∃ h, run_handler (Err EmptyRepository) (λ _, 0%N) 2 ∅ sample_history = Ret h ∧
    load_cloned h 7%N = Ok (Ext.new {[ [1%N] := [2%N] ]}, 3%N).
Proof.
  destruct (states_survive_restarts (Err EmptyRepository) (λ _, 0%N) 2 ∅ sample_history) as (h & Hh & Hl).
  - lia.
  - apply map_Forall_empty.
  - reflexivity.
  - apply sample_clock_ok.
  - exists h. split; [done|]. apply (proj1 (Hl 7%N)).
Defined.

Lemma revert_is_exact_witness :
  ∃ h r, run_handler (Err EmptyRepository) (λ _, 0%N) 2 ∅ sample_history = Ret h ∧
    revert_to (state_snapshot_repository h) 7%N 2%N = Ret (r, Ok (Ext.new {[ [1%N] := [1%N] ]})).
Proof.
  destruct (revert_is_exact (Err EmptyRepository) (λ _, 0%N) 2 ∅ sample_history 7%N
    (6%N, Ext.new {[ [1%N] := [2%N] ]}) 2%N) as (h & Hh & Hr).
  - lia.
  - apply map_Forall_empty.
  - reflexivity.
  - apply sample_clock_ok.
  - reflexivity.
  - vm_compute position in Hr. destruct Hr as (x & r & h' & [= <-] & Hrev & _). exists h, r. done.
Defined.
End witness.
