(* ===== verification/StfExecutor.v ===== *)
(** The execution of trusted calls on the state of a shard
    (core-primitives/stf-executor/src/{lib,executor,state_getter,getter_executor}.rs)
    and the generic part of the STF it calls (app-libs/stf/src/stf_sgx.rs).

    The trusted calls themselves run in the runtime: [Stf] is what the executor
    calls, and [StfLaws] says that a call changes the state through the storage
    functions only.  Ocalls and the clock are functions of the number of the
    call: what the [i]th call of the batch reads. *)

From stdpp Require Import base gmap fin_maps numbers strings list.
From S2P Require Import Prelude Collections PoolTypes Externalities SidechainDb Durations StfTypes SidechainState.
From S2P Require Import StateFileIo StateHandler.

Import Ext(SgxExternalities).
Open Scope worker_scope.

Inductive ParentchainId := Integritee | TargetA | TargetB.

#[export] Instance parentchain_id_eq_dec : EqDecision ParentchainId.
Proof. solve_decision. Defined.

(** [ParentchainCall]: an encoded call for one of the parentchains. *)
Inductive ParentchainCall := MkParentchainCall (id : ParentchainId) (call : Bytes).

#[export] Instance parentchain_call_eq_dec : EqDecision ParentchainCall.
Proof. solve_decision. Defined.

(** The errors of the executor. *)
Inductive ExecutorError :=
| ExGetterIsNotAuthorized
| ExStateHandler (e : StateHandlerError)
| ExStateObserver (e : ObserverError)
| ExOcallApi (msg : string)
| ExSgx (status : Z)
| ExOther (msg : string).

(** The STF: verification and execution of a call, and the parentchain block it keeps. *)
Class Stf (TCS Mr PH : Type) := {
  tcs_verify_signature : TCS → Mr → ShardIdentifier → bool;
  stf_execute_call : SgxExternalities → TCS → SgxExternalities * result (list ParentchainCall) string;
  stf_update_parentchain_integritee_block : SgxExternalities → PH → SgxExternalities * result unit string;
}.

(** A call works on the state through the storage functions. *)
Class StfLaws (TCS Mr PH : Type) `{Stf TCS Mr PH} `{EncodeAppend} : Prop := {
  execute_reaches : ∀ st c, ExtInv.reaches st (stf_execute_call st c).1;
  update_block_reaches : ∀ st h, ExtInv.reaches st (stf_update_parentchain_integritee_block st h).1;
}.

Module Executor.

Inductive ExecutionStatus :=
| Success (operation_hash : TxHash) (callbacks : list ParentchainCall)
| Failure.

Definition status_callbacks (s : ExecutionStatus) : list ParentchainCall :=
  match s with Success _ opaque_calls => opaque_calls | Failure => [] end.

Definition status_operation_hash (s : ExecutionStatus) : option TxHash :=
  match s with Success operation_hash _ => Some operation_hash | Failure => None end.

Record ExecutedOperation (TCS G : Type) := MkExecuted {
  status : ExecutionStatus;
  trusted_operation_or_hash : TrustedOperationOrHash TCS G;
}.
Arguments MkExecuted {TCS G} _ _.
Arguments status {TCS G} _.
Arguments trusted_operation_or_hash {TCS G} _.

Definition success {TCS G} (operation_hash : TxHash) (top : TrustedOperationOrHash TCS G)
    (extrinsic_call_backs : list ParentchainCall) : ExecutedOperation TCS G :=
  MkExecuted (Success operation_hash extrinsic_call_backs) top.

Definition failed {TCS G} (top : TrustedOperationOrHash TCS G) : ExecutedOperation TCS G :=
  MkExecuted Failure top.

Definition is_success {TCS G} (e : ExecutedOperation TCS G) : bool :=
  match status e with Success _ _ => true | Failure => false end.

Record BatchExecutionResult (TCS G : Type) := MkBatch {
  state_hash_before_execution : N;
  executed_operations : list (ExecutedOperation TCS G);
  state_after_execution : SgxExternalities;
}.
Arguments MkBatch {TCS G} _ _ _.
Arguments state_hash_before_execution {TCS G} _.
Arguments executed_operations {TCS G} _.
Arguments state_after_execution {TCS G} _.

Definition get_extrinsic_callbacks {TCS G} (b : BatchExecutionResult TCS G) : list ParentchainCall :=
  mjoin ((λ e, status_callbacks (status e)) <$> executed_operations b).

Definition get_executed_operation_hashes {TCS G} (b : BatchExecutionResult TCS G) : list TxHash :=
  omap (λ e, status_operation_hash (status e)) (executed_operations b).

Definition get_failed_operations {TCS G} (b : BatchExecutionResult TCS G) : list (ExecutedOperation TCS G) :=
  filter (λ e, is_success e = false) (executed_operations b).

Inductive StatePostProcessing := PostNone | PostPrune.

Section executor.
Context `{Encode SgxExternalitiesType} `{Blake2} `{EncodeAppend}.
Context {TCS G Mr PH W : Type} `{Stf TCS Mr PH} `{HandleState W}.
(** [TrustedOperation::hash]. *)
Context (top_hash : StfTrustedOperation TCS G → TxHash).
Implicit Types (st : SgxExternalities) (s : ShardIdentifier) (w : W).

Definition execute_trusted_call_on_stf (mrenclave : result Mr Z) st (trusted_operation : StfTrustedOperation TCS G)
    s (post_processing : StatePostProcessing) :
    SgxExternalities * result (ExecutedOperation TCS G) ExecutorError :=
  match mrenclave with
  | Err status => (st, Err (ExSgx status))
  | Ok mr =>
      let top_or_hash := from_top trusted_operation in
      match to_call trusted_operation with
      | None => (st, Ok (failed top_or_hash))
      | Some trusted_call =>
          if tcs_verify_signature trusted_call mr s then
            match stf_execute_call st trusted_call with
            | (st, Err _) => (st, Ok (failed top_or_hash))
            | (st, Ok extrinsic_call_backs) =>
                let operation_hash := top_hash trusted_operation in
                let st := match post_processing with PostPrune => Ext.prune_state_diff st | PostNone => st end in
                (st, Ok (success operation_hash top_or_hash extrinsic_call_backs))
            end
          else (st, Ok (failed top_or_hash))
      end
  end.

(** *** A batch *)

Context (duration_now : nat → Duration) (get_mrenclave_of_self : nat → result Mr Z).

(** A call that could not be attempted is logged. *)
Fixpoint execute_calls (i : nat) (ends_at : Duration) st s (acc : list (ExecutedOperation TCS G))
    (trusted_calls : list (StfTrustedOperation TCS G)) : SgxExternalities * list (ExecutedOperation TCS G) :=
  match trusted_calls with
  | [] => (st, acc)
  | trusted_call_signed :: rest =>
      if Z.ltb ends_at (duration_now i) then (st, acc)
      else
        match execute_trusted_call_on_stf (get_mrenclave_of_self i) st trusted_call_signed s PostNone with
        | (st, Ok executed) => execute_calls (S i) ends_at st s (acc ++ [executed]) rest
        | (st, Err _) => execute_calls (S i) ends_at st s acc rest
        end
  end.

Definition propose_state_update w (trusted_calls : list (StfTrustedOperation TCS G)) s
    (max_exec_duration : Duration) (prepare_state_function : SgxExternalities → SgxExternalities) :
    outcome (result (BatchExecutionResult TCS G) ExecutorError) :=
  duration_add (duration_now 0) max_exec_duration ≫= λ ends_at,
  match hs_load_cloned w s with
  | Err e => Ret (Err (ExStateHandler e))
  | Ok (st, state_hash_before_execution) =>
      let st := prepare_state_function st in
      let '(st, executed) := execute_calls 1 ends_at st s [] trusted_calls in
      Ret (Ok (MkBatch state_hash_before_execution executed st))
  end.

(** *** Updates of the states on the import of a parentchain block *)

(** [Stf::apply_state_diff]. *)
Definition apply_state_diff st (map_update : SgxExternalitiesDiffType) : SgxExternalities :=
  foldl (λ st x, match x.2 with Some value => SpIo.set st x.1 value | None => SpIo.clear st x.1 end)
    st (btree_iter map_update).

Definition storage_hashes_to_update_on_block (parentchain_id : ParentchainId) : list Bytes :=
  match parentchain_id with Integritee => [] | TargetA => [] | TargetB => [] end.

Definition storage_hashes_to_update_per_shard (_shard : ShardIdentifier) : list Bytes := [].

Definition shards_key_hash : Bytes := [].

Definition into_map (storage_entries : list (Bytes * option Bytes)) : SgxExternalitiesDiffType :=
  foldl (λ m e, <[e.1 := e.2]> m) ∅ storage_entries.

(** [get_multiple_storages_verified]. *)
Context (get_multiple_storages_verified :
  list Bytes → PH → ParentchainId → result (list (Bytes * option Bytes)) string).
(** The reading of the clock for the snapshot of a shard. *)
Context (snapshot_now : ShardIdentifier → StateId).
Context `{Decode (list ShardIdentifier)}.

Fixpoint update_block_of_shards w (header : PH) (shards : list ShardIdentifier) :
    outcome (W * result unit ExecutorError) :=
  match shards with
  | [] => Ret (w, Ok tt)
  | s :: shards =>
      match hs_load_for_mutation w s with
      | Err e => Ret (w, Err (ExStateHandler e))
      | Ok st =>
          match stf_update_parentchain_integritee_block st header with
          | (st, Ok _) =>
              hs_write_after_mutation (snapshot_now s) w st s ≫= λ '(w, res),
              match res with
              | Err e => Ret (w, Err (ExStateHandler e))
              | Ok _ => update_block_of_shards w header shards
              end
          | (_, Err _) => update_block_of_shards w header shards
          end
      end
  end.

Fixpoint initialize_shards w (header : PH) (state_diff_update : SgxExternalitiesDiffType)
    (shards : list ShardIdentifier) : outcome (W * result unit ExecutorError) :=
  match shards with
  | [] => Ret (w, Ok tt)
  | s :: shards =>
      match hs_load_for_mutation w s with
      | Err e => Ret (w, Err (ExStateHandler e))
      | Ok st =>
          match get_multiple_storages_verified (storage_hashes_to_update_per_shard s) header Integritee with
          | Err e => Ret (w, Err (ExOcallApi e))
          | Ok entries =>
              let st := apply_state_diff st (into_map entries) in
              let st := apply_state_diff st state_diff_update in
              let st := (stf_update_parentchain_integritee_block st header).1 in
              hs_write_after_mutation (snapshot_now s) w st s ≫= λ '(w, res),
              match res with
              | Err e => Ret (w, Err (ExStateHandler e))
              | Ok _ => initialize_shards w header state_diff_update shards
              end
          end
      end
  end.

Definition initialize_new_shards w (header : PH) (state_diff_update : SgxExternalitiesDiffType) (shards : Bytes) :
    outcome (W * result unit ExecutorError) :=
  match decode (A := list ShardIdentifier) shards with
  | Err e => Ret (w, Err (ExOther e))
  | Ok shards => initialize_shards w header state_diff_update shards
  end.

Definition update_states w (header : PH) (parentchain_id : ParentchainId) : outcome (W * result unit ExecutorError) :=
  match get_multiple_storages_verified (storage_hashes_to_update_on_block parentchain_id) header parentchain_id with
  | Err e => Ret (w, Err (ExOcallApi e))
  | Ok entries =>
      let state_diff_update := into_map entries in
      match hs_list_shards w with
      | Err e => Ret (w, Err (ExStateHandler e))
      | Ok shards =>
          update_block_of_shards w header shards ≫= λ '(w, res),
          match res with
          | Err e => Ret (w, Err e)
          | Ok _ =>
              if decide (parentchain_id = Integritee) then
                match state_diff_update !! shards_key_hash with
                | Some (Some shards) => initialize_new_shards w header state_diff_update shards
                | Some None => Ret (w, Ok tt)
                | None => Ret (w, Ok tt)
                end
              else Ret (w, Ok tt)
          end
      end
  end.
End executor.

(** *** Getters *)

(** [GetterAuthorization] and [StateGetterInterface] of the STF. *)
Class StfGetter (G : Type) := {
  getter_is_authorized : G → bool;
  stf_execute_getter : SgxExternalities → G → SgxExternalities * option Bytes;
}.

Section getters.
Context `{IterOrder} {G : Type} `{StfGetter G} `{Decode G}.

Definition get_state (getter : G) (st : SgxExternalities) : result (option Bytes) ExecutorError * SgxExternalities :=
  if getter_is_authorized getter then
    let '(st, value) := stf_execute_getter st getter in (Ok value, st)
  else (Err ExGetterIsNotAuthorized, st).

Definition execute_getter (o : Observer.StateObserver SgxExternalities) (s : ShardIdentifier)
    (encoded_signed_getter : Bytes) :
    Observer.StateObserver SgxExternalities * result (option Bytes) ExecutorError :=
  match decode (A := G) encoded_signed_getter with
  | Err e => (o, Err (ExOther e))
  | Ok getter =>
      match Observer.observe_state o s (get_state getter) with
      | (o, Err e) => (o, Err (ExStateObserver e))
      | (o, Ok res) => (o, res)
      end
  end.
End getters.
End Executor.
