(* ===== verification/Consensus.v ===== *)
(** What the components of the sidechain consensus share: the errors
    (src/sidechain/consensus/common/src/error.rs), the top pool as they use it,
    the validateers of a shard (src/sidechain/validateer-fetch/src/validateer.rs)
    and the verifier of Aura (src/sidechain/consensus/aura/src/verifier.rs). *)

From stdpp Require Import base gmap numbers strings list.
From S2P Require Import Prelude Collections PoolTypes SidechainDb Durations StfTypes SidechainState SidechainBlocks.
From S2P Require Import Dispatcher StateFileIo StfExecutor Author.

Import Sc.
Open Scope worker_scope.

(** The cause of an error that is kept as a text. *)
Inductive Cause :=
| CauseText (msg : string)
| CauseStateHandler (e : StateHandlerError)
| CauseState (e : StateError)
| CauseExecutor (e : ExecutorError)
| CauseParentchainHeaderNotFound (parentchain_hash : N) (number : Z) (hash : N).

(** [error::Error], the part in use. *)
Inductive ConsensusError :=
| CsSgx (status : Z)
| CsCouldNotGetAuthorities (msg : string)
| CsBlockAncestryMismatch (last_number : Z) (last_hash : N) (msg : string)
| CsInvalidFirstBlock (number : Z) (msg : string)
| CsBlockAlreadyImported (number last_number : Z)
| CsVerificationError (e : VerificationError)
| CsOther (cause : Cause).

(** [From<VerificationError>]. *)
Definition from_verification (e : VerificationError) : ConsensusError :=
  match e with
  | BlockAncestryMismatch a b c => CsBlockAncestryMismatch a b c
  | InvalidFirstBlock a b => CsInvalidFirstBlock a b
  | BlockAlreadyImported a b => CsBlockAlreadyImported a b
  | e => CsVerificationError e
  end.

(** ** The top pool *)

(** The part of [AuthorApi] and [OnBlockImported] the sidechain uses; [now] is the time a removal bans a hash from. *)
Class TopPool (P TCS G : Type) := {
  tp_pending_calls : P → ShardIdentifier → outcome (list (StfTrustedOperation TCS G));
  tp_remove_calls : Z → P → ShardIdentifier → list (TrustedOperationOrHash TCS G * bool) →
    outcome (P * list (TrustedOperationOrHash TCS G));
  tp_on_block_imported : P → list TxHash → BlockHash → P;
}.

(** The hash a call is removed by. *)
Definition removal_hash {TCS G} (top_hash : StfTrustedOperation TCS G → TxHash)
    (c : TrustedOperationOrHash TCS G) : option TxHash :=
  match c with
  | TopHash h => Some h
  | TopOperation op => Some (top_hash op)
  | TopEncoded _ => None
  end.

(** A queue of operations per shard. *)
Class TopPoolLaws (P TCS G : Type) `{TopPool P TCS G} (top_hash : StfTrustedOperation TCS G → TxHash) := {
  tp_ok : P → Prop;
  tp_queue : P → ShardIdentifier → list (StfTrustedOperation TCS G);
  pending_calls_ok : ∀ p s, tp_ok p →
    tp_pending_calls p s = Ret (List.filter Author.calls_only_filter (tp_queue p s));
  remove_calls_ok : ∀ now p s calls hs, tp_ok p → (removal_hash top_hash ∘ fst) <$> calls = Some <$> hs →
    ∃ p' failed, tp_remove_calls now p s calls = Ret (p', failed) ∧ tp_ok p' ∧
      tp_queue p' s = filter (λ op, top_hash op ∉ hs) (tp_queue p s) ∧
      (∀ s', s' ≠ s → tp_queue p' s' = tp_queue p s');
  on_block_imported_ok : ∀ p hs b, tp_ok p →
    tp_ok (tp_on_block_imported p hs b) ∧ tp_queue (tp_on_block_imported p hs b) = tp_queue p;
}.

(** ** Validateers *)

Module Validateers.
Section validateers.
Context {PH : Type}.

(** The signers in the [shard_status] of the enclave bridge pallet, read with a
    proof against the header of a parentchain block; [None] is no entry. *)
Context (shard_status : PH → ShardIdentifier → result (option (list Public)) string).

Definition current_validateers (header : PH) (s : ShardIdentifier) : result (list Public) string :=
  match shard_status header s with
  | Err e => Err e
  | Ok None => Err "Could not get validateer count from chain"%string
  | Ok (Some signers) => Ok signers
  end.

Definition validateer_count (header : PH) (s : ShardIdentifier) : result Z string :=
  let? l := current_validateers header s in Ok (Z.of_nat (length l)).

(** aura/src/lib.rs. *)
Definition authorities (header : PH) (s : ShardIdentifier) : result (list Public) ConsensusError :=
  match current_validateers header s with
  | Ok l => Ok l
  | Err e => Err (CsCouldNotGetAuthorities e)
  end.

(** [AuraVerifier::verify]. *)
Context `{Blake2} `{Encode SidechainHeader} `{Encode BlockData} `{Encode Block}.
Context {Pair : Type} `{SignatureScheme Pair} `{ParentchainHeader PH}.

Definition aura_verify (slot_duration : Duration) (last_block : option Block) (signed_block : SignedBlock)
    (parentchain_header : PH) (s : ShardIdentifier) : outcome (result SignedBlock ConsensusError) :=
  match authorities parentchain_header s with
  | Err e => Ret (Err e)
  | Ok l =>
      Verify.verify_sidechain_block signed_block slot_duration last_block parentchain_header l ≫= λ res,
      Ret match res with Ok b => Ok b | Err e => Err (from_verification e) end
  end.

(** A block is accepted exactly as the verification says, with the validateers
    of the shard. *)
Lemma aura_verify_accepts slot_duration last_block sb header s :
  (0 < as_millis slot_duration)%Z →
  aura_verify slot_duration last_block sb header s = Ret (Ok sb) ↔
  ∃ l, current_validateers header s = Ok l ∧ verify_signature sb = true ∧
    VerifyInv.succeeds last_block (block sb) ∧ pc_hash header = layer_one_head (block_data (block sb)) ∧
    VerifyInv.round_robin (VerifyInv.block_slot slot_duration (block sb)) l = Some (block_author (block_data (block sb))).
Proof.
  intros Hd. unfold aura_verify, authorities. destruct (current_validateers header s) as [l|e]; [|naive_solver].
  pose proof (VerifyInv.verify_accepts sb slot_duration last_block header l Hd) as Hiff. split.
  - intros Heq. exists l. split; [done|]. apply Hiff.
    destruct (Verify.verify_sidechain_block _ _ _ _ _) as [[r|e]| |]; naive_solver.
  - intros (l' & [= <-] & Hall). apply Hiff in Hall as [r Hr]. rewrite Hr.
    by rewrite (VerifyInv.verify_returns_block sb r slot_duration last_block header l Hd Hr).
Qed.
End validateers.
End Validateers.
