(* ===== verification/BlockComposer.v ===== *)
(** The production of a sidechain block: the block composer
    (src/sidechain/block-composer/src/block_composer.rs) and the slot proposer
    (src/sidechain/consensus/aura/src/slot_proposer.rs, proposer_factory.rs).

    The readings of the clock are arguments: [now_state] is written into the
    state, [now_block] into the block. *)

From stdpp Require Import base gmap fin_maps numbers strings list.
From S2P Require Import Prelude Collections PoolTypes Externalities SidechainDb Durations StfTypes SidechainState SidechainBlocks.
From S2P Require Import StateFileIo StateHandler StfExecutor Consensus.

Import Ext(SgxExternalities).
Import Sc.
Open Scope worker_scope.

(** itp_settings::worker. *)
Definition BLOCK_NUMBER_FINALIZATION_DIFF : Z := 20.

Module Composer.

Section composer.
Context `{Encode SgxExternalitiesType} `{Blake2} `{EncodeAppend} `{Twox}.
Context `{Encode Z, Decode Z} `{Encode N, Decode N}.
Context `{Encode SidechainHeader} `{Encode BlockData} `{Encode Block, Decode Block} `{Encode StateUpdate}.
Context {Pair Key PH : Type} `{SignatureScheme Pair} `{StateCrypto Key} `{ParentchainHeader PH}.
(** [AccessKey::retrieve_key] of the state key repository. *)
Context (signer : Pair) (retrieve_key : result Key string).

Definition finalization_candidate (block_number next_finalization_block_number : Z) : Z :=
  if (block_number =? 1)%Z then 1%Z
  else if (next_finalization_block_number <? block_number)%Z
  then u64_wrap (next_finalization_block_number + BLOCK_NUMBER_FINALIZATION_DIFF)
  else next_finalization_block_number.

Definition compose_block (now_block : Duration) (latest_parentchain_header : PH) (top_call_hashes : list TxHash)
    (shard : ShardIdentifier) (state_hash_apriori : N) (aposteriori_state : SgxExternalities) :
    result SignedBlock string :=
  let author_public := public signer in
  let state_hash_new := Ext.hash aposteriori_state in
  let '(block_number, parent_hash, next_finalization_block_number) :=
    match ScState.get_last_block (SidechainBlock := Block) aposteriori_state with
    | Some b => (u64_wrap (block_number (header b) + 1), hash b, next_finalization_block_number (header b))
    | None => (1%Z, default_hash, 1%Z)
    end in
  if decide (block_number = default 0%Z (ScState.get_block_number aposteriori_state)) then
    let payload := encode (MkStateUpdate state_hash_apriori state_hash_new (Ext.state_diff aposteriori_state)) in
    match retrieve_key with
    | Err e => Err e
    | Ok state_key =>
        match encrypt state_key payload with
        | Err e => Err e
        | Ok payload =>
            let block_data := MkBlockData (millis_u64 now_block) (pc_hash latest_parentchain_header)
              author_public top_call_hashes payload in
            let header := MkHeader parent_hash block_number shard (data_hash block_data)
              (finalization_candidate block_number next_finalization_block_number) in
            Ok (sign_block (MkBlock header block_data) signer)
        end
    end
  else Err "[Sidechain] BlockNumber is not LastBlock's Number + 1"%string.

(** *** The proposer *)

Record Proposal := MkProposal {
  proposed_block : SignedBlock;
  parentchain_effects : list ParentchainCall;
}.

Context {TCS G Mr W P : Type} `{Stf TCS Mr PH} `{HandleState W} `{TopPool P TCS G}.
Context (top_hash : StfTrustedOperation TCS G → TxHash).
Context (duration_now : nat → Duration) (get_mrenclave_of_self : nat → result Mr Z).

(** The closure that prepares the state. *)
Definition prepare_state (now_state : Duration) (sidechain_db : SgxExternalities) : SgxExternalities :=
  let sidechain_db := ScState.reset_events sidechain_db in
  let sidechain_db := ScState.set_block_number sidechain_db
    (match ScState.get_block_number sidechain_db with Some n => u64_wrap (n + 1) | None => 1%Z end) in
  ScState.set_timestamp sidechain_db (millis_u64 now_state).

(** [now_ban] is the time the failed operations are banned from. *)
Definition propose (now_state now_block : Duration) (now_ban : Z) (w : W) (p : P) (parentchain_header : PH)
    (shard : ShardIdentifier) (max_duration : Duration) : outcome (P * result Proposal ConsensusError) :=
  tp_pending_calls p shard ≫= λ trusted_calls,
  Executor.propose_state_update top_hash duration_now get_mrenclave_of_self w trusted_calls shard max_duration
    (prepare_state now_state) ≫= λ res,
  match res with
  | Err e => Ret (p, Err (CsOther (CauseExecutor e)))
  | Ok batch =>
      let parentchain_extrinsics := Executor.get_extrinsic_callbacks batch in
      let executed_operation_hashes := Executor.get_executed_operation_hashes batch in
      let failed_operations := Executor.get_failed_operations batch in
      tp_remove_calls now_ban p shard
        ((λ e, (Executor.trusted_operation_or_hash e, Executor.is_success e)) <$> failed_operations) ≫= λ '(p, _),
      match compose_block now_block parentchain_header executed_operation_hashes shard
              (Executor.state_hash_before_execution batch) (Executor.state_after_execution batch) with
      | Err e => Ret (p, Err (CsOther (CauseText e)))
      | Ok sidechain_block => Ret (p, Ok (MkProposal sidechain_block parentchain_extrinsics))
      end
  end.
End composer.
End Composer.
