(* ===== verification/ParentchainImport.v ===== *)
(** The import of parentchain blocks
    (src/core/parentchain/block-importer/src/block_importer.rs): every block goes
    to the light client, to the states of the shards and to the executor of
    indirect calls.  The light client, the factory of extrinsics and the executor
    of indirect calls are interfaces. *)

From stdpp Require Import base gmap numbers strings list.
From S2P Require Import Prelude Collections PoolTypes Externalities SidechainDb SidechainBlocks StateFileIo StateHandler.
From S2P Require Import StfExecutor Dispatcher.

Import Ext(SgxExternalities).
Open Scope worker_scope.

Abbreviation OpaqueCall := Bytes (only parsing).

(** [SignedBlock] of the parentchain. *)
Class ParentchainBlock (PB PH : Type) := pb_header : PB → PH.

(** [Validator] and [ExtrinsicSender] of the light client. *)
Class LightClient (V PB Xt : Type) := {
  lc_submit_block : V → PB → V * result unit string;
  lc_send_extrinsics : V → list Xt → V * result unit string;
}.

Class ExtrinsicsFactory (X Xt : Type) :=
  create_extrinsics : X → list OpaqueCall → X * result (list Xt) string.

(** [ExecuteIndirectCalls]: calls found in a block go to the top pool. *)
Class IndirectCallsExecutor (P PB : Type) :=
  execute_indirect_calls_in_extrinsics : P → PB → RawEventsPerBlock → outcome (P * result (option OpaqueCall) string).

Inductive ImporterError :=
| IeLightClient (msg : string)
| IeStfExecutor (e : ExecutorError)
| IeExtrinsics (msg : string).

(** [ShardCreationInfo] (core-primitives/stf-interface/src/lib.rs), the numbers of
    the blocks the shard was created at. *)
Record ShardCreationInfo := MkCreation {
  sci_integritee : option Z;
  sci_target_a : option Z;
  sci_target_b : option Z;
}.

Definition for_parentchain (info : ShardCreationInfo) (id : ParentchainId) : option Z :=
  match id with
  | Integritee => sci_integritee info
  | TargetA => sci_target_a info
  | TargetB => sci_target_b info
  end.

Module PcImport.

(** What an import works on. *)
Record Env (V X W P : Type) := MkEnv {
  validator : V;
  factory : X;
  states : W;
  top_pool : P;
}.
Arguments MkEnv {V X W P} _ _ _ _.
Arguments validator {V X W P} _.
Arguments factory {V X W P} _.
Arguments states {V X W P} _.
Arguments top_pool {V X W P} _.

Section importer.
Context `{Encode SgxExternalitiesType} `{Blake2} `{EncodeAppend}.
Context {TCS Mr PH PB V X Xt W P : Type} `{Stf TCS Mr PH} `{HandleState W} `{ParentchainHeader PH}.
Context `{ParentchainBlock PB PH} `{LightClient V PB Xt} `{ExtrinsicsFactory X Xt} `{IndirectCallsExecutor P PB}.
Context (get_multiple_storages_verified :
  list Bytes → PH → ParentchainId → result (list (Bytes * option Bytes)) string).
(** The reading of the clock for the snapshot of a shard on the import of a block. *)
Context (snapshot_now : PB → ShardIdentifier → StateId).
Context `{Decode (list ShardIdentifier)}.
Context (id : ParentchainId) (shard_creation_info : ShardCreationInfo).
Abbreviation Env' := (Env V X W P).
Implicit Types (env : Env').

Definition update_states env (b : PB) : outcome (Env' * result unit ExecutorError) :=
  Executor.update_states (TCS := TCS) (Mr := Mr) get_multiple_storages_verified (snapshot_now b) (states env) (pb_header b) id
    ≫= λ '(w, res), Ret (MkEnv (validator env) (factory env) w (top_pool env), res).

(** One block; the call that confirms it, if any. *)
Definition import_one env (b : PB) (raw_events : RawEventsPerBlock) :
    outcome (Env' * result (option OpaqueCall) ImporterError) :=
  match lc_submit_block (validator env) b with
  | (v, Err e) => Ret (MkEnv v (factory env) (states env) (top_pool env), Err (IeLightClient e))
  | (v, Ok _) =>
      let env := MkEnv v (factory env) (states env) (top_pool env) in
      if match for_parentchain shard_creation_info id with Some n => (pc_number (pb_header b) <? n)%Z | None => false end
      then Ret (env, Ok None)
      else
        update_states env b ≫= λ '(env, res),
        match res with
        | Err e => Ret (env, Err (IeStfExecutor e))
        | Ok _ =>
            execute_indirect_calls_in_extrinsics (top_pool env) b raw_events ≫= λ '(p, res),
            Ret (MkEnv (validator env) (factory env) (states env) p,
                 Ok match res with Ok call => call | Err _ => None end)
        end
  end.

Fixpoint import_each env (calls : list OpaqueCall) (l : list (PB * RawEventsPerBlock)) :
    outcome (Env' * result (list OpaqueCall) ImporterError) :=
  match l with
  | [] => Ret (env, Ok calls)
  | (b, raw_events) :: l =>
      import_one env b raw_events ≫= λ '(env, res),
      match res with
      | Err e => Ret (env, Err e)
      | Ok (Some call) => import_each env (calls ++ [call]) l
      | Ok None => import_each env calls l
      end
  end.

(** [zip] stops at the end of the shorter list. *)
Definition import_parentchain_blocks env (blocks_to_import : list PB) (events_to_import : list RawEventsPerBlock) :
    outcome (Env' * result unit ImporterError) :=
  let events_to_import_aligned :=
    match events_to_import with [] => replicate (length blocks_to_import) [] | _ => events_to_import end in
  import_each env [] (zip blocks_to_import events_to_import_aligned) ≫= λ '(env, res),
  match res with
  | Err e => Ret (env, Err e)
  | Ok calls =>
      match create_extrinsics (factory env) calls with
      | (x, Err e) => Ret (MkEnv (validator env) x (states env) (top_pool env), Err (IeExtrinsics e))
      | (x, Ok parentchain_extrinsics) =>
          match lc_send_extrinsics (validator env) parentchain_extrinsics with
          | (v, Err e) => Ret (MkEnv v x (states env) (top_pool env), Err (IeLightClient e))
          | (v, Ok _) => Ret (MkEnv v x (states env) (top_pool env), Ok tt)
          end
      end
  end.

Definition parentchain_importer : ImportParentchainBlocks Env' PB ImporterError := import_parentchain_blocks.
End importer.
End PcImport.
