(* ===== verification/BlockImport.v ===== *)
(** The import of sidechain blocks: the generic import
    (src/sidechain/consensus/common/src/block_import.rs) and the importer of Aura
    (src/sidechain/consensus/aura/src/block_importer.rs).

    An import works on the triggered dispatcher of parentchain blocks, whose
    importer shares the states and the top pool with it, and on the untrusted
    side, which stores the blocks.  The clock is a stream of readings. *)

From stdpp Require Import base gmap fin_maps numbers strings list.
From S2P Require Import Prelude Collections PoolTypes Externalities SidechainDb Durations StfTypes SidechainState SidechainBlocks.
From S2P Require Import StateFileIo StateHandler StfExecutor Dispatcher Consensus ParentchainImport.

Import Ext(SgxExternalities).
Import Sc.
Open Scope worker_scope.

(** itp_settings::sidechain. *)
Definition SLOT_DURATION : Duration := from_millis 1000.

(** [EnclaveSidechainOCallApi]: the untrusted side stores the blocks and fetches
    blocks from peers. *)
Class SidechainOCall (S : Type) := {
  oc_store_sidechain_blocks : S → list SignedBlock → S * result unit Z;
  oc_fetch_sidechain_blocks_from_peer : S → N → option N → ShardIdentifier → result (list SignedBlock) Z;
}.

Module ScImport.
Import Dispatch PcImport.

Record World (E PB S : Type) := MkWorld {
  trigger : TriggeredDispatcher E PB;
  ocall : S;
  block_height_metrics : list Z;
  ticks : nat;
}.
Arguments MkWorld {E PB S} _ _ _ _.
Arguments trigger {E PB S} _.
Arguments ocall {E PB S} _.
Arguments block_height_metrics {E PB S} _.
Arguments ticks {E PB S} _.

Section import.
Context `{Encode SgxExternalitiesType} `{Blake2} `{EncodeAppend} `{Twox}.
Context `{Encode Z, Decode Z} `{Encode N, Decode N}.
Context `{Encode SidechainHeader} `{Encode BlockData} `{Encode Block, Decode Block} `{Decode StateUpdate}.
Context {Pair Key PH PB V X W P S TCS G : Type} `{SignatureScheme Pair} `{StateCrypto Key}.
Context `{ParentchainHeader PH} `{ParentchainBlock PB PH}.
Context `{HandleState W} `{TopPool P TCS G} `{SidechainOCall S} `{ImportParentchainBlocks (Env V X W P) PB ImporterError}.
Context (shard_status : PH → ShardIdentifier → result (option (list Public)) string).
Context (retrieve_key : result Key string).
Context (snapshot_clock : nat → StateId) (ban_clock : nat → Z).
Abbreviation World' := (World (Env V X W P) PB S).
Implicit Types (w : World') (s : ShardIdentifier) (sb : SignedBlock).

Definition env w : Env V X W P := block_importer (trigger w).

Definition set_env w (e : Env V X W P) : World' :=
  MkWorld (MkTriggered e (import_queue (trigger w)) (events_queue (trigger w))) (ocall w) (block_height_metrics w) (ticks w).

Definition set_trigger w (d : TriggeredDispatcher (Env V X W P) PB) : World' :=
  MkWorld d (ocall w) (block_height_metrics w) (ticks w).

Definition tick w : World' := MkWorld (trigger w) (ocall w) (block_height_metrics w) (Datatypes.S (ticks w)).

Definition set_states w (x : W) : World' := set_env w (MkEnv (validator (env w)) (factory (env w)) x (top_pool (env w))).
Definition set_pool w (p : P) : World' := set_env w (MkEnv (validator (env w)) (factory (env w)) (states (env w)) p).

(** *** The importer of Aura *)

Definition update_top_pool w (b : Block) : outcome World' :=
  let p := tp_on_block_imported (top_pool (env w)) (signed_top_hashes (block_data b)) (hash b) in
  let executed_operations := (λ h, (TopHash h, true)) <$> signed_top_hashes (block_data b) in
  tp_remove_calls (ban_clock (ticks w)) p (shard_id (header b)) executed_operations ≫= λ '(p, _),
  Ret (tick (set_pool w p)).

Definition apply_state_update w s
    (mutating_function : SgxExternalities → result SgxExternalities ConsensusError) :
    outcome (World' * result unit ConsensusError) :=
  match hs_load_for_mutation (states (env w)) s with
  | Err e => Ret (w, Err (CsOther (CauseStateHandler e)))
  | Ok state =>
      match mutating_function state with
      | Err e => Ret (w, Err e)
      | Ok updated_state =>
          hs_write_after_mutation (snapshot_clock (ticks w)) (states (env w)) updated_state s ≫= λ '(x, res),
          Ret (tick (set_states w x), match res with Ok _ => Ok tt | Err e => Err (CsOther (CauseStateHandler e)) end)
      end
  end.

(** The state is read without its hash. *)
Definition verify_import w s
    (verifying_function : SgxExternalities → outcome (result SignedBlock ConsensusError)) :
    outcome (result SignedBlock ConsensusError) :=
  match hs_load_cloned (states (env w)) s with
  | Err e => Ret (Err (CsOther (CauseStateHandler e)))
  | Ok (state, _) => verifying_function state
  end.

Definition import_parentchain_block w (b : Block) (last_imported_parentchain_header : PH) :
    outcome (World' * result PH ConsensusError) :=
  import_until (trigger w) (λ pb, bool_decide (pc_hash (pb_header pb) = layer_one_head (block_data b))) ≫= λ '(d, res),
  Ret (set_trigger w d,
       match res with
       | Err _ => Err (CsOther (CauseText "parentchain block import"))
       | Ok (Some pb) => Ok (pb_header pb)
       | Ok None => Ok last_imported_parentchain_header
       end).

Definition peek_parentchain_header w (b : Block) (last_imported_parentchain_header : PH) : result PH ConsensusError :=
  let parentchain_header_hash_to_peek := layer_one_head (block_data b) in
  if decide (parentchain_header_hash_to_peek = pc_hash last_imported_parentchain_header)
  then Ok last_imported_parentchain_header
  else
    match peek (trigger w) (λ pb, bool_decide (pc_hash (pb_header pb) = parentchain_header_hash_to_peek)) with
    | Some pb => Ok (pb_header pb)
    | None => Err (CsOther (CauseParentchainHeaderNotFound parentchain_header_hash_to_peek (block_number (header b)) (hash b)))
    end.

(** A metric that cannot be sent is logged. *)
Definition cleanup w sb : outcome World' :=
  update_top_pool w (block sb) ≫= λ w,
  Ret (MkWorld (trigger w) (ocall w) (block_height_metrics w ++ [block_number (header (block sb))]) (ticks w)).

(** *** The generic import *)

Definition state_update_from_encrypted (encrypted : Bytes) (key : Key) : result StateUpdate ConsensusError :=
  match decrypt key encrypted with
  | Err e => Err (CsOther (CauseText e))
  | Ok payload =>
      match decode payload with
      | Err e => Err (CsOther (CauseText e))
      | Ok update => Ok update
      end
  end.

(** The closure that updates the state. *)
Definition update_state (state_key : Key) (block_import_params : SignedBlock) (state : SgxExternalities) :
    result SgxExternalities ConsensusError :=
  let b := block block_import_params in
  let? update := state_update_from_encrypted (encrypted_state_diff (block_data b)) state_key in
  match ScState.apply_state_update state update with
  | (_, Err e) => Err (CsOther (CauseState e))
  | (state, Ok _) => Ok (ScState.set_last_block state (hash b) b)
  end.

(** Once the block is applied. *)
Definition finish_import w sb (latest_parentchain_header : PH) : outcome (World' * result PH ConsensusError) :=
  cleanup w sb ≫= λ w,
  let '(o, res) := oc_store_sidechain_blocks (ocall w) [sb] in
  let w := MkWorld (trigger w) o (block_height_metrics w) (ticks w) in
  Ret (w, match res with Ok _ => Ok latest_parentchain_header | Err e => Err (CsSgx e) end).

Definition import_block w sb (parentchain_header : PH) : outcome (World' * result PH ConsensusError) :=
  let b := block sb in
  let s := shard_id (header b) in
  let peeked_parentchain_header :=
    match peek_parentchain_header w b parentchain_header with Ok h => h | Err _ => parentchain_header end in
  verify_import w s (λ state,
    Validateers.aura_verify shard_status SLOT_DURATION (ScState.get_last_block state) sb peeked_parentchain_header s) ≫= λ res,
  match res with
  | Err e => Ret (w, Err e)
  | Ok block_import_params =>
      import_parentchain_block w b parentchain_header ≫= λ '(w, res),
      match res with
      | Err e => Ret (w, Err e)
      | Ok latest_parentchain_header =>
          match retrieve_key with
          | Err e => Ret (w, Err (CsOther (CauseText e)))
          | Ok state_key =>
              apply_state_update w s (update_state state_key block_import_params) ≫= λ '(w, res),
              match res with
              | Err e => Ret (w, Err e)
              | Ok _ => finish_import w sb latest_parentchain_header
              end
          end
      end
  end.
End import.
End ScImport.
