(* ===== verification/BlockImportInv.v ===== *)
(** The import of a sidechain block is atomic up to its last steps, and keeps the
    chain of the shard linked. *)

From stdpp Require Import base gmap fin_maps fin_map_dom numbers strings list.
From S2P Require Import Prelude Collections PoolTypes StfTypes SidechainDb Durations Externalities SidechainState SidechainBlocks.
From S2P Require Import Dispatcher StateFileIo StateHandler StfExecutor Consensus ParentchainImport BlockImport.

Import Ext(SgxExternalities).
Import Sc ScStateInv.
Open Scope worker_scope.

Module ImportInv.
Import Dispatch PcImport ScImport.

Section env.
Context `{Encode SgxExternalitiesType} `{Blake2} `{Twox} `{Decode Block}.
Context {V X W P TCS G : Type} {initialize : result SgxExternalities StateHandlerError}.
Context {top_hash : StfTrustedOperation TCS G → TxHash}.
Context `{HandleState W} `{!HandleStateLaws W initialize} `{TopPool P TCS G} `{!TopPoolLaws P TCS G top_hash}.
Implicit Types (e : Env V X W P) (s : ShardIdentifier).

Definition env_ok e : Prop := hs_ok (states e) ∧ tp_ok (top_pool e).

(** The last block of a shard, as its state has it. *)
Definition last_of e s : option Block := hs_view (states e) !! s ≫= λ st, ScState.get_last_block st.

(** The entry of the block number in the state of a shard. *)
Definition number_entry e s : option Bytes := hs_view (states e) !! s ≫= λ st, Ext.get st (storage_value_key "System" "Number").
End env.

(** What the import of parentchain blocks promises: it returns, and it leaves
    the shards, their last blocks and their block numbers alone. *)
Class SafeImporter {V X W P PB TCS G : Type} `{ImportParentchainBlocks (Env V X W P) PB ImporterError}
    `{Encode SgxExternalitiesType} `{Blake2} `{Twox} `{Decode Block}
    (initialize : result SgxExternalities StateHandlerError) (top_hash : StfTrustedOperation TCS G → TxHash)
    `{HandleState W} `{!HandleStateLaws W initialize} `{TopPool P TCS G} `{!TopPoolLaws P TCS G top_hash} : Prop := {
  import_safe : ∀ (e : Env V X W P) blocks events, env_ok e →
    ∃ e' res, Dispatcher.import_parentchain_blocks (SB := PB) e blocks events = Ret (e', res) ∧ env_ok e' ∧
      dom (hs_view (states e')) = dom (hs_view (states e)) ∧ (∀ s, last_of e' s = last_of e s) ∧
      ∀ s, number_entry e' s = number_entry e s;
}.

Section inv.
Context `{Encode SgxExternalitiesType} `{Blake2} `{EncodeAppend} `{Twox} `{!TwoxLaws}.
Context `{Encode Z, Decode Z} `{Encode N, Decode N}.
Context `{Encode SidechainHeader} `{Encode BlockData} `{Encode Block, Decode Block} `{!Codec Block} `{Decode StateUpdate}.
Context {Pair Key PH PB V X W P S TCS G : Type} `{SignatureScheme Pair} `{StateCrypto Key}.
Context `{ParentchainHeader PH} `{ParentchainBlock PB PH}.
Context {initialize : result SgxExternalities StateHandlerError} {top_hash : StfTrustedOperation TCS G → TxHash}.
Context `{HandleState W} `{!HandleStateLaws W initialize} `{TopPool P TCS G} `{!TopPoolLaws P TCS G top_hash}.
Context `{SidechainOCall S} `{ImportParentchainBlocks (Env V X W P) PB ImporterError} `{!SafeImporter (PB := PB) (V := V) (X := X) initialize top_hash}.
Context (shard_status : PH → ShardIdentifier → result (option (list Public)) string).
Context (retrieve_key : result Key string).
Context (snapshot_clock : nat → StateId) (ban_clock : nat → Z).
Abbreviation World' := (World (Env V X W P) PB S).
Implicit Types (w : World') (s : ShardIdentifier) (sb : SignedBlock).

Definition view w : gmap ShardIdentifier SgxExternalities := hs_view (states (env w)).
Definition w_ok w : Prop := env_ok (env w).

(** The parentchain block an import is verified against. *)
Definition reference_header w sb (header : PH) : PH :=
  match peek_parentchain_header w (block sb) header with Ok h => h | Err _ => header end.

Lemma verify_import_spec w sb header :
  w_ok w → let s := shard_id (Sc.header (block sb)) in
  verify_import w s (λ state, Validateers.aura_verify shard_status SLOT_DURATION (ScState.get_last_block state) sb
    (reference_header w sb header) s) =
  match view w !! s with
  | None => Ret (Err (CsOther (CauseStateHandler (InvalidShard s))))
  | Some st => Validateers.aura_verify shard_status SLOT_DURATION (ScState.get_last_block st) sb (reference_header w sb header) s
  end.
Proof.
  intros [Hhs _]. unfold verify_import, view. cbv zeta. rewrite (load_cloned_ok _ _ Hhs).
  by destruct (hs_view (states (env w)) !! _).
Qed.

(** The conditions under which a block is accepted. *)
Record accepted w sb (h : PH) : Prop := {
  ac_signature : verify_signature sb = true;
  ac_succeeds : VerifyInv.succeeds (last_of (env w) (shard_id (header (block sb)))) (block sb);
  ac_parentchain : pc_hash (reference_header w sb h) = layer_one_head (block_data (block sb));
  ac_author : ∃ l, Validateers.current_validateers shard_status (reference_header w sb h) (shard_id (header (block sb))) = Ok l ∧
    VerifyInv.round_robin (VerifyInv.block_slot SLOT_DURATION (block sb)) l = Some (block_author (block_data (block sb)));
}.

Lemma slot_duration_pos : (0 < as_millis SLOT_DURATION)%Z.
Proof. by vm_compute. Qed.

Lemma accepted_iff w sb h st :
  view w !! shard_id (header (block sb)) = Some st →
  Validateers.aura_verify shard_status SLOT_DURATION (ScState.get_last_block st) sb (reference_header w sb h)
    (shard_id (header (block sb))) = Ret (Ok sb) ↔ accepted w sb h.
Proof.
  intros Hs. rewrite Validateers.aura_verify_accepts by apply slot_duration_pos.
  assert (last_of (env w) (shard_id (header (block sb))) = ScState.get_last_block st) as Hlast.
  { unfold last_of. unfold view in Hs. by rewrite Hs. }
  split.
  - intros (l & Hl & Hsig & Hsucc & Hpc & Hrr). split; [done|by rewrite Hlast|done|by exists l].
  - intros [Hsig Hsucc Hpc (l & Hl & Hrr)]. exists l. rewrite Hlast in Hsucc. done.
Qed.

(** The verification returns the block or an error. *)
Lemma aura_verify_cases d last sb h s :
  (0 < as_millis d)%Z →
  Validateers.aura_verify shard_status d last sb h s = Ret (Ok sb) ∨
  ∃ e, Validateers.aura_verify shard_status d last sb h s = Ret (Err e).
Proof.
  intros Hd. unfold Validateers.aura_verify. destruct (Validateers.authorities _ _ _) as [l|e]; [|by eauto].
  pose proof (VerifyInv.verify_returns_block sb) as Hret.
  rewrite VerifyInv.verify_sidechain_block_unfold in * by done. cbn [mbind outcome_bind].
  destruct (if verify_signature sb then _ else _) as [r|e] eqn:Hv; [|by eauto]. left. do 2 f_equal.
  apply (Hret r d last h l Hd). by rewrite VerifyInv.verify_sidechain_block_unfold, Hv.
Qed.

(** *** Steps *)

Lemma import_parentchain_spec w b h :
  w_ok w →
  ∃ w' res, import_parentchain_block w b h = Ret (w', res) ∧ w_ok w' ∧ ocall w' = ocall w ∧
    dom (view w') = dom (view w) ∧ (∀ s, last_of (env w') s = last_of (env w) s) ∧
    ∀ s, number_entry (env w') s = number_entry (env w) s.
Proof.
  intros Hok. unfold import_parentchain_block, import_until.
  destruct (Queue.pop_until _ _) as [q blocks]. destruct (Queue.pop_from_front_until _ _) as [eq [events|e]].
  - unfold run_import. cbn [block_importer].
    destruct (import_safe (PB := PB) (env w) blocks events Hok) as (e' & res & He & Hok' & Hdom & Hlast & Hnum).
    change (block_importer (trigger w)) with (env w). rewrite He.
    destruct res as [[]|e]; cbn [mbind outcome_bind]; eexists _, _; (split; [done|]); done.
  - cbn [mbind outcome_bind]. eexists _, _. done.
Qed.

Definition applied w s (st : SgxExternalities) (w' : World') : Prop :=
  w_ok w' ∧ ocall w' = ocall w ∧ view w' = <[s := Ext.prune_state_diff st]> (view w).

Lemma apply_state_update_world w s f :
  w_ok w →
  (∃ e, apply_state_update snapshot_clock w s f = Ret (w, Err e) ∧
     match view w !! s with Some st => f st = Err e | None => e = CsOther (CauseStateHandler (InvalidShard s)) end) ∨
  (∃ st st' w' res, view w !! s = Some st ∧ f st = Ok st' ∧
     apply_state_update snapshot_clock w s f = Ret (w', res) ∧ applied w s st' w' ∧
     top_pool (env w') = top_pool (env w) ∧ (hs_writable (snapshot_clock (ticks w)) (states (env w)) s → res = Ok tt) ∧
     (res = Ok tt ∨ ∃ e, res = Err (CsOther (CauseStateHandler e)))).
Proof.
  intros [Hhs Htp]. unfold apply_state_update. rewrite (load_for_mutation_ok _ _ Hhs). unfold view.
  destruct (hs_view (states (env w)) !! s) as [st|] eqn:Hs; [|by left; eauto].
  destruct (f st) as [st'|e] eqn:Hf; [|by left; eauto]. right.
  destruct (write_ok (snapshot_clock (ticks w)) (states (env w)) st' s Hhs) as (x & res & Hw & Hok & Hv & Hres).
  rewrite Hw. cbn [mbind outcome_bind]. eexists st, st', _, _. split_and!; [done..| |done| |].
  - by split; [split|].
  - intros Hwr. by rewrite (Hres Hwr).
  - destruct res; by eauto.
Qed.

(** What is done once the block is applied. *)
Record finished w sb (h : PH) w' (res : result PH ConsensusError) : Prop := {
  fi_ok : w_ok w';
  fi_view : view w' = view w;
  fi_queue : tp_queue (top_pool (env w')) (shard_id (header (block sb))) =
    filter (λ op, top_hash op ∉ signed_top_hashes (block_data (block sb)))
      (tp_queue (top_pool (env w)) (shard_id (header (block sb))));
  fi_others : ∀ s, s ≠ shard_id (header (block sb)) → tp_queue (top_pool (env w')) s = tp_queue (top_pool (env w)) s;
  fi_ocall : ocall w' = (oc_store_sidechain_blocks (ocall w) [sb]).1;
  fi_res : res = match (oc_store_sidechain_blocks (ocall w) [sb]).2 with Ok _ => Ok h | Err e => Err (CsSgx e) end;
}.

Lemma finish_import_spec w sb h :
  w_ok w → ∃ w' res, finish_import ban_clock w sb h = Ret (w', res) ∧ finished w sb h w' res.
Proof.
  intros [Hhs Htp]. unfold finish_import, cleanup, update_top_pool.
  set (hs := signed_top_hashes (block_data (block sb))). set (s := shard_id (header (block sb))).
  destruct (on_block_imported_ok (top_pool (env w)) hs (hash (block sb)) Htp) as [Hp Hq].
  destruct (remove_calls_ok (ban_clock (ticks w)) (tp_on_block_imported (top_pool (env w)) hs (hash (block sb))) s
    ((λ h, (TopHash h, true)) <$> hs) hs Hp) as (p' & failed & Hr & Hp' & Hqs & Hqo).
  { by rewrite <-list_fmap_compose. }
  rewrite Hr. cbn [mbind outcome_bind]. unfold tick, set_pool, set_env. cbn [ocall trigger].
  destruct (oc_store_sidechain_blocks (ocall w) [sb]) as [o res] eqn:Ho. eexists _, _. split; [done|].
  rewrite Hq in *. split; simpl; [done..|by rewrite Ho|by rewrite Ho].
Qed.

Lemma update_state_last key sb st st' :
  update_state key sb st = Ok st' →
  ScState.get_last_block (Ext.prune_state_diff st') = Some (block sb).
Proof.
  unfold update_state. destruct (state_update_from_encrypted _ _) as [u|e]; [|done].
  destruct (ScState.apply_state_update st u) as [st1 [[]|e]]; [|done]. intros [= <-].
  exact (get_set_with_name (ScState.set_last_block_hash st1 (hash (block sb))) "LastBlock" (block sb)).
Qed.

(** The block is the last one of its shard, and nothing else changed the last blocks. *)
Definition on_top w sb w' : Prop :=
  ∀ s, last_of (env w') s = if decide (s = shard_id (header (block sb))) then Some (block sb) else last_of (env w) s.

(** What an import leads to. *)
Inductive import_outcome w sb (h : PH) w' : result PH ConsensusError → Prop :=
(** The block is refused and nothing changes. *)
| ImRefused e : w' = w → import_outcome w sb h w' (Err e)
(** The block is accepted, but the parentchain block, the key or the state update
    is missing or wrong: no shard gets a new last block. *)
| ImNotApplied e : accepted w sb h → ocall w' = ocall w → (∀ s, last_of (env w') s = last_of (env w) s) →
    import_outcome w sb h w' (Err e)
(** The block is applied, but its snapshot could not be written. *)
| ImNotWritten e : accepted w sb h → ocall w' = ocall w → on_top w sb w' →
    import_outcome w sb h w' (Err (CsOther (CauseStateHandler e)))
(** The block is applied, but it could not be stored. *)
| ImNotStored e : accepted w sb h → oc_store_sidechain_blocks (ocall w) [sb] = (ocall w', Err e) → on_top w sb w' →
    import_outcome w sb h w' (Err (CsSgx e))
(** The block is imported. *)
| ImDone h' : accepted w sb h → oc_store_sidechain_blocks (ocall w) [sb] = (ocall w', Ok tt) → on_top w sb w' →
    import_outcome w sb h w' (Ok h').

Lemma applied_on_top w w1 w2 sb key st1 st2 :
  (∀ s, last_of (env w1) s = last_of (env w) s) → update_state key sb st1 = Ok st2 →
  view w2 = <[shard_id (header (block sb)) := Ext.prune_state_diff st2]> (view w1) → on_top w sb w2.
Proof.
  intros Hl Hu Hv s. rewrite <-Hl. unfold last_of. fold (view w2). rewrite Hv, lookup_insert.
  case_decide as Hs; [subst; rewrite decide_True by done|by rewrite decide_False by congruence].
  apply (update_state_last _ _ _ _ Hu).
Qed.

Lemma import_block_cases w sb h :
  w_ok w →
  ∃ w' res, import_block shard_status retrieve_key snapshot_clock ban_clock w sb h = Ret (w', res) ∧ w_ok w' ∧
    import_outcome w sb h w' res.
Proof.
  intros Hok. unfold import_block. cbv zeta. fold (reference_header w sb h).
  rewrite verify_import_spec by done. set (s := shard_id (header (block sb))) in *.
  destruct (view w !! s) as [st|] eqn:Hs; [|by eexists _, _; split; [done|]; split; [done|]; constructor].
  destruct (aura_verify_cases SLOT_DURATION (ScState.get_last_block st) sb (reference_header w sb h) s slot_duration_pos)
    as [Hv|[e Hv]]; rewrite Hv; cbn [mbind outcome_bind]; [|by eexists _, _; split; [done|]; split; [done|]; constructor].
  apply (accepted_iff w sb h st Hs) in Hv.
  destruct (import_parentchain_spec w (block sb) h Hok) as (w1 & res1 & -> & Hok1 & Ho1 & Hd1 & Hl1 & _).
  cbn [mbind outcome_bind]. destruct res1 as [h1|e]; [|by eexists _, _; split; [done|]; split; [done|]; apply ImNotApplied].
  destruct retrieve_key as [key|e]; [|by eexists _, _; split; [done|]; split; [done|]; apply ImNotApplied].
  destruct (apply_state_update_world w1 s (update_state key sb) Hok1)
    as [(e & -> & _)|(st1 & st2 & w2 & res2 & _ & Hu & Hap & (Hok2 & Ho2 & Hv2) & _ & _ & Hcase)]; cbn [mbind outcome_bind].
  { eexists _, _. split; [done|]. split; [done|]. by apply ImNotApplied. }
  pose proof (applied_on_top w w1 w2 sb key st1 st2 Hl1 Hu Hv2) as Htop.
  rewrite Hap. cbn [mbind outcome_bind]. destruct Hcase as [->|[e ->]].
  - destruct (finish_import_spec w2 sb h1 Hok2) as (w3 & res3 & -> & [Hok3 Hv3 _ _ Ho3 Hr3]).
    eexists _, _. split; [done|]. split; [done|].
    assert (on_top w sb w3) as Htop3.
    { intros s'. rewrite <-Htop. unfold last_of. fold (view w3) (view w2). by rewrite Hv3. }
    rewrite Ho2, Ho1 in *. destruct (oc_store_sidechain_blocks (ocall w) [sb]) as [o [[]|e]] eqn:Ho; simpl in *; subst.
    + apply ImDone; [done|congruence|done].
    + apply ImNotStored; [done|congruence|done].
  - eexists _, _. split; [done|]. split; [done|]. apply ImNotWritten; [done|congruence|done].
Qed.

(** An accepted block whose update fits the state is applied, and the result is
    the one of its storage. *)
Lemma import_block_applies w sb h w1 h1 key st1 st2 :
  let s := shard_id (header (block sb)) in
  w_ok w → accepted w sb h → is_Some (view w !! s) →
  import_parentchain_block w (block sb) h = Ret (w1, Ok h1) → retrieve_key = Ok key →
  view w1 !! s = Some st1 → update_state key sb st1 = Ok st2 →
  hs_writable (snapshot_clock (ticks w1)) (states (env w1)) s →
  ∃ w' res w2, import_block shard_status retrieve_key snapshot_clock ban_clock w sb h = Ret (w', res) ∧
    finished w2 sb h1 w' res ∧ applied w1 s st2 w2 ∧ top_pool (env w2) = top_pool (env w1) ∧ ocall w1 = ocall w.
Proof.
  intros s Hok Hac [st Hs] Himp Hkey Hs1 Hu Hwr. unfold import_block. cbv zeta. fold (reference_header w sb h).
  rewrite verify_import_spec by done. fold s. rewrite Hs.
  apply (accepted_iff w sb h st Hs) in Hac. fold s in Hac. rewrite Hac. cbn [mbind outcome_bind].
  destruct (import_parentchain_spec w (block sb) h Hok) as (w1' & res1 & Hi & Hok1 & Ho1 & _ & _).
  rewrite Himp in Hi |- *. simplify_eq. cbn [mbind outcome_bind].
  destruct (apply_state_update_world w1' s (update_state key sb) Hok1)
    as [(e & _ & He)|(st1' & st2' & w2 & res2 & Hs1' & Hu' & -> & Hap & Htp & Hres & _)].
  { rewrite Hs1 in He. congruence. }
  rewrite (Hres Hwr). cbn [mbind outcome_bind]. simplify_eq.
  destruct (finish_import_spec w2 sb h1 (proj1 Hap)) as (w3 & res3 & -> & Hf). 
  exists w3, res3, w2. assert (st2' = st2) as -> by congruence. done.
Qed.

(** *** Histories *)

(** The blocks follow one another. *)
Fixpoint linked (last : option Block) (bs : list Block) : Prop :=
  match bs with
  | [] => True
  | b :: bs => VerifyInv.succeeds last b ∧ linked (Some b) bs
  end.

Fixpoint run_imports w (inputs : list (SignedBlock * PH)) : outcome (World' * list (result PH ConsensusError)) :=
  match inputs with
  | [] => Ret (w, [])
  | (sb, h) :: inputs =>
      import_block shard_status retrieve_key snapshot_clock ban_clock w sb h ≫= λ '(w, res),
      run_imports w inputs ≫= λ '(w, results), Ret (w, res :: results)
  end.

(** A block with a valid signature of the validateer whose turn it is in the
    slot of the block, by the parentchain block it refers to. *)
Definition authored sb : Prop :=
  verify_signature sb = true ∧ ∃ h l, pc_hash h = layer_one_head (block_data (block sb)) ∧
    Validateers.current_validateers shard_status h (shard_id (header (block sb))) = Ok l ∧
    VerifyInv.round_robin (VerifyInv.block_slot SLOT_DURATION (block sb)) l = Some (block_author (block_data (block sb))).

Lemma accepted_authored w sb h : accepted w sb h → authored sb.
Proof. intros [Hsig _ Hpc (l & Hl & Hrr)]. split; [done|]. by exists (reference_header w sb h), l. Qed.

Lemma import_outcome_cases w sb h w' res :
  import_outcome w sb h w' res →
  (∃ e, res = Err e) ∧ (∀ s, last_of (env w') s = last_of (env w) s) ∨ accepted w sb h ∧ on_top w sb w'.
Proof. intros [e ->|e|e|e|h']; naive_solver. Qed.

Lemma run_imports_chain w inputs :
  w_ok w →
  ∃ w' results, run_imports w inputs = Ret (w', results) ∧ w_ok w' ∧ ∀ s, ∃ bs,
    sublist bs (filter (λ sb, shard_id (header (block sb)) = s) inputs.*1) ∧ Forall authored bs ∧
    linked (last_of (env w) s) (block <$> bs) ∧
    last_of (env w') s = match last bs with Some sb => Some (block sb) | None => last_of (env w) s end ∧
    (∀ i sb h hd, inputs !! i = Some (sb, h) → results !! i = Some (Ok hd) → shard_id (header (block sb)) = s → sb ∈ bs).
Proof.
  revert w. induction inputs as [|[sb h] inputs IH]; intros w Hok.
  { exists w, []. split; [done|]. split; [done|]. intros s. exists []. by split_and!. }
  destruct (import_block_cases w sb h Hok) as (w1 & res & Hi & Hok1 & Hcases).
  destruct (IH w1 Hok1) as (w2 & results & Hrun & Hok2 & Hall).
  exists w2, (res :: results). cbn [run_imports]. rewrite Hi. cbn [mbind outcome_bind]. rewrite Hrun.
  split; [done|]. split; [done|]. intros s. destruct (Hall s) as (bs & Hsub & Hau & Hlink & Hlast & Hin).
  rewrite fmap_cons, filter_cons. cbn [fst].
  apply import_outcome_cases in Hcases as [((e & ->) & Hsame)|(Hac & Hnew)];
    [|specialize (Hnew s); destruct (decide (shard_id (header (block sb)) = s)) as [Hs|Hs]].
  - exists bs. rewrite <-Hsame. split_and!; [|done..|].
    + case_decide; [by apply sublist_cons|done].
    + intros [|i] sb' h' hd; [done|]. apply Hin.
  - exists (sb :: bs). rewrite Hnew, decide_True in Hlink, Hlast by done. pose proof (ac_succeeds _ _ _ Hac) as Hsucc.
    rewrite Hs in Hsucc. split_and!.
    + by apply sublist_skip.
    + constructor; [by eapply accepted_authored|done].
    + done.
    + rewrite Hlast, last_cons. by destruct (last bs).
    + intros [|i] sb' h' hd; simpl; [intros [= <- <-] _ _; by left|]. intros. right. by eapply Hin.
  - exists bs. rewrite Hnew, decide_False in Hlink, Hlast by done. split_and!; [done..|].
    intros [|i] sb' h' hd; simpl; [intros [= <- <-] _ ?; done|]. apply Hin.
Qed.
End inv.
End ImportInv.

(** The importer of parentchain blocks keeps its promises to the import of
    sidechain blocks: it returns, and it leaves the shards, their last blocks and
    their block numbers alone. *)

Import Ext(SgxExternalities).
Import Sc.
Open Scope worker_scope.

(** The STF leaves the block number and the last block of the sidechain alone. *)
Class StfSystem (TCS Mr PH : Type) `{Stf TCS Mr PH} `{Twox} : Prop := {
  execute_keeps : ∀ st c a, a ∈ ["Number"; "LastBlock"]%string →
    Ext.get (stf_execute_call st c).1 (storage_value_key "System" a) = Ext.get st (storage_value_key "System" a);
  update_block_keeps : ∀ st h a, a ∈ ["Number"; "LastBlock"]%string →
    Ext.get (stf_update_parentchain_integritee_block st h).1 (storage_value_key "System" a) = Ext.get st (storage_value_key "System" a);
}.

(** The executor of indirect calls leaves the top pool in order. *)
Class SafeIndirectCalls (P PB TCS G : Type) `{IndirectCallsExecutor P PB} `{TopPool P TCS G}
    (top_hash : StfTrustedOperation TCS G → TxHash) `{!TopPoolLaws P TCS G top_hash} : Prop :=
  indirect_calls_safe : ∀ p (b : PB) events, tp_ok p →
    ∃ p' res, execute_indirect_calls_in_extrinsics p b events = Ret (p', res) ∧ tp_ok p'.

Module PcImportInv.
Import PcImport ImportInv.

Section inv.
Context `{Encode SgxExternalitiesType} `{Blake2} `{EncodeAppend} `{Twox} `{Decode Block}.
Context {TCS G Mr PH PB V X Xt W P : Type} `{!Stf TCS Mr PH} `{!StfSystem TCS Mr PH}.
Context `{HandleState W} {initialize : result SgxExternalities StateHandlerError} `{!HandleStateLaws W initialize}.
Context {top_hash : StfTrustedOperation TCS G → TxHash} `{TopPool P TCS G} `{!TopPoolLaws P TCS G top_hash}.
Context `{ParentchainHeader PH} `{ParentchainBlock PB PH} `{LightClient V PB Xt} `{ExtrinsicsFactory X Xt}.
Context `{IndirectCallsExecutor P PB} `{!SafeIndirectCalls P PB TCS G top_hash}.
Context (get_multiple_storages_verified :
  list Bytes → PH → ParentchainId → result (list (Bytes * option Bytes)) string).
Context (snapshot_now : PB → ShardIdentifier → StateId).
Context `{Decode (list ShardIdentifier)} (id : ParentchainId) (shard_creation_info : ShardCreationInfo).

(** Nothing is stored under the empty key, which stands for the list of shards. *)
Hypothesis no_shards_entry : ∀ hashes h i l v, get_multiple_storages_verified hashes h i = Ok l → (Executor.shards_key_hash, Some v) ∉ l.

Abbreviation Env' := (Env V X W P).
Implicit Types (w : W) (e : Env').

Definition last_in w s : option Block := hs_view w !! s ≫= λ st, ScState.get_last_block st.

Definition number_in w s : option Bytes := hs_view w !! s ≫= λ st, Ext.get st (storage_value_key "System" "Number").

Record same_chain w w' : Prop := {
  same_dom : dom (hs_view w') = dom (hs_view w);
  same_last : ∀ s, last_in w' s = last_in w s;
  same_number : ∀ s, number_in w' s = number_in w s;
}.

#[local] Instance same_chain_refl : Reflexive same_chain.
Proof. done. Qed.
#[local] Instance same_chain_trans : Transitive same_chain.
Proof.
  intros w1 w2 w3 [D1 L1 N1] [D2 L2 N2]. split; [congruence| |]; intros s; by rewrite ?L2, ?N2.
Qed.

Lemma get_last_block_get (st st' : SgxExternalities) :
  Ext.get st' (storage_value_key "System" "LastBlock") = Ext.get st (storage_value_key "System" "LastBlock") →
  ScState.get_last_block (SidechainBlock := Block) st' = ScState.get_last_block st.
Proof. unfold ScState.get_last_block, ScState.get_with_name. by intros ->. Qed.

(** A write that keeps the entries of the sidechain in its shard. *)
Lemma write_same_chain w w' s (st st' : SgxExternalities) :
  hs_view w !! s = Some st → hs_view w' = <[s := Ext.prune_state_diff st']> (hs_view w) →
  (∀ a, a ∈ ["Number"; "LastBlock"]%string →
    Ext.get st' (storage_value_key "System" a) = Ext.get st (storage_value_key "System" a)) →
  same_chain w w'.
Proof.
  intros Hs Hv Hg. split; unfold last_in, number_in; rewrite Hv.
  - rewrite dom_insert_L. apply elem_of_dom_2 in Hs. set_solver.
  - intros s'. rewrite lookup_insert. case_decide as Heq; [|done]. subst. rewrite Hs. simpl.
    apply get_last_block_get, Hg. set_solver.
  - intros s'. rewrite lookup_insert. case_decide as Heq; [|done]. subst. rewrite Hs. simpl. apply Hg. set_solver.
Qed.

Lemma update_block_of_shards_spec snap w h shards :
  hs_ok w →
  ∃ w' res, Executor.update_block_of_shards (TCS := TCS) (Mr := Mr) snap w h shards = Ret (w', res) ∧ hs_ok w' ∧ same_chain w w'.
Proof.
  revert w. induction shards as [|s shards IH]; intros w Hok; simpl.
  { eexists _, _. split; [done|]. by split_and!. }
  rewrite (load_for_mutation_ok _ _ Hok). destruct (hs_view w !! s) as [st|] eqn:Hs; simpl.
  2: { eexists _, _. split; [done|]. by split_and!. }
  destruct (stf_update_parentchain_integritee_block st h) as [st' [[]|e]] eqn:Hu; [|by apply IH].
  destruct (write_ok (snap s) w st' s Hok) as (w1 & res & -> & Hok1 & Hv1 & _). simpl.
  assert (same_chain w w1) as Hsame.
  { apply (write_same_chain w w1 s st st' Hs Hv1).
    intros a Ha. pose proof (update_block_keeps st h a Ha) as Hk. by rewrite Hu in Hk. }
  destruct res as [x|e]; [|by eexists _, _].
  destruct (IH w1 Hok1) as (w2 & res & -> & Hok2 & Hs2). eexists _, _. split; [done|]. split; [done|]. by etrans.
Qed.

Lemma into_map_elem l k v : Executor.into_map l !! k = Some v → (k, v) ∈ l.
Proof.
  unfold Executor.into_map. induction l as [|x l IH] using rev_ind; [done|].
  rewrite foldl_app. simpl. rewrite lookup_insert. case_decide as Hk.
  - intros [= <-]. subst k. apply elem_of_app. right. destruct x. by apply list_elem_of_singleton.
  - intros Hl. apply elem_of_app. left. by apply IH.
Qed.

Lemma update_states_spec e b :
  env_ok e →
  ∃ e' res, update_states (TCS := TCS) (Mr := Mr) get_multiple_storages_verified snapshot_now id e b = Ret (e', res) ∧
    env_ok e' ∧ same_chain (states e) (states e') ∧ top_pool e' = top_pool e.
Proof.
  intros [Hhs Htp]. unfold update_states, Executor.update_states.
  destruct (get_multiple_storages_verified _ _ _) as [entries|err] eqn:Hg.
  2: { eexists _, _. split; [done|]. by split_and!. }
  destruct (handler_shards_ok _ Hhs) as (shards & -> & _).
  destruct (update_block_of_shards_spec (snapshot_now b) (states e) (pb_header b) shards Hhs) as (w' & res & -> & Hok' & Hs').
  simpl. destruct res as [[]|err]; simpl; [|eexists _, _; split; [done|]; by split_and!].
  case_decide; simpl; [|eexists _, _; split; [done|]; by split_and!].
  destruct (Executor.into_map entries !! Executor.shards_key_hash) as [[v|]|] eqn:He;
    [|eexists _, _; split; [done|]; by split_and!..].
  by destruct (no_shards_entry _ _ _ _ v Hg (into_map_elem _ _ _ He)).
Qed.

Lemma import_one_spec e b events :
  env_ok e →
  ∃ e' res, import_one (TCS := TCS) (Mr := Mr) get_multiple_storages_verified snapshot_now id shard_creation_info e b events =
      Ret (e', res) ∧ env_ok e' ∧ same_chain (states e) (states e').
Proof.
  intros [Hhs Htp]. unfold import_one. destruct (lc_submit_block (validator e) b) as [v [[]|err]].
  2: { eexists _, _. split; [done|]. by split_and!. }
  destruct (match for_parentchain _ _ with Some _ => _ | None => _ end).
  { eexists _, _. split; [done|]. by split_and!. }
  destruct (update_states_spec (MkEnv v (factory e) (states e) (top_pool e)) b) as (e' & res & -> & [Hhs' Htp'] & Hs & Hp).
  { done. }
  simpl in *. destruct res as [[]|err]; [|by eexists _, _].
  destruct (indirect_calls_safe (top_pool e') b events Htp') as (p & r & -> & Hp'). simpl.
  eexists _, _. split; [done|]. by split_and!.
Qed.

Lemma import_each_spec e calls l :
  env_ok e →
  ∃ e' res, import_each (TCS := TCS) (Mr := Mr) get_multiple_storages_verified snapshot_now id shard_creation_info e calls l =
      Ret (e', res) ∧ env_ok e' ∧ same_chain (states e) (states e').
Proof.
  revert e calls. induction l as [|[b events] l IH]; intros e calls Hok; cbn [import_each].
  { eexists _, _. split; [done|]. by split_and!. }
  destruct (import_one_spec e b events Hok) as (e1 & res & -> & Hok1 & Hs1). cbn [mbind outcome_bind].
  destruct res as [[call|]|err]; [| |by eexists _, _];
    [destruct (IH e1 (calls ++ [call]) Hok1) as (e2 & res & -> & Hok2 & Hs2)
    |destruct (IH e1 calls Hok1) as (e2 & res & -> & Hok2 & Hs2)];
    (eexists _, _; split; [done|]; split; [done|]; by etrans).
Qed.

(** The importer is safe. *)
Lemma parentchain_importer_safe :
  SafeImporter (PB := PB) (V := V) (X := X) (P := P)
    (H := parentchain_importer (TCS := TCS) (Mr := Mr) (Xt := Xt) get_multiple_storages_verified snapshot_now id shard_creation_info)
    initialize top_hash.
Proof.
  split. intros e blocks events Hok. unfold Dispatcher.import_parentchain_blocks, parentchain_importer, import_parentchain_blocks.
  set (l := zip _ _). destruct (import_each_spec e [] l Hok) as (e1 & res & -> & [Hhs1 Htp1] & [Hd Hl Hn]).
  cbn [mbind outcome_bind].
  destruct res as [calls|err]; [|by eexists _, _].
  destruct (create_extrinsics (factory e1) calls) as [x [xts|err]]; [|eexists _, _; split; [done|]; by split_and!].
  destruct (lc_send_extrinsics (validator e1) xts) as [v [[]|err]]; (eexists _, _; split; [done|]; by split_and!).
Qed.
End inv.
End PcImportInv.
