(* ===== verification/ProposalInv.v ===== *)
(** What a batch of calls does to the state, and what a proposed block holds. *)

From stdpp Require Import base gmap fin_maps numbers strings list.
From S2P Require Import Prelude Collections PoolTypes Externalities SidechainDb Durations StfTypes SidechainState SidechainBlocks.
From S2P Require Import StateFileIo StateHandler StfExecutor Author Consensus BlockComposer BlockImport BlockImportInv.

Import Ext(SgxExternalities).
Import Sc ScStateInv ExtInv.
Open Scope worker_scope.

Module BatchInv.
Import Executor.

Section batch.
Context `{Encode SgxExternalitiesType} `{Blake2} `{EncodeAppend} `{Twox}.
Context {TCS G Mr PH W : Type} `{!Stf TCS Mr PH} `{!StfLaws TCS Mr PH} `{!StfSystem TCS Mr PH} `{HandleState W}.
Context (top_hash : StfTrustedOperation TCS G → TxHash).
Implicit Types (st : SgxExternalities) (s : ShardIdentifier) (c : StfTrustedOperation TCS G).

(** What the execution of one operation leaves and reports: a getter, a call
    with a bad signature and a call that the STF refuses are failures; what a
    refused call wrote stays. *)
Definition run_call (mr : Mr) s st c : SgxExternalities * ExecutedOperation TCS G :=
  match to_call c with
  | None => (st, failed (from_top c))
  | Some call =>
      if tcs_verify_signature (PH := PH) call mr s then
        match stf_execute_call (PH := PH) (Mr := Mr) st call with
        | (st', Ok callbacks) => (st', success (top_hash c) (from_top c) callbacks)
        | (st', Err _) => (st', failed (from_top c))
        end
      else (st, failed (from_top c))
  end.

Lemma execute_on_stf mr st c s :
  execute_trusted_call_on_stf (PH := PH) top_hash (Ok mr) st c s PostNone = ((run_call mr s st c).1, Ok (run_call mr s st c).2).
Proof.
  unfold execute_trusted_call_on_stf, run_call. destruct (to_call c); [|done]. case_match; [|done].
  by destruct (stf_execute_call st _) as [st' [cb|e]].
Qed.

Lemma run_call_reaches mr s st c : reaches st (run_call mr s st c).1.
Proof.
  unfold run_call. destruct (to_call c) as [call|]; [|apply reaches_refl]. case_match; [|apply reaches_refl].
  pose proof (execute_reaches (TCS := TCS) (Mr := Mr) (PH := PH) st call) as Hr.
  by destruct (stf_execute_call st call) as [st' [cb|e]].
Qed.

Lemma run_call_keeps mr s st c a :
  a ∈ ["Number"; "LastBlock"]%string →
  Ext.get (run_call mr s st c).1 (storage_value_key "System" a) = Ext.get st (storage_value_key "System" a).
Proof.
  intros Ha. unfold run_call. destruct (to_call c) as [call|]; [|done]. case_match; [|done].
  pose proof (execute_keeps (TCS := TCS) (Mr := Mr) (PH := PH) st call a Ha) as Hk.
  by destruct (stf_execute_call st call) as [st' [cb|e]].
Qed.

Lemma run_call_top mr s st c : trusted_operation_or_hash (run_call mr s st c).2 = from_top c.
Proof.
  unfold run_call. destruct (to_call c) as [call|]; [|done]. case_match; [|done].
  by destruct (stf_execute_call st call) as [st' [cb|e]].
Qed.

Lemma run_call_status mr s st c :
  status_operation_hash (status (run_call mr s st c).2) = if is_success (run_call mr s st c).2 then Some (top_hash c) else None.
Proof.
  unfold run_call. destruct (to_call c) as [call|]; [|done]. case_match; [|done].
  by destruct (stf_execute_call st call) as [st' [cb|e]].
Qed.

(** A batch, one operation after the other, each with the enclave it is verified for. *)
Fixpoint run_calls s st (cs : list (Mr * StfTrustedOperation TCS G)) :
    SgxExternalities * list (ExecutedOperation TCS G) :=
  match cs with
  | [] => (st, [])
  | (mr, c) :: cs =>
      let '(st', e) := run_call mr s st c in
      let '(st'', es) := run_calls s st' cs in (st'', e :: es)
  end.

Context (duration_now : nat → Duration) (get_mrenclave_of_self : nat → result Mr Z).

(** The calls that are attempted: those the time suffices for, but for the ones
    at which the enclave could not be identified. *)
Fixpoint attempted (i : nat) (ends_at : Duration) (cs : list (StfTrustedOperation TCS G)) :
    list (Mr * StfTrustedOperation TCS G) :=
  match cs with
  | [] => []
  | c :: cs =>
      if Z.ltb ends_at (duration_now i) then []
      else match get_mrenclave_of_self i with
           | Ok mr => (mr, c) :: attempted (S i) ends_at cs
           | Err _ => attempted (S i) ends_at cs
           end
  end.

Lemma execute_calls_spec i ends_at st s acc cs :
  execute_calls (PH := PH) top_hash duration_now get_mrenclave_of_self i ends_at st s acc cs =
  ((run_calls s st (attempted i ends_at cs)).1, acc ++ (run_calls s st (attempted i ends_at cs)).2).
Proof.
  revert i st acc. induction cs as [|c cs IH]; intros i st acc; cbn [execute_calls attempted]; [by rewrite app_nil_r|].
  case_match; [by rewrite app_nil_r|]. destruct (get_mrenclave_of_self i) as [mr|e]; [|apply IH].
  rewrite execute_on_stf. cbn [run_calls]. rewrite IH. destruct (run_call mr s st c) as [st' e]. simpl.
  destruct (run_calls s st' (attempted (S i) ends_at cs)) as [st'' es]. simpl. by rewrite <-app_assoc.
Qed.

Lemma run_calls_reaches s st cs : reaches st (run_calls s st cs).1.
Proof.
  revert st. induction cs as [|[mr c] cs IH]; intros st; cbn [run_calls]; [apply reaches_refl|].
  pose proof (run_call_reaches mr s st c) as Hc. destruct (run_call mr s st c) as [st' e].
  specialize (IH st'). destruct (run_calls s st' cs). by eapply reaches_trans.
Qed.

Lemma run_calls_keeps s st cs a :
  a ∈ ["Number"; "LastBlock"]%string →
  Ext.get (run_calls s st cs).1 (storage_value_key "System" a) = Ext.get st (storage_value_key "System" a).
Proof.
  intros Ha. revert st. induction cs as [|[mr c] cs IH]; intros st; cbn [run_calls]; [done|].
  pose proof (run_call_keeps mr s st c a Ha) as Hc. destruct (run_call mr s st c) as [st' e].
  specialize (IH st'). destruct (run_calls s st' cs). simpl in *. congruence.
Qed.

(** The operations are reported in order. *)
Lemma run_calls_tops s st cs : trusted_operation_or_hash <$> (run_calls s st cs).2 = from_top <$> cs.*2.
Proof.
  revert st. induction cs as [|[mr c] cs IH]; intros st; cbn [run_calls]; [done|].
  pose proof (run_call_top mr s st c) as Hc. destruct (run_call mr s st c) as [st' e].
  specialize (IH st'). destruct (run_calls s st' cs). cbn [fst snd] in *. by rewrite !fmap_cons, Hc, IH.
Qed.

Lemma attempted_sublist i ends_at cs : (attempted i ends_at cs).*2 `sublist_of` cs.
Proof.
  revert i. induction cs as [|c cs IH]; intros i; cbn [attempted]; [done|]. case_match; [apply sublist_nil_l|].
  case_match; [by apply sublist_skip|by apply sublist_cons].
Qed.

Lemma attempted_all (i : nat) ends_at cs :
  (∀ j : nat, (i ≤ j < i + length cs)%nat → (duration_now j ≤ ends_at)%Z ∧ ∃ mr, get_mrenclave_of_self j = Ok mr) →
  (attempted i ends_at cs).*2 = cs.
Proof.
  revert i. induction cs as [|c cs IH]; intros i Ht; cbn [attempted]; [done|].
  destruct (Ht i ltac:(simpl; lia)) as [Hle [mr ->]]. destruct (Z.ltb_spec ends_at (duration_now i)) as [Hlt|_]; [lia|].
  simpl. f_equal. apply IH. intros j Hj. apply Ht. simpl. lia.
Qed.

(** A proposal: the state it starts from, and the attempted calls on the prepared state. *)
Lemma propose_state_update_spec {initialize : result SgxExternalities StateHandlerError} `{!HandleStateLaws W initialize}
    (w : W) cs s max_duration prepare :
  hs_ok w → (duration_now 0 + max_duration ≤ duration_max)%Z →
  propose_state_update (PH := PH) top_hash duration_now get_mrenclave_of_self w cs s max_duration prepare =
  Ret match hs_view w !! s with
      | None => Err (ExStateHandler (InvalidShard s))
      | Some st =>
          let r := run_calls s (prepare st) (attempted 1 (duration_now 0 + max_duration) cs) in
          Ok (MkBatch (Ext.hash st) r.2 r.1)
      end.
Proof.
  intros Hok Hd. unfold propose_state_update, duration_add.
  destruct (Z.leb_spec (duration_now 0 + max_duration) duration_max); [|lia]. cbn [mbind outcome_bind].
  rewrite (load_cloned_ok _ _ Hok). destruct (hs_view w !! s) as [st|]; [|done].
  by rewrite execute_calls_spec.
Qed.
End batch.
End BatchInv.

Module ProposeInv.
Import Executor Composer BatchInv.

(** The number a block on top of [last] has. *)
Definition number_of (last : option Block) : Z := match last with Some b => block_number (header b) | None => 0%Z end.

Section prepare.
Context `{Encode SgxExternalitiesType} `{Blake2} `{EncodeAppend} `{Twox} `{!TwoxLaws}.
Context `{Encode Z, Decode Z} `{!Codec Z} `{Decode Block}.
Implicit Types (st : SgxExternalities).

(** The block number in the state is the one of the last block. *)
Definition number_ok st : Prop :=
  default 0%Z (ScState.get_block_number st) = number_of (ScState.get_last_block st).

Lemma prepare_reaches now st : reaches st (prepare_state now st).
Proof.
  unfold prepare_state. eapply reaches_trans; [apply reaches_reset_events|].
  eapply reaches_trans; [|apply reaches_set_with_name]. apply reaches_set_with_name.
Qed.

Lemma prepare_last now st : ScState.get_last_block (SidechainBlock := Block) (prepare_state now st) = ScState.get_last_block st.
Proof.
  unfold prepare_state, ScState.get_last_block, ScState.set_timestamp, ScState.set_block_number.
  rewrite !get_set_with_name_ne by (done || set_solver). apply get_reset_events. set_solver.
Qed.

Lemma prepare_number now st :
  number_ok st → (0 ≤ number_of (ScState.get_last_block st) < u64_max)%Z →
  ScState.get_block_number (prepare_state now st) = Some (number_of (ScState.get_last_block st) + 1)%Z.
Proof.
  unfold number_ok. intros Hn Hb. unfold prepare_state, ScState.get_block_number, ScState.set_timestamp, ScState.set_block_number in *.
  rewrite get_set_with_name_ne by (done || set_solver). rewrite get_set_with_name. f_equal.
  unfold ScState.get_block_number. rewrite get_reset_events by set_solver.
  destruct (ScState.get_with_name st "System" "Number") as [n|]; simpl in Hn; [|lia]. rewrite Hn.
  apply u64_wrap_small. unfold is_u64. lia.
Qed.
End prepare.

Section propose.
Context `{Encode SgxExternalitiesType} `{Blake2} `{EncodeAppend} `{Twox} `{!TwoxLaws}.
Context `{Encode Z, Decode Z} `{!Codec Z} `{Encode N, Decode N}.
Context `{Encode SidechainHeader} `{Encode BlockData} `{Encode Block, Decode Block}.
Context `{Encode StateUpdate, Decode StateUpdate} `{!Codec StateUpdate}.
Context {TCS G Mr PH W P Pair Key : Type} `{!Stf TCS Mr PH} `{!StfLaws TCS Mr PH} `{!StfSystem TCS Mr PH}.
Context `{SignatureScheme Pair} `{!SignatureLaws Pair} `{StateCrypto Key} `{!StateCryptoLaws Key} `{ParentchainHeader PH}.
Context `{HandleState W} {initialize : result SgxExternalities StateHandlerError} `{!HandleStateLaws W initialize}.
Context {top_hash : StfTrustedOperation TCS G → TxHash} `{TopPool P TCS G} `{!TopPoolLaws P TCS G top_hash}.
Context (signer : Pair) (key : Key).
Implicit Types (st : SgxExternalities) (s : ShardIdentifier).

(** A block of the signer with the next number, whose payload leads from one
    state to another. *)
Record composed (now : Duration) (ph : PH) (hashes : list TxHash) s (before : SgxExternalities) (after : SgxExternalities)
    (sb : SignedBlock) : Prop := {
  co_signature : verify_signature sb = true;
  co_succeeds : VerifyInv.succeeds (ScState.get_last_block before) (block sb);
  co_shard : shard_id (header (block sb)) = s;
  co_data_hash : block_data_hash (header (block sb)) = data_hash (block_data (block sb));
  co_time : timestamp (block_data (block sb)) = millis_u64 now;
  co_head : layer_one_head (block_data (block sb)) = pc_hash ph;
  co_author : block_author (block_data (block sb)) = public signer;
  co_hashes : signed_top_hashes (block_data (block sb)) = hashes;
  co_payload : decrypt key (encrypted_state_diff (block_data (block sb))) =
    Ok (encode (MkStateUpdate (Ext.hash before) (Ext.hash after) (Ext.state_diff after)));
}.

Lemma compose_block_spec now ph hashes s before after :
  ScState.get_last_block (SidechainBlock := Block) after = ScState.get_last_block before →
  ScState.get_block_number after = Some (number_of (ScState.get_last_block before) + 1)%Z →
  (0 ≤ number_of (ScState.get_last_block before) < u64_max)%Z →
  ∃ sb, compose_block signer (Ok key) now ph hashes s (Ext.hash before) after = Ok sb ∧
    composed now ph hashes s before after sb.
Proof.
  intros Hlast Hnum Hb. unfold compose_block. rewrite Hlast, Hnum. cbn [default from_option].
  destruct (encrypt_total key (encode (MkStateUpdate (Ext.hash before) (Ext.hash after) (Ext.state_diff after)))) as [c Hc].
  assert (u64_wrap (number_of (ScState.get_last_block before) + 1) = (number_of (ScState.get_last_block before) + 1)%Z) as Hw.
  { apply u64_wrap_small. unfold is_u64. lia. }
  pose proof (decrypt_encrypt _ _ _ Hc) as Hdec.
  destruct (ScState.get_last_block before) as [b|] eqn:Hl; unfold number_of in *.
  - rewrite decide_True by done. rewrite Hc. eexists. split; [done|]. split; simpl; try done.
    + by apply verify_sign_block.
    + rewrite Hl. simpl. rewrite Hw. split_and!; [done|lia|done].
  - rewrite decide_True by done. rewrite Hc. eexists. split; [done|]. split; simpl; try done.
    + by apply verify_sign_block.
    + by rewrite Hl.
Qed.

Context (duration_now : nat → Duration) (get_mrenclave_of_self : nat → result Mr Z).

(** The batch of a proposal: the calls in the queue that are attempted, on the prepared state. *)
Definition batch_of (now_state : Duration) (p : P) s (max_duration : Duration) st :
    SgxExternalities * list (ExecutedOperation TCS G) :=
  run_calls (PH := PH) top_hash s (prepare_state now_state st)
    (attempted duration_now get_mrenclave_of_self 1 (duration_now 0 + max_duration)
       (List.filter Author.calls_only_filter (tp_queue p s))).

Definition executed_hashes (es : list (ExecutedOperation TCS G)) : list TxHash :=
  omap (λ e, status_operation_hash (status e)) es.

Definition failed_hashes (es : list (ExecutedOperation TCS G)) : list TxHash :=
  omap (λ e, if is_success e then None else removal_hash top_hash (trusted_operation_or_hash e)) es.

Lemma batch_tracks now_state p s max_duration st :
  Ext.state_diff st = ∅ → tracks (Ext.state st) (batch_of now_state p s max_duration st).1.
Proof.
  intros Hd. eapply tracks_reaches; [by apply tracks_refl|].
  eapply reaches_trans; [apply prepare_reaches|]. apply run_calls_reaches.
Qed.

Lemma batch_last now_state p s max_duration st :
  ScState.get_last_block (SidechainBlock := Block) (batch_of now_state p s max_duration st).1 = ScState.get_last_block st.
Proof.
  rewrite <-(prepare_last now_state st). apply PcImportInv.get_last_block_get. apply run_calls_keeps. set_solver.
Qed.

Lemma batch_number now_state p s max_duration st :
  number_ok st → (0 ≤ number_of (ScState.get_last_block st) < u64_max)%Z →
  ScState.get_block_number (batch_of now_state p s max_duration st).1 = Some (number_of (ScState.get_last_block st) + 1)%Z.
Proof.
  intros Hn Hb. rewrite <-(prepare_number now_state st Hn Hb). unfold ScState.get_block_number, ScState.get_with_name.
  unfold batch_of. by rewrite run_calls_keeps by set_solver.
Qed.

(** The operations of a batch are operations, not hashes. *)
Lemma failed_removals (es : list (ExecutedOperation TCS G)) (cs : list (StfTrustedOperation TCS G)) :
  trusted_operation_or_hash <$> es = from_top <$> cs →
  (removal_hash top_hash ∘ fst) <$>
    ((λ e, (trusted_operation_or_hash e, is_success e)) <$> filter (λ e, is_success e = false) es) =
  Some <$> failed_hashes es.
Proof.
  revert cs. induction es as [|e es IH]; intros [|c cs] Heq; try done. rewrite !fmap_cons in Heq.
  apply (f_equal tail) in Heq as Htl. apply (f_equal head) in Heq as [= He]. simpl in Htl.
  unfold failed_hashes in *. rewrite filter_cons. cbn [omap list_omap]. specialize (IH cs Htl).
  destruct (is_success e) eqn:Hsucc; simpl.
  - exact IH.
  - rewrite He. simpl. f_equal. exact IH.
Qed.

(** A proposal takes the failed operations out of the pool and composes a block. *)
Lemma propose_on now_state now_block now_ban (w : W) (p : P) (ph : PH) s max_duration st :
  hs_ok w → tp_ok p → hs_view w !! s = Some st → (duration_now 0 + max_duration ≤ duration_max)%Z →
  let r := batch_of now_state p s max_duration st in
  ∃ p', propose signer (Ok key) top_hash duration_now get_mrenclave_of_self now_state now_block now_ban w p ph s max_duration =
      Ret (p', match compose_block signer (Ok key) now_block ph (executed_hashes r.2) s (Ext.hash st) r.1 with
               | Ok sb => Ok (MkProposal sb (mjoin ((λ e, status_callbacks (status e)) <$> r.2)))
               | Err e => Err (CsOther (CauseText e))
               end) ∧ tp_ok p' ∧
    tp_queue p' s = filter (λ op, top_hash op ∉ failed_hashes r.2) (tp_queue p s) ∧
    (∀ s', s' ≠ s → tp_queue p' s' = tp_queue p s').
Proof.
  intros Hhs Htp Hs Hd. cbv zeta. unfold propose. rewrite (pending_calls_ok p s Htp). cbn [mbind outcome_bind].
  rewrite (propose_state_update_spec top_hash duration_now get_mrenclave_of_self (initialize := initialize)) by done. rewrite Hs. cbn [mbind outcome_bind].
  fold (batch_of now_state p s max_duration st). set (r := batch_of now_state p s max_duration st).
  unfold get_failed_operations. cbn [executed_operations].
  destruct (remove_calls_ok now_ban p s ((λ e, (trusted_operation_or_hash e, is_success e)) <$>
    filter (λ e, is_success e = false) r.2) (failed_hashes r.2) Htp) as (p' & failed & -> & Hp' & Hq & Hqo).
  { eapply failed_removals. apply run_calls_tops. }
  cbn [mbind outcome_bind]. exists p'. split; [|done]. unfold get_executed_operation_hashes, executed_hashes.
  cbn [executed_operations state_hash_before_execution state_after_execution]. by destruct (compose_block _ _ _ _ _ _ _ _).
Qed.

(** A proposal returns. *)
Lemma propose_returns now_state now_block now_ban (w : W) (p : P) (ph : PH) s max_duration :
  hs_ok w → tp_ok p → (duration_now 0 + max_duration ≤ duration_max)%Z →
  ∃ p' res, propose signer (Ok key) top_hash duration_now get_mrenclave_of_self now_state now_block now_ban w p ph s max_duration =
      Ret (p', res) ∧ tp_ok p'.
Proof.
  intros Hhs Htp Hd. destruct (hs_view w !! s) as [st|] eqn:Hs.
  - destruct (propose_on now_state now_block now_ban w p ph s max_duration st Hhs Htp Hs Hd) as (p' & -> & Hp' & _). eauto.
  - unfold propose. rewrite (pending_calls_ok p s Htp). cbn [mbind outcome_bind].
    rewrite (propose_state_update_spec top_hash duration_now get_mrenclave_of_self (initialize := initialize)) by done.
    rewrite Hs. cbn [mbind outcome_bind]. eauto.
Qed.

(** On a state whose number is the one of its last block, a proposal succeeds. *)
Lemma propose_spec now_state now_block now_ban (w : W) (p : P) (ph : PH) s max_duration st :
  hs_ok w → tp_ok p → hs_view w !! s = Some st → number_ok st →
  (0 ≤ number_of (ScState.get_last_block st) < u64_max)%Z → (duration_now 0 + max_duration ≤ duration_max)%Z →
  let r := batch_of now_state p s max_duration st in
  ∃ p' sb, propose signer (Ok key) top_hash duration_now get_mrenclave_of_self now_state now_block now_ban w p ph s max_duration =
      Ret (p', Ok (MkProposal sb (mjoin ((λ e, status_callbacks (status e)) <$> r.2)))) ∧
    composed now_block ph (executed_hashes r.2) s st r.1 sb ∧ tp_ok p' ∧
    tp_queue p' s = filter (λ op, top_hash op ∉ failed_hashes r.2) (tp_queue p s) ∧
    (∀ s', s' ≠ s → tp_queue p' s' = tp_queue p s').
Proof.
  intros Hhs Htp Hs Hn Hb Hd. cbv zeta.
  destruct (propose_on now_state now_block now_ban w p ph s max_duration st Hhs Htp Hs Hd) as (p' & -> & Hp').
  set (r := batch_of now_state p s max_duration st) in *.
  destruct (compose_block_spec now_block ph (executed_hashes r.2) s st r.1) as (sb & Hc & Hco).
  { apply batch_last. } { by apply batch_number. } { done. }
  rewrite Hc. by exists p', sb.
Qed.

(** *** The update of a state with a composed block *)

Lemma update_from_composed now ph hashes s before after sb st :
  composed now ph hashes s before after sb → tracks (Ext.state before) after → Ext.state st = Ext.state before →
  ScImport.update_state key sb st =
    Ok (ScState.set_last_block (Ext.new (Ext.state after)) (hash (block sb)) (block sb)).
Proof.
  intros Hco Ht Hst. unfold ScImport.update_state, ScImport.state_update_from_encrypted.
  rewrite (co_payload _ _ _ _ _ _ _ Hco), decode_encode.
  rewrite (hash_state before (Ext.new (Ext.state before)) eq_refl).
  by rewrite (apply_state_update_roundtrip (Ext.state before) st after Ht Hst).
Qed.
End propose.
End ProposeInv.
