(* ===== verification/ConsensusSample.v ===== *)
(** The author keeps the promises of the top pool to the sidechain: its queue per
    shard is what the proposer gets and what an import removes from. *)

From stdpp Require Import base countable gmap fin_maps sets numbers strings list.
From S2P Require Import Prelude Collections PoolTypes Listener ValidatedPool VPoolInv StfTypes Author FlatPool AuthorInv AuthorProps.
From S2P Require Import SidechainDb Externalities SidechainState SidechainBlocks Dispatcher StateFileIo.
From S2P Require Import SnapshotRepository StateHandler StfExecutor Consensus BlockComposer ParentchainImport BlockImport BlockImportInv.
From S2P Require Import Durations.

Import FlatVPool Author AuthorInv.

Section top_pool.
Context `{Ord : IterOrder} `{!SlotCodec} {TCS G Key Sink : Type}.
Context `{!TrustedCallVerification TCS} `{!PoolTransactionValidation G} `{!UniformValidation G}.
Context (env : Enclave Key (StfTrustedOperation TCS G)).
Abbreviation TOP := (StfTrustedOperation TCS G).
Implicit Types (a : AuthorState TOP Sink) (s : ShardIdentifier).

(** More iterations than there are operations. *)
Definition pending_fuel a s : nat := S (length (queue_at a s)).

Definition author_top_pool : TopPool (AuthorState TOP Sink) TCS G := {|
  tp_pending_calls a s := get_pending_trusted_calls (pending_fuel a s) a s;
  tp_remove_calls now a s calls := remove_calls_from_pool env now a s calls;
  tp_on_block_imported := on_block_imported;
|}.

Definition author_ok a : Prop := author_inv a ∧ all_made env a.
Definition author_queue a s : list TOP := data <$> queue_at a s.

Lemma remove_step_spec now a s call h rest :
  author_ok a → removal_hash (hash_of env) call.1 = Some h →
  ∃ a' rest', remove_step env now s (a, rest) call = Ret (a', rest') ∧ author_ok a' ∧
    author_queue a' s = filter (λ op, hash_of env op ≠ h) (author_queue a s) ∧
    (∀ s', s' ≠ s → author_queue a' s' = author_queue a s').
Proof.
  intros [Hi Hm] Hh. unfold remove_step. simpl.
  destruct (remove_top_spec env now a call.1 s call.2 h Hi) as (a' & Hr & Hi' & _ & _ & Hq & Ho & _).
  { by destruct call as [[h'|bytes|op] b]. }
  rewrite Hr. simpl. eexists a', _. split; [done|].
  assert (all_made env a') as Hm'.
  { intros s' o Ho'. destruct (decide (s' = s)) as [->|Hne]; [|rewrite Ho in Ho' by done; by apply (Hm s')].
    rewrite Hq in Ho'. apply list_elem_of_filter in Ho' as [_ ?]. by apply (Hm s). }
  split; [done|]. unfold author_queue. split; [|by intros s' Hne; rewrite Ho].
  rewrite Hq, filter_fmap_list. f_equal. apply filter_ext_in. intros o Hin.
  destruct (Hm s o Hin) as (vt & _ & Eo). by rewrite Eo.
Qed.

Lemma remove_steps_spec now a s calls hs rest :
  author_ok a → (removal_hash (hash_of env) ∘ fst) <$> calls = Some <$> hs →
  ∃ a' rest', for_each (remove_step env now s) (a, rest) calls = Ret (a', rest') ∧ author_ok a' ∧
    author_queue a' s = filter (λ op, hash_of env op ∉ hs) (author_queue a s) ∧
    (∀ s', s' ≠ s → author_queue a' s' = author_queue a s').
Proof.
  revert a hs rest. induction calls as [|call calls IH]; intros a [|h hs] rest Hok Heq; try done.
  - exists a, rest. split; [done|]. split; [done|]. split; [|done]. rewrite filter_all; [done|].
    intros ??. apply not_elem_of_nil.
  - rewrite !fmap_cons in Heq. injection Heq as Hh Heq. cbn [for_each].
    destruct (remove_step_spec now a s call h rest Hok Hh) as (a1 & r1 & -> & Hok1 & Hq1 & Ho1). cbn [mbind outcome_bind].
    destruct (IH a1 hs r1 Hok1 Heq) as (a2 & r2 & -> & Hok2 & Hq2 & Ho2). exists a2, r2. split; [done|]. split; [done|]. split.
    + rewrite Hq2, Hq1, list_filter_filter. apply list_filter_iff. intros op. rewrite elem_of_cons. tauto.
    + intros s' Hne. by rewrite Ho2, Ho1.
Qed.

Lemma foldl_in_block_inv (l : Listen.Listener) hs b :
  Listen.listener_inv l → Listen.listener_inv (foldl (λ l h, Listen.in_block l h b) l hs).
Proof.
  revert l. induction hs as [|h hs IH]; intros l Hl; simpl; [done|]. apply IH, Listen.fire_inv; [done|].
  apply Listen.proper_in_block.
Qed.

#[local] Existing Instance author_top_pool.

Program Definition author_top_pool_laws : TopPoolLaws (AuthorState TOP Sink) TCS G (hash_of env) := {|
  tp_ok := author_ok;
  tp_queue := author_queue;
|}.
Next Obligation.
  intros a s [Hi _]. simpl. unfold get_pending_trusted_calls.
  rewrite (pending_spec a s) by (done || unfold pending_fuel; lia). done.
Qed.
Next Obligation.
  intros now a s calls hs Hok Heq. simpl. unfold remove_calls_from_pool. by apply remove_steps_spec.
Qed.
Next Obligation.
  intros a hs b [Hi Hm]. split; [|done]. split; [|done]. destruct Hi as [[Hp Hl Hr Hlim] Hf Hfi Hs].
  split; [|done..]. split; [done| |done|done]. simpl. by apply foldl_in_block_inv.
Qed.
End top_pool.

(** A concrete enclave on which the properties of the sidechain are exercised: the
    codec numbers the values, the hash is injective, keys are numbers; the states
    are kept by the state handler with files in memory, the operations by the
    author. *)

Import Ext(SgxExternalities).
Import Sc.

(** ** Codec and hash *)

Section countable_codec.
Context `{Countable A}.
Definition count_encode : Encode A := λ a, [Npos (countable.encode a)].
Definition count_decode : Decode A := λ l,
  match l with
  | Npos p :: _ => match countable.decode p with Some a => Ok a | None => Err "value"%string end
  | _ => Err "length"%string
  end.
Lemma count_prefix : @PrefixCodec A count_encode count_decode.
Proof.
  split. intros a rest. unfold SidechainDb.encode, SidechainDb.decode, count_encode, count_decode. simpl. by rewrite countable.decode_encode.
Qed.
Lemma count_codec : @Codec A count_encode count_decode.
Proof. exact (@prefix_codec A count_encode count_decode count_prefix). Qed.
End countable_codec.

#[export] Instance header_countable : Countable SidechainHeader.
Proof.
  refine (inj_countable' (λ h, (parent_hash h, block_number h, shard_id h, block_data_hash h, next_finalization_block_number h))
    (λ '(a, b, c, d, e), MkHeader a b c d e) _). by intros [].
Defined.
#[export] Instance block_data_countable : Countable BlockData.
Proof.
  refine (inj_countable' (λ d, (timestamp d, layer_one_head d, block_author d, signed_top_hashes d, encrypted_state_diff d))
    (λ '(a, b, c, d, e), MkBlockData a b c d e) _). by intros [].
Defined.
#[export] Instance block_countable : Countable Block.
Proof. refine (inj_countable' (λ b, (header b, block_data b)) (λ '(a, b), MkBlock a b) _). by intros []. Defined.
#[export] Instance state_update_eq_dec : EqDecision StateUpdate.
Proof. solve_decision. Defined.
#[export] Instance state_update_countable : Countable StateUpdate.
Proof.
  refine (inj_countable' (λ u, (state_hash_apriori u, state_hash_aposteriori u, state_update u))
    (λ '(a, b, c), MkStateUpdate a b c) _). by intros [].
Defined.

Module Sample.

#[export] Instance enc_ext : Encode SgxExternalitiesType := count_encode.
#[export] Instance enc_Z : Encode Z := count_encode.
#[export] Instance dec_Z : Decode Z := count_decode.
#[export] Instance enc_N : Encode N := count_encode.
#[export] Instance dec_N : Decode N := count_decode.
#[export] Instance enc_header : Encode SidechainHeader := count_encode.
#[export] Instance enc_data : Encode BlockData := count_encode.
#[export] Instance enc_block : Encode Block := count_encode.
#[export] Instance dec_block : Decode Block := count_decode.
#[export] Instance enc_update : Encode StateUpdate := count_encode.
#[export] Instance dec_update : Decode StateUpdate := count_decode.
#[export] Instance dec_shards : Decode (list ShardIdentifier) := count_decode.
#[export] Instance codec_Z : Codec Z := count_codec.
#[export] Instance codec_block : Codec Block := count_codec.
#[export] Instance codec_update : Codec StateUpdate := count_codec.

#[export] Instance blake : Blake2 := λ l, Npos (countable.encode l).
#[export] Instance blake_free : CollisionFree.
Proof. split. unfold blake2_256, blake. intros x y [= Heq]. by apply (inj countable.encode) in Heq. Qed.

#[export] Instance append : EncodeAppend := {| append_or_new := λ _ _, None; encode_single := λ v, v |}.

(** The digest of a name in use is its position. *)
#[export] Instance twox : Twox := λ s,
  match position (String.eqb s) ScStateInv.system_names with
  | Some i => replicate 15 0%N ++ [N.of_nat (S i)]
  | None => replicate 16 0%N
  end.
#[export] Instance twox_laws : ScStateInv.TwoxLaws.
Proof.
  split.
  - intros s. unfold twox_128, twox. by destruct (position _ _).
  - apply (bool_decide_unpack _). by vm_compute.
Qed.

#[export] Instance scheme : SignatureScheme N := {|
  public := λ p, p; sign := λ p msg, p :: msg; verify := λ sig msg pub, bool_decide (sig = pub :: msg) |}.
#[export] Instance scheme_laws : SignatureLaws N.
Proof. split. intros p msg. by apply bool_decide_true. Qed.

#[export] Instance crypto : StateCrypto unit := {|
  SidechainDb.encrypt := λ _ b, Ok (1%N :: b);
  SidechainDb.decrypt := λ _ c, match c with 1%N :: b => Ok b | _ => Err "decrypt"%string end |}.
#[export] Instance crypto_laws : StateCryptoLaws unit.
Proof. split; [by eauto| |done]. intros k b c Hc. by injection Hc as <-. Qed.

(** ** The parentchain *)

(** A header is its number, and the hash is one more. *)
#[export] Instance pc_headers : ParentchainHeader N := {| pc_hash := N.succ; pc_number := Z.of_N |}.
#[export] Instance pc_blocks : ParentchainBlock N N := λ b, b.
#[export] Instance light_client : LightClient (list N) N N :=
  {| lc_submit_block := λ v b, (v ++ [b], Ok tt); lc_send_extrinsics := λ v _, (v, Ok tt) |}.
#[export] Instance xt_factory : ExtrinsicsFactory unit N := λ x _, (x, Ok []).

(** ** The STF *)

(** A call with an even nonce sets the value of its sender to the nonce. *)
#[export] Instance stf : Stf demo_call unit N := {|
  tcs_verify_signature := λ c _ _, negb (c.1 =? 0)%N;
  stf_execute_call := λ st c,
    if N.even c.2 then (SpIo.set st [9; c.1]%N [c.2], Ok [MkParentchainCall Integritee [c.2]])
    else (st, Err "odd"%string);
  stf_update_parentchain_integritee_block := λ st h, (SpIo.set st [8]%N [h], Ok tt);
|}.

#[export] Instance stf_laws : StfLaws demo_call unit N.
Proof.
  split.
  - intros st c. simpl. destruct (N.even c.2); [|apply ExtInv.reaches_refl]. apply (ExtInv.reaches_op st (ExtInv.OpSet _ _)).
  - intros st h. apply (ExtInv.reaches_op st (ExtInv.OpSet _ _)).
Qed.

Lemma name_key_long a k : length k ≠ 32%nat → k ≠ storage_value_key "System" a.
Proof. intros Hl ->. apply Hl. unfold storage_value_key. by rewrite length_app, !ScStateInv.twox_len. Qed.

#[export] Instance stf_system : StfSystem demo_call unit N.
Proof.
  split; intros st x a _; unfold Ext.get; simpl; [destruct (N.even x.2); [|done]|]; simpl;
    rewrite lookup_insert_ne; try done; by apply name_key_long.
Qed.

(** ** The states *)

#[export] Instance listed : IterOrder := listed_order.

Abbreviation Files := (gmap ShardIdentifier (MemoryIo.ShardDirectory SgxExternalitiesType)).
#[export] Instance files : StateFileIo Files SgxExternalities :=
  MemoryIo.memory_io (λ m, blake2_256 (encode m)) Ext.state Ext.new.
#[export] Instance files_reliable : @ReliableStateIo Files SgxExternalities files Ext.hash Ext.prune_state_diff :=
  MemoryIo.memory_reliable (λ m, blake2_256 (encode m)) Ext.state Ext.new (λ _, eq_refl).

Definition initialize : result SgxExternalities StateHandlerError := Ok Ext.default_externalities.

#[export] Instance handle_state : HandleState (Handler.StateHandler Files) := HandlerInv.handler_handle_state initialize.
#[export] Instance handle_state_laws : HandleStateLaws (Handler.StateHandler Files) initialize :=
  HandlerInv.handler_handle_state_laws initialize.

Definition empty_handler : Handler.StateHandler Files :=
  Handler.MkHandler (Snapshots.MkRepository ∅ 4%nat ∅) ∅ (Observer.MkObserver ∅ ∅).

Lemma empty_handler_inv : HandlerInv.handler_inv empty_handler ∅.
Proof.
  split; [|by unfold HandlerInv.latest; rewrite omap_empty, fmap_empty].
  split; simpl; [apply map_Forall_empty|lia|by rewrite fmap_empty|done|apply map_Forall_empty].
Qed.

(** One shard, with an empty state. *)
Definition shard : ShardIdentifier := 0%N.
Definition handler : Handler.StateHandler Files :=
  match Handler.write_after_mutation 5%N empty_handler Ext.default_externalities shard with
  | Ret (h, _) => h
  | _ => empty_handler
  end.

Lemma handler_writable now : (5 < now < 2 ^ 128)%N → hs_writable (HandleStateLaws := handle_state_laws) now handler shard.
Proof.
  intros Hnow. destruct (HandlerInv.write_after_mutation_spec 5 empty_handler ∅ Ext.default_externalities shard
    empty_handler_inv) as (h & Hw & Hi & _).
  { by split; [|constructor]. }
  unfold handler. rewrite Hw. eexists. split; [exact Hi|].
  unfold SnapshotInv.q_update. rewrite lookup_insert_eq, lookup_empty. simpl. split; [lia|]. constructor; [simpl; lia|constructor].
Qed.

Lemma handler_view : hs_view (HandleStateLaws := handle_state_laws) handler = {[ shard := Ext.default_externalities ]}.
Proof. reflexivity. Qed.

Lemma handler_ok : hs_ok (HandleStateLaws := handle_state_laws) handler.
Proof. apply map_Forall_insert_2; [done|apply map_Forall_empty]. Qed.

(** ** The top pool *)

Abbreviation Pool := (Author.AuthorState (StfTrustedOperation demo_call demo_getter) unit).
#[export] Instance top_pool : TopPool Pool demo_call demo_getter := author_top_pool demo_env.
Definition top_hash : StfTrustedOperation demo_call demo_getter → TxHash := Author.hash_of demo_env.
#[export] Instance top_pool_laws : TopPoolLaws Pool demo_call demo_getter top_hash :=
  author_top_pool_laws demo_env.

#[local] Existing Instance AuthorInv.uniform_getter.

(** Two calls of one sender, the second of which the STF refuses. *)
Definition submissions : list (Z * AuthorInv.Command (TCS := demo_call) (G := demo_getter)) :=
  [(1%Z, AuthorInv.CmdSubmit [0; 7; 2]%N shard Author.Submit); (2%Z, AuthorInv.CmdSubmit [0; 7; 3]%N shard Author.Submit)].

Definition pool : Pool :=
  match AuthorInv.run demo_env Author.calls_only_filter demo_send (AuthorInv.new_author default_options) submissions with
  | Ret (a, _) => a
  | _ => AuthorInv.new_author default_options
  end.

Lemma pool_ok : tp_ok (TopPoolLaws := top_pool_laws) pool.
Proof.
  destruct (AuthorInv.author_inv_new (Sink := unit) demo_env default_options) as [Hi Hm]; [apply default_small..|].
  destruct (AuthorInv.run_spec demo_env Author.calls_only_filter demo_send demo_short submissions
    (AuthorInv.new_author default_options) Hi Hm) as (a & rs & Hrun & Hi' & Hm' & _).
  { apply (AuthorInv.room_new default_options 2%nat). by vm_compute. }
  unfold pool. rewrite Hrun. exact (conj Hi' Hm').
Qed.

Lemma pool_queue : tp_queue (TopPoolLaws := top_pool_laws) pool shard = [direct_call (7, 2)%N; direct_call (7, 3)%N].
Proof. vm_compute. reflexivity. Qed.

#[export] Instance indirect_calls : IndirectCallsExecutor Pool N := λ p _ _, Ret (p, Ok None).
#[export] Instance indirect_calls_ok : SafeIndirectCalls Pool N demo_call demo_getter top_hash.
Proof. intros p b events Hp. by exists p, (Ok None). Qed.

(** ** The importer of parentchain blocks *)

Definition storages (hashes : list Bytes) (_ : N) (_ : ParentchainId) : result (list (Bytes * option Bytes)) string :=
  Ok ((λ h, (h, None)) <$> hashes).

Abbreviation SampleEnv := (PcImport.Env (list N) unit (Handler.StateHandler Files) Pool).

#[export] Instance importer : ImportParentchainBlocks SampleEnv N ImporterError :=
  PcImport.parentchain_importer (TCS := demo_call) (Mr := unit) (Xt := N) storages (λ b _, (100 + b)%N) Integritee
    (MkCreation None None None).

#[export] Instance importer_safe : ImportInv.SafeImporter (PB := N) (V := list N) (X := unit) initialize top_hash.
Proof.
  apply PcImportInv.parentchain_importer_safe. unfold storages. intros hashes h i l v [= <-].
  intros (k & Hk & _)%list_elem_of_fmap. by simplify_eq.
Qed.

(** ** The world *)

(** Blocks are stored unless the worker is stopped. *)
#[export] Instance sidechain_ocall : SidechainOCall (bool * list SignedBlock) := {|
  oc_store_sidechain_blocks := λ (o : bool * list SignedBlock) bs, if o.1 then ((o.1, o.2 ++ bs), Ok tt) else (o, Err 1%Z);
  oc_fetch_sidechain_blocks_from_peer := λ _ _ _ _, Ok [];
|}.

Definition world : ScImport.World SampleEnv N (bool * list SignedBlock) :=
  let env : SampleEnv := PcImport.MkEnv [] tt handler pool in
  ScImport.MkWorld (Dispatch.MkTriggered env [] []) (true, []) [] 0%nat.

(** Two validateers that take turns. *)
Definition shard_status (_ : N) (_ : ShardIdentifier) : result (option (list N)) string := Ok (Some [70; 71]%N).
Definition snapshot_clock (n : nat) : StateId := (6 + N.of_nat n)%N.
Definition ban_clock (n : nat) : Z := 10.

Lemma world_ok : ImportInv.w_ok (TopPoolLaws0 := top_pool_laws) (HandleStateLaws0 := handle_state_laws) world.
Proof. split; [apply handler_ok|apply pool_ok]. Qed.
End Sample.
