(* ===== verification/ConsensusProps.v ===== *)
(** The properties of the production and the import of sidechain blocks. *)

From stdpp Require Import base gmap fin_maps fin_map_dom numbers strings list.
From S2P Require Import Prelude Collections PoolTypes Externalities SidechainDb Durations StfTypes SidechainState SidechainBlocks.
From S2P Require Import StateFileIo StateHandler StfExecutor Dispatcher Consensus BlockComposer.
From S2P Require Import ParentchainImport BlockImport BlockImportInv ProposalInv AuthorProps ConsensusSample.

Import Ext(SgxExternalities).
Import Sc ScStateInv ExtInv Dispatch PcImport ScImport ImportInv ProposeInv.
Open Scope worker_scope.

Section props.
Context `{Encode SgxExternalitiesType} `{Blake2} `{EncodeAppend} `{Twox} `{!TwoxLaws}.
Context `{Encode Z, Decode Z} `{!Codec Z} `{Encode N, Decode N}.
Context `{Encode SidechainHeader} `{Encode BlockData} `{Encode Block, Decode Block} `{!Codec Block}.
Context `{Encode StateUpdate, Decode StateUpdate} `{!Codec StateUpdate}.
Context {TCS G Mr PH PB V X W P S Pair Key : Type} `{!Stf TCS Mr PH} `{!StfLaws TCS Mr PH} `{!StfSystem TCS Mr PH}.
Context `{SignatureScheme Pair} `{!SignatureLaws Pair} `{StateCrypto Key} `{!StateCryptoLaws Key}.
Context `{ParentchainHeader PH} `{ParentchainBlock PB PH} `{SidechainOCall S}.
Context {initialize : result SgxExternalities StateHandlerError} {top_hash : StfTrustedOperation TCS G → TxHash}.
Context `{HandleState W} `{!HandleStateLaws W initialize} `{TopPool P TCS G} `{!TopPoolLaws P TCS G top_hash}.
Context `{ImportParentchainBlocks (Env V X W P) PB ImporterError} `{!SafeImporter (PB := PB) (V := V) (X := X) initialize top_hash}.
Context (shard_status : PH → ShardIdentifier → result (option (list Public)) string).
Context (snapshot_clock : nat → StateId) (ban_clock : nat → Z).
Context (signer : Pair) (key : Key).
Context (duration_now : nat → Duration) (get_mrenclave_of_self : nat → result Mr Z).
Abbreviation World' := (World (Env V X W P) PB S).
Implicit Types (w : World') (s : ShardIdentifier) (sb : SignedBlock) (st : SgxExternalities).

(** A validateer that can import the block: once the parentchain blocks are
    imported its state is the one the block was made on, the parentchain block
    of the block is known and gives the author the slot, and the state can be
    written. *)
Record importable w sb (h : PH) st w1 (h1 : PH) : Prop := {
  im_ok : w_ok w;
  im_parentchain : import_parentchain_block w (block sb) h = Ret (w1, Ok h1);
  im_state : ∃ st1, view w1 !! shard_id (header (block sb)) = Some st1 ∧ Ext.state st1 = Ext.state st;
  im_reference : pc_hash (reference_header w sb h) = layer_one_head (block_data (block sb));
  im_author : ∃ l, Validateers.current_validateers shard_status (reference_header w sb h) (shard_id (header (block sb))) = Ok l ∧
    VerifyInv.round_robin (VerifyInv.block_slot SLOT_DURATION (block sb)) l = Some (block_author (block_data (block sb)));
  im_writable : hs_writable (snapshot_clock (ticks w1)) (states (env w1)) (shard_id (header (block sb)));
}.

(** The state a block leads to. *)
Definition state_with_block (after : SgxExternalities) (b : Block) : SgxExternalities :=
  Ext.prune_state_diff (ScState.set_last_block (Ext.new (Ext.state after)) (hash b) b).

Lemma importable_accepted now ph hashes s before after w sb h w1 h1 :
  composed signer key now ph hashes s before after sb → importable w sb h before w1 h1 →
  accepted shard_status w sb h ∧ is_Some (view w !! shard_id (header (block sb))).
Proof.
  intros Hco [Hok Himp (st1 & Hs1 & Hst) Href Hau _].
  destruct (import_parentchain_spec w (block sb) h Hok) as (w1' & res & Hi & _ & _ & Hd & Hl & _).
  rewrite Himp in Hi. injection Hi as <- <-. split.
  - split; [apply Hco| |done|done]. rewrite <-Hl. unfold last_of. fold (view w1). rewrite Hs1. simpl.
    rewrite (PcImportInv.get_last_block_get before st1); [apply Hco|]. unfold Ext.get. by rewrite Hst.
  - apply elem_of_dom. rewrite <-Hd. by apply elem_of_dom_2 in Hs1.
Qed.

(** C3: What one validateer proposes, every other one imports.  On a state whose
    block number is the one of its last block, a proposal succeeds: the block is
    signed, has the next number and the hash of the last block, and lists the
    calls that succeeded; the calls that failed leave the pool.  Every
    validateer that can import the block accepts it and has the state the proposer
    computed, with the block as its last block; the states of the other shards do
    not change, the executed calls leave its pool and the block is handed to the
    storage, whose answer decides whether success is reported. *)
Theorem proposed_block_imports now_state now_block now_ban (wp : W) (p : P) (ph : PH) s max_duration st :
  hs_ok wp → tp_ok p → hs_view wp !! s = Some st → number_ok st →
  (0 ≤ number_of (ScState.get_last_block st) < u64_max)%Z → (duration_now 0 + max_duration ≤ duration_max)%Z →
  let batch := batch_of (PH := PH) duration_now get_mrenclave_of_self now_state p s max_duration st in
  ∃ p' sb calls,
    Composer.propose signer (Ok key) top_hash duration_now get_mrenclave_of_self now_state now_block now_ban wp p ph s max_duration =
      Ret (p', Ok (Composer.MkProposal sb calls)) ∧
    composed signer key now_block ph (executed_hashes batch.2) s st batch.1 sb ∧
    tp_queue p' s = filter (λ op, top_hash op ∉ failed_hashes (top_hash := top_hash) batch.2) (tp_queue p s) ∧
    ∀ w h w1 h1, importable w sb h st w1 h1 →
      ∃ w', import_block shard_status (Ok key) snapshot_clock ban_clock w sb h =
          Ret (w', match (oc_store_sidechain_blocks (ocall w) [sb]).2 with Ok _ => Ok h1 | Err e => Err (CsSgx e) end) ∧
        view w' = <[s := state_with_block batch.1 (block sb)]> (view w1) ∧
        tp_queue (top_pool (env w')) s =
          filter (λ op, top_hash op ∉ executed_hashes batch.2) (tp_queue (top_pool (env w1)) s) ∧
        ocall w' = (oc_store_sidechain_blocks (ocall w) [sb]).1.
Proof.
  intros Hhs Htp Hs Hn Hb Hd batch.
  destruct (propose_spec signer key duration_now get_mrenclave_of_self now_state now_block now_ban wp p ph s max_duration st
    Hhs Htp Hs Hn Hb Hd) as (p' & sb & Hp & Hco & _ & Hq & _). fold batch in Hp, Hco, Hq.
  eexists p', sb, _. split; [exact Hp|]. split; [done|]. split; [done|]. intros w h w1 h1 Him.
  destruct (importable_accepted _ _ _ _ _ _ w sb h w1 h1 Hco Him) as [Hac Hsome].
  destruct Him as [Hok Himp (st1 & Hs1 & Hst) Href Hau Hwr].
  pose proof (batch_tracks duration_now get_mrenclave_of_self now_state p s max_duration st (view_no_diff _ _ _ Hhs Hs)) as Htr.
  fold batch in Htr.
  destruct (import_block_applies shard_status (Ok key) snapshot_clock ban_clock w sb h w1 h1 key st1 _ Hok Hac Hsome Himp
    eq_refl Hs1 (update_from_composed signer key _ _ _ _ _ _ _ _ Hco Htr Hst) Hwr)
    as (w' & res & w2 & Hi & [_ Hv' Hq' _ Ho' Hres] & (_ & Ho2 & Hv2) & Htp2 & Ho1).
  pose proof (co_shard _ _ _ _ _ _ _ _ _ Hco) as Hsh. rewrite (co_hashes _ _ _ _ _ _ _ _ _ Hco), Hsh, Htp2 in *.
  exists w'. rewrite Hres, Ho2, Ho1 in Hi. split; [done|]. rewrite Hv', Hv2, Ho', Ho2, Ho1. done.
Qed.

Context (retrieve_key : result Key string).

(** C7: An import is atomic up to its last steps.  It returns in every world; a
    block that is refused changes nothing; a block that is accepted (signature,
    number and parent hash, parentchain block and turn of its author) but cannot
    be applied changes no last block and is not stored; a block for which success
    is reported is the last block of its shard, was handed to the storage and
    changed no other last block.  The one error after which the block is the last
    one nevertheless is a failed write of the snapshot or of the block. *)
Theorem import_is_atomic w sb (h : PH) :
  w_ok w →
  ∃ w' res, import_block shard_status retrieve_key snapshot_clock ban_clock w sb h = Ret (w', res) ∧ w_ok w' ∧
    import_outcome shard_status w sb h w' res.
Proof. apply import_block_cases. Qed.

(** C2: The imported blocks of a shard are a chain.  Whatever blocks arrive in
    whatever order, the ones that are applied to a shard follow one another from
    its last block on: consecutive numbers, each with the hash of the one before,
    each signed by the validateer whose turn it was; the last of them is the last
    block in the state, and every block for which success was reported is among
    them. *)
Theorem imports_build_a_chain w (inputs : list (SignedBlock * PH)) :
  w_ok w →
  ∃ w' results, run_imports shard_status retrieve_key snapshot_clock ban_clock w inputs = Ret (w', results) ∧ ∀ s, ∃ bs,
    sublist bs (filter (λ sb, shard_id (header (block sb)) = s) inputs.*1) ∧ Forall (authored shard_status) bs ∧
    linked (last_of (env w) s) (block <$> bs) ∧
    last_of (env w') s = match last bs with Some sb => Some (block sb) | None => last_of (env w) s end ∧
    (∀ i sb h hd, inputs !! i = Some (sb, h) → results !! i = Some (Ok hd) → shard_id (header (block sb)) = s → sb ∈ bs).
Proof.
  intros Hok. destruct (run_imports_chain shard_status retrieve_key snapshot_clock ban_clock w inputs Hok)
    as (w' & results & Hr & _ & Hall). by exists w', results.
Qed.
End props.

(** ** Witnesses *)

Section witness.
Import Sample.

Definition sample_duration (n : nat) : Duration := from_millis 2000.
Definition sample_mrenclave (n : nat) : result unit Z := Ok tt.

(** The sample world can import what the sample enclave proposes. *)
Lemma sample_importable hashes after sb :
  composed 70%N tt (from_millis 2000) 4%N hashes Sample.shard Ext.default_externalities after sb →
  importable Sample.shard_status Sample.snapshot_clock Sample.world sb 4%N Ext.default_externalities Sample.world 4%N.
Proof.
  intros Hco. pose proof (co_shard _ _ _ _ _ _ _ _ _ Hco) as Hsh. pose proof (co_head _ _ _ _ _ _ _ _ _ Hco) as Hhd.
  assert (reference_header Sample.world sb 4%N = 4%N) as Href.
  { unfold reference_header, peek_parentchain_header. rewrite Hhd. by rewrite decide_True. }
  split.
  - apply Sample.world_ok.
  - reflexivity.
  - rewrite Hsh. by exists Ext.default_externalities.
  - by rewrite Href.
  - exists [70; 71]%N. split; [done|]. unfold VerifyInv.block_slot.
    rewrite (co_time _ _ _ _ _ _ _ _ _ Hco), (co_author _ _ _ _ _ _ _ _ _ Hco). reflexivity.
  - rewrite Hsh. apply Sample.handler_writable. by vm_compute.
Qed.

Lemma proposed_block_imports_witness :
  ∃ p' sb calls w',
    Composer.propose 70%N (Ok tt) Sample.top_hash sample_duration sample_mrenclave (from_millis 2000) (from_millis 2000) 9
      Sample.handler Sample.pool 4%N Sample.shard (from_millis 700) = Ret (p', Ok (Composer.MkProposal sb calls)) ∧
    import_block Sample.shard_status (Ok tt) Sample.snapshot_clock Sample.ban_clock Sample.world sb 4%N = Ret (w', Ok 4%N) ∧
    ocall w' = (true, [sb]).
Proof.
  destruct (proposed_block_imports (S := (bool * list SignedBlock)%type)
    Sample.shard_status Sample.snapshot_clock Sample.ban_clock 70%N tt
    sample_duration sample_mrenclave (from_millis 2000) (from_millis 2000) 9 Sample.handler Sample.pool 4%N Sample.shard
    (from_millis 700) Ext.default_externalities) as (p' & sb & calls & Hp & Hco & _ & Him).
  - apply Sample.handler_ok.
  - apply Sample.pool_ok.
  - by rewrite Sample.handler_view.
  - reflexivity.
  - vm_compute. done.
  - vm_compute. done.
  - destruct (Him Sample.world 4%N Sample.world 4%N (sample_importable _ _ _ Hco)) as (w' & Hi & _ & _ & Ho).
    exists p', sb, calls, w'. split; [exact Hp|]. split; [exact Hi|exact Ho].
Defined.

(** The block of the sample enclave. *)
Definition sample_block : SignedBlock :=
  match Composer.propose 70%N (Ok tt) Sample.top_hash sample_duration sample_mrenclave (from_millis 2000) (from_millis 2000) 9
      Sample.handler Sample.pool 4%N Sample.shard (from_millis 700) with
  | Ret (_, Ok p) => Composer.proposed_block p
  | _ => MkSignedBlock (MkBlock (MkHeader 0%N 0 Sample.shard 0%N 0) (MkBlockData 0 0%N 0%N [] [])) []
  end.

Lemma sample_block_shard : shard_id (header (block sample_block)) = Sample.shard.
Proof. vm_compute. reflexivity. Qed.

(** The block arrives twice. *)
Definition sample_inputs : list (SignedBlock * N) := [(sample_block, 4%N); (sample_block, 4%N)].

Definition sample_results (r : outcome (World Sample.SampleEnv N (bool * list SignedBlock) * list (result N ConsensusError))) :=
  match r with Ret (_, l) => (λ res, match res with Ok _ => true | Err _ => false end) <$> l | _ => [] end.

Lemma sample_inputs_results :
  sample_results (run_imports Sample.shard_status (Ok tt) Sample.snapshot_clock Sample.ban_clock Sample.world sample_inputs) =
    [true; false].
Proof. vm_compute. reflexivity. Qed.

Lemma import_is_atomic_witness :
  ∃ w' res, import_block Sample.shard_status (Ok tt) Sample.snapshot_clock Sample.ban_clock Sample.world sample_block 4%N =
      Ret (w', Ok res) ∧
    on_top Sample.world sample_block w' ∧ ocall w' = (true, [sample_block]).
Proof.
  destruct (import_is_atomic Sample.shard_status Sample.snapshot_clock Sample.ban_clock (Ok tt) Sample.world sample_block 4%N
    Sample.world_ok) as (w' & res & Hi & _ & Ho).
  pose proof sample_inputs_results as Hr. unfold sample_inputs, run_imports in Hr. rewrite Hi in Hr.
  cbn [mbind outcome_bind] in Hr. destruct res as [h|e].
  - exists w', h. split; [exact Hi|]. inversion Ho as [| | | |h' _ Hst Htop]. split; [exact Htop|].
    by injection Hst.
  - exfalso. destruct (import_block _ _ _ _ w' _ _) as [[w2 res2]| |]; cbn in Hr; discriminate.
Defined.

Lemma imports_build_a_chain_witness :
  ∃ w', run_imports Sample.shard_status (Ok tt) Sample.snapshot_clock Sample.ban_clock Sample.world sample_inputs ≫=
      (λ r, Ret r.1) = Ret w' ∧ last_of (env w') Sample.shard ≠ None.
Proof.
  destruct (imports_build_a_chain Sample.shard_status Sample.snapshot_clock Sample.ban_clock (Ok tt) Sample.world sample_inputs
    Sample.world_ok) as (w' & results & Hi & Hall).
  exists w'. rewrite Hi. split; [reflexivity|].
  destruct (Hall Sample.shard) as (bs & _ & _ & _ & Hl & Hin). rewrite Hl.
  pose proof sample_inputs_results as Hr. rewrite Hi in Hr. cbn in Hr.
  destruct results as [|[h|e] results]; [discriminate Hr| |discriminate Hr].
  pose proof (Hin 0%nat sample_block 4%N h eq_refl eq_refl sample_block_shard) as Hb.
  destruct (last bs) as [sb|] eqn:Hlast; [discriminate|].
  apply last_None in Hlast. rewrite Hlast in Hb. exact (λ _, not_elem_of_nil _ Hb).
Defined.
End witness.
