(* ===== verification/Slots.v ===== *)
(** Slots (src/sidechain/consensus/slots/src/{slots,slot_stream,lib}.rs): the slot
    of a time, when it ends, which slots are yielded, when the worker is woken, and
    how the time of a slot is shared among the shards.  Readings of the clock are
    arguments. *)

From stdpp Require Import base numbers sorting strings list.
From S2P Require Import Prelude Collections PoolTypes SidechainBlocks Durations.

Open Scope Z_scope.
Open Scope worker_scope.

Module Slots.

Definition time_until_next_slot (now slot_duration : Duration) : Duration :=
  let now := as_millis now in
  if as_millis slot_duration =? 0 then 0
  else
    let next_slot := (now + as_millis slot_duration) `div` as_millis slot_duration in
    let remaining_millis := next_slot * as_millis slot_duration - now in
    from_millis (u64_wrap remaining_millis).

Record SlotInfo (PH : Type) := MkSlotInfo {
  slot : Slot;
  slot_timestamp : Duration;
  slot_duration : Duration;
  ends_at : Duration;
  last_imported_integritee_parentchain_head : PH;
  maybe_last_imported_target_a_parentchain_head : option PH;
  maybe_last_imported_target_b_parentchain_head : option PH;
}.
Arguments MkSlotInfo {PH} _ _ _ _ _ _ _.
Arguments slot {PH} _.
Arguments slot_timestamp {PH} _.
Arguments slot_duration {PH} _.
Arguments ends_at {PH} _.
Arguments last_imported_integritee_parentchain_head {PH} _.
Arguments maybe_last_imported_target_a_parentchain_head {PH} _.
Arguments maybe_last_imported_target_b_parentchain_head {PH} _.

Definition duration_remaining {PH} (now : Duration) (i : SlotInfo PH) : option Duration :=
  if ends_at i <=? now then None else Some (ends_at i - now).

(** The product is a [u64]. *)
Definition slot_ends_at (s : Slot) (d : Duration) : Duration :=
  from_millis (u64_wrap (u64_saturating_add s 1 * u64_wrap (as_millis d))).

(** [proposal_stamp] is the timestamp of the proposed block. *)
Definition timestamp_within_slot {PH} (i : SlotInfo PH) (proposal_stamp : Z) : bool :=
  (u64_wrap (as_millis (slot_timestamp i)) <=? proposal_stamp) &&
  (proposal_stamp <=? u64_wrap (as_millis (ends_at i))).

(** [last_slot] is the slot yielded last, kept in a global variable. *)
Definition yield_next_slot {PH} (timestamp duration : Duration) (integritee_header : PH)
    (maybe_target_a_header maybe_target_b_header : option PH) (last_slot : Slot) :
    outcome (Slot * result (option (SlotInfo PH)) string) :=
  if duration =? 0 then Ret (last_slot, Err "Tried to yield next slot with 0 duration"%string)
  else
    Verify.slot_from_timestamp_and_duration timestamp duration ≫= λ s,
    if s <=? last_slot then Ret (last_slot, Ok None)
    else
      let slot_ends_time := slot_ends_at s duration in
      Ret (s, Ok (Some (MkSlotInfo s timestamp duration slot_ends_time integritee_header
                          maybe_target_a_header maybe_target_b_header))).

(** *** The stream of slots *)

(** [inner_delay] is the time at which the timer fires. *)
Record SlotStream := MkStream {
  stream_duration : Duration;
  inner_delay : option Duration;
}.

Definition new_stream (slot_duration : Duration) : SlotStream := MkStream slot_duration None.

(** Called at [now]; the timer fires at its time or [lateness] after it.  The
    result is the time at which the call returns. *)
Definition next_slot (st : SlotStream) (now lateness : Duration) : Duration * SlotStream :=
  let fires := match inner_delay st with
               | None => now + time_until_next_slot now (stream_duration st)
               | Some d => d
               end in
  let awake := Z.max now fires + lateness in
  (awake, MkStream (stream_duration st) (Some (awake + time_until_next_slot awake (stream_duration st)))).

(** The times at which the task of [start_slot_worker] starts, for a lateness and
    a duration of the task in every round. *)
Fixpoint start_slot_worker (st : SlotStream) (now : Duration) (rounds : list (Duration * Duration)) : list Duration :=
  match rounds with
  | [] => []
  | (lateness, task) :: rounds =>
      let '(awake, st) := next_slot st now lateness in
      awake :: start_slot_worker st (awake + task) rounds
  end.

(** *** The share of a slot a proposal may use (aura/src/lib.rs) *)

Definition BLOCK_PROPOSAL_SLOT_PORTION : Z := F32_0_7.

Definition proposing_remaining_duration {PH} (i : SlotInfo PH) (now : Duration) : Duration :=
  let proposing_duration := mul_f32 (slot_duration i) BLOCK_PROPOSAL_SLOT_PORTION in
  let slot_remaining :=
    match checked_sub (ends_at i) now with
    | Some remaining => mul_f32 remaining BLOCK_PROPOSAL_SLOT_PORTION
    | None => 0
    end in
  Z.min slot_remaining proposing_duration.

(** *** The scheduler *)

(** A slot worker works on [W] and may give a result. *)
Class SimpleSlotWorker (W PH Res : Type) :=
  worker_on_slot : W → SlotInfo PH → ShardIdentifier → outcome (W * option Res).

Section scheduler.
Context {W PH Res : Type} `{SimpleSlotWorker W PH Res}.
(** The reading of the clock before the [i]th shard. *)
Context (duration_now : nat → Duration).

Definition shard_remaining_duration (i : SlotInfo PH) (now : Duration) (remaining_shards : nat) : Duration :=
  default 0 (duration_difference now (ends_at i) ≫= λ time, checked_div time (Z.of_nat remaining_shards `mod` 2 ^ 32)).

Definition shard_slot (i : SlotInfo PH) (now shard_remaining : Duration) : outcome (SlotInfo PH) :=
  duration_add now shard_remaining ≫= λ shard_slot_ends_at,
  Ret (MkSlotInfo (slot i) now shard_remaining shard_slot_ends_at (last_imported_integritee_parentchain_head i)
    (maybe_last_imported_target_a_parentchain_head i) (maybe_last_imported_target_b_parentchain_head i)).

Fixpoint on_slot_from (w : W) (i : SlotInfo PH) (n : nat) (slot_results : list Res) (shards : list ShardIdentifier) :
    outcome (W * list Res) :=
  match shards with
  | [] => Ret (w, slot_results)
  | shard :: shards' =>
      let now := duration_now n in
      let remaining := shard_remaining_duration i now (length shards) in
      if as_millis remaining =? 0 then Ret (w, slot_results)
      else
        shard_slot i now remaining ≫= λ info,
        worker_on_slot w info shard ≫= λ '(w, res),
        on_slot_from w i (S n) (match res with Some r => slot_results ++ [r] | None => slot_results end) shards'
  end.

(** [PerShardSlotWorkerScheduler::on_slot]. *)
Definition on_slot (w : W) (i : SlotInfo PH) (shards : list ShardIdentifier) : outcome (W * list Res) :=
  on_slot_from w i 0 [] shards.
End scheduler.
End Slots.

(** Facts about slots: the worker is woken in every slot, every slot is yielded
    once, and the validateers take turns. *)

Open Scope Z_scope.

Module SlotsInv.
Import Slots.

(** The slot of a time, for slots of [D] milliseconds. *)
Definition slot_of (D : Z) (t : Duration) : Slot := as_millis t `div` D.

Lemma as_millis_add_millis t n : as_millis (t + from_millis n) = as_millis t + n.
Proof. unfold as_millis, from_millis, NANOS_PER_MILLI. rewrite Z.div_add by lia. lia. Qed.

Lemma as_millis_spec t n : as_millis t = n ↔ from_millis n ≤ t < from_millis (n + 1).
Proof.
  unfold as_millis, from_millis, NANOS_PER_MILLI.
  pose proof (Z.div_mod t (10 ^ 6) ltac:(lia)). pose proof (Z.mod_pos_bound t (10 ^ 6) ltac:(lia)). split; nia.
Qed.

Lemma slot_of_iff D t k : 0 < D → slot_of D t = k ↔ from_millis (k * D) ≤ t < from_millis ((k + 1) * D).
Proof.
  intros HD. unfold slot_of. pose proof (proj1 (as_millis_spec t (as_millis t)) eq_refl) as Ht.
  pose proof (Z.div_mod (as_millis t) D ltac:(lia)). pose proof (Z.mod_pos_bound (as_millis t) D HD).
  unfold from_millis, NANOS_PER_MILLI in *. split; nia.
Qed.

Section slots.
Context (D : Z) (HD : 0 < D).
Abbreviation d := (from_millis D).

Lemma time_until_next_slot_spec now :
  0 ≤ now → D ≤ u64_max →
  time_until_next_slot now d = from_millis ((slot_of D now + 1) * D - as_millis now).
Proof.
  intros Hn HD'. unfold time_until_next_slot. rewrite as_millis_from_millis.
  destruct (Z.eqb_spec D 0); [lia|]. unfold slot_of. replace ((as_millis now + D) `div` D) with (as_millis now `div` D + 1).
  - rewrite u64_wrap_small; [done|]. pose proof (Z.div_mod (as_millis now) D ltac:(lia)).
    pose proof (Z.mod_pos_bound (as_millis now) D HD). unfold is_u64. nia.
  - rewrite <-(Z.mul_1_l D) at 2. rewrite Z.div_add by lia. done.
Qed.

(** The timer fires in the first millisecond of the next slot. *)
Lemma next_slot_time now :
  0 ≤ now → D ≤ u64_max →
  let t := now + time_until_next_slot now d in
  from_millis ((slot_of D now + 1) * D) ≤ t < from_millis ((slot_of D now + 1) * D + 1) ∧ now < t.
Proof.
  intros Hn HD' t. unfold t. rewrite time_until_next_slot_spec by done.
  pose proof (proj1 (as_millis_spec now (as_millis now)) eq_refl) as Ht.
  pose proof (proj1 (slot_of_iff D now _ HD) eq_refl) as Hs. unfold slot_of in *.
  pose proof (Z.div_mod (as_millis now) D ltac:(lia)). pose proof (Z.mod_pos_bound (as_millis now) D HD).
  unfold from_millis, NANOS_PER_MILLI in *. nia.
Qed.

(** A round that is done a millisecond before the slot is over. *)
Definition punctual (round : Duration * Duration) : Prop := 0 ≤ round.1 ∧ 0 ≤ round.2 ∧ round.1 + round.2 + from_millis 1 ≤ d.

Lemma worker_from k now fires rounds :
  0 ≤ k → D ≤ u64_max → now ≤ fires → from_millis (k * D) ≤ fires < from_millis (k * D + 1) →
  Forall punctual rounds →
  slot_of D <$> start_slot_worker (MkStream d (Some fires)) now rounds = Z.of_nat <$> seq (Z.to_nat k) (length rounds).
Proof.
  intros Hk HD' Hn Hf Hr. revert k now fires Hk Hn Hf. induction Hr as [|[late task] rounds (H1 & H2 & H3) Hr IH]; intros k now fires Hk Hn Hf; [done|].
  cbn [start_slot_worker next_slot inner_delay stream_duration]. rewrite Z.max_r by done. cbn [fst snd] in *.
  assert (slot_of D (fires + late) = k) as Hslot.
  { apply slot_of_iff; [done|]. unfold from_millis, NANOS_PER_MILLI in *. nia. }
  rewrite fmap_cons, Hslot. cbn [length seq fmap list_fmap]. f_equal; [lia|].
  assert (0 ≤ fires + late) as Hp by (unfold from_millis, NANOS_PER_MILLI in *; nia).
  pose proof (next_slot_time (fires + late) Hp HD') as [Hnext Hlt]. rewrite Hslot in Hnext.
  replace (S (Z.to_nat k)) with (Z.to_nat (k + 1)) by lia. apply IH; [lia| |done].
  unfold from_millis, NANOS_PER_MILLI in *. nia.
Qed.

(** A punctual worker is woken once in every slot. *)
Lemma worker_slots now rounds :
  0 ≤ now → D ≤ u64_max → Forall punctual rounds →
  slot_of D <$> start_slot_worker (new_stream d) now rounds =
    Z.of_nat <$> seq (S (Z.to_nat (slot_of D now))) (length rounds).
Proof.
  intros Hn HD' Hr. destruct rounds as [|round rounds]; [done|].
  pose proof (next_slot_time now Hn HD') as [Hnext Hlt].
  assert (0 ≤ slot_of D now) as Hs.
  { apply Z.div_pos; [|done]. apply Z.div_pos; [done|]. done. }
  replace (S (Z.to_nat (slot_of D now))) with (Z.to_nat (slot_of D now + 1)) by lia.
  rewrite <-(worker_from _ now (now + time_until_next_slot now d)); [done|lia|done|lia|done|done].
Qed.

Lemma worker_slot_at now rounds k t :
  0 ≤ now → D ≤ u64_max → Forall punctual rounds → start_slot_worker (new_stream d) now rounds !! k = Some t →
  slot_of D t = slot_of D now + 1 + Z.of_nat k.
Proof.
  intros Hn HD' Hr Hk. assert (0 ≤ slot_of D now) as Hs by (apply Z.div_pos; [|done]; by apply Z.div_pos).
  assert ((slot_of D <$> start_slot_worker (new_stream d) now rounds) !! k = Some (slot_of D t)) as Hf
    by (by rewrite list_lookup_fmap, Hk).
  rewrite worker_slots, list_lookup_fmap in Hf by done. apply fmap_Some in Hf as (n & Hsq & ->).
  apply lookup_seq in Hsq. lia.
Qed.

Lemma worker_length st now rounds : length (start_slot_worker st now rounds) = length rounds.
Proof.
  revert st now. induction rounds as [|[late task] rounds IH]; intros st now; [done|]. simpl. by rewrite IH.
Qed.

Lemma seq_sorted a n : StronglySorted Z.lt (Z.of_nat <$> seq a n).
Proof.
  revert a. induction n as [|n IH]; intros a; [constructor|]. constructor; [apply IH|].
  apply Forall_fmap, Forall_seq. simpl. lia.
Qed.

(** *** Yielded slots *)

Context {PH : Type} (header : PH) (header_a header_b : option PH).

Definition info_at (t : Duration) : SlotInfo PH :=
  MkSlotInfo (slot_of D t) t d (from_millis ((slot_of D t + 1) * D)) header header_a header_b.

(** A time at which the end of the slot is a number of milliseconds in [u64]. *)
Definition in_range (t : Duration) : Prop := 0 ≤ t ∧ (slot_of D t + 1) * D ≤ u64_max.

Lemma slot_of_nonneg t : 0 ≤ t → 0 ≤ slot_of D t.
Proof. intros Ht. apply Z.div_pos; [|done]. by apply Z.div_pos. Qed.

Lemma in_range_slot t : in_range t → is_u64 (slot_of D t) ∧ is_u64 (slot_of D t + 1) ∧ D ≤ u64_max.
Proof. intros [Ht Hr]. pose proof (slot_of_nonneg t Ht). unfold is_u64. nia. Qed.

Lemma yield_next_slot_spec t last_slot :
  in_range t →
  yield_next_slot t d header header_a header_b last_slot =
    if decide (slot_of D t ≤ last_slot) then Ret (last_slot, Ok None) else Ret (slot_of D t, Ok (Some (info_at t))).
Proof.
  intros Hr. pose proof (in_range_slot t Hr) as (Hs & Hs1 & HD'). unfold yield_next_slot.
  destruct (Z.eqb_spec d 0) as [E|_]; [unfold from_millis, NANOS_PER_MILLI in E; lia|].
  rewrite VerifyInv.slot_from_timestamp_spec by (by rewrite as_millis_from_millis).
  rewrite as_millis_from_millis. cbn [mbind outcome_bind]. fold (slot_of D t). rewrite u64_wrap_small by done.
  case_decide; destruct (Z.leb_spec (slot_of D t) last_slot); try lia; [done|].
  unfold info_at, slot_ends_at. rewrite as_millis_from_millis. unfold u64_saturating_add.
  rewrite (u64_wrap_small D) by (unfold is_u64; lia). rewrite Z.min_l by apply Hs1.
  rewrite u64_wrap_small; [done|]. destruct Hr as [_ Hr]. pose proof (proj1 Hs1). unfold is_u64. nia.
Qed.

(** The slots that are yielded at the given times. *)
Fixpoint yields (last_slot : Slot) (times : list Duration) : outcome (Slot * list (SlotInfo PH)) :=
  match times with
  | [] => Ret (last_slot, [])
  | t :: times =>
      yield_next_slot t d header header_a header_b last_slot ≫= λ '(last_slot, res),
      yields last_slot times ≫= λ '(last_slot, infos),
      Ret (last_slot, match res with Ok (Some i) => i :: infos | _ => infos end)
  end.

(** Whatever the clock says, no slot is yielded twice, and a slot is yielded at
    one of its times. *)
Lemma yields_increase last_slot times :
  Forall in_range times →
  ∃ last_slot' infos, yields last_slot times = Ret (last_slot', infos) ∧
    StronglySorted Z.lt (last_slot :: (slot <$> infos)) ∧ last_slot' = default last_slot (last (slot <$> infos)) ∧
    sublist infos (info_at <$> times).
Proof.
  intros Hr. revert last_slot. induction Hr as [|t times Ht Hr IH]; intros last_slot.
  { exists last_slot, []. split; [done|]. split; [repeat constructor|done]. }
  cbn [yields]. rewrite yield_next_slot_spec by done. case_decide as Hle; cbn [mbind outcome_bind].
  - destruct (IH last_slot) as (l' & infos & -> & Hs & Hl & Hsub). exists l', infos. split_and!; [done..|].
    by apply sublist_cons.
  - destruct (IH (slot_of D t)) as (l' & infos & -> & Hs & Hl & Hsub). exists l', (info_at t :: infos).
    split_and!; [done| | |by apply sublist_skip].
    + rewrite fmap_cons. change (slot (info_at t)) with (slot_of D t). constructor; [done|].
      inversion Hs as [|? ? _ Hall]; subst. constructor; [lia|]. eapply Forall_impl; [exact Hall|]. simpl. lia.
    + rewrite Hl, fmap_cons, last_cons. change (slot (info_at t)) with (slot_of D t). by destruct (last _).
Qed.

(** Times in growing slots are all yielded. *)
Lemma yields_all last_slot times :
  Forall in_range times → StronglySorted Z.lt (last_slot :: (slot_of D <$> times)) →
  ∃ last_slot', yields last_slot times = Ret (last_slot', info_at <$> times).
Proof.
  intros Hr. revert last_slot. induction Hr as [|t times Ht Hr IH]; intros last_slot Hs; [by exists last_slot|].
  cbn [yields]. rewrite yield_next_slot_spec by done. rewrite fmap_cons in Hs. apply StronglySorted_cons in Hs as [[Hlt _]%Forall_cons Hs'].
  rewrite decide_False by lia. cbn [mbind outcome_bind].
  destruct (IH (slot_of D t) Hs') as [l' ->]. by exists l'.
Qed.
End slots.

(** *** Turns *)

Lemma round_robin_iff (l : list Public) (s : Slot) i p :
  NoDup l → l !! i = Some p → VerifyInv.round_robin s l = Some p ↔ s `mod` Z.of_nat (length l) = Z.of_nat i.
Proof.
  intros Hnd Hi. pose proof (lookup_lt_Some _ _ _ Hi) as Hlt.
  pose proof (Z.mod_pos_bound s (Z.of_nat (length l)) ltac:(lia)) as Hb. unfold VerifyInv.round_robin. split.
  - intros Hp. pose proof (NoDup_lookup _ _ _ _ Hnd Hp Hi). lia.
  - intros ->. by rewrite Nat2Z.id.
Qed.

(** In as many slots as there are validateers, everyone has exactly one turn. *)
Lemma one_turn (l : list Public) (p : Public) (k : Slot) :
  NoDup l → p ∈ l → exists! s, k ≤ s < k + Z.of_nat (length l) ∧ VerifyInv.round_robin s l = Some p.
Proof.
  intros Hnd [i Hi]%list_elem_of_lookup. pose proof (lookup_lt_Some _ _ _ Hi) as Hlt.
  set (n := Z.of_nat (length l)). assert (0 < n) as Hn by lia.
  pose proof (Z.div_mod k n ltac:(lia)) as Ek. pose proof (Z.mod_pos_bound k n Hn) as Bk.
  set (s := if decide (k `mod` n ≤ Z.of_nat i) then k `div` n * n + Z.of_nat i else k `div` n * n + n + Z.of_nat i).
  assert (k ≤ s < k + n ∧ s `mod` n = Z.of_nat i) as [Hs Hm].
  { unfold s. case_decide; (split; [nia|]).
    - rewrite Z.add_comm, Z.mod_add by lia. apply Z.mod_small. lia.
    - replace (k `div` n * n + n + Z.of_nat i) with (Z.of_nat i + (k `div` n + 1) * n) by lia.
      rewrite Z.mod_add by lia. apply Z.mod_small. lia. }
  exists s. split; [split; [done|]; by apply (round_robin_iff l s i p)|].
  intros s' [Hs' Hp']. apply (round_robin_iff l s' i p Hnd Hi) in Hp'. fold n in Hp'.
  pose proof (Z.div_mod s n ltac:(lia)). pose proof (Z.div_mod s' n ltac:(lia)).
  assert (s `div` n = s' `div` n) by nia. nia.
Qed.

(** *** The share of a slot a proposal may use *)

Lemma mul_f32_0_7_le t : 0 ≤ t → 0 ≤ mul_f32 t F32_0_7 ≤ t ∧ (0 < t → 0 < mul_f32 t F32_0_7).
Proof. intros Ht. pose proof (mul_f32_0_7_bound t Ht). destruct (decide (t = 0)) as [->|]; [by vm_compute|]. lia. Qed.

(** A proposal is to be done before the slot ends, and there is time for one
    exactly when the slot has not ended. *)
Lemma proposing_remaining_bound {PH} (i : SlotInfo PH) now :
  0 ≤ now → 0 < slot_duration i →
  let r := proposing_remaining_duration i now in
  0 ≤ r ≤ mul_f32 (slot_duration i) F32_0_7 ∧ (0 < r ↔ now < ends_at i) ∧ (now < ends_at i → now + r ≤ ends_at i).
Proof.
  intros Hn Hd r. unfold r, proposing_remaining_duration, checked_sub, BLOCK_PROPOSAL_SLOT_PORTION.
  pose proof (mul_f32_0_7_le (slot_duration i) ltac:(lia)) as [Hb Hp].
  destruct (Z.leb_spec now (ends_at i)).
  - pose proof (mul_f32_0_7_le (ends_at i - now) ltac:(lia)). lia.
  - lia.
Qed.

(** *** The windows of the shards *)

Section windows.
Context {PH : Type} (duration_now : nat → Duration).
Implicit Types (i : SlotInfo PH) (shards : list ShardIdentifier).

Definition window i (now remaining : Duration) : SlotInfo PH :=
  MkSlotInfo (slot i) now remaining (now + remaining) (last_imported_integritee_parentchain_head i)
    (maybe_last_imported_target_a_parentchain_head i) (maybe_last_imported_target_b_parentchain_head i).

(** The windows that are opened. *)
Fixpoint windows i (n : nat) shards : list (SlotInfo PH * ShardIdentifier) :=
  match shards with
  | [] => []
  | shard :: shards' =>
      let remaining := shard_remaining_duration i (duration_now n) (length shards) in
      if as_millis remaining =? 0 then [] else (window i (duration_now n) remaining, shard) :: windows i (S n) shards'
  end.

(** A window is in the slot, and leaves the same time for every shard that is left. *)
Lemma shard_remaining_bound i now (k : nat) :
  (0 < k)%nat → Z.of_nat k < 2 ^ 32 → now ≤ ends_at i →
  let r := shard_remaining_duration i now k in
  0 ≤ r ∧ Z.of_nat k * r ≤ ends_at i - now < Z.of_nat k * (r + 2).
Proof.
  intros Hk Hk2 Hn r. unfold r, shard_remaining_duration, duration_difference, checked_sub.
  destruct (Z.leb_spec now (ends_at i)); [|lia]. cbn [mbind option_bind]. rewrite Z.mod_small by lia.
  destruct (checked_div_is_Some (ends_at i - now) (Z.of_nat k)) as [q Hq]; [lia|]. rewrite Hq. cbn [default from_option].
  pose proof (checked_div_bound (ends_at i - now) (Z.of_nat k) q ltac:(lia) ltac:(lia) Hq). unfold id. lia.
Qed.

Lemma shard_remaining_over i now k : ends_at i < now → shard_remaining_duration i now k = 0.
Proof.
  intros Hn. unfold shard_remaining_duration, duration_difference, checked_sub. by destruct (Z.leb_spec now (ends_at i)); [lia|].
Qed.

Lemma as_millis_pos r : as_millis r ≠ 0 → 0 ≤ r → from_millis 1 ≤ r.
Proof.
  intros Hr Hp. destruct (decide (r < from_millis 1)); [|lia]. destruct Hr. apply as_millis_spec.
  unfold from_millis, NANOS_PER_MILLI in *. lia.
Qed.

Lemma windows_in_slot i n shards :
  Z.of_nat (length shards) < 2 ^ 32 →
  Forall (λ x, slot_timestamp x.1 + from_millis 1 ≤ ends_at x.1 ∧ ends_at x.1 ≤ ends_at i ∧ slot x.1 = slot i ∧
    slot_duration x.1 = ends_at x.1 - slot_timestamp x.1) (windows i n shards) ∧ (windows i n shards).*2 `prefix_of` shards.
Proof.
  revert n. induction shards as [|s shards IH]; intros n Hl; [by split; [constructor|]|]. cbn [windows].
  destruct (Z.eqb_spec (as_millis (shard_remaining_duration i (duration_now n) (length (s :: shards)))) 0) as [|Hne].
  { split; [constructor|]. apply prefix_nil. }
  destruct (IH (S n)) as [Hf Hp]; [simpl in *; lia|]. split; [|by apply prefix_cons].
  constructor; [|done]. cbn [window slot_timestamp ends_at slot slot_duration fst].
  destruct (decide (ends_at i < duration_now n)) as [Hlt|Hge]; [by rewrite shard_remaining_over in Hne|].
  pose proof (shard_remaining_bound i (duration_now n) (length (s :: shards)) ltac:(simpl; lia) Hl ltac:(lia)) as [Hr Hb].
  pose proof (as_millis_pos _ Hne Hr). split; [lia|]. split; [|lia]. cbn [length] in *. nia.
Qed.

(** When no shard takes longer than its window and there is enough time, every
    shard gets a window. *)
Lemma windows_all i n shards :
  Z.of_nat (length shards) < 2 ^ 32 →
  Z.of_nat (length shards) * (from_millis 1 + 2) ≤ ends_at i - duration_now n →
  (∀ k, (k < length shards)%nat → duration_now (S (n + k)) ≤
    duration_now (n + k) + shard_remaining_duration i (duration_now (n + k)) (length shards - k)) →
  (windows i n shards).*2 = shards.
Proof.
  revert n. induction shards as [|s shards IH]; intros n Hl Ht Hk; [done|]. cbn [windows].
  pose proof (shard_remaining_bound i (duration_now n) (length (s :: shards)) ltac:(simpl; lia) Hl) as Hb.
  pose proof (Hk 0%nat ltac:(simpl; lia)) as Hk0. rewrite Nat.add_0_r, Nat.sub_0_r in Hk0.
  assert (0 < from_millis 1) as Hms by done. cbn [length] in *.
  specialize (Hb ltac:(nia)) as [Hr Hb]. set (r := shard_remaining_duration _ _ _) in *.
  assert (from_millis 1 ≤ r) as Hge by nia.
  destruct (Z.eqb_spec (as_millis r) 0) as [E|_].
  { apply as_millis_spec in E. unfold from_millis, NANOS_PER_MILLI in *. lia. }
  rewrite fmap_cons. cbn [snd]. f_equal. apply IH; [lia|nia|].
  intros k Hlt. specialize (Hk (S k) ltac:(lia)). by rewrite <-!Nat.add_succ_comm in Hk.
Qed.

(** The worker runs in the windows. *)
Context {W Res : Type} `{SimpleSlotWorker W PH Res}.

Fixpoint run_windows (w : W) (results : list Res) (l : list (SlotInfo PH * ShardIdentifier)) : outcome (W * list Res) :=
  match l with
  | [] => Ret (w, results)
  | (i, shard) :: l =>
      worker_on_slot w i shard ≫= λ '(w, res),
      run_windows w (match res with Some r => results ++ [r] | None => results end) l
  end.

Lemma on_slot_from_spec w i n results shards :
  Z.of_nat (length shards) < 2 ^ 32 → ends_at i ≤ duration_max →
  Slots.on_slot_from duration_now w i n results shards = run_windows w results (windows i n shards).
Proof.
  intros Hl Hd. revert w n results Hl. induction shards as [|s shards IH]; intros w n results Hl; [done|].
  cbn [Slots.on_slot_from windows].
  pose proof (windows_in_slot i n (s :: shards) Hl) as [Hw _]. cbn [windows] in Hw.
  destruct (Z.eqb_spec (as_millis (shard_remaining_duration i (duration_now n) (length (s :: shards)))) 0); [done|].
  apply Forall_cons in Hw as [(_ & He & _) _]. cbn [window ends_at fst] in He.
  unfold shard_slot, duration_add. destruct (Z.leb_spec (duration_now n +
    shard_remaining_duration i (duration_now n) (length (s :: shards))) duration_max); [|lia].
  cbn [mbind outcome_bind run_windows]. fold (window i (duration_now n) (shard_remaining_duration i (duration_now n) (length (s :: shards)))).
  destruct (worker_on_slot w _ s) as [[w1 res]| |]; [|done..]. cbn [mbind outcome_bind]. apply IH. simpl in *. lia.
Qed.
End windows.

Lemma as_millis_le t n : t ≤ from_millis n → as_millis t ≤ n.
Proof. intros Ht%as_millis_mono. by rewrite as_millis_from_millis in Ht. Qed.

Lemma as_millis_ge t n : from_millis n ≤ t → n ≤ as_millis t.
Proof. intros Ht%as_millis_mono. by rewrite as_millis_from_millis in Ht. Qed.

(** The window of a shard is in its slot. *)
Definition window_of_slot {PH} (i : SlotInfo PH) : Prop :=
  0 ≤ slot i ∧ slot i * 1000 ≤ as_millis (slot_timestamp i) ≤ as_millis (ends_at i) ∧
   as_millis (ends_at i) ≤ (slot i + 1) * 1000 ≤ u64_max.

Lemma within_slot {PH} (i : SlotInfo PH) t :
  window_of_slot i → timestamp_within_slot i t = true → slot i * 1000 ≤ t ≤ (slot i + 1) * 1000.
Proof.
  intros (Hs & Hts & He) Hw. unfold timestamp_within_slot in Hw.
  apply andb_true_iff in Hw as [Ha%Z.leb_le Hb%Z.leb_le]. rewrite !u64_wrap_small in Ha, Hb by (unfold is_u64; lia). lia.
Qed.
End SlotsInv.
