(* ===== verification/Aura.v ===== *)
(** The Aura worker (src/sidechain/consensus/aura/src/lib.rs) with the generic slot
    worker it instantiates ([SimpleSlotWorker::on_slot] of
    src/sidechain/consensus/slots/src/lib.rs): in the slot of a validateer the
    waiting parentchain blocks are imported and a block is proposed. *)

From stdpp Require Import base gmap fin_maps fin_map_dom numbers strings list.
From S2P Require Import Prelude Collections PoolTypes StfTypes SidechainDb Externalities SidechainState SidechainBlocks.
From S2P Require Import Dispatcher StateFileIo StateHandler StfExecutor Consensus BlockComposer ParentchainImport BlockImport.
From S2P Require Import BlockImportInv ProposalInv Durations Slots.

Import Ext(SgxExternalities).
Import Sc Slots.
Open Scope worker_scope.

Module Aura.
Import Dispatch PcImport ScImport Composer.

Inductive SlotClaimStrategy := Always | RoundRobin.

#[export] Instance claim_strategy_eq_dec : EqDecision SlotClaimStrategy.
Proof. solve_decision. Defined.

(** What is read from the clock and asked from the enclave in one slot. *)
Record SlotReadings (Mr : Type) := MkReadings {
  rd_remaining : Duration;
  rd_state : Duration;
  rd_block : Duration;
  rd_ban : Z;
  rd_calls : nat → Duration;
  rd_mrenclave : nat → result Mr Z;
}.
Arguments MkReadings {Mr} _ _ _ _ _ _.
Arguments rd_remaining {Mr} _.
Arguments rd_state {Mr} _.
Arguments rd_block {Mr} _.
Arguments rd_ban {Mr} _.
Arguments rd_calls {Mr} _ _.
Arguments rd_mrenclave {Mr} _ _.

(** [SlotResult]. *)
Record SlotResult := MkSlotResult {
  sr_block : SignedBlock;
  sr_parentchain_effects : list ParentchainCall;
}.

(** The queues of a target parentchain. *)
Record TargetQueues (PB : Type) := MkTarget {
  tq_blocks : list PB;
  tq_events : list RawEventsPerBlock;
}.
Arguments MkTarget {PB} _ _.
Arguments tq_blocks {PB} _.
Arguments tq_events {PB} _.

Record AuraWorld (E PB S : Type) := MkAuraWorld {
  main : World E PB S;
  target_a : option (TargetQueues PB);
  target_b : option (TargetQueues PB);
}.
Arguments MkAuraWorld {E PB S} _ _ _.
Arguments main {E PB S} _.
Arguments target_a {E PB S} _.
Arguments target_b {E PB S} _.

Section aura.
Context `{Encode SgxExternalitiesType} `{Blake2} `{EncodeAppend} `{Twox}.
Context `{Encode Z, Decode Z} `{Encode N, Decode N}.
Context `{Encode SidechainHeader} `{Encode BlockData} `{Encode Block, Decode Block} `{Encode StateUpdate}.
Context {Pair Key PH PB V X W P S TCS G Mr : Type} `{SignatureScheme Pair} `{StateCrypto Key}.
Context `{ParentchainHeader PH} `{ParentchainBlock PB PH} `{Stf TCS Mr PH}.
Context `{HandleState W} `{TopPool P TCS G} `{SidechainOCall S}.
Context (top_hash : StfTrustedOperation TCS G → TxHash).
(** The importers of the three parentchains. *)
Context `{ImportParentchainBlocks (Env V X W P) PB ImporterError}.
Abbreviation Importer := (Env V X W P → list PB → list RawEventsPerBlock → outcome (Env V X W P * result unit ImporterError)).
Context (import_a import_b : Importer).
Context (shard_status : PH → ShardIdentifier → result (option (list Public)) string).
Context (signer : Pair) (retrieve_key : result Key string) (claim_strategy : SlotClaimStrategy).
Abbreviation World' := (World (Env V X W P) PB S).
Abbreviation AuraWorld' := (AuraWorld (Env V X W P) PB S).
Implicit Types (a : AuraWorld') (w : World') (s : ShardIdentifier).

Definition epoch_data (header : PH) s : result (list Public) ConsensusError :=
  Validateers.authorities shard_status header s.

Definition claim_slot (slot : Slot) (epoch_data : list Public) : outcome (option Public) :=
  Verify.slot_author slot epoch_data ≫= λ expected,
  Ret match expected with
      | None => None
      | Some expected_author =>
          if decide (expected_author = public signer) then Some (public signer)
          else if decide (claim_strategy = Always) then Some (public signer)
          else None
      end.

(** *** The parentchains *)

Definition is_block (parentchain_header_hash : N) (b : PB) : bool :=
  bool_decide (pc_hash (pb_header b) = parentchain_header_hash).

Definition header_of (b : option PB) : option PH := pb_header <$> b.

Definition peek_latest_integritee_parentchain_header w : option PH := header_of (peek_latest (trigger w)).

(** No queues mean that no target is assigned. *)
Definition peek_latest_target_parentchain_header (t : option (TargetQueues PB)) : result (option PH) ConsensusError :=
  match t with
  | None => Err (CsOther (CauseText "no target assigned"))
  | Some t => Ok (header_of (Queue.peek_last (tq_blocks t)))
  end.

Definition import_integritee_parentchain_blocks_until w (parentchain_header_hash : N) :
    outcome (World' * result (option PH) ConsensusError) :=
  import_until (IE := ImporterError) (trigger w) (is_block parentchain_header_hash) ≫= λ '(d, res),
  Ret (set_trigger w d,
       match res with Ok b => Ok (header_of b) | Err _ => Err (CsOther (CauseText "parentchain block import")) end).

(** The importer of a target works on the same states and top pool. *)
Definition import_target_parentchain_blocks_until (import_t : Importer)
    w (t : option (TargetQueues PB)) (parentchain_header_hash : N) :
    outcome (World' * option (TargetQueues PB) * result (option PH) ConsensusError) :=
  match t with
  | None => Ret (w, t, Err (CsOther (CauseText "no target assigned")))
  | Some t =>
      import_until (IE := ImporterError) (H := import_t) (MkTriggered (env w) (tq_blocks t) (tq_events t)) (is_block parentchain_header_hash)
        ≫= λ '(d, res),
      Ret (set_env w (block_importer d), Some (MkTarget (import_queue d) (events_queue d)),
           match res with Ok b => Ok (header_of b) | Err _ => Err (CsOther (CauseText "parentchain block import")) end)
  end.

(** An error counts as no target. *)
Definition latest_target_header (t : option (TargetQueues PB)) (last_imported : option PH) : option PH :=
  match peek_latest_target_parentchain_header t with
  | Ok (Some peeked_header) => Some peeked_header
  | Ok None => last_imported
  | Err _ => None
  end.

(** What could not be imported is logged. *)
Definition import_target (import_t : Importer)
    w (t : option (TargetQueues PB)) (maybe_header : option PH) : outcome (World' * option (TargetQueues PB)) :=
  match maybe_header with
  | None => Ret (w, t)
  | Some header =>
      import_target_parentchain_blocks_until import_t w t (pc_hash header) ≫= λ '(w, t, _), Ret (w, t)
  end.

Definition import_parentchains a (latest : PH) (latest_a latest_b : option PH) : outcome AuraWorld' :=
  import_integritee_parentchain_blocks_until (main a) (pc_hash latest) ≫= λ '(w, _),
  import_target import_a w (target_a a) latest_a ≫= λ '(w, ta),
  import_target import_b w (target_b a) latest_b ≫= λ '(w, tb),
  Ret (MkAuraWorld w ta tb).

(** *** A slot *)

Definition propose_block (r : SlotReadings Mr) w (header : PH) s (max_duration : Duration) :
    outcome (World' * result Proposal ConsensusError) :=
  propose signer retrieve_key top_hash (rd_calls r) (rd_mrenclave r) (rd_state r) (rd_block r) (rd_ban r)
    (states (env w)) (top_pool (env w)) header s max_duration ≫= λ '(p, res),
  Ret (set_pool w p, res).

Definition on_slot (r : SlotReadings Mr) a (slot_info : SlotInfo PH) s : outcome (AuraWorld' * option SlotResult) :=
  let remaining_duration := proposing_remaining_duration slot_info (rd_remaining r) in
  if decide (remaining_duration = 0%Z) then Ret (a, None)
  else
    let latest := default (last_imported_integritee_parentchain_head slot_info)
      (peek_latest_integritee_parentchain_header (main a)) in
    let latest_a := latest_target_header (target_a a) (maybe_last_imported_target_a_parentchain_head slot_info) in
    let latest_b := latest_target_header (target_b a) (maybe_last_imported_target_b_parentchain_head slot_info) in
    match epoch_data latest s with
    | Err _ => Ret (a, None)
    | Ok epoch =>
        claim_slot (slot slot_info) epoch ≫= λ claim,
        match claim with
        | None => Ret (a, None)
        | Some _ =>
            import_parentchains a latest latest_a latest_b ≫= λ a,
            propose_block r (main a) latest s remaining_duration ≫= λ '(w, res),
            let a := MkAuraWorld w (target_a a) (target_b a) in
            match res with
            | Err _ => Ret (a, None)
            | Ok proposing =>
                if timestamp_within_slot slot_info (timestamp (block_data (block (proposed_block proposing))))
                then Ret (a, Some (MkSlotResult (proposed_block proposing) (parentchain_effects proposing)))
                else Ret (a, None)
            end
        end
    end.
End aura.
End Aura.

(** What an Aura worker does in a slot: it returns, it produces a block exactly
    when the slot is its own and there is time, and the block is the successor of
    the last block of the shard. *)

Import Ext(SgxExternalities).
Import Sc Slots.
Open Scope worker_scope.

Module AuraInv.
Import Dispatch PcImport ScImport ImportInv ProposeInv Aura.

Section inv.
Context `{Encode SgxExternalitiesType} `{Blake2} `{EncodeAppend} `{Twox} `{!ScStateInv.TwoxLaws}.
Context `{Encode Z, Decode Z} `{!Codec Z} `{Encode N, Decode N}.
Context `{Encode SidechainHeader} `{Encode BlockData} `{Encode Block, Decode Block} `{!Codec Block}.
Context `{Encode StateUpdate, Decode StateUpdate} `{!Codec StateUpdate}.
Context {TCS G Mr PH PB V X W P S Pair Key : Type} `{!Stf TCS Mr PH} `{!StfLaws TCS Mr PH} `{!StfSystem TCS Mr PH}.
Context `{SignatureScheme Pair} `{!SignatureLaws Pair} `{StateCrypto Key} `{!StateCryptoLaws Key}.
Context `{ParentchainHeader PH} `{ParentchainBlock PB PH}.
Context {initialize : result SgxExternalities StateHandlerError} {top_hash : StfTrustedOperation TCS G → TxHash}.
Context `{HandleState W} `{!HandleStateLaws W initialize} `{TopPool P TCS G} `{!TopPoolLaws P TCS G top_hash}.
Context `{importer : ImportParentchainBlocks (Env V X W P) PB ImporterError} `{!SafeImporter (PB := PB) (V := V) (X := X) initialize top_hash}.
Abbreviation Importer := (Env V X W P → list PB → list RawEventsPerBlock → outcome (Env V X W P * result unit ImporterError)).
Context (import_a import_b : Importer).
Context (safe_a : SafeImporter (H := import_a) initialize top_hash) (safe_b : SafeImporter (H := import_b) initialize top_hash).
Context (shard_status : PH → ShardIdentifier → result (option (list Public)) string).
Context (signer : Pair) (key : Key).
Abbreviation World' := (World (Env V X W P) PB S).
Abbreviation AuraWorld' := (AuraWorld (Env V X W P) PB S).
Implicit Types (a : AuraWorld') (w : World') (s : ShardIdentifier).

Lemma claim_slot_spec slot l :
  claim_slot signer RoundRobin slot l =
    Ret (if decide (VerifyInv.round_robin slot l = Some (public signer)) then Some (public signer) else None).
Proof.
  unfold claim_slot. rewrite VerifyInv.slot_author_spec. cbn [mbind outcome_bind]. f_equal.
  destruct (VerifyInv.round_robin slot l) as [p|]; [|by rewrite decide_False].
  destruct (decide (p = public signer)) as [->|Hne]; [by rewrite decide_True|]. rewrite (decide_False (P := RoundRobin = Always)) by done.
  rewrite decide_False; [done|]. by intros [= ->].
Qed.

(** The chain of every shard is the same. *)
Record same_chains w w' : Prop := {
  sc_ok : w_ok w';
  sc_dom : dom (view w') = dom (view w);
  sc_last : ∀ s, last_of (env w') s = last_of (env w) s;
  sc_number : ∀ s, number_entry (env w') s = number_entry (env w) s;
  sc_ocall : ocall w' = ocall w;
}.

Lemma same_chains_refl w : w_ok w → same_chains w w.
Proof. by split. Qed.

Lemma same_chains_trans w1 w2 w3 : same_chains w1 w2 → same_chains w2 w3 → same_chains w1 w3.
Proof. intros [O1 D1 L1 N1 C1] [O2 D2 L2 N2 C2]. split; [done|congruence|..|congruence]; intros s; by rewrite ?L2, ?N2. Qed.

(** The environment of a triggered import. *)
Lemma import_until_env (imp : Importer) `{!SafeImporter (H := imp) initialize top_hash} (e : Env V X W P) blocks events (f : PB → bool) :
  env_ok e →
  ∃ d res, import_until (IE := ImporterError) (H := imp) (MkTriggered e blocks events) f = Ret (d, res) ∧
    env_ok (block_importer d) ∧ dom (hs_view (states (block_importer d))) = dom (hs_view (states e)) ∧
    (∀ s, last_of (block_importer d) s = last_of e s) ∧ ∀ s, number_entry (block_importer d) s = number_entry e s.
Proof.
  intros Hok. unfold import_until. cbn [import_queue events_queue block_importer].
  destruct (Queue.pop_until _ _) as [q bs]. destruct (Queue.pop_from_front_until _ _) as [eq [evs|err]].
  - unfold run_import. cbn [block_importer].
    destruct (import_safe (H := imp) (PB := PB) e bs evs Hok) as (e' & res & He & Hok' & Hdom & Hlast & Hnum).
    rewrite He. cbn [mbind outcome_bind]. destruct res as [[]|err]; eexists _, _; (split; [done|]); done.
  - eexists _, _. done.
Qed.

Lemma import_target_spec (imp : Importer) `{!SafeImporter (H := imp) initialize top_hash} w t h :
  w_ok w → ∃ w' t', import_target imp w t h = Ret (w', t') ∧ same_chains w w'.
Proof.
  intros Hok. unfold import_target. destruct h as [h|]; [|by exists w, t].
  unfold import_target_parentchain_blocks_until. destruct t as [t|]; [|by exists w, None].
  destruct (import_until_env imp (env w) (tq_blocks t) (tq_events t) (is_block (pc_hash h)) Hok)
    as (d & res & -> & Hok' & Hd & Hl & Hn). cbn [mbind outcome_bind].
  eexists _, _. split; [done|]. by split.
Qed.

Lemma import_parentchains_spec a latest latest_a latest_b :
  w_ok (main a) →
  ∃ a', import_parentchains import_a import_b a latest latest_a latest_b = Ret a' ∧ same_chains (main a) (main a').
Proof.
  intros Hok. unfold import_parentchains, import_integritee_parentchain_blocks_until.
  destruct (import_until_env importer (env (main a)) (import_queue (trigger (main a))) (events_queue (trigger (main a)))
    (is_block (pc_hash latest)) Hok) as (d & res & Hi & Hok1 & Hd & Hl & Hn).
  unfold env in Hi at 1. destruct (trigger (main a)) as [e q ev] eqn:Htr. cbn [block_importer import_queue events_queue] in Hi.
  rewrite Hi. cbn [mbind outcome_bind].
  assert (same_chains (main a) (set_trigger (main a) d)) as Hs1.
  { split; [done|..]; unfold view, env in *; rewrite ?Htr in *; done. }
  destruct (import_target_spec import_a _ (target_a a) latest_a (sc_ok _ _ Hs1)) as (w2 & ta & -> & Hs2).
  cbn [mbind outcome_bind].
  destruct (import_target_spec import_b _ (target_b a) latest_b (sc_ok _ _ Hs2)) as (w3 & tb & -> & Hs3).
  cbn [mbind outcome_bind]. eexists. split; [done|]. eapply same_chains_trans; [|exact Hs3]. by eapply same_chains_trans.
Qed.

(** *** A slot *)

Abbreviation aura_on_slot := (Aura.on_slot top_hash import_a import_b shard_status signer (Ok key) RoundRobin).

(** The parentchain block a slot works on. *)
Definition latest_header a (i : SlotInfo PH) : PH :=
  default (last_imported_integritee_parentchain_head i) (peek_latest_integritee_parentchain_header (main a)).

(** The worker is the author of the slot. *)
Definition in_turn a (i : SlotInfo PH) s : Prop :=
  ∃ l, Validateers.current_validateers shard_status (latest_header a i) s = Ok l ∧
    VerifyInv.round_robin (slot i) l = Some (public signer).

(** The slot is the one of the worker, and there is time for a block. *)
Record own_slot (r : SlotReadings Mr) a (i : SlotInfo PH) s : Prop := {
  os_time : proposing_remaining_duration i (rd_remaining r) ≠ 0%Z;
  os_turn : in_turn a i s;
  os_within : timestamp_within_slot i (millis_u64 (rd_block r)) = true;
}.

(** A shard on which blocks can be produced. *)
Record productive w s : Prop := {
  pr_state : ∃ st, view w !! s = Some st ∧ number_ok st ∧
    (0 ≤ number_of (ScState.get_last_block (SidechainBlock := Block) st) < u64_max)%Z;
}.

Lemma number_ok_same (st st' : SgxExternalities) :
  Ext.get st' (storage_value_key "System" "Number") = Ext.get st (storage_value_key "System" "Number") →
  ScState.get_last_block (SidechainBlock := Block) st' = ScState.get_last_block st → number_ok st → number_ok st'.
Proof. intros Hn Hl. unfold number_ok, ScState.get_block_number, ScState.get_with_name. by rewrite Hn, Hl. Qed.

Lemma productive_same w w' s : same_chains w w' → productive w s → productive w' s.
Proof.
  intros [_ Hd Hl Hn _] [(st & Hs & Hno & Hb)].
  assert (is_Some (view w' !! s)) as [st' Hs'] by (apply elem_of_dom; rewrite Hd; by apply elem_of_dom_2 in Hs).
  specialize (Hl s). specialize (Hn s). unfold last_of, number_entry in *. unfold view in *. rewrite Hs, Hs' in *. simpl in *.
  split. exists st'. split; [done|]. rewrite Hl. split; [by eapply number_ok_same|done].
Qed.

(** The block of a slot: the proposal on the state the parentchain imports leave. *)
Definition produced (r : SlotReadings Mr) a (i : SlotInfo PH) s (res : SlotResult) : Prop :=
  ∃ before after hashes, composed signer key (rd_block r) (latest_header a i) hashes s before after (sr_block res) ∧
    ScState.get_last_block before = last_of (env (main a)) s.

(** A slot in which nothing happens. *)
Lemma on_slot_none r a i s :
  w_ok (main a) → ¬ own_slot r a i s →
  ∃ a' res, Ret (a, None) = Ret (a', res) ∧ same_chains (main a) (main a') ∧
    (∀ x, res = Some x → timestamp_within_slot i (timestamp (block_data (block (sr_block x)))) = true ∧ in_turn a i s) ∧
    (productive (main a) s → (is_Some res ↔ own_slot r a i s) ∧ ∀ x, res = Some x → produced r a i s x).
Proof.
  intros Hok Hno. exists a, None. split; [done|]. split; [by apply same_chains_refl|]. split; [done|].
  intros _. split; [|done]. split; [by intros []|done].
Qed.

Lemma proposal_of_productive r a s latest remaining p' res :
  hs_ok (states (env (main a))) → tp_ok (top_pool (env (main a))) → (rd_calls r 0 + remaining ≤ duration_max)%Z →
  Composer.propose signer (Ok key) top_hash (rd_calls r) (rd_mrenclave r) (rd_state r) (rd_block r) (rd_ban r)
    (states (env (main a))) (top_pool (env (main a))) latest s remaining = Ret (p', res) →
  productive (main a) s →
  ∃ p before after hashes, res = Ok p ∧ composed signer key (rd_block r) latest hashes s before after (Composer.proposed_block p) ∧
    ScState.get_last_block before = last_of (env (main a)) s.
Proof.
  intros Hhs Htp Hd Hprop [(st & Hst & Hno & Hb)].
  destruct (propose_spec signer key (rd_calls r) (rd_mrenclave r) (rd_state r) (rd_block r) (rd_ban r) _ _ latest s remaining st
    Hhs Htp Hst Hno Hb Hd) as (p1 & sb & Hp1 & Hco & _). rewrite Hp1 in Hprop. injection Hprop as <- <-.
  eexists _, _, _, _. split; [done|]. split; [exact Hco|]. unfold last_of. unfold view in Hst. by rewrite Hst.
Qed.

Lemma on_slot_spec r a i s :
  w_ok (main a) → (rd_calls r 0 + proposing_remaining_duration i (rd_remaining r) ≤ duration_max)%Z →
  ∃ a' res, aura_on_slot r a i s = Ret (a', res) ∧ same_chains (main a) (main a') ∧
    (∀ x, res = Some x → timestamp_within_slot i (timestamp (block_data (block (sr_block x)))) = true ∧ in_turn a i s) ∧
    (productive (main a) s → (is_Some res ↔ own_slot r a i s) ∧ ∀ x, res = Some x → produced r a i s x).
Proof.
  intros Hok Hd. unfold Aura.on_slot. fold (latest_header a i).
  set (remaining := proposing_remaining_duration i (rd_remaining r)) in *. set (latest := latest_header a i).
  case_decide as Hrem.
  { apply on_slot_none; [done|]. by intros [? _ _]. }
  unfold epoch_data, Validateers.authorities. destruct (Validateers.current_validateers shard_status latest s) as [l|err] eqn:Hv.
  2: { apply on_slot_none; [done|]. intros [_ (l & Hl & _) _]. fold latest in Hl. congruence. }
  rewrite claim_slot_spec. cbn [mbind outcome_bind]. case_decide as Hturn.
  2: { apply on_slot_none; [done|]. intros [_ (l' & Hl & ?) _]. fold latest in Hl. congruence. }
  destruct (import_parentchains_spec a latest
    (latest_target_header (target_a a) (maybe_last_imported_target_a_parentchain_head i))
    (latest_target_header (target_b a) (maybe_last_imported_target_b_parentchain_head i)) Hok) as (a1 & -> & Hsc).
  cbn [mbind outcome_bind]. unfold propose_block. destruct (sc_ok _ _ Hsc) as [Hhs Htp].
  destruct (propose_returns signer key (rd_calls r) (rd_mrenclave r) (rd_state r) (rd_block r) (rd_ban r) _ _ latest s remaining
    Hhs Htp Hd) as (p' & res & Hprop & Htp'). rewrite Hprop. cbn [mbind outcome_bind].
  assert (same_chains (main a) (set_pool (main a1) p')) as Hsc' by (destruct Hsc as [_ Hd1 Hl1 Hn1 Ho1]; by split).
  pose proof (λ Hpr, proposal_of_productive r a1 s latest remaining p' res Hhs Htp Hd Hprop (productive_same _ _ _ Hsc Hpr)) as Hpr.
  destruct res as [[sb calls]|err]; cbn [Composer.proposed_block Composer.parentchain_effects].
  2: { eexists _, _. split; [done|]. split; [done|]. split; [done|]. intros Hp. by destruct (Hpr Hp) as (? & ? & ? & ? & [=] & _). }
  destruct (timestamp_within_slot i _) eqn:Hw; eexists _, _; (split; [done|]); (split; [done|]).
  - split; [intros x [= <-]; split; [done|by exists l]|].
    intros Hp. destruct (Hpr Hp) as (sb' & before & after & hashes & [= <-] & Hco & Hlast).
    pose proof (co_time _ _ _ _ _ _ _ _ _ Hco) as Ht. cbn [Composer.proposed_block] in Ht. split.
    + split; [|by eauto]. intros _. split; [done|by exists l|by rewrite <-Ht].
    + intros x [= <-]. exists before, after, hashes. split; [exact Hco|]. by rewrite Hlast, (sc_last _ _ Hsc).
  - split; [done|]. intros Hp. destruct (Hpr Hp) as (sb' & before & after & hashes & [= <-] & Hco & Hlast).
    pose proof (co_time _ _ _ _ _ _ _ _ _ Hco) as Ht. cbn [Composer.proposed_block] in Ht. rewrite Ht in Hw. split; [|done]. split; [by intros []|]. intros [_ _ ?]. congruence.
Qed.
End inv.
End AuraInv.
