(* ===== verification/AuraProps.v ===== *)
(** The properties of the slots and of the Aura worker. *)

From stdpp Require Import base gmap fin_maps numbers list sorting strings.
From S2P Require Import Prelude Collections PoolTypes Externalities SidechainDb Durations StfTypes SidechainState SidechainBlocks.
From S2P Require Import StateFileIo StateHandler StfExecutor Dispatcher Consensus BlockComposer.
From S2P Require Import ParentchainImport BlockImport BlockImportInv ProposalInv Slots Aura.
From S2P Require Import AuthorProps ConsensusSample.

Import Ext(SgxExternalities).
Import Sc Slots SlotsInv.
Open Scope worker_scope.

(** ** Slots *)

Section slots.
Context {PH : Type} (header : PH) (header_a header_b : option PH).

(** No slot is yielded twice: whatever the readings of the clock are, forwards
    or backwards, the yielded slots grow, and each of them contains the time at
    which it is yielded. *)
Theorem slots_are_yielded_once (D : Z) last_slot times :
  (0 < D)%Z → Forall (in_range D) times →
  ∃ last_slot' infos, yields D header header_a header_b last_slot times = Ret (last_slot', infos) ∧
    StronglySorted Z.lt (last_slot :: (slot <$> infos)) ∧
    Forall (λ i, slot_timestamp i ∈ times ∧ from_millis (slot i * D) ≤ slot_timestamp i < ends_at i ∧
      ends_at i = from_millis ((slot i + 1) * D))%Z infos.
Proof.
  intros HD Hr. destruct (yields_increase D HD header header_a header_b last_slot times Hr) as (l & infos & Hy & Hs & _ & Hsub).
  exists l, infos. split; [done|]. split; [done|]. apply Forall_forall. intros i Hi.
  eapply elem_of_sublist in Hi as (t & -> & Ht)%list_elem_of_fmap; [|exact Hsub]. split; [done|].
  pose proof (proj1 (slot_of_iff D t _ HD) eq_refl). done.
Qed.

Context {Pair : Type} `{SignatureScheme Pair}.

(** C11: Every validateer gets its turn.  A worker that is woken by the stream of
    slots and is done before a slot is over is woken in every slot, and every slot
    is yielded to it.  Of any [n] slots in a row, where [n] is the number of
    validateers, it claims exactly one, and no other validateer claims that one. *)
Theorem every_validateer_gets_its_turn (D now : Z) rounds (l : list Public) (signer : Pair) last_slot (j : nat) :
  (0 < D)%Z → (0 ≤ now)%Z → Forall (punctual D) rounds →
  let times := start_slot_worker (new_stream (from_millis D)) now rounds in
  Forall (in_range D) times → (last_slot ≤ slot_of D now)%Z →
  NoDup l → public signer ∈ l → (j + length l ≤ length rounds)%nat →
  (∃ last_slot', yields D header header_a header_b last_slot times = Ret (last_slot', info_at D header header_a header_b <$> times)) ∧
  ∃ k t, (j ≤ k < j + length l)%nat ∧ times !! k = Some t ∧
    (∀ k' t', (j ≤ k' < j + length l)%nat → times !! k' = Some t' →
      Aura.claim_slot signer Aura.RoundRobin (slot_of D t') l = Ret (if decide (k' = k) then Some (public signer) else None)) ∧
    ∀ other : Pair, public other ≠ public signer → Aura.claim_slot other Aura.RoundRobin (slot_of D t) l = Ret None.
Proof.
  intros HD Hnow Hp times Hr Hlast Hnd Hin Hj.
  assert (D ≤ u64_max)%Z as HD'.
  { destruct rounds as [|x rounds]; [destruct l; [by apply not_elem_of_nil in Hin|simpl in Hj; lia]|].
    destruct x. unfold times in Hr. cbn [start_slot_worker next_slot] in Hr.
    apply Forall_cons in Hr as [Hr _]. by destruct (in_range_slot D HD _ Hr) as (_ & _ & ?). }
  pose proof (slot_of_nonneg D HD now Hnow) as Hs0.
  pose proof (λ k t, worker_slot_at D HD now rounds k t Hnow HD' Hp) as Hslot. fold times in Hslot.
  pose proof (worker_length (new_stream (from_millis D)) now rounds) as Hlen. fold times in Hlen.
  split.
  - apply yields_all; [done|done|]. unfold times. rewrite worker_slots by done. apply StronglySorted_cons. split; [|apply seq_sorted].
    apply Forall_fmap, Forall_seq. simpl. lia.
  - destruct (one_turn l (public signer) (slot_of D now + 1 + Z.of_nat j) Hnd Hin) as (s & (Hs & Hturn) & Huniq).
    exists (Z.to_nat (s - slot_of D now - 1)). destruct (lookup_lt_is_Some_2 times (Z.to_nat (s - slot_of D now - 1))) as [t Ht]; [lia|].
    exists t. split; [lia|]. split; [done|]. split.
    + intros k' t' Hk' Ht'. rewrite AuraInv.claim_slot_spec. rewrite (Hslot _ _ Ht').
      f_equal. case_decide as Hrr; case_decide as Heq; [done| |subst k'|done].
      * assert (s = slot_of D now + 1 + Z.of_nat k')%Z; [apply Huniq; split; [lia|exact Hrr]|lia].
      * destruct Hrr. by replace (slot_of D now + 1 + Z.of_nat (Z.to_nat (s - slot_of D now - 1)))%Z with s by lia.
    + intros other Hne. rewrite AuraInv.claim_slot_spec, (Hslot _ _ Ht).
      replace (slot_of D now + 1 + Z.of_nat (Z.to_nat (s - slot_of D now - 1)))%Z with s by lia.
      rewrite Hturn, decide_False; [done|]. congruence.
Qed.
End slots.

(** ** The scheduler *)

Section scheduler.
Context {W PH Res : Type} `{SimpleSlotWorker W PH Res} (duration_now : nat → Duration).

(** C35: The scheduler shares a slot among its shards.  It runs the worker in
    windows, one per shard in the order of the shards, each at least a millisecond
    long and none beyond the end of the slot; a proposal that is started in a
    window with the time it is granted ends before the window does.  When no shard
    takes longer than its window and the slot has a millisecond for each of them,
    every shard gets a window. *)
Theorem scheduler_shares_the_slot (w : W) (i : SlotInfo PH) (shards : list ShardIdentifier) :
  (Z.of_nat (length shards) < 2 ^ 32)%Z → (ends_at i ≤ duration_max)%Z → (∀ n, 0 ≤ duration_now n)%Z →
  let ws := windows duration_now i 0 shards in
  Slots.on_slot duration_now w i shards = run_windows w [] ws ∧ ws.*2 `prefix_of` shards ∧
  Forall (λ x, slot x.1 = slot i ∧ slot_timestamp x.1 + from_millis 1 ≤ ends_at x.1 ∧ ends_at x.1 ≤ ends_at i ∧
    ∀ now, slot_timestamp x.1 ≤ now < ends_at x.1 →
      0 < proposing_remaining_duration x.1 now ∧ now + proposing_remaining_duration x.1 now ≤ ends_at x.1)%Z ws ∧
  ((Z.of_nat (length shards) * (from_millis 1 + 2) ≤ ends_at i - duration_now 0)%Z →
   (∀ k, (k < length shards)%nat → duration_now (S k) ≤
     duration_now k + shard_remaining_duration i (duration_now k) (length shards - k))%Z → ws.*2 = shards).
Proof.
  intros Hl Hd Hnow ws. pose proof (windows_in_slot duration_now i 0 shards Hl) as [Hin Hpre]. split_and!.
  - by apply on_slot_from_spec.
  - done.
  - assert (Forall (λ x, 0 ≤ slot_timestamp x.1)%Z ws) as Hpos.
    { unfold ws. clear Hin Hpre ws. generalize 0%nat. induction shards as [|s shards IH]; intros n; [constructor|]. cbn [windows].
      destruct (_ =? _)%Z; [constructor|]. constructor; [apply Hnow|]. apply IH. simpl in Hl. lia. }
    apply Forall_forall. intros x Hx. rewrite Forall_forall in Hin, Hpos.
    destruct (Hin x Hx) as (Hms & He & Hs & Hdur). specialize (Hpos x Hx). simpl in Hpos. split_and!; [done..|].
    intros now [Hn1 Hn2]. assert (0 < from_millis 1)%Z by done.
    destruct (proposing_remaining_bound x.1 now) as (_ & [_ Hp] & Hle); [lia|lia|]. split; [by apply Hp|by apply Hle].
  - intros Ht Hk. by apply windows_all.
Qed.
End scheduler.

(** ** The blocks of a slot *)

Section aura.
Import Dispatch PcImport ScImport ImportInv ProposeInv Aura AuraInv.
Context `{Encode SgxExternalitiesType} `{Blake2} `{EncodeAppend} `{Twox} `{!ScStateInv.TwoxLaws}.
Context `{Encode Z, Decode Z} `{!Codec Z} `{Encode N, Decode N}.
Context `{Encode SidechainHeader} `{Encode BlockData} `{Encode Block, Decode Block} `{!Codec Block}.
Context `{Encode StateUpdate, Decode StateUpdate} `{!Codec StateUpdate}.
Context {TCS G Mr PH PB V X W P S Pair Key : Type} `{!Stf TCS Mr PH} `{!StfLaws TCS Mr PH} `{!StfSystem TCS Mr PH}.
Context `{SignatureScheme Pair} `{!SignatureLaws Pair} `{StateCrypto Key} `{!StateCryptoLaws Key}.
Context `{ParentchainHeader PH} `{ParentchainBlock PB PH}.
Context {initialize : result SgxExternalities StateHandlerError} {top_hash : StfTrustedOperation TCS G → TxHash}.
Context `{HandleState W} `{!HandleStateLaws W initialize} `{TopPool P TCS G} `{!TopPoolLaws P TCS G top_hash}.
Context `{importer : ImportParentchainBlocks (Env V X W P) PB ImporterError} `{!SafeImporter (PB := PB) (V := V) (X := X) initialize top_hash}.
Abbreviation Importer := (Env V X W P → list PB → list RawEventsPerBlock → outcome (Env V X W P * result unit ImporterError)).
Context (import_a import_b : Importer).
Context (safe_a : SafeImporter (H := import_a) initialize top_hash) (safe_b : SafeImporter (H := import_b) initialize top_hash).
Context (shard_status : PH → ShardIdentifier → result (option (list Public)) string).
Context (signer : Pair) (key : Key).
Implicit Types (a : AuraWorld (Env V X W P) PB S) (s : ShardIdentifier).

Lemma block_slot_within (b : Block) k :
  (0 ≤ k ∧ k * 1000 ≤ timestamp (block_data b) < (k + 1) * 1000 ∧ k ≤ u64_max)%Z → VerifyInv.block_slot SLOT_DURATION b = k.
Proof.
  intros (Hk & Ht & Hm). unfold VerifyInv.block_slot. change (as_millis SLOT_DURATION) with 1000%Z.
  replace (timestamp (block_data b) `div` 1000)%Z with k; [apply u64_wrap_small; unfold is_u64; lia|].
  apply Z.div_unique with (timestamp (block_data b) - k * 1000)%Z; lia.
Qed.

(** C10: In a slot a worker returns and leaves the chains of all shards as they
    are; it produces a block exactly when the slot is its own, by the validateers of
    the latest parentchain block, and there is time.  Such a block passes the
    verification of every validateer with the same last block.  The one exception
    is a block that is stamped with the very end of the slot: the worker lets it
    pass, but it counts for the next slot and is refused as one of the wrong
    author. *)
Theorem slot_block_verifies r a i s :
  w_ok (main a) → productive (main a) s → window_of_slot i →
  (rd_calls r 0 + proposing_remaining_duration i (rd_remaining r) ≤ duration_max)%Z →
  ∃ a' res, Aura.on_slot top_hash import_a import_b shard_status signer (Ok key) RoundRobin r a i s = Ret (a', res) ∧
    w_ok (main a') ∧ (∀ s', last_of (env (main a')) s' = last_of (env (main a)) s') ∧
    (is_Some res ↔ own_slot shard_status signer r a i s) ∧
    ∀ x, res = Some x →
      let sb := sr_block x in
      let verified := Validateers.aura_verify shard_status SLOT_DURATION (last_of (env (main a)) s) sb (latest_header a i) s in
      (timestamp (block_data (block sb)) < (slot i + 1) * 1000 → verified = Ret (Ok sb))%Z ∧
      (timestamp (block_data (block sb)) = (slot i + 1) * 1000 → ∀ l next,
        Validateers.current_validateers shard_status (latest_header a i) s = Ok l →
        VerifyInv.round_robin (slot i + 1) l = Some next → next ≠ public signer →
        verified = Ret (Err (from_verification (InvalidAuthority next (public signer)))))%Z.
Proof.
  intros Hok Hpr Hwin Hd.
  destruct (on_slot_spec import_a import_b safe_a safe_b shard_status signer key r a i s Hok Hd)
    as (a' & res & Ho & Hsc & _ & Hpro). destruct (Hpro Hpr) as [Hiff Hp].
  exists a', res. split; [done|]. split; [apply Hsc|]. split; [apply Hsc|]. split; [done|].
  intros x ->. destruct (proj1 Hiff ltac:(by eauto)) as [_ (l & Hl & Hturn) Hw].
  destruct (Hp x eq_refl) as (before & after & hashes & Hco & Hlast). rewrite <-Hlast.
  pose proof (within_slot i _ Hwin Hw) as Hts. rewrite <-(co_time _ _ _ _ _ _ _ _ _ Hco) in Hts.
  destruct Hwin as (Hs & _ & He). split.
  - intros Hlt. apply Validateers.aura_verify_accepts; [apply slot_duration_pos|]. exists l.
    rewrite (co_author _ _ _ _ _ _ _ _ _ Hco), (co_head _ _ _ _ _ _ _ _ _ Hco).
    rewrite (block_slot_within _ (slot i)) by lia. split_and!; [done|apply Hco|apply Hco|done|done].
  - intros Heq l' next Hl' Hnext Hne. unfold Validateers.aura_verify, Validateers.authorities. rewrite Hl'.
    rewrite VerifyInv.verify_sidechain_block_unfold by apply slot_duration_pos.
    rewrite (co_signature _ _ _ _ _ _ _ _ _ Hco), (co_head _ _ _ _ _ _ _ _ _ Hco), (co_author _ _ _ _ _ _ _ _ _ Hco).
    rewrite (proj2 (VerifyInv.ancestry_ok _ _) (co_succeeds _ _ _ _ _ _ _ _ _ Hco)). rewrite decide_True by done.
    rewrite (block_slot_within _ (slot i + 1)) by lia. rewrite Hnext. by rewrite decide_False.
Qed.
End aura.

(** ** Witnesses *)

Section witness.
Import Sample.

Definition clock_times : list Duration := [from_millis 2500; from_millis 1000; from_millis 3100; from_millis 3900].

Lemma slots_are_yielded_once_witness :
  ∃ last_slot' infos, yields 1000 tt None None 0 clock_times = Ret (last_slot', infos) ∧ slot <$> infos = [2; 3]%Z.
Proof.
  destruct (slots_are_yielded_once tt None None 1000 0 clock_times) as (l & infos & Hy & _ & _).
  - done.
  - unfold clock_times. repeat constructor; vm_compute; done.
  - exists l, infos. split; [exact Hy|]. vm_compute in Hy. injection Hy as <- <-. reflexivity.
Defined.

Definition sample_rounds : list (Duration * Duration) := replicate 4 (from_millis 1, from_millis 100).

Lemma every_validateer_gets_its_turn_witness :
  ∃ k t, (1 ≤ k < 3)%nat ∧ start_slot_worker (new_stream (from_millis 1000)) (from_millis 500) sample_rounds !! k = Some t ∧
    Aura.claim_slot 71%N Aura.RoundRobin (slot_of 1000 t) [70; 71]%N = Ret (Some 71%N).
Proof.
  destruct (every_validateer_gets_its_turn tt None None 1000 (from_millis 500) sample_rounds [70; 71]%N 71%N 0 1)
    as (_ & k & t & Hk & Ht & Hclaim & _).
  - done.
  - done.
  - repeat constructor; vm_compute; done.
  - repeat constructor; vm_compute; done.
  - vm_compute. done.
  - apply (bool_decide_unpack _). by vm_compute.
  - apply (bool_decide_unpack _). by vm_compute.
  - vm_compute. lia.
  - exists k, t. split; [exact Hk|]. split; [exact Ht|]. rewrite (Hclaim k t Hk Ht), decide_True by done. reflexivity.
Defined.

(** A worker that logs the shards it is run for. *)
#[local] Instance log_worker : SimpleSlotWorker (list N) unit N := λ w _ s, Ret (w ++ [s], Some s).
Definition sample_slot : SlotInfo unit := MkSlotInfo 1 (from_millis 1000) (from_millis 1000) (from_millis 2000) tt None None.
Definition sample_clock (n : nat) : Duration := from_millis (1000 + 100 * Z.of_nat n).

Lemma scheduler_shares_the_slot_witness :
  (windows sample_clock sample_slot 0 [1; 2; 3]%N).*2 = [1; 2; 3]%N ∧
  Slots.on_slot sample_clock [] sample_slot [1; 2; 3]%N = Ret ([1; 2; 3]%N, [1; 2; 3]%N).
Proof.
  destruct (scheduler_shares_the_slot sample_clock ([] : list N) sample_slot [1; 2; 3]%N) as (Hrun & _ & _ & Hall).
  - done.
  - done.
  - intros n. unfold sample_clock, from_millis, NANOS_PER_MILLI. lia.
  - split.
    + apply Hall; [vm_compute; done|]. intros [|[|[|k]]] Hk; [vm_compute; done..|simpl in Hk; lia].
    + rewrite Hrun. vm_compute. reflexivity.
Defined.

Definition sample_readings : Aura.SlotReadings unit :=
  Aura.MkReadings (from_millis 2100) (from_millis 2100) (from_millis 2200) 9 (λ _, from_millis 2150) (λ _, Ok tt).
Definition sample_aura : Aura.AuraWorld SampleEnv N (bool * list SignedBlock) := Aura.MkAuraWorld Sample.world None None.
Definition sample_window : SlotInfo N :=
  MkSlotInfo 2 (from_millis 2000) (from_millis 1000) (from_millis 3000) 4%N None None.

Lemma slot_block_verifies_witness :
  ∃ a' x, Aura.on_slot Sample.top_hash Sample.importer Sample.importer Sample.shard_status 70%N (Ok tt) Aura.RoundRobin
      sample_readings sample_aura sample_window Sample.shard = Ret (a', Some x).
Proof.
  destruct (slot_block_verifies Sample.importer Sample.importer Sample.importer_safe Sample.importer_safe Sample.shard_status 70%N tt
    sample_readings sample_aura sample_window Sample.shard) as (a' & res & Ho & _ & _ & Hiff & _).
  - exact Sample.world_ok.
  - split. exists Ext.default_externalities. split; [reflexivity|]. split; [reflexivity|]. vm_compute. done.
  - vm_compute. done.
  - vm_compute. done.
  - destruct (proj2 Hiff) as [x Hx].
    + split; [by vm_compute| |by vm_compute]. exists [70; 71]%N. split; reflexivity.
    + exists a', x. rewrite Ho, Hx. reflexivity.
Defined.
End witness.
