(* ===== verification/SidechainOCalls.v ===== *)
(** The ocalls of the sidechain, from the enclave
    (src/enclave-runtime/src/ocall/sidechain_ocall.rs) over the C interface
    (src/service/src/ocall_bridge/ffi/{store_sidechain_blocks,
    fetch_sidechain_blocks_from_peer,propose_sidechain_blocks}.rs) to the service
    (src/service/src/ocall_bridge/sidechain_ocall.rs), which stores blocks and asks
    the RPC server of a peer (src/sidechain/peer-fetch) for blocks of its storage. *)

From stdpp Require Import base gmap numbers strings list.
From S2P Require Import Prelude Collections PoolTypes SidechainDb SidechainStorage StorageInv.
From S2P Require Import SidechainBlocks Durations BlockImport.

Import Storage(SidechainStorage, LastSidechainBlock).
Import Sc.
Open Scope worker_scope.

(** ** Buffers (src/core-primitives/utils/src/buffer.rs) *)

Inductive BufferError := InsufficientBufferSize (actual required : nat).

(** The content of the buffer afterwards; the size of the buffer is all that is
    used of what it held. *)
Definition write_slice_and_whitespace_pad (writable : list N) (data : list N) : list N * result nat BufferError :=
  if decide (length writable < length data)%nat then
    (writable, Err (InsufficientBufferSize (length writable) (length data)))
  else (data ++ replicate (length writable - length data)%nat 32%N, Ok (length data)).

Definition SGX_SUCCESS : Z := 0.
Definition SGX_ERROR_UNEXPECTED : Z := 1.

(** ** The peer *)

Module PeerFetch.
Section fetch.
Context `{Blake2} `{Encode SidechainHeader} {Db : Type} `{RocksDb Db}.
Context `{Encode DbKey} `{Encode SignedBlock} `{Decode SignedBlock}.
Implicit Types (st : SidechainStorage Db).

(** The handler of [RPC_METHOD_NAME_FETCH_BLOCKS_FROM_PEER]. *)
Definition handle_fetch (fuel : nat) st (params : N * option N * ShardIdentifier) :
    outcome (result (list SignedBlock) StorageError) :=
  let '(from_block_hash, maybe_until_block_hash, s) := params in
  match maybe_until_block_hash with
  | Some until_block_hash => Storage.get_blocks_in_range fuel st from_block_hash until_block_hash s
  | None => Storage.get_blocks_after fuel st from_block_hash s
  end.
End fetch.

(** The client: the node names the peer, the RPC client asks it. *)
Section client.
Context {Url : Type}.
Context (get_untrusted_peer_url_of_shard : ShardIdentifier → result Url string).
Context (request : Url → N * option N * ShardIdentifier → result (list SignedBlock) string).

Definition fetch_blocks_from_peer (last_imported_block_hash : N) (maybe_until_block_hash : option N) (s : ShardIdentifier) :
    result (list SignedBlock) string :=
  let? url := get_untrusted_peer_url_of_shard s in
  request url (last_imported_block_hash, maybe_until_block_hash, s).
End client.
End PeerFetch.

(** ** The service *)

(** The network of the service; an update of the peers may panic. *)
Class Network (Net : Type) := {
  update_peers : Net → ShardIdentifier → outcome (Net * result unit string);
  broadcast_blocks : Net → list SignedBlock → Net * result unit string;
}.

Record Host (Db Net : Type) := MkHost {
  host_storage : SidechainStorage Db;
  network : Net;
}.
Arguments MkHost {Db Net} _ _.
Arguments host_storage {Db Net} _.
Arguments network {Db Net} _.

(** [OCallBridgeError]. *)
Inductive OCallBridgeError :=
| ProposeSidechainBlock (msg : string)
| FetchSidechainBlocksFromPeer (msg : string).

Module SidechainBridge.
Section bridge.
Context `{Blake2} `{Encode SidechainHeader} {Db Net : Type} `{RocksDb Db} `{Network Net} `{IterOrder}.
Context `{Encode DbKey} `{Encode (list ShardIdentifier)} `{Encode LastSidechainBlock}.
Context `{Encode N, Decode N} `{Encode (option N), Decode (option N)} `{Encode SignedBlock}.
Context `{Encode (list SignedBlock), Decode (list SignedBlock)}.
Context (fetch_blocks_from_peer : N → option N → ShardIdentifier → result (list SignedBlock) string).
Implicit Types (o : Host Db Net).

(** *** Service side *)

Definition store_sidechain_blocks o (signed_blocks_encoded : list N) : Host Db Net * result unit OCallBridgeError :=
  let '(signed_blocks, status) :=
    match decode (A := list SignedBlock) signed_blocks_encoded with
    | Ok blocks => (blocks, Ok tt)
    | Err _ => ([], Err (ProposeSidechainBlock "Could not decode signed blocks"))
    end in
  let '(st, _) := Storage.store_blocks (host_storage o) signed_blocks in
  (MkHost st (network o), status).

(** The set of the shards of the blocks is not empty when there are blocks;
    only one of the shards is updated. *)
Definition propose_sidechain_blocks o (signed_blocks_encoded : list N) : outcome (Host Db Net * result unit OCallBridgeError) :=
  let '(signed_blocks, status) :=
    match decode (A := list SignedBlock) signed_blocks_encoded with
    | Ok blocks => (blocks, Ok tt)
    | Err _ => ([], Err (ProposeSidechainBlock "Could not decode signed blocks"))
    end in
  match signed_blocks with
  | [] => Ret (o, status)
  | _ =>
      let shards := set_iter (list_to_set (C := gset ShardIdentifier) (shard_id ∘ header ∘ block <$> signed_blocks)) in
      unwrap (shards !! 0%nat) ≫= λ shard,
      update_peers (network o) shard ≫= λ '(net, _),
      let '(net, _) := broadcast_blocks net signed_blocks in
      Ret (MkHost (host_storage o) net, status)
  end.

Definition fetch_sidechain_blocks_from_peer (last_imported_block_hash_encoded maybe_until_block_hash_encoded
    shard_identifier_encoded : list N) : result (list N) OCallBridgeError :=
  let? last_imported_block_hash :=
    match decode (A := N) last_imported_block_hash_encoded with
    | Ok h => Ok h
    | Err _ => Err (FetchSidechainBlocksFromPeer "Failed to decode last imported block hash")
    end in
  let? maybe_until_block_hash :=
    match decode (A := option N) maybe_until_block_hash_encoded with
    | Ok h => Ok h
    | Err _ => Err (FetchSidechainBlocksFromPeer "Failed to decode optional until block hash")
    end in
  let? shard_identifier :=
    match decode (A := N) shard_identifier_encoded with
    | Ok s => Ok s
    | Err _ => Err (FetchSidechainBlocksFromPeer "Failed to decode shard identifier")
    end in
  match fetch_blocks_from_peer last_imported_block_hash maybe_until_block_hash shard_identifier with
  | Ok signed_sidechain_blocks => Ok (encode signed_sidechain_blocks)
  | Err e => Err (FetchSidechainBlocksFromPeer ("Failed to execute block fetching from peer: " +:+ e))
  end.

(** *** C interface *)

Definition status_of {A} (r : result A OCallBridgeError) : Z :=
  match r with Ok _ => SGX_SUCCESS | Err _ => SGX_ERROR_UNEXPECTED end.

Definition ffi_store_sidechain_blocks o (signed_blocks : list N) : Host Db Net * Z :=
  let '(o, res) := store_sidechain_blocks o signed_blocks in (o, status_of res).

Definition ffi_propose_sidechain_blocks o (signed_blocks : list N) : outcome (Host Db Net * Z) :=
  propose_sidechain_blocks o signed_blocks ≫= λ '(o, res), Ret (o, status_of res).

(** The buffer and the status. *)
Definition ffi_fetch_sidechain_blocks_from_peer (last_imported_block_hash maybe_until_block_hash shard_identifier : list N)
    (sidechain_blocks : list N) : list N * Z :=
  match fetch_sidechain_blocks_from_peer last_imported_block_hash maybe_until_block_hash shard_identifier with
  | Err _ => (sidechain_blocks, SGX_ERROR_UNEXPECTED)
  | Ok sidechain_blocks_encoded =>
      match write_slice_and_whitespace_pad sidechain_blocks sidechain_blocks_encoded with
      | (buffer, Err _) => (buffer, SGX_ERROR_UNEXPECTED)
      | (buffer, Ok _) => (buffer, SGX_SUCCESS)
      end
  end.

(** *** Enclave side *)

(** The status of the transition itself.  When it fails nothing is executed and
    the return value is still the one it was initialised with, which is checked
    first. *)
Context (transition : Z).

Definition check_status (rt : Z) : result unit Z := if decide (rt = SGX_SUCCESS) then Ok tt else Err rt.

Definition enclave_store_sidechain_blocks o (signed_blocks : list SignedBlock) : Host Db Net * result unit Z :=
  if decide (transition = SGX_SUCCESS) then
    let '(o, rt) := ffi_store_sidechain_blocks o (encode signed_blocks) in (o, check_status rt)
  else (o, check_status SGX_ERROR_UNEXPECTED).

Definition enclave_propose_sidechain_blocks o (signed_blocks : list SignedBlock) : outcome (Host Db Net * result unit Z) :=
  if decide (transition = SGX_SUCCESS) then
    ffi_propose_sidechain_blocks o (encode signed_blocks) ≫= λ '(o, rt), Ret (o, check_status rt)
  else Ret (o, check_status SGX_ERROR_UNEXPECTED).

(** 256KB. *)
Definition BLOCK_BUFFER_SIZE : nat := Z.to_nat 262144.

Definition enclave_fetch_sidechain_blocks_from_peer (last_imported_block_hash : N) (maybe_until_block_hash : option N)
    (shard_identifier : ShardIdentifier) : result (list SignedBlock) Z :=
  let '(signed_blocks_encoded, rt) :=
    if decide (transition = SGX_SUCCESS) then
      ffi_fetch_sidechain_blocks_from_peer (encode last_imported_block_hash) (encode maybe_until_block_hash)
        (encode shard_identifier) (replicate BLOCK_BUFFER_SIZE 0%N)
    else (replicate BLOCK_BUFFER_SIZE 0%N, SGX_ERROR_UNEXPECTED) in
  let? x := check_status rt in
  match decode (A := list SignedBlock) signed_blocks_encoded with
  | Ok decoded_signed_blocks => Ok decoded_signed_blocks
  | Err _ => Err SGX_ERROR_UNEXPECTED
  end.

#[export] Instance host_ocall : SidechainOCall (Host Db Net) := {|
  oc_store_sidechain_blocks := enclave_store_sidechain_blocks;
  oc_fetch_sidechain_blocks_from_peer := λ _, enclave_fetch_sidechain_blocks_from_peer;
|}.

(** *** Lemmas *)

Lemma check_status_success : check_status SGX_SUCCESS = Ok tt.
Proof. done. Qed.

Lemma write_slice_fits (writable data : list N) :
  (length data ≤ length writable)%nat →
  write_slice_and_whitespace_pad writable data =
    (data ++ replicate (length writable - length data)%nat 32%N, Ok (length data)).
Proof. intros Hle. unfold write_slice_and_whitespace_pad. by rewrite decide_False by lia. Qed.

Lemma write_slice_length (writable data : list N) :
  length (write_slice_and_whitespace_pad writable data).1 = length writable.
Proof.
  unfold write_slice_and_whitespace_pad. case_decide; [done|]. simpl. rewrite length_app, length_replicate. lia.
Qed.

Context `{!PrefixCodec N} `{!PrefixCodec (option N)} `{!PrefixCodec (list SignedBlock)}.

(** What the enclave gets is what the peer answers, unless it does not fit the
    buffer. *)
Lemma enclave_fetch_spec h until s :
  transition = SGX_SUCCESS →
  enclave_fetch_sidechain_blocks_from_peer h until s =
    match fetch_blocks_from_peer h until s with
    | Ok bs => if decide (length (encode bs) ≤ BLOCK_BUFFER_SIZE)%nat then Ok bs else Err SGX_ERROR_UNEXPECTED
    | Err _ => Err SGX_ERROR_UNEXPECTED
    end.
Proof.
  intros Ht. unfold enclave_fetch_sidechain_blocks_from_peer, ffi_fetch_sidechain_blocks_from_peer, fetch_sidechain_blocks_from_peer.
  rewrite decide_True, !decode_encode by done. destruct (fetch_blocks_from_peer h until s) as [bs|e]; [|done].
  pose proof (write_slice_fits (replicate BLOCK_BUFFER_SIZE 0%N) (encode bs)) as Hw. rewrite length_replicate in Hw.
  case_decide as Hle.
  - rewrite Hw by done. rewrite check_status_success. by rewrite decode_prefix.
  - unfold write_slice_and_whitespace_pad. by rewrite length_replicate, decide_True by lia.
Qed.

(** Blocks are handed to the storage, and success is reported whatever the
    storage answers. *)
Lemma enclave_store_spec o bs :
  transition = SGX_SUCCESS →
  enclave_store_sidechain_blocks o bs = (MkHost (Storage.store_blocks (host_storage o) bs).1 (network o), Ok tt).
Proof.
  intros Ht. unfold enclave_store_sidechain_blocks, ffi_store_sidechain_blocks, store_sidechain_blocks.
  rewrite decide_True, decode_encode by done. by destruct (Storage.store_blocks _ _).
Qed.
End bridge.
End SidechainBridge.
