(* ===== verification/PeerSync.v ===== *)
(** How received sidechain blocks are imported
    (src/sidechain/consensus/common/src/{peer_block_sync,block_import_queue_worker,
    block_import_confirmation_handler,block_production_suspension}.rs): the queue
    of received blocks is worked off in the order of the block numbers, missing
    blocks are fetched from a peer, and imports are confirmed on the
    parentchain. *)

From stdpp Require Import base gmap numbers sorting strings list.
From S2P Require Import Prelude Collections PoolTypes StfTypes SidechainDb Externalities SidechainState SidechainBlocks.
From S2P Require Import Dispatcher StateFileIo StateHandler Consensus BlockComposer ParentchainImport BlockImport BlockImportInv.
From S2P Require Import Durations.

Import Sc.
Open Scope worker_scope.

(** [SidechainBlockConfirmation]. *)
Record SidechainBlockConfirmation := MkConfirmation {
  conf_block_number : Z;
  conf_block_header_hash : N;
}.

(** ** Confirmations *)

Module Confirm.
Import PcImport.

Section confirm.
Context `{Blake2} `{Encode SidechainHeader}.
Context {V X W P PB Xt : Type} `{LightClient V PB Xt} `{ExtrinsicsFactory X Xt}.
(** The index of the call in the metadata of the node, and its encoding. *)
Context (call_index : result Bytes string).
Context (from_tuple : Bytes → ShardIdentifier → option SidechainBlockConfirmation → SidechainBlockConfirmation → OpaqueCall).
Implicit Types (e : Env V X W P).

Definition confirm_import e (h : SidechainHeader) (shard : ShardIdentifier)
    (maybe_last_sidechain_block_confirmation : option SidechainBlockConfirmation) : Env V X W P * result unit string :=
  if (block_number h =? next_finalization_block_number h)%Z then
    match call_index with
    | Err err => (e, Err err)
    | Ok call =>
        let opaque_call := from_tuple call shard maybe_last_sidechain_block_confirmation
          (MkConfirmation (u64_wrap (next_finalization_block_number h + BLOCK_NUMBER_FINALIZATION_DIFF)) (header_hash h)) in
        match create_extrinsics (factory e) [opaque_call] with
        | (x, Err err) => (MkEnv (validator e) x (states e) (top_pool e), Err err)
        | (x, Ok xts) =>
            let '(v, res) := lc_send_extrinsics (validator e) xts in
            (MkEnv v x (states e) (top_pool e), res)
        end
    end
  else (e, Ok tt).
End confirm.
End Confirm.

(** ** Suspension of the production of blocks *)

Module Suspension.

Record BlockProductionSuspender := MkSuspender {
  suspended : bool;
  sync_ongoing : bool;
}.

Definition new (is_suspended : bool) : BlockProductionSuspender := MkSuspender is_suspended false.
Definition suspend_for_sync (_ : BlockProductionSuspender) : BlockProductionSuspender := MkSuspender true true.
Definition resume (b : BlockProductionSuspender) : BlockProductionSuspender := MkSuspender false (sync_ongoing b).
Definition is_suspended (b : BlockProductionSuspender) : bool := suspended b.
Definition is_sync_ongoing (b : BlockProductionSuspender) : bool := sync_ongoing b.
End Suspension.

(** ** Import or sync *)

(** What the sync works with: [BlockImport], the peers and the confirmation handler. *)
Class SyncWorld (Wd PH : Type) := {
  sw_import_block : Wd → SignedBlock → PH → outcome (Wd * result PH ConsensusError);
  sw_fetch_blocks_from_peer : Wd → N → option N → ShardIdentifier → result (list SignedBlock) Z;
  sw_confirm_import : Wd → SidechainHeader → ShardIdentifier → option SidechainBlockConfirmation → Wd * result unit string;
}.

Module Sync.
Section sync.
Context `{Blake2} `{Encode SidechainHeader} {Wd PH : Type} `{SyncWorld Wd PH}.
Implicit Types (w : Wd) (h : PH) (sb : SignedBlock).

Fixpoint import_blocks w h (blocks_to_import : list SignedBlock) : outcome (Wd * result PH ConsensusError) :=
  match blocks_to_import with
  | [] => Ret (w, Ok h)
  | block_to_import :: rest =>
      sw_import_block w block_to_import h ≫= λ '(w, res),
      match res with
      | Err e => Ret (w, Err e)
      | Ok h => import_blocks w h rest
      end
  end.

Definition fetch_and_import_blocks_from_peer w (last_imported_sidechain_block_hash import_until_block_hash : N) h
    (s : ShardIdentifier) : outcome (Wd * result PH ConsensusError) :=
  match sw_fetch_blocks_from_peer w last_imported_sidechain_block_hash (Some import_until_block_hash) s with
  | Err status => Ret (w, Err (CsSgx status))
  | Ok blocks_to_import => import_blocks w h blocks_to_import
  end.

(** The blocks from the peer, then the block itself. *)
Definition sync_then_import w sb h (last_hash : N) : outcome (Wd * result PH ConsensusError) :=
  fetch_and_import_blocks_from_peer w last_hash (hash (block sb)) h (shard_id (header (block sb))) ≫= λ '(w, res),
  match res with
  | Err e => Ret (w, Err e)
  | Ok updated_parentchain_header => sw_import_block w sb updated_parentchain_header
  end.

Definition import_or_sync_block w sb h (maybe_confirmation : option SidechainBlockConfirmation) :
    outcome (Wd * result PH ConsensusError) :=
  sw_import_block w sb h ≫= λ '(w, res),
  match res with
  | Err (CsBlockAncestryMismatch _ block_hash _) => sync_then_import w sb h block_hash
  | Err (CsInvalidFirstBlock _ _) => sync_then_import w sb h default_hash
  | Err (CsBlockAlreadyImported _ _) => Ret (w, Ok h)
  | Err e => Ret (w, Err e)
  | Ok latest_parentchain_header =>
      let '(w, _) := sw_confirm_import w (header (block sb)) (shard_id (header (block sb))) maybe_confirmation in
      Ret (w, Ok latest_parentchain_header)
  end.

(** *** The queue *)

(** [sorted_by_key] and [sort_by_key] are stable. *)
Definition by_number (x y : SignedBlock) : Prop :=
  (block_number (header (block x)) ≤ block_number (header (block y)))%Z.
Definition by_hash (x y : SignedBlock) : Prop := (hash (block x) ≤ hash (block y))%N.
#[local] Instance by_number_dec : RelDecision by_number := λ x y, decide (_ ≤ _)%Z.
#[local] Instance by_hash_dec : RelDecision by_hash := λ x y, decide (_ ≤ _)%N.

(** [group_by] of consecutive blocks with the same number. *)
Fixpoint group_by_number (l : list SignedBlock) : list (list SignedBlock) :=
  match l with
  | [] => []
  | b :: l =>
      match group_by_number l with
      | (b' :: g) :: gs =>
          if (block_number (header (block b)) =? block_number (header (block b')))%Z
          then (b :: b' :: g) :: gs else [b] :: (b' :: g) :: gs
      | gs => [b] :: gs
      end
  end.

(** [find_map]: the first competitor that can be imported. *)
Fixpoint import_first w h (maybe_confirmation : option SidechainBlockConfirmation) (competitors : list SignedBlock) :
    outcome (Wd * PH * option SignedBlock) :=
  match competitors with
  | [] => Ret (w, h, None)
  | b :: rest =>
      import_or_sync_block w b h maybe_confirmation ≫= λ '(w, res),
      match res with
      | Ok parentchain_header => Ret (w, parentchain_header, Some b)
      | Err _ => import_first w h maybe_confirmation rest
      end
  end.

Fixpoint import_groups w h (maybe_confirmation : option SidechainBlockConfirmation) (groups : list (list SignedBlock)) :
    outcome (Wd * PH) :=
  match groups with
  | [] => Ret (w, h)
  | competitors :: groups =>
      import_first w h maybe_confirmation (merge_sort by_hash competitors) ≫= λ '(w, h, _),
      import_groups w h maybe_confirmation groups
  end.

(** The queue is emptied; the returned queue is what is left of it. *)
Definition process_queue w (queue : list SignedBlock) h (maybe_confirmation : option SidechainBlockConfirmation) :
    outcome (Wd * list SignedBlock * PH) :=
  let '(queue, blocks) := Queue.pop_all queue in
  import_groups w h maybe_confirmation (group_by_number (merge_sort by_number blocks)) ≫= λ '(w, h),
  Ret (w, queue, h).
End sync.
End Sync.

(** Facts about the import of received blocks: the order in which the queue is
    worked off does not depend on the order of arrival, and a block that is ahead
    leads to the import of exactly the missing blocks. *)

Import Ext(SgxExternalities).
Import Sc.
Open Scope worker_scope.

(** ** The order of the queue *)

Module QueueInv.
Import Sync.
#[local] Existing Instances by_number_dec by_hash_dec.

Section order.
Context `{Blake2} `{Encode SidechainHeader}.
Implicit Types (sb : SignedBlock) (q g : list SignedBlock).

Abbreviation number sb := (block_number (header (block sb))).

#[local] Instance by_number_trans : Transitive by_number.
Proof. intros x y z. unfold by_number. lia. Qed.
#[local] Instance by_number_total : Total by_number.
Proof. intros x y. unfold by_number. lia. Qed.
#[local] Instance by_hash_trans : Transitive by_hash.
Proof. intros x y z. unfold by_hash. lia. Qed.
#[local] Instance by_hash_total : Total by_hash.
Proof. intros x y. unfold by_hash. lia. Qed.

(** First by number, then by hash. *)
Definition in_order sb1 sb2 : Prop := (number sb1 < number sb2)%Z ∨ number sb1 = number sb2 ∧ by_hash sb1 sb2.

(** The competitors of every number, in the order in which they are tried. *)
Definition competitors q : list (list SignedBlock) := merge_sort by_hash <$> group_by_number (merge_sort by_number q).

(** A list of groups: the blocks of a group have one number, and numbers grow. *)
Inductive grouped : list (list SignedBlock) → Prop :=
| grouped_nil : grouped []
| grouped_cons n g gs : g ≠ [] → Forall (λ sb, number sb = n) g → Forall (Forall (λ sb, n < number sb)%Z) gs →
    grouped gs → grouped (g :: gs).

Lemma group_by_number_concat q : concat (group_by_number q) = q.
Proof.
  induction q as [|b q IH]; [done|]. simpl. destruct (group_by_number q) as [|[|b' g] gs]; simpl in *; subst; [done|done|].
  by destruct (_ =? _)%Z.
Qed.

Lemma group_by_number_grouped q : StronglySorted by_number q → grouped (group_by_number q).
Proof.
  induction 1 as [|b q Hs IH Hb]; [constructor|]. simpl.
  pose proof (group_by_number_concat q) as Hc. destruct (group_by_number q) as [|[|b' g] gs]; simpl in *.
  - apply (grouped_cons (number b)); [done|by repeat constructor|constructor|done].
  - inversion IH; done.
  - inversion IH as [|n g' gs' _ Hg Hgs Hgr]; subst. apply Forall_cons in Hg as [Hn Hg].
    destruct (Z.eqb_spec (number b) (number b')) as [Heq|Hne].
    + apply (grouped_cons n); [done| |done|done]. constructor; [congruence|by constructor].
    + apply Forall_cons in Hb as [Hlt Hb]. unfold by_number in Hlt.
      apply (grouped_cons (number b)); [done|by repeat constructor| |by apply (grouped_cons n); [|constructor| |]].
      constructor; [constructor; [lia|]|].
      * eapply Forall_impl; [exact Hg|]. simpl. lia.
      * eapply Forall_impl; [exact Hgs|]. intros l Hl. eapply Forall_impl; [exact Hl|]. simpl. lia.
Qed.

Lemma grouped_fmap (f : list SignedBlock → list SignedBlock) gs :
  (∀ g, f g ≡ₚ g) → grouped gs → grouped (f <$> gs).
Proof.
  intros Hf. induction 1 as [|n g gs Hne Hg Hgs _ IH]; [constructor|]. apply (grouped_cons n).
  - intros Hn. pose proof (Hf g) as Hp. rewrite Hn in Hp. symmetry in Hp. by apply Permutation_nil_r in Hp.
  - by rewrite Hf.
  - apply Forall_fmap. eapply Forall_impl; [exact Hgs|]. simpl. intros l Hl. by rewrite Hf.
  - done.
Qed.

(** Groups are found again in the list of their blocks. *)
Lemma group_by_number_inv gs : grouped gs → group_by_number (concat gs) = gs.
Proof.
  induction 1 as [|n g gs Hne Hg Hgs Hgr IH]; [done|]. simpl.
  induction g as [|b g IHg]; [done|]. apply Forall_cons in Hg as [Hb Hg]. simpl. destruct g as [|b' g].
  - simpl. rewrite IH. destruct Hgr as [|n' g' gs' Hne' Hg' _ _]; [done|]. destruct g' as [|b' g']; [done|].
    apply Forall_cons in Hgs as [[Hlt _]%Forall_cons _]. destruct (Z.eqb_spec (number b) (number b')); [lia|done].
  - rewrite IHg by done. apply Forall_cons in Hg as [Hb' _]. destruct (Z.eqb_spec (number b) (number b')); [done|lia].
Qed.

Lemma grouped_sorted gs :
  grouped gs → Forall (StronglySorted by_hash) gs → StronglySorted in_order (concat gs).
Proof.
  induction 1 as [|n g gs _ Hg Hgs _ IH]; [constructor|]. intros [Hs Hss]%Forall_cons. simpl.
  apply StronglySorted_app_2; [|clear Hgs IH|by apply IH].
  - intros b1 b2 H1 H2. left. rewrite Forall_forall in Hg. rewrite (Hg _ H1).
    apply list_elem_of_In, in_concat in H2 as (l & Hl%list_elem_of_In & H2%list_elem_of_In). rewrite Forall_forall in Hgs.
    specialize (Hgs _ Hl). rewrite Forall_forall in Hgs. by apply Hgs.
  - induction Hs as [|b g Hs IHs Hb]; [constructor|]. apply Forall_cons in Hg as [Hn Hg]. constructor; [by apply IHs|].
    rewrite Forall_forall in *. intros x Hx. right. split; [by rewrite Hn, Hg|by apply Hb].
Qed.

Lemma competitors_spec q :
  concat (competitors q) ≡ₚ q ∧ StronglySorted in_order (concat (competitors q)) ∧
  competitors q = group_by_number (concat (competitors q)).
Proof.
  unfold competitors. pose proof (group_by_number_grouped (merge_sort by_number q)
    (StronglySorted_merge_sort by_number q)) as Hgr.
  pose proof (grouped_fmap (merge_sort by_hash) _ (merge_sort_Permutation by_hash) Hgr) as Hgr'.
  split_and!.
  - rewrite <-(merge_sort_Permutation by_number q) at 2. rewrite <-(group_by_number_concat (merge_sort by_number q)) at 2.
    clear. induction (group_by_number _) as [|g gs IH]; [done|]. simpl. by rewrite IH, merge_sort_Permutation.
  - apply grouped_sorted; [done|]. apply Forall_fmap, Forall_true. intros g. apply StronglySorted_merge_sort; apply _.
  - by rewrite group_by_number_inv.
Qed.

(** One order for all orders of arrival. *)
Lemma competitors_perm q1 q2 :
  q1 ≡ₚ q2 → (∀ x y, x ∈ q1 → y ∈ q1 → number x = number y → hash (block x) = hash (block y) → x = y) →
  competitors q1 = competitors q2.
Proof.
  intros Hp Hinj. destruct (competitors_spec q1) as (Hp1 & Hs1 & ->), (competitors_spec q2) as (Hp2 & Hs2 & ->).
  f_equal. apply (StronglySorted_unique_strong in_order); [|done|done|by rewrite Hp1, Hp, Hp2].
  intros x y. rewrite Hp1, Hp2, <-Hp. intros Hx Hy Hxy Hyx. unfold in_order, by_hash in *. apply Hinj; [done|done|lia|lia].
Qed.

(** Blocks with growing numbers compete with none. *)
Lemma competitors_chain q : StronglySorted (λ x y, number x < number y)%Z q → competitors q = (λ sb, [sb]) <$> q.
Proof.
  intros Hs. destruct (competitors_spec q) as (Hp & Hso & ->).
  assert (concat (competitors q) = q) as ->.
  { apply (StronglySorted_unique_strong in_order); [|done| |done].
    - intros x y Hx Hy Hxy Hyx. rewrite Hp in Hx. unfold in_order in *. assert (number x = number y) as Heq by lia.
      clear -Hs Hx Hy Heq. induction Hs as [|b q _ IH Hb]; [by apply not_elem_of_nil in Hx|].
      rewrite Forall_forall in Hb. apply elem_of_cons in Hx as [->|Hx], Hy as [->|Hy]; [done| | |by apply IH].
      + specialize (Hb _ Hy). simpl in Hb. lia.
      + specialize (Hb _ Hx). simpl in Hb. lia.
    - clear -Hs. induction Hs as [|b q _ IH Hb]; constructor; [done|]. eapply Forall_impl; [exact Hb|]. intros y Hy. by left. }
  clear Hp Hso. induction Hs as [|b q Hs IH Hb]; [done|]. simpl. rewrite IH.
  destruct q as [|b' q]; [done|]. simpl. apply Forall_cons in Hb as [Hb _]. destruct (Z.eqb_spec (number b) (number b')); [lia|done].
Qed.

(** *** Working off the queue *)

Context {Wd PH : Type} `{SyncWorld Wd PH}.
Implicit Types (w : Wd) (h : PH) (mc : option SidechainBlockConfirmation).

Fixpoint try_competitors w h mc (gs : list (list SignedBlock)) : outcome (Wd * PH) :=
  match gs with
  | [] => Ret (w, h)
  | g :: gs => import_first w h mc g ≫= λ '(w, h, _), try_competitors w h mc gs
  end.

(** One block after the other; blocks that cannot be imported are skipped. *)
Fixpoint try_each w h mc (bs : list SignedBlock) : outcome (Wd * PH) :=
  match bs with
  | [] => Ret (w, h)
  | b :: bs =>
      import_or_sync_block w b h mc ≫= λ '(w, res),
      try_each w (match res with Ok h => h | Err _ => h end) mc bs
  end.

Lemma import_groups_sorted w h mc gs : import_groups w h mc gs = try_competitors w h mc (merge_sort by_hash <$> gs).
Proof.
  revert w h. induction gs as [|g gs IH]; intros w h; [done|]. simpl.
  destruct (import_first _ _ _ _) as [[[w1 h1] b]| |]; [|done..]. apply IH.
Qed.

Lemma process_queue_spec w q h mc :
  process_queue w q h mc = try_competitors w h mc (competitors q) ≫= λ '(w, h), Ret (w, [], h).
Proof. unfold process_queue, competitors. simpl. by rewrite import_groups_sorted. Qed.

Lemma try_competitors_single w h mc bs : try_competitors w h mc ((λ sb, [sb]) <$> bs) = try_each w h mc bs.
Proof.
  revert w h. induction bs as [|b bs IH]; intros w h; [done|]. simpl.
  destruct (import_or_sync_block _ _ _ _) as [[w1 [h1|e]]| |]; cbn [mbind outcome_bind]; [apply IH..|done|done].
Qed.
End order.
End QueueInv.

(** ** Sync *)

Module SyncInv.
Import ScImport ImportInv.

Section sync.
Context `{Encode SgxExternalitiesType} `{Blake2} `{EncodeAppend} `{Twox} `{!ScStateInv.TwoxLaws}.
Context `{Encode Z, Decode Z} `{Encode N, Decode N}.
Context `{Encode SidechainHeader} `{Encode BlockData} `{Encode Block, Decode Block} `{!Codec Block} `{Decode StateUpdate}.
Context {Pair Key PH PB V X W P S TCS G Xt : Type} `{SignatureScheme Pair} `{StateCrypto Key}.
Context `{ParentchainHeader PH} `{ParentchainBlock PB PH} `{LightClient V PB Xt} `{ExtrinsicsFactory X Xt}.
Context {initialize : result SgxExternalities StateHandlerError} {top_hash : StfTrustedOperation TCS G → TxHash}.
Context `{HandleState W} `{!HandleStateLaws W initialize} `{TopPool P TCS G} `{!TopPoolLaws P TCS G top_hash}.
Context `{SidechainOCall S} `{ImportParentchainBlocks (PcImport.Env V X W P) PB ImporterError}.
Context `{!SafeImporter (PB := PB) (V := V) (X := X) initialize top_hash}.
Context (shard_status : PH → ShardIdentifier → result (option (list Public)) string).
Context (retrieve_key : result Key string).
Context (snapshot_clock : nat → StateId) (ban_clock : nat → Z).
Context (call_index : result Bytes string).
Context (from_tuple : Bytes → ShardIdentifier → option SidechainBlockConfirmation → SidechainBlockConfirmation → OpaqueCall).
Abbreviation World' := (World (PcImport.Env V X W P) PB S).
Implicit Types (w : World') (s : ShardIdentifier) (sb : SignedBlock).

(** The enclave as [PeerBlockSync] sees it. *)
#[export] Instance enclave_sync : SyncWorld World' PH := {|
  sw_import_block := import_block shard_status retrieve_key snapshot_clock ban_clock;
  sw_fetch_blocks_from_peer := λ w, oc_fetch_sidechain_blocks_from_peer (ocall w);
  sw_confirm_import := λ w hd s mc,
    let '(e, res) := Confirm.confirm_import call_index from_tuple (env w) hd s mc in (set_env w e, res);
|}.

Lemma import_blocks_app w h bs1 bs2 :
  Sync.import_blocks w h (bs1 ++ bs2) =
    Sync.import_blocks w h bs1 ≫= λ '(w, res), match res with Ok h => Sync.import_blocks w h bs2 | Err e => Ret (w, Err e) end.
Proof.
  revert w h. induction bs1 as [|b bs1 IH]; intros w h; [done|]. cbn [app Sync.import_blocks].
  destruct (sw_import_block _ _ _) as [[w1 [h1|e]]| |]; cbn [mbind outcome_bind]; [apply IH|done..].
Qed.

Lemma import_one_block w h sb : Sync.import_blocks w h [sb] = sw_import_block w sb h.
Proof.
  cbn [Sync.import_blocks]. by destruct (sw_import_block _ _ _) as [[w1 [h1|e]]| |].
Qed.

Lemma sync_then_import_spec w sb h last_hash bs :
  oc_fetch_sidechain_blocks_from_peer (ocall w) last_hash (Some (hash (block sb))) (shard_id (header (block sb))) = Ok bs →
  Sync.sync_then_import w sb h last_hash = Sync.import_blocks w h (bs ++ [sb]).
Proof.
  intros Hf. unfold Sync.sync_then_import, Sync.fetch_and_import_blocks_from_peer. cbn [sw_fetch_blocks_from_peer enclave_sync].
  rewrite Hf, import_blocks_app. destruct (Sync.import_blocks _ _ bs) as [[w1 [h1|e]]| |]; [|done..].
  cbn [mbind outcome_bind]. by rewrite import_one_block.
Qed.

(** The hash a sync starts from. *)
Definition known_hash (last : option Block) : N := match last with Some b => hash b | None => default_hash end.

(** The block does not follow on the last one, and is not one of the blocks before it. *)
Definition ahead (last : option Block) (b : Block) : Prop :=
  match last with
  | Some l => (0 ≤ block_number (header l) ∧ block_number (header l) + 1 < block_number (header b) ≤ u64_max)%Z
  | None => block_number (header b) ≠ 1%Z ∨ parent_hash (header b) ≠ default_hash
  end.

(** The errors that start a sync. *)
Definition sync_error (last : option Block) (e : VerificationError) : Prop :=
  match last with
  | Some l => ∃ msg, e = BlockAncestryMismatch (block_number (header l)) (hash l) msg
  | None => ∃ n msg, e = InvalidFirstBlock n msg
  end.

Lemma ahead_ancestry last b : ahead last b → ∃ e, VerifyInv.ancestry last b = Err e ∧ sync_error last e.
Proof.
  unfold ahead, sync_error, VerifyInv.ancestry. destruct last as [l|].
  - intros [Hl Hn]. unfold Verify.verify_block_ancestry.
    destruct (Z.leb_spec (block_number (header b)) (block_number (header l))); [lia|].
    rewrite u64_wrap_small by (unfold is_u64; lia).
    destruct (Z.eqb_spec (block_number (header l) + 1) (block_number (header b))); [lia|]. eauto.
  - intros Hn. unfold Verify.ensure_first_block. destruct (Z.eqb_spec (block_number (header b)) 1); [|by eauto].
    simpl. rewrite decide_False by naive_solver. eauto.
Qed.

(** A signed block that is ahead starts a sync from the last block. *)
Lemma ahead_syncs w sb h l mc :
  w_ok w → let s := shard_id (header (block sb)) in
  is_Some (view w !! s) → verify_signature sb = true →
  Validateers.current_validateers shard_status (reference_header w sb h) s = Ok l →
  ahead (last_of (env w) s) (block sb) →
  Sync.import_or_sync_block w sb h mc = Sync.sync_then_import w sb h (known_hash (last_of (env w) s)).
Proof.
  intros Hok s [st Hst] Hsig Hl Hah. unfold Sync.import_or_sync_block. cbn [sw_import_block enclave_sync].
  unfold import_block. fold (reference_header w sb h). fold s.
  rewrite (verify_import_spec shard_status w sb h Hok). fold s. rewrite Hst.
  assert (last_of (env w) s = ScState.get_last_block st) as Hlast by (unfold last_of; unfold view in Hst; by rewrite Hst).
  destruct (ahead_ancestry _ _ Hah) as (e & He & Hse). rewrite Hlast in *.
  unfold Validateers.aura_verify, Validateers.authorities. rewrite Hl.
  rewrite VerifyInv.verify_sidechain_block_unfold by apply slot_duration_pos. rewrite Hsig, He. cbn [mbind outcome_bind].
  unfold sync_error in Hse. destruct (ScState.get_last_block st) as [b|]; [destruct Hse as [msg ->]|destruct Hse as (n & msg & ->)]; done.
Qed.

(** *** Whatever is received *)

(** The chain of every shard grows by blocks of the right authors, each linked to
    the one before. *)
Record grows w w' : Prop := {
  gr_ok : w_ok w';
  gr_chain : ∀ s, ∃ bs, Forall (authored shard_status) bs ∧ Forall (λ sb, shard_id (header (block sb)) = s) bs ∧
    linked (last_of (env w) s) (block <$> bs) ∧
    last_of (env w') s = match last bs with Some sb => Some (block sb) | None => last_of (env w) s end;
}.

(** The host is only asked to store blocks, one by one. *)
Record extends w w' : Prop := {
  ex_grows : grows w w';
  ex_ocall : ∃ stored, ocall w' = foldl (λ o sb, (oc_store_sidechain_blocks o [sb]).1) (ocall w) stored;
}.

Definition ex_ok w w' (He : extends w w') : w_ok w' := gr_ok _ _ (ex_grows _ _ He).

Lemma linked_app last bs1 bs2 :
  linked last (bs1 ++ bs2) ↔ linked last bs1 ∧ linked (match list.last bs1 with Some b => Some b | None => last end) bs2.
Proof.
  revert last. induction bs1 as [|b bs1 IH]; intros last; [naive_solver|]. cbn [app linked].
  rewrite IH, last_cons. destruct (list.last bs1); naive_solver.
Qed.

Lemma grows_same w w' : w_ok w' → (∀ s, last_of (env w') s = last_of (env w) s) → grows w w'.
Proof. intros Hok Hl. split; [done|]. intros s. exists []. rewrite Hl. by split_and!. Qed.

Lemma grows_trans w1 w2 w3 : grows w1 w2 → grows w2 w3 → grows w1 w3.
Proof.
  intros [_ E1] [Hok E2]. split; [done|]. intros s.
  destruct (E1 s) as (bs1 & Ha1 & Hs1 & Hl1 & Ho1), (E2 s) as (bs2 & Ha2 & Hs2 & Hl2 & Ho2).
  exists (bs1 ++ bs2). split; [by apply Forall_app|]. split; [by apply Forall_app|]. rewrite Ho1 in Hl2, Ho2. split.
  - rewrite fmap_app. apply linked_app. split; [done|]. rewrite fmap_last. by destruct (last bs1).
  - rewrite Ho2, last_app. by destruct (last bs2), (last bs1).
Qed.

Lemma extends_same w w' : w_ok w' → (∀ s, last_of (env w') s = last_of (env w) s) → ocall w' = ocall w → extends w w'.
Proof. intros Hok Hl Ho. split; [by apply grows_same|by exists []]. Qed.

Lemma extends_trans w1 w2 w3 : extends w1 w2 → extends w2 w3 → extends w1 w3.
Proof.
  intros [E1 [l1 O1]] [E2 [l2 O2]]. split; [by eapply grows_trans|]. exists (l1 ++ l2). by rewrite O2, O1, foldl_app.
Qed.

Lemma import_block_extends w sb h :
  w_ok w → ∃ w' res, import_block shard_status retrieve_key snapshot_clock ban_clock w sb h = Ret (w', res) ∧ extends w w'.
Proof.
  intros Hok. destruct (import_block_cases shard_status retrieve_key snapshot_clock ban_clock w sb h Hok)
    as (w' & res & Hi & Hok' & Hcases). exists w', res. split; [done|].
  assert (∃ stored, ocall w' = foldl (λ o sb, (oc_store_sidechain_blocks o [sb]).1) (ocall w) stored) as Hstored.
  { destruct Hcases as [e Hw|e|e|e _ Hst _|h' _ Hst _]; [exists []; by rewrite Hw|by exists []..| |]; exists [sb]; simpl; by rewrite Hst. }
  split; [|done]. split; [done|]. intros s. apply import_outcome_cases in Hcases as [[_ Hl]|[Hac Htop]].
  { exists []. rewrite Hl. by split_and!. }
  rewrite (Htop s). case_decide as Hs.
  - exists [sb]. split_and!; [|by constructor| |done].
    + constructor; [by eapply accepted_authored|constructor].
    + split; [|done]. rewrite Hs. apply (ac_succeeds _ _ _ _ Hac).
  - exists []. by split_and!.
Qed.

Lemma import_blocks_extends w h bs :
  w_ok w → ∃ w' res, Sync.import_blocks w h bs = Ret (w', res) ∧ extends w w'.
Proof.
  revert w h. induction bs as [|sb bs IH]; intros w h Hok; cbn [Sync.import_blocks].
  { exists w, (Ok h). split; [done|]. by apply extends_same. }
  destruct (import_block_extends w sb h Hok) as (w1 & res & Hi & He).
  cbn [sw_import_block enclave_sync]. rewrite Hi. cbn [mbind outcome_bind]. destruct res as [h1|e]; [|by eexists _, _].
  destruct (IH w1 h1 (ex_ok _ _ He)) as (w2 & res2 & -> & He2). eexists _, _. split; [done|]. by eapply extends_trans.
Qed.

Lemma sync_then_import_extends w sb h last_hash :
  w_ok w → ∃ w' res, Sync.sync_then_import w sb h last_hash = Ret (w', res) ∧ extends w w'.
Proof.
  intros Hok. unfold Sync.sync_then_import, Sync.fetch_and_import_blocks_from_peer.
  destruct (sw_fetch_blocks_from_peer _ _ _ _) as [bs|status].
  - destruct (import_blocks_extends w h bs Hok) as (w1 & res & -> & He). cbn [mbind outcome_bind].
    destruct res as [h1|e]; [|by eexists _, _]. cbn [sw_import_block enclave_sync].
    destruct (import_block_extends w1 sb h1 (ex_ok _ _ He)) as (w2 & res2 & -> & He2).
    eexists _, _. split; [done|]. by eapply extends_trans.
  - eexists _, _. split; [done|]. by apply extends_same.
Qed.

(** A confirmation leaves states and top pool alone. *)
Lemma confirm_same (e : PcImport.Env V X W P) hd s mc :
  let e' := (Confirm.confirm_import call_index from_tuple e hd s mc).1 in
  PcImport.states e' = PcImport.states e ∧ PcImport.top_pool e' = PcImport.top_pool e.
Proof.
  unfold Confirm.confirm_import. destruct (_ =? _)%Z; [|done]. destruct call_index as [call|err]; [|done].
  destruct (create_extrinsics _ _) as [x [xts|err]]; [|done]. by destruct (lc_send_extrinsics _ _).
Qed.

Lemma import_or_sync_extends w sb h mc :
  w_ok w → ∃ w' res, Sync.import_or_sync_block w sb h mc = Ret (w', res) ∧ extends w w'.
Proof.
  intros Hok. unfold Sync.import_or_sync_block. cbn [sw_import_block sw_confirm_import enclave_sync].
  destruct (import_block_extends w sb h Hok) as (w1 & res & -> & He). cbn [mbind outcome_bind].
  destruct res as [h1|e].
  - pose proof (confirm_same (env w1) (header (block sb)) (shard_id (header (block sb))) mc) as [Hs Hp].
    destruct (Confirm.confirm_import _ _ _ _ _ _) as [e' res]. cbn [fst] in Hs, Hp.
    eexists _, _. split; [done|]. eapply extends_trans; [exact He|]. destruct (ex_ok _ _ He) as [Hhs Htp]. apply extends_same.
    + split; unfold env, set_env; cbn [Dispatch.block_importer trigger]; congruence.
    + intros s. unfold last_of, env, set_env. cbn [Dispatch.block_importer trigger]. fold (env w1). by rewrite Hs.
    + done.
  - assert (∀ x, ∃ w' res, Sync.sync_then_import w1 sb h x = Ret (w', res) ∧ extends w w') as Hsync.
    { intros x. destruct (sync_then_import_extends w1 sb h x (ex_ok _ _ He)) as (w2 & res2 & -> & He2).
      eexists _, _. split; [done|]. by eapply extends_trans. }
    destruct e; try apply Hsync; by eexists _, _.
Qed.

Lemma process_queue_extends w q h mc :
  w_ok w → ∃ w' h', Sync.process_queue w q h mc = Ret (w', [], h') ∧ extends w w'.
Proof.
  intros Hok. rewrite QueueInv.process_queue_spec. generalize (QueueInv.competitors q) as gs. intros gs.
  enough (∃ w' h', QueueInv.try_competitors w h mc gs = Ret (w', h') ∧ extends w w') as (w' & h' & -> & He) by eauto.
  revert w h Hok. induction gs as [|g gs IH]; intros w h Hok; cbn [QueueInv.try_competitors].
  { eexists _, _. split; [done|]. by apply extends_same. }
  assert (∃ w1 h1 b, Sync.import_first w h mc g = Ret (w1, h1, b) ∧ extends w w1) as (w1 & h1 & b & -> & He).
  { clear IH. revert w Hok. induction g as [|sb g IHg]; intros w Hok; cbn [Sync.import_first].
    { eexists _, _, _. split; [done|]. by apply extends_same. }
    destruct (import_or_sync_extends w sb h mc Hok) as (w1 & res & -> & He). cbn [mbind outcome_bind].
    destruct res as [h1|e]; [by eexists _, _, _|].
    destruct (IHg w1 (ex_ok _ _ He)) as (w2 & h2 & b & -> & He2). eexists _, _, _. split; [done|]. by eapply extends_trans. }
  cbn [mbind outcome_bind]. destruct (IH w1 h1 (ex_ok _ _ He)) as (w2 & h2 & -> & He2).
  eexists _, _. split; [done|]. by eapply extends_trans.
Qed.
End sync.
End SyncInv.
