(* ===== verification/PeerSyncProps.v ===== *)
(** The properties of the import of received blocks. *)

From stdpp Require Import base gmap numbers sorting strings list.
From S2P Require Import Prelude Collections PoolTypes Externalities SidechainDb Durations StfTypes SidechainStorage.
From S2P Require Import StorageInv SidechainState SidechainBlocks.
From S2P Require Import Dispatcher StateFileIo StateHandler Consensus BlockComposer ParentchainImport BlockImport BlockImportInv.
From S2P Require Import SidechainOCalls PeerSync StorageProps AuthorProps ConsensusSample.

Import Ext(SgxExternalities).
Import Storage(SidechainStorage, LastSidechainBlock).
Import Sc.
Open Scope worker_scope.

(** ** The queue *)

Section queue.
Context `{Blake2} `{Encode SidechainHeader} {Wd PH : Type} `{SyncWorld Wd PH}.

(** C28: The queue of received blocks is worked off in an order that does not
    depend on the order in which the blocks arrived, as long as blocks with one
    header are one block; the queue is empty afterwards.  When the received blocks
    have different numbers, they are imported one after the other by number. *)
Theorem queue_order_is_irrelevant (w : Wd) (q1 q2 : list SignedBlock) (h : PH) mc :
  q1 ≡ₚ q2 → (∀ x y, x ∈ q1 → y ∈ q1 → hash (block x) = hash (block y) → x = y) →
  Sync.process_queue w q1 h mc = Sync.process_queue w q2 h mc ∧
  (StronglySorted (λ x y, block_number (header (block x)) < block_number (header (block y)))%Z q2 →
    Sync.process_queue w q1 h mc = QueueInv.try_each w h mc q2 ≫= λ '(w, h), Ret (w, [], h)).
Proof.
  intros Hp Hinj. rewrite !QueueInv.process_queue_spec, (QueueInv.competitors_perm q1 q2) by eauto.
  split; [done|]. intros Hs. by rewrite QueueInv.competitors_chain, QueueInv.try_competitors_single.
Qed.
End queue.

(** ** Sync *)

Section sync.
Import ScImport ImportInv SyncInv.
Context `{Encode SgxExternalitiesType} `{Blake2} `{!CollisionFree} `{EncodeAppend} `{Twox} `{!ScStateInv.TwoxLaws}.
Context `{Encode Z, Decode Z} `{Encode N, Decode N} `{!PrefixCodec N}.
Context `{Encode SidechainHeader, Decode SidechainHeader} `{!Codec SidechainHeader} `{Encode BlockData}.
Context `{Encode Block, Decode Block} `{!Codec Block} `{Decode StateUpdate}.
Context {Pair Key PH PB V X W P TCS G Xt : Type} `{SignatureScheme Pair} `{StateCrypto Key}.
Context `{ParentchainHeader PH} `{ParentchainBlock PB PH} `{LightClient V PB Xt} `{ExtrinsicsFactory X Xt}.
Context {initialize : result SgxExternalities StateHandlerError} {top_hash : StfTrustedOperation TCS G → TxHash}.
Context `{HandleState W} `{!HandleStateLaws W initialize} `{TopPool P TCS G} `{!TopPoolLaws P TCS G top_hash}.
Context `{ImportParentchainBlocks (PcImport.Env V X W P) PB ImporterError}.
Context `{!SafeImporter (PB := PB) (V := V) (X := X) initialize top_hash}.
Context (shard_status : PH → ShardIdentifier → result (option (list Public)) string).
Context (retrieve_key : result Key string).
Context (snapshot_clock : nat → StateId) (ban_clock : nat → Z).
Context (call_index : result Bytes string).
Context (from_tuple : Bytes → ShardIdentifier → option SidechainBlockConfirmation → SidechainBlockConfirmation → OpaqueCall).

(** The host, its database and the one of its peer. *)
Context {Db Net Url : Type} `{RocksDb Db} `{!ReliableDb Db} `{Network Net}.
Context `{Encode DbKey} `{!KeyCodec} `{Encode (list ShardIdentifier)} `{Encode LastSidechainBlock}.
Context `{Encode (option N), Decode (option N)} `{!PrefixCodec (option N)}.
Context `{Encode SignedBlock, Decode SignedBlock} `{!Codec SignedBlock}.
Context `{Encode (list SignedBlock), Decode (list SignedBlock)} `{!PrefixCodec (list SignedBlock)}.
Context (get_untrusted_peer_url_of_shard : ShardIdentifier → result Url string).
Context (request : Url → N * option N * ShardIdentifier → result (list SignedBlock) string).

#[local] Instance ocalls : SidechainOCall (Host Db Net) :=
  SidechainBridge.host_ocall (PeerFetch.fetch_blocks_from_peer get_untrusted_peer_url_of_shard request) SGX_SUCCESS.
#[local] Instance sync_world : SyncWorld (World (PcImport.Env V X W P) PB (Host Db Net)) PH :=
  enclave_sync shard_status retrieve_key snapshot_clock ban_clock call_index from_tuple.

Abbreviation World' := (World (PcImport.Env V X W P) PB (Host Db Net)).
Implicit Types (w : World') (s : ShardIdentifier) (sb : SignedBlock) (c : list SignedBlock).

(** The peer of a shard answers from its storage, which holds the chain. *)
Record peer_serves (fuel : nat) (peer : SidechainStorage Db) m s c : Prop := {
  ps_inv : StorageOps.storage_inv peer m;
  ps_chain : m !! s = Some c;
  ps_good : StorageFetch.good_chain c;
  ps_fuel : (length c ≤ fuel)%nat;
  ps_request : ∃ url, get_untrusted_peer_url_of_shard s = Ok url ∧
    ∀ params bs, PeerFetch.handle_fetch fuel peer params = Ret (Ok bs) → request url params = Ok bs;
}.

(** The last block of a worker that has the first [k] blocks of a chain. *)
Definition has_first (k : nat) c (last : option Block) : Prop :=
  match k with
  | 0%nat => last = None ∧ ∃ b, head c = Some b ∧ parent_hash (header (block b)) = default_hash
  | S i => ∃ a, c !! i = Some a ∧ last = Some (block a)
  end.

Lemma peer_range fuel peer m s c k j last sb :
  peer_serves fuel peer m s c → has_first k c last → c !! j = Some sb → (k ≤ j)%nat →
  PeerFetch.fetch_blocks_from_peer get_untrusted_peer_url_of_shard request (known_hash last) (Some (hash (block sb))) s =
    Ok (take (j - k) (drop k c)).
Proof.
  intros [Hi Hm Hg Hf (url & Hu & Hr)] Hk Hj Hkj. unfold PeerFetch.fetch_blocks_from_peer. rewrite Hu.
  apply Hr. cbn [PeerFetch.handle_fetch]. unfold Storage.get_blocks_in_range.
  assert (Storage.get_blocks_after fuel peer (known_hash last) s = Ret (Ok (drop k c))) as ->.
  { destruct k as [|i].
    - destruct Hk as [-> (b & Hb & Hp)]. rewrite head_lookup in Hb. by eapply StorageFetch.after_start.
    - destruct Hk as (a & Ha & ->). by eapply (StorageFetch.after_known _ _ _ _ _ Hi Hm Hg). }
  cbn [mbind outcome_bind]. do 2 f_equal.
  exact (StorageFetch.range_between s c k j sb (StorageInv.rp_chain _ _ _ _ (StorageOps.si_rep _ _ Hi) _ _ Hm) Hkj Hj).
Qed.

Lemma has_first_ahead fuel peer m s c k j last sb :
  peer_serves fuel peer m s c → has_first k c last → c !! j = Some sb → (k < j)%nat → ahead last (block sb).
Proof.
  intros [Hi Hm Hg _ _] Hk Hj Hkj.
  destruct (StorageInv.rp_chain _ _ _ _ (StorageOps.si_rep _ _ Hi) _ _ Hm) as [_ [k0 Hn]].
  destruct (Hn _ _ Hj) as (_ & Hnj & Hbj). cbn in Hnj, Hbj. unfold StorageInv.block_ok in Hbj. cbn in Hbj.
  destruct k as [|i].
  - destruct Hk as [-> _]. right. destruct j as [|j]; [lia|].
    destruct (lookup_lt_is_Some_2 c j) as [a Ha]; [apply lookup_lt_Some in Hj; lia|].
    pose proof (StorageFetch.gc_linked _ Hg _ _ _ Ha Hj) as Hp. cbn in Hp. rewrite Hp.
    apply (StorageFetch.gc_hash _ Hg). by eapply list_elem_of_lookup_2.
  - destruct Hk as (a & Ha & ->). destruct (Hn _ _ Ha) as (_ & Hna & Hba). cbn in Hna, Hba.
    unfold StorageInv.block_ok in Hba. cbn in Hba. split; lia.
Qed.

(** Blocks that are imported one after the other. *)
Lemma import_blocks_result w h bs w' h' s :
  w_ok w → Forall (λ sb, shard_id (header (block sb)) = s) bs → Sync.import_blocks w h bs = Ret (w', Ok h') →
  last_of (env w') s = match last bs with Some sb => Some (block sb) | None => last_of (env w) s end ∧
  host_storage (ocall w') = foldl (λ st sb, (Storage.store_blocks st [sb]).1) (host_storage (ocall w)) bs.
Proof.
  revert w h. induction bs as [|sb bs IH]; intros w h Hok Hs Himp.
  { by injection Himp as <- <-. }
  apply Forall_cons in Hs as [Hs Hbs]. cbn [Sync.import_blocks sw_import_block sync_world enclave_sync] in Himp.
  destruct (import_block_cases shard_status retrieve_key snapshot_clock ban_clock w sb h Hok) as (w1 & res & Hi & Hok1 & Hcases).
  rewrite Hi in Himp. cbn [mbind outcome_bind] in Himp. destruct Hcases as [e _|e|e|e|h1 _ Hst Htop]; try discriminate Himp.
  destruct (IH w1 h1 Hok1 Hbs Himp) as [Hl Hh]. split.
  - rewrite Hl, last_cons. destruct (last bs); [done|]. rewrite (Htop s). by rewrite decide_True.
  - rewrite Hh. cbn [foldl]. f_equal. cbn [oc_store_sidechain_blocks ocalls SidechainBridge.host_ocall] in Hst.
    rewrite SidechainBridge.enclave_store_spec in Hst by done. by injection Hst as <-.
Qed.

(** C9: A worker catches up.  When it receives a signed block that is further
    ahead than the next one, it fetches from its peer and imports exactly the
    blocks between its last block (or the start of the chain) and the received
    one, oldest first, and then the received one, provided the answer fits the
    buffer of the ocall, and otherwise reports an error and changes nothing.  When
    these imports succeed, the received block is its last one and all of them were
    handed to its storage in order. *)
Theorem sync_imports_the_missing_blocks w fuel peer m s c k j sb (h : PH) l mc :
  w_ok w → is_Some (view w !! s) → peer_serves fuel peer m s c →
  has_first k c (last_of (env w) s) → c !! j = Some sb → (k < j)%nat →
  verify_signature sb = true → Validateers.current_validateers shard_status (reference_header w sb h) s = Ok l →
  let missing := take (j - k) (drop k c) in
  Sync.import_or_sync_block w sb h mc =
    (if decide (length (encode missing) ≤ SidechainBridge.BLOCK_BUFFER_SIZE)%nat then Sync.import_blocks w h (missing ++ [sb])
     else Ret (w, Err (CsSgx SGX_ERROR_UNEXPECTED))) ∧
  ∀ w' h', Sync.import_blocks w h (missing ++ [sb]) = Ret (w', Ok h') →
    last_of (env w') s = Some (block sb) ∧
    host_storage (ocall w') = foldl (λ st sb, (Storage.store_blocks st [sb]).1) (host_storage (ocall w)) (missing ++ [sb]).
Proof.
  intros Hok Hs Hp Hk Hj Hkj Hsig Hl missing.
  destruct (StorageInv.rp_chain _ _ _ _ (StorageOps.si_rep _ _ (ps_inv _ _ _ _ _ Hp)) _ _ (ps_chain _ _ _ _ _ Hp)) as [_ [k0 Hn]].
  assert (∀ x, x ∈ c → shard_id (header (block x)) = s) as Hin.
  { intros x [i Hx]%list_elem_of_lookup. by destruct (Hn _ _ Hx). }
  assert (shard_id (header (block sb)) = s) as Hsb by (by eapply Hin, list_elem_of_lookup_2).
  split.
  - pose proof (ahead_syncs shard_status retrieve_key snapshot_clock ban_clock call_index from_tuple w sb h l mc) as Ha.
    cbv zeta in Ha. rewrite Hsb in Ha. fold sync_world in Ha. rewrite Ha by (done || by eapply has_first_ahead). clear Ha.
    pose proof (peer_range fuel peer m s c k j _ sb Hp Hk Hj ltac:(lia)) as Hr. fold missing in Hr.
    assert (∀ r, SidechainBridge.enclave_fetch_sidechain_blocks_from_peer
        (PeerFetch.fetch_blocks_from_peer get_untrusted_peer_url_of_shard request) SGX_SUCCESS
        (known_hash (last_of (env w) s)) (Some (hash (block sb))) s = r →
      oc_fetch_sidechain_blocks_from_peer (ocall w) (known_hash (last_of (env w) s)) (Some (hash (block sb)))
        (shard_id (header (block sb))) = r) as Hfetch by (rewrite Hsb; done).
    rewrite SidechainBridge.enclave_fetch_spec, Hr in Hfetch by done. case_decide.
    + exact (sync_then_import_spec _ _ _ _ _ _ w sb h _ _ (Hfetch _ eq_refl)).
    + unfold Sync.sync_then_import, Sync.fetch_and_import_blocks_from_peer.
      cbn [sw_fetch_blocks_from_peer sync_world enclave_sync]. by rewrite (Hfetch _ eq_refl).
  - intros w' h' Himp. destruct (import_blocks_result w h (missing ++ [sb]) w' h' s Hok) as [Hlast Hst]; [|done|].
    + apply Forall_app. split; [|by constructor]. apply Forall_forall. intros x Hx. apply Hin.
      by apply subseteq_take, subseteq_drop in Hx.
    + by rewrite last_snoc in Hlast.
Qed.
End sync.

(** ** Witnesses *)

Module QueueSample.
Import Sample.

(** An importer that logs the numbers of the blocks and refuses number 3. *)
#[export] Instance log_world : SyncWorld (list Z) unit := {|
  sw_import_block := λ w sb h,
    let n := block_number (header (block sb)) in
    if decide (n = 3%Z) then Ret (w, Err (CsOther (CauseText "three"))) else Ret (w ++ [n], Ok h);
  sw_fetch_blocks_from_peer := λ _ _ _ _, Ok [];
  sw_confirm_import := λ w _ _ _, (w, Ok tt);
|}.

Definition numbered_block (n : Z) : SignedBlock :=
  MkSignedBlock (MkBlock (MkHeader 0%N n 0%N 0%N 0) (MkBlockData 0 0%N 0%N [] [])) [].
Definition received : list SignedBlock := numbered_block <$> [4; 2; 3; 1]%Z.
Definition in_sequence : list SignedBlock := numbered_block <$> [1; 2; 3; 4]%Z.
End QueueSample.

Section witness.
Import Sample QueueSample.
#[local] Instance dec_header : Decode SidechainHeader := count_decode.
#[local] Instance codec_header : Codec SidechainHeader := count_codec.

Lemma queue_order_is_irrelevant_witness :
  Sync.process_queue ([] : list Z) received tt None = Ret ([1; 2; 4]%Z, [], tt).
Proof.
  destruct (queue_order_is_irrelevant ([] : list Z) received in_sequence tt None) as [_ Hq].
  - apply fmap_Permutation, NoDup_Permutation; [apply (bool_decide_unpack _); by vm_compute..|set_solver].
  - intros x y (n & -> & _)%list_elem_of_fmap (k & -> & _)%list_elem_of_fmap Hh%block_hash_header. by injection Hh as <-.
  - rewrite Hq; [by vm_compute|]. repeat constructor.
Defined.

(** Two blocks of a peer; the worker has none of them. *)
Definition block_1 : SignedBlock :=
  sign_block (MkBlock (MkHeader 0%N 1 shard 0%N 0) (MkBlockData 2000 5%N 70%N [] [])) 70%N.
Definition block_2 : SignedBlock :=
  sign_block (MkBlock (MkHeader (hash (block block_1)) 2 shard 0%N 0) (MkBlockData 3000 5%N 71%N [] [])) 71%N.
Definition peer_chain : list SignedBlock := [block_1; block_2].

#[local] Existing Instances StorageSample.mem_db StorageSample.mem_reliable StorageSample.enc_key StorageSample.enc_key_codec.
#[local] Existing Instances StorageSample.enc_shards StorageSample.dec_shards StorageSample.codec_shards.
#[local] Existing Instances StorageSample.enc_last StorageSample.dec_last StorageSample.codec_last.
#[local] Instance signed_block_countable : Countable SignedBlock.
Proof. refine (inj_countable' (λ b, (block b, signature b)) (λ '(a, b), MkSignedBlock a b) _). by intros []. Defined.
#[local] Instance enc_signed : Encode SignedBlock := count_encode.
#[local] Instance dec_signed : Decode SignedBlock := count_decode.
#[local] Instance codec_signed : Codec SignedBlock := count_codec.
#[local] Instance enc_blocks : Encode (list SignedBlock) := count_encode.
#[local] Instance dec_blocks : Decode (list SignedBlock) := count_decode.
#[local] Instance codec_blocks : PrefixCodec (list SignedBlock) := count_prefix.
#[local] Instance enc_option : Encode (option N) := count_encode.
#[local] Instance dec_option : Decode (option N) := count_decode.
#[local] Instance codec_option : PrefixCodec (option N) := count_prefix.
#[local] Instance codec_hashes : PrefixCodec N := count_prefix.
#[local] Instance no_network : Network unit := {| update_peers := λ n _, Ret (n, Ok tt); broadcast_blocks := λ n _, (n, Ok tt) |}.

Definition peer : SidechainStorage StorageSample.MemDb := (Storage.store_blocks (Storage.MkStorage ∅ [] ∅) peer_chain).1.
Definition peer_request (_ : unit) (params : N * option N * ShardIdentifier) : result (list SignedBlock) string :=
  match PeerFetch.handle_fetch 2 peer params with Ret (Ok bs) => Ok bs | _ => Err "fetch"%string end.

Lemma peer_inv : StorageOps.storage_inv peer {[shard := peer_chain]}.
Proof.
  destruct (StorageOps.store_blocks_spec (Db := StorageSample.MemDb) (Storage.MkStorage ∅ [] ∅) ∅ peer_chain) as (st & Heq & Hi).
  - by apply (storage_inv_empty (Db := StorageSample.MemDb) ∅).
  - repeat constructor; vm_compute; done.
  - unfold peer. rewrite Heq. replace ({[shard := peer_chain]} : gmap ShardIdentifier (list SignedBlock))
      with (foldl StorageOps.q_store ∅ peer_chain); [done|]. by vm_compute.
Qed.

Lemma peer_chain_good : StorageFetch.good_chain peer_chain.
Proof.
  split.
  - intros [|[|i]] a b Ha Hb; simpl in *; simplify_eq; done.
  - intros b Hb. repeat (apply elem_of_cons in Hb as [->|Hb]; [by vm_compute|]). by apply elem_of_nil in Hb.
Qed.

Lemma peer_serves_chain : peer_serves (λ _, Ok tt) peer_request 2 peer {[shard := peer_chain]} shard peer_chain.
Proof.
  split; [apply peer_inv|done|apply peer_chain_good|simpl; lia|].
  exists tt. split; [done|]. intros params bs Hh. unfold peer_request. by rewrite Hh.
Qed.

(** The sample enclave on a host with an empty storage. *)
Definition host_world : ScImport.World SampleEnv N (Host StorageSample.MemDb unit) :=
  ScImport.MkWorld (ScImport.trigger Sample.world) (MkHost (Storage.MkStorage ∅ [] ∅) tt) [] 0.

#[local] Instance sample_sync : SyncWorld (ScImport.World SampleEnv N (Host StorageSample.MemDb unit)) N :=
  sync_world (Xt := N) Sample.shard_status (Ok tt) Sample.snapshot_clock Sample.ban_clock (Ok []) (λ _ _ _ _, [])
    (λ _, Ok tt) peer_request.

Lemma sync_imports_the_missing_blocks_witness :
  Sync.import_or_sync_block host_world block_2 4%N None = Sync.import_blocks host_world 4%N [block_1; block_2].
Proof.
  destruct (sync_imports_the_missing_blocks (Xt := N) Sample.shard_status (Ok tt) Sample.snapshot_clock Sample.ban_clock (Ok [])
    (λ _ _ _ _, []) (λ _, Ok tt) peer_request host_world 2 peer {[shard := peer_chain]} shard peer_chain 0 1 block_2 4%N
    [70; 71]%N None) as [Hsync _].
  - exact Sample.world_ok.
  - eexists. reflexivity.
  - exact peer_serves_chain.
  - split; [reflexivity|]. exists block_1. split; reflexivity.
  - reflexivity.
  - lia.
  - vm_compute. reflexivity.
  - reflexivity.
  - rewrite decide_True in Hsync; [exact Hsync|]. unfold SidechainBridge.BLOCK_BUFFER_SIZE. simpl. lia.
Defined.
End witness.
