(* ===== verification/SidechainCycle.v ===== *)
(** One cycle of the sidechain (src/enclave-runtime/src/top_pool_execution.rs): the
    received blocks are imported, the next slot is yielded, Aura is run on it, and
    the new block is broadcast and the calls of its operations are sent to the
    parentchains. *)

From stdpp Require Import base gmap fin_maps numbers sorting strings list.
From S2P Require Import Prelude Collections PoolTypes StfTypes AuthorProps SidechainDb Externalities SidechainState SidechainBlocks.
From S2P Require Import Dispatcher StateFileIo StateHandler StfExecutor Consensus BlockComposer ParentchainImport.
From S2P Require Import BlockImport BlockImportInv ProposalInv ConsensusSample Durations Slots Aura PeerSync.

Import Ext(SgxExternalities).
Import Sc Slots.
Open Scope worker_scope.

(** The ocall that broadcasts blocks. *)
Class ProposeOCall (S : Type) := oc_propose_sidechain_blocks : S → list SignedBlock → outcome (S * result unit Z).

(** The light clients and the factories of extrinsics of the three parentchains. *)
Class Parentchains (V X PH Xt : Type) := {
  latest_finalized_header : ParentchainId → V → result PH string;
  create_extrinsics_for : ParentchainId → X → list OpaqueCall → X * result (list Xt) string;
  send_extrinsics_for : ParentchainId → V → list Xt → V * result unit string;
}.

Module Cycle.
Import Dispatch PcImport ScImport Aura.

Inductive CycleError :=
| CyComponent (msg : string)
| CyLightClient (msg : string)
| CyStateHandler (e : StateHandlerError)
| NoShardAssigned
| TooManyShardsAssigned
| CyStorage (msg : string)
| CySlot (msg : string)
| CySgx (status : Z)
| CyExtrinsics (msg : string).

(** The sidechain in the enclave. *)
Record Enclave (E PB S : Type) := MkEnclave {
  aura_world : AuraWorld E PB S;
  block_import_queue : list SignedBlock;
  last_slot : Slot;
}.
Arguments MkEnclave {E PB S} _ _ _.
Arguments aura_world {E PB S} _.
Arguments block_import_queue {E PB S} _.
Arguments last_slot {E PB S} _.

(** The readings of the clock in one cycle. *)
Record CycleReadings (Mr : Type) := MkCycleReadings {
  slot_beginning_timestamp : Duration;
  cy_remaining : Duration;
  cy_scheduler : nat → Duration;
  cy_slot : SlotReadings Mr;
}.
Arguments MkCycleReadings {Mr} _ _ _ _.
Arguments slot_beginning_timestamp {Mr} _.
Arguments cy_remaining {Mr} _.
Arguments cy_scheduler {Mr} _ _.
Arguments cy_slot {Mr} _.

Definition as_opaque_call_for (id : ParentchainId) (c : ParentchainCall) : option OpaqueCall :=
  match c with MkParentchainCall id' call => if decide (id' = id) then Some call else None end.

Section cycle.
Context `{Encode SgxExternalitiesType} `{Blake2} `{EncodeAppend} `{Twox}.
Context `{Encode Z, Decode Z} `{Encode N, Decode N}.
Context `{Encode SidechainHeader} `{Encode BlockData} `{Encode Block, Decode Block} `{Encode StateUpdate}.
Context {Pair Key PH PB V X Xt W P S TCS G Mr : Type} `{SignatureScheme Pair} `{StateCrypto Key}.
Context `{ParentchainHeader PH} `{ParentchainBlock PB PH} `{Stf TCS Mr PH}.
Context `{HandleState W} `{TopPool P TCS G} `{SidechainOCall S} `{ProposeOCall S} `{Parentchains V X PH Xt}.
Context (top_hash : StfTrustedOperation TCS G → TxHash).
Context `{ImportParentchainBlocks (Env V X W P) PB ImporterError} `{SyncWorld (World (Env V X W P) PB S) PH}.
Abbreviation Importer := (Env V X W P → list PB → list RawEventsPerBlock → outcome (Env V X W P * result unit ImporterError)).
Context (import_a import_b : Importer).
Context (shard_status : PH → ShardIdentifier → result (option (list Public)) string).
Context (retrieve_key : result Key string).
(** The dispatcher of the Integritee parentchain, the STF executors and the
    signing key, which may be missing, and what is read from the parentchain and
    the vault of the shard. *)
Context (integritee_dispatcher : result unit string) (stf_executor : ParentchainId → result unit string).
Context (authority : result Pair string).
Context (latest_sidechain_block_confirmation : PH → ShardIdentifier → result (option SidechainBlockConfirmation) string).
Context (get_shard_vault_internal : Env V X W P → ShardIdentifier → result ParentchainId string).
Abbreviation Enclave' := (Enclave (Env V X W P) PB S).
Abbreviation AuraWorld' := (AuraWorld (Env V X W P) PB S).
Implicit Types (e : Enclave') (a : AuraWorld').

(** *** Aura *)

Definition aura_worker (signer : Pair) (r : SlotReadings Mr) : SimpleSlotWorker AuraWorld' PH SlotResult :=
  λ a i s, Aura.on_slot top_hash import_a import_b shard_status signer retrieve_key RoundRobin r a i s.

Definition exec_aura_on_slot (signer : Pair) (scheduler_now : nat → Duration) (r : SlotReadings Mr) a (i : SlotInfo PH)
    (shards : list ShardIdentifier) : outcome (AuraWorld' * (list SignedBlock * list ParentchainCall)) :=
  Slots.on_slot (H := aura_worker signer r) scheduler_now a i shards ≫= λ '(a, results),
  Ret (a, (sr_block <$> results, mjoin (sr_parentchain_effects <$> results))).

(** *** Sending *)

(** The calls for one parentchain. *)
Definition send_calls (id : ParentchainId) a (parentchain_calls : list ParentchainCall) : AuraWorld' * result unit CycleError :=
  let calls := omap (as_opaque_call_for id) parentchain_calls in
  match calls with
  | [] => (a, Ok tt)
  | _ =>
      let en := env (main a) in
      match create_extrinsics_for id (factory en) calls with
      | (x, Err err) =>
          (MkAuraWorld (set_env (main a) (MkEnv (validator en) x (states en) (top_pool en))) (target_a a) (target_b a),
           Err (CyExtrinsics err))
      | (x, Ok xts) =>
          let '(v, res) := send_extrinsics_for id (validator en) xts in
          (MkAuraWorld (set_env (main a) (MkEnv v x (states en) (top_pool en))) (target_a a) (target_b a),
           match res with Ok _ => Ok tt | Err err => Err (CyLightClient err) end)
      end
  end.

Definition send_blocks_and_extrinsics a (blocks : list SignedBlock) (parentchain_calls : list ParentchainCall) :
    outcome (AuraWorld' * result unit CycleError) :=
  oc_propose_sidechain_blocks (ocall (main a)) blocks ≫= λ '(o, res),
  let w := main a in
  let a := MkAuraWorld (MkWorld (trigger w) o (block_height_metrics w) (ticks w)) (target_a a) (target_b a) in
  match res with
  | Err status => Ret (a, Err (CySgx status))
  | Ok _ =>
      match send_calls Integritee a parentchain_calls with
      | (a, Err err) => Ret (a, Err err)
      | (a, Ok _) =>
          match send_calls TargetA a parentchain_calls with
          | (a, Err err) => Ret (a, Err err)
          | (a, Ok _) => Ret (send_calls TargetB a parentchain_calls)
          end
      end
  end.

(** *** The cycle *)

(** The latest header of a target that is assigned. *)
Definition target_header (id : ParentchainId) (t : option (TargetQueues PB)) (v : V) : result (option PH) CycleError :=
  match t with
  | None => Ok None
  | Some _ => match latest_finalized_header id v with Ok h => Ok (Some h) | Err err => Err (CyLightClient err) end
  end.

(** What is read before the received blocks are imported: the headers of the
    parentchains, the one shard, and its latest confirmation. *)
Definition prepare_cycle e :
    result (option PH * option PH * PH * ShardIdentifier * option SidechainBlockConfirmation) CycleError :=
  let a := aura_world e in
  let v := validator (env (main a)) in
  let? x := match integritee_dispatcher with Ok x => Ok x | Err err => Err (CyComponent err) end in
  let? header_a := target_header TargetA (target_a a) v in
  let? header_b := target_header TargetB (target_b a) v in
  let? current := match latest_finalized_header Integritee v with Ok h => Ok h | Err err => Err (CyLightClient err) end in
  let? shards := match hs_list_shards (states (env (main a))) with Ok l => Ok l | Err err => Err (CyStateHandler err) end in
  let? shard :=
    match shards with
    | [] => Err NoShardAssigned
    | [shard] => Ok shard
    | _ => Err TooManyShardsAssigned
    end in
  let? confirmation :=
    match latest_sidechain_block_confirmation current shard with Ok c => Ok c | Err err => Err (CyStorage err) end in
  Ok (header_a, header_b, current, shard, confirmation).

(** The executor of the parentchain of the vault, and the signing key. *)
Definition block_producer (en : Env V X W P) (shard : ShardIdentifier) : result Pair CycleError :=
  let? vault_target := match get_shard_vault_internal en shard with Ok id => Ok id | Err err => Err (CyComponent err) end in
  let? x := match stf_executor vault_target with Ok x => Ok x | Err err => Err (CyComponent err) end in
  match authority with Ok p => Ok p | Err err => Err (CyComponent err) end.

(** The slot is yielded and Aura is run on it. *)
Definition produce_blocks (r : CycleReadings Mr) e (signer : Pair) (header : PH) (header_a header_b : option PH)
    (shard : ShardIdentifier) : outcome (Enclave' * result unit CycleError) :=
  yield_next_slot (slot_beginning_timestamp r) SLOT_DURATION header header_a header_b (last_slot e) ≫= λ '(last, res),
  let e := MkEnclave (aura_world e) (block_import_queue e) last in
  match res with
  | Err err => Ret (e, Err (CySlot err))
  | Ok None => Ret (e, Ok tt)
  | Ok (Some i) =>
      match duration_remaining (cy_remaining r) i with
      | None => Ret (e, Ok tt)
      | Some _ =>
          exec_aura_on_slot signer (cy_scheduler r) (cy_slot r) (aura_world e) i [shard] ≫= λ '(a, (blocks, calls)),
          send_blocks_and_extrinsics a blocks calls ≫= λ '(a, res),
          Ret (MkEnclave a (block_import_queue e) (last_slot e), res)
      end
  end.

Definition execute_top_pool_trusted_calls_internal (r : CycleReadings Mr) e : outcome (Enclave' * result unit CycleError) :=
  match prepare_cycle e with
  | Err err => Ret (e, Err err)
  | Ok (header_a, header_b, current, shard, confirmation) =>
      let a := aura_world e in
      Sync.process_queue (main a) (block_import_queue e) current confirmation ≫= λ '(w, queue, latest),
      let e := MkEnclave (MkAuraWorld w (target_a a) (target_b a)) queue (last_slot e) in
      match block_producer (env w) shard with
      | Err err => Ret (e, Err err)
      | Ok signer => produce_blocks r e signer latest header_a header_b shard
      end
  end.
End cycle.
End Cycle.

(** The properties of the cycles of the sidechain. *)

Import Ext(SgxExternalities).
Import Sc Slots SlotsInv.
Open Scope worker_scope.

(** ** Ocalls that log what is broadcast *)

Section log.
Context {S : Type} `{SidechainOCall S} `{ProposeOCall S}.

#[export] Instance logged_ocall : SidechainOCall (S * list (list SignedBlock)) := {|
  oc_store_sidechain_blocks := λ (o : S * list (list SignedBlock)) bs,
    let '(x, res) := oc_store_sidechain_blocks o.1 bs in ((x, o.2), res);
  oc_fetch_sidechain_blocks_from_peer := λ o, oc_fetch_sidechain_blocks_from_peer o.1;
|}.

#[export] Instance logged_propose : ProposeOCall (S * list (list SignedBlock)) := λ o bs,
  oc_propose_sidechain_blocks o.1 bs ≫= λ '(x, res), Ret ((x, o.2 ++ [bs]), res).
End log.

Section cycle.
Import Dispatch PcImport ScImport ImportInv ProposeInv Aura AuraInv SyncInv Cycle.
Context `{Encode SgxExternalitiesType} `{Blake2} `{EncodeAppend} `{Twox} `{!ScStateInv.TwoxLaws}.
Context `{Encode Z, Decode Z} `{!Codec Z} `{Encode N, Decode N}.
Context `{Encode SidechainHeader} `{Encode BlockData} `{Encode Block, Decode Block} `{!Codec Block}.
Context `{Encode StateUpdate, Decode StateUpdate} `{!Codec StateUpdate}.
Context {TCS G Mr PH PB V X Xt W P S0 Pair Key : Type} `{!Stf TCS Mr PH} `{!StfLaws TCS Mr PH} `{!StfSystem TCS Mr PH}.
Context `{SignatureScheme Pair} `{!SignatureLaws Pair} `{StateCrypto Key} `{!StateCryptoLaws Key}.
Context `{ParentchainHeader PH} `{ParentchainBlock PB PH} `{LightClient V PB Xt} `{ExtrinsicsFactory X Xt} `{Parentchains V X PH Xt}.
Context {initialize : result SgxExternalities StateHandlerError} {top_hash : StfTrustedOperation TCS G → TxHash}.
Context `{HandleState W} `{!HandleStateLaws W initialize} `{TopPool P TCS G} `{!TopPoolLaws P TCS G top_hash}.
Context `{importer : ImportParentchainBlocks (Env V X W P) PB ImporterError} `{!SafeImporter (PB := PB) (V := V) (X := X) initialize top_hash}.
Abbreviation Importer := (Env V X W P → list PB → list RawEventsPerBlock → outcome (Env V X W P * result unit ImporterError)).
Context (import_a import_b : Importer).
Context (safe_a : SafeImporter (H := import_a) initialize top_hash) (safe_b : SafeImporter (H := import_b) initialize top_hash).
Context (shard_status : PH → ShardIdentifier → result (option (list Public)) string).
Context (signer : Pair) (key : Key).
Context (snapshot_clock : nat → StateId) (ban_clock : nat → Z) (call_index : result Bytes string).
Context (from_tuple : Bytes → ShardIdentifier → option SidechainBlockConfirmation → SidechainBlockConfirmation → OpaqueCall).
Context (integritee_dispatcher : result unit string) (stf_executor : ParentchainId → result unit string).
Context (latest_sidechain_block_confirmation : PH → ShardIdentifier → result (option SidechainBlockConfirmation) string).
Context (get_shard_vault_internal : Env V X W P → ShardIdentifier → result ParentchainId string).
Context `{SidechainOCall S0} `{ProposeOCall S0}.
(** A broadcast returns. *)
Hypothesis propose_returns : ∀ (o : S0) bs, ∃ o' res, oc_propose_sidechain_blocks o bs = Ret (o', res).

Abbreviation S := (S0 * list (list SignedBlock))%type.
Abbreviation World' := (World (Env V X W P) PB S).
Abbreviation AuraWorld' := (AuraWorld (Env V X W P) PB S).
Abbreviation Enclave' := (Enclave (Env V X W P) PB S).
Implicit Types (w : World') (a : AuraWorld') (e : Enclave').

#[local] Instance cycle_sync : SyncWorld World' PH :=
  enclave_sync (Xt := Xt) shard_status (Ok key) snapshot_clock ban_clock call_index from_tuple.

Abbreviation cycle := (execute_top_pool_trusted_calls_internal (Xt := Xt) top_hash import_a import_b shard_status (Ok key)
  integritee_dispatcher stf_executor (Ok signer) latest_sidechain_block_confirmation get_shard_vault_internal).

(** The clock of a cycle: it does not run backwards, and its times are in range. *)
Record timely (r : CycleReadings Mr) : Prop := {
  ty_range : in_range 1000 (slot_beginning_timestamp r);
  ty_order : (slot_beginning_timestamp r ≤ cy_scheduler r 0)%Z;
  ty_remaining : (0 ≤ rd_remaining (cy_slot r))%Z;
  ty_calls : (rd_calls (cy_slot r) 0 + SLOT_DURATION ≤ duration_max)%Z;
}.

(** The blocks of one broadcast: at most one, in the given slot, which is a slot
    of the enclave. *)
Record broadcast_in (k : Slot) (bs : list SignedBlock) : Prop := {
  br_one : (length bs ≤ 1)%nat;
  br_slot : Forall (λ sb, k * 1000 ≤ timestamp (block_data (block sb)) ≤ (k + 1) * 1000)%Z bs;
  br_turn : bs ≠ [] → ∃ h s l, Validateers.current_validateers shard_status h s = Ok l ∧
    VerifyInv.round_robin k l = Some (public signer);
}.

Definition log e : list (list SignedBlock) := (ocall (main (aura_world e))).2.

Lemma send_calls_same id a calls :
  let a' := (send_calls (Xt := Xt) id a calls).1 in
  states (env (main a')) = states (env (main a)) ∧ top_pool (env (main a')) = top_pool (env (main a)) ∧
  ocall (main a') = ocall (main a).
Proof.
  unfold send_calls. destruct (omap _ calls); [done|]. destruct (create_extrinsics_for _ _ _) as [x [xts|err]]; [|done].
  by destruct (send_extrinsics_for _ _ _).
Qed.

Lemma send_spec a bs calls :
  ∃ a' res, send_blocks_and_extrinsics (Xt := Xt) a bs calls = Ret (a', res) ∧
    states (env (main a')) = states (env (main a)) ∧ top_pool (env (main a')) = top_pool (env (main a)) ∧
    (ocall (main a')).2 = (ocall (main a)).2 ++ [bs].
Proof.
  unfold send_blocks_and_extrinsics, oc_propose_sidechain_blocks at 1, logged_propose.
  destruct (propose_returns (ocall (main a)).1 bs) as (o & res & ->). cbn [mbind outcome_bind].
  destruct res as [[]|status]; [|by eexists _, _].
  set (a1 := MkAuraWorld _ _ _).
  pose proof (send_calls_same Integritee a1 calls) as (S1 & P1 & O1).
  destruct (send_calls Integritee a1 calls) as [a2 [[]|err]]; cbn [fst] in S1, P1, O1; [|eexists _, _; rewrite S1, P1, O1; done].
  pose proof (send_calls_same TargetA a2 calls) as (S2 & P2 & O2).
  destruct (send_calls TargetA a2 calls) as [a3 [[]|err]]; cbn [fst] in S2, P2, O2;
    [|eexists _, _; rewrite S2, P2, O2, S1, P1, O1; done].
  pose proof (send_calls_same TargetB a3 calls) as (S3 & P3 & O3).
  destruct (send_calls TargetB a3 calls) as [a4 res]; cbn [fst] in S3, P3, O3.
  eexists _, _. rewrite S3, P3, O3, S2, P2, O2, S1, P1, O1. done.
Qed.

(** Aura on the one shard of the enclave. *)
Lemma exec_aura_spec r a (h : PH) ha hb shard :
  w_ok (main a) → timely r →
  let i := info_at 1000 h ha hb (slot_beginning_timestamp r) in
  ∃ a' bs calls, exec_aura_on_slot top_hash import_a import_b shard_status (Ok key) signer (cy_scheduler r) (cy_slot r) a i [shard] =
      Ret (a', (bs, calls)) ∧ same_chains (main a) (main a') ∧ broadcast_in (slot i) bs.
Proof.
  intros Hok [[Ht0 Hr] Ho Hrem Hc] i. unfold exec_aura_on_slot, Slots.on_slot.
  pose proof (proj1 (slot_of_iff 1000 (slot_beginning_timestamp r) _ ltac:(done)) eq_refl) as Hin.
  assert (ends_at i ≤ duration_max)%Z as He.
  { cbn [i info_at ends_at]. unfold from_millis, NANOS_PER_MILLI, duration_max, NANOS_PER_SEC, u64_max in *. lia. }
  rewrite on_slot_from_spec by done.
  pose proof (windows_in_slot (cy_scheduler r) i 0 [shard] ltac:(done)) as [Hw _]. cbn [windows] in *.
  destruct (_ =? _)%Z.
  { cbn [run_windows mbind outcome_bind]. eexists _, _, _. split; [done|]. split; [by apply same_chains_refl|].
    split; [simpl; lia|constructor|done]. }
  apply Forall_cons in Hw as [(Hms & Hend & Hslot & Hdur) _]. cbn [fst] in *. set (wi := window i _ _) in *. cbn [run_windows].
  change (slot_timestamp wi) with (cy_scheduler r 0) in *.
  assert (ends_at wi ≤ from_millis ((slot_of 1000 (slot_beginning_timestamp r) + 1) * 1000))%Z as Hend' by exact Hend.
  assert (0 < from_millis 1)%Z as Hpos by done.
  destruct (proposing_remaining_bound wi (rd_remaining (cy_slot r))) as ((_ & Hle) & _); [done|lia|].
  pose proof (mul_f32_0_7_le (slot_duration wi) ltac:(lia)) as [[_ Hle2] _].
  destruct (on_slot_spec import_a import_b safe_a safe_b shard_status signer key (cy_slot r) a wi shard Hok)
    as (a' & res & Hon & Hsc & Hres & _).
  { unfold SLOT_DURATION, from_millis, NANOS_PER_MILLI in *. lia. }
  unfold worker_on_slot, aura_worker. rewrite Hon. cbn [mbind outcome_bind].
  destruct res as [x|]; cbn [fmap list_fmap app]; eexists _, _, _; (split; [done|]); (split; [done|]).
  - destruct (Hres x eq_refl) as [Hts (l & Hl & Hrr)]. change (slot i) with (slot_of 1000 (slot_beginning_timestamp r)) in *.
    rewrite <-Hslot in Hin, Hend', Hr |- *. split; [done| |by eauto].
    constructor; [|constructor]. apply within_slot; [|done].
    assert (0 ≤ slot wi)%Z by (rewrite Hslot; by apply slot_of_nonneg).
    split; [done|]. split; [|split; [by apply as_millis_le|done]].
    split; [apply as_millis_ge; change (slot_timestamp wi) with (cy_scheduler r 0); lia|].
    apply as_millis_mono. change (slot_timestamp wi) with (cy_scheduler r 0). lia.
  - split; [simpl; lia|constructor|done].
Qed.

(** *** Progress *)

(** Chains grow, and what is broadcast is in new slots. *)
Record progress e e' : Prop := {
  pg_grows : grows shard_status (main (aura_world e)) (main (aura_world e'));
  pg_last : (last_slot e ≤ last_slot e')%Z;
  pg_log : ∃ slots new, log e' = log e ++ new ∧ Forall2 broadcast_in slots new ∧
    StronglySorted Z.lt (last_slot e :: slots) ∧ Forall (λ k, k ≤ last_slot e')%Z slots;
}.

Lemma progress_quiet e e' :
  grows shard_status (main (aura_world e)) (main (aura_world e')) → (last_slot e ≤ last_slot e')%Z → log e' = log e → progress e e'.
Proof.
  intros He Hl Hlog. split; [done|done|]. exists [], []. rewrite Hlog, app_nil_r. split; [done|]. split; [constructor|].
  split; repeat constructor.
Qed.

Lemma progress_trans e1 e2 e3 : progress e1 e2 → progress e2 e3 → progress e1 e3.
Proof.
  intros [E1 L1 (k1 & n1 & G1 & F1 & S1 & M1)] [E2 L2 (k2 & n2 & G2 & F2 & S2 & M2)]. split; [by eapply grows_trans|lia|].
  exists (k1 ++ k2), (n1 ++ n2). split; [by rewrite G2, G1, app_assoc|]. split; [by apply Forall2_app|].
  apply StronglySorted_cons in S1 as [A1 S1], S2 as [A2 S2]. rewrite Forall_forall in A1, M1, A2.
  split; [apply StronglySorted_cons; split|].
  - apply Forall_app. split; apply Forall_forall; [done|]. intros k Hk. specialize (A2 _ Hk). lia.
  - apply StronglySorted_app_2; [|done|done]. intros x y Hx Hy. specialize (M1 _ Hx). specialize (A2 _ Hy). simpl in M1. lia.
  - apply Forall_app. split; [|done]. apply Forall_forall. intros k Hk. specialize (M1 _ Hk). simpl in *. lia.
Qed.

(** Storing blocks is not logged. *)
Lemma stores_not_logged (o : S) stored : (foldl (λ o sb, (oc_store_sidechain_blocks o [sb]).1) o stored).2 = o.2.
Proof.
  revert o. induction stored as [|sb stored IH]; intros o; [done|]. cbn [foldl]. rewrite IH.
  cbn [oc_store_sidechain_blocks logged_ocall]. by destruct (oc_store_sidechain_blocks o.1 [sb]).
Qed.

Lemma produce_progress r e (h : PH) ha hb shard :
  w_ok (main (aura_world e)) → timely r →
  ∃ e' res, produce_blocks (Xt := Xt) top_hash import_a import_b shard_status (Ok key) r e signer h ha hb shard = Ret (e', res) ∧
    progress e e' ∧ block_import_queue e' = block_import_queue e.
Proof.
  intros Hok Hr. unfold produce_blocks. rewrite (yield_next_slot_spec 1000) by (done || apply Hr).
  case_decide as Hle; cbn [mbind outcome_bind].
  { eexists _, _. split; [done|]. split; [|done]. apply progress_quiet; [|done|done]. by apply grows_same. }
  destruct (duration_remaining _ _).
  2: { eexists _, _. split; [done|]. split; [|done]. apply progress_quiet; [by apply grows_same|simpl; lia|done]. }
  cbn [aura_world].
  destruct (exec_aura_spec r (aura_world e) h ha hb shard Hok Hr) as (a1 & bs & calls & -> & Hsc & Hbr). cbn [mbind outcome_bind].
  destruct (send_spec a1 bs calls) as (a2 & res & -> & Hst & Htp & Hlog). cbn [mbind outcome_bind].
  eexists _, _. split; [done|]. split; [|done]. destruct (sc_ok _ _ Hsc) as [Hhs1 Htp1]. split; cbn [aura_world last_slot].
  - apply grows_same; [split; congruence|]. intros s. unfold last_of. rewrite Hst. apply (sc_last _ _ Hsc).
  - lia.
  - exists [slot_of 1000 (slot_beginning_timestamp r)], [bs]. unfold log. cbn [aura_world]. rewrite Hlog, (sc_ocall _ _ Hsc).
    split; [done|]. split; [by constructor; [exact Hbr|constructor]|].
    split; [apply StronglySorted_cons; split|]; repeat constructor; lia.
Qed.

Lemma cycle_progress r e :
  w_ok (main (aura_world e)) → timely r → ∃ e' res, cycle r e = Ret (e', res) ∧ progress e e' ∧
    (block_import_queue e' = [] ∨ e' = e ∧ ∃ err, res = Err err).
Proof.
  intros Hok Hr. unfold execute_top_pool_trusted_calls_internal.
  destruct (prepare_cycle _ _ _) as [[[[[ha hb] current] shard] confirmation]|err].
  2: { eexists _, _. split; [done|]. split; [|by eauto]. by apply progress_quiet; [apply grows_same|..]. }
  destruct (process_queue_extends (Xt := Xt) shard_status (Ok key) snapshot_clock ban_clock call_index from_tuple
    (main (aura_world e)) (block_import_queue e) current confirmation Hok) as (w & latest & Hq & [Hg [stored Ho]]).
  fold cycle_sync in Hq. rewrite Hq. cbn [mbind outcome_bind].
  set (e1 := MkEnclave _ _ _).
  assert (progress e e1) as Hp1.
  { apply progress_quiet; [done|done|]. unfold log. cbn [e1 aura_world main]. rewrite Ho. apply stores_not_logged. }
  destruct (block_producer _ _ _ _ _) as [p|err] eqn:Hbp; [|eexists _, _; by eauto].
  assert (p = signer) as ->.
  { unfold block_producer in Hbp. destruct (get_shard_vault_internal _ _); [|done]. by destruct (stf_executor _); simplify_eq/=. }
  destruct (produce_progress r e1 latest ha hb shard (gr_ok _ _ _ Hg) Hr) as (e2 & res & -> & Hp2 & Hq2).
  eexists _, _. split; [done|]. split; [by eapply progress_trans|]. left. by rewrite Hq2.
Qed.

(** C1: Whatever blocks are received and whatever peers answer, every cycle of the
    sidechain returns; the chains of the shards only grow, by linked blocks with
    valid signatures of the validateers whose turn it was.  The enclave broadcasts
    at most one block per slot and never returns to a slot: the slots of its
    broadcasts grow from cycle to cycle, are slots of its own, and contain the
    timestamps of the blocks. *)
Theorem cycles_are_safe e (rs : list (CycleReadings Mr)) :
  w_ok (main (aura_world e)) → Forall timely rs →
  ∃ e', for_each (λ e r, cycle r e ≫= λ x, Ret x.1) e rs = Ret e' ∧ progress e e'.
Proof.
  intros Hok Hrs. revert e Hok. induction Hrs as [|r rs Hr _ IH]; intros e Hok.
  { exists e. split; [done|]. by apply progress_quiet; [apply grows_same|..]. }
  destruct (cycle_progress r e Hok Hr) as (e1 & res & Hc & Hp & _).
  erewrite for_each_cons by (rewrite Hc; reflexivity). cbn [fst].
  destruct (IH e1 (gr_ok _ _ _ (pg_grows _ _ Hp))) as (e2 & -> & Hp2). exists e2. split; [done|]. by eapply progress_trans.
Qed.
End cycle.

(** ** Witness *)

Section witness.
Import Sample Cycle.

#[local] Instance sample_propose : ProposeOCall (bool * list SignedBlock) := λ o _, Ret (o, Ok tt).
#[local] Instance sample_parentchains : Parentchains (list N) unit N N := {|
  latest_finalized_header := λ _ _, Ok 4%N;
  create_extrinsics_for := λ _ x _, (x, Ok []);
  send_extrinsics_for := λ _ v _, (v, Ok tt);
|}.

Definition sample_enclave : Enclave SampleEnv N ((bool * list SignedBlock) * list (list SignedBlock)) :=
  MkEnclave (Aura.MkAuraWorld (ScImport.MkWorld (ScImport.trigger Sample.world) ((true, []), []) [] 0%nat) None None) [] 0.

(** Two cycles in one slot, and one two slots later; the
    first block was not received back, so the second has its number. *)
Definition sample_cycle (t : Z) : CycleReadings unit :=
  MkCycleReadings (from_millis t) (from_millis (t + 10)) (λ _, from_millis (t + 20))
    (Aura.MkReadings (from_millis (t + 30)) (from_millis (t + 30)) (from_millis (t + 90)) 9 (λ _, from_millis (t + 40)) (λ _, Ok tt)).
Definition sample_cycles : list (CycleReadings unit) := [sample_cycle 2000; sample_cycle 2300; sample_cycle 4000].


#[local] Instance sample_sync : SyncWorld (ScImport.World SampleEnv N ((bool * list SignedBlock) * list (list SignedBlock))) N :=
  SyncInv.enclave_sync (Xt := N) Sample.shard_status (Ok tt) Sample.snapshot_clock Sample.ban_clock (Ok []) (λ _ _ _ _, []).
Definition sample_run : outcome (Enclave SampleEnv N ((bool * list SignedBlock) * list (list SignedBlock))) :=
  for_each (λ e r, execute_top_pool_trusted_calls_internal (Xt := N) Sample.top_hash Sample.importer Sample.importer
    Sample.shard_status (Ok tt) (Ok tt) (λ _, Ok tt) (Ok 70%N) (λ _ _, Ok None) (λ _ _, Ok Integritee) r e ≫= λ x, Ret x.1)
    sample_enclave sample_cycles.

(** The number and the time of a block. *)
Definition block_facts (b : SignedBlock) : Z * Z := (block_number (header (block b)), timestamp (block_data (block b))).

Lemma cycles_are_safe_witness :
  ∃ e', sample_run = Ret e' ∧ last_slot e' = 4%Z ∧ map (map block_facts) (log e') = [[(1, 2090)]; [(1, 4090)]]%Z ∧
    ∃ slots, Forall2 (broadcast_in Sample.shard_status 70%N) slots (log e') ∧ StronglySorted Z.lt slots.
Proof.
  destruct (cycles_are_safe (Xt := N) Sample.importer Sample.importer Sample.importer_safe Sample.importer_safe Sample.shard_status
    70%N tt Sample.snapshot_clock Sample.ban_clock (Ok []) (λ _ _ _ _, []) (Ok tt) (λ _, Ok tt) (λ _ _, Ok None)
    (λ _ _, Ok Integritee) (λ o bs, ex_intro _ o (ex_intro _ (Ok tt) eq_refl)) sample_enclave sample_cycles)
    as (e' & Hrun & [_ Hl (slots & new & Hlog & Hb & Hs & _)]).
  - exact Sample.world_ok.
  - repeat constructor; vm_compute; done.
  - change (sample_run = Ret e') in Hrun. exists e'. split; [exact Hrun|].
    assert (match sample_run with Ret e => (last_slot e, map (map block_facts) (log e)) | _ => (0, []) end =
      (4, [[(1, 2090)]; [(1, 4090)]]))%Z as Hc by (vm_compute; reflexivity).
    rewrite Hrun in Hc. apply pair_equal_spec in Hc as [Hlast Hfacts]. split; [exact Hlast|]. split; [exact Hfacts|].
    exists slots. simpl in Hlog. rewrite Hlog. split; [exact Hb|]. by apply StronglySorted_cons in Hs as [_ Hs].
Defined.
End witness.
