(* ===== verification/StateProps.v ===== *)
(** The properties of the state of a shard: state updates, the removal of
    prefixes, and what the import of parentchain blocks does to it. *)

From stdpp Require Import base gmap fin_maps numbers strings list.
From S2P Require Import Prelude Collections PoolTypes Externalities SidechainDb StfTypes SidechainState SidechainBlocks.
From S2P Require Import StateFileIo StateHandler StfExecutor AuthorProps ConsensusSample.

Import Ext(SgxExternalities).
Import ExtInv.
Open Scope worker_scope.

Section state.
Context `{Encode SgxExternalitiesType, Decode SgxExternalitiesType} `{!Codec SgxExternalitiesType}.
Context `{Blake2} `{!CollisionFree} `{EncodeAppend}.

(** A state update carries a state from one enclave to another.  The diff that
    any sequence of storage operations leaves, applied to the state they started
    from, gives exactly the state they ended with; applied to any other state it is
    refused and nothing changes; and a diff that does not lead to the announced
    state is refused. *)
Theorem state_update_is_exact (base : SgxExternalitiesType) (ops : list storage_op) (ext : SgxExternalities) :
  let after := run_ops (Ext.new base) ops in
  let update d := MkStateUpdate (Ext.hash (Ext.new base)) (Ext.hash after) d in
  (Ext.state ext = base → ScState.apply_state_update ext (update (Ext.state_diff after)) = (Ext.new (Ext.state after), Ok tt)) ∧
  (Ext.state ext ≠ base → ∀ d, ScState.apply_state_update ext (update d) = (ext, Err InvalidAprioriHash)) ∧
  (∀ d, Ext.state ext = base → apply_diff d base ≠ Ext.state after →
    (ScState.apply_state_update ext (update d)).2 = Err InvalidStorageDiff).
Proof.
  intros after update. split_and!.
  - apply ScStateInv.apply_state_update_roundtrip. by apply tracks_run_ops, (tracks_refl (Ext.new base)).
  - intros Hne d. rewrite ScStateInv.apply_state_update_spec. simpl. rewrite decide_False; [done|].
    intros Hh%state_hash_inj. by destruct Hne.
  - intros d Hb Hne. rewrite ScStateInv.apply_state_update_spec. simpl. rewrite Hb.
    rewrite decide_True by (by apply ScStateInv.hash_state). rewrite decide_False; [done|].
    intros Hh%state_hash_inj. by destruct Hne.
Qed.

(** [clear_prefix] walks over the sorted keys from the prefix on and stops at
    the first key without it; this removes exactly the keys with the prefix, all of
    them whatever limit is given, keeps the diff in step with the state, and
    reports their number. *)
Theorem clear_prefix_is_exact (base : SgxExternalitiesType) (ext : SgxExternalities) (p : Bytes) (limit : option Z) :
  let r := Ext.clear_prefix ext p limit in
  Ext.state r.1 = filter (λ x, starts_with x.1 p = false) (Ext.state ext) ∧
  r.2 = u32_wrap (Z.of_nat (size (filter (λ x, starts_with x.1 p = true) (Ext.state ext)))) ∧
  r = Ext.clear_prefix ext p None ∧ (tracks base ext → tracks base r.1).
Proof.
  cbv zeta. split_and!; [apply clear_prefix_state| |done|].
  - unfold Ext.clear_prefix. cbn [snd]. do 2 f_equal. rewrite length_fmap, range_from_prefix.
    rewrite <-(length_map_to_list (filter _ (Ext.state ext))). apply Permutation_length.
    apply NoDup_Permutation; [apply NoDup_filter, (NoDup_fmap_1 fst), NoDup_btree_keys|apply NoDup_map_to_list|].
    intros [k v]. rewrite list_elem_of_filter, elem_of_btree_iter, elem_of_map_to_list, map_lookup_filter_Some. naive_solver.
  - intros Ht. exact (tracks_run_op base ext (OpClearPrefix p) Ht).
Qed.
End state.

Section update_states.
Context `{Encode SgxExternalitiesType} `{Blake2} `{Decode (list ShardIdentifier)}.
Context {TCS Mr PH W : Type} `{!Stf TCS Mr PH} `{HandleState W}.
Context {initialize : result SgxExternalities StateHandlerError} `{!HandleStateLaws W initialize}.
Context (snapshot_now : ShardIdentifier → StateId).
Context (get_multiple_storages_verified : list Bytes → PH → ParentchainId → result (list (Bytes * option Bytes)) string).

(** The import of a block of a target parentchain replaces the Integritee
    header: [update_states] hands the header of any parentchain to
    [update_parentchain_integritee_block], so the state that is written has the
    header of the target where the one of the Integritee parentchain belongs. *)
Theorem target_header_replaces_integritee_header (w : W) (h : PH) (id : ParentchainId) s (st : SgxExternalities) entries :
  hs_ok w → hs_view w = {[s := st]} → id ≠ Integritee →
  get_multiple_storages_verified (Executor.storage_hashes_to_update_on_block id) h id = Ok entries →
  (stf_update_parentchain_integritee_block st h).2 = Ok tt →
  ∃ w' res, Executor.update_states (TCS := TCS) (Mr := Mr) get_multiple_storages_verified snapshot_now w h id = Ret (w', res) ∧
    hs_view w' = {[s := Ext.prune_state_diff (stf_update_parentchain_integritee_block st h).1]}.
Proof.
  intros Hok Hv Hid Hg Hu. unfold Executor.update_states. rewrite Hg.
  destruct (handler_shards_ok w Hok) as (shards & -> & Hperm). rewrite Hv, dom_singleton_L, elements_singleton in Hperm.
  apply Permutation_singleton_r in Hperm as ->. cbn [Executor.update_block_of_shards].
  rewrite (load_for_mutation_ok w s Hok), Hv, lookup_singleton_eq.
  destruct (stf_update_parentchain_integritee_block st h) as [st' r] eqn:Hst. cbn [fst snd] in Hu |- *. subst r.
  destruct (write_ok (snapshot_now s) w st' s Hok) as (w1 & res & -> & _ & Hv1 & _). cbn [mbind outcome_bind].
  rewrite Hv, insert_singleton_eq in Hv1. destruct res as [n|e]; [|by eexists _, _].
  cbn [Executor.update_block_of_shards mbind outcome_bind]. rewrite decide_False by done. by eexists _, _.
Qed.
End update_states.

(** ** Witnesses *)

Section witness.
Import Sample.
#[local] Instance dec_ext : Decode SgxExternalitiesType := count_decode.
#[local] Instance codec_ext : Codec SgxExternalitiesType := count_codec.

Lemma state_update_is_exact_witness :
  let after := run_ops (Ext.new ∅) [OpSet [1%N] [7%N]; OpClear [1%N]; OpSet [2%N] [8%N]] in
  ScState.apply_state_update (Ext.new ∅) (MkStateUpdate (Ext.hash (Ext.new ∅)) (Ext.hash after) (Ext.state_diff after)) =
    (Ext.new {[[2%N] := [8%N]]}, Ok tt).
Proof.
  destruct (state_update_is_exact ∅ [OpSet [1%N] [7%N]; OpClear [1%N]; OpSet [2%N] [8%N]] (Ext.new ∅)) as (Hu & _ & _).
  exact (Hu eq_refl).
Defined.

Lemma target_header_replaces_integritee_header_witness :
  ∃ w' res, Executor.update_states (TCS := demo_call) (Mr := unit) (λ _ _ _, Ok []) (λ _, 6%N) Sample.handler 4%N TargetA = Ret (w', res) ∧
    hs_view (HandleStateLaws := handle_state_laws) w' = {[Sample.shard := Ext.new {[[8%N] := [4%N]]}]}.
Proof.
  destruct (target_header_replaces_integritee_header (TCS := demo_call) (Mr := unit) (λ _, 6%N) (λ _ _ _, Ok []) Sample.handler 4%N
    TargetA Sample.shard Ext.default_externalities []) as (w' & res & Hu & Hv).
  - apply Sample.handler_ok.
  - apply Sample.handler_view.
  - discriminate.
  - reflexivity.
  - reflexivity.
  - exists w', res. split; [exact Hu|]. rewrite Hv. vm_compute. reflexivity.
Defined.
End witness.
