(* ===== verification/OnChain.v ===== *)
(** Storage of the parentchain read by the enclave: storage keys and Merkle proofs
    (src/core-primitives/storage/src), the ocalls of the enclave
    (src/enclave-runtime/src/ocall/on_chain_ocall.rs), the C interface and the
    service behind it (src/service/src/ocall_bridge/ffi/{worker_request,
    send_to_parentchain}.rs, ocall_bridge/worker_on_chain_ocall.rs), and the
    validateers read from the enclave bridge
    (src/sidechain/validateer-fetch/src/validateer.rs).

    The trie, the node and the codec are external; the host is any function. *)

From stdpp Require Import base countable gmap numbers strings list.
From S2P Require Import Prelude Collections PoolTypes Externalities SidechainDb SidechainState SidechainBlocks SidechainOCalls StfExecutor.
From S2P Require Import ParentchainImport ConsensusSample.

Open Scope worker_scope.

#[export] Instance ret_inj {A} : Inj (=) (=) (@Ret A).
Proof. by intros x y [= ->]. Qed.

(** ** Storage keys *)

(** [frame_metadata::v14::StorageHasher]. *)
Inductive StorageHasher :=
| Blake2_128
| Blake2_256
| Blake2_128Concat
| Twox128
| Twox256
| Twox64Concat
| Identity.

(** The hash functions of sp_core. *)
Class Hashers := {
  hash_blake2_128 : Bytes → Bytes;
  hash_blake2_256 : Bytes → Bytes;
  hash_twox_64 : Bytes → Bytes;
  hash_twox_128 : Bytes → Bytes;
  hash_twox_256 : Bytes → Bytes;
}.

Class HashersLaws `{Hashers} : Prop := {
  blake2_128_len : ∀ x, length (hash_blake2_128 x) = 16%nat;
}.

Section keys.
Context `{Twox} `{Hashers}.

Definition key_hash `{Encode K} (key : K) (hasher : StorageHasher) : Bytes :=
  let encoded_key := encode key in
  match hasher with
  | Identity => encoded_key
  | Blake2_128 => hash_blake2_128 encoded_key
  | Blake2_128Concat => hash_blake2_128 encoded_key ++ encoded_key
  | Blake2_256 => hash_blake2_256 encoded_key
  | Twox128 => hash_twox_128 encoded_key
  | Twox256 => hash_twox_256 encoded_key
  | Twox64Concat => hash_twox_64 encoded_key
  end.

Definition storage_map_key `{Encode K} (module_prefix storage_prefix : string) (mapkey1 : K) (hasher1 : StorageHasher) : Bytes :=
  twox_128 module_prefix ++ twox_128 storage_prefix ++ key_hash mapkey1 hasher1.

Definition storage_double_map_key `{Encode K} `{Encode Q} (module_prefix storage_prefix : string)
    (mapkey1 : K) (hasher1 : StorageHasher) (mapkey2 : Q) (hasher2 : StorageHasher) : Bytes :=
  twox_128 module_prefix ++ twox_128 storage_prefix ++ key_hash mapkey1 hasher1 ++ key_hash mapkey2 hasher2.

(** [EnclaveBridgeStorage::shard_status] of src/core-primitives/pallet-storage. *)
Definition shard_status_key `{Encode ShardIdentifier} (shard : ShardIdentifier) : Bytes :=
  storage_map_key "EnclaveBridge" "ShardStatus" shard Blake2_128Concat.

(** The entries of different shards are different. *)
Lemma shard_status_key_inj `{Encode ShardIdentifier} `{Decode ShardIdentifier} `{!Codec ShardIdentifier} `{!HashersLaws} s s' :
  shard_status_key s = shard_status_key s' → s = s'.
Proof.
  unfold shard_status_key, storage_map_key, key_hash. intros Heq. do 2 apply app_inv_head in Heq.
  apply app_inj_1 in Heq as [_ Heq]; [by apply encode_inj|]. by rewrite !blake2_128_len.
Qed.
End keys.

(** ** Proofs of storage *)

Inductive StorageProofError :=
| NoProofSupplied
| WrongValue
| StorageRootMismatch
| StorageValueUnavailable
| SpCodec (msg : string).

Abbreviation StorageProof := (list Bytes) (only parsing).

(** [MemoryDB] and [TrieDB] of sp_trie. *)
Class TrieDb (Db : Type) := {
  db_default : Db;
  db_insert : Db → Bytes → Db;
  db_contains : Db → N → bool;
  trie_get : Db → N → Bytes → result (option Bytes) string;
}.

(** [state_root] of a header. *)
Class StateRoot (PH : Type) := state_root : PH → N.

Module Proof.

Record StorageProofChecker (Db : Type) := MkChecker {
  root : N;
  db : Db;
}.
Arguments MkChecker {Db} _ _.
Arguments root {Db} _.
Arguments db {Db} _.

Section checker.
Context {Db : Type} `{TrieDb Db}.
Implicit Types (c : StorageProofChecker Db).

(** A trie to read from needs the node of the root. *)
Definition trie c : result N StorageProofError :=
  if db_contains (db c) (root c) then Ok (root c) else Err StorageRootMismatch.

Definition new (r : N) (proof : StorageProof) : result (StorageProofChecker Db) StorageProofError :=
  let checker := MkChecker r (foldl db_insert db_default proof) in
  let? t := trie checker in Ok checker.

Definition read_value c (key : Bytes) : result (option Bytes) StorageProofError :=
  let? t := trie c in
  match trie_get (db c) t key with Ok v => Ok v | Err e => Err StorageValueUnavailable end.

Definition check_proof (r : N) (storage_key : Bytes) (proof : StorageProof) : result (option Bytes) StorageProofError :=
  let? storage_checker := new r proof in read_value storage_checker storage_key.
End checker.

(** [StorageEntry] and [StorageEntryVerified] (core-primitives/types/src/storage.rs). *)
Record StorageEntry := MkEntry {
  key : Bytes;
  value : option Bytes;
  proof : option StorageProof;
}.

Section verify.
Context {Db : Type} `{TrieDb Db} {PH : Type} `{StateRoot PH} {V : Type} `{Decode V}.

(** The entry with its value decoded. *)
Definition verify_storage_proof (e : StorageEntry) (header : PH) : result (Bytes * option V) StorageProofError :=
  let? p := match proof e with Some p => Ok p | None => Err NoProofSupplied end in
  let? actual := check_proof (state_root header) (key e) p in
  if decide (actual = value e) then
    match value e with
    | None => Ok (key e, None)
    | Some v => match decode v with Ok x => Ok (key e, Some x) | Err err => Err (SpCodec err) end
    end
  else Err WrongValue.

Fixpoint verify_storage_entries (entries : list StorageEntry) (header : PH) : result (list (Bytes * option V)) StorageProofError :=
  match entries with
  | [] => Ok []
  | e :: entries =>
      let? x := verify_storage_proof e header in
      let? l := verify_storage_entries entries header in
      Ok (x :: l)
  end.
End verify.
End Proof.

(** ** The ocalls *)

(** [WorkerRequest] and [WorkerResponse] (core-primitives/types/src/lib.rs). *)
Inductive WorkerRequest := ReqChainStorage (storage_key : Bytes) (at_block : option N).
Inductive WorkerResponse := RespChainStorage (storage_key : Bytes) (storage_value : option Bytes) (storage_proof : option StorageProof).

Definition into_storage_entry (r : WorkerResponse) : Proof.StorageEntry :=
  match r with RespChainStorage key value proof => Proof.MkEntry key value proof end.

(** What comes back from the host: the status of the transition, the status the
    host returns, and the bytes it writes to the buffer. *)
Record HostAnswer := MkAnswer {
  ans_res : Z;
  ans_rt : Z;
  ans_written : Bytes;
}.

Inductive OcallError :=
| OcStorage (e : StorageProofError)
| OcCodec (msg : string)
| OcSgx (status : Z).

Definition RESPONSE_BUFFER : nat := Z.to_nat (4196 * 4).
Lemma response_buffer_nonempty : (1 ≤ RESPONSE_BUFFER)%nat.
Proof. apply (Z2Nat.inj_le 1 (4196 * 4)); lia. Qed.
#[global] Opaque RESPONSE_BUFFER.

(** The pointer and the length of a slice that cross the boundary. *)
Definition as_slice (b : Bytes) : Bytes := take (Z.to_nat (u32_wrap (Z.of_nat (length b)))) b.

(** A buffer the host wrote to. *)
Definition written_buffer (size : nat) (written : Bytes) : Bytes :=
  take size written ++ replicate (size - length written) 0%N.

Module OnChainOCall.
Section enclave.
Context `{Encode (list WorkerRequest)} `{Decode (list WorkerResponse)} `{Encode ParentchainId}.
Context (ocall_worker_request : Bytes → Bytes → nat → HostAnswer).

Definition worker_request (req : list WorkerRequest) (parentchain_id : ParentchainId) : result (list WorkerResponse) Z :=
  let ans := ocall_worker_request (as_slice (encode req)) (as_slice (encode parentchain_id)) RESPONSE_BUFFER in
  if decide (ans_rt ans ≠ SGX_SUCCESS) then Err (ans_rt ans)
  else if decide (ans_res ans ≠ SGX_SUCCESS) then Err (ans_res ans)
  else
    match decode (A := list WorkerResponse) (written_buffer RESPONSE_BUFFER (ans_written ans)) with
    | Ok decoded_response => Ok decoded_response
    | Err e => Err SGX_ERROR_UNEXPECTED
    end.

Context {Db : Type} `{TrieDb Db} {PH : Type} `{StateRoot PH} `{ParentchainHeader PH} {V : Type} `{Decode V}.

Definition get_multiple_storages_verified (storage_hashes : list Bytes) (header : PH) (parentchain_id : ParentchainId) :
    result (list (Bytes * option V)) OcallError :=
  let requests := (λ key, ReqChainStorage key (Some (pc_hash header))) <$> storage_hashes in
  match worker_request requests parentchain_id with
  | Err status => Err (OcSgx status)
  | Ok storages =>
      match Proof.verify_storage_entries (Db := Db) (into_storage_entry <$> storages) header with
      | Ok entries => Ok entries
      | Err e => Err (OcStorage e)
      end
  end.

Definition get_storage_verified (storage_hash : Bytes) (header : PH) (parentchain_id : ParentchainId) :
    result (Bytes * option V) OcallError :=
  let? entries := get_multiple_storages_verified [storage_hash] header parentchain_id in
  match entries with
  | [] => Err (OcStorage StorageValueUnavailable)
  | entry :: _ => Ok entry
  end.
End enclave.

Section send.
Context {Xt : Type} `{Encode (list Xt)} `{Encode ParentchainId} {Nd : Type}.
Context (ocall_send_to_parentchain : Nd → Bytes → Bytes → bool → Nd * (Z * Z)).

Definition send_to_parentchain (nd : Nd) (extrinsics : list Xt) (parentchain_id : ParentchainId)
    (await_each_inclusion : bool) : Nd * result unit Z :=
  let '(nd, (res, rt)) :=
    ocall_send_to_parentchain nd (as_slice (encode extrinsics)) (as_slice (encode parentchain_id)) await_each_inclusion in
  (nd, if decide (rt ≠ SGX_SUCCESS) then Err rt else if decide (res ≠ SGX_SUCCESS) then Err res else Ok tt).
End send.

(** *** Validateers *)

Section validateers.
Context `{Encode (list WorkerRequest)} `{Decode (list WorkerResponse)} `{Encode ParentchainId}.
Context `{Twox} `{Hashers} `{Encode ShardIdentifier}.
Context {Db : Type} `{TrieDb Db} {PH : Type} `{StateRoot PH} `{ParentchainHeader PH}.
(** [ShardSignerStatus] of the enclave bridge pallet. *)
Context {Sss : Type} `{Decode (list Sss)} (signer : Sss → Public) (error_text : OcallError → string).
Context (ocall_worker_request : Bytes → Bytes → nat → HostAnswer).

(** The read of [current_validateers]; its caller turns [None] into an error. *)
Definition shard_status (header : PH) (s : ShardIdentifier) : result (option (list Public)) string :=
  match get_storage_verified (Db := Db) (V := list Sss) ocall_worker_request (shard_status_key s) header Integritee with
  | Ok (_, status) => Ok (map signer <$> status)
  | Err e => Err (error_text e)
  end.
End validateers.
End OnChainOCall.

(** ** The service *)

Class NodeApi (Api Nd : Type) := {
  get_opaque_storage_by_key : Api → Nd → Bytes → option N → result (option Bytes) string;
  get_storage_proof_by_keys : Api → Nd → list Bytes → option N → result (option StorageProof) string;
  submit_opaque_extrinsic : Api → Nd → Bytes → Nd * result N string;
  submit_and_watch_until_in_block : Api → Nd → Bytes → Nd * result N string;
}.

Class CreateNodeApi (F Api : Type) := factory_create_api : F → result Api string.

Inductive BridgeError :=
| TargetAParentchainNotInitialized
| TargetBParentchainNotInitialized
| NodeApiFactory (msg : string)
| BrCodec (msg : string)
| SendExtrinsicsToParentchain (msg : string).

Record WorkerOnChainOCall (F : Type) := MkOnChainOCall {
  integritee_api_factory : F;
  target_a_parentchain_api_factory : option F;
  target_b_parentchain_api_factory : option F;
}.
Arguments MkOnChainOCall {F} _ _ _.
Arguments integritee_api_factory {F} _.
Arguments target_a_parentchain_api_factory {F} _.
Arguments target_b_parentchain_api_factory {F} _.

Module OnChainBridge.
Section bridge.
Context {F Api Nd : Type} `{CreateNodeApi F Api} `{NodeApi Api Nd}.
Implicit Types (oc : WorkerOnChainOCall F) (nd : Nd).

Definition from_factory (f : F) : result Api BridgeError :=
  match factory_create_api f with Ok api => Ok api | Err e => Err (NodeApiFactory e) end.

Definition create_api oc (parentchain_id : ParentchainId) : result Api BridgeError :=
  match parentchain_id with
  | Integritee => from_factory (integritee_api_factory oc)
  | TargetA =>
      match target_a_parentchain_api_factory oc with
      | Some f => from_factory f
      | None => Err TargetAParentchainNotInitialized
      end
  | TargetB =>
      match target_b_parentchain_api_factory oc with
      | Some f => from_factory f
      | None => Err TargetBParentchainNotInitialized
      end
  end.

(** [unwrap] on a [Result]. *)
Definition unwrap_ok {A E} (r : result A E) : outcome A :=
  match r with Ok a => Ret a | Err _ => Panic end.

Definition answer (api : Api) nd (req : WorkerRequest) : outcome WorkerResponse :=
  match req with
  | ReqChainStorage key hash =>
      unwrap_ok (get_opaque_storage_by_key api nd key hash) ≫= λ value,
      unwrap_ok (get_storage_proof_by_keys api nd [key] hash) ≫= λ proof,
      Ret (RespChainStorage key value proof)
  end.

Fixpoint answer_all (api : Api) nd (requests : list WorkerRequest) : outcome (list WorkerResponse) :=
  match requests with
  | [] => Ret []
  | req :: requests => answer api nd req ≫= λ r, answer_all api nd requests ≫= λ l, Ret (r :: l)
  end.

Section requests.
Context `{Decode (list WorkerRequest)} `{Encode (list WorkerResponse)} `{Decode ParentchainId} `{Encode Bytes}.

Definition worker_request oc nd (request parentchain_id : Bytes) : outcome (result Bytes BridgeError) :=
  match decode (A := list WorkerRequest) request with
  | Err e => Ret (Err (BrCodec e))
  | Ok [] => Ret (Ok (encode (A := Bytes) []))
  | Ok requests =>
      match decode (A := ParentchainId) parentchain_id with
      | Err e => Ret (Err (BrCodec e))
      | Ok parentchain_id =>
          match create_api oc parentchain_id with
          | Err e => Ret (Err e)
          | Ok api => answer_all api nd requests ≫= λ resp, Ret (Ok (encode resp))
          end
      end
  end.

(** The C interface; the status of the transition itself is a success. *)
Definition ffi_worker_request oc nd (request parentchain_id : Bytes) (resp_size : nat) : outcome HostAnswer :=
  worker_request oc nd request parentchain_id ≫= λ r,
  Ret match r with
  | Ok r =>
      match write_slice_and_whitespace_pad (replicate resp_size 0%N) r with
      | (_, Err e) => MkAnswer SGX_SUCCESS SGX_ERROR_UNEXPECTED []
      | (resp_slice, Ok _) => MkAnswer SGX_SUCCESS SGX_SUCCESS resp_slice
      end
  | Err e => MkAnswer SGX_SUCCESS SGX_ERROR_UNEXPECTED []
  end.
End requests.

Section sending.
Context {Xt : Type} `{Decode (list Xt)} `{Decode ParentchainId} `{Encode Xt}.

(** A submission that fails is only logged. *)
Definition submit_each (api : Api) nd (await_each_inclusion : bool) (extrinsics : list Xt) : Nd :=
  foldl (λ nd call,
    if await_each_inclusion then (submit_and_watch_until_in_block api nd (encode call)).1
    else (submit_opaque_extrinsic api nd (encode call)).1) nd extrinsics.

Definition send_to_parentchain oc nd (extrinsics_encoded parentchain_id : Bytes) (await_each_inclusion : bool) :
    Nd * result unit BridgeError :=
  let '(extrinsics, status) :=
    match decode (A := list Xt) extrinsics_encoded with
    | Ok calls => (calls, Ok tt)
    | Err _ => ([], Err (SendExtrinsicsToParentchain "Could not decode extrinsics"))
    end in
  match extrinsics with
  | [] => (nd, status)
  | _ =>
      match decode (A := ParentchainId) parentchain_id with
      | Err e => (nd, Err (BrCodec e))
      | Ok parentchain_id =>
          match create_api oc parentchain_id with
          | Err e => (nd, Err e)
          | Ok api => (submit_each api nd await_each_inclusion extrinsics, status)
          end
      end
  end.

Definition ffi_send_to_parentchain oc nd (extrinsics_encoded parentchain_id : Bytes) (await_each_inclusion : bool) :
    Nd * (Z * Z) :=
  let '(nd, res) := send_to_parentchain oc nd extrinsics_encoded parentchain_id await_each_inclusion in
  (nd, (SGX_SUCCESS, match res with Ok _ => SGX_SUCCESS | Err _ => SGX_ERROR_UNEXPECTED end)).
End sending.
End bridge.
End OnChainBridge.

(** ** Reads are authentic *)

(** A proof cannot show a value that is not in the storage of its root. *)
Class TrieLaws (Db : Type) `{TrieDb Db} (storage_of : N → gmap Bytes Bytes) : Prop := {
  proof_sound : ∀ r (proof : StorageProof) key v,
    db_contains (foldl db_insert db_default proof) r = true →
    trie_get (foldl db_insert db_default proof) r key = Ok v → v = storage_of r !! key;
}.

Module OnChainInv.
Import Proof OnChainOCall.

Section sound.
Context {Db : Type} `{TrieDb Db} (storage_of : N → gmap Bytes Bytes) `{!TrieLaws Db storage_of}.
Context {PH : Type} `{StateRoot PH} {V : Type} `{Decode V}.

Lemma check_proof_sound r k p v : check_proof (Db := Db) r k p = Ok v → v = storage_of r !! k.
Proof.
  unfold check_proof, new, read_value, trie. cbn [db root].
  destruct (db_contains _ _) eqn:Hc; [|done]. cbn [db root]. rewrite Hc.
  destruct (trie_get _ _ _) eqn:Hg; [|done]. intros [= <-]. by eapply proof_sound.
Qed.

(** The value of a key in the storage of a block. *)
Definition chain_value (h : PH) (k : Bytes) : result (Bytes * option V) StorageProofError :=
  match storage_of (state_root h) !! k with
  | None => Ok (k, None)
  | Some b => match decode b with Ok x => Ok (k, Some x) | Err e => Err (SpCodec e) end
  end.

Fixpoint chain_values (h : PH) (keys : list Bytes) : result (list (Bytes * option V)) StorageProofError :=
  match keys with
  | [] => Ok []
  | k :: keys => let? x := chain_value h k in let? l := chain_values h keys in Ok (x :: l)
  end.

Lemma verify_storage_proof_sound e h x :
  verify_storage_proof (Db := Db) e h = Ok x → chain_value h (key e) = Ok x.
Proof.
  unfold verify_storage_proof, chain_value. destruct (proof e) as [p|]; [|done].
  destruct (check_proof _ _ _) as [v|err] eqn:Hc; [|done]. apply check_proof_sound in Hc as ->.
  case_decide as Hd; [|done]. by rewrite Hd.
Qed.

Lemma verify_storage_entries_sound es h l :
  verify_storage_entries (Db := Db) es h = Ok l → Forall (λ x, chain_value h x.1 = Ok x) l.
Proof.
  revert l. induction es as [|e es IH]; simpl; intros l; [intros [= <-]; constructor|].
  destruct (verify_storage_proof e h) as [x|err] eqn:Hx; [|done].
  destruct (verify_storage_entries es h) as [l'|err]; [|done]. intros [= <-].
  apply verify_storage_proof_sound in Hx. constructor; [|by apply IH].
  enough (x.1 = key e) as -> by done. revert Hx. unfold chain_value.
  destruct (_ !! _); [destruct (decode _)|]; by intros [= <-].
Qed.
End sound.

(** ** An honest host *)

Section honest.
Context {Db : Type} `{TrieDb Db} (storage_of : N → gmap Bytes Bytes).
Context {PH : Type} `{StateRoot PH} `{ParentchainHeader PH} {V : Type} `{Decode V}.
Context {F Api Nd : Type} `{CreateNodeApi F Api} `{NodeApi Api Nd}.
Context `{Encode (list WorkerRequest), Decode (list WorkerRequest)} `{!Codec (list WorkerRequest)}.
Context `{Encode (list WorkerResponse), Decode (list WorkerResponse)} `{!PrefixCodec (list WorkerResponse)}.
Context `{Encode ParentchainId, Decode ParentchainId} `{!Codec ParentchainId} `{Encode Bytes}.
(** Every empty vector has the same encoding. *)
Hypothesis encode_empty : encode (A := Bytes) [] = encode (A := list WorkerResponse) [].
Context (nd : Nd).

(** A node that has the block answers with its storage and with a proof of it. *)
Definition node_serves (api : Api) (h : PH) : Prop := ∀ k,
  get_opaque_storage_by_key api nd k (Some (pc_hash h)) = Ok (storage_of (state_root h) !! k) ∧
  ∃ p, get_storage_proof_by_keys api nd [k] (Some (pc_hash h)) = Ok (Some p) ∧
    db_contains (foldl db_insert (db_default (Db := Db)) p) (state_root h) = true ∧
    trie_get (foldl db_insert (db_default (Db := Db)) p) (state_root h) k = Ok (storage_of (state_root h) !! k).

Definition requests (h : PH) (keys : list Bytes) : list WorkerRequest :=
  (λ k, ReqChainStorage k (Some (pc_hash h))) <$> keys.

Lemma as_slice_small b : (Z.of_nat (length b) < 2 ^ 32)%Z → as_slice b = b.
Proof. intros Hb. unfold as_slice, u32_wrap. rewrite Z.mod_small by lia. apply take_ge. lia. Qed.

Lemma answer_all_verified api h keys :
  node_serves api h → ∃ resp, OnChainBridge.answer_all api nd (requests h keys) = Ret resp ∧
    (keys = [] ↔ resp = []) ∧
    verify_storage_entries (Db := Db) (V := V) (into_storage_entry <$> resp) h = chain_values storage_of h keys.
Proof.
  intros Hn. induction keys as [|k keys IH]; [by exists []|].
  destruct (Hn k) as (Hs & p & Hp & Hc & Hg), IH as (resp & Hr & _ & Hv).
  change (requests h (k :: keys)) with (ReqChainStorage k (Some (pc_hash h)) :: requests h keys).
  cbn [OnChainBridge.answer_all OnChainBridge.answer]. rewrite Hs, Hp, Hr.
  eexists. split; [done|]. split; [done|]. cbn.
  rewrite Hv. unfold verify_storage_proof, check_proof, new, read_value, trie, chain_value. cbn. rewrite Hc. cbn. rewrite Hc, Hg.
  rewrite decide_True by done. by destruct (_ !! _).
Qed.

Lemma service_answer oc api id h keys resp :
  OnChainBridge.create_api oc id = Ok api → (keys = [] ↔ resp = []) →
  OnChainBridge.answer_all api nd (requests h keys) = Ret resp →
  OnChainBridge.worker_request oc nd (encode (requests h keys)) (encode id) = Ret (Ok (encode resp)).
Proof.
  intros Hapi Hnil Hr. unfold OnChainBridge.worker_request. rewrite decode_encode.
  destruct keys as [|k keys].
  { destruct Hnil as [Hnil _]. cbn. by rewrite (Hnil eq_refl), encode_empty. }
  change (requests h (k :: keys)) with (ReqChainStorage k (Some (pc_hash h)) :: requests h keys) in *.
  by rewrite decode_encode, Hapi, Hr.
Qed.

(** The answer of the service goes through the buffer when it fits. *)
Lemma written_response resp :
  (length (encode (A := list WorkerResponse) resp) ≤ RESPONSE_BUFFER)%nat →
  ∃ n buf, write_slice_and_whitespace_pad (replicate RESPONSE_BUFFER 0%N) (encode resp) = (buf, Ok n) ∧
    decode (A := list WorkerResponse) (written_buffer RESPONSE_BUFFER buf) = Ok resp.
Proof.
  intros Hl. unfold write_slice_and_whitespace_pad. rewrite length_replicate, decide_False by lia.
  eexists _, _. split; [done|]. unfold written_buffer.
  rewrite take_ge by (rewrite length_app, length_replicate; lia). rewrite <-app_assoc. apply decode_prefix.
Qed.

Lemma service_read oc api id h keys (host : Bytes → Bytes → nat → HostAnswer) :
  node_serves api h → OnChainBridge.create_api oc id = Ok api →
  (Z.of_nat (length (encode (requests h keys))) < 2 ^ 32)%Z → (Z.of_nat (length (encode id)) < 2 ^ 32)%Z →
  OnChainBridge.ffi_worker_request oc nd (encode (requests h keys)) (encode id) RESPONSE_BUFFER =
    Ret (host (encode (requests h keys)) (encode id) RESPONSE_BUFFER) →
  ∃ resp, OnChainBridge.answer_all api nd (requests h keys) = Ret resp ∧
    get_multiple_storages_verified (Db := Db) (V := V) host keys h id =
      if decide (length (encode resp) ≤ RESPONSE_BUFFER)%nat then
        match chain_values storage_of h keys with Ok l => Ok l | Err e => Err (OcStorage e) end
      else Err (OcSgx SGX_ERROR_UNEXPECTED).
Proof.
  intros Hn Hapi Hl1 Hl2 Hhost. destruct (answer_all_verified api h keys Hn) as (resp & Hr & Hnil & Hv).
  exists resp. split; [done|]. unfold OnChainBridge.ffi_worker_request in Hhost.
  rewrite (service_answer oc api id h keys resp Hapi Hnil Hr) in Hhost. cbn [mbind outcome_bind] in Hhost.
  apply (inj Ret) in Hhost. unfold get_multiple_storages_verified, worker_request. fold (requests h keys).
  rewrite !as_slice_small by done. rewrite <-Hhost.
  destruct (decide (length (encode resp) ≤ RESPONSE_BUFFER)%nat) as [Hfit|Hfit].
  - destruct (written_response resp Hfit) as (n & buf & -> & Hd). cbn [ans_rt ans_res ans_written].
    rewrite !decide_False by (intros Hne; by apply Hne). by rewrite Hd, Hv.
  - unfold write_slice_and_whitespace_pad. rewrite length_replicate.
    by rewrite (decide_True (P := (RESPONSE_BUFFER < length (encode resp))%nat)) by lia.
Qed.

(** A host may answer with what another request would have got. *)
Definition swapped (host : Bytes → Bytes → nat → HostAnswer) (h : PH) (keys : list Bytes) (id : ParentchainId) :
    Bytes → Bytes → nat → HostAnswer :=
  λ _ _ _, host (as_slice (encode (requests h keys))) (as_slice (encode id)) RESPONSE_BUFFER.

Lemma swapped_read host h id keys keys' :
  get_multiple_storages_verified (Db := Db) (V := V) (swapped host h keys' id) keys h id =
  get_multiple_storages_verified (Db := Db) (V := V) host keys' h id.
Proof. done. Qed.
End honest.
End OnChainInv.

Section reads.
Import Proof OnChainOCall OnChainInv.
Context {Db : Type} `{TrieDb Db} (storage_of : N → gmap Bytes Bytes) `{!TrieLaws Db storage_of}.
Context {PH : Type} `{StateRoot PH} `{ParentchainHeader PH}.
Context {F Api Nd : Type} `{CreateNodeApi F Api} `{NodeApi Api Nd}.
Context `{Encode (list WorkerRequest), Decode (list WorkerRequest)} `{!Codec (list WorkerRequest)}.
Context `{Encode (list WorkerResponse), Decode (list WorkerResponse)} `{!PrefixCodec (list WorkerResponse)}.
Context `{Encode ParentchainId, Decode ParentchainId} `{!Codec ParentchainId} `{Encode Bytes}.
Hypothesis encode_empty : encode (A := Bytes) [] = encode (A := list WorkerResponse) [].
Context (nd : Nd).
Implicit Types (host : Bytes → Bytes → nat → HostAnswer) (oc : WorkerOnChainOCall F).

(** The host behaves as the service with this node. *)
Definition honest host oc (h : PH) (keys : list Bytes) (id : ParentchainId) : Prop :=
  OnChainBridge.ffi_worker_request oc nd (encode (requests h keys)) (encode id) RESPONSE_BUFFER =
    Ret (host (encode (requests h keys)) (encode id) RESPONSE_BUFFER) ∧
  (Z.of_nat (length (encode (requests h keys))) < 2 ^ 32)%Z ∧ (Z.of_nat (length (encode id)) < 2 ^ 32)%Z.

(** C26: Whatever the host answers, an entry that the enclave accepts is an entry of the
    storage of the header's block; and the service with a node that has the block
    gets the values of all the keys through, when they fit the buffer. *)
Theorem storage_reads_are_authentic {V : Type} `{Decode V} (h : PH) (keys : list Bytes) (id : ParentchainId) :
  (∀ host (l : list (Bytes * option V)),
    get_multiple_storages_verified (Db := Db) host keys h id = Ok l →
    Forall (λ x, chain_value storage_of h x.1 = Ok x) l) ∧
  (∀ host oc api,
    node_serves (Db := Db) storage_of nd api h → OnChainBridge.create_api oc id = Ok api → honest host oc h keys id →
    ∃ resp, OnChainBridge.answer_all api nd (requests h keys) = Ret resp ∧
      get_multiple_storages_verified (Db := Db) (V := V) host keys h id =
        if decide (length (encode resp) ≤ RESPONSE_BUFFER)%nat then
          match chain_values storage_of h keys with Ok l => Ok l | Err e => Err (OcStorage e) end
        else Err (OcSgx SGX_ERROR_UNEXPECTED)).
Proof.
  split.
  - intros host l. unfold get_multiple_storages_verified. destruct (worker_request _ _ _); [|done].
    destruct (verify_storage_entries _ _) eqn:Hv; [|done]. intros [= <-]. by eapply verify_storage_entries_sound.
  - intros host oc api Hn Hapi (Hh & Hl1 & Hl2). by eapply service_read.
Qed.

(** The enclave does not compare the keys of the entries with the keys it asked for:
    a host can answer the question for the validateers of any shard with those of
    the shard of its choice. *)
Theorem host_chooses_the_validateers `{Twox} `{Hashers} `{Encode ShardIdentifier}
    {Sss : Type} `{Decode (list Sss)} (signer : Sss → Public) (error_text : OcallError → string)
    host oc api (h : PH) (chosen : ShardIdentifier) l resp :
  node_serves (Db := Db) storage_of nd api h → OnChainBridge.create_api oc Integritee = Ok api →
  honest host oc h [shard_status_key chosen] Integritee →
  OnChainBridge.answer_all api nd (requests h [shard_status_key chosen]) = Ret resp → (length (encode resp) ≤ RESPONSE_BUFFER)%nat →
  chain_value (V := list Sss) storage_of h (shard_status_key chosen) = Ok (shard_status_key chosen, Some l) →
  ∃ host', ∀ shard, shard_status (Db := Db) signer error_text host' h shard = Ok (Some (map signer l)).
Proof.
  intros Hn Hapi (Hh & Hl1 & Hl2) Hr Hfit Hv. exists (swapped host h [shard_status_key chosen] Integritee).
  intros shard. unfold shard_status, get_storage_verified. rewrite swapped_read.
  destruct (service_read (Db := Db) (V := list Sss) storage_of encode_empty nd oc api Integritee h [shard_status_key chosen] host Hn Hapi Hl1 Hl2 Hh)
    as (resp' & Hr' & ->). rewrite Hr in Hr'. apply (inj Ret) in Hr' as <-. rewrite decide_True by done.
  cbn [chain_values]. by rewrite Hv.
Qed.
End reads.

(** ** Witnesses *)

#[export] Instance parentchain_id_countable : Countable ParentchainId.
Proof.
  refine (inj_countable (λ id, match id with Integritee => 0%nat | TargetA => 1%nat | TargetB => 2%nat end)
    (λ n, match n with 0%nat => Some Integritee | 1%nat => Some TargetA | 2%nat => Some TargetB | _ => None end) _).
  by intros [].
Defined.

Module OnChainSample.
Import Sample.

#[export] Instance worker_request_eq_dec : EqDecision WorkerRequest.
Proof. solve_decision. Defined.
#[export] Instance worker_request_countable : Countable WorkerRequest.
Proof. refine (inj_countable' (λ '(ReqChainStorage k h), (k, h)) (λ '(k, h), ReqChainStorage k h) _). by intros []. Defined.
#[export] Instance worker_response_eq_dec : EqDecision WorkerResponse.
Proof. solve_decision. Defined.
#[export] Instance worker_response_countable : Countable WorkerResponse.
Proof. refine (inj_countable' (λ '(RespChainStorage k v p), (k, v, p)) (λ '(k, v, p), RespChainStorage k v p) _). by intros []. Defined.

#[export] Instance enc_requests : Encode (list WorkerRequest) := count_encode.
#[export] Instance dec_requests : Decode (list WorkerRequest) := count_decode.
#[export] Instance codec_requests : Codec (list WorkerRequest) := count_codec.
#[export] Instance enc_responses : Encode (list WorkerResponse) := count_encode.
#[export] Instance dec_responses : Decode (list WorkerResponse) := count_decode.
#[export] Instance codec_responses : PrefixCodec (list WorkerResponse) := count_prefix.
#[export] Instance enc_id : Encode ParentchainId := count_encode.
#[export] Instance dec_id : Decode ParentchainId := count_decode.
#[export] Instance codec_id : Codec ParentchainId := count_codec.
#[export] Instance enc_bytes : Encode Bytes := count_encode.
#[export] Instance dec_signers : Decode (list N) := count_decode.
#[export] Instance hashers : Hashers := {|
  hash_blake2_128 := λ _, replicate 16 0%N; hash_blake2_256 := λ _, replicate 32 0%N;
  hash_twox_64 := λ _, replicate 8 0%N; hash_twox_128 := λ _, replicate 16 0%N; hash_twox_256 := λ _, replicate 32 0%N |}.

(** Shard 7 has two validateers, shard 8 has one. *)
Definition storage (root : N) : gmap Bytes Bytes :=
  {[shard_status_key 7%N := encode (A := Bytes) [70; 71]%N; shard_status_key 8%N := encode (A := Bytes) [80]%N]}.

(** A proof is the list of the roots it is for. *)
#[export] Instance trie : TrieDb (list Bytes) := {|
  db_default := [];
  db_insert := λ db node, node :: db;
  db_contains := λ db r, bool_decide ([r] ∈ db);
  trie_get := λ db r k, Ok (storage r !! k) |}.
#[export] Instance trie_laws : TrieLaws (list Bytes) storage.
Proof. split. intros r p k v _ Hg. by injection Hg as <-. Qed.
#[export] Instance roots : StateRoot N := λ h, h.

#[export] Instance node_api : NodeApi unit unit := {|
  get_opaque_storage_by_key := λ _ _ k at_block, Ok (storage (N.pred (default 0%N at_block)) !! k);
  get_storage_proof_by_keys := λ _ _ _ at_block, Ok (Some [[N.pred (default 0%N at_block)]]);
  submit_opaque_extrinsic := λ _ nd _, (nd, Ok 0%N);
  submit_and_watch_until_in_block := λ _ nd _, (nd, Ok 0%N) |}.
#[export] Instance create_node_api : CreateNodeApi unit unit := λ _, Ok tt.

Definition worker : WorkerOnChainOCall unit := MkOnChainOCall tt None None.

Definition host (request id : Bytes) (size : nat) : HostAnswer :=
  match OnChainBridge.ffi_worker_request worker tt request id size with Ret a => a | _ => MkAnswer 1 1 [] end.

Lemma empty_vectors : encode (A := Bytes) [] = encode (A := list WorkerResponse) [].
Proof. done. Qed.

Lemma node_serves_all h : OnChainInv.node_serves (Db := list Bytes) storage tt tt h.
Proof.
  intros k. cbn. rewrite N.pred_succ. split; [done|]. exists [[h]]. split; [done|].
  split; [apply bool_decide_true, list_elem_of_here|done].
Qed.

Lemma responses_small (resp : list WorkerResponse) : (length (encode resp) ≤ RESPONSE_BUFFER)%nat.
Proof. apply response_buffer_nonempty. Qed.

Lemma host_honest h keys : honest tt host worker h keys Integritee.
Proof.
  split; [|done]. unfold host.
  destruct (OnChainInv.answer_all_verified (Db := list Bytes) (V := list N) storage tt tt h keys (node_serves_all h)) as (resp & Hr & Hnil & _).
  assert (OnChainBridge.create_api worker Integritee = Ok tt) as Hapi by done. unfold OnChainBridge.ffi_worker_request.
  by rewrite (OnChainInv.service_answer empty_vectors tt worker tt Integritee h keys resp Hapi Hnil Hr).
Qed.
End OnChainSample.

Section witnesses.
Import Sample OnChainSample OnChainInv OnChainOCall.

(** The validateers of shard 8 and of a shard nobody runs. *)
Lemma storage_reads_are_authentic_witness :
  get_multiple_storages_verified (Db := list Bytes) (V := list N) host [shard_status_key 8%N; []] 5%N Integritee =
    Ok [(shard_status_key 8%N, Some [80%N]); ([], None)].
Proof.
  destruct (proj2 (storage_reads_are_authentic (Db := list Bytes) (V := list N) storage empty_vectors tt 5%N [shard_status_key 8%N; []] Integritee)
    host worker tt) as (resp & _ & ->); [apply node_serves_all|done|apply host_honest|].
  rewrite decide_True by apply responses_small. by vm_compute.
Defined.

(** The validateer of shard 8 for shard 7. *)
Lemma host_chooses_the_validateers_witness :
  ∃ host', shard_status (Db := list Bytes) (Sss := N) (λ s, s) (λ _, "error"%string) host' 5%N 7%N = Ok (Some [80%N]).
Proof.
  destruct (answer_all_verified (Db := list Bytes) (V := list N) storage tt tt 5%N [shard_status_key 8%N] (node_serves_all 5%N))
    as (resp & Hr & _).
  destruct (host_chooses_the_validateers (Db := list Bytes) storage empty_vectors tt (Sss := N) (λ s, s) (λ _, "error"%string) host worker tt 5%N 8%N
    [80%N] resp) as [host' Hhost]; [apply node_serves_all|done|apply host_honest|done|apply responses_small|by vm_compute|].
  exists host'. apply (Hhost 7%N).
Defined.
End witnesses.
