(* ===== verification/LightClient.v ===== *)
(** The light client of a parentchain (src/core/parentchain/light-client/src): its
    state, the two kinds of finality, GRANDPA justifications, the sealed copy of
    the state and the access to both.

    GRANDPA itself (voter sets, the validation of commits, signatures), the SGX file
    system and the codec are external. *)

From Stdlib Require Import Ascii.
From stdpp Require Import base gmap numbers strings list.
From S2P Require Import Prelude Collections PoolTypes Externalities SidechainDb SidechainBlocks StfExecutor ParentchainImport OnChain.

Open Scope worker_scope.

(** ** Types of GRANDPA *)

Abbreviation AuthorityList := (list (N * Z)) (only parsing).

Class ParentHash (PH : Type) := pc_parent_hash : PH → N.

(** [ScheduledChange] of sp_consensus_grandpa. *)
Record ScheduledChange := MkChange {
  next_authorities : AuthorityList;
  delay : Z;
}.

(** [grandpa_log] reads the digest of a header. *)
Class GrandpaLog (PH Log : Type) := {
  grandpa_log : PH → option Log;
  try_into_change : Log → option ScheduledChange;
}.

Record Precommit := MkPrecommit {
  precommit_target_hash : N;
  precommit_target_number : Z;
}.

Record SignedPrecommit := MkSignedPrecommit {
  precommit : Precommit;
  signature : Bytes;
  authority : N;
}.

Record Commit := MkCommit {
  target_hash : N;
  target_number : Z;
  precommits : list SignedPrecommit;
}.

Inductive GrandpaError := NotDescendent.

(** [VoterSet], [Justifications] and [validate_commit], which asks the chain for
    routes between blocks. *)
Class Grandpa (VS Js : Type) := {
  voter_set_new : AuthorityList → option VS;
  into_justification : Js → option Bytes;
  validate_commit : Commit → VS → (N → N → outcome (result (list N) GrandpaError)) → outcome (result bool string);
}.

(** [Chain] asked for routes: validation returns when the routes do. *)
Class GrandpaLaws (VS Js : Type) `{Grandpa VS Js} : Prop := {
  validate_commit_returns : ∀ c vs ancestry,
    (∀ base block, ∃ r, ancestry base block = Ret r) → ∃ r, validate_commit c vs ancestry = Ret r;
}.

Inductive JustificationError :=
| JustificationDecode
| BadJustification (msg : string)
| InvalidAuthoritiesSet.

Inductive LightClientError :=
| LcStorage (e : StorageProofError)
| ValidatorSetMismatch
| InvalidAncestryProof
| InvalidFinalityProof (e : JustificationError)
| HeaderAncestryMismatch
| NoJustificationFound
| LcOther (msg : string).

(** ** State (state.rs) *)

Definition PARENTCHAIN_HEADER_PRUNING : nat := Z.to_nat 1000.
#[global] Opaque PARENTCHAIN_HEADER_PRUNING.

Record ScheduledChangeAtBlock := MkScheduled {
  at_block : Z;
  next_authority_list : AuthorityList;
}.

Record RelayState (PH : Type) := MkRelay {
  genesis_hash : N;
  last_finalized_block_header : PH;
  penultimate_finalized_block_header : PH;
  current_validator_set : AuthorityList;
  current_validator_set_id : Z;
  header_hashes : list N;
  unjustified_headers : list N;
  scheduled_change : option ScheduledChangeAtBlock;
}.
Arguments MkRelay {PH} _ _ _ _ _ _ _ _.
Arguments genesis_hash {PH} _.
Arguments last_finalized_block_header {PH} _.
Arguments penultimate_finalized_block_header {PH} _.
Arguments current_validator_set {PH} _.
Arguments current_validator_set_id {PH} _.
Arguments header_hashes {PH} _.
Arguments unjustified_headers {PH} _.
Arguments scheduled_change {PH} _.

Module Relay.
Section relay.
Context {PH : Type} `{ParentchainHeader PH}.
Implicit Types (r : RelayState PH).

(** The record with some fields replaced. *)
Definition with_hashes r (hashes unjustified : list N) : RelayState PH :=
  MkRelay (genesis_hash r) (last_finalized_block_header r) (penultimate_finalized_block_header r)
    (current_validator_set r) (current_validator_set_id r) hashes unjustified (scheduled_change r).

Definition with_validators r (set : AuthorityList) (set_id : Z) (change : option ScheduledChangeAtBlock) : RelayState PH :=
  MkRelay (genesis_hash r) (last_finalized_block_header r) (penultimate_finalized_block_header r)
    set set_id (header_hashes r) (unjustified_headers r) change.

Definition push_header_hash r (hash : N) : RelayState PH :=
  let hashes := header_hashes r ++ [hash] in
  with_hashes r (if decide (PARENTCHAIN_HEADER_PRUNING < length hashes)%nat then tail hashes else hashes) (unjustified_headers r).

(** [while len > PARENTCHAIN_HEADER_PRUNING { pop_front }]. *)
Fixpoint prune_hashes (hashes : list N) : list N :=
  if decide (PARENTCHAIN_HEADER_PRUNING < length hashes)%nat then
    match hashes with [] => [] | _ :: hashes => prune_hashes hashes end
  else hashes.

Definition justify_headers r : RelayState PH :=
  with_hashes r (prune_hashes (header_hashes r ++ unjustified_headers r)) [].

Definition new (genesis : PH) (validator_set : AuthorityList) : RelayState PH :=
  MkRelay (pc_hash genesis) genesis genesis validator_set 0 [pc_hash genesis] [] None.

Definition set_last_finalized_block_header r (header : PH) : RelayState PH :=
  MkRelay (genesis_hash r) header (last_finalized_block_header r) (current_validator_set r) (current_validator_set_id r)
    (header_hashes r) (unjustified_headers r) (scheduled_change r).
End relay.
End Relay.

(** ** Justifications (justification.rs) *)

Record GrandpaJustification (PH : Type) := MkJustification {
  round : Z;
  commit : Commit;
  votes_ancestries : list PH;
}.
Arguments MkJustification {PH} _ _ _.
Arguments round {PH} _.
Arguments commit {PH} _.
Arguments votes_ancestries {PH} _.

Module Justification.
Section justification.
Context {PH VS Js : Type} `{ParentchainHeader PH} `{ParentHash PH} `{Grandpa VS Js}.
(** The check of the signature of a vote in a round of an authority set. *)
Context (check_message_signature : Precommit → N → Bytes → Z → Z → bool).
Implicit Types (j : GrandpaJustification PH).

(** [AncestryChain]. *)
Definition ancestry_chain (headers : list PH) : gmap N PH := foldl (λ m h, <[pc_hash h := h]> m) ∅ headers.

Definition ancestry_step (chain : gmap N PH) (base : N) (s : N * list N) :
    outcome ((N * list N) + result (list N) GrandpaError) :=
  let '(current_hash, ancestors) := s in
  if decide (current_hash = base) then Ret (inr (Ok (removelast ancestors)))
  else
    match chain !! current_hash with
    | Some current_header => Ret (inl (pc_parent_hash current_header, ancestors ++ [pc_parent_hash current_header]))
    | None => Ret (inr (Err NotDescendent))
    end.

(** Every iteration leaves a header of the chain for its parent. *)
Definition ancestry (chain : gmap N PH) (base block : N) : outcome (result (list N) GrandpaError) :=
  loop (S (size chain)) (ancestry_step chain base) (block, []).

Definition check_commit j (voters : VS) (chain : gmap N PH) : outcome (result unit JustificationError) :=
  validate_commit (commit j) voters (ancestry chain) ≫= λ r,
  Ret match r with
  | Ok true => Ok tt
  | _ => Err (BadJustification "invalid commit in grandpa justification")
  end.

Definition fill_visited_hashes j (chain : gmap N PH) (precommit_target : N) (visited_hashes : gset N) :
    outcome (result (gset N) JustificationError) :=
  ancestry chain (target_hash (commit j)) precommit_target ≫= λ r,
  Ret match r with
  | Ok route => Ok (visited_hashes ∪ {[precommit_target]} ∪ list_to_set route)
  | Err _ => Err (BadJustification "invalid precommit ancestry proof in grandpa justification")
  end.

(** The votes; [bad] are the voters that are warned about. *)
Fixpoint visit_precommits j (set_id : Z) (chain : gmap N PH) (signed : list SignedPrecommit)
    (bad : list N) (visited_hashes : gset N) : outcome (list N * result (gset N) JustificationError) :=
  match signed with
  | [] => Ret (bad, Ok visited_hashes)
  | s :: signed =>
      let bad :=
        if check_message_signature (precommit s) (authority s) (signature s) (round j) set_id then bad
        else bad ++ [authority s] in
      if decide (target_hash (commit j) = precommit_target_hash (precommit s))
      then visit_precommits j set_id chain signed bad visited_hashes
      else
        fill_visited_hashes j chain (precommit_target_hash (precommit s)) visited_hashes ≫= λ r,
        match r with
        | Ok visited_hashes => visit_precommits j set_id chain signed bad visited_hashes
        | Err e => Ret (bad, Err e)
        end
  end.

Definition verify_with_voter_set j (set_id : Z) (voters : VS) : outcome (list N * result unit JustificationError) :=
  let chain := ancestry_chain (votes_ancestries j) in
  check_commit j voters chain ≫= λ r,
  match r with
  | Err e => Ret ([], Err e)
  | Ok _ =>
      visit_precommits j set_id chain (precommits (commit j)) [] ∅ ≫= λ '(bad, r),
      Ret (bad,
        match r with
        | Err e => Err e
        | Ok visited_hashes =>
            if decide (visited_hashes ≠ list_to_set (pc_hash <$> votes_ancestries j)) then
              Err (BadJustification "invalid precommit ancestries in grandpa justification with unused headers")
            else Ok tt
        end)
  end.

Definition verify j (set_id : Z) (authorities : AuthorityList) : outcome (list N * result unit JustificationError) :=
  match voter_set_new authorities with
  | None => Ret ([], Err InvalidAuthoritiesSet)
  | Some voters => verify_with_voter_set j set_id voters
  end.

Context `{Decode (GrandpaJustification PH)}.

Definition decode_and_verify_finalizes (encoded : Bytes) (finalized_target : N * Z) (set_id : Z) (voters : VS) :
    outcome (list N * result (GrandpaJustification PH) JustificationError) :=
  match decode encoded with
  | Err _ => Ret ([], Err JustificationDecode)
  | Ok justification =>
      if decide ((target_hash (commit justification), target_number (commit justification)) ≠ finalized_target) then
        Ret ([], Err (BadJustification "invalid commit target in grandpa justification"))
      else
        verify_with_voter_set justification set_id voters ≫= λ '(bad, r),
        Ret (bad, match r with Ok _ => Ok justification | Err e => Err e end)
  end.
End justification.
End Justification.

(** ** Finality (finality.rs) *)

Inductive Finality := GrandpaFinality | ParachainFinality.

Module Final.
Section finality.
Context {PH VS Js Log : Type} `{ParentchainHeader PH} `{ParentHash PH} `{Grandpa VS Js} `{GrandpaLog PH Log}.
Context `{Decode (GrandpaJustification PH)} (check_message_signature : Precommit → N → Bytes → Z → Z → bool).
Implicit Types (r : RelayState PH).

Definition pending_change (header : PH) : option ScheduledChange := grandpa_log header ≫= try_into_change.

Definition apply_validator_set_change r (header : PH) : RelayState PH :=
  match scheduled_change r with
  | Some change =>
      if decide (at_block change = pc_number header) then
        Relay.with_validators r (next_authority_list change) (u64_wrap (current_validator_set_id r + 1)) None
      else Relay.with_validators r (current_validator_set r) (current_validator_set_id r) None
  | None => r
  end.

Definition schedule_validator_set_change r (header : PH) : RelayState PH :=
  match pending_change header with
  | None => r
  | Some log =>
      match scheduled_change r with
      | Some _ => r
      | None =>
          Relay.with_validators r (current_validator_set r) (current_validator_set_id r)
            (Some (MkScheduled (u32_wrap (delay log + pc_number header)) (next_authorities log)))
      end
  end.

Definition verify_grandpa_proof (encoded_justification : Bytes) (hash : N) (number : Z) (set_id : Z) (voters : VS) :
    outcome (result unit JustificationError) :=
  Justification.decode_and_verify_finalizes check_message_signature encoded_justification (hash, number) set_id voters ≫= λ '(_, r),
  Ret match r with Ok _ => Ok tt | Err e => Err e end.

(** A header that is not justified. *)
Definition push_unjustified r (header : PH) : RelayState PH :=
  Relay.set_last_finalized_block_header
    (Relay.with_hashes r (header_hashes r) (unjustified_headers r ++ [pc_hash header])) header.

Definition validate (f : Finality) (header : PH) (validator_set : AuthorityList) (validator_set_id : Z)
    (justifications : option Js) r : outcome (RelayState PH * result unit LightClientError) :=
  match f with
  | ParachainFinality => Ret (r, Ok tt)
  | GrandpaFinality =>
      let r := apply_validator_set_change r header in
      unwrap (voter_set_new validator_set) ≫= λ voter_set,
      match justifications ≫= into_justification with
      | Some justification =>
          verify_grandpa_proof justification (pc_hash header) (pc_number header) validator_set_id voter_set ≫= λ res,
          match res with
          | Err err => Ret (push_unjustified r header, Err (InvalidFinalityProof err))
          | Ok _ => Ret (schedule_validator_set_change r header, Ok tt)
          end
      | None => Ret (push_unjustified r header, Err NoJustificationFound)
      end
  end.
End finality.
End Final.

(** ** Validation (light_validation.rs) *)

Record LightValidation (PH : Type) := MkValidation {
  relay_state : RelayState PH;
  parentchain_id : ParentchainId;
  finality : Finality;
}.
Arguments MkValidation {PH} _ _ _.
Arguments relay_state {PH} _.
Arguments parentchain_id {PH} _.
Arguments finality {PH} _.

Module Validation.
Section validation.
Context {PH VS Js Log : Type} `{ParentchainHeader PH} `{ParentHash PH} `{Grandpa VS Js} `{GrandpaLog PH Log}.
Context `{Decode (GrandpaJustification PH)} (check_message_signature : Precommit → N → Bytes → Z → Z → bool).
Implicit Types (v : LightValidation PH).

Definition with_relay v (r : RelayState PH) : LightValidation PH := MkValidation r (parentchain_id v) (finality v).

Definition verify_ancestry (proof : list PH) (ancestor_hash : N) (child : PH) : result unit LightClientError :=
  if decide (pc_parent_hash child = ancestor_hash) then Ok tt
  else
    match list_find (λ h, pc_hash h = pc_parent_hash child ∧ pc_parent_hash h = ancestor_hash) proof with
    | Some _ => Ok tt
    | None => Err InvalidAncestryProof
    end.

Definition submit_finalized_headers v (header : PH) (ancestry_proof : list PH) (justifications : option Js) :
    outcome (LightValidation PH * result unit LightClientError) :=
  let relay := relay_state v in
  let validator_set := current_validator_set relay in
  let validator_set_id := current_validator_set_id relay in
  match verify_ancestry ancestry_proof (pc_hash (last_finalized_block_header relay)) header with
  | Err e => Ret (v, Err e)
  | Ok _ =>
      Final.validate check_message_signature (finality v) header validator_set validator_set_id justifications relay
        ≫= λ '(relay, res),
      match res with
      | Err NoJustificationFound => Ret (with_relay v relay, Ok tt)
      | Err e => Ret (with_relay v relay, Err e)
      | Ok _ =>
          let relay := Relay.justify_headers relay in
          let relay := Relay.push_header_hash relay (pc_hash header) in
          let relay := Relay.set_last_finalized_block_header relay header in
          let relay :=
            if (current_validator_set_id relay <? validator_set_id)%Z
            then Relay.with_validators relay validator_set validator_set_id (scheduled_change relay) else relay in
          Ret (with_relay v relay, Ok tt)
      end
  end.

(** A signed block is its header and its justifications. *)
Definition submit_block v (signed_block : PH * option Js) : outcome (LightValidation PH * result unit LightClientError) :=
  let '(header, justifications) := signed_block in
  if decide (pc_hash (last_finalized_block_header (relay_state v)) ≠ pc_parent_hash header)
  then Ret (v, Err HeaderAncestryMismatch)
  else submit_finalized_headers v header [] justifications.

Definition latest_finalized_header v : PH := last_finalized_block_header (relay_state v).
Definition penultimate_header v : PH := penultimate_finalized_block_header (relay_state v).
Definition validation_genesis_hash v : N := genesis_hash (relay_state v).
End validation.

(** The bytes of an ASCII literal. *)
Fixpoint bytes_of (s : string) : Bytes :=
  match s with EmptyString => [] | String c s => Ascii.N_of_ascii c :: bytes_of s end.

Definition check_validator_set_proof {Db : Type} `{TrieDb Db} `{Encode AuthorityList}
    (root : N) (proof : StorageProof) (validator_set : AuthorityList) : result unit LightClientError :=
  match Proof.new (Db := Db) root proof with
  | Err e => Err (LcStorage e)
  | Ok checker =>
      let encoded_validator_set := 1%N :: encode validator_set in
      match Proof.read_value checker (bytes_of ":grandpa_authorities") with
      | Err e => Err (LcStorage e)
      | Ok None => Err (LcStorage StorageValueUnavailable)
      | Ok (Some actual_validator_set) =>
          if decide (encoded_validator_set = actual_validator_set) then Ok tt else Err ValidatorSetMismatch
      end
  end.
End Validation.

(** ** Sealed files (io.rs, src/core-primitives/sgx/io/src/lib.rs) *)

Abbreviation Path := string (only parsing).

(** [std::fs] and [SgxFile]. *)
Class SgxFiles (Fs : Type) := {
  fs_exists : Fs → Path → bool;
  fs_open : Fs → Path → result unit string;
  fs_copy : Fs → Path → Path → Fs * result unit string;
  sgx_create : Fs → Path → Fs * result unit string;
  sgx_write_all : Fs → Path → Bytes → Fs * result unit string;
  sgx_open : Fs → Path → result unit string;
  sgx_read_to_end : Fs → Path → result Bytes string;
}.

Record LightClientStateSeal := MkSeal {
  base_path : Path;
  seal_parentchain_id : ParentchainId;
}.

Module Seal.
Section seal.
Context {Fs : Type} `{SgxFiles Fs} {L : Type} `{Encode L, Decode L}.
Implicit Types (fs : Fs) (s : LightClientStateSeal).

Definition DB_FILE : string := "db.bin".
Definition BACKUP_FILE : string := "db.bin.backup".
Definition CANT_UNSEAL_FILE : string := "db.cantunseal".

Definition join (base : Path) (file : string) : Path := base +:+ "/" +:+ file.
Definition db_path s : Path := join (base_path s) DB_FILE.
Definition backup_path s : Path := join (base_path s) BACKUP_FILE.
Definition cant_unseal_path s : Path := join (base_path s) CANT_UNSEAL_FILE.

Definition sgx_unseal fs (path : Path) : result Bytes string :=
  let? u := sgx_open fs path in sgx_read_to_end fs path.

Definition sgx_seal fs (bytes : Bytes) (path : Path) : Fs * result unit string :=
  match sgx_create fs path with
  | (fs, Err e) => (fs, Err e)
  | (fs, Ok _) => sgx_write_all fs path bytes
  end.

Definition backup s fs : Fs * result unit string :=
  if fs_exists fs (db_path s) then fs_copy fs (db_path s) (backup_path s) else (fs, Ok tt).

(** A backup that fails is only logged. *)
Definition seal s fs (unsealed : L) : Fs * result unit LightClientError :=
  let '(fs, _) := backup s fs in
  let '(fs, res) := sgx_seal fs (encode unsealed) (db_path s) in
  (fs, match res with Ok _ => Ok tt | Err e => Err (LcOther e) end).

(** The failover to the backup. *)
Definition unseal_backup s fs : Fs * result Bytes string :=
  match fs_copy fs (db_path s) (cant_unseal_path s) with
  | (fs, Err e) => (fs, Err e)
  | (fs, Ok _) =>
      match fs_copy fs (backup_path s) (db_path s) with
      | (fs, Err e) => (fs, Err e)
      | (fs, Ok _) => (fs, sgx_unseal fs (db_path s))
      end
  end.

Definition unseal s fs : Fs * result L LightClientError :=
  let '(fs, bytes) := match sgx_unseal fs (db_path s) with Ok b => (fs, Ok b) | Err e => unseal_backup s fs end in
  (fs,
   match bytes with
   | Err e => Err (LcOther e)
   | Ok b => match decode b with Ok l => Ok l | Err e => Err (LcOther e) end
   end).

Definition exists_db s fs : Fs * bool :=
  match fs_open fs (db_path s) with
  | Ok _ => (fs, true)
  | Err e =>
      match fs_copy fs (backup_path s) (db_path s) with
      | (fs, Ok _) => (fs, is_ok (fs_open fs (db_path s)))
      | (fs, Err _) => (fs, false)
      end
  end.
End seal.

(** *** Initialisation *)

Record GrandpaParams (PH : Type) := MkGrandpaParams {
  gp_genesis_header : PH;
  gp_authorities : AuthorityList;
  gp_authority_proof : StorageProof;
}.
Arguments MkGrandpaParams {PH} _ _ _.
Arguments gp_genesis_header {PH} _.
Arguments gp_authorities {PH} _.
Arguments gp_authority_proof {PH} _.

Record SimpleParams (PH : Type) := MkSimpleParams { sp_genesis_header : PH }.
Arguments MkSimpleParams {PH} _.
Arguments sp_genesis_header {PH} _.

Section init.
Context {Fs : Type} `{SgxFiles Fs} {PH : Type} `{ParentchainHeader PH}.
Context `{Encode (RelayState PH), Decode (RelayState PH)}.
Implicit Types (fs : Fs) (s : LightClientStateSeal).

Definition init_validator (f : Finality) (state : RelayState PH) (id : ParentchainId) : LightValidation PH :=
  MkValidation state id f.

(** The state of the sealed file if it is one of the same chain, or a new one. *)
Definition read_or_init (f : Finality) s fs (genesis : PH) (authorities : AuthorityList) (id : ParentchainId) :
    Fs * result (LightValidation PH) LightClientError :=
  let seal_and_return fs (validator : LightValidation PH) :=
    match seal s fs (relay_state validator) with
    | (fs, Err e) => (fs, Err e)
    | (fs, Ok _) => (fs, Ok validator)
    end in
  match exists_db s fs with
  | (fs, false) => seal_and_return fs (init_validator f (Relay.new genesis authorities) id)
  | (fs, true) =>
      match unseal (L := RelayState PH) s fs with
      | (fs, Err e) => (fs, Err e)
      | (fs, Ok validation_state) =>
          let init_state :=
            if decide (genesis_hash validation_state = pc_hash genesis) then validation_state
            else Relay.new genesis authorities in
          seal_and_return fs (init_validator f init_state id)
      end
  end.

Definition read_or_init_parachain_validator (params : SimpleParams PH) s fs (id : ParentchainId) :
    Fs * result (LightValidation PH) LightClientError :=
  read_or_init ParachainFinality s fs (sp_genesis_header params) [] id.

Context {Db : Type} `{TrieDb Db} `{StateRoot PH} `{Encode AuthorityList}.

Definition read_or_init_grandpa_validator (params : GrandpaParams PH) s fs (id : ParentchainId) :
    Fs * result (LightValidation PH) LightClientError :=
  match Validation.check_validator_set_proof (Db := Db) (state_root (gp_genesis_header params))
          (gp_authority_proof params) (gp_authorities params) with
  | Err e => (fs, Err e)
  | Ok _ => read_or_init GrandpaFinality s fs (gp_genesis_header params) (gp_authorities params) id
  end.
End init.
End Seal.

(** ** Access (concurrent_access.rs) *)

Record ValidatorAccessor (Fs PH : Type) := MkAccessor {
  acc_seal : LightClientStateSeal;
  acc_files : Fs;
  light_validation : LightValidation PH;
}.
Arguments MkAccessor {Fs PH} _ _ _.
Arguments acc_seal {Fs PH} _.
Arguments acc_files {Fs PH} _.
Arguments light_validation {Fs PH} _.

Module Accessor.
Section accessor.
Context {Fs PH : Type} `{SgxFiles Fs} `{ParentchainHeader PH} `{Encode (RelayState PH), Decode (RelayState PH)}.
Implicit Types (a : ValidatorAccessor Fs PH).

Definition execute_on_validator {R} a (getter_function : LightValidation PH → result R LightClientError) :
    result R LightClientError :=
  getter_function (light_validation a).

(** The state is sealed whatever the function returns; an error of the seal hides
    the result. *)
Definition execute_mut_on_validator {R} a
    (mutating_function : LightValidation PH → outcome (LightValidation PH * result R LightClientError)) :
    outcome (ValidatorAccessor Fs PH * result R LightClientError) :=
  mutating_function (light_validation a) ≫= λ '(v, res),
  let '(fs, sealed) := Seal.seal (acc_seal a) (acc_files a) (relay_state v) in
  Ret (MkAccessor (acc_seal a) fs v, match sealed with Err e => Err e | Ok _ => res end).
End accessor.
End Accessor.
