(* ===== verification/LightClientInv.v ===== *)
(** Properties of the light client: routes between headers, what a justification is
    accepted for, the chain of headers it follows. *)

From stdpp Require Import base gmap numbers strings list.
From S2P Require Import Prelude Collections PoolTypes Externalities SidechainDb SidechainBlocks StfExecutor ParentchainImport OnChain LightClient.

Open Scope worker_scope.

(** ** Routes *)

Module Routes.
Import Justification.

Section routes.
Context {PH : Type} `{ParentchainHeader PH} `{ParentHash PH}.
Implicit Types (chain : gmap N PH).

(** The hashes from a block, itself not included, down to the base. *)
Inductive route chain (base : N) : N → list N → Prop :=
| route_base : route chain base base []
| route_step h hdr l :
    h ≠ base → chain !! h = Some hdr → route chain base (pc_parent_hash hdr) l →
    route chain base h (pc_parent_hash hdr :: l).

Lemma route_inv chain base h l :
  route chain base h l →
  (h = base ∧ l = []) ∨
  (h ≠ base ∧ ∃ hdr l', chain !! h = Some hdr ∧ l = pc_parent_hash hdr :: l' ∧ route chain base (pc_parent_hash hdr) l').
Proof. destruct 1; eauto 10. Qed.

Lemma route_functional chain base h l l' : route chain base h l → route chain base h l' → l = l'.
Proof.
  intros Hr. revert l'. induction Hr as [|h hdr l Hne Hh Hr IH]; intros l' Hr'.
  - by destruct (route_inv _ _ _ _ Hr') as [[_ ->]|[? _]].
  - destruct (route_inv _ _ _ _ Hr') as [[? _]|(_ & hdr' & l2 & Hh' & -> & Hr2)]; [done|].
    simplify_eq. f_equal. by apply IH.
Qed.

Lemma ancestry_chain_keys (hs : list PH) h hdr : ancestry_chain hs !! h = Some hdr → pc_hash hdr = h ∧ hdr ∈ hs.
Proof.
  unfold ancestry_chain. induction hs as [|x hs IH] using rev_ind; [done|].
  rewrite foldl_app. simpl. rewrite lookup_insert. case_decide; intros Hl; simplify_eq.
  - split; [done|]. set_solver.
  - destruct (IH Hl). set_solver.
Qed.

(** No header is its own ancestor. *)
Context (rank : N → nat) (rank_parent : ∀ h : PH, (rank (pc_parent_hash h) < rank (pc_hash h))%nat).

(** The walk returns, with the route if there is one. *)
Lemma ancestry_exact chain base block :
  (∀ h hdr, chain !! h = Some hdr → pc_hash hdr = h) →
  ∃ r, ancestry chain base block = Ret r ∧
    match r with
    | Ok l => ∃ full, route chain base block full ∧ l = removelast full
    | Err _ => ∀ l, ¬ route chain base block l
    end.
Proof.
  intros Hkeys. unfold ancestry.
  apply (loop_total _ (λ s : N * list N, (∀ full, route chain base block full ↔ ∃ l, full = s.2 ++ l ∧ route chain base s.1 l) ∧
      ∃ seen : gset N, seen ⊆ dom chain ∧ size seen = length s.2 ∧ ∀ x, x ∈ seen → (rank s.1 < rank x)%nat)
    (λ s, size chain - length s.2)%nat).
  2: { split; [naive_solver|]. exists ∅. split_and!; [set_solver|apply size_empty|set_solver]. }
  2: { simpl. lia. }
  intros [h anc] [Hroute (seen & Hdom & Hsize & Hrank)]. simpl in *. case_decide as Hb.
  { right. eexists. split; [done|]. simpl. exists anc. split; [|done].
    apply Hroute. exists []. rewrite app_nil_r. split; [done|]. subst. constructor. }
  destruct (chain !! h) as [hdr|] eqn:Hh.
  2: { right. eexists. split; [done|]. simpl. intros full (l & -> & Hl%route_inv)%Hroute. naive_solver. }
  left. eexists. split; [done|]. simpl. pose proof (rank_parent hdr) as Hr. rewrite (Hkeys _ _ Hh) in Hr.
  assert (h ∉ seen) as Hn by (intros Hin%Hrank; lia).
  assert ({[h]} ∪ seen ⊆ dom chain) as Hdom' by (apply elem_of_dom_2 in Hh; set_solver).
  assert (size ({[h]} ∪ seen) = S (length anc)) as Hsize' by (rewrite size_union, size_singleton by set_solver; lia).
  pose proof (subseteq_size _ _ Hdom') as Hle. rewrite size_dom in Hle. rewrite length_app. simpl. split; [|lia]. split.
  - intros full. rewrite Hroute. split.
    + intros (l & -> & Hl). destruct (route_inv _ _ _ _ Hl) as [[? _]|(_ & hdr' & l' & Hh' & -> & Hl')]; [done|].
      simplify_eq. exists l'. by rewrite <-app_assoc.
    + intros (l & -> & Hl). exists (pc_parent_hash hdr :: l). rewrite <-app_assoc. split; [done|]. by constructor.
  - exists ({[h]} ∪ seen). split_and!; [done|lia|]. intros x [->%elem_of_singleton|Hx%Hrank]%elem_of_union; lia.
Qed.

(** *** Votes *)

Context {VS Js : Type} `{GrandpaLaws VS Js}.
Context (check_message_signature : Precommit → N → Bytes → Z → Z → bool).
Implicit Types (j : GrandpaJustification PH) (s : SignedPrecommit).

Abbreviation vote s := (precommit_target_hash (precommit s)).

Definition routed chain (target : N) s : Prop := ∃ l, route chain target (vote s) l.

(** A hash on the way from a vote to the target. *)
Definition visited chain (target : N) (signed : list SignedPrecommit) (x : N) : Prop :=
  ∃ s l, s ∈ signed ∧ vote s ≠ target ∧ route chain target (vote s) l ∧ (x = vote s ∨ x ∈ removelast l).

(** The voters whose signatures are wrong. *)
Definition badly_signed j (set_id : Z) (signed : list SignedPrecommit) : list N :=
  authority <$> filter (λ s, check_message_signature (precommit s) (authority s) (signature s) (round j) set_id = false) signed.

Lemma visited_cons chain target s signed x l :
  route chain target (vote s) l → vote s ≠ target →
  visited chain target (s :: signed) x ↔ (x = vote s ∨ x ∈ removelast l) ∨ visited chain target signed x.
Proof.
  intros Hl Hne. split.
  - intros (s' & l' & [->|Hin]%elem_of_cons & Hne' & Hl' & Hx); [left|right; by exists s', l'].
    by rewrite (route_functional _ _ _ _ _ Hl Hl').
  - intros [Hx|(s' & l' & Hin & Hne' & Hl' & Hx)]; [exists s, l|exists s', l']; (split; [set_solver|done]).
Qed.

Lemma visit_precommits_exact j set_id chain signed bad (vis : gset N) :
  (∀ h hdr, chain !! h = Some hdr → pc_hash hdr = h) →
  ∃ bad' r, visit_precommits check_message_signature j set_id chain signed bad vis = Ret (bad', r) ∧
    match r with
    | Ok vis' => Forall (routed chain (target_hash (commit j))) signed ∧
        (∀ x, x ∈ vis' ↔ x ∈ vis ∨ visited chain (target_hash (commit j)) signed x) ∧
        bad' = bad ++ badly_signed j set_id signed
    | Err _ => ¬ Forall (routed chain (target_hash (commit j))) signed
    end.
Proof.
  intros Hkeys. revert bad vis. induction signed as [|s signed IH]; intros bad vis; simpl.
  { eexists _, _. split; [done|]. simpl. split_and!; [constructor| |by rewrite app_nil_r].
    intros x. split; [by left|]. intros [?|(? & ? & ?%not_elem_of_nil & _)]; done. }
  set (bad1 := if check_message_signature _ _ _ _ _ then bad else _).
  assert (∀ l, l = bad1 ++ badly_signed j set_id signed → l = bad ++ badly_signed j set_id (s :: signed)) as Hbad.
  { intros l ->. unfold bad1, badly_signed. rewrite filter_cons. destruct (check_message_signature _ _ _ _ _); simpl; [done|].
    by rewrite <-app_assoc. }
  case_decide as Ht.
  - destruct (IH bad1 vis) as (bad' & r & -> & Hr). eexists _, _. split; [done|]. destruct r as [vis'|e].
    + destruct Hr as (Hf & Hx & Hb). split_and!; [|intros x; rewrite Hx|by apply Hbad].
      * constructor; [|done]. exists []. rewrite <-Ht. constructor.
      * apply or_iff_compat_l. unfold visited. set_solver.
    + by intros [_ Hf]%Forall_cons.
  - unfold fill_visited_hashes. destruct (ancestry_exact chain (target_hash (commit j)) (vote s) Hkeys) as ([route_|e] & -> & Hroute).
    2: { simpl. eexists _, _. split; [done|]. simpl. intros [[l Hl] _]%Forall_cons. by eapply Hroute. }
    destruct Hroute as (full & Hfull & ->). simpl.
    destruct (IH bad1 (vis ∪ {[vote s]} ∪ list_to_set (removelast full))) as (bad' & r & -> & Hr).
    eexists _, _. split; [done|]. destruct r as [vis'|e]; [|by intros [_ Hf]%Forall_cons].
    destruct Hr as (Hf & Hx & Hb). split_and!; [constructor; [by exists full|done]| |by apply Hbad].
    intros x. rewrite Hx, (visited_cons _ _ _ _ _ _ Hfull (not_eq_sym Ht)). set_solver.
Qed.

Lemma check_commit_returns j voters (hs : list PH) : ∃ r, check_commit j voters (ancestry_chain hs) = Ret r.
Proof.
  unfold check_commit. destruct (validate_commit_returns (commit j) voters (ancestry (ancestry_chain hs))) as [r ->]; [|by eexists].
  intros base block. destruct (ancestry_exact (ancestry_chain hs) base block) as (r & -> & _); [|by eexists].
  intros h hdr Hh. by destruct (ancestry_chain_keys _ _ _ Hh).
Qed.

(** What a justification is accepted for. *)
Record justifies j (voters : VS) : Prop := {
  jf_commit : check_commit j voters (ancestry_chain (votes_ancestries j)) = Ret (Ok tt);
  jf_routes : Forall (routed (ancestry_chain (votes_ancestries j)) (target_hash (commit j))) (precommits (commit j));
  jf_headers : ∀ x, x ∈ pc_hash <$> votes_ancestries j ↔
    visited (ancestry_chain (votes_ancestries j)) (target_hash (commit j)) (precommits (commit j)) x;
}.

Lemma verify_with_voter_set_exact j set_id voters :
  ∃ bad r, verify_with_voter_set check_message_signature j set_id voters = Ret (bad, r) ∧
    (r = Ok tt ↔ justifies j voters) ∧ (r = Ok tt → bad = badly_signed j set_id (precommits (commit j))).
Proof.
  unfold verify_with_voter_set. destruct (check_commit_returns j voters (votes_ancestries j)) as [[[]|e] Hc]; rewrite Hc; simpl.
  2: { eexists _, _. split; [done|]. split; [|done]. split; [done|]. intros [Hj _ _]. congruence. }
  destruct (visit_precommits_exact j set_id (ancestry_chain (votes_ancestries j)) (precommits (commit j)) [] ∅)
    as (bad & r & -> & Hr). { intros h hdr Hh. by destruct (ancestry_chain_keys _ _ _ Hh). }
  simpl. eexists _, _. split; [done|]. destruct r as [vis|e].
  - destruct Hr as (Hf & Hx & ->). split; [|done]. case_decide as Hd; split; try done.
    + intros [_ _ Hh]. destruct Hd. apply set_eq. intros x. rewrite elem_of_list_to_set, Hh, Hx. set_solver.
    + intros _. split; [done|done|]. intros x. rewrite <-(elem_of_list_to_set (C := gset N)), <-Hd, Hx. set_solver.
  - split; [|done]. split; [done|]. by intros [_ Hf _].
Qed.
End routes.
End Routes.

(** ** The chain of headers *)

Module LightInv.
Import Relay Final Validation.

Section hashes.
Abbreviation limit := PARENTCHAIN_HEADER_PRUNING.

(** The last [n] elements. *)
Definition lastn {A} (n : nat) (l : list A) : list A := drop (length l - n) l.

Lemma lastn_all {A} n (l : list A) : (length l ≤ n)%nat → lastn n l = l.
Proof. intros Hl. unfold lastn. by replace (length l - n)%nat with 0%nat by lia. Qed.

Lemma lastn_length {A} n (l : list A) : length (lastn n l) = (length l `min` n)%nat.
Proof. unfold lastn. rewrite length_drop. lia. Qed.

Lemma lastn_lastn_app {A} n (l l' : list A) : lastn n (lastn n l ++ l') = lastn n (l ++ l').
Proof.
  unfold lastn. rewrite <-drop_app_le by lia. rewrite drop_drop. f_equal. rewrite length_drop, length_app. lia.
Qed.

Lemma lastn_suffix {A} n (l : list A) : ∃ k, l = k ++ lastn n l ∧ (k = [] ∨ length (lastn n l) = n).
Proof.
  exists (take (length l - n) l). split; [unfold lastn; by rewrite take_drop|].
  rewrite lastn_length. destruct (decide (length l ≤ n)%nat); [left|right; lia].
  by replace (length l - n)%nat with 0%nat by lia.
Qed.

Lemma prune_hashes_lastn hs : prune_hashes hs = lastn limit hs.
Proof.
  induction hs as [|x hs IH]; cbn [prune_hashes]; [by destruct (decide _)|]. case_decide as Hd; cbn [length] in Hd.
  - rewrite IH. unfold lastn. cbn [length]. by rewrite Nat.sub_succ_l by lia.
  - by rewrite lastn_all by (cbn [length]; lia).
Qed.
End hashes.

Section follow.
Context {PH VS Js Log : Type} `{ParentchainHeader PH} `{ParentHash PH} `{GrandpaLaws VS Js} `{GrandpaLog PH Log}.
Context `{Decode (GrandpaJustification PH)} (check_message_signature : Precommit → N → Bytes → Z → Z → bool).
Context (rank : N → nat) (rank_parent : ∀ h : PH, (rank (pc_parent_hash h) < rank (pc_hash h))%nat).
Implicit Types (r : RelayState PH) (v : LightValidation PH) (h : PH).

(** A header that announces other authorities announces ones that a voter set can be
    made of. *)
Definition announces_voters h : Prop := ∀ c, pending_change h = Some c → is_Some (voter_set_new (next_authorities c)).

(** The headers are linked by their parent hashes. *)
Fixpoint linked (last : PH) (hs : list PH) : Prop :=
  match hs with [] => True | h :: hs => pc_parent_hash h = pc_hash last ∧ linked h hs end.

Lemma headers_linked_app l hs hs' : linked l (hs ++ hs') ↔ linked l hs ∧ linked (default l (last hs)) hs'.
Proof.
  revert l. induction hs as [|h hs IH]; intros l; simpl; [tauto|]. rewrite IH, last_cons.
  destruct (last hs); simpl; tauto.
Qed.

(** The state for a chain of headers after the genesis. *)
Record follows (genesis : PH) (hs : list PH) r : Prop := {
  fo_genesis : genesis_hash r = pc_hash genesis;
  fo_linked : linked genesis hs;
  fo_last : last_finalized_block_header r = default genesis (last hs);
  fo_penultimate : penultimate_finalized_block_header r = default genesis (last (removelast hs));
  fo_hashes : ∃ dropped, pc_hash <$> genesis :: hs = dropped ++ header_hashes r ++ unjustified_headers r ∧
    (dropped = [] ∨ length (header_hashes r) = PARENTCHAIN_HEADER_PRUNING);
  fo_bound : (length (header_hashes r) ≤ PARENTCHAIN_HEADER_PRUNING)%nat;
}.

(** The sets of authorities are ones a voter set can be made of. *)
Definition sets_ok r : Prop :=
  is_Some (voter_set_new (current_validator_set r)) ∧
  ∀ c, scheduled_change r = Some c → is_Some (voter_set_new (next_authority_list c)).

Definition voters_ok v : Prop := finality v = GrandpaFinality → sets_ok (relay_state v).

Lemma new_follows genesis set : (0 < PARENTCHAIN_HEADER_PRUNING)%nat → follows genesis [] (new genesis set).
Proof. intros Hp. split; try done. exists []. split; [done|by left]. Qed.

(** The fields that changes of the authorities leave alone. *)
Definition same_chain r r' : Prop :=
  genesis_hash r' = genesis_hash r ∧ last_finalized_block_header r' = last_finalized_block_header r ∧
  penultimate_finalized_block_header r' = penultimate_finalized_block_header r ∧
  header_hashes r' = header_hashes r ∧ unjustified_headers r' = unjustified_headers r.

Lemma follows_same genesis hs r r' : same_chain r r' → follows genesis hs r → follows genesis hs r'.
Proof. intros (Eg & El & Ep & Eh & Eu) [? ? ? ? ? ?]. split; by rewrite ?Eg, ?El, ?Ep, ?Eh, ?Eu. Qed.

Lemma apply_same r h : same_chain r (apply_validator_set_change r h).
Proof. unfold apply_validator_set_change. destruct (scheduled_change r); [case_decide|]; done. Qed.

Lemma schedule_same r h : same_chain r (schedule_validator_set_change r h).
Proof. unfold schedule_validator_set_change. destruct (pending_change h); [destruct (scheduled_change r)|]; done. Qed.

Lemma last_snoc_removelast {A} (l : list A) x : removelast (l ++ [x]) = l.
Proof. apply removelast_last. Qed.

Lemma follows_snoc genesis hs r h hashes unjustified :
  follows genesis hs r → pc_parent_hash h = pc_hash (last_finalized_block_header r) →
  (∃ k, header_hashes r ++ unjustified_headers r ++ [pc_hash h] = k ++ hashes ++ unjustified ∧
    (k = [] ∨ length hashes = PARENTCHAIN_HEADER_PRUNING) ∧
    (length (header_hashes r) = PARENTCHAIN_HEADER_PRUNING → length hashes = PARENTCHAIN_HEADER_PRUNING)) →
  (length hashes ≤ PARENTCHAIN_HEADER_PRUNING)%nat →
  follows genesis (hs ++ [h]) (set_last_finalized_block_header (with_hashes r hashes unjustified) h).
Proof.
  intros [Hg Hli Hla Hpe (dropped & Hd & Hor) Hb] Hh (k & Hk & Hk1 & Hk2) Hle. split; cbn; try done.
  - apply headers_linked_app. split; [done|]. simpl. by rewrite <-Hla.
  - by rewrite last_snoc.
  - by rewrite last_snoc_removelast.
  - exists (dropped ++ k). rewrite <-(app_assoc dropped), <-Hk, !app_assoc, <-(app_assoc dropped), <-Hd. split; [by rewrite fmap_app|].
    destruct Hor as [->|Hor]; [|right; by apply Hk2]. destruct Hk1 as [->|?]; [by left|by right].
Qed.

Lemma apply_sets r h : sets_ok r → sets_ok (apply_validator_set_change r h).
Proof.
  intros [Hc Hs]. unfold apply_validator_set_change. destruct (scheduled_change r) as [c|] eqn:Hsc; [case_decide|]; split; cbn; try done.
  - by apply Hs.
  - rewrite Hsc. done.
Qed.

Lemma schedule_sets r h : announces_voters h → sets_ok r → sets_ok (schedule_validator_set_change r h).
Proof.
  intros Hann [Hc Hs]. unfold schedule_validator_set_change. destruct (pending_change h) as [c|] eqn:Hp; [|done].
  destruct (scheduled_change r) eqn:Hsc; [split; [done|by rewrite Hsc]|]. split; [done|]. cbn. intros c' [= <-]. cbn.
  by apply Hann.
Qed.

Lemma verify_grandpa_proof_returns j hash n set_id voters :
  ∃ res, verify_grandpa_proof (PH := PH) check_message_signature j hash n set_id voters = Ret res.
Proof.
  unfold verify_grandpa_proof, Justification.decode_and_verify_finalizes. destruct (decode j) as [j'|e]; [|by eexists].
  case_decide; [by eexists|].
  destruct (Routes.verify_with_voter_set_exact rank rank_parent check_message_signature j' set_id voters) as (bad & r & -> & _).
  by eexists.
Qed.

(** A header is justified, or not, and then goes with the unjustified ones. *)
Lemma validate_spec f h js r :
  (f = GrandpaFinality → sets_ok r) →
  ∃ r' res, validate check_message_signature f h (current_validator_set r) (current_validator_set_id r) js r = Ret (r', res) ∧
    (f = GrandpaFinality → announces_voters h → sets_ok r') ∧
    match res with
    | Ok _ => same_chain r r'
    | Err e => (e = NoJustificationFound ∨ ∃ err, e = InvalidFinalityProof err) ∧
        ∃ r1, same_chain r r1 ∧ r' = push_unjustified r1 h
    end.
Proof.
  intros Hs. destruct f; [|by eexists _, _]. specialize (Hs eq_refl). destruct (proj1 Hs) as [vs Hvs].
  cbn. rewrite Hvs. cbn. pose proof (apply_sets r h Hs) as Ha. pose proof (apply_same r h) as Hsame.
  assert (sets_ok (push_unjustified (apply_validator_set_change r h) h)) as Hpush by exact Ha.
  destruct (js ≫= into_justification) as [j|].
  - destruct (verify_grandpa_proof_returns j (pc_hash h) (pc_number h) (current_validator_set_id r) vs) as [[[]|e] ->]; cbn.
    + eexists _, _. split; [done|]. split; [intros _ Hann; by apply schedule_sets|].
      destruct (schedule_same (apply_validator_set_change r h) h) as (E1 & E2 & E3 & E4 & E5), Hsame as (F1 & F2 & F3 & F4 & F5).
      unfold same_chain. by rewrite E1, E2, E3, E4, E5.
    + eexists _, _. split; [done|]. split; [done|]. split; [by eauto|]. by eexists.
  - eexists _, _. split; [done|]. split; [done|]. split; [by left|]. by eexists.
Qed.

(** The headers of a justified header: the pending ones and itself. *)
Lemma justified_hashes r h :
  (length (header_hashes r) ≤ PARENTCHAIN_HEADER_PRUNING)%nat →
  push_header_hash (justify_headers r) (pc_hash h) =
    with_hashes r (lastn PARENTCHAIN_HEADER_PRUNING (header_hashes r ++ unjustified_headers r ++ [pc_hash h])) [].
Proof.
  intros Hl. unfold push_header_hash, justify_headers. cbn [header_hashes unjustified_headers with_hashes].
  rewrite prune_hashes_lastn. set (l := header_hashes r ++ unjustified_headers r).
  rewrite app_assoc. fold l. rewrite <-lastn_lastn_app. unfold with_hashes. f_equal. set (p := lastn _ l).
  assert (length p ≤ PARENTCHAIN_HEADER_PRUNING)%nat as Hp by (unfold p; rewrite lastn_length; lia).
  case_decide as Hd; [|rewrite lastn_all; [done|lia]].
  unfold lastn. rewrite length_app in Hd |- *. cbn [length] in *.
  replace (length p + 1 - PARENTCHAIN_HEADER_PRUNING)%nat with 1%nat by lia. by destruct (p ++ _).
Qed.

Lemma follows_unjustified genesis hs r h :
  follows genesis hs r → pc_parent_hash h = pc_hash (last_finalized_block_header r) →
  follows genesis (hs ++ [h]) (push_unjustified r h).
Proof.
  intros Hf Hh. apply follows_snoc; [done|done| |by apply Hf]. exists []. split; [done|]. split; [by left|done].
Qed.

Lemma follows_justified genesis hs r h :
  follows genesis hs r → pc_parent_hash h = pc_hash (last_finalized_block_header r) →
  follows genesis (hs ++ [h]) (set_last_finalized_block_header (push_header_hash (justify_headers r) (pc_hash h)) h).
Proof.
  intros Hf Hh. pose proof (fo_bound _ _ _ Hf) as Hb. rewrite justified_hashes by done.
  apply follows_snoc; [done|done| |rewrite lastn_length; lia].
  destruct (lastn_suffix PARENTCHAIN_HEADER_PRUNING (header_hashes r ++ unjustified_headers r ++ [pc_hash h])) as (k & Hk & Hor).
  exists k. rewrite app_nil_r. split; [done|]. split; [done|]. intros Hlen. rewrite lastn_length, !length_app. lia.
Qed.

Lemma submit_block_spec genesis hs v (b : PH * option Js) :
  follows genesis hs (relay_state v) → voters_ok v →
  ∃ v' res, submit_block check_message_signature v b = Ret (v', res) ∧
    (announces_voters b.1 → voters_ok v') ∧ finality v' = finality v ∧ parentchain_id v' = parentchain_id v ∧
    if decide (pc_parent_hash b.1 = pc_hash (default genesis (last hs)))
    then follows genesis (hs ++ [b.1]) (relay_state v') ∧ res ≠ Err HeaderAncestryMismatch
    else v' = v ∧ res = Err HeaderAncestryMismatch.
Proof.
  intros Hf Hv. destruct b as [h js]. unfold submit_block. rewrite (fo_last _ _ _ Hf). cbn [fst].
  destruct (decide (pc_parent_hash h = _)) as [Hd|Hd].
  2: { rewrite decide_True by congruence. by eexists _, _. }
  rewrite decide_False by (intros Hne; by destruct Hne). unfold submit_finalized_headers, verify_ancestry.
  rewrite (fo_last _ _ _ Hf), decide_True by done.
  destruct (validate_spec (finality v) h js (relay_state v) Hv) as (r' & res & -> & Hs & Hr). cbn [mbind outcome_bind].
  destruct res as [[]|e].
  - eexists _, _. split; [done|]. split_and!; try done.
    + intros Hann Hg. destruct (Hs Hg Hann) as [? ?], (Hv Hg) as [? ?]. cbn. destruct (_ <? _)%Z; done.
    + cbn [relay_state with_relay]. apply (follows_same _ _ _ _ Hr) in Hf as Hf'.
      assert (pc_parent_hash h = pc_hash (last_finalized_block_header r')) as Hh by (by rewrite (fo_last _ _ _ Hf')).
      pose proof (follows_justified _ _ _ _ Hf' Hh) as Hj. destruct (_ <? _)%Z; [|done]. by eapply follows_same, Hj.
  - destruct Hr as (He & r1 & Hsame & ->). apply (follows_same _ _ _ _ Hsame) in Hf as Hf'.
    assert (pc_parent_hash h = pc_hash (last_finalized_block_header r1)) as Hh by (by rewrite (fo_last _ _ _ Hf')).
    pose proof (follows_unjustified _ _ _ _ Hf' Hh) as Hu.
    destruct He as [->|[err ->]]; (eexists _, _; split; [done|]; split_and!; try done; intros Hann Hg; exact (Hs Hg Hann)).
Qed.

(** The authorities after a header that links. *)
Lemma submit_block_sets v h js vs :
  finality v = GrandpaFinality → pc_parent_hash h = pc_hash (last_finalized_block_header (relay_state v)) →
  voter_set_new (current_validator_set (relay_state v)) = Some vs →
  (0 ≤ current_validator_set_id (relay_state v) < 2 ^ 64 - 1)%Z →
  ∃ v' res, submit_block check_message_signature v (h, js) = Ret (v', res) ∧
    current_validator_set (relay_state v') = current_validator_set (apply_validator_set_change (relay_state v) h) ∧
    current_validator_set_id (relay_state v') = current_validator_set_id (apply_validator_set_change (relay_state v) h) ∧
    last_finalized_block_header (relay_state v') = h ∧ finality v' = GrandpaFinality.
Proof.
  intros Hfin Hl Hvs Hid. unfold submit_block. rewrite decide_False by (rewrite Hl; auto).
  unfold submit_finalized_headers, verify_ancestry. rewrite decide_True, Hfin by done. cbn [validate]. rewrite Hvs. cbn [unwrap mbind outcome_bind].
  destruct (js ≫= into_justification) as [j|]; [|by eexists _, _].
  destruct (verify_grandpa_proof_returns j (pc_hash h) (pc_number h) (current_validator_set_id (relay_state v)) vs) as [[[]|e] ->];
    [|by eexists _, _]. cbn [mbind outcome_bind]. eexists _, _. split; [done|]. cbn [relay_state with_relay].
  set (r1 := apply_validator_set_change (relay_state v) h).
  assert (current_validator_set_id (relay_state v) ≤ current_validator_set_id r1)%Z as Hle.
  { unfold r1, apply_validator_set_change. destruct (scheduled_change _); [case_decide|]; cbn; try lia.
    unfold u64_wrap. rewrite Z.mod_small; lia. }
  assert (current_validator_set (schedule_validator_set_change r1 h) = current_validator_set r1 ∧
    current_validator_set_id (schedule_validator_set_change r1 h) = current_validator_set_id r1) as [Hs Hi].
  { unfold schedule_validator_set_change. destruct (pending_change h); [destruct (scheduled_change r1)|]; done. }
  cbn. rewrite Hi. by rewrite (proj2 (Z.ltb_ge _ _)) by done.
Qed.

(** *** Any blocks *)

Fixpoint submit_all v (bs : list (PH * option Js)) : outcome (LightValidation PH * list (result unit LightClientError)) :=
  match bs with
  | [] => Ret (v, [])
  | b :: bs =>
      submit_block check_message_signature v b ≫= λ '(v, res),
      submit_all v bs ≫= λ '(v, results), Ret (v, res :: results)
  end.

(** The headers that link to the ones before them. *)
Fixpoint linking (last : PH) (hs : list PH) : list PH :=
  match hs with
  | [] => []
  | h :: hs => if decide (pc_parent_hash h = pc_hash last) then h :: linking h hs else linking last hs
  end.

(** Whether each of them does. *)
Fixpoint links (last : PH) (hs : list PH) : list bool :=
  match hs with
  | [] => []
  | h :: hs => if decide (pc_parent_hash h = pc_hash last) then true :: links h hs else false :: links last hs
  end.

Definition is_mismatch (res : result unit LightClientError) : bool :=
  match res with Err HeaderAncestryMismatch => true | _ => false end.

Lemma last_snoc_default {A} (l : list A) x y : default y (last (l ++ [x])) = x.
Proof. by rewrite last_snoc. Qed.

(** Without a voter set the client stops at a header that links. *)
Lemma submit_block_panics v h js :
  finality v = GrandpaFinality → pc_parent_hash h = pc_hash (last_finalized_block_header (relay_state v)) →
  voter_set_new (current_validator_set (relay_state v)) = None → submit_block check_message_signature v (h, js) = Panic.
Proof.
  intros Hfin Hl Hvs. unfold submit_block. rewrite decide_False by (rewrite Hl; auto).
  unfold submit_finalized_headers, verify_ancestry. rewrite decide_True, Hfin by done. cbn [validate]. by rewrite Hvs.
Qed.

Lemma submit_all_spec genesis hs v bs :
  Forall announces_voters (linking (default genesis (last hs)) bs.*1) → follows genesis hs (relay_state v) → voters_ok v →
  ∃ v' results, submit_all v bs = Ret (v', results) ∧ voters_ok v' ∧ finality v' = finality v ∧
    follows genesis (hs ++ linking (default genesis (last hs)) bs.*1) (relay_state v') ∧
    (negb ∘ is_mismatch) <$> results = links (default genesis (last hs)) bs.*1.
Proof.
  revert hs v. induction bs as [|b bs IH]; intros hs v Hann Hf Hv; cbn [submit_all].
  { eexists _, _. split; [done|]. simpl. by rewrite app_nil_r. }
  destruct (submit_block_spec genesis hs v b Hf Hv) as (v1 & res & -> & Hv1 & Hfin & _ & Hb). cbn [mbind outcome_bind].
  rewrite fmap_cons in *. cbn [linking links] in *. case_decide as Hd.
  - apply Forall_cons in Hann as [Hb1 Hann]. destruct Hb as [Hf1 Hne]. rewrite <-(last_snoc_default hs b.1 genesis) in Hann.
    destruct (IH (hs ++ [b.1]) v1 Hann Hf1 (Hv1 Hb1)) as (v2 & results & -> & Hv2 & Hfin2 & Hf2 & Hr).
    rewrite last_snoc in Hf2, Hr. cbn in Hf2, Hr. eexists _, _. split; [done|].
    rewrite <-app_assoc in Hf2. split_and!; [done|congruence|done|]. rewrite fmap_cons. cbn. rewrite Hr. by destruct res as [|[]].
  - destruct Hb as [-> ->]. destruct (IH hs v Hann Hf Hv) as (v2 & results & -> & Hv2 & Hfin2 & Hf2 & Hr).
    eexists _, _. split; [done|]. split_and!; try done. rewrite fmap_cons. cbn. by rewrite Hr.
Qed.
End follow.
End LightInv.

(** ** Sealed files *)

(** A file that is missing, that cannot be unsealed, or that holds some bytes. *)
Inductive FileContent :=
| Absent
| Torn
| Sealed (bytes : Bytes).

(** Copies of a file that exists succeed; the SGX file operations may fail, and
    touch one file only. *)
Class SgxFilesLaws (Fs : Type) `{SgxFiles Fs} := {
  content : Fs → Path → FileContent;
  exists_content : ∀ fs p, fs_exists fs p = true ↔ content fs p ≠ Absent;
  open_content : ∀ fs p, is_ok (fs_open fs p) = true ↔ content fs p ≠ Absent;
  copy_content : ∀ fs p q, content fs p ≠ Absent →
    ∃ fs', fs_copy fs p q = (fs', Ok tt) ∧ content fs' q = content fs p ∧ ∀ x, x ≠ q → content fs' x = content fs x;
  copy_absent : ∀ fs p q, content fs p = Absent → ∃ e, fs_copy fs p q = (fs, Err e);
  create_others : ∀ fs p x, x ≠ p → content (sgx_create fs p).1 x = content fs x;
  write_others : ∀ fs p b x, x ≠ p → content (sgx_write_all fs p b).1 x = content fs x;
  write_content : ∀ fs p b fs1 fs2,
    sgx_create fs p = (fs1, Ok tt) → sgx_write_all fs1 p b = (fs2, Ok tt) → content fs2 p = Sealed b;
  read_content : ∀ fs p b, Seal.sgx_unseal fs p = Ok b ↔ content fs p = Sealed b;
}.

Module SealInv.
Import Seal.

Section seal.
Context {Fs : Type} `{SgxFilesLaws Fs} {L : Type} `{Codec L}.
Implicit Types (fs : Fs) (s : LightClientStateSeal).

Lemma paths_differ s : NoDup [db_path s; backup_path s; cant_unseal_path s].
Proof.
  unfold db_path, backup_path, cant_unseal_path, join.
  assert (∀ a b, a ≠ b → base_path s +:+ "/" +:+ a ≠ base_path s +:+ "/" +:+ b) as Hne.
  { intros a b Hab Heq. by do 2 apply (inj (String.append _)) in Heq. }
  repeat constructor; rewrite ?not_elem_of_cons; split_and?; try apply Hne; try done; apply not_elem_of_nil.
Qed.

Lemma sgx_seal_spec fs b p fs' res :
  sgx_seal fs b p = (fs', res) → (∀ x, x ≠ p → content fs' x = content fs x) ∧ (res = Ok tt → content fs' p = Sealed b).
Proof.
  unfold sgx_seal. pose proof (create_others fs p) as Hc. destruct (sgx_create fs p) as [fs1 [[]|e]] eqn:Hcr; cbn in Hc.
  - pose proof (write_others fs1 p b) as Hw. destruct (sgx_write_all fs1 p b) as [fs2 res2] eqn:Hwr. cbn in Hw.
    intros [= <- <-]. split; [intros x Hx; by rewrite Hw, Hc|]. intros ->. by eapply write_content.
  - by intros [= <- <-].
Qed.

(** A seal writes the state, and the backup is what the file held. *)
Lemma seal_spec s fs (l : L) fs' res :
  content fs (db_path s) ≠ Absent → seal s fs l = (fs', res) →
  content fs' (backup_path s) = content fs (db_path s) ∧ (res = Ok tt → content fs' (db_path s) = Sealed (encode l)).
Proof.
  intros Hdb. unfold seal, backup. rewrite (proj2 (exists_content fs (db_path s)) Hdb).
  destruct (copy_content fs (db_path s) (backup_path s) Hdb) as (fs1 & -> & Hb & _).
  destruct (sgx_seal fs1 (encode l) (db_path s)) as [fs2 res2] eqn:Hs. intros [= <- <-].
  destruct (sgx_seal_spec _ _ _ _ _ Hs) as [Ho Hok]. split.
  - rewrite Ho; [done|]. pose proof (paths_differ s) as Hp. apply NoDup_cons in Hp as [Hp _]. set_solver.
  - intros Hr. apply Hok. by destruct res2 as [[]|].
Qed.

Lemma file_opens fs p : content fs p ≠ Absent → ∃ u, fs_open fs p = Ok u.
Proof. intros Hp%open_content. destruct (fs_open fs p) as [u|]; [by exists u|done]. Qed.

(** After a seal, complete or not, the file holds the state that was sealed, or
    cannot be unsealed. *)
Definition sealed_or_torn (l : L) (c : FileContent) : Prop := c = Absent ∨ c = Torn ∨ c = Sealed (encode l).

Definition recovered (old new : L) (c : FileContent) : L := match c with Sealed _ => new | _ => old end.

Lemma recover s fs (old new : L) :
  content fs (backup_path s) = Sealed (encode old) → sealed_or_torn new (content fs (db_path s)) →
  ∃ fs1 fs2, exists_db s fs = (fs1, true) ∧
    unseal s fs1 = (fs2, Ok (recovered old new (content fs (db_path s)))) ∧ content fs2 (db_path s) ≠ Absent.
Proof.
  intros Hb Hdb. pose proof (paths_differ s) as Hp. rewrite !NoDup_cons in Hp. destruct Hp as (Hp1 & Hp2 & _).
  unfold exists_db. destruct Hdb as [Hdb|[Hdb|Hdb]]; rewrite Hdb; cbn [recovered].
  - destruct (fs_open fs (db_path s)) as [u|e] eqn:Ho.
    { exfalso. apply (proj1 (open_content fs (db_path s))); [by rewrite Ho|done]. }
    destruct (copy_content fs (backup_path s) (db_path s)) as (fs1 & -> & Hd1 & _); [by rewrite Hb|]. rewrite Hb in Hd1.
    exists fs1, fs1. rewrite (proj2 (open_content fs1 _)) by (by rewrite Hd1). split; [done|]. rewrite Hd1. split; [|done].
    unfold unseal. by rewrite (proj2 (read_content fs1 _ _) Hd1), decode_encode.
  - destruct (file_opens fs (db_path s)) as [u ->]; [by rewrite Hdb|].
    exists fs. unfold unseal, unseal_backup. destruct (sgx_unseal fs (db_path s)) as [b|e] eqn:Hu.
    { apply read_content in Hu. congruence. }
    destruct (copy_content fs (db_path s) (cant_unseal_path s)) as (fs1 & -> & _ & Ho1); [by rewrite Hdb|].
    destruct (copy_content fs1 (backup_path s) (db_path s)) as (fs2 & -> & Hd2 & _); [rewrite Ho1, Hb by set_solver; done|].
    rewrite Ho1, Hb in Hd2 by set_solver. exists fs2. rewrite (proj2 (read_content fs2 _ _) Hd2), decode_encode, Hd2. done.
  - destruct (file_opens fs (db_path s)) as [u ->]; [by rewrite Hdb|].
    exists fs, fs. unfold unseal. rewrite (proj2 (read_content fs _ _) Hdb), decode_encode, Hdb. done.
Qed.

(** Nothing is left when the backup cannot be unsealed either. *)
Lemma not_recovered s fs :
  content fs (backup_path s) = Torn → content fs (db_path s) = Torn →
  exists_db s fs = (fs, true) ∧ ∃ fs' e, unseal (L := L) s fs = (fs', Err e).
Proof.
  intros Hb Hdb. pose proof (paths_differ s) as Hp. rewrite !NoDup_cons in Hp. destruct Hp as (Hp1 & Hp2 & _).
  assert (∀ fs, content fs (db_path s) = Torn → ∃ e, sgx_unseal fs (db_path s) = Err e) as Htorn.
  { intros fs1 Ht. destruct (sgx_unseal fs1 (db_path s)) as [b|e] eqn:Hu; [|by exists e]. apply read_content in Hu. congruence. }
  split. { unfold exists_db. destruct (file_opens fs (db_path s)) as [u ->]; [by rewrite Hdb|done]. }
  unfold unseal, unseal_backup. destruct (Htorn fs Hdb) as [e ->].
  destruct (copy_content fs (db_path s) (cant_unseal_path s)) as (fs1 & -> & _ & Ho1); [by rewrite Hdb|].
  destruct (copy_content fs1 (backup_path s) (db_path s)) as (fs2 & -> & Hd2 & _); [rewrite Ho1, Hb by set_solver; done|].
  rewrite Ho1, Hb in Hd2 by set_solver. destruct (Htorn fs2 Hd2) as [e2 ->]. by eexists _, _.
Qed.
End seal.
End SealInv.
