(* ===== verification/LightClientProps.v ===== *)
(** The theorems of the light client, with a small chain that witnesses them. *)

From stdpp Require Import base countable gmap numbers strings list.
From S2P Require Import Prelude Collections PoolTypes Externalities SidechainDb SidechainBlocks StfExecutor ParentchainImport OnChain.
From S2P Require Import ConsensusSample LightClient LightClientInv.

Open Scope worker_scope.
Import Relay Final Validation LightInv SealInv.

Section light_client.
Context {PH VS Js Log : Type} `{ParentchainHeader PH} `{ParentHash PH} `{GrandpaLaws VS Js} `{GrandpaLog PH Log}.
Context `{Decode (GrandpaJustification PH)} (check_message_signature : Precommit → N → Bytes → Z → Z → bool).
Context (rank : N → nat) (rank_parent : ∀ h : PH, (rank (pc_parent_hash h) < rank (pc_hash h))%nat).

(** C27: A justification is decoded and accepted exactly for its target, with a commit
    that validates, votes that all route to the target and no header that is not
    on such a route.  Signatures play no part: the voters whose signatures are
    wrong are only listed in the log. *)
Theorem justification_is_exact (j : GrandpaJustification PH) encoded hash number set_id (voters : VS) :
  decode encoded = Ok j →
  ∃ bad res, Justification.decode_and_verify_finalizes check_message_signature encoded (hash, number) set_id voters = Ret (bad, res) ∧
    (is_ok res = true ↔ target_hash (commit j) = hash ∧ target_number (commit j) = number ∧ Routes.justifies j voters) ∧
    (is_ok res = true → bad = Routes.badly_signed check_message_signature j set_id (precommits (commit j))).
Proof.
  intros Hj. unfold Justification.decode_and_verify_finalizes. rewrite Hj. case_decide as Ht.
  { eexists _, _. split; [done|]. split; [|done]. split; [done|]. intros (<- & <- & _). by destruct Ht. }
  destruct (Routes.verify_with_voter_set_exact rank rank_parent check_message_signature j set_id voters) as (bad & r & -> & Hr & Hb).
  cbn. eexists _, _. split; [done|]. destruct r as [[]|e]; cbn.
  - split; [|by intros _; apply Hb]. split; [|done]. intros _. destruct (decide ((target_hash (commit j), target_number (commit j)) = (hash, number)))
      as [[= -> ->]|Hne]; [|done]. split_and!; [done|done|by apply Hr].
  - split; [|done]. split; [done|]. intros (_ & _ & Hx). apply Hr in Hx. done.
Qed.

(** C12: Whatever blocks are submitted, with whatever justifications, the light client
    returns, and its state is that of one chain from the genesis: the blocks that
    link to the last one, in order.  The others are refused as an ancestry
    mismatch.  It keeps the hashes of that chain, without gaps, the justified ones
    up to the limit.  This asks of the headers of that chain that they announce no
    empty set of authorities, see [empty_authorities_stop_the_client]. *)
Theorem light_client_follows_a_chain (f : Finality) (genesis : PH) authorities id (blocks : list (PH * option Js)) :
  Forall announces_voters (linking genesis blocks.*1) →
  (f = GrandpaFinality → is_Some (voter_set_new authorities)) →
  ∃ v results, submit_all check_message_signature (Seal.init_validator f (new genesis authorities) id) blocks = Ret (v, results) ∧
    follows genesis (linking genesis blocks.*1) (relay_state v) ∧
    (negb ∘ is_mismatch) <$> results = links genesis blocks.*1.
Proof.
  intros Hann Hset.
  destruct (submit_all_spec check_message_signature rank rank_parent genesis [] (Seal.init_validator f (new genesis authorities) id) blocks)
    as (v & results & Hs & _ & _ & Hf & Hr).
  - done.
  - apply new_follows. by apply Nat.ltb_lt; vm_compute.
  - intros Hf. split; [by apply Hset|done].
  - by exists v, results.
Qed.

(** A justified header that announces a change of the authorities. *)
Lemma change_is_scheduled (v : LightValidation PH) h1 j1 js1 vs c :
  finality v = GrandpaFinality → scheduled_change (relay_state v) = None →
  pc_parent_hash h1 = pc_hash (last_finalized_block_header (relay_state v)) →
  js1 ≫= into_justification = Some j1 → voter_set_new (current_validator_set (relay_state v)) = Some vs →
  verify_grandpa_proof (PH := PH) check_message_signature j1 (pc_hash h1) (pc_number h1)
    (current_validator_set_id (relay_state v)) vs = Ret (Ok tt) →
  pending_change h1 = Some c → (0 ≤ delay c)%Z → (0 ≤ pc_number h1)%Z → (delay c + pc_number h1 < 2 ^ 32)%Z →
  ∃ v1 res1, submit_block check_message_signature v (h1, js1) = Ret (v1, res1) ∧ finality v1 = GrandpaFinality ∧
    last_finalized_block_header (relay_state v1) = h1 ∧ current_validator_set (relay_state v1) = current_validator_set (relay_state v) ∧
    current_validator_set_id (relay_state v1) = current_validator_set_id (relay_state v) ∧
    scheduled_change (relay_state v1) = Some (MkScheduled (delay c + pc_number h1) (next_authorities c)).
Proof.
  intros Hfin Hsc Hl1 Hj Hvs Hver Hpc Hd0 Hn0 Hw. destruct v as [r id f]. cbn [relay_state finality] in *. subst f.
  eexists (MkValidation _ id GrandpaFinality), _. split.
  { unfold submit_block. rewrite decide_False by (rewrite Hl1; auto). unfold submit_finalized_headers, verify_ancestry. cbn.
    rewrite decide_True by done. rewrite Hvs. cbn. rewrite Hj, Hver. cbn. unfold apply_validator_set_change. rewrite Hsc.
    unfold schedule_validator_set_change. rewrite Hpc, Hsc. cbn. rewrite Z.ltb_irrefl. reflexivity. }
  cbn. unfold u32_wrap. by rewrite Z.mod_small by lia.
Qed.

Section announced_change.
(** A justified header that announces a change, with the next header. *)
Context (v : LightValidation PH) (h1 h2 : PH) (js1 js2 : option Js) (j1 : Bytes) (vs : VS) (c : ScheduledChange).
Hypothesis grandpa_finality : finality v = GrandpaFinality.
Hypothesis none_scheduled : scheduled_change (relay_state v) = None.
Hypothesis links1 : pc_parent_hash h1 = pc_hash (last_finalized_block_header (relay_state v)).
Hypothesis has_justification : js1 ≫= into_justification = Some j1.
Hypothesis has_voters : voter_set_new (current_validator_set (relay_state v)) = Some vs.
Hypothesis justified : verify_grandpa_proof (PH := PH) check_message_signature j1 (pc_hash h1) (pc_number h1)
  (current_validator_set_id (relay_state v)) vs = Ret (Ok tt).
Hypothesis announces : pending_change h1 = Some c.
Hypothesis delay_pos : (0 ≤ delay c)%Z.
Hypothesis number_pos : (0 ≤ pc_number h1)%Z.
Hypothesis number_fits : (delay c + pc_number h1 < 2 ^ 32)%Z.
Hypothesis links2 : pc_parent_hash h2 = pc_hash h1.
Hypothesis next_number : pc_number h2 = (pc_number h1 + 1)%Z.
Hypothesis id_fits : (0 ≤ current_validator_set_id (relay_state v) < 2 ^ 64 - 1)%Z.

Lemma change_reached :
  ∃ v1 v2 res1 res2, submit_block check_message_signature v (h1, js1) = Ret (v1, res1) ∧
    submit_block check_message_signature v1 (h2, js2) = Ret (v2, res2) ∧
    (current_validator_set (relay_state v2), current_validator_set_id (relay_state v2)) =
      (if decide (delay c = 1%Z) then (next_authorities c, (current_validator_set_id (relay_state v) + 1)%Z)
       else (current_validator_set (relay_state v), current_validator_set_id (relay_state v))) ∧
    last_finalized_block_header (relay_state v2) = h2 ∧ finality v2 = GrandpaFinality.
Proof.
  destruct (change_is_scheduled v h1 j1 js1 vs c) as (v1 & res1 & Hsub1 & Hfin & Hl & Hs & Hi & Hc); [done..|].
  destruct (submit_block_sets check_message_signature rank rank_parent v1 h2 js2 vs)
    as (v2 & res2 & Hsub2 & Hs2 & Hi2 & Hrest); rewrite ?Hl, ?Hs, ?Hi; try done.
  exists v1, v2, res1, res2. split; [exact Hsub1|]. split; [exact Hsub2|]. split; [|exact Hrest]. rewrite Hs2, Hi2. unfold apply_validator_set_change.
  rewrite Hc, next_number. cbn [at_block next_authority_list]. destruct (decide (delay c = 1%Z)) as [->|Hne].
  - rewrite decide_True by lia. cbn. rewrite Hi. unfold u64_wrap. by rewrite Z.mod_small by lia.
  - rewrite decide_False by lia. cbn. by rewrite Hs, Hi.
Qed.

(** A change of the authorities that a justified header announces comes into force
    with the next header if its delay is one, and is dropped otherwise. *)
Theorem change_applies_at_delay_one :
  ∃ v1 v2 res1 res2, submit_block check_message_signature v (h1, js1) = Ret (v1, res1) ∧
    submit_block check_message_signature v1 (h2, js2) = Ret (v2, res2) ∧
    (current_validator_set (relay_state v2), current_validator_set_id (relay_state v2)) =
      if decide (delay c = 1%Z) then (next_authorities c, (current_validator_set_id (relay_state v) + 1)%Z)
      else (current_validator_set (relay_state v), current_validator_set_id (relay_state v)).
Proof. destruct change_reached as (v1 & v2 & res1 & res2 & H1' & H2' & H3' & _). by exists v1, v2, res1, res2. Qed.

(** An empty set of authorities that comes into force stops the client at the header
    after that: the voter set is made with [expect]. *)
Theorem empty_authorities_stop_the_client h3 js3 :
  delay c = 1%Z → voter_set_new (next_authorities c) = None → pc_parent_hash h3 = pc_hash h2 →
  submit_all check_message_signature v [(h1, js1); (h2, js2); (h3, js3)] = Panic.
Proof.
  intros Hd Hno Hl3. destruct change_reached as (v1 & v2 & res1 & res2 & Hs1 & Hs2 & Hset & Hlast & Hfin).
  rewrite decide_True in Hset by done. injection Hset as Hset _. cbn [submit_all]. rewrite Hs1. cbn [mbind outcome_bind]. rewrite Hs2. cbn [mbind outcome_bind].
  rewrite submit_block_panics; [done|done|by rewrite Hlast|by rewrite Hset].
Qed.
End announced_change.
End light_client.

(** ** Restarts *)

Section restart.
Context {PH VS Js Log : Type} `{ParentchainHeader PH} `{ParentHash PH} `{GrandpaLaws VS Js} `{GrandpaLog PH Log}.
Context `{Decode (GrandpaJustification PH)} (check_message_signature : Precommit → N → Bytes → Z → Z → bool).
Context (rank : N → nat) (rank_parent : ∀ h : PH, (rank (pc_parent_hash h) < rank (pc_hash h))%nat).
Context {Fs : Type} `{SgxFilesLaws Fs} `{Codec (RelayState PH)}.
Implicit Types (a : ValidatorAccessor Fs PH).

(** The submission of a block through the accessor. *)
Definition submit a (b : PH * option Js) : outcome (ValidatorAccessor Fs PH * result unit LightClientError) :=
  Accessor.execute_mut_on_validator a (λ v, submit_block check_message_signature v b).

Definition relay a : RelayState PH := relay_state (light_validation a).
Definition db a : FileContent := content (acc_files a) (Seal.db_path (acc_seal a)).

(** The sealed file has the state in memory. *)
Definition synced a : Prop := db a = Sealed (encode (relay a)).

(** A start of the worker with the files of [a]. *)
Definition restart a (f : Finality) (genesis : PH) authorities id : Fs * result (LightValidation PH) LightClientError :=
  Seal.read_or_init f (acc_seal a) (acc_files a) genesis authorities id.

Lemma submit_returns a b genesis hs :
  follows genesis hs (relay a) → voters_ok (light_validation a) →
  ∃ a' res, submit a b = Ret (a', res) ∧ acc_seal a' = acc_seal a ∧ genesis_hash (relay a') = pc_hash genesis ∧
    ((∀ m, res ≠ Err (LcOther m)) → db a ≠ Absent → synced a') ∧
    (db a ≠ Absent → content (acc_files a') (Seal.backup_path (acc_seal a)) = db a).
Proof.
  intros Hf Hv. unfold submit, Accessor.execute_mut_on_validator.
  destruct (submit_block_spec check_message_signature rank rank_parent genesis hs (light_validation a) b Hf Hv)
    as (v & res & -> & _ & _ & _ & Hb). cbn [mbind outcome_bind].
  destruct (Seal.seal (acc_seal a) (acc_files a) (relay_state v)) as [fs sealed] eqn:Hs.
  eexists _, _. split; [done|]. split; [done|].
  assert (genesis_hash (relay_state v) = pc_hash genesis) as Hg.
  { destruct (decide _); [apply (fo_genesis _ _ _ (proj1 Hb))|]. destruct Hb as [-> _]. apply (fo_genesis _ _ _ Hf). }
  split; [done|]. split; [|intros Hdb; by apply (seal_spec _ _ _ _ _ Hdb Hs)].
  intros Hres Hdb. apply (seal_spec _ _ _ _ _ Hdb Hs). destruct sealed as [[]|e]; [done|].
  revert Hs. unfold Seal.seal. destruct (Seal.backup _ _) as [fs1 ?]. destruct (Seal.sgx_seal _ _ _) as [fs2 [[]|m]]; [done|].
  intros [= <- <-]. by destruct (Hres m).
Qed.

(** C30: A seal that completes leaves the state in memory on disk.  A worker that stops
    while it seals the state after a block starts again with the state before or
    after that block, whatever is left of the file it was writing. *)
Theorem light_client_survives_a_torn_seal a b genesis hs f authorities id :
  follows genesis hs (relay a) → voters_ok (light_validation a) → synced a →
  ∃ a' res, submit a b = Ret (a', res) ∧
    ((∀ m, res ≠ Err (LcOther m)) → synced a') ∧
    (sealed_or_torn (relay a') (db a') →
      ∃ fs, let r := recovered (relay a) (relay a') (db a') in
        restart a' f genesis authorities id =
          match Seal.seal (acc_seal a) fs r with
          | (fs, Err e) => (fs, Err e)
          | (fs, Ok _) => (fs, Ok (Seal.init_validator f r id))
          end).
Proof.
  intros Hf Hv Hsync. destruct (submit_returns a b genesis hs Hf Hv) as (a' & res & -> & Hseal & Hg & Hok & Hback).
  assert (db a ≠ Absent) as Hdb by (by rewrite Hsync).
  exists a', res. split; [done|]. split; [by intros Hres; apply Hok|]. intros Htorn.
  specialize (Hback Hdb). rewrite Hsync in Hback.
  destruct (recover (acc_seal a) (acc_files a') (relay a) (relay a') Hback) as (fs1 & fs2 & He & Hu & _).
  { by rewrite <-Hseal. }
  exists fs2. unfold restart, Seal.read_or_init, db. rewrite Hseal, He, Hu. cbn zeta.
  rewrite decide_True; [done|]. unfold recovered. by destruct (content (acc_files a') (Seal.db_path _)); [apply (fo_genesis _ _ _ Hf)..|exact Hg].
Qed.

(** When the seal after a torn one is torn as well the state is lost: it has
    replaced the backup by the file the first one left, and the worker does not
    start again. *)
Theorem two_torn_seals_lose_the_state a b a' res genesis hs f authorities id :
  follows genesis hs (relay a) → voters_ok (light_validation a) → db a = Torn →
  submit a b = Ret (a', res) → db a' = Torn →
  ∃ fs e, restart a' f genesis authorities id = (fs, Err e).
Proof.
  intros Hf Hv Hd Hs Hd'.
  destruct (submit_returns a b genesis hs Hf Hv) as (a1 & res1 & Hs' & Hseal & _ & _ & Hback).
  rewrite Hs in Hs'. injection Hs' as <- <-. rewrite Hd in Hback. specialize (Hback ltac:(done)).
  unfold restart, Seal.read_or_init. rewrite <-Hseal in Hback.
  destruct (not_recovered (L := RelayState PH) (acc_seal a') (acc_files a') Hback Hd') as [-> (fs & e & ->)]. by eexists _, _.
Qed.
End restart.

(** ** Witnesses *)

Module LightSample.

(** A header is its number and the delay of the change of the authorities it
    announces; a hash is one more than the number. *)
Definition Header : Type := N * option Z.
#[export] Instance headers : ParentchainHeader Header := {| pc_hash := λ h, N.succ h.1; pc_number := λ h, Z.of_N h.1 |}.
#[export] Instance parents : ParentHash Header := λ h, h.1.
#[export] Instance logs : GrandpaLog Header Z := {| grandpa_log := λ h, h.2; try_into_change := λ d, Some (MkChange [(9%N, 1%Z)] d) |}.

Definition rank (h : N) : nat := N.to_nat h.
Lemma rank_parent (h : Header) : (rank (pc_parent_hash h) < rank (pc_hash h))%nat.
Proof. unfold rank, pc_parent_hash, parents. cbn. lia. Qed.

(** A commit needs more than two thirds of the voters, all on the chain. *)
Fixpoint all_routed (base : N) (votes : list SignedPrecommit) (ancestry : N → N → outcome (result (list N) GrandpaError)) :
    outcome (result bool string) :=
  match votes with
  | [] => Ret (Ok true)
  | s :: votes =>
      ancestry base (precommit_target_hash (precommit s)) ≫= λ r,
      if is_ok r then all_routed base votes ancestry else Ret (Ok false)
  end.
#[export] Instance grandpa : Grandpa (list (N * Z)) Bytes := {|
  voter_set_new := λ l, match l with [] => None | _ => Some l end;
  into_justification := λ js, Some js;
  validate_commit := λ c vs ancestry,
    if (2 * length vs <? 3 * length (precommits c))%nat then all_routed (target_hash c) (precommits c) ancestry else Ret (Ok false) |}.
#[export] Instance grandpa_laws : GrandpaLaws (list (N * Z)) Bytes.
Proof.
  split. intros c vs ancestry Ha. cbn [validate_commit grandpa]. destruct (Nat.ltb _ _); [|by eexists].
  induction (precommits c) as [|s votes IH]; cbn [all_routed]; [by eexists|].
  destruct (Ha (target_hash c) (precommit_target_hash (precommit s))) as [r ->]. cbn. destruct (is_ok r); [done|by eexists].
Qed.

Definition check_signature (p : Precommit) (who : N) (sig : Bytes) (round set_id : Z) : bool := bool_decide (sig = [1%N]).

#[export] Instance vote_target_eq_dec : EqDecision Precommit.
Proof. solve_decision. Defined.
#[export] Instance vote_eq_dec : EqDecision SignedPrecommit.
Proof. solve_decision. Defined.
#[export] Instance commit_eq_dec : EqDecision Commit.
Proof. solve_decision. Defined.
#[export] Instance justification_eq_dec : EqDecision (GrandpaJustification Header).
Proof. solve_decision. Defined.
#[export] Instance scheduled_eq_dec : EqDecision ScheduledChangeAtBlock.
Proof. solve_decision. Defined.
#[export] Instance relay_eq_dec : EqDecision (RelayState Header).
Proof. solve_decision. Defined.
#[export] Instance vote_countable : Countable SignedPrecommit.
Proof.
  refine (inj_countable' (λ s, (precommit_target_hash (precommit s), precommit_target_number (precommit s), signature s, authority s))
    (λ '(a, b, c, d), MkSignedPrecommit (MkPrecommit a b) c d) _). by intros [[]].
Defined.
#[export] Instance justification_countable : Countable (GrandpaJustification Header).
Proof.
  refine (inj_countable' (λ j, (round j, target_hash (commit j), target_number (commit j), precommits (commit j), votes_ancestries j))
    (λ '(a, b, c, d, e), MkJustification a (MkCommit b c d) e) _). by intros [? []].
Defined.
#[export] Instance relay_countable : Countable (RelayState Header).
Proof.
  refine (inj_countable' (λ r, (genesis_hash r, last_finalized_block_header r, penultimate_finalized_block_header r,
      current_validator_set r, current_validator_set_id r, header_hashes r, unjustified_headers r,
      (λ s, (at_block s, next_authority_list s)) <$> scheduled_change r))
    (λ '(a, b, c, d, e, f, g, h), MkRelay a b c d e f g ((λ '(x, y), MkScheduled x y) <$> h)) _). by intros [? ? ? ? ? ? ? [[]|]].
Defined.
#[export] Instance enc_justification : Encode (GrandpaJustification Header) := count_encode.
#[export] Instance dec_justification : Decode (GrandpaJustification Header) := count_decode.
#[export] Instance enc_relay : Encode (RelayState Header) := count_encode.
#[export] Instance dec_relay : Decode (RelayState Header) := count_decode.
#[export] Instance codec_relay : Codec (RelayState Header) := count_codec.

Definition authorities : list (N * Z) := [(1%N, 1%Z); (2%N, 1%Z)].
Definition vote (target : N) (sig : Bytes) (who : N) : SignedPrecommit := MkSignedPrecommit (MkPrecommit target (Z.of_N target - 1)) sig who.

(** Header 3 with a vote for it and one, badly signed, for its child. *)
Definition justification : GrandpaJustification Header :=
  MkJustification 1 (MkCommit 4%N 3 [vote 4%N [1%N] 1%N; vote 5%N [0%N] 2%N]) [(4%N, None)].

(** Files, with the number of writes that will complete. *)
Record Files := MkFiles { files : gmap string FileContent; writes : nat }.
Definition file (fs : Files) (p : Path) : FileContent := default Absent (files fs !! p).
Definition put (fs : Files) (p : Path) (c : FileContent) : Files := MkFiles (<[p := c]> (files fs)) (writes fs).

#[export] Instance sgx_files : SgxFiles Files := {|
  fs_exists := λ fs p, match file fs p with Absent => false | _ => true end;
  fs_open := λ fs p, match file fs p with Absent => Err "absent"%string | _ => Ok tt end;
  fs_copy := λ fs p q, match file fs p with Absent => (fs, Err "absent"%string) | c => (put fs q c, Ok tt) end;
  sgx_create := λ fs p, (put fs p Torn, Ok tt);
  sgx_write_all := λ fs p b,
    match writes fs with
    | 0%nat => (fs, Err "write"%string)
    | S n => (MkFiles (<[p := Sealed b]> (files fs)) n, Ok tt)
    end;
  sgx_open := λ fs p, match file fs p with Sealed _ => Ok tt | _ => Err "open"%string end;
  sgx_read_to_end := λ fs p, match file fs p with Sealed b => Ok b | _ => Err "read"%string end |}.

Lemma file_put fs p c x : file (put fs p c) x = if decide (p = x) then c else file fs x.
Proof. unfold file, put. cbn. rewrite lookup_insert. by case_decide. Qed.

#[export] Instance sgx_files_laws : SgxFilesLaws Files.
Proof.
  refine {| content := file |}; cbn.
  - intros fs p. by destruct (file fs p).
  - intros fs p. by destruct (file fs p).
  - intros fs p q Hp. exists (put fs q (file fs p)). split_and!; [by destruct (file fs p)|by rewrite file_put, decide_True|].
    intros x Hx. by rewrite file_put, decide_False.
  - intros fs p q ->. by eexists.
  - intros fs p x Hx. by rewrite file_put, decide_False.
  - intros fs p b x Hx. destruct (writes fs); [done|]. unfold file. cbn. by rewrite lookup_insert_ne.
  - intros fs p b fs1 fs2 [= <-]. cbn. destruct (writes fs); [done|]. intros [= <-]. unfold file. cbn. by rewrite lookup_insert_eq.
  - intros fs p b. unfold Seal.sgx_unseal. cbn. destruct (file fs p); cbn; by (split; intros [= ->] || split).
Defined.

(** A worker that has imported nothing yet. *)
Definition genesis : Header := (0%N, None).
Definition started (n : nat) (c : FileContent) : ValidatorAccessor Files Header :=
  MkAccessor (MkSeal "dir" Integritee) (MkFiles {[Seal.db_path (MkSeal "dir" Integritee) := c]} n)
    (Seal.init_validator GrandpaFinality (new genesis authorities) Integritee).

Lemma started_follows n c : follows genesis [] (relay (started n c)) ∧ voters_ok (light_validation (started n c)).
Proof. split; [apply new_follows, Nat.ltb_lt; by vm_compute|]. intros _. by split; [eexists|]. Qed.

Lemma announced (h : Header) : announces_voters h.
Proof. intros c. unfold pending_change. cbn. destruct (h.2); [|done]. intros [= <-]. by eexists. Qed.
End LightSample.

Section witnesses.
Import LightSample.

Lemma justification_is_exact_witness : Routes.justifies justification authorities.
Proof.
  destruct (justification_is_exact check_signature rank rank_parent justification (encode justification) 4%N 3 0 authorities)
    as (bad & res & Heq & Hok & _); [by vm_compute|].
  vm_compute in Heq. injection Heq as _ <-. by apply Hok.
Defined.

(** Of three headers the second does not link. *)
Lemma light_client_follows_a_chain_witness :
  ∃ v results,
    submit_all check_signature (Seal.init_validator GrandpaFinality (new genesis authorities) Integritee)
      [((1%N, None), None); ((4%N, None), None); ((2%N, None), None)] = Ret (v, results) ∧
    follows genesis [(1%N, None); (2%N, None)] (relay_state v) ∧ (negb ∘ is_mismatch) <$> results = [true; false; true].
Proof.
  destruct (light_client_follows_a_chain check_signature rank rank_parent GrandpaFinality genesis authorities Integritee
    [((1%N, None), None); ((4%N, None), None); ((2%N, None), None)]) as (v & results & Hs & Hf & Hl).
  - apply Forall_true, announced.
  - intros _. by eexists.
  - exists v, results. split; [exact Hs|]. split; [exact Hf|exact Hl].
Defined.

(** A justified header that announces a change at once. *)
Definition announcing (d : Z) : Header := (3%N, Some d).
Definition at_two : LightValidation Header :=
  Seal.init_validator GrandpaFinality
    (MkRelay 1%N (2%N, None) (1%N, None) authorities 0 [1; 2; 3]%N [] None) Integritee.

Lemma change_applies_at_delay_one_witness :
  ∃ v1 v2 res1 res2,
    submit_block check_signature at_two (announcing 0, Some (encode justification)) = Ret (v1, res1) ∧
    submit_block check_signature v1 ((4%N, None), None) = Ret (v2, res2) ∧
    current_validator_set (relay_state v2) = authorities.
Proof.
  destruct (change_applies_at_delay_one check_signature rank rank_parent at_two (announcing 0) (4%N, None) (Some (encode justification)) None
    (encode justification) authorities (MkChange [(9%N, 1%Z)] 0)) as (v1 & v2 & res1 & res2 & H1 & H2 & H3);
    [done..|by vm_compute|done|done|done|done|done|done|done|].
  exists v1, v2, res1, res2. split; [done|]. split; [done|]. by injection H3.
Defined.

(** The same with a change to no authorities at all. *)
Definition empty_logs : GrandpaLog Header Z := {| grandpa_log := λ h, h.2; try_into_change := λ d, Some (MkChange [] d) |}.

Lemma empty_authorities_stop_the_client_witness :
  submit_all (H3 := empty_logs) check_signature at_two
    [(announcing 1, Some (encode justification)); ((4%N, None), None); ((5%N, None), None)] = Panic.
Proof.
  apply (empty_authorities_stop_the_client (H3 := empty_logs) check_signature rank rank_parent at_two (announcing 1) (4%N, None)
    (Some (encode justification)) None (encode justification) authorities (MkChange [] 1)); done.
Defined.

(** The seal after the first block is cut short. *)
Lemma light_client_survives_a_torn_seal_witness :
  ∃ a' res fs, submit check_signature (started 0 (Sealed (encode (new genesis authorities)))) ((1%N, None), None) = Ret (a', res) ∧
    db a' = Torn ∧
    restart a' GrandpaFinality genesis authorities Integritee =
      match Seal.seal (MkSeal "dir" Integritee) fs (new genesis authorities) with
      | (fs, Err e) => (fs, Err e)
      | (fs, Ok _) => (fs, Ok (Seal.init_validator GrandpaFinality (new genesis authorities) Integritee))
      end.
Proof.
  set (a := started 0 (Sealed (encode (new genesis authorities)))).
  destruct (light_client_survives_a_torn_seal check_signature rank rank_parent a ((1%N, None), None) genesis []
    GrandpaFinality authorities Integritee) as (a' & res & Hs & _ & Hr); [apply started_follows..|by vm_compute|].
  assert (db a' = Torn) as Hd.
  { revert Hs. vm_compute. intros Hs. injection Hs as <- _. by vm_compute. }
  destruct Hr as [fs Hr]; [right; by left|]. rewrite Hd in Hr. exists a', res, fs. split; [done|]. split; [done|]. exact Hr.
Defined.

(** The seals of the first two blocks are cut short. *)
Lemma two_torn_seals_lose_the_state_witness :
  ∃ a' res fs e, submit check_signature (started 0 Torn) ((1%N, None), None) = Ret (a', res) ∧
    restart a' GrandpaFinality genesis authorities Integritee = (fs, Err e).
Proof.
  destruct (submit check_signature (started 0 Torn) ((1%N, None), None)) as [[a' res]| |] eqn:Hs; [|by vm_compute in Hs..].
  assert (db a' = Torn) as Hd.
  { revert Hs. vm_compute. intros Hs. injection Hs as <- _. by vm_compute. }
  destruct (two_torn_seals_lose_the_state check_signature rank rank_parent (started 0 Torn) ((1%N, None), None) a' res genesis []
    GrandpaFinality authorities Integritee) as (fs & e & Hr); [apply started_follows..|by vm_compute|done|done|].
  by exists a', res, fs, e.
Defined.
End witnesses.
