(* ===== verification/Extrinsics.v ===== *)
(** Extrinsics for the parentchain: the cache of the nonce
    (src/core-primitives/nonce-cache), the repository of the node's metadata
    (src/core-primitives/node-api/metadata-provider) and the factory that signs the
    calls of the enclave (src/core-primitives/extrinsics-factory).

    The composition and the encoding of an extrinsic are external. *)

From stdpp Require Import base gmap numbers strings list.
From S2P Require Import Prelude Collections PoolTypes Externalities SidechainDb SidechainBlocks StfExecutor ParentchainImport.

Open Scope worker_scope.

(** ** The nonce and the metadata *)

Record NonceCache := MkNonceCache { nonce_lock : Z }.

Definition load_for_mutation (c : NonceCache) : result Z string := Ok (nonce_lock c).
Definition get_nonce (c : NonceCache) : result Z string := Ok (nonce_lock c).

Record NodeMetadata := MkMetadata {
  runtime_spec_version : Z;
  runtime_transaction_version : Z;
}.

Record NodeMetadataRepository := MkRepository { metadata_lock : option NodeMetadata }.

Definition set_metadata (_ : NodeMetadataRepository) (metadata : NodeMetadata) : NodeMetadataRepository :=
  MkRepository (Some metadata).

Definition get_from_metadata {R} (r : NodeMetadataRepository) (getter_function : NodeMetadata → R) : result R string :=
  match metadata_lock r with Some metadata => Ok (getter_function metadata) | None => Err "MetadataNotSet"%string end.

(** ** The factory *)

(** [ParentchainExtrinsicParams], with the parameters the caller may give. *)
Record ExtrinsicParams (Ap : Type) := MkParams {
  ep_spec_version : Z;
  ep_transaction_version : Z;
  ep_nonce : Z;
  ep_genesis_hash : N;
  ep_additional : Ap;
}.
Arguments MkParams {Ap} _ _ _ _ _.
Arguments ep_nonce {Ap} _.

(** The default parameters (an immortal era, no tip), the signed and encoded
    extrinsic, and its opaque form. *)
Class ComposeExtrinsic (Signer Ap Xt : Type) := {
  default_params : N → Ap;
  compose_extrinsic_offline : Signer → OpaqueCall → ExtrinsicParams Ap → Bytes;
  from_bytes : Bytes → result Xt string;
}.

(** An extrinsic that was encoded has an opaque form. *)
Class ComposeLaws (Signer Ap Xt : Type) `{ComposeExtrinsic Signer Ap Xt} := {
  opaque : Signer → OpaqueCall → ExtrinsicParams Ap → Xt;
  from_bytes_compose : ∀ s call p, from_bytes (compose_extrinsic_offline s call p) = Ok (opaque s call p);
}.

Module Factory.

Record ExtrinsicsFactory (Signer : Type) := MkFactory {
  genesis_hash : N;
  signer : Signer;
  nonce_cache : NonceCache;
  node_metadata_repository : NodeMetadataRepository;
}.
Arguments MkFactory {Signer} _ _ _ _.
Arguments genesis_hash {Signer} _.
Arguments signer {Signer} _.
Arguments nonce_cache {Signer} _.
Arguments node_metadata_repository {Signer} _.

Section factory.
Context {Signer Ap Xt : Type} `{ComposeExtrinsic Signer Ap Xt}.
Implicit Types (x : ExtrinsicsFactory Signer).

Definition with_signer x (s : Signer) (c : NonceCache) : ExtrinsicsFactory Signer :=
  MkFactory (genesis_hash x) s c (node_metadata_repository x).

(** The closure over the calls, and the nonce afterwards. *)
Fixpoint compose_all x (spec transaction : Z) (additional : Ap) (nonce_value : Z) (calls : list OpaqueCall) :
    outcome (Z * list Xt) :=
  match calls with
  | [] => Ret (nonce_value, [])
  | call :: calls =>
      let xt := compose_extrinsic_offline (signer x) call
        (MkParams spec transaction nonce_value (genesis_hash x) additional) in
      match from_bytes xt with
      | Err _ => Panic
      | Ok xt =>
          compose_all x spec transaction additional (u32_wrap (nonce_value + 1)) calls ≫= λ '(nonce_value, xts),
          Ret (nonce_value, xt :: xts)
      end
  end.

Definition create_extrinsics x (calls : list OpaqueCall) (extrinsics_params : option Ap) :
    outcome (ExtrinsicsFactory Signer * result (list Xt) string) :=
  match load_for_mutation (nonce_cache x) with
  | Err e => Ret (x, Err e)
  | Ok nonce_value =>
      let additional := default (default_params (genesis_hash x)) extrinsics_params in
      match get_from_metadata (node_metadata_repository x) (λ m, (runtime_spec_version m, runtime_transaction_version m)) with
      | Err e => Ret (x, Err e)
      | Ok (spec, transaction) =>
          compose_all x spec transaction additional nonce_value calls ≫= λ '(nonce_value, xts),
          Ret (MkFactory (genesis_hash x) (signer x) (MkNonceCache nonce_value) (node_metadata_repository x), Ok xts)
      end
  end.

(** *** Ecalls of the host (enclave-runtime/src/lib.rs) *)

Definition set_nonce x (nonce : Z) : ExtrinsicsFactory Signer :=
  MkFactory (genesis_hash x) (signer x) (MkNonceCache nonce) (node_metadata_repository x).

Definition set_node_metadata x (metadata : NodeMetadata) : ExtrinsicsFactory Signer :=
  MkFactory (genesis_hash x) (signer x) (nonce_cache x) (set_metadata (node_metadata_repository x) metadata).
End factory.
End Factory.

(** ** Nonces *)

Module FactoryInv.
Import Factory.

Section nonces.
Context {Signer Ap Xt : Type} `{ComposeLaws Signer Ap Xt}.
Implicit Types (x : ExtrinsicsFactory Signer).

(** The extrinsics of some calls, from a nonce on. *)
Definition numbered x (m : NodeMetadata) (additional : Ap) (nonce : Z) (calls : list OpaqueCall) : list Xt :=
  imap (λ i call, opaque (signer x) call
    (MkParams (runtime_spec_version m) (runtime_transaction_version m) (u32_wrap (nonce + Z.of_nat i)) (genesis_hash x) additional)) calls.

Lemma u32_wrap_small z : (0 ≤ z < 2 ^ 32)%Z → u32_wrap z = z.
Proof. intros Hz. unfold u32_wrap. by rewrite Z.mod_small. Qed.

Lemma u32_wrap_add a b : u32_wrap (u32_wrap a + b) = u32_wrap (a + b).
Proof. unfold u32_wrap. by rewrite Z.add_mod_idemp_l. Qed.

Lemma compose_all_numbered x m additional nonce calls :
  (0 ≤ nonce < 2 ^ 32)%Z →
  compose_all x (runtime_spec_version m) (runtime_transaction_version m) additional nonce calls =
    Ret (u32_wrap (nonce + Z.of_nat (length calls)), numbered x m additional nonce calls).
Proof.
  revert nonce. induction calls as [|call calls IH]; intros nonce Hn; cbn [compose_all].
  { cbn. by rewrite Z.add_0_r, u32_wrap_small. }
  rewrite from_bytes_compose, IH by (unfold u32_wrap; apply Z.mod_pos_bound; lia). cbn [mbind outcome_bind]. unfold numbered. cbn [imap].
  rewrite Z.add_0_r, (u32_wrap_small nonce), u32_wrap_add by done. f_equal. f_equal; [f_equal; cbn [length]; lia|].
  f_equal. apply imap_ext. intros i c _. cbn [compose]. rewrite u32_wrap_add.
  by replace (nonce + 1 + Z.of_nat i)%Z with (nonce + Z.of_nat (S i))%Z by lia.
Qed.

(** What the enclave and its host do with a factory. *)
Inductive factory_step :=
| Create (calls : list OpaqueCall)
| SetMetadata (metadata : NodeMetadata).

Definition run_step x (s : factory_step) : outcome (ExtrinsicsFactory Signer * list Xt) :=
  match s with
  | Create calls =>
      create_extrinsics x calls None ≫= λ '(x, res), Ret (x, match res with Ok xts => xts | Err _ => [] end)
  | SetMetadata metadata => Ret (set_node_metadata x metadata, [])
  end.

Fixpoint run_steps x (steps : list factory_step) : outcome (ExtrinsicsFactory Signer * list (list Xt)) :=
  match steps with
  | [] => Ret (x, [])
  | s :: steps => run_step x s ≫= λ '(x, xts), run_steps x steps ≫= λ '(x, l), Ret (x, xts :: l)
  end.

(** The extrinsics of each step as they should be. *)
Fixpoint expected x (metadata : option NodeMetadata) (nonce : Z) (steps : list factory_step) : list (list Xt) :=
  match steps with
  | [] => []
  | SetMetadata m :: steps => [] :: expected x (Some m) nonce steps
  | Create calls :: steps =>
      match metadata with
      | None => [] :: expected x None nonce steps
      | Some m => numbered x m (default_params (genesis_hash x)) nonce calls ::
          expected x metadata (nonce + Z.of_nat (length calls)) steps
      end
  end.

Lemma expected_congr x x' metadata nonce nonce' steps :
  signer x' = signer x → genesis_hash x' = genesis_hash x → u32_wrap nonce' = u32_wrap nonce →
  expected x' metadata nonce' steps = expected x metadata nonce steps.
Proof.
  intros Hs Hg. revert metadata nonce nonce'. induction steps as [|[calls|m] steps IH]; intros metadata nonce nonce' Hn; cbn; [done| |].
  - assert (∀ z, u32_wrap (nonce' + z) = u32_wrap (nonce + z)) as Hz.
    { intros z. by rewrite <-(u32_wrap_add nonce'), Hn, u32_wrap_add. }
    destruct metadata as [m|]; f_equal; try by apply IH.
    unfold numbered. rewrite Hs, Hg. apply imap_ext. intros i c _. by rewrite Hz.
  - f_equal. by apply IH.
Qed.
End nonces.
End FactoryInv.

Section extrinsics.
Import Factory FactoryInv.
Context {Signer Ap Xt : Type} `{ComposeLaws Signer Ap Xt}.

(** C31: Whatever calls are made into extrinsics, and with or without metadata of the
    node, the factory returns and the extrinsics it hands out have consecutive
    nonces, across all the batches: a call without metadata fails and uses none. *)
Theorem nonces_are_consecutive (x : ExtrinsicsFactory Signer) (steps : list factory_step) :
  (0 ≤ nonce_lock (nonce_cache x) < 2 ^ 32)%Z →
  ∃ x' l, run_steps x steps = Ret (x', l) ∧
    l = expected x (metadata_lock (node_metadata_repository x)) (nonce_lock (nonce_cache x)) steps ∧
    nonce_lock (nonce_cache x') = u32_wrap (nonce_lock (nonce_cache x) + Z.of_nat (length (mjoin l))).
Proof.
  revert x. induction steps as [|s steps IH]; intros x Hn; cbn [run_steps].
  { eexists _, _. split; [done|]. split; [done|]. cbn. by rewrite Z.add_0_r, u32_wrap_small. }
  destruct s as [calls|m]; cbn [run_step].
  - unfold create_extrinsics, get_from_metadata. cbn [load_for_mutation].
    destruct (metadata_lock (node_metadata_repository x)) as [m|] eqn:Hm; cbn [mbind outcome_bind].
    + rewrite compose_all_numbered by done. cbn [mbind outcome_bind].
      set (x1 := MkFactory _ _ _ _). destruct (IH x1) as (x2 & l & -> & Hl & Hn2).
      { cbn. unfold u32_wrap. apply Z.mod_pos_bound. lia. }
      eexists _, _. split; [done|]. cbn [expected]. rewrite Hl at 1. cbn [x1 node_metadata_repository nonce_cache nonce_lock]. rewrite Hm. split.
      * f_equal. apply expected_congr; [done|done|]. unfold u32_wrap. by rewrite Z.mod_mod.
      * rewrite Hn2. cbn [x1 nonce_cache nonce_lock]. rewrite u32_wrap_add. cbn. rewrite length_app. unfold numbered.
        rewrite length_imap, Nat2Z.inj_add. by rewrite Z.add_assoc.
    + destruct (IH x Hn) as (x2 & l & -> & Hl & Hn2). eexists _, _. split; [done|]. cbn [expected]. rewrite Hl at 1. rewrite Hm. split; [done|].
      by rewrite Hn2.
  - cbn [mbind outcome_bind]. destruct (IH (set_node_metadata x m)) as (x2 & l & -> & Hl & Hn2); [done|].
    eexists _, _. split; [done|]. cbn [expected]. rewrite Hl at 1. split; [|by rewrite Hn2]. f_equal. by apply expected_congr.
Qed.
End extrinsics.

(** ** Witnesses *)

Section witnesses.
Import Factory FactoryInv.

(** An extrinsic is its nonce and its call. *)
#[local] Instance compose_pair : ComposeExtrinsic unit unit (Z * OpaqueCall) := {|
  default_params := λ _, tt;
  compose_extrinsic_offline := λ _ call p, Z.to_N (ep_nonce p) :: call;
  from_bytes := λ b, match b with n :: call => Ok (Z.of_N n, call) | [] => Err "empty"%string end |}.
#[local] Instance compose_pair_laws : ComposeLaws unit unit (Z * OpaqueCall).
Proof. by refine {| opaque := λ _ call p, (Z.of_N (Z.to_N (ep_nonce p)), call) |}. Defined.

(** Two batches at the end of the range, one before there is metadata. *)
Lemma nonces_are_consecutive_witness :
  ∃ x', run_steps (MkFactory 0%N tt (MkNonceCache (2 ^ 32 - 1)) (MkRepository None))
    [Create [[5%N]]; SetMetadata (MkMetadata 1 1); Create [[6]; [7]]%N; Create [[8%N]]] =
    Ret (x', [[]; []; [((2 ^ 32 - 1)%Z, [6%N]); (0%Z, [7%N])]; [(1%Z, [8%N])]]).
Proof.
  destruct (nonces_are_consecutive (MkFactory 0%N tt (MkNonceCache (2 ^ 32 - 1)) (MkRepository None))
    [Create [[5%N]]; SetMetadata (MkMetadata 1 1); Create [[6]; [7]]%N; Create [[8%N]]]) as (x' & l & -> & -> & _); [done|].
  exists x'. by vm_compute.
Defined.
End witnesses.
