(* ===== verification/TrustedCalls.v ===== *)
(** The trusted calls of the STF (src/app-libs/stf/src/trusted_call.rs, helpers.rs
    and stf_sgx.rs) without the EVM feature: signing and verification, execution on
    the state of a shard, and the vault of the shard.

    The pallets of the runtime are external: [Pallets] is what the calls use of
    them, on the externalities of the state. *)

From stdpp Require Import base gmap fin_maps numbers strings list.
From S2P Require Import Prelude Collections PoolTypes Externalities SidechainDb Durations StfTypes SidechainState SidechainBlocks StfExecutor.
From S2P Require Import ParentchainImport OnChain.

Import Ext(SgxExternalities).
Open Scope worker_scope.

Definition u128_wrap (z : Z) : Z := z `mod` 2 ^ 128.

(** ** Pallets of the runtime *)

(** [System], [Balances], [Sudo] and the three instances of the parentchain pallet. *)
Class Pallets (PH : Type) := {
  account_nonce : SgxExternalities → AccountId → Z;
  inc_account_nonce : SgxExternalities → AccountId → SgxExternalities;
  free_balance : SgxExternalities → AccountId → Z;
  reserved_balance : SgxExternalities → AccountId → Z;
  balances_transfer : SgxExternalities → AccountId → AccountId → Z → SgxExternalities * result unit string;
  force_set_balance : SgxExternalities → AccountId → Z → SgxExternalities * result unit string;
  sudo_key : SgxExternalities → option AccountId;
  parentchain_shard_vault : ParentchainId → SgxExternalities → option AccountId;
  parentchain_creation_timestamp : ParentchainId → SgxExternalities → option Z;
  parentchain_creation_block_number : ParentchainId → SgxExternalities → option Z;
  parentchain_creation_block_hash : ParentchainId → SgxExternalities → option N;
  parentchain_set_creation_block : ParentchainId → SgxExternalities → PH → SgxExternalities * result unit string;
  parentchain_set_creation_timestamp : ParentchainId → SgxExternalities → Z → SgxExternalities * result unit string;
  parentchain_set_now : ParentchainId → SgxExternalities → Z → SgxExternalities * result unit string;
  parentchain_set_block : ParentchainId → SgxExternalities → PH → SgxExternalities * result unit string;
  parentchain_init_shard_vault : ParentchainId → SgxExternalities → AccountId → SgxExternalities * result unit string;
}.

(** The indexes of calls in the metadata of the node, and the encoding of the calls. *)
Class NodeCalls := {
  transfer_keep_alive_call_indexes : result Bytes string;
  proxy_call_indexes : result Bytes string;
  publish_hash_call_indexes : result Bytes string;
  transfer_call : Bytes → AccountId → Z → Bytes;
  proxy_call : Bytes → AccountId → Bytes → Bytes;
  publish_hash_call : Bytes → N → string → Bytes;
}.

Inductive StfError :=
| MissingPrivileges (account : AccountId)
| RequireEnclaveSignerAccount
| StfDispatch (msg : string)
| MissingFunds
| InvalidNonce (nonce system_nonce : Z)
| InvalidMetadata
| ShardVaultOnMultipleParentchainsNotAllowed
| ChangingShardVaultAccountNotAllowed
| WrongParentchainIdForShardVault
| NoShardVaultAssigned.

(** ** Calls *)

Inductive TrustedCall :=
| noop (who : AccountId)
| balance_set_balance (root who : AccountId) (free reserved : Z)
| balance_transfer (from to : AccountId) (value : Z)
| balance_unshield (account_incognito beneficiary : AccountId) (value : Z) (shard : ShardIdentifier)
| balance_shield (enclave_account who : AccountId) (value : Z) (parentchain_id : ParentchainId)
| timestamp_set (enclave_account : AccountId) (now : Z) (parentchain_id : ParentchainId).

Record TrustedCallSigned := MkSigned {
  call : TrustedCall;
  nonce : Z;
  call_signature : Signature;
}.

Module Tc.

Definition call_sender (c : TrustedCall) : AccountId :=
  match c with
  | noop who => who
  | balance_set_balance root _ _ _ => root
  | balance_transfer from _ _ => from
  | balance_unshield account_incognito _ _ _ => account_incognito
  | balance_shield enclave_account _ _ _ => enclave_account
  | timestamp_set enclave_account _ _ => enclave_account
  end.

#[export] Instance signed_verification : TrustedCallVerification TrustedCallSigned := {|
  sender_account c := call_sender (call c);
  call_nonce := nonce;
|}.

Section signing.
Context {KeyPair Mr : Type} `{SignatureScheme KeyPair}.
Context `{Encode TrustedCall} `{Encode Z} `{Encode Mr} `{Encode ShardIdentifier}.

Definition payload (c : TrustedCall) (n : Z) (mrenclave : Mr) (shard : ShardIdentifier) : Bytes :=
  encode c ++ encode n ++ encode mrenclave ++ encode shard.

Definition sign_call (c : TrustedCall) (pair : KeyPair) (n : Z) (mrenclave : Mr) (shard : ShardIdentifier) : TrustedCallSigned :=
  MkSigned c n (sign pair (payload c n mrenclave shard)).

Definition verify_signature (c : TrustedCallSigned) (mrenclave : Mr) (shard : ShardIdentifier) : bool :=
  verify (call_signature c) (payload (call c) (nonce c) mrenclave shard) (call_sender (call c)).

Lemma verify_signed_call `{!SignatureLaws KeyPair} c pair n mrenclave shard :
  call_sender c = public pair → verify_signature (sign_call c pair n mrenclave shard) mrenclave shard = true.
Proof. intros Hs. unfold verify_signature, sign_call. cbn. rewrite Hs. apply verify_sign. Qed.
End signing.

Definition into_trusted_operation {G} (c : TrustedCallSigned) (direct : bool) : StfTrustedOperation TrustedCallSigned G :=
  if direct then direct_call c else indirect_call c.

(** ** Storage *)

Section storage.
Context `{Twox} `{Hashers}.
Implicit Types (st : SgxExternalities).

Definition get_storage_by_key_hash `{Decode V} st (key : Bytes) : option V :=
  match SpIo.get st key with
  | Some value_encoded => match decode value_encoded with Ok value => Some value | Err _ => None end
  | None => None
  end.

Definition get_storage_value `{Decode V} st (storage_prefix storage_key_name : string) : option V :=
  get_storage_by_key_hash st (storage_value_key storage_prefix storage_key_name).

Definition get_storage_map `{Encode K} `{Decode V} st (storage_prefix storage_key_name : string) (map_key : K)
    (hasher : StorageHasher) : option V :=
  get_storage_by_key_hash st (storage_map_key storage_prefix storage_key_name map_key hasher).

Definition get_storage_double_map `{Encode K} `{Encode Q} `{Decode V} st (storage_prefix storage_key_name : string)
    (first : K) (first_hasher : StorageHasher) (second : Q) (second_hasher : StorageHasher) : option V :=
  get_storage_by_key_hash st
    (storage_double_map_key storage_prefix storage_key_name first first_hasher second second_hasher).

Definition account_key_hash `{Encode AccountId} (account : AccountId) : Bytes :=
  storage_map_key "System" "Account" account Blake2_128Concat.

Context `{Decode AccountId}.

Definition ENCLAVE_ACCOUNT_KEY : string := "Enclave_Account_Key".

Definition enclave_account st : option AccountId := get_storage_value st "Sudo" ENCLAVE_ACCOUNT_KEY.

Definition enclave_signer_account st : outcome AccountId := unwrap (enclave_account st).

Definition ensure_enclave_signer_account st (account : AccountId) : outcome (result unit StfError) :=
  enclave_signer_account st ≫= λ expected_enclave_account,
  Ret (if decide (expected_enclave_account = account) then Ok tt else Err RequireEnclaveSignerAccount).
End storage.

(** ** The vault *)

Section vault.
Context {PH : Type} `{Pallets PH}.
Implicit Types (st : SgxExternalities).

Definition get_shard_vaults st : list (AccountId * ParentchainId) :=
  omap (λ id, (λ v, (v, id)) <$> parentchain_shard_vault id st) [Integritee; TargetA; TargetB].

Definition shard_vault st : option (AccountId * ParentchainId) := head (get_shard_vaults st).

Definition get_shard_vault_ensure_single_parentchain st : result (option (AccountId * ParentchainId)) StfError :=
  match get_shard_vaults st with
  | [] => Ok None
  | [vault] => Ok (Some vault)
  | _ => Err (StfDispatch "shard vault assigned to more than one parentchain")
  end.

Definition init_shard_vault_account st (vault : AccountId) (parentchain_id : ParentchainId) :
    SgxExternalities * result unit StfError :=
  match get_shard_vault_ensure_single_parentchain st with
  | Err e => (st, Err e)
  | Ok (Some (existing_vault, existing_id)) =>
      (st,
       if decide (existing_id ≠ parentchain_id) then Err ShardVaultOnMultipleParentchainsNotAllowed
       else if decide (existing_vault ≠ vault) then Err ChangingShardVaultAccountNotAllowed
       else Ok tt)
  | Ok None =>
      let '(st, res) := parentchain_init_shard_vault parentchain_id st vault in
      (st, match res with Ok _ => Ok tt | Err e => Err (StfDispatch ("Init shard vault account error: " +:+ e)) end)
  end.

(** The error of a dispatch with its text. *)
Definition dispatched (text : string) (r : SgxExternalities * result unit string) : SgxExternalities * result unit StfError :=
  (r.1, match r.2 with Ok _ => Ok tt | Err e => Err (StfDispatch (text +:+ e)) end).

Definition update_parentchain_block (id : ParentchainId) st (header : PH) : SgxExternalities * result unit StfError :=
  dispatched
    match id with
    | Integritee => "Update parentchain integritee block error: "
    | TargetA => "Update parentchain target_a block error: "
    | TargetB => "Update parentchain target_b block error: "
    end (parentchain_set_block id st header).

Definition set_creation_block st (header : PH) (parentchain_id : ParentchainId) : SgxExternalities * result unit StfError :=
  dispatched "Init shard vault account error: " (parentchain_set_creation_block parentchain_id st header).

(** Of the metadata of a block only the number is kept. *)
Definition shard_creation_info st : ShardCreationInfo :=
  let info id := number ← parentchain_creation_block_number id st; (λ _, number) <$> parentchain_creation_block_hash id st in
  MkCreation (info Integritee) (info TargetA) (info TargetB).
End vault.

(** ** The first state *)

Section init.
Context `{Twox} `{Hashers} `{Encode AccountId} {PH : Type} `{Pallets PH}.
Context (encode_u128 : Z → Bytes).

Definition create_enclave_self_account (st : SgxExternalities) (account : AccountId) : SgxExternalities * result unit StfError :=
  dispatched "Set Balance for enclave signer account error: " (force_set_balance st account 1000).

(** An error of the last step is only logged. *)
Definition init_state (account : AccountId) : SgxExternalities :=
  let st := Ext.new ∅ in
  let st := SpIo.set st (storage_value_key "Balances" "TotalIssuance") (encode_u128 11) in
  let st := SpIo.set st (storage_value_key "Balances" "CreationFee") (encode_u128 1) in
  let st := SpIo.set st (storage_value_key "Balances" "TransferFee") (encode_u128 1) in
  let st := SpIo.set st (storage_value_key "Balances" "TransactionBaseFee") (encode_u128 1) in
  let st := SpIo.set st (storage_value_key "Balances" "TransactionByteFee") (encode_u128 1) in
  let st := SpIo.set st (storage_value_key "Balances" "ExistentialDeposit") (encode_u128 1) in
  let st := SpIo.set st (storage_value_key "Sudo" ENCLAVE_ACCOUNT_KEY) (encode account) in
  (create_enclave_self_account st account).1.
End init.

(** ** Execution *)

Section execution.
Context `{Twox} `{Hashers} `{Decode AccountId} `{Blake2} `{Encode TrustedCall}.
Context {PH : Type} `{Pallets PH} `{NodeCalls}.
Implicit Types (st : SgxExternalities).

Definition STF_TX_FEE : Z := 100000000.

Definition is_root st (account : AccountId) : bool :=
  match sudo_key st with Some k => bool_decide (account = k) | None => false end.

Definition burn_funds st (account : AccountId) (amount : Z) : SgxExternalities * result unit StfError :=
  let free := free_balance st account in
  if decide (free < amount)%Z then (st, Err MissingFunds)
  else dispatched "Burn funds error: " (force_set_balance st account (free - amount)).

Definition shield_funds st (account : AccountId) (amount : Z) : outcome (SgxExternalities * result unit StfError) :=
  let fee := (amount / 571)%Z in
  enclave_signer_account st ≫= λ fee_recipient,
  Ret
    match dispatched "Shield funds error: "
            (force_set_balance st fee_recipient (u128_wrap (free_balance st fee_recipient + fee))) with
    | (st, Err e) => (st, Err e)
    | (st, Ok _) =>
        dispatched "Shield funds error: "
          (force_set_balance st account (u128_wrap (u128_wrap (free_balance st account + amount) - fee)))
    end.

(** The calls for the parentchain are pushed last. *)
Definition unshield st (account_incognito beneficiary : AccountId) (value : Z) :
    outcome (SgxExternalities * result (list ParentchainCall) StfError) :=
  enclave_signer_account st ≫= λ fee_recipient,
  let fee := (STF_TX_FEE * 3)%Z in
  Ret
    match dispatched "Balance Unshielding error: " (balances_transfer st account_incognito fee_recipient fee) with
    | (st, Err e) => (st, Err e)
    | (st, Ok _) =>
        match burn_funds st account_incognito value with
        | (st, Err e) => (st, Err e)
        | (st, Ok _) =>
            (st,
             match shard_vault st with
             | None => Err (StfDispatch "shard vault key hasn't been set")
             | Some (vault, parentchain_id) =>
                 match transfer_keep_alive_call_indexes, proxy_call_indexes with
                 | Ok transfer_indexes, Ok proxy_indexes =>
                     Ok [MkParentchainCall parentchain_id
                           (proxy_call proxy_indexes vault (transfer_call transfer_indexes beneficiary value))]
                 | _, _ => Err InvalidMetadata
                 end
             end)
        end
    end.

Definition shield st (call_hash : N) (enclave_account who : AccountId) (value : Z) (parentchain_id : ParentchainId) :
    outcome (SgxExternalities * result (list ParentchainCall) StfError) :=
  ensure_enclave_signer_account st enclave_account ≫= λ res,
  match res with
  | Err e => Ret (st, Err e)
  | Ok _ =>
      match shard_vault st with
      | None => Ret (st, Err NoShardVaultAssigned)
      | Some (_, vault_parentchain_id) =>
          if decide (parentchain_id ≠ vault_parentchain_id) then Ret (st, Err WrongParentchainIdForShardVault)
          else
            shield_funds st who value ≫= λ '(st, res),
            Ret
              match res with
              | Err e => (st, Err e)
              | Ok _ =>
                  (st,
                   match publish_hash_call_indexes with
                   | Ok indexes =>
                       Ok [MkParentchainCall Integritee (publish_hash_call indexes call_hash "shielded some funds!")]
                   | Err _ => Err InvalidMetadata
                   end)
              end
      end
  end.

Definition set_timestamp st (enclave_account : AccountId) (now : Z) (parentchain_id : ParentchainId) :
    outcome (SgxExternalities * result (list ParentchainCall) StfError) :=
  ensure_enclave_signer_account st enclave_account ≫= λ res,
  Ret
    match res with
    | Err e => (st, Err e)
    | Ok _ =>
        let '(st, created) :=
          if decide (parentchain_id = Integritee ∧ parentchain_creation_timestamp Integritee st = None)
          then dispatched "Timestamp Set error: " (parentchain_set_creation_timestamp Integritee st now)
          else (st, Ok tt) in
        match created with
        | Err e => (st, Err e)
        | Ok _ =>
            let '(st, res) := dispatched "Timestamp Set error: " (parentchain_set_now parentchain_id st now) in
            (st, match res with Ok _ => Ok [] | Err e => Err e end)
        end
    end.

Definition transfer_with_fee st (from to : AccountId) (value : Z) :
    outcome (SgxExternalities * result (list ParentchainCall) StfError) :=
  enclave_signer_account st ≫= λ fee_recipient,
  Ret
    match dispatched "Balance Transfer error: " (balances_transfer st from fee_recipient STF_TX_FEE) with
    | (st, Err e) => (st, Err e)
    | (st, Ok _) =>
        let '(st, res) := dispatched "Balance Transfer error: " (balances_transfer st from to value) in
        (st, match res with Ok _ => Ok [] | Err e => Err e end)
    end.

Definition dispatch_call st (call_hash : N) (c : TrustedCall) :
    outcome (SgxExternalities * result (list ParentchainCall) StfError) :=
  match c with
  | noop _ => Ret (st, Ok [])
  | balance_set_balance root who free_balance reserved_balance =>
      Ret
        (if is_root st root then
           let '(st, res) := dispatched "Balance Set Balance error: " (force_set_balance st who free_balance) in
           (st, match res with Ok _ => Ok [] | Err e => Err e end)
         else (st, Err (MissingPrivileges root)))
  | balance_transfer from to value => transfer_with_fee st from to value
  | balance_unshield account_incognito beneficiary value _ => unshield st account_incognito beneficiary value
  | balance_shield enclave_account who value parentchain_id => shield st call_hash enclave_account who value parentchain_id
  | timestamp_set enclave_account now parentchain_id => set_timestamp st enclave_account now parentchain_id
  end.

(** The nonce goes up whether the call succeeds or fails. *)
Definition execute st (c : TrustedCallSigned) : outcome (SgxExternalities * result (list ParentchainCall) StfError) :=
  let sender := call_sender (call c) in
  let call_hash := blake2_256 (encode (call c)) in
  let system_nonce := account_nonce st sender in
  if decide (nonce c ≠ system_nonce) then Ret (st, Err (InvalidNonce (nonce c) system_nonce))
  else dispatch_call (inc_account_nonce st sender) call_hash (call c).
End execution.

(** ** The state transition function *)

Section stf.
Context `{Twox} `{Hashers} `{Decode AccountId} `{Blake2} `{Encode TrustedCall}.
Context {PH : Type} `{Pallets PH} `{NodeCalls}.
Context {KeyPair Mr : Type} `{SignatureScheme KeyPair} `{Encode Z} `{Encode Mr} `{Encode ShardIdentifier}.
Context (error_text : StfError → string).

(** A call panics on a state without the account of the enclave only; [init_state]
    puts it there, and no call takes it away. *)
Definition returned {A} (st : SgxExternalities) (r : outcome (SgxExternalities * result A StfError)) :
    SgxExternalities * result A string :=
  match r with
  | Ret (st, Ok a) => (st, Ok a)
  | Ret (st, Err e) => (st, Err (error_text e))
  | _ => (st, Err "panic"%string)
  end.

Definition trusted_stf : Stf TrustedCallSigned Mr PH := {|
  tcs_verify_signature := verify_signature;
  stf_execute_call st c := returned st (execute st c);
  stf_update_parentchain_integritee_block st h := returned st (Ret (update_parentchain_block Integritee st h));
|}.
End stf.
End Tc.

(** ** Getters (getter.rs) *)

Inductive PublicGetter := some_value.

Inductive TrustedGetter :=
| free_balance_of (who : AccountId)
| reserved_balance_of (who : AccountId)
| nonce_of (who : AccountId).

Module Gt.
Section getters.
Context {KeyPair : Type} `{SignatureScheme KeyPair} `{Encode TrustedGetter} {PH : Type} `{Pallets PH}.
Context (encode_u128 encode_u32 : Z → Bytes).
Abbreviation StfGet := (Getter PublicGetter TrustedGetter).

Definition getter_sender (g : TrustedGetter) : AccountId :=
  match g with free_balance_of who => who | reserved_balance_of who => who | nonce_of who => who end.

Definition sign_getter (g : TrustedGetter) (pair : KeyPair) : StfGet := trusted_getter g (sign pair (encode g)).

Definition verify_getter (g : TrustedGetter) (s : Signature) : bool := verify s (encode g) (getter_sender g).

Definition is_authorized (g : StfGet) : bool :=
  match g with trusted_getter g s => verify_getter g s | public_getter _ => true end.

Definition execute_getter (st : SgxExternalities) (g : StfGet) : option Bytes :=
  match g with
  | trusted_getter (free_balance_of who) _ => Some (encode_u128 (free_balance st who))
  | trusted_getter (reserved_balance_of who) _ => Some (encode_u128 (reserved_balance st who))
  | trusted_getter (nonce_of who) _ => Some (encode_u32 (account_nonce st who))
  | public_getter some_value => Some (encode_u32 42)
  end.

Definition stf_getter : Executor.StfGetter StfGet := {|
  Executor.getter_is_authorized := is_authorized;
  Executor.stf_execute_getter st g := (st, execute_getter st g);
|}.
End getters.
End Gt.
