(* ===== verification/TrustedCallsProps.v ===== *)
(** What the trusted calls do to the balances and the nonces of a shard, on pallets
    that behave as documented. *)

From stdpp Require Import base countable gmap fin_maps numbers strings list.
From S2P Require Import Prelude Collections PoolTypes Externalities SidechainDb Durations StfTypes SidechainState SidechainBlocks StfExecutor.
From S2P Require Import StateHandler BlockImportInv ParentchainImport ConsensusSample OnChain TrustedCalls.

Import Ext(SgxExternalities).
Import Tc.
Open Scope worker_scope.

(** ** Pallets *)

(** A call of a pallet by a trusted call. *)
Inductive pallet_step {PH} `{Pallets PH} (st : SgxExternalities) : SgxExternalities → Prop :=
| ps_transfer from to value : pallet_step st (balances_transfer st from to value).1
| ps_set who value : pallet_step st (force_set_balance st who value).1
| ps_created id now : pallet_step st (parentchain_set_creation_timestamp id st now).1
| ps_now id now : pallet_step st (parentchain_set_now id st now).1.

(** A balance below the existential deposit is removed. *)
Definition keep (deposit b : Z) : Z := if decide (b < deposit)%Z then 0 else b.

(** The balances behind the storage of [System]; a call that fails leaves them.  An
    account without balance is removed with its nonce. *)
Class PalletsLaws (PH : Type) `{Pallets PH} `{Twox} `{Decode AccountId} (existential_deposit : Z) := {
  balances : SgxExternalities → gmap AccountId Z;
  balance_view : ∀ st a, free_balance st a = default 0%Z (balances st !! a);
  balance_range : ∀ st, map_Forall (λ _ b, 0 ≤ b < 2 ^ 128)%Z (balances st);
  transfer_view : ∀ st from to value st' res, balances_transfer st from to value = (st', res) →
    match res with
    | Ok _ => (value ≤ free_balance st from)%Z ∧
        balances st' = if decide (from = to) then balances st
          else <[to := (free_balance st to + value)%Z]>
                 (<[from := keep existential_deposit (free_balance st from - value)]> (balances st))
    | Err _ => balances st' = balances st
    end;
  set_view : ∀ st who value st' res, force_set_balance st who value = (st', res) →
    balances st' = match res with Ok _ => <[who := keep existential_deposit value]> (balances st) | Err _ => balances st end;
  nonce_view : ∀ st a, balances (inc_account_nonce st a) = balances st;
  created_view : ∀ id st now, balances (parentchain_set_creation_timestamp id st now).1 = balances st;
  now_view : ∀ id st now, balances (parentchain_set_now id st now).1 = balances st;
  inc_keeps : ∀ st a, enclave_account (inc_account_nonce st a) = enclave_account st ∧
    ∀ id, parentchain_shard_vault id (inc_account_nonce st a) = parentchain_shard_vault id st;
  step_keeps : ∀ st st', pallet_step st st' →
    enclave_account st' = enclave_account st ∧ ∀ id, parentchain_shard_vault id st' = parentchain_shard_vault id st;
  init_vault_keeps : ∀ id st v, enclave_account (parentchain_init_shard_vault id st v).1 = enclave_account st;
  init_vault_view : ∀ id st v st' res, parentchain_init_shard_vault id st v = (st', res) → ∀ id',
    parentchain_shard_vault id' st' =
      match res with Ok _ => if decide (id' = id) then Some v else parentchain_shard_vault id' st
      | Err _ => parentchain_shard_vault id' st end;
  inc_nonce : ∀ st a b, account_nonce (inc_account_nonce st a) b =
    if decide (a = b) then u32_wrap (account_nonce st a + 1) else account_nonce st b;
  step_nonce : ∀ st st' a, pallet_step st st' →
    account_nonce st' a = account_nonce st a ∨ account_nonce st' a = 0%Z ∧ default 0%Z (balances st' !! a) = 0%Z;
}.

(** What a node reads in a call for it: a transfer out of the account of another, as its
    proxy, or something else. *)
Class NodeCallsLaws `{NodeCalls} := {
  proxied_transfer : OpaqueCall → option (AccountId * AccountId * Z);
  read_transfer : ∀ i j vault to value, proxy_call_indexes = Ok i → transfer_keep_alive_call_indexes = Ok j → (0 ≤ value < 2 ^ 128)%Z →
    proxied_transfer (proxy_call i vault (transfer_call j to value)) = Some (vault, to, value);
  read_publish : ∀ i h text, publish_hash_call_indexes = Ok i → proxied_transfer (publish_hash_call i h text) = None;
}.

(** ** Sums *)

Definition total (m : gmap AccountId Z) : Z := map_fold (λ _ b t, (b + t)%Z) 0%Z m.

Lemma total_insert_fresh m a b : m !! a = None → total (<[a := b]> m) = (b + total m)%Z.
Proof. intros Ha. unfold total. rewrite map_fold_insert_L; [done| |done]. intros. lia. Qed.

Lemma total_insert m a b : total (<[a := b]> m) = (total m - default 0 (m !! a) + b)%Z.
Proof.
  destruct (m !! a) as [c|] eqn:Ha; simpl; [|rewrite total_insert_fresh by done; lia].
  rewrite <-insert_delete_eq, total_insert_fresh by apply lookup_delete_eq.
  rewrite <-(insert_delete_id m a c Ha) at 2. rewrite total_insert_fresh by apply lookup_delete_eq. lia.
Qed.

Lemma keep_le d b : (0 ≤ b)%Z → (0 ≤ keep d b ≤ b)%Z.
Proof. intros Hb. unfold keep. case_decide; lia. Qed.

Section balances.
Context `{Twox} `{Hashers} `{Decode AccountId} `{Blake2} `{Encode TrustedCall}.
Context {PH : Type} `{Pallets PH} {ed : Z} `{!PalletsLaws PH ed} `{NodeCalls}.
Implicit Types (st : SgxExternalities) (c : TrustedCall).

Lemma free_range st a : (0 ≤ free_balance st a < 2 ^ 128)%Z.
Proof.
  rewrite balance_view. destruct (balances st !! a) as [b|] eqn:Hb; [|done]. apply (balance_range st a b Hb).
Qed.

Lemma transfer_total st from to value st' res :
  balances_transfer st from to value = (st', res) → (total (balances st') ≤ total (balances st))%Z.
Proof.
  intros Ht. apply transfer_view in Ht. destruct res as [u|e]; [|by rewrite Ht].
  destruct Ht as [Hv ->]. case_decide as Hd; [done|]. rewrite !total_insert, lookup_insert_ne, !balance_view by done.
  assert (keep ed (free_balance st from - value) ≤ free_balance st from - value)%Z as Hk by (apply keep_le; lia).
  rewrite !balance_view in Hk. lia.
Qed.

Lemma set_total st who value st' res :
  force_set_balance st who value = (st', res) → (0 ≤ value)%Z →
  balances st' = balances st ∧ (∃ e, res = Err e) ∨ (total (balances st') ≤ total (balances st) - free_balance st who + value)%Z.
Proof.
  intros Hs Hv. apply set_view in Hs. destruct res as [u|e]; [right|left; eauto].
  rewrite Hs, total_insert, balance_view. pose proof (keep_le ed value Hv). lia.
Qed.

(** What a call takes out of the shard, and what it can bring in: a call that is refused
    before the funds are shielded brings nothing. *)
Definition payout c (res : result (list ParentchainCall) StfError) : Z :=
  match c, res with balance_unshield _ _ value _, Ok _ => value | _, _ => 0 end.

Definition deposit (enclave : AccountId) c (res : result (list ParentchainCall) StfError) : Z :=
  match c, res with
  | balance_shield a _ value _, (Ok _ | Err (StfDispatch _ | InvalidMetadata)) => if decide (a = enclave) then value else 0
  | _, _ => 0
  end.

(** The amounts are unsigned, and the call is not one of the root account. *)
Definition plain_call c : Prop :=
  match c with
  | balance_set_balance _ _ _ _ => False
  | balance_shield _ _ value _ | balance_unshield _ _ value _ => (0 ≤ value < 2 ^ 128)%Z
  | _ => True
  end.

Lemma unshield_total st e who beneficiary value :
  enclave_account st = Some e → (0 ≤ value)%Z →
  ∃ st' res, unshield st who beneficiary value = Ret (st', res) ∧
    (total (balances st') + match res with Ok _ => value | Err _ => 0 end ≤ total (balances st))%Z.
Proof.
  intros He Hv. unfold unshield, enclave_signer_account. rewrite He. cbn [unwrap mbind outcome_bind].
  destruct (balances_transfer _ _ _ _) as [st1 [u|err]] eqn:Ht; pose proof (transfer_total _ _ _ _ _ _ Ht) as Hle1; cbn [dispatched fst snd].
  2: { eexists _, _. split; [done|]. cbn beta iota. lia. }
  unfold burn_funds. case_decide as Hlt. { eexists _, _. split; [done|]. cbn beta iota. lia. }
  destruct (force_set_balance _ _ _) as [st2 [u2|err]] eqn:Hs; cbn [dispatched fst snd].
  - destruct (set_total _ _ _ _ _ Hs) as [[_ [? ?]]|Hle2]; [lia|done|].
    destruct (shard_vault st2) as [[v id]|]; [|eexists _, _; split; [done|]; cbn beta iota; lia].
    destruct transfer_keep_alive_call_indexes, proxy_call_indexes; (eexists _, _; split; [done|]; cbn beta iota; lia).
  - eexists _, _. split; [done|]. apply set_view in Hs. cbn beta iota in *. rewrite Hs. lia.
Qed.

Lemma u128_wrap_le z : (0 ≤ z)%Z → (0 ≤ u128_wrap z ≤ z)%Z.
Proof. intros Hz. unfold u128_wrap. split; [apply Z.mod_pos_bound; lia|apply Z.mod_le; lia]. Qed.

Lemma u128_wrap_sub a b : u128_wrap (u128_wrap a - b) = u128_wrap (a - b).
Proof. unfold u128_wrap. apply Zminus_mod_idemp_l. Qed.

Lemma shield_funds_total st e who amount :
  enclave_account st = Some e → (0 ≤ amount < 2 ^ 128)%Z →
  ∃ st' res, shield_funds st who amount = Ret (st', res) ∧ (total (balances st') ≤ total (balances st) + amount)%Z ∧
    ∀ err, res = Err err → ∃ msg, err = StfDispatch msg.
Proof.
  intros He Ha. unfold shield_funds, enclave_signer_account. rewrite He. cbn [unwrap mbind outcome_bind].
  assert (0 ≤ amount / 571 ≤ amount)%Z as Hfee.
  { split; [apply Z.div_pos; lia|]. apply Z.div_le_upper_bound; lia. }
  pose proof (free_range st e) as Hfe.
  assert (0 ≤ u128_wrap (free_balance st e + amount / 571) ≤ free_balance st e + amount / 571)%Z as Hw1 by (apply u128_wrap_le; lia).
  destruct (force_set_balance st e _) as [st1 [u|err]] eqn:Hs1; cbn [dispatched fst snd];
    (destruct (set_total _ _ _ _ _ Hs1) as [[Hb1 [? ?]]|Hle1]; [apply u128_wrap_le; lia|try done|]).
  2: { eexists _, _. split; [done|]. rewrite Hb1. split; [lia|]. intros ? [= <-]. by eexists. }
  2: { eexists _, _. split; [done|]. split; [lia|]. intros ? [= <-]. by eexists. }
  pose proof (free_range st1 who) as Hfw.
  rewrite u128_wrap_sub. set (new := (free_balance st1 who + amount - amount / 571)%Z).
  assert (0 ≤ u128_wrap new ≤ new)%Z as Hw2 by (apply u128_wrap_le; lia).
  destruct (force_set_balance st1 who _) as [st2 res] eqn:Hs2. cbn [dispatched fst snd].
  destruct (set_total _ _ _ _ _ Hs2) as [[Hb2 _]|Hle2]; [apply u128_wrap_le; lia| |];
    (eexists _, _; split; [done|]; cbn [fst]; split; [rewrite ?Hb2; lia|]; destruct res; [done|intros ? [= <-]; by eexists]).
Qed.

Lemma shield_total st h e a who value id :
  enclave_account st = Some e → (0 ≤ value < 2 ^ 128)%Z →
  ∃ st' res, shield st h a who value id = Ret (st', res) ∧
    (total (balances st') ≤ total (balances st) + deposit e (balance_shield a who value id) res)%Z.
Proof.
  intros He Hv. unfold shield, ensure_enclave_signer_account, enclave_signer_account. rewrite He. cbn [unwrap mbind outcome_bind].
  destruct (decide (e = a)) as [<-|Hne]; [|eexists _, _; split; [done|]; cbn [deposit]; lia].
  destruct (shard_vault st) as [[v vid]|]; [|eexists _, _; split; [done|]; cbn [deposit]; lia].
  case_decide; [eexists _, _; split; [done|]; cbn [deposit]; lia|].
  destruct (shield_funds_total st e who value He Hv) as (st' & res & -> & Hle & Herr). cbn [mbind outcome_bind].
  unfold deposit. destruct res as [u|err]; [|specialize (Herr err eq_refl) as [msg ->]; eexists _, _; split; [done|]; by rewrite decide_True].
  destruct publish_hash_call_indexes; (eexists _, _; split; [done|]; by rewrite decide_True).
Qed.

Lemma transfer_with_fee_total st e from to value :
  enclave_account st = Some e →
  ∃ st' res, transfer_with_fee st from to value = Ret (st', res) ∧ (total (balances st') ≤ total (balances st))%Z.
Proof.
  intros He. unfold transfer_with_fee, enclave_signer_account. rewrite He. cbn [unwrap mbind outcome_bind].
  destruct (balances_transfer _ _ e _) as [st1 [u|err]] eqn:Ht1; pose proof (transfer_total _ _ _ _ _ _ Ht1) as Hle1;
    cbn [dispatched fst snd]; [|by eexists _, _].
  destruct (balances_transfer _ _ to _) as [st2 res] eqn:Ht2. pose proof (transfer_total _ _ _ _ _ _ Ht2) as Hle2.
  eexists _, _. split; [done|]. cbn. lia.
Qed.

Lemma set_timestamp_total st e a now id :
  enclave_account st = Some e →
  ∃ st' res, set_timestamp st a now id = Ret (st', res) ∧ balances st' = balances st.
Proof.
  intros He. unfold set_timestamp, ensure_enclave_signer_account, enclave_signer_account. rewrite He. cbn [unwrap mbind outcome_bind].
  case_decide; [|by eexists _, _]. cbn [mbind outcome_bind].
  pose proof (created_view Integritee st now) as Hc. pose proof (now_view id) as Hn.
  case_decide; [destruct (parentchain_set_creation_timestamp _ _ _) as [st1 [u|err]]; cbn in *|cbn]; [|by eexists _, _|].
  - specialize (Hn st1 now). destruct (parentchain_set_now _ _ _) as [st2 [u2|err]]; cbn in *; (eexists _, _; split; [done|]; congruence).
  - specialize (Hn st now). destruct (parentchain_set_now _ _ _) as [st2 [u2|err]]; cbn in *; by eexists _, _.
Qed.

Lemma dispatch_total st h e c :
  enclave_account st = Some e → plain_call c →
  ∃ st' res, dispatch_call st h c = Ret (st', res) ∧
    (total (balances st') + payout c res ≤ total (balances st) + deposit e c res)%Z.
Proof.
  intros He Hc. destruct c as [who|? ? ? ?|from to value|who ben value shard|a who value id|a now id]; cbn [dispatch_call payout deposit].
  - eexists _, _. split; [done|]. cbn beta iota. lia.
  - done.
  - destruct (transfer_with_fee_total st e from to value He) as (st' & res & -> & Hle). eexists _, _. split; [done|]. cbn beta iota. lia.
  - destruct (unshield_total st e who ben value He ltac:(cbn in Hc; lia)) as (st' & res & -> & Hle). eexists _, _. split; [done|]. destruct res; lia.
  - destruct (shield_total st h e a who value id He Hc) as (st' & res & -> & Hle). eexists _, _. split; [done|]. cbn [deposit] in Hle. lia.
  - destruct (set_timestamp_total st e a now id He) as (st' & res & -> & Hb). eexists _, _. split; [done|]. rewrite Hb. lia.
Qed.

(** ** Steps of the pallets *)

Lemma step_of_transfer st from to value st' res : balances_transfer st from to value = (st', res) → pallet_step st st'.
Proof. intros Ht. replace st' with (balances_transfer st from to value).1 by (by rewrite Ht). constructor. Qed.

Lemma step_of_set st who value st' res : force_set_balance st who value = (st', res) → pallet_step st st'.
Proof. intros Ht. replace st' with (force_set_balance st who value).1 by (by rewrite Ht). constructor. Qed.

Lemma step_of_created id st now st' res : parentchain_set_creation_timestamp id st now = (st', res) → pallet_step st st'.
Proof. intros Ht. replace st' with (parentchain_set_creation_timestamp id st now).1 by (by rewrite Ht). constructor. Qed.

Lemma step_of_now id st now st' res : parentchain_set_now id st now = (st', res) → pallet_step st st'.
Proof. intros Ht. replace st' with (parentchain_set_now id st now).1 by (by rewrite Ht). constructor. Qed.

Ltac follow_step :=
  first [eapply step_of_transfer; eassumption | eapply step_of_set; eassumption
    | eapply step_of_created; eassumption | eapply step_of_now; eassumption].

Ltac follow_steps := first [apply rtc_refl | eapply rtc_l; [follow_step|]; follow_steps].

(** Every call goes through the pallets. *)
Ltac pallet_steps :=
  repeat match goal with
  | |- context [enclave_signer_account ?st] => unfold enclave_signer_account; destruct (enclave_account st); cbn [unwrap mbind outcome_bind]; try done
  | |- context [ensure_enclave_signer_account _ _] => unfold ensure_enclave_signer_account
  | |- context [match decide ?P with _ => _ end] => destruct (decide P); cbn [mbind outcome_bind]
  | |- context [balances_transfer ?a ?b ?c ?d] => destruct (balances_transfer a b c d) as [? [?|?]] eqn:?; cbn [dispatched fst snd]
  | |- context [force_set_balance ?a ?b ?c] => destruct (force_set_balance a b c) as [? [?|?]] eqn:?; cbn [dispatched fst snd]
  | |- context [parentchain_set_creation_timestamp ?a ?b ?c] =>
      destruct (parentchain_set_creation_timestamp a b c) as [? [?|?]] eqn:?; cbn [dispatched fst snd]
  | |- context [parentchain_set_now ?a ?b ?c] => destruct (parentchain_set_now a b c) as [? [?|?]] eqn:?; cbn [dispatched fst snd]
  | |- context [if is_root _ _ then _ else _] => destruct (is_root _ _)
  | |- context [match shard_vault ?st with _ => _ end] => destruct (shard_vault st) as [[? ?]|]
  | |- Ret _ = Ret _ → _ => let Heq := fresh in intros Heq; injection Heq as <- _; follow_steps
  end.

Lemma dispatch_steps st h c st' res : dispatch_call st h c = Ret (st', res) → rtc pallet_step st st'.
Proof.
  destruct c; cbn [dispatch_call];
    unfold transfer_with_fee, unshield, shield, set_timestamp, burn_funds, shield_funds, ensure_enclave_signer_account; pallet_steps.
Qed.

Lemma steps_keep st st' : rtc pallet_step st st' →
  enclave_account st' = enclave_account st ∧ ∀ id, parentchain_shard_vault id st' = parentchain_shard_vault id st.
Proof.
  induction 1 as [|x y z Hs _ [IH1 IH2]]; [done|]. destruct (step_keeps _ _ Hs) as [H1' H2']. split; [congruence|].
  intros id. by rewrite IH2.
Qed.

Lemma steps_nonce st st' a : rtc pallet_step st st' → account_nonce st' a = account_nonce st a ∨ account_nonce st' a = 0%Z.
Proof.
  induction 1 as [|x y z Hs _ IH]; [by left|]. destruct (step_nonce _ _ a Hs) as [Hn|[Hz _]]; [rewrite <-Hn; done|].
  right. destruct IH as [IH|IH]; [by rewrite IH|done].
Qed.

Lemma u32_succ_ne z : (0 ≤ z < 2 ^ 32)%Z → z ≠ u32_wrap (z + 1).
Proof.
  intros Hz. unfold u32_wrap. destruct (decide (z + 1 = 2 ^ 32)%Z) as [Htop|Hlt]; [rewrite Htop, Z.mod_same by done; lia|].
  rewrite Z.mod_small; lia.
Qed.

Lemma ret_pair {A B} (p : A * B) : ∃ a b, Ret p = Ret (a, b).
Proof. destruct p. by eexists _, _. Qed.

Lemma dispatch_returns st h e c : enclave_account st = Some e → ∃ st' res, dispatch_call st h c = Ret (st', res).
Proof.
  intros He. destruct c as [who|root who f r|from to value|who ben value shard|a who value id|a now id]; cbn [dispatch_call].
  - by eexists _, _.
  - destruct (is_root st root); [|by eexists _, _]. destruct (force_set_balance _ _ _) as [st1 res]. by eexists _, _.
  - destruct (transfer_with_fee_total st e from to value He) as (st' & res & -> & _). by eexists _, _.
  - unfold unshield, enclave_signer_account. rewrite He. apply ret_pair.
  - unfold shield, ensure_enclave_signer_account, enclave_signer_account. rewrite He. cbn.
    case_decide; [|by eexists _, _]. cbn. destruct (shard_vault st) as [[v vid]|]; [|by eexists _, _]. case_decide; [by eexists _, _|].
    unfold shield_funds, enclave_signer_account. rewrite He. cbn [unwrap mbind outcome_bind].
    destruct (match _ with (_, Ok _) => _ | _ => _ end). apply ret_pair.
  - destruct (set_timestamp_total st e a now id He) as (st' & res & -> & _). by eexists _, _.
Qed.

Lemma execute_steps st e (c : TrustedCallSigned) :
  enclave_account st = Some e →
  ∃ st' res, execute st c = Ret (st', res) ∧ enclave_account st' = Some e ∧
    (∀ id, parentchain_shard_vault id st' = parentchain_shard_vault id st) ∧
    if decide (nonce c = account_nonce st (call_sender (call c)))
    then rtc pallet_step (inc_account_nonce st (call_sender (call c))) st' ∧
      dispatch_call (inc_account_nonce st (call_sender (call c))) (blake2_256 (encode (call c))) (call c) = Ret (st', res)
    else st' = st ∧ res = Err (InvalidNonce (nonce c) (account_nonce st (call_sender (call c)))).
Proof.
  intros He. unfold execute. destruct (decide (nonce c = _)) as [Hn|Hn].
  2: { rewrite decide_True by done. by eexists _, _. }
  rewrite decide_False by (by intros []). set (st1 := inc_account_nonce st _).
  destruct (inc_keeps st (call_sender (call c))) as [Hk1 Hk2]. fold st1 in Hk1, Hk2.
  destruct (dispatch_returns st1 (blake2_256 (encode (call c))) e (call c)) as (st' & res & Hd); [congruence|].
  pose proof (dispatch_steps _ _ _ _ _ Hd) as Hs. destruct (steps_keep _ _ Hs) as [Hk3 Hk4].
  exists st', res. split; [done|]. split; [congruence|]. split; [|done]. intros id. by rewrite Hk4, Hk2.
Qed.

(** The first state has the account of the enclave. *)
Lemma init_state_account `{Encode AccountId} `{!Codec AccountId} (encode_u128 : Z → Bytes) a :
  enclave_account (init_state encode_u128 a) = Some a.
Proof.
  unfold init_state, create_enclave_self_account. cbn [dispatched fst].
  rewrite (proj1 (step_keeps _ _ (ps_set _ a 1000))).
  unfold enclave_account, get_storage_value, get_storage_by_key_hash, SpIo.get, SpIo.set, Ext.get, Ext.insert. cbn [fst Ext.state].
  by rewrite lookup_insert_eq, decode_encode.
Qed.

(** *** Runs *)

Fixpoint run_calls st (cs : list TrustedCallSigned) :
    outcome (SgxExternalities * list (result (list ParentchainCall) StfError)) :=
  match cs with
  | [] => Ret (st, [])
  | c :: cs => execute st c ≫= λ '(st, res), run_calls st cs ≫= λ '(st, l), Ret (st, res :: l)
  end.

Definition sum (l : list Z) : Z := foldr Z.add 0%Z l.

Lemma sum_cons z l : sum (z :: l) = (z + sum l)%Z.
Proof. done. Qed.

(** *** What a node is asked to pay *)

Section payouts.
Context `{!NodeCallsLaws}.

(** The transfers in the calls of a result, with the parentchain they are for. *)
Definition transfers (res : result (list ParentchainCall) StfError) : list (ParentchainId * (AccountId * AccountId * Z)) :=
  match res with
  | Ok calls => omap (λ '(MkParentchainCall id call), pair id <$> proxied_transfer call) calls
  | Err _ => []
  end.

(** What is taken out of vaults by them. *)
Definition outflow (res : result (list ParentchainCall) StfError) : Z := sum ((λ t, t.2.2) <$> transfers res).

(** The transfer that a call asks for: one out of the vault of the shard, for an
    unshielding that succeeded. *)
Definition due (vault : option (AccountId * ParentchainId)) c (res : result (list ParentchainCall) StfError) :
    list (ParentchainId * (AccountId * AccountId * Z)) :=
  match c, res, vault with
  | balance_unshield _ beneficiary value _, Ok _, Some (account, id) => [(id, (account, beneficiary, value))]
  | _, _, _ => []
  end.

Lemma vault_kept st st' : (∀ id, parentchain_shard_vault id st' = parentchain_shard_vault id st) → shard_vault st' = shard_vault st.
Proof. intros Hk. unfold shard_vault, get_shard_vaults. cbn. by rewrite !Hk. Qed.

Lemma unshield_transfers st who beneficiary value shard st' res :
  (0 ≤ value < 2 ^ 128)%Z → unshield st who beneficiary value = Ret (st', res) →
  let c := balance_unshield who beneficiary value shard in
  transfers res = due (shard_vault st) c res ∧ outflow res = payout c res.
Proof.
  intros Hv Hu. pose proof (dispatch_steps st 0%N (balance_unshield who beneficiary value shard) st' res Hu) as Hs.
  rewrite <-(vault_kept st st' (proj2 (steps_keep _ _ Hs))). clear Hs. revert Hu. unfold unshield, enclave_signer_account.
  destruct (enclave_account st) as [e|]; [|done]. cbn [unwrap mbind outcome_bind].
  destruct (dispatched _ (balances_transfer _ _ _ _)) as [st1 [u|err]]; [|by intros [= <- <-]].
  destruct (burn_funds st1 who value) as [st2 [u2|err]]; [|by intros [= <- <-]].
  intros [= <- <-]. destruct (shard_vault st2) as [[v id]|]; [|done].
  destruct transfer_keep_alive_call_indexes as [i|] eqn:Hi, proxy_call_indexes as [j|] eqn:Hj; try done.
  unfold outflow. cbn. rewrite (read_transfer j i v beneficiary value Hj Hi Hv). cbn. split; [done|lia].
Qed.

Lemma dispatch_transfers st h c st' res :
  plain_call c → dispatch_call st h c = Ret (st', res) →
  transfers res = due (shard_vault st) c res ∧ outflow res = payout c res.
Proof.
  intros Hc. destruct c as [who|? ? ? ?|from to value|who ben value shard|a who value id|a now id]; cbn [dispatch_call].
  - by intros [= _ <-].
  - done.
  - unfold transfer_with_fee. destruct (enclave_signer_account st); [|done..]. cbn [mbind outcome_bind].
    destruct (dispatched _ _) as [st1 [u|e]]; [|by intros [= _ <-]]. destruct (dispatched _ (balances_transfer st1 _ _ _)) as [st2 [u2|e]]; by intros [= _ <-].
  - by apply unshield_transfers.
  - unfold shield. destruct (ensure_enclave_signer_account st a) as [[u|e]| |]; [|by intros [= _ <-]|done..]. cbn [mbind outcome_bind].
    destruct (shard_vault st) as [[v vid]|]; [|by intros [= _ <-]]. case_decide; [by intros [= _ <-]|].
    destruct (shield_funds st who value) as [[st1 [u1|e]]| |]; [|by intros [= _ <-]|done..]. cbn [mbind outcome_bind].
    destruct publish_hash_call_indexes as [i|] eqn:Hi; intros [= _ <-]; [|done]. unfold outflow. cbn. by rewrite (read_publish i _ _ Hi).
  - unfold set_timestamp. destruct (ensure_enclave_signer_account st a) as [[u|e]| |]; [|by intros [= _ <-]|done..]. cbn [mbind outcome_bind].
    destruct (if decide _ then _ else _) as [st1 [u1|e]]; [|by intros [= _ <-]].
    destruct (dispatched _ (parentchain_set_now _ _ _)) as [st2 [u2|e]]; by intros [= _ <-].
Qed.

(** One call. *)
Lemma execute_backed st e (c : TrustedCallSigned) :
  enclave_account st = Some e → plain_call (call c) →
  ∃ st' res, execute st c = Ret (st', res) ∧ enclave_account st' = Some e ∧ shard_vault st' = shard_vault st ∧
    (total (balances st') + outflow res ≤ total (balances st) + deposit e (call c) res)%Z ∧
    transfers res = due (shard_vault st) (call c) res.
Proof.
  intros He Hc. destruct (execute_steps st e c He) as (st1 & res & -> & He1 & Hv & Hd). exists st1, res.
  split; [done|]. split; [done|]. split; [by apply vault_kept|]. case_decide.
  - destruct Hd as [_ Hd]. set (st0 := inc_account_nonce st (call_sender (call c))) in *. destruct (inc_keeps st (call_sender (call c))) as [Hk1 Hk2].
    destruct (dispatch_total st0 (blake2_256 (encode (call c))) e (call c)) as (st1' & res' & Hd' & Hle'); [by unfold st0; rewrite Hk1|done|].
    rewrite Hd in Hd'. injection Hd' as <- <-. destruct (dispatch_transfers _ _ _ _ _ Hc Hd) as [Ht ->].
    unfold st0 in Hle', Ht. rewrite nonce_view in Hle'. by rewrite (vault_kept st _ Hk2) in Ht.
  - destruct Hd as [-> ->]. split; [|by destruct (call c)]. unfold outflow. cbn. destruct (call c); cbn; lia.
Qed.

(** C6: Whatever trusted calls are executed, other than those of root, the balances of the
    shard together with what the parentchains are asked to pay out of the vault exceed
    what they were at the start by no more than the enclave's own shielding calls
    brought in.  What the parentchains are asked to pay is read from the calls that are
    sent to them: one transfer out of the vault of the shard for each unshielding that
    succeeded, to its beneficiary and of its value, and no other. *)
Theorem shielded_funds_stay_backed st e (cs : list TrustedCallSigned) :
  enclave_account st = Some e → Forall (plain_call ∘ call) cs →
  ∃ st' results, run_calls st cs = Ret (st', results) ∧
    (total (balances st') + sum (outflow <$> results) ≤
     total (balances st) + sum (zip_with (deposit e ∘ call) cs results))%Z ∧
    Forall2 (λ (c : TrustedCallSigned) res, transfers res = due (shard_vault st) (call c) res) cs results.
Proof.
  intros He Hcs. revert st He. induction Hcs as [|c cs Hc _ IH]; intros st He; cbn [run_calls].
  { eexists _, _. split; [done|]. cbn. split; [lia|constructor]. }
  destruct (execute_backed st e c He Hc) as (st1 & res & -> & He1 & Hv & Hle1 & Ht). cbn [mbind outcome_bind].
  destruct (IH st1 He1) as (st2 & results & -> & Hle & Hts). cbn [mbind outcome_bind]. eexists _, _. split; [done|].
  rewrite Hv in Hts. split; [|by constructor]. rewrite fmap_cons. cbn [zip_with]. rewrite !sum_cons. unfold compose in *. lia.
Qed.
End payouts.

(** *** How often a signed call runs *)

Lemma execute_refused st (c : TrustedCallSigned) :
  nonce c ≠ account_nonce st (call_sender (call c)) →
  execute st c = Ret (st, Err (InvalidNonce (nonce c) (account_nonce st (call_sender (call c))))).
Proof. intros Hn. unfold execute. by rewrite decide_True. Qed.

(** The nonce of an account stays, goes up by one, or is zero again. *)
Lemma execute_nonce st e (c : TrustedCallSigned) a :
  enclave_account st = Some e →
  ∃ st' res, execute st c = Ret (st', res) ∧ enclave_account st' = Some e ∧
    (account_nonce st' a = account_nonce st a ∨ account_nonce st' a = u32_wrap (account_nonce st a + 1) ∨ account_nonce st' a = 0%Z).
Proof.
  intros He. destruct (execute_steps st e c He) as (st' & res & -> & He' & _ & Hd). exists st', res. split; [done|]. split; [done|].
  case_decide; [|destruct Hd as [-> _]; by left]. destruct Hd as [Hs _]. destruct (steps_nonce _ _ a Hs) as [->| ->]; [|by auto].
  rewrite inc_nonce. case_decide as Heq; [rewrite Heq; auto|by left].
Qed.

(** While it is not zero the nonce of an account does not go down. *)
Lemma run_nonce st e (cs : list TrustedCallSigned) a :
  enclave_account st = Some e → (0 ≤ account_nonce st a < 2 ^ 32)%Z →
  ∃ st' results, run_calls st cs = Ret (st', results) ∧
    ((∀ k stk l, run_calls st (take k cs) = Ret (stk, l) → account_nonce stk a ≠ 0%Z) → (account_nonce st a ≤ account_nonce st' a)%Z).
Proof.
  revert st. induction cs as [|c cs IH]; intros st He Hr; cbn [run_calls]; [by exists st, []|].
  destruct (execute_nonce st e c a He) as (st1 & res & Hex & He1 & Hn). rewrite Hex. cbn [mbind outcome_bind].
  assert (0 ≤ account_nonce st1 a < 2 ^ 32)%Z as Hr1.
  { destruct Hn as [->|[->| ->]]; [done| |lia]. unfold u32_wrap. apply Z.mod_pos_bound. lia. }
  destruct (IH st1 He1 Hr1) as (st2 & results & Hrun & Hle). rewrite Hrun. cbn [mbind outcome_bind]. exists st2, (res :: results).
  split; [done|]. intros Hnz.
  assert (account_nonce st1 a ≠ 0%Z) as Hnz1 by (apply (Hnz 1%nat st1 [res]); cbn; rewrite take_0; cbn [run_calls]; by rewrite Hex).
  assert (account_nonce st a ≤ account_nonce st1 a)%Z as Hle1.
  { destruct Hn as [->|[Hn|Hn]]; [lia| |done]. rewrite Hn in Hnz1 |- *. revert Hnz1. unfold u32_wrap.
    destruct (decide (account_nonce st a + 1 = 2 ^ 32)%Z) as [->|]; [by rewrite Z.mod_same|]. intros _. rewrite Z.mod_small; lia. }
  etransitivity; [exact Hle1|]. apply Hle. intros k stk l Hk. apply (Hnz (S k) stk (res :: l)). cbn. rewrite Hex. cbn [mbind outcome_bind]. by rewrite Hk.
Qed.

(** C24: A signed call runs once.  It is refused, without effect, unless its nonce is the
    one of its sender.  When it has run it is refused after any further calls, as
    long as the nonce of its sender has not been zero since: neither was the account
    removed for lack of funds, which sets the nonce back to zero, nor was the
    counter used up.  After that the call can run again. *)
Theorem signed_call_runs_once st e (c : TrustedCallSigned) :
  enclave_account st = Some e → (0 ≤ nonce c < 2 ^ 32)%Z →
  let sender := call_sender (call c) in
  ∃ st' res, execute st c = Ret (st', res) ∧
    (nonce c ≠ account_nonce st sender → st' = st ∧ res = Err (InvalidNonce (nonce c) (account_nonce st sender))) ∧
    (nonce c = account_nonce st sender →
      account_nonce st' sender ∈ [u32_wrap (nonce c + 1); 0%Z] ∧
      ∀ cs, ∃ st2 results, run_calls st' cs = Ret (st2, results) ∧
        ((∀ k stk l, run_calls st' (take k cs) = Ret (stk, l) → account_nonce stk sender ≠ 0%Z) →
          execute st2 c = Ret (st2, Err (InvalidNonce (nonce c) (account_nonce st2 sender))))).
Proof.
  intros He Hn sender. destruct (execute_steps st e c He) as (st' & res & -> & He' & _ & Hd). fold sender in Hd.
  exists st', res. split; [done|]. case_decide as Heq; [|split; [done|tauto]]. split; [tauto|]. intros _.
  assert (account_nonce st' sender ∈ [u32_wrap (nonce c + 1); 0%Z]) as Hin.
  { destruct Hd as [Hs _]. destruct (steps_nonce _ _ sender Hs) as [->| ->]; [|set_solver].
    rewrite inc_nonce, decide_True, <-Heq by done. set_solver. }
  split; [done|]. rewrite elem_of_cons, list_elem_of_singleton in Hin. intros cs.
  destruct (run_nonce st' e cs sender He') as (st2 & results & Hrun & Hle).
  { destruct Hin as [->| ->]; [|lia]. unfold u32_wrap. apply Z.mod_pos_bound. lia. }
  exists st2, results. split; [done|]. intros Hnz. apply execute_refused. fold sender. specialize (Hle Hnz).
  assert (account_nonce st' sender ≠ 0%Z) as Hnz1 by (by apply (Hnz 0%nat st' [])). destruct Hin as [Hin|Hin]; [|done].
  rewrite Hin in Hle, Hnz1. revert Hnz1 Hle. unfold u32_wrap.
  destruct (decide (nonce c + 1 = 2 ^ 32)%Z) as [->|]; [by rewrite Z.mod_same|]. rewrite Z.mod_small; lia.
Qed.

(** Unshielding before the shard has a vault fails, but the amount is gone. *)
Theorem unshield_without_vault_burns st e (c : TrustedCallSigned) who beneficiary value shard st1 st2 :
  enclave_account st = Some e → (∀ id, parentchain_shard_vault id st = None) →
  call c = balance_unshield who beneficiary value shard → nonce c = account_nonce st who → who ≠ e →
  balances_transfer (inc_account_nonce st who) who e (STF_TX_FEE * 3) = (st1, Ok tt) →
  (value ≤ free_balance st1 who)%Z →
  force_set_balance st1 who (free_balance st1 who - value) = (st2, Ok tt) →
  execute st c = Ret (st2, Err (StfDispatch "shard vault key hasn't been set")) ∧
    free_balance st2 who = keep ed (keep ed (free_balance st who - STF_TX_FEE * 3) - value).
Proof.
  intros He Hv Hc Hn Hne Ht Hle Hs. destruct (inc_keeps st who) as [Hk1 Hk2].
  pose proof (step_keeps _ _ (step_of_transfer _ _ _ _ _ _ Ht)) as [Hk3 Hk4].
  pose proof (step_keeps _ _ (step_of_set _ _ _ _ _ Hs)) as [Hk5 Hk6]. split.
  - unfold execute. rewrite Hc. cbn [call_sender]. rewrite Hn, decide_False by (by intros []). cbn [dispatch_call].
    unfold unshield, enclave_signer_account. rewrite Hk1, He. cbn [unwrap mbind outcome_bind]. rewrite Ht. cbn [dispatched fst snd].
    unfold burn_funds. rewrite decide_False by lia. rewrite Hs. cbn [dispatched fst snd].
    assert (shard_vault st2 = None) as ->; [|done].
    unfold shard_vault, get_shard_vaults. cbn. by rewrite !Hk6, !Hk4, !Hk2, !Hv.
  - apply transfer_view in Ht as [Hf Ht]. apply set_view in Hs. rewrite decide_False in Ht by done.
    assert (free_balance st1 who = keep ed (free_balance st who - STF_TX_FEE * 3)) as <-.
    { rewrite balance_view, Ht, lookup_insert_ne, lookup_insert_eq by done. cbn. by rewrite !balance_view, nonce_view. }
    by rewrite balance_view, Hs, lookup_insert_eq.
Qed.

(** ** The vault *)

Inductive stf_operation :=
| Execute (c : TrustedCallSigned)
| InitVault (vault : AccountId) (id : ParentchainId).

Definition run_operation st (op : stf_operation) : outcome SgxExternalities :=
  match op with
  | Execute c => execute st c ≫= λ '(st, _), Ret st
  | InitVault vault id => Ret (init_shard_vault_account st vault id).1
  end.

Lemma run_operation_vault st e op :
  enclave_account st = Some e → (length (get_shard_vaults st) ≤ 1)%nat →
  ∃ st', run_operation st op = Ret st' ∧ enclave_account st' = Some e ∧ (length (get_shard_vaults st') ≤ 1)%nat ∧
    (∀ v, shard_vault st = Some v → shard_vault st' = Some v).
Proof.
  intros He Hl. destruct op as [c|v id]; cbn [run_operation].
  - destruct (execute_steps st e c He) as (st' & res & -> & He' & Hk & _). exists st'. split; [done|]. split; [done|].
    unfold shard_vault, get_shard_vaults in *. cbn in *. by rewrite !Hk.
  - eexists. split; [done|]. unfold init_shard_vault_account, get_shard_vault_ensure_single_parentchain, shard_vault.
    destruct (get_shard_vaults st) as [|[v1 id1] [|? ?]] eqn:Hvs; [|cbn [fst]; rewrite Hvs; cbn; auto|cbn in Hl; lia].
    pose proof (init_vault_keeps id st v) as Hk. destruct (parentchain_init_shard_vault id st v) as [st' res] eqn:Hi.
    cbn in Hk |- *. split; [congruence|]. split; [|done]. pose proof (init_vault_view _ _ _ _ _ Hi) as Hv.
    unfold get_shard_vaults in Hvs |- *. cbn in Hvs |- *.
    rewrite !Hv. destruct (parentchain_shard_vault Integritee st); [done|]. destruct (parentchain_shard_vault TargetA st); [done|].
    destruct (parentchain_shard_vault TargetB st); [done|]. destruct res; [|cbn; lia].
    destruct id; repeat (case_decide; [done || cbn|]); done || (cbn; lia).
Qed.

(** A shard has one vault, on one parentchain, and keeps it. *)
Theorem shard_vault_is_fixed st e (ops : list stf_operation) :
  enclave_account st = Some e → (length (get_shard_vaults st) ≤ 1)%nat →
  ∃ st', for_each run_operation st ops = Ret st' ∧ (length (get_shard_vaults st') ≤ 1)%nat ∧
    (∀ v, shard_vault st = Some v → shard_vault st' = Some v).
Proof.
  revert st. induction ops as [|op ops IH]; intros st He Hl; [by exists st|].
  destruct (run_operation_vault st e op He Hl) as (st1 & Hr & He1 & Hl1 & Hv1). erewrite for_each_cons by exact Hr.
  destruct (IH st1 He1 Hl1) as (st2 & -> & Hl2 & Hv2). exists st2. eauto 10.
Qed.
End balances.

(** ** The interface of the STF *)

(** The pallets work on the storage, and leave the number and the last block of the
    sidechain alone. *)
Class PalletsStorage (PH : Type) `{Pallets PH} `{Twox} `{EncodeAppend} : Prop := {
  inc_storage : ∀ st a, ExtInv.reaches st (inc_account_nonce st a);
  step_storage : ∀ st st', pallet_step st st' → ExtInv.reaches st st';
  block_storage : ∀ id st h, ExtInv.reaches st (parentchain_set_block id st h).1;
  inc_system : ∀ st a name, name ∈ ["Number"; "LastBlock"]%string →
    Ext.get (inc_account_nonce st a) (storage_value_key "System" name) = Ext.get st (storage_value_key "System" name);
  step_system : ∀ st st' name, pallet_step st st' → name ∈ ["Number"; "LastBlock"]%string →
    Ext.get st' (storage_value_key "System" name) = Ext.get st (storage_value_key "System" name);
  block_system : ∀ id st h name, name ∈ ["Number"; "LastBlock"]%string →
    Ext.get (parentchain_set_block id st h).1 (storage_value_key "System" name) = Ext.get st (storage_value_key "System" name);
}.

Section interface.
Context `{Twox} `{Hashers} `{Decode AccountId} `{Blake2} `{Encode TrustedCall} `{EncodeAppend}.
Context {PH : Type} `{Pallets PH} `{!PalletsStorage PH} `{NodeCalls}.
Context {KeyPair Mr : Type} `{SignatureScheme KeyPair} `{Encode Z} `{Encode Mr} `{Encode ShardIdentifier}.
Context (error_text : StfError → string).
#[local] Existing Instance trusted_stf.

(** A call that has an effect works through the pallets. *)
Lemma call_steps st (c : TrustedCallSigned) :
  let st' := (returned error_text st (execute st c)).1 in
  st' = st ∨ rtc pallet_step (inc_account_nonce st (call_sender (call c))) st'.
Proof.
  unfold execute. case_decide; [by left|]. destruct (dispatch_call _ _ _) as [[st' [l|e]]| |] eqn:Hd; cbn; [| |by left..];
    right; by eapply dispatch_steps.
Qed.

Lemma steps_storage st st' : rtc pallet_step st st' → ExtInv.reaches st st'.
Proof. induction 1; [apply ExtInv.reaches_refl|]. eapply ExtInv.reaches_trans; [by apply step_storage|done]. Qed.

Lemma steps_system st st' name : rtc pallet_step st st' → name ∈ ["Number"; "LastBlock"]%string →
  Ext.get st' (storage_value_key "System" name) = Ext.get st (storage_value_key "System" name).
Proof. intros Hs Hn. induction Hs as [|x y z Hxy _ IH]; [done|]. rewrite IH. by apply step_system. Qed.

#[export] Instance trusted_stf_laws : @StfLaws TrustedCallSigned Mr PH (trusted_stf error_text) _.
Proof.
  split.
  - intros st c. destruct (call_steps st c) as [Hs|Hs]; cbn in Hs |- *; [rewrite Hs; apply ExtInv.reaches_refl|].
    eapply ExtInv.reaches_trans; [apply inc_storage|by apply steps_storage].
  - intros st h. unfold stf_update_parentchain_integritee_block, trusted_stf, update_parentchain_block, dispatched. cbn [returned].
    destruct (parentchain_set_block Integritee st h) as [st' [u|e]] eqn:Hb; cbn; change st' with (st', @Ok unit string tt).1;
      pose proof (block_storage Integritee st h) as Hr; rewrite Hb in Hr; exact Hr.
Qed.

#[export] Instance trusted_stf_system : @StfSystem TrustedCallSigned Mr PH (trusted_stf error_text) _.
Proof.
  split.
  - intros st c name Hn. destruct (call_steps st c) as [Hs|Hs]; cbn in Hs |- *; [by rewrite Hs|].
    rewrite (steps_system _ _ name Hs Hn). by apply inc_system.
  - intros st h name Hn. unfold stf_update_parentchain_integritee_block, trusted_stf, update_parentchain_block, dispatched. cbn [returned].
    pose proof (block_system Integritee st h name Hn) as Hr.
    destruct (parentchain_set_block Integritee st h) as [st' [u|e]]; exact Hr.
Qed.
End interface.

(** ** Getters *)

Section getters.
Context {Kp : Type} `{SignatureScheme Kp} `{Encode TrustedGetter} {PH : Type} `{Pallets PH} `{IterOrder}.
Context `{Decode (Getter PublicGetter TrustedGetter)} (encode_u128 encode_u32 : Z → Bytes).

(** A getter gets the value from the latest state of the shard if it is public or
    signed by the account it asks about, and an error otherwise; the states stay as
    they are. *)
Theorem getters_answer_their_owner (o : Observer.StateObserver SgxExternalities) (s : ShardIdentifier) (encoded : Bytes) :
  ∃ o', Executor.execute_getter (H0 := Gt.stf_getter encode_u128 encode_u32) o s encoded =
    (o', match decode (A := Getter PublicGetter TrustedGetter) encoded with
         | Err e => Err (ExOther e)
         | Ok g =>
             match HandlerInv.obs_view o !! s with
             | None => Err (ExStateObserver CurrentShardStateEmpty)
             | Some st => if Gt.is_authorized g then Ok (Gt.execute_getter encode_u128 encode_u32 st g) else Err ExGetterIsNotAuthorized
             end
         end) ∧
    HandlerInv.obs_view o' = HandlerInv.obs_view o.
Proof.
  unfold Executor.execute_getter. destruct (decode encoded) as [g|e]; [|by exists o].
  destruct (HandlerInv.observe_spec o s (λ st, if Gt.is_authorized g then Ok (Gt.execute_getter encode_u128 encode_u32 st g)
    else Err ExGetterIsNotAuthorized)) as (o' & Ho & Hv). exists o'. split; [|done].
  assert (∀ st, Executor.get_state (H0 := Gt.stf_getter encode_u128 encode_u32) g st =
    (if Gt.is_authorized g then Ok (Gt.execute_getter encode_u128 encode_u32 st g) else Err ExGetterIsNotAuthorized, st)) as Hg.
  { intros st. unfold Executor.get_state. cbn. by destruct (Gt.is_authorized g). }
  revert Ho. unfold Observer.observe_state. generalize (Observer.apply_pending_update o). intros p.
  destruct (Observer.current_state p !! s) as [st|]; rewrite ?Hg; intros [= <- Hv']; destruct (HandlerInv.obs_view o !! s); congruence.
Qed.
End getters.

(** ** Witnesses *)

Module PalletSample.
Import Sample OnChainSample.
Implicit Types (st : SgxExternalities).

(** The maps of the pallets are values under short keys. *)
Definition read_map st (k : Bytes) : gmap AccountId Z :=
  match SpIo.get st k with
  | Some b => match count_decode b with Ok m => m | Err _ => ∅ end
  | None => ∅
  end.
Definition write_map st (k : Bytes) (m : gmap AccountId Z) : SgxExternalities := SpIo.set st k (count_encode m).

Definition BALANCES : Bytes := [100%N].
Definition NONCES : Bytes := [101%N].
Definition VAULT (id : ParentchainId) : Bytes := [102%N; match id with Integritee => 0%N | TargetA => 1%N | TargetB => 2%N end].
Definition CREATED : Bytes := [103%N].
Definition NOW : Bytes := [104%N].
Definition BLOCK : Bytes := [105%N].

Definition held st : gmap AccountId Z := (λ b, b `mod` 2 ^ 128)%Z <$> read_map st BALANCES.
Definition free st (a : AccountId) : Z := default 0%Z (held st !! a).

(** The account of a balance of zero goes with its nonce. *)
Definition put_balance st (m : gmap AccountId Z) (a : AccountId) : SgxExternalities :=
  let st := write_map st BALANCES m in
  if decide (default 0%Z (m !! a) = 0%Z) then write_map st NONCES (delete a (read_map st NONCES)) else st.

#[export] Instance pallets : Pallets N := {|
  account_nonce st a := default 0%Z (read_map st NONCES !! a);
  inc_account_nonce st a := write_map st NONCES (<[a := u32_wrap (default 0%Z (read_map st NONCES !! a) + 1)]> (read_map st NONCES));
  free_balance := free;
  reserved_balance _ _ := 0%Z;
  balances_transfer st from to v :=
    if decide (v < 0 ∨ free st from < v ∨ 2 ^ 128 ≤ free st to + v)%Z then (st, Err "funds"%string)
    else if decide (from = to) then (st, Ok tt)
    else (put_balance st (<[to := (free st to + v)%Z]> (<[from := keep 1 (free st from - v)]> (held st))) from, Ok tt);
  force_set_balance st who v :=
    if decide (0 ≤ v < 2 ^ 128)%Z then (put_balance st (<[who := keep 1 v]> (held st)) who, Ok tt) else (st, Err "range"%string);
  sudo_key _ := None;
  parentchain_shard_vault id st := SpIo.get st (VAULT id) ≫= head;
  parentchain_creation_timestamp id st := Z.of_N <$> (SpIo.get st CREATED ≫= head);
  parentchain_creation_block_number _ _ := None;
  parentchain_creation_block_hash _ _ := None;
  parentchain_set_creation_block _ st _ := (st, Ok tt);
  parentchain_set_creation_timestamp _ st now := (SpIo.set st CREATED [Z.to_N now], Ok tt);
  parentchain_set_now _ st now := (SpIo.set st NOW [Z.to_N now], Ok tt);
  parentchain_set_block _ st h := (SpIo.set st BLOCK [h], Ok tt);
  parentchain_init_shard_vault id st v := (SpIo.set st (VAULT id) [v], Ok tt);
|}.

Lemma get_set st k v k' : SpIo.get (SpIo.set st k v) k' = if decide (k = k') then Some v else SpIo.get st k'.
Proof. unfold SpIo.get, SpIo.set, Ext.get, Ext.insert. cbn. apply lookup_insert. Qed.

Lemma read_write st k m k' : read_map (write_map st k m) k' = if decide (k = k') then m else read_map st k'.
Proof.
  unfold read_map at 1, write_map. rewrite get_set. case_decide; [|done].
  pose proof (@decode_encode _ count_encode count_decode (count_codec (A := gmap AccountId Z)) m) as Hm.
  unfold decode, encode in Hm. by rewrite Hm.
Qed.

(** Keys of another length than those of the pallets. *)
Definition other_key (k : Bytes) : Prop := (2 < length k)%nat.

Lemma name_key p a : other_key (storage_value_key p a).
Proof. unfold other_key, storage_value_key. rewrite length_app, !ScStateInv.twox_len. lia. Qed.

Lemma put_other st m a k : k ≠ BALANCES → k ≠ NONCES → SpIo.get (put_balance st m a) k = SpIo.get st k.
Proof. intros H1 H2. unfold put_balance, write_map. case_decide; by rewrite !get_set, !decide_False. Qed.

Lemma step_other st st' k : pallet_step st st' → other_key k ∨ (∃ id, k = VAULT id) → SpIo.get st' k = SpIo.get st k.
Proof.
  intros Hs Hk. assert (k ≠ BALANCES ∧ k ≠ NONCES ∧ k ≠ CREATED ∧ k ≠ NOW) as (H1 & H2 & H3 & H4).
  { unfold other_key in Hk. split_and!; intros ->; destruct Hk as [Hk|[id Hk]]; [cbn in Hk; lia|done|cbn in Hk; lia|done..
      |cbn in Hk; lia|done|cbn in Hk; lia|done]. }
  destruct Hs; cbn [balances_transfer force_set_balance parentchain_set_creation_timestamp parentchain_set_now pallets];
    repeat case_decide; cbn [fst]; rewrite ?put_other, ?get_set, ?decide_False by done; done.
Qed.

Definition in_range (m : gmap AccountId Z) : Prop := map_Forall (λ _ b, 0 ≤ b < 2 ^ 128)%Z m.

Lemma held_range st : in_range (held st).
Proof. intros a b. unfold held. rewrite lookup_fmap. destruct (_ !! _); [|done]. intros [= <-]. apply Z.mod_pos_bound. lia. Qed.

Lemma free_in_range st a : (0 ≤ free st a < 2 ^ 128)%Z.
Proof. unfold free. destruct (held st !! a) as [b|] eqn:Hb; [by apply (held_range st a b)|done]. Qed.

Lemma held_put st m a : in_range m → held (put_balance st m a) = m.
Proof.
  intros Hm. unfold held, put_balance. assert (read_map (write_map st BALANCES m) BALANCES = m) as Hr by by rewrite read_write, decide_True.
  case_decide; rewrite ?(read_write (write_map st BALANCES m) NONCES), ?decide_False, Hr by done;
    (rewrite <-(map_fmap_id m) at 2; apply map_fmap_ext; intros x b Hb; apply Z.mod_small, (Hm x b Hb)).
Qed.

Lemma keep_range b : (0 ≤ b < 2 ^ 128)%Z → (0 ≤ keep 1 b < 2 ^ 128)%Z.
Proof. intros Hb. unfold keep. case_decide; lia. Qed.

Lemma insert_range m a b : in_range m → (0 ≤ b < 2 ^ 128)%Z → in_range (<[a := b]> m).
Proof. intros Hm Hb. by apply map_Forall_insert_2. Qed.

Lemma nonces_put st m a b :
  default 0%Z (read_map (put_balance st m a) NONCES !! b) = default 0%Z (read_map st NONCES !! b) ∨
  a = b ∧ default 0%Z (read_map (put_balance st m a) NONCES !! b) = 0%Z ∧ default 0%Z (m !! a) = 0%Z.
Proof.
  unfold put_balance. case_decide as Hz; [|left; by rewrite read_write, decide_False].
  destruct (decide (a = b)) as [->|Hne]; [right; by rewrite read_write, decide_True, lookup_delete_eq|]. left.
  by rewrite (read_write (write_map st BALANCES m)), decide_True, lookup_delete_ne, read_write, decide_False.
Qed.

Lemma held_other st k v : k ≠ BALANCES → held (SpIo.set st k v) = held st.
Proof. intros Hk. unfold held, read_map. by rewrite get_set, decide_False. Qed.

Lemma nonces_other st k v : k ≠ NONCES → read_map (SpIo.set st k v) NONCES = read_map st NONCES.
Proof. intros Hk. unfold read_map. by rewrite get_set, decide_False. Qed.

Lemma account_other st st' : (∀ k, other_key k → SpIo.get st' k = SpIo.get st k) → enclave_account st' = enclave_account st.
Proof. intros Hk. unfold enclave_account, get_storage_value, get_storage_by_key_hash. by rewrite Hk by apply name_key. Qed.

Lemma transfer_range st from to v :
  ¬ (v < 0 ∨ free st from < v ∨ 2 ^ 128 ≤ free st to + v)%Z →
  in_range (<[to := (free st to + v)%Z]> (<[from := keep 1 (free st from - v)]> (held st))).
Proof.
  intros Hv. pose proof (free_in_range st from). pose proof (free_in_range st to).
  apply insert_range; [apply insert_range; [apply held_range|apply keep_range; lia]|lia].
Qed.

Lemma transfer_held st from to v st' res :
  balances_transfer st from to v = (st', res) →
  match res with
  | Ok _ => (v ≤ free st from)%Z ∧ held st' = if decide (from = to) then held st
      else <[to := (free st to + v)%Z]> (<[from := keep 1 (free st from - v)]> (held st))
  | Err _ => held st' = held st
  end.
Proof.
  cbn [balances_transfer pallets]. case_decide as Hv; [by intros [= <- <-]|]. case_decide; intros [= <- <-].
  - split; [lia|done].
  - split; [lia|]. by rewrite held_put by (by apply transfer_range).
Qed.

Lemma step_nonces st st' a : pallet_step st st' →
  default 0%Z (read_map st' NONCES !! a) = default 0%Z (read_map st NONCES !! a) ∨
  default 0%Z (read_map st' NONCES !! a) = 0%Z ∧ default 0%Z (held st' !! a) = 0%Z.
Proof.
  intros [from to v|who v|id now|id now]; [| |left..].
  3,4: cbn [parentchain_set_creation_timestamp parentchain_set_now pallets fst]; by rewrite nonces_other.
  - cbn [balances_transfer pallets]. case_decide as Hv; [by left|]. case_decide; [by left|]. cbn [fst].
    destruct (nonces_put st (<[to:=(free st to + v)%Z]> (<[from:=keep 1 (free st from - v)]> (held st))) from a) as [Hn|(<- & Hn & Hz)]; [by left|].
    right. split; [done|]. by rewrite held_put by (by apply transfer_range).
  - cbn [force_set_balance pallets]. case_decide as Hv; [|by left]. cbn [fst].
    destruct (nonces_put st (<[who:=keep 1 v]> (held st)) who a) as [Hn|(<- & Hn & Hz)]; [by left|].
    right. split; [done|]. rewrite held_put; [done|]. apply insert_range; [apply held_range|by apply keep_range].
Qed.

#[export] Instance pallets_laws : PalletsLaws N 1.
Proof.
  refine {| balances := held |}.
  - done.
  - apply held_range.
  - apply transfer_held.
  - intros st who v st' res. cbn [force_set_balance pallets]. case_decide as Hv; intros [= <- <-]; [|done].
    apply held_put, insert_range; [apply held_range|by apply keep_range].
  - intros st a. by apply held_other.
  - intros id st now. by apply held_other.
  - intros id st now. by apply held_other.
  - intros st a. split; [apply account_other; intros k Hk|intros id]; cbn [inc_account_nonce pallets parentchain_shard_vault];
      unfold write_map; rewrite get_set, decide_False; try done. intros <-. unfold other_key in Hk. cbn in Hk. lia.
  - intros st st' Hs. split; [apply account_other; intros k Hk|intros id]; cbn [parentchain_shard_vault pallets];
      rewrite (step_other st st'); eauto.
  - intros id st v. apply account_other. intros k Hk. cbn [parentchain_init_shard_vault pallets fst]. rewrite get_set, decide_False; [done|].
    intros <-. unfold other_key in Hk. cbn in Hk. lia.
  - intros id st v st' res [= <- <-] id'. cbn [parentchain_shard_vault pallets]. rewrite get_set.
    destruct (decide (id' = id)) as [->|Hne]; [by rewrite decide_True|]. rewrite decide_False; [done|]. by destruct id, id'.
  - intros st a b. cbn [inc_account_nonce account_nonce pallets]. rewrite read_write, decide_True by done.
    destruct (decide (a = b)) as [<-|Hne]; [by rewrite lookup_insert_eq|by rewrite lookup_insert_ne].
  - intros st st' a. apply step_nonces.
Defined.

Lemma set_storage st k v : ExtInv.reaches st (SpIo.set st k v).
Proof. apply (ExtInv.reaches_op st (ExtInv.OpSet k v)). Qed.

Lemma put_storage st m a : ExtInv.reaches st (put_balance st m a).
Proof.
  unfold put_balance. case_decide; [|apply set_storage]. eapply ExtInv.reaches_trans; [|apply set_storage]. apply set_storage.
Qed.

#[export] Instance pallets_storage : PalletsStorage N.
Proof.
  assert (∀ a, other_key (storage_value_key "System" a)) as Hk by (intros a; apply name_key). split.
  - intros st a. apply set_storage.
  - intros st st' []; cbn [balances_transfer force_set_balance parentchain_set_creation_timestamp parentchain_set_now pallets];
      repeat case_decide; cbn [fst]; first [apply put_storage|apply set_storage|apply ExtInv.reaches_refl].
  - intros id st h. apply set_storage.
  - intros st a name _. change (Ext.get ?e ?k) with (SpIo.get e k). cbn [inc_account_nonce pallets]. unfold write_map.
    rewrite get_set, decide_False; [done|]. intros Heq. specialize (Hk name). rewrite <-Heq in Hk. unfold other_key in Hk. cbn in Hk. lia.
  - intros st st' name Hs _. apply (step_other st st' _ Hs). left. apply Hk.
  - intros id st h name _. change (Ext.get ?e ?k) with (SpIo.get e k). cbn [parentchain_set_block pallets fst].
    rewrite get_set, decide_False; [done|]. intros Heq. specialize (Hk name). rewrite <-Heq in Hk. unfold other_key in Hk. cbn in Hk. lia.
Qed.

#[export] Instance calls : NodeCalls := {|
  transfer_keep_alive_call_indexes := Ok [4; 3]%N;
  proxy_call_indexes := Ok [5; 0]%N;
  publish_hash_call_indexes := Ok [6; 0]%N;
  transfer_call i to v := i ++ [to; Z.to_N v];
  proxy_call i vault c := i ++ vault :: c;
  publish_hash_call i h _ := i ++ [h];
|}.
#[export] Instance calls_laws : NodeCallsLaws.
Proof.
  refine {| proxied_transfer c := match c with [5; 0; vault; 4; 3; to; v]%N => Some (vault, to, Z.of_N v) | _ => None end |}.
  - intros i j vault to value [= <-] [= <-] Hv. cbn. by rewrite Z2N.id by lia.
  - intros i h text [= <-]. done.
Defined.
#[export] Instance enc_call : Encode TrustedCall := λ c, [call_sender c].

(** The shard of enclave account 9, without and with a vault. *)
Definition first : SgxExternalities := init_state count_encode 9%N.
Definition vaulted : SgxExternalities := (init_shard_vault_account first 55%N Integritee).1.

Definition signed_at (c : TrustedCall) (n : Z) : TrustedCallSigned := MkSigned c n [].
Definition traffic : list TrustedCallSigned :=
  [signed_at (balance_shield 9 7 2000000000 Integritee)%N 0; signed_at (balance_transfer 7 8 700000000)%N 0;
   signed_at (balance_shield 7 7 2000000000 Integritee)%N 1; signed_at (balance_unshield 8 8 400000000 0)%N 0;
   signed_at (balance_unshield 8 8 400000000 0)%N 0].
End PalletSample.

Section witnesses.
Import Sample OnChainSample PalletSample.

Lemma shielded_funds_stay_backed_witness :
  ∃ st' results, run_calls vaulted traffic = Ret (st', results) ∧
    (total (balances st') + sum (outflow <$> results) ≤ 2000001000)%Z ∧
    transfers <$> results = [[]; []; []; [(Integritee, (55%N, 8%N, 400000000%Z))]; []].
Proof.
  destruct (shielded_funds_stay_backed (ed := 1) vaulted 9%N traffic) as (st' & results & Hr & Hle & _).
  - by vm_compute.
  - repeat constructor; done.
  - assert (match run_calls vaulted traffic with
      | Ret (_, l) => (transfers <$> l, (total (balances vaulted) + sum (zip_with (deposit 9 ∘ call) traffic l))%Z) | _ => ([], 0%Z) end =
      ([[]; []; []; [(Integritee, (55%N, 8%N, 400000000%Z))]; []], 2000001000%Z)) as Hs by by vm_compute.
    rewrite Hr in Hs. apply pair_equal_spec in Hs as [Ht Hd]. rewrite Hd in Hle. exists st', results. split; [exact Hr|]. split; [exact Hle|exact Ht].
Defined.

(** A call, and the same call again, at once and after another call of its sender. *)
Definition shielding : TrustedCallSigned := signed_at (balance_shield 9 7 2000000000 Integritee)%N 0.
Definition later_call : TrustedCallSigned := signed_at (balance_shield 9 7 1000000000 Integritee)%N 1.

Lemma signed_call_runs_once_witness :
  ∃ st' st2 res results, execute vaulted shielding = Ret (st', res) ∧ run_calls st' [later_call] = Ret (st2, results) ∧
    account_nonce st2 9%N = 2%Z ∧ execute st2 shielding = Ret (st2, Err (InvalidNonce 0 2)).
Proof.
  destruct (signed_call_runs_once (ed := 1) vaulted 9%N shielding) as (st' & res & Hr & _ & Honce); [by vm_compute|done|].
  destruct Honce as [_ Honce]; [by vm_compute|]. destruct (Honce [later_call]) as (st2 & results & Hrun & Hagain).
  assert (match execute vaulted shielding with
          | Ret (s1, _) => (account_nonce s1 9%N, match run_calls s1 [later_call] with Ret (s2, _) => account_nonce s2 9%N | _ => 0%Z end)
          | _ => (0%Z, 0%Z) end = (1%Z, 2%Z)) as Hn by (vm_compute; reflexivity).
  rewrite Hr, Hrun in Hn. apply pair_equal_spec in Hn as [Hn1 Hn2]. exists st', st2, res, results. split; [exact Hr|]. split; [exact Hrun|]. split; [exact Hn2|].
  cbn [call_sender call shielding signed_at nonce] in Hagain. rewrite Hn2 in Hagain. apply Hagain. intros [|k] stk l Hk.
  - injection Hk as <- _. by rewrite Hn1.
  - rewrite take_ge in Hk by (cbn; lia). rewrite Hrun in Hk. injection Hk as <- _. by rewrite Hn2.
Defined.

(** An account that is emptied by its first call starts again at nonce zero: when it is
    funded again, anyone can have the same signed call executed again. *)
Definition emptying : TrustedCallSigned := signed_at (balance_unshield 8 8 270000000 0)%N 0.
Example emptied_account_replays :
  match run_calls vaulted [signed_at (balance_shield 9 8 571000000 Integritee)%N 0; emptying;
                           signed_at (balance_shield 9 8 571000000 Integritee)%N 1; emptying] with
  | Ret (_, results) => transfers <$> results
  | _ => []
  end = [[]; [(Integritee, (55%N, 8%N, 270000000%Z))]; []; [(Integritee, (55%N, 8%N, 270000000%Z))]].
Proof. vm_compute. reflexivity. Qed.

(** An unshielding of 400000000 on a shard without a vault. *)
Definition funded : SgxExternalities := (force_set_balance first 8%N 1000000000).1.
Definition funded_fee : SgxExternalities := (balances_transfer (inc_account_nonce funded 8%N) 8%N 9%N (STF_TX_FEE * 3)).1.
Definition funded_burnt : SgxExternalities := (force_set_balance funded_fee 8%N (free_balance funded_fee 8%N - 400000000)).1.

Lemma unshield_without_vault_burns_witness :
  execute funded (signed_at (balance_unshield 8 8 400000000 0)%N 0) =
    Ret (funded_burnt, Err (StfDispatch "shard vault key hasn't been set")) ∧ free_balance funded_burnt 8%N = 300000000%Z.
Proof.
  destruct (unshield_without_vault_burns (ed := 1) funded 9%N (signed_at (balance_unshield 8 8 400000000 0)%N 0) 8%N 8%N 400000000 0%N
    funded_fee funded_burnt) as [Hx Hb]; [by vm_compute|by intros []; vm_compute|done|by vm_compute|done|by vm_compute|by vm_compute|by vm_compute|].
  split; [exact Hx|]. rewrite Hb. by vm_compute.
Defined.

(** A second vault is refused, and so is one on another parentchain. *)
Lemma shard_vault_is_fixed_witness :
  ∃ st', for_each run_operation vaulted [InitVault 56%N Integritee; Execute (signed_at (noop 9%N) 0); InitVault 55%N TargetA] = Ret st' ∧
    shard_vault st' = Some (55%N, Integritee).
Proof.
  destruct (shard_vault_is_fixed (ed := 1) vaulted 9%N [InitVault 56%N Integritee; Execute (signed_at (noop 9%N) 0); InitVault 55%N TargetA])
    as (st' & Hr & _ & Hv); [by vm_compute|by apply Nat.leb_le; vm_compute|].
  exists st'. split; [done|]. apply Hv. by vm_compute.
Defined.
End witnesses.
