(* ===== verification/IndirectCalls.v ===== *)
(** Indirect calls: what a block of a parentchain makes the enclave do
    (src/core/parentchain/indirect-calls-executor/src/executor.rs), the calls and
    events it looks for on each parentchain (src/app-libs/parentchain-interface/src)
    and the signer of the enclave's own trusted calls
    (src/core-primitives/stf-executor/src/enclave_signer.rs).

    The codec of extrinsics and events, the encryption and the Merkle tree are
    external. *)

From stdpp Require Import base gmap fin_maps numbers strings list.
From S2P Require Import Prelude Collections PoolTypes Listener ValidatedPool VPoolInv Externalities SidechainDb Durations StfTypes Author FlatPool AuthorInv.
From S2P Require Import SidechainState SidechainBlocks Dispatcher StfExecutor ParentchainImport ConsensusSample OnChain Extrinsics TrustedCalls.

Import Ext(SgxExternalities).
Import Author AuthorInv Tc.
Open Scope worker_scope.

(** ** Events and calls *)

Inductive ExtrinsicStatus := XtSuccess | XtFailed.

Record BalanceTransfer := MkTransfer {
  bt_from : AccountId;
  bt_to : AccountId;
  bt_amount : Z;
}.

(** [Events] of the api client: the events of a block, some of which may not decode. *)
Class ParentchainEvents (Ev Ed : Type) := {
  events_new : NodeMetadata → N → Bytes → option Ev;
  events_iter : Ev → list (result Ed string);
  as_extrinsic_success : Ed → result bool string;
  as_extrinsic_failed : Ed → result bool string;
  as_balance_transfer : Ed → result (option BalanceTransfer) string;
}.

Abbreviation CallIndex := (N * N)%type (only parsing).

(** The indexes of calls in the metadata, and the prefix of an extrinsic up to its
    call index. *)
Class NodeMetadataCalls := {
  shield_funds_call_indexes : NodeMetadata → result CallIndex string;
  invoke_call_indexes : NodeMetadata → result CallIndex string;
  timestamp_set_call_indexes : NodeMetadata → result CallIndex string;
  confirm_processed_parentchain_block_call_indexes : NodeMetadata → result CallIndex string;
  decode_extrinsic : Bytes → result (CallIndex * Bytes) string;
}.

Record ShieldFundsArgs := MkShieldArgs {
  sf_shard : ShardIdentifier;
  account_encrypted : Bytes;
  sf_amount : Z;
}.

Record Request := MkRequest {
  req_shard : ShardIdentifier;
  cyphertext : Bytes;
}.

Record TimestampSetArgs := MkTimestampArgs { ts_now : Z }.

Inductive IndirectCall :=
| ShieldFunds (args : ShieldFundsArgs)
| Invoke (request : Request)
| TimestampSet (args : TimestampSetArgs).

Inductive IndirectError :=
| IcStf (msg : string)
| IcMetadata (msg : string)
| IcCrypto
| IcOther (msg : string).

Module Ic.

Section events.
Context {Ev Ed : Type} `{ParentchainEvents Ev Ed}.

Definition status_of (ev : result Ed string) : option ExtrinsicStatus :=
  match ev with
  | Err _ => None
  | Ok ev =>
      match as_extrinsic_success ev with
      | Err _ => None
      | Ok true => Some XtSuccess
      | Ok false => match as_extrinsic_failed ev with Ok true => Some XtFailed | _ => None end
      end
  end.

Definition get_extrinsic_statuses (events : Ev) : list ExtrinsicStatus := omap status_of (events_iter events).

Definition get_transfer_events (events : Ev) : list BalanceTransfer :=
  omap (λ ev, match ev with
    | Err _ => None
    | Ok ev => match as_balance_transfer ev with Ok maybe_event => maybe_event | Err _ => None end
    end) (events_iter events).
End events.

Section filter.
Context `{NodeMetadataCalls} `{Decode ShieldFundsArgs} `{Decode Request} `{Decode TimestampSetArgs}.

Definition decode_and_log_error `{Decode V} (encoded : Bytes) : option V :=
  match decode encoded with Ok v => Some v | Err _ => None end.

(** [.ok()?]. *)
Definition ok {A E} (r : result A E) : option A := match r with Ok a => Some a | Err _ => None end.

(** [ExtrinsicFilter] of the three parentchains. *)
Definition filter_into_from_metadata (id : ParentchainId) (encoded_data : Bytes) (metadata : NodeMetadata) : option IndirectCall :=
  match decode_extrinsic encoded_data with
  | Err _ => None
  | Ok (index, call_args) =>
      let timestamp :=
        timestamp_set ← ok (timestamp_set_call_indexes metadata);
        if decide (index = timestamp_set) then TimestampSet <$> decode_and_log_error call_args else None in
      match id with
      | Integritee =>
          shield_funds ← ok (shield_funds_call_indexes metadata);
          if decide (index = shield_funds) then ShieldFunds <$> decode_and_log_error call_args
          else
            invoke ← ok (invoke_call_indexes metadata);
            if decide (index = invoke) then Invoke <$> decode_and_log_error call_args else timestamp
      | TargetA | TargetB => timestamp
      end
  end.
End filter.

(** ** The executor *)

Section executor.
Context `{Ord : IterOrder} `{!SlotCodec} {Key Sink G KeyPair Mr : Type} `{!PoolTransactionValidation G}.
Abbreviation TOP := (StfTrustedOperation TrustedCallSigned G).
Context (env : Enclave Key TOP) (top_filter : TOP → bool) (try_send : Sink → TxHash → VPool.send_result * Sink).
Context (encrypt : Key → Bytes → option Bytes) (derive_ed25519 : Key → option KeyPair) (get_mrenclave_of_self : result Mr string).
Context `{SignatureScheme KeyPair} `{Encode TrustedCall} `{Encode Z} `{Encode Mr} `{Encode ShardIdentifier}.
Context `{Twox} `{Hashers} `{Decode AccountId} {PH : Type} `{Pallets PH}.
(** What the observer has of the states of the shards. *)
Context (observed : ShardIdentifier → option SgxExternalities).
Implicit Types (a : AuthorState TOP Sink) (shard : ShardIdentifier) (now : Z).

(** *** [StfEnclaveSigner] *)

Definition get_enclave_call_signing_key : result KeyPair IndirectError :=
  match retrieve_key env with
  | None => Err (IcStf "key")
  | Some key => match derive_ed25519 key with Some kp => Ok kp | None => Err (IcStf "derivation") end
  end.

Definition get_enclave_account : result AccountId IndirectError :=
  let? kp := get_enclave_call_signing_key in Ok (public kp).

Definition get_enclave_account_nonce shard : result Z IndirectError :=
  let? account := get_enclave_account in
  match observed shard with
  | Some st => Ok (account_nonce st account)
  | None => Err (IcStf "state observer")
  end.

(** The iterator over the ready operations ends with the queue. *)
Definition sign_call_with_self a (trusted_call : TrustedCall) shard : outcome (result TrustedCallSigned IndirectError) :=
  match get_mrenclave_of_self with
  | Err e => Ret (Err (IcStf e))
  | Ok mr_enclave =>
      match get_enclave_account with
      | Err e => Ret (Err e)
      | Ok account =>
          match get_enclave_call_signing_key with
          | Err e => Ret (Err e)
          | Ok kp =>
              match get_enclave_account_nonce shard with
              | Err e => Ret (Err e)
              | Ok current_nonce =>
                  get_pending_trusted_calls_for (pending_fuel a shard) a shard account ≫= λ calls,
                  let pending_tx_count := Z.of_nat (length calls) in
                  Ret (if (2 ^ 32 <=? pending_tx_count)%Z then Err (IcStf "out of range")
                       else Ok (sign_call trusted_call kp (u32_wrap (current_nonce + pending_tx_count)) mr_enclave shard))
              end
          end
      end
  end.

Definition get_shard_vault shard : result (AccountId * ParentchainId) IndirectError :=
  match observed shard with
  | None => Err (IcStf "state observer")
  | Some st => match shard_vault st with Some v => Ok v | None => Err (IcStf "shard vault undefined") end
  end.

(** *** [IndirectExecutor] *)

(** A refusal of the pool is only logged. *)
Definition submit_trusted_call now a shard (encrypted_trusted_call : Bytes) : outcome (AuthorState TOP Sink) :=
  submit_top env top_filter try_send now a encrypted_trusted_call shard ≫= λ '(a, _), Ret a.

Definition decrypt_with_key (encrypted : Bytes) : result Bytes IndirectError :=
  match retrieve_key env with
  | None => Err IcCrypto
  | Some key => match decrypt env key encrypted with Some b => Ok b | None => Err IcCrypto end
  end.

Definition encrypt_with_key (value : Bytes) : result Bytes IndirectError :=
  match retrieve_key env with
  | None => Err IcCrypto
  | Some key => match encrypt key value with Some b => Ok b | None => Err IcCrypto end
  end.

Definition get_default_shard : ShardIdentifier := default 0%N (head (list_handled_shards env)).

(** *** Dispatch *)

(** A trusted call of the enclave, signed, encrypted and submitted. *)
Definition submit_own now a (trusted_call : TrustedCall) shard : outcome (AuthorState TOP Sink * result unit IndirectError) :=
  sign_call_with_self a trusted_call shard ≫= λ r,
  match r with
  | Err e => Ret (a, Err e)
  | Ok signed_trusted_call =>
      match encrypt_with_key (encode_top env (indirect_call signed_trusted_call)) with
      | Err e => Ret (a, Err e)
      | Ok encrypted_trusted_call => submit_trusted_call now a shard encrypted_trusted_call ≫= λ a, Ret (a, Ok tt)
      end
  end.

Definition dispatch_shield_funds now a (args : ShieldFundsArgs) : outcome (AuthorState TOP Sink * result unit IndirectError) :=
  match decrypt_with_key (account_encrypted args) with
  | Err e => Ret (a, Err e)
  | Ok account_vec =>
      match decode account_vec with
      | Err e => Ret (a, Err (IcOther e))
      | Ok account =>
          match get_enclave_account with
          | Err e => Ret (a, Err e)
          | Ok enclave_account_id =>
              submit_own now a (balance_shield enclave_account_id account (sf_amount args) Integritee) (sf_shard args)
          end
      end
  end.

Definition dispatch_invoke now a (request : Request) : outcome (AuthorState TOP Sink * result unit IndirectError) :=
  submit_trusted_call now a (req_shard request) (cyphertext request) ≫= λ a, Ret (a, Ok tt).

Definition dispatch_timestamp_set (id : ParentchainId) now a (args : TimestampSetArgs) :
    outcome (AuthorState TOP Sink * result unit IndirectError) :=
  match get_enclave_account with
  | Err e => Ret (a, Err e)
  | Ok enclave_account_id => submit_own now a (timestamp_set enclave_account_id (ts_now args) id) get_default_shard
  end.

Definition dispatch (id : ParentchainId) now a (call : IndirectCall) : outcome (AuthorState TOP Sink * result unit IndirectError) :=
  match call with
  | ShieldFunds args => dispatch_shield_funds now a args
  | Invoke request => dispatch_invoke now a request
  | TimestampSet args => dispatch_timestamp_set id now a args
  end.

(** *** Events *)

(** [ParentchainEventHandler::shield_funds]. *)
Definition shield_transfer (id : ParentchainId) now a (account : AccountId) (amount : Z) :
    outcome (AuthorState TOP Sink * result unit IndirectError) :=
  match get_enclave_account with
  | Err e => Ret (a, Err e)
  | Ok enclave_account_id => submit_own now a (balance_shield enclave_account_id account amount id) get_default_shard
  end.

(** [try_for_each] over the transfers to the vault. *)
Fixpoint shield_transfers (id : ParentchainId) now a (transfers : list BalanceTransfer) :
    outcome (AuthorState TOP Sink * result unit IndirectError) :=
  match transfers with
  | [] => Ret (a, Ok tt)
  | t :: transfers =>
      shield_transfer id now a (bt_from t) (bt_amount t) ≫= λ '(a, res),
      match res with
      | Ok _ => shield_transfers id now a transfers
      | Err _ => Ret (a, Err (IcOther "ShieldFundsFailure"))
      end
  end.

Context {Ev Ed : Type} `{ParentchainEvents Ev Ed}.

Definition to_vault (vault_account : AccountId) (transfers : list BalanceTransfer) : list BalanceTransfer :=
  filter (λ t, bt_to t = vault_account) transfers.

Definition handle_events (id : ParentchainId) now a (events : Ev) (vault_account : AccountId) :
    outcome (AuthorState TOP Sink * result unit IndirectError) :=
  match id with
  | Integritee | TargetA => shield_transfers id now a (to_vault vault_account (get_transfer_events events))
  | TargetB => Ret (a, Ok tt)
  end.

(** *** Blocks *)

Context `{NodeMetadataCalls} `{Decode ShieldFundsArgs} `{Decode Request} `{Decode TimestampSetArgs}.
Context `{Blake2} `{Encode IndirectCall} (merkle_root : list N → N).
(** The encoded call that confirms a block. *)
Context (confirm_call : CallIndex → ShardIdentifier → N → Z → N → OpaqueCall).

Definition call_hash (call : IndirectCall) : N := blake2_256 (encode call).

(** The loop over the extrinsics, with the hashes of the calls executed. *)
Fixpoint execute_each (id : ParentchainId) (metadata : NodeMetadataRepository) now a
    (xts : list (Bytes * ExtrinsicStatus)) (executed_calls : list N) :
    outcome (AuthorState TOP Sink * result (list N) IndirectError) :=
  match xts with
  | [] => Ret (a, Ok executed_calls)
  | (xt, xt_status) :: xts =>
      match get_from_metadata metadata (filter_into_from_metadata id xt) with
      | Err e => Ret (a, Err (IcMetadata e))
      | Ok None => execute_each id metadata now a xts executed_calls
      | Ok (Some call) =>
          match xt_status with
          | XtFailed => execute_each id metadata now a xts executed_calls
          | XtSuccess =>
              dispatch id now a call ≫= λ '(a, res),
              execute_each id metadata now a xts
                match res with Ok _ => executed_calls ++ [call_hash call] | Err _ => executed_calls end
          end
      end
  end.

Definition create_processed_parentchain_block_call (metadata : NodeMetadataRepository) (block_hash : N)
    (extrinsics : list N) (block_number : Z) : result OpaqueCall IndirectError :=
  match get_from_metadata metadata confirm_processed_parentchain_block_call_indexes with
  | Err e => Err (IcMetadata e)
  | Ok (Err e) => Err (IcMetadata e)
  | Ok (Ok call) => Ok (confirm_call call get_default_shard block_hash block_number (merkle_root extrinsics))
  end.

Definition execute_indirect_calls_in_extrinsics (id : ParentchainId) (metadata : NodeMetadataRepository) now a
    (block_number : Z) (block_hash : N) (extrinsics : list Bytes) (events : Bytes) :
    outcome (AuthorState TOP Sink * result (option OpaqueCall) IndirectError) :=
  match get_from_metadata metadata (λ m, events_new m block_hash events) with
  | Err e => Ret (a, Err (IcMetadata e))
  | Ok None => Ret (a, Err (IcOther "Could not create events from metadata"))
  | Ok (Some events) =>
      let xt_statuses := get_extrinsic_statuses events in
      match get_shard_vault get_default_shard with
      | Ok (vault, _) => handle_events id now a events vault
      | Err _ => Ret (a, Ok tt)
      end ≫= λ '(a, res),
      match res with
      | Err e => Ret (a, Err e)
      | Ok _ =>
          if decide (length xt_statuses ≠ length extrinsics)
          then Ret (a, Err (IcOther "Extrinsic Status and Extrinsic count not equal"))
          else
            execute_each id metadata now a (zip extrinsics xt_statuses) [] ≫= λ '(a, res),
            Ret (a,
              match res with
              | Err e => Err e
              | Ok executed_calls =>
                  match id with
                  | Integritee =>
                      match create_processed_parentchain_block_call metadata block_hash executed_calls block_number with
                      | Ok call => Ok (Some call)
                      | Err e => Err e
                      end
                  | _ => Ok None
                  end
              end)
      end
  end.
End executor.
End Ic.
