(* ===== verification/IndirectCallsProps.v ===== *)
(** What the indirect calls of a block put into the queues of the author. *)

From stdpp Require Import base countable gmap fin_maps numbers strings list.
From S2P Require Import Prelude Collections PoolTypes Listener ValidatedPool BaseOps VPoolInv Externalities SidechainDb Durations StfTypes Author FlatPool AuthorInv AuthorProps.
From S2P Require Import SidechainState SidechainBlocks Dispatcher StfExecutor ParentchainImport ConsensusSample OnChain Extrinsics TrustedCalls TrustedCallsProps IndirectCalls.

Import Ext(SgxExternalities).
Import FlatOps FlatLimits FlatVPool Author AuthorInv Tc Ic.
Open Scope worker_scope.

Section executor.
Context `{Ord : IterOrder} `{!SlotCodec} {Key Sink G KeyPair Mr : Type} `{!PoolTransactionValidation G} `{!UniformValidation G}.
Abbreviation TOP := (StfTrustedOperation TrustedCallSigned G).
Context (env : Enclave Key TOP) (top_filter : TOP → bool) (try_send : Sink → TxHash → VPool.send_result * Sink).
Context (encrypt : Key → Bytes → option Bytes) (derive_ed25519 : Key → option KeyPair) (get_mrenclave_of_self : result Mr string).
Context `{SignatureScheme KeyPair} `{Encode TrustedCall} `{Encode Z} `{Encode Mr} `{Encode ShardIdentifier}.
Context `{Twox} `{Hashers} `{Decode AccountId} {PH : Type} `{Pallets PH}.
Context (observed : ShardIdentifier → option SgxExternalities).
Implicit Types (a : AuthorState TOP Sink) (s : ShardIdentifier) (now : Z) (q : list (TrustedOperation TOP)).

(** The enclave has its keys, and what it encrypts comes back to it. *)
Context (key : Key) (kp : KeyPair) (mr : Mr).
Record keys_ready : Prop := {
  kr_key : retrieve_key env = Some key;
  kr_pair : derive_ed25519 key = Some kp;
  kr_mrenclave : get_mrenclave_of_self = Ok mr;
  kr_encrypt : ∀ b, ∃ c, encrypt key b = Some c ∧ decrypt env key c = Some b;
  kr_decode : ∀ top, decode_top env (encode_top env top) = Some top;
  kr_filter : ∀ c, top_filter (indirect_call c) = true;
  kr_short : ∀ top, (0 ≤ (hash_len env top).2 < 2 ^ 62)%Z;
}.
Hypothesis ready : keys_ready.

Abbreviation enclave := (public kp).
Abbreviation own_submit := (submit_own env top_filter try_send encrypt derive_ed25519 get_mrenclave_of_self observed).

(** The calls of a queue that name the enclave as their sender. *)
Definition pending_own q : list TOP :=
  List.filter (λ o, bool_decide (signed_caller_account o = Some enclave)) (List.filter calls_only_filter (data <$> q)).

(** What the enclave submits of a trusted call. *)
Definition own_operation s q (c : TrustedCall) : TOP :=
  let nonce := match observed s with Some st => account_nonce st enclave | None => 0%Z end in
  indirect_call (sign_call c kp (u32_wrap (nonce + Z.of_nat (length (pending_own q)))) mr s).

Lemma pending_own_length q : (length (pending_own q) ≤ length q)%nat.
Proof. unfold pending_own. rewrite <-(length_fmap data q). by rewrite !List.filter_length_le. Qed.

Lemma enclave_account_is : get_enclave_account env derive_ed25519 = Ok enclave.
Proof. unfold get_enclave_account, get_enclave_call_signing_key. by rewrite (kr_key ready), (kr_pair ready). Qed.

(** The queues are shorter than the range of a nonce. *)
Definition short_queues a : Prop := (limit_count (limit_of a) < 2 ^ 32)%Z.

Lemma queue_short a s : author_inv a → short_queues a → (Z.of_nat (length (queue_at a s)) < 2 ^ 32)%Z.
Proof. intros [_ _ Hfit _] Hs. specialize (Hfit s). apply fits_bounds in Hfit. unfold short_queues, limit_of, queue_at in *. lia. Qed.

Lemma sign_own a c s st :
  author_inv a → short_queues a → observed s = Some st →
  sign_call_with_self env derive_ed25519 get_mrenclave_of_self observed a c s = Ret
    (Ok (sign_call c kp (u32_wrap (account_nonce st enclave + Z.of_nat (length (pending_own (queue_at a s))))) mr s)).
Proof.
  intros Ha Hs Ho. unfold sign_call_with_self, get_enclave_account_nonce. rewrite (kr_mrenclave ready), enclave_account_is.
  unfold get_enclave_call_signing_key. rewrite (kr_key ready), (kr_pair ready), Ho.
  unfold get_pending_trusted_calls_for, get_pending_trusted_calls. rewrite pending_spec by (done || unfold pending_fuel; lia).
  cbn [mbind outcome_bind]. fold (pending_own (queue_at a s)).
  pose proof (pending_own_length (queue_at a s)). pose proof (queue_short a s Ha Hs).
  by rewrite (proj2 (Z.leb_gt _ _)) by lia.
Qed.

(** ** Submissions *)

Inductive submission :=
| Own (s : ShardIdentifier) (c : TrustedCall)
| Raw (s : ShardIdentifier) (ext : Bytes).

Abbreviation Spec := (AuthorSpec (TCS := TrustedCallSigned) (G := G)).

(** A submission on the specification of the author, its queues and its bans; what the
    author answers is only logged. *)
Definition q_submission (limit : Limit) (ban_time now : Z) (A : Spec) (x : submission) (A' : Spec) : Prop :=
  match x with
  | Own s c =>
      if decide (shard_exists env s = Some true)
      then ∃ r, q_offer env limit ban_time now A s (own_operation s (sp_queue A s) c) A' r
      else A' = A
  | Raw s ext => ∃ r, q_step env top_filter limit ban_time now A (CmdSubmit ext s Submit) A' r
  end.

Inductive q_submissions (limit : Limit) (ban_time now : Z) : Spec → list submission → Spec → Prop :=
| q_subs_nil A : q_submissions limit ban_time now A [] A
| q_subs_cons A x A1 l A2 :
    q_submission limit ban_time now A x A1 → q_submissions limit ban_time now A1 l A2 → q_submissions limit ban_time now A (x :: l) A2.

Lemma q_submissions_app limit ban_time now A l A1 l' A2 :
  q_submissions limit ban_time now A l A1 → q_submissions limit ban_time now A1 l' A2 → q_submissions limit ban_time now A (l ++ l') A2.
Proof. induction 1; [done|]. intros. econstructor; eauto. Qed.

Lemma q_submission_one limit ban_time now A x A' :
  q_submissions limit ban_time now A [x] A' ↔ q_submission limit ban_time now A x A'.
Proof.
  split; [|intros Hx; econstructor; [done|constructor]].
  intros Hq. inversion Hq as [|? ? A1 ? ? Hone Hrest]; subst. by inversion Hrest; subst.
Qed.

(** From one author to the next, with the parameters of the pool. *)
Definition submits now a (l : list submission) a' : Prop :=
  limit_of a' = limit_of a ∧ ban_time_of a' = ban_time_of a ∧
  q_submissions (limit_of a) (ban_time_of a) now (spec_of a) l (spec_of a').

Lemma submits_nil now a : submits now a [] a.
Proof. split; [done|]. split; [done|constructor]. Qed.

Lemma submits_app now a l a1 l' a2 : submits now a l a1 → submits now a1 l' a2 → submits now a (l ++ l') a2.
Proof.
  intros (Hl & Ht & Hq) (Hl' & Ht' & Hq'). rewrite Hl, Ht in *. split; [done|]. split; [done|]. by eapply q_submissions_app.
Qed.

(** What stays in order about an author. *)
Record in_order a (n : nat) : Prop := {
  io_inv : author_inv a;
  io_made : all_made env a;
  io_room : room_all a n;
  io_short : short_queues a;
}.

Lemma in_order_le a n m : (m ≤ n)%nat → in_order a n → in_order a m.
Proof. intros Hle [? ? Hr ?]. split; try done. intros s. specialize (Hr s). unfold VPoolInv.room, BaseOps.ids_left in *. lia. Qed.

Lemma submit_in_order now a ext s n :
  in_order a (S n) →
  ∃ a', submit_trusted_call env top_filter try_send now a s ext = Ret a' ∧ in_order a' n ∧ submits now a [Raw s ext] a'.
Proof.
  intros [Hi Hm Hr Hs]. destruct (run_one_spec env top_filter try_send (kr_short ready) now a (CmdSubmit ext s Submit) n Hi Hm Hr)
    as (a' & r & Hrun & Hi' & Hm' & Hr' & Hlim & Htime & Hq).
  exists a'. split.
  { cbn [run_one] in Hrun. unfold submit_trusted_call, submit_top. destruct (process_top _ _ _ _ _ _ _ _) as [[a1 r1]| |]; [|done..].
    cbn in Hrun |- *. by injection Hrun as -> _. }
  split; [split; try done; unfold short_queues; by rewrite Hlim|]. split; [done|]. split; [done|].
  apply q_submission_one. by exists r.
Qed.

Lemma own_in_order now a c s n :
  in_order a (S n) → is_Some (observed s) →
  ∃ a', own_submit now a c s = Ret (a', Ok tt) ∧ in_order a' n ∧ submits now a [Own s c] a'.
Proof.
  intros Ha [st Ho]. unfold submit_own. rewrite (sign_own a c s st) by (done || apply Ha). cbn [mbind outcome_bind].
  unfold encrypt_with_key. rewrite (kr_key ready). set (top := indirect_call _).
  destruct (kr_encrypt ready (encode_top env top)) as (ext & -> & Hdec).
  destruct (submit_in_order now a ext s n Ha) as (a' & -> & Ha' & Hlim & Htime & Hq). cbn [mbind outcome_bind].
  exists a'. split; [done|]. split; [done|]. split; [done|]. split; [done|].
  apply q_submission_one in Hq as [r Hone]. apply q_submission_one. revert Hone. cbn [q_step q_submission]. unfold open_request, own_operation. rewrite Ho. cbn [spec_of sp_queue]. fold top.
  assert (top_filter top = true) as Hf by apply (kr_filter ready).
  case_decide as Hd; [rewrite Hd, (kr_key ready), Hdec, (kr_decode ready), Hf; by exists r|].
  destruct (shard_exists env s) as [[]|]; [done|by intros [-> _]..].
Qed.

Lemma transfers_in_order id now a transfers n :
  in_order a (length transfers + n) → is_Some (observed (get_default_shard env)) →
  ∃ a', shield_transfers env top_filter try_send encrypt derive_ed25519 get_mrenclave_of_self observed id now a transfers = Ret (a', Ok tt) ∧
    in_order a' n ∧
    submits now a ((λ t, Own (get_default_shard env) (balance_shield enclave (bt_from t) (bt_amount t) id)) <$> transfers) a'.
Proof.
  intros Ha Ho. revert a Ha. induction transfers as [|t transfers IH]; intros a Ha; cbn [shield_transfers fmap list_fmap].
  { exists a. split_and!; try done. apply submits_nil. }
  unfold shield_transfer. rewrite enclave_account_is.
  destruct (own_in_order now a (balance_shield enclave (bt_from t) (bt_amount t) id) (get_default_shard env) _ Ha Ho)
    as (a1 & -> & Ha1 & Hq1). cbn [mbind outcome_bind].
  destruct (IH a1 Ha1) as (a2 & -> & Ha2 & Hq2). exists a2. split; [done|]. split; [done|]. exact (submits_app _ _ _ _ _ _ Hq1 Hq2).
Qed.

(** ** Blocks *)

(** What a call of a block submits; a call that fails submits nothing. *)
Definition planned (id : ParentchainId) (c : IndirectCall) : option submission :=
  match c with
  | ShieldFunds args =>
      account_vec ← decrypt env key (account_encrypted args);
      account ← ok (decode account_vec);
      _ ← observed (sf_shard args);
      Some (Own (sf_shard args) (balance_shield enclave account (sf_amount args) Integritee))
  | Invoke request => Some (Raw (req_shard request) (cyphertext request))
  | TimestampSet args =>
      _ ← observed (get_default_shard env); Some (Own (get_default_shard env) (timestamp_set enclave (ts_now args) id))
  end.

Lemma own_not_observed now a c s : observed s = None → ∃ e, own_submit now a c s = Ret (a, Err e).
Proof.
  intros Ho. unfold submit_own, sign_call_with_self, get_enclave_account_nonce. rewrite (kr_mrenclave ready), enclave_account_is.
  unfold get_enclave_call_signing_key. rewrite (kr_key ready), (kr_pair ready), Ho. by eexists.
Qed.

Abbreviation dispatch' := (dispatch env top_filter try_send encrypt derive_ed25519 get_mrenclave_of_self observed).

Lemma dispatch_planned id now a c n :
  in_order a (S n) →
  match planned id c with
  | Some x => ∃ a', dispatch' id now a c = Ret (a', Ok tt) ∧ in_order a' n ∧ submits now a [x] a'
  | None => ∃ e, dispatch' id now a c = Ret (a, Err e)
  end.
Proof.
  intros Ha. destruct c as [args|request|args]; cbn [planned dispatch].
  - unfold dispatch_shield_funds, decrypt_with_key. rewrite (kr_key ready).
    destruct (decrypt env key (account_encrypted args)) as [v|]; cbn; [|by eexists].
    destruct (decode v) as [account|e]; cbn; [|by eexists]. rewrite enclave_account_is.
    destruct (observed (sf_shard args)) as [st|] eqn:Ho; cbn; [|by apply own_not_observed].
    apply own_in_order; [done|]. by eexists.
  - unfold dispatch_invoke. destruct (submit_in_order now a (cyphertext request) (req_shard request) n Ha) as (a' & -> & Ha' & Hq).
    by exists a'.
  - unfold dispatch_timestamp_set. rewrite enclave_account_is.
    destruct (observed (get_default_shard env)) as [st|] eqn:Ho; cbn; [|by apply own_not_observed].
    apply own_in_order; [done|]. by eexists.
Qed.

Context {Ev Ed : Type} `{ParentchainEvents Ev Ed}.
Context `{NodeMetadataCalls} `{Decode ShieldFundsArgs} `{Decode Request} `{Decode TimestampSetArgs}.
Context `{Blake2} `{Encode IndirectCall} (merkle_root : list N → N).
Context (confirm_call : CallIndex → ShardIdentifier → N → Z → N → OpaqueCall).

(** The calls of the extrinsics that succeeded on the parentchain. *)
Definition calls_in (id : ParentchainId) (m : NodeMetadata) (xts : list (Bytes * ExtrinsicStatus)) : list IndirectCall :=
  omap (λ '(xt, status), match status with XtSuccess => filter_into_from_metadata id xt m | XtFailed => None end) xts.

(** Those that are executed, and what they submit. *)
Definition executed (id : ParentchainId) (cs : list IndirectCall) : list IndirectCall := filter (λ c, is_Some (planned id c)) cs.
Definition transfers_in (id : ParentchainId) (events : Ev) : list BalanceTransfer :=
  match id, observed (get_default_shard env) ≫= shard_vault with
  | (Integritee | TargetA), Some (vault, _) => to_vault vault (get_transfer_events events)
  | _, _ => []
  end.

(** The shielding of each of them. *)
Definition shieldings (id : ParentchainId) (events : Ev) : list submission :=
  (λ t, Own (get_default_shard env) (balance_shield enclave (bt_from t) (bt_amount t) id)) <$> transfers_in id events.

Lemma each_planned id m now a xts acc n :
  in_order a (length xts + n) →
  ∃ a', execute_each env top_filter try_send encrypt derive_ed25519 get_mrenclave_of_self observed id (MkRepository (Some m)) now a xts acc =
      Ret (a', Ok (acc ++ (call_hash <$> executed id (calls_in id m xts)))) ∧
    in_order a' n ∧ submits now a (omap (planned id) (calls_in id m xts)) a'.
Proof.
  revert a acc. induction xts as [|[xt status] xts IH]; intros a acc Ha; cbn [execute_each].
  { exists a. rewrite app_nil_r. split_and!; [done|done|apply submits_nil]. }
  assert (in_order a (length xts + n)) as Ha0 by (eapply in_order_le; [|done]; simpl; lia).
  unfold calls_in. cbn [omap list_omap get_from_metadata metadata_lock]. fold (calls_in id m xts).
  destruct (filter_into_from_metadata id xt m) as [c|]; [|destruct status; by apply IH]. destruct status; [|by apply IH].
  pose proof (dispatch_planned id now a c (length xts + n) Ha) as Hd. unfold executed. rewrite filter_cons. cbn [omap list_omap].
  destruct (planned id c) as [x|] eqn:Hp.
  - destruct Hd as (a1 & -> & Ha1 & Hq). cbn [mbind outcome_bind]. rewrite decide_True by done.
    destruct (IH a1 (acc ++ [call_hash c]) Ha1) as (a2 & -> & Ha2 & Hq2). exists a2. rewrite <-app_assoc. split; [done|]. split; [done|].
    exact (submits_app _ _ _ _ _ _ Hq Hq2).
  - destruct Hd as (e & ->). cbn [mbind outcome_bind]. rewrite decide_False by (by intros [? ?]). by apply IH.
Qed.

Lemma events_planned id now a events n :
  in_order a (length (transfers_in id events) + n) →
  ∃ a', match get_shard_vault observed (get_default_shard env) with
        | Ok (vault, _) => handle_events env top_filter try_send encrypt derive_ed25519 get_mrenclave_of_self observed id now a events vault
        | Err _ => Ret (a, Ok tt)
        end = Ret (a', Ok tt) ∧ in_order a' n ∧ submits now a (shieldings id events) a'.
Proof.
  intros Ha. unfold shieldings, get_shard_vault, transfers_in, handle_events in *.
  destruct (observed (get_default_shard env)) as [st|] eqn:Ho; cbn in *.
  2: { exists a. destruct id; (split_and!; [done|done|apply submits_nil]). }
  destruct (shard_vault st) as [[v vid]|] eqn:Hv; cbn in *.
  - destruct id; [apply transfers_in_order; [done|by rewrite Ho]..|]. exists a. split_and!; [done..|apply submits_nil].
  - exists a. destruct id; (split_and!; [done|done|apply submits_nil]).
Qed.

(** C13: Whatever a block holds, the executor returns, and submits to the author the
    shielding of every transfer to the vault and then the calls of the extrinsics
    that succeeded, in the order of the block; the confirmation names exactly the
    calls that were dispatched.  Without metadata, or with events that cannot be
    read, nothing is submitted; when the events do not have
    one status per extrinsic, the shieldings are submitted and the block then fails.
    What the queues and the bans of the author become is what its specification says.
    The enclave has its keys, and the pool has numbers left for the operations. *)
Theorem indirect_calls_follow_the_block id metadata now a n number hash xts raw :
  in_order a n →
  (∀ m events, metadata_lock metadata = Some m → events_new m hash raw = Some events → (length (transfers_in id events) + length xts ≤ n)%nat) →
  ∃ a' res, execute_indirect_calls_in_extrinsics env top_filter try_send encrypt derive_ed25519 get_mrenclave_of_self observed
      merkle_root confirm_call id metadata now a number hash xts raw = Ret (a', res) ∧ author_inv a' ∧
    match metadata_lock metadata ≫= λ m, pair m <$> events_new m hash raw with
    | None => a' = a ∧ ∃ e, res = Err e
    | Some (m, events) =>
        let statuses := get_extrinsic_statuses events in
        if decide (length statuses = length xts) then
          let calls := calls_in id m (zip xts statuses) in
          submits now a (shieldings id events ++ omap (planned id) calls) a' ∧
          res = match id with
            | Integritee =>
                match confirm_processed_parentchain_block_call_indexes m with
                | Ok i => Ok (Some (confirm_call i (get_default_shard env) hash number (merkle_root (call_hash <$> executed id calls))))
                | Err e => Err (IcMetadata e)
                end
            | _ => Ok None
            end
        else
          submits now a (shieldings id events) a' ∧ res = Err (IcOther "Extrinsic Status and Extrinsic count not equal")
    end.
Proof.
  intros Ha Hn. destruct metadata as [[m|]].
  2: { eexists a, _. split; [done|]. split; [apply Ha|]. cbn. split; [done|by eexists]. }
  unfold execute_indirect_calls_in_extrinsics. cbn [get_from_metadata metadata_lock mbind option_bind] in *.
  specialize (Hn m). destruct (events_new m hash raw) as [events|] eqn:Hev; cbn [fmap option_fmap option_map].
  2: { eexists a, _. split; [done|]. split; [apply Ha|]. split; [done|by eexists]. }
  specialize (Hn events eq_refl eq_refl). set (statuses := get_extrinsic_statuses events).
  destruct (events_planned id now a events (length xts)) as (a1 & -> & Ha1 & Hq1); [by eapply in_order_le; [exact Hn|]|]. cbn [mbind outcome_bind].
  destruct (decide (length statuses = length xts)) as [Hlen|Hlen].
  2: { rewrite decide_True by done. eexists a1, _. split; [done|]. split; [apply Ha1|done]. }
  rewrite decide_False by (by intros []).
  destruct (each_planned id m now a1 (zip xts statuses) [] 0) as (a2 & -> & Ha2 & Hq2).
  { eapply in_order_le; [|exact Ha1]. rewrite length_zip. lia. }
  cbn [mbind outcome_bind app]. eexists a2, _. split; [done|]. split; [apply Ha2|]. split; [exact (submits_app _ _ _ _ _ _ Hq1 Hq2)|].
  destruct id; [|done..]. unfold create_processed_parentchain_block_call. cbn [get_from_metadata metadata_lock].
  by destruct (confirm_processed_parentchain_block_call_indexes m).
Qed.

(** ** Nonces *)

(** The pool appends one operation at most. *)
Lemma q_process_grows limit banned q top :
  let q' := (q_process env limit banned q top).1 in
  (length q' ≤ S (length q))%nat ∧ (length q' = S (length q) → data <$> q' = (data <$> q) ++ [top]).
Proof.
  unfold q_process. destruct banned; [cbn; lia|]. case_decide; [cbn; lia|].
  destruct (validate top) as [vt|[]]; [|cbn; lia..]. unfold q_submit.
  destruct (q_import _ _ _) as [q1 res] eqn:Hq. apply q_import_cases in Hq as [(e & -> & ->)|[-> ->]]; cbn [fst]; [lia|].
  set (q2 := q ++ [pool_operation env top vt]). pose proof (q_dropped_shrink limit q2) as Hd.
  assert (length (q_dropped limit q2) + length (q_shrink limit q2) = S (length q))%nat as Hl
    by (rewrite <-length_app, Hd; unfold q2; rewrite length_app; simpl; lia).
  split; [lia|]. intros Hs. assert (q_dropped limit q2 = []) as Hnil by (apply nil_length_inv; lia).
  rewrite Hnil in Hd. cbn in Hd. rewrite Hd. unfold q2. by rewrite fmap_app.
Qed.

Lemma pending_own_snoc q q' top c :
  data <$> q' = (data <$> q) ++ [top] → top = indirect_call c → call_sender (call c) = enclave →
  length (pending_own q') = S (length (pending_own q)).
Proof.
  intros Hq -> Hc. unfold pending_own. rewrite Hq, !List.filter_app, length_app. cbn.
  rewrite bool_decide_true by (by f_equal). cbn. lia.
Qed.

Definition nonce_at s : Z := match observed s with Some st => account_nonce st enclave | None => 0 end.

(** The enclave's calls from a nonce on. *)
Definition signed_from (n : Z) s (cs : list TrustedCall) : list TOP :=
  imap (λ i c, indirect_call (sign_call c kp (u32_wrap (n + Z.of_nat i)) mr s)) cs.

Lemma own_grows limit t now A s cs A' :
  q_submissions limit t now A (Own s <$> cs) A' → (length (sp_queue A' s) ≤ length (sp_queue A s) + length cs)%nat.
Proof.
  revert A. induction cs as [|c cs IH]; intros A Hq; inversion Hq as [|? ? A1 ? ? Hone Hrest]; subst; [cbn; lia|].
  specialize (IH _ Hrest). cbn [q_submission] in Hone. case_decide.
  - destruct Hone as (r & _ & Hone & _). set (banned := bool_decide _) in Hone.
    pose proof (q_process_grows limit banned (sp_queue A s) (own_operation s (sp_queue A s) c)) as [Hle _].
    rewrite <-Hone in Hle. simpl. lia.
  - rewrite Hone in IH. simpl. lia.
Qed.

Lemma own_append limit t now A s cs A' :
  Forall (λ c, call_sender c = enclave) cs → q_submissions limit t now A (Own s <$> cs) A' →
  length (sp_queue A' s) = (length (sp_queue A s) + length cs)%nat →
  data <$> sp_queue A' s = (data <$> sp_queue A s) ++ signed_from (nonce_at s + Z.of_nat (length (pending_own (sp_queue A s)))) s cs.
Proof.
  intros Hcs. revert A. induction Hcs as [|c cs Hc _ IH]; intros A Hq Hl; inversion Hq as [|? ? A1 ? ? Hone Hrest]; subst.
  { by rewrite app_nil_r. }
  pose proof (own_grows _ _ _ _ _ _ _ Hrest) as Hg. simpl in Hl. cbn [q_submission] in Hone. case_decide; [|rewrite Hone in *; lia].
  destruct Hone as (r & _ & Hone & _). set (banned := bool_decide _) in Hone.
  pose proof (q_process_grows limit banned (sp_queue A s) (own_operation s (sp_queue A s) c)) as [Hle Happ].
  rewrite <-Hone in Hle, Happ. specialize (Happ ltac:(lia)). rewrite (IH _ Hrest ltac:(lia)), Happ, <-app_assoc. f_equal.
  unfold signed_from. cbn [imap app]. f_equal; [by rewrite Z.add_0_r|].
  rewrite (pending_own_snoc _ _ _ _ Happ eq_refl Hc). apply imap_ext. intros i x _. cbn. do 3 f_equal. lia.
Qed.


(** ** Forged calls *)

Context (error_text : StfError → string) `{NodeCalls} (top_hash : TOP → TxHash) (duration_now : nat → Duration).

(** A call that says it is the enclave's, with a signature that is not. *)
Definition forged s (o : TOP) : Prop :=
  ∃ c, to_call o = Some c ∧ call_sender (call c) = enclave ∧ verify_signature c mr s = false.

Abbreviation run_queue := (@Executor.execute_calls TrustedCallSigned G Mr PH (trusted_stf error_text) top_hash duration_now (λ _, Ok mr)).

Lemma forged_calls_fail i ends_at st s acc fs rest :
  Forall (forged s) fs →
  ∃ done i', run_queue i ends_at st s acc (fs ++ rest) = (st, acc ++ done) ∧ Forall (λ e, Executor.is_success e = false) done ∨
    run_queue i ends_at st s acc (fs ++ rest) = run_queue i' ends_at st s (acc ++ done) rest ∧ Forall (λ e, Executor.is_success e = false) done.
Proof.
  intros Hfs. revert i acc. induction Hfs as [|o fs (c & Hc & _ & Hv) _ IH]; intros i acc; cbn [app Executor.execute_calls].
  { exists [], i. right. by rewrite app_nil_r. }
  destruct (Z.ltb ends_at (duration_now i)); [exists [], i; left; by rewrite app_nil_r|].
  unfold Executor.execute_trusted_call_on_stf. rewrite Hc. cbn [tcs_verify_signature trusted_stf]. rewrite Hv.
  destruct (IH (S i) (acc ++ [Executor.failed (from_top o)])) as (dn & i' & [[-> Hd]|[-> Hd]]);
    exists (Executor.failed (from_top o) :: dn), i'; [left|right]; (split; [by rewrite <-app_assoc|by constructor]).
Qed.

Lemma forged_counted s q : Forall (forged s) (data <$> q) → length (pending_own q) = length (data <$> q).
Proof.
  unfold pending_own. induction 1 as [|o fs (c & Hc & Hs & _) _ IH]; [done|].
  assert (calls_only_filter o = true ∧ signed_caller_account o = Some enclave) as [Hco Hsc].
  { destruct o; cbn in Hc; simplify_eq; (split; [done|]); cbn; by rewrite Hs. }
  cbn [List.filter]. rewrite Hco. cbn [List.filter]. rewrite bool_decide_true by done. cbn. by rewrite IH.
Qed.

(** The pending calls are counted whatever their signatures: with calls in the queue
    that only claim to be the enclave's, the shielding of a transfer is accepted
    and queued, but the run of the queue executes nothing, for the nonce is ahead. *)
Theorem forged_calls_defeat_shielding id now a st who amount n fs :
  let s := get_default_shard env in
  in_order a (S n) → observed s = Some st → data <$> queue_at a s = fs → fs ≠ [] → Forall (forged s) fs →
  (0 ≤ account_nonce st enclave)%Z → (account_nonce st enclave + Z.of_nat (length fs) < 2 ^ 32)%Z →
  ∃ a', shield_transfer env top_filter try_send encrypt derive_ed25519 get_mrenclave_of_self observed id now a who amount = Ret (a', Ok tt) ∧
    (length (queue_at a' s) = S (length (queue_at a s)) →
      ∀ i ends_at, ∃ done, run_queue i ends_at st s [] (data <$> queue_at a' s) = (st, done) ∧
        Forall (λ e, Executor.is_success e = false) done).
Proof.
  intros s Ha Ho Hfs Hne Hf H0n Hlt. unfold shield_transfer. rewrite enclave_account_is. fold s.
  destruct (own_in_order now a (balance_shield enclave who amount id) s n Ha) as (a' & -> & Ha' & _ & _ & Hq); [by rewrite Ho|].
  exists a'. split; [done|]. intros Hl i ends_at. change (queue_at a' s) with (sp_queue (spec_of a') s).
  rewrite (own_append (limit_of a) (ban_time_of a) now (spec_of a) s [balance_shield enclave who amount id] (spec_of a'));
    [|by repeat constructor|exact Hq|cbn; lia]. cbn [spec_of sp_queue].
  rewrite Hfs. destruct (forged_calls_fail i ends_at st s [] fs (signed_from (nonce_at s + Z.of_nat (length (pending_own (queue_at a s)))) s
    [balance_shield enclave who amount id]) Hf) as (dn & i' & [[-> Hd]|[-> Hd]]); [by exists dn|].
  pose proof (forged_counted s (queue_at a s)) as Hk. rewrite Hfs in Hk. specialize (Hk Hf).
  unfold nonce_at. rewrite Ho, Hk. cbn [signed_from imap Executor.execute_calls app].
  destruct (Z.ltb ends_at (duration_now i')); [by exists dn|].
  assert (∃ e, Executor.execute_trusted_call_on_stf (H2 := trusted_stf error_text) top_hash (Ok mr) st
    (indirect_call (sign_call (balance_shield enclave who amount id) kp (u32_wrap (account_nonce st enclave + Z.of_nat (length fs) + Z.of_nat 0)) mr s))
    s Executor.PostNone = (st, Ok e) ∧ Executor.is_success e = false) as (e & -> & He).
  { unfold Executor.execute_trusted_call_on_stf. cbn [to_call]. destruct (tcs_verify_signature _ _ _); [|by eexists].
    cbn [stf_execute_call trusted_stf]. unfold execute. cbn [sign_call call nonce call_sender].
    unfold u32_wrap. rewrite Z.mod_small by lia. rewrite decide_True; [by eexists|]. destruct fs; [done|]. simpl. lia. }
  eexists. split; [done|]. apply Forall_app. split; [done|by repeat constructor].
Qed.
End executor.

(** ** Witnesses *)

Module IndirectSample.
Import Sample OnChainSample PalletSample.

Definition id_code (id : ParentchainId) : Z := match id with Integritee => 0 | TargetA => 1 | TargetB => 2 end.
Definition code_id (z : Z) : ParentchainId := if (z =? 0)%Z then Integritee else if (z =? 1)%Z then TargetA else TargetB.

#[export] Instance trusted_call_eq_dec : EqDecision TrustedCall.
Proof. solve_decision. Defined.
#[export] Instance trusted_call_countable : Countable TrustedCall.
Proof.
  refine (inj_countable (λ c : TrustedCall, match c with
    | noop who => (0%nat, [who], [])
    | balance_set_balance root who f r => (1%nat, [root; who], [f; r])
    | balance_transfer from to v => (2%nat, [from; to], [v])
    | balance_unshield who ben v s => (3%nat, [who; ben; s], [v])
    | balance_shield e who v id => (4%nat, [e; who], [v; id_code id])
    | timestamp_set e now id => (5%nat, [e], [now; id_code id])
    end) (λ x, match x with
    | (0%nat, [who], []) => Some (noop who)
    | (1%nat, [root; who], [f; r]) => Some (balance_set_balance root who f r)
    | (2%nat, [from; to], [v]) => Some (balance_transfer from to v)
    | (3%nat, [who; ben; s], [v]) => Some (balance_unshield who ben v s)
    | (4%nat, [e; who], [v; id]) => Some (balance_shield e who v (code_id id))
    | (5%nat, [e], [now; id]) => Some (timestamp_set e now (code_id id))
    | _ => None
    end) _).
  intros []; try done; by destruct parentchain_id.
Defined.
#[export] Instance signed_call_eq_dec : EqDecision TrustedCallSigned.
Proof. solve_decision. Defined.
#[export] Instance signed_call_countable : Countable TrustedCallSigned.
Proof. refine (inj_countable' (λ c, (call c, nonce c, call_signature c)) (λ '(a, b, c), MkSigned a b c) _). by intros []. Defined.

Abbreviation Top := (StfTrustedOperation TrustedCallSigned Empty_set).
#[export] Instance top_eq_dec : EqDecision Top.
Proof. solve_decision. Defined.
#[export] Instance top_countable : Countable Top.
Proof.
  refine (inj_countable' (λ o : Top, match o with indirect_call c => (false, c) | direct_call c => (true, c) | get g => match g with end end)
    (λ '(b, c), if b then direct_call c else indirect_call c) _). by intros [| |[]].
Defined.
#[export] Instance no_getters : PoolTransactionValidation Empty_set := {| validate := λ g : Empty_set, match g with end |}.
#[export] Instance no_getters_uniform : UniformValidation Empty_set.
Proof. split. intros []. Qed.

(** Every enclave call has key 9; a request is not encrypted. *)
Definition decode_call (b : Bytes) : option Top := match count_decode b with Ok o => Some o | Err _ => None end.
Definition env : Enclave N Top :=
  MkEnclave (λ s, Some (bool_decide (s = 0%N))) (Some [0%N]) (Some 9%N) (λ _ b, Some b) decode_call count_encode
    (λ o, (Npos (countable.encode o), 100%Z)) (λ _, "b"%string).
Definition observed (s : ShardIdentifier) : option SgxExternalities := if decide (s = 0%N) then Some vaulted else None.
Definition encrypt (_ : N) (b : Bytes) : option Bytes := Some b.
#[export] Instance enc_unit : Encode unit := count_encode.

Lemma keys : keys_ready env calls_only_filter encrypt Some (Ok tt) 9%N 9%N tt.
Proof.
  split; try done; [by eexists|]. intros o. unfold env, decode_call, encode_top, decode_top, count_decode, count_encode.
  by rewrite countable.decode_encode.
Qed.

Definition author : AuthorState Top unit := new_author default_options.

Lemma author_in_order n : (Z.of_nat n ≤ u64_max)%Z → in_order env author n.
Proof.
  intros Hn. destruct (author_inv_new (Sink := unit) env default_options) as [Hi Hm]; [apply default_small..|].
  split; [done|done|by apply (room_new default_options)|]. unfold short_queues. by vm_compute.
Qed.

(** *** The parentchain *)

Definition Event : Type := BalanceTransfer + ExtrinsicStatus.
Definition block_events : list Event :=
  [inr XtSuccess; inl (MkTransfer 7%N 55%N 2000000000); inl (MkTransfer 7%N 56%N 1); inl (MkTransfer 8%N 55%N 3000000000); inr XtFailed].
#[export] Instance block_event_class : ParentchainEvents (list Event) Event := {|
  events_new _ _ raw := match raw with [] => Some block_events | _ => None end;
  events_iter l := Ok <$> l;
  as_extrinsic_success e := Ok match e with inr XtSuccess => true | _ => false end;
  as_extrinsic_failed e := Ok match e with inr XtFailed => true | _ => false end;
  as_balance_transfer e := Ok match e with inl t => Some t | _ => None end;
|}.
#[export] Instance metadata_calls : NodeMetadataCalls := {|
  shield_funds_call_indexes _ := Ok (1, 0)%N;
  invoke_call_indexes _ := Ok (1, 1)%N;
  timestamp_set_call_indexes _ := Ok (1, 2)%N;
  confirm_processed_parentchain_block_call_indexes _ := Ok (1, 3)%N;
  decode_extrinsic b := match b with i :: j :: args => Ok ((i, j), args) | _ => Err "length"%string end;
|}.
#[export] Instance dec_shield : Decode ShieldFundsArgs := λ b,
  match b with s :: amount :: account => Ok (MkShieldArgs s account (Z.of_N amount)) | _ => Err "length"%string end.
#[export] Instance dec_invoke : Decode Request := λ b, match b with s :: c => Ok (MkRequest s c) | _ => Err "length"%string end.
#[export] Instance dec_timestamp : Decode TimestampSetArgs := λ b,
  match b with [t] => Ok (MkTimestampArgs (Z.of_N t)) | _ => Err "length"%string end.
#[export] Instance enc_indirect : Encode IndirectCall := λ c,
  match c with
  | ShieldFunds args => 0%N :: sf_shard args :: account_encrypted args
  | Invoke request => 1%N :: cyphertext request
  | TimestampSet args => [2%N; Z.to_N (ts_now args)]
  end.
Definition metadata : NodeMetadata := MkMetadata 1 1.
Definition confirm_block (i : N * N) (s : ShardIdentifier) (hash : N) (number : Z) (root : N) : Bytes := [i.1; i.2; s; hash; Z.to_N number; root].
End IndirectSample.

Section witnesses.
Import Sample OnChainSample PalletSample IndirectSample.
#[local] Existing Instance listed_order.

(** Two transfers to the vault, a timestamp that was set, and a shielding extrinsic that
    failed: two shielding calls and the timestamp are submitted. *)
Lemma indirect_calls_follow_the_block_witness :
  ∃ a', execute_indirect_calls_in_extrinsics env calls_only_filter demo_send encrypt Some (Ok tt) observed
      (λ l, N.of_nat (length l)) confirm_block Integritee (MkRepository (Some metadata)) 0 author 5 6%N [[1; 2; 100]; [1; 0; 0; 5; 7]]%N [] =
    Ret (a', Ok (Some [1; 3; 0; 6; 5; 1]%N)) ∧ author_inv a' ∧
    submits env calls_only_filter observed 9%N tt 0 author
      [Own 0%N (balance_shield 9 7 2000000000 Integritee)%N; Own 0%N (balance_shield 9 8 3000000000 Integritee)%N;
       Own 0%N (timestamp_set 9 100 Integritee)%N] a' ∧
    call <$> omap (λ o, to_call (data o)) (queue_at a' 0%N) =
      [balance_shield 9 7 2000000000 Integritee; balance_shield 9 8 3000000000 Integritee; timestamp_set 9 100 Integritee]%N.
Proof.
  destruct (indirect_calls_follow_the_block env calls_only_filter demo_send encrypt Some (Ok tt) observed 9%N 9%N tt keys
    (λ l, N.of_nat (length l)) confirm_block Integritee (MkRepository (Some metadata)) 0 author 4 5 6%N [[1; 2; 100]; [1; 0; 0; 5; 7]]%N [])
    as (a' & res & Heq & Hi & Hsub).
  - apply author_in_order. by vm_compute.
  - intros m events [= <-] [= <-]. by apply Nat.leb_le; vm_compute.
  - destruct Hsub as [Hsub ->]. exists a'. split; [exact Heq|]. split; [exact Hi|]. split; [exact Hsub|].
    assert (match execute_indirect_calls_in_extrinsics env calls_only_filter demo_send encrypt Some (Ok tt) observed
      (λ l, N.of_nat (length l)) confirm_block Integritee (MkRepository (Some metadata)) 0 author 5 6%N [[1; 2; 100]; [1; 0; 0; 5; 7]]%N [] with
      | Ret (a, _) => call <$> omap (λ o, to_call (data o)) (queue_at a 0%N) | _ => [] end =
      [balance_shield 9 7 2000000000 Integritee; balance_shield 9 8 3000000000 Integritee; timestamp_set 9 100 Integritee]%N) as Hc
      by (vm_compute; reflexivity).
    by rewrite Heq in Hc.
Defined.


(** A call in the name of the enclave that somebody else submitted. *)
Definition forgery : Top := direct_call (MkSigned (noop 9%N) 0 []).
Definition tricked : AuthorState Top unit :=
  match submit_top env calls_only_filter demo_send 0 author (count_encode forgery) 0%N with Ret (a, _) => a | _ => author end.

Lemma forged_calls_defeat_shielding_witness :
  ∃ a' done,
    shield_transfer env calls_only_filter demo_send encrypt Some (Ok tt) observed Integritee 0 tricked 7%N 2000000000 = Ret (a', Ok tt) ∧
    length (queue_at a' 0%N) = 2%nat ∧
    @Executor.execute_calls TrustedCallSigned Empty_set unit N (trusted_stf (λ _, "error"%string)) (hash_of env) (λ _, 0%Z) (λ _, Ok tt)
      0 10 vaulted 0%N [] (data <$> queue_at a' 0%N) = (vaulted, done).
Proof.
  destruct (submit_in_order env calls_only_filter demo_send encrypt Some (Ok tt) observed 9%N 9%N tt keys 0 author (count_encode forgery) 0%N 1)
    as (a1 & Hs & Ha1 & _); [apply author_in_order; by vm_compute|].
  assert (a1 = tricked) as ->.
  { unfold tricked. unfold submit_trusted_call in Hs.
    destruct (submit_top env calls_only_filter demo_send 0 author (count_encode forgery) 0%N) as [[a2 r]| |]; [|done..]. by injection Hs. }
  destruct (forged_calls_defeat_shielding env calls_only_filter demo_send encrypt Some (Ok tt) observed 9%N 9%N tt keys
    (λ _, "error"%string) (hash_of env) (λ _, 0%Z) Integritee 0 tricked vaulted 7%N 2000000000 0 [forgery]) as (a' & Heq & Hrun).
  - exact Ha1.
  - done.
  - by vm_compute.
  - done.
  - constructor; [|constructor]. exists (MkSigned (noop 9%N) 0 []). split_and!; [done|done|by vm_compute].
  - by vm_compute.
  - by vm_compute.
  - assert (match shield_transfer env calls_only_filter demo_send encrypt Some (Ok tt) observed Integritee 0 tricked 7%N 2000000000 with
            | Ret (a', _) => length (queue_at a' 0%N) = 2%nat | _ => False end) as Hl by by vm_compute.
    rewrite Heq in Hl. assert (length (queue_at a' 0%N) = S (length (queue_at tricked 0%N))) as Hl' by (rewrite Hl; by vm_compute).
    assert (get_default_shard env = 0%N) as Hd by done. rewrite Hd in Hrun.
    destruct (Hrun Hl' 0%nat 10%Z) as (dn & Hdn & _). exists a', dn. split; [exact Heq|]. split; [exact Hl|exact Hdn].
Defined.
End witnesses.
