(* ===== verification/ParentchainClient.v ===== *)
(** The import of parentchain blocks with the light client: the accessor of the
    light client behind the interface that the importer uses
    (src/core/parentchain/light-client/src/{concurrent_access,light_validation}.rs,
    src/core/parentchain/block-importer/src/block_importer.rs), the ecall that
    takes blocks and events from the host (src/enclave-runtime/src/lib.rs), and the
    loop of the service that fetches them from a node
    (src/service/src/parentchain_handler.rs,
    src/core-primitives/node-api/api-client-extensions/src/chain.rs). *)

From stdpp Require Import base gmap fin_maps numbers strings list.
From S2P Require Import Prelude Collections PoolTypes Externalities SidechainDb StfTypes SidechainBlocks SidechainState StateFileIo StateHandler.
From S2P Require Import Author AuthorProps StfExecutor Dispatcher SidechainOCalls Consensus ParentchainImport BlockImport BlockImportInv ConsensusSample OnChain LightClient LightClientInv LightClientProps.

Import Ext(SgxExternalities).
Open Scope worker_scope.

(** Justifications of a signed block. *)
Class Justified (PB Js : Type) := pb_justifications : PB → option Js.

(** The validator of the importer, and the node that extrinsics are sent to. *)
Record Client (Fs PH Nd : Type) := MkClient {
  cl_accessor : ValidatorAccessor Fs PH;
  cl_node : Nd;
}.
Arguments MkClient {Fs PH Nd} _ _.
Arguments cl_accessor {Fs PH Nd} _.
Arguments cl_node {Fs PH Nd} _.

Module Pc.

Section client.
Context {PH PB VS Js Log : Type} `{ParentchainHeader PH} `{ParentHash PH} `{Grandpa VS Js} `{GrandpaLog PH Log}.
Context `{ParentchainBlock PB PH} `{Justified PB Js}.
Context `{Decode (GrandpaJustification PH)} (check_message_signature : Precommit → N → Bytes → Z → Z → bool).
Context {Fs : Type} `{SgxFiles Fs} `{Encode (RelayState PH), Decode (RelayState PH)}.
Context {Xt Nd : Type} `{Encode (list Xt)} `{Encode ParentchainId}.
Context (ocall_send_to_parentchain : Nd → Bytes → Bytes → bool → Nd * (Z * Z)) (error_text : LightClientError → string).
Implicit Types (c : Client Fs PH Nd).

(** [submit_block] under the lock of the accessor. *)
Definition submit_to_client c (b : PB) : outcome (Client Fs PH Nd * result unit LightClientError) :=
  submit check_message_signature (cl_accessor c) (pb_header b, pb_justifications b) ≫= λ '(a, res), Ret (MkClient a (cl_node c), res).

Definition send_extrinsics c (extrinsics : list Xt) : outcome (Client Fs PH Nd * result unit LightClientError) :=
  let v := light_validation (cl_accessor c) in
  let '(nd, sent) := OnChainOCall.send_to_parentchain ocall_send_to_parentchain (cl_node c) extrinsics (parentchain_id v) false in
  Accessor.execute_mut_on_validator (cl_accessor c)
    (λ v, Ret (v, match sent with Ok _ => Ok tt | Err e => Err (LcOther "Failed to send extrinsics") end)) ≫= λ '(a, res),
  Ret (MkClient a nd, res).

(** The light client never panics on the states that it makes itself: [client_submit]
    and [client_send] below. *)
Definition or_else {A} c (r : outcome (Client Fs PH Nd * result A LightClientError)) : Client Fs PH Nd * result A string :=
  match r with
  | Ret (c, Ok a) => (c, Ok a)
  | Ret (c, Err e) => (c, Err (error_text e))
  | _ => (c, Err "panic"%string)
  end.

Definition light_client : LightClient (Client Fs PH Nd) PB Xt := {|
  lc_submit_block c b := or_else c (submit_to_client c b);
  lc_send_extrinsics c xts := or_else c (send_extrinsics c xts);
|}.
End client.
End Pc.

(** ** What the client follows *)

(** An importer that follows a chain with the blocks it is given. *)
Class ChainImporter (Imp PB PH IE : Type) `{ImportParentchainBlocks Imp PB IE} `{ParentchainBlock PB PH} := {
  ci_follows : list PH → Imp → Prop;
  ci_import : ∀ hs imp bs evs, ci_follows hs imp → evs = [] ∨ length evs = length bs →
    ∃ imp' res k, Dispatcher.import_parentchain_blocks imp bs evs = Ret (imp', res) ∧
      ci_follows (hs ++ take k (pb_header <$> bs)) imp' ∧ (res = Ok tt → k = length bs);
}.

Module PcInv.
Import Relay LightInv Pc PcImport ImportInv.

Section client.
Context {PH PB VS Js Log : Type} `{ParentchainHeader PH} `{ParentHash PH} `{GrandpaLaws VS Js} `{GrandpaLog PH Log}.
Context `{ParentchainBlock PB PH} `{Justified PB Js}.
Context `{Decode (GrandpaJustification PH)} (check_message_signature : Precommit → N → Bytes → Z → Z → bool).
Context {Fs : Type} `{SgxFiles Fs} `{Encode (RelayState PH), Decode (RelayState PH)}.
Context {Xt Nd : Type} `{Encode (list Xt)} `{Encode ParentchainId}.
Context (ocall_send_to_parentchain : Nd → Bytes → Bytes → bool → Nd * (Z * Z)) (error_text : LightClientError → string).
Context (rank : N → nat) (rank_parent : ∀ h : PH, (rank (pc_parent_hash h) < rank (pc_hash h))%nat).
Implicit Types (c : Client Fs PH Nd).

(** The header of a block announces no empty set of authorities. *)
Definition names_voters (b : PB) : Prop := announces_voters (pb_header b).

Definition validation c : LightValidation PH := light_validation (cl_accessor c).

(** The client has followed these headers from the genesis. *)
Definition client_follows (genesis : PH) (hs : list PH) c : Prop :=
  follows genesis hs (relay_state (validation c)) ∧ voters_ok (validation c).

Lemma client_submit genesis hs c b :
  client_follows genesis hs c → names_voters b →
  ∃ c' res, submit_to_client check_message_signature c b = Ret (c', res) ∧
    if decide (pc_parent_hash (pb_header b) = pc_hash (default genesis (last hs)))
    then client_follows genesis (hs ++ [pb_header b]) c'
    else client_follows genesis hs c' ∧ ∃ e, res = Err e.
Proof.
  intros [Hf Hv] Hann. unfold submit_to_client, submit, Accessor.execute_mut_on_validator.
  destruct (submit_block_spec check_message_signature rank rank_parent genesis hs (validation c) (pb_header b, pb_justifications b) Hf Hv)
    as (v & res & Hs & Hv' & _ & _ & Hb). specialize (Hv' Hann). fold (validation c). rewrite Hs. cbn [mbind outcome_bind].
  destruct (Seal.seal _ _ _) as [fs sealed]. cbn [mbind outcome_bind]. eexists _, _. split; [done|]. cbn [fst] in Hb.
  case_decide; [split; [apply Hb|done]|]. destruct Hb as [-> ->]. split; [done|]. destruct sealed; by eexists.
Qed.

Lemma client_send genesis hs c xts :
  client_follows genesis hs c →
  ∃ c' res, send_extrinsics ocall_send_to_parentchain c xts = Ret (c', res) ∧ client_follows genesis hs c'.
Proof.
  intros Hc. unfold send_extrinsics, Accessor.execute_mut_on_validator. destruct (OnChainOCall.send_to_parentchain _ _ _ _ _) as [nd sent].
  cbn [mbind outcome_bind]. destruct (Seal.seal _ _ _) as [fs sealed]. cbn [mbind outcome_bind]. by eexists _, _.
Qed.

#[local] Instance client_interface : LightClient (Client Fs PH Nd) PB Xt :=
  light_client check_message_signature ocall_send_to_parentchain error_text.

(** The same through the interface of the importer. *)
Lemma interface_submit genesis hs c b :
  client_follows genesis hs c → names_voters b →
  ∃ c' res, lc_submit_block (Xt := Xt) c b = (c', res) ∧
    if decide (pc_parent_hash (pb_header b) = pc_hash (default genesis (last hs)))
    then client_follows genesis (hs ++ [pb_header b]) c'
    else client_follows genesis hs c' ∧ ∃ e, res = Err e.
Proof.
  intros Hc Hann. destruct (client_submit genesis hs c b Hc Hann) as (c' & res & Hs & Hr). unfold lc_submit_block, client_interface, light_client. rewrite Hs. unfold or_else.
  destruct res as [[]|e]; (eexists _, _; split; [done|]); case_decide; try done; destruct Hr as [Hr [? ?]]; [done|split; [done|by eexists]].
Qed.

Lemma interface_send genesis hs c xts :
  client_follows genesis hs c → client_follows genesis hs (lc_send_extrinsics (PB := PB) c xts).1.
Proof.
  intros Hc. destruct (client_send genesis hs c xts Hc) as (c' & res & Hs & Hr).
  unfold lc_send_extrinsics, client_interface, light_client. rewrite Hs. by destruct res.
Qed.

(** ** The import *)

Context `{Encode SgxExternalitiesType} `{Blake2} `{EncodeAppend} `{Twox} `{Decode Sc.Block}.
Context {TCS G Mr X W P : Type} `{!Stf TCS Mr PH} `{!StfSystem TCS Mr PH}.
Context `{HandleState W} {initialize : result SgxExternalities StateHandlerError} `{!HandleStateLaws W initialize}.
Context {top_hash : StfTrustedOperation TCS G → TxHash} `{TopPool P TCS G} `{!TopPoolLaws P TCS G top_hash}.
Context `{ExtrinsicsFactory X Xt} `{IndirectCallsExecutor P PB} `{!SafeIndirectCalls P PB TCS G top_hash}.
Context (get_multiple_storages_verified : list Bytes → PH → ParentchainId → result (list (Bytes * option Bytes)) string).
Context (snapshot_now : PB → ShardIdentifier → StateId).
Context `{Decode (list ShardIdentifier)} (id : ParentchainId) (info : ShardCreationInfo).
Hypothesis no_shards_entry : ∀ hashes h i l v, get_multiple_storages_verified hashes h i = Ok l → (Executor.shards_key_hash, Some v) ∉ l.
Abbreviation Env' := (Env (Client Fs PH Nd) X W P).
Abbreviation import_one' := (import_one (TCS := TCS) (Mr := Mr) (Xt := Xt) get_multiple_storages_verified snapshot_now id info).
Abbreviation import_each' := (import_each (TCS := TCS) (Mr := Mr) (Xt := Xt) get_multiple_storages_verified snapshot_now id info).
Implicit Types (e : Env').

(** The states and the pool are in order, and the client follows these headers. *)
Definition following (genesis : PH) (hs : list PH) e : Prop := env_ok e ∧ client_follows genesis hs (validator e).

Lemma update_keeps_client e b e' res :
  update_states (TCS := TCS) (Mr := Mr) get_multiple_storages_verified snapshot_now id e b = Ret (e', res) → validator e' = validator e.
Proof. unfold update_states. destruct (Executor.update_states _ _ _ _ _) as [[w r]| |]; [|done..]. by intros [= <- _]. Qed.

Lemma import_one_follows genesis hs e b events :
  following genesis hs e → names_voters b →
  ∃ e' res, import_one' e b events = Ret (e', res) ∧
    if decide (pc_parent_hash (pb_header b) = pc_hash (default genesis (last hs)))
    then following genesis (hs ++ [pb_header b]) e'
    else following genesis hs e' ∧ ∃ err, res = Err err.
Proof.
  intros [Hok Hc] Hann.
  destruct (PcImportInv.import_one_spec (TCS := TCS) (Mr := Mr) (Xt := Xt) get_multiple_storages_verified snapshot_now id info no_shards_entry e b events Hok)
    as (e' & res & Heq & Hok' & _). exists e', res. split; [done|].
  destruct (interface_submit genesis hs (validator e) b Hc Hann) as (c' & r & Hs & Hr). revert Heq. unfold import_one. rewrite Hs.
  assert (validator e' = c' ∧ (∀ err, r = Err err → res = Err (IeLightClient err)) →
    if decide (pc_parent_hash (pb_header b) = pc_hash (default genesis (last hs))) then following genesis (hs ++ [pb_header b]) e'
    else following genesis hs e' ∧ ∃ err, res = Err err) as Hdone.
  { intros [Hv Herr]. unfold following. rewrite Hv. case_decide; [done|]. destruct Hr as [Hr [err ->]]. split; [done|]. eauto. }
  destruct r as [[]|err]; [|intros [= <- <-]; apply Hdone; split; [done|by intros ? [= ->]]].
  destruct (match for_parentchain _ _ with Some _ => _ | None => _ end); [intros [= <- <-]; by apply Hdone|].
  destruct (update_states _ _ _ _ _) as [[e1 ur]| |] eqn:Hu; [|done..]. apply update_keeps_client in Hu. cbn [mbind outcome_bind].
  destruct ur as [[]|err]; [|intros [= <- <-]; apply Hdone; split; [by rewrite Hu|done]].
  destruct (execute_indirect_calls_in_extrinsics _ _ _) as [[p pr]| |]; [|done..]. intros [= <- <-]. apply Hdone. split; [by cbn; rewrite Hu|done].
Qed.

Lemma import_each_follows genesis hs e calls l :
  following genesis hs e → Forall names_voters l.*1 →
  ∃ e' res k, import_each' e calls l = Ret (e', res) ∧
    following genesis (hs ++ take k (pb_header <$> l.*1)) e' ∧ (k ≤ length l)%nat ∧ (is_ok res = true → k = length l).
Proof.
  revert hs e calls. induction l as [|[b events] l IH]; intros hs e calls He Hann; cbn [import_each].
  { exists e, (Ok calls), 0%nat. by rewrite app_nil_r. }
  apply Forall_cons in Hann as [Hb Hann]. destruct (import_one_follows genesis hs e b events He Hb) as (e1 & r & -> & Hr). cbn [mbind outcome_bind].
  case_decide as Hd.
  - destruct r as [oc|err].
    + assert (∃ calls', (match oc with Some call => import_each' e1 (calls ++ [call]) l | None => import_each' e1 calls l end) = import_each' e1 calls' l)
        as [calls' Hcalls] by (destruct oc; by eexists).
      destruct (IH (hs ++ [pb_header b]) e1 calls' Hr Hann) as (e2 & res & k & Heq & He2 & Hle & Hk).
      exists e2, res, (S k). split; [destruct oc; congruence|]. cbn. split; [by rewrite <-app_assoc in He2|]. split; [lia|]. intros Hok. by rewrite Hk.
    + exists e1, (Err err), 1%nat. split; [done|]. cbn. rewrite take_0. split; [done|]. split; [lia|done].
  - destruct Hr as [Hr [err ->]]. exists e1, (Err err), 0%nat. rewrite app_nil_r. split; [done|]. split; [done|]. split; [lia|done].
Qed.

Abbreviation import' :=
  (import_parentchain_blocks (TCS := TCS) (Mr := Mr) (Xt := Xt) get_multiple_storages_verified snapshot_now id info).

(** How many blocks of a batch come with events: the two lists are zipped, unless there
    are no events at all. *)
Definition covered (batch : list PB * list RawEventsPerBlock) : nat :=
  match batch.2 with [] => length batch.1 | _ => length batch.1 `min` length batch.2 end.

Lemma fst_zip_take {A B} (l : list A) (k : list B) : (zip l k).*1 = take (length (zip l k)) l.
Proof. revert k. induction l as [|x l IH]; intros [|y k]; cbn; [done..|]. by rewrite IH. Qed.

Lemma import_batch_follows genesis hs e bs evs :
  following genesis hs e → Forall names_voters bs →
  ∃ e' res k, import' e bs evs = Ret (e', res) ∧
    following genesis (hs ++ take k (pb_header <$> bs)) e' ∧ (k ≤ covered (bs, evs))%nat ∧ (res = Ok tt → k = covered (bs, evs)).
Proof.
  intros He Hann. unfold import_parentchain_blocks. set (aligned := match evs with [] => _ | _ => _ end).
  assert (length (zip bs aligned) = covered (bs, evs)) as Hal.
  { unfold aligned, covered. rewrite length_zip. destruct evs; [rewrite length_replicate; cbn; lia|done]. }
  assert ((zip bs aligned).*1 = take (covered (bs, evs)) bs) as Hz
    by (rewrite <-Hal; apply fst_zip_take).
  destruct (import_each_follows genesis hs e [] (zip bs aligned) He) as (e1 & r & k & -> & [Hok Hc] & Hle & Hk).
  { rewrite Hz. by apply Forall_take. }
  rewrite Hz, fmap_take, take_take, Nat.min_l in Hc by lia. rewrite Hal in Hle, Hk. cbn [mbind outcome_bind].
  destruct r as [calls|err]; [|exists e1, (Err err), k; by split_and!]. specialize (Hk eq_refl).
  destruct (create_extrinsics (factory e1) calls) as [x [xts|err]].
  2: { eexists _, _, k. split; [done|]. by split_and!. }
  pose proof (interface_send genesis _ (validator e1) xts Hc) as Hsend.
  destruct (lc_send_extrinsics (validator e1) xts) as [v [[]|err]];
    (eexists _, _, k; split; [done|]; by split_and!).
Qed.

Lemma import_follows genesis hs e bs evs :
  (∀ b, names_voters b) → following genesis hs e → evs = [] ∨ length evs = length bs →
  ∃ e' res k, import' e bs evs = Ret (e', res) ∧
    following genesis (hs ++ take k (pb_header <$> bs)) e' ∧ (res = Ok tt → k = length bs).
Proof.
  intros Hann He Hl. destruct (import_batch_follows genesis hs e bs evs He) as (e' & res & k & Hi & Hf & _ & Hk).
  { apply Forall_true. exact Hann. }
  exists e', res, k. split; [done|]. split; [done|]. intros Hok. rewrite (Hk Hok). unfold covered. cbn [fst snd]. destruct evs; [done|].
  destruct Hl as [|Hl]; [done|]. by rewrite Hl, Nat.min_id.
Qed.

Definition chain_importer (genesis : PH) (announced : ∀ b, names_voters b) :
    @ChainImporter Env' PB PH ImporterError
      (parentchain_importer (TCS := TCS) (Mr := Mr) (Xt := Xt) get_multiple_storages_verified snapshot_now id info) _ := {|
  ci_follows := following genesis;
  ci_import hs e bs evs := import_follows genesis hs e bs evs announced;
|}.

(** A block that the light client refuses. *)
Lemma import_refused e b ev c' err :
  lc_submit_block (Xt := Xt) (validator e) b = (c', Err err) →
  import' e [b] [ev] = Ret (MkEnv c' (factory e) (states e) (top_pool e), Err (IeLightClient err)).
Proof. intros Hs. unfold import_parentchain_blocks. cbn [zip zip_with import_each]. unfold import_one. by rewrite Hs. Qed.

Lemma submit_unproven v h js j vs err :
  finality v = GrandpaFinality → pc_parent_hash h = pc_hash (last_finalized_block_header (relay_state v)) →
  voter_set_new (current_validator_set (relay_state v)) = Some vs → js ≫= into_justification = Some j →
  Final.verify_grandpa_proof (PH := PH) check_message_signature j (pc_hash h) (pc_number h)
    (current_validator_set_id (relay_state v)) vs = Ret (Err err) →
  ∃ v', Validation.submit_block check_message_signature v (h, js) = Ret (v', Err (InvalidFinalityProof err)).
Proof.
  intros Hf Hl Hvs Hj Hver. unfold Validation.submit_block. rewrite decide_False by (rewrite Hl; auto).
  unfold Validation.submit_finalized_headers, Validation.verify_ancestry. rewrite decide_True by done.
  unfold Final.validate. rewrite Hf, Hvs. cbn [unwrap mbind outcome_bind]. rewrite Hj, Hver. by eexists.
Qed.

(** A block that links, with a justification that does not hold. *)
Lemma interface_unproven c b j vs err :
  finality (validation c) = GrandpaFinality →
  pc_parent_hash (pb_header b) = pc_hash (last_finalized_block_header (relay_state (validation c))) →
  voter_set_new (current_validator_set (relay_state (validation c))) = Some vs → pb_justifications b ≫= into_justification = Some j →
  Final.verify_grandpa_proof (PH := PH) check_message_signature j (pc_hash (pb_header b)) (pc_number (pb_header b))
    (current_validator_set_id (relay_state (validation c))) vs = Ret (Err err) →
  ∃ c' msg, lc_submit_block (Xt := Xt) c b = (c', Err msg).
Proof.
  intros Hf Hl Hvs Hj Hver. destruct (submit_unproven _ _ _ _ _ _ Hf Hl Hvs Hj Hver) as [v' Hs].
  unfold lc_submit_block, client_interface, light_client, submit_to_client, submit, Accessor.execute_mut_on_validator.
  fold (validation c). rewrite Hs. cbn [mbind outcome_bind]. destruct (Seal.seal _ _ _) as [fs sealed]. cbn [mbind outcome_bind].
  destruct sealed; cbn [or_else]; by eexists _, _.
Qed.

(** Batches of blocks, one import after the other. *)
Fixpoint import_batches e (l : list (list PB * list RawEventsPerBlock)) : outcome (Env' * list (result unit ImporterError)) :=
  match l with
  | [] => Ret (e, [])
  | (bs, evs) :: l =>
      import' e bs evs ≫= λ '(e, res), import_batches e l ≫= λ '(e, results), Ret (e, res :: results)
  end.

Lemma batches_follow genesis hs e l :
  following genesis hs e → Forall names_voters (concat l.*1) →
  ∃ e' results ks, import_batches e l = Ret (e', results) ∧
    following genesis (hs ++ concat (zip_with (λ k bs, take k (pb_header <$> bs)) ks l.*1)) e' ∧
    Forall3 (λ res k batch, (k ≤ covered batch)%nat ∧ (res = Ok tt → k = covered batch)) results ks l.
Proof.
  revert hs e. induction l as [|[bs evs] l IH]; intros hs e He Hl; cbn [import_batches].
  { exists e, [], []. cbn. rewrite app_nil_r. split; [done|]. split; [done|constructor]. }
  cbn in Hl. apply Forall_app in Hl as [Hb Hl]. destruct (import_batch_follows genesis hs e bs evs He Hb) as (e1 & res & k & -> & He1 & Hk).
  cbn [mbind outcome_bind]. destruct (IH _ e1 He1 Hl) as (e2 & results & ks & -> & He2 & Hks). cbn [mbind outcome_bind].
  exists e2, (res :: results), (k :: ks). split; [done|]. cbn. rewrite <-app_assoc in He2. split; [done|]. by constructor.
Qed.

(** C25: Whatever batches of blocks the host sends, with whatever events, every import
    returns, the states and the pool stay in order, and the light client has followed
    one linked chain from the genesis: what it had, then of each batch a prefix, which
    is never more than the blocks that come with events and exactly these where the
    import succeeded.  It asks of the headers that they announce no empty set of
    authorities, at which the light client stops. *)
Theorem batches_extend_the_chain (genesis : PH) (hs : list PH) (e : Env') (l : list (list PB * list RawEventsPerBlock)) :
  following genesis hs e → Forall names_voters (concat l.*1) →
  ∃ e' results ks, import_batches e l = Ret (e', results) ∧
    following genesis (hs ++ concat (zip_with (λ k bs, take k (pb_header <$> bs)) ks l.*1)) e' ∧
    Forall3 (λ res k batch, (k ≤ covered batch)%nat ∧ (res = Ok tt → k = covered batch)) results ks l.
Proof. apply batches_follow. Qed.

(** A header of the chain cannot link to its end again. *)
Lemma linked_rank (l : PH) hs : LightInv.linked l hs → (rank (pc_hash l) ≤ rank (pc_hash (default l (last hs))))%nat.
Proof.
  revert l. induction hs as [|h hs IH]; intros l; cbn [LightInv.linked]; [done|]. intros [Hp Hl]. rewrite last_cons.
  pose proof (rank_parent h) as Hr. rewrite Hp in Hr. apply IH in Hl. destruct (last hs); cbn in *; lia.
Qed.

Lemma no_second_link genesis hs h more r :
  follows genesis (hs ++ [h] ++ more) r → pc_parent_hash h ≠ pc_hash (default genesis (last (hs ++ [h] ++ more))).
Proof.
  intros Hf. pose proof (fo_linked _ _ _ Hf) as Hl. apply headers_linked_app in Hl as [_ [_ Hl]].
  apply linked_rank in Hl. rewrite app_nil_l in Hl.
  assert (default genesis (last (hs ++ [h] ++ more)) = default h (last more)) as ->.
  { rewrite app_assoc, last_app, last_snoc. by destruct (last more). }
  pose proof (rank_parent h) as Hr. intros Heq. rewrite Heq in Hr. lia.
Qed.

(** The import of a block whose header the client has followed already. *)
Lemma import_followed genesis hs more e b ev :
  following genesis (hs ++ [pb_header b] ++ more) e → names_voters b →
  ∃ e' msg, import' e [b] [ev] = Ret (e', Err (IeLightClient msg)) ∧ states e' = states e ∧ top_pool e' = top_pool e.
Proof.
  intros [Hok Hc] Hann. destruct (interface_submit genesis _ (validator e) b Hc Hann) as (c' & res & Hs & Hr).
  rewrite decide_False in Hr by (eapply no_second_link, Hc). destruct Hr as [_ [msg ->]].
  eexists _, msg. split; [by apply import_refused|done].
Qed.

(** C36: A block that links but whose justification does not hold is refused, and yet the
    light client goes on as if it were final: the import of the block fails before the
    states and the pool are changed, and so does every later import of a block with
    the same header, after any other imports, also one with a justification that holds,
    because it no longer links.  What the block has for the enclave is never executed.
    It asks of the headers that they announce no empty set of authorities. *)
Theorem unproven_block_is_lost (genesis : PH) (hs : list PH) (e : Env') (b : PB) (ev : RawEventsPerBlock) j vs err :
  following genesis hs e → finality (validation (validator e)) = GrandpaFinality → names_voters b →
  pc_parent_hash (pb_header b) = pc_hash (default genesis (last hs)) →
  voter_set_new (current_validator_set (relay_state (validation (validator e)))) = Some vs →
  pb_justifications b ≫= into_justification = Some j →
  Final.verify_grandpa_proof (PH := PH) check_message_signature j (pc_hash (pb_header b)) (pc_number (pb_header b))
    (current_validator_set_id (relay_state (validation (validator e)))) vs = Ret (Err err) →
  ∃ e1 msg, import' e [b] [ev] = Ret (e1, Err (IeLightClient msg)) ∧ following genesis (hs ++ [pb_header b]) e1 ∧
    states e1 = states e ∧ top_pool e1 = top_pool e ∧
    ∀ l, Forall names_voters (concat l.*1) → ∃ e2 results, import_batches e1 l = Ret (e2, results) ∧
      ∀ b' ev', pb_header b' = pb_header b →
        ∃ e3 msg', import' e2 [b'] [ev'] = Ret (e3, Err (IeLightClient msg')) ∧ states e3 = states e2 ∧ top_pool e3 = top_pool e2.
Proof.
  intros [Hok Hc] Hfin Hann Hlink Hvs Hj Hver.
  destruct (interface_unproven (validator e) b j vs err) as (c1 & msg & Hs); [done| |done..|].
  { destruct Hc as [Hf _]. by rewrite (fo_last _ _ _ Hf). }
  destruct (interface_submit genesis hs (validator e) b Hc Hann) as (c1' & res & Hs' & Hc1). rewrite decide_True in Hc1 by done.
  rewrite Hs in Hs'. injection Hs' as <- <-. set (e1 := MkEnv c1 (factory e) (states e) (top_pool e)).
  assert (following genesis (hs ++ [pb_header b]) e1) as He1 by (by split).
  exists e1, msg. split; [by apply import_refused|]. split; [done|]. split; [done|]. split; [done|]. intros l Hl.
  destruct (batches_follow genesis _ e1 l He1 Hl) as (e2 & results & ks & Hr & He2 & _). exists e2, results. split; [done|].
  intros b' ev' Hh. rewrite <-Hh, <-app_assoc in He2. eapply import_followed; [exact He2|]. unfold names_voters. by rewrite Hh.
Qed.
End client.
End PcInv.

(** ** The ecall (enclave-runtime/src/lib.rs) *)

Inductive WorkerMode := OffChainWorker | SidechainMode | Teeracle.

(** The global components; a parentchain is a solochain or a parachain. *)
Record Handlers (Imp PB : Type) := MkHandlers {
  integritee_solochain : option (Dispatch.BlockImportDispatcher Imp PB);
  integritee_parachain : option (Dispatch.BlockImportDispatcher Imp PB);
  target_a_solochain : option (Dispatch.BlockImportDispatcher Imp PB);
  target_a_parachain : option (Dispatch.BlockImportDispatcher Imp PB);
  target_b_solochain : option (Dispatch.BlockImportDispatcher Imp PB);
  target_b_parachain : option (Dispatch.BlockImportDispatcher Imp PB);
}.
Arguments MkHandlers {Imp PB} _ _ _ _ _ _.
Arguments integritee_solochain {Imp PB} _.
Arguments integritee_parachain {Imp PB} _.
Arguments target_a_solochain {Imp PB} _.
Arguments target_a_parachain {Imp PB} _.
Arguments target_b_solochain {Imp PB} _.
Arguments target_b_parachain {Imp PB} _.

Inductive SyncError (IE : Type) :=
| NoIntegriteeParentchainAssigned
| NoTargetAParentchainAssigned
| NoTargetBParentchainAssigned
| SyDispatch (e : DispatchError IE)
| ParentChainSync
| ParentChainValidation
| SyCodec (msg : string).
Arguments NoIntegriteeParentchainAssigned {IE}.
Arguments NoTargetAParentchainAssigned {IE}.
Arguments NoTargetBParentchainAssigned {IE}.
Arguments SyDispatch {IE} e.
Arguments ParentChainSync {IE}.
Arguments ParentChainValidation {IE}.
Arguments SyCodec {IE} msg.

Module Ecall.
Section ecall.
Context {Imp PB IE PH : Type} `{ImportParentchainBlocks Imp PB IE} `{ParentchainBlock PB PH} `{StateRoot PH}.
Context {Db : Type} `{TrieDb Db} `{Twox}.
Implicit Types (hs : Handlers Imp PB).

Definition validate_event (proof : StorageProof) (root : N) : result Bytes (SyncError IE) :=
  match Proof.check_proof (Db := Db) root (storage_value_key "System" "Events") proof with
  | Ok (Some value) => Ok value
  | _ => Err ParentChainValidation
  end.

Fixpoint validate_each (l : list (StorageProof * N)) : result (list Bytes) (SyncError IE) :=
  match l with
  | [] => Ok []
  | (proof, root) :: l => let? x := validate_event proof root in let? xs := validate_each l in Ok (x :: xs)
  end.

Definition validate_events (events_proofs : list StorageProof) (blocks_merkle_roots : list N) : result unit (SyncError IE) :=
  if decide (length events_proofs ≠ length blocks_merkle_roots) then Err ParentChainSync
  else let? validated_events := validate_each (zip events_proofs blocks_merkle_roots) in Ok tt.

(** The first component that is there takes the blocks. *)
Definition dispatch_to (solochain parachain : option (Dispatch.BlockImportDispatcher Imp PB)) (not_assigned : SyncError IE)
    (blocks : list PB) (events : list RawEventsPerBlock) (immediate_import : bool) :
    outcome (option (Dispatch.BlockImportDispatcher Imp PB) * option (Dispatch.BlockImportDispatcher Imp PB) * result unit (SyncError IE)) :=
  let lift (r : result unit (DispatchError IE)) : result unit (SyncError IE) := match r with Ok _ => Ok tt | Err e => Err (SyDispatch e) end in
  match solochain with
  | Some d => Dispatch.dispatch_any d blocks events immediate_import ≫= λ '(d, res), Ret (Some d, parachain, lift res)
  | None =>
      match parachain with
      | Some d => Dispatch.dispatch_any d blocks events immediate_import ≫= λ '(d, res), Ret (None, Some d, lift res)
      | None => Ret (None, None, Err not_assigned)
      end
  end.

Definition dispatch_parentchain_blocks_for_import (mode : WorkerMode) hs (blocks : list PB) (events : list RawEventsPerBlock)
    (id : ParentchainId) (immediate_import : bool) : outcome (Handlers Imp PB * result unit (SyncError IE)) :=
  match mode with
  | Teeracle => Ret (hs, Ok tt)
  | _ =>
      match id with
      | Integritee =>
          dispatch_to (integritee_solochain hs) (integritee_parachain hs) NoIntegriteeParentchainAssigned blocks events immediate_import
            ≫= λ '(s, p, res),
          Ret (MkHandlers s p (target_a_solochain hs) (target_a_parachain hs) (target_b_solochain hs) (target_b_parachain hs), res)
      | TargetA =>
          dispatch_to (target_a_solochain hs) (target_a_parachain hs) NoTargetAParentchainAssigned blocks events immediate_import
            ≫= λ '(s, p, res),
          Ret (MkHandlers (integritee_solochain hs) (integritee_parachain hs) s p (target_b_solochain hs) (target_b_parachain hs), res)
      | TargetB =>
          dispatch_to (target_b_solochain hs) (target_b_parachain hs) NoTargetBParentchainAssigned blocks events immediate_import
            ≫= λ '(s, p, res),
          Ret (MkHandlers (integritee_solochain hs) (integritee_parachain hs) (target_a_solochain hs) (target_a_parachain hs) s p, res)
      end
  end.

Context `{Encode (list PB), Decode (list PB)} `{Encode (list RawEventsPerBlock), Decode (list RawEventsPerBlock)}.
Context `{Encode (list StorageProof), Decode (list StorageProof)} `{Encode ParentchainId, Decode ParentchainId}.

(** What the validation of the events finds is only logged. *)
Definition sync_parentchain_internal (mode : WorkerMode) hs (blocks events proofs id : Bytes) (immediate_import : bool) :
    outcome (Handlers Imp PB * result unit (SyncError IE)) :=
  match decode (A := list PB) blocks, decode (A := list RawEventsPerBlock) events, decode (A := list StorageProof) proofs,
        decode (A := ParentchainId) id with
  | Ok blocks_to_sync, Ok events_to_sync, Ok events_proofs_to_sync, Ok parentchain_id =>
      let _ := match events_proofs_to_sync with
        | [] => Ok tt
        | _ => validate_events events_proofs_to_sync ((λ b, state_root (pb_header b)) <$> blocks_to_sync)
        end in
      dispatch_parentchain_blocks_for_import mode hs blocks_to_sync events_to_sync parentchain_id immediate_import
  | Err e, _, _, _ => Ret (hs, Err (SyCodec e))
  | _, Err e, _, _ => Ret (hs, Err (SyCodec e))
  | _, _, Err e, _ => Ret (hs, Err (SyCodec e))
  | _, _, _, Err e => Ret (hs, Err (SyCodec e))
  end.

Definition sync_parentchain (mode : WorkerMode) hs (blocks events proofs id : Bytes) (immediate_import : bool) :
    outcome (Handlers Imp PB * Z) :=
  sync_parentchain_internal mode hs blocks events proofs id immediate_import ≫= λ '(hs, res),
  Ret (hs, match res with Ok _ => SGX_SUCCESS | Err _ => SGX_ERROR_UNEXPECTED end).

(** The call of the service (core-primitives/enclave-api/src/sidechain.rs). *)
Definition api_sync_parentchain (mode : WorkerMode) hs (blocks : list PB) (events : list RawEventsPerBlock)
    (events_proofs : list StorageProof) (id : ParentchainId) (immediate_import : bool) : outcome (Handlers Imp PB * result unit Z) :=
  sync_parentchain mode hs (encode blocks) (encode events) (encode events_proofs) (encode id) immediate_import ≫= λ '(hs, retval),
  Ret (hs, if decide (retval ≠ SGX_SUCCESS) then Err retval else Ok tt).
End ecall.
End Ecall.

(** ** The service (parentchain_handler.rs) *)

(** The api of a node (substrate-api-client). *)
Class ChainInfo (Api PB : Type) := {
  get_finalized_head : Api → result (option N) string;
  get_signed_block : Api → option N → result (option PB) string;
  get_block : Api → option N → result (option PB) string;
  get_signed_block_by_num : Api → option Z → result (option PB) string;
  get_events_storage : Api → option N → result (option Bytes) string;
  get_events_proof : Api → option N → result (option StorageProof) string;
}.

(** The enclave as the service sees it. *)
Class EnclaveSync (E PB : Type) := {
  enclave_sync : E → list PB → list RawEventsPerBlock → list StorageProof → ParentchainId → bool → outcome (E * result unit Z);
  enclave_creation_info : E → ShardIdentifier → result ShardCreationInfo Z;
}.

Inductive ServiceError :=
| MissingLastFinalizedBlock
| UnknownBlockHeader (hash : N)
| EmptyChunk
| SvApi (msg : string)
| SvEnclave (status : Z).

Module Service.
Section service.
Context {Api E PB PH : Type} `{ChainInfo Api PB} `{EnclaveSync E PB} `{ParentchainBlock PB PH} `{ParentchainHeader PH}.
Implicit Types (api : Api) (e : E).

Definition BLOCK_SYNC_BATCH_SIZE : Z := 1000.

(** *** [ChainApi] (api-client-extensions/src/chain.rs) *)

Definition last_finalized_block api : result (option PB) string :=
  let? head := get_finalized_head api in
  match head with None => Ok None | Some hash => get_signed_block api (Some hash) end.

Fixpoint blocks_from api (n : Z) (count : nat) : result (list PB) string :=
  match count with
  | 0%nat => Ok []
  | S count =>
      let? block := get_signed_block_by_num api (Some n) in
      let? blocks := blocks_from api (n + 1) count in
      Ok (match block with Some b => b :: blocks | None => blocks end)
  end.

(** [for n in from..=to]. *)
Definition get_blocks api (from to : Z) : result (list PB) string := blocks_from api from (Z.to_nat (to - from + 1)).

Definition get_events_for_block api (block_hash : option N) : result Bytes string :=
  let? events := get_events_storage api block_hash in Ok (default [] events).

Definition get_events_value_proof api (block_hash : option N) : result StorageProof string :=
  let? proof := get_events_proof api block_hash in Ok (default [] proof).

(** *** The loop *)

Fixpoint for_blocks {A} (f : option N → result A string) (blocks : list PB) : result (list A) string :=
  match blocks with
  | [] => Ok []
  | b :: blocks => let? x := f (Some (pc_hash (pb_header b))) in let? xs := for_blocks f blocks in Ok (x :: xs)
  end.

Section sync.
Context (api : Api) (id : ParentchainId) (immediate_import : bool) (curr_block_number : Z) (creation_block : option Z).

Definition skip_invocations (chunk : list PB) : bool :=
  match creation_block with
  | Some n => (default 0 ((λ b, pc_number (pb_header b)) <$> last chunk) <? n)%Z
  | None => false
  end.

(** What goes to the enclave with a chunk. *)
Definition chunk_events (chunk : list PB) : result (list RawEventsPerBlock * list StorageProof) string :=
  if skip_invocations chunk then Ok ([], [])
  else
    let? events := for_blocks (get_events_for_block api) chunk in
    let? proofs := for_blocks (get_events_value_proof api) chunk in
    Ok (events, proofs).

Definition sync_step (s : E * PH) : outcome ((E * PH) + (E * result PH ServiceError)) :=
  let '(e, until_synced_header) := s in
  match get_blocks api (u32_wrap (pc_number until_synced_header + 1))
          (Z.min (u32_wrap (pc_number until_synced_header + BLOCK_SYNC_BATCH_SIZE)) curr_block_number) with
  | Err err => Ret (inr (e, Err (SvApi err)))
  | Ok [] => Ret (inr (e, Ok until_synced_header))
  | Ok chunk =>
      match chunk_events chunk with
      | Err err => Ret (inr (e, Err (SvApi err)))
      | Ok (events, proofs) =>
          enclave_sync e chunk events proofs id immediate_import ≫= λ '(e, res),
          match res with
          | Err status => Ret (inr (e, Err (SvEnclave status)))
          | Ok _ =>
              match last chunk with
              | Some b => Ret (inl (e, pb_header b))
              | None => Ret (inr (e, Err EmptyChunk))
              end
          end
      end
  end.
End sync.

Definition sync_parentchain_until_latest_finalized (fuel : nat) api (id : ParentchainId) e (last_synced_header : PH)
    (shard : ShardIdentifier) (immediate_import : bool) : outcome (E * result PH ServiceError) :=
  match last_finalized_block api with
  | Err err => Ret (e, Err (SvApi err))
  | Ok None => Ret (e, Err MissingLastFinalizedBlock)
  | Ok (Some curr_block) =>
      match get_block api (Some (pc_hash last_synced_header)) with
      | Err err => Ret (e, Err (SvApi err))
      | Ok None => Ret (e, Err (UnknownBlockHeader (pc_hash last_synced_header)))
      | Ok (Some _) =>
          match enclave_creation_info e shard with
          | Err status => Ret (e, Err (SvEnclave status))
          | Ok creation_info =>
              loop fuel (sync_step api id immediate_import (pc_number (pb_header curr_block)) (for_parentchain creation_info id))
                (e, last_synced_header)
          end
      end
  end.

(** [while last_synced_header.number < until_header.number]; a round waits for the
    next look at the node. *)
Definition await_step (fuel : nat) (apis : nat → Api) (id : ParentchainId) (until_header : PH) (shard : ShardIdentifier)
    (s : nat * E * PH) : outcome ((nat * E * PH) + (E * result PH ServiceError)) :=
  let '(round, e, last_synced_header) := s in
  if (pc_number last_synced_header <? pc_number until_header)%Z then
    sync_parentchain_until_latest_finalized fuel (apis round) id e last_synced_header shard true ≫= λ '(e, res),
    match res with
    | Ok h => Ret (inl (S round, e, h))
    | Err err => Ret (inr (e, Err err))
    end
  else Ret (inr (e, Ok last_synced_header)).

Definition await_sync_and_import_parentchain_until_at_least (fuel rounds : nat) (apis : nat → Api) (id : ParentchainId) e
    (last_synced_header until_header : PH) (shard : ShardIdentifier) : outcome (E * result PH ServiceError) :=
  loop rounds (await_step fuel apis id until_header shard) (0%nat, e, last_synced_header).
End service.
End Service.

(** ** The service catches up *)

(** An enclave that follows a chain with what it is given. *)
Class FollowingEnclave (E PB PH : Type) `{EnclaveSync E PB} `{ParentchainBlock PB PH} (id : ParentchainId) := {
  ef_follows : list PH → E → Prop;
  ef_sync : ∀ hs e bs evs proofs, ef_follows hs e → evs = [] ∨ length evs = length bs →
    ∃ e' res j, enclave_sync e bs evs proofs id true = Ret (e', res) ∧
      ef_follows (hs ++ take j (pb_header <$> bs)) e' ∧ (res = Ok tt → j = length bs);
}.

Module ServiceInv.
Import Service.

Section service.
Context {Api E PB PH : Type} `{ChainInfo Api PB} `{EnclaveSync E PB} `{ParentchainBlock PB PH} `{ParentchainHeader PH}.
Context {id : ParentchainId} `{!FollowingEnclave E PB PH id}.
Implicit Types (api : Api) (e : E) (chain : list PB).

Abbreviation hash_of b := (Some (pc_hash (pb_header b))).

(** A node with a chain of blocks from the genesis to its head. *)
Record serves api chain : Prop := {
  sv_number : ∀ n b, chain !! n = Some b → pc_number (pb_header b) = Z.of_nat n;
  sv_small : (Z.of_nat (length chain) + BLOCK_SYNC_BATCH_SIZE < 2 ^ 32)%Z;
  sv_by_number : ∀ n, get_signed_block_by_num api (Some (Z.of_nat n)) = Ok (chain !! n);
  sv_by_hash : ∀ b, b ∈ chain → get_block api (hash_of b) = Ok (Some b);
  sv_head : ∃ b, last chain = Some b ∧ get_finalized_head api = Ok (hash_of b) ∧ get_signed_block api (hash_of b) = Ok (Some b);
  sv_events : ∀ b, b ∈ chain → is_ok (get_events_storage api (hash_of b)) = true ∧ is_ok (get_events_proof api (hash_of b)) = true;
}.

Lemma blocks_from_chain api chain n count :
  serves api chain → (n + count ≤ length chain)%nat → blocks_from api (Z.of_nat n) count = Ok (take count (drop n chain)).
Proof.
  intros Hs. revert n. induction count as [|count IH]; intros n Hn; cbn [blocks_from]; [by rewrite take_0|].
  rewrite (sv_by_number _ _ Hs). replace (Z.of_nat n + 1)%Z with (Z.of_nat (S n)) by lia. rewrite IH by lia.
  destruct (lookup_lt_is_Some_2 chain n) as [b Hb]; [lia|]. rewrite Hb. cbn. by rewrite (drop_S chain b n Hb).
Qed.

Lemma for_blocks_ok {A} (f : option N → result A string) l :
  (∀ b, b ∈ l → is_ok (f (hash_of b)) = true) → ∃ xs, for_blocks f l = Ok xs ∧ length xs = length l.
Proof.
  induction l as [|b l IH]; intros Hl; cbn [for_blocks]; [by exists []|].
  pose proof (Hl b ltac:(by left)) as Hb. destruct (f (hash_of b)) as [x|]; [|done].
  destruct IH as (xs & -> & Hx); [intros; apply Hl; by right|]. exists (x :: xs). cbn. by rewrite Hx.
Qed.

Lemma chunk_events_ok api creation chunk chain :
  serves api chain → (∀ b, b ∈ chunk → b ∈ chain) →
  ∃ evs proofs, chunk_events api creation chunk = Ok (evs, proofs) ∧ (evs = [] ∨ length evs = length chunk).
Proof.
  intros Hs Hin. unfold chunk_events. destruct (skip_invocations creation chunk); [eexists _, _; eauto|].
  destruct (for_blocks_ok (get_events_for_block api) chunk) as (evs & -> & He).
  { intros b Hb. unfold get_events_for_block. destruct (sv_events _ _ Hs b (Hin b Hb)) as [He _]. by destruct (get_events_storage _ _). }
  destruct (for_blocks_ok (get_events_value_proof api) chunk) as (proofs & -> & _).
  { intros b Hb. unfold get_events_value_proof. destruct (sv_events _ _ Hs b (Hin b Hb)) as [_ Hp]. by destruct (get_events_proof _ _). }
  eexists _, _. eauto.
Qed.

(** The headers after a position. *)
Definition headers_after chain (k : nat) : list PH := pb_header <$> drop (S k) chain.

(** The enclave has what is after [k] up to the block [i], where the loop is. *)
Definition at_block chain (hs : list PH) (k : nat) (s : E * PH) (i : nat) : Prop :=
  (k ≤ i)%nat ∧ (∃ b, chain !! i = Some b ∧ s.2 = pb_header b) ∧ ef_follows (hs ++ take (i - k) (headers_after chain k)) s.1.

Definition outcome_of chain (hs : list PH) (k : nat) (r : E * result PH ServiceError) : Prop :=
  ∃ j, ef_follows (hs ++ take j (headers_after chain k)) r.1 ∧
    ((∃ b, last chain = Some b ∧ r.2 = Ok (pb_header b)) ∧ j = (length chain - S k)%nat ∨ ∃ status, r.2 = Err (SvEnclave status)).

Lemma chunk_at api chain i b :
  serves api chain → chain !! i = Some b →
  let count := Z.to_nat (Z.min BLOCK_SYNC_BATCH_SIZE (Z.of_nat (length chain) - 1 - Z.of_nat i)) in
  get_blocks api (u32_wrap (pc_number (pb_header b) + 1))
    (Z.min (u32_wrap (pc_number (pb_header b) + BLOCK_SYNC_BATCH_SIZE)) (Z.of_nat (length chain) - 1)) =
    Ok (take count (drop (S i) chain)).
Proof.
  intros Hs Hb count. pose proof (sv_number _ _ Hs i b Hb) as ->. pose proof (sv_small _ _ Hs) as Hsm.
  apply lookup_lt_Some in Hb as Hi. unfold u32_wrap, BLOCK_SYNC_BATCH_SIZE in *. rewrite !Z.mod_small by lia.
  unfold get_blocks. replace (Z.of_nat i + 1)%Z with (Z.of_nat (S i)) by lia.
  replace (Z.to_nat (Z.min (Z.of_nat i + 1000) (Z.of_nat (length chain) - 1) - Z.of_nat (S i) + 1)) with count
    by (unfold count; f_equal; lia).
  apply blocks_from_chain; [done|]. unfold count. lia.
Qed.

Lemma take_more chain (i k count j : nat) :
  (k ≤ i)%nat →
  take (i - k) (headers_after chain k) ++ take j (pb_header <$> take count (drop (S i) chain)) =
  take (i - k + j `min` count) (headers_after chain k).
Proof.
  intros Hk. unfold headers_after. rewrite fmap_take, take_take.
  replace (drop (S i) chain) with (drop (i - k) (drop (S k) chain)) by (rewrite drop_drop; f_equal; lia).
  rewrite !fmap_drop. apply take_take_drop.
Qed.

Lemma last_chunk chain (i count : nat) :
  (0 < count)%nat → (i + count < length chain)%nat → last (take count (drop (S i) chain)) = chain !! (i + count)%nat.
Proof.
  intros Hc Hl. rewrite last_lookup, length_take, length_drop, Nat.min_l by lia. rewrite lookup_take_lt by lia.
  rewrite lookup_drop. f_equal. lia.
Qed.

Lemma sync_step_at api creation chain hs k s i :
  serves api chain → at_block chain hs k s i →
  let step := sync_step api id true (Z.of_nat (length chain) - 1) creation s in
  (∃ s' i', step = Ret (inl s') ∧ at_block chain hs k s' i' ∧ (i < i' < length chain)%nat) ∨
  (∃ r, step = Ret (inr r) ∧ outcome_of chain hs k r).
Proof.
  intros Hs (Hk & (b & Hb & Hh) & Hf). destruct s as [e h]. cbn [fst snd] in *. subst h. unfold sync_step.
  apply lookup_lt_Some in Hb as Hi. rewrite (chunk_at api chain i b Hs Hb).
  set (count := Z.to_nat _). assert (count = 1000 `min` (length chain - 1 - i))%nat as Hcount by (unfold count, BLOCK_SYNC_BATCH_SIZE; lia).
  clearbody count. destruct (decide (S i = length chain)) as [Hend|Hend].
  { assert (count = 0%nat) as -> by lia. rewrite take_0. right. eexists. split; [done|]. exists (i - k)%nat. split; [done|]. left.
    split; [|lia]. exists b. split; [|done]. by rewrite last_lookup, <-Hend. }
  pose proof (last_chunk chain i count ltac:(lia) ltac:(lia)) as Hlast.
  assert (length (take count (drop (S i) chain)) = count) as Hlen by (rewrite length_take, length_drop; lia).
  pose proof (take_more chain i k count) as Hmore.
  assert (∀ x, x ∈ take count (drop (S i) chain) → x ∈ chain) as Hsub
    by (intros x [n Hx]%list_elem_of_lookup_1; apply lookup_take_Some in Hx as [Hx _]; rewrite lookup_drop in Hx; by eapply list_elem_of_lookup_2).
  destruct (lookup_lt_is_Some_2 chain (i + count)) as [b' Hb']; [lia|]. rewrite Hb' in Hlast.
  destruct (chunk_events_ok api creation _ chain Hs Hsub) as (evs & proofs & Hevs & Hal).
  destruct (ef_sync (id := id) _ e _ evs proofs Hf Hal) as (e' & res & j & Hsync & Hf' & Hj).
  rewrite <-app_assoc, Hmore in Hf' by done.
  destruct (take count (drop (S i) chain)) as [|c0 chunk] eqn:Hc; [cbn in Hlen; lia|]. rewrite <-Hc in *.
  rewrite Hevs, Hsync. cbn [mbind outcome_bind]. destruct res as [[]|status].
  - rewrite Hlast. left. exists (e', pb_header b'), (i + count)%nat. split; [done|]. split; [|lia].
    split; [lia|]. split; [by exists b'|]. cbn [fst]. rewrite Hj, Hlen, Nat.min_id in Hf' by done.
    by replace (i + count - k)%nat with (i - k + count)%nat by lia.
  - right. eexists. split; [done|]. eexists. split; [exact Hf'|]. right. by eexists.
Qed.

Lemma sync_total api chain hs k b0 e shard info fuel :
  serves api chain → chain !! k = Some b0 → ef_follows hs e → enclave_creation_info e shard = Ok info →
  (length chain - k < fuel)%nat →
  ∃ r, sync_parentchain_until_latest_finalized fuel api id e (pb_header b0) shard true = Ret r ∧ outcome_of chain hs k r.
Proof.
  intros Hs Hb He Hinfo Hfuel. unfold sync_parentchain_until_latest_finalized, last_finalized_block.
  destruct (sv_head _ _ Hs) as (bl & Hlast & -> & Hsb). cbn. rewrite Hsb.
  rewrite (sv_by_hash _ _ Hs) by (by eapply list_elem_of_lookup_2). rewrite Hinfo.
  assert (pc_number (pb_header bl) = Z.of_nat (length chain) - 1)%Z as ->.
  { rewrite last_lookup in Hlast. rewrite (sv_number _ _ Hs _ _ Hlast). apply lookup_lt_Some in Hlast. lia. }
  apply (loop_total _ (λ s, ∃ i, at_block chain hs k s i) (λ s, length chain - Z.to_nat (pc_number s.2))%nat (outcome_of chain hs k)).
  - intros s [i Hi]. assert (∀ s i, at_block chain hs k s i → Z.to_nat (pc_number s.2) = i) as Hn.
    { intros ? ? (_ & (b & Hb' & ->) & _). rewrite (sv_number _ _ Hs _ _ Hb'). lia. }
    destruct (sync_step_at api (for_parentchain info id) chain hs k s i Hs Hi) as [(s' & i' & Hstep & Hi' & Hlt)|Hdone]; [left|by right].
    exists s'. split; [done|]. split; [by exists i'|]. rewrite (Hn _ _ Hi), (Hn _ _ Hi'). lia.
  - exists k. split; [done|]. split; [by exists b0|]. cbn. by rewrite Nat.sub_diag, take_0, app_nil_r.
  - cbn. rewrite (sv_number _ _ Hs _ _ Hb). lia.
Qed.

Lemma headers_prefix chain chain' k i :
  chain `prefix_of` chain' → (k ≤ i < length chain)%nat →
  take (i - k) (headers_after chain' k) = take (i - k) (headers_after chain k).
Proof.
  intros [l ->] Hi. unfold headers_after. rewrite drop_app_le by lia. rewrite fmap_app. apply take_app_le.
  rewrite length_fmap, length_drop. lia.
Qed.

(** What the next look at the node finds is an extension of the chain. *)
Definition growing (apis : nat → Api) (chains : nat → list PB) : Prop :=
  ∀ r, serves (apis r) (chains r) ∧ chains r `prefix_of` chains (S r).

(** Before a round: what was the head at the round before has been imported. *)
Definition at_round (chains : nat → list PB) (hs : list PH) (k : nat) (s : nat * E * PH) : Prop :=
  ∃ i, at_block (chains s.1.1) hs k (s.1.2, s.2) i ∧ (∀ r, s.1.1 = S r → i = length (chains r) - 1)%nat.

Definition awaited (chains : nat → list PB) (hs : list PH) (k R : nat) (until : PH) (r : E * result PH ServiceError) : Prop :=
  (∃ n i h, (n ≤ S R)%nat ∧ at_block (chains n) hs k (r.1, h) i ∧ r.2 = Ok h ∧ (pc_number until ≤ pc_number h)%Z) ∨
  (∃ status, r.2 = Err (SvEnclave status)).

Lemma chain_grows apis chains r r' : growing apis chains → (r ≤ r')%nat → (length (chains r) ≤ length (chains r'))%nat.
Proof.
  intros Hg. induction 1 as [|r' _ IH]; [done|]. destruct (Hg r') as [_ Hp]. apply prefix_length in Hp. lia.
Qed.

Lemma await_step_at fuel apis chains hs k R until shard s :
  growing apis chains → (∀ e : E, is_ok (enclave_creation_info e shard) = true) → (length (chains R) < fuel)%nat →
  (pc_number until < Z.of_nat (length (chains R)))%Z →
  at_round chains hs k s → (s.1.1 ≤ S R)%nat →
  let step := await_step fuel apis id until shard s in
  (∃ s', step = Ret (inl s') ∧ (at_round chains hs k s' ∧ (s'.1.1 ≤ S R)%nat) ∧ (S R - s'.1.1 < S R - s.1.1)%nat) ∨
  (∃ r, step = Ret (inr r) ∧ awaited chains hs k R until r).
Proof.
  intros Hg Hinfo Hfuel Hreach (i & Hat & Hlast) HR. destruct s as [[n e] h]. cbn [fst snd] in *. unfold await_step.
  destruct (Z.ltb_spec (pc_number h) (pc_number until)) as [Hlt|Hge].
  2: { right. eexists. split; [done|]. left. by exists n, i, h. }
  destruct Hat as (Hk & (b & Hb & Hh) & Hf). cbn [fst snd] in *. subst h. destruct (Hg n) as [Hs Hp].
  assert (n ≤ R)%nat as Hn.
  { destruct (decide (n = S R)) as [->|]; [|lia]. specialize (Hlast R eq_refl). rewrite (sv_number _ _ Hs _ _ Hb) in Hlt. lia. }
  pose proof (chain_grows apis chains n R Hg Hn) as Hmono. specialize (Hinfo e).
  destruct (enclave_creation_info e shard) as [info|] eqn:Hi; [|done].
  destruct (sync_total (apis n) (chains n) _ i b e shard info fuel Hs Hb Hf Hi ltac:(lia)) as ([e' res] & Hsync & j & Hf' & Hres).
  rewrite Hsync. cbn [mbind outcome_bind fst snd] in *. destruct Hres as [[(bl & Hbl & ->) ->]|[status ->]].
  2: { right. eexists. split; [done|]. right. by exists status. }
  left. eexists. split; [done|]. cbn [fst snd]. split; [|lia]. split; [|lia]. exists (length (chains n) - 1)%nat. cbn [fst snd].
  split; [|by intros r [= ->]]. apply lookup_lt_Some in Hb as Hil. rewrite last_lookup in Hbl.
  split; [lia|]. split.
  - exists bl. split; [|done]. eapply prefix_lookup_Some; [|exact Hp]. by replace (length (chains n) - 1)%nat with (pred (length (chains n))) by lia.
  - cbn [fst]. rewrite (headers_prefix _ _ _ _ Hp) by lia. rewrite <-app_assoc in Hf'.
    pose proof (take_more (chains n) i k (length (chains n) - S i) (length (chains n) - S i) Hk) as Hm.
    rewrite Nat.min_id in Hm. replace (length (chains n) - 1 - k)%nat with (i - k + (length (chains n) - S i))%nat by lia.
    rewrite <-Hm. by rewrite fmap_take, take_take, Nat.min_id.
Qed.
End service.
End ServiceInv.

(** ** The enclave behind the ecall *)

Module EcallInv.
Import Ecall.

Section ecall.
Context {Imp PB IE PH : Type} `{ChainImporter Imp PB PH IE} `{StateRoot PH}.
Context {Db : Type} `{TrieDb Db} `{Twox}.
Context `{Encode (list PB), Decode (list PB), !Codec (list PB)}.
Context `{Encode (list RawEventsPerBlock), Decode (list RawEventsPerBlock), !Codec (list RawEventsPerBlock)}.
Context `{Encode (list StorageProof), Decode (list StorageProof), !Codec (list StorageProof)}.
Context `{Encode ParentchainId, Decode ParentchainId, !Codec ParentchainId}.
Context (mode : WorkerMode) (creation_info : Handlers Imp PB → ShardIdentifier → result ShardCreationInfo Z) (id : ParentchainId).
Hypothesis imports : mode ≠ Teeracle.
Abbreviation Dispatcher' := (Dispatch.BlockImportDispatcher Imp PB).

Definition importer_of (d : Dispatcher') : option Imp :=
  match d with
  | Dispatch.Triggered d => Some (Dispatch.block_importer d)
  | Dispatch.Immediate d => Some (Dispatch.imm_importer d)
  | Dispatch.EmptyDispatcher => None
  end.

(** The importer that takes the blocks of a parentchain. *)
Definition taken_by (solochain parachain : option Dispatcher') : option Imp :=
  match solochain with Some d => importer_of d | None => parachain ≫= importer_of end.
Definition assigned (hs : Handlers Imp PB) : option Imp :=
  match id with
  | Integritee => taken_by (integritee_solochain hs) (integritee_parachain hs)
  | TargetA => taken_by (target_a_solochain hs) (target_a_parachain hs)
  | TargetB => taken_by (target_b_solochain hs) (target_b_parachain hs)
  end.

Lemma dispatch_any_follows d hs bs evs imp :
  importer_of d = Some imp → ci_follows hs imp → evs = [] ∨ length evs = length bs →
  ∃ d' res imp' k, Dispatch.dispatch_any d bs evs true = Ret (d', res) ∧ importer_of d' = Some imp' ∧
    ci_follows (hs ++ take k (pb_header <$> bs)) imp' ∧ (res = Ok tt → k = length bs).
Proof.
  intros Hi Hf Hl. destruct (ci_import hs imp bs evs Hf Hl) as (imp' & res & k & Hres & Hf' & Hk).
  destruct d as [d|i|]; [| |done]; injection Hi as <-;
    cbn [Dispatch.dispatch_any Dispatch.dispatch_import]; unfold Dispatch.run_import, Dispatch.dispatch_immediate; rewrite Hres;
    cbn [mbind outcome_bind]; destruct res as [[]|err];
    (eexists _, _, imp', k; split; [done|]; split; [done|]; split; [done|]; intros Hok; by (apply Hk || discriminate Hok)).
Qed.

Lemma dispatch_to_follows solo para none hs bs evs imp :
  taken_by solo para = Some imp → ci_follows hs imp → evs = [] ∨ length evs = length bs →
  ∃ solo' para' res imp' k, dispatch_to (IE := IE) solo para none bs evs true = Ret (solo', para', res) ∧
    taken_by solo' para' = Some imp' ∧ ci_follows (hs ++ take k (pb_header <$> bs)) imp' ∧ (res = Ok tt → k = length bs).
Proof.
  intros Ht Hf Hl. unfold dispatch_to. destruct solo as [d|]; [|destruct para as [d|]; [|done]];
    destruct (dispatch_any_follows d hs bs evs imp Ht Hf Hl) as (d' & res & imp' & k & -> & Hd & Hf' & Hk);
    cbn [mbind outcome_bind]; (eexists _, _, _, imp', k; split; [done|]; split; [exact Hd|]; split; [done|];
      destruct res as [[]|]; intros Hok; by (apply Hk || discriminate Hok)).
Qed.

Lemma dispatch_blocks_follows e hs bs evs imp :
  assigned e = Some imp → ci_follows hs imp → evs = [] ∨ length evs = length bs →
  ∃ e' res imp' k, dispatch_parentchain_blocks_for_import (IE := IE) mode e bs evs id true = Ret (e', res) ∧
    assigned e' = Some imp' ∧ ci_follows (hs ++ take k (pb_header <$> bs)) imp' ∧ (res = Ok tt → k = length bs).
Proof.
  intros Ha Hf Hl. set (none := match id with
    | Integritee => NoIntegriteeParentchainAssigned (IE := IE) | TargetA => NoTargetAParentchainAssigned | TargetB => NoTargetBParentchainAssigned end).
  unfold dispatch_parentchain_blocks_for_import, assigned in *. destruct mode; [| |done]; destruct id;
    destruct (dispatch_to_follows _ _ none hs bs evs imp Ha Hf Hl) as (s' & p' & res & imp' & k & Hd & Ht & Hf' & Hk);
    unfold none in Hd; rewrite Hd; cbn [mbind outcome_bind]; (eexists _, res, imp', k; by split_and!).
Qed.

#[local] Instance handlers_sync : EnclaveSync (Handlers Imp PB) PB := {|
  enclave_sync hs bs evs proofs id imm := api_sync_parentchain (Db := Db) mode hs bs evs proofs id imm;
  enclave_creation_info := creation_info;
|}.

Program Definition following_enclave : FollowingEnclave (Handlers Imp PB) PB PH id := {|
  ef_follows hs e := ∃ imp, assigned e = Some imp ∧ ci_follows hs imp;
|}.
Next Obligation.
  intros hs e bs evs proofs (imp & Ha & Hf) Hl. cbn [enclave_sync handlers_sync].
  unfold api_sync_parentchain, sync_parentchain, sync_parentchain_internal. rewrite !decode_encode.
  destruct (dispatch_blocks_follows e hs bs evs imp Ha Hf Hl) as (e' & res & imp' & k & -> & Ha' & Hf' & Hk).
  cbn [mbind outcome_bind]. eexists e', _, k. split; [done|]. split; [by exists imp'|]. destruct res as [[]|]; auto. by case_decide.
Qed.
End ecall.
End EcallInv.

(** ** Properties of the service *)

Section service_props.
Context {Api E PB PH : Type} `{ChainInfo Api PB} `{EnclaveSync E PB} `{ParentchainBlock PB PH} `{ParentchainHeader PH}.
Context {id : ParentchainId} `{!FollowingEnclave E PB PH id}.
Import Service ServiceInv.

(** C14: The service catches up with the finalized head of the node: from a block of the
    node's chain, in chunks of at most a thousand, the enclave is given every later block
    once and in order.  The loop returns, with the head of the chain as the last synced
    header, unless the enclave refuses a chunk; then the enclave has a prefix of
    what it was given. *)
Theorem sync_reaches_the_head (api : Api) (chain : list PB) (hs : list PH) (k : nat) (b0 : PB) (e : E) (shard : ShardIdentifier)
    (info : ShardCreationInfo) (fuel : nat) :
  serves api chain → chain !! k = Some b0 → ef_follows hs e → enclave_creation_info e shard = Ok info →
  (length chain - k < fuel)%nat →
  ∃ e' res j, sync_parentchain_until_latest_finalized fuel api id e (pb_header b0) shard true = Ret (e', res) ∧
    ef_follows (hs ++ take j (pb_header <$> drop (S k) chain)) e' ∧
    ((∃ b, last chain = Some b ∧ res = Ok (pb_header b)) ∧ j = (length chain - S k)%nat ∨ ∃ status, res = Err (SvEnclave status)).
Proof.
  intros Hs Hb He Hi Hf. destruct (sync_total api chain hs k b0 e shard info fuel Hs Hb He Hi Hf) as ([e' res] & Hr & j & Hj).
  by exists e', res, j.
Qed.

(** The wait for a header ends: when the chain of the node grows, and from some round on
    includes the height that is waited for, the loop returns by the round after it with a synced header
    that is at least as high, everything up to it imported, or with the error of the
    enclave. *)
Theorem await_reaches_the_header (fuel rounds R : nat) (apis : nat → Api) (chains : nat → list PB) (hs : list PH) (k : nat)
    (b0 : PB) (e : E) (until_header : PH) (shard : ShardIdentifier) :
  growing apis chains → (∀ e : E, is_ok (enclave_creation_info e shard) = true) →
  chains 0%nat !! k = Some b0 → ef_follows hs e → (pc_number until_header < Z.of_nat (length (chains R)))%Z →
  (length (chains R) < fuel)%nat → (S R < rounds)%nat →
  ∃ e' res, await_sync_and_import_parentchain_until_at_least fuel rounds apis id e (pb_header b0) until_header shard = Ret (e', res) ∧
    ((∃ n i b, (n ≤ S R)%nat ∧ chains n !! i = Some b ∧ res = Ok (pb_header b) ∧ (pc_number until_header ≤ pc_number (pb_header b))%Z ∧
        ef_follows (hs ++ take (i - k) (pb_header <$> drop (S k) (chains n))) e') ∨
     ∃ status, res = Err (SvEnclave status)).
Proof.
  intros Hg Hinfo Hb He Hreach Hfuel Hrounds. unfold await_sync_and_import_parentchain_until_at_least.
  destruct (loop_total (await_step fuel apis id until_header shard) (λ s, at_round chains hs k s ∧ (s.1.1 ≤ S R)%nat)
    (λ s, S R - s.1.1)%nat (awaited chains hs k R until_header)) with (fuel := rounds) (s := (0%nat, e, pb_header b0))
    as ([e' res] & Hl & Hr).
  - intros s [Hs HR]. exact (await_step_at fuel apis chains hs k R until_header shard s Hg Hinfo Hfuel Hreach Hs HR).
  - split; [|cbn; lia]. exists k. split; [|done]. split; [done|]. split; [by exists b0|]. cbn.
    by rewrite Nat.sub_diag, take_0, app_nil_r.
  - cbn. lia.
  - exists e', res. split; [done|]. destruct Hr as [(n & i & h & Hn & (_ & (b & Hb' & Hh) & Hf) & Hres & Hle)|Hr]; [left|by right].
    cbn [fst snd] in *. subst h. by exists n, i, b.
Qed.
End service_props.

(** ** A concrete worker *)

Module ClientSample.
Import Sample LightSample OnChainSample.

(** A header with its justification. *)
Definition Signed : Type := Header * option Bytes.
#[export] Instance signed_blocks : ParentchainBlock Signed Header := fst.
#[export] Instance signed_justified : Justified Signed Bytes := snd.
#[export] Instance signed_root : StateRoot Header := λ h, h.1.

#[export] Instance header_stf : Stf demo_call unit Header := {|
  tcs_verify_signature := λ c mr s, tcs_verify_signature (Stf := stf) c mr s;
  stf_execute_call := λ st c, stf_execute_call (Stf := stf) st c;
  stf_update_parentchain_integritee_block := λ st h, stf_update_parentchain_integritee_block (Stf := stf) st h.1;
|}.
#[export] Instance header_stf_laws : StfLaws demo_call unit Header.
Proof. split; [apply stf_laws|]. intros st h. apply stf_laws. Qed.
#[export] Instance header_stf_system : StfSystem demo_call unit Header.
Proof. split; [apply stf_system|]. intros st h. apply stf_system. Qed.

#[export] Instance no_indirect_calls : IndirectCallsExecutor Pool Signed := λ p _ _, Ret (p, Ok None).
#[export] Instance no_indirect_calls_ok : SafeIndirectCalls Pool Signed demo_call demo_getter top_hash.
Proof. intros p b events Hp. by exists p, (Ok None). Qed.

Definition storages_at (hashes : list Bytes) (_ : Header) (_ : ParentchainId) : result (list (Bytes * option Bytes)) string :=
  Ok ((λ h, (h, None)) <$> hashes).
Lemma storages_at_no_shards hashes h i l v : storages_at hashes h i = Ok l → (Executor.shards_key_hash, Some v) ∉ l.
Proof. intros [= <-] (k & Hk & _)%list_elem_of_fmap. by simplify_eq. Qed.

Definition send (nd : unit) (_ _ : Bytes) (_ : bool) : unit * (Z * Z) := (nd, (0%Z, 0%Z)).
Definition text (_ : LightClientError) : string := "error".
Definition snapshot (b : Signed) (_ : ShardIdentifier) : StateId := (100 + b.1.1)%N.
Definition creation : ShardCreationInfo := MkCreation None None None.

#[export] Instance client : LightClient (Client LightSample.Files Header unit) Signed N := Pc.light_client check_signature send text.
Abbreviation WorkerEnv := (PcImport.Env (Client LightSample.Files Header unit) unit (Handler.StateHandler Sample.Files) Pool).
#[export] Instance block_importer : ImportParentchainBlocks WorkerEnv Signed ImporterError :=
  PcImport.parentchain_importer (TCS := demo_call) (Mr := unit) (Xt := N) storages_at snapshot Integritee creation.
#[export] Instance block_chain_importer : ChainImporter WorkerEnv Signed Header ImporterError :=
  PcInv.chain_importer check_signature send text rank rank_parent storages_at snapshot Integritee creation storages_at_no_shards genesis (λ b, announced (pb_header b)).

Definition env : WorkerEnv :=
  PcImport.MkEnv (MkClient (started 9 (Sealed (encode (Relay.new genesis authorities)))) tt) tt handler pool.
Lemma env_follows : ci_follows [] env.
Proof. split; [split; [apply handler_ok|apply pool_ok]|apply started_follows]. Qed.

#[export] Instance enc_signed : Encode (list Signed) := count_encode.
#[export] Instance dec_signed : Decode (list Signed) := count_decode.
#[export] Instance codec_signed : Codec (list Signed) := count_codec.
#[export] Instance enc_raw_events : Encode (list RawEventsPerBlock) := count_encode.
#[export] Instance dec_raw_events : Decode (list RawEventsPerBlock) := count_decode.
#[export] Instance codec_raw_events : Codec (list RawEventsPerBlock) := count_codec.
#[export] Instance enc_proofs : Encode (list StorageProof) := count_encode.
#[export] Instance dec_proofs : Decode (list StorageProof) := count_decode.
#[export] Instance codec_proofs : Codec (list StorageProof) := count_codec.

Abbreviation WorkerHandlers := (Handlers WorkerEnv Signed).
Definition creation_of (_ : WorkerHandlers) (_ : ShardIdentifier) : result ShardCreationInfo Z := Ok creation.
#[export] Instance enclave : EnclaveSync WorkerHandlers Signed := EcallInv.handlers_sync (Db := list Bytes) SidechainMode creation_of.
#[export] Instance enclave_follows : FollowingEnclave WorkerHandlers Signed Header Integritee :=
  EcallInv.following_enclave (Db := list Bytes) SidechainMode creation_of Integritee ltac:(discriminate).

Definition handlers : WorkerHandlers := MkHandlers (Some (Dispatch.Triggered (Dispatch.MkTriggered env [] []))) None None None None None.
Lemma handlers_follow : ef_follows [] handlers.
Proof. exists env. split; [done|]. apply env_follows. Qed.

(** A node with a chain of so many blocks after the genesis. *)
Definition block (n : nat) : Signed := ((N.of_nat n, None), None).
Definition chain (n : nat) : list Signed := block <$> seq 0 (S n).
Definition by_hash (n : nat) (h : option N) : result (option Signed) string :=
  Ok (match h with Some h => chain n !! N.to_nat (N.pred h) | None => None end).
#[export] Instance chain_info : ChainInfo nat Signed := {|
  get_finalized_head := λ n, Ok (Some (N.succ (N.of_nat n)));
  get_signed_block := by_hash;
  get_block := by_hash;
  get_signed_block_by_num := λ n i, Ok (match i with Some i => chain n !! Z.to_nat i | None => None end);
  get_events_storage := λ _ _, Ok (Some [1%N]);
  get_events_proof := λ _ _, Ok None;
|}.

Lemma chain_lookup n i b : chain n !! i = Some b ↔ b = block i ∧ (i ≤ n)%nat.
Proof.
  unfold chain. rewrite list_lookup_fmap, fmap_Some. split.
  - intros (j & [-> ?]%lookup_seq & ->). split; [done|lia].
  - intros [-> ?]. exists i. rewrite lookup_seq. split; [lia|done].
Qed.
Lemma chain_length n : length (chain n) = S n.
Proof. unfold chain. by rewrite length_fmap, length_seq. Qed.

Lemma node_serves n : (n < 1000)%nat → ServiceInv.serves n (chain n).
Proof.
  assert (∀ i, (i ≤ n)%nat → by_hash n (Some (pc_hash (pb_header (block i)))) = Ok (Some (block i))) as Hhash.
  { intros i Hi. unfold by_hash. do 2 f_equal. apply chain_lookup. cbn. rewrite N.pred_succ. split; [f_equal; lia|lia]. }
  intros Hn. split.
  - intros i b [-> _]%chain_lookup. cbn. lia.
  - rewrite chain_length. unfold Service.BLOCK_SYNC_BATCH_SIZE. lia.
  - intros i. cbn. by rewrite Nat2Z.id.
  - intros b [i [-> Hi]%chain_lookup]%list_elem_of_lookup. by apply Hhash.
  - exists (block n). rewrite last_lookup, chain_length. split; [by apply chain_lookup|]. split; [done|]. by apply Hhash.
  - done.
Qed.

Lemma chain_prefix n : chain n `prefix_of` chain (S n).
Proof. unfold chain. rewrite (seq_S (S n)), fmap_app. by eexists. Qed.
End ClientSample.

Section witnesses.
Import Sample LightSample OnChainSample ClientSample Service.
#[local] Existing Instance ClientSample.block_importer.

(** The events of the second block are missing, so that it is not imported with the first
    batch but with the next one; the block 4 does not link. *)
Definition batches : list (list Signed * list RawEventsPerBlock) :=
  [([block 1; block 2], [[]]); ([block 2], []); ([block 4], [[]])].

Lemma batches_extend_the_chain_witness :
  ∃ e results k,
    PcInv.import_batches check_signature send text (TCS := demo_call) (Mr := unit) (Xt := N) storages_at snapshot Integritee creation env batches = Ret (e, results) ∧
    is_ok <$> results = [true; true; false] ∧
    PcInv.following genesis (pb_header <$> [block 1; block 2] ++ take k [block 4]) e.
Proof.
  destruct (PcInv.batches_extend_the_chain check_signature send text rank rank_parent (TCS := demo_call) (Mr := unit) (Xt := N)
    storages_at snapshot Integritee creation storages_at_no_shards genesis [] env batches) as (e & results & ks & Hr & Hf & Hks).
  { exact env_follows. }
  { apply Forall_true. intros b. apply announced. }
  assert (match PcInv.import_batches check_signature send text (TCS := demo_call) (Mr := unit) (Xt := N) storages_at snapshot Integritee creation env batches with
    | Ret (_, rs) => is_ok <$> rs | _ => [] end = [true; true; false]) as Hok by (vm_compute; reflexivity). rewrite Hr in Hok.
  destruct results as [|[[]|] [|[[]|] [|r3 [|]]]]; try discriminate Hok.
  inversion Hks as [|? k1 ? ? ? ? [_ Hk1] Hks1]; subst. inversion Hks1 as [|? k2 ? ? ? ? [_ Hk2] Hks2]; subst.
  inversion Hks2 as [|? k3 ? ? ? ? _ Hks3]; subst. inversion Hks3; subst. rewrite (Hk1 eq_refl), (Hk2 eq_refl) in Hf.
  exists e, [Ok tt; Ok tt; r3], k3. split; [exact Hr|]. split; [exact Hok|]. 
  rewrite fmap_app, fmap_take. cbn in Hf. rewrite app_nil_r in Hf. exact Hf.
Defined.

(** The first block comes with the justification of another one; then a second block
    that builds on it is imported, and then the first one without a justification. *)
Definition misproven : Signed := (pb_header (block 1), Some (encode justification)).
Lemma unproven_block_is_lost_witness :
  ∃ e1 e2 e3 msg msg' results,
    PcImport.import_parentchain_blocks (TCS := demo_call) (Mr := unit) (Xt := N) storages_at snapshot Integritee creation env
      [misproven] [[]] = Ret (e1, Err (IeLightClient msg)) ∧
    PcInv.import_batches check_signature send text (TCS := demo_call) (Mr := unit) (Xt := N) storages_at snapshot Integritee creation e1
      [([block 2], [[]])] = Ret (e2, results) ∧
    PcImport.import_parentchain_blocks (TCS := demo_call) (Mr := unit) (Xt := N) storages_at snapshot Integritee creation e2
      [block 1] [[]] = Ret (e3, Err (IeLightClient msg')).
Proof.
  destruct (Final.verify_grandpa_proof (PH := Header) check_signature (encode justification) 2%N 1 0 authorities) as [[|err]| |] eqn:Hver;
    [by vm_compute in Hver| |by vm_compute in Hver..].
  destruct (PcInv.unproven_block_is_lost check_signature send text rank rank_parent (TCS := demo_call) (Mr := unit) (Xt := N)
    storages_at snapshot Integritee creation storages_at_no_shards genesis [] env misproven [] (encode justification) authorities err)
    as (e1 & msg & Hi & _ & _ & _ & Hlater); [exact env_follows|done|apply announced|done..|exact Hver|].
  destruct (Hlater [([block 2], [[]])]) as (e2 & results & Hb & Hagain); [apply Forall_true; intros b; apply announced|].
  destruct (Hagain (block 1) []) as (e3 & msg' & Hi' & _); [done|]. exists e1, e2, e3, msg, msg', results.
  split; [exact Hi|]. split; [exact Hb|exact Hi'].
Defined.

Lemma sync_reaches_the_head_witness :
  ∃ e, sync_parentchain_until_latest_finalized 10 3%nat Integritee handlers (pb_header (block 0)) shard true =
      Ret (e, Ok (pb_header (block 3))) ∧
    ef_follows (pb_header <$> [block 1; block 2; block 3]) e.
Proof.
  destruct (sync_reaches_the_head (id := Integritee) 3%nat (chain 3) [] 0 (block 0) handlers shard creation 10)
    as (e & res & j & Hs & Hf & Hres).
  { apply node_serves. lia. }
  { done. }
  { apply handlers_follow. }
  { done. }
  { rewrite chain_length. lia. }
  assert (res = Ok (pb_header (block 3))) as Hok.
  { destruct Hres as [[(b & Hb & ->) _]|[status ->]]; [cbn in Hb; by injection Hb as <-|].
    exfalso. assert (match sync_parentchain_until_latest_finalized 10 3%nat Integritee handlers (pb_header (block 0)) shard true with
      | Ret (_, Ok _) => true | _ => false end = true) as Hc by (vm_compute; reflexivity). by rewrite Hs in Hc. }
  destruct Hres as [[_ ->]|[status Hst]]; [|by rewrite Hok in Hst]. exists e. rewrite Hok in Hs. split; [exact Hs|exact Hf].
Defined.

(** A node that finalizes a block a round, five in all; the wait is for the second. *)
Definition node_at (r : nat) : nat := r `min` 5.
Lemma await_reaches_the_header_witness :
  ∃ e b, await_sync_and_import_parentchain_until_at_least 10 10 node_at Integritee handlers (pb_header (block 0)) (pb_header (block 2)) shard =
      Ret (e, Ok (pb_header b)) ∧ (2 ≤ pc_number (pb_header b))%Z.
Proof.
  destruct (await_reaches_the_header (id := Integritee) 10 10 2 node_at (λ r, chain (node_at r)) [] 0 (block 0) handlers
    (pb_header (block 2)) shard) as (e & res & Hs & Hres).
  { intros r. split; [apply node_serves; unfold node_at; lia|]. unfold node_at. destruct (decide (r < 5)%nat) as [Hr|Hr].
    - rewrite !Nat.min_l by lia. apply chain_prefix.
    - by rewrite !Nat.min_r by lia. }
  { done. }
  { done. }
  { apply handlers_follow. }
  { done. }
  { rewrite chain_length. unfold node_at. lia. }
  { lia. }
  destruct Hres as [(n & i & b & _ & _ & -> & Hb & _)|[status ->]]; [exists e, b; split; [exact Hs|exact Hb]|].
  exfalso. assert (match await_sync_and_import_parentchain_until_at_least 10 10 node_at Integritee handlers (pb_header (block 0))
    (pb_header (block 2)) shard with Ret (_, Ok _) => true | _ => false end = true) as Hc by (vm_compute; reflexivity).
  by rewrite Hs in Hc.
Defined.
End witnesses.
