(* ===== verification/WsServer.v ===== *)
(** The web-socket server that clients of the enclave connect to
    (src/core/tls-websocket-server/src/{connection,stream_state,
    connection_id_generator,ws_server}.rs): connections as state machines over TLS
    and the web-socket protocol, tokens, the signals of the responder and the event
    loop.

    TLS sessions (rustls), web-sockets (tungstenite) and the poll (mio) are
    external; so is the handler of messages, which may send responses while it
    runs. *)

From stdpp Require Import base gmap numbers strings list.
From S2P Require Import Prelude Collections.

Open Scope worker_scope.

Abbreviation Token := Z.

(** ** External libraries *)

Inductive IoError := WouldBlock | IoOther (msg : string).

Inductive TungsteniteError := TgConnectionClosed | TgAlreadyClosed | TgOther (msg : string).

Inductive Message := TextMessage (s : string) | BinaryMessage (b : list N) | CloseMessage | OtherMessage.

Inductive HandshakeResult (Mid Ws : Type) := Accepted (ws : Ws) | Interrupted (m : Mid) | Failure (msg : string).
Arguments Accepted {Mid Ws} ws.
Arguments Interrupted {Mid Ws} m.
Arguments Failure {Mid Ws} msg.

(** A stream is a TLS session with its socket; an interrupted handshake and a
    web-socket contain one. *)
Class WebSockets (Stream Mid Ws : Type) := {
  read_tls : Stream → Stream * result Z IoError;
  process_new_packets : Stream → Stream * result unit string;
  write_tls : Stream → Stream * result Z string;
  is_handshaking : Stream → bool;
  wants_read : Stream → bool;
  wants_write : Stream → bool;
  ws_accept : Stream → HandshakeResult Mid Ws;
  ws_handshake : Mid → HandshakeResult Mid Ws;
  mid_stream : Mid → Stream;
  set_mid_stream : Mid → Stream → Mid;
  ws_stream : Ws → Stream;
  set_ws_stream : Ws → Stream → Ws;
  ws_read_message : Ws → Ws * result Message TungsteniteError;
  ws_can_write : Ws → bool;
  ws_write_message : Ws → string → Ws * result unit TungsteniteError;
  ws_close : Ws → Ws * result unit TungsteniteError;
  ws_write_pending : Ws → Ws * result unit TungsteniteError;
}.

Record Ready := MkReady { is_readable : bool; is_writable : bool }.

(** The poll of mio. *)
Class MioPoll (Poll : Type) := {
  poll_register : Poll → Token → Ready → Poll * result unit string;
  poll_reregister : Poll → Token → Ready → Poll * result unit string;
}.

Inductive WebSocketError :=
| WsInvalidConnection (token : Token)
| WsConnectionClosed
| WsSocketWriteError (e : option TungsteniteError)
| WsMioReceiveError
| WsIoError (msg : string)
| WsOther (msg : string).

(** ** Messages and signals *)

Inductive ServerSignal :=
| ShutDown
| SendResponse (message : string) (token : Token).

(** [WebSocketMessageHandler]; [Hd] is all that a handler may change, and the signals
    are those that it sends to the server while it runs. *)
Class WebSocketMessageHandler (Hd : Type) :=
  handle_ws_message : Hd → Token → string → outcome (Hd * list ServerSignal * result (option string) WebSocketError).

(** ** Streams (stream_state.rs) *)

Inductive StreamState (Stream Mid Ws : Type) :=
| InvalidStream
| TlsStream (s : Stream)
| WebSocketHandshake (m : Mid)
| EstablishedWebsocket (ws : Ws).
Arguments InvalidStream {Stream Mid Ws}.
Arguments TlsStream {Stream Mid Ws} s.
Arguments WebSocketHandshake {Stream Mid Ws} m.
Arguments EstablishedWebsocket {Stream Mid Ws} ws.

Inductive ConnectionState := Closing | Blocked | Alive | TlsHandshake.

#[export] Instance connection_state_eq_dec : EqDecision ConnectionState.
Proof. solve_decision. Defined.

Record Connection (Stream Mid Ws : Type) := MkConnection {
  stream_state : StreamState Stream Mid Ws;
  connection_token : Token;
  is_closed : bool;
}.
Arguments MkConnection {Stream Mid Ws} _ _ _.
Arguments stream_state {Stream Mid Ws} _.
Arguments connection_token {Stream Mid Ws} _.
Arguments is_closed {Stream Mid Ws} _.

Module Conn.
Section connection.
Context {Stream Mid Ws : Type} `{WebSockets Stream Mid Ws}.
Abbreviation StreamState' := (StreamState Stream Mid Ws).
Abbreviation Connection' := (Connection Stream Mid Ws).
Implicit Types (st : StreamState') (c : Connection').

Definition is_invalid st : bool := match st with InvalidStream => true | _ => false end.

Definition internal_stream st : option Stream :=
  match st with
  | TlsStream s => Some s
  | WebSocketHandshake m => Some (mid_stream m)
  | EstablishedWebsocket ws => Some (ws_stream ws)
  | InvalidStream => None
  end.

(** What a change through [internal_stream_mut] leaves. *)
Definition set_internal_stream st (s : Stream) : StreamState' :=
  match st with
  | TlsStream _ => TlsStream s
  | WebSocketHandshake m => WebSocketHandshake (set_mid_stream m s)
  | EstablishedWebsocket ws => EstablishedWebsocket (set_ws_stream ws s)
  | InvalidStream => InvalidStream
  end.

Definition from_handshake_result (r : HandshakeResult Mid Ws) : StreamState' :=
  match r with
  | Accepted ws => EstablishedWebsocket ws
  | Interrupted m => WebSocketHandshake m
  | Failure _ => InvalidStream
  end.

Definition attempt_handshake st : StreamState' :=
  match st with
  | TlsStream s => from_handshake_result (ws_accept s)
  | WebSocketHandshake m => from_handshake_result (ws_handshake m)
  | _ => st
  end.

(** ** Connections (connection.rs) *)

Definition new (s : Stream) (token : Token) : Connection' := MkConnection (TlsStream s) token false.

Definition set_state c st : Connection' := MkConnection st (connection_token c) (is_closed c).

Definition do_tls_read c : Connection' * ConnectionState :=
  match internal_stream (stream_state c) with
  | None => (c, Closing)
  | Some s =>
      let '(s, r) := read_tls s in
      let c := set_state c (set_internal_stream (stream_state c) s) in
      match r with
      | Err WouldBlock => (c, Blocked)
      | Err _ => (c, Closing)
      | Ok r =>
          if decide (r = 0%Z) then (c, Closing)
          else
            let '(s, p) := process_new_packets s in
            let c := set_state c (set_internal_stream (stream_state c) s) in
            match p with
            | Ok _ => (c, if is_handshaking s then TlsHandshake else Alive)
            | Err _ => (c, Closing)
            end
      end
  end.

Definition do_tls_write c : Connection' * ConnectionState :=
  match internal_stream (stream_state c) with
  | None => (c, Closing)
  | Some s =>
      let '(s, r) := write_tls s in
      let c := set_state c (set_internal_stream (stream_state c) s) in
      match r with
      | Ok _ => (c, if is_handshaking s then TlsHandshake else Alive)
      | Err _ => (c, Closing)
      end
  end.

Definition write_message c (message : string) : Connection' * result unit WebSocketError :=
  match stream_state c with
  | EstablishedWebsocket ws =>
      if negb (ws_can_write ws) then (c, Err WsConnectionClosed)
      else
        let '(ws, r) := ws_write_message ws message in
        (set_state c (EstablishedWebsocket ws), match r with Ok _ => Ok tt | Err e => Err (WsSocketWriteError (Some e)) end)
  | _ => (c, Err (WsSocketWriteError None))
  end.

(** A close frame back, and then the queue of frames; errors are only logged. *)
Definition close_web_socket c : Connection' :=
  match stream_state c with
  | EstablishedWebsocket ws => set_state c (EstablishedWebsocket (ws_write_pending (ws_close ws).1).1)
  | _ => c
  end.

Context {Hd : Type} `{WebSocketMessageHandler Hd}.

Definition handle_message (h : Hd) c (m : Message) : outcome (Hd * list ServerSignal * Connection' * result unit WebSocketError) :=
  match m with
  | TextMessage s =>
      handle_ws_message h (connection_token c) s ≫= λ '(h, signals, r),
      match r with
      | Err e => Ret (h, signals, c, Err e)
      | Ok None => Ret (h, signals, c, Ok tt)
      | Ok (Some reply) => let '(c, r) := write_message c reply in Ret (h, signals, c, r)
      end
  | BinaryMessage _ => Ret (h, [], c, Ok tt)
  | CloseMessage => Ret (h, [], close_web_socket c, Ok tt)
  | OtherMessage => Ret (h, [], c, Ok tt)
  end.

(** The boolean is 'the connection should be closed'. *)
Definition read_or_initialize_websocket (h : Hd) c : outcome (Hd * list ServerSignal * Connection' * result bool WebSocketError) :=
  match stream_state c with
  | EstablishedWebsocket ws =>
      let '(ws, r) := ws_read_message ws in
      let c := set_state c (EstablishedWebsocket ws) in
      match r with
      | Ok m => handle_message h c m ≫= λ '(h, signals, c, _), Ret (h, signals, c, Ok false)
      | Err TgConnectionClosed | Err TgAlreadyClosed => Ret (h, [], c, Ok true)
      | Err _ => Ret (h, [], c, Ok false)
      end
  | st =>
      let st := attempt_handshake st in
      Ret (h, [], set_state c st, Ok (is_invalid st))
  end.

Definition get_session_readiness c : Ready :=
  match internal_stream (stream_state c) with
  | None => MkReady false false
  | Some s =>
      if wants_read s && wants_write s then MkReady true true
      else if wants_write s then MkReady false true
      else MkReady true false
  end.

Context {Poll : Type} `{MioPoll Poll}.

Definition register (poll : Poll) c : Poll * result unit WebSocketError :=
  match internal_stream (stream_state c) with
  | Some _ =>
      let '(poll, r) := poll_register poll (connection_token c) (get_session_readiness c) in
      (poll, match r with Ok _ => Ok tt | Err e => Err (WsIoError e) end)
  | None => (poll, Err WsConnectionClosed)
  end.

Definition reregister (poll : Poll) c : Poll * result unit WebSocketError :=
  match internal_stream (stream_state c) with
  | Some _ =>
      let '(poll, r) := poll_reregister poll (connection_token c) (get_session_readiness c) in
      (poll, match r with Ok _ => Ok tt | Err e => Err (WsIoError e) end)
  | None => (poll, Err WsConnectionClosed)
  end.

Definition on_readable (h : Hd) c : outcome (Hd * list ServerSignal * Connection' * result bool WebSocketError) :=
  let '(c, state) := do_tls_read c in
  if decide (state = Alive) then read_or_initialize_websocket h c
  else Ret (h, [], c, Ok (bool_decide (state = Closing))).

Definition on_writable c (is_closing : bool) : Connection' * bool :=
  let '(c, state) := do_tls_write c in
  if decide (state = Alive) then
    match stream_state c with
    | EstablishedWebsocket ws =>
        let '(ws, r) := ws_write_pending ws in
        (set_state c (EstablishedWebsocket ws),
         match r with Err TgConnectionClosed | Err TgAlreadyClosed => true | _ => is_closing end)
    | _ => (c, is_closing)
    end
  else (c, bool_decide (state = Closing)).

Definition on_ready (poll : Poll) (h : Hd) c (readiness : Ready) :
    outcome (Poll * Hd * list ServerSignal * Connection' * result unit WebSocketError) :=
  (if is_readable readiness then on_readable h c else Ret (h, [], c, Ok false)) ≫= λ '(h, signals, c, r),
  match r with
  | Err e => Ret (poll, h, signals, c, Err e)
  | Ok is_closing =>
      let '(c, is_closing) := if is_writable readiness then on_writable c is_closing else (c, is_closing) in
      if is_closing then Ret (poll, h, signals, MkConnection (stream_state c) (connection_token c) true, Ok tt)
      else let '(poll, r) := reregister poll c in Ret (poll, h, signals, c, r)
  end.
End connection.
End Conn.

(** ** The server (connection_id_generator.rs, ws_server.rs) *)

Definition NEW_CONNECTIONS_LISTENER : Token := 0.
Definition SERVER_SIGNAL_TOKEN : Token := 1.
Definition MIN_ID : Z := 10.

(** The senders have the queue once the server runs. *)
Record Server (Stream Mid Ws : Type) := MkServer {
  current_id : Z;
  connections : gmap Token (Connection Stream Mid Ws);
  is_running : bool;
  signal_sender : option (list ServerSignal);
}.
Arguments MkServer {Stream Mid Ws} _ _ _ _.
Arguments current_id {Stream Mid Ws} _.
Arguments connections {Stream Mid Ws} _.
Arguments is_running {Stream Mid Ws} _.
Arguments signal_sender {Stream Mid Ws} _.

(** What the poll reports: a client that connects (or an error of the socket), a
    signal, or activity of a connection. *)
Inductive PollEvent (Stream : Type) :=
| ListenerEvent (accepted : result Stream string)
| SignalEvent
| ConnectionEvent (token : Token) (readiness : Ready).
Arguments ListenerEvent {Stream} accepted.
Arguments SignalEvent {Stream}.
Arguments ConnectionEvent {Stream} token readiness.

Module Srv.
Import Conn.

Section server.
Context {Stream Mid Ws Hd Poll : Type} `{WebSockets Stream Mid Ws} `{WebSocketMessageHandler Hd} `{MioPoll Poll}.
Abbreviation Server' := (Server Stream Mid Ws).
Implicit Types (s : Server').

Definition new_server : Server' := MkServer MIN_ID ∅ false None.

Definition set_connections s m : Server' := MkServer (current_id s) m (is_running s) (signal_sender s).

(** [checked_add(1).unwrap_or(MIN_ID)] at the width of [usize]. *)
Definition next_id s : Server' * Token :=
  let id := if (current_id s <? u64_max)%Z then (current_id s + 1)%Z else MIN_ID in
  (MkServer id (connections s) (is_running s) (signal_sender s), id).

Definition accept_connection (poll : Poll) s (accepted : result Stream string) : Poll * Server' * result unit WebSocketError :=
  match accepted with
  | Err e => (poll, s, Err (WsIoError e))
  | Ok socket =>
      let '(s, token) := next_id s in
      let c := Conn.new socket token in
      match register poll c with
      | (poll, Err e) => (poll, s, Err e)
      | (poll, Ok _) => (poll, set_connections s (<[token := c]> (connections s)), Ok tt)
      end
  end.

(** The signals of the responder; without a running server they are discarded. *)
Definition send_server_signal s (signal : ServerSignal) : Server' :=
  MkServer (current_id s) (connections s) (is_running s) ((λ q, q ++ [signal]) <$> signal_sender s).

Definition send_message s (token : Token) (message : string) : Server' := send_server_signal s (SendResponse message token).
Definition shut_down s : Server' := send_server_signal s ShutDown.

Definition connection_event (poll : Poll) (h : Hd) s (token : Token) (readiness : Ready) :
    outcome (Poll * Hd * Server' * result unit WebSocketError) :=
  match connections s !! token with
  | None => Ret (poll, h, s, Ok tt)
  | Some c =>
      on_ready poll h c readiness ≫= λ '(poll, h, signals, c, r),
      let s := foldl send_server_signal (set_connections s (<[token := c]> (connections s))) signals in
      match r with
      | Err e => Ret (poll, h, s, Err e)
      | Ok _ => Ret (poll, h, if is_closed c then set_connections s (delete token (connections s)) else s, Ok tt)
      end
  end.

Definition write_message_to_connection s (message : string) (token : Token) : Server' * result unit WebSocketError :=
  match connections s !! token with
  | None => (s, Err (WsInvalidConnection token))
  | Some c => let '(c, r) := write_message c message in (set_connections s (<[token := c]> (connections s)), r)
  end.

(** [Ok true] to shut down; that a response cannot be written is only logged. *)
Definition handle_server_signal (poll : Poll) s : Poll * Server' * result bool WebSocketError :=
  match signal_sender s with
  | Some (signal :: q) =>
      let s := MkServer (current_id s) (connections s) (is_running s) (Some q) in
      let '(s, do_shutdown) :=
        match signal with
        | ShutDown => (s, true)
        | SendResponse message token => ((write_message_to_connection s message token).1, false)
        end in
      let '(poll, r) := poll_reregister poll SERVER_SIGNAL_TOKEN (MkReady true false) in
      (poll, s, match r with Ok _ => Ok do_shutdown | Err e => Err (WsIoError e) end)
  | _ => (poll, s, Err WsMioReceiveError)
  end.

(** One event of the loop: the server goes on, or it has returned. *)
Definition handle_event (poll : Poll) (h : Hd) s (event : PollEvent Stream) :
    outcome (Poll * Hd * Server' * option (result unit WebSocketError)) :=
  match event with
  | ListenerEvent accepted => let '(poll, s, _) := accept_connection poll s accepted in Ret (poll, h, s, None)
  | SignalEvent =>
      let '(poll, s, r) := handle_server_signal poll s in
      Ret (poll, h, s, match r with Err e => Some (Err e) | Ok true => Some (Ok tt) | Ok false => None end)
  | ConnectionEvent token readiness => connection_event poll h s token readiness ≫= λ '(poll, h, s, _), Ret (poll, h, s, None)
  end.

(** The start of [run], with what binding the socket and registering gives. *)
Definition start (poll : Poll) s : Poll * Server' * result unit WebSocketError :=
  let s := MkServer (current_id s) (connections s) (is_running s) (Some []) in
  match poll_register poll NEW_CONNECTIONS_LISTENER (MkReady true false) with
  | (poll, Err e) => (poll, s, Err (WsIoError e))
  | (poll, Ok _) =>
      match poll_register poll SERVER_SIGNAL_TOKEN (MkReady true false) with
      | (poll, Err e) => (poll, s, Err (WsIoError e))
      | (poll, Ok _) => (poll, MkServer (current_id s) (connections s) true (signal_sender s), Ok tt)
      end
  end.

(** The loop over what the poll reports, between the messages that other threads
    send; it ends with [run], or goes on. *)
Inductive ServerStep :=
| Polled (event : PollEvent Stream)
| Sent (signal : ServerSignal).

Fixpoint run_steps (poll : Poll) (h : Hd) s (steps : list ServerStep) :
    outcome (Poll * Hd * Server' * option (result unit WebSocketError)) :=
  match steps with
  | [] => Ret (poll, h, s, None)
  | Sent signal :: steps => run_steps poll h (send_server_signal s signal) steps
  | Polled event :: steps =>
      handle_event poll h s event ≫= λ '(poll, h, s, r),
      match r with
      | Some r => Ret (poll, h, s, Some r)
      | None => run_steps poll h s steps
      end
  end.
End server.
Arguments ServerStep : clear implicits.
End Srv.

(** ** Whose messages a connection gets *)

(** The text messages that a web-socket took for writing. *)
Class WebSocketsLaws (Stream Mid Ws : Type) `{WebSockets Stream Mid Ws} := {
  written : Ws → list string;
  written_accept : ∀ s ws, ws_accept s = Accepted ws → written ws = [];
  written_handshake : ∀ m ws, ws_handshake m = Accepted ws → written ws = [];
  written_stream : ∀ ws s, written (set_ws_stream ws s) = written ws;
  written_read : ∀ ws, written (ws_read_message ws).1 = written ws;
  written_write : ∀ ws m, written (ws_write_message ws m).1 = written ws ++ (if is_ok (ws_write_message ws m).2 then [m] else []);
  written_close : ∀ ws, written (ws_close ws).1 = written ws;
  written_pending : ∀ ws, written (ws_write_pending ws).1 = written ws;
}.

Module SrvInv.
Import Conn Srv.

Section policy.
Context {Stream Mid Ws Hd Poll : Type} `{WebSocketsLaws Stream Mid Ws} `{WebSocketMessageHandler Hd} `{MioPoll Poll}.
Implicit Types (c : Connection Stream Mid Ws) (s : Server Stream Mid Ws) (h : Hd).

(** What may be sent to a client. *)
Context (allowed : Token → string → Prop).

Definition signal_allowed (x : ServerSignal) : Prop := match x with SendResponse m t => allowed t m | ShutDown => True end.

(** The handler keeps to it, with its replies and with the responses it sends. *)
Hypothesis handler_keeps : ∀ h t m h' signals r, handle_ws_message h t m = Ret (h', signals, r) →
  Forall signal_allowed signals ∧ ∀ reply, r = Ok (Some reply) → allowed t reply.

Definition conn_written c : list string := match stream_state c with EstablishedWebsocket ws => written ws | _ => [] end.

Definition grows c c' : Prop :=
  connection_token c' = connection_token c ∧
  ∃ ms, conn_written c' = conn_written c ++ ms ∧ Forall (allowed (connection_token c)) ms.

Lemma conn_grows_same c c' : connection_token c' = connection_token c → conn_written c' = conn_written c → grows c c'.
Proof. intros Ht Hw. split; [done|]. exists []. by rewrite app_nil_r. Qed.

Lemma conn_grows_trans c1 c2 c3 : grows c1 c2 → grows c2 c3 → grows c1 c3.
Proof.
  intros [Ht (ms & Hw & Hm)] [Ht' (ms' & Hw' & Hm')]. split; [congruence|]. exists (ms ++ ms'). rewrite Hw', Hw, app_assoc.
  split; [done|]. apply Forall_app. by rewrite Ht in Hm'.
Qed.

Lemma written_internal (c : Connection Stream Mid Ws) x : conn_written (set_state c (set_internal_stream (stream_state c) x)) = conn_written c.
Proof. unfold conn_written. cbn. destruct (stream_state c); [done..|]. apply written_stream. Qed.

Lemma tls_read_grows c : grows c (do_tls_read c).1.
Proof.
  unfold do_tls_read. destruct (internal_stream (stream_state c)) as [x|]; [|by apply conn_grows_same].
  destruct (read_tls x) as [x1 [n|[]]]; try (apply conn_grows_same; [done|]; cbn [fst]; apply written_internal).
  case_decide; [apply conn_grows_same; [done|]; cbn [fst]; apply written_internal|].
  destruct (process_new_packets x1) as [x2 p].
  assert (grows c (set_state (set_state c (set_internal_stream (stream_state c) x1))
    (set_internal_stream (stream_state (set_state c (set_internal_stream (stream_state c) x1))) x2))) as Hg.
  { apply conn_grows_same; [done|]. by rewrite !written_internal. }
  by destruct p.
Qed.

Lemma tls_write_grows c : grows c (do_tls_write c).1.
Proof.
  unfold do_tls_write. destruct (internal_stream (stream_state c)) as [x|]; [|by apply conn_grows_same].
  destruct (write_tls x) as [x1 r]. assert (grows c (set_state c (set_internal_stream (stream_state c) x1))) as Hg.
  { apply conn_grows_same; [done|]. apply written_internal. }
  by destruct r.
Qed.

Lemma write_grows c m : allowed (connection_token c) m → grows c (write_message c m).1.
Proof.
  intros Hm. unfold write_message. destruct (stream_state c) as [| | |ws] eqn:Hs; try (by apply conn_grows_same).
  destruct (ws_can_write ws); cbn [negb]; [|by apply conn_grows_same].
  pose proof (written_write ws m) as Hw. destruct (ws_write_message ws m) as [ws' r]. cbn [fst snd] in *.
  split; [done|]. unfold conn_written. rewrite Hs. cbn. rewrite Hw. eexists. split; [done|].
  destruct (is_ok r); [by apply Forall_singleton|constructor].
Qed.

Lemma close_grows c : grows c (close_web_socket c).
Proof.
  unfold close_web_socket. destruct (stream_state c) as [| | |ws] eqn:Hs; try (by apply conn_grows_same).
  apply conn_grows_same; [done|]. unfold conn_written. rewrite Hs. cbn. by rewrite written_pending, written_close.
Qed.

Lemma handle_grows h c m h' signals c' r :
  Conn.handle_message h c m = Ret (h', signals, c', r) → grows c c' ∧ Forall signal_allowed signals.
Proof.
  unfold Conn.handle_message. destruct m as [x|x| |].
  2, 4: intros [= <- <- <- <-]; split; [by apply conn_grows_same|constructor].
  2: intros [= <- <- <- <-]; split; [apply close_grows|constructor].
  destruct (handle_ws_message h (connection_token c) x) as [[[h1 sig] r1]| |] eqn:Hh; [|done..].
  destruct (handler_keeps _ _ _ _ _ _ Hh) as [Hsig Hrep]. cbn [mbind outcome_bind].
  destruct r1 as [[reply|]|e]; [|intros [= <- <- <- <-]; split; [by apply conn_grows_same|done]..].
  pose proof (write_grows c reply (Hrep reply eq_refl)) as Hw. destruct (write_message c reply) as [c1 r1]. intros [= <- <- <- <-]. done.
Qed.

Lemma handshake_grows c : (∀ ws, stream_state c ≠ EstablishedWebsocket ws) → grows c (set_state c (attempt_handshake (stream_state c))).
Proof.
  intros Hne. apply conn_grows_same; [done|]. unfold conn_written. cbn.
  destruct (stream_state c) as [|x|m|ws]; [done| | |by edestruct Hne]; cbn; [destruct (ws_accept x) eqn:Ha|destruct (ws_handshake m) eqn:Ha];
    cbn; [by eapply written_accept|done|done|by eapply written_handshake|done|done].
Qed.

Lemma read_grows h c h' signals c' r :
  read_or_initialize_websocket h c = Ret (h', signals, c', r) → grows c c' ∧ Forall signal_allowed signals.
Proof.
  unfold read_or_initialize_websocket. destruct (stream_state c) as [|x|m|ws] eqn:Hs.
  1-3: rewrite <-Hs; intros [= <- <- <- <-]; split; [apply handshake_grows; by rewrite Hs|constructor].
  pose proof (written_read ws) as Hw. destruct (ws_read_message ws) as [ws1 rm]. cbn [fst] in Hw.
  assert (grows c (set_state c (EstablishedWebsocket ws1))) as Hg.
  { apply conn_grows_same; [done|]. unfold conn_written. by rewrite Hs. }
  destruct rm as [m|[]]; try (intros [= <- <- <- <-]; split; [done|constructor]).
  destruct (Conn.handle_message h _ m) as [[[[h1 sig] c1] r1]| |] eqn:Hh; [|done..]. intros [= <- <- <- <-].
  destruct (handle_grows _ _ _ _ _ _ _ Hh) as [Hg1 Hsig]. split; [by eapply conn_grows_trans|done].
Qed.

Lemma on_readable_grows h c h' signals c' r :
  on_readable h c = Ret (h', signals, c', r) → grows c c' ∧ Forall signal_allowed signals.
Proof.
  unfold on_readable. pose proof (tls_read_grows c) as Hg. destruct (do_tls_read c) as [c1 state]. cbn [fst] in Hg.
  case_decide; [|intros [= <- <- <- <-]; split; [done|constructor]]. intros Hr.
  destruct (read_grows _ _ _ _ _ _ Hr) as [Hg1 Hs]. split; [by eapply conn_grows_trans|done].
Qed.

Lemma on_writable_grows c b : grows c (on_writable c b).1.
Proof.
  unfold on_writable. pose proof (tls_write_grows c) as Hg. destruct (do_tls_write c) as [c1 state]. cbn [fst] in Hg.
  case_decide; [|done]. destruct (stream_state c1) as [| | |ws] eqn:Hs; try done.
  pose proof (written_pending ws) as Hw. destruct (ws_write_pending ws) as [ws1 r]. cbn [fst] in *.
  eapply conn_grows_trans; [exact Hg|]. apply conn_grows_same; [done|]. unfold conn_written. by rewrite Hs.
Qed.

Lemma on_ready_grows poll h c readiness poll' h' signals c' r :
  on_ready poll h c readiness = Ret (poll', h', signals, c', r) → grows c c' ∧ Forall signal_allowed signals.
Proof.
  unfold on_ready.
  assert (∀ h1 sig c1 r1, (if is_readable readiness then on_readable h c else Ret (h, [], c, Ok false)) = Ret (h1, sig, c1, r1) →
    grows c c1 ∧ Forall signal_allowed sig) as Hread.
  { intros h1 sig c1 r1. destruct (is_readable readiness); [apply on_readable_grows|]. intros [= <- <- <- <-]. split; [by apply conn_grows_same|constructor]. }
  destruct (if is_readable readiness then _ else _) as [[[[h1 sig] c1] r1]| |]; [|done..].
  destruct (Hread _ _ _ _ eq_refl) as [Hg1 Hsig]. cbn [mbind outcome_bind]. destruct r1 as [b|e]; [|intros [= <- <- <- <- <-]; done].
  assert (grows c1 (if is_writable readiness then on_writable c1 b else (c1, b)).1) as Hg2
    by (destruct (is_writable readiness); [apply on_writable_grows|by apply conn_grows_same]).
  destruct (if is_writable readiness then _ else _) as [c2 [|]]; cbn [fst] in Hg2.
  - intros [= <- <- <- <- <-]. split; [|done]. eapply conn_grows_trans; [exact Hg1|]. eapply conn_grows_trans; [exact Hg2|]. by apply conn_grows_same.
  - destruct (reregister poll c2) as [poll2 r2]. intros [= <- <- <- <- <-]. split; [by eapply conn_grows_trans|done].
Qed.

(** *** The server *)

(** Every connection is kept under its own token, and the tokens given out are above
    the reserved ones. *)
Definition server_inv s : Prop :=
  (MIN_ID ≤ current_id s ≤ u64_max)%Z ∧
  map_Forall (λ t c, connection_token c = t ∧ (MIN_ID < t ≤ current_id s)%Z) (connections s) ∧
  Forall signal_allowed (default [] (signal_sender s)).

Definition written_to s (t : Token) : list string := from_option conn_written [] (connections s !! t).

(** What was written on a connection stays, and what is added is allowed to its client;
    a token is given to one client only. *)
Definition serves s s' : Prop :=
  (current_id s ≤ current_id s')%Z ∧
  ∀ t c', connections s' !! t = Some c' →
    (is_Some (connections s !! t) ∨ (current_id s < t)%Z) ∧
    ∃ ms, conn_written c' = written_to s t ++ ms ∧ Forall (allowed t) ms.

Lemma serves_refl s : serves s s.
Proof.
  split; [done|]. intros t c Hc. split; [by left|]. exists []. unfold written_to. rewrite Hc. cbn. by rewrite app_nil_r.
Qed.

Lemma serves_trans s1 s2 s3 : server_inv s1 → serves s1 s2 → serves s2 s3 → serves s1 s3.
Proof.
  intros (_ & Hin & _) [Hle H12] [Hle' H23]. split; [lia|]. intros t c3 Hc3. destruct (H23 t c3 Hc3) as [Hold (ms & Hw & Hm)].
  unfold written_to in Hw. destruct (connections s2 !! t) as [c2|] eqn:Hc2; cbn in Hw.
  - destruct (H12 t c2 Hc2) as [Hold' (ms' & Hw' & Hm')]. split; [done|]. exists (ms' ++ ms). rewrite Hw, Hw', app_assoc.
    split; [done|]. by apply Forall_app.
  - destruct Hold as [[? [=]]|Hlt]. split; [right; lia|]. exists ms. unfold written_to.
    destruct (connections s1 !! t) as [c1|] eqn:Hc1; [|done]. destruct (Hin t c1 Hc1) as [_ ?]. lia.
Qed.

Lemma update_serves s t c c' q :
  server_inv s → connections s !! t = Some c → grows c c' → Forall signal_allowed (default [] q) →
  let s' := MkServer (current_id s) (<[t := c']> (connections s)) (is_running s) q in server_inv s' ∧ serves s s'.
Proof.
  intros (Hid & Hin & Hq) Hc [Ht (ms & Hw & Hm)] Hq'. destruct (Hin t c Hc) as [Htok Hrange]. cbn. split.
  - split; [done|]. split; [|done]. cbn. apply map_Forall_insert_2; [by rewrite Ht|done].
  - split; [cbn; lia|]. cbn. intros t1 c1 Hc1. destruct (decide (t1 = t)) as [->|Hne].
    + rewrite lookup_insert_eq in Hc1. injection Hc1 as <-. split; [left; by rewrite Hc|]. exists ms. unfold written_to. rewrite Hc.
      cbn. rewrite Htok in Hm. done.
    + rewrite lookup_insert_ne in Hc1 by done. by apply serves_refl.
Qed.

Lemma shrink_serves s m q :
  server_inv s → m ⊆ connections s → Forall signal_allowed (default [] q) →
  let s' := MkServer (current_id s) m (is_running s) q in server_inv s' ∧ serves s s'.
Proof.
  intros (Hid & Hin & Hq) Hm Hq'. cbn. split; [split; [done|]; split; [intros t c Hc; apply Hin; by eapply lookup_weaken|done]|].
  split; [cbn; lia|]. cbn. intros t c Hc. apply serves_refl. by eapply lookup_weaken.
Qed.

Lemma signals_serve s signals :
  server_inv s → Forall signal_allowed signals →
  server_inv (foldl send_server_signal s signals) ∧ serves s (foldl send_server_signal s signals) ∧
  connections (foldl send_server_signal s signals) = connections s.
Proof.
  intros Hs Hq. revert s Hs. induction Hq as [|x q Hx Hq IH]; intros s Hs; cbn; [split; [done|]; split; [apply serves_refl|done]|].
  assert (server_inv (send_server_signal s x) ∧ serves s (send_server_signal s x)) as [Hs1 Hserve].
  { apply shrink_serves; [done|done|]. destruct Hs as (_ & _ & Hs). destruct (signal_sender s); cbn in *; [|done].
    apply Forall_app. split; [done|by apply Forall_singleton]. }
  destruct (IH _ Hs1) as (Hs2 & Hserve' & Hc). split; [done|]. split; [exact (serves_trans _ _ _ Hs Hserve Hserve')|by rewrite Hc].
Qed.

Lemma accept_serves poll s accepted poll' s' r :
  server_inv s → (current_id s < u64_max)%Z → accept_connection poll s accepted = (poll', s', r) →
  server_inv s' ∧ serves s s' ∧ (current_id s' ≤ current_id s + 1)%Z.
Proof.
  intros Hs Hroom. pose proof Hs as (Hid & Hin & Hq). unfold accept_connection.
  destruct accepted as [socket|e]; [|intros [= <- <- <-]; split; [done|]; split; [apply serves_refl|lia]].
  unfold next_id. rewrite (proj2 (Z.ltb_lt _ _) Hroom).
  assert (connections s !! (current_id s + 1)%Z = None) as Hnew.
  { destruct (connections s !! (current_id s + 1)%Z) as [c|] eqn:Hc; [|done]. destruct (Hin _ _ Hc) as [_ ?]. lia. }
  assert (map_Forall (λ t c, connection_token c = t ∧ (MIN_ID < t ≤ current_id s + 1)%Z) (connections s)) as Hin1.
  { eapply map_Forall_impl; [exact Hin|]. cbn. intros t c [? ?]. split; [done|lia]. }
  destruct (register poll _) as [poll1 [u|e]]; intros [= <- <- <-]; (split; [|split; [split; cbn; [lia|]|cbn; lia]]).
  - split; [cbn; lia|]. split; [|done]. cbn. apply map_Forall_insert_2; [|done]. cbn. split; [done|]. lia.
  - intros t c. destruct (decide (t = current_id s + 1)%Z) as [->|Hne].
    + rewrite lookup_insert_eq. intros [= <-]. split; [right; lia|]. exists []. unfold written_to. by rewrite Hnew.
    + rewrite lookup_insert_ne by done. apply serves_refl.
  - split; [cbn; lia|]. done.
  - apply serves_refl.
Qed.

Lemma connection_event_serves poll h s t readiness poll' h' s' r :
  server_inv s → connection_event poll h s t readiness = Ret (poll', h', s', r) →
  server_inv s' ∧ serves s s' ∧ current_id s' = current_id s.
Proof.
  intros Hs. unfold connection_event. destruct (connections s !! t) as [c|] eqn:Hc.
  2: { intros [= <- <- <- <-]. split; [done|]. split; [apply serves_refl|done]. }
  destruct (on_ready poll h c readiness) as [[[[[poll1 h1] sig] c1] r1]| |] eqn:Hr; [|done..].
  destruct (on_ready_grows _ _ _ _ _ _ _ _ _ Hr) as [Hg Hsig]. cbn [mbind outcome_bind].
  destruct (update_serves s t c c1 (signal_sender s) Hs Hc Hg (proj2 (proj2 Hs))) as [Hs1 Hserve1].
  destruct (signals_serve _ sig Hs1 Hsig) as (Hs2 & Hserve2 & _).
  assert (∀ q s0, current_id (foldl send_server_signal s0 q) = current_id s0) as Hids.
  { intros q. induction q as [|x q IH]; intros s0; cbn; [done|]. by rewrite IH. }
  pose proof (serves_trans _ _ _ Hs Hserve1 Hserve2) as Hserve. specialize (Hids sig (MkServer (current_id s) (<[t:=c1]> (connections s)) (is_running s) (signal_sender s))).
  unfold set_connections at 1 3. destruct r1 as [u|e]; intros [= <- <- <- <-]; [destruct (is_closed c1)|]; try (split; [done|]; split; done).
  destruct (shrink_serves _ (delete t (connections (foldl send_server_signal (MkServer (current_id s) (<[t:=c1]> (connections s)) (is_running s) (signal_sender s)) sig))) _ Hs2 (delete_subseteq _ _) (proj2 (proj2 Hs2))) as [Hs3 Hserve3].
  split; [exact Hs3|]. split; [|done]. exact (serves_trans _ _ _ Hs Hserve Hserve3).
Qed.

Lemma signal_serves poll s poll' s' r :
  server_inv s → handle_server_signal poll s = (poll', s', r) → server_inv s' ∧ serves s s' ∧ current_id s' = current_id s.
Proof.
  intros Hs. unfold handle_server_signal. pose proof (proj2 (proj2 Hs)) as Hq.
  destruct (signal_sender s) as [[|x q]|] eqn:Hsend; [intros [= <- <- <-]; split; [done|]; split; [apply serves_refl|done]| |
    intros [= <- <- <-]; split; [done|]; split; [apply serves_refl|done]].
  cbn in Hq. apply Forall_cons in Hq as [Hx Hq].
  destruct (shrink_serves s (connections s) (Some q) Hs (reflexivity _) Hq) as [Hs1 Hserve1].
  destruct x as [|m t]; [destruct (poll_reregister poll _ _); intros [= <- <- <-]; done|].
  unfold write_message_to_connection. cbn [connections]. destruct (connections s !! t) as [c|] eqn:Hc;
    [|destruct (poll_reregister poll _ _); intros [= <- <- <-]; done].
  assert (grows c (write_message c m).1) as Hg.
  { apply write_grows. destruct Hs as (_ & Hin & _). destruct (Hin t c Hc) as [-> _]. done. }
  destruct (update_serves s t c _ (Some q) Hs Hc Hg Hq) as [Hs2 Hserve2].
  destruct (write_message c m) as [c1 r1]. destruct (poll_reregister poll _ _). intros [= <- <- <-]. done.
Qed.

Definition accepts (x : ServerStep Stream) : bool := match x with Polled (ListenerEvent _) => true | _ => false end.
Fixpoint accept_count (steps : list (ServerStep Stream)) : Z :=
  match steps with [] => 0 | x :: steps => (if accepts x then 1 else 0) + accept_count steps end.
Definition step_allowed (x : ServerStep Stream) : Prop := match x with Sent signal => signal_allowed signal | Polled _ => True end.

Lemma event_serves poll h s event poll' h' s' r :
  server_inv s → (current_id s + (if accepts (Polled event) then 1 else 0) ≤ u64_max)%Z →
  handle_event poll h s event = Ret (poll', h', s', r) →
  server_inv s' ∧ serves s s' ∧ (current_id s' ≤ current_id s + (if accepts (Polled event) then 1 else 0))%Z.
Proof.
  intros Hs Hroom. destruct event as [accepted| |t readiness]; cbn [accepts handle_event] in *.
  - destruct (accept_connection poll s accepted) as [[poll1 s1] r1] eqn:Ha. intros [= <- <- <- <-].
    apply (accept_serves _ _ _ _ _ _ Hs) in Ha; [|lia]. done.
  - destruct (handle_server_signal poll s) as [[poll1 s1] r1] eqn:Ha. intros [= <- <- <- <-].
    destruct (signal_serves _ _ _ _ _ Hs Ha) as (? & ? & ->). split; [done|]. split; [done|lia].
  - destruct (connection_event poll h s t readiness) as [[[[poll1 h1] s1] r1]| |] eqn:Ha; [|done..]. intros [= <- <- <- <-].
    destruct (connection_event_serves _ _ _ _ _ _ _ _ _ Hs Ha) as (? & ? & ->). split; [done|]. split; [done|lia].
Qed.

Lemma steps_serve poll h s steps poll' h' s' r :
  server_inv s → Forall step_allowed steps → (current_id s + accept_count steps ≤ u64_max)%Z →
  run_steps poll h s steps = Ret (poll', h', s', r) → server_inv s' ∧ serves s s'.
Proof.
  intros Hs Hsteps. revert poll h s Hs. induction Hsteps as [|x steps Hx Hsteps IH]; intros poll h s Hs Hroom; cbn [run_steps].
  - intros [= <- <- <- <-]. split; [done|apply serves_refl].
  - cbn [accept_count] in Hroom. assert (∀ l, 0 ≤ accept_count l)%Z as Hpos
      by (intros l; induction l as [|y l IHl]; cbn; [done|destruct (accepts y); lia]).
    specialize (Hpos steps). destruct x as [event|signal].
    + destruct (handle_event poll h s event) as [[[[poll1 h1] s1] r1]| |] eqn:Ha; [|done..]. cbn [mbind outcome_bind].
      apply event_serves in Ha as (Hs1 & Hserve & Hid); [|done|lia].
      destruct r1 as [r1|]; [intros [= <- <- <- <-]; done|]. intros Hrun.
      apply IH in Hrun as [Hs2 Hserve']; [|done|lia].
      split; [done|]. exact (serves_trans _ _ _ Hs Hserve Hserve').
    + intros Hrun. destruct (signals_serve s [signal] Hs) as (Hs1 & Hserve & _); [by apply Forall_singleton|].
      apply IH in Hrun as [Hs2 Hserve']; [|done|done]. split; [done|]. exact (serves_trans _ _ _ Hs Hserve Hserve').
Qed.
(** *** Where the loop can break off *)

(** A message that the client of a connection has sent is read when the connection is ready. *)
Definition reads c (readiness : Ready) (m : string) : Prop :=
  is_readable readiness = true ∧ (do_tls_read c).2 = Alive ∧
  ∃ ws, stream_state (do_tls_read c).1 = EstablishedWebsocket ws ∧ (ws_read_message ws).2 = Ok (TextMessage m).

(** The handler fails on the message that it is given there. *)
Definition handler_stops h s (t : Token) (readiness : Ready) : Prop :=
  ∃ c m, connections s !! t = Some c ∧ reads c readiness m ∧ ∀ res, handle_ws_message h t m ≠ Ret res.

Lemma on_readable_returns h c readiness :
  is_readable readiness = true →
  (∃ res, on_readable h c = Ret res) ∨ ∃ m, reads c readiness m ∧ ∀ res, handle_ws_message h (connection_token c) m ≠ Ret res.
Proof.
  intros Hready. unfold on_readable, reads. pose proof (tls_read_grows c) as [Htok _]. destruct (do_tls_read c) as [c1 state]. cbn [fst snd] in *.
  case_decide as Hstate; [|left; by eexists].
  unfold read_or_initialize_websocket. destruct (stream_state c1) as [| | |ws]; [left; by eexists..|].
  destruct (ws_read_message ws) as [ws1 [m|[]]] eqn:Hm; try (left; by eexists).
  unfold Conn.handle_message. destruct m as [x|x| |]; try (left; by eexists).
  cbn [connection_token set_state]. rewrite Htok.
  destruct (handle_ws_message h (connection_token c) x) as [[[h1 sig] [[reply|]|e]]| |] eqn:Hh;
    cbn [mbind outcome_bind]; try (left; by eexists);
    try (right; exists x; split; [split; [done|]; split; [done|]; exists ws; by rewrite Hm|by rewrite Hh]).
  destruct (write_message _ reply). left. by eexists.
Qed.

Lemma on_ready_returns poll h c readiness :
  (∃ res, on_ready poll h c readiness = Ret res) ∨ ∃ m, reads c readiness m ∧ ∀ res, handle_ws_message h (connection_token c) m ≠ Ret res.
Proof.
  unfold on_ready.
  assert ((∃ res, (if is_readable readiness then on_readable h c else Ret (h, [], c, Ok false)) = Ret res) ∨
    ∃ m, reads c readiness m ∧ ∀ res, handle_ws_message h (connection_token c) m ≠ Ret res)
    as [[[[[h1 sig] c1] [b|e]] ->]|?];
    [destruct (is_readable readiness) eqn:Hr; [by apply on_readable_returns|left; by eexists]| | |by right];
    cbn [mbind outcome_bind]; left; [|by eexists].
  destruct (if is_writable readiness then _ else _) as [c2 [|]]; [by eexists|]. destruct (reregister poll c2). by eexists.
Qed.

Lemma event_returns poll h s event :
  server_inv s →
  (∃ res, handle_event poll h s event = Ret res) ∨ ∃ t readiness, event = ConnectionEvent t readiness ∧ handler_stops h s t readiness.
Proof.
  intros (_ & Hin & _). destruct event as [accepted| |t readiness]; cbn [handle_event].
  - left. destruct (accept_connection poll s accepted) as [[??]?]. by eexists.
  - left. destruct (handle_server_signal poll s) as [[??]?]. by eexists.
  - unfold connection_event. destruct (connections s !! t) as [c|] eqn:Hc; [|left; by eexists]. destruct (Hin t c Hc) as [Htok _].
    destruct (on_ready_returns poll h c readiness) as [[[[[[??]?]?] [?|?]] ->]|(m & Hm & Hf)]; [left; by eexists..|].
    right. exists t, readiness. split; [done|]. exists c, m. by rewrite Htok in Hf.
Qed.

Lemma accept_count_pos steps : (0 ≤ accept_count steps)%Z.
Proof. induction steps as [|x steps IH]; cbn; [done|destruct (accepts x); lia]. Qed.

Lemma accept_count_app l1 l2 : accept_count (l1 ++ l2) = (accept_count l1 + accept_count l2)%Z.
Proof. induction l1 as [|x l1 IH]; cbn; [done|]. rewrite IH. lia. Qed.

(** The loop runs over all steps, or up to a message on which the handler fails. *)
Lemma steps_reach poll h s steps :
  server_inv s → Forall step_allowed steps → (current_id s + accept_count steps ≤ u64_max)%Z →
  ∃ done rest poll' h' s' r, steps = done ++ rest ∧ run_steps poll h s done = Ret (poll', h', s', r) ∧
    (run_steps poll h s steps = Ret (poll', h', s', r) ∨
     r = None ∧ ∃ t readiness later, rest = Polled (ConnectionEvent t readiness) :: later ∧ handler_stops h' s' t readiness).
Proof.
  intros Hs Hsteps. revert poll h s Hs. induction Hsteps as [|x steps Hx Hsteps IH]; intros poll h s Hs Hroom.
  { exists [], [], poll, h, s, None. by split_and!; [| |left]. }
  cbn [accept_count] in Hroom. pose proof (accept_count_pos steps) as Hpos. destruct x as [event|signal].
  - destruct (event_returns poll h s event Hs) as [[[[[poll1 h1] s1] r1] He]|(t & readiness & -> & Hf)].
    2: { exists [], (Polled (ConnectionEvent t readiness) :: steps), poll, h, s, None.
         split; [done|]. split; [done|]. right. split; [done|]. by exists t, readiness, steps. }
    destruct r1 as [r1|].
    { exists [Polled event], steps, poll1, h1, s1, (Some r1). cbn [run_steps]. rewrite He. by split_and!; [| |left]. }
    destruct (event_serves poll h s event poll1 h1 s1 None Hs ltac:(lia) He) as (Hs1 & _ & Hid).
    destruct (IH poll1 h1 s1 Hs1 ltac:(lia)) as (done_ & rest & poll2 & h2 & s2 & r2 & -> & Hrun & Hrest).
    exists (Polled event :: done_), rest, poll2, h2, s2, r2. split; [done|]. cbn [run_steps]. by rewrite He.
  - destruct (signals_serve s [signal] Hs) as (Hs1 & _ & _); [by apply Forall_singleton|].
    destruct (IH poll h (send_server_signal s signal) Hs1 Hroom) as (done_ & rest & poll2 & h2 & s2 & r2 & -> & Hrun & Hrest).
    by exists (Sent signal :: done_), rest, poll2, h2, s2, r2.
Qed.

End policy.
End SrvInv.

(** ** Witness *)

(** A client that sends one message to a handler that answers and sends a greeting,
    while a response to another client waits. *)
Module WsSample.
Import Srv SrvInv.

#[export] Instance sample_sockets : WebSockets unit unit (list string * list string) := {|
  read_tls s := (s, Ok 1%Z);
  process_new_packets s := (s, Ok tt);
  write_tls s := (s, Ok 1%Z);
  is_handshaking _ := false;
  wants_read _ := true;
  wants_write _ := false;
  ws_accept _ := Accepted (["ping"%string], []);
  ws_handshake _ := Accepted (["ping"%string], []);
  mid_stream m := m;
  set_mid_stream _ s := s;
  ws_stream _ := tt;
  set_ws_stream ws _ := ws;
  ws_read_message ws := match ws with
                        | (m :: ms, w) => ((ms, w), Ok (TextMessage m))
                        | ([], w) => (([], w), Err (TgOther "would block"))
                        end;
  ws_can_write _ := true;
  ws_write_message ws m := ((ws.1, ws.2 ++ [m]), Ok tt);
  ws_close ws := (ws, Ok tt);
  ws_write_pending ws := (ws, Ok tt);
|}.

#[export] Program Instance sample_socket_laws : WebSocketsLaws unit unit (list string * list string) := {| written := snd |}.
Next Obligation. intros s ws [= <-]. done. Qed.
Next Obligation. intros s ws [= <-]. done. Qed.
Next Obligation. done. Qed.
Next Obligation. intros [[|m ms] w]; done. Qed.
Next Obligation. done. Qed.
Next Obligation. done. Qed.
Next Obligation. done. Qed.

#[export] Instance sample_poll : MioPoll unit := {| poll_register p _ _ := (p, Ok tt); poll_reregister p _ _ := (p, Ok tt) |}.

#[export] Instance pong : WebSocketMessageHandler unit := λ h t m, Ret (h, [SendResponse "hello"%string t], Ok (Some "pong"%string)).

Definition served (t : Token) (m : string) : Prop := (m = "pong" ∨ m = "hello" ∨ m = "late" ∧ t = 12%Z)%string.

Definition dialogue : list (ServerStep unit) :=
  [Polled (ListenerEvent (Ok tt)); Polled (ConnectionEvent 11 (MkReady true false)); Polled (ConnectionEvent 11 (MkReady true false));
   Polled SignalEvent; Sent (SendResponse "late"%string 12)].

Definition started : Server unit unit (list string * list string) := (start tt new_server).1.2.
End WsSample.

Section witness.
Import Srv SrvInv WsSample.

End witness.
