(* ===== verification/DirectRpc.v ===== *)
(** The direct RPC of the enclave: return values and their hex form
    (src/core-primitives/{rpc,utils,types}/src), the registry of watched connections,
    the responder and the message handler (src/core/direct-rpc-server/src), and the
    methods that clients and peers call (src/sidechain/rpc-handler/src,
    src/enclave-runtime/src/rpc).

    JSON, the dispatch of requests (jsonrpc-core), hex, base58 and SCALE are
    external. *)

From Stdlib Require Import Ascii.
From stdpp Require Import base gmap numbers strings list.
From S2P Require Import Prelude Collections PoolTypes Listener ValidatedPool VPoolInv StfTypes Author FlatPool AuthorInv AuthorProps.
From S2P Require Import Externalities SidechainDb Dispatcher StateHandler StfExecutor SidechainBlocks ConsensusSample TrustedCalls IndirectCalls WsServer.

Import Author AuthorInv.
Open Scope worker_scope.
Local Open Scope nat_scope.

(** ** Return values (core-primitives/rpc, core-primitives/types) *)

Inductive DirectRequestStatus :=
| DrOk
| DrTrustedOperationStatus (status : TrustedOperationStatus)
| DrError.

Record RpcReturnValue := MkReturnValue {
  rv_value : Bytes;
  do_watch : bool;
  rv_status : DirectRequestStatus;
}.

Inductive RpcId := IdNumber (n : Z) | IdText (s : string).

Record RpcResponse := MkRpcResponse {
  jsonrpc : string;
  rpc_result : string;
  rpc_id : RpcId;
}.

Record RpcRequest := MkRpcRequest {
  rq_jsonrpc : string;
  rq_method : string;
  rq_params : list string;
  rq_id : RpcId;
}.

Inductive DirectRpcError :=
| InvalidConnectionHash
| RpcSerializationError (msg : string)
| RpcWebSocketError (e : WebSocketError)
| RpcEncodingError (msg : string)
| RpcOther (msg : string).

(** ** External libraries *)

(** The hex crate. *)
Class HexCrate := {
  hex_enc : Bytes → string;
  hex_dec : string → result Bytes string;
}.

Class HexLaws `{HexCrate} := {
  hex_dec_enc : ∀ b, hex_dec (hex_enc b) = Ok b;
}.

(** serde_json, for the types in use. *)
Class Serde := {
  response_to_string : RpcResponse → result string string;
  response_from_str : string → result RpcResponse string;
  request_to_string : RpcRequest → result string string;
}.

Class SerdeLaws `{Serde} := {
  response_serializes : ∀ r, is_ok (response_to_string r) = true;
  response_round_trip : ∀ r s, response_to_string r = Ok s → response_from_str s = Ok r;
}.

(** The [IoHandler] of jsonrpc-core, over the methods that were added to it; the
    values that the methods return are strings. *)
Abbreviation RpcMethod S Params := (S → Params → outcome (S * result string string)).

Class JsonRpc (Params : Type) := {
  parse_strings : Params → result (list string) string;
  parse_two_strings : Params → result (string * string) string;
  handle_request_sync : ∀ {S : Type}, (string → option (RpcMethod S Params)) → S → string → outcome (S * option string);
}.

(** A request is answered by its method, under its id. *)
Class JsonRpcLaws (Params : Type) `{JsonRpc Params} `{Serde} := {
  params_of : list string → Params;
  answer : RpcId → result string string → string;
  parse_params : ∀ ps, parse_strings (params_of ps) = Ok ps;
  answer_ok : ∀ id v, response_from_str (answer id (Ok v)) = Ok (MkRpcResponse "2.0" v id);
  answer_err : ∀ id e, is_ok (response_from_str (answer id (Err e))) = false;
  dispatched : ∀ S (methods : string → option (RpcMethod S Params)) s m ps id msg f,
    request_to_string (MkRpcRequest "2.0" m ps id) = Ok msg → methods m = Some f →
    handle_request_sync methods s msg = f s (params_of ps) ≫= λ '(s, r), Ret (s, Some (answer id r));
}.

(** ** Hex (core-primitives/utils/src/hex.rs) *)

Module Hex.
Section hex.
Context `{HexCrate}.

Definition hex_encode (data : Bytes) : string := "0x" +:+ hex_enc data.

Definition decode_hex (message : string) : result Bytes string :=
  match message with
  | String "0"%char (String "x"%char hex_value) => hex_dec hex_value
  | _ => hex_dec message
  end.

Definition to_hex {A} `{Encode A} (a : A) : string := hex_encode (encode a).

Definition from_hex {A} `{Decode A} (msg : string) : result A string :=
  match decode_hex msg with
  | Err e => Err e
  | Ok byte_array => decode byte_array
  end.

Lemma hex_round_trip `{!HexLaws} {A} `{Codec A} (a : A) : from_hex (to_hex a) = Ok a.
Proof.
  unfold from_hex, to_hex, hex_encode. change (decode_hex ("0x" +:+ hex_enc (encode a))) with (hex_dec (hex_enc (encode a))).
  rewrite hex_dec_enc. apply decode_encode.
Qed.
End hex.
End Hex.

(** ** The responder (rpc_responder.rs, rpc_connection_registry.rs, rpc_response_channel.rs) *)

(** [responses] are the signals sent to the web-socket server, which may not be
    there yet. *)
Record Rpc := MkRpc {
  connection_map : gmap TxHash (Token * RpcResponse);
  server_component : bool;
  responses : list ServerSignal;
}.

Module Responder.
Import Hex.

Section responder.
Context `{HexCrate} `{Serde} `{Encode RpcReturnValue} `{Decode RpcReturnValue}.
Implicit Types (r : Rpc) (hash : TxHash).

Definition from_error_message `{Encode string} (error_msg : string) : RpcReturnValue :=
  MkReturnValue (encode error_msg) false DrError.

(** The registry. *)
Definition store r hash (connection : Token) (rpc_response : RpcResponse) : Rpc :=
  MkRpc (<[hash := (connection, rpc_response)]> (connection_map r)) (server_component r) (responses r).

Definition withdraw r hash : Rpc * option (Token * RpcResponse) :=
  (MkRpc (delete hash (connection_map r)) (server_component r) (responses r), connection_map r !! hash).

(** The response channel. *)
Definition respond r (token : Token) (message : string) : Rpc * result unit DirectRpcError :=
  if server_component r then
    (MkRpc (connection_map r) (server_component r) (responses r ++ [SendResponse message token]), Ok tt)
  else (r, Err (RpcOther "component")).

Definition encode_and_send_response r (connection : Token) (rpc_response : RpcResponse) : Rpc * result unit DirectRpcError :=
  match response_to_string rpc_response with
  | Err e => (r, Err (RpcSerializationError e))
  | Ok string_response => respond r connection string_response
  end.

Definition continue_watching (status : TrustedOperationStatus) : bool :=
  match status with
  | StInvalid | StInSidechainBlock _ | StFinalized | StUsurped => false
  | _ => true
  end.

Definition update_status_event r hash (status_update : TrustedOperationStatus) : Rpc * result unit DirectRpcError :=
  match withdraw r hash with
  | (r, None) => (r, Err InvalidConnectionHash)
  | (r, Some (connection_token, rpc_response)) =>
      match from_hex (A := RpcReturnValue) (rpc_result rpc_response) with
      | Err e => (r, Err (RpcOther e))
      | Ok result =>
          let watch := continue_watching status_update in
          let result := MkReturnValue (rv_value result) watch (DrTrustedOperationStatus status_update) in
          let new_response := MkRpcResponse (jsonrpc rpc_response) (to_hex result) (rpc_id rpc_response) in
          match encode_and_send_response r connection_token new_response with
          | (r, Err e) => (r, Err e)
          | (r, Ok _) => (if watch then store r hash connection_token new_response else r, Ok tt)
          end
      end
  end.

Definition send_state r hash (state_encoded : Bytes) : Rpc * result unit DirectRpcError :=
  match withdraw r hash with
  | (r, None) => (r, Err InvalidConnectionHash)
  | (r, Some (connection_token, response)) =>
      let result := MkReturnValue state_encoded false (DrTrustedOperationStatus StSubmitted) in
      encode_and_send_response r connection_token (MkRpcResponse (jsonrpc response) (to_hex result) (rpc_id response))
  end.

(** [Watcher::send]: an error is only logged. *)
Definition watcher_send r (event : TxHash * TrustedOperationStatus) : Rpc := (update_status_event r event.1 event.2).1.

(** [RpcWatchExtractor] (rpc_watch_extractor.rs). *)
Definition must_be_watched `{Decode TxHash} (rpc_response : RpcResponse) : result (option TxHash) DirectRpcError :=
  match from_hex (A := RpcReturnValue) (rpc_result rpc_response) with
  | Err e => Err (RpcOther e)
  | Ok rpc_return_value =>
      if do_watch rpc_return_value then
        match rv_status rpc_return_value with
        | DrTrustedOperationStatus _ =>
            match decode (A := TxHash) (rv_value rpc_return_value) with
            | Ok hash => Ok (Some hash)
            | Err e => Err (RpcEncodingError e)
            end
        | _ => Ok None
        end
      else Ok None
  end.
End responder.
End Responder.

(** ** Methods *)

(** [GLOBAL_PRIMITIVES_CACHE] (core-primitives/primitives-cache). *)
Record Primitives := MkPrimitives { mu_ra_url : string; untrusted_worker_url : string }.

(** What the methods of the public API work on. *)
Record RpcNode (TOP Sink : Type) := MkRpcNode {
  node_author : AuthorState TOP Sink;
  node_observer : Observer.StateObserver Ext.SgxExternalities;
  node_primitives : Primitives;
  node_rpc : Rpc;
}.
Arguments MkRpcNode {TOP Sink} _ _ _ _.
Arguments node_author {TOP Sink} _.
Arguments node_observer {TOP Sink} _.
Arguments node_primitives {TOP Sink} _.
Arguments node_rpc {TOP Sink} _.

Module Api.
Import Hex Responder.

Section api.
Context `{Ord : IterOrder} `{!SlotCodec} {TCS G Key Sink : Type}.
Context `{!TrustedCallVerification TCS} `{!PoolTransactionValidation G}.
Context (env : Enclave Key (StfTrustedOperation TCS G)).
Context (top_filter : StfTrustedOperation TCS G → bool).
Context (try_send : Sink → TxHash → VPool.send_result * Sink).
Context {Params : Type} `{JsonRpc Params} `{HexCrate} `{Serde}.
Context `{Encode RpcReturnValue} `{Decode RpcReturnValue} `{Decode Request} `{Encode string} `{Encode N} `{Decode N}.
Abbreviation TOP := (StfTrustedOperation TCS G).
Abbreviation Node := (RpcNode TOP Sink).
Implicit Types (n : Node) (now : Z).

(** [format!("{:?}", e)] of an error of the author. *)
Context (debug_error : RpcError → string).
(** [from_base58] of the base58 crate. *)
Context (from_base58 : string → option Bytes).

Definition compute_hex_encoded_return_error (error_msg : string) : string := to_hex (from_error_message error_msg).

(** *** Operations (direct_top_pool_api.rs) *)

(** The watchers of the pool report to the responder while the author works. *)
Definition new_events (a a' : AuthorState TOP Sink) : list (TxHash * TrustedOperationStatus) :=
  drop (length (Listen.sent (VPool.listener (top_pool a)))) (Listen.sent (VPool.listener (top_pool a'))).

Definition with_author {A} n (run : AuthorState TOP Sink → outcome (AuthorState TOP Sink * A)) : outcome (Node * A) :=
  run (node_author n) ≫= λ '(a, x),
  Ret (MkRpcNode a (node_observer n) (node_primitives n) (foldl watcher_send (node_rpc n) (new_events (node_author n) a)), x).

Definition decode_shard_from_base58 (shard_base58 : string) : result ShardIdentifier string :=
  match from_base58 shard_base58 with
  | None => Err "Invalid base58 format of shard id"
  | Some shard_vec =>
      match decode (A := N) shard_vec with
      | Ok shard => Ok shard
      | Err _ => Err "Shard ID is not of type H256"
      end
  end.

Definition author_submit_extrinsic_inner now n (params : Params) : outcome (Node * result TxHash string) :=
  match parse_strings params with
  | Err e => Ret (n, Err e)
  | Ok hex_encoded_params =>
      unwrap (hex_encoded_params !! 0) ≫= λ p,
      match from_hex (A := Request) p with
      | Err e => Ret (n, Err e)
      | Ok request =>
          with_author n (λ a, watch_top env top_filter try_send now a (cyphertext request) (req_shard request)) ≫= λ '(n, response),
          Ret (n, match response with Ok h => Ok h | Err e => Err (debug_error e) end)
      end
  end.

Definition submitted (watch : bool) (hash : TxHash) : RpcReturnValue :=
  MkReturnValue (encode hash) watch (DrTrustedOperationStatus StSubmitted).

Definition author_submitAndWatchExtrinsic now n (params : Params) : outcome (Node * result string string) :=
  author_submit_extrinsic_inner now n params ≫= λ '(n, r),
  Ret (n, Ok match r with
             | Ok hash_value => to_hex (submitted true hash_value)
             | Err error => compute_hex_encoded_return_error error
             end).

Definition author_submitExtrinsic now n (params : Params) : outcome (Node * result string string) :=
  author_submit_extrinsic_inner now n params ≫= λ '(n, r),
  Ret (n, Ok match r with
             | Ok hash_value => to_hex (submitted false hash_value)
             | Err error => compute_hex_encoded_return_error error
             end).

(** The pending operations of every shard, up to the first that is not one. *)
Fixpoint retrieve_operations (a : AuthorState TOP Sink) (shards : list string) : outcome (result (list (list Bytes)) string) :=
  match shards with
  | [] => Ret (Ok [])
  | shard_base58 :: shards =>
      match decode_shard_from_base58 shard_base58 with
      | Err msg => Ret (Err msg)
      | Ok shard =>
          pending_tops env (S (length (queue_at a shard))) a shard ≫= λ ops,
          retrieve_operations a shards ≫= λ rest,
          Ret match rest with Ok rest => Ok (ops :: rest) | Err e => Err e end
      end
  end.

Definition author_pendingExtrinsics `{Encode (list (list Bytes))} n (params : Params) : outcome (Node * result string string) :=
  match parse_strings params with
  | Err e => Ret (n, Ok (compute_hex_encoded_return_error ("Could not retrieve pending calls due to: " +:+ e)))
  | Ok shards =>
      retrieve_operations (node_author n) shards ≫= λ r,
      Ret (n, Ok match r with
                 | Err msg => compute_hex_encoded_return_error ("Could not retrieve pending calls due to: " +:+ msg)
                 | Ok retrieved_operations => to_hex (MkReturnValue (encode retrieved_operations) false DrOk)
                 end)
  end.

Definition author_pendingTrustedCallsFor `{Encode (list TOP)} n (params : Params) : outcome (Node * result string string) :=
  let refused e := compute_hex_encoded_return_error ("Could not retrieve pending trusted calls due to: " +:+ e) in
  match parse_two_strings params with
  | Err e => Ret (n, Ok (refused e))
  | Ok (shard_base58, account_hex) =>
      match decode_shard_from_base58 shard_base58 with
      | Err msg => Ret (n, Ok (refused msg))
      | Ok shard =>
          match from_hex (A := N) account_hex with
          | Err msg => Ret (n, Ok (refused msg))
          | Ok account =>
              get_pending_trusted_calls_for (S (length (queue_at (node_author n) shard))) (node_author n) shard account ≫= λ trusted_calls,
              Ret (n, Ok (to_hex (MkReturnValue (encode trusted_calls) false DrOk)))
          end
      end
  end.

(** *** The enclave (worker_api_direct.rs) *)

Context {PH : Type} `{Pallets PH} `{Executor.StfGetter G} `{Decode G}.
Context `{Encode (list (list Bytes))} `{Encode (list TOP)} `{Encode (option Bytes)} `{Encode (AccountId * ParentchainId)}.
Context {PubKey : Type} (retrieve_pubkey : result PubKey string) (pubkey_to_string : PubKey → result string string).
(** Whether the enclave already has its signer, and the metadata of the runtime. *)
Context (stf_enclave_signer : bool) (runtime_metadata : Bytes) (debug_getter_error : ExecutorError → string).

Definition success (value : Bytes) : string := to_hex (MkReturnValue value false DrOk).

Definition author_getShieldingKey n (_ : Params) : outcome (Node * result string string) :=
  Ret (n, Ok match retrieve_pubkey with
             | Err status => compute_hex_encoded_return_error ("Could not get rsa pubkey due to: " +:+ status)
             | Ok rsa_pubkey =>
                 match pubkey_to_string rsa_pubkey with
                 | Err x => compute_hex_encoded_return_error ("[Enclave] can't serialize rsa_pubkey " +:+ x)
                 | Ok rsa_pubkey_json => success (encode rsa_pubkey_json)
                 end
             end).

Definition first_shard : ShardIdentifier := default 0%N (head (list_handled_shards env)).

(** The errors go through [to_hex] once more, as strings. *)
Definition author_getShardVault n (_ : Params) : outcome (Node * result string string) :=
  if stf_enclave_signer then
    let '(o, vault) := Observer.observe_state (node_observer n) first_shard (λ st, (Tc.shard_vault st, st)) in
    Ret (MkRpcNode (node_author n) o (node_primitives n) (node_rpc n),
      Ok match vault with
         | Ok (Some vault) => success (encode vault)
         | _ => to_hex (compute_hex_encoded_return_error "failed to get shard vault")
         end)
  else Ret (n, Ok (to_hex (compute_hex_encoded_return_error "failed to get stf_enclave_signer to get shard vault"))).

Definition author_getShard n (_ : Params) : outcome (Node * result string string) := Ret (n, Ok (success (encode first_shard))).

Definition author_getMuRaUrl n (_ : Params) : outcome (Node * result string string) :=
  Ret (n, Ok (success (encode (mu_ra_url (node_primitives n))))).

Definition author_getUntrustedUrl n (_ : Params) : outcome (Node * result string string) :=
  Ret (n, Ok (success (encode (untrusted_worker_url (node_primitives n))))).

Definition hello_world n (_ : Params) : outcome (Node * result string string) := Ret (n, Ok "hello, world"%string).

Definition state_getMetadata n (_ : Params) : outcome (Node * result string string) := Ret (n, Ok (success runtime_metadata)).

Definition execute_getter_inner n (params : Params) : outcome (Node * result (option Bytes) string) :=
  match parse_strings params with
  | Err e => Ret (n, Err e)
  | Ok hex_encoded_params =>
      unwrap (hex_encoded_params !! 0) ≫= λ p,
      match from_hex (A := Request) p with
      | Err e => Ret (n, Err e)
      | Ok request =>
          let '(o, getter_result) := Executor.execute_getter (node_observer n) (req_shard request) (cyphertext request) in
          Ret (MkRpcNode (node_author n) o (node_primitives n) (node_rpc n),
            match getter_result with Ok v => Ok v | Err e => Err (debug_getter_error e) end)
      end
  end.

Definition state_executeGetter n (params : Params) : outcome (Node * result string string) :=
  execute_getter_inner n params ≫= λ '(n, r),
  Ret (n, Ok match r with
             | Ok state_getter_value => success (encode state_getter_value)
             | Err error => compute_hex_encoded_return_error error
             end).

Definition top_pool_methods now : list (string * RpcMethod Node Params) :=
  [("author_submitAndWatchExtrinsic", author_submitAndWatchExtrinsic now);
   ("author_submitExtrinsic", author_submitExtrinsic now);
   ("author_pendingExtrinsics", author_pendingExtrinsics);
   ("author_pendingTrustedCallsFor", author_pendingTrustedCallsFor)]%string.

Definition public_api_methods now : list (string * RpcMethod Node Params) :=
  top_pool_methods now ++
  [("author_getShieldingKey", author_getShieldingKey);
   ("author_getShardVault", author_getShardVault);
   ("author_getShard", author_getShard);
   ("author_getMuRaUrl", author_getMuRaUrl);
   ("author_getUntrustedUrl", author_getUntrustedUrl);
   ("chain_subscribeAllHeads", hello_world);
   ("state_getMetadata", state_getMetadata);
   ("state_getRuntimeVersion", hello_world);
   ("state_executeGetter", state_executeGetter);
   ("system_health", hello_world);
   ("system_name", hello_world);
   ("system_version", hello_world)]%string.

(** [others] are the methods that forward attestations and list the methods. *)
Definition public_api_rpc_handler now (others : string → option (RpcMethod Node Params)) (name : string) : option (RpcMethod Node Params) :=
  match List.find (λ x, String.eqb x.1 name) (public_api_methods now) with
  | Some x => Some x.2
  | None => others name
  end.
End api.

Lemma public_api_submits `{Ord : IterOrder} `{!SlotCodec} {TCS G Key Sink Params PH PubKey : Type} `{!TrustedCallVerification TCS}
    `{!PoolTransactionValidation G} `{!JsonRpc Params} `{!HexCrate} `{!Serde} `{!Encode RpcReturnValue} `{!Decode RpcReturnValue}
    `{!Decode Request} `{!Encode string} `{!Encode N} `{!Decode N} `{!Pallets PH} `{!Executor.StfGetter G} `{!Decode G}
    `{!Encode (list (list Bytes))} `{!Encode (list (StfTrustedOperation TCS G))} `{!Encode (option Bytes)} `{!Encode (AccountId * ParentchainId)}
    (env : Enclave Key (StfTrustedOperation TCS G)) top_filter (try_send : Sink → TxHash → VPool.send_result * Sink) debug_error from_base58
    (retrieve_pubkey : result PubKey string) pubkey_to_string signer metadata debug_getter_error others now :
  public_api_rpc_handler (Params := Params) env top_filter try_send debug_error from_base58 retrieve_pubkey pubkey_to_string signer metadata
    debug_getter_error now others "author_submitAndWatchExtrinsic" =
  Some (author_submitAndWatchExtrinsic env top_filter try_send debug_error now).
Proof. reflexivity. Qed.

(** *** Messages of clients (rpc_ws_handler.rs) *)

Section handler.
Context {TOP Sink Params : Type} `{JsonRpc Params} `{HexCrate} `{Serde} `{Decode RpcReturnValue} `{Decode N}.
Implicit Types (n : RpcNode TOP Sink).
Context (methods : string → option (RpcMethod (RpcNode TOP Sink) Params)).

Definition set_rpc n (r : Rpc) : RpcNode TOP Sink := MkRpcNode (node_author n) (node_observer n) (node_primitives n) r.

(** A response to watch registers its connection. *)
Definition register_watch n (connection_token : Token) (maybe_rpc_response : option string) : RpcNode TOP Sink :=
  match response_from_str (default EmptyString maybe_rpc_response) with
  | Ok rpc_response =>
      match must_be_watched rpc_response with
      | Ok (Some connection_hash) => set_rpc n (store (node_rpc n) connection_hash connection_token rpc_response)
      | _ => n
      end
  | Err _ => n
  end.

Definition handle_message n (connection_token : Token) (message : string) : outcome (RpcNode TOP Sink * option string) :=
  handle_request_sync methods n message ≫= λ '(n, maybe_rpc_response),
  Ret (register_watch n connection_token maybe_rpc_response, maybe_rpc_response).

(** The handler of the web-socket server; what it sent while it ran are the new
    responses. *)
#[export] Instance rpc_ws_handler : WebSocketMessageHandler (RpcNode TOP Sink) := λ n connection_token message,
  handle_message n connection_token message ≫= λ '(n', reply),
  Ret (n', drop (length (responses (node_rpc n))) (responses (node_rpc n')), Ok reply).
End handler.

(** *** Blocks of peers (import_block_api.rs) *)

Section import.
Context {Params : Type} `{JsonRpc Params} `{HexCrate} `{Decode (list Sc.SignedBlock)}.
Abbreviation ImportQueue := (list Sc.SignedBlock).

Definition sidechain_importBlock (queue : ImportQueue) (sidechain_blocks : Params) : outcome (ImportQueue * result string string) :=
  match parse_strings sidechain_blocks with
  | Err e => Ret (queue, Err e)
  | Ok hex_encoded_block_vec =>
      unwrap (hex_encoded_block_vec !! 0) ≫= λ p,
      match from_hex (A := list Sc.SignedBlock) p with
      | Err _ => Ret (queue, Err "Could not decode Vec<SignedBlock>"%string)
      | Ok blocks => Ret (foldl Queue.push_single queue blocks, Ok "ok"%string)
      end
  end.

Definition sidechain_io_handler (name : string) : option (RpcMethod ImportQueue Params) :=
  if String.eqb name "sidechain_importBlock" then Some sidechain_importBlock else None.

Definition sidechain_rpc_int (queue : ImportQueue) (request : string) : outcome (ImportQueue * string) :=
  handle_request_sync sidechain_io_handler queue request ≫= λ '(queue, r),
  Ret (queue, default ("Empty rpc response for request: " +:+ request) r).
End import.
End Api.

(** ** What a watching client sees *)

Module RpcInv.
Import Hex Responder Api.

(** The messages to a connection. *)
Definition sent_to (t : Token) (signals : list ServerSignal) : list string :=
  omap (λ x, match x with SendResponse m t' => if decide (t' = t) then Some m else None | ShutDown => None end) signals.

(** The events of an operation, and those that its client still waits for. *)
Definition events_of (h : TxHash) (evs : list (TxHash * TrustedOperationStatus)) : list TrustedOperationStatus :=
  (filter (λ e, e.1 = h) evs).*2.

Fixpoint until_closed (sts : list TrustedOperationStatus) : list TrustedOperationStatus :=
  match sts with
  | [] => []
  | st :: sts => st :: (if continue_watching st then until_closed sts else [])
  end.

Lemma sent_to_app t s1 s2 : sent_to t (s1 ++ s2) = sent_to t s1 ++ sent_to t s2.
Proof. unfold sent_to. induction s1 as [|[|m t'] s1 IH]; cbn; [done|done|]. case_decide; cbn; by rewrite IH. Qed.

Section responder.
Context `{HexLaws} `{SerdeLaws} `{Codec RpcReturnValue}.
Implicit Types (r : Rpc) (h : TxHash) (t : Token) (resp : RpcResponse) (st : TrustedOperationStatus).

(** The response to an event, and its text. *)
Definition status_response (j : string) (id : RpcId) (v : Bytes) st : RpcResponse :=
  MkRpcResponse j (to_hex (MkReturnValue v (continue_watching st) (DrTrustedOperationStatus st))) id.
Definition status_message (j : string) (id : RpcId) (v : Bytes) st : string :=
  match response_to_string (status_response j id v st) with Ok m => m | Err _ => EmptyString end.

(** A response whose value is [v]. *)
Definition carries resp (j : string) (id : RpcId) (v : Bytes) : Prop :=
  jsonrpc resp = j ∧ rpc_id resp = id ∧ ∃ rv, from_hex (A := RpcReturnValue) (rpc_result resp) = Ok rv ∧ rv_value rv = v.

Definition watching r h t (j : string) (id : RpcId) (v : Bytes) : Prop :=
  ∃ resp, connection_map r !! h = Some (t, resp) ∧ carries resp j id v.

(** The operations that a connection watches. *)
Definition watches_only r t h : Prop := ∀ h' resp, connection_map r !! h' = Some (t, resp) → h' = h.
Definition watches_nothing r t : Prop := ∀ h' resp, connection_map r !! h' ≠ Some (t, resp).

Lemma status_carries j id v st : carries (status_response j id v st) j id v.
Proof. split; [done|]. split; [done|]. eexists. split; [apply hex_round_trip|done]. Qed.

Lemma event_unwatched r h st : connection_map r !! h = None → watcher_send r (h, st) = r.
Proof. intros Hn. unfold watcher_send, update_status_event, withdraw. cbn. rewrite Hn. cbn. rewrite delete_id by done. by destruct r. Qed.

Lemma event_watched r h st t j id v :
  server_component r = true → watching r h t j id v →
  watcher_send r (h, st) =
    MkRpc (if continue_watching st then <[h := (t, status_response j id v st)]> (connection_map r) else delete h (connection_map r))
      true (responses r ++ [SendResponse (status_message j id v st) t]).
Proof.
  intros Hup (resp & Hr & Hj & Hid & rv & Hrv & Hv). unfold watcher_send, update_status_event, withdraw. cbn [fst snd]. rewrite Hr.
  cbn [fst snd]. rewrite Hrv, Hv, Hj, Hid. fold (status_response j id v st). unfold encode_and_send_response, status_message.
  pose proof (response_serializes (status_response j id v st)) as Hs. destruct (response_to_string _) as [m|e]; [|done].
  unfold respond. cbn. rewrite Hup. cbn. destruct (continue_watching st); [|done]. unfold store. cbn. by rewrite insert_delete_eq.
Qed.

(** Whatever is registered, an event goes to the connection of its operation only. *)
Definition only_affects r h (r' : Rpc) : Prop :=
  server_component r' = server_component r ∧
  (∀ h', h' ≠ h → connection_map r' !! h' = connection_map r !! h') ∧
  (∀ t resp, connection_map r' !! h = Some (t, resp) → ∃ resp', connection_map r !! h = Some (t, resp')) ∧
  ∃ ms, responses r' = responses r ++ ms ∧ ∀ x, x ∈ ms → ∃ t resp y, x = SendResponse y t ∧ connection_map r !! h = Some (t, resp).

Lemma withdrawn_affects r h : only_affects r h (withdraw r h).1.
Proof.
  split; [done|]. cbn. split; [intros h' Hne; by rewrite lookup_delete_ne|].
  split; [intros t resp; by rewrite lookup_delete_eq|]. exists []. rewrite app_nil_r. split; [done|]. intros x Hx. by apply elem_of_nil in Hx.
Qed.

Lemma event_affects r h st : only_affects r h (watcher_send r (h, st)).
Proof.
  pose proof (withdrawn_affects r h) as Hdrop. unfold watcher_send, update_status_event, withdraw in *. cbn [fst snd] in *.
  destruct (connection_map r !! h) as [[t resp]|] eqn:Hr; [|done]. destruct (from_hex (rpc_result resp)) as [rv|e]; [|done].
  unfold encode_and_send_response. destruct (response_to_string _) as [y|e]; [|done].
  unfold respond. cbn [server_component]. destruct (server_component r) eqn:Hup; [|done]. cbn [fst snd].
  assert (∀ x, x ∈ [SendResponse y t] → ∃ t' resp' y', x = SendResponse y' t' ∧ connection_map r !! h = Some (t', resp')) as Hms.
  { intros x ->%list_elem_of_singleton. by exists t, resp, y. }
  destruct (continue_watching st); split; [done| |done|]; cbn; (split; [|split; [|by exists [SendResponse y t]]]).
  - intros h' Hne. by rewrite lookup_insert_ne, lookup_delete_ne.
  - intros t' resp'. rewrite lookup_insert_eq. intros [= <- <-]. by exists resp.
  - intros h' Hne. by rewrite lookup_delete_ne.
  - intros t' resp'. by rewrite lookup_delete_eq.
Qed.

Lemma unaddressed t ms : (∀ x, x ∈ ms → ∃ t' y, x = SendResponse y t' ∧ t' ≠ t) → sent_to t ms = [].
Proof.
  induction ms as [|x ms IH]; intros Hms; [done|]. destruct (Hms x) as (t' & y & -> & Hne); [left|]. cbn.
  rewrite decide_False by done. apply IH. intros x Hx. apply Hms. by right.
Qed.

Lemma events_keep_server r evs : server_component (foldl watcher_send r evs) = server_component r.
Proof.
  revert r. induction evs as [|[h st] evs IH]; intros r; cbn [foldl]; [done|]. rewrite IH. by destruct (event_affects r h st) as [-> _].
Qed.

(** Nothing is sent to a connection that watches nothing. *)
Lemma nothing_watched r t evs :
  watches_nothing r t →
  watches_nothing (foldl watcher_send r evs) t ∧ sent_to t (responses (foldl watcher_send r evs)) = sent_to t (responses r).
Proof.
  revert r. induction evs as [|[h st] evs IH]; intros r Hno; cbn [foldl]; [done|].
  destruct (event_affects r h st) as (_ & Hother & Hown & ms & Hms & Hx).
  destruct (IH (watcher_send r (h, st))) as [Hno' Hsent].
  { intros h' resp Hh'. destruct (decide (h' = h)) as [->|Hne]; [apply Hown in Hh' as [? ?]; by eapply Hno|].
    rewrite Hother in Hh' by done. by eapply Hno. }
  split; [done|]. rewrite Hsent, Hms, sent_to_app, (unaddressed t ms); [by rewrite app_nil_r|].
  intros x Hin. destruct (Hx x Hin) as (t' & resp & y & -> & Hr). exists t', y. split; [done|]. intros ->. by eapply Hno.
Qed.

(** Events register nothing. *)
Lemma unregistered_stays r h evs : connection_map r !! h = None → connection_map (foldl watcher_send r evs) !! h = None.
Proof.
  revert r. induction evs as [|[h' st] evs IH]; intros r Hn; cbn [foldl]; [done|]. apply IH.
  destruct (event_affects r h' st) as (_ & Hother & Hown & _). destruct (decide (h = h')) as [->|Hne]; [|by rewrite Hother].
  apply eq_None_not_Some. intros [[t resp] [? Hs]%Hown]. congruence.
Qed.

(** The events of other operations leave a registration and its connection alone. *)
Lemma foreign_event r h t h' st :
  watches_only r t h → h' ≠ h →
  let r' := watcher_send r (h', st) in
  connection_map r' !! h = connection_map r !! h ∧ watches_only r' t h ∧ sent_to t (responses r') = sent_to t (responses r).
Proof.
  intros Honly Hne. destruct (event_affects r h' st) as (_ & Hother & Hown & ms & Hms & Hx). cbn. split; [by apply Hother|]. split.
  - intros h1 resp1 Hh1. destruct (decide (h1 = h')) as [->|Hne1]; [apply Hown in Hh1 as [? Hh1]|rewrite Hother in Hh1 by done];
      by apply (Honly _ _ Hh1).
  - rewrite Hms, sent_to_app, (unaddressed t ms); [by rewrite app_nil_r|]. intros x Hin.
    destruct (Hx x Hin) as (t' & resp' & y & -> & Hr'). exists t', y. split; [done|]. intros ->. by apply Honly in Hr'.
Qed.

Lemma foreign_events r h t evs :
  watches_only r t h → events_of h evs = [] →
  connection_map (foldl watcher_send r evs) !! h = connection_map r !! h ∧
  sent_to t (responses (foldl watcher_send r evs)) = sent_to t (responses r).
Proof.
  revert r. induction evs as [|[h' st] evs IH]; intros r Honly; cbn [foldl]; [done|].
  unfold events_of. rewrite filter_cons. cbn [fst]. case_decide as Hne; [done|]. intros He.
  destruct (foreign_event r h t h' st Honly Hne) as (Hr & Honly' & Hs). cbn in *. rewrite <-Hr, <-Hs. by apply IH.
Qed.

Lemma events_reach_the_client r h t j id v evs :
  server_component r = true → watching r h t j id v → watches_only r t h →
  let r' := foldl watcher_send r evs in
  sent_to t (responses r') = sent_to t (responses r) ++ (status_message j id v <$> until_closed (events_of h evs)) ∧
  (is_Some (connection_map r' !! h) ↔ Forall (λ st, continue_watching st = true) (events_of h evs)).
Proof.
  revert r. induction evs as [|[h' st] evs IH]; intros r Hup Hw Honly; cbn [foldl].
  - cbn. rewrite app_nil_r. split; [done|]. destruct Hw as (resp & Hr & _). rewrite Hr. split; [constructor|by eexists].
  - unfold events_of. rewrite filter_cons. destruct (decide (h' = h)) as [->|Hne]; cbn [fst].
    2: { rewrite decide_False by done. destruct (foreign_event r h t h' st Honly Hne) as (Hr' & Honly' & Hs). cbn in Hr', Hs.
         rewrite <-Hs. apply IH; [by destruct (event_affects r h' st) as [-> _]| |done]. destruct Hw as (resp & Hr & Hc). exists resp. by rewrite Hr'. }
    rewrite decide_True by done. cbn [fmap list_fmap snd]. rewrite Forall_cons.
    assert (∀ w x, sent_to t (responses (MkRpc x w (responses r ++ [SendResponse (status_message j id v st) t]))) =
      sent_to t (responses r) ++ [status_message j id v st]) as Hone.
    { intros w x. cbn [responses]. rewrite sent_to_app. cbn. by rewrite decide_True. }
    rewrite (event_watched r h st t j id v Hup Hw). destruct (continue_watching st) eqn:Hst; cbn [until_closed]; rewrite Hst.
    + destruct (IH (MkRpc (<[h := (t, status_response j id v st)]> (connection_map r)) true (responses r ++ [SendResponse (status_message j id v st) t])))
        as [Hs Hopen]; [done| | |].
      * eexists. split; [cbn; by rewrite lookup_insert_eq|apply status_carries].
      * intros h1 resp1. cbn. destruct (decide (h1 = h)) as [->|Hne]; [done|]. rewrite lookup_insert_ne by done. apply Honly.
      * cbn zeta in *. rewrite Hs, Hone, <-app_assoc. split; [done|]. rewrite Hopen. naive_solver.
    + destruct (nothing_watched (MkRpc (delete h (connection_map r)) true (responses r ++ [SendResponse (status_message j id v st) t])) t evs)
        as [Hno Hs].
      * intros h1 resp1. cbn. destruct (decide (h1 = h)) as [->|Hne]; [by rewrite lookup_delete_eq|]. rewrite lookup_delete_ne by done.
        intros Hh1. by apply Honly in Hh1.
      * cbn zeta in *. rewrite Hs, Hone. split; [done|].
        rewrite unregistered_stays by (cbn; by rewrite lookup_delete_eq). split; [by intros [? ?]|naive_solver].
Qed.

(** *** Events that do not reach their client *)

(** The log of the listener only grows, and an operation without a watcher gets no
    more events until it is watched again. *)
Lemma quiet_run (l : Listen.Listener) ops h :
  Listen.listener_inv l → Listen.watchers l !! h = None → Listen.OpCreate h ∉ ops →
  ∃ l' evs, for_each Listen.run_op l ops = Ret l' ∧ Listen.sent l' = Listen.sent l ++ evs ∧ events_of h evs = [].
Proof.
  intros Hi Hw Hno.
  destruct (for_each_inv Listen.run_op (λ l1, Listen.listener_inv l1 ∧ Listen.silent h (Listen.events l h) l1 ∧
    ∃ evs, Listen.sent l1 = Listen.sent l ++ evs) ops l) as (l' & Hrun & _ & [_ He] & evs & Hs).
  - split; [done|]. split; [done|]. exists []. by rewrite app_nil_r.
  - intros op l1 Hin (Hi1 & Hs1 & evs & He1). destruct (Listen.run_op_inv l1 op Hi1) as (l2 & Heq & Hi2). exists l2. split; [done|]. split; [done|].
    assert ((∀ h', op ≠ Listen.OpCreate h') → Listen.silent h (Listen.events l h) l2 ∧ ∃ evs, Listen.sent l2 = Listen.sent l ++ evs) as Hkeep.
    { intros Hne. split.
      - eapply Listen.run_op_keeps with (l := l1); [| |exact Hi1|exact Hs1|exact Hne|exact Heq];
          [intros ? ? Hx; exact Hx|intros; by apply Listen.silent_live].
      - eapply (Listen.run_op_keeps (λ l2, ∃ evs, Listen.sent l2 = Listen.sent l ++ evs)) with (l := l1);
          [| |exact Hi1|by exists evs|exact Hne|exact Heq]; [intros ? ? Hx; exact Hx|].
        intros l3 hash fn _ [evs3 Hl3] _. unfold Listen.fire. destruct (Listen.watchers l3 !! hash) as [w|]; [|by exists evs3].
        destruct (fn w) as [st w']. cbn. rewrite Hl3, <-app_assoc. by eexists. }
    destruct op as [h'| | | | | | | | |]; [|by apply Hkeep..]. clear Hkeep. cbn in Heq. injection Heq as <-.
    destruct Hs1 as [Hw1 Hev1]. split; [|by exists evs]. split; [|done]. cbn. rewrite lookup_insert_ne; [done|]. intros ->. done.
  - exists l', evs. split; [done|]. split; [done|]. unfold Listen.events in He. rewrite Hs, filter_app, fmap_app in He.
    apply (app_inv_head (filter (λ e, e.1 = h) (Listen.sent l)).*2). by rewrite app_nil_r.
Qed.

(** The event that an operation was dropped ends its watcher in the pool, but tells the
    client to go on watching and keeps its registration: no other event follows. *)
Theorem dropped_client_is_left_waiting (l : Listen.Listener) ops r h t j id v :
  Listen.listener_inv l → is_Some (Listen.watchers l !! h) → Listen.OpCreate h ∉ ops →
  server_component r = true → watching r h t j id v → watches_only r t h →
  ∃ l' evs, for_each Listen.run_op (Listen.dropped l h None) ops = Ret l' ∧
    Listen.sent l' = Listen.sent l ++ (h, StDropped) :: evs ∧
    sent_to t (responses (foldl watcher_send r ((h, StDropped) :: evs))) = sent_to t (responses r) ++ [status_message j id v StDropped] ∧
    response_to_string (MkRpcResponse j (to_hex (MkReturnValue v true (DrTrustedOperationStatus StDropped))) id) = Ok (status_message j id v StDropped) ∧
    is_Some (connection_map (foldl watcher_send r ((h, StDropped) :: evs)) !! h).
Proof.
  intros Hi [w Hw] Hno Hup Hwatch Honly. destruct (Listen.li_hash l Hi h w Hw).
  assert (Listen.listener_inv (Listen.dropped l (Listen.w_hash w) None)) as Hi'
    by (apply Listen.fire_inv; [done|apply Listen.proper_dropped]).
  assert (Listen.watchers (Listen.dropped l (Listen.w_hash w) None) !! Listen.w_hash w = None ∧
    Listen.sent (Listen.dropped l (Listen.w_hash w) None) = Listen.sent l ++ [(Listen.w_hash w, StDropped)]) as [Hw' Hs'].
  { unfold Listen.dropped, Listen.fire. rewrite Hw. cbn. by rewrite lookup_delete_eq. }
  destruct (quiet_run _ ops (Listen.w_hash w) Hi' Hw' Hno) as (l' & evs & Hrun & Hs & He). exists l', evs. split; [done|].
  split; [by rewrite Hs, Hs', <-app_assoc|].
  destruct (events_reach_the_client r (Listen.w_hash w) t j id v ((Listen.w_hash w, StDropped) :: evs) Hup Hwatch Honly) as [Hsent Hopen].
  revert Hsent Hopen. unfold events_of. rewrite filter_cons. cbn [fst]. rewrite decide_True by done. cbn [fmap list_fmap snd].
  unfold events_of in He. rewrite He. cbn [until_closed continue_watching fmap list_fmap]. intros Hsent Hopen.
  split; [exact Hsent|]. split; [|apply Hopen; by repeat constructor]. unfold status_message, status_response. cbn [continue_watching].
  pose proof (response_serializes (MkRpcResponse j (to_hex (MkReturnValue v true (DrTrustedOperationStatus StDropped))) id)) as Hser.
  by destruct (response_to_string _).
Qed.

(** A client is registered when the response to its submission is ready.  If a block
    with its operation came before that, the event is lost, the registration stays and
    nothing is ever sent for it. *)
Theorem block_before_registration_is_missed (l : Listen.Listener) ops r h t resp block :
  Listen.listener_inv l → is_Some (Listen.watchers l !! h) → Listen.OpCreate h ∉ ops →
  connection_map r !! h = None → watches_nothing r t → server_component r = true →
  ∃ l' evs, for_each Listen.run_op (Listen.in_block l h block) ops = Ret l' ∧
    Listen.sent l' = Listen.sent l ++ (h, StInSidechainBlock block) :: evs ∧
    watcher_send r (h, StInSidechainBlock block) = r ∧
    let r' := foldl watcher_send (store r h t resp) evs in
    sent_to t (responses r') = sent_to t (responses r) ∧ connection_map r' !! h = Some (t, resp).
Proof.
  intros Hi [w Hw] Hno Hr Hnothing Hup. destruct (Listen.li_hash l Hi h w Hw).
  assert (Listen.listener_inv (Listen.in_block l (Listen.w_hash w) block)) as Hi'
    by (apply Listen.fire_inv; [done|apply Listen.proper_in_block]).
  assert (Listen.watchers (Listen.in_block l (Listen.w_hash w) block) !! Listen.w_hash w = None ∧
    Listen.sent (Listen.in_block l (Listen.w_hash w) block) = Listen.sent l ++ [(Listen.w_hash w, StInSidechainBlock block)]) as [Hw' Hs'].
  { unfold Listen.in_block, Listen.fire. rewrite Hw. cbn. by rewrite lookup_delete_eq. }
  destruct (quiet_run _ ops (Listen.w_hash w) Hi' Hw' Hno) as (l' & evs & Hrun & Hs & He). exists l', evs. split; [done|].
  split; [by rewrite Hs, Hs', <-app_assoc|]. split; [by apply event_unwatched|]. cbn zeta.
  destruct (foreign_events (store r (Listen.w_hash w) t resp) (Listen.w_hash w) t evs) as [Hreg ->]; [|done|].
  - intros h' resp' Hh'. cbn in Hh'. destruct (decide (h' = Listen.w_hash w)) as [->|Hne]; [done|]. rewrite lookup_insert_ne in Hh' by done. by apply Hnothing in Hh'.
  - split; [done|]. rewrite Hreg. cbn. by rewrite lookup_insert_eq.
Qed.
End responder.

(** ** A submission, from the message to its last event *)

Section submission.
Context `{Ord : IterOrder} `{!SlotCodec} {TCS G Key Sink : Type}.
Context `{!TrustedCallVerification TCS} `{!PoolTransactionValidation G} `{!UniformValidation G}.
Context (env : Enclave Key (StfTrustedOperation TCS G)).
Context (top_filter : StfTrustedOperation TCS G → bool).
Context (try_send : Sink → TxHash → VPool.send_result * Sink).
Context {Params : Type} `{HexLaws} `{SerdeLaws} `{!JsonRpc Params} `{!JsonRpcLaws Params}.
Context `{Codec RpcReturnValue} `{Codec Request} `{Encode string} `{Codec N}.
Context (debug_error : RpcError → string) (methods : Z → string → option (RpcMethod (RpcNode (StfTrustedOperation TCS G) Sink) Params)).
Implicit Types (n : RpcNode (StfTrustedOperation TCS G) Sink) (now : Z).

Hypothesis short_encodings : ∀ top : StfTrustedOperation TCS G, (0 ≤ (hash_len env top).2 < 2 ^ 62)%Z.
Hypothesis submit_method : ∀ now, methods now "author_submitAndWatchExtrinsic" =
  Some (author_submitAndWatchExtrinsic env top_filter try_send debug_error now).

(** The answer to a submission. *)
Definition submission_reply (res : result TxHash RpcError) : string :=
  match res with
  | Ok h => to_hex (submitted true h)
  | Err e => compute_hex_encoded_return_error (debug_error e)
  end.

Lemma submission_handled now n t req id msg a' res :
  request_to_string (MkRpcRequest "2.0" "author_submitAndWatchExtrinsic" [to_hex req] id) = Ok msg →
  watch_top env top_filter try_send now (node_author n) (cyphertext req) (req_shard req) = Ret (a', res) →
  let r1 := foldl watcher_send (node_rpc n) (new_events (node_author n) a') in
  handle_message (methods now) n t msg =
    Ret (MkRpcNode a' (node_observer n) (node_primitives n)
           match res with
           | Ok h => store r1 h t (MkRpcResponse "2.0" (submission_reply res) id)
           | Err _ => r1
           end, Some (answer id (Ok (submission_reply res)))).
Proof.
  intros Hmsg Hwatch r1. unfold handle_message. rewrite (dispatched _ _ _ _ _ _ _ _ Hmsg (submit_method now)).
  unfold author_submitAndWatchExtrinsic, author_submit_extrinsic_inner. rewrite parse_params. cbn [lookup list_lookup unwrap mbind outcome_bind].
  rewrite hex_round_trip. unfold with_author. rewrite Hwatch. cbn [mbind outcome_bind]. fold r1.
  destruct res as [h|e]; cbn [mbind outcome_bind submission_reply]; unfold register_watch; cbn [from_option]; unfold Datatypes.id; rewrite answer_ok;
    unfold must_be_watched; cbn [rpc_result].
  - rewrite hex_round_trip. unfold submitted. cbn [do_watch rv_status rv_value]. by rewrite decode_encode.
  - unfold compute_hex_encoded_return_error. by rewrite hex_round_trip.
Qed.

(** C18: A message that submits an operation is answered with the result of the author.  If
    the operation was accepted, its connection is sent exactly the later events of the
    operation, in order, up to the first that ends the watch, and stays registered
    until then; if it was refused, the connection is sent nothing. *)
Theorem submission_is_watched now n t req id msg :
  request_to_string (MkRpcRequest "2.0" "author_submitAndWatchExtrinsic" [to_hex req] id) = Ok msg →
  author_inv (node_author n) → VPoolInv.room (top_pool (node_author n)) (req_shard req) 1 →
  server_component (node_rpc n) = true → watches_nothing (node_rpc n) t →
  ∃ n' res, process_top env top_filter try_send now (node_author n) (cyphertext req) (req_shard req) SubmitWatch = Ret (node_author n', res) ∧
    handle_message (methods now) n t msg = Ret (n', Some (answer id (Ok (submission_reply res)))) ∧
    ∀ evs, let r := foldl watcher_send (node_rpc n') evs in
      match res with
      | Ok h =>
          sent_to t (responses r) =
            sent_to t (responses (node_rpc n)) ++ (status_message "2.0" id (encode h) <$> until_closed (events_of h evs)) ∧
          (is_Some (connection_map r !! h) ↔ Forall (λ st, continue_watching st = true) (events_of h evs))
      | Err _ => sent_to t (responses r) = sent_to t (responses (node_rpc n))
      end.
Proof.
  intros Hmsg Hinv Hroom Hup Hno.
  assert (∃ a' res, watch_top env top_filter try_send now (node_author n) (cyphertext req) (req_shard req) = Ret (a', res)) as (a' & res & Hrun).
  { unfold watch_top. destruct (open_request env top_filter (cyphertext req) (req_shard req)) as [top|e] eqn:Hopen.
    - destruct (process_top_spec env top_filter try_send short_encodings now _ _ _ SubmitWatch top 0 Hinv Hroom Hopen) as (a' & res & Heq & _). by exists a', res.
    - eexists _, _. unfold process_top. by rewrite Hopen. }
  pose proof (submission_handled now n t req id msg a' res Hmsg Hrun) as Hh. cbn zeta in Hh.
  match type of Hh with _ = Ret (?n1, _) => exists n1, res end. split; [exact Hrun|]. split; [exact Hh|]. cbn [node_rpc].
  destruct (nothing_watched (node_rpc n) t (new_events (node_author n) a') Hno) as [Hno1 Hsent1].
  assert (server_component (foldl watcher_send (node_rpc n) (new_events (node_author n) a')) = true) as Hup1 by (by rewrite events_keep_server).
  set (r1 := foldl watcher_send _ _) in *. intros evs. cbn zeta. destruct res as [h|e]; [|by rewrite <-Hsent1; apply nothing_watched].
  rewrite <-Hsent1. refine (events_reach_the_client (store r1 h t _) h t "2.0" id (encode h) evs Hup1 _ _).
  - eexists. split; [cbn; by rewrite lookup_insert_eq|]. split; [done|]. split; [done|]. eexists. split; [apply hex_round_trip|done].
  - intros h' resp'. cbn. destruct (decide (h' = h)) as [->|Hne]; [done|]. rewrite lookup_insert_ne by done. intros Hh'. by apply Hno1 in Hh'.
Qed.

(** A request without parameters makes the method index an empty vector. *)
Lemma empty_params_panic now n t id msg :
  request_to_string (MkRpcRequest "2.0" "author_submitAndWatchExtrinsic" [] id) = Ok msg →
  handle_message (methods now) n t msg = Panic.
Proof.
  intros Hmsg. unfold handle_message. rewrite (dispatched _ _ _ _ _ _ _ _ Hmsg (submit_method now)).
  unfold author_submitAndWatchExtrinsic, author_submit_extrinsic_inner. by rewrite parse_params.
Qed.

End submission.

(** ** Blocks of peers *)

Section import.
Context {Params : Type} `{HexLaws} `{SerdeLaws} `{!JsonRpc Params} `{!JsonRpcLaws Params} `{Codec (list Sc.SignedBlock)}.

(** The blocks of a request are queued for the import in their order. *)
Theorem blocks_of_peers_are_queued (queue blocks : list Sc.SignedBlock) id msg :
  request_to_string (MkRpcRequest "2.0" "sidechain_importBlock" [to_hex blocks] id) = Ok msg →
  sidechain_rpc_int queue msg = Ret (Queue.push_multiple queue blocks, answer id (Ok "ok"%string)).
Proof.
  intros Hmsg. unfold sidechain_rpc_int. rewrite (dispatched _ sidechain_io_handler queue _ _ _ _ sidechain_importBlock Hmsg eq_refl).
  unfold sidechain_importBlock. rewrite parse_params. cbn [lookup list_lookup unwrap mbind outcome_bind]. rewrite hex_round_trip.
  cbn [mbind outcome_bind from_option]. unfold Queue.push_multiple. do 2 f_equal. clear. revert queue.
  induction blocks as [|b bs IH]; intros queue; cbn [foldl]; [by rewrite app_nil_r|]. rewrite IH. unfold Queue.push_single. by rewrite <-app_assoc.
Qed.
End import.
End RpcInv.

(** ** Witnesses *)

Module RpcSample.
Import Hex Responder Api RpcInv Sample.

(** Texts are the bits of a number. *)
Fixpoint bits (p : positive) : string :=
  match p with
  | xH => EmptyString
  | xO p => String "0"%char (bits p)
  | xI p => String "1"%char (bits p)
  end.

Fixpoint unbits (s : string) : positive :=
  match s with
  | EmptyString => xH
  | String c s => if Ascii.eqb c "1"%char then xI (unbits s) else xO (unbits s)
  end.

Lemma unbits_bits p : unbits (bits p) = p.
Proof. induction p as [p IH|p IH|]; cbn; [by rewrite IH..|done]. Qed.

Definition of_text {A} `{Countable A} (s : string) : result A string :=
  match countable.decode (unbits s) with Some a => Ok a | None => Err "text"%string end.

Lemma of_text_bits {A} `{Countable A} (a : A) : of_text (bits (countable.encode a)) = Ok a.
Proof. unfold of_text. by rewrite unbits_bits, countable.decode_encode. Qed.

#[export] Instance status_countable : Countable TrustedOperationStatus.
Proof.
  apply (inj_countable
    (λ st, match st with
           | StSubmitted => (0, 0) | StFuture => (1, 0) | StReady => (2, 0) | StBroadcast => (3, 0) | StInSidechainBlock b => (4, b)
           | StRetracted => (5, 0) | StFinalityTimeout => (6, 0) | StFinalized => (7, 0) | StUsurped => (8, 0) | StDropped => (9, 0)
           | StInvalid => (10, 0)
           end)%N
    (λ x, match x.1 with
          | 0 => Some StSubmitted | 1 => Some StFuture | 2 => Some StReady | 3 => Some StBroadcast | 4 => Some (StInSidechainBlock x.2)
          | 5 => Some StRetracted | 6 => Some StFinalityTimeout | 7 => Some StFinalized | 8 => Some StUsurped | 9 => Some StDropped
          | _ => Some StInvalid
          end)%N).
  by intros [].
Defined.

#[export] Instance direct_status_eq_dec : EqDecision DirectRequestStatus.
Proof. solve_decision. Defined.
#[export] Instance return_value_eq_dec : EqDecision RpcReturnValue.
Proof. solve_decision. Defined.
#[export] Instance id_eq_dec : EqDecision RpcId.
Proof. solve_decision. Defined.
#[export] Instance response_eq_dec : EqDecision RpcResponse.
Proof. solve_decision. Defined.
#[export] Instance rpc_request_eq_dec : EqDecision RpcRequest.
Proof. solve_decision. Defined.
#[export] Instance invoke_eq_dec : EqDecision Request.
Proof. solve_decision. Defined.

#[export] Instance direct_status_countable : Countable DirectRequestStatus.
Proof.
  apply (inj_countable' (λ s, match s with DrOk => inl true | DrError => inl false | DrTrustedOperationStatus st => inr st end)
    (λ x, match x with inl true => DrOk | inl false => DrError | inr st => DrTrustedOperationStatus st end)). by intros [].
Defined.
#[export] Instance return_value_countable : Countable RpcReturnValue.
Proof. apply (inj_countable' (λ r, (rv_value r, do_watch r, rv_status r)) (λ x, MkReturnValue x.1.1 x.1.2 x.2)). by intros []. Defined.
#[export] Instance id_countable : Countable RpcId.
Proof.
  apply (inj_countable' (λ i, match i with IdNumber n => inl n | IdText s => inr s end)
    (λ x, match x with inl n => IdNumber n | inr s => IdText s end)). by intros [].
Defined.
#[export] Instance response_countable : Countable RpcResponse.
Proof. apply (inj_countable' (λ r, (jsonrpc r, rpc_result r, rpc_id r)) (λ x, MkRpcResponse x.1.1 x.1.2 x.2)). by intros []. Defined.
#[export] Instance rpc_request_countable : Countable RpcRequest.
Proof.
  apply (inj_countable' (λ r, (rq_jsonrpc r, rq_method r, rq_params r, rq_id r)) (λ x, MkRpcRequest x.1.1.1 x.1.1.2 x.1.2 x.2)). by intros [].
Defined.
#[export] Instance invoke_countable : Countable Request.
Proof. apply (inj_countable' (λ r, (req_shard r, cyphertext r)) (λ x, MkRequest x.1 x.2)). by intros []. Defined.

#[export] Instance sample_hex : HexCrate := {| hex_enc b := bits (countable.encode b); hex_dec := of_text |}.
#[export] Instance sample_hex_laws : HexLaws.
Proof. split. intros b. apply of_text_bits. Qed.

#[export] Instance sample_serde : Serde := {|
  response_to_string r := Ok (String "r"%char (bits (countable.encode r)));
  response_from_str s := match s with String "r"%char s => of_text s | _ => Err "json"%string end;
  request_to_string r := Ok (bits (countable.encode r));
|}.
#[export] Instance sample_serde_laws : SerdeLaws.
Proof. split; [done|]. intros r s [= <-]. apply of_text_bits. Qed.

#[export] Instance sample_jsonrpc : JsonRpc (list string) := {|
  parse_strings ps := Ok ps;
  parse_two_strings ps := match ps with [a; b] => Ok (a, b) | _ => Err "params"%string end;
  handle_request_sync S methods s msg :=
    match of_text (A := RpcRequest) msg with
    | Err _ => Ret (s, None)
    | Ok rq =>
        match methods (rq_method rq) with
        | None => Ret (s, None)
        | Some f =>
            f s (rq_params rq) ≫= λ '(s, r),
            Ret (s, Some match r with
                         | Ok v => String "r"%char (bits (countable.encode (MkRpcResponse "2.0" v (rq_id rq))))
                         | Err _ => EmptyString
                         end)
        end
    end;
|}.

#[export] Program Instance sample_jsonrpc_laws : JsonRpcLaws (list string) := {|
  params_of ps := ps;
  answer id r := match r with
                 | Ok v => String "r"%char (bits (countable.encode (MkRpcResponse "2.0" v id)))
                 | Err _ => EmptyString
                 end;
|}.
Next Obligation. done. Qed.
Next Obligation. intros id v. apply of_text_bits. Qed.
Next Obligation. done. Qed.
Next Obligation. intros S methods s m ps id msg f [= <-] Hf. cbn. rewrite of_text_bits. cbn. rewrite Hf. by destruct (f s ps) as [[s' [v|e]]| |]. Qed.

#[export] Instance enc_return : Encode RpcReturnValue := count_encode.
#[export] Instance dec_return : Decode RpcReturnValue := count_decode.
#[export] Instance codec_return : Codec RpcReturnValue := count_codec.
#[export] Instance enc_request : Encode Request := count_encode.
#[export] Instance dec_request : Decode Request := count_decode.
#[export] Instance codec_request : Codec Request := count_codec.
#[export] Instance enc_string : Encode string := count_encode.
#[export] Instance codec_hash : Codec N := count_codec.

Definition debug (e : RpcError) : string := "error".

Definition sample_methods (now : Z) (name : string) :
    option (RpcMethod (RpcNode (StfTrustedOperation demo_call demo_getter) unit) (list string)) :=
  if String.eqb name "author_submitAndWatchExtrinsic"
  then Some (author_submitAndWatchExtrinsic demo_env calls_only_filter demo_send debug now) else None.

Definition sample_node : RpcNode (StfTrustedOperation demo_call demo_getter) unit :=
  MkRpcNode (new_author default_options) (Observer.MkObserver ∅ ∅) (MkPrimitives EmptyString EmptyString) (MkRpc ∅ true []).

Definition sample_request : Request := MkRequest 0%N [0; 7; 1]%N.
Definition sample_message (ps : list string) : string := bits (countable.encode (MkRpcRequest "2.0" "author_submitAndWatchExtrinsic" ps (IdNumber 1))).

Definition watching_rpc : Rpc :=
  MkRpc {[ 5%N := (11%Z, MkRpcResponse "2.0" (to_hex (submitted true 5%N)) (IdNumber 1)) ]} true [].
Definition watched_listener : Listen.Listener := Listen.create_watcher Listen.new 5%N.
End RpcSample.

Section witnesses.
Import Hex Responder Api RpcInv Sample RpcSample.
#[local] Existing Instance listed_order.

(** The operation is accepted; its block ends the watch, and what follows is not sent. *)
Lemma submission_is_watched_witness :
  ∃ n', handle_message (sample_methods 0) sample_node 11 (sample_message [to_hex sample_request]) =
      Ret (n', Some (answer (IdNumber 1) (Ok (submission_reply debug (Ok 7010%N))))) ∧
    sent_to 11 (responses (foldl watcher_send (node_rpc n') [(7010, StInSidechainBlock 3); (7010, StFinalized)]%N)) =
      [status_message "2.0" (IdNumber 1) (encode 7010%N) (StInSidechainBlock 3%N)].
Proof.
  destruct (submission_is_watched demo_env calls_only_filter demo_send debug sample_methods demo_short) with
    (now := 0%Z) (n := sample_node) (t := 11%Z) (req := sample_request) (id := IdNumber 1) (msg := sample_message [to_hex sample_request])
    as (n' & res & Hp & Hh & Hev).
  - reflexivity.
  - reflexivity.
  - apply (author_inv_new demo_env default_options); apply default_small.
  - apply (room_new default_options 1). vm_compute. discriminate.
  - reflexivity.
  - intros h resp. cbn. by rewrite lookup_empty.
  - assert (res = Ok 7010%N) as ->.
    { assert (match process_top demo_env calls_only_filter demo_send 0 (node_author sample_node) (cyphertext sample_request) (req_shard sample_request)
        SubmitWatch with Ret (_, Ok h) => bool_decide (h = 7010%N) | _ => false end = true) as Hc by (vm_compute; reflexivity).
      rewrite Hp in Hc. destruct res as [h|]; [|done]. by apply bool_decide_eq_true in Hc as ->. }
    exists n'. split; [exact Hh|]. exact (proj1 (Hev [(7010, StInSidechainBlock 3); (7010, StFinalized)]%N)).
Defined.

Lemma sample_watching : watching watching_rpc 5%N 11 "2.0" (IdNumber 1) (encode 5%N) ∧ watches_only watching_rpc 11 5%N.
Proof.
  split.
  - eexists. split; [reflexivity|]. split; [done|]. split; [done|]. eexists. split; [apply hex_round_trip|done].
  - intros h resp Hh. unfold watching_rpc in Hh. cbn [connection_map] in Hh. by apply lookup_singleton_Some in Hh as [-> _].
Qed.

Lemma dropped_client_is_left_waiting_witness :
  ∃ l' evs, for_each Listen.run_op (Listen.dropped watched_listener 5%N None) [Listen.OpFinalized 3%N] = Ret l' ∧
    is_Some (connection_map (foldl watcher_send watching_rpc ((5%N, StDropped) :: evs)) !! 5%N).
Proof.
  destruct sample_watching as [Hw Ho].
  destruct (dropped_client_is_left_waiting watched_listener [Listen.OpFinalized 3%N] watching_rpc 5%N 11 "2.0" (IdNumber 1) (encode 5%N))
    as (l' & evs & Hrun & _ & _ & _ & Hr).
  - apply Listen.create_watcher_inv, Listen.listener_inv_new.
  - by eexists.
  - by intros [?|[]%elem_of_nil]%elem_of_cons.
  - reflexivity.
  - exact Hw.
  - exact Ho.
  - exists l', evs. split; [exact Hrun|exact Hr].
Defined.

Lemma block_before_registration_is_missed_witness :
  ∃ l' evs, for_each Listen.run_op (Listen.in_block watched_listener 5%N 3%N) [Listen.OpFinalized 3%N] = Ret l' ∧
    sent_to 11 (responses (foldl watcher_send (store (MkRpc ∅ true []) 5%N 11 (MkRpcResponse "2.0" EmptyString (IdNumber 1))) evs)) = [].
Proof.
  destruct (block_before_registration_is_missed watched_listener [Listen.OpFinalized 3%N] (MkRpc ∅ true []) 5%N 11
    (MkRpcResponse "2.0" EmptyString (IdNumber 1)) 3%N) as (l' & evs & Hrun & _ & _ & Hs & _).
  - apply Listen.create_watcher_inv, Listen.listener_inv_new.
  - by eexists.
  - by intros [?|[]%elem_of_nil]%elem_of_cons.
  - reflexivity.
  - intros h resp. cbn. by rewrite lookup_empty.
  - reflexivity.
  - exists l', evs. split; [exact Hrun|exact Hs].
Defined.

Definition hostile : Connection unit unit (list string * list string) :=
  MkConnection (EstablishedWebsocket ([sample_message []], [])) 11%Z false.
Definition hostile_server : Server unit unit (list string * list string) := MkServer 11%Z {[ 11%Z := hostile ]} true (Some []).


Definition peer_block : Sc.SignedBlock := Sc.MkSignedBlock (Sc.MkBlock (Sc.MkHeader 0 1 0 0 0) (Sc.MkBlockData 0 0 0 [] [])) [].

#[local] Existing Instance Sc.signed_block_eq_dec.
#[local] Instance signed_block_countable : Countable Sc.SignedBlock.
Proof. apply (inj_countable' (λ b, (Sc.block b, Sc.signature b)) (λ x, Sc.MkSignedBlock x.1 x.2)). by intros []. Defined.
#[local] Instance enc_blocks : Encode (list Sc.SignedBlock) := count_encode.
#[local] Instance dec_blocks : Decode (list Sc.SignedBlock) := count_decode.
#[local] Instance codec_blocks : Codec (list Sc.SignedBlock) := count_codec.

Lemma blocks_of_peers_are_queued_witness :
  sidechain_rpc_int [peer_block] (bits (countable.encode (MkRpcRequest "2.0" "sidechain_importBlock" [to_hex [peer_block; peer_block]] (IdNumber 4)))) =
  Ret ([peer_block; peer_block; peer_block], answer (IdNumber 4) (Ok "ok"%string)).
Proof. apply (blocks_of_peers_are_queued [peer_block] [peer_block; peer_block] (IdNumber 4)). reflexivity. Defined.
End witnesses.
