(* ===== verification/Keys.v ===== *)
(** The keys of the enclave (src/core-primitives/sgx/crypto/src): the AES key that
    encrypts states and blocks, the sealed files of the AES, RSA and Ed25519 keys and
    the repositories that hold them in memory.

    The block cipher, the generation of keys and the SGX files are external. *)

From stdpp Require Import base gmap numbers strings list vector.
From S2P Require Import Prelude Collections PoolTypes Externalities SidechainDb Durations SidechainState SidechainBlocks StfExecutor ParentchainImport BlockComposer ConsensusSample.
From S2P Require Import LightClient LightClientInv LightClientProps.

Open Scope worker_scope.
Local Open Scope nat_scope.

Inductive CryptoError :=
| InvalidNonceKeyLength
| CryptoIo (msg : string)
| CryptoCodec (msg : string)
| CryptoOther (msg : string).

(** ** The state key (aes.rs) *)

Record Aes := MkAes {
  aes_key : vec N 16;
  init_vec : vec N 16;
}.

(** The key stream of [Ofb<Aes128>] for a key and an initialisation vector. *)
Class OfbCipher := ofb_keystream : Bytes → Bytes → nat → Bytes.

(** A stream of bytes, of which a longer text uses more. *)
Class OfbLaws `{OfbCipher} := {
  keystream_length : ∀ k iv n, length (ofb_keystream k iv n) = n;
  keystream_prefix : ∀ k iv n m, (n ≤ m)%nat → take n (ofb_keystream k iv m) = ofb_keystream k iv n;
}.

Module AesCrypto.
Section aes.
Context `{OfbCipher}.

Definition AES_LEN : nat := 16.

(** [AesOfb::new_var]. *)
Definition try_from (aes : Aes) : result (Bytes * Bytes) CryptoError :=
  if bool_decide (length (vec_to_list (aes_key aes)) = AES_LEN ∧ length (vec_to_list (init_vec aes)) = AES_LEN)
  then Ok (vec_to_list (aes_key aes), vec_to_list (init_vec aes)) else Err InvalidNonceKeyLength.

Definition xor_bytes (a b : Bytes) : Bytes := zip_with N.lxor a b.

Definition de_or_encrypt (aes : Aes) (data : Bytes) : result Bytes CryptoError :=
  match try_from aes with
  | Err e => Err e
  | Ok (k, iv) => Ok (xor_bytes data (ofb_keystream k iv (length data)))
  end.

Definition in_words (r : result Bytes CryptoError) : result Bytes string :=
  match r with Ok b => Ok b | Err _ => Err "InvalidNonceKeyLength"%string end.

#[export] Instance aes_state_crypto : StateCrypto Aes := {|
  encrypt aes data := in_words (de_or_encrypt aes data);
  decrypt aes data := in_words (de_or_encrypt aes data);
|}.

Lemma de_or_encrypt_ok aes data :
  de_or_encrypt aes data =
  Ok (xor_bytes data (ofb_keystream (vec_to_list (aes_key aes)) (vec_to_list (init_vec aes)) (length data))).
Proof. unfold de_or_encrypt, try_from. by rewrite bool_decide_true by by rewrite !length_vec_to_list. Qed.

Lemma xor_length a b : length (xor_bytes a b) = length a `min` length b.
Proof. apply length_zip_with. Qed.

Lemma xor_twice a b : length a = length b → xor_bytes (xor_bytes a b) b = a.
Proof.
  revert b. induction a as [|x a IH]; intros [|y b]; cbn; [done..|]. intros [= Hl]. f_equal; [|by apply IH].
  by rewrite N.lxor_assoc, N.lxor_nilpotent, N.lxor_0_r.
Qed.

(** The cipher is what the other components rely on. *)
#[export] Instance aes_state_crypto_laws `{!OfbLaws} : StateCryptoLaws Aes.
Proof.
  split; cbn; setoid_rewrite de_or_encrypt_ok; cbn.
  - intros k b. by eexists.
  - intros k b c [= <-]. rewrite xor_length, keystream_length, Nat.min_id. by rewrite xor_twice by by rewrite keystream_length.
  - intros k b [= Hb%(f_equal length)]. rewrite xor_length, keystream_length, Nat.min_id in Hb. by destruct b.
Qed.

(** Whatever the key, the same stream encrypts everything. *)
Lemma keystream_cancels `{!OfbLaws} aes b1 b2 c1 c2 :
  encrypt aes b1 = Ok c1 → encrypt aes b2 = Ok c2 → xor_bytes c1 c2 = xor_bytes b1 b2.
Proof.
  cbn. rewrite !de_or_encrypt_ok. cbn. intros [= <-] [= <-].
  generalize (keystream_prefix (vec_to_list (aes_key aes)) (vec_to_list (init_vec aes))).
  generalize (keystream_length (vec_to_list (aes_key aes)) (vec_to_list (init_vec aes))).
  generalize (ofb_keystream (vec_to_list (aes_key aes)) (vec_to_list (init_vec aes))). intros ks Hlen Hpre.
  apply list_eq. intros i. unfold xor_bytes. rewrite !lookup_zip_with.
  destruct (b1 !! i) as [x|] eqn:Hx; cbn; [|done]. destruct (b2 !! i) as [y|] eqn:Hy; cbn; [|by destruct (ks (length b1) !! i)].
  apply lookup_lt_Some in Hx, Hy.
  assert (∀ m, i < m → ks m !! i = ks (S i) !! i) as Hk.
  { intros m Hm. rewrite <-(Hpre (S i) m) by lia. by rewrite lookup_take_lt by lia. }
  rewrite (Hk (length b1)), (Hk (length b2)) by done. destruct (ks (S i) !! i) as [z|] eqn:Hz; cbn.
  - assert (∀ u, N.lxor (N.lxor u z) (N.lxor y z) = N.lxor u y) as Hxor; [|by rewrite Hxor].
    intros u. by rewrite (N.lxor_comm y z), N.lxor_assoc, <-(N.lxor_assoc z z y), N.lxor_nilpotent, N.lxor_0_l.
  - apply lookup_ge_None in Hz. rewrite Hlen in Hz. lia.
Qed.
End aes.
End AesCrypto.

(** ** Sealed keys (aes.rs, rsa3072.rs, ed25519.rs) *)

(** [SealedIO] of a key. *)
Record SealedIo (Fs K : Type) := MkSealedIo {
  io_seal : Fs → K → Fs * result unit CryptoError;
  io_unseal : Fs → result K CryptoError;
}.
Arguments MkSealedIo {Fs K} _ _.
Arguments io_seal {Fs K} _ _ _.
Arguments io_unseal {Fs K} _ _.

(** The keys of the SGX SDK and of sp-core. *)
Class RsaKeys (Rsa RsaPub : Type) := {
  rsa_to_vec : Rsa → result Bytes string;
  rsa_from_slice : Bytes → result Rsa string;
  rsa_export_pubkey : Rsa → result RsaPub string;
}.

Class Ed25519Keys (Ed : Type) := {
  ed_seed : Ed → vec N 32;
  ed_from_seed_slice : Bytes → result Ed string;
}.

Class KeyLaws (Rsa RsaPub Ed : Type) `{RsaKeys Rsa RsaPub} `{Ed25519Keys Ed} := {
  rsa_json : ∀ k b, rsa_to_vec k = Ok b → rsa_from_slice b = Ok k;
  rsa_serializes : ∀ k, is_ok (rsa_to_vec k) = true;
  ed_from_seed : ∀ k, ed_from_seed_slice (vec_to_list (ed_seed k)) = Ok k;
  ed_any_seed : ∀ seed : vec N 32, is_ok (ed_from_seed_slice (vec_to_list seed)) = true;
}.

(** The repository (key_repository.rs): a key in memory with its file. *)
Record KeyRepository (Fs K : Type) := MkKeyRepository {
  key_lock : K;
  sealed_io : SealedIo Fs K;
}.
Arguments MkKeyRepository {Fs K} _ _.
Arguments key_lock {Fs K} _.
Arguments sealed_io {Fs K} _.

Module KeyRepo.
Section repository.
Context {Fs K : Type}.
Implicit Types (fs : Fs) (r : KeyRepository Fs K).

Definition retrieve_key r : result K CryptoError := Ok (key_lock r).

Definition update_key fs r (key : K) : Fs * KeyRepository Fs K * result unit CryptoError :=
  match io_seal (sealed_io r) fs key with
  | (fs, Err e) => (fs, r, Err e)
  | (fs, Ok _) =>
      match io_unseal (sealed_io r) fs with
      | Err e => (fs, r, Err e)
      | Ok key => (fs, MkKeyRepository key (sealed_io r), Ok tt)
      end
  end.
End repository.
End KeyRepo.

Module KeyFiles.
Section files.
Context {Fs : Type} `{SgxFiles Fs} `{Encode Aes, Decode Aes}.
Context {Rsa RsaPub Ed : Type} `{RsaKeys Rsa RsaPub} `{Ed25519Keys Ed}.
Implicit Types (fs : Fs) (base : Path).

Definition AES_KEY_FILE_AND_INIT_V : string := "aes_key_and_iv_sealed_data.bin".
Definition RSA3072_SEALED_KEY_FILE : string := "rsa3072_key_sealed.bin".
Definition SEALED_SIGNER_SEED_FILE : string := "ed25519_key_sealed.bin".

Definition aes_path base : Path := Seal.join base AES_KEY_FILE_AND_INIT_V.
Definition rsa_path base : Path := Seal.join base RSA3072_SEALED_KEY_FILE.
Definition ed_path base : Path := Seal.join base SEALED_SIGNER_SEED_FILE.

Definition seal_bytes fs (bytes : Bytes) (path : Path) : Fs * result unit CryptoError :=
  let '(fs, r) := Seal.sgx_seal fs bytes path in (fs, match r with Ok _ => Ok tt | Err e => Err (CryptoIo e) end).

Definition unseal_with {K} (from_bytes : Bytes → result K CryptoError) fs (path : Path) : result K CryptoError :=
  match Seal.sgx_unseal fs path with
  | Err e => Err (CryptoIo e)
  | Ok b => from_bytes b
  end.

Definition aes_seal base : SealedIo Fs Aes := MkSealedIo
  (λ fs k, seal_bytes fs (encode k) (aes_path base))
  (λ fs, unseal_with (λ b, match decode b with Ok k => Ok k | Err e => Err (CryptoCodec e) end) fs (aes_path base)).

Definition rsa_seal base : SealedIo Fs Rsa := MkSealedIo
  (λ fs k, match rsa_to_vec k with Err e => (fs, Err (CryptoOther e)) | Ok key_json => seal_bytes fs key_json (rsa_path base) end)
  (λ fs, unseal_with (λ b, match rsa_from_slice b with Ok k => Ok k | Err e => Err (CryptoOther e) end) fs (rsa_path base)).

Definition ed_seal base : SealedIo Fs Ed := MkSealedIo
  (λ fs k, seal_bytes fs (vec_to_list (ed_seed k)) (ed_path base))
  (λ fs, unseal_with (λ b, match ed_from_seed_slice b with Ok k => Ok k | Err e => Err (CryptoOther e) end) fs (ed_path base)).

(** What the random numbers give, if they can be had. *)
Definition aes_create_sealed (rand : result (vec N 16 * vec N 16) string) fs base : Fs * result unit CryptoError :=
  match rand with
  | Err e => (fs, Err (CryptoIo e))
  | Ok (k, iv) => io_seal (aes_seal base) fs (MkAes k iv)
  end.

(** The new key is only logged if its public part can be exported. *)
Definition rsa_create_sealed (new_pair : result Rsa string) fs base : Fs * result unit CryptoError :=
  match new_pair with
  | Err e => (fs, Err (CryptoOther e))
  | Ok k => match rsa_export_pubkey k with Err e => (fs, Err (CryptoOther e)) | Ok _ => io_seal (rsa_seal base) fs k end
  end.

Definition ed_create_sealed (rand : result (vec N 32) string) fs base : Fs * result unit CryptoError :=
  match rand with
  | Err e => (fs, Err (CryptoIo e))
  | Ok seed => seal_bytes fs (vec_to_list seed) (ed_path base)
  end.

Definition aes_exists fs base : bool := is_ok (sgx_open fs (aes_path base)).
Definition rsa_exists fs base : bool := fs_exists fs (rsa_path base).
Definition ed_exists fs base : bool := fs_exists fs (ed_path base).

(** The common shape of [get_aes_repository] and its siblings. *)
Definition get_repository {K} (io : SealedIo Fs K) (present : bool) (create_sealed : Fs * result unit CryptoError) fs :
    Fs * result (KeyRepository Fs K) CryptoError :=
  match if present then (fs, Ok tt) else create_sealed with
  | (fs, Err e) => (fs, Err e)
  | (fs, Ok _) =>
      (fs, match io_unseal io fs with Ok k => Ok (MkKeyRepository k io) | Err e => Err e end)
  end.

Definition get_aes_repository rand fs base : Fs * result (KeyRepository Fs Aes) CryptoError :=
  get_repository (aes_seal base) (aes_exists fs base) (aes_create_sealed rand fs base) fs.

Definition get_rsa3072_repository new_pair fs base : Fs * result (KeyRepository Fs Rsa) CryptoError :=
  get_repository (rsa_seal base) (rsa_exists fs base) (rsa_create_sealed new_pair fs base) fs.

Definition get_ed25519_repository rand fs base : Fs * result (KeyRepository Fs Ed) CryptoError :=
  get_repository (ed_seal base) (ed_exists fs base) (ed_create_sealed rand fs base) fs.
End files.
End KeyFiles.

(** ** Keys and restarts *)

Inductive KeyOp (K R : Type) :=
| UpdateKey (key : K)
| Restart (fresh : R).
Arguments UpdateKey {K R} key.
Arguments Restart {K R} fresh.

Module KeyInv.
Import KeyRepo KeyFiles.

Section restarts.
Context {Fs K R : Type} (io : SealedIo Fs K) (present : Fs → bool).
Implicit Types (fs : Fs) (r : KeyRepository Fs K).

(** The repository is opened with [reopen], which may be given new random numbers. *)
Context (reopen : R → Fs → Fs * result (KeyRepository Fs K) CryptoError).

Fixpoint run_key_ops fs r (ops : list (KeyOp K R)) : Fs * result (KeyRepository Fs K) CryptoError :=
  match ops with
  | [] => (fs, Ok r)
  | UpdateKey key :: ops =>
      match update_key fs r key with
      | (fs, r, Ok _) => run_key_ops fs r ops
      | (fs, r, Err e) => (fs, Err e)
      end
  | Restart fresh :: ops =>
      match reopen fresh fs with
      | (fs, Ok r) => run_key_ops fs r ops
      | (fs, Err e) => (fs, Err e)
      end
  end.

Definition current_key (ops : list (KeyOp K R)) (k : K) : K :=
  foldl (λ k op, match op with UpdateKey key => key | Restart _ => k end) k ops.

(** What a kind of sealed key provides. *)
Record sealed_key_ok : Prop := {
  sealed_round_trip : ∀ fs k fs', io_seal io fs k = (fs', Ok tt) → io_unseal io fs' = Ok k;
  sealed_writes : ∀ fs k, is_ok (io_seal io fs k).2 = true;
  sealed_present : ∀ fs k, io_unseal io fs = Ok k → present fs = true;
  sealed_reopen : ∀ fresh fs, present fs = true →
    reopen fresh fs = (fs, match io_unseal io fs with Ok k => Ok (MkKeyRepository k io) | Err e => Err e end);
}.

Definition key_inv fs r : Prop := sealed_io r = io ∧ io_unseal io fs = Ok (key_lock r).

Lemma run_key_ops_spec fs r ops :
  sealed_key_ok → key_inv fs r →
  ∃ fs' r', run_key_ops fs r ops = (fs', Ok r') ∧ key_inv fs' r' ∧ retrieve_key r' = Ok (current_key ops (key_lock r)).
Proof.
  intros Hio. revert fs r. induction ops as [|[key|fresh] ops IH]; intros fs r [Hr Hun]; cbn [run_key_ops].
  - exists fs, r. done.
  - unfold update_key. rewrite Hr. pose proof (sealed_writes Hio fs key) as Hw.
    destruct (io_seal io fs key) as [fs1 [[]|e]] eqn:Hs; [|done]. rewrite (sealed_round_trip Hio _ _ _ Hs).
    destruct (IH fs1 (MkKeyRepository key io)) as (fs' & r' & Hrun & Hinv & Hk); [split; [done|by apply (sealed_round_trip Hio fs)]|].
    exists fs', r'. split; [exact Hrun|]. split; [done|exact Hk].
  - rewrite (sealed_reopen Hio) by (by eapply sealed_present). rewrite Hun.
    destruct (IH fs (MkKeyRepository (key_lock r) io)) as (fs' & r' & Hrun & Hinv & Hk); [by split|].
    exists fs', r'. split; [exact Hrun|]. split; [done|exact Hk].
Qed.
End restarts.

Section keys.
Context {Fs : Type} `{SgxFilesLaws Fs} `{Codec Aes} {Rsa RsaPub Ed : Type} `{KeyLaws Rsa RsaPub Ed}.
Implicit Types (fs : Fs) (base : Path).

(** The disk takes what is written. *)
Definition disk_writable : Prop := ∀ fs b p, is_ok (Seal.sgx_seal fs b p).2 = true.

Lemma seal_bytes_ok fs b p fs' : seal_bytes fs b p = (fs', Ok tt) → Seal.sgx_unseal fs' p = Ok b.
Proof.
  unfold seal_bytes. destruct (Seal.sgx_seal fs b p) as [fs1 [[]|e]] eqn:Hs; [|done]. intros [= <-].
  apply read_content. by apply (SealInv.sgx_seal_spec _ _ _ _ _ Hs).
Qed.

Lemma seal_bytes_writes fs b p : disk_writable → is_ok (seal_bytes fs b p).2 = true.
Proof. intros Hd. unfold seal_bytes. specialize (Hd fs b p). by destruct (Seal.sgx_seal fs b p) as [fs1 [[]|e]]. Qed.

Lemma unseal_with_ok {K} (f : Bytes → result K CryptoError) fs p k :
  unseal_with f fs p = Ok k → fs_exists fs p = true ∧ is_ok (sgx_open fs p) = true.
Proof.
  unfold unseal_with. destruct (Seal.sgx_unseal fs p) as [b|e] eqn:Hu; [|done]. intros _. split.
  - apply exists_content. apply read_content in Hu. by rewrite Hu.
  - unfold Seal.sgx_unseal in Hu. by destruct (sgx_open fs p).
Qed.

Lemma aes_sealed base : disk_writable → sealed_key_ok (aes_seal base) (λ fs, aes_exists fs base) (λ rand fs, get_aes_repository rand fs base).
Proof.
  intros Hd. split; cbn.
  - intros fs k fs' Hs%seal_bytes_ok. unfold unseal_with. by rewrite Hs, decode_encode.
  - intros fs k. by apply seal_bytes_writes.
  - intros fs k Hu. by eapply unseal_with_ok.
  - intros fresh fs Hp. unfold get_aes_repository, get_repository. by rewrite Hp.
Qed.

Lemma rsa_sealed base :
  disk_writable → sealed_key_ok (rsa_seal base) (λ fs, rsa_exists fs base) (λ new_pair fs, get_rsa3072_repository new_pair fs base).
Proof.
  intros Hd. split; cbn.
  - intros fs k fs'. destruct (rsa_to_vec k) as [b|e] eqn:Hk; [|done]. intros Hs%seal_bytes_ok. unfold unseal_with. by rewrite Hs, (rsa_json k b Hk).
  - intros fs k. pose proof (rsa_serializes k) as Hk. destruct (rsa_to_vec k); [|done]. by apply seal_bytes_writes.
  - intros fs k Hu. by eapply unseal_with_ok.
  - intros fresh fs Hp. unfold get_rsa3072_repository, get_repository. by rewrite Hp.
Qed.

Lemma ed_sealed base :
  disk_writable → sealed_key_ok (ed_seal base) (λ fs, ed_exists fs base) (λ rand fs, get_ed25519_repository (Ed := Ed) rand fs base).
Proof.
  intros Hd. split; cbn.
  - intros fs k fs' Hs%seal_bytes_ok. unfold unseal_with. by rewrite Hs, ed_from_seed.
  - intros fs k. by apply seal_bytes_writes.
  - intros fs k Hu. by eapply unseal_with_ok.
  - intros fresh fs Hp. unfold get_ed25519_repository, get_repository. by rewrite Hp.
Qed.

Lemma opened_inv {K} (io : SealedIo Fs K) (b : bool) created fs fs1 r : get_repository io b created fs = (fs1, Ok r) → key_inv io fs1 r.
Proof.
  unfold get_repository. destruct (if b then _ else _) as [fs2 [u|e]]; [|done]. destruct (io_unseal io fs2) as [k|e] eqn:Hu; [|done].
  intros [= <- <-]. done.
Qed.

(** C19: A key lives on through updates and restarts: as long as the disk takes what is
    written, a repository that was opened holds the last key it was given, or the one
    it was opened with, however often the enclave restarts, and no restart makes a new
    key. *)
Theorem keys_outlive_the_enclave base :
  disk_writable →
  (∀ rand fs fs1 r ops, get_aes_repository rand fs base = (fs1, Ok r) →
    ∃ fs' r', run_key_ops (λ rand fs, get_aes_repository rand fs base) fs1 r ops = (fs', Ok r') ∧
      retrieve_key r' = Ok (current_key ops (key_lock r))) ∧
  (∀ new_pair fs fs1 (r : KeyRepository Fs Rsa) ops, get_rsa3072_repository new_pair fs base = (fs1, Ok r) →
    ∃ fs' r', run_key_ops (λ new_pair fs, get_rsa3072_repository new_pair fs base) fs1 r ops = (fs', Ok r') ∧
      retrieve_key r' = Ok (current_key ops (key_lock r))) ∧
  (∀ rand fs fs1 (r : KeyRepository Fs Ed) ops, get_ed25519_repository rand fs base = (fs1, Ok r) →
    ∃ fs' r', run_key_ops (λ rand fs, get_ed25519_repository rand fs base) fs1 r ops = (fs', Ok r') ∧
      retrieve_key r' = Ok (current_key ops (key_lock r))).
Proof.
  intros Hd. split_and!; intros fresh fs fs1 r ops Hr%opened_inv.
  - destruct (run_key_ops_spec _ _ _ fs1 r ops (aes_sealed base Hd) Hr) as (fs' & r' & ? & _ & ?). by exists fs', r'.
  - destruct (run_key_ops_spec _ _ _ fs1 r ops (rsa_sealed base Hd) Hr) as (fs' & r' & ? & _ & ?). by exists fs', r'.
  - destruct (run_key_ops_spec _ _ _ fs1 r ops (ed_sealed base Hd) Hr) as (fs' & r' & ? & _ & ?). by exists fs', r'.
Qed.

(** A sealed state key that is there but cannot be opened counts as absent: the next
    start overwrites it with a new key.  The other keys report the error and stay. *)
Theorem unreadable_state_key_is_replaced base fs e k iv :
  sgx_open fs (aes_path base) = Err e → fs_exists fs (rsa_path base) = true → sgx_open fs (rsa_path base) = Err e →
  is_ok (Seal.sgx_seal fs (encode (MkAes k iv)) (aes_path base)).2 = true →
  (∃ fs' r, get_aes_repository (Ok (k, iv)) fs base = (fs', Ok r) ∧ key_lock r = MkAes k iv ∧
    content fs' (aes_path base) = Sealed (encode (MkAes k iv))) ∧
  (∀ new_pair, get_rsa3072_repository (Rsa := Rsa) new_pair fs base = (fs, Err (CryptoIo e))).
Proof.
  intros Hopen Hex Hrsa Hw. split.
  - unfold get_aes_repository, get_repository, aes_exists. rewrite Hopen. cbn. unfold seal_bytes.
    destruct (Seal.sgx_seal fs (encode (MkAes k iv)) (aes_path base)) as [fs1 [[]|e1]] eqn:Hs; [|done].
    pose proof (proj2 (SealInv.sgx_seal_spec _ _ _ _ _ Hs) eq_refl) as Hc. exists fs1. unfold unseal_with.
    rewrite (proj2 (read_content fs1 _ _) Hc), decode_encode. by eexists.
  - intros new_pair. unfold get_rsa3072_repository, get_repository, rsa_exists. rewrite Hex. cbn. unfold unseal_with, Seal.sgx_unseal.
    by rewrite Hrsa.
Qed.
End keys.

Section leak.
Import AesCrypto.
Context `{OfbLaws} `{Encode SgxExternalitiesType} `{Blake2} `{EncodeAppend} `{Twox}.
Context `{Encode Z, Decode Z} `{Encode N, Decode N}.
Context `{Encode Sc.SidechainHeader} `{Encode Sc.BlockData} `{Encode Sc.Block, Decode Sc.Block} `{Encode StateUpdate}.
Context {Pair PH : Type} `{SignatureScheme Pair} `{ParentchainHeader PH}.

(** Every block is encrypted with the same key stream, so anyone can combine the
    public state updates of two blocks into the combination of their plain texts,
    without the key. *)
Theorem blocks_share_a_keystream (signer : Pair) (key : Aes) now1 now2 (head1 head2 : PH) hashes1 hashes2 s1 s2 h1 h2 st1 st2 b1 b2 :
  Composer.compose_block signer (Ok key) now1 head1 hashes1 s1 h1 st1 = Ok b1 →
  Composer.compose_block signer (Ok key) now2 head2 hashes2 s2 h2 st2 = Ok b2 →
  AesCrypto.xor_bytes (Sc.encrypted_state_diff (Sc.block_data (Sc.block b1))) (Sc.encrypted_state_diff (Sc.block_data (Sc.block b2))) =
  AesCrypto.xor_bytes (encode (MkStateUpdate h1 (Ext.hash st1) (Ext.state_diff st1))) (encode (MkStateUpdate h2 (Ext.hash st2) (Ext.state_diff st2))).
Proof.
  assert (∀ now (hd : PH) hashes s h st b, Composer.compose_block signer (Ok key) now hd hashes s h st = Ok b →
    encrypt key (encode (MkStateUpdate h (Ext.hash st) (Ext.state_diff st))) = Ok (Sc.encrypted_state_diff (Sc.block_data (Sc.block b)))) as Hblock.
  { intros now hd hashes s h st b. unfold Composer.compose_block.
    destruct (match ScState.get_last_block (SidechainBlock := Sc.Block) st with Some b => _ | None => _ end) as [[n ph] nf].
    case_decide; [|done]. destruct (encrypt key _) as [c|e] eqn:Hc; [|done]. by intros [= <-]. }
  intros Hb1 Hb2. eapply AesCrypto.keystream_cancels; by eapply Hblock.
Qed.
End leak.
End KeyInv.

(** ** Witnesses *)

Module KeySample.
(** A disk without failures. *)
Abbreviation Disk := (gmap string FileContent).
Definition on_disk (d : Disk) (p : Path) : FileContent := default Absent (d !! p).

#[export] Instance disk_files : SgxFiles Disk := {|
  fs_exists d p := match on_disk d p with Absent => false | _ => true end;
  fs_open d p := match on_disk d p with Absent => Err "absent"%string | _ => Ok tt end;
  fs_copy d p q := match on_disk d p with Absent => (d, Err "absent"%string) | c => (<[q := c]> d, Ok tt) end;
  sgx_create d p := (<[p := Torn]> d, Ok tt);
  sgx_write_all d p b := (<[p := Sealed b]> d, Ok tt);
  sgx_open d p := match on_disk d p with Sealed _ => Ok tt | _ => Err "open"%string end;
  sgx_read_to_end d p := match on_disk d p with Sealed b => Ok b | _ => Err "read"%string end;
|}.

Lemma on_disk_insert d p c x : on_disk (<[p := c]> d) x = if decide (p = x) then c else on_disk d x.
Proof. unfold on_disk. rewrite lookup_insert. by case_decide. Qed.

#[export] Instance disk_files_laws : SgxFilesLaws Disk.
Proof.
  refine {| content := on_disk |}; cbn.
  - intros fs p. by destruct (on_disk fs p).
  - intros fs p. by destruct (on_disk fs p).
  - intros fs p q Hp. exists (<[q := on_disk fs p]> fs). split_and!; [by destruct (on_disk fs p)|by rewrite on_disk_insert, decide_True|].
    intros x Hx. by rewrite on_disk_insert, decide_False.
  - intros fs p q ->. by eexists.
  - intros fs p x Hx. by rewrite on_disk_insert, decide_False.
  - intros fs p b x Hx. by rewrite on_disk_insert, decide_False.
  - intros fs p b fs1 fs2 [= <-] [= <-]. by rewrite on_disk_insert, decide_True.
  - intros fs p b. unfold Seal.sgx_unseal. cbn. destruct (on_disk fs p); cbn; by (split; intros [= ->] || split).
Defined.

Lemma disk_is_writable : KeyInv.disk_writable (Fs := Disk).
Proof. done. Qed.

(** An AES key is its bytes; an RSA key is a number and an Ed25519 key is its seed. *)
#[export] Instance enc_aes : Encode Aes := λ k, vec_to_list (aes_key k) ++ vec_to_list (init_vec k).
Definition array (n : nat) (b : Bytes) : option (vec N n) :=
  match decide (length b = n) with left H => Some (eq_rect _ _ (list_to_vec b) _ H) | right _ => None end.
#[export] Instance dec_aes : Decode Aes := λ b,
  match array 16 (take 16 b), array 16 (drop 16 b) with
  | Some k, Some iv => Ok (MkAes k iv)
  | _, _ => Err "length"%string
  end.

Lemma array_vec {n} (v : vec N n) : array n (vec_to_list v) = Some v.
Proof.
  unfold array. destruct (decide _) as [Hl|Hn]; [|by rewrite length_vec_to_list in Hn]. f_equal. apply vec_to_list_inj2.
  by destruct Hl; cbn; rewrite vec_to_list_to_vec.
Qed.

#[export] Instance codec_aes : Codec Aes.
Proof.
  split. intros [k iv]. unfold decode, dec_aes, encode, enc_aes. cbn [aes_key init_vec].
  rewrite take_app_length', drop_app_length' by (by rewrite length_vec_to_list). by rewrite !array_vec.
Qed.

#[export] Instance rsa_numbers : RsaKeys N N := {| rsa_to_vec k := Ok [k]; rsa_from_slice b := match b with [k] => Ok k | _ => Err "json"%string end; rsa_export_pubkey k := Ok k |}.
#[export] Instance ed_seeds : Ed25519Keys (vec N 32) := {|
  ed_seed k := k;
  ed_from_seed_slice b := match array 32 b with Some k => Ok k | None => Err "seed"%string end;
|}.
#[export] Instance key_laws : KeyLaws N N (vec N 32).
Proof. split; [by intros k b [= <-]|done| |]; intros k; cbn; by rewrite array_vec. Qed.

#[export] Instance counting_stream : OfbCipher := λ k iv n, (λ i, N.of_nat i + default 0 (head k))%N <$> seq 0 n.
#[export] Instance counting_laws : OfbLaws.
Proof.
  split; unfold ofb_keystream, counting_stream; intros k iv n; [by rewrite length_fmap, length_seq|].
  intros m Hnm. rewrite <-fmap_take. by rewrite take_seq, Nat.min_l.
Qed.

Definition key (n : N) : Aes := MkAes (vreplicate 16 n) (vreplicate 16 0%N).
End KeySample.

Section witnesses.
Import KeyRepo KeyFiles KeyInv KeySample.

(** A state key, updated and then kept through two restarts. *)
Lemma keys_outlive_the_enclave_witness :
  ∃ d r d' r', get_aes_repository (Ok (vreplicate 16 1%N, vreplicate 16 2%N)) (∅ : Disk) "dir" = (d, Ok r) ∧
    run_key_ops (λ rand fs, get_aes_repository rand fs "dir") d r [Restart (Err "rng"%string); UpdateKey (key 7); Restart (Err "rng"%string)] = (d', Ok r') ∧
    retrieve_key r' = Ok (key 7).
Proof.
  assert (is_ok (get_aes_repository (Ok (vreplicate 16 1%N, vreplicate 16 2%N)) (∅ : Disk) "dir").2 = true) as Hok by (vm_compute; reflexivity).
  destruct (get_aes_repository (Ok (vreplicate 16 1%N, vreplicate 16 2%N)) (∅ : Disk) "dir") as [d [r|e]] eqn:Hr; [|discriminate Hok].
  destruct (keys_outlive_the_enclave (Rsa := N) (RsaPub := N) (Ed := vec N 32) "dir" disk_is_writable) as [Haes _].
  destruct (Haes _ _ _ _ [Restart (Err "rng"%string); UpdateKey (key 7); Restart (Err "rng"%string)] Hr) as (d' & r' & Hrun & Hk).
  exists d, r, d', r'. split; [reflexivity|]. split; [exact Hrun|exact Hk].
Defined.

Definition damaged : Disk := {[ aes_path "dir" := Torn; rsa_path "dir" := Torn ]}.

Lemma unreadable_state_key_is_replaced_witness :
  ∃ d' r, get_aes_repository (Ok (vreplicate 16 1%N, vreplicate 16 2%N)) damaged "dir" = (d', Ok r) ∧
    key_lock r = MkAes (vreplicate 16 1%N) (vreplicate 16 2%N).
Proof.
  destruct (unreadable_state_key_is_replaced (Rsa := N) (RsaPub := N) "dir" damaged "open" (vreplicate 16 1%N) (vreplicate 16 2%N))
    as [(d' & r & Hg & Hk & _) _]; [reflexivity..|].
  exists d', r. split; [exact Hg|exact Hk].
Defined.
End witnesses.

Section leak_witness.
Import AesCrypto KeyInv KeySample Sample.
#[local] Existing Instance listed_order.

Definition numbered (v : N) : Ext.SgxExternalities := SpIo.set (ScState.set_block_number (Ext.new ∅) 1%Z) [v] [v].
Definition composed (v : N) : result Sc.SignedBlock string :=
  Composer.compose_block 5%N (Ok (key 3)) 0%Z 0%N [] 0%N 0%N (numbered v).
Definition composed_block (v : N) : Sc.SignedBlock :=
  match composed v with Ok b => b | Err _ => Sc.MkSignedBlock (Sc.MkBlock (Sc.MkHeader 0 0 0 0 0) (Sc.MkBlockData 0 0 0 [] [])) [] end.

Lemma composes v : is_ok (composed v) = true → composed v = Ok (composed_block v).
Proof. unfold composed_block. by destruct (composed v). Qed.

Lemma blocks_share_a_keystream_witness :
  xor_bytes (Sc.encrypted_state_diff (Sc.block_data (Sc.block (composed_block 8)))) (Sc.encrypted_state_diff (Sc.block_data (Sc.block (composed_block 9)))) =
  xor_bytes (encode (MkStateUpdate 0%N (Ext.hash (numbered 8)) (Ext.state_diff (numbered 8)))) (encode (MkStateUpdate 0%N (Ext.hash (numbered 9)) (Ext.state_diff (numbered 9)))).
Proof.
  apply (blocks_share_a_keystream 5%N (key 3) 0%Z 0%Z 0%N 0%N [] [] 0%N 0%N 0%N 0%N (numbered 8) (numbered 9)); by apply composes.
Defined.
End leak_witness.
