(* ===== verification/Provisioning.v ===== *)
(** State provisioning: how a worker that joins a shard gets the keys, the state and
    the light client state from a worker that has them
    (src/enclave-runtime/src/tls_ra/{mod,seal_handler,authentication,tls_ra_server,
    tls_ra_client}.rs).

    TLS and the check of certificates are external; the keys, the states and the
    sealed light client are those of the other files. *)

From stdpp Require Import base gmap numbers strings list vector.
From S2P Require Import Prelude Collections PoolTypes Externalities SidechainDb StfTypes StateFileIo StateHandler StfExecutor ConsensusSample LightClient LightClientInv ParentchainClient Keys.

Import Ext(SgxExternalities).
Open Scope worker_scope.
Local Open Scope nat_scope.

(** ** Messages (mod.rs) *)

Inductive Opcode := OpShieldingKey | OpStateKey | OpState | OpLightClient.

#[export] Instance opcode_eq_dec : EqDecision Opcode.
Proof. solve_decision. Defined.

Record TcpHeader := MkTcpHeader {
  opcode : Opcode;
  payload_length : Z;
}.

Record ClientProvisioningRequest := MkProvisioningRequest {
  request_shard : ShardIdentifier;
  request_account : AccountId;
}.

Inductive EnclaveError :=
| EnIo (msg : string)
| EnCrypto (e : CryptoError)
| EnStateHandler (e : StateHandlerError)
| EnLightClient (e : LightClientError)
| EnCodec (msg : string)
| EnOther (msg : string).

Module Wire.

(** [From<u8>]: any other byte is [unimplemented!]. *)
Definition opcode_from (item : N) : outcome Opcode :=
  match item with
  | 0 => Ret OpShieldingKey
  | 1 => Ret OpStateKey
  | 2 => Ret OpState
  | 3 => Ret OpLightClient
  | _ => Panic
  end%N.

Definition to_bytes (o : Opcode) : Bytes :=
  match o with OpShieldingKey => [0] | OpStateKey => [1] | OpState => [2] | OpLightClient => [3] end%N.

(** [u64::to_be_bytes] and [u64::from_be_bytes]. *)
Definition to_be_bytes (n : Z) : Bytes :=
  (λ i, Z.to_N (Z.land (Z.shiftr n (8 * i)) 255)) <$> [7; 6; 5; 4; 3; 2; 1; 0]%Z.
Definition from_be_bytes (b : Bytes) : Z := foldl (λ acc x, acc * 256 + Z.of_N x)%Z 0%Z b.

Lemma be_round_trip n : (0 ≤ n < 2 ^ 64)%Z → from_be_bytes (to_be_bytes n) = n.
Proof.
  intros Hn. unfold from_be_bytes, to_be_bytes. cbn [fmap list_fmap foldl].
  change 255%Z with (Z.ones 8). rewrite !Z.land_ones, !Z.shiftr_div_pow2 by lia.
  rewrite !Z2N.id by (apply Z.mod_pos_bound; lia).
  change (2 ^ 8)%Z with 256%Z. change (2 ^ (8 * 0))%Z with 1%Z. change (2 ^ (8 * 1))%Z with 256%Z.
  change (2 ^ (8 * 2))%Z with 65536%Z. change (2 ^ (8 * 3))%Z with 16777216%Z. change (2 ^ (8 * 4))%Z with 4294967296%Z.
  change (2 ^ (8 * 5))%Z with 1099511627776%Z. change (2 ^ (8 * 6))%Z with 281474976710656%Z. change (2 ^ (8 * 7))%Z with 72057594037927936%Z.
  change (2 ^ 64)%Z with 18446744073709551616%Z in Hn. Z.div_mod_to_equations. lia.
Qed.

Lemma be_length n : length (to_be_bytes n) = 8.
Proof. done. Qed.

(** A header and its payload. *)
Definition message (o : Opcode) (bytes : Bytes) : Bytes := to_bytes o ++ to_be_bytes (Z.of_nat (length bytes)) ++ bytes.
End Wire.

(** ** The stream *)

(** What is still to be read, what was written, and how many bytes the other side
    takes before the connection breaks. *)
Record TlsStream := MkTls {
  incoming : Bytes;
  outgoing : Bytes;
  capacity : nat;
}.

Module Tls.
Implicit Types t : TlsStream.

(** [read] into a buffer of one byte: [None] at the end of the stream. *)
Definition read_byte t : TlsStream * option N :=
  match incoming t with
  | [] => (t, None)
  | b :: rest => (MkTls rest (outgoing t) (capacity t), Some b)
  end.

Definition read_exact t (n : nat) : TlsStream * result Bytes string :=
  if bool_decide (n ≤ length (incoming t))
  then (MkTls (drop n (incoming t)) (outgoing t) (capacity t), Ok (take n (incoming t)))
  else (MkTls [] (outgoing t) (capacity t), Err "failed to fill whole buffer"%string).

Definition write_all t (bytes : Bytes) : TlsStream * result unit string :=
  let sent := outgoing t ++ bytes in
  (MkTls (incoming t) (take (capacity t) sent) (capacity t),
   if bool_decide (length sent ≤ capacity t) then Ok tt else Err "broken pipe"%string).
End Tls.

(** ** Keys and states (seal_handler.rs) *)

Class SealStateAndKeys (SH : Type) := {
  seal_shielding_key : SH → Bytes → SH * result unit EnclaveError;
  seal_state_key : SH → Bytes → SH * result unit EnclaveError;
  seal_state : StateId → SH → Bytes → ShardIdentifier → outcome (SH * result unit EnclaveError);
  seal_new_empty_state : StateId → SH → ShardIdentifier → outcome (SH * result unit EnclaveError);
  seal_light_client_state : SH → Bytes → SH * result unit EnclaveError;
}.

Class UnsealStateAndKeys (SH : Type) := {
  unseal_shielding_key : SH → result Bytes EnclaveError;
  unseal_state_key : SH → result Bytes EnclaveError;
  unseal_state : SH → ShardIdentifier → result Bytes EnclaveError;
  unseal_light_client_state : SH → SH * result Bytes EnclaveError;
}.

(** ** The server (tls_ra_server.rs) *)

Inductive ProvisioningPayload := Everything | ShieldingKeyAndLightClient.

Module TlsServer.
Import Wire Tls.

Section server.
Context {SH X : Type} `{UnsealStateAndKeys SH} `{Decode ClientProvisioningRequest}.
(** [add_shard_vault_proxy] on the parentchain. *)
Context (add_shard_vault_proxy : X → ShardIdentifier → AccountId → X * result unit string).
Implicit Types (t : TlsStream) (sh : SH) (x : X).

Definition payload_of (m : WorkerMode) : ProvisioningPayload :=
  match m with Teeracle => ShieldingKeyAndLightClient | OffChainWorker => Everything | SidechainMode => Everything end.

Definition in_io {A} (r : TlsStream * result A string) : TlsStream * result A EnclaveError :=
  (r.1, match r.2 with Ok a => Ok a | Err e => Err (EnIo e) end).

Definition write_header t (h : TcpHeader) : TlsStream * result unit EnclaveError :=
  match in_io (write_all t (to_bytes (opcode h))) with
  | (t, Err e) => (t, Err e)
  | (t, Ok _) => in_io (write_all t (to_be_bytes (payload_length h)))
  end.

Definition write t (o : Opcode) (bytes : Bytes) : TlsStream * result unit EnclaveError :=
  match write_header t (MkTcpHeader o (u64_wrap (Z.of_nat (length bytes)))) with
  | (t, Err e) => (t, Err e)
  | (t, Ok _) => in_io (write_all t bytes)
  end.

Definition write_unsealed t sh (o : Opcode) (unsealed : result Bytes EnclaveError) : TlsStream * SH * result unit EnclaveError :=
  match unsealed with
  | Err e => (t, sh, Err e)
  | Ok bytes => let '(t, r) := write t o bytes in (t, sh, r)
  end.

Definition write_shielding_key t sh := write_unsealed t sh OpShieldingKey (unseal_shielding_key sh).
Definition write_state_key t sh := write_unsealed t sh OpStateKey (unseal_state_key sh).
Definition write_state t sh (shard : ShardIdentifier) := write_unsealed t sh OpState (unseal_state sh shard).
Definition write_light_client_state t sh := let '(sh, r) := unseal_light_client_state sh in write_unsealed t sh OpLightClient r.

Definition and_then (r : TlsStream * SH * result unit EnclaveError)
    (k : TlsStream → SH → TlsStream * SH * result unit EnclaveError) : TlsStream * SH * result unit EnclaveError :=
  match r with
  | (t, sh, Err e) => (t, sh, Err e)
  | (t, sh, Ok _) => k t sh
  end.

Definition write_provisioning_payloads (p : ProvisioningPayload) t sh (shard : ShardIdentifier) : TlsStream * SH * result unit EnclaveError :=
  match p with
  | Everything =>
      and_then (write_shielding_key t sh) (λ t sh,
      and_then (write_state_key t sh) (λ t sh,
      and_then (write_state t sh shard) write_light_client_state))
  | ShieldingKeyAndLightClient => and_then (write_shielding_key t sh) write_light_client_state
  end.

(** [size_of::<ClientProvisioningRequest>()]: two arrays of 32 bytes. *)
Definition REQUEST_SIZE : nat := 64.

Definition await_shard_request_from_client t : TlsStream * result ClientProvisioningRequest EnclaveError :=
  match in_io (read_exact t REQUEST_SIZE) with
  | (t, Err e) => (t, Err e)
  | (t, Ok request) =>
      (t, match decode request with Ok r => Ok r | Err _ => Err (EnOther "matching byte size can't fail to decode") end)
  end.

(** That the proxy cannot be added is only logged. *)
Definition handle_shard_request_from_client (p : ProvisioningPayload) t sh x : TlsStream * SH * X * result unit EnclaveError :=
  match await_shard_request_from_client t with
  | (t, Err e) => (t, sh, x, Err e)
  | (t, Ok request) =>
      match write_provisioning_payloads p t sh (request_shard request) with
      | (t, sh, Err e) => (t, sh, x, Err e)
      | (t, sh, Ok _) => (t, sh, (add_shard_vault_proxy x (request_shard request) (request_account request)).1, Ok tt)
      end
  end.

(** [run_state_provisioning_server_internal] once the TLS session is there. *)
Definition run_state_provisioning_server (mode : WorkerMode) t sh x : TlsStream * SH * X * result unit EnclaveError :=
  handle_shard_request_from_client (payload_of mode) t sh x.
End server.
End TlsServer.

(** ** The client (tls_ra_client.rs) *)

Module TlsClient.
Import Wire Tls.

Section client.
Context {SH : Type} `{SealStateAndKeys SH} `{Encode ClientProvisioningRequest}.
(** The time of the [n]-th message. *)
Context (clock : nat → StateId).
Implicit Types (t : TlsStream) (sh : SH) (shard : ShardIdentifier).

Definition in_io {A} (r : TlsStream * result A string) : TlsStream * result A EnclaveError :=
  (r.1, match r.2 with Ok a => Ok a | Err e => Err (EnIo e) end).

Definition send_provisioning_request t shard (account : AccountId) : TlsStream * result unit EnclaveError :=
  in_io (write_all t (encode (MkProvisioningRequest shard account))).

Definition read_header t (start_byte : N) : outcome (TlsStream * result TcpHeader EnclaveError) :=
  opcode_from start_byte ≫= λ o,
  let '(t, r) := in_io (read_exact t 8) in
  Ret (t, match r with Ok b => Ok (MkTcpHeader o (from_be_bytes b)) | Err e => Err e end).

Definition read_until t (len : Z) : TlsStream * result Bytes EnclaveError := in_io (read_exact t (Z.to_nat len)).

Definition seal_payload now sh shard (o : Opcode) (bytes : Bytes) : outcome (SH * result unit EnclaveError) :=
  match o with
  | OpShieldingKey => Ret (seal_shielding_key sh bytes)
  | OpStateKey => Ret (seal_state_key sh bytes)
  | OpState => seal_state now sh bytes shard
  | OpLightClient => Ret (seal_light_client_state sh bytes)
  end.

Definition read_and_seal now t sh shard : outcome (TlsStream * SH * result (option Opcode) EnclaveError) :=
  match read_byte t with
  | (t, None) => Ret (t, sh, Ok None)
  | (t, Some start_byte) =>
      read_header t start_byte ≫= λ '(t, r),
      match r with
      | Err e => Ret (t, sh, Err e)
      | Ok header =>
          match read_until t (payload_length header) with
          | (t, Err e) => Ret (t, sh, Err e)
          | (t, Ok bytes) =>
              seal_payload now sh shard (opcode header) bytes ≫= λ '(sh, r),
              Ret (t, sh, match r with Ok _ => Ok (Some (opcode header)) | Err e => Err e end)
          end
      end
  end.

Definition seal_step shard (st : TlsStream * SH * list Opcode) :
    outcome ((TlsStream * SH * list Opcode) + (TlsStream * SH * result (list Opcode) EnclaveError)) :=
  let '(t, sh, received_payloads) := st in
  read_and_seal (clock (length received_payloads)) t sh shard ≫= λ '(t, sh, r),
  Ret match r with
      | Err e => inr (t, sh, Err e)
      | Ok None => inr (t, sh, Ok received_payloads)
      | Ok (Some o) => inl (t, sh, received_payloads ++ [o])
      end.

(** Every message has at least a byte. *)
Definition read_and_seal_all t sh shard : outcome (TlsStream * SH * result unit EnclaveError) :=
  loop (S (length (incoming t))) (seal_step shard) (t, sh, []) ≫= λ '(t, sh, r),
  match r with
  | Err e => Ret (t, sh, Err e)
  | Ok received_payloads =>
      if bool_decide (OpShieldingKey ∈ received_payloads ∧ OpState ∉ received_payloads)
      then seal_new_empty_state (clock (length received_payloads)) sh shard ≫= λ '(sh, r), Ret (t, sh, r)
      else Ret (t, sh, Ok tt)
  end.

(** [obtain_provisioning_for_shard], with what the server answered to the request. *)
Definition obtain_provisioning_for_shard (answer_of : Bytes → Bytes) t sh shard (account : AccountId) :
    outcome (TlsStream * SH * result unit EnclaveError) :=
  match send_provisioning_request t shard account with
  | (t, Err e) => Ret (t, sh, Err e)
  | (t, Ok _) => read_and_seal_all (MkTls (incoming t ++ answer_of (outgoing t)) (outgoing t) (capacity t)) sh shard
  end.
End client.
End TlsClient.

(** ** The protocol *)

Module ProvInv.
Import Wire Tls.
#[local] Opaque to_be_bytes.

(** Messages, as they go over the wire. *)
Definition wire (ms : list (Opcode * Bytes)) : Bytes := concat ((λ m, message m.1 m.2) <$> ms).
Definition short (ms : list (Opcode * Bytes)) : Prop := Forall (λ m, (Z.of_nat (length m.2) < 2 ^ 64)%Z) ms.

Lemma opcode_round_trip o : ∃ b, to_bytes o = [b] ∧ opcode_from b = Ret o.
Proof. destruct o; by eexists. Qed.

Lemma message_length o b : length (message o b) = 9 + length b.
Proof. destruct o; unfold message; rewrite !length_app, be_length; cbn; lia. Qed.

Section server.
Import TlsServer.
Context {SH X : Type} `{UnsealStateAndKeys SH} `{Decode ClientProvisioningRequest}.
Implicit Types (t : TlsStream) (sh : SH).

Lemma write_all_fits t b : length (outgoing t ++ b) ≤ capacity t → write_all t b = (MkTls (incoming t) (outgoing t ++ b) (capacity t), Ok tt).
Proof. intros Hc. unfold write_all. rewrite take_ge by done. by rewrite bool_decide_true. Qed.

Lemma write_fits t o b :
  (Z.of_nat (length b) < 2 ^ 64)%Z → length (outgoing t ++ message o b) ≤ capacity t →
  write t o b = (MkTls (incoming t) (outgoing t ++ message o b) (capacity t), Ok tt).
Proof.
  intros Hb Hc. unfold write, write_header, in_io. cbn [opcode payload_length].
  rewrite u64_wrap_small by (unfold is_u64, u64_max; lia). unfold message in *. rewrite !length_app in Hc.
  rewrite write_all_fits by (rewrite length_app; lia). cbn [fst snd].
  rewrite write_all_fits by (cbn [outgoing capacity]; rewrite !length_app; lia). cbn [fst snd].
  rewrite write_all_fits by (cbn [outgoing capacity]; rewrite !length_app; lia). cbn. by rewrite <-!app_assoc.
Qed.
End server.

Section client.
Import TlsClient.
Context {SH : Type} `{SealStateAndKeys SH} (clock : nat → StateId) (shard : ShardIdentifier).
Implicit Types (t : TlsStream) (sh : SH) (ms : list (Opcode * Bytes)).

(** What the client does with messages, without a stream. *)
Fixpoint seal_messages (n : nat) sh ms : outcome (SH * result unit EnclaveError) :=
  match ms with
  | [] => Ret (sh, Ok tt)
  | (o, b) :: ms =>
      seal_payload (clock n) sh shard o b ≫= λ '(sh, r),
      match r with
      | Err e => Ret (sh, Err e)
      | Ok _ => seal_messages (S n) sh ms
      end
  end.

Definition finish (os : list Opcode) sh : outcome (SH * result unit EnclaveError) :=
  if bool_decide (OpShieldingKey ∈ os ∧ OpState ∉ os) then seal_new_empty_state (clock (length os)) sh shard else Ret (sh, Ok tt).

Lemma read_message now o b rest out cap sh :
  (Z.of_nat (length b) < 2 ^ 64)%Z →
  read_and_seal now (MkTls (message o b ++ rest) out cap) sh shard =
  seal_payload now sh shard o b ≫= λ '(sh, r), Ret (MkTls rest out cap, sh, match r with Ok _ => Ok (Some o) | Err e => Err e end).
Proof.
  intros Hb. destruct (opcode_round_trip o) as (x & Hx & Ho). unfold read_and_seal, read_byte, message. rewrite Hx, <-app_assoc.
  cbn [app incoming outgoing capacity]. unfold read_header. rewrite Ho. cbn [mbind outcome_bind].
  unfold read_exact at 1. cbn [incoming outgoing capacity]. rewrite <-app_assoc, bool_decide_true by (rewrite !length_app, be_length; lia).
  unfold in_io. cbn [fst snd mbind outcome_bind opcode payload_length].
  rewrite take_app_length', drop_app_length' by done. rewrite be_round_trip by lia.
  unfold read_until, in_io, read_exact. cbn [incoming outgoing capacity fst snd]. rewrite Nat2Z.id, bool_decide_true by (rewrite length_app; lia).
  by rewrite take_app_length', drop_app_length' by done.
Qed.

(** A connection that ends inside of a message. *)
Lemma read_partial now o b part out cap sh :
  (Z.of_nat (length b) < 2 ^ 64)%Z → part ≠ [] → (∃ rest, rest ≠ [] ∧ message o b = part ++ rest) →
  ∃ t e, read_and_seal now (MkTls part out cap) sh shard = Ret (t, sh, Err (EnIo e)).
Proof.
  intros Hb Hne (rest & Hrest & Hm). destruct (opcode_round_trip o) as (x & Hx & Ho). unfold message in Hm. rewrite Hx in Hm.
  destruct part as [|y part]; [done|]. cbn [app] in Hm. injection Hm as <- Hm. unfold read_and_seal, read_byte. cbn [incoming outgoing capacity].
  unfold read_header. rewrite Ho. cbn [mbind outcome_bind]. unfold read_exact at 1, in_io at 1. cbn [incoming outgoing capacity].
  case_bool_decide as Hlen; cbn [fst snd mbind outcome_bind]; [|by eexists _, _].
  assert (take 8 part = to_be_bytes (Z.of_nat (length b)) ∧ drop 8 part ++ rest = b) as [Ht Hd].
  { rewrite <-(take_drop 8 part), <-app_assoc in Hm. apply app_inj_1 in Hm as [-> <-]; [done|]. rewrite length_take, be_length. lia. }
  rewrite Ht, be_round_trip by lia. unfold read_until, in_io, read_exact. cbn [incoming outgoing capacity payload_length].
  rewrite Nat2Z.id, bool_decide_false; [cbn; by eexists _, _|]. rewrite <-Hd, length_app. destruct rest; [done|cbn; lia].
Qed.

(** The loop over complete messages. *)
Lemma loop_messages ms rest out cap fuel sh received :
  short ms → length ms < fuel →
  loop fuel (seal_step clock shard) (MkTls (wire ms ++ rest) out cap, sh, received) ≫= (λ '(t, sh, r), Ret (sh, r)) =
  seal_messages (length received) sh ms ≫= λ '(sh, r),
  match r with
  | Ok _ => loop (fuel - length ms) (seal_step clock shard) (MkTls rest out cap, sh, received ++ ms.*1) ≫= (λ '(t, sh, r), Ret (sh, r))
  | Err e => Ret (sh, Err e)
  end.
Proof.
  intros Hms. revert fuel sh received. induction Hms as [|[o b] ms Hb Hms IH]; intros fuel sh received Hf.
  - cbn [length seal_messages mbind outcome_bind wire fmap list_fmap concat app]. by rewrite Nat.sub_0_r, app_nil_r.
  - destruct fuel as [|fuel]; [cbn in Hf; lia|]. cbn [loop seal_messages]. unfold seal_step at 1, wire. cbn [fmap list_fmap concat fst snd].
    rewrite <-app_assoc, read_message by done. destruct (seal_payload (clock (length received)) sh shard o b) as [[sh1 [u|e]]| |]; [|done..].
    cbn [mbind outcome_bind]. rewrite IH by (cbn in Hf; lia). rewrite length_app, Nat.add_1_r.
    destruct (seal_messages (S (length received)) sh1 ms) as [[sh2 [u2|e2]]| |]; [|done..]. cbn [mbind outcome_bind length].
    by rewrite <-app_assoc.
Qed.

Lemma wire_fuel ms : length ms ≤ length (wire ms).
Proof. unfold wire. induction ms as [|[o b] ms IH]; cbn; [lia|]. rewrite length_app, message_length. cbn in *. lia. Qed.

(** The end of the stream, or of a part of a message, after some messages. *)
Lemma read_end fuel out cap sh received :
  0 < fuel → loop fuel (seal_step clock shard) (MkTls [] out cap, sh, received) = Ret (MkTls [] out cap, sh, Ok received).
Proof. by destruct fuel as [|fuel]; [lia|]. Qed.

Lemma read_part fuel part out cap sh received t err :
  0 < fuel → read_and_seal (clock (length received)) (MkTls part out cap) sh shard = Ret (t, sh, Err (EnIo err)) →
  loop fuel (seal_step clock shard) (MkTls part out cap, sh, received) = Ret (t, sh, Err (EnIo err)).
Proof. intros Hf Hr. destruct fuel as [|fuel]; [lia|]. cbn [loop]. unfold seal_step at 1. by rewrite Hr. Qed.

(** *** The client gets what was sent, as far as it was sent *)

Definition read_all t sh : outcome (SH * result unit EnclaveError) := read_and_seal_all clock t sh shard ≫= λ '(t, sh, r), Ret (sh, r).

Lemma read_complete ms out cap sh :
  short ms →
  read_all (MkTls (wire ms) out cap) sh =
  seal_messages 0 sh ms ≫= λ '(sh, r), match r with Ok _ => finish ms.*1 sh | Err e => Ret (sh, Err e) end.
Proof.
  intros Hms. unfold read_all, read_and_seal_all. pose proof (wire_fuel ms) as Hf. cbn [incoming].
  pose proof (loop_messages ms [] out cap (S (length (wire ms))) sh [] Hms ltac:(lia)) as Hl. rewrite app_nil_r in Hl. cbn [length] in Hl.
  destruct (seal_messages 0 sh ms) as [[sh1 [u|e]]| |]; cbn [mbind outcome_bind] in Hl.
  - rewrite read_end in Hl by lia. cbn [mbind outcome_bind app] in Hl. destruct (loop _ _ _) as [[[t sh2] r]| |]; [|done..]. injection Hl as -> ->.
    cbn [mbind outcome_bind]. unfold finish. case_bool_decide; [|done]. by destruct (seal_new_empty_state _ sh1 shard) as [[??]| |].
  - destruct (loop _ _ _) as [[[t sh2] r]| |]; [|done..]. by injection Hl as -> ->.
  - by destruct (loop _ _ _) as [[[t sh2] r]| |].
  - by destruct (loop _ _ _) as [[[t sh2] r]| |].
Qed.

Lemma read_cut ms o b part out cap sh :
  short (ms ++ [(o, b)]) → part ≠ [] → (∃ rest, rest ≠ [] ∧ message o b = part ++ rest) →
  ∃ err, read_all (MkTls (wire ms ++ part) out cap) sh =
    seal_messages 0 sh ms ≫= λ '(sh, r), match r with Ok _ => Ret (sh, Err (EnIo err)) | Err e => Ret (sh, Err e) end.
Proof.
  intros Hms Hne Hpart. unfold short in Hms. rewrite Forall_app, Forall_singleton in Hms. destruct Hms as [Hms Hb].
  unfold read_all, read_and_seal_all. pose proof (wire_fuel ms) as Hf. cbn [incoming].
  pose proof (loop_messages ms part out cap (S (length (wire ms ++ part))) sh [] Hms ltac:(rewrite length_app; lia)) as Hl. cbn [length] in Hl.
  destruct (seal_messages 0 sh ms) as [[sh1 [u|e]]| |]; cbn [mbind outcome_bind] in Hl.
  - destruct (read_partial (clock (length ([] ++ ms.*1))) o b part out cap sh1 Hb Hne Hpart) as (t & err & Hr). exists err.
    rewrite (read_part _ part out cap sh1 _ t err) in Hl; [|rewrite length_app; lia|exact Hr]. cbn [mbind outcome_bind] in Hl.
    destruct (loop _ _ _) as [[[t2 sh2] r]| |]; [|done..]. by injection Hl as -> ->.
  - exists EmptyString. destruct (loop _ _ _) as [[[t sh2] r]| |]; [|done..]. by injection Hl as -> ->.
  - exists EmptyString. by destruct (loop _ _ _) as [[[t sh2] r]| |].
  - exists EmptyString. by destruct (loop _ _ _) as [[[t sh2] r]| |].
Qed.

(** A prefix of messages is some of them, and a part of the next one. *)
Lemma wire_prefix ms n :
  ∃ k, (take n (wire ms) = wire (take k ms)) ∨
    ∃ o b part rest, ms !! k = Some (o, b) ∧ part ≠ [] ∧ rest ≠ [] ∧ message o b = part ++ rest ∧ take n (wire ms) = wire (take k ms) ++ part.
Proof.
  revert n. induction ms as [|[o b] ms IH]; intros n; [exists 0; left; by destruct n|].
  unfold wire. cbn [fmap list_fmap concat fst snd]. fold (wire ms). destruct (decide (length (message o b) ≤ n)) as [Hn|Hn].
  - rewrite take_app, take_ge by done. destruct (IH (n - length (message o b))) as (k & [Hk|(o' & b' & part & rest & ? & ? & ? & ? & Hk)]); exists (S k).
    + left. by rewrite Hk.
    + right. exists o', b', part, rest. rewrite Hk. split_and!; [done..|]. cbn [take fmap list_fmap concat fst snd]. by rewrite app_assoc.
  - destruct n as [|n]; [exists 0; by left|]. exists 0. right. exists o, b, (take (S n) (message o b)), (drop (S n) (message o b)).
    rewrite take_app_le by lia. split_and!; [done| | |by rewrite take_drop|done].
    + intros [?|He]%take_nil_inv; [done|]. rewrite He in Hn. cbn in Hn. lia.
    + intros He%(f_equal length). rewrite length_drop in He. cbn [length] in He. lia.
Qed.

(** A connection that ends early is an error inside of a message only; between two
    messages the client ends as if the server had no more to send. *)
Theorem truncation_is_seen_inside_messages ms n out cap sh :
  short ms →
  ∃ k, (take n (wire ms) = wire (take k ms) ∧
        read_all (MkTls (take n (wire ms)) out cap) sh =
          seal_messages 0 sh (take k ms) ≫= λ '(sh, r), match r with Ok _ => finish (take k ms).*1 sh | Err e => Ret (sh, Err e) end) ∨
    (∃ o b part rest err, ms !! k = Some (o, b) ∧ part ≠ [] ∧ rest ≠ [] ∧ message o b = part ++ rest ∧
       take n (wire ms) = wire (take k ms) ++ part ∧
       read_all (MkTls (take n (wire ms)) out cap) sh =
          seal_messages 0 sh (take k ms) ≫= λ '(sh, r), match r with Ok _ => Ret (sh, Err (EnIo err)) | Err e => Ret (sh, Err e) end).
Proof.
  intros Hs. destruct (wire_prefix ms n) as (k & [Hk|(o & b & part & rest & Hm & Hp & Hr & Ho & Hk)]); exists k.
  - left. split; [done|]. rewrite Hk. by apply read_complete, Forall_take.
  - right. assert (short (take k ms ++ [(o, b)])) as Hs'.
    { rewrite <-(take_S_r _ _ _ Hm). by apply Forall_take. }
    destruct (read_cut (take k ms) o b part out cap sh Hs' Hp) as (err & He); [by exists rest|].
    exists o, b, part, rest, err. by rewrite Hk.
Qed.
End client.
End ProvInv.

(** ** The handler of keys and states (seal_handler.rs) *)

(** The fields are those of the struct.  The enclave hands the same state key
    repository to the files of the states (initialization/mod.rs), which the handler
    of the states sees when it reads or writes a file: the states in memory are not
    touched by a new key, but a file that was written before it is read with the new
    key when the enclave restarts ([rekeyed_load] of SgxFileIo).  [sh_states] is
    the handler as it runs; the theorems below are about the states it serves until
    then. *)

Record SealHandler (W Fs Rsa : Type) := MkSealHandler {
  sh_states : W;
  sh_files : Fs;
  state_key_repository : KeyRepository Fs Aes;
  shielding_key_repository : KeyRepository Fs Rsa;
  light_client_seal : LightClientStateSeal;
}.
Arguments MkSealHandler {W Fs Rsa} _ _ _ _ _.
Arguments sh_states {W Fs Rsa} _.
Arguments sh_files {W Fs Rsa} _.
Arguments state_key_repository {W Fs Rsa} _.
Arguments shielding_key_repository {W Fs Rsa} _.
Arguments light_client_seal {W Fs Rsa} _.

Module SealHandlerImpl.
Section handler.
Context {W Fs Rsa RsaPub L : Type} `{HandleState W} `{SgxFiles Fs} `{RsaKeys Rsa RsaPub}.
Context `{Encode Aes, Decode Aes} `{Encode SgxExternalitiesType, Decode SgxExternalitiesType} `{Encode L, Decode L}.
Implicit Types (sh : SealHandler W Fs Rsa) (bytes : Bytes) (shard : ShardIdentifier).

Definition in_crypto {A} (r : result A CryptoError) : result A EnclaveError := match r with Ok a => Ok a | Err e => Err (EnCrypto e) end.

Definition sh_seal_shielding_key sh bytes : SealHandler W Fs Rsa * result unit EnclaveError :=
  match rsa_from_slice bytes with
  | Err e => (sh, Err (EnOther e))
  | Ok key =>
      let '(fs, repo, r) := KeyRepo.update_key (sh_files sh) (shielding_key_repository sh) key in
      (MkSealHandler (sh_states sh) fs (state_key_repository sh) repo (light_client_seal sh), in_crypto r)
  end.

Definition sh_seal_state_key sh bytes : SealHandler W Fs Rsa * result unit EnclaveError :=
  match decode (A := Aes) bytes with
  | Err e => (sh, Err (EnCodec e))
  | Ok aes =>
      let '(fs, repo, r) := KeyRepo.update_key (sh_files sh) (state_key_repository sh) aes in
      (MkSealHandler (sh_states sh) fs repo (shielding_key_repository sh) (light_client_seal sh), in_crypto r)
  end.

Definition with_states sh (w : W) : SealHandler W Fs Rsa :=
  MkSealHandler w (sh_files sh) (state_key_repository sh) (shielding_key_repository sh) (light_client_seal sh).

(** [reset] writes the state as [write_after_mutation] does. *)
Definition sh_seal_state (now : StateId) sh bytes shard : outcome (SealHandler W Fs Rsa * result unit EnclaveError) :=
  match decode (A := SgxExternalitiesType) bytes with
  | Err e => Ret (sh, Err (EnCodec e))
  | Ok state =>
      hs_write_after_mutation now (sh_states sh) (Ext.new state) shard ≫= λ '(w, r),
      Ret (with_states sh w, match r with Ok _ => Ok tt | Err e => Err (EnStateHandler e) end)
  end.

Definition sh_seal_new_empty_state (now : StateId) sh shard : outcome (SealHandler W Fs Rsa * result unit EnclaveError) :=
  hs_initialize_shard now (sh_states sh) shard ≫= λ '(w, r),
  Ret (with_states sh w, match r with Ok _ => Ok tt | Err e => Err (EnStateHandler e) end).

Definition with_files sh (fs : Fs) : SealHandler W Fs Rsa :=
  MkSealHandler (sh_states sh) fs (state_key_repository sh) (shielding_key_repository sh) (light_client_seal sh).

Definition sh_seal_light_client_state sh bytes : SealHandler W Fs Rsa * result unit EnclaveError :=
  match decode (A := L) bytes with
  | Err e => (sh, Err (EnCodec e))
  | Ok state =>
      let '(fs, r) := Seal.seal (light_client_seal sh) (sh_files sh) state in
      (with_files sh fs, match r with Ok _ => Ok tt | Err e => Err (EnLightClient e) end)
  end.

(** [format!("{:?}", e)]. *)
Definition debug (e : CryptoError) : string :=
  match e with
  | InvalidNonceKeyLength => "InvalidNonceKeyLength"
  | CryptoIo msg => "IO(" +:+ msg +:+ ")"
  | CryptoCodec msg => "Codec(" +:+ msg +:+ ")"
  | CryptoOther msg => "Other(" +:+ msg +:+ ")"
  end%string.

Definition sh_unseal_shielding_key sh : result Bytes EnclaveError :=
  match KeyRepo.retrieve_key (shielding_key_repository sh) with
  | Err e => Err (EnOther (debug e))
  | Ok key => match rsa_to_vec key with Ok b => Ok b | Err e => Err (EnOther e) end
  end.

Definition sh_unseal_state_key sh : result Bytes EnclaveError :=
  match KeyRepo.retrieve_key (state_key_repository sh) with
  | Err e => Err (EnOther (debug e))
  | Ok k => Ok (encode k)
  end.

(** [execute_on_current] with the encoding of the state. *)
Definition sh_unseal_state sh shard : result Bytes EnclaveError :=
  match hs_load_cloned (sh_states sh) shard with
  | Err e => Err (EnStateHandler e)
  | Ok (st, _) => Ok (encode (Ext.state st))
  end.

Definition sh_unseal_light_client_state sh : SealHandler W Fs Rsa * result Bytes EnclaveError :=
  let '(fs, r) := Seal.unseal (L := L) (light_client_seal sh) (sh_files sh) in
  (with_files sh fs, match r with Ok l => Ok (encode l) | Err e => Err (EnLightClient e) end).

#[export] Instance seal_handler_seals : SealStateAndKeys (SealHandler W Fs Rsa) := {|
  seal_shielding_key := sh_seal_shielding_key;
  seal_state_key := sh_seal_state_key;
  seal_state := sh_seal_state;
  seal_new_empty_state := sh_seal_new_empty_state;
  seal_light_client_state := sh_seal_light_client_state;
|}.

#[export] Instance seal_handler_unseals : UnsealStateAndKeys (SealHandler W Fs Rsa) := {|
  unseal_shielding_key := sh_unseal_shielding_key;
  unseal_state_key := sh_unseal_state_key;
  unseal_state := sh_unseal_state;
  unseal_light_client_state := sh_unseal_light_client_state;
|}.
End handler.
End SealHandlerImpl.

(** ** A provisioned worker *)

Module Provisioned.
Import Wire Tls ProvInv SealHandlerImpl.

Section provisioned.
Context {W Fs Rsa RsaPub Ed L X : Type} `{HandleState W} `{SgxFilesLaws Fs} `{KeyLaws Rsa RsaPub Ed} `{Codec Aes} `{Codec L}.
Context `{Codec SgxExternalitiesType} `{Blake2} (initialize : result SgxExternalities StateHandlerError) `{!HandleStateLaws W initialize}.
Context `{Codec ClientProvisioningRequest} (clock : nat → StateId).
Context (add_shard_vault_proxy : X → ShardIdentifier → AccountId → X * result unit string).
Implicit Types (sh server client : SealHandler W Fs Rsa) (shard : ShardIdentifier).

#[local] Existing Instance seal_handler_seals.
#[local] Existing Instance seal_handler_unseals.
Abbreviation Seals := (seal_handler_seals (L := L) (W := W) (Fs := Fs) (Rsa := Rsa) (RsaPub := RsaPub)).
Abbreviation Unseals := (seal_handler_unseals (L := L) (W := W) (Fs := Fs) (Rsa := Rsa) (RsaPub := RsaPub)).

(** The keys are sealed in their files, apart from the file of the light client. *)
Definition sh_ok (base : Path) sh : Prop :=
  sealed_io (state_key_repository sh) = KeyFiles.aes_seal base ∧
  sealed_io (shielding_key_repository sh) = KeyFiles.rsa_seal base ∧
  hs_ok (sh_states sh) ∧
  KeyFiles.aes_path base ≠ Seal.db_path (light_client_seal sh) ∧
  KeyFiles.rsa_path base ≠ Seal.db_path (light_client_seal sh).

Definition light_file sh : FileContent := content (sh_files sh) (Seal.db_path (light_client_seal sh)).

(** Sealing one part leaves the others. *)
Lemma seal_shielding_ok base sh k b :
  KeyInv.disk_writable (Fs := Fs) → sh_ok base sh → rsa_to_vec k = Ok b →
  ∃ fs, sh_seal_shielding_key sh b =
      (MkSealHandler (sh_states sh) fs (state_key_repository sh) (MkKeyRepository k (KeyFiles.rsa_seal base)) (light_client_seal sh), Ok tt) ∧
    content fs (Seal.db_path (light_client_seal sh)) = light_file sh.
Proof.
  intros Hd (_ & Hr & _ & _ & Hp) Hb. unfold sh_seal_shielding_key. rewrite (rsa_json k b Hb). unfold KeyRepo.update_key. rewrite Hr.
  pose proof (KeyInv.sealed_writes _ _ _ (KeyInv.rsa_sealed (Rsa := Rsa) base Hd) (sh_files sh) k) as Hw.
  destruct (io_seal (KeyFiles.rsa_seal base) (sh_files sh) k) as [fs [[]|e]] eqn:Hs; [|done].
  rewrite (KeyInv.sealed_round_trip _ _ _ (KeyInv.rsa_sealed (Rsa := Rsa) base Hd) _ _ _ Hs). cbn. exists fs. split; [done|].
  cbn in Hs. rewrite Hb in Hs. unfold KeyFiles.seal_bytes in Hs. destruct (Seal.sgx_seal _ _ _) as [fs1 r] eqn:Hss.
  apply SealInv.sgx_seal_spec in Hss as [Ho _]. injection Hs as <- _. apply Ho. done.
Qed.

Lemma seal_state_key_ok base sh k :
  KeyInv.disk_writable (Fs := Fs) → sh_ok base sh →
  ∃ fs, sh_seal_state_key sh (encode k) =
      (MkSealHandler (sh_states sh) fs (MkKeyRepository k (KeyFiles.aes_seal base)) (shielding_key_repository sh) (light_client_seal sh), Ok tt) ∧
    content fs (Seal.db_path (light_client_seal sh)) = light_file sh.
Proof.
  intros Hd (Hr & _ & _ & Hp & _). unfold sh_seal_state_key. rewrite decode_encode. unfold KeyRepo.update_key. rewrite Hr.
  pose proof (KeyInv.sealed_writes _ _ _ (KeyInv.aes_sealed base Hd) (sh_files sh) k) as Hw.
  destruct (io_seal (KeyFiles.aes_seal base) (sh_files sh) k) as [fs [[]|e]] eqn:Hs; [|done].
  rewrite (KeyInv.sealed_round_trip _ _ _ (KeyInv.aes_sealed base Hd) _ _ _ Hs). cbn. exists fs. split; [done|].
  cbn in Hs. unfold KeyFiles.seal_bytes in Hs. destruct (Seal.sgx_seal _ _ _) as [fs1 r] eqn:Hss.
  apply SealInv.sgx_seal_spec in Hss as [Ho _]. injection Hs as <- _. apply Ho. done.
Qed.

Lemma seal_state_ok now sh shard st :
  hs_ok (sh_states sh) → hs_writable now (sh_states sh) shard →
  ∃ w, sh_seal_state now sh (encode (Ext.state st)) shard = Ret (with_states sh w, Ok tt) ∧ hs_ok w ∧
    hs_view w = <[shard := Ext.prune_state_diff st]> (hs_view (sh_states sh)).
Proof.
  intros Hok Hw. unfold sh_seal_state. rewrite decode_encode.
  destruct (write_ok now (sh_states sh) (Ext.new (Ext.state st)) shard Hok) as (w & r & -> & Hok' & Hv & Hr). rewrite (Hr Hw).
  exists w. split; [done|]. split; [done|]. by rewrite Hv.
Qed.

Lemma seal_empty_ok now sh shard st0 :
  initialize = Ok st0 → hs_ok (sh_states sh) → hs_writable now (sh_states sh) shard →
  ∃ w, sh_seal_new_empty_state now sh shard = Ret (with_states sh w, Ok tt) ∧ hs_ok w ∧
    hs_view w = <[shard := Ext.prune_state_diff st0]> (hs_view (sh_states sh)).
Proof.
  intros Hi Hok Hw. unfold sh_seal_new_empty_state.
  destruct (initialize_ok now (sh_states sh) st0 shard Hok Hi) as (w & r & -> & Hok' & Hv & Hr). rewrite (Hr Hw). by exists w.
Qed.

Lemma seal_light_ok sh (l : L) :
  KeyInv.disk_writable (Fs := Fs) →
  ∃ fs, sh_seal_light_client_state (L := L) sh (encode l) = (with_files sh fs, Ok tt) ∧
    content fs (Seal.db_path (light_client_seal sh)) = Sealed (encode l).
Proof.
  intros Hd. unfold sh_seal_light_client_state. rewrite decode_encode. unfold Seal.seal.
  destruct (Seal.backup (light_client_seal sh) (sh_files sh)) as [fs1 r1]. specialize (Hd fs1 (encode l) (Seal.db_path (light_client_seal sh))).
  destruct (Seal.sgx_seal fs1 (encode l) _) as [fs2 [[]|e]] eqn:Hs; [|done]. exists fs2. split; [done|].
  by apply (SealInv.sgx_seal_spec _ _ _ _ _ Hs).
Qed.

Lemma unseal_light_ok sh (l : L) :
  light_file sh = Sealed (encode l) → sh_unseal_light_client_state (L := L) sh = (sh, Ok (encode l)).
Proof.
  intros Hl. unfold sh_unseal_light_client_state, Seal.unseal. rewrite (proj2 (read_content _ _ _) Hl), decode_encode. by destruct sh.
Qed.

(** *** What the server sends *)

Lemma wire_cons o b ms : wire ((o, b) :: ms) = message o b ++ wire ms.
Proof. done. Qed.

Lemma write_unsealed_fits inc sh out cap o b ms :
  short ((o, b) :: ms) → length (out ++ wire ((o, b) :: ms)) ≤ cap →
  TlsServer.write_unsealed (MkTls inc out cap) sh o (Ok b) = (MkTls inc (out ++ message o b) cap, sh, Ok tt) ∧
  short ms ∧ length ((out ++ message o b) ++ wire ms) ≤ cap.
Proof.
  intros [Hb Hms]%Forall_cons Hc. rewrite wire_cons, app_assoc in Hc. split; [|done]. unfold TlsServer.write_unsealed.
  rewrite write_fits; [done|done|]. rewrite length_app in Hc. cbn. lia.
Qed.

(** The parts that a worker has for a shard. *)
Definition parts sh shard (kb : Bytes) st (l : L) : Prop :=
  rsa_to_vec (key_lock (shielding_key_repository sh)) = Ok kb ∧ hs_ok (sh_states sh) ∧ hs_view (sh_states sh) !! shard = Some st ∧
  light_file sh = Sealed (encode l).

Definition all_parts sh (kb : Bytes) (st : SgxExternalities) (l : L) : list (Opcode * Bytes) :=
  [(OpShieldingKey, kb); (OpStateKey, encode (key_lock (state_key_repository sh))); (OpState, encode (Ext.state st)); (OpLightClient, encode l)].
Definition teeracle_parts (kb : Bytes) (l : L) : list (Opcode * Bytes) := [(OpShieldingKey, kb); (OpLightClient, encode l)].
Definition mode_parts (mode : WorkerMode) sh kb st l : list (Opcode * Bytes) :=
  match TlsServer.payload_of mode with Everything => all_parts sh kb st l | ShieldingKeyAndLightClient => teeracle_parts kb l end.

Lemma server_payloads mode t sh shard kb st l :
  parts sh shard kb st l → short (mode_parts mode sh kb st l) → length (outgoing t ++ wire (mode_parts mode sh kb st l)) ≤ capacity t →
  TlsServer.write_provisioning_payloads (H := Unseals) (TlsServer.payload_of mode) t sh shard =
  (MkTls (incoming t) (outgoing t ++ wire (mode_parts mode sh kb st l)) (capacity t), sh, Ok tt).
Proof.
  intros (Hk & Hok & Hst & Hl). unfold mode_parts. destruct t as [inc out cap]. cbn [incoming outgoing capacity].
  assert (unseal_shielding_key (UnsealStateAndKeys := Unseals) sh = Ok kb) as Hus by (cbn; unfold sh_unseal_shielding_key; cbn; by rewrite Hk).
  assert (unseal_state (UnsealStateAndKeys := Unseals) sh shard = Ok (encode (Ext.state st))) as Hst'
    by (cbn; unfold sh_unseal_state; by rewrite (load_cloned_ok _ _ Hok), Hst).
  destruct (TlsServer.payload_of mode); intros Hs Hc; cbn [TlsServer.write_provisioning_payloads];
    unfold TlsServer.write_shielding_key, TlsServer.write_state_key, TlsServer.write_state, TlsServer.write_light_client_state.
  - rewrite Hus. unfold all_parts in *. apply (write_unsealed_fits inc sh) in Hc as (-> & Hs1 & Hc1); [|done]. cbn [TlsServer.and_then].
    change (unseal_state_key (UnsealStateAndKeys := Unseals) sh) with (Ok (E := EnclaveError) (encode (key_lock (state_key_repository sh)))).
    apply (write_unsealed_fits inc sh) in Hc1 as (Hw & Hs2 & Hc2); [|done]. rewrite Hw. cbn [TlsServer.and_then]. clear Hw.
    rewrite Hst'. apply (write_unsealed_fits inc sh) in Hc2 as (Hw & Hs3 & Hc3); [|done]. rewrite Hw. cbn [TlsServer.and_then]. clear Hw.
    cbn [unseal_light_client_state seal_handler_unseals]. rewrite (unseal_light_ok sh l Hl).
    apply (write_unsealed_fits inc sh) in Hc3 as (Hw & _ & _); [|done]. rewrite Hw. cbn [incoming outgoing capacity].
    rewrite !wire_cons. unfold wire at 1. cbn [fmap list_fmap concat]. by rewrite app_nil_r, <-!app_assoc.
  - rewrite Hus. unfold teeracle_parts in *. apply (write_unsealed_fits inc sh) in Hc as (-> & Hs1 & Hc1); [|done]. cbn [TlsServer.and_then].
    cbn [unseal_light_client_state seal_handler_unseals]. rewrite (unseal_light_ok sh l Hl).
    apply (write_unsealed_fits inc sh) in Hc1 as (Hw & _ & _); [|done]. rewrite Hw. cbn [incoming outgoing capacity].
    rewrite !wire_cons. unfold wire at 1. cbn [fmap list_fmap concat]. by rewrite app_nil_r, <-!app_assoc.
Qed.

(** *** A worker that is provisioned *)

Context (request_size : ∀ r : ClientProvisioningRequest, length (encode r) = TlsServer.REQUEST_SIZE).

Definition served (mode : WorkerMode) (cap : nat) sh (x : X) (request : Bytes) : TlsStream * SealHandler W Fs Rsa * X * result unit EnclaveError :=
  TlsServer.run_state_provisioning_server (H := Unseals) add_shard_vault_proxy mode (MkTls request [] cap) sh x.

(** A client that is connected to a server. *)
Definition provision (mode : WorkerMode) (cap : nat) server (x : X) client shard account : outcome (SealHandler W Fs Rsa * result unit EnclaveError) :=
  TlsClient.obtain_provisioning_for_shard (H := Seals) clock (λ request, outgoing (served mode cap server x request).1.1.1)
    (MkTls [] [] cap) client shard account ≫= λ '(t, client, r), Ret (client, r).

Lemma request_read shard account out cap :
  TlsServer.await_shard_request_from_client (MkTls (encode (MkProvisioningRequest shard account)) out cap) =
  (MkTls [] out cap, Ok (MkProvisioningRequest shard account)).
Proof.
  unfold TlsServer.await_shard_request_from_client, TlsServer.in_io, read_exact. cbn [incoming outgoing capacity].
  rewrite bool_decide_true by (by rewrite request_size). cbn [fst snd].
  rewrite drop_ge, take_ge by (by rewrite request_size). by rewrite decode_encode.
Qed.

Lemma served_parts mode cap sh x shard account kb st l :
  parts sh shard kb st l → short (mode_parts mode sh kb st l) → length (wire (mode_parts mode sh kb st l)) ≤ cap →
  served mode cap sh x (encode (MkProvisioningRequest shard account)) =
  (MkTls [] (wire (mode_parts mode sh kb st l)) cap, sh, (add_shard_vault_proxy x shard account).1, Ok tt).
Proof.
  intros Hp Hs Hc. unfold served, TlsServer.run_state_provisioning_server, TlsServer.handle_shard_request_from_client.
  rewrite request_read. cbn [request_shard request_account]. by rewrite (server_payloads mode (MkTls [] [] cap) sh shard kb st l Hp Hs Hc).
Qed.

(** A client reads what its server wrote. *)
Lemma provision_reads mode cap server x client shard account ms :
  TlsServer.REQUEST_SIZE ≤ cap → short ms → outgoing (served mode cap server x (encode (MkProvisioningRequest shard account))).1.1.1 = wire ms →
  provision mode cap server x client shard account =
  seal_messages (H := Seals) clock shard 0 client ms ≫= λ '(sh, r),
    match r with Ok _ => finish (H := Seals) clock shard ms.*1 sh | Err e => Ret (sh, Err e) end.
Proof.
  intros Hcap Hs Ho. unfold provision, TlsClient.obtain_provisioning_for_shard, TlsClient.send_provisioning_request, TlsClient.in_io.
  rewrite (write_all_fits (MkTls [] [] cap)) by (cbn; by rewrite request_size). cbn [fst snd incoming outgoing capacity app]. rewrite Ho.
  rewrite <-(read_complete (H := Seals) clock shard ms (encode (MkProvisioningRequest shard account)) cap client Hs). done.
Qed.

(** The shielding key comes first. *)
Lemma seal_first base client k kb ms :
  KeyInv.disk_writable (Fs := Fs) → sh_ok base client → rsa_to_vec k = Ok kb →
  ∃ fs, let sh := MkSealHandler (sh_states client) fs (state_key_repository client) (MkKeyRepository k (KeyFiles.rsa_seal base)) (light_client_seal client) in
    ∀ n shard, seal_messages (H := Seals) clock shard n client ((OpShieldingKey, kb) :: ms) = seal_messages (H := Seals) clock shard (S n) sh ms ∧
    sh_ok base sh ∧ light_file sh = light_file client.
Proof.
  intros Hd Hok Hk. destruct (seal_shielding_ok base client k kb Hd Hok Hk) as (fs & Hs & Hf). exists fs. intros sh n shard.
  cbn [seal_messages TlsClient.seal_payload seal_shielding_key seal_handler_seals]. rewrite Hs. destruct Hok as (? & ? & ? & ? & ?). by split_and!.
Qed.

Lemma seal_second base client k ms :
  KeyInv.disk_writable (Fs := Fs) → sh_ok base client →
  ∃ fs, let sh := MkSealHandler (sh_states client) fs (MkKeyRepository k (KeyFiles.aes_seal base)) (shielding_key_repository client) (light_client_seal client) in
    ∀ n shard, seal_messages (H := Seals) clock shard n client ((OpStateKey, encode k) :: ms) = seal_messages (H := Seals) clock shard (S n) sh ms ∧
    sh_ok base sh ∧ light_file sh = light_file client.
Proof.
  intros Hd Hok. destruct (seal_state_key_ok base client k Hd Hok) as (fs & Hs & Hf). exists fs. intros sh n shard.
  cbn [seal_messages TlsClient.seal_payload seal_state_key seal_handler_seals]. rewrite Hs. destruct Hok as (? & ? & ? & ? & ?). by split_and!.
Qed.

(** The client has what its mode provisions, and the state of no other shard changed. *)
Definition provisioned_as (mode : WorkerMode) (base : Path) server client client' shard (st st0 : SgxExternalities) : Prop :=
  key_lock (shielding_key_repository client') = key_lock (shielding_key_repository server) ∧
  light_file client' = light_file server ∧ sh_ok base client' ∧
  match TlsServer.payload_of mode with
  | Everything =>
      key_lock (state_key_repository client') = key_lock (state_key_repository server) ∧
      hs_view (sh_states client') = <[shard := st]> (hs_view (sh_states client))
  | ShieldingKeyAndLightClient =>
      key_lock (state_key_repository client') = key_lock (state_key_repository client) ∧
      hs_view (sh_states client') = <[shard := Ext.prune_state_diff st0]> (hs_view (sh_states client))
  end.

Lemma keeps_state : bool_decide (OpShieldingKey ∈ [OpShieldingKey; OpStateKey; OpState; OpLightClient] ∧ OpState ∉ [OpShieldingKey; OpStateKey; OpState; OpLightClient]) = false.
Proof. done. Qed.
Lemma resets_state : bool_decide (OpShieldingKey ∈ [OpShieldingKey; OpLightClient] ∧ OpState ∉ [OpShieldingKey; OpLightClient]) = true.
Proof. done. Qed.

Lemma prune_of_view w shard st : hs_ok w → hs_view w !! shard = Some st → Ext.prune_state_diff st = st.
Proof. intros Hok Hv. pose proof (view_no_diff _ _ _ Hok Hv) as Hd. destruct st. cbn in *. by subst. Qed.

Lemma everything_provisioned base cap server x client shard account kb st l :
  KeyInv.disk_writable (Fs := Fs) → sh_ok base client → hs_writable (clock 2) (sh_states client) shard → TlsServer.REQUEST_SIZE ≤ cap →
  parts server shard kb st l → short (all_parts server kb st l) → length (wire (all_parts server kb st l)) ≤ cap →
  ∀ mode st0, TlsServer.payload_of mode = Everything →
  ∃ client', provision mode cap server x client shard account = Ret (client', Ok tt) ∧ provisioned_as mode base server client client' shard st st0.
Proof.
  intros Hd Hok Hw Hcap Hp Hs Hc mode st0 Hm. assert (mode_parts mode server kb st l = all_parts server kb st l) as Hmp by (unfold mode_parts; by rewrite Hm).
  rewrite (provision_reads _ _ _ _ _ _ _ (all_parts server kb st l)); [|done|done|by rewrite (served_parts mode cap server x shard account kb st l), Hmp by (by rewrite ?Hmp)].
  destruct Hp as (Hk & Hsok & Hst & Hl). unfold all_parts.
  destruct (seal_first base client _ kb [(OpStateKey, encode (key_lock (state_key_repository server))); (OpState, encode (Ext.state st)); (OpLightClient, encode l)] Hd Hok Hk)
    as (fs1 & Hm1). destruct (Hm1 0 shard) as (-> & Hok1 & Hf1). clear Hm1.
  destruct (seal_second base _ (key_lock (state_key_repository server)) [(OpState, encode (Ext.state st)); (OpLightClient, encode l)] Hd Hok1) as (fs2 & Hm2).
  destruct (Hm2 1 shard) as (-> & Hok2 & Hf2). clear Hm2. cbn [seal_messages TlsClient.seal_payload seal_state seal_light_client_state seal_handler_seals].
  match goal with |- context [sh_seal_state _ ?sh] => destruct (seal_state_ok (clock 2) sh shard st) as (w & -> & Hwok & Hv); [apply Hok2|done|] end.
  cbn [mbind outcome_bind].
  match goal with |- context [sh_seal_light_client_state ?sh] => destruct (seal_light_ok sh l Hd) as (fs3 & -> & Hf3) end.
  cbn [mbind outcome_bind]. unfold finish. cbn [fmap list_fmap fst]. rewrite keeps_state.
  eexists. split; [done|]. unfold provisioned_as. rewrite Hm. rewrite (prune_of_view _ _ _ Hsok Hst) in Hv.
  destruct Hok2 as (? & ? & ? & ? & ?). by split_and!; [|cbn; rewrite Hl| | |].
Qed.

Lemma light_provisioned base cap server x client shard account kb st l st0 :
  KeyInv.disk_writable (Fs := Fs) → sh_ok base client → hs_writable (clock 2) (sh_states client) shard → TlsServer.REQUEST_SIZE ≤ cap →
  initialize = Ok st0 → parts server shard kb st l → short (teeracle_parts kb l) → length (wire (teeracle_parts kb l)) ≤ cap →
  ∀ mode, TlsServer.payload_of mode = ShieldingKeyAndLightClient →
  ∃ client', provision mode cap server x client shard account = Ret (client', Ok tt) ∧ provisioned_as mode base server client client' shard st st0.
Proof.
  intros Hd Hok Hw Hcap Hi Hp Hs Hc mode Hm. assert (mode_parts mode server kb st l = teeracle_parts kb l) as Hmp by (unfold mode_parts; by rewrite Hm).
  rewrite (provision_reads _ _ _ _ _ _ _ (teeracle_parts kb l)); [|done|done|by rewrite (served_parts mode cap server x shard account kb st l), Hmp by (by rewrite ?Hmp)].
  destruct Hp as (Hk & Hsok & Hst & Hl). unfold teeracle_parts.
  destruct (seal_first base client _ kb [(OpLightClient, encode l)] Hd Hok Hk) as (fs1 & Hm1). destruct (Hm1 0 shard) as (-> & Hok1 & Hf1). clear Hm1.
  cbn [seal_messages TlsClient.seal_payload seal_light_client_state seal_handler_seals].
  match goal with |- context [sh_seal_light_client_state ?sh] => destruct (seal_light_ok sh l Hd) as (fs3 & -> & Hf3) end.
  cbn [mbind outcome_bind]. unfold finish. cbn [fmap list_fmap fst]. rewrite resets_state.
  cbn [seal_new_empty_state seal_handler_seals]. change (length _) with 2.
  match goal with |- context [sh_seal_new_empty_state _ ?sh] => destruct (seal_empty_ok (clock 2) sh shard st0 Hi) as (w & -> & Hwok & Hv); [apply Hok1|done|] end.
  eexists. split; [done|]. unfold provisioned_as. rewrite Hm.
  destruct Hok1 as (? & ? & ? & ? & ?). by split_and!; [|cbn; rewrite Hl| | |].
Qed.

(** C15: Provisioning ends with the client as the server, for its mode. *)
Theorem provisioned_worker_has_the_servers_parts mode base cap server x client shard account kb st l st0 :
  KeyInv.disk_writable (Fs := Fs) → sh_ok base client → hs_writable (clock 2) (sh_states client) shard → TlsServer.REQUEST_SIZE ≤ cap →
  initialize = Ok st0 → parts server shard kb st l →
  short (mode_parts mode server kb st l) → length (wire (mode_parts mode server kb st l)) ≤ cap →
  ∃ client', provision mode cap server x client shard account = Ret (client', Ok tt) ∧
    provisioned_as mode base server client client' shard st st0 ∧
    served mode cap server x (encode (MkProvisioningRequest shard account)) =
      (MkTls [] (wire (mode_parts mode server kb st l)) cap, server, (add_shard_vault_proxy x shard account).1, Ok tt).
Proof.
  intros Hd Hok Hw Hcap Hi Hp Hs Hc. pose proof (served_parts mode cap server x shard account kb st l Hp Hs Hc) as Hserved.
  unfold mode_parts in *. destruct (TlsServer.payload_of mode) eqn:Hm.
  - destruct (everything_provisioned base cap server x client shard account kb st l Hd Hok Hw Hcap Hp Hs Hc mode st0 Hm) as (c & ? & ?). by exists c.
  - destruct (light_provisioned base cap server x client shard account kb st l st0 Hd Hok Hw Hcap Hi Hp Hs Hc mode Hm) as (c & ? & ?). by exists c.
Qed.

(** *** A server without the state of the shard *)

Definition key_parts server (kb : Bytes) : list (Opcode * Bytes) := [(OpShieldingKey, kb); (OpStateKey, encode (key_lock (state_key_repository server)))].

Lemma served_keys mode cap server x shard account kb :
  TlsServer.payload_of mode = Everything → rsa_to_vec (key_lock (shielding_key_repository server)) = Ok kb →
  hs_ok (sh_states server) → hs_view (sh_states server) !! shard = None →
  short (key_parts server kb) → length (wire (key_parts server kb)) ≤ cap →
  served mode cap server x (encode (MkProvisioningRequest shard account)) =
  (MkTls [] (wire (key_parts server kb)) cap, server, x, Err (EnStateHandler (InvalidShard shard))).
Proof.
  intros Hm Hk Hok Hst Hs Hc. unfold served, TlsServer.run_state_provisioning_server, TlsServer.handle_shard_request_from_client.
  rewrite request_read, Hm. cbn [request_shard request_account TlsServer.write_provisioning_payloads].
  unfold TlsServer.write_shielding_key, TlsServer.write_state_key, TlsServer.write_state.
  assert (unseal_shielding_key (UnsealStateAndKeys := Unseals) server = Ok kb) as -> by (cbn; unfold sh_unseal_shielding_key; cbn; by rewrite Hk).
  change (length ([] ++ wire (key_parts server kb)) ≤ cap) in Hc. unfold key_parts in Hc, Hs.
  apply (write_unsealed_fits [] server) in Hc as (-> & Hs1 & Hc1); [|done]. cbn [TlsServer.and_then].
  change (unseal_state_key (UnsealStateAndKeys := Unseals) server) with (Ok (E := EnclaveError) (encode (key_lock (state_key_repository server)))).
  apply (write_unsealed_fits [] server) in Hc1 as (-> & _ & _); [|done]. cbn [TlsServer.and_then unseal_state seal_handler_unseals].
  unfold sh_unseal_state. rewrite (load_cloned_ok _ _ Hok), Hst. cbn [TlsServer.write_unsealed TlsServer.and_then].
  unfold key_parts. rewrite !wire_cons. unfold wire. cbn [fmap list_fmap concat]. by rewrite app_nil_r.
Qed.

Lemma resets_after_keys : bool_decide (OpShieldingKey ∈ [OpShieldingKey; OpStateKey] ∧ OpState ∉ [OpShieldingKey; OpStateKey]) = true.
Proof. done. Qed.

(** The server stops with an error after the keys; the client takes the end of the
    stream for the end of the provisioning, and starts the shard anew. *)
Theorem provisioning_without_state_succeeds mode base cap server x client shard account kb st0 :
  KeyInv.disk_writable (Fs := Fs) → sh_ok base client → hs_writable (clock 2) (sh_states client) shard → TlsServer.REQUEST_SIZE ≤ cap →
  initialize = Ok st0 → TlsServer.payload_of mode = Everything → rsa_to_vec (key_lock (shielding_key_repository server)) = Ok kb →
  hs_ok (sh_states server) → hs_view (sh_states server) !! shard = None →
  short (key_parts server kb) → length (wire (key_parts server kb)) ≤ cap →
  (served mode cap server x (encode (MkProvisioningRequest shard account))).2 = Err (EnStateHandler (InvalidShard shard)) ∧
  ∃ client', provision mode cap server x client shard account = Ret (client', Ok tt) ∧
    key_lock (shielding_key_repository client') = key_lock (shielding_key_repository server) ∧
    key_lock (state_key_repository client') = key_lock (state_key_repository server) ∧
    hs_view (sh_states client') = <[shard := Ext.prune_state_diff st0]> (hs_view (sh_states client)) ∧
    light_file client' = light_file client.
Proof.
  intros Hd Hok Hw Hcap Hi Hm Hk Hsok Hst Hs Hc. pose proof (served_keys mode cap server x shard account kb Hm Hk Hsok Hst Hs Hc) as Hserved.
  split; [by rewrite Hserved|]. rewrite (provision_reads _ _ _ _ _ _ _ (key_parts server kb)); [|done|done|by rewrite Hserved]. unfold key_parts.
  destruct (seal_first base client _ kb [(OpStateKey, encode (key_lock (state_key_repository server)))] Hd Hok Hk) as (fs1 & Hm1).
  destruct (Hm1 0 shard) as (-> & Hok1 & Hf1). clear Hm1.
  destruct (seal_second base _ (key_lock (state_key_repository server)) [] Hd Hok1) as (fs2 & Hm2).
  destruct (Hm2 1 shard) as (-> & Hok2 & Hf2). clear Hm2. cbn [seal_messages mbind outcome_bind].
  unfold finish. cbn [fmap list_fmap fst]. rewrite resets_after_keys. cbn [seal_new_empty_state seal_handler_seals]. change (length _) with 2.
  match goal with |- context [sh_seal_new_empty_state _ ?sh] => destruct (seal_empty_ok (clock 2) sh shard st0 Hi) as (w & -> & Hwok & Hv); [apply Hok2|done|] end.
  eexists. split; [done|]. split_and!; [done..|]. transitivity (light_file (MkSealHandler (sh_states client) fs1 (state_key_repository client) (MkKeyRepository (key_lock (shielding_key_repository server)) (KeyFiles.rsa_seal base)) (light_client_seal client))); [exact Hf2|exact Hf1].
Qed.
End provisioned.
End Provisioned.

(** ** Two concrete workers *)

Module ProvSample.
Import KeySample Sample SealHandlerImpl Provisioned.

(** A request is its fields, filled up with zeros. *)
#[export] Instance enc_request : Encode ClientProvisioningRequest := λ r,
  (request_shard r :: replicate 31 0%N) ++ request_account r :: replicate 31 0%N.
#[export] Instance dec_request : Decode ClientProvisioningRequest := λ b,
  match b !! 0, b !! 32 with Some s, Some a => Ok (MkProvisioningRequest s a) | _, _ => Err "length"%string end.
#[export] Instance codec_request : Codec ClientProvisioningRequest.
Proof. split. by intros []. Qed.
Lemma request_has_its_size (r : ClientProvisioningRequest) : length (encode r) = TlsServer.REQUEST_SIZE.
Proof. done. Qed.

#[export] Instance dec_ext : Decode SgxExternalitiesType := count_decode.
#[export] Instance codec_ext : Codec SgxExternalitiesType := count_codec.

Abbreviation Worker := (SealHandler (StateHandler.Handler.StateHandler Files) Disk N).
Definition light_seal : LightClientStateSeal := MkSeal "lc" Integritee.

(** A worker with keys of its own; the files have the state of its light client. *)
Definition worker (states : StateHandler.Handler.StateHandler Files) (n : N) (l : Z) : Worker :=
  MkSealHandler states {[ Seal.db_path light_seal := Sealed (encode l) ]}
    (MkKeyRepository (key n) (KeyFiles.aes_seal "dir")) (MkKeyRepository n (KeyFiles.rsa_seal "dir")) light_seal.

Definition clock (n : nat) : StateId := (10 + N.of_nat n)%N.
Definition no_proxy (x : unit) (_ : ShardIdentifier) (_ : AccountId) : unit * result unit string := (x, Ok tt).
End ProvSample.

Section witnesses.
Import KeySample Sample ProvSample Provisioned.

Lemma worker_ok states n l : hs_ok (HandleStateLaws := handle_state_laws) states →
  sh_ok (Rsa := N) (HandleStateLaws0 := handle_state_laws) initialize "dir" (worker states n l).
Proof. intros Hok. split_and!; done. Qed.

Lemma provisioned_worker_has_the_servers_parts_witness :
  ∃ client' : Worker, provision (RsaPub := N) (L := Z) ProvSample.clock no_proxy SidechainMode 200 (worker handler 1 7) tt (worker handler 2 9) shard 5%N = Ret (client', Ok tt) ∧
    key_lock (shielding_key_repository client') = 1%N.
Proof.
  destruct (provisioned_worker_has_the_servers_parts (Rsa := N) (RsaPub := N) (Ed := vec N 32) (L := Z) initialize ProvSample.clock no_proxy request_has_its_size
    SidechainMode "dir" 200 (worker handler 1 7) tt (worker handler 2 9) shard 5%N [1%N] Ext.default_externalities 7%Z Ext.default_externalities)
    as (c & Hc & (Hk & _) & _).
  - exact disk_is_writable.
  - apply worker_ok, handler_ok.
  - apply handler_writable. done.
  - apply Nat.leb_le. vm_compute. reflexivity.
  - reflexivity.
  - split_and!; [done|apply handler_ok|reflexivity|done].
  - repeat constructor.
  - apply Nat.leb_le. vm_compute. reflexivity.
  - exists c. split; [exact Hc|exact Hk].
Defined.

(** A server that has no shard. *)
Lemma provisioning_without_state_succeeds_witness :
  ∃ client' : Worker, provision (RsaPub := N) (L := Z) ProvSample.clock no_proxy OffChainWorker 200 (worker empty_handler 1 7) tt (worker handler 2 9) shard 5%N = Ret (client', Ok tt) ∧
    key_lock (state_key_repository client') = key 1.
Proof.
  destruct (provisioning_without_state_succeeds (Rsa := N) (RsaPub := N) (Ed := vec N 32) (L := Z) initialize ProvSample.clock no_proxy request_has_its_size
    OffChainWorker "dir" 200 (worker empty_handler 1 7) tt (worker handler 2 9) shard 5%N [1%N] Ext.default_externalities)
    as (_ & c & Hc & _ & Hk & _).
  - exact disk_is_writable.
  - apply worker_ok, handler_ok.
  - apply handler_writable. done.
  - apply Nat.leb_le. vm_compute. reflexivity.
  - reflexivity.
  - reflexivity.
  - reflexivity.
  - apply map_Forall_empty.
  - reflexivity.
  - repeat constructor.
  - apply Nat.leb_le. vm_compute. reflexivity.
  - exists c. split; [exact Hc|exact Hk].
Defined.

Lemma truncation_is_seen_inside_messages_witness :
  ∃ k, k = 1 ∧ take 12 (ProvInv.wire [(OpShieldingKey, [1%N]); (OpLightClient, encode 7%Z)]) ≠ ProvInv.wire (take k [(OpShieldingKey, [1%N]); (OpLightClient, encode 7%Z)]) ∧
    ∃ sh' err, ProvInv.read_all (H := SealHandlerImpl.seal_handler_seals (L := Z) (RsaPub := N)) ProvSample.clock shard
      (MkTls (take 12 (ProvInv.wire [(OpShieldingKey, [1%N]); (OpLightClient, encode 7%Z)])) [] 200) (worker handler 2 9) = Ret (sh', Err (EnIo err)).
Proof.
  destruct (ProvInv.truncation_is_seen_inside_messages (H := SealHandlerImpl.seal_handler_seals (L := Z) (RsaPub := N)) ProvSample.clock shard
    [(OpShieldingKey, [1%N]); (OpLightClient, encode 7%Z)] 12 [] 200 (worker handler 2 9)) as (k & Hk); [repeat constructor|].
  exists 1. split; [reflexivity|]. split; [intros Hl; apply (f_equal length) in Hl; vm_compute in Hl; discriminate Hl|].
  destruct Hk as [[Hk _]|(o & b & part & rest & err & Hm & Hp & Hr & Ho & Hk & He)].
  - exfalso. apply (f_equal length) in Hk. destruct k as [|[|k]]; vm_compute in Hk; discriminate Hk.
  - rewrite He. destruct k as [|[|k]]; [eexists _, err; reflexivity..|discriminate Hm].
Defined.
End witnesses.
