(* ===== verification/Attestation.v ===== *)
(** Mutual remote attestation: how the two sides of state provisioning decide whether
    the other is an enclave they may share keys with
    (src/core-primitives/attestation-handler/src/cert.rs and
    src/enclave-runtime/src/tls_ra/authentication.rs).

    Base64, the certificate library, JSON, the clock, the ocalls and the layout of a
    quote are external. *)

From stdpp Require Import base gmap numbers strings list vector.
From Stdlib Require Import Ascii.
From S2P Require Import Prelude Collections PoolTypes Externalities SidechainDb StfTypes StateFileIo StateHandler StfExecutor ConsensusSample LightClient LightClientInv ParentchainClient Keys.
From S2P Require Import Provisioning.

Open Scope worker_scope.
Local Open Scope nat_scope.

Inductive SgxStatus := SgxErrorUnexpected | SgxErrorUpdateNeeded | SgxErrorOther (code : Z).

#[export] Instance sgx_status_eq_dec : EqDecision SgxStatus.
Proof. solve_decision. Defined.

Inductive TLSError := NoCertificatesPresented | ExtensionValueInvalid.

(** ** What the check of a certificate uses *)

Class Base64 := base64_decode : Bytes → result Bytes string.

Class WebPki (Cert Anchors : Type) := {
  end_entity_cert : Bytes → option Cert;
  add_pem_file : Bytes → option Anchors;
  verify_is_valid_tls_server_cert : Cert → Anchors → list Bytes → Z → result unit string;
  verify_signature : Cert → Bytes → Bytes → result unit string;
}.

(** [string_field v k] is the string of [v[k]], if that is a string. *)
Class JsonValue (V : Type) := {
  json_from_slice : Bytes → result V string;
  string_field : V → string → option string;
}.

Class AttestationOCall (A : Type) := {
  get_update_info : A → Bytes → Z → result unit SgxStatus;
  get_mrenclave_of_self : A → result Bytes SgxStatus;
}.

(** The parts of [sgx_quote_t] that are looked at, and the read of one from memory. *)
Record SgxQuote := MkQuote {
  mr_enclave : Bytes;
  report_data : Bytes;
}.
Class QuoteLayout := read_quote : Bytes → SgxQuote.

(** ** Bytes and text *)

Module Text.

Definition index (l : Bytes) (i : nat) : outcome N := unwrap (l !! i).
Definition slice (l : Bytes) (a b : nat) : outcome Bytes :=
  if bool_decide (a ≤ b ∧ b ≤ length l) then Ret (take (b - a) (drop a l)) else Panic.
Definition windows (k : nat) (l : Bytes) : list Bytes := (λ i, take k (drop i l)) <$> seq 0 (S (length l) - k).

Definition as_bytes (s : string) : Bytes := (λ c, N_of_ascii c) <$> String.list_ascii_of_string s.

(** [slice::split] on a byte. *)
Fixpoint split (sep : N) (l : Bytes) : list Bytes :=
  match l with
  | [] => [[]]
  | x :: l =>
      if bool_decide (x = sep) then [] :: split sep l
      else match split sep l with
           | [] => [[x]]
           | p :: ps => (x :: p) :: ps
           end
  end.

(** Slices of a string end at the boundaries of its characters. *)
Definition is_char_boundary (s : Bytes) (i : nat) : bool :=
  match s !! i with
  | None => bool_decide (i = length s)
  | Some b => negb (bool_decide (128 ≤ b ∧ b < 192)%N)
  end.
Definition str_slice (s : Bytes) (a b : nat) : outcome Bytes :=
  if is_char_boundary s a && is_char_boundary s b then slice s a b else Panic.

(** [u8::from_str_radix] for hexadecimal digits. *)
Definition digit (b : N) : option N :=
  if bool_decide (48 ≤ b ≤ 57)%N then Some (b - 48)%N
  else if bool_decide (97 ≤ b ≤ 102)%N then Some (b - 87)%N
  else if bool_decide (65 ≤ b ≤ 70)%N then Some (b - 55)%N
  else None.
Definition accumulate (acc : option N) (b : N) : option N :=
  v ← acc; d ← digit b; if bool_decide (v * 16 + d < 256)%N then Some (v * 16 + d)%N else None.
Definition u8_from_hex (s : Bytes) : option N :=
  match s with
  | [] => None
  | [b] => if bool_decide (b = 43%N ∨ b = 45%N) then None else digit b
  | b :: s' => foldl accumulate (Some 0%N) (if bool_decide (b = 43%N) then s' else s)
  end.
End Text.

(** ** Certificates (cert.rs) *)

Module Cert.
Import Text.

Section cert.
Context {C Anchors V A : Type} `{Base64} `{WebPki C Anchors} `{JsonValue V} `{AttestationOCall A} `{QuoteLayout}.
(** The file of Intel's certificate, the clock and [DateTime::parse_from_str]. *)
Context (IAS_REPORT_CA : Bytes) (now : result Z string) (parse_timestamp : string → result Z string).
Implicit Types (cert_der : Bytes) (ocall : A).

Definition prime256v1_oid : Bytes := [0x06; 0x08; 0x2A; 0x86; 0x48; 0xCE; 0x3D; 0x03; 0x01; 0x07]%N.
Definition ns_cmt_oid : Bytes := [0x06; 0x09; 0x60; 0x86; 0x48; 0x01; 0x86; 0xF8; 0x42; 0x01; 0x0D]%N.

Definition find_oid (oid cert_der : Bytes) : result nat SgxStatus :=
  match position (λ w, bool_decide (w = oid)) (windows (length oid) cert_der) with
  | Some i => Ok i
  | None => Err SgxErrorUnexpected
  end.

(** The length at an offset, and where it ends: one byte, or a marker and two bytes. *)
Definition length_at cert_der (offset : nat) : outcome (nat * nat) :=
  index cert_der offset ≫= λ b,
  if bool_decide (128 < b)%N
  then index cert_der (offset + 1) ≫= λ hi, index cert_der (offset + 2) ≫= λ lo,
       Ret (N.to_nat hi * 256 + N.to_nat lo, offset + 3)
  else Ret (N.to_nat b, offset + 1).

Definition parse_cert_issuer cert_der : outcome (result Bytes SgxStatus) :=
  match find_oid prime256v1_oid cert_der with
  | Err e => Ret (Err e)
  | Ok i =>
      length_at cert_der (i + 11) ≫= λ '(len, offset),
      slice cert_der (offset + 2) (offset + len) ≫= λ pub_k, Ret (Ok pub_k)
  end.

Definition netscape_comment cert_der : outcome (result Bytes SgxStatus) :=
  match find_oid ns_cmt_oid cert_der with
  | Err e => Ret (Err e)
  | Ok i =>
      length_at cert_der (i + 12) ≫= λ '(len, offset),
      slice cert_der offset (offset + len) ≫= λ payload, Ret (Ok payload)
  end.

(** [?] where any error becomes [SGX_ERROR_UNEXPECTED]. *)
Definition or_unexpected {T E} (r : result T E) (k : T → outcome (result unit SgxStatus)) : outcome (result unit SgxStatus) :=
  match r with Ok a => k a | Err _ => Ret (Err SgxErrorUnexpected) end.
Definition or_status {T} (r : result T SgxStatus) (k : T → outcome (result unit SgxStatus)) : outcome (result unit SgxStatus) :=
  match r with Ok a => k a | Err e => Ret (Err e) end.
Definition from_some {T} (o : option T) : result T unit := match o with Some a => Ok a | None => Err tt end.

(** *** The report *)

(** The age of the report is only logged. *)
Definition check_timestamp (report : V) : result unit SgxStatus :=
  match string_field report "timestamp" with
  | None => Err SgxErrorUnexpected
  | Some time =>
      match parse_timestamp (time +:+ "+0000"), now with
      | Ok _, Ok _ => Ok tt
      | _, _ => Err SgxErrorUnexpected
      end
  end.

Definition SGX_PLATFORM_INFO_SIZE : nat := 101.

Fixpoint push_platform_info (pib : Bytes) (ixs : list nat) (buf : Bytes) : outcome (result Bytes SgxStatus) :=
  match ixs with
  | [] => Ret (Ok buf)
  | i :: ixs =>
      str_slice pib (i * 2 + 8) (i * 2 + 10) ≫= λ s,
      match u8_from_hex s with
      | None => Ret (Err SgxErrorUnexpected)
      | Some b =>
          if bool_decide (length buf < SGX_PLATFORM_INFO_SIZE) then push_platform_info pib ixs (buf ++ [b])
          else Ret (Err SgxErrorUnexpected)
      end
  end.

(** A blob without a header of eight digits: the length underflows, or the first slice is out of range. *)
Definition platform_info (pib : Bytes) : outcome (result Bytes SgxStatus) :=
  if bool_decide (length pib < 8) then Panic
  else
    push_platform_info pib (seq 0 ((length pib - 8) / 2)) [] ≫= λ r,
    Ret match r with
        | Err e => Err e
        | Ok buf => if bool_decide (length buf = SGX_PLATFORM_INFO_SIZE) then Ok buf else Err SgxErrorUnexpected
        end.

Definition check_quote_status (report : V) ocall : outcome (result unit SgxStatus) :=
  match string_field report "isvEnclaveQuoteStatus" with
  | None => Ret (Err SgxErrorUnexpected)
  | Some quote_status =>
      if bool_decide (quote_status ∈ ["OK"; "SW_HARDENING_NEEDED"]%string) then Ret (Ok tt)
      else if bool_decide (quote_status ∈ ["GROUP_OUT_OF_DATE"; "GROUP_REVOKED"; "CONFIGURATION_NEEDED"]%string) then
        match string_field report "platformInfoBlob" with
        | None => Ret (Err SgxErrorUnexpected)
        | Some pib => platform_info (as_bytes pib) ≫= λ r, or_status r (λ info, Ret (get_update_info ocall info 1))
        end
      else Ret (Err SgxErrorUnexpected)
  end.

(** That the report is for the key of the certificate is only logged. *)
Definition check_quote_body (report : V) (pub_k : Bytes) ocall : result unit SgxStatus :=
  match string_field report "isvEnclaveQuoteBody" with
  | None => Err SgxErrorUnexpected
  | Some quote_raw =>
      match base64_decode (as_bytes quote_raw) with
      | Err _ => Err SgxErrorUnexpected
      | Ok quote =>
          let sgx_quote := read_quote quote in
          match get_mrenclave_of_self ocall with
          | Err e => Err e
          | Ok ti =>
              if negb (bool_decide (mr_enclave sgx_quote = ti)) then Err SgxErrorUnexpected
              else if bool_decide (report_data sgx_quote = pub_k) then Ok tt
              else Ok tt
          end
      end
  end.

Definition verify_attn_report (report_raw pub_k : Bytes) ocall : outcome (result unit SgxStatus) :=
  or_unexpected (json_from_slice report_raw) (λ report,
  or_status (check_timestamp report) (λ _,
  check_quote_status report ocall ≫= λ r, or_status r (λ _,
  Ret (check_quote_body report pub_k ocall)))).

(** *** The signature of the report *)

(** The base64 text between the first and the last line of the file. *)
Definition ias_ca_core : outcome Bytes :=
  let ias_ca_stripped := List.filter (λ x, negb (bool_decide (x = 13%N ∨ x = 10%N))) IAS_REPORT_CA in
  let full_len := length ias_ca_stripped in
  if bool_decide (full_len < 25) then Panic else slice ias_ca_stripped 27 (full_len - 25).

Definition verify_report_signature (sig_cert : C) (attn_report_raw sig : Bytes) (k : outcome (result unit SgxStatus)) :
    outcome (result unit SgxStatus) :=
  ias_ca_core ≫= λ core,
  or_unexpected (base64_decode core) (λ ias_cert_dec,
  unwrap (add_pem_file IAS_REPORT_CA) ≫= λ trust_anchors,
  or_unexpected now (λ t,
  or_unexpected (verify_is_valid_tls_server_cert sig_cert trust_anchors [ias_cert_dec] t) (λ _,
  or_unexpected (verify_signature sig_cert attn_report_raw sig) (λ _, k)))).

Definition verify_payload (payload pub_k : Bytes) ocall : outcome (result unit SgxStatus) :=
  let fields := split 124%N payload in
  or_unexpected (from_some (fields !! 0)) (λ attn_report_raw,
  or_unexpected (from_some (fields !! 1)) (λ sig_raw,
  or_unexpected (base64_decode sig_raw) (λ sig,
  or_unexpected (from_some (fields !! 2)) (λ sig_cert_raw,
  or_unexpected (base64_decode sig_cert_raw) (λ sig_cert_dec,
  unwrap (end_entity_cert sig_cert_dec) ≫= λ sig_cert,
  verify_report_signature sig_cert attn_report_raw sig (verify_attn_report attn_report_raw pub_k ocall)))))).

(** With DCAP the payload is not looked at. *)
Definition verify_mra_cert cert_der (is_payload_base64_encoded is_dcap : bool) ocall : outcome (result unit SgxStatus) :=
  parse_cert_issuer cert_der ≫= λ r, or_status r (λ pub_k,
  netscape_comment cert_der ≫= λ r, or_status r (λ comment,
  or_unexpected (if is_payload_base64_encoded then base64_decode comment else Ok comment) (λ payload,
  if is_dcap then Ret (Ok tt) else verify_payload payload pub_k ocall))).
End cert.
End Cert.

(** ** The two sides (authentication.rs) *)

Record ClientAuth (A : Type) := MkClientAuth { ca_outdated_ok : bool; ca_skip_ra : bool; ca_ocall : A }.
Record ServerAuth (A : Type) := MkServerAuth { sa_outdated_ok : bool; sa_skip_ra : bool; sa_ocall : A }.
Arguments MkClientAuth {A} _ _ _.
Arguments ca_outdated_ok {A} _.
Arguments ca_skip_ra {A} _.
Arguments ca_ocall {A} _.
Arguments MkServerAuth {A} _ _ _.
Arguments sa_outdated_ok {A} _.
Arguments sa_skip_ra {A} _.
Arguments sa_ocall {A} _.

Module Auth.
Import Cert.

Section auth.
Context {C Anchors V A : Type} `{Base64} `{WebPki C Anchors} `{JsonValue V} `{AttestationOCall A} `{QuoteLayout}.
Context (IAS_REPORT_CA : Bytes) (now : result Z string) (parse_timestamp : string → result Z string).
(** The [dcap] feature. *)
Context (is_dcap : bool).
Implicit Types (certs : list Bytes).

Definition on_verified (outdated_ok : bool) (r : result unit SgxStatus) : result unit TLSError :=
  match r with
  | Ok _ => Ok tt
  | Err SgxErrorUpdateNeeded => if outdated_ok then Ok tt else Err ExtensionValueInvalid
  | Err _ => Err ExtensionValueInvalid
  end.

Definition verify_client_cert (auth : ClientAuth A) certs : outcome (result unit TLSError) :=
  match certs with
  | [] => Ret (Err NoCertificatesPresented)
  | cert :: _ =>
      parse_cert_issuer cert ≫= λ issuer,
      match issuer with
      | Err _ => Ret (Err NoCertificatesPresented)
      | Ok _ =>
          if ca_skip_ra auth then Ret (Ok tt)
          else
            verify_mra_cert IAS_REPORT_CA now parse_timestamp cert true is_dcap (ca_ocall auth) ≫= λ r,
            Ret (on_verified (ca_outdated_ok auth) r)
      end
  end.

Definition verify_server_cert (auth : ServerAuth A) certs : outcome (result unit TLSError) :=
  match certs with
  | [] => Ret (Err NoCertificatesPresented)
  | cert :: _ =>
      parse_cert_issuer cert ≫= λ issuer,
      match issuer with
      | Err _ => Ret (Err NoCertificatesPresented)
      | Ok _ =>
          if sa_skip_ra auth then Ret (Ok tt)
          else
            verify_mra_cert IAS_REPORT_CA now parse_timestamp cert true is_dcap (sa_ocall auth) ≫= λ r,
            Ret (on_verified (sa_outdated_ok auth) r)
      end
  end.

(** The verifiers of [tls_server_config] and [tls_client_config]. *)
Definition server_config (skip_ra : bool) (ocall : A) : ClientAuth A := MkClientAuth true skip_ra ocall.
Definition client_config (skip_ra : bool) (ocall : A) : ServerAuth A := MkServerAuth true skip_ra ocall.
End auth.
End Auth.

(** ** What an accepted certificate shows *)

Module AuthInv.
Import Text Cert Auth.

Section inv.
Context {C Anchors V A : Type} `{Base64} `{WebPki C Anchors} `{JsonValue V} `{AttestationOCall A} `{QuoteLayout}.
Context (IAS_REPORT_CA : Bytes) (now : result Z string) (parse_timestamp : string → result Z string).
Implicit Types (cert payload : Bytes) (ocall : A).

Abbreviation verify_mra := (verify_mra_cert (C := C) (V := V) IAS_REPORT_CA now parse_timestamp).
Abbreviation verify_client := (verify_client_cert (C := C) (V := V) IAS_REPORT_CA now parse_timestamp).
Abbreviation verify_server := (verify_server_cert (C := C) (V := V) IAS_REPORT_CA now parse_timestamp).

Lemma or_unexpected_ok {T E} (r : result T E) k s : or_unexpected r k = Ret s → s = Err SgxErrorUnexpected ∨ ∃ a, r = Ok a ∧ k a = Ret s.
Proof. destruct r as [a|e]; cbn; [by eauto|]. intros [= <-]. by left. Qed.

Lemma or_status_ok {T} (r : result T SgxStatus) k s : or_status r k = Ret s → (∃ e, r = Err e ∧ s = Err e) ∨ ∃ a, r = Ok a ∧ k a = Ret s.
Proof. destruct r as [a|e]; cbn; [by eauto|]. intros [= <-]. by eauto. Qed.

Lemma unwrap_bind {T S} (o : option T) (k : T → outcome S) s : unwrap o ≫= k = Ret s → ∃ a, o = Some a ∧ k a = Ret s.
Proof. destruct o; cbn; [by eauto|done]. Qed.

Lemma outcome_bind_ret {T S} (m : outcome T) (k : T → outcome S) s : m ≫= k = Ret s → ∃ a, m = Ret a ∧ k a = Ret s.
Proof. destruct m; cbn; [by eauto|done..]. Qed.

(** A report of Intel's service: signed with a key that Intel's certificate vouches for. *)
Definition intel_report payload (report : V) : Prop :=
  ∃ attn_report_raw sig_raw sig cert_raw cert_dec sig_cert core ca anchors t,
    take 3 (split 124%N payload) = [attn_report_raw; sig_raw; cert_raw] ∧
    base64_decode sig_raw = Ok sig ∧ base64_decode cert_raw = Ok cert_dec ∧ end_entity_cert cert_dec = Some sig_cert ∧
    ias_ca_core IAS_REPORT_CA = Ret core ∧ base64_decode core = Ok ca ∧ add_pem_file IAS_REPORT_CA = Some anchors ∧ now = Ok t ∧
    verify_is_valid_tls_server_cert sig_cert anchors [ca] t = Ok tt ∧ verify_signature sig_cert attn_report_raw sig = Ok tt ∧
    json_from_slice attn_report_raw = Ok report.

(** The platform is in order, or Intel's service says what to do about it. *)
Definition status_in (report : V) (l : list string) : Prop := ∃ s, string_field report "isvEnclaveQuoteStatus" = Some s ∧ s ∈ l.
Definition outdated_statuses : list string := ["GROUP_OUT_OF_DATE"; "GROUP_REVOKED"; "CONFIGURATION_NEEDED"]%string.

(** The report is about the code of this enclave. *)
Definition same_enclave (report : V) ocall : Prop :=
  ∃ raw quote ti, string_field report "isvEnclaveQuoteBody" = Some raw ∧ base64_decode (as_bytes raw) = Ok quote ∧
    get_mrenclave_of_self ocall = Ok ti ∧ mr_enclave (read_quote quote) = ti.

Definition update_needed (report : V) ocall : Prop :=
  ∃ pib info, string_field report "platformInfoBlob" = Some pib ∧ platform_info (as_bytes pib) = Ret (Ok info) ∧
    get_update_info ocall info 1 = Err SgxErrorUpdateNeeded.

Lemma quote_body_ok report pub_k ocall : check_quote_body report pub_k ocall = Ok tt → same_enclave report ocall.
Proof.
  unfold check_quote_body, same_enclave. destruct (string_field report _) as [raw|]; [|done]. destruct (base64_decode (as_bytes raw)) as [quote|] eqn:Hq; [|done].
  destruct (get_mrenclave_of_self ocall) as [ti|] eqn:Ht; [|done]. case_bool_decide; [|done]. intros _. by exists raw, quote, ti.
Qed.

Lemma push_no_update pib ixs buf : push_platform_info pib ixs buf ≠ Ret (Err SgxErrorUpdateNeeded).
Proof.
  revert buf. induction ixs as [|i ixs IH]; intros buf; [done|]. cbn. destruct (str_slice _ _ _); [|done..]. cbn.
  destruct (u8_from_hex _); [|done]. by case_bool_decide.
Qed.

Lemma quote_status_ok report ocall r :
  check_quote_status report ocall = Ret r →
  match r with
  | Ok _ => status_in report (["OK"; "SW_HARDENING_NEEDED"]%string ++ outdated_statuses)
  | Err SgxErrorUpdateNeeded => status_in report outdated_statuses ∧ update_needed report ocall
  | Err _ => True
  end.
Proof.
  unfold check_quote_status, status_in. destruct (string_field report "isvEnclaveQuoteStatus") as [s|] eqn:Hs; [|by intros [= <-]].
  case_bool_decide as Hg. { intros [= <-]. exists s. split; [done|]. apply elem_of_app. by left. }
  case_bool_decide as Ho; [|by intros [= <-]]. destruct (string_field report "platformInfoBlob") as [pib|] eqn:Hp; [|by intros [= <-]].
  intros (r1 & Hi & [(e & -> & ->)|(info & -> & [= <-])]%or_status_ok)%outcome_bind_ret.
  - destruct e; try done. unfold platform_info in Hi. case_bool_decide; [done|]. apply outcome_bind_ret in Hi as ([buf|e] & Hb & Hi).
    + by case_bool_decide.
    + injection Hi as ->. by apply push_no_update in Hb.
  - destruct (get_update_info ocall info 1) as [[]|[]] eqn:Hu; try done.
    + exists s. split; [done|]. apply elem_of_app. by right.
    + split; [by exists s|]. by exists pib, info.
Qed.

Lemma timestamp_no_update report : check_timestamp now parse_timestamp report ≠ Err SgxErrorUpdateNeeded.
Proof. unfold check_timestamp. destruct (string_field _ _); [|done]. destruct (parse_timestamp _); [|done]. by destruct now. Qed.

(** What is checked of a report that Intel signed. *)
Definition report_checks (report : V) (pub_k : Bytes) ocall : outcome (result unit SgxStatus) :=
  or_status (check_timestamp now parse_timestamp report) (λ _,
  check_quote_status report ocall ≫= λ r, or_status r (λ _, Ret (check_quote_body report pub_k ocall))).

Lemma from_some_inv {T} (o : option T) k (s : result unit SgxStatus) :
  or_unexpected (from_some o) k = Ret s → s = Err SgxErrorUnexpected ∨ ∃ a, o = Some a ∧ k a = Ret s.
Proof. destruct o as [a|]; cbn; [by eauto|]. intros [= <-]. by left. Qed.

Lemma verify_payload_inv payload pub_k ocall s :
  verify_payload (C := C) (V := V) IAS_REPORT_CA now parse_timestamp payload pub_k ocall = Ret s →
  s = Err SgxErrorUnexpected ∨ ∃ report, intel_report payload report ∧ report_checks report pub_k ocall = Ret s.
Proof.
  unfold verify_payload. intros Hv. set (fields := split 124%N payload) in *.
  apply from_some_inv in Hv as [->|(raw & Hf0 & Hv)]; [by left|]. apply from_some_inv in Hv as [->|(sraw & Hf1 & Hv)]; [by left|].
  apply or_unexpected_ok in Hv as [->|(sig & Hsig & Hv)]; [by left|]. apply from_some_inv in Hv as [->|(craw & Hf2 & Hv)]; [by left|].
  apply or_unexpected_ok in Hv as [->|(cdec & Hc & Hv)]; [by left|]. apply unwrap_bind in Hv as (sc & Hsc & Hv).
  unfold verify_report_signature in Hv. apply outcome_bind_ret in Hv as (core & Hcore & Hv).
  apply or_unexpected_ok in Hv as [->|(ca & Hca & Hv)]; [by left|]. apply unwrap_bind in Hv as (anchors & Han & Hv).
  apply or_unexpected_ok in Hv as [->|(t & Ht & Hv)]; [by left|]. apply or_unexpected_ok in Hv as [->|([] & Hval & Hv)]; [by left|].
  apply or_unexpected_ok in Hv as [->|([] & Hs & Hv)]; [by left|]. unfold verify_attn_report in Hv.
  apply or_unexpected_ok in Hv as [->|(report & Hr & Hv)]; [by left|]. right. exists report. split; [|done].
  exists raw, sraw, sig, craw, cdec, sc, core, ca, anchors, t. split_and!; try done.
  fold fields. destruct fields as [|f0 [|f1 [|f2 fs]]]; try done. cbn in *. by simplify_eq.
Qed.

Lemma verify_payload_intel payload pub_k ocall report :
  intel_report payload report →
  verify_payload (C := C) (V := V) IAS_REPORT_CA now parse_timestamp payload pub_k ocall = report_checks report pub_k ocall.
Proof.
  intros (raw & sraw & sig & craw & cdec & sc & core & ca & anchors & t & Hf & Hsig & Hc & Hsc & Hcore & Hca & Han & Ht & Hval & Hs & Hr).
  unfold verify_payload, report_checks. destruct (split 124%N payload) as [|f0 [|f1 [|f2 fs]]]; try done. cbn in Hf. injection Hf as -> -> ->.
  cbn. rewrite Hsig. cbn. rewrite Hc. cbn. rewrite Hsc. cbn. unfold verify_report_signature. rewrite Hcore. cbn. rewrite Hca. cbn.
  rewrite Han. cbn. rewrite Ht. cbn. rewrite Hval. cbn. rewrite Hs. cbn. unfold verify_attn_report. by rewrite Hr.
Qed.

(** *** Who is accepted *)

(** The report that a certificate carries. *)
Definition carries cert (report : V) : Prop :=
  ∃ pub_k comment payload, parse_cert_issuer cert = Ret (Ok pub_k) ∧ netscape_comment cert = Ret (Ok comment) ∧ base64_decode comment = Ok payload ∧
    intel_report payload report.

Lemma verify_mra_inv cert ocall s :
  verify_mra cert true false ocall = Ret s → s = Ok tt ∨ s = Err SgxErrorUpdateNeeded →
  (∃ pub_k report, carries cert report ∧ report_checks report pub_k ocall = Ret s) ∨
  parse_cert_issuer cert = Ret (Err SgxErrorUpdateNeeded) ∨ netscape_comment cert = Ret (Err SgxErrorUpdateNeeded).
Proof.
  unfold verify_mra_cert. intros (r1 & Hk & [(e & -> & ->)|(pub_k & -> & Hv)]%or_status_ok)%outcome_bind_ret Hs.
  { destruct Hs as [|[= ->]]; [done|]. by right; left. }
  apply outcome_bind_ret in Hv as (r2 & Hc & [(e & -> & ->)|(comment & -> & Hv)]%or_status_ok).
  { destruct Hs as [|[= ->]]; [done|]. by right; right. }
  apply or_unexpected_ok in Hv as [->|(payload & Hp & Hv)]; [by destruct Hs|].
  apply verify_payload_inv in Hv as [->|(report & Hi & Hv)]; [by destruct Hs|].
  left. exists pub_k, report. split; [|done]. by exists pub_k, comment, payload.
Qed.

Lemma find_oid_unexpected oid cert e : find_oid oid cert = Err e → e = SgxErrorUnexpected.
Proof. unfold find_oid. destruct (position _ _); [done|]. by intros [= <-]. Qed.

Lemma parse_unexpected cert e : parse_cert_issuer cert = Ret (Err e) ∨ netscape_comment cert = Ret (Err e) → e = SgxErrorUnexpected.
Proof.
  unfold parse_cert_issuer, netscape_comment. intros [Hp|Hp];
    (destruct (find_oid _ cert) as [i|e'] eqn:Hf; [|injection Hp as <-; by eapply find_oid_unexpected]);
    apply outcome_bind_ret in Hp as ([len off] & _ & Hp); by apply outcome_bind_ret in Hp as (b & _ & Hp).
Qed.

Lemma report_checks_inv report pub_k ocall s :
  report_checks report pub_k ocall = Ret s →
  match s with
  | Ok _ => status_in report (["OK"; "SW_HARDENING_NEEDED"]%string ++ outdated_statuses) ∧ same_enclave report ocall
  | Err SgxErrorUpdateNeeded => (status_in report outdated_statuses ∧ update_needed report ocall) ∨ get_mrenclave_of_self ocall = Err SgxErrorUpdateNeeded
  | Err _ => True
  end.
Proof.
  unfold report_checks. intros [(e & Ht & ->)|([] & _ & Hv)]%or_status_ok; [destruct e; try done; by apply timestamp_no_update in Ht|].
  apply outcome_bind_ret in Hv as (r & Hq%quote_status_ok & [(e & -> & ->)|([] & -> & [= <-])]%or_status_ok); [destruct e; auto|].
  destruct (check_quote_body report pub_k ocall) as [[]|[]] eqn:Hb; try done.
  - split; [done|]. by eapply quote_body_ok.
  - right. unfold check_quote_body in Hb. destruct (string_field report _); [|done]. destruct (base64_decode _); [|done].
    destruct (get_mrenclave_of_self ocall) as [ti|e]; [by repeat case_bool_decide|]. by injection Hb as ->.
Qed.

(** What a report of Intel's service must say of the other side: that its platform is in
    order and its code is the code of this enclave; or that its platform needs an
    update, which is accepted before the code is compared.  The last case is the error
    with which the SDK can fail to name the code of this enclave. *)
Definition attested (report : V) ocall : Prop :=
  (status_in report (["OK"; "SW_HARDENING_NEEDED"]%string ++ outdated_statuses) ∧ same_enclave report ocall) ∨
  (status_in report outdated_statuses ∧ update_needed report ocall) ∨
  get_mrenclave_of_self ocall = Err SgxErrorUpdateNeeded.

(** The certificate has a comment, whatever it says. *)
Definition has_comment cert : Prop :=
  ∃ comment payload, netscape_comment cert = Ret (Ok comment) ∧ base64_decode comment = Ok payload.

Lemma mra_accepts d cert ocall s :
  verify_mra cert true d ocall = Ret s → s = Ok tt ∨ s = Err SgxErrorUpdateNeeded →
  if d then has_comment cert else ∃ report, carries cert report ∧ attested report ocall.
Proof.
  intros Hm Hs. destruct d.
  - unfold verify_mra_cert in Hm. apply outcome_bind_ret in Hm as (r1 & Hk & [(e & -> & ->)|(pub_k & -> & Hm)]%or_status_ok).
    { exfalso. destruct Hs as [|[= ->]]; [done|]. by apply (or_introl (B := netscape_comment cert = Ret (Err SgxErrorUpdateNeeded))), parse_unexpected in Hk. }
    apply outcome_bind_ret in Hm as (r2 & Hc & [(e & -> & ->)|(comment & -> & Hm)]%or_status_ok).
    { exfalso. destruct Hs as [|[= ->]]; [done|]. by apply (or_intror (A := parse_cert_issuer cert = Ret (Err SgxErrorUpdateNeeded))), parse_unexpected in Hc. }
    apply or_unexpected_ok in Hm as [->|(payload & Hp & _)]; [by destruct Hs|]. by exists comment, payload.
  - destruct (verify_mra_inv cert ocall s Hm Hs) as [(pub_k & report & Hc & Hr)|Hp].
    + exists report. split; [done|]. apply report_checks_inv in Hr. unfold attested. destruct Hs as [->| ->]; naive_solver.
    + exfalso. by apply (parse_unexpected cert SgxErrorUpdateNeeded) in Hp.
Qed.

(** C17: A peer that either side accepts has a certificate with a public key.  Unless the
    side was started without attestation, or was built for DCAP (which only looks for a
    comment in the certificate), the certificate carries a report of Intel's service: on
    the code of this enclave, or on a platform for which the service asks for an update,
    or the enclave could not name its own code. *)
Theorem accepted_peers_are_attested d skip_ra ocall certs :
  verify_client d (server_config skip_ra ocall) certs = Ret (Ok tt) ∨ verify_server d (client_config skip_ra ocall) certs = Ret (Ok tt) →
  ∃ cert rest pub_k, certs = cert :: rest ∧ parse_cert_issuer cert = Ret (Ok pub_k) ∧
    (skip_ra = false → if d then has_comment cert else ∃ report, carries cert report ∧ attested report ocall).
Proof.
  intros Hv. destruct certs as [|cert rest]; [by destruct Hv|]. exists cert, rest.
  assert (∃ pub_k, parse_cert_issuer cert = Ret (Ok pub_k) ∧
    (skip_ra = false → ∃ s, verify_mra cert true d ocall = Ret s ∧ (s = Ok tt ∨ s = Err SgxErrorUpdateNeeded))) as (pub_k & Hk & Hm).
  { destruct Hv as [Hv|Hv]; cbn in Hv; apply outcome_bind_ret in Hv as ([pub_k|] & Hk & Hv); try done; exists pub_k; (split; [exact Hk|]);
      intros ->; apply outcome_bind_ret in Hv as (s & Hm & Hv); exists s; (split; [exact Hm|]); destruct s as [[]|[]]; try done; auto. }
  exists pub_k. split; [done|]. split; [done|]. intros Hskip. destruct (Hm Hskip) as (s & Hs & Hor). by eapply mra_accepts.
Qed.

(** *** The key of the certificate is not part of what is checked *)

Lemma bind_ext {T S} (m : outcome T) (k1 k2 : T → outcome S) : (∀ a, k1 a = k2 a) → m ≫= k1 = m ≫= k2.
Proof. intros Hk. destruct m as [a| |]; [apply Hk|reflexivity..]. Qed.
Lemma or_status_ext {T} (r : result T SgxStatus) k1 k2 : (∀ a, k1 a = k2 a) → or_status r k1 = or_status r k2.
Proof. intros Hk. destruct r as [a|]; [apply Hk|reflexivity]. Qed.
Lemma or_unexpected_ext {T E} (r : result T E) k1 k2 : (∀ a, k1 a = k2 a) → or_unexpected r k1 = or_unexpected r k2.
Proof. intros Hk. destruct r as [a|]; [apply Hk|reflexivity]. Qed.

Lemma report_of_any_key report_raw k1 k2 ocall :
  verify_attn_report (V := V) now parse_timestamp report_raw k1 ocall = verify_attn_report (V := V) now parse_timestamp report_raw k2 ocall.
Proof.
  apply or_unexpected_ext. intros report. apply or_status_ext. intros _. apply bind_ext. intros r. apply or_status_ext. intros _.
  unfold check_quote_body. by repeat case_match.
Qed.

Lemma payload_of_any_key payload k1 k2 ocall :
  verify_payload (C := C) (V := V) IAS_REPORT_CA now parse_timestamp payload k1 ocall =
  verify_payload (C := C) (V := V) IAS_REPORT_CA now parse_timestamp payload k2 ocall.
Proof.
  unfold verify_payload. apply or_unexpected_ext. intros raw. by rewrite (report_of_any_key raw k1 k2 ocall).
Qed.

Lemma mra_of_any_key c1 c2 k1 k2 d ocall :
  parse_cert_issuer c1 = Ret (Ok k1) → parse_cert_issuer c2 = Ret (Ok k2) → netscape_comment c2 = netscape_comment c1 →
  verify_mra c2 true d ocall = verify_mra c1 true d ocall.
Proof.
  intros Hk1 Hk2 Hc. unfold verify_mra_cert. rewrite Hk1, Hk2, Hc. cbn [mbind outcome_bind or_status].
  apply bind_ext. intros r. apply or_status_ext. intros comment. apply or_unexpected_ext. intros payload.
  destruct d; [reflexivity|apply payload_of_any_key].
Qed.

Lemma client_of_any_key c1 c2 k1 k2 d auth :
  parse_cert_issuer c1 = Ret (Ok k1) → parse_cert_issuer c2 = Ret (Ok k2) → netscape_comment c2 = netscape_comment c1 →
  verify_client d auth [c2] = verify_client d auth [c1].
Proof. intros Hk1 Hk2 Hc. unfold verify_client_cert. rewrite Hk1, Hk2. cbn. by rewrite (mra_of_any_key c1 c2 k1 k2). Qed.

(** *** An outdated platform *)

Lemma outdated_accepted d cert report ocall :
  carries cert report → check_timestamp now parse_timestamp report = Ok tt → status_in report outdated_statuses → update_needed report ocall →
  verify_client d (server_config false ocall) [cert] = Ret (Ok tt).
Proof.
  intros (pub_k & comment & payload & Hk & Hc & Hp & Hi) Ht (s & Hs & Ho) (pib & info & Hpib & Hinfo & Hu).
  unfold verify_client_cert. rewrite Hk. cbn. unfold verify_mra_cert. rewrite Hk. cbn. rewrite Hc. cbn. rewrite Hp. cbn.
  destruct d; [done|]. rewrite (verify_payload_intel payload pub_k ocall report Hi). unfold report_checks. rewrite Ht. cbn.
  unfold check_quote_status. rewrite Hs, bool_decide_false, bool_decide_true by (first [done|unfold outdated_statuses in Ho; set_solver]).
  rewrite Hpib, Hinfo. cbn. by rewrite Hu.
Qed.
End inv.
End AuthInv.

(** ** Provisioning for an attested peer *)

Module Session.
Import Text Cert Auth AuthInv Provisioned ProvInv.

Section session.
Context {C Anchors V A : Type} `{Base64} `{WebPki C Anchors} `{JsonValue V} `{AttestationOCall A} `{QuoteLayout}.
Context (IAS_REPORT_CA : Bytes) (now : result Z string) (parse_timestamp : string → result Z string).
Context {W Fs Rsa RsaPub Ed L X : Type} `{HandleState W} `{SgxFilesLaws Fs} `{KeyLaws Rsa RsaPub Ed} `{Codec Aes} `{Codec L}.
Context `{Codec SgxExternalitiesType} `{Blake2} (initialize : result Ext.SgxExternalities StateHandlerError) `{!HandleStateLaws W initialize}.
Context `{Codec ClientProvisioningRequest} (request_size : ∀ r : ClientProvisioningRequest, length (encode r) = TlsServer.REQUEST_SIZE).
Context (add_shard_vault_proxy : X → ShardIdentifier → AccountId → X * result unit string).
Implicit Types (server : SealHandler W Fs Rsa) (shard : ShardIdentifier) (certs : list Bytes).

(** [run_state_provisioning_server_internal]: the handshake, and what follows it. *)
Definition session (is_dcap : bool) (auth : ClientAuth A) (mode : WorkerMode) (cap : nat) server (x : X) certs (request : Bytes) :
    outcome (result (TlsStream * SealHandler W Fs Rsa * X * result unit EnclaveError) TLSError) :=
  verify_client_cert (C := C) (V := V) IAS_REPORT_CA now parse_timestamp is_dcap auth certs ≫= λ r,
  Ret match r with
      | Ok _ => Ok (served (RsaPub := RsaPub) (L := L) add_shard_vault_proxy mode cap server x request)
      | Err e => Err e
      end.

(** C37: Whoever presents the report of an accepted enclave in a certificate for a key of
    their own gets the keys and the state. *)
Theorem replayed_report_is_served is_dcap auth mode cap server x shard account genuine forged k1 k2 kb st l :
  parse_cert_issuer genuine = Ret (Ok k1) → verify_client_cert (C := C) (V := V) IAS_REPORT_CA now parse_timestamp is_dcap auth [genuine] = Ret (Ok tt) →
  parse_cert_issuer forged = Ret (Ok k2) → netscape_comment forged = netscape_comment genuine →
  parts (RsaPub := RsaPub) (L := L) initialize server shard kb st l →
  short (mode_parts mode server kb st l) → length (wire (mode_parts mode server kb st l)) ≤ cap →
  session is_dcap auth mode cap server x [forged] (encode (MkProvisioningRequest shard account)) =
  Ret (Ok (MkTls [] (wire (mode_parts mode server kb st l)) cap, server, (add_shard_vault_proxy x shard account).1, Ok tt)).
Proof.
  intros Hk1 Hg Hk2 Hc Hp Hs Hl. unfold session. rewrite (client_of_any_key IAS_REPORT_CA now parse_timestamp genuine forged k1 k2), Hg by done.
  cbn [mbind outcome_bind]. by rewrite (served_parts initialize add_shard_vault_proxy request_size mode cap server x shard account kb st l).
Qed.

(** C38: An enclave on a platform that needs an update gets them, whatever its code is. *)
Theorem outdated_platform_is_served ocall mode cap server x shard account cert report kb st l :
  carries (C := C) IAS_REPORT_CA now cert report → check_timestamp now parse_timestamp report = Ok tt →
  status_in report outdated_statuses → update_needed report ocall → ¬ same_enclave report ocall →
  parts (RsaPub := RsaPub) (L := L) initialize server shard kb st l →
  short (mode_parts mode server kb st l) → length (wire (mode_parts mode server kb st l)) ≤ cap →
  session false (server_config false ocall) mode cap server x [cert] (encode (MkProvisioningRequest shard account)) =
  Ret (Ok (MkTls [] (wire (mode_parts mode server kb st l)) cap, server, (add_shard_vault_proxy x shard account).1, Ok tt)).
Proof.
  intros Hca Ht Hst Hu _ Hp Hs Hl. unfold session. rewrite (outdated_accepted IAS_REPORT_CA now parse_timestamp false cert report) by done.
  cbn [mbind outcome_bind]. by rewrite (served_parts initialize add_shard_vault_proxy request_size mode cap server x shard account kb st l).
Qed.
End session.
End Session.

(** ** Concrete certificates *)

Module AttSample.
Import Text.

(** Text is its own encoding; a certificate or a report is a code of its fields. *)
#[export] Instance plain : Base64 := λ b, Ok b.
#[export] Instance pki : WebPki N N := {|
  end_entity_cert := head;
  add_pem_file := head;
  verify_is_valid_tls_server_cert := λ c anchor _ _, if bool_decide (c = anchor) then Ok tt else Err "issuer"%string;
  verify_signature := λ c report sig, if bool_decide (sig = [c; N.of_nat (length report)]) then Ok tt else Err "signature"%string;
|}.

Record Report := MkReport { status : string; body : string }.

(** A report is a digit for its status and one for its enclave. *)
Definition blob : string := "00000000" +:+ String.concat EmptyString (replicate 101 "0a"%string).
#[export] Instance report_json : JsonValue Report := {|
  json_from_slice := λ b,
    match b with
    | [s; e] => Ok (MkReport (if bool_decide (s = 0%N) then "OK" else "GROUP_OUT_OF_DATE") (String (ascii_of_N e) EmptyString))
    | _ => Err "json"%string
    end;
  string_field := λ r k,
    if bool_decide (k = "timestamp"%string) then Some "2024-01-01T00:00:00"%string
    else if bool_decide (k = "isvEnclaveQuoteStatus"%string) then Some (status r)
    else if bool_decide (k = "isvEnclaveQuoteBody"%string) then Some (body r)
    else if bool_decide (k = "platformInfoBlob"%string) then Some blob
    else None;
|}.

(** The enclave of code 65, on a host whose platforms need updates. *)
#[export] Instance host : AttestationOCall unit := {|
  get_update_info := λ _ _ _, Err SgxErrorUpdateNeeded;
  get_mrenclave_of_self := λ _, Ok [65%N];
|}.
#[export] Instance layout : QuoteLayout := λ q, MkQuote q [1%N; 2%N].

Definition ca : Bytes := replicate 27 9%N ++ [9%N] ++ replicate 25 9%N.
Definition time : result Z string := Ok 1000%Z.
Definition parse_time (_ : string) : result Z string := Ok 900%Z.

Definition certificate (key payload : Bytes) : Bytes :=
  [48%N] ++ Cert.prime256v1_oid ++ [3%N; N.of_nat (2 + length key); 0%N; 4%N] ++ key ++
  Cert.ns_cmt_oid ++ [4%N; N.of_nat (length payload)] ++ payload.
(** A report of status [s] on the enclave [e], signed by Intel. *)
Definition signed_report (s e : N) : Bytes := [s; e; 124; 9; 2; 124; 9]%N.
End AttSample.

Section witnesses.
Import KeySample Sample ProvSample AttSample Cert Auth AuthInv Provisioned Session.

Lemma accepted_peers_are_attested_witness :
  verify_client_cert (C := N) (V := Report) ca time parse_time false (server_config false tt) [certificate [1; 2]%N (signed_report 0 65)] = Ret (Ok tt) ∧
  verify_client_cert (C := N) (V := Report) ca time parse_time false (server_config false tt) [certificate [1; 2]%N (signed_report 0 66)] = Ret (Err ExtensionValueInvalid) ∧
  ∃ report, carries (C := N) ca time (certificate [1; 2]%N (signed_report 0 65)) report ∧
    (same_enclave report tt ∨ status_in report outdated_statuses).
Proof.
  split; [vm_compute; reflexivity|]. split; [vm_compute; reflexivity|].
  destruct (accepted_peers_are_attested (C := N) ca time parse_time false false tt [certificate [1; 2]%N (signed_report 0 65)])
    as (cert & rest & pub_k & Hcs & _ & Hs).
  { left. vm_compute. reflexivity. }
  injection Hcs as <- _. destruct (Hs eq_refl) as (report & Hc & Hr). exists report. split; [exact Hc|].
  destruct Hr as [[_ Hr]|[[Hr _]|Hr]]; [left; exact Hr|right; exact Hr|discriminate Hr].
Defined.

(** What the server of the example sends. *)
Definition sample_parts : list (Opcode * Bytes) := mode_parts SidechainMode (worker handler 1 7) [1%N] Ext.default_externalities 7%Z.

Lemma sample_has_parts :
  parts (RsaPub := N) (L := Z) (HandleStateLaws0 := handle_state_laws) initialize (worker handler 1 7) shard [1%N] Ext.default_externalities 7%Z.
Proof. split_and!; [done|apply handler_ok|reflexivity|done]. Qed.

(** A certificate for the key [3, 4] with the report for the key [1, 2]. *)
Lemma replayed_report_is_served_witness :
  session (C := N) (V := Report) (RsaPub := N) (L := Z) ca time parse_time no_proxy false (server_config false tt) SidechainMode 200 (worker handler 1 7) tt
    [certificate [3; 4]%N (signed_report 0 65)] (encode (MkProvisioningRequest shard 5%N)) =
  Ret (Ok (MkTls [] (ProvInv.wire sample_parts) 200, worker handler 1 7, tt, Ok tt)).
Proof.
  apply (replayed_report_is_served (C := N) (V := Report) (Rsa := N) (RsaPub := N) (L := Z) ca time parse_time initialize request_has_its_size no_proxy
    false (server_config false tt) SidechainMode 200 (worker handler 1 7) tt shard 5%N (certificate [1; 2]%N (signed_report 0 65))
    (certificate [3; 4]%N (signed_report 0 65)) [1; 2]%N [3; 4]%N [1%N] Ext.default_externalities 7%Z).
  - vm_compute. reflexivity.
  - vm_compute. reflexivity.
  - vm_compute. reflexivity.
  - vm_compute. reflexivity.
  - exact sample_has_parts.
  - repeat constructor.
  - apply Nat.leb_le. vm_compute. reflexivity.
Defined.

(** A report on the code 66, from an outdated platform. *)
Lemma outdated_platform_is_served_witness :
  session (C := N) (V := Report) (RsaPub := N) (L := Z) ca time parse_time no_proxy false (server_config false tt) SidechainMode 200 (worker handler 1 7) tt
    [certificate [1; 2]%N (signed_report 1 66)] (encode (MkProvisioningRequest shard 5%N)) =
  Ret (Ok (MkTls [] (ProvInv.wire sample_parts) 200, worker handler 1 7, tt, Ok tt)).
Proof.
  apply (outdated_platform_is_served (C := N) (V := Report) (Rsa := N) (RsaPub := N) (L := Z) ca time parse_time initialize request_has_its_size no_proxy
    tt SidechainMode 200 (worker handler 1 7) tt shard 5%N (certificate [1; 2]%N (signed_report 1 66))
    (MkReport "GROUP_OUT_OF_DATE" "B") [1%N] Ext.default_externalities 7%Z).
  - exists [1; 2]%N, (signed_report 1 66), (signed_report 1 66). split_and!; [vm_compute; reflexivity..|].
    exists [1; 66]%N, [9; 2]%N, [9; 2]%N, [9]%N, [9]%N, 9%N, [9]%N, [9]%N, 9%N, 1000%Z. split_and!; vm_compute; reflexivity.
  - reflexivity.
  - exists "GROUP_OUT_OF_DATE"%string. split; [reflexivity|]. left.
  - exists blob, (replicate 101 10%N). split_and!; vm_compute; reflexivity.
  - intros (raw & quote & ti & Hb & Hq & Ht & Hm). vm_compute in Hb, Hq, Ht. injection Hb as <-. vm_compute in Hq. injection Hq as <-. injection Ht as <-.
    vm_compute in Hm. discriminate Hm.
  - exact sample_has_parts.
  - repeat constructor.
  - apply Nat.leb_le. vm_compute. reflexivity.
Defined.
End witnesses.
