(* ===== verification/OffchainWorker.v ===== *)
(** The off-chain worker (src/core/offchain-worker-executor/src/executor.rs): it
    executes the calls of the top pool on the states of all shards, without blocks,
    and sends the calls they have for the parentchain. *)

From stdpp Require Import base gmap fin_maps numbers strings list.
From S2P Require Import Prelude Collections PoolTypes Externalities SidechainDb Durations StfTypes StateFileIo StateHandler StfExecutor.
From S2P Require Import Author AuthorProps Consensus ParentchainImport ProposalInv ConsensusSample.

Import Ext(SgxExternalities).
Open Scope worker_scope.
Local Open Scope nat_scope.

Inductive OffchainError :=
| OfStateHandler (e : StateHandlerError)
| OfStfExecutor (e : ExecutorError)
| OfLightClient (msg : string)
| OfExtrinsicsFactory (msg : string).

Module Offchain.
Import Executor PcImport.

(** [ParentchainCall::as_integritee]. *)
Definition as_integritee (c : ParentchainCall) : option OpaqueCall :=
  match c with MkParentchainCall Integritee call => Some call | _ => None end.

(** Five seconds. *)
Definition max_duration : Duration := (5 * NANOS_PER_SEC)%Z.

Section executor.
Context `{Encode SgxExternalitiesType} `{Blake2} `{EncodeAppend}.
Context {TCS G Mr PH PB V X Xt W P : Type} `{!Stf TCS Mr PH} `{HandleState W} `{!TopPool P TCS G}.
Context `{!LightClient V PB Xt} `{!ExtrinsicsFactory X Xt}.
Context (top_hash : StfTrustedOperation TCS G → TxHash).
(** [latest_finalized_header] of the light client and [reset_events] of the system pallet. *)
Context (latest_finalized_header : V → result PH string) (reset_events : SgxExternalities → SgxExternalities).
(** What is read while a shard is executed: the clock and the identity of the
    enclave, the time a removal bans from, and that of the snapshot. *)
Context (duration_now : ShardIdentifier → nat → Duration) (get_mrenclave_of_self : ShardIdentifier → nat → result Mr Z).
Context (now_ban : ShardIdentifier → Z) (snapshot_now : ShardIdentifier → StateId).
Abbreviation Env' := (Env V X W P).
Implicit Types (env : Env') (shard : ShardIdentifier).

Definition get_latest_parentchain_header env : result PH OffchainError :=
  match latest_finalized_header (validator env) with
  | Ok header => Ok header
  | Err e => Err (OfLightClient e)
  end.

(** [reset] of the state handler is [write_after_mutation] with a lock of its own. *)
Definition apply_state_update env shard (updated_state : SgxExternalities) : outcome (Env' * result unit OffchainError) :=
  hs_write_after_mutation (snapshot_now shard) (states env) updated_state shard ≫= λ '(w, r),
  Ret (MkEnv (validator env) (factory env) w (top_pool env), match r with Ok _ => Ok tt | Err e => Err (OfStateHandler e) end).

(** The calls that could not be removed are reported to nobody. *)
Definition remove_calls_from_pool env shard (executed_calls : list (ExecutedOperation TCS G)) : outcome Env' :=
  tp_remove_calls (now_ban shard) (top_pool env) shard ((λ e, (trusted_operation_or_hash e, is_success e)) <$> executed_calls) ≫= λ '(p, _),
  Ret (MkEnv (validator env) (factory env) (states env) p).

Definition execute_shard env shard : outcome (Env' * result (list ParentchainCall) OffchainError) :=
  tp_pending_calls (top_pool env) shard ≫= λ trusted_calls,
  propose_state_update top_hash (duration_now shard) (get_mrenclave_of_self shard) (states env) trusted_calls shard max_duration
    reset_events ≫= λ res,
  match res with
  | Err e => Ret (env, Err (OfStfExecutor e))
  | Ok batch_execution_result =>
      let failed_operations := get_failed_operations batch_execution_result in
      let successful_operations := (λ h, success h (TopHash h) []) <$> get_executed_operation_hashes batch_execution_result in
      remove_calls_from_pool env shard failed_operations ≫= λ env,
      apply_state_update env shard (state_after_execution batch_execution_result) ≫= λ '(env, r),
      match r with
      | Err e => Ret (env, Err e)
      | Ok _ =>
          remove_calls_from_pool env shard successful_operations ≫= λ env,
          Ret (env, Ok (get_extrinsic_callbacks batch_execution_result))
      end
  end.

Fixpoint execute_shards env (shards : list ShardIdentifier) (parentchain_effects : list ParentchainCall) :
    outcome (Env' * result (list ParentchainCall) OffchainError) :=
  match shards with
  | [] => Ret (env, Ok parentchain_effects)
  | shard :: shards =>
      execute_shard env shard ≫= λ '(env, r),
      match r with
      | Err e => Ret (env, Err e)
      | Ok callbacks => execute_shards env shards (parentchain_effects ++ callbacks)
      end
  end.

(** Calls for other parentchains are only logged. *)
Definition send_parentchain_effects env (parentchain_effects : list ParentchainCall) : Env' * result unit OffchainError :=
  let integritee_calls := omap as_integritee parentchain_effects in
  match create_extrinsics (factory env) integritee_calls with
  | (x, Err e) => (MkEnv (validator env) x (states env) (top_pool env), Err (OfExtrinsicsFactory e))
  | (x, Ok extrinsics) =>
      match lc_send_extrinsics (validator env) extrinsics with
      | (v, Err e) => (MkEnv v x (states env) (top_pool env), Err (OfLightClient e))
      | (v, Ok _) => (MkEnv v x (states env) (top_pool env), Ok tt)
      end
  end.

Definition execute env : outcome (Env' * result unit OffchainError) :=
  match get_latest_parentchain_header env with
  | Err e => Ret (env, Err e)
  | Ok _ =>
      match hs_list_shards (states env) with
      | Err e => Ret (env, Err (OfStateHandler e))
      | Ok shards =>
          execute_shards env shards [] ≫= λ '(env, r),
          match r with
          | Err e => Ret (env, Err e)
          | Ok [] => Ret (env, Ok tt)
          | Ok parentchain_effects => Ret (send_parentchain_effects env parentchain_effects)
          end
      end
  end.
End executor.
End Offchain.

(** ** What a run does *)

Module OffchainInv.
Import Executor PcImport Offchain BatchInv.

Section inv.
Context `{Encode SgxExternalitiesType} `{Blake2} `{EncodeAppend}.
Context {TCS G Mr PH PB V X Xt W P : Type} `{!Stf TCS Mr PH} `{HandleState W} `{!TopPool P TCS G}.
Context `{!LightClient V PB Xt} `{!ExtrinsicsFactory X Xt}.
Context (initialize : result SgxExternalities StateHandlerError) `{!HandleStateLaws W initialize}.
Context (top_hash : StfTrustedOperation TCS G → TxHash) `{!TopPoolLaws P TCS G top_hash}.
Context (latest_finalized_header : V → result PH string) (reset_events : SgxExternalities → SgxExternalities).
Context (duration_now : ShardIdentifier → nat → Duration) (get_mrenclave_of_self : ShardIdentifier → nat → result Mr Z).
Context (now_ban : ShardIdentifier → Z) (snapshot_now : ShardIdentifier → StateId).
(** The clock is not at its end. *)
Context (clock_ok : ∀ s, (duration_now s 0%nat + max_duration ≤ duration_max)%Z).
Abbreviation Env' := (Env V X W P).
Abbreviation run_shard := (execute_shard (PH := PH) top_hash reset_events duration_now get_mrenclave_of_self now_ban snapshot_now).
Abbreviation run_shards := (execute_shards (PH := PH) top_hash reset_events duration_now get_mrenclave_of_self now_ban snapshot_now).
Abbreviation run := (execute (PB := PB) top_hash latest_finalized_header reset_events duration_now get_mrenclave_of_self now_ban snapshot_now).
Implicit Types (env : Env') (s : ShardIdentifier) (st : SgxExternalities).

Definition env_ok env : Prop := hs_ok (states env) ∧ tp_ok (top_pool env).
Abbreviation view env := (hs_view (states env)).
Abbreviation queue env := (tp_queue (top_pool env)).

(** The calls of a shard that are attempted, and what they do. *)
Definition calls_of (q : list (StfTrustedOperation TCS G)) s : list (Mr * StfTrustedOperation TCS G) :=
  attempted (duration_now s) (get_mrenclave_of_self s) 1 (duration_now s 0%nat + max_duration) (List.filter Author.calls_only_filter q).
Definition batch_of st q s : SgxExternalities * list (ExecutedOperation TCS G) := run_calls (PH := PH) top_hash s (reset_events st) (calls_of q s).
Definition effects_of st q s : list ParentchainCall := mjoin ((λ e, status_callbacks (status e)) <$> (batch_of st q s).2).

Lemma removals_ok (es : list (ExecutedOperation TCS G)) hs :
  (removal_hash top_hash ∘ trusted_operation_or_hash) <$> es = Some <$> hs →
  (removal_hash top_hash ∘ fst) <$> ((λ e, (trusted_operation_or_hash e, is_success e)) <$> es) = Some <$> hs.
Proof. intros Hh. by rewrite <-list_fmap_compose. Qed.

Lemma removal_spec env s es hs :
  env_ok env → (removal_hash top_hash ∘ trusted_operation_or_hash) <$> es = Some <$> hs →
  ∃ p, remove_calls_from_pool now_ban env s es = Ret (MkEnv (validator env) (factory env) (states env) p) ∧ tp_ok p ∧
    tp_queue p s = filter (λ op, top_hash op ∉ hs) (queue env s) ∧ (∀ s', s' ≠ s → tp_queue p s' = queue env s').
Proof.
  intros [_ Hp] Hh. unfold remove_calls_from_pool.
  destruct (remove_calls_ok (now_ban s) (top_pool env) s _ hs Hp (removals_ok es hs Hh)) as (p & f & -> & Hok & Hq & Ho). by exists p.
Qed.

(** A report names its operation. *)
Definition reports (e : ExecutedOperation TCS G) (c : StfTrustedOperation TCS G) : Prop :=
  trusted_operation_or_hash e = from_top c ∧ status_operation_hash (status e) = if is_success e then Some (top_hash c) else None.

Lemma run_calls_report s st cs : Forall2 reports (run_calls (PH := PH) top_hash s st cs).2 cs.*2.
Proof.
  revert st. induction cs as [|[mr c] cs IH]; intros st; cbn [run_calls]; [constructor|].
  pose proof (run_call_top (PH := PH) top_hash mr s st c) as Ht. pose proof (run_call_status (PH := PH) top_hash mr s st c) as Hs.
  destruct (run_call top_hash mr s st c) as [st' e]. specialize (IH st'). destruct (run_calls top_hash s st' cs) as [st'' es].
  cbn in *. by constructor.
Qed.

(** Failed and successful operations together are all of them. *)
Lemma report_hashes es cs :
  Forall2 reports es cs →
  ∃ hs, (removal_hash top_hash ∘ trusted_operation_or_hash) <$> filter (λ e, is_success e = false) es = Some <$> hs ∧
    ∀ h, h ∈ top_hash <$> cs ↔ h ∈ hs ∨ h ∈ omap (λ e, status_operation_hash (status e)) es.
Proof.
  induction 1 as [|e c es cs [Ht Hs] _ (hs & Hh & Hiff)]; [exists []; split; [done|set_solver]|].
  rewrite fmap_cons. cbn [omap list_omap]. rewrite Hs. destruct (is_success e) eqn:He.
  - exists hs. rewrite filter_cons_False by (by rewrite He). split; [done|]. intros h. rewrite !elem_of_cons, Hiff. tauto.
  - exists (top_hash c :: hs). rewrite filter_cons_True by done. rewrite !fmap_cons, Hh. split; [cbn; by rewrite Ht|].
    intros h. rewrite !elem_of_cons, Hiff. tauto.
Qed.

(** One shard: its state is the one after its calls, and its calls are out of the
    pool, all of them if the state was stored. *)
Definition shard_done env env' s : Prop :=
  ∀ st, view env !! s = Some st →
    view env' !! s = Some (Ext.prune_state_diff (batch_of st (queue env s) s).1) ∧
    queue env' s = filter (λ op, top_hash op ∉ top_hash <$> (calls_of (queue env s) s).*2) (queue env s).

Definition untouched env env' s : Prop := view env' !! s = view env !! s ∧ queue env' s = queue env s.

Lemma execute_shard_spec env s st :
  env_ok env → view env !! s = Some st →
  ∃ env' r, run_shard env s = Ret (env', r) ∧ env_ok env' ∧ dom (view env') = dom (view env) ∧
    validator env' = validator env ∧ factory env' = factory env ∧ (∀ s', s' ≠ s → untouched env env' s') ∧
    match r with Ok effects => shard_done env env' s ∧ effects = effects_of st (queue env s) s | Err _ => True end.
Proof.
  intros [Hw Hp] Hst. unfold execute_shard. rewrite (pending_calls_ok _ _ Hp). cbn [mbind outcome_bind].
  rewrite (propose_state_update_spec (PH := PH) top_hash (duration_now s) (get_mrenclave_of_self s) (states env) _ s max_duration reset_events Hw (clock_ok s)), Hst.
  cbn [mbind outcome_bind]. set (b := run_calls top_hash s (reset_events st) _).
  pose proof (run_calls_report s (reset_events st) (calls_of (queue env s) s)) as Hr. change (run_calls top_hash s (reset_events st) (calls_of (queue env s) s)) with b in Hr.
  destruct (report_hashes _ _ Hr) as (hs & Hh & Hiff). unfold get_failed_operations. cbn [executed_operations state_after_execution].
  destruct (removal_spec env s _ hs (conj Hw Hp) Hh) as (p & -> & Hpok & Hq & Ho). cbn [mbind outcome_bind]. unfold apply_state_update. cbn [states validator factory top_pool].
  destruct (write_ok (snapshot_now s) (states env) b.1 s Hw) as (w & res & -> & Hwok & Hv & _). cbn [mbind outcome_bind].
  assert (dom (hs_view w) = dom (view env)) as Hdom.
  { rewrite Hv, dom_insert_lookup_L; [done|by eauto]. }
  destruct res as [h|e]; cbn [mbind outcome_bind].
  - destruct (removal_spec (MkEnv (validator env) (factory env) w p) s ((λ h, success h (TopHash h) []) <$> omap (λ e, status_operation_hash (status e)) b.2)
      (omap (λ e, status_operation_hash (status e)) b.2)) as (p2 & Hrem & Hp2 & Hq2 & Ho2).
    { by split. }
    { by rewrite <-list_fmap_compose. }
    unfold get_executed_operation_hashes. cbn [executed_operations]. rewrite Hrem. cbn [mbind outcome_bind].
    eexists _, _. split; [done|]. split; [by split|]. split; [done|]. split; [done|]. split; [done|]. split.
    + intros s' Hs'. split; cbn; [by rewrite Hv, lookup_insert_ne|]. by rewrite Ho2, Ho.
    + split; [|done]. intros st' Hst'. assert (st' = st) as -> by congruence. split; cbn; [by rewrite Hv, lookup_insert_eq|].
      rewrite Hq2. cbn [top_pool]. rewrite Hq, list_filter_filter. apply list_filter_iff. intros op. rewrite Hiff. tauto.
  - eexists _, _. split; [done|]. split; [by split|]. split; [done|]. split; [done|]. split; [done|]. split; [|done].
    intros s' Hs'. split; cbn; [by rewrite Hv, lookup_insert_ne|by rewrite Ho].
Qed.

(** The first [k] shards of a list are done, the later ones are as they were. *)
Definition done_up_to env env' (l : list ShardIdentifier) (k : nat) : Prop :=
  (∀ i s, l !! i = Some s → i < k → shard_done env env' s) ∧ (∀ s, s ∉ take (S k) l → untouched env env' s).

Definition all_effects env (l : list ShardIdentifier) : list ParentchainCall :=
  mjoin ((λ s, from_option (λ st, effects_of st (queue env s) s) [] (view env !! s)) <$> l).

Lemma execute_shards_spec env l effects :
  env_ok env → NoDup l → (∀ s, s ∈ l → is_Some (view env !! s)) →
  ∃ env' r k, run_shards env l effects = Ret (env', r) ∧ env_ok env' ∧ dom (view env') = dom (view env) ∧
    validator env' = validator env ∧ factory env' = factory env ∧ done_up_to env env' l k ∧
    match r with Ok all => length l ≤ k ∧ all = effects ++ all_effects env l | Err _ => k < length l end.
Proof.
  revert env effects. induction l as [|s l IH]; intros env effects Hok Hnd Hin.
  { exists env, (Ok effects), 0. unfold all_effects. cbn. rewrite app_nil_r. by split_and!; [..|split]. }
  apply NoDup_cons in Hnd as [Hs Hnd]. destruct (Hin s ltac:(left)) as [st Hst].
  destruct (execute_shard_spec env s st Hok Hst) as (env1 & r & Hrun & Hok1 & Hd1 & Hv1 & Hf1 & Ho1 & Hr).
  cbn [execute_shards]. rewrite Hrun. cbn [mbind outcome_bind]. destruct r as [callbacks|e].
  2:{ exists env1, (Err e), 0. split; [done|]. split; [done|]. split; [done|]. split; [done|]. split; [done|]. split; [|cbn; lia].
      split; [intros; lia|]. intros s' Hs'. apply Ho1. intros ->. apply Hs'. left. }
  destruct Hr as [Hdone ->].
  destruct (IH env1 (effects ++ effects_of st (queue env s) s) Hok1 Hnd) as (env' & r & k & Hrun' & Hok' & Hd' & Hv' & Hf' & [Hk Hu] & Hr).
  { intros s' Hs'. destruct (Ho1 s') as [-> _]; [by intros ->|]. apply Hin. by right. }
  assert (∀ s', s' ∈ l → untouched env env1 s') as Hl. { intros s' Hs'. apply Ho1. by intros ->. }
  exists env', r, (S k). split; [done|]. split; [done|]. split; [congruence|]. split; [congruence|]. split; [congruence|]. split; [split|].
  - intros [|i] s' Hi Hlt; cbn in Hi; [injection Hi as <-|].
    + intros st' Hst'. destruct (Hdone st' Hst') as [Hv Hq]. destruct (Hu s) as [Hvu Hqu]; [|by rewrite Hvu, Hqu].
      intros Hin'. apply Hs. rewrite <-(take_drop (S k) l). apply elem_of_app. by left.
    + intros st' Hst'. destruct (Hl s') as [Hvl Hql]; [by eapply list_elem_of_lookup_2|].
      destruct (Hk i s' Hi ltac:(lia) st') as [Hv Hq]; [by rewrite Hvl|]. by rewrite Hql in Hv, Hq.
  - intros s' Hs'. cbn [take] in Hs'. rewrite not_elem_of_cons in Hs'. destruct Hs' as [Hne Hs'].
    destruct (Hu s' Hs') as [Hvu Hqu]. destruct (Ho1 s' Hne) as [Hv Hq]. split; congruence.
  - destruct r as [all|e]; [|cbn; lia]. destruct Hr as [Hlen ->]. split; [cbn; lia|]. unfold all_effects. rewrite fmap_cons. cbn [mjoin list_join].
    rewrite Hst. cbn [from_option]. rewrite <-app_assoc. f_equal. f_equal. f_equal. apply list_fmap_ext. intros i s' Hi.
    destruct (Hl s') as [-> ->]; [by eapply list_elem_of_lookup_2|]. done.
Qed.

(** What becomes of the calls for the parentchain. *)
Definition sent (v : V) (x : X) (effects : list ParentchainCall) : V * X * result unit OffchainError :=
  match effects with
  | [] => (v, x, Ok tt)
  | _ =>
      match create_extrinsics (Xt := Xt) x (omap as_integritee effects) with
      | (x, Err e) => (v, x, Err (OfExtrinsicsFactory e))
      | (x, Ok extrinsics) =>
          match lc_send_extrinsics (PB := PB) v extrinsics with
          | (v, Err e) => (v, x, Err (OfLightClient e))
          | (v, Ok _) => (v, x, Ok tt)
          end
      end
  end.

(** C22: A run goes through the shards, one after the other, up to the first error. *)
Theorem offchain_run_is_exact env header :
  env_ok env → latest_finalized_header (validator env) = Ok header →
  ∃ l env' r k, l ≡ₚ elements (dom (view env)) ∧ run env = Ret (env', r) ∧ env_ok env' ∧ done_up_to env env' l k ∧
    (if decide (k < length l) then validator env' = validator env ∧ factory env' = factory env ∧ is_ok r = false
     else (validator env', factory env', r) = sent (validator env) (factory env) (all_effects env l)).
Proof.
  intros Hok Hh. unfold execute, get_latest_parentchain_header. rewrite Hh.
  destruct (handler_shards_ok (states env) (proj1 Hok)) as (l & -> & Hl).
  destruct (execute_shards_spec env l [] Hok) as (env1 & r & k & Hrun & Hok1 & Hd & Hv & Hf & Hdone & Hr).
  { rewrite Hl. apply NoDup_elements. }
  { intros s Hs. rewrite Hl in Hs. by apply elem_of_elements, elem_of_dom in Hs. }
  exists l. rewrite Hrun. cbn [mbind outcome_bind]. destruct r as [effects|e].
  2:{ exists env1, (Err e), k. split; [done|]. split; [done|]. split; [done|]. split; [done|]. by rewrite decide_True. }
  destruct Hr as [Hlen ->]. cbn [app]. destruct (all_effects env l) as [|c effects].
  - exists env1, (Ok tt), k. split; [done|]. split; [done|]. split; [done|]. split; [done|]. rewrite decide_False by lia. cbn. congruence.
  - unfold send_parentchain_effects, sent. rewrite Hv, Hf.
    destruct (create_extrinsics (factory env) _) as [x [xts|e]].
    2:{ eexists _, _, k. split; [done|]. split; [done|]. split; [done|]. split; [done|]. by rewrite decide_False by lia. }
    destruct (lc_send_extrinsics (validator env) xts) as [v [[]|e]];
      (eexists _, _, k; split; [done|]; split; [done|]; split; [done|]; split; [done|]; by rewrite decide_False by lia).
Qed.
End inv.
End OffchainInv.

(** ** A run without metadata *)

Section witness.
Import Sample PcImport Offchain OffchainInv.

(** The factory has no metadata of the parentchain. *)
#[local] Instance no_metadata : ExtrinsicsFactory unit N := λ x _, (x, Err "metadata"%string).

Definition offchain_env : Env (list N) unit (StateHandler.Handler.StateHandler Files) Pool := MkEnv [7%N] tt handler pool.

(** The call of the pool that succeeds has an effect, which is lost with the error. *)
Lemma offchain_run_is_exact_witness :
  ∃ l env' r k, l ≡ₚ [shard] ∧
    execute (TCS := demo_call) (Mr := unit) (PB := N) (Xt := N) top_hash (λ v, Ok (default 0%N (last v))) Datatypes.id (λ _ i, Z.of_nat i) (λ _ _, Ok tt) (λ _, 9%Z) (λ _, 9%N)
      offchain_env = Ret (env', r) ∧
    done_up_to (TCS := demo_call) (Mr := unit) (PH := N) (HandleStateLaws0 := handle_state_laws) initialize top_hash Datatypes.id (λ _ i, Z.of_nat i) (λ _ _, Ok tt) offchain_env env' l k.
Proof.
  destruct (offchain_run_is_exact (TCS := demo_call) (Mr := unit) (PB := N) (Xt := N) initialize top_hash (λ v, Ok (default 0%N (last v))) Datatypes.id
    (λ _ i, Z.of_nat i) (λ _ _, Ok tt) (λ _, 9%Z) (λ _, 9%N) (λ _, ltac:(vm_compute; discriminate)) offchain_env 7%N)
    as (l & env' & r & k & Hl & Hrun & _ & Hdone & _).
  - split; [apply handler_ok|apply pool_ok].
  - reflexivity.
  - exists l, env', r, k. split; [exact Hl|]. split; [exact Hrun|exact Hdone].
Defined.

(** It is an error, and the pool is empty. *)
Lemma effects_lost :
  match execute (TCS := demo_call) (Mr := unit) (PB := N) (Xt := N) top_hash (λ v, Ok (default 0%N (last v))) Datatypes.id (λ _ i, Z.of_nat i) (λ _ _, Ok tt) (λ _, 9%Z) (λ _, 9%N)
    offchain_env with
  | Ret (env', r) => is_ok r = false ∧ tp_queue (TopPoolLaws := top_pool_laws) (top_pool env') shard = []
  | _ => False
  end.
Proof. vm_compute. by split. Qed.
End witness.
