(* ===== verification/ShardSetup.v ===== *)
(** The set-up of a shard (src/enclave-runtime/src/initialization/mod.rs, shard_vault.rs,
    shard_creation_info.rs, shard_config.rs): its first state, the vault and its proxies,
    the block a shard was created at, and its configuration.

    The derivation of keys, the indexes of calls in the metadata, the encoding of calls
    and the ocall that sends extrinsics are parameters. *)

From stdpp Require Import base gmap numbers strings list.
From S2P Require Import Prelude Collections PoolTypes Externalities SidechainDb StfTypes StateFileIo StateHandler StfExecutor SidechainBlocks.
From S2P Require Import ParentchainImport OnChain ConsensusSample Extrinsics TrustedCalls TrustedCallsProps.

Import Ext(SgxExternalities).
Import Tc.
Open Scope worker_scope.
Local Open Scope nat_scope.

Inductive SetupError :=
| SuOther (msg : string)
| SuStf (e : StfError)
| SuStateHandler (e : StateHandlerError)
| NoParentchainAssigned (id : ParentchainId)
| SuMetadata (msg : string)
| SuExtrinsics (msg : string)
| SuSgx (msg : string).

(** What the set-up reads from the metadata of a node, and the calls it encodes. *)
Class SetupCalls := {
  call_indexes : NodeMetadata → string → string → result Bytes string;
  vault_funding_call : Bytes → AccountId → Z → OpaqueCall;
  add_proxy_call : Bytes → AccountId → OpaqueCall;
  as_proxy_call : Bytes → AccountId → OpaqueCall → OpaqueCall;
  update_shard_config_call : Bytes → ShardIdentifier → N → OpaqueCall;
}.

Class VaultKeys (Signer : Type) := {
  derive_hard : Signer → ShardIdentifier → result Signer string;
  public_of : Signer → AccountId;
}.

(** [send_to_parentchain] of the ocall api. *)
Class SendToParentchain (O Xt : Type) := send_to_parentchain : O → list Xt → ParentchainId → bool → O * result unit string.

(** ** The enclave *)

(** A parentchain has a handler of a solochain or of a parachain. *)
Record Setup (W Signer O : Type) := MkSetup {
  su_states : W;
  solochains : gmap ParentchainId (Factory.ExtrinsicsFactory Signer);
  parachains : gmap ParentchainId (Factory.ExtrinsicsFactory Signer);
  su_ocall : O;
}.
Arguments MkSetup {W Signer O} _ _ _ _.
Arguments su_states {W Signer O} _.
Arguments solochains {W Signer O} _.
Arguments parachains {W Signer O} _.
Arguments su_ocall {W Signer O} _.

(** A step of an ecall. *)
Definition Ecall (W Signer O A : Type) : Type := Setup W Signer O → outcome (Setup W Signer O * result A SetupError).
#[export] Instance ecall_ret {W Signer O} : MRet (Ecall W Signer O) := λ A a su, Ret (su, Ok a).
#[export] Instance ecall_bind {W Signer O} : MBind (Ecall W Signer O) := λ A B f m su,
  match m su with
  | Ret (su, Ok a) => f a su
  | Ret (su, Err e) => Ret (su, Err e)
  | Panic => Panic
  | OutOfFuel => OutOfFuel
  end.

Module ShardSetup.
Import Factory.

Section setup.
Context {W Signer Ap Xt O PH : Type} `{HandleState W} `{ComposeExtrinsic Signer Ap Xt} `{SetupCalls} `{VaultKeys Signer} `{SendToParentchain O Xt}.
Context `{Pallets PH}.
(** The signing key, the identity of the enclave and the clock. *)
Context (signing_key : result Signer string) (mrenclave : result N string) (now : StateId).
Abbreviation Step A := (Ecall W Signer O A).
Implicit Types (shard : ShardIdentifier) (id : ParentchainId).

Definition lift {A E} (r : result A E) (f : E → SetupError) : Step A :=
  λ su, Ret (su, match r with Ok a => Ok a | Err e => Err (f e) end).

(** [map_err(|e| Error::Other(..))]. *)
Definition in_other {A} (m : Step A) : Step A := λ su,
  m su ≫= λ '(su, r),
  Ret (su, match r with Ok a => Ok a | Err (SuOther e | SuMetadata e | SuExtrinsics e | SuSgx e) => Err (SuOther e) | Err e => Err e end).

(** *** The states and the parentchains *)

Definition ensure_shard shard : Step unit := λ su,
  Ret (su, match hs_shard_exists (su_states su) shard with
           | Err _ => Err (SuOther "get shard_exists failed")
           | Ok false => Err (SuOther "shard not initialized")
           | Ok true => Ok tt
           end).

Definition load_for_mutation shard : Step SgxExternalities := λ su,
  Ret (su, match hs_load_for_mutation (su_states su) shard with Ok st => Ok st | Err e => Err (SuStateHandler e) end).

Definition write_after_mutation (st : SgxExternalities) shard : Step unit := λ su,
  hs_write_after_mutation now (su_states su) st shard ≫= λ '(w, r),
  Ret (MkSetup w (solochains su) (parachains su) (su_ocall su), match r with Ok _ => Ok tt | Err e => Err (SuStateHandler e) end).

(** [get_extrinsic_factory_from_.._solo_or_parachain]; the repository of the metadata is the one of the factory. *)
Definition get_extrinsic_factory id : Step (ExtrinsicsFactory Signer) := λ su,
  Ret (su, match solochains su !! id, parachains su !! id with
           | Some x, _ => Ok x
           | None, Some x => Ok x
           | None, None => Err (NoParentchainAssigned id)
           end).

Definition put_factory id (x : ExtrinsicsFactory Signer) (su : Setup W Signer O) : Setup W Signer O :=
  if decide (is_Some (solochains su !! id))
  then MkSetup (su_states su) (<[id := x]> (solochains su)) (parachains su) (su_ocall su)
  else MkSetup (su_states su) (solochains su) (<[id := x]> (parachains su)) (su_ocall su).

Definition call_indexes_of (x : ExtrinsicsFactory Signer) (pallet call : string) : Step Bytes := λ su,
  Ret (su, match get_from_metadata (node_metadata_repository x) (λ m, call_indexes m pallet call) with
           | Ok (Ok i) => Ok i
           | Ok (Err e) => Err (SuMetadata e)
           | Err e => Err (SuMetadata e)
           end).

(** The factory is shared: its nonce is the one of all its users. *)
Definition create_with id (calls : list OpaqueCall) (x : ExtrinsicsFactory Signer) : Step (list Xt) := λ su,
  create_extrinsics (Ap := Ap) (Xt := Xt) x calls None ≫= λ '(x, r),
  Ret (put_factory id x su, match r with Ok xts => Ok xts | Err e => Err (SuExtrinsics e) end).
Definition create_shared id (calls : list OpaqueCall) : Step (list Xt) := get_extrinsic_factory id ≫= create_with id calls.

Definition create_own (x : ExtrinsicsFactory Signer) (calls : list OpaqueCall) : Step (list Xt) :=
  λ su, create_extrinsics (Ap := Ap) (Xt := Xt) x calls None ≫= λ '(_, r),
  Ret (su, match r with Ok xts => Ok xts | Err e => Err (SuExtrinsics e) end).

Definition send (xts : list Xt) id (await_each_inclusion : bool) : Step unit := λ su,
  let '(o, r) := send_to_parentchain (su_ocall su) xts id await_each_inclusion in
  Ret (MkSetup (su_states su) (solochains su) (parachains su) o, match r with Ok _ => Ok tt | Err e => Err (SuSgx e) end).

(** *** The first state *)

(** The ecall [init_shard]: whether the shard is there already is not asked. *)
Definition init_shard shard : Step unit := λ su,
  hs_initialize_shard now (su_states su) shard ≫= λ '(w, r),
  Ret (MkSetup w (solochains su) (parachains su) (su_ocall su), match r with Ok _ => Ok tt | Err e => Err (SuStateHandler e) end).

(** *** The vault *)

Definition get_shard_vault_internal shard : Step (AccountId * ParentchainId) :=
  st ← load_for_mutation shard;
  lift (match shard_vault st with Some v => Ok v | None => Err "failed to fetch shard vault account. has it been initialized?"%string end) SuOther.

Definition init_proxied_shard_vault_internal shard id (funding_balance : Z) : Step unit :=
  _ ← ensure_shard shard;
  enclave_signer ← lift signing_key SuOther;
  vault ← lift (derive_hard enclave_signer shard) (λ _, SuOther "failed to derive shard vault keypair");
  st ← load_for_mutation shard;
  let '(st, r) := init_shard_vault_account st (public_of vault) id in
  _ ← lift r SuStf;
  _ ← write_after_mutation st shard;
  enclave_extrinsics_factory ← get_extrinsic_factory id;
  call_ids ← call_indexes_of enclave_extrinsics_factory "Balances" "transfer_keep_alive";
  xts ← create_shared id [vault_funding_call call_ids (public_of vault) funding_balance];
  _ ← send xts id true;
  let vault_extrinsics_factory := with_signer enclave_extrinsics_factory vault (MkNonceCache 0) in
  call_ids ← call_indexes_of enclave_extrinsics_factory "Proxy" "add_proxy";
  xts ← create_own vault_extrinsics_factory [add_proxy_call call_ids (public_of enclave_signer)];
  send xts id false.

Definition add_shard_vault_proxy shard (proxy : AccountId) : Step unit :=
  _ ← ensure_shard shard;
  '(vault, id) ← get_shard_vault_internal shard;
  x ← get_extrinsic_factory id;
  add_ids ← call_indexes_of x "Proxy" "add_proxy";
  proxy_ids ← call_indexes_of x "Proxy" "proxy";
  xts ← create_shared id [as_proxy_call proxy_ids vault (add_proxy_call add_ids proxy)];
  send xts Integritee false.

(** *** The creation of the shard *)

Definition init_shard_config shard : Step unit :=
  x ← get_extrinsic_factory Integritee;
  mr ← lift mrenclave SuSgx;
  call ← in_other (call_indexes_of x "EnclaveBridge" "update_shard_config");
  xts ← in_other (create_shared Integritee [update_shard_config_call call shard mr]);
  in_other (send xts Integritee true).

Definition get_shard_creation_info_internal shard : Step ShardCreationInfo :=
  st ← load_for_mutation shard; mret (shard_creation_info st).

Definition init_shard_creation_parentchain_header_internal shard id (header : PH) : Step unit :=
  info ← get_shard_creation_info_internal shard;
  match for_parentchain info id with
  | Some _ => lift (Err "first relevant parentchain header has been previously initialized. cannot change"%string) SuOther
  | None =>
      _ ← ensure_shard shard;
      st ← load_for_mutation shard;
      let '(st, r) := set_creation_block st header id in
      _ ← lift r SuStf;
      _ ← write_after_mutation st shard;
      init_shard_config shard
  end.
End setup.
End ShardSetup.

(** ** The pallets of the parentchains *)

(** They read the state only, and a call of theirs changes what it is about. *)
Class ShardLaws (PH : Type) `{Pallets PH} : Prop := {
  vault_of_init : ∀ id st v st' res, parentchain_init_shard_vault id st v = (st', res) → ∀ id',
    parentchain_shard_vault id' st' =
      match res with Ok _ => if decide (id' = id) then Some v else parentchain_shard_vault id' st | Err _ => parentchain_shard_vault id' st end;
  creation_of_init : ∀ id st v id',
    for_parentchain (shard_creation_info (parentchain_init_shard_vault id st v).1) id' = for_parentchain (shard_creation_info st) id';
  vault_of_creation : ∀ id st h id', parentchain_shard_vault id' (parentchain_set_creation_block id st h).1 = parentchain_shard_vault id' st;
  creation_of_creation : ∀ id st h id', id' ≠ id →
    for_parentchain (shard_creation_info (parentchain_set_creation_block id st h).1) id' = for_parentchain (shard_creation_info st) id';
  vault_of_pruned : ∀ id st, parentchain_shard_vault id (Ext.prune_state_diff st) = parentchain_shard_vault id st;
  creation_of_pruned : ∀ id st, for_parentchain (shard_creation_info (Ext.prune_state_diff st)) id = for_parentchain (shard_creation_info st) id;
}.

Module SetupInv.
Import Factory ShardSetup.

Section pallets.
Context {PH : Type} `{ShardLaws PH}.
Implicit Types (st : SgxExternalities) (id : ParentchainId).

(** A vault and the block of the creation stay, once they are set. *)
Definition keeps st st' : Prop :=
  (length (get_shard_vaults st) ≤ 1 → length (get_shard_vaults st') ≤ 1) ∧
  (∀ v, shard_vault st = Some v → shard_vault st' = Some v) ∧
  (∀ id n, for_parentchain (shard_creation_info st) id = Some n → for_parentchain (shard_creation_info st') id = Some n).

Lemma keeps_refl st : keeps st st.
Proof. by split_and!. Qed.
Lemma keeps_trans st1 st2 st3 : keeps st1 st2 → keeps st2 st3 → keeps st1 st3.
Proof. unfold keeps. naive_solver. Qed.

Lemma vaults_ext st st' : (∀ id, parentchain_shard_vault id st' = parentchain_shard_vault id st) → get_shard_vaults st' = get_shard_vaults st.
Proof. intros Hv. unfold get_shard_vaults. cbn. by rewrite !Hv. Qed.

Lemma keeps_pruned st st' : keeps st st' → keeps st (Ext.prune_state_diff st').
Proof.
  intros (Hl & Hv & Hc). unfold keeps, shard_vault. rewrite (vaults_ext st' (Ext.prune_state_diff st')) by (intros; apply vault_of_pruned).
  split_and!; [done|done|]. intros id n Hn. rewrite creation_of_pruned. by apply Hc.
Qed.

Lemma init_keeps st v id : keeps st (init_shard_vault_account st v id).1.
Proof.
  unfold init_shard_vault_account, get_shard_vault_ensure_single_parentchain.
  destruct (get_shard_vaults st) as [|[v1 id1] [|v2 vs]] eqn:Hvs; [|apply keeps_refl..].
  pose proof (creation_of_init id st v) as Hc. destruct (parentchain_init_shard_vault id st v) as [st' res] eqn:Hi. cbn [fst] in *.
  pose proof (vault_of_init _ _ _ _ _ Hi) as Hv. unfold keeps, shard_vault. rewrite Hvs. split_and!; [|done|].
  - intros _. unfold get_shard_vaults in Hvs |- *. cbn in Hvs |- *. rewrite !Hv.
    destruct (parentchain_shard_vault Integritee st); [done|]. destruct (parentchain_shard_vault TargetA st); [done|].
    destruct (parentchain_shard_vault TargetB st); [done|]. destruct res; [|cbn; lia]. destruct id; vm_compute; lia.
  - intros id' n Hn. by rewrite Hc.
Qed.

Lemma creation_keeps st h id : for_parentchain (shard_creation_info st) id = None → keeps st (set_creation_block st h id).1.
Proof.
  intros Hno. unfold set_creation_block, dispatched. cbn [fst].
  unfold keeps, shard_vault. rewrite (vaults_ext st (parentchain_set_creation_block id st h).1) by (intros; apply vault_of_creation). split_and!; [done|done|].
  intros id' n Hn. rewrite creation_of_creation; [done|]. intros ->. congruence.
Qed.
End pallets.

Section setup.
Context {W Signer Ap Xt O PH : Type} `{HandleState W} `{ComposeLaws Signer Ap Xt} `{SetupCalls} `{VaultKeys Signer} `{SendToParentchain O Xt}.
Context `{ShardLaws PH} `{Encode SgxExternalitiesType} `{Blake2}.
Context (initialize : result SgxExternalities StateHandlerError) `{!HandleStateLaws W initialize}.
Abbreviation Step A := (Ecall W Signer O A).
Implicit Types (su : Setup W Signer O) (shard : ShardIdentifier) (id : ParentchainId).

(** The states are in order, and every shard keeps what it has. *)
Definition evolves su su' : Prop :=
  hs_ok (su_states su') ∧
  ∀ s st, hs_view (su_states su) !! s = Some st → ∃ st', hs_view (su_states su') !! s = Some st' ∧ keeps (PH := PH) st st'.

Definition safe {A} (m : Step A) : Prop := ∀ su, hs_ok (su_states su) → ∃ su' r, m su = Ret (su', r) ∧ evolves su su'.

Lemma evolves_refl su : hs_ok (su_states su) → evolves su su.
Proof. intros Hok. split; [done|]. intros s st Hst. exists st. split; [done|apply keeps_refl]. Qed.

Lemma evolves_trans su1 su2 su3 : evolves su1 su2 → evolves su2 su3 → evolves su1 su3.
Proof.
  intros [_ H12] [Hok H23]. split; [done|]. intros s st Hst. destruct (H12 s st Hst) as (st2 & Hst2 & Hk).
  destruct (H23 s st2 Hst2) as (st3 & Hst3 & Hk3). exists st3. split; [done|]. by eapply keeps_trans.
Qed.

Lemma safe_same {A} (m : Step A) : (∀ su, ∃ su' r, m su = Ret (su', r) ∧ su_states su' = su_states su) → safe m.
Proof.
  intros Hm su Hok. destruct (Hm su) as (su' & r & Hr & Hs). exists su', r. split; [done|].
  destruct (evolves_refl su Hok) as [Ho He]. split; [by rewrite Hs|]. intros s st Hst. rewrite Hs. by apply He.
Qed.

Lemma safe_bind {A B} (m : Step A) (f : A → Step B) : safe m → (∀ a, safe (f a)) → safe (m ≫= f).
Proof.
  intros Hm Hf su Hok. destruct (Hm su Hok) as (su1 & r & Hr & He). unfold mbind, ecall_bind. rewrite Hr. destruct r as [a|e]; [|by eauto].
  destruct (Hf a su1 (proj1 He)) as (su2 & r2 & Hr2 & He2). exists su2, r2. split; [done|]. by eapply evolves_trans.
Qed.

Lemma safe_lift {A E} (r : result A E) f : safe (lift r f).
Proof. apply safe_same. intros su. by eexists _, _. Qed.
Lemma safe_other {A} (m : Step A) : safe m → safe (in_other m).
Proof. intros Hm su Hok. destruct (Hm su Hok) as (su' & r & Hr & He). unfold in_other. rewrite Hr. by eexists _, _. Qed.
Lemma safe_ensure shard : safe (ensure_shard shard).
Proof. apply safe_same. intros su. by eexists _, _. Qed.
Lemma safe_load shard : safe (load_for_mutation shard).
Proof. apply safe_same. intros su. by eexists _, _. Qed.
Lemma safe_factory id : safe (get_extrinsic_factory id).
Proof. apply safe_same. intros su. by eexists _, _. Qed.
Lemma safe_indexes x p c : safe (call_indexes_of x p c).
Proof. apply safe_same. intros su. by eexists _, _. Qed.
Lemma safe_send xts id b : safe (send xts id b).
Proof. apply safe_same. intros su. unfold send. destruct (send_to_parentchain _ _ _ _) as [o r]. by eexists _, _. Qed.

Lemma create_returns (x : ExtrinsicsFactory Signer) calls : ∃ x' r, create_extrinsics (Ap := Ap) (Xt := Xt) x calls None = Ret (x', r).
Proof.
  unfold create_extrinsics. cbn [Extrinsics.load_for_mutation]. unfold get_from_metadata.
  destruct (metadata_lock (node_metadata_repository x)) as [m|]; [|by eexists _, _].
  generalize (nonce_lock (nonce_cache x)). intros n.
  assert (∀ spec tr ad, ∃ n' xts, compose_all (Xt := Xt) x spec tr ad n calls = Ret (n', xts)) as Hc.
  { intros spec tr ad. revert n. induction calls as [|c calls IH]; intros n; [by eexists _, _|]. cbn [compose_all].
    rewrite from_bytes_compose. destruct (IH (u32_wrap (n + 1)%Z)) as (n' & xts & ->). by eexists _, _. }
  edestruct Hc as (n' & xts & Hx). rewrite Hx. by eexists _, _.
Qed.

Lemma safe_create_with id calls x : safe (create_with (Ap := Ap) id calls x).
Proof.
  apply safe_same. intros su. unfold create_with. destruct (create_returns x calls) as (x' & r & ->). eexists _, _. split; [done|].
  unfold put_factory. by case_decide.
Qed.
Lemma safe_create_shared id calls : safe (create_shared (Ap := Ap) id calls).
Proof. apply safe_bind; [apply safe_factory|intros x; apply safe_create_with]. Qed.
Lemma safe_create_own x calls : safe (create_own (Ap := Ap) (O := O) (W := W) x calls).
Proof. apply safe_same. intros su. unfold create_own. destruct (create_returns x calls) as (x' & r & ->). by eexists _, _. Qed.

(** A state that is loaded, changed and stored. *)
Lemma update_at {B} now shard (f : SgxExternalities → SgxExternalities * result unit StfError) (k : Step B) su :
  hs_ok (su_states su) → (∀ st, hs_view (su_states su) !! shard = Some st → keeps (PH := PH) st (f st).1) → safe k →
  ∃ su' r, (st ← load_for_mutation shard; let '(st, r) := f st in _ ← lift r SuStf; _ ← write_after_mutation now st shard; k) su = Ret (su', r) ∧
    evolves su su'.
Proof.
  intros Hok Hf Hk. unfold mbind at 1, ecall_bind at 1, load_for_mutation. rewrite (load_for_mutation_ok _ _ Hok).
  destruct (hs_view (su_states su) !! shard) as [st|] eqn:Hst; [|eexists _, _; split; [done|by apply evolves_refl]].
  pose proof (Hf st eq_refl) as Hkeep. destruct (f st) as [st' [u|e]]; [|eexists _, _; split; [done|by apply evolves_refl]].
  unfold mbind at 1, ecall_bind at 1. cbn [lift]. unfold mbind at 1, ecall_bind at 1, write_after_mutation.
  destruct (write_ok now (su_states su) st' shard Hok) as (w & res & -> & Hw & Hv & _). cbn [mbind outcome_bind].
  set (su1 := MkSetup w _ _ _). assert (evolves su su1) as He.
  { split; [done|]. intros s st1 Hst1. cbn. rewrite Hv. destruct (decide (s = shard)) as [->|Hne].
    - rewrite lookup_insert_eq. eexists. split; [done|]. apply keeps_pruned. assert (st1 = st) as -> by congruence. done.
    - rewrite lookup_insert_ne by done. exists st1. split; [done|apply keeps_refl]. }
  destruct res as [h|e]; [|by eauto]. destruct (Hk su1 Hw) as (su2 & r & -> & He2). exists su2, r. split; [done|]. by eapply evolves_trans.
Qed.

Context (signing_key : result Signer string) (mrenclave : result N string).

Inductive SetupOp :=
| InitShard shard
| InitVault shard id (funding_balance : Z)
| AddProxy shard (proxy : AccountId)
| InitCreation shard id (header : PH).

Definition run_op (now : StateId) (op : SetupOp) : Step unit :=
  match op with
  | InitShard shard => init_shard now shard
  | InitVault shard id funding_balance => init_proxied_shard_vault_internal (Ap := Ap) signing_key now shard id funding_balance
  | AddProxy shard proxy => add_shard_vault_proxy (Ap := Ap) shard proxy
  | InitCreation shard id header => init_shard_creation_parentchain_header_internal (Ap := Ap) mrenclave now shard id header
  end.

Fixpoint run_ops su (ops : list (StateId * SetupOp)) : outcome (Setup W Signer O) :=
  match ops with
  | [] => Ret su
  | (now, op) :: ops => run_op now op su ≫= λ '(su, _), run_ops su ops
  end.

Lemma safe_init now shard id funding : safe (init_proxied_shard_vault_internal (Ap := Ap) (O := O) signing_key now shard id funding).
Proof.
  apply safe_bind; [apply safe_ensure|intros _]. apply safe_bind; [apply safe_lift|intros signer]. apply safe_bind; [apply safe_lift|intros vault].
  intros su Hok. apply (update_at now shard (λ st, init_shard_vault_account st (public_of vault) id)); [done|intros st _; apply init_keeps|].
  apply safe_bind; [apply safe_factory|intros x]. apply safe_bind; [apply safe_indexes|intros i]. apply safe_bind; [apply safe_create_shared|intros xts].
  apply safe_bind; [apply safe_send|intros _]. apply safe_bind; [apply safe_indexes|intros j]. apply safe_bind; [apply safe_create_own|intros xts2].
  apply safe_send.
Qed.

Lemma safe_proxy shard proxy : safe (add_shard_vault_proxy (Ap := Ap) (O := O) shard proxy).
Proof.
  apply safe_bind; [apply safe_ensure|intros _]. apply safe_bind; [apply safe_bind; [apply safe_load|intros st; apply safe_lift]|intros [vault id]].
  apply safe_bind; [apply safe_factory|intros x]. apply safe_bind; [apply safe_indexes|intros i]. apply safe_bind; [apply safe_indexes|intros j].
  apply safe_bind; [apply safe_create_shared|intros xts]. apply safe_send.
Qed.

Lemma safe_config shard : safe (init_shard_config (Ap := Ap) (O := O) (W := W) mrenclave shard).
Proof.
  apply safe_bind; [apply safe_factory|intros x]. apply safe_bind; [apply safe_lift|intros mr]. apply safe_bind; [apply safe_other, safe_indexes|intros i].
  apply safe_bind; [apply safe_other, safe_create_shared|intros xts]. apply safe_other, safe_send.
Qed.

Lemma safe_creation now shard id header : safe (init_shard_creation_parentchain_header_internal (Ap := Ap) (O := O) mrenclave now shard id header).
Proof.
  intros su Hok. unfold init_shard_creation_parentchain_header_internal, get_shard_creation_info_internal.
  unfold mbind at 1, ecall_bind at 1, mbind at 1, ecall_bind at 1. unfold load_for_mutation at 1. rewrite (load_for_mutation_ok _ _ Hok).
  destruct (hs_view (su_states su) !! shard) as [st|] eqn:Hst; [|eexists _, _; split; [done|by apply evolves_refl]].
  cbn [mret ecall_ret]. destruct (for_parentchain (shard_creation_info st) id) eqn:Hn; [eexists _, _; split; [done|by apply evolves_refl]|].
  unfold mbind at 1, ecall_bind at 1. destruct (ensure_shard shard su) as [[su1 [u|e]]| |] eqn:He; [|by injection He as <- _; eexists _, _; split; [done|apply evolves_refl]|done..].
  injection He as <- _. apply (update_at now shard (λ st, set_creation_block st header id)); [done| |apply safe_config].
  intros st' Hst'. assert (st' = st) as -> by congruence. by apply creation_keeps.
Qed.

(** *** The first state *)

(** A shard is given the first state whether or not it has one: [init_shard] on a shard
    in use loses its vault, its creation blocks and its accounts. *)
Theorem init_shard_replaces_the_state now su shard fresh :
  hs_ok (su_states su) → initialize = Ok fresh →
  ∃ w r, init_shard now shard su = Ret (MkSetup w (solochains su) (parachains su) (su_ocall su), r) ∧ hs_ok w ∧
    hs_view w = <[shard := Ext.prune_state_diff fresh]> (hs_view (su_states su)).
Proof.
  intros Hok Hi. destruct (initialize_ok now (su_states su) fresh shard Hok Hi) as (w & res & Hr & Hw & Hv & _).
  unfold init_shard. rewrite Hr. by eexists w, _.
Qed.

Lemma init_shard_spares_others now su shard :
  hs_ok (su_states su) → ∃ su' r, init_shard now shard su = Ret (su', r) ∧ hs_ok (su_states su') ∧
    ∀ s, s ≠ shard → hs_view (su_states su') !! s = hs_view (su_states su) !! s.
Proof.
  intros Hok.
  assert ((∃ fresh, initialize = Ok fresh) ∨ ∃ e, initialize = Err e) as [[fresh Hi]|[e Hi]] by (clear; destruct initialize; eauto).
  - destruct (init_shard_replaces_the_state now su shard fresh Hok Hi) as (w & r & -> & Hw & Hv). eexists _, r. split; [done|]. split; [done|].
    intros s Hne. cbn. rewrite Hv. by apply lookup_insert_ne.
  - unfold init_shard. rewrite (initialize_fails now (su_states su) e shard Hok Hi). by eexists _, _.
Qed.

(** The states stay in order, and a shard that is not initialised again keeps what it has. *)
Definition keeps_but (reset : ShardIdentifier → Prop) su su' : Prop :=
  hs_ok (su_states su') ∧
  ∀ s st, hs_view (su_states su) !! s = Some st → ¬ reset s → ∃ st', hs_view (su_states su') !! s = Some st' ∧ keeps (PH := PH) st st'.

Lemma setup_op_keeps now op su :
  hs_ok (su_states su) → ∃ su' r, run_op now op su = Ret (su', r) ∧ keeps_but (λ s, op = InitShard s) su su'.
Proof.
  intros Hok. assert ((∃ shard, op = InitShard shard) ∨ safe (run_op now op)) as [[shard ->]|Hs]
    by (destruct op; [left; by eexists|right; first [apply safe_init|apply safe_proxy|apply safe_creation]..]).
  - destruct (init_shard_spares_others now su shard Hok) as (su' & r & Hr & Hok' & Hv). exists su', r. split; [done|]. split; [done|].
    intros s st Hst Hne. exists st. split; [|apply keeps_refl]. rewrite Hv; [done|]. intros ->. by apply Hne.
  - destruct (Hs su Hok) as (su' & r & Hr & Hok' & He). exists su', r. split; [done|]. split; [done|]. intros s st Hst _. by apply He.
Qed.

(** C23: Whatever the host asks for, a shard keeps its vault and the blocks of its creation,
    unless it is initialised again. *)
Theorem shard_setup_is_final su (ops : list (StateId * SetupOp)) :
  hs_ok (su_states su) → ∃ su', run_ops su ops = Ret su' ∧ keeps_but (λ s, InitShard s ∈ ops.*2) su su'.
Proof.
  revert su. induction ops as [|[now op] ops IH]; intros su Hok.
  { exists su. split; [done|]. split; [done|]. intros s st Hst _. exists st. split; [done|apply keeps_refl]. }
  destruct (setup_op_keeps now op su Hok) as (su1 & r & Hr & Hok1 & He). cbn [run_ops]. rewrite Hr. cbn [mbind outcome_bind].
  destruct (IH su1 Hok1) as (su2 & -> & Hok2 & He2). exists su2. split; [done|]. split; [done|]. intros s st Hst Hno.
  cbn [fmap list_fmap snd] in Hno. rewrite not_elem_of_cons in Hno. destruct Hno as [Hop Hno].
  destruct (He s st Hst) as (st1 & Hst1 & Hk1); [congruence|]. destruct (He2 s st1 Hst1 Hno) as (st2 & Hst2 & Hk2).
  exists st2. split; [done|]. by eapply keeps_trans.
Qed.

(** *** What is sent *)

(** One call, signed with the key and the nonce of a factory. *)
Definition signed_call (x : ExtrinsicsFactory Signer) (m : NodeMetadata) (call : OpaqueCall) : Xt :=
  opaque (Ap := Ap) (signer x) call
    (MkParams (runtime_spec_version m) (runtime_transaction_version m) (nonce_lock (nonce_cache x)) (genesis_hash x) (default_params (genesis_hash x))).
Definition advanced (x : ExtrinsicsFactory Signer) : ExtrinsicsFactory Signer :=
  MkFactory (genesis_hash x) (signer x) (MkNonceCache (u32_wrap (nonce_lock (nonce_cache x) + 1))) (node_metadata_repository x).

Lemma create_single x m call :
  metadata_lock (node_metadata_repository x) = Some m →
  create_extrinsics (Ap := Ap) x [call] None = Ret (advanced x, Ok [signed_call x m call]).
Proof.
  intros Hm. unfold create_extrinsics. cbn [Extrinsics.load_for_mutation]. unfold get_from_metadata. rewrite Hm. cbn [compose_all default].
  by rewrite from_bytes_compose.
Qed.

(** A step that succeeds. *)
Lemma ecall_ok {A B} (m : Step A) (f : A → Step B) su su' a : m su = Ret (su', Ok a) → (m ≫= f) su = f a su'.
Proof. intros Hm. unfold mbind, ecall_bind. by rewrite Hm. Qed.

Lemma ensure_ok su shard st : hs_ok (su_states su) → hs_view (su_states su) !! shard = Some st → ensure_shard shard su = Ret (su, Ok tt).
Proof. intros Hok Hst. unfold ensure_shard. rewrite (shard_exists_ok _ _ Hok), bool_decide_true; [done|by eauto]. Qed.

Lemma load_ok su shard st : hs_ok (su_states su) → hs_view (su_states su) !! shard = Some st → load_for_mutation shard su = Ret (su, Ok st).
Proof. intros Hok Hst. unfold load_for_mutation. by rewrite (load_for_mutation_ok _ _ Hok), Hst. Qed.

Lemma factory_ok su id x : solochains su !! id = Some x → get_extrinsic_factory id su = Ret (su, Ok x).
Proof. intros Hx. unfold get_extrinsic_factory. by rewrite Hx. Qed.

Lemma indexes_ok su x m p c i :
  metadata_lock (node_metadata_repository x) = Some m → call_indexes m p c = Ok i → call_indexes_of x p c su = Ret (su, Ok i).
Proof. intros Hm Hi. unfold call_indexes_of, get_from_metadata. by rewrite Hm, Hi. Qed.

Lemma create_shared_ok su id x m call :
  solochains su !! id = Some x → metadata_lock (node_metadata_repository x) = Some m →
  create_shared (Ap := Ap) id [call] su =
  Ret (MkSetup (su_states su) (<[id := advanced x]> (solochains su)) (parachains su) (su_ocall su), Ok [signed_call x m call]).
Proof.
  intros Hx Hm. unfold create_shared. rewrite (ecall_ok _ _ _ _ _ (factory_ok su id x Hx)). unfold create_with.
  rewrite (create_single x m call Hm). cbn [mbind outcome_bind]. unfold put_factory. by rewrite decide_True by (by rewrite Hx).
Qed.

(** The vault is funded by the enclave, at the next nonce of the enclave, and then makes
    the enclave its proxy at nonce zero: on every call, also for a vault that is there. *)
Theorem vault_setup_funds_then_registers now su shard id funding st st' k v x m i j o1 o2 :
  hs_ok (su_states su) → hs_view (su_states su) !! shard = Some st → hs_writable now (su_states su) shard →
  signing_key = Ok k → derive_hard k shard = Ok v → init_shard_vault_account st (public_of v) id = (st', Ok tt) →
  solochains su !! id = Some x → metadata_lock (node_metadata_repository x) = Some m →
  call_indexes m "Balances" "transfer_keep_alive" = Ok i → call_indexes m "Proxy" "add_proxy" = Ok j →
  send_to_parentchain (su_ocall su) [signed_call x m (vault_funding_call i (public_of v) funding)] id true = (o1, Ok tt) →
  send_to_parentchain o1 [signed_call (with_signer x v (MkNonceCache 0)) m (add_proxy_call j (public_of k))] id false = (o2, Ok tt) →
  ∃ w, init_proxied_shard_vault_internal (Ap := Ap) signing_key now shard id funding su =
      Ret (MkSetup w (<[id := advanced x]> (solochains su)) (parachains su) o2, Ok tt) ∧
    hs_ok w ∧ hs_view w = <[shard := Ext.prune_state_diff st']> (hs_view (su_states su)).
Proof.
  intros Hok Hst Hw Hk Hv Hi Hx Hm Hfi Hpi Hs1 Hs2. unfold init_proxied_shard_vault_internal.
  rewrite (ecall_ok _ _ _ _ _ (ensure_ok su shard st Hok Hst)), Hk. rewrite (ecall_ok (lift (Ok k) _) _ su su k) by done.
  rewrite (ecall_ok (lift (derive_hard k shard) _) _ su su v) by (unfold lift; by rewrite Hv).
  rewrite (ecall_ok _ _ _ _ _ (load_ok su shard st Hok Hst)), Hi. rewrite (ecall_ok (lift (Ok tt) _) _ su su tt) by done.
  destruct (write_ok now (su_states su) st' shard Hok) as (w & res & Hwr & Hwok & Hview & Hres). rewrite (Hres Hw) in Hwr.
  exists w. split; [|done]. set (su1 := MkSetup w (solochains su) (parachains su) (su_ocall su)).
  rewrite (ecall_ok (write_after_mutation now st' shard) _ su su1 tt) by (unfold write_after_mutation; by rewrite Hwr).
  rewrite (ecall_ok _ _ _ _ _ (factory_ok su1 id x Hx)), (ecall_ok _ _ _ _ _ (indexes_ok su1 x m _ _ i Hm Hfi)).
  rewrite (ecall_ok _ _ _ _ _ (create_shared_ok su1 id x m _ Hx Hm)).
  rewrite (ecall_ok (send _ _ _) _ _ (MkSetup w (<[id := advanced x]> (solochains su)) (parachains su) o1) tt) by (unfold send; cbn; by rewrite Hs1).
  cbn zeta. erewrite (ecall_ok (call_indexes_of x _ _)) by (by eapply indexes_ok).
  erewrite (ecall_ok (create_own _ _)); [|unfold create_own; by rewrite (create_single (with_signer x v (MkNonceCache 0)) m) by done].
  unfold send. cbn [su_ocall]. by rewrite Hs2.
Qed.

(** The proxy of a vault is added with an extrinsic for the parentchain of the vault,
    which is sent to the Integritee parentchain in any case. *)
Theorem proxy_call_goes_to_integritee su shard proxy st v id x m i j :
  hs_ok (su_states su) → hs_view (su_states su) !! shard = Some st → shard_vault st = Some (v, id) →
  solochains su !! id = Some x → metadata_lock (node_metadata_repository x) = Some m →
  call_indexes m "Proxy" "add_proxy" = Ok i → call_indexes m "Proxy" "proxy" = Ok j →
  ∃ r, add_shard_vault_proxy (Ap := Ap) shard proxy su =
    Ret (MkSetup (su_states su) (<[id := advanced x]> (solochains su)) (parachains su)
          (send_to_parentchain (su_ocall su) [signed_call x m (as_proxy_call j v (add_proxy_call i proxy))] Integritee false).1, r).
Proof.
  intros Hok Hst Hvault Hx Hm Hi Hj. unfold add_shard_vault_proxy, get_shard_vault_internal.
  rewrite (ecall_ok _ _ _ _ _ (ensure_ok su shard st Hok Hst)).
  rewrite (ecall_ok _ _ su su (v, id)) by (rewrite (ecall_ok _ _ _ _ _ (load_ok su shard st Hok Hst)), Hvault; done).
  rewrite (ecall_ok _ _ _ _ _ (factory_ok su id x Hx)), (ecall_ok _ _ _ _ _ (indexes_ok su x m _ _ i Hm Hi)), (ecall_ok _ _ _ _ _ (indexes_ok su x m _ _ j Hm Hj)).
  rewrite (ecall_ok _ _ _ _ _ (create_shared_ok su id x m _ Hx Hm)). unfold send. cbn [su_ocall].
  destruct (send_to_parentchain _ _ _ _) as [o r]. by eexists.
Qed.
End setup.
End SetupInv.

(** ** A concrete shard *)

Module SetupSample.
Import Sample OnChainSample PalletSample Factory.

Definition CREATION (id : ParentchainId) : Bytes := [106%N; match id with Integritee => 0%N | TargetA => 1%N | TargetB => 2%N end].

(** The pallets of the example, with the block of the creation. *)
#[export] Instance created_pallets : Pallets N := {|
  account_nonce := account_nonce (Pallets := pallets);
  inc_account_nonce := inc_account_nonce (Pallets := pallets);
  free_balance := free_balance (Pallets := pallets);
  reserved_balance := reserved_balance (Pallets := pallets);
  balances_transfer := balances_transfer (Pallets := pallets);
  force_set_balance := force_set_balance (Pallets := pallets);
  sudo_key := sudo_key (Pallets := pallets);
  parentchain_shard_vault := parentchain_shard_vault (Pallets := pallets);
  parentchain_creation_timestamp := parentchain_creation_timestamp (Pallets := pallets);
  parentchain_creation_block_number id st := Z.of_N <$> (SpIo.get st (CREATION id) ≫= head);
  parentchain_creation_block_hash id st := SpIo.get st (CREATION id) ≫= head;
  parentchain_set_creation_block id st h := (SpIo.set st (CREATION id) [h], Ok tt);
  parentchain_set_creation_timestamp := parentchain_set_creation_timestamp (Pallets := pallets);
  parentchain_set_now := parentchain_set_now (Pallets := pallets);
  parentchain_set_block := parentchain_set_block (Pallets := pallets);
  parentchain_init_shard_vault := parentchain_init_shard_vault (Pallets := pallets);
|}.

#[export] Instance created_laws : ShardLaws N (H := created_pallets).
Proof.
  split.
  - intros id st v st' res [= <- <-] id'. cbn [parentchain_shard_vault created_pallets pallets]. rewrite get_set. by destruct id, id'.
  - intros id st v id'. unfold shard_creation_info. cbn [parentchain_creation_block_number parentchain_creation_block_hash parentchain_init_shard_vault created_pallets pallets fst].
    rewrite !get_set. by destruct id, id'.
  - intros id st h id'. cbn [parentchain_shard_vault parentchain_set_creation_block created_pallets pallets fst]. rewrite get_set. by destruct id, id'.
  - intros id st h id' Hne. unfold shard_creation_info. cbn [parentchain_creation_block_number parentchain_creation_block_hash parentchain_set_creation_block created_pallets fst].
    rewrite !get_set. by destruct id, id'.
  - done.
  - done.
Qed.

#[export] Instance setup_calls : SetupCalls := {|
  call_indexes _ pallet call := Ok [N.of_nat (String.length pallet); N.of_nat (String.length call)];
  vault_funding_call i a v := i ++ [a; Z.to_N v];
  add_proxy_call i a := i ++ [a];
  as_proxy_call i a c := i ++ a :: c;
  update_shard_config_call i s mr := i ++ [s; mr];
|}.
#[export] Instance setup_keys : VaultKeys N := {| derive_hard k s := Ok (k + 1000 + s)%N; public_of k := k |}.
(** The extrinsics that were sent, and where to. *)
#[export] Instance outbox : SendToParentchain (list (ParentchainId * N)) N := λ o xts id _, (o ++ (pair id <$> xts), Ok tt).
(** An extrinsic is a number: of its signer, its nonce and its chain. *)
#[export] Instance setup_compose : ComposeExtrinsic N unit N := {|
  default_params _ := tt;
  compose_extrinsic_offline s call p := [(s * 10000 + Z.to_N (ep_nonce p))%N];
  from_bytes b := match b with [x] => Ok x | _ => Err "length"%string end;
|}.
#[export] Instance setup_compose_laws : ComposeLaws N unit N.
Proof. by refine {| opaque s call p := (s * 10000 + Z.to_N (ep_nonce p))%N |}. Defined.

Definition node_factory : ExtrinsicsFactory N := MkFactory 7%N 9%N (MkNonceCache 3) (MkRepository (Some (MkMetadata 1 1))).
Definition enclave : Setup (StateHandler.Handler.StateHandler Files) N (list (ParentchainId * N)) :=
  MkSetup handler {[ TargetA := node_factory; Integritee := node_factory ]} ∅ [].
End SetupSample.

Section witnesses.
Import Sample SetupSample SetupInv ShardSetup Factory.

(** A vault on one parentchain, which cannot be moved to another; another shard is
    initialised meanwhile. *)
Definition host_calls : list (StateId * SetupOp (PH := N)) :=
  [(10%N, InitVault shard TargetA 100); (11%N, InitShard 1%N); (12%N, InitVault shard Integritee 100); (13%N, InitCreation shard Integritee 4%N)].

Lemma shard_setup_is_final_witness :
  ∃ su' st', run_ops (W := StateHandler.Handler.StateHandler Files) (Ap := unit) (PH := N) (Ok 9%N) (Ok 5%N) enclave host_calls = Ret su' ∧
    hs_view (HandleStateLaws := handle_state_laws) (su_states su') !! shard = Some st' ∧ keeps (PH := N) Ext.default_externalities st' ∧
    shard_vault (PH := N) st' = Some (1009%N, TargetA).
Proof.
  destruct (shard_setup_is_final (Ap := unit) (PH := N) initialize (Ok 9%N) (Ok 5%N) enclave host_calls handler_ok) as (su' & Hr & _ & He).
  destruct (He shard Ext.default_externalities) as (st' & Hst' & Hk); [reflexivity|by unfold host_calls; cbn [fmap list_fmap snd]; rewrite !elem_of_cons, elem_of_nil; intros [|[[= ?]|[|[|]]]]|]. exists su', st'.
  split; [exact Hr|]. split; [exact Hst'|]. split; [exact Hk|].
  assert (match run_ops (W := StateHandler.Handler.StateHandler Files) (Ap := unit) (PH := N) (Ok 9%N) (Ok 5%N) enclave host_calls with
    | Ret su' => hs_view (HandleStateLaws := handle_state_laws) (su_states su') !! shard ≫= shard_vault (PH := N) | _ => None end = Some (1009%N, TargetA))
    as Hv by (vm_compute; reflexivity). by rewrite Hr, Hst' in Hv.
Defined.

Lemma vault_setup_funds_then_registers_witness :
  ∃ w su', init_proxied_shard_vault_internal (W := StateHandler.Handler.StateHandler Files) (Ap := unit) (PH := N) (Ok 9%N) 10%N shard TargetA 100 enclave = Ret (su', Ok tt) ∧
    su_states su' = w ∧ su_ocall su' = [(TargetA, 90003%N); (TargetA, 10090000%N)].
Proof.
  destruct (vault_setup_funds_then_registers (Ap := unit) (PH := N) initialize (Ok 9%N) 10%N enclave shard TargetA 100 Ext.default_externalities
    (init_shard_vault_account (PH := N) Ext.default_externalities 1009%N TargetA).1 9%N 1009%N node_factory (MkMetadata 1 1) [8; 19]%N [5; 9]%N
    [(TargetA, 90003%N)] [(TargetA, 90003%N); (TargetA, 10090000%N)]) as (w & Hr & _).
  - apply handler_ok.
  - reflexivity.
  - apply handler_writable. done.
  - reflexivity.
  - reflexivity.
  - vm_compute. reflexivity.
  - reflexivity.
  - reflexivity.
  - reflexivity.
  - reflexivity.
  - reflexivity.
  - reflexivity.
  - eexists w, _. split; [exact Hr|]. split; reflexivity.
Defined.

(** A vault on the target parentchain: the extrinsic of its factory goes to Integritee. *)
Lemma proxy_call_goes_to_integritee_witness :
  ∃ w su' r, add_shard_vault_proxy (W := StateHandler.Handler.StateHandler Files) (Ap := unit) (PH := N) shard 77%N
      (MkSetup w {[ TargetA := node_factory ]} ∅ []) = Ret (su', r) ∧ su_ocall su' = [(Integritee, 90003%N)].
Proof.
  destruct (write_ok (HandleStateLaws := handle_state_laws) 10%N handler
    (init_shard_vault_account (PH := N) Ext.default_externalities 1009%N TargetA).1 shard handler_ok) as (w & res & _ & Hok & Hv & _).
  destruct (proxy_call_goes_to_integritee (Ap := unit) (PH := N) initialize (MkSetup w {[ TargetA := node_factory ]} ∅ []) shard 77%N
    (Ext.prune_state_diff (init_shard_vault_account (PH := N) Ext.default_externalities 1009%N TargetA).1) 1009%N TargetA node_factory (MkMetadata 1 1)
    [5; 9]%N [5; 5]%N) as (r & Hr).
  - exact Hok.
  - cbn [su_states]. rewrite Hv. apply lookup_insert_eq.
  - vm_compute. reflexivity.
  - reflexivity.
  - reflexivity.
  - reflexivity.
  - reflexivity.
  - eexists w, _, r. split; [exact Hr|]. reflexivity.
Defined.
End witnesses.
