(* ===== verification/Broadcast.v ===== *)
(** How the blocks of a worker get to its peers: the worker of the service and its
    peers (src/service/src/worker.rs, initialized_service.rs), the client of the direct
    RPC that asks peers for their address (src/core/rpc-client/src/direct_client.rs),
    and the untrusted server that takes the blocks into the enclave
    (src/core/rpc-server/src/lib.rs, enclave-api/src/direct_request.rs,
    [call_rpc_methods] of the enclave).

    JSON, URLs, the node, and the web-socket clients are external. *)

From Stdlib Require Import Ascii.
From stdpp Require Import base gmap numbers strings list.
From S2P Require Import Prelude Collections PoolTypes SidechainDb SidechainStorage SidechainBlocks SidechainOCalls Dispatcher.
From S2P Require Import Externalities StfTypes Author AuthorProps ConsensusSample ParentchainClient WsServer DirectRpc Attestation.

Import Sc.
Import Text(as_bytes).
Open Scope worker_scope.
Local Open Scope nat_scope.

(** ** Texts *)

(** UTF-8 of the standard library: [str::from_utf8], [String::from_utf8_lossy] and
    [str::replace].  A string is the list of its bytes. *)
Module Utf8.
Local Open Scope N_scope.

Definition within (lo hi x : N) : bool := (lo <=? x) && (x <=? hi).

(** The number of bytes that follow a first byte, and the range of the next one. *)
Definition follow (b : N) : option (nat * N * N) :=
  if within 0 127 b then Some (0%nat, 128, 191)
  else if within 194 223 b then Some (1%nat, 128, 191)
  else if b =? 224 then Some (2%nat, 160, 191)
  else if b =? 237 then Some (2%nat, 128, 159)
  else if within 225 239 b then Some (2%nat, 128, 191)
  else if b =? 240 then Some (3%nat, 144, 191)
  else if within 241 243 b then Some (3%nat, 128, 191)
  else if b =? 244 then Some (3%nat, 128, 143)
  else None.

(** The bytes that continue a character, at most [n]. *)
Fixpoint continuation (n : nat) (lo hi : N) (bs : Bytes) : nat :=
  match n, bs with
  | S n, b :: bs => if within lo hi b then S (continuation n 128 191 bs) else 0%nat
  | _, _ => 0%nat
  end.

(** The length of the first character, or of the bytes in its place. *)
Definition first_char (b : N) (bs : Bytes) : bool * nat :=
  match follow b with
  | Some (n, lo, hi) => let k := continuation n lo hi bs in (bool_decide (k = n), k)
  | None => (false, 0%nat)
  end.

(** The fuel is the length; a character has a byte. *)
Fixpoint valid (fuel : nat) (bs : Bytes) : bool :=
  match fuel, bs with
  | _, [] => true
  | O, _ => false
  | S fuel, b :: bs => let '(ok, k) := first_char b bs in ok && valid fuel (drop k bs)
  end.

Definition REPLACEMENT : Bytes := [239; 191; 189].

Fixpoint lossy (fuel : nat) (bs : Bytes) : Bytes :=
  match fuel, bs with
  | _, [] => []
  | O, _ => []
  | S fuel, b :: bs => let '(ok, k) := first_char b bs in (if ok then b :: take k bs else REPLACEMENT) ++ lossy fuel (drop k bs)
  end.

Definition of_bytes (bs : Bytes) : string := String.string_of_list_ascii (ascii_of_N <$> bs).

Definition from_utf8 (bs : Bytes) : option string := if valid (length bs) bs then Some (of_bytes bs) else None.
Definition from_utf8_lossy (bs : Bytes) : string := of_bytes (lossy (length bs) bs).

(** [str::replace] by the empty text; [skip] bytes of an occurrence are left. *)
Fixpoint remove_all (pat : string) (skip : nat) (s : string) : string :=
  match s with
  | EmptyString => EmptyString
  | String c s' =>
      match skip with
      | S skip => remove_all pat skip s'
      | O => if String.prefix pat s then remove_all pat (String.length pat - 1) s' else String c (remove_all pat 0 s')
      end
  end.

Lemma of_bytes_as_bytes s : of_bytes (as_bytes s) = s.
Proof.
  unfold of_bytes, as_bytes. induction s as [|c s IH]; [done|]. cbn. rewrite ascii_N_embedding. f_equal. exact IH.
Qed.

Lemma from_utf8_as_bytes s : valid (length (as_bytes s)) (as_bytes s) = true → from_utf8 (as_bytes s) = Some s.
Proof. intros Hv. unfold from_utf8. by rewrite Hv, of_bytes_as_bytes. Qed.

(** Nothing is replaced in a valid text. *)
Lemma lossy_valid fuel bs : (length bs ≤ fuel)%nat → valid fuel bs = true → lossy fuel bs = bs.
Proof.
  revert bs. induction fuel as [|fuel IH]; intros [|b bs] Hl Hv; cbn in *; [done|lia|done|].
  destruct (first_char b bs) as [ok k]. apply andb_true_iff in Hv as [-> Hv]. cbn. f_equal.
  rewrite IH; [apply take_drop|rewrite length_drop; lia|done].
Qed.

Lemma from_utf8_lossy_valid s : valid (length (as_bytes s)) (as_bytes s) = true → from_utf8_lossy (as_bytes s) = s.
Proof. intros Hv. unfold from_utf8_lossy. by rewrite lossy_valid, of_bytes_as_bytes. Qed.

Lemma valid_ascii fuel bs : (length bs ≤ fuel)%nat → Forall (λ b, b < 128) bs → valid fuel bs = true.
Proof.
  revert bs. induction fuel as [|fuel IH]; intros [|b bs] Hl Hb; cbn in *; [done|lia|done|].
  apply Forall_cons in Hb as [Hb Hbs]. unfold first_char, follow, within.
  rewrite (proj2 (N.leb_le 0 b)), (proj2 (N.leb_le b 127)) by lia. destruct bs; cbn; apply IH; try done; cbn in *; lia.
Qed.
End Utf8.

(** ** When a worker is ready (initialized_service.rs) *)

Record InitializationHandler := MkInit {
  is_registered_on_parentchain : bool;
  has_produced_sidechain_block : bool;
  is_worker_for_shard_registered : bool;
}.

Module Initialized.
Implicit Types (h : InitializationHandler).

Definition default_handler : InitializationHandler := MkInit false false false.

Definition registered_on_parentchain h : InitializationHandler :=
  MkInit true (has_produced_sidechain_block h) (is_worker_for_shard_registered h).
Definition sidechain_block_produced h : InitializationHandler :=
  MkInit (is_registered_on_parentchain h) true (is_worker_for_shard_registered h).
Definition worker_for_shard_registered h : InitializationHandler :=
  MkInit (is_registered_on_parentchain h) (has_produced_sidechain_block h) true.

Definition is_initialized (mode : WorkerMode) h : bool :=
  match mode with
  | SidechainMode => is_registered_on_parentchain h && is_worker_for_shard_registered h && has_produced_sidechain_block h
  | _ => is_registered_on_parentchain h
  end.
End Initialized.

(** ** The client of the direct RPC (rpc-client/src/direct_client.rs, rpc/src/lib.rs) *)

(** [error::Error] of the client. *)
Inductive ClientError :=
| ClCodec (msg : string)
| ClSerdeJson (msg : string)
| ClStatus (msg : string)
| ClWsClientError (msg : string)
| ClMspcReceiver
| ClInvalidMetadata (msg : string)
| ClCustom (msg : string).

(** Requests are texts. *)
Class SerdeText `{Serde} := {
  request_serializes : ∀ r, is_ok (request_to_string r) = true;
  request_is_text : ∀ r s, request_to_string r = Ok s → Utf8.valid (length (as_bytes s)) (as_bytes s) = true;
}.

Definition map_err {A E E'} (f : E → E') (r : result A E) : result A E' := match r with Ok a => Ok a | Err e => Err (f e) end.

Module DirectClient.
Import Hex.
Section client.
Context `{HexCrate} `{Serde} `{Decode RpcReturnValue} `{Decode string}.
(** [WsClient::connect_one_shot] and the message that it passes on. *)
Context (connect_one_shot : string → string → result (option string) string).

Definition compose_jsonrpc_call (method : string) (params : list string) : result string string :=
  request_to_string (MkRpcRequest "2.0" method params (IdNumber 1)).

Definition get (url request : string) : result string ClientError :=
  match connect_one_shot url request with
  | Err e => Err (ClWsClientError e)
  | Ok None => Err ClMspcReceiver
  | Ok (Some response) => Ok response
  end.

Definition decode_from_rpc_response (json_rpc_response : string) : result string ClientError :=
  let? rpc_response := map_err ClSerdeJson (response_from_str json_rpc_response) in
  let? rpc_return_value := map_err ClCustom (from_hex (A := RpcReturnValue) (rpc_result rpc_response)) in
  let? response_message := map_err ClCodec (decode (A := string) (rv_value rpc_return_value)) in
  match rv_status rpc_return_value with
  | DrOk => Ok response_message
  | _ => Err (ClStatus response_message)
  end.

Definition get_mu_ra_url (url : string) : result string ClientError :=
  let? jsonrpc_call := map_err ClSerdeJson (compose_jsonrpc_call "author_getMuRaUrl" []) in
  let? response_str := get url jsonrpc_call in
  decode_from_rpc_response response_str.

Definition get_untrusted_worker_url (url : string) : result string ClientError :=
  let? jsonrpc_call := map_err ClSerdeJson (compose_jsonrpc_call "author_getUntrustedUrl" []) in
  let? response_str := get url jsonrpc_call in
  decode_from_rpc_response response_str.

Definition get_rsa_pubkey {K} (key_from_str : string → result K string) (url : string) : result K ClientError :=
  let? jsonrpc_call := map_err ClSerdeJson (compose_jsonrpc_call "author_getShieldingKey" []) in
  let? response_str := get url jsonrpc_call in
  let? shielding_pubkey_string := decode_from_rpc_response response_str in
  map_err ClSerdeJson (key_from_str shielding_pubkey_string).

(** [decode_metadata] and [try_from] are those of the metadata. *)
Definition get_state_metadata {R M} (decode_metadata : Bytes → result R string) (try_from : R → result M string) (url : string) :
    result M ClientError :=
  let? jsonrpc_call := map_err ClSerdeJson (compose_jsonrpc_call "state_getMetadata" []) in
  let? response_str := get url jsonrpc_call in
  let? rpc_response := map_err ClSerdeJson (response_from_str response_str) in
  let? rpc_return_value := map_err ClCustom (from_hex (A := RpcReturnValue) (rpc_result rpc_response)) in
  let? metadata := map_err ClCodec (decode_metadata (rv_value rpc_return_value)) in
  map_err ClInvalidMetadata (try_from metadata).
End client.
End DirectClient.

(** ** Blocks of peers *)

(** The JSON of blocks, and [Params::one] of the server. *)
Class BlockJson (J : Type) := {
  to_json_value : list SignedBlock → result J string;
  params_one : list J → result (list SignedBlock) string;
}.

Class BlockJsonLaws (J : Type) `{BlockJson J} := {
  one_of_json : ∀ blocks j, to_json_value blocks = Ok j → params_one [j] = Ok blocks;
}.

(** [CallError] of the server. *)
Inductive CallError :=
| CallInvalidParams (msg : string)
| CallFailed (status : Z).

(** [GLOBAL_SIDECHAIN_IMPORT_QUEUE_COMPONENT]. *)
Abbreviation QueueComponent := (option (list SignedBlock)).

Module UntrustedRpc.
Import Hex Api.
Section rpc.
Context {Params J : Type} `{JsonRpc Params} `{HexCrate} `{Serde} `{Encode (list SignedBlock), Decode (list SignedBlock)} `{BlockJson J}.
Implicit Types (component : QueueComponent).

(** In the enclave: the response in its buffer, and the status. *)
Definition call_rpc_methods component (request response : Bytes) : outcome (QueueComponent * Bytes * Z) :=
  match Utf8.from_utf8 request with
  | None => Ret (component, response, SGX_ERROR_UNEXPECTED)
  | Some request =>
      match component with
      | None => Ret (component, response, SGX_ERROR_UNEXPECTED)
      | Some queue =>
          sidechain_rpc_int (Params := Params) queue request ≫= λ '(queue, res),
          match write_slice_and_whitespace_pad response (as_bytes res) with
          | (response, Err _) => Ret (Some queue, response, SGX_ERROR_UNEXPECTED)
          | (response, Ok _) => Ret (Some queue, response, SGX_SUCCESS)
          end
      end
  end.

Definition response_len : nat := Z.to_nat 8192.

(** [transition] is the status of the ecall itself. *)
Definition rpc (transition : Z) component (request : Bytes) : outcome (QueueComponent * result Bytes Z) :=
  if decide (transition = SGX_SUCCESS) then
    call_rpc_methods component request (replicate response_len 0%N) ≫= λ '(component, response, retval),
    Ret (component, if decide (retval = SGX_SUCCESS) then Ok response else Err retval)
  else Ret (component, Err transition).

(** The method of the server. *)
Definition import_blocks (transition : Z) component (params : list J) : outcome (QueueComponent * result Bytes CallError) :=
  match params_one params with
  | Err e => Ret (component, Err (CallInvalidParams e))
  | Ok blocks =>
      match DirectClient.compose_jsonrpc_call "sidechain_importBlock" [to_hex blocks] with
      | Err _ => Panic
      | Ok enclave_req =>
          rpc transition component (as_bytes enclave_req) ≫= λ '(component, r),
          Ret (component, map_err CallFailed r)
      end
  end.
End rpc.
End UntrustedRpc.

(** ** The worker (worker.rs) *)

(** The node: the signers in the status of a shard, their enclaves, and the address
    that an enclave registered. *)
Class TeerexNode (Nd Acc En : Type) := {
  shard_status : Nd → ShardIdentifier → result (option (list Acc)) string;
  enclave_of : Nd → Acc → result (option En) string;
  instance_url : En → option Bytes;
}.

(** [error::Error] of the service, as it is used here. *)
Inductive WorkerError :=
| WkJson (msg : string)
| WkNode (msg : string)
| WkCustom (msg : string).

(** The tasks that were spawned: whom a request goes to, and its parameters. *)
Record Worker (J : Type) := MkWorker {
  peers : list string;
  initialization_handler : InitializationHandler;
  spawned : list (string * list J);
}.
Arguments MkWorker {J} _ _ _.
Arguments peers {J} _.
Arguments initialization_handler {J} _.
Arguments spawned {J} _.

Module Service.
Section service.
Context {Nd Acc En J : Type} `{!TeerexNode Nd Acc En} `{!BlockJson J}.
Context `{HexCrate} `{Serde} `{Decode RpcReturnValue} `{Decode string}.
Context (create_api : result Nd string) (parse_url : string → option string).
Context (connect_one_shot : string → string → result (option string) string).
Implicit Types (w : Worker J) (shard : ShardIdentifier).

Definition new_worker (peers : list string) : Worker J := MkWorker peers Initialized.default_handler [].

Definition broadcast_blocks w (blocks : list SignedBlock) : Worker J * result unit WorkerError :=
  match blocks with
  | [] => (w, Ok tt)
  | _ =>
      match to_json_value blocks with
      | Err e => (w, Err (WkJson e))
      | Ok json =>
          let blocks_json := [json] in
          (MkWorker (peers w) (Initialized.sidechain_block_produced (initialization_handler w))
             (spawned w ++ ((λ url, (url, blocks_json)) <$> peers w)), Ok tt)
      end
  end.

(** The address of the direct RPC of an enclave. *)
Definition enclave_url (enclave : En) : option string :=
  match instance_url enclave with
  | Some url => parse_url ("wss://" +:+ Utf8.remove_all "wss://" 0 (Utf8.from_utf8_lossy url))
  | None => None
  end.

Definition search_peer (peer_urls : list string) (enclave : En) : outcome (list string) :=
  unwrap (enclave_url enclave) ≫= λ url,
  match DirectClient.get_untrusted_worker_url connect_one_shot url with
  | Ok untrusted_worker_url => Ret (peer_urls ++ [untrusted_worker_url])
  | Err _ => Ret peer_urls
  end.

Definition registered (node_api : Nd) (signer : Acc) : option En :=
  match enclave_of node_api signer with Ok enclave => enclave | Err _ => None end.

Definition search_peers shard : outcome (result (list string) WorkerError) :=
  match create_api with
  | Err e => Ret (Err (WkCustom ("Failed to create NodeApi: " +:+ e)))
  | Ok node_api =>
      match shard_status node_api shard with
      | Err e => Ret (Err (WkNode e))
      | Ok None => Ret (Err (WkCustom "failed to fetch shard status"))
      | Ok (Some status) =>
          let enclaves := omap (registered node_api) status in
          for_each search_peer [] enclaves ≫= λ peer_urls, Ret (Ok peer_urls)
      end
  end.

Definition set_peers w (peers : list string) : Worker J := MkWorker peers (initialization_handler w) (spawned w).

Definition update_peers_of w shard : outcome (Worker J * result unit WorkerError) :=
  search_peers shard ≫= λ r,
  match r with
  | Err e => Ret (w, Err e)
  | Ok peers => Ret (set_peers w peers, Ok tt)
  end.

(** [SyncBlockBroadcaster] and [WorkerPeersUpdater] pass the calls on. *)
Definition error_text (e : WorkerError) : string := match e with WkJson m | WkNode m | WkCustom m => m end.

#[export] Instance worker_network : Network (Worker J) := {|
  update_peers w shard := update_peers_of w shard ≫= λ '(w, r), Ret (w, map_err error_text r);
  SidechainOCalls.broadcast_blocks w blocks := let '(w, r) := broadcast_blocks w blocks in (w, map_err error_text r);
|}.
End service.

(** *** The tasks *)

Section tasks.
Context {Params J : Type} `{JsonRpc Params} `{HexCrate} `{Serde} `{Encode (list SignedBlock), Decode (list SignedBlock)} `{BlockJson J}.

(** The enclaves behind the servers that listen. *)
Abbreviation Servers := (gmap string QueueComponent).

(** A task: it connects, unless the peer is not reachable, sends the request, and
    only logs what goes wrong. *)
Definition broadcast_task (transition : Z) (reachable : bool) (servers : Servers) (task : string * list J) : outcome Servers :=
  let '(url, blocks) := task in
  match servers !! url with
  | Some component =>
      if reachable then
        UntrustedRpc.import_blocks (Params := Params) transition component blocks ≫= λ '(component, _),
        Ret (<[url := component]> servers)
      else Ret servers
  | None => Ret servers
  end.
End tasks.
End Service.

(** ** What reaches the peers *)

Module ServiceInv.
Import Hex Api RpcInv UntrustedRpc Service.

(** Steps of the service and its tasks, in any order; a request is one step. *)
Inductive FleetStep :=
| SetPeers (urls : list string)
| Broadcast (blocks : list SignedBlock)
| RunTask (k : nat) (reachable : bool).

Record Fleet (J : Type) := MkFleet {
  fl_worker : Worker J;
  fl_servers : gmap string QueueComponent;
}.
Arguments MkFleet {J} _ _.
Arguments fl_worker {J} _.
Arguments fl_servers {J} _.

Section delivery.
Context {Params J : Type} `{HexLaws} `{SerdeLaws} `{!SerdeText} `{!JsonRpc Params} `{!JsonRpcLaws Params}.
Context `{Codec (list SignedBlock)} `{BlockJsonLaws J}.
Implicit Types (f : Fleet J) (w : Worker J) (url : string).

Definition without_task w (k : nat) : Worker J :=
  MkWorker (peers w) (initialization_handler w) (take k (spawned w) ++ drop (S k) (spawned w)).

Definition fleet_step f (step : FleetStep) : outcome (Fleet J) :=
  match step with
  | SetPeers urls => Ret (MkFleet (set_peers (fl_worker f) urls) (fl_servers f))
  | Broadcast blocks => Ret (MkFleet (broadcast_blocks (fl_worker f) blocks).1 (fl_servers f))
  | RunTask k reachable =>
      let w := fl_worker f in
      match spawned w !! k with
      | None => Ret f
      | Some task =>
          broadcast_task (Params := Params) SGX_SUCCESS reachable (fl_servers f) task ≫= λ servers,
          Ret (MkFleet (without_task w k) servers)
      end
  end.

(** The blocks in the tasks for a peer. *)
Definition task_for url (task : string * list J) : option (list SignedBlock) :=
  if decide (task.1 = url) then match params_one task.2 with Ok blocks => Some blocks | Err _ => None end else None.
Definition pending_for url (tasks : list (string * list J)) : list (list SignedBlock) := omap (task_for url) tasks.

(** What a broadcast sends to a peer: once for each time that it is in the list. *)
Definition sent_by url (urls : list string) (blocks : list SignedBlock) : list (list SignedBlock) :=
  match blocks with
  | [] => []
  | _ => if is_ok (to_json_value (J := J) blocks) then omap (λ u, if decide (u = url) then Some blocks else None) urls else []
  end.

Fixpoint sent_to_peer url (urls : list string) (steps : list FleetStep) : list (list SignedBlock) :=
  match steps with
  | [] => []
  | SetPeers urls :: steps => sent_to_peer url urls steps
  | Broadcast blocks :: steps => sent_by url urls blocks ++ sent_to_peer url urls steps
  | RunTask _ _ :: steps => sent_to_peer url urls steps
  end.

Definition always_reachable (steps : list FleetStep) : Prop := ∀ k, RunTask k false ∉ steps.

Lemma composed method params : ∃ msg, DirectClient.compose_jsonrpc_call method params = Ok msg ∧
  Utf8.from_utf8 (as_bytes msg) = Some msg.
Proof.
  unfold DirectClient.compose_jsonrpc_call. destruct (request_to_string _) as [msg|e] eqn:Hr.
  - exists msg. split; [done|]. apply Utf8.from_utf8_as_bytes. by eapply request_is_text.
  - pose proof (request_serializes (MkRpcRequest "2.0" method params (IdNumber 1))) as Hs. by rewrite Hr in Hs.
Qed.

(** The server puts the blocks of a request behind those that wait, whatever it
    can answer. *)
Lemma import_blocks_queues (queue blocks : list SignedBlock) (params : list J) :
  params_one params = Ok blocks →
  ∃ r, import_blocks (Params := Params) SGX_SUCCESS (Some queue) params = Ret (Some (queue ++ blocks), r).
Proof.
  intros Hp. unfold import_blocks. rewrite Hp. destruct (composed "sidechain_importBlock" [to_hex blocks]) as (msg & Hc & Hu).
  rewrite Hc. unfold rpc. rewrite decide_True by done. unfold call_rpc_methods. rewrite Hu.
  rewrite (blocks_of_peers_are_queued queue blocks (IdNumber 1) msg Hc). cbn [mbind outcome_bind].
  destruct (write_slice_and_whitespace_pad _ _) as [resp [n|e]]; cbn [mbind outcome_bind]; by eexists.
Qed.

Lemma import_blocks_returns component (params : list J) :
  ∃ component' r, import_blocks (Params := Params) SGX_SUCCESS component params = Ret (component', r) ∧ (component = None → component' = None).
Proof.
  destruct component as [queue|]; unfold import_blocks.
  - destruct (params_one params) as [blocks|e] eqn:Hp; [|by eexists _, _].
    destruct (import_blocks_queues queue blocks params Hp) as [r Hr]. unfold import_blocks in Hr. rewrite Hp in Hr. rewrite Hr. by eexists _, _.
  - destruct (params_one params) as [blocks|e]; [|by eexists _, _].
    destruct (composed "sidechain_importBlock" [to_hex blocks]) as (msg & -> & Hu).
    unfold rpc. rewrite decide_True by done. unfold call_rpc_methods. rewrite Hu. by eexists _, _.
Qed.

(** A task delivers to its peer only. *)
Lemma broadcast_task_spec reachable (servers : gmap string QueueComponent) (task : string * list J) url queue :
  servers !! url = Some (Some queue) →
  ∃ servers', broadcast_task (Params := Params) SGX_SUCCESS reachable servers task = Ret servers' ∧
    servers' !! url = Some (Some (queue ++ (if reachable then default [] (task_for url task) else []))).
Proof.
  intros Hq. destruct task as [u params]. unfold broadcast_task, task_for. cbn [fst snd].
  destruct reachable; [|exists servers; split; [by destruct (servers !! u)|by rewrite app_nil_r]].
  case_decide as Hu.
  - subst u. rewrite Hq. destruct (params_one params) as [blocks|e] eqn:Hp.
    + destruct (import_blocks_queues queue blocks params Hp) as [r ->]. eexists. split; [done|]. apply lookup_insert_eq.
    + unfold import_blocks. rewrite Hp. eexists. split; [done|]. rewrite app_nil_r. apply lookup_insert_eq.
  - rewrite app_nil_r. destruct (servers !! u) as [component|]; [|by exists servers].
    destruct (import_blocks_returns component params) as (c & r & -> & _). eexists. split; [done|]. by rewrite lookup_insert_ne.
Qed.

Lemma pending_of_broadcast url w blocks :
  pending_for url (spawned (broadcast_blocks w blocks).1) = pending_for url (spawned w) ++ sent_by url (peers w) blocks ∧
  peers (broadcast_blocks w blocks).1 = peers w.
Proof.
  unfold broadcast_blocks, sent_by. destruct blocks as [|b bs]; [by rewrite app_nil_r|].
  destruct (to_json_value _) as [json|e] eqn:Hj; [|by rewrite app_nil_r]. cbn. split; [|done].
  unfold pending_for. rewrite omap_app. f_equal. induction (peers w) as [|u us IH]; [done|]. cbn [fmap list_fmap omap list_omap].
  unfold task_for at 1. cbn [fst snd]. rewrite (one_of_json _ _ Hj). case_decide; by rewrite IH.
Qed.

Lemma pending_without_task url (tasks : list (string * list J)) k task :
  tasks !! k = Some task →
  option_list (task_for url task) ++ pending_for url (take k tasks ++ drop (S k) tasks) ≡ₚ pending_for url tasks.
Proof.
  intros Hk. rewrite <-(take_drop_middle tasks k task Hk) at 3. unfold pending_for. rewrite !omap_app. cbn [omap list_omap].
  destruct (task_for url task) as [bs|]; [|done]. change (option_list (Some bs)) with [bs]. apply (Permutation_middle (omap (task_for url) (take k tasks)) _ bs).
Qed.

Lemma concat_option (o : option (list SignedBlock)) : concat (option_list o) = default [] o.
Proof. destruct o; cbn; [apply app_nil_r|done]. Qed.

Lemma run_fleet_spec steps f url queue :
  fl_servers f !! url = Some (Some queue) →
  ∃ f' delivered lost, for_each fleet_step f steps = Ret f' ∧
    fl_servers f' !! url = Some (Some (queue ++ concat delivered)) ∧
    delivered ++ lost ++ pending_for url (spawned (fl_worker f')) ≡ₚ
      pending_for url (spawned (fl_worker f)) ++ sent_to_peer url (peers (fl_worker f)) steps ∧
    (always_reachable steps → lost = []).
Proof.
  revert f queue. induction steps as [|step steps IH]; intros f queue Hq.
  { exists f, [], []. split; [done|]. cbn. rewrite !app_nil_r. done. }
  assert (always_reachable (step :: steps) → always_reachable steps) as Hreach.
  { intros Hr k Hk. apply (Hr k). by right. }
  destruct step as [urls|blocks|k reachable]; cbn [for_each fleet_step].
  - destruct (IH (MkFleet (set_peers (fl_worker f) urls) (fl_servers f)) queue Hq) as (f' & d & l & Hrun & Hs & Hp & Hl).
    exists f', d, l. split; [exact Hrun|]. split; [exact Hs|]. split; [exact Hp|]. auto.
  - destruct (IH (MkFleet (broadcast_blocks (fl_worker f) blocks).1 (fl_servers f)) queue Hq) as (f' & d & l & Hrun & Hs & Hp & Hl).
    exists f', d, l. split; [exact Hrun|]. split; [exact Hs|]. split; [|auto]. rewrite Hp. cbn [fl_worker].
    destruct (pending_of_broadcast url (fl_worker f) blocks) as [-> ->]. by rewrite <-app_assoc.
  - destruct (spawned (fl_worker f) !! k) as [task|] eqn:Hk.
    + destruct (broadcast_task_spec reachable (fl_servers f) task url queue Hq) as (servers & -> & Hs1). cbn [mbind outcome_bind].
      destruct (IH (MkFleet (without_task (fl_worker f) k) servers) _ Hs1) as (f' & d & l & Hrun & Hs & Hp & Hl).
      pose proof (pending_without_task url _ _ _ Hk) as Hperm. cbn [fl_worker without_task spawned peers] in Hp. destruct reachable.
      * exists f', (option_list (task_for url task) ++ d), l. split; [exact Hrun|].
        split; [rewrite Hs, concat_app, concat_option; by rewrite app_assoc|]. split; [|auto].
        rewrite <-app_assoc, Hp, app_assoc, Hperm. done.
      * exists f', d, (option_list (task_for url task) ++ l). split; [exact Hrun|].
        split; [by rewrite Hs, app_nil_r|]. split.
        -- rewrite <-app_assoc. rewrite (Permutation_app_swap_app d), Hp, app_assoc, Hperm. done.
        -- intros Hr. destruct (Hr k). by left.
    + destruct (IH f queue Hq) as (f' & d & l & Hrun & Hs & Hp & Hl). exists f', d, l.
      split; [exact Hrun|]. split; [exact Hs|]. split; [exact Hp|]. auto.
Qed.

(** C20: Blocks are delivered once: over any broadcasts, changes of the peers and runs of
    the tasks in any order, the import queue of an enclave grows by broadcasts that
    were sent to it, each as often as it was in the list of peers; those that are
    neither delivered nor lost on the way wait in tasks.  No task fails the service. *)
Theorem broadcasts_are_delivered_once (steps : list FleetStep) (urls : list string) (servers : gmap string QueueComponent)
    url (queue : list SignedBlock) :
  servers !! url = Some (Some queue) →
  ∃ f' delivered lost, for_each fleet_step (MkFleet (new_worker urls) servers) steps = Ret f' ∧
    fl_servers f' !! url = Some (Some (queue ++ concat delivered)) ∧
    delivered ++ lost ++ pending_for url (spawned (fl_worker f')) ≡ₚ sent_to_peer url urls steps ∧
    (always_reachable steps → lost = []).
Proof. intros Hq. by apply (run_fleet_spec steps (MkFleet (new_worker urls) servers)). Qed.
End delivery.

(** *** The peers of a shard *)

Section peers.
Context {Nd Acc En Params J TCS G Sink : Type} `{!TeerexNode Nd Acc En}.
Context `{HexLaws} `{SerdeLaws} `{!SerdeText} `{!JsonRpc Params} `{!JsonRpcLaws Params} `{BlockJsonLaws J}.
Context `{Codec RpcReturnValue} `{Codec string} `{Decode N}.
Context (create_api : result Nd string) (parse_url : string → option string).
Context (connect_one_shot : string → string → result (option string) string).
(** The enclaves that are online, by the address of their direct RPC. *)
Context (methods : string → option (RpcMethod (RpcNode (StfTrustedOperation TCS G) Sink) Params)) (nodes : gmap string (RpcNode (StfTrustedOperation TCS G) Sink)).
Implicit Types (w : Worker J) (shard : ShardIdentifier) (n : RpcNode (StfTrustedOperation TCS G) Sink).

(** A client gets what the handler of the server answers, and an error where there
    is none. *)
Record OneShot : Prop := {
  one_shot_answer : ∀ url n token msg n' reply, nodes !! url = Some n →
    handle_message methods n token msg = Ret (n', Some reply) → connect_one_shot url msg = Ok (Some reply);
  one_shot_offline : ∀ url msg, nodes !! url = None → is_ok (connect_one_shot url msg) = false;
  untrusted_url_method : methods "author_getUntrustedUrl"%string = Some author_getUntrustedUrl;
}.

Context (transport : OneShot).

(** The client reads what the enclave has in its cache. *)
Lemma untrusted_url_of_node url n :
  nodes !! url = Some n →
  DirectClient.get_untrusted_worker_url connect_one_shot url = Ok (untrusted_worker_url (node_primitives n)).
Proof.
  intros Hn. unfold DirectClient.get_untrusted_worker_url. destruct (composed "author_getUntrustedUrl" []) as (msg & Hc & _).
  rewrite Hc. cbn [map_err]. unfold DirectClient.get.
  erewrite (one_shot_answer transport url n 0%Z msg); [|exact Hn|].
  2:{ unfold handle_message. rewrite (dispatched _ methods n _ _ _ _ _ Hc (untrusted_url_method transport)).
      unfold author_getUntrustedUrl. reflexivity. }
  unfold DirectClient.decode_from_rpc_response. rewrite answer_ok. cbn [map_err rpc_result]. unfold success.
  rewrite hex_round_trip. cbn [map_err rv_value rv_status]. by rewrite decode_encode.
Qed.

Lemma untrusted_url_offline url :
  nodes !! url = None → is_ok (DirectClient.get_untrusted_worker_url connect_one_shot url) = false.
Proof.
  intros Hn. unfold DirectClient.get_untrusted_worker_url. destruct (composed "author_getUntrustedUrl" []) as (msg & -> & _).
  cbn [map_err]. unfold DirectClient.get. pose proof (one_shot_offline transport url msg Hn) as Ho. by destruct (connect_one_shot url msg).
Qed.

(** The address for blocks of the enclave that a signer registered. *)
Definition block_address (node_api : Nd) (signer : Acc) : option string :=
  enclave ← registered node_api signer;
  url ← enclave_url parse_url enclave;
  n ← nodes !! url;
  Some (untrusted_worker_url (node_primitives n)).

Definition usable_addresses (node_api : Nd) (signers : list Acc) : Prop :=
  ∀ a e, a ∈ signers → registered node_api a = Some e → is_Some (enclave_url parse_url e).

Lemma search_peer_at found enclave url :
  enclave_url parse_url enclave = Some url →
  search_peer parse_url connect_one_shot found enclave =
    match DirectClient.get_untrusted_worker_url connect_one_shot url with Ok u => Ret (found ++ [u]) | Err _ => Ret found end.
Proof. intros Hu. unfold search_peer. by rewrite Hu. Qed.

Lemma search_peer_unusable found enclave :
  enclave_url parse_url enclave = None → search_peer parse_url connect_one_shot found enclave = Panic.
Proof. intros Hu. unfold search_peer. by rewrite Hu. Qed.

Lemma search_loop node_api signers found :
  usable_addresses node_api signers →
  for_each (search_peer parse_url connect_one_shot) found (omap (registered node_api) signers) =
    Ret (found ++ omap (block_address node_api) signers).
Proof.
  revert found. induction signers as [|a signers IH]; intros found Hu; [by rewrite app_nil_r|].
  assert (usable_addresses node_api signers) as Hu' by (intros b e Hb; apply Hu; by right).
  cbn [omap list_omap]. unfold block_address at 1. destruct (registered node_api a) as [e|] eqn:Hr; cbn [mbind option_bind]; [|by apply IH].
  destruct (Hu a e) as [url Hurl]; [by left|done|]. cbn [for_each]. rewrite (search_peer_at _ _ url Hurl), Hurl. cbn [mbind option_bind].
  destruct (nodes !! url) as [n|] eqn:Hn; cbn [mbind option_bind].
  - rewrite (untrusted_url_of_node url n Hn). cbn [mbind outcome_bind]. rewrite IH by done. by rewrite <-app_assoc.
  - pose proof (untrusted_url_offline url Hn) as Ho. destruct (DirectClient.get_untrusted_worker_url _ url); [done|].
    cbn [mbind outcome_bind]. by apply IH.
Qed.

Lemma update_peers_spec w node_api shard signers :
  create_api = Ok node_api → shard_status node_api shard = Ok (Some signers) → usable_addresses node_api signers →
  update_peers_of create_api parse_url connect_one_shot w shard = Ret (set_peers w (omap (block_address node_api) signers), Ok tt).
Proof.
  intros Ha Hs Hu. unfold update_peers_of, search_peers. rewrite Ha, Hs. by rewrite (search_loop _ _ [] Hu).
Qed.

(** One enclave without an address that can be parsed is enough. *)
Lemma search_loop_panics node_api signers a e found :
  a ∈ signers → registered node_api a = Some e → enclave_url parse_url e = None →
  for_each (search_peer parse_url connect_one_shot) found (omap (registered node_api) signers) = Panic.
Proof.
  revert found. induction signers as [|b signers IH]; intros found Ha Hr He; [by apply elem_of_nil in Ha|].
  cbn [omap list_omap]. destruct (registered node_api b) as [e'|] eqn:Hb.
  - cbn [for_each]. destruct (enclave_url parse_url e') as [url|] eqn:He'; [|by rewrite (search_peer_unusable _ _ He')].
    rewrite (search_peer_at _ _ url He'). apply elem_of_cons in Ha as [->|Ha]; [congruence|].
    destruct (DirectClient.get_untrusted_worker_url _ url); by apply IH.
  - apply elem_of_cons in Ha as [->|Ha]; [congruence|]. by apply IH.
Qed.

(** *** Proposals of the enclave *)

Context {Db : Type} `{IterOrder} `{Codec (list SignedBlock)}.
Implicit Types (o : Host Db (Worker J)).

#[local] Instance service_network : Network (Worker J) := worker_network create_api parse_url connect_one_shot.

Definition of_shard shard (blocks : list SignedBlock) : Prop := blocks ≠ [] ∧ ∀ b, b ∈ blocks → shard_id (header (block b)) = shard.

Lemma first_shard_of shard blocks :
  of_shard shard blocks →
  set_iter (list_to_set (C := gset ShardIdentifier) (shard_id ∘ header ∘ block <$> blocks)) !! 0 = Some shard.
Proof.
  intros [Hne Hall]. destruct (set_iter _) as [|s l] eqn:Hs.
  - destruct blocks as [|b bs]; [done|]. exfalso.
    assert (shard_id (header (block b)) ∈ set_iter (list_to_set (C := gset ShardIdentifier) (shard_id ∘ header ∘ block <$> b :: bs))) as Hin.
    { apply elem_of_set_iter, elem_of_list_to_set. cbn. by left. }
    rewrite Hs in Hin. by apply elem_of_nil in Hin.
  - assert (s ∈ set_iter (list_to_set (C := gset ShardIdentifier) (shard_id ∘ header ∘ block <$> blocks))) as Hin.
    { rewrite Hs. by left. }
    apply elem_of_set_iter, elem_of_list_to_set, list_elem_of_fmap in Hin as (b & -> & Hb). cbn. f_equal. by apply Hall.
Qed.

Lemma proposal_spec o shard blocks :
  of_shard shard blocks →
  SidechainBridge.enclave_propose_sidechain_blocks SGX_SUCCESS o blocks =
    update_peers_of create_api parse_url connect_one_shot (network o) shard ≫= λ '(w, _),
    Ret (MkHost (host_storage o) (broadcast_blocks w blocks).1, Ok tt).
Proof.
  intros Hs. unfold SidechainBridge.enclave_propose_sidechain_blocks, SidechainBridge.ffi_propose_sidechain_blocks,
    SidechainBridge.propose_sidechain_blocks. rewrite decide_True, decode_encode by done.
  destruct blocks as [|b bs] eqn:Hb; [by destruct Hs|]. rewrite <-Hb in *. rewrite (first_shard_of shard blocks Hs).
  cbn [unwrap mbind outcome_bind update_peers service_network worker_network].
  destruct (update_peers_of _ _ _ _ shard) as [[w r]| |]; [|done..]. cbn [mbind outcome_bind].
  change (SidechainOCalls.broadcast_blocks w blocks) with (let '(w, r) := broadcast_blocks w blocks in (w, map_err error_text r)).
  by destruct (broadcast_blocks w blocks).
Qed.

(** C21: The blocks that an enclave proposes go to the workers of their shard: the peers
    are set to the addresses of the enclaves that are registered for the shard and
    online, and each of them is sent the blocks once for each registration. *)
Theorem proposals_go_to_the_registered_workers o node_api shard signers (blocks : list SignedBlock) :
  create_api = Ok node_api → shard_status node_api shard = Ok (Some signers) → usable_addresses node_api signers →
  of_shard shard blocks →
  ∃ w', SidechainBridge.enclave_propose_sidechain_blocks SGX_SUCCESS o blocks = Ret (MkHost (host_storage o) w', Ok tt) ∧
    peers w' = omap (block_address node_api) signers ∧
    ∀ url, pending_for url (spawned w') =
      pending_for url (spawned (network o)) ++ sent_by (J := J) url (omap (block_address node_api) signers) blocks.
Proof.
  intros Ha Hsh Hu Hb. rewrite (proposal_spec o shard blocks Hb), (update_peers_spec _ _ _ _ Ha Hsh Hu). cbn [mbind outcome_bind].
  eexists. split; [done|]. split.
  - by destruct (pending_of_broadcast EmptyString (set_peers (network o) (omap (block_address node_api) signers)) blocks) as [_ ->].
  - intros url. by destruct (pending_of_broadcast url (set_peers (network o) (omap (block_address node_api) signers)) blocks) as [-> _].
Qed.

(** C40: An enclave that is registered for the shard without an address, or with one that
    cannot be parsed, stops the service of every worker that proposes a block. *)
Theorem unusable_address_stops_proposals o node_api shard signers a e (blocks : list SignedBlock) :
  create_api = Ok node_api → shard_status node_api shard = Ok (Some signers) →
  a ∈ signers → registered node_api a = Some e → enclave_url parse_url e = None →
  of_shard shard blocks →
  SidechainBridge.enclave_propose_sidechain_blocks SGX_SUCCESS o blocks = Panic.
Proof.
  intros Ha Hsh Hin Hr He Hb. rewrite (proposal_spec o shard blocks Hb). unfold update_peers_of, search_peers.
  by rewrite Ha, Hsh, (search_loop_panics _ _ _ _ [] Hin Hr He).
Qed.
End peers.
End ServiceInv.

(** ** Witnesses *)

Module ServiceSample.
Import Hex Api RpcInv RpcSample Service ServiceInv.

Lemma bits_ascii p : Forall (λ b, (b < 128)%N) (as_bytes (bits p)).
Proof. induction p as [p IH|p IH|]; [by constructor..|constructor]. Qed.

#[export] Instance sample_text : SerdeText.
Proof. split; [done|]. intros r s [= <-]. apply Utf8.valid_ascii; [done|apply bits_ascii]. Qed.

#[export] Instance sample_json : BlockJson (list SignedBlock) := {|
  to_json_value := Ok;
  params_one ps := match ps with [blocks] => Ok blocks | _ => Err "params"%string end;
|}.
#[export] Instance sample_json_laws : BlockJsonLaws (list SignedBlock).
Proof. split. by intros blocks j [= <-]. Qed.

#[export] Instance dec_string : Decode string := count_decode.
#[export] Instance codec_string : Codec string := count_codec.

#[export] Existing Instance signed_block_eq_dec.
#[export] Instance block_countable : Countable SignedBlock.
Proof. apply (inj_countable' (λ b, (block b, signature b)) (λ x, MkSignedBlock x.1 x.2)). by intros []. Defined.
#[export] Instance enc_block_list : Encode (list SignedBlock) := count_encode.
#[export] Instance dec_block_list : Decode (list SignedBlock) := count_decode.
#[export] Instance codec_block_list : Codec (list SignedBlock) := count_codec.

(** A node with three signers: one online, one that is not registered any more and
    one that is offline. *)
#[export] Instance sample_teerex : TeerexNode unit nat (option string) := {|
  shard_status _ _ := Ok (Some [1; 2; 3]);
  enclave_of _ a := Ok match a with 1 => Some (Some "online"%string) | 3 => Some (Some "wss://offline"%string) | 4 => Some None | _ => None end;
  instance_url := fmap as_bytes;
|}.

(** A node where an enclave has no address. *)
Definition careless_teerex : TeerexNode unit nat (option string) := {|
  shard_status _ _ := Ok (Some [1; 4]);
  enclave_of := enclave_of;
  instance_url := instance_url;
|}.

Import Sample.

Definition parse (s : string) : option string := Some s.

Definition direct_methods (name : string) :
    option (RpcMethod (RpcNode (StfTrustedOperation demo_call demo_getter) unit) (list string)) :=
  if String.eqb name "author_getUntrustedUrl" then Some author_getUntrustedUrl else None.

Definition online_node : RpcNode (StfTrustedOperation demo_call demo_getter) unit :=
  MkRpcNode (node_author sample_node) (node_observer sample_node) (MkPrimitives EmptyString "ws://blocks") (node_rpc sample_node).

Definition online : gmap string (RpcNode (StfTrustedOperation demo_call demo_getter) unit) := {[ "wss://online"%string := online_node ]}.

Definition one_shot (url msg : string) : result (option string) string :=
  match online !! url with
  | None => Err "offline"%string
  | Some n => match handle_message direct_methods n 0%Z msg with Ret (_, r) => Ok r | _ => Ok None end
  end.

Lemma sample_transport : OneShot one_shot direct_methods online.
Proof.
  split; [|by intros url msg Hn; unfold one_shot; rewrite Hn|done].
  intros url n token msg n' reply Hn Hh. unfold one_shot. rewrite Hn. unfold handle_message in *.
  destruct (handle_request_sync direct_methods n msg) as [[n1 r]| |]; [|done..]. cbn [mbind outcome_bind] in *. by simplify_eq.
Qed.

Definition block_of (s : ShardIdentifier) (number : Z) : SignedBlock := MkSignedBlock (MkBlock (MkHeader 0 number s 0 0) (MkBlockData 0 0 0 [] [])) [].
Definition b1 : SignedBlock := block_of 0%N 1%Z.
Definition b2 : SignedBlock := block_of 0%N 2%Z.

Definition steps : list FleetStep := [Broadcast [b1]; RunTask 1 true; SetPeers ["b"%string]; Broadcast [b2]; RunTask 0 true; RunTask 0 true].

Lemma sample_reachable : always_reachable steps.
Proof. intros k Hk. by repeat (apply elem_of_cons in Hk as [?|Hk]; [done|]); apply elem_of_nil in Hk. Qed.

Lemma sample_usable : usable_addresses parse tt [1; 2; 3].
Proof.
  intros a e Ha Hr. repeat (apply elem_of_cons in Ha as [->|Ha]; [cbn in Hr; simplify_eq; by eexists|]). by apply elem_of_nil in Ha.
Qed.

Lemma sample_blocks : of_shard 0%N [b1; b2].
Proof. split; [done|]. intros b Hb. apply elem_of_cons in Hb as [->|Hb]; [done|]. by apply list_elem_of_singleton in Hb as ->. Qed.

Definition sample_host : Host unit (Worker (list SignedBlock)) := MkHost (Storage.MkStorage tt [] ∅) (new_worker ["a"%string]).
End ServiceSample.

Section witnesses.
Import Service ServiceInv ServiceSample RpcSample.
#[local] Existing Instance listed_order.

Lemma broadcasts_are_delivered_once_witness :
  ∃ f' delivered, for_each (fleet_step (Params := list string)) (MkFleet (new_worker (J := list SignedBlock) ["a"; "b"]%string) {[ "b"%string := Some [] ]}) steps = Ret f' ∧
    fl_servers f' !! "b"%string = Some (Some (concat delivered)) ∧
    delivered ++ pending_for "b" (spawned (fl_worker f')) ≡ₚ [[b1]; [b2]].
Proof.
  destruct (broadcasts_are_delivered_once (Params := list string) (J := list SignedBlock) steps ["a"; "b"]%string {[ "b"%string := Some [] ]} "b" [])
    as (f' & d & l & Hrun & Hs & Hp & Hl); [apply lookup_singleton_eq|].
  exists f', d. split; [exact Hrun|]. split; [exact Hs|]. rewrite (Hl sample_reachable) in Hp. exact Hp.
Defined.

Lemma proposals_go_to_the_registered_workers_witness :
  ∃ w', SidechainBridge.enclave_propose_sidechain_blocks (H2 := service_network (Ok tt) parse one_shot) SGX_SUCCESS sample_host [b1; b2] =
      Ret (MkHost (host_storage sample_host) w', Ok tt) ∧ peers w' = ["ws://blocks"%string].
Proof.
  destruct (proposals_go_to_the_registered_workers (J := list SignedBlock) (Ok tt) parse one_shot direct_methods online sample_transport
    sample_host tt 0%N [1; 2; 3] [b1; b2]) as (w' & Hp & Hpeers & _).
  - done.
  - done.
  - exact sample_usable.
  - exact sample_blocks.
  - exists w'. split; [exact Hp|]. rewrite Hpeers. by vm_compute.
Defined.

Lemma unusable_address_stops_proposals_witness :
  SidechainBridge.enclave_propose_sidechain_blocks
    (H2 := service_network (TeerexNode0 := careless_teerex) (Ok tt) parse one_shot) SGX_SUCCESS sample_host [b1; b2] = Panic.
Proof.
  apply (unusable_address_stops_proposals (TeerexNode0 := careless_teerex) (Ok tt) parse one_shot sample_host tt 0%N [1; 4] 4 None).
  - reflexivity.
  - reflexivity.
  - by right; left.
  - reflexivity.
  - reflexivity.
  - exact sample_blocks.
Defined.
End witnesses.
